(* ===== verification/_CoqProject ===== *)
-Q . S2P
Prelude.v
GoStrings.v
FilterLexer.v
FilterParser.v
FilterGrammar.v
FilterSound.v
FilterTotal.v
FilterProps.v
FilterTheorems.v
AuthVerbs.v
AuthIdentity.v
AuthRegistry.v
Authenticator.v
AuthFacts.v
AuthPaths.v
AuthTheorems.v
SchemaIdent.v
SchemaNames.v
Schema.v
SchemaFacts.v
SchemaText.v
SchemaConstraints.v
SchemaRules.v
SchemaTheorems.v
Graph.v
GraphFacts.v
GraphSearch.v
GraphTraverse.v
GraphTheorems.v
Authz.v
AuthzTheorems.v
GoNumbers.v
Timestamps.v
ConstraintValues.v
ConstraintPlans.v
ConstraintCatalog.v
ConstraintTheorems.v
TableEngine.v
Migrate.v
MigrateFacts.v
MigrateData.v
MigrateTheorems.v
FtsQuery.v
FtsTheorems.v
QueryScan.v
QueryTables.v
QueryTotal.v
QueryTheorems.v
Changelog.v
ChangelogFacts.v
ChangelogTheorems.v
MigrateStaged.v
StagedFacts.v
StagedTheorems.v
Listen.v
ListenTx.v
ListenFlags.v
ListenTrace.v
ListenFinish.v
ListenMachine.v
ListenDelivery.v
ListenRefines.v
ListenSteps.v
ListenPages.v
ListenBounds.v
ListenTheorems.v
GoFloats.v
RenderSql.v
FilterTime.v
FilterTree.v
FilterRender.v
RenderQuotes.v
RenderNumbers.v
FilterShape.v
RenderSpec.v
RenderMethods.v
RenderTotal.v
RenderReader.v
SharedFilter.v
RenderTheorems.v
