(* ===== verification/Prelude.v ===== *)
(** * Dolmen: a verification library

    Dolmen is a server that gives agents typed tables in namespaces, over
    SQLite, PostgreSQL or a lakehouse.  This library models the parts of its
    Go code that decide: what a caller may do, which text is accepted, which
    rows satisfy the declared constraints, what a reader of the change log is
    given, what a graph read returns, what a migration leaves of a table.

    ** The parts and how they interact

    A request carries a credential.  [internal/auth] turns it into an identity
    ([Authenticator]) and keeps the grants and API keys ([AuthRegistry]);
    [internal/api/authz.go] and [scope.go] decide whether the identity may run
    the operation on its object, and which rows it may see ([Authz]).  The
    stores then parse the filter of the request ([FilterLexer],
    [FilterParser]), check a read query's tables ([QueryScan], [QueryTables]),
    compile a search text ([FtsQuery]), check declarations ([Schema],
    [SchemaConstraints]) and rows ([ConstraintValues], [ConstraintPlans]),
    append to the change log ([Changelog]) and answer graph reads ([Graph]).
    The PostgreSQL store renders the parsed filter as SQL ([FilterRender]) and
    puts it into the statement of a write with the caller's row scope
    ([SharedFilter]).  A subscription ([Listen]) reads the change log while
    everything else goes on writing to it.  A migration of a table is planned
    ([Migrate]) against the declaration and the rows ([TableEngine]), checks
    the constraints of the whole catalogue, stages the vectors it needs and
    then changes the table in one transaction ([MigrateStaged]), which the
    log tells it nobody has written behind.

    ** Files and sources

    - [Prelude] and [GoStrings]: outcomes, actions, tactics, list lemmas; Go
      strings, UTF-8 and the functions of package [strings] the code uses.
    - Filters, src/internal/filter: [FilterLexer] is lex.go, [FilterParser]
      is ast.go, filter.go and parse.go, one definition per method.
      [FilterGrammar] is an inductive grammar, the specification; [FilterSound]
      shows the parser refines it, [FilterTotal] that it ends, [FilterProps]
      what accepted trees contain and that more columns accept more;
      [FilterTheorems] states the results.
    - Authentication and grants, src/internal/auth: [AuthVerbs] (verb.go),
      [AuthIdentity] (auth.go, header.go, oidc_identity.go, reach.go),
      [AuthRegistry] (grants.go, keys.go), [Authenticator] (authenticator.go,
      token.go); [AuthFacts] and [AuthPaths] read the registry as an access
      relation; [AuthTheorems].
    - Schemas, src/internal/schema: [SchemaIdent] and [SchemaNames] (names),
      [Schema] (schema.go, shape.go, filename.go), [SchemaText],
      [SchemaFacts], [SchemaConstraints] and [SchemaRules] (constraints.go,
      relations.go, the changes of a migration), [Timestamps]
      (CanonicalTimestamp), [SchemaTheorems].
    - Graph, src/internal/graph: [Graph] is neighbors.go and traversal.go,
      for every sort of edges by reference ([EdgeSort]: Go's is not stable);
      [GraphFacts] is the lemmas on one hop, [GraphSearch] and
      [GraphTraverse] the invariant of the breadth-first search;
      [GraphTheorems].
    - Authorization, src/internal/api: [Authz] is authz.go and scope.go;
      [AuthzTheorems].
    - Constraints, src/internal/constraints and src/internal/value:
      [GoNumbers] (what strconv and math/big do), [ConstraintValues]
      (coerce.go, values.go), [ConstraintPlans] (predicate.go, evaluate.go,
      check.go, catalog.go); [ConstraintCatalog] (the keys, what a check of
      the catalogue establishes, and that it ends), [ConstraintTheorems].
    - Migrations, src/internal/store: [Migrate] is planMigration and what it
      calls (migrate.go, constraint_metadata.go, shape.go,
      file_constraints.go, schema_preserve.go); [TableEngine] is what it needs
      of SQLite, an interface with laws, and a table in memory that has them;
      [MigrateFacts] and [MigrateData] follow one change through the
      declaration and through the rows; [MigrateTheorems].  [MigrateStaged] is
      Migrate and PlanMigration with their transactions (migrate.go,
      migrate_staged.go, embed_stage.go); [StagedFacts] says what each
      transaction may leave, and [StagedTheorems] what the whole does among
      other writers.
    - Searches: [FtsQuery] is src/internal/postgres/fts_query.go;
      [FtsTheorems].
    - Read queries: [QueryScan] and [QueryTables] are
      src/internal/store/query_tables.go; [QueryTotal] is a Hoare logic for
      its walk; [QueryTheorems], which also has the search for a second
      statement of query.go ([hasStatementSeparator]).
    - Change log: [Changelog] is src/internal/store/changelog.go;
      [ChangelogFacts], [ChangelogTheorems].
    - Subscriptions: [Listen] is listen_session.go, listen_live.go,
      listen_drain.go, listen_page.go and listen_register.go of
      src/internal/store, a program counter and a step function for each
      goroutine.  [ListenTx] is what each transaction does, and the step
      relation of the whole, the session's own steps ([session_step]) and
      those of other users of the log; [ListenFlags], [ListenTrace] and
      [ListenFinish] who may be where, what is shown after the end, and that
      an ended session finishes; [ListenBounds] is the bound of the queue.
      [ListenMachine] is the abstract machine of delivery,
      [ListenDelivery] its invariants, and [ListenRefines], [ListenSteps] and
      [ListenPages] show that the goroutines refine it.  [ListenTheorems]
      runs one and states the results.
    - Filters in PostgreSQL, src/internal/postgres: [RenderSql] is the pieces
      of SQL, [FilterTime] filter_time.go, [FilterTree] and [FilterRender]
      filter_render.go (what the code learns of a tree, and what it writes),
      [GoFloats] the doubles of strconv, [SharedFilter] the parts of scope.go
      and mutate.go that use them.  [RenderSpec] says what a rendered filter
      should be, with a reader of SQL texts in [RenderReader];
      [FilterShape], [RenderQuotes], [RenderNumbers], [RenderMethods] and
      [RenderTotal] are the lemmas on each method;
      [RenderTheorems].

    ** How state and operations correspond

    A Go function that returns an error is a function into [outcome]: [Done],
    [Fail] with the error's class and the arguments of its message, or
    [OutOfFuel].  A method that changes its receiver takes and returns the
    record of its fields (the lexer, the parser, the walker of read queries,
    the search).  Operations on a database are actions [act] on a record of
    its tables: each SQL statement is one function on the state, written from
    the statement's text, and fails when [faults] says so for its number; a
    transaction that fails gives back the tables it began with.  The clock,
    random bytes, the answers of a context and of the engine are oracles,
    read at numbered instants, so that two reads of one request may differ.
    Where goroutines run at once, the state of all of them is one record, a
    step is one critical section, transaction or callback of one of them, and
    the theorems hold for every interleaving of the steps.
    Bit masks and machine integers are written with their width.

    What the code gets from elsewhere is a parameter with named laws: the
    Unicode tables ([UnicodeTables]), the matching of LIKE ([SqlLike]),
    signatures, JSON and base64 ([TokenCodec]), the snapshot a store gives to
    the graph reader, the media-type parser, the driver's quoting of names, the
    tables of SQLite ([Engine], [EngineLaws]), and around a migration SHA-256,
    the embedding provider and the other clients ([Surroundings]).  Every
    theorem that uses such a law has an instance at a concrete function.

    ** What the theorems show

    - Filters: a text accepted is, byte for byte, a sentence of the grammar;
      it names only known columns, calls only listed functions, cannot
      observe the clock, nests at most 1000 levels; every text is answered.
    - Identity and grants: effective verbs are exactly those granted on the
      object or above it; an identity comes from one source; revoking cannot
      lock the last administrator out; keys and tokens round-trip and expire;
      a refresh never undoes a newer keyring; failures change nothing.
    - Authorization: the decision equals the declarative rule table; a caller
      limited to its own rows is scoped to them; a batch is no way around a
      rule; listings show what grants bear on.
    - Schemas: validation accepts exactly the well-formed declarations;
      inferred names are valid and distinct; no constraint that names a field
      is missed; accepted file names are safe.
    - Constraints: the unique key is a faithful code; compiled predicates do
      not go wrong; a catalogue check passes exactly the valid catalogues,
      and the part of it a write runs keeps a valid catalogue valid.
    - Searches and queries: the words of a search are bound arguments only;
      the walk over a read query ends, rewrites lie inside the text, reserved
      names are refused; the search for a second statement agrees with
      SQLite's rules, but for a comment that starts with [/*/].
    - Change log: a live cursor loses nothing, a page is exactly the next
      changes of its feed, following a feed reaches every change.
    - Subscriptions: what a subscriber is given is ordered, has no change
      twice and passes none over; the replay is exact or ends with an error;
      a scoped subscriber sees its own rows; nothing follows the end, and a
      session that let go of its namespace leaves the log alone; an ended
      session finishes, its queue is bounded, and other readers lose nothing
      by it; all of it as a refinement of a machine of fourteen moves.
    - Migrations: the statements of a plan run, and make of the table what
      the changes say, by a function on tables that knows no SQL; rows keep
      fitting their declaration; a plan for a caller limited to its own rows
      shows nothing of the others; the unknown keys of a field follow it.
      Among other writers, failing statements and repeated attempts, a
      migration is one planned step of the table or none, the vectors and the
      full-text index stay those of the rows, a confirmed dry run applies to
      the table it read or fails, every run ends, and one that nobody disturbs
      does not give up.
    - Rendered filters: every filter is rendered or refused, never left open;
      a text, read back as PostgreSQL reads it, is the tree of the filter with
      every literal and argument in its place; the rows a write selects are
      within the caller's scope.
    - Graph: one hop is sound and complete when not truncated; a traversal
      returns, its subgraph is the ball around the seeds, its path shortest.

    ** Fuel

    Structural recursion is used wherever the code's loop allows it.
    Elsewhere the fuel is computed from the input and shown to be enough:
    [parse_fuel] is linear in the bytes of a filter and [Parse_total] shows
    that no method runs out of it, since each recursive call passes a token
    or goes down a fixed order of methods; the fuel of a search text is
    linear in its tokens; [query_fuel] is four times the tokens plus four,
    since the walk enters at most four methods between two tokens
    ([scanQueryTables_total]); the turns of a traversal are bounded by its
    limits ([Traverse_returns]); a candidate name is free after at most one
    more try than names taken.  The renderer recurses on the depth of the
    tree and lifts at most [lift_fuel] conditionals, two more than the code
    allows branches; the tag of a quoted text is found within its length.
    The pages of a migration end with the rows: each starts after the last
    number of the one before, so a bound on the numbers of the rows is fuel
    enough ([migrations_return]), and the attempts are four as in the code.
    The machine of a subscription needs none: its steps are a relation, and
    [ended_subscription_finishes] is by a rank.

    ** Not modelled, and why

    - The stores' row operations and searches, and the migrations of the
      PostgreSQL and lakehouse stores: mostly SQL text whose semantics belongs
      to an engine outside the repository.  The decisions they take on values,
      names, constraints, filters and cursors are the components above.
    - Of a migration on SQLite: the count of running migrations and the
      removal of stages they abandoned, the JSON text of a declaration (which
      of its unknown keys go where is modelled) and the wording of a plan.
    - The registry of listeners and the pinning of namespaces around a
      subscription: what they do to a session are steps anyone may take.
    - HTTP and MCP handlers, the command line, telemetry, embedding clients,
      blobs, OIDC exchanges: protocol and I/O around those decisions.
    - Encryption of secret fields: the standard library's cryptography.
    - The inference of field types from samples, and the error classes'
      rendering to HTTP statuses. *)
From Stdlib Require Import ZArith Lia Ascii String.
From stdpp Require Import base gmap strings list fin_maps.

#[export] Set Default Goal Selector "!".
#[export] Set Warnings "-clear-no-such-hyp".

(** stdpp blocks [simpl] on string concatenation; here it computes. *)
#[global] Arguments String.append !_ _ /.

(** ** Outcomes: a value, an error of the code, or an exhausted fuel *)

(** Every partial or looping function of the model answers with an
    [outcome]: [Done] is a Go return with a nil error, [Fail] a Go return with
    a non-nil error, and [OutOfFuel] is an artefact of the model which the
    termination theorems exclude. *)
Inductive outcome (E A : Type) : Type :=
| Done (a : A)
| Fail (e : E)
| OutOfFuel.
Arguments Done {E A} a.
Arguments Fail {E A} e.
Arguments OutOfFuel {E A}.

Definition obind {E A B : Type} (m : outcome E A) (f : A → outcome E B) : outcome E B :=
  match m with
  | Done a => f a
  | Fail e => Fail e
  | OutOfFuel => OutOfFuel
  end.

Declare Scope dolmen_scope.
Delimit Scope dolmen_scope with dolmen.

Notation "'let!' x ':=' m 'in' k" := (obind m (λ x, k))
  (at level 10, x pattern, m at level 100, k at level 200)
  : dolmen_scope.
Notation "'guard!' b 'else' e 'in' k" := (if b then k else Fail e)
  (at level 10, b at level 100, e at level 100, k at level 200)
  : dolmen_scope.
#[global] Open Scope dolmen_scope.

#[global] Instance outcome_eq_dec {E A} `{EqDecision E, EqDecision A} : EqDecision (outcome E A).
Proof. solve_decision. Defined.

Lemma obind_Done {E A B} (m : outcome E A) (f : A → outcome E B) b :
  obind m f = Done b ↔ ∃ a, m = Done a ∧ f a = Done b.
Proof. destruct m; simpl; naive_solver. Qed.

Lemma obind_not_fuel {E A B} (m : outcome E A) (f : A → outcome E B) :
  m ≠ OutOfFuel → (∀ a, m = Done a → f a ≠ OutOfFuel) → obind m f ≠ OutOfFuel.
Proof. destruct m; simpl; naive_solver. Qed.

(** ** Actions: an outcome and the state it leaves

    Code that changes a shared state and can fail is an [act]: a failure does
    not undo what was done before it, so both are always answered. *)
Definition act (St E A : Type) : Type := St → outcome E A * St.

Definition aret {St E A} (a : A) : act St E A := λ s, (Done a, s).
Definition afail {St E A} (e : E) : act St E A := λ s, (Fail e, s).
#[global] Arguments aret {_ _ _} _ _ /.
#[global] Arguments afail {_ _ _} _ _ /.
Definition abind {St E A B} (m : act St E A) (k : A → act St E B) : act St E B :=
  λ s, match m s with
       | (Done a, s') => k a s'
       | (Fail e, s') => (Fail e, s')
       | (OutOfFuel, s') => (OutOfFuel, s')
       end.

Notation "'do!' x ':=' m 'in' k" := (abind m (λ x, k))
  (at level 10, x pattern, m at level 100, k at level 200)
  : dolmen_scope.

Lemma abind_Done {St E A B} (m : act St E A) (k : A → act St E B) s b s' :
  abind m k s = (Done b, s') ↔ ∃ a s1, m s = (Done a, s1) ∧ k a s1 = (Done b, s').
Proof. unfold abind. destruct (m s) as [[a|e|] s1]; naive_solver. Qed.

(** An action that always comes to an end. *)
Definition halts {St E A} (m : act St E A) : Prop := ∀ s, (m s).1 ≠ OutOfFuel.
Section Halts.
Context {St E : Type}.
Lemma aret_halts {A} (a : A) : halts (aret a : act St E A).
Proof. done. Qed.
Lemma afail_halts {A} e : halts (afail e : act St E A).
Proof. done. Qed.
Lemma abind_halts {A B} (m : act St E A) (k : A → act St E B) : halts m → (∀ a, halts (k a)) → halts (abind m k).
Proof. intros Hm Hk s. unfold abind. specialize (Hm s). destruct (m s) as [[a| |] s']; [apply Hk|done|done]. Qed.
End Halts.

(** ** The tactics of the development *)

(** [inv_done] takes apart hypotheses [_ = Done _]: binds, conditionals and
    matches on an outcome are split, and the impossible branches discharged. *)
Ltac inv_done1 :=
  match goal with
  | H : Fail _ = Done _ |- _ => discriminate H
  | H : OutOfFuel = Done _ |- _ => discriminate H
  | H : Done _ = Done _ |- _ => simplify_eq
  | H : obind _ _ = Done _ |- _ => apply obind_Done in H; destruct H as (? & ? & H)
  | H : (if ?b then _ else _) = Done _ |- _ => destruct b eqn:?
  | H : (match ?x with _ => _ end) = Done _ |- _ => destruct x eqn:?
  end.
Ltac inv_done := repeat (inv_done1; simpl in *; simplify_eq).

Create HintDb dolmen discriminated.
Create Rewrite HintDb dolmen.

(** ** Association lists, used for the constant maps of the source *)

Fixpoint assoc {A : Type} (k : string) (l : list (string * A)) : option A :=
  match l with
  | [] => None
  | (k', a) :: l' => if String.eqb k k' then Some a else assoc k l'
  end.

Definition mem (k : string) (l : list string) : bool := existsb (String.eqb k) l.

Lemma mem_spec k l : mem k l = true ↔ k ∈ l.
Proof.
  unfold mem. rewrite existsb_exists. split.
  - intros (x & Hx & ->%String.eqb_eq). by apply list_elem_of_In.
  - intros H%list_elem_of_In. exists k. split; [done | apply String.eqb_refl].
Qed.

Lemma assoc_Some_elem {A} k (l : list (string * A)) a : assoc k l = Some a → (k, a) ∈ l.
Proof.
  induction l as [|[k' a'] l IH]; simpl; [done|].
  destruct (String.eqb_spec k k') as [->|]; [intros [= ->]; left | right; auto].
Qed.
#[export] Hint Resolve assoc_Some_elem : dolmen.

(** ** Contexts

    A Go [context.Context] is observed by calling [ctx.Err()].  The model
    numbers the observations a computation makes, and a context answers for
    each of them; [None] is a nil error.  An error, once seen, stays. *)
Inductive ctx_error := Canceled | DeadlineExceeded.
#[global] Instance ctx_error_eq_dec : EqDecision ctx_error.
Proof. solve_decision. Defined.

Definition ctx : Type := nat → option ctx_error.
Definition background : ctx := λ _, None.
Definition ctx_stable (c : ctx) : Prop := ∀ i j e, (i ≤ j)%nat → c i = Some e → c j = Some e.

Lemma background_stable : ctx_stable background.
Proof. done. Qed.
#[export] Hint Resolve background_stable : dolmen.
