(* ===== verification/GoStrings.v ===== *)
(** * Go strings

    A Go string is a sequence of bytes, here a [string] whose characters are
    the bytes.  This file models what the source uses of the packages
    [strings], [unicode/utf8] and [unicode]: byte tests, UTF-8 decoding with
    Go's replacement of invalid bytes, [strings.ToLower], [strings.EqualFold],
    [strings.TrimSpace], [strings.HasPrefix], [strings.Cut], [strings.Split],
    [strings.Join] and [strings.Compare].  The Unicode tables themselves are
    the parameter [UnicodeTables]. *)
From Stdlib Require Import ZArith Lia Ascii String.
From stdpp Require Import base gmap strings list.
From S2P Require Import Prelude.
Local Open Scope Z_scope.

(** ** Bytes *)

Definition byte_val (c : ascii) : Z := Z.of_N (N_of_ascii c).
Definition byte_of (z : Z) : ascii := ascii_of_N (Z.to_N (z mod 256)).

Lemma byte_val_range c : 0 <= byte_val c < 256.
Proof. unfold byte_val. pose proof (N_ascii_bounded c). lia. Qed.

Lemma byte_of_val c : byte_of (byte_val c) = c.
Proof.
  unfold byte_of. rewrite Z.mod_small by apply byte_val_range.
  unfold byte_val. rewrite N2Z.id. apply ascii_N_embedding.
Qed.

Lemma byte_val_of z : 0 <= z < 256 → byte_val (byte_of z) = z.
Proof.
  intros H. unfold byte_of, byte_val. rewrite Z.mod_small by done.
  rewrite N_ascii_embedding by lia. lia.
Qed.

Lemma byte_val_inj c d : byte_val c = byte_val d → c = d.
Proof. intros H. by rewrite <-(byte_of_val c), H, byte_of_val. Qed.

(** [len(s)], the number of bytes. *)
Definition len (s : string) : Z := Z.of_nat (String.length s).
#[global] Arguments len : simpl never.

(** The slice [s[n:]]. *)
Fixpoint str_drop (n : nat) (s : string) : string :=
  match n, s with
  | O, _ => s
  | S n', String _ s' => str_drop n' s'
  | S _, EmptyString => EmptyString
  end.

Lemma str_drop_length n s : String.length (str_drop n s) = (String.length s - n)%nat.
Proof. revert s. induction n as [|n IH]; intros [|c s]; simpl; try done; lia. Qed.

(** The slice [s[:n]]. *)
Fixpoint str_take (n : nat) (s : string) : string :=
  match n, s with
  | O, _ => EmptyString
  | S n', String c s' => String c (str_take n' s')
  | S _, EmptyString => EmptyString
  end.

(** [strings.HasPrefix(s, p)]. *)
Fixpoint has_prefix (s p : string) {struct p} : bool :=
  match p, s with
  | EmptyString, _ => true
  | String a p', String b s' => Ascii.eqb a b && has_prefix s' p'
  | String _ _, EmptyString => false
  end.

Definition has_suffix (s p : string) : bool :=
  (String.length p <=? String.length s)%nat
  && String.eqb (str_drop (String.length s - String.length p) s) p.

(** [strings.Contains(s, sub)]. *)
Fixpoint contains (s sub : string) : bool :=
  has_prefix s sub || match s with EmptyString => false | String _ s' => contains s' sub end.

Fixpoint any_byte (f : ascii → bool) (s : string) : bool :=
  match s with EmptyString => false | String c s' => f c || any_byte f s' end.

Fixpoint all_bytes (f : ascii → bool) (s : string) : bool :=
  match s with EmptyString => true | String c s' => f c && all_bytes f s' end.

Fixpoint map_bytes (f : ascii → ascii) (s : string) : string :=
  match s with EmptyString => EmptyString | String c s' => String (f c) (map_bytes f s') end.

(** [strings.Cut(s, "c")] for a one-byte separator. *)
Fixpoint cut (s : string) (sep : ascii) : option (string * string) :=
  match s with
  | EmptyString => None
  | String c s' =>
      if Ascii.eqb c sep then Some (EmptyString, s')
      else match cut s' sep with
           | Some (a, b) => Some (String c a, b)
           | None => None
           end
  end.

(** [strings.Split(s, "c")] for a one-byte separator: never empty. *)
Fixpoint split (s : string) (sep : ascii) : list string :=
  match s with
  | EmptyString => [EmptyString]
  | String c s' =>
      if Ascii.eqb c sep then EmptyString :: split s' sep
      else match split s' sep with
           | w :: ws => String c w :: ws
           | [] => [String c EmptyString]
           end
  end.

(** [strings.Join(l, sep)]. *)
Fixpoint join (sep : string) (l : list string) : string :=
  match l with
  | [] => EmptyString
  | [w] => w
  | w :: ws => w +:+ sep +:+ join sep ws
  end.

(** [strings.Compare]: byte-wise lexicographic order. *)
Fixpoint str_compare (a b : string) : comparison :=
  match a, b with
  | EmptyString, EmptyString => Eq
  | EmptyString, String _ _ => Lt
  | String _ _, EmptyString => Gt
  | String c a', String d b' =>
      match byte_val c ?= byte_val d with
      | Eq => str_compare a' b'
      | r => r
      end
  end.

Definition str_ltb (a b : string) : bool :=
  match str_compare a b with Lt => true | _ => false end.

(** ** UTF-8 *)

Definition RuneError : Z := 0xFFFD.

Definition in_range (lo hi x : Z) : bool := (lo <=? x) && (x <=? hi).

(** [utf8.DecodeRuneInString]: the rune and its width; an invalid byte is
    [RuneError] of width 1, the empty string [RuneError] of width 0. *)
Definition decode_rune (s : string) : Z * nat :=
  let cont := in_range 0x80 0xBF in
  match s with
  | EmptyString => (RuneError, 0%nat)
  | String c0 s1 =>
      let b0 := byte_val c0 in
      if b0 <? 0x80 then (b0, 1%nat)
      else if b0 <? 0xC2 then (RuneError, 1%nat)
      else match s1 with
      | EmptyString => (RuneError, 1%nat)
      | String c1 s2 =>
          let b1 := byte_val c1 in
          if b0 <? 0xE0 then
            if cont b1 then (Z.lor (Z.shiftl (Z.land b0 0x1F) 6) (Z.land b1 0x3F), 2%nat)
            else (RuneError, 1%nat)
          else
          let lo := if b0 =? 0xE0 then 0xA0 else if b0 =? 0xF0 then 0x90 else 0x80 in
          let hi := if b0 =? 0xED then 0x9F else if b0 =? 0xF4 then 0x8F else 0xBF in
          if negb (in_range lo hi b1) then (RuneError, 1%nat)
          else match s2 with
          | EmptyString => (RuneError, 1%nat)
          | String c2 s3 =>
              let b2 := byte_val c2 in
              if negb (cont b2) then (RuneError, 1%nat)
              else if b0 <? 0xF0 then
                (Z.lor (Z.shiftl (Z.land b0 0x0F) 12)
                   (Z.lor (Z.shiftl (Z.land b1 0x3F) 6) (Z.land b2 0x3F)), 3%nat)
              else if 0xF4 <? b0 then (RuneError, 1%nat)
              else match s3 with
              | EmptyString => (RuneError, 1%nat)
              | String c3 _ =>
                  let b3 := byte_val c3 in
                  if cont b3 then
                    (Z.lor (Z.shiftl (Z.land b0 0x07) 18)
                       (Z.lor (Z.shiftl (Z.land b1 0x3F) 12)
                          (Z.lor (Z.shiftl (Z.land b2 0x3F) 6) (Z.land b3 0x3F))), 4%nat)
                  else (RuneError, 1%nat)
              end
          end
      end
  end.

(** [for _, r := range s] and [[]rune(s)]: one fuel unit per byte suffices,
    because every rune of a non-empty string is at least one byte wide. *)
Fixpoint runes_fuel (fuel : nat) (s : string) : list Z :=
  match fuel, s with
  | O, _ | _, EmptyString => []
  | S f, _ => let '(r, w) := decode_rune s in r :: runes_fuel f (str_drop w s)
  end.
Definition runes (s : string) : list Z := runes_fuel (String.length s) s.

(** [utf8.AppendRune]. *)
Definition encode_rune (r : Z) : string :=
  let b z := byte_of z in
  if in_range 0 0x7F r then String (b r) EmptyString
  else if in_range 0x80 0x7FF r then
    String (b (Z.lor 0xC0 (Z.shiftr r 6))) (String (b (Z.lor 0x80 (Z.land r 0x3F))) EmptyString)
  else if in_range 0x800 0xFFFF r && negb (in_range 0xD800 0xDFFF r) then
    String (b (Z.lor 0xE0 (Z.shiftr r 12)))
      (String (b (Z.lor 0x80 (Z.land (Z.shiftr r 6) 0x3F)))
         (String (b (Z.lor 0x80 (Z.land r 0x3F))) EmptyString))
  else if in_range 0x10000 0x10FFFF r then
    String (b (Z.lor 0xF0 (Z.shiftr r 18)))
      (String (b (Z.lor 0x80 (Z.land (Z.shiftr r 12) 0x3F)))
         (String (b (Z.lor 0x80 (Z.land (Z.shiftr r 6) 0x3F)))
            (String (b (Z.lor 0x80 (Z.land r 0x3F))) EmptyString)))
  else String (b 0xEF) (String (b 0xBF) (String (b 0xBD) EmptyString)).

(** ** Case *)

Definition ascii_lower_byte (c : ascii) : ascii :=
  if in_range 65 90 (byte_val c) then byte_of (byte_val c + 32) else c.
Definition ascii_lower (r : Z) : Z := if in_range 65 90 r then r + 32 else r.

Definition is_ascii (s : string) : bool := all_bytes (λ c, byte_val c <? 0x80) s.

(** The tables of package [unicode], for runes past ASCII only: the ASCII
    range is written out in the functions below, as it is in Go. *)
Class UnicodeTables := {
  lower_rune : Z → Z;           (* unicode.ToLower above U+007F *)
  fold_runes : Z → Z → bool;    (* same orbit of unicode.SimpleFold *)
  space_rune : Z → bool;        (* unicode.IsSpace above U+007F *)
  letter_rune : Z → bool;       (* unicode.IsLetter above U+007F *)
  digit_rune : Z → bool;        (* unicode.IsDigit above U+007F *)
  control_rune : Z → bool;      (* unicode.IsControl above U+007F *)
}.

(** Tables of a world whose letters are the ASCII ones, for evaluation. *)
Definition ascii_tables : UnicodeTables :=
  {| lower_rune := λ r, r; fold_runes := λ _ _, false; space_rune := λ _, false;
     letter_rune := λ _, false; digit_rune := λ _, false; control_rune := λ _, false |}.

Section Case.
Context {UT : UnicodeTables}.

Definition go_lower_rune (r : Z) : Z := if r <? 0x80 then ascii_lower r else lower_rune r.

(** [strings.ToLower]. *)
Definition to_lower (s : string) : string :=
  if is_ascii s then map_bytes ascii_lower_byte s
  else foldr (λ r acc, encode_rune (go_lower_rune r) +:+ acc) EmptyString (runes s).

Definition fold_eq (r1 r2 : Z) : bool :=
  if (r1 <? 0x80) && (r2 <? 0x80) then ascii_lower r1 =? ascii_lower r2
  else (r1 =? r2) || fold_runes r1 r2.

Fixpoint fold_eq_runes (l1 l2 : list Z) : bool :=
  match l1, l2 with
  | [], [] => true
  | r1 :: l1', r2 :: l2' => fold_eq r1 r2 && fold_eq_runes l1' l2'
  | _, _ => false
  end.

(** [strings.EqualFold]. *)
Definition equal_fold (s t : string) : bool := fold_eq_runes (runes s) (runes t).

(** [unicode.IsSpace], [unicode.IsLetter], [unicode.IsDigit]. *)
Definition is_space (r : Z) : bool :=
  if r <? 0x80 then in_range 9 13 r || (r =? 32) else space_rune r.
Definition is_letter (r : Z) : bool :=
  if r <? 0x80 then in_range 65 90 r || in_range 97 122 r else letter_rune r.
Definition is_digit_rune (r : Z) : bool :=
  if r <? 0x80 then in_range 48 57 r else digit_rune r.

(** [strings.TrimSpace]: runs of space runes are cut from both ends. *)
Fixpoint trim_left_fuel (fuel : nat) (s : string) : string :=
  match fuel, s with
  | O, _ | _, EmptyString => s
  | S f, _ => let '(r, w) := decode_rune s in
              if is_space r then trim_left_fuel f (str_drop w s) else s
  end.

(** The longest prefix of [s] whose last rune is not a space. *)
Fixpoint trim_right_fuel (fuel : nat) (s : string) : string :=
  match fuel, s with
  | O, _ | _, EmptyString => EmptyString
  | S f, _ =>
      let '(r, w) := decode_rune s in
      let rest := trim_right_fuel f (str_drop w s) in
      if is_space r && String.eqb rest EmptyString then EmptyString
      else str_take w s +:+ rest
  end.

Definition trim_space (s : string) : string :=
  let t := trim_left_fuel (String.length s) s in trim_right_fuel (String.length t) t.
End Case.

(** ** Lemmas *)

Lemma app_assoc_str (a b c : string) : (a +:+ b) +:+ c = a +:+ (b +:+ c).
Proof. induction a; simpl; congruence. Qed.

Lemma app_nil_r_str (a : string) : a +:+ "" = a.
Proof. induction a; simpl; congruence. Qed.

Lemma len_app a b : len (a +:+ b) = len a + len b.
Proof. unfold len. induction a; simpl; lia. Qed.

Lemma len_nonneg s : 0 <= len s.
Proof. unfold len. lia. Qed.

Lemma len_cons c s : len (String c s) = 1 + len s.
Proof. unfold len. simpl. lia. Qed.

Lemma len_nil : len "" = 0.
Proof. done. Qed.

Lemma app_inv_head_str (a b c : string) : a +:+ b = a +:+ c → b = c.
Proof. induction a; simpl; [done | intros [= H]; auto]. Qed.

Lemma has_prefix_spec s p : has_prefix s p = true ↔ ∃ r, s = p +:+ r.
Proof.
  revert s. induction p as [|a p IH]; intros s; simpl.
  - split; [eauto | done].
  - destruct s as [|b s].
    + split; [discriminate | intros (r & ?); discriminate].
    + rewrite andb_true_iff, IH, Ascii.eqb_eq. split.
      * intros [-> (r & ->)]. eauto.
      * intros (r & [= -> ->]). eauto.
Qed.

Lemma str_compare_eq a b : str_compare a b = Eq ↔ a = b.
Proof.
  revert b. induction a as [|c a IH]; intros [|d b]; simpl; try done.
  destruct (Z.compare_spec (byte_val c) (byte_val d)) as [E|E|E].
  - apply byte_val_inj in E as ->. rewrite IH. naive_solver.
  - split; [discriminate | intros [= ? ?]; subst; lia].
  - split; [discriminate | intros [= ? ?]; subst; lia].
Qed.

Lemma str_compare_refl a : str_compare a a = Eq.
Proof. by apply str_compare_eq. Qed.

Lemma str_compare_antisym a b : str_compare b a = CompOpp (str_compare a b).
Proof.
  revert b. induction a as [|c a IH]; intros [|d b]; simpl; try done.
  rewrite Z.compare_antisym. destruct (byte_val c ?= byte_val d); simpl; auto.
Qed.

Lemma str_compare_trans a b c :
  str_compare a b = Lt → str_compare b c = Lt → str_compare a c = Lt.
Proof.
  revert b c. induction a as [|x a IH]; intros [|y b] [|z c]; simpl; try done.
  destruct (Z.compare_spec (byte_val x) (byte_val y)); try done;
  destruct (Z.compare_spec (byte_val y) (byte_val z)); try done;
  destruct (Z.compare_spec (byte_val x) (byte_val z)); try done; try lia; eauto.
Qed.

Lemma str_drop_app a b : str_drop (String.length a) (a +:+ b) = b.
Proof. by induction a. Qed.

Lemma str_take_app a b : str_take (String.length a) (a +:+ b) = a.
Proof. induction a; simpl; congruence. Qed.

Lemma str_take_drop n s : str_take n s +:+ str_drop n s = s.
Proof. revert s. induction n; intros [|c s]; simpl; congruence. Qed.

Lemma string_length_app a b : String.length (a +:+ b) = (String.length a + String.length b)%nat.
Proof. induction a; simpl; lia. Qed.

#[export] Hint Rewrite str_drop_app str_take_app string_length_app : dolmen.
#[export] Hint Rewrite app_assoc_str app_nil_r_str len_app len_cons len_nil : dolmen.

(** Normalise concatenations and lengths, then decide. *)
Ltac str_simpl := repeat (progress (simpl; autorewrite with dolmen)).
Ltac str_solve := str_simpl; split_and?; try done; try lia; try (repeat match goal with
       | |- Done _ = Done _ => f_equal
       | |- Some _ = Some _ => f_equal
       | |- (_, _) = (_, _) => f_equal
       end; lia).

(** The order of strings, as a relation. *)
Definition str_le (a b : string) : Prop := str_ltb b a = false.

Lemma str_lt_le a b : str_ltb a b = true → str_le a b.
Proof.
  unfold str_le, str_ltb. rewrite (str_compare_antisym a b). by destruct (str_compare a b).
Qed.

#[global] Instance str_le_dec a b : Decision (str_le a b).
Proof. unfold str_le. apply _. Defined.

#[global] Instance str_le_refl : Reflexive str_le.
Proof. intros a. unfold str_le, str_ltb. by rewrite str_compare_refl. Qed.

#[global] Instance str_le_antisymm : AntiSymm (=) str_le.
Proof.
  intros a b. unfold str_le, str_ltb. rewrite (str_compare_antisym a b).
  destruct (str_compare a b) eqn:E; simpl; try done. intros _ _. by apply str_compare_eq.
Qed.

#[global] Instance str_le_trans : Transitive str_le.
Proof.
  intros a b c. unfold str_le, str_ltb. rewrite (str_compare_antisym a b), (str_compare_antisym b c), (str_compare_antisym a c).
  destruct (str_compare a b) eqn:E1, (str_compare b c) eqn:E2; simpl; try done; intros _ _.
  - apply str_compare_eq in E1 as ->. by rewrite E2.
  - apply str_compare_eq in E1 as ->. by rewrite E2.
  - apply str_compare_eq in E2 as ->. by rewrite E1.
  - by rewrite (str_compare_trans _ _ _ E1 E2).
Qed.

(** ** Encodings of bytes as text *)

(** The digits of [hex.EncodeToString]. *)
Definition hex_digit (d : Z) : ascii := byte_of (if d <? 10 then 48 + d else 87 + d).
Fixpoint hex_encode (bs : list Z) : string :=
  match bs with
  | [] => EmptyString
  | b :: bs => String (hex_digit (b / 16)) (String (hex_digit (b mod 16)) (hex_encode bs))
  end.

(** The alphabet of [base64.RawURLEncoding], and the encoding without padding. *)
Definition b64_char (d : Z) : ascii :=
  byte_of (if d <? 26 then 65 + d else if d <? 52 then 71 + d else if d <? 62 then d - 4
           else if d =? 62 then 45 else 95).
Fixpoint b64url (bs : list Z) : string :=
  match bs with
  | a :: b :: c :: bs =>
      String (b64_char (a / 4)) (String (b64_char ((a mod 4) * 16 + b / 16))
        (String (b64_char ((b mod 16) * 4 + c / 64)) (String (b64_char (c mod 64)) (b64url bs))))
  | [a; b] =>
      String (b64_char (a / 4)) (String (b64_char ((a mod 4) * 16 + b / 16))
        (String (b64_char ((b mod 16) * 4)) EmptyString))
  | [a] => String (b64_char (a / 4)) (String (b64_char ((a mod 4) * 16)) EmptyString)
  | [] => EmptyString
  end.
