(* ===== verification/FilterLexer.v ===== *)
(** * The lexer of filter expressions ([internal/filter/lex.go])

    A lexer is its byte position and the source from that position on
    ([l.src[l.pos:]] is [lx_rest]); slices [l.src[start:l.pos]] become the
    text accumulated by the loops.  An error is the position, the format and
    the arguments given to [errAt] ([internal/filter/filter.go]). *)
From Stdlib Require Import ZArith Lia Ascii String.
From stdpp Require Import base gmap strings list.
From S2P Require Import Prelude GoStrings.
Local Open Scope Z_scope.

(** ** Errors *)

(** An argument of a format: [%s], [%q] and [%d]. *)
Inductive farg := FText (s : string) | FQuoted (s : string) | FInt (z : Z).

(** [Error]: what a failing lexer or parser returns. *)
Inductive error :=
| ErrAt (pos : Z) (format : string) (args : list farg)
| ErrCtx (e : ctx_error).

#[global] Instance farg_eq_dec : EqDecision farg.
Proof. solve_decision. Defined.
#[global] Instance error_eq_dec : EqDecision error.
Proof. solve_decision. Defined.

Abbreviation res A := (outcome error A).
Definition errAt {A} (pos : Z) (format : string) (args : list farg) : res A :=
  Fail (ErrAt pos format args).

(** ** Tokens *)

Inductive tokenKind :=
| tokenEOF | tokenIdent | tokenQuotedIdent | tokenString
| tokenNumber | tokenBlob | tokenParam | tokenOp.

#[global] Instance tokenKind_eq_dec : EqDecision tokenKind.
Proof. solve_decision. Defined.

Record token := Token { t_kind : tokenKind; t_text : string; t_pos : Z }.

#[global] Instance token_eq_dec : EqDecision token.
Proof. solve_decision. Defined.

Definition is_kind (k : tokenKind) (t : token) : bool := bool_decide (t_kind t = k).

Definition tok_is (t : token) (op : string) : bool :=
  is_kind tokenOp t && String.eqb (t_text t) op.

Definition keyword `{!UnicodeTables} (t : token) (word : string) : bool :=
  is_kind tokenIdent t && equal_fold (t_text t) word.

Definition describe (t : token) : farg :=
  match t_kind t with
  | tokenEOF => FText "the end of the expression"
  | tokenString => FText "a text literal"
  | tokenNumber => FText "a number"
  | tokenBlob => FText "a blob literal"
  | tokenParam => FQuoted (t_text t)
  | _ => FQuoted (t_text t)
  end.

(** ** Character classes *)

Definition isDigit (c : ascii) : bool := in_range 48 57 (byte_val c).
Definition isHex (c : ascii) : bool :=
  isDigit c || in_range 97 102 (byte_val c) || in_range 65 70 (byte_val c).
Definition isIdentStart (c : ascii) : bool :=
  Ascii.eqb c "_" || in_range 97 122 (byte_val c) || in_range 65 90 (byte_val c)
  || (0x80 <=? byte_val c).
Definition isIdentPart (c : ascii) : bool := isIdentStart c || isDigit c.

Definition is_blank (c : ascii) : bool := (byte_val c =? 32) || in_range 9 13 (byte_val c).

(** The bytes of the quoting characters, which no string literal below spells. *)
Definition apostrophe : ascii := "'"%char.
Definition dquote : ascii := byte_of 34.

(** ** The lexer *)

Record lexer := Lexer { lx_pos : Z; lx_rest : string; lx_polls : nat }.

Definition moved (l : lexer) (pos : Z) (rest : string) : lexer := Lexer pos rest (lx_polls l).

(** [skipSpace], from position [pos]. *)
Fixpoint skipSpace (pos : Z) (s : string) : res (Z * string) :=
  match s with
  | EmptyString => Done (pos, s)
  | String c s' =>
      let next_is d := match s' with String c' _ => Ascii.eqb c' d | EmptyString => false end in
      if is_blank c then skipSpace (pos + 1) s'
      else if Ascii.eqb c "-" && next_is "-"%char
      then errAt pos "comments are not accepted in a filter expression" []
      else if Ascii.eqb c "/" && next_is "*"%char
      then errAt pos "comments are not accepted in a filter expression" []
      else Done (pos, s)
  end.

(** The loop of [quoted], after the opening delimiter: the text so far is
    [acc]; the answer is the text, the position and the source after the
    closing delimiter. *)
Fixpoint quoted_loop (delim : ascii) (start pos : Z) (acc s : string) : res (string * Z * string) :=
  match s with
  | EmptyString => errAt start "the quoted text starting here is never closed" []
  | String c s' =>
      if Ascii.eqb c delim then
        match s' with
        | String c' s'' =>
            if Ascii.eqb c' delim
            then quoted_loop delim start (pos + 2) (acc +:+ String delim "") s''
            else Done (acc, pos + 1, s')
        | EmptyString => Done (acc, pos + 1, s')
        end
      else quoted_loop delim start (pos + 1) (acc +:+ String c "") s'
  end.

(** [quoted]: [s] starts at the opening delimiter. *)
Definition quoted (delim : ascii) (start : Z) (s : string) : res (string * Z * string) :=
  quoted_loop delim start (start + 1) "" (str_drop 1 s).

(** The longest prefix of bytes satisfying [f], and what follows it. *)
Fixpoint span (f : ascii → bool) (s : string) : string * string :=
  match s with
  | String c s' =>
      if f c then let '(a, b) := span f s' in (String c a, b) else (EmptyString, s)
  | EmptyString => (EmptyString, EmptyString)
  end.

(** The decimal loop of [number]; [first] is [l.pos > start] negated. *)
Fixpoint decimal_loop (start : Z) (first seenDot seenExp : bool) (acc s : string)
  : res (string * string) :=
  match s with
  | EmptyString => Done (acc, s)
  | String c s' =>
      if isDigit c then decimal_loop start false seenDot seenExp (acc +:+ String c "") s'
      else if Ascii.eqb c "." && negb seenDot && negb seenExp
      then decimal_loop start false true seenExp (acc +:+ String c "") s'
      else if (Ascii.eqb c "e" || Ascii.eqb c "E") && negb seenExp && negb first then
        let no_digits := errAt start "the exponent of this number has no digits" [] in
        match s' with
        | EmptyString => no_digits
        | String d s'' =>
            if Ascii.eqb d "+" || Ascii.eqb d "-" then
              match s'' with
              | String g _ =>
                  if isDigit g
                  then decimal_loop start false seenDot true
                         (acc +:+ String c (String d "")) s''
                  else no_digits
              | EmptyString => no_digits
              end
            else if isDigit d
            then decimal_loop start false seenDot true (acc +:+ String c "") s'
            else no_digits
        end
      else Done (acc, s)
  end.

(** [number]: the text of the number and what follows it. *)
Definition number (start : Z) (s : string) : res (string * string) :=
  match s with
  | String c0 (String cx s2) =>
      if Ascii.eqb c0 "0" && (Ascii.eqb cx "x" || Ascii.eqb cx "X") then
        let '(digits, rest) := span isHex s2 in
        if String.eqb digits ""
        then errAt start "a hexadecimal literal must have at least one digit" []
        else Done (String c0 (String cx digits), rest)
      else decimal_loop start true false false "" s
  | _ => decimal_loop start true false false "" s
  end.

Definition operators : list string :=
  ["<<"; ">>"; "<="; ">="; "=="; "!="; "<>"; "||"; "->>"; "->";
   "("; ")"; ","; "+"; "-"; "*"; "/"; "%"; "<"; ">"; "="; "~"; "&"; "|"; "."; ";"].

Fixpoint find_operator (ops : list string) (s : string) : option string :=
  match ops with
  | [] => None
  | op :: ops' => if has_prefix s op then Some op else find_operator ops' s
  end.

(** The first byte of [s] that is not a hexadecimal digit. *)
Fixpoint first_non_hex (s : string) : option ascii :=
  match s with
  | EmptyString => None
  | String c s' => if isHex c then first_non_hex s' else Some c
  end.

Definition starts_with (f : ascii → bool) (s : string) : bool :=
  match s with String c _ => f c | EmptyString => false end.

(** The switch of [next], at the first byte [c] of the token. *)
Definition scan (l : lexer) (start : Z) (c : ascii) (s' : string) : res (token * lexer) :=
  let s := String c s' in
  if Ascii.eqb c apostrophe then
    let! (text, pos, rest) := quoted apostrophe start s in
    Done (Token tokenString text start, moved l pos rest)
  else if Ascii.eqb c dquote then
    let! (text, pos, rest) := quoted dquote start s in
    Done (Token tokenQuotedIdent text start, moved l pos rest)
  else if Ascii.eqb c "`" then
    errAt start "backtick-quoted names are not accepted in a filter expression; quote a column name with double quotes" []
  else if Ascii.eqb c "[" then
    errAt start "bracket-quoted names are not accepted in a filter expression; quote a column name with double quotes" []
  else if Ascii.eqb c "?" then
    if starts_with isDigit s'
    then errAt start "numbered parameters are not accepted in a filter expression; use a bare ? for each argument, in order" []
    else Done (Token tokenParam "?" start, moved l (start + 1) s')
  else if Ascii.eqb c ":" || Ascii.eqb c "@" || Ascii.eqb c "$" then
    errAt start "named parameters are not accepted in a filter expression; use a bare ? for each argument, in order" []
  else if isDigit c || (Ascii.eqb c "." && starts_with isDigit s') then
    let! (text, rest) := number start s in
    Done (Token tokenNumber text start, moved l (start + len text) rest)
  else if (Ascii.eqb c "x" || Ascii.eqb c "X") && starts_with (Ascii.eqb apostrophe) s' then
    let! (text, pos, rest) := quoted apostrophe (start + 1) s' in
    if negb (len text mod 2 =? 0)
    then errAt start "a blob literal needs an even number of hexadecimal digits" []
    else match first_non_hex text with
         | Some d => errAt start "%q is not a hexadecimal digit, so this is not a blob literal"
                       [FQuoted (encode_rune (byte_val d))]
         | None => Done (Token tokenBlob text start, moved l pos rest)
         end
  else if isIdentStart c then
    let '(text, rest) := span isIdentPart s in
    Done (Token tokenIdent text start, moved l (start + len text) rest)
  else
    match find_operator operators s with
    | Some op => Done (Token tokenOp op start,
                       moved l (start + len op) (str_drop (String.length op) s))
    | None => errAt start "%q is not an operator a filter expression may use" [FQuoted (encode_rune (byte_val c))]
    end.

(** [next]: one observation of the context, then one token. *)
Definition next (c : ctx) (l : lexer) : res (token * lexer) :=
  match c (lx_polls l) with
  | Some e => Fail (ErrCtx e)
  | None =>
      let! (pos, s) := skipSpace (lx_pos l) (lx_rest l) in
      let l' := Lexer pos s (S (lx_polls l)) in
      match s with
      | EmptyString => Done (Token tokenEOF "" pos, l')
      | String c s' => scan l' pos c s'
      end
  end.

Definition lexer_of (src : string) : lexer := Lexer 0 src 0.

(** ** The loops of the lexer *)

Lemma string_len_ind (P : string → Prop) :
  (∀ s, (∀ s', (String.length s' < String.length s)%nat → P s') → P s) → ∀ s, P s.
Proof.
  intros H s. remember (String.length s) as n eqn:E.
  revert s E. induction (lt_wf n) as [n _ IH]. intros s ->. apply H. eauto.
Qed.

(** [body] with every [delim] doubled. *)
Fixpoint escape (delim : ascii) (body : string) : string :=
  match body with
  | EmptyString => EmptyString
  | String c body' =>
      if Ascii.eqb c delim then String delim (String delim (escape delim body'))
      else String c (escape delim body')
  end.

(** The spelling of a quoted text: what [quoted] reads back. *)
Definition quote (delim : ascii) (body : string) : string :=
  String delim (escape delim body +:+ String delim "").

Lemma skipSpace_ok pos s pos' s' :
  skipSpace pos s = Done (pos', s') →
  ∃ sk, s = sk +:+ s' ∧ all_bytes is_blank sk = true ∧ pos' = pos + len sk.
Proof.
  revert pos. induction s as [|c s IH]; intros pos; cbn [skipSpace].
  - intros [= <- <-]. exists "". by autorewrite with dolmen; rewrite Z.add_0_r.
  - destruct (is_blank c) eqn:Hb.
    + intros (sk & -> & Hsk & ->)%IH. exists (String c sk). simpl. rewrite Hb, Hsk.
      rewrite len_cons. split_and!; [done..|lia].
    + intros H. inv_done. exists "". rewrite len_nil, Z.add_0_r. done.
Qed.

Lemma span_ok f s a b :
  span f s = (a, b) → s = a +:+ b ∧ all_bytes f a = true ∧ starts_with f b = false.
Proof.
  revert a. induction s as [|c s IH]; intros a; simpl.
  - by intros [= <- <-].
  - destruct (f c) eqn:Hf; [destruct (span f s) as [a' b'] eqn:Hs|]; intros [= <- <-].
    + destruct (IH a') as (-> & Ha & Hb); [done|]. simpl. by rewrite Hf, Ha.
    + simpl. by rewrite Hf.
Qed.

Lemma quoted_loop_ok delim start s : ∀ pos acc text pos' rest,
  quoted_loop delim start pos acc s = Done (text, pos', rest) →
  ∃ body, text = acc +:+ body ∧ s = escape delim body +:+ String delim rest
          ∧ pos' = pos + len (escape delim body) + 1.
Proof.
  induction s as [s IH] using string_len_ind. intros pos acc text pos' rest.
  destruct s as [|c s]; simpl; [done|]. destruct (Ascii.eqb_spec c delim) as [->|Hne].
  - destruct s as [|c' s].
    { intros [= <- <- <-]. exists "". str_solve. }
    destruct (Ascii.eqb_spec c' delim) as [->|_].
    + intros H. apply IH in H as (body & -> & -> & ->); [|simpl; lia].
      exists (String delim body). simpl. rewrite Ascii.eqb_refl. str_solve.
    + intros [= <- <- <-]. exists "". str_solve.
  - intros H. apply IH in H as (body & -> & -> & ->); [|simpl; lia].
    exists (String c body). simpl. apply Ascii.eqb_neq in Hne as ->. str_solve.
Qed.

Lemma quoted_ok delim start c s text pos rest :
  Ascii.eqb c delim = true →
  quoted delim start (String c s) = Done (text, pos, rest) →
  String c s = quote delim text +:+ rest ∧ pos = start + len (quote delim text).
Proof.
  intros ->%Ascii.eqb_eq. unfold quoted, quote. simpl.
  intros (body & -> & -> & ->)%quoted_loop_ok. str_solve.
Qed.

(** Reading back: any text comes back from its spelling, unless what follows
    continues it with another delimiter. *)
Lemma quoted_loop_escape delim start body rest pos acc :
  starts_with (Ascii.eqb delim) rest = false →
  quoted_loop delim start pos acc (escape delim body +:+ String delim rest)
  = Done (acc +:+ body, pos + len (escape delim body) + 1, rest).
Proof.
  intros Hrest. revert pos acc. induction body as [|c body IH]; intros pos acc; simpl.
  - rewrite Ascii.eqb_refl, app_nil_r_str. destruct rest as [|c rest]; simpl in *.
    + str_solve.
    + rewrite Ascii.eqb_sym, Hrest. str_solve.
  - destruct (Ascii.eqb_spec c delim) as [->|Hne]; simpl.
    + rewrite Ascii.eqb_refl, IH. str_solve.
    + apply Ascii.eqb_neq in Hne as ->. rewrite IH. str_solve.
Qed.

Lemma decimal_loop_ok start s : ∀ first seenDot seenExp acc text rest,
  decimal_loop start first seenDot seenExp acc s = Done (text, rest) →
  ∃ body, text = acc +:+ body ∧ s = body +:+ rest.
Proof.
  induction s as [s IH] using string_len_ind.
  intros first seenDot seenExp acc text rest.
  assert (Hstep : ∀ pre s' f d e, s = pre +:+ s' → (String.length s' < String.length s)%nat →
    decimal_loop start f d e (acc +:+ pre) s' = Done (text, rest) →
    ∃ body, text = acc +:+ body ∧ s = body +:+ rest).
  { intros pre s' f d e -> Hlen (body & -> & ->)%IH; [|done].
    exists (pre +:+ body). by rewrite !app_assoc_str. }
  destruct s as [|c s]; simpl.
  { intros [= <- <-]. exists "". by rewrite app_nil_r_str. }
  repeat case_match; try done.
  all: try (intros H'; eapply Hstep; [| |exact H']; simpl; [done|lia]).
  intros [= <- <-]. exists "". by rewrite app_nil_r_str.
Qed.

Lemma decimal_loop_digit start c s seenDot seenExp acc text rest :
  isDigit c = true →
  decimal_loop start true seenDot seenExp acc (String c s) = Done (text, rest) →
  ∃ body, text = acc +:+ String c body ∧ String c s = String c body +:+ rest.
Proof.
  intros Hc. simpl. rewrite Hc. intros (body & -> & ->)%decimal_loop_ok.
  exists body. by rewrite app_assoc_str.
Qed.

(** The shape of a number, as an automaton on its bytes: decimal digits with
    at most one point and an exponent with digits, or hexadecimal digits. *)
Inductive nstate := n_start | n_whole | n_fraction | n_exponent | n_sign | n_power.
Definition nstep (st : nstate) (c : ascii) : option nstate :=
  let exponent := Ascii.eqb c "e" || Ascii.eqb c "E" in
  match st with
  | n_start => if isDigit c then Some n_whole else if Ascii.eqb c "." then Some n_fraction else None
  | n_whole => if isDigit c then Some n_whole else if Ascii.eqb c "." then Some n_fraction
               else if exponent then Some n_exponent else None
  | n_fraction => if isDigit c then Some n_fraction else if exponent then Some n_exponent else None
  | n_exponent => if isDigit c then Some n_power else if Ascii.eqb c "+" || Ascii.eqb c "-" then Some n_sign else None
  | n_sign | n_power => if isDigit c then Some n_power else None
  end.
Fixpoint nrun (st : nstate) (s : string) : option nstate :=
  match s with
  | EmptyString => Some st
  | String c s => match nstep st c with Some st => nrun st s | None => None end
  end.
Definition decimal_shape (s : string) : bool :=
  match nrun n_start s with Some (n_whole | n_fraction | n_power) => true | _ => false end.
Definition hexadecimal_shape (s : string) : bool :=
  match s with
  | String c0 (String cx digits) =>
      Ascii.eqb c0 "0" && (Ascii.eqb cx "x" || Ascii.eqb cx "X") && negb (String.eqb digits "") && all_bytes isHex digits
  | _ => false
  end.
Definition number_shape (s : string) : bool := decimal_shape s || hexadecimal_shape s.

Lemma nrun_app st a b : nrun st (a +:+ b) = match nrun st a with Some st => nrun st b | None => None end.
Proof. revert st. induction a as [|c a IH]; intros st; simpl; [done|]. by destruct (nstep st c). Qed.

Lemma nrun_start acc : nrun n_start acc = Some n_start → acc = "".
Proof.
  assert (∀ st acc, st ≠ n_start → nrun st acc ≠ Some n_start) as H.
  { clear. intros st acc. revert st. induction acc as [|c acc IH]; intros st Hst; simpl; [congruence|].
    destruct (nstep st c) as [st'|] eqn:E; [|done]. apply IH. intros ->. destruct st; simpl in E; repeat case_match; done. }
  destruct acc as [|c acc]; [done|]. simpl. destruct (isDigit c); [by intros ?%H|].
  destruct (Ascii.eqb c "."); [by intros ?%H|done].
Qed.

(** The flags of the loop say where the automaton is. *)
Definition tracks (st : nstate) (first seenDot seenExp : bool) (s : string) : Prop :=
  match st with
  | n_start => first = true ∧ seenDot = false ∧ seenExp = false
  | n_whole => first = false ∧ seenDot = false ∧ seenExp = false
  | n_fraction => seenDot = true ∧ seenExp = false
  | n_exponent | n_sign => seenExp = true ∧ starts_with isDigit s = true
  | n_power => seenExp = true
  end.

Lemma decimal_loop_shape start s : ∀ first seenDot seenExp acc text rest st,
  decimal_loop start first seenDot seenExp acc s = Done (text, rest) →
  nrun n_start acc = Some st → tracks st first seenDot seenExp s →
  text = "" ∨ decimal_shape text = true.
Proof.
  induction s as [s IH] using string_len_ind. intros first seenDot seenExp acc text rest st.
  assert (Hstep : ∀ pre s' f d e st', (String.length s' < String.length s)%nat →
    decimal_loop start f d e (acc +:+ pre) s' = Done (text, rest) → nrun n_start acc = Some st →
    nrun st pre = Some st' → tracks st' f d e s' → text = "" ∨ decimal_shape text = true).
  { intros pre s' f d e st' Hlen H' Hacc Hpre Ht. eapply IH; [done|exact H'| |done]. by rewrite nrun_app, Hacc. }
  assert (Hstop : nrun n_start acc = Some st → tracks st first seenDot seenExp s → starts_with isDigit s = false →
    text = acc → text = "" ∨ decimal_shape text = true).
  { intros Hacc Ht Hd ->. unfold decimal_shape. rewrite Hacc. destruct st; auto.
    - left. by apply nrun_start.
    - destruct Ht as [_ Ht]. congruence.
    - destruct Ht as [_ Ht]. congruence. }
  destruct s as [|c s]; simpl; [intros [= <- <-] Hacc Ht; by apply Hstop|].
  destruct (isDigit c) eqn:Hc.
  { intros H' Hacc Ht. eapply (Hstep (String c "") s false seenDot seenExp
      match st with n_start | n_whole => n_whole | n_fraction => n_fraction | _ => n_power end); [simpl; lia|exact H'|done|..].
    - by destruct st; simpl; rewrite Hc.
    - destruct st; simpl in *; naive_solver. }
  destruct (Ascii.eqb c "." && negb seenDot && negb seenExp) eqn:Hp.
  { intros H' Hacc Ht. apply andb_true_iff in Hp as [[Hp Hd%negb_true_iff]%andb_true_iff He%negb_true_iff].
    eapply (Hstep (String c "") s false true seenExp n_fraction); [simpl; lia|exact H'|done|..|done].
    destruct st; simpl in *; rewrite ?Hc, ?Hp; naive_solver. }
  destruct ((Ascii.eqb c "e" || Ascii.eqb c "E") && negb seenExp && negb first) eqn:He;
    [|intros [= <- <-] Hacc Ht; apply Hstop; [done..|simpl; done|done]].
  apply andb_true_iff in He as [[He Hx%negb_true_iff]%andb_true_iff Hf%negb_true_iff].
  assert (nrun n_start acc = Some st → tracks st first seenDot seenExp (String c s) → nstep st c = Some n_exponent) as Hn.
  { intros _ Ht. destruct st; simpl in *; rewrite Hc, ?He; try naive_solver. destruct Ht as (_ & -> & _).
    rewrite Hx in Hp. by destruct (Ascii.eqb c "."). }
  destruct s as [|d s]; [done|]. destruct (Ascii.eqb d "+" || Ascii.eqb d "-") eqn:Hsg.
  - destruct s as [|g s]; [done|]. destruct (isDigit g) eqn:Hg; [|done]. intros H' Hacc Ht.
    eapply (Hstep (String c (String d "")) (String g s) false seenDot true n_sign); [simpl; lia|exact H'|done|..|done].
    cbn [nrun]. rewrite (Hn Hacc Ht). cbn [nstep]. rewrite Hsg.
    destruct (isDigit d) eqn:Hdd; [|done]. exfalso. apply orb_true_iff in Hsg as [->%Ascii.eqb_eq| ->%Ascii.eqb_eq]; done.
  - destruct (isDigit d) eqn:Hd; [|done]. intros H' Hacc Ht.
    eapply (Hstep (String c "") (String d s) false seenDot true n_exponent); [simpl; lia|exact H'|done|..|done].
    cbn [nrun]. by rewrite (Hn Hacc Ht).
Qed.

Lemma find_operator_ok ops s op :
  find_operator ops s = Some op → op ∈ ops ∧ ∃ rest, s = op +:+ rest.
Proof.
  induction ops as [|o ops IH]; simpl; [done|].
  destruct (has_prefix s o) eqn:Hp.
  - intros [= <-]. apply has_prefix_spec in Hp. split; [left | done].
  - intros [H1 H2]%IH. split; [by right | done].
Qed.

(** ** What one call of [next] does *)

(** [spells t raw]: [raw] is a spelling of the token [t] in a source. *)
Definition spells (t : token) (raw : string) : Prop :=
  match t_kind t with
  | tokenEOF => raw = ""
  | tokenString => raw = quote apostrophe (t_text t)
  | tokenQuotedIdent => raw = quote dquote (t_text t)
  | tokenBlob => ∃ x, (x = "x"%char ∨ x = "X"%char)
                      ∧ raw = String x (quote apostrophe (t_text t))
                      ∧ first_non_hex (t_text t) = None ∧ len (t_text t) mod 2 = 0
  | tokenParam => raw = "?" ∧ t_text t = "?"
  | tokenOp => raw = t_text t ∧ t_text t ∈ operators
  | tokenIdent => raw = t_text t ∧ starts_with isIdentStart raw = true
                  ∧ all_bytes isIdentPart raw = true
  | tokenNumber => raw = t_text t ∧ number_shape (t_text t) = true
  end.

(** [step_ok l t l']: from [l], past blanks, the token [t] was read up to [l']. *)
Definition step_ok (l : lexer) (t : token) (l' : lexer) : Prop :=
  ∃ blanks raw,
    lx_rest l = blanks +:+ raw +:+ lx_rest l' ∧ all_bytes is_blank blanks = true
    ∧ spells t raw ∧ t_pos t = lx_pos l + len blanks ∧ lx_pos l' = t_pos t + len raw
    ∧ (t_kind t = tokenEOF → lx_rest l' = "") ∧ (t_kind t ≠ tokenEOF → raw ≠ "").

Lemma number_ok start c s text rest :
  isDigit c || (Ascii.eqb c "." && starts_with isDigit s) = true →
  number start (String c s) = Done (text, rest) →
  String c s = text +:+ rest ∧ text ≠ "" ∧ number_shape text = true.
Proof.
  intros Hc. unfold number.
  assert (Hdec : decimal_loop start true false false "" (String c s) = Done (text, rest) →
                 String c s = text +:+ rest ∧ text ≠ "" ∧ number_shape text = true).
  { intros Hrun. cut (String c s = text +:+ rest ∧ text ≠ "").
    { intros [E Hne]. split_and!; [done..|]. unfold number_shape.
      destruct (decimal_loop_shape _ _ _ _ _ _ _ _ n_start Hrun eq_refl) as [->| ->]; done. }
    revert Hrun. apply orb_true_iff in Hc as [Hc|[->%Ascii.eqb_eq Hd]%andb_true_iff].
    - intros (body & -> & ->)%decimal_loop_digit; [|done]. done.
    - simpl. intros (body & -> & ->)%decimal_loop_ok. done. }
  destruct s as [|cx s]; [done|].
  destruct (Ascii.eqb c "0" && _) eqn:E; [|done].
  destruct (span isHex s) as [digits rest'] eqn:Hs.
  destruct (String.eqb digits "") eqn:Hd; [done|]. intros [= <- <-].
  apply span_ok in Hs as (-> & Hall & _). split_and!; [done..|].
  apply orb_true_iff. right. simpl. by rewrite E, Hd, Hall.
Qed.

Lemma scan_ok l start c s t l' :
  scan l start c s = Done (t, l') →
  ∃ raw, String c s = raw +:+ lx_rest l' ∧ spells t raw ∧ t_pos t = start
         ∧ lx_pos l' = start + len raw ∧ t_kind t ≠ tokenEOF ∧ raw ≠ "".
Proof.
  unfold scan.
  destruct (Ascii.eqb c apostrophe) eqn:Hap.
  { intros (((text & pos) & rest) & [Hq ->]%quoted_ok & [= <- <-])%obind_Done; [|done].
    exists (quote apostrophe text). split_and!; done. }
  destruct (Ascii.eqb c dquote) eqn:Hdq.
  { intros (((text & pos) & rest) & [Hq ->]%quoted_ok & [= <- <-])%obind_Done; [|done].
    exists (quote dquote text). split_and!; done. }
  destruct (Ascii.eqb c "`"); [done|]. destruct (Ascii.eqb c "["); [done|].
  destruct (Ascii.eqb_spec c "?") as [->|_].
  { destruct (starts_with isDigit s); [done|]. intros [= <- <-]. exists "?". split_and!; done. }
  destruct (Ascii.eqb c ":" || _ || _); [done|].
  destruct (isDigit c || _) eqn:Hnum.
  { intros ((text & rest) & (Hq & Hne & Hshape)%number_ok & [= <- <-])%obind_Done; [|done].
    exists text. split_and!; done. }
  destruct (_ && starts_with (Ascii.eqb apostrophe) s) eqn:Hx.
  { apply andb_true_iff in Hx as [Hx Hs]. destruct s as [|q s]; [done|].
    intros (((text & pos) & rest) & [Hq ->]%quoted_ok & H)%obind_Done;
      [|by rewrite Ascii.eqb_sym].
    destruct (negb _) eqn:Hpar in H; [done|]. destruct (first_non_hex text) eqn:Hhex; [done|].
    injection H as <- <-. exists (String c (quote apostrophe text)).
    apply orb_true_iff in Hx. rewrite !Ascii.eqb_eq in Hx.
    apply negb_false_iff, Z.eqb_eq in Hpar.
    split_and!; try done; [by rewrite Hq| by exists c | simpl; rewrite len_cons; lia]. }
  destruct (isIdentStart c) eqn:Hid.
  { destruct (span isIdentPart (String c s)) as [text rest] eqn:Hs.
    assert (Hst : starts_with isIdentStart text = true).
    { simpl in Hs. unfold isIdentPart in Hs at 1. rewrite Hid in Hs. simpl in Hs.
      destruct (span isIdentPart s). by injection Hs as <- <-. }
    apply span_ok in Hs as (Hq & Hall & _). intros [= <- <-].
    exists text. split_and!; try done. by intros ->. }
  destruct (find_operator operators (String c s)) as [op|] eqn:Hop; [|done].
  intros [= <- <-]. pose proof (find_operator_ok _ _ _ Hop) as [Hin [r Hr]].
  exists op. rewrite Hr. split_and!; try done.
  - simpl. by rewrite str_drop_app.
  - intros ->. unfold operators in Hin. set_unfold. naive_solver.
Qed.

Lemma next_ok c l t l' : next c l = Done (t, l') → step_ok l t l' ∧ c (lx_polls l) = None.
Proof.
  unfold next. destruct (c (lx_polls l)) as [|] eqn:Hc; [done|].
  intros ((pos & s) & Hsk & H)%obind_Done. split; [|done].
  apply skipSpace_ok in Hsk as (blanks & Hrest & Hb & ->).
  destruct s as [|c0 s]; simpl in H.
  - simplify_eq. exists blanks, "". simpl. rewrite len_nil. split_and!; try done; lia.
  - apply scan_ok in H as (raw & Hr & Hsp & Hpos & Hpos' & Hk & Hne).
    exists blanks, raw. rewrite Hrest, Hr. split_and!; try done; lia.
Qed.

(** A call of [next] that does not reach the end strictly consumes bytes. *)
Lemma next_progress c l t l' :
  next c l = Done (t, l') →
  (String.length (lx_rest l') + (if decide (t_kind t = tokenEOF) then 0 else 1)
   ≤ String.length (lx_rest l))%nat.
Proof.
  intros [(bl & raw & Hr & _ & _ & _ & _ & _ & Hne) _]%next_ok.
  rewrite Hr. clear Hr.
  rewrite !string_length_app. case_decide; [lia|]. destruct raw; [by destruct Hne|]. simpl. lia.
Qed.
