(* ===== verification/FilterParser.v ===== *)
(** * The parser of filter expressions
    ([internal/filter/ast.go], [filter.go] and [parse.go])

    The recursive-descent parser with its operand stack, written as a state
    passing program: every method of [*parser] is a definition of type
    [parser → res parser].  The methods are mutually recursive, so they share
    one fuel; [Parse_total] in FilterTotal shows [parse_fuel] is enough. *)
From Stdlib Require Import ZArith Lia Ascii String.
From stdpp Require Import base gmap strings list.
From S2P Require Import Prelude GoStrings FilterLexer.
Local Open Scope Z_scope.

(** ** The syntax tree *)

Inductive LiteralKind :=
| LiteralString | LiteralNumber | LiteralBlob | LiteralNull | LiteralTrue | LiteralFalse.

#[global] Instance LiteralKind_eq_dec : EqDecision LiteralKind.
Proof. solve_decision. Defined.

(** A nil [Node] is [None] where the code can hold one. *)
Inductive Node :=
| Literal (Kind : LiteralKind) (Text : string)
| Param (Index : nat)
| Column (Name : string)
| Call (Name : string) (Args : list Node)
| Binary (Op : string) (Left Right : Node)
| Unary (Op : string) (Operand : Node)
| Paren (Inner : Node)
| Is (Negated : bool) (Left Right : Node)
| In (Negated : bool) (Left : Node) (List : list Node)
| Like (Negated : bool) (Left Pattern : Node) (Escape : option Node)
| Between (Negated : bool) (Value Low High : Node)
| Case (Operand : option Node) (Branches : list (Node * Node)) (Else : option Node).

(** ** The constant tables *)

Record argRange := ArgRange { r_min : Z; r_max : Z }.

Definition allowedFunctions : list (string * argRange) :=
  [("abs", ArgRange 1 1); ("round", ArgRange 1 2); ("length", ArgRange 1 1);
   ("lower", ArgRange 1 1); ("upper", ArgRange 1 1); ("substr", ArgRange 2 3);
   ("trim", ArgRange 1 2); ("ltrim", ArgRange 1 2); ("rtrim", ArgRange 1 2);
   ("replace", ArgRange 3 3); ("instr", ArgRange 2 2); ("coalesce", ArgRange 2 (-1));
   ("ifnull", ArgRange 2 2); ("nullif", ArgRange 2 2); ("iif", ArgRange 3 3);
   ("date", ArgRange 1 (-1)); ("time", ArgRange 1 (-1)); ("datetime", ArgRange 1 (-1));
   ("julianday", ArgRange 1 (-1)); ("strftime", ArgRange 2 (-1))].

Definition timeFunctions : list string := ["date"; "time"; "datetime"; "julianday"; "strftime"].

Definition rejectedTimeWords : list (string * string) :=
  [("now", "reads the server's clock"); ("localtime", "reads the server's time zone");
   ("utc", "reads the server's time zone")].

Definition rejectedKeywords : list (string * string) :=
  let rows := "a filter expression may not read rows itself; it sees only the row it is applied to" in
  let table := "a filter expression may not name a table; it sees only the row it is applied to" in
  let clock w := w +:+ " reads the server's clock; compute the moment you mean and bind it as a ? argument" in
  [("select", rows); ("from", table); ("join", table); ("exists", rows); ("union", rows);
   ("with", rows); ("values", rows);
   ("cast", "cast is not one of the functions a filter expression may use");
   ("raise", "raise is not one of the functions a filter expression may use");
   ("collate", "collate is not accepted in a filter expression; text comparison always uses byte order, so the same filter means the same thing on every backend");
   ("glob", "glob is not an operator a filter expression may use; use like");
   ("regexp", "regexp is not an operator a filter expression may use; use like");
   ("match", "match is not an operator a filter expression may use; use like");
   ("isnull", "isnull is not an operator a filter expression may use; write is null");
   ("notnull", "notnull is not an operator a filter expression may use; write is not null");
   ("current_timestamp", clock "current_timestamp"); ("current_date", clock "current_date");
   ("current_time", clock "current_time")].

Definition MaxNestingDepth : Z := 1000.
Definition MaxFilterLength : Z := Z.shiftl 64 10.

Definition precedenceLowest : Z := 0.
Definition precedenceOr : Z := 1.
Definition precedenceAnd : Z := 2.
Definition precedenceNot : Z := 3.
Definition precedenceEquality : Z := 4.
Definition precedenceRelational : Z := 5.
Definition precedenceAdditive : Z := 6.
Definition precedenceMultiplicative : Z := 7.
Definition precedenceConcat : Z := 8.
Definition precedenceUnary : Z := 9.

Definition infixWords : list string :=
  ["and"; "or"; "is"; "in"; "like"; "between"; "then"; "else"; "end"; "when"; "escape"; "distinct"].

(** ** Messages *)

(** [itoa]: the digits of [n], at most twenty of them. *)
Fixpoint itoa_loop (fuel : nat) (n : Z) (acc : string) : string :=
  match fuel with
  | O => acc
  | S f => if 0 <? n then itoa_loop f (n / 10) (String (byte_of (48 + n mod 10)) acc) else acc
  end.
Definition itoa (n : Z) : string := if n =? 0 then "0" else itoa_loop 20 n "".

Definition plural (n : Z) : string := if n =? 1 then "1 argument" else itoa n +:+ " arguments".

Definition describe_range (r : argRange) : string :=
  if (r_max r <? 0) && (r_min r =? 1) then "at least one argument"
  else if r_max r <? 0 then plural (r_min r) +:+ " or more"
  else if r_min r =? r_max r then plural (r_min r)
  else plural (r_min r) +:+ " or " +:+ plural (r_max r).

(** [sortStrings]: the inner loop swaps [s[j]] down while it is smaller than
    its left neighbour, the outer loop starts it at every [i]. *)
Fixpoint sink (j : nat) (s : list string) : list string :=
  match j with
  | O => s
  | S j' =>
      match s !! j, s !! j' with
      | Some a, Some b => if str_ltb a b then sink j' (<[j' := a]> (<[j := b]> s)) else s
      | _, _ => s
      end
  end.
Definition sortStrings (s : list string) : list string :=
  foldl (λ s i, sink i s) s (seq 1 (length s - 1)).

(** [functionList]: [names] is the order in which the map is iterated. *)
Definition functionList_from (names : list string) : string := join ", " (sortStrings names).
Definition functionList : string := functionList_from (map fst allowedFunctions).

(** ** The parser *)

(** A bound argument: only whether it is a text, and which, is looked at. *)
Inductive arg := ArgString (s : string) | ArgOther.

(** The fields of [parser] that never change. *)
Record config := Config { c_ctx : ctx; c_columns : gset string; c_args : list arg }.

(** The fields that do; [p_stack] has its top at the end, as the slice has. *)
Record parser := Parser {
  p_lex : lexer; p_tok : token; p_params : nat; p_timeDepth : Z; p_depth : Z;
  p_stack : list Node }.

Definition set_token (p : parser) (t : token) (l : lexer) : parser :=
  Parser l t (p_params p) (p_timeDepth p) (p_depth p) (p_stack p).
Definition set_params (p : parser) (n : nat) : parser :=
  Parser (p_lex p) (p_tok p) n (p_timeDepth p) (p_depth p) (p_stack p).
Definition set_timeDepth (p : parser) (n : Z) : parser :=
  Parser (p_lex p) (p_tok p) (p_params p) n (p_depth p) (p_stack p).
Definition set_depth (p : parser) (n : Z) : parser :=
  Parser (p_lex p) (p_tok p) (p_params p) (p_timeDepth p) n (p_stack p).
Definition set_stack (p : parser) (s : list Node) : parser :=
  Parser (p_lex p) (p_tok p) (p_params p) (p_timeDepth p) (p_depth p) s.

Definition push (p : parser) (n : Node) : parser := set_stack p (p_stack p ++ [n]).

(** [take]: nil, and the stack unchanged, when it holds fewer than [n]. *)
Definition take (p : parser) (n : nat) : list Node * parser :=
  if (n =? 0)%nat || (length (p_stack p) <? n)%nat then ([], p)
  else let k := (length (p_stack p) - n)%nat in
       (drop k (p_stack p), set_stack p (firstn k (p_stack p))).

Definition takeFrom (p : parser) (mark : nat) : list Node * parser :=
  if (length (p_stack p) <? mark)%nat then ([], p)
  else (drop mark (p_stack p), set_stack p (firstn mark (p_stack p))).

Definition pop (p : parser) : option Node * parser :=
  match take p 1 with
  | ([n], p') => (Some n, p')
  | (_, p') => (None, p')
  end.

(** [if x := p.pop(); x != nil { p.push(f x) }]. *)
Definition pop_push (p : parser) (f : Node → Node) : parser :=
  match pop p with
  | (Some n, p') => push p' (f n)
  | (None, p') => p'
  end.

(** [parts := p.take(2); if len(parts) == 2 { p.push(f parts[0] parts[1]) }]. *)
Definition take2_push (p : parser) (f : Node → Node → Node) : parser :=
  match take p 2 with
  | ([a; b], p') => push p' (f a b)
  | (_, p') => p'
  end.

Definition take3_push (p : parser) (f : Node → Node → Node → Node) : parser :=
  match take p 3 with
  | ([a; b; c], p') => push p' (f a b c)
  | (_, p') => p'
  end.

Section Parser.
Context {UT : UnicodeTables} (cfg : config).

Definition advance (p : parser) : res parser :=
  let! (tok, l) := next (c_ctx cfg) (p_lex p) in Done (set_token p tok l).

Definition at_tok {A} (p : parser) (format : string) (args : list farg) : res A :=
  errAt (t_pos (p_tok p)) format args.

Definition expect (p : parser) (op what : string) : res parser :=
  if tok_is (p_tok p) op then advance p
  else at_tok p "expected %s but found %s" [FText what; describe (p_tok p)].

Definition lower_text (p : parser) : string := to_lower (t_text (p_tok p)).

(** ** Literals *)

Definition rejectClockWord (text : string) (pos : Z) : res () :=
  let word := to_lower (trim_space text) in
  match assoc word rejectedTimeWords with
  | Some reason =>
      errAt pos "%q %s, so the same filter would mean different things at different moments; compute the moment you mean and bind it as a ? argument" [FQuoted word; FText reason]
  | None => Done ()
  end.

Definition literalToken (p : parser) : bool :=
  match t_kind (p_tok p) with
  | tokenString | tokenNumber | tokenBlob | tokenParam => true
  | tokenIdent => mem (lower_text p) ["null"; "true"; "false"]
  | _ => false
  end.

Definition literalKindOf (t : token) : LiteralKind :=
  match t_kind t with
  | tokenNumber => LiteralNumber
  | tokenBlob => LiteralBlob
  | tokenIdent =>
      let w := to_lower (t_text t) in
      if String.eqb w "null" then LiteralNull
      else if String.eqb w "true" then LiteralTrue
      else if String.eqb w "false" then LiteralFalse
      else LiteralString
  | _ => LiteralString
  end.

(** The text [consumeLiteral] checks under a time function. *)
Definition clock_text (timeDepth : Z) (params : nat) (tok : token) : option string :=
  if 0 <? timeDepth then
    match t_kind tok with
    | tokenString => Some (t_text tok)
    | tokenParam => match c_args cfg !! params with Some (ArgString s) => Some s | _ => None end
    | _ => None
    end
  else None.

Definition consumeLiteral (p : parser) : res parser :=
  let! _ := match clock_text (p_timeDepth p) (p_params p) (p_tok p) with
            | Some s => rejectClockWord s (t_pos (p_tok p))
            | None => Done ()
            end in
  if is_kind tokenParam (p_tok p)
  then advance (set_params (push p (Param (p_params p))) (S (p_params p)))
  else advance (push p (Literal (literalKindOf (p_tok p)) (t_text (p_tok p)))).

(** [listValue]: one entry of an [in] list. *)
Definition listValue (p : parser) : res parser :=
  let negated := tok_is (p_tok p) "-" || tok_is (p_tok p) "+" in
  let sign := if negated then t_text (p_tok p) else "" in
  let! p := if negated then advance p else Done p in
  if negb (literalToken p)
  then at_tok p "in accepts only literal values and ? arguments in a filter expression, not %s" [describe (p_tok p)]
  else if negated && negb (is_kind tokenNumber (p_tok p))
  then at_tok p "a sign may only precede a number in the list of values" []
  else
    let! p := consumeLiteral p in
    Done (if String.eqb sign "" then p else pop_push p (Unary sign)).

(** The loop of [inListNegated] over the values. *)
Fixpoint inList_loop (fuel : nat) (p : parser) : res parser :=
  match fuel with
  | O => OutOfFuel
  | S f =>
      if keyword (p_tok p) "select"
      then at_tok p "a filter expression may not read rows itself; it sees only the row it is applied to" []
      else
        let! p := listValue p in
        if tok_is (p_tok p) "," then let! p := advance p in inList_loop f p else Done p
  end.

Definition inListNegated (fuel : nat) (p : parser) (negated : bool) : res parser :=
  let! p := advance p in
  if negb (tok_is (p_tok p) "(")
  then at_tok p "in must be followed by a parenthesised list of values in a filter expression, not %s" [describe (p_tok p)]
  else
    let! p := advance p in
    if tok_is (p_tok p) ")" then
      let! p := advance p in Done (pop_push p (λ left, In negated left []))
    else
      let mark := length (p_stack p) in
      let! p := inList_loop fuel p in
      let! p := expect p ")" "a closing parenthesis after the list of values" in
      let '(list, p) := takeFrom p mark in
      Done (pop_push p (λ left, In negated left list)).

(** ** Columns *)

(** The names [unknownColumn] lists: the first twelve, in order. *)
Definition known_columns : list string :=
  let known := sortStrings (elements (c_columns cfg)) in
  if (12 <? length known)%nat then firstn 12 known ++ ["…"] else known.

Definition unknownColumn {A} (name : string) (pos : Z) : res A :=
  if bool_decide (c_columns cfg = ∅) then errAt pos "%q is not a column of this table" [FQuoted name]
  else errAt pos "%q is not a column of this table, and a filter expression may only name its own table's columns (%s)" [FQuoted name; FText (join ", " known_columns)].

Definition namedColumn (p : parser) (name : string) (pos : Z) : res parser :=
  if tok_is (p_tok p) "."
  then errAt pos "a filter expression may not name a table; write the column on its own" []
  else if negb (bool_decide (to_lower name ∈ c_columns cfg)) then unknownColumn name pos
  else Done (push p (Column (to_lower name))).

Definition column (p : parser) (name : string) (pos : Z) : res parser :=
  let! p := advance p in namedColumn p name pos.

(** ** Operators *)

(** The method value [peekOperator] returns. *)
Inductive consumer := c_nil | c_binary | c_isOperator | c_inList | c_like | c_between | c_negatedOperator.

Definition word_operator (word : string) : Z * consumer :=
  if String.eqb word "or" then (precedenceOr, c_binary)
  else if String.eqb word "and" then (precedenceAnd, c_binary)
  else if String.eqb word "is" then (precedenceEquality, c_isOperator)
  else if String.eqb word "in" then (precedenceEquality, c_inList)
  else if String.eqb word "like" then (precedenceEquality, c_like)
  else if String.eqb word "between" then (precedenceEquality, c_between)
  else if String.eqb word "not" then (precedenceEquality, c_negatedOperator)
  else (0, c_nil).

Definition symbol_operator (op : string) : Z * consumer :=
  if mem op ["="; "=="; "!="; "<>"] then (precedenceEquality, c_binary)
  else if mem op ["<"; "<="; ">"; ">="] then (precedenceRelational, c_binary)
  else if mem op ["+"; "-"] then (precedenceAdditive, c_binary)
  else if mem op ["*"; "/"; "%"] then (precedenceMultiplicative, c_binary)
  else if String.eqb op "||" then (precedenceConcat, c_binary)
  else (0, c_nil).

(** [peekOperator] looks at the current token only. *)
Definition peek_tok (tok : token) : res (Z * consumer) :=
  if is_kind tokenOp tok then
    if mem (t_text tok) ["&"; "|"; "<<"; ">>"]
    then errAt (t_pos tok) "%q is a bit operator, which a filter expression may not use" [FQuoted (t_text tok)]
    else if mem (t_text tok) ["->"; "->>"]
    then errAt (t_pos tok) "%q reads json, which a filter expression may not do" [FQuoted (t_text tok)]
    else if String.eqb (t_text tok) "."
    then errAt (t_pos tok) "a filter expression may not name a table; write the column on its own" []
    else Done (symbol_operator (t_text tok))
  else if negb (is_kind tokenIdent tok) then Done (0, c_nil)
  else
    let word := to_lower (t_text tok) in
    match assoc word rejectedKeywords with
    | Some reason => errAt (t_pos tok) "%s" [FText reason]
    | None => Done (word_operator word)
    end.

Definition peekOperator (p : parser) : res (Z * consumer) := peek_tok (p_tok p).

(** The token after [escape]: a one-character text, or an argument that is one. *)
Definition check_escape (p : parser) : res () :=
  match t_kind (p_tok p) with
  | tokenString =>
      if negb (length (runes (t_text (p_tok p))) =? 1)%nat
      then at_tok p "the escape of a like must be exactly one character, not %q" [FQuoted (t_text (p_tok p))]
      else Done ()
  | tokenParam =>
      if (p_params p <? length (c_args cfg))%nat then
        match c_args cfg !! p_params p with
        | Some (ArgString text) =>
            if negb (length (runes text) =? 1)%nat
            then at_tok p "the argument bound as the escape of a like must be a one-character text value" []
            else Done ()
        | _ => at_tok p "the argument bound as the escape of a like must be a one-character text value" []
        end
      else Done ()
  | _ => at_tok p "the escape of a like must be a one-character text literal or a ? argument, not %s" [describe (p_tok p)]
  end.

(** ** The mutually recursive methods *)

(** [call] after its opening parenthesis is current; [loop] reads the arguments. *)
Definition call_with (loop : parser → res (Z * parser)) (p : parser) (name : string) (pos : Z) : res parser :=
  match assoc name allowedFunctions with
  | None => errAt pos "%s is not one of the functions a filter expression may use (%s)" [FText name; FText functionList]
  | Some limits =>
      let! p := advance p in
      if tok_is (p_tok p) "*"
      then at_tok p "%s(*) counts rows, which a filter expression may not do" [FText name]
      else if keyword (p_tok p) "distinct"
      then at_tok p "%s cannot take distinct in a filter expression" [FText name]
      else
        let isTime := mem name timeFunctions in
        let p := if isTime then set_timeDepth p (p_timeDepth p + 1) else p in
        let mark := length (p_stack p) in
        let! (count, p) := loop p in
        let! p := advance p in
        if (count <? r_min limits) || ((0 <=? r_max limits) && (r_max limits <? count))
        then errAt pos "%s takes %s in a filter expression, but %d were given" [FText name; FText (describe_range limits); FInt count]
        else if keyword (p_tok p) "filter" || keyword (p_tok p) "over"
        then at_tok p "%s cannot take a %s clause in a filter expression" [FText name; FText (lower_text p)]
        else
          let '(args, p) := takeFrom p mark in
          let p := push p (Call name args) in
          Done (if isTime then set_timeDepth p (p_timeDepth p - 1) else p)
  end.

Definition time_builds_value : string :=
  "a date or time function takes a literal, a ? argument, a column, or another date or time function — %s builds a value, and what it builds could name the server's clock".

Fixpoint expression (fuel : nat) (p : parser) (minPrecedence : Z) : res parser :=
  match fuel with
  | O => OutOfFuel
  | S f =>
      let p := set_depth p (p_depth p + 1) in
      if MaxNestingDepth <? p_depth p
      then at_tok p "this filter expression nests more than %d levels deep, which is past what any backend will evaluate; simplify it" [FInt MaxNestingDepth]
      else
        let! p := prefix f p in
        let! p := infix f p minPrecedence in
        Done (set_depth p (p_depth p - 1))
  end

with infix (fuel : nat) (p : parser) (minPrecedence : Z) : res parser :=
  match fuel with
  | O => OutOfFuel
  | S f =>
      let! (precedence, consume) := peekOperator p in
      if (precedence =? 0) || (precedence <=? minPrecedence) then Done p
      else let! p := consume_with f p precedence consume in infix f p minPrecedence
  end

(** The calls [consume(precedence)] can make. *)
with consume_with (fuel : nat) (p : parser) (precedence : Z) (k : consumer) : res parser :=
  match fuel with
  | O => OutOfFuel
  | S f =>
      match k with
      | c_nil => Done p
      | c_binary => binary f p precedence
      | c_isOperator => isOperator f p precedence
      | c_inList => inListNegated f p false
      | c_like => likeNegated f p precedence false
      | c_between => betweenNegated f p false
      | c_negatedOperator => negatedOperator f p precedence
      end
  end

with binary (fuel : nat) (p : parser) (precedence : Z) : res parser :=
  match fuel with
  | O => OutOfFuel
  | S f =>
      let op := lower_text p in
      let! p := advance p in
      let! p := expression f p precedence in
      Done (take2_push p (Binary op))
  end

with isOperator (fuel : nat) (p : parser) (precedence : Z) : res parser :=
  match fuel with
  | O => OutOfFuel
  | S f =>
      let! p := advance p in
      let negated := keyword (p_tok p) "not" in
      let! p := if negated then advance p else Done p in
      if keyword (p_tok p) "distinct"
      then at_tok p "is distinct from is not accepted in a filter expression; write is or is not" []
      else
        let! p := expression f p precedence in
        Done (take2_push p (Is negated))
  end

with negatedOperator (fuel : nat) (p : parser) (precedence : Z) : res parser :=
  match fuel with
  | O => OutOfFuel
  | S f =>
      let pos := t_pos (p_tok p) in
      let! p := advance p in
      if keyword (p_tok p) "in" then inListNegated f p true
      else if keyword (p_tok p) "like" then likeNegated f p precedence true
      else if keyword (p_tok p) "between" then betweenNegated f p true
      else if keyword (p_tok p) "null"
      then errAt pos "not null is not accepted after a value in a filter expression; write is not null" []
      else errAt pos "not may negate in, like or between here, but %s follows it" [describe (p_tok p)]
  end

with likeNegated (fuel : nat) (p : parser) (precedence : Z) (negated : bool) : res parser :=
  match fuel with
  | O => OutOfFuel
  | S f =>
      let! p := advance p in
      let! p := expression f p precedence in
      if keyword (p_tok p) "escape" then
        let! p := advance p in
        let! _ := check_escape p in
        let! p := consumeLiteral p in
        Done (take3_push p (λ left pattern escape, Like negated left pattern (Some escape)))
      else Done (take2_push p (λ left pattern, Like negated left pattern None))
  end

with betweenNegated (fuel : nat) (p : parser) (negated : bool) : res parser :=
  match fuel with
  | O => OutOfFuel
  | S f =>
      let! p := advance p in
      let! p := expression f p precedenceAnd in
      if negb (keyword (p_tok p) "and")
      then at_tok p "between needs an and before its upper bound, but %s follows" [describe (p_tok p)]
      else
        let! p := advance p in
        let! p := expression f p precedenceAnd in
        Done (take3_push p (Between negated))
  end

with prefix (fuel : nat) (p : parser) : res parser :=
  match fuel with
  | O => OutOfFuel
  | S f =>
      let tok := p_tok p in
      if tok_is tok "-" || tok_is tok "+" then
        let sign := t_text tok in
        let! p := advance p in
        let! p := expression f p precedenceUnary in
        Done (pop_push p (Unary sign))
      else if tok_is tok "~"
      then at_tok p "~ is a bit operator, which a filter expression may not use" []
      else if tok_is tok "(" then
        let! p := advance p in
        if keyword (p_tok p) "select"
        then at_tok p "a filter expression may not read rows itself; it sees only the row it is applied to" []
        else
          let! p := expression f p precedenceLowest in
          let! p := expect p ")" "a closing parenthesis" in
          Done (pop_push p Paren)
      else if keyword tok "not" then
        let! p := advance p in
        let! p := expression f p precedenceNot in
        Done (pop_push p (Unary "not"))
      else if keyword tok "case" then caseExpression f p
      else if is_kind tokenParam tok then consumeLiteral p
      else if is_kind tokenString tok || is_kind tokenNumber tok || is_kind tokenBlob tok
      then consumeLiteral p
      else if is_kind tokenQuotedIdent tok then column p (t_text tok) (t_pos tok)
      else if is_kind tokenIdent tok then identifier f p
      else at_tok p "a filter expression cannot start a value with %s" [describe tok]
  end

with identifier (fuel : nat) (p : parser) : res parser :=
  match fuel with
  | O => OutOfFuel
  | S f =>
      let word := lower_text p in
      match assoc word rejectedKeywords with
      | Some reason => at_tok p "%s" [FText reason]
      | None =>
          if mem word ["null"; "true"; "false"]
          then advance (push p (Literal (literalKindOf (p_tok p)) (t_text (p_tok p))))
          else if String.eqb word "case" then caseExpression f p
          else if mem word infixWords
          then at_tok p "a filter expression cannot start a value with %s" [describe (p_tok p)]
          else
            let name := t_text (p_tok p) in
            let pos := t_pos (p_tok p) in
            let! p := advance p in
            if tok_is (p_tok p) "(" then call_with (λ p, callArgs f p word 0) p word pos
            else namedColumn p name pos
      end
  end

(** The argument loop of [call]. *)
with callArgs (fuel : nat) (p : parser) (name : string) (count : Z) : res (Z * parser) :=
  match fuel with
  | O => OutOfFuel
  | S f =>
      if tok_is (p_tok p) ")" then Done (count, p)
      else
        let! p := if 0 <? count then expect p "," "a comma between arguments" else Done p in
        let isTime := mem name timeFunctions in
        let! p := if isTime then timeArgument f p else expression f p precedenceLowest in
        if isTime && negb (tok_is (p_tok p) ",") && negb (tok_is (p_tok p) ")")
        then at_tok p time_builds_value [describe (p_tok p)]
        else if is_kind tokenEOF (p_tok p)
        then at_tok p "the arguments of %s are never closed" [FText name]
        else callArgs f p name (count + 1)
  end

with timeArgument (fuel : nat) (p : parser) : res parser :=
  match fuel with
  | O => OutOfFuel
  | S f =>
      let signed := tok_is (p_tok p) "-" || tok_is (p_tok p) "+" in
      let sign := if signed then t_text (p_tok p) else "" in
      let! p := if signed then advance p else Done p in
      if signed && negb (is_kind tokenNumber (p_tok p))
      then at_tok p "only a number may carry a sign in the arguments of a date or time function" []
      else match t_kind (p_tok p) with
      | tokenString | tokenNumber | tokenParam =>
          let! p := consumeLiteral p in
          Done (if String.eqb sign "" then p else pop_push p (Unary sign))
      | tokenQuotedIdent => column p (t_text (p_tok p)) (t_pos (p_tok p))
      | tokenIdent =>
          let word := lower_text p in
          if String.eqb word "null"
          then advance (push p (Literal LiteralNull (t_text (p_tok p))))
          else match assoc word rejectedKeywords with
          | Some reason => at_tok p "%s" [FText reason]
          | None =>
              if String.eqb word "case" || mem word infixWords
              then at_tok p time_builds_value [describe (p_tok p)]
              else
                let name := t_text (p_tok p) in
                let pos := t_pos (p_tok p) in
                let! p := advance p in
                if negb (tok_is (p_tok p) "(") then namedColumn p name pos
                else if negb (mem word timeFunctions)
                then errAt pos "a date or time function takes a moment or a modifier, not the result of %s; compute the value and bind it as a ? argument" [FText word]
                else call_with (λ p, callArgs f p word 0) p word pos
          end
      | _ => at_tok p "a date or time function takes a literal, a ? argument, a column, or another date or time function — not a computed expression, whose result could name the server's clock" []
      end
  end

with caseExpression (fuel : nat) (p : parser) : res parser :=
  match fuel with
  | O => OutOfFuel
  | S f =>
      let! p := advance p in
      let! (operand, p) :=
        (if negb (keyword (p_tok p) "when")
         then let! p := expression f p precedenceLowest in Done (pop p)
         else Done (None, p)) in
      if negb (keyword (p_tok p) "when")
      then at_tok p "case needs at least one when in a filter expression, but %s follows" [describe (p_tok p)]
      else
        let! (branches, p) := caseBranches f p [] in
        let! (els, p) :=
          (if keyword (p_tok p) "else"
           then let! p := advance p in let! p := expression f p precedenceLowest in Done (pop p)
           else Done (None, p)) in
        if negb (keyword (p_tok p) "end")
        then at_tok p "case needs an end in a filter expression, but %s follows" [describe (p_tok p)]
        else let! p := advance p in Done (push p (Case operand branches els))
  end

(** The [when] loop of [caseExpression]. *)
with caseBranches (fuel : nat) (p : parser) (acc : list (Node * Node)) : res (list (Node * Node) * parser) :=
  match fuel with
  | O => OutOfFuel
  | S f =>
      if keyword (p_tok p) "when" then
        let! p := advance p in
        let! p := expression f p precedenceLowest in
        if negb (keyword (p_tok p) "then")
        then at_tok p "each when of a case needs a then, but %s follows" [describe (p_tok p)]
        else
          let! p := advance p in
          let! p := expression f p precedenceLowest in
          match take p 2 with
          | ([w; t], p) => caseBranches f p (acc ++ [(w, t)])
          | (_, p) => caseBranches f p acc
          end
      else Done (acc, p)
  end.

(** ** [Parse] *)

(** [Parse] with a given fuel, after the context and the length are checked. *)
Definition Parse_fuel (fuel : nat) (expr : string) : res Node :=
  let p0 := Parser (Lexer 0 expr 1) (Token tokenEOF "" 0) 0 0 0 [] in
  let! p := advance p0 in
  if is_kind tokenEOF (p_tok p) then errAt 0 "the filter expression is empty" []
  else
    let! p := expression fuel p precedenceLowest in
    if negb (is_kind tokenEOF (p_tok p)) then
      if tok_is (p_tok p) ";"
      then at_tok p "a filter is one expression; it may not carry a second statement" []
      else at_tok p "%s is left over after the end of the filter expression" [describe (p_tok p)]
    else if negb (p_params p =? length (c_args cfg))%nat
    then errAt 0 "the filter expression has %d ? placeholder(s) but %d argument(s) were supplied" [FInt (Z.of_nat (p_params p)); FInt (Z.of_nat (length (c_args cfg)))]
    else match p_stack p with
         | [n] => Done n
         | _ => errAt 0 "the filter expression did not parse to a single value" []
         end.

(** Twelve calls, at most, between two tokens. *)
Definition parse_fuel (expr : string) : nat := 12 * String.length expr + 24.
End Parser.

(** [Options], with the context made non-nil as [Parse] does first. *)
Record Options := MkOptions { o_Context : option ctx; o_Columns : list string; o_Args : list arg }.

Definition Parse `{!UnicodeTables} (expr : string) (opts : Options) : res Node :=
  let context := default background (o_Context opts) in
  match context 0%nat with
  | Some e => Fail (ErrCtx e)
  | None =>
      if MaxFilterLength <? len expr
      then errAt 0 "the filter expression is %d bytes, over the %d-byte limit" [FInt (len expr); FInt MaxFilterLength]
      else
        let columns := list_to_set (map to_lower (o_Columns opts)) in
        Parse_fuel (Config context columns (o_Args opts)) (parse_fuel expr) expr
  end.

Definition Validate `{!UnicodeTables} (expr : string) (opts : Options) : res () :=
  let! _ := Parse expr opts in Done ().
