(* ===== verification/FilterGrammar.v ===== *)
(** * The grammar of filter expressions

    An inductive grammar over token lists, with one token of lookahead, for
    the language of [internal/filter/parse.go]; FilterSound proves that the
    parser only returns trees the grammar derives, and the properties of
    parsed filters are proved here by rule induction.

    In every judgement [d] is the nesting depth, [td] the number of enclosing
    date or time functions, [k] and [k'] the number of placeholders before and
    after, [ts] the tokens consumed and [u] the token that follows them. *)
From Stdlib Require Import ZArith Lia Ascii String.
From stdpp Require Import base gmap strings list.
From S2P Require Import Prelude GoStrings FilterLexer FilterParser.
Local Open Scope Z_scope.

(** The first of the tokens [ts] then [u]. *)
Definition look (ts : list token) (u : token) : token := hd u ts.

Section Grammar.
Context {UT : UnicodeTables} (cfg : config).

(** A literal or placeholder token, with the clock words barred under [td]. *)
Definition clock_free (td : Z) (k : nat) (t : token) : Prop :=
  ∀ s, clock_text cfg td k t = Some s → assoc (to_lower (trim_space s)) rejectedTimeWords = None.

Inductive Lit (td : Z) (k : nat) (t : token) : Node → nat → Prop :=
| Lit_param : is_kind tokenParam t = true → clock_free td k t → Lit td k t (Param k) (S k)
| Lit_literal : is_kind tokenParam t = false → clock_free td k t →
    Lit td k t (Literal (literalKindOf t) (t_text t)) k.

(** The tokens that may stand for a value in an [in] list. *)
Definition is_literal (t : token) : Prop :=
  t_kind t ∈ [tokenString; tokenNumber; tokenBlob; tokenParam]
  ∨ t_kind t = tokenIdent ∧ to_lower (t_text t) ∈ ["null"; "true"; "false"].

Definition is_sign (t : token) : Prop := tok_is t "-" = true ∨ tok_is t "+" = true.

(** A literal, or a signed number. *)
Inductive Signed (td : Z) (k : nat) : list token → Node → nat → Prop :=
| Signed_plain t n k' : is_literal t → Lit td k t n k' → Signed td k [t] n k'
| Signed_sign s t n k' : is_sign s → t_kind t = tokenNumber → Lit td k t n k' →
    Signed td k [s; t] (Unary (t_text s) n) k'.

Inductive Values (td : Z) : nat → list token → list Node → nat → Prop :=
| Values_one k ts n k' : Signed td k ts n k' → Values td k ts [n] k'
| Values_more k ts n k1 c ts' ns k2 : Signed td k ts n k1 → tok_is c "," = true →
    Values td k1 ts' ns k2 → Values td k (ts ++ c :: ts') (n :: ns) k2.

(** The list of [in], from its opening parenthesis. *)
Inductive InList (td : Z) (k : nat) : list token → list Node → nat → Prop :=
| InList_empty o c : tok_is o "(" = true → tok_is c ")" = true → InList td k [o; c] [] k
| InList_values o ts c ns k' : tok_is o "(" = true → Values td k ts ns k' → tok_is c ")" = true →
    InList td k (o :: ts ++ [c]) ns k'.

(** The operator word [w], or [not] and then [w]: the tokens past the first. *)
Definition negatable (c cw : consumer) (w : string) (pre : list token) (negated : bool) : Prop :=
  (c = cw ∧ pre = [] ∧ negated = false)
  ∨ (c = c_negatedOperator ∧ (∃ x, pre = [x] ∧ keyword x w = true) ∧ negated = true).

(** [escape] and what follows it, at token [t]. *)
Definition escape_ok (k : nat) (t : token) : Prop :=
  (t_kind t = tokenString ∧ length (runes (t_text t)) = 1%nat)
  ∨ (t_kind t = tokenParam
     ∧ ((length (c_args cfg) ≤ k)%nat
        ∨ ∃ s, c_args cfg !! k = Some (ArgString s) ∧ length (runes s) = 1%nat)).

(** The column a name token denotes, before the token [u]. *)
Definition column_ok (t u : token) : Prop :=
  tok_is u "." = false ∧ to_lower (t_text t) ∈ c_columns cfg.

(** The identifiers that are neither refused nor part of the syntax. *)
Definition plain_word (t : token) : Prop :=
  t_kind t = tokenIdent ∧ assoc (to_lower (t_text t)) rejectedKeywords = None
  ∧ (to_lower (t_text t) ∉ ["null"; "case"]) ∧ (to_lower (t_text t) ∉ infixWords).

Definition under (name : string) (td : Z) : Z := if mem name timeFunctions then td + 1 else td.

Definition arity_ok (name : string) (count : Z) : Prop :=
  ∃ r, assoc name allowedFunctions = Some r
       ∧ r_min r ≤ count ∧ (0 ≤ r_max r → count ≤ r_max r).

Inductive Expr : Z → Z → Z → nat → list token → token → Node → nat → Prop :=
| Expr_intro d td m k ts1 ts2 u n1 n k1 k2 :
    d + 1 ≤ MaxNestingDepth →
    Pref (d + 1) td k ts1 (look ts2 u) n1 k1 →
    Infx (d + 1) td m k1 n1 ts2 u n k2 →
    Expr d td m k (ts1 ++ ts2) u n k2

with Pref : Z → Z → nat → list token → token → Node → nat → Prop :=
| Pref_sign d td k t ts u n k' :
    is_sign t → Expr d td precedenceUnary k ts u n k' →
    Pref d td k (t :: ts) u (Unary (t_text t) n) k'
| Pref_paren d td k t ts c u n k' :
    tok_is t "(" = true → Expr d td precedenceLowest k ts c n k' → tok_is c ")" = true →
    Pref d td k (t :: ts ++ [c]) u (Paren n) k'
| Pref_not d td k t ts u n k' :
    keyword t "not" = true → Expr d td precedenceNot k ts u n k' →
    Pref d td k (t :: ts) u (Unary "not" n) k'
| Pref_case d td k t ts u n k' :
    t_kind t = tokenIdent → CaseE d td k ts u n k' → Pref d td k (t :: ts) u n k'
| Pref_literal d td k t u n k' :
    t_kind t ∈ [tokenString; tokenNumber; tokenBlob; tokenParam] → Lit td k t n k' →
    Pref d td k [t] u n k'
| Pref_word d td k t u :
    t_kind t = tokenIdent → to_lower (t_text t) ∈ ["null"; "true"; "false"] →
    Pref d td k [t] u (Literal (literalKindOf t) (t_text t)) k
| Pref_quoted d td k t u :
    t_kind t = tokenQuotedIdent → column_ok t u → Pref d td k [t] u (Column (to_lower (t_text t))) k
| Pref_column d td k t u :
    plain_word t → tok_is u "(" = false → column_ok t u →
    Pref d td k [t] u (Column (to_lower (t_text t))) k
| Pref_call d td k t ts u n k' :
    plain_word t → CallE d td (to_lower (t_text t)) k ts u n k' → Pref d td k (t :: ts) u n k'

with CallE : Z → Z → string → nat → list token → token → Node → nat → Prop :=
| Call_intro d td name k o ts c u ns k' :
    tok_is o "(" = true → tok_is c ")" = true →
    Args d (under name td) name k true ts c ns k' →
    arity_ok name (Z.of_nat (length ns)) →
    CallE d td name k (o :: ts ++ [c]) u (Call name ns) k'

with Args : Z → Z → string → nat → bool → list token → token → list Node → nat → Prop :=
| Args_nil d td name k first u : Args d td name k first [] u [] k
| Args_expr d td name k first sep ts1 ts2 u n ns k1 k2 :
    mem name timeFunctions = false →
    (first = true ∧ sep = [] ∨ first = false ∧ ∃ c, sep = [c] ∧ tok_is c "," = true) →
    Expr d td precedenceLowest k ts1 (look ts2 u) n k1 →
    Args d td name k1 false ts2 u ns k2 →
    Args d td name k first (sep ++ ts1 ++ ts2) u (n :: ns) k2
| Args_time d td name k first sep ts1 ts2 u n ns k1 k2 :
    mem name timeFunctions = true →
    (first = true ∧ sep = [] ∨ first = false ∧ ∃ c, sep = [c] ∧ tok_is c "," = true) →
    TimeArg d td k ts1 (look ts2 u) n k1 →
    Args d td name k1 false ts2 u ns k2 →
    Args d td name k first (sep ++ ts1 ++ ts2) u (n :: ns) k2

with TimeArg : Z → Z → nat → list token → token → Node → nat → Prop :=
| Time_literal d td k t u n k' :
    t_kind t ∈ [tokenString; tokenNumber; tokenParam] → Lit td k t n k' → TimeArg d td k [t] u n k'
| Time_signed d td k s t u n k' :
    is_sign s → t_kind t = tokenNumber → Lit td k t n k' →
    TimeArg d td k [s; t] u (Unary (t_text s) n) k'
| Time_quoted d td k t u :
    t_kind t = tokenQuotedIdent → column_ok t u → TimeArg d td k [t] u (Column (to_lower (t_text t))) k
| Time_null d td k t u :
    t_kind t = tokenIdent → to_lower (t_text t) = "null" →
    TimeArg d td k [t] u (Literal LiteralNull (t_text t)) k
| Time_column d td k t u :
    plain_word t → tok_is u "(" = false → column_ok t u →
    TimeArg d td k [t] u (Column (to_lower (t_text t))) k
| Time_call d td k t ts u n k' :
    plain_word t → to_lower (t_text t) ∈ timeFunctions →
    CallE d td (to_lower (t_text t)) k ts u n k' → TimeArg d td k (t :: ts) u n k'

with CaseE : Z → Z → nat → list token → token → Node → nat → Prop :=
| Case_intro d td k ts0 operand k0 w tsb br kb tse els ke e u :
    look tsb (look tse e) = w → keyword w "when" = true →
    Operand d td k ts0 w operand k0 →
    Branches d td k0 tsb (look tse e) br kb →
    ElseE d td kb tse e els ke →
    keyword e "end" = true →
    CaseE d td k (ts0 ++ tsb ++ tse ++ [e]) u (Case operand br els) ke

with Operand : Z → Z → nat → list token → token → option Node → nat → Prop :=
| Operand_none d td k u : Operand d td k [] u None k
| Operand_some d td k ts u n k' :
    Expr d td precedenceLowest k ts u n k' → Operand d td k ts u (Some n) k'

with Branches : Z → Z → nat → list token → token → list (Node * Node) → nat → Prop :=
| Branches_nil d td k u : keyword u "when" = false → Branches d td k [] u [] k
| Branches_cons d td k w ts1 t ts2 ts3 u n1 n2 br k1 k2 k3 :
    keyword w "when" = true → Expr d td precedenceLowest k ts1 t n1 k1 →
    keyword t "then" = true → Expr d td precedenceLowest k1 ts2 (look ts3 u) n2 k2 →
    Branches d td k2 ts3 u br k3 →
    Branches d td k (w :: ts1 ++ t :: ts2 ++ ts3) u ((n1, n2) :: br) k3

with ElseE : Z → Z → nat → list token → token → option Node → nat → Prop :=
| Else_none d td k u : keyword u "else" = false → ElseE d td k [] u None k
| Else_some d td k t ts u n k' :
    keyword t "else" = true → Expr d td precedenceLowest k ts u n k' →
    ElseE d td k (t :: ts) u (Some n) k'

with Infx : Z → Z → Z → nat → Node → list token → token → Node → nat → Prop :=
| Infx_stop d td m k left u p c :
    peek_tok u = Done (p, c) → p = 0 ∨ p ≤ m → Infx d td m k left [] u left k
| Infx_step d td m k left t ts1 ts2 u p c mid n k1 k2 :
    peek_tok t = Done (p, c) → p ≠ 0 → m < p →
    Step d td p k c t left ts1 (look ts2 u) mid k1 →
    Infx d td m k1 mid ts2 u n k2 →
    Infx d td m k left (t :: ts1 ++ ts2) u n k2

with Step : Z → Z → Z → nat → consumer → token → Node → list token → token → Node → nat → Prop :=
| Step_binary d td p k t left ts u r k' :
    Expr d td p k ts u r k' →
    Step d td p k c_binary t left ts u (Binary (to_lower (t_text t)) left r) k'
| Step_is d td p k t left nt ts u r k' (negated : bool) :
    (negated = false ∧ nt = [] ∨ negated = true ∧ ∃ x, nt = [x] ∧ keyword x "not" = true) →
    keyword (look ts u) "distinct" = false → Expr d td p k ts u r k' →
    Step d td p k c_isOperator t left (nt ++ ts) u (Is negated left r) k'
| Step_in d td p k c t left pre ts u l k' negated :
    negatable c c_inList "in" pre negated → InList td k ts l k' →
    Step d td p k c t left (pre ++ ts) u (In negated left l) k'
| Step_like d td p k c t left pre ts u r k' negated :
    negatable c c_like "like" pre negated → Expr d td p k ts u r k' →
    keyword u "escape" = false →
    Step d td p k c t left (pre ++ ts) u (Like negated left r None) k'
| Step_escape d td p k c t left pre ts e x u r en k1 k2 negated :
    negatable c c_like "like" pre negated → Expr d td p k ts e r k1 →
    keyword e "escape" = true → escape_ok k1 x → Lit td k1 x en k2 →
    Step d td p k c t left (pre ++ ts ++ [e; x]) u (Like negated left r (Some en)) k2
| Step_between d td p k c t left pre ts1 a ts2 u lo hi k1 k2 negated :
    negatable c c_between "between" pre negated →
    Expr d td precedenceAnd k ts1 a lo k1 → keyword a "and" = true →
    Expr d td precedenceAnd k1 ts2 u hi k2 →
    Step d td p k c t left (pre ++ ts1 ++ a :: ts2) u (Between negated left lo hi) k2.

(** A whole filter: the placeholders are all the arguments. *)
Definition Filter (ts : list token) (eof : token) (n : Node) : Prop :=
  t_kind eof = tokenEOF ∧ Expr 0 0 precedenceLowest 0 ts eof n (length (c_args cfg)).
End Grammar.
