(* ===== verification/FilterSound.v ===== *)
(** * The parser implements the grammar

    Every tree [Parse] returns is derived by the grammar of FilterGrammar from
    exactly the tokens the lexer reads: a functional refinement, by induction
    on the fuel, one lemma per method of the parser. *)
From Stdlib Require Import ZArith Lia Ascii String.
From stdpp Require Import base gmap strings list.
From S2P Require Import Prelude GoStrings FilterLexer FilterParser FilterGrammar.
Local Open Scope Z_scope.

Section Sound.
Context {UT : UnicodeTables} (cfg : config).

(** ** Reading tokens *)

(** From the lexer [l] with current token [t], past the tokens [ts]. *)
Inductive reads : lexer → token → list token → lexer → token → Prop :=
| reads_nil l t : reads l t [] l t
| reads_cons l t l1 t1 ts l2 t2 :
    next (c_ctx cfg) l = Done (t1, l1) → reads l1 t1 ts l2 t2 → reads l t (t :: ts) l2 t2.

Lemma reads_app l t ts l1 t1 ts' l2 t2 :
  reads l t ts l1 t1 → reads l1 t1 ts' l2 t2 → reads l t (ts ++ ts') l2 t2.
Proof. induction 1; simpl; eauto using reads. Qed.

Lemma reads_look l t ts l1 t1 : reads l t ts l1 t1 → look ts t1 = t.
Proof. by destruct 1. Qed.

(** [reaches p ts p']: [p'] is past the tokens [ts], at the same depths. *)
Definition reaches (p : parser) (ts : list token) (p' : parser) : Prop :=
  reads (p_lex p) (p_tok p) ts (p_lex p') (p_tok p')
  ∧ p_depth p' = p_depth p ∧ p_timeDepth p' = p_timeDepth p.

Lemma reaches_refl p : reaches p [] p.
Proof. split; [constructor | done]. Qed.

Lemma reaches_app p ts p1 ts' p2 :
  reaches p ts p1 → reaches p1 ts' p2 → reaches p (ts ++ ts') p2.
Proof. intros (R & ? & ?) (R' & ? & ?). split_and!; [by eapply reads_app|congruence..]. Qed.

Lemma reaches_look p ts p' : reaches p ts p' → look ts (p_tok p') = p_tok p.
Proof. intros [R _]. by eapply reads_look. Qed.

Lemma reaches_stack p ts p' s : reaches p ts p' → reaches p ts (set_stack p' s).
Proof. done. Qed.
Lemma reaches_params p ts p' k : reaches p ts p' → reaches p ts (set_params p' k).
Proof. done. Qed.

Lemma advance_ok p p' :
  advance cfg p = Done p' →
  reaches p [p_tok p] p' ∧ p_stack p' = p_stack p ∧ p_params p' = p_params p.
Proof.
  intros ([t l] & Hn & [= <-])%obind_Done. split_and!; [|done|done].
  split; [|done]. econstructor; [exact Hn | constructor].
Qed.

Lemma expect_ok p op what p' :
  expect cfg p op what = Done p' →
  tok_is (p_tok p) op = true ∧ reaches p [p_tok p] p'
  ∧ p_stack p' = p_stack p ∧ p_params p' = p_params p.
Proof. unfold expect. destruct (tok_is _ _); [intros ?%advance_ok; done | done]. Qed.

(** ** The stack *)

Lemma set_stack_id p : set_stack p (p_stack p) = p.
Proof. by destruct p. Qed.

Lemma take_app p s l :
  p_stack p = s ++ l → l ≠ [] → take p (length l) = (l, set_stack p s).
Proof.
  intros Hs Hl. unfold take. rewrite Hs, length_app.
  destruct l as [|n l]; [done|].
  replace (length (n :: l) =? 0)%nat with false by done.
  replace (length s + length (n :: l) <? length (n :: l))%nat with false
    by (symmetry; apply Nat.ltb_ge; lia).
  replace (length s + length (n :: l) - length (n :: l))%nat with (length s) by lia.
  simpl. by rewrite drop_app_length, take_app_length.
Qed.

Lemma takeFrom_app p s l :
  p_stack p = s ++ l → takeFrom p (length s) = (l, set_stack p s).
Proof.
  intros Hs. unfold takeFrom. rewrite Hs, length_app.
  replace (length s + length l <? length s)%nat with false by (symmetry; apply Nat.ltb_ge; lia).
  by rewrite drop_app_length, take_app_length.
Qed.

Lemma pop_app p s n : p_stack p = s ++ [n] → pop p = (Some n, set_stack p s).
Proof. intros Hs. unfold pop. change 1%nat with (length [n]). by rewrite (take_app p s [n]). Qed.

Lemma pop_push_app p s n f : p_stack p = s ++ [n] → pop_push p f = set_stack p (s ++ [f n]).
Proof. intros Hs. unfold pop_push. by rewrite (pop_app p s n). Qed.

Lemma take2_app p s a b f :
  p_stack p = (s ++ [a]) ++ [b] → take2_push p f = set_stack p (s ++ [f a b]).
Proof.
  intros Hs. unfold take2_push. change 2%nat with (length [a; b]).
  by rewrite (take_app p s [a; b]) by (by rewrite ?Hs, <-?app_assoc).
Qed.

Lemma take3_app p s a b c f :
  p_stack p = ((s ++ [a]) ++ [b]) ++ [c] → take3_push p f = set_stack p (s ++ [f a b c]).
Proof.
  intros Hs. unfold take3_push. change 3%nat with (length [a; b; c]).
  by rewrite (take_app p s [a; b; c]) by (by rewrite ?Hs, <-?app_assoc).
Qed.

(** ** The methods that do not recurse *)

(** [J] holds of the tokens between [p] and [p'] and the node pushed on [s]. *)
Definition yields (p : parser) (s : list Node) (p' : parser)
    (J : list token → token → Node → nat → Prop) : Prop :=
  ∃ ts n, reaches p ts p' ∧ p_stack p' = s ++ [n] ∧ J ts (p_tok p') n (p_params p').

Lemma consumeLiteral_ok p p' :
  consumeLiteral cfg p = Done p' →
  reaches p [p_tok p] p' ∧ ∃ n, p_stack p' = p_stack p ++ [n]
  ∧ Lit cfg (p_timeDepth p) (p_params p) (p_tok p) n (p_params p').
Proof.
  unfold consumeLiteral. intros ([] & Hclock & H)%obind_Done.
  assert (Hfree : clock_free cfg (p_timeDepth p) (p_params p) (p_tok p)).
  { intros s Hs. rewrite Hs in Hclock. unfold rejectClockWord in Hclock.
    by destruct (assoc _ _). }
  destruct (is_kind tokenParam (p_tok p)) eqn:Hk;
    apply advance_ok in H as (R & Hst & Hpar); (split; [exact R|]); simpl in *;
    eexists; (split; [exact Hst|]); rewrite Hpar; by constructor.
Qed.

Lemma literalToken_ok p : literalToken p = true → is_literal (p_tok p).
Proof.
  unfold literalToken, is_literal, lower_text.
  destruct (t_kind (p_tok p)); try done; intros H; try (left; set_solver).
  right. split; [done|]. by apply mem_spec.
Qed.

Lemma is_kind_spec k t : is_kind k t = true ↔ t_kind t = k.
Proof. apply bool_decide_eq_true. Qed.

(** A sign read or not, then the rest. *)
Lemma sign_spec p p1 (b := tok_is (p_tok p) "-" || tok_is (p_tok p) "+") :
  (if b then advance cfg p else Done p) = Done p1 →
  p_stack p1 = p_stack p ∧ p_params p1 = p_params p ∧
  ((b = true ∧ is_sign (p_tok p) ∧ reaches p [p_tok p] p1 ∧ t_text (p_tok p) ≠ "")
   ∨ (b = false ∧ p1 = p)).
Proof.
  destruct b eqn:E; subst b.
  - intros (R & Hs & Hp)%advance_ok. split_and!; [done|done|]. left.
    split_and!; [done| |exact R|].
    + by apply orb_true_iff.
    + unfold tok_is in E. intros Hn. rewrite Hn in E.
      by rewrite !andb_false_r in E.
  - intros [= <-]. auto.
Qed.

Lemma listValue_ok p p' :
  listValue cfg p = Done p' →
  yields p (p_stack p) p' (λ ts _, Signed cfg (p_timeDepth p) (p_params p) ts).
Proof.
  unfold listValue. intros (p1 & (Hs & Hp & Hcase)%sign_spec & H)%obind_Done.
  destruct (literalToken p1) eqn:Hlit; [|done]. apply literalToken_ok in Hlit.
  destruct (_ && negb _) eqn:Hnum; [done|]. simpl in H.
  apply obind_Done in H as (p2 & (R & n & Hst & HL)%consumeLiteral_ok & H).
  destruct Hcase as [(Eb & Hsign & R1 & Hne)|(Eb & ->)]; rewrite Eb in *.
  - apply String.eqb_neq in Hne. rewrite Hne in H. injection H as <-.
    simpl in Hnum. apply negb_false_iff, is_kind_spec in Hnum.
    rewrite (pop_push_app _ (p_stack p) n) by congruence.
    exists [p_tok p; p_tok p1], (Unary (t_text (p_tok p)) n).
    split_and!; [|done|].
    + apply reaches_stack, (reaches_app _ [_] _ [_] _ R1 R).
    + constructor; [done..|]. destruct R1 as (_ & _ & <-). by rewrite <-Hp.
  - simpl in H. injection H as <-. exists [p_tok p], n. split_and!; [done|congruence|].
    by constructor.
Qed.

Lemma inList_loop_ok f : ∀ p p',
  inList_loop cfg f p = Done p' →
  ∃ ts ns, reaches p ts p' ∧ p_stack p' = p_stack p ++ ns
           ∧ Values cfg (p_timeDepth p) (p_params p) ts ns (p_params p').
Proof.
  induction f as [|f IH]; simpl; [done|]. intros p p'.
  destruct (keyword _ _); [done|].
  intros (p1 & (ts & n & R & Hs & Hv)%listValue_ok & H)%obind_Done.
  destruct (tok_is (p_tok p1) ",") eqn:Hc.
  - apply obind_Done in H as (p2 & (R2 & Hs2 & Hp2)%advance_ok & H).
    apply IH in H as (ts' & ns & R' & Hs' & Hv').
    pose proof R as (_ & _ & Htd). pose proof R2 as (_ & _ & Htd2).
    exists (ts ++ p_tok p1 :: ts'), (n :: ns). split_and!.
    + eapply reaches_app; [exact R|]. exact (reaches_app _ [_] _ _ _ R2 R').
    + rewrite Hs', Hs2, Hs, <-app_assoc. done.
    + eapply Values_more; [exact Hv|done|]. by rewrite <-Hp2, <-Htd, <-Htd2.
  - injection H as <-. exists ts, [n]. split_and!; [done..|]. by constructor.
Qed.

(** [inListNegated], current at the word [in]. *)
Lemma inListNegated_ok f p p' negated s left :
  p_stack p = s ++ [left] → inListNegated cfg f p negated = Done p' →
  ∃ ts l, reaches p (p_tok p :: ts) p' ∧ p_stack p' = s ++ [In negated left l]
          ∧ InList cfg (p_timeDepth p) (p_params p) ts l (p_params p').
Proof.
  intros Hst. unfold inListNegated.
  intros (p1 & (R1 & Hs1 & Hp1)%advance_ok & H)%obind_Done.
  destruct (tok_is (p_tok p1) "(") eqn:Ho; [|done]. simpl in H.
  apply obind_Done in H as (p2 & (R2 & Hs2 & Hp2)%advance_ok & H).
  pose proof (reaches_app _ [_] _ [_] _ R1 R2) as R12. rewrite Hs1 in Hs2. rewrite Hp1 in Hp2.
  destruct (tok_is (p_tok p2) ")") eqn:Hc.
  - apply obind_Done in H as (p3 & (R3 & Hs3 & Hp3)%advance_ok & [= <-]).
    rewrite (pop_push_app _ s left) by congruence.
    exists [p_tok p1; p_tok p2], []. split_and!; [|done|].
    + apply reaches_stack. exact (reaches_app _ [_; _] _ [_] _ R12 R3).
    + simpl. rewrite Hp3, Hp2. by constructor.
  - apply obind_Done in H as (p3 & (ts & ns & R3 & Hs3 & Hv)%inList_loop_ok & H).
    apply obind_Done in H as (p4 & (Hc4 & R4 & Hs4 & Hp4)%expect_ok & H).
    rewrite (takeFrom_app _ (p_stack p2) ns) in H by congruence. injection H as <-.
    rewrite (pop_push_app _ s left) by (simpl; congruence).
    exists (p_tok p1 :: ts ++ [p_tok p3]), ns. split_and!; [|done|].
    + apply reaches_stack. apply (reaches_app _ [_; _] _ _ _ R12). exact (reaches_app _ _ _ [_] _ R3 R4).
    + simpl. constructor; [done| |done]. destruct R12 as (_ & _ & <-). by rewrite Hp4, <-Hp2.
Qed.

Lemma namedColumn_ok p t pos p' :
  namedColumn cfg p (t_text t) pos = Done p' →
  column_ok cfg t (p_tok p) ∧ p' = push p (Column (to_lower (t_text t))).
Proof.
  unfold namedColumn, unknownColumn. destruct (tok_is _ _) eqn:Hd; [done|].
  destruct (bool_decide (_ ∈ _)) eqn:Hin; simpl; [|by destruct (bool_decide (_ = ∅))].
  intros [= <-]. split; [|done]. by apply bool_decide_eq_true in Hin.
Qed.

Lemma column_ok_of p p' :
  column cfg p (t_text (p_tok p)) (t_pos (p_tok p)) = Done p' →
  reaches p [p_tok p] p' ∧ p_params p' = p_params p
  ∧ p_stack p' = p_stack p ++ [Column (to_lower (t_text (p_tok p)))]
  ∧ column_ok cfg (p_tok p) (p_tok p').
Proof.
  unfold column. intros (p1 & (R & Hs & Hp)%advance_ok & [Hc ->]%namedColumn_ok)%obind_Done.
  split_and!; [done|done|by simpl; rewrite Hs|done].
Qed.

Lemma check_escape_ok p :
  check_escape cfg p = Done () → escape_ok cfg (p_params p) (p_tok p).
Proof.
  unfold check_escape, escape_ok. destruct (t_kind (p_tok p)); try done.
  - destruct (_ =? _)%nat eqn:E; [|done]. apply Nat.eqb_eq in E. by left.
  - destruct (_ <? _)%nat eqn:E.
    + destruct (c_args cfg !! p_params p) as [[text|]|] eqn:Ha; [|done|done].
      destruct (_ =? _)%nat eqn:E'; [|done]. apply Nat.eqb_eq in E'.
      right. split; [done|]. right. eauto.
    + apply Nat.ltb_ge in E. right. split; [done|]. by left.
Qed.

Lemma plain_word_ok t word :
  word = to_lower (t_text t) → t_kind t = tokenIdent → assoc word rejectedKeywords = None →
  mem word ["null"; "true"; "false"] = false ∨ String.eqb word "null" = false →
  String.eqb word "case" = false → mem word infixWords = false → plain_word t.
Proof.
  intros -> Hk Hr Hnull Hcase Hinf. split_and!; [done|done| |].
  - intros Hin. apply not_true_iff_false in Hcase. rewrite String.eqb_eq in Hcase.
    destruct Hnull as [Hnull|Hnull].
    + apply not_true_iff_false in Hnull. rewrite mem_spec in Hnull. set_solver.
    + apply not_true_iff_false in Hnull. rewrite String.eqb_eq in Hnull. set_solver.
  - intros Hin%mem_spec. congruence.
Qed.

(** ** The mutually recursive methods *)

(** What every method promises at fuel [f]. *)
Definition expression_spec f := ∀ p m p',
  expression cfg f p m = Done p' →
  yields p (p_stack p) p' (Expr cfg (p_depth p) (p_timeDepth p) m (p_params p)).

Definition infix_spec f := ∀ p m p' s left,
  p_stack p = s ++ [left] → infix cfg f p m = Done p' →
  yields p s p' (Infx cfg (p_depth p) (p_timeDepth p) m (p_params p) left).

Definition operator_spec (p p' : parser) (s : list Node) (left : Node) (prec : Z) (k : consumer) :=
  ∃ ts n, reaches p (p_tok p :: ts) p' ∧ p_stack p' = s ++ [n]
  ∧ Step cfg (p_depth p) (p_timeDepth p) prec (p_params p) k (p_tok p) left ts (p_tok p') n (p_params p').

Definition consume_spec f := ∀ p prec k p' s left,
  k ≠ c_nil → p_stack p = s ++ [left] → consume_with cfg f p prec k = Done p' →
  operator_spec p p' s left prec k.

Definition prefix_spec f := ∀ p p',
  prefix cfg f p = Done p' →
  yields p (p_stack p) p' (Pref cfg (p_depth p) (p_timeDepth p) (p_params p)).

Definition args_spec f := ∀ p name count count' p',
  callArgs cfg f p name count = Done (count', p') → 0 ≤ count →
  ∃ ts ns, reaches p ts p' ∧ p_stack p' = p_stack p ++ ns ∧ count' = count + Z.of_nat (length ns)
  ∧ tok_is (p_tok p') ")" = true
  ∧ Args cfg (p_depth p) (p_timeDepth p) name (p_params p) (bool_decide (count = 0)) ts (p_tok p') ns (p_params p').

Definition timeArgument_spec f := ∀ p p',
  timeArgument cfg f p = Done p' →
  yields p (p_stack p) p' (TimeArg cfg (p_depth p) (p_timeDepth p) (p_params p)).

Definition case_spec f := ∀ p p',
  caseExpression cfg f p = Done p' →
  ∃ ts n, reaches p (p_tok p :: ts) p' ∧ p_stack p' = p_stack p ++ [n]
  ∧ CaseE cfg (p_depth p) (p_timeDepth p) (p_params p) ts (p_tok p') n (p_params p').

Definition branches_spec f := ∀ p acc br' p',
  caseBranches cfg f p acc = Done (br', p') →
  ∃ ts br, reaches p ts p' ∧ p_stack p' = p_stack p ∧ br' = acc ++ br
  ∧ Branches cfg (p_depth p) (p_timeDepth p) (p_params p) ts (p_tok p') br (p_params p').

(** Depths and counters carried along [reaches]. *)
Ltac carry :=
  repeat match goal with
  | R : reaches ?p _ ?q |- _ =>
      let Rd := fresh "Rd" in let Rt := fresh "Rt" in
      assert (p_depth q = p_depth p) as Rd by exact (proj1 (proj2 R));
      assert (p_timeDepth q = p_timeDepth p) as Rt by exact (proj2 (proj2 R));
      revert R
  end; intros; simpl in *.

Lemma peek_nil t prec k : peek_tok t = Done (prec, k) → prec ≠ 0 → k ≠ c_nil.
Proof.
  unfold peek_tok, symbol_operator, word_operator. intros H Hp ->. repeat (case_match; simplify_eq); done.
Qed.

(** The induction hypotheses: a specification at every smaller fuel. *)
Definition below (spec : nat → Prop) (f : nat) : Prop := ∀ g, (g < f)%nat → spec g.

Lemma below_pred spec f g : below spec f → (g ≤ f)%nat → below spec g.
Proof. intros H Hg h Hh. apply H. lia. Qed.

Ltac step f HE := destruct f as [|f]; [done|]; specialize (HE f (Nat.lt_succ_diag_r f)).

Lemma expression_step f : below prefix_spec f → below infix_spec f → expression_spec f.
Proof.
  intros HP HI p m p'. step f HP. specialize (HI f (Nat.lt_succ_diag_r f)). cbn [expression]. destruct (_ <? _) eqn:Hd; [done|].
  apply Z.ltb_ge in Hd. simpl in Hd.
  intros (p1 & (ts1 & n1 & R1 & Hs1 & J1)%HP & H)%obind_Done.
  apply obind_Done in H as (p2 & (ts2 & n & R2 & Hs2 & J2)%(HI _ _ _ _ _ Hs1) & [= <-]).
  carry. exists (ts1 ++ ts2), n. split_and!; [|done|].
  - destruct (reaches_app _ _ _ _ _ R1 R2) as (? & ? & ?). split_and!; simpl in *; [done|lia|lia].
  - simpl. econstructor; [exact Hd| |].
    + rewrite (reaches_look _ _ _ R2). exact J1.
    + congruence.
Qed.

Lemma infix_step f : below consume_spec f → below infix_spec f → infix_spec f.
Proof.
  intros HC HI p m p' s left Hst. step f HC. specialize (HI f (Nat.lt_succ_diag_r f)). cbn [infix]. unfold peekOperator.
  intros ((prec & k) & Hpeek & H)%obind_Done.
  destruct ((prec =? 0) || (prec <=? m)) eqn:Hstop.
  - injection H as <-. exists [], left. split_and!; [apply reaches_refl|done|].
    econstructor; [exact Hpeek|]. apply orb_true_iff in Hstop as [?%Z.eqb_eq|?%Z.leb_le]; auto.
  - apply orb_false_iff in Hstop as [Hp%Z.eqb_neq Hm%Z.leb_gt].
    apply obind_Done in H as (p1 & Hc & Hi).
    apply (HC _ _ _ _ _ _ (peek_nil _ _ _ Hpeek Hp) Hst) in Hc as (ts1 & mid & R1 & Hs1 & J1).
    apply (HI _ _ _ _ _ Hs1) in Hi as (ts2 & n & R2 & Hs2 & J2).
    carry. exists (p_tok p :: ts1 ++ ts2), n. split_and!; [|done|].
    + exact (reaches_app _ (_ :: _) _ _ _ R1 R2).
    + econstructor; [exact Hpeek|done|done| |].
      * rewrite (reaches_look _ _ _ R2). exact J1.
      * congruence.
Qed.

Lemma binary_ok f p prec p' s left :
  below expression_spec f → p_stack p = s ++ [left] → binary cfg f p prec = Done p' →
  operator_spec p p' s left prec c_binary.
Proof.
  intros HE Hst. step f HE. cbn [binary]. unfold lower_text.
  intros (p1 & (R1 & Hs1 & Hp1)%advance_ok & H)%obind_Done.
  apply obind_Done in H as (p2 & (ts & r & R2 & Hs2 & J)%HE & [= <-]).
  rewrite (take2_app _ s left r) by congruence. carry.
  exists ts, (Binary (to_lower (t_text (p_tok p))) left r). split_and!; [|done|].
  - apply reaches_stack. exact (reaches_app _ [_] _ _ _ R1 R2).
  - constructor. simpl. congruence.
Qed.

Lemma isOperator_ok f p prec p' s left :
  below expression_spec f → p_stack p = s ++ [left] → isOperator cfg f p prec = Done p' →
  operator_spec p p' s left prec c_isOperator.
Proof.
  intros HE Hst. step f HE. cbn [isOperator].
  intros (p1 & (R1 & Hs1 & Hp1)%advance_ok & H)%obind_Done.
  apply obind_Done in H as (p2 & Hnot & H).
  destruct (keyword (p_tok p2) "distinct") eqn:Hdis; [done|].
  apply obind_Done in H as (p3 & (ts & r & R3 & Hs3 & J)%HE & [= <-]).
  assert (∃ nt, reaches p1 nt p2 ∧ p_stack p2 = p_stack p1 ∧ p_params p2 = p_params p1 ∧
    (keyword (p_tok p1) "not" = false ∧ nt = []
     ∨ keyword (p_tok p1) "not" = true ∧ ∃ x, nt = [x] ∧ keyword x "not" = true))
    as (nt & R2 & Hs2 & Hp2 & Hneg).
  { destruct (keyword (p_tok p1) "not") eqn:Hk.
    - apply advance_ok in Hnot as (R2 & ? & ?). exists [p_tok p1]. eauto 10.
    - injection Hnot as <-. exists []. split_and!; auto using reaches_refl. }
  rewrite (take2_app _ s left r) by congruence.
  exists (nt ++ ts), (Is (keyword (p_tok p1) "not") left r). split_and!; [|done|].
  - apply reaches_stack. exact (reaches_app _ (_ :: _) _ _ _ (reaches_app _ [_] _ _ _ R1 R2) R3).
  - econstructor; [done| |].
    + simpl. by rewrite (reaches_look _ _ _ R3).
    + carry. congruence.
Qed.

(** The operators [not] may negate, read from the word [w] on. *)
Definition negatable_spec (p p' : parser) (s : list Node) (left : Node) (prec : Z)
    (cw : consumer) (w : string) (negated : bool) :=
  ∃ body n, reaches p (p_tok p :: body) p' ∧ p_stack p' = s ++ [n]
  ∧ ∀ c t pre, negatable c cw w pre negated →
    Step cfg (p_depth p) (p_timeDepth p) prec (p_params p) c t left (pre ++ body) (p_tok p') n (p_params p').

Lemma plain_operator p p' s left prec cw w :
  negatable_spec p p' s left prec cw w false → operator_spec p p' s left prec cw.
Proof.
  intros (body & n & R & Hs & J). exists body, n. split_and!; [done..|].
  apply (J cw (p_tok p) []). by left.
Qed.

Lemma negated_operator p p1 p' s left prec cw w :
  reaches p [p_tok p] p1 → p_params p1 = p_params p → keyword (p_tok p1) w = true →
  negatable_spec p1 p' s left prec cw w true → operator_spec p p' s left prec c_negatedOperator.
Proof.
  intros R Hp Hk (body & n & R' & Hs & J). exists (p_tok p1 :: body), n. split_and!; [|done|].
  - exact (reaches_app _ [_] _ _ _ R R').
  - pose proof R as (_ & <- & <-). rewrite <-Hp.
    apply (J c_negatedOperator (p_tok p) [p_tok p1]). right. eauto.
Qed.

Lemma in_ok f p p' negated s left prec :
  p_stack p = s ++ [left] → inListNegated cfg f p negated = Done p' →
  negatable_spec p p' s left prec c_inList "in" negated.
Proof.
  intros Hst (ts & l & R & Hs & J)%(inListNegated_ok _ _ _ _ _ _ Hst).
  exists ts, (In negated left l). split_and!; [done..|]. intros c t pre Hn. by econstructor.
Qed.

Lemma like_ok f p prec p' negated s left :
  below expression_spec f → p_stack p = s ++ [left] → likeNegated cfg f p prec negated = Done p' →
  negatable_spec p p' s left prec c_like "like" negated.
Proof.
  intros HE Hst. step f HE. cbn [likeNegated].
  intros (p1 & (R1 & Hs1 & Hp1)%advance_ok & H)%obind_Done.
  apply obind_Done in H as (p2 & (ts & r & R2 & Hs2 & J)%HE & H).
  pose proof (reaches_app _ [_] _ _ _ R1 R2) as R12.
  assert (J' : Expr cfg (p_depth p) (p_timeDepth p) prec (p_params p) ts (p_tok p2) r (p_params p2)).
  { destruct R1 as (_ & <- & <-). by rewrite <-Hp1. }
  destruct (keyword (p_tok p2) "escape") eqn:He.
  - apply obind_Done in H as (p3 & (R3 & Hs3 & Hp3)%advance_ok & H).
    apply obind_Done in H as ([] & Hesc%check_escape_ok & H).
    apply obind_Done in H as (p4 & (R4 & en & Hs4 & HL)%consumeLiteral_ok & [= <-]).
    rewrite (take3_app _ s left r en) by congruence.
    exists (ts ++ [p_tok p2; p_tok p3]), (Like negated left r (Some en)). split_and!; [|done|].
    + apply reaches_stack, (reaches_app _ (_ :: ts) _ [_; _] _ R12), (reaches_app _ [_] _ [_] _ R3 R4).
    + intros c t pre Hn. eapply Step_escape; try done; rewrite <-Hp3; [done|].
      destruct R12 as (_ & _ & <-). by destruct R3 as (_ & _ & <-).
  - injection H as <-. rewrite (take2_app _ s left r) by congruence.
    exists ts, (Like negated left r None). split_and!; [by apply reaches_stack|done|].
    intros c t pre Hn. by constructor.
Qed.

Lemma between_ok f p prec p' negated s left :
  below expression_spec f → p_stack p = s ++ [left] → betweenNegated cfg f p negated = Done p' →
  negatable_spec p p' s left prec c_between "between" negated.
Proof.
  intros HE Hst. step f HE. cbn [betweenNegated].
  intros (p1 & (R1 & Hs1 & Hp1)%advance_ok & H)%obind_Done.
  apply obind_Done in H as (p2 & (ts1 & lo & R2 & Hs2 & J1)%HE & H).
  destruct (keyword (p_tok p2) "and") eqn:Ha; [|done]. simpl in H.
  apply obind_Done in H as (p3 & (R3 & Hs3 & Hp3)%advance_ok & H).
  apply obind_Done in H as (p4 & (ts2 & hi & R4 & Hs4 & J2)%HE & [= <-]).
  rewrite (take3_app _ s left lo hi) by congruence.
  exists (ts1 ++ p_tok p2 :: ts2), (Between negated left lo hi). split_and!; [|done|].
  - apply reaches_stack. apply (reaches_app _ [_] _ _ _ R1), (reaches_app _ ts1 _ _ _ R2).
    exact (reaches_app _ [_] _ _ _ R3 R4).
  - intros c t pre Hn. carry. apply Step_between with (k1 := p_params p2); [done| |done|].
    + congruence.
    + congruence.
Qed.

Lemma consume_step f : below expression_spec f → consume_spec f.
Proof.
  intros HE p prec k p' s left Hk Hst. destruct f as [|f]; [done|].
  assert (HE1 : below expression_spec f) by (eapply below_pred; [exact HE | lia]).
  cbn [consume_with]. destruct k; [done|..].
  - intros H. eapply binary_ok; eauto.
  - intros H. eapply isOperator_ok; eauto.
  - intros H. eapply plain_operator, in_ok; eauto.
  - intros H. eapply plain_operator, like_ok; eauto.
  - intros H. eapply plain_operator, between_ok; eauto.
  - destruct f as [|f]; [done|].
    assert (HE2 : below expression_spec f) by (eapply below_pred; [exact HE | lia]).
    cbn [negatedOperator]. intros (p1 & (R1 & Hs1 & Hp1)%advance_ok & H)%obind_Done.
    rewrite Hst in Hs1.
    destruct (keyword (p_tok p1) "in") eqn:K1; [|destruct (keyword (p_tok p1) "like") eqn:K2;
      [|destruct (keyword (p_tok p1) "between") eqn:K3; [|by destruct (keyword _ "null")]]].
    + eapply negated_operator, in_ok; eauto.
    + eapply negated_operator, like_ok; eauto.
    + eapply negated_operator, between_ok; eauto.
Qed.

(** The argument list of a call, from its opening parenthesis. *)
Lemma call_ok f p name pos p' :
  below args_spec (S f) → tok_is (p_tok p) "(" = true →
  call_with cfg (λ q, callArgs cfg f q name 0) p name pos = Done p' →
  yields p (p_stack p) p' (CallE cfg (p_depth p) (p_timeDepth p) name (p_params p)).
Proof.
  intros HA Ho. specialize (HA f (Nat.lt_succ_diag_r f)). unfold call_with.
  destruct (assoc name allowedFunctions) as [r|] eqn:Hr; [|done].
  intros (p1 & (R1 & Hs1 & Hp1)%advance_ok & H)%obind_Done.
  destruct (tok_is (p_tok p1) "*"); [done|]. destruct (keyword (p_tok p1) "distinct"); [done|].
  remember (mem name timeFunctions) as time eqn:Hm in H.
  set (q1 := if time then set_timeDepth p1 (p_timeDepth p1 + 1) else p1) in H.
  assert (Hq : p_stack q1 = p_stack p ∧ p_params q1 = p_params p ∧ p_lex q1 = p_lex p1
    ∧ p_tok q1 = p_tok p1 ∧ p_depth q1 = p_depth p ∧ p_timeDepth q1 = under name (p_timeDepth p)).
  { destruct R1 as (_ & Rd & Rt). unfold q1, under. rewrite <-Hm. destruct time; simpl; split_and!; congruence. }
  destruct Hq as (Hqs & Hqp & Hql & Hqt & Hqd & Hqtd).
  apply obind_Done in H as ((count & p2) & Hloop & H).
  destruct (HA _ _ _ _ _ Hloop (Z.le_refl 0)) as (ts & ns & R2 & Hs2 & Hcount & Hc & HArgs).
  apply obind_Done in H as (p3 & (R3 & Hs3 & Hp3)%advance_ok & H).
  destruct ((count <? r_min r) || _) eqn:Hcnt; [done|].
  destruct (keyword (p_tok p3) "filter" || keyword (p_tok p3) "over"); [done|].
  rewrite Hqs in Hs2. rewrite Hqs in H.
  rewrite (takeFrom_app p3 (p_stack p) ns) in H by congruence.
  injection H as <-.
  exists (p_tok p :: ts ++ [p_tok p2]), (Call name ns). split_and!.
  - destruct R2 as (R2 & D2 & T2), R3 as (R3 & D3 & T3), R1 as (R1 & D1 & T1).
    rewrite Hql, Hqt in R2. rewrite Hqtd in T2. unfold under in T2. rewrite <-Hm in T2.
    pose proof (reads_app _ _ [_] _ _ _ _ _ R1 (reads_app _ _ _ _ _ _ _ _ R2 R3)) as R.
    unfold reaches. destruct time; simpl; (split_and!; [exact R|congruence|lia]).
  - by destruct time.
  - replace (p_tok (if time then _ else _)) with (p_tok p3) by (by destruct time).
    replace (p_params (if time then _ else _)) with (p_params p2) by (destruct time; simpl; congruence).
    constructor; [done..| |].
    + by rewrite Hqd, Hqtd, Hqp in HArgs.
    + exists r. split; [done|]. apply orb_false_iff in Hcnt as [?%Z.ltb_ge Hmax].
      split; [lia|]. intros Hpos. apply andb_false_iff in Hmax as [?%Z.leb_gt|?%Z.ltb_ge]; lia.
Qed.

(** The methods that prefix one operand: [k] builds the node from it. *)
Lemma operand_ok f p p1 m p' :
  below expression_spec (S f) → reaches p [p_tok p] p1 → p_stack p1 = p_stack p → p_params p1 = p_params p →
  expression cfg f p1 m = Done p' →
  ∃ ts n, reaches p (p_tok p :: ts) p' ∧ p_stack p' = p_stack p ++ [n]
  ∧ Expr cfg (p_depth p) (p_timeDepth p) m (p_params p) ts (p_tok p') n (p_params p').
Proof.
  intros HE R1 Hs1 Hp1 (ts & n & R2 & Hs2 & J)%(HE f (Nat.lt_succ_diag_r f)).
  exists ts, n. split_and!; [exact (reaches_app _ [_] _ _ _ R1 R2)|congruence|].
  destruct R1 as (_ & <- & <-). by rewrite <-Hp1.
Qed.

Lemma keyword_kind t w : keyword t w = true → t_kind t = tokenIdent.
Proof. unfold keyword. intros [H%is_kind_spec _]%andb_true_iff. done. Qed.

Lemma word_literal_ok p p' :
  t_kind (p_tok p) = tokenIdent → mem (lower_text p) ["null"; "true"; "false"] = true →
  advance cfg (push p (Literal (literalKindOf (p_tok p)) (t_text (p_tok p)))) = Done p' →
  yields p (p_stack p) p' (Pref cfg (p_depth p) (p_timeDepth p) (p_params p)).
Proof.
  intros Hk Hm%mem_spec (R & Hs & Hp)%advance_ok. simpl in *.
  exists [p_tok p], (Literal (literalKindOf (p_tok p)) (t_text (p_tok p))).
  split_and!; [exact R|done|]. rewrite Hp. by constructor.
Qed.

(** A word that is neither refused nor syntax: a call, or a column. *)
Lemma plain_prefix f p p1 p' :
  below args_spec (S f) → plain_word (p_tok p) → advance cfg p = Done p1 →
  (if tok_is (p_tok p1) "("
   then call_with cfg (λ q, callArgs cfg f q (lower_text p) 0) p1 (lower_text p) (t_pos (p_tok p))
   else namedColumn cfg p1 (t_text (p_tok p)) (t_pos (p_tok p))) = Done p' →
  yields p (p_stack p) p' (Pref cfg (p_depth p) (p_timeDepth p) (p_params p)).
Proof.
  intros HA Hpw (R1 & Hs1 & Hp1)%advance_ok. destruct (tok_is (p_tok p1) "(") eqn:Ho.
  - intros (ts & n & R2 & Hs2 & J)%(call_ok _ _ _ _ _ HA Ho).
    exists (p_tok p :: ts), n. split_and!; [exact (reaches_app _ [_] _ _ _ R1 R2)|congruence|].
    apply Pref_call; [done|]. destruct R1 as (_ & <- & <-). by rewrite <-Hp1.
  - intros [Hc ->]%namedColumn_ok. exists [p_tok p], (Column (to_lower (t_text (p_tok p)))).
    split_and!; [exact R1|simpl; by rewrite Hs1|]. simpl. rewrite Hp1. by apply Pref_column.
Qed.

Lemma identifier_step f p p' :
  below args_spec f → below case_spec f → t_kind (p_tok p) = tokenIdent →
  identifier cfg f p = Done p' →
  yields p (p_stack p) p' (Pref cfg (p_depth p) (p_timeDepth p) (p_params p)).
Proof.
  intros HA HC Hk. destruct f as [|f]; [done|]. cbn [identifier].
  destruct (assoc (lower_text p) rejectedKeywords) eqn:Hrej; [done|].
  destruct (mem (lower_text p) ["null"; "true"; "false"]) eqn:Hlit; [by apply word_literal_ok|].
  destruct (String.eqb (lower_text p) "case") eqn:Hcase.
  { intros (ts & n & R & Hs & J)%(HC f (Nat.lt_succ_diag_r f)).
    exists (p_tok p :: ts), n. split_and!; [done..|]. by constructor. }
  destruct (mem (lower_text p) infixWords) eqn:Hinf; [done|].
  intros (p1 & Hadv & H)%obind_Done. eapply plain_prefix; eauto.
  eapply plain_word_ok; eauto.
Qed.

Lemma prefix_step f :
  below expression_spec f → below args_spec f → below case_spec f → prefix_spec f.
Proof.
  intros HE HA HC p p'. destruct f as [|f]; [done|]. cbn [prefix].
  assert (HA1 : below args_spec f) by (eapply below_pred; [exact HA | lia]).
  assert (HC1 : below case_spec f) by (eapply below_pred; [exact HC | lia]).
  destruct (tok_is (p_tok p) "-" || tok_is (p_tok p) "+") eqn:Hsign.
  { intros (p1 & (R1 & Hs1 & Hp1)%advance_ok & H)%obind_Done.
    apply obind_Done in H as (p2 & (ts & n & R & Hs & J)%(operand_ok _ _ _ _ _ HE R1 Hs1 Hp1) & [= <-]).
    rewrite (pop_push_app _ _ _ _ Hs). do 2 eexists. split_and!; [by apply reaches_stack|done|].
    constructor; [by apply orb_true_iff|exact J]. }
  destruct (tok_is (p_tok p) "~"); [done|].
  destruct (tok_is (p_tok p) "(") eqn:Ho.
  { intros (p1 & (R1 & Hs1 & Hp1)%advance_ok & H)%obind_Done.
    destruct (keyword (p_tok p1) "select"); [done|].
    apply obind_Done in H as (p2 & (ts & n & R & Hs & J)%(operand_ok _ _ _ _ _ HE R1 Hs1 Hp1) & H).
    apply obind_Done in H as (p3 & (Hc & R3 & Hs3 & Hp3)%expect_ok & [= <-]).
    rewrite (pop_push_app _ (p_stack p) n) by congruence.
    exists (p_tok p :: ts ++ [p_tok p2]), (Paren n). split_and!; [|done|].
    - apply reaches_stack. exact (reaches_app _ (_ :: ts) _ _ _ R R3).
    - simpl. rewrite Hp3. by constructor. }
  destruct (keyword (p_tok p) "not") eqn:Hnot.
  { intros (p1 & (R1 & Hs1 & Hp1)%advance_ok & H)%obind_Done.
    apply obind_Done in H as (p2 & (ts & n & R & Hs & J)%(operand_ok _ _ _ _ _ HE R1 Hs1 Hp1) & [= <-]).
    rewrite (pop_push_app _ _ _ _ Hs). do 2 eexists. split_and!; [by apply reaches_stack|done|].
    by constructor. }
  destruct (keyword (p_tok p) "case") eqn:Hcase.
  { intros (ts & n & R & Hs & J)%(HC f (Nat.lt_succ_diag_r f)).
    exists (p_tok p :: ts), n. split_and!; [done..|]. constructor; [by eapply keyword_kind|done]. }
  assert (Hlit : t_kind (p_tok p) ∈ [tokenString; tokenNumber; tokenBlob; tokenParam] →
    consumeLiteral cfg p = Done p' →
    yields p (p_stack p) p' (Pref cfg (p_depth p) (p_timeDepth p) (p_params p))).
  { intros Hk (R & n & Hs & HL)%consumeLiteral_ok. exists [p_tok p], n. split_and!; [done..|]. by constructor. }
  unfold is_kind. destruct (t_kind (p_tok p)) eqn:Hk; simpl; try done; try (apply Hlit; set_solver).
  - by apply identifier_step.
  - intros (R & Hp & Hs & Hc)%column_ok_of. do 2 eexists. split_and!; [exact R|done|].
    rewrite Hp. by constructor.
Qed.

(** The comma before every argument but the first. *)
Lemma separator_ok p count p1 :
  (if 0 <? count then expect cfg p "," "a comma between arguments" else Done p) = Done p1 →
  0 ≤ count →
  ∃ sep, reaches p sep p1 ∧ p_stack p1 = p_stack p ∧ p_params p1 = p_params p
  ∧ (bool_decide (count = 0) = true ∧ sep = []
     ∨ bool_decide (count = 0) = false ∧ ∃ c, sep = [c] ∧ tok_is c "," = true).
Proof.
  intros H Hc. destruct (0 <? count) eqn:E.
  - apply Z.ltb_lt in E. apply expect_ok in H as (? & ? & ? & ?). exists [p_tok p].
    split_and!; [done..|]. right. split; [apply bool_decide_eq_false; lia|]. eauto.
  - apply Z.ltb_ge in E. injection H as <-. exists []. split_and!; [apply reaches_refl|done..|].
    left. split; [apply bool_decide_eq_true; lia|done].
Qed.

Lemma callArgs_step f :
  below expression_spec f → below timeArgument_spec f → below args_spec f → args_spec f.
Proof.
  intros HE HT HA p name count count' p' H Hpos. destruct f as [|f]; [done|]. revert H.
  specialize (HE f (Nat.lt_succ_diag_r f)). specialize (HT f (Nat.lt_succ_diag_r f)).
  specialize (HA f (Nat.lt_succ_diag_r f)). cbn [callArgs].
  destruct (tok_is (p_tok p) ")") eqn:Hc.
  { intros [= <- <-]. exists [], []. rewrite app_nil_r. simpl.
    split_and!; [apply reaches_refl|done|lia|done|constructor]. }
  intros (p1 & (sep & R1 & Hs1 & Hp1 & Hsep)%separator_ok & H)%obind_Done; [|done].
  apply obind_Done in H as (p2 & Harg & H).
  destruct (_ && negb _ && negb _); [done|]. destruct (is_kind tokenEOF (p_tok p2)); [done|].
  destruct (HA _ _ _ _ _ H ltac:(lia)) as (ts2 & ns & R3 & Hs3 & -> & Hc3 & J3).
  replace (bool_decide (count + 1 = 0)) with false in J3 by (symmetry; apply bool_decide_eq_false; lia).
  destruct (mem name timeFunctions) eqn:Hm.
  - apply HT in Harg as (ts1 & n & R2 & Hs2 & J2).
    pose proof (reaches_look _ _ _ R3) as L3. carry.
    exists (sep ++ ts1 ++ ts2), (n :: ns). split_and!.
    + eapply reaches_app; [exact R1|]. by eapply reaches_app.
    + rewrite Hs3, Hs2, Hs1, <-app_assoc. done.
    + simpl. lia.
    + done.
    + eapply Args_time; [done|exact Hsep| |].
      * rewrite L3, <-Hp1, <-Rd1, <-Rt1. exact J2.
      * rewrite <-Rd1, <-Rt1, <-Rd0, <-Rt0. exact J3.
  - apply HE in Harg as (ts1 & n & R2 & Hs2 & J2).
    pose proof (reaches_look _ _ _ R3) as L3. carry.
    exists (sep ++ ts1 ++ ts2), (n :: ns). split_and!.
    + eapply reaches_app; [exact R1|]. by eapply reaches_app.
    + rewrite Hs3, Hs2, Hs1, <-app_assoc. done.
    + simpl. lia.
    + done.
    + eapply Args_expr; [done|exact Hsep| |].
      * rewrite L3, <-Hp1, <-Rd1, <-Rt1. exact J2.
      * rewrite <-Rd1, <-Rt1, <-Rd0, <-Rt0. exact J3.
Qed.

(** A word under a date or time function: another such call, or a column. *)
Lemma time_word_ok f p p' :
  below args_spec (S f) → plain_word (p_tok p) →
  (let! p1 := advance cfg p in
   if negb (tok_is (p_tok p1) "(") then namedColumn cfg p1 (t_text (p_tok p)) (t_pos (p_tok p))
   else if negb (mem (lower_text p) timeFunctions)
   then errAt (t_pos (p_tok p)) "a date or time function takes a moment or a modifier, not the result of %s; compute the value and bind it as a ? argument" [FText (lower_text p)]
   else call_with cfg (λ q, callArgs cfg f q (lower_text p) 0) p1 (lower_text p) (t_pos (p_tok p))) = Done p' →
  yields p (p_stack p) p' (TimeArg cfg (p_depth p) (p_timeDepth p) (p_params p)).
Proof.
  intros HA Hpw (p1 & (R1 & Hs1 & Hp1)%advance_ok & H)%obind_Done.
  destruct (tok_is (p_tok p1) "(") eqn:Ho; cbn [negb] in H.
  - destruct (mem (lower_text p) timeFunctions) eqn:Hm; [|done]. cbn [negb] in H.
    apply (call_ok _ _ _ _ _ HA Ho) in H as (ts & n & R2 & Hs2 & J).
    exists (p_tok p :: ts), n. split_and!; [exact (reaches_app _ [_] _ _ _ R1 R2)|congruence|].
    apply Time_call; [done|by apply mem_spec|]. destruct R1 as (_ & <- & <-). by rewrite <-Hp1.
  - apply namedColumn_ok in H as [Hc ->]. exists [p_tok p], (Column (to_lower (t_text (p_tok p)))).
    split_and!; [exact R1|simpl; by rewrite Hs1|]. simpl. rewrite Hp1. by apply Time_column.
Qed.

Lemma timeArgument_step f : below args_spec f → timeArgument_spec f.
Proof.
  intros HA p p'. destruct f as [|f]; [done|]. cbn [timeArgument].
  intros (p1 & (Hs & Hp & Hcase)%sign_spec & H)%obind_Done.
  destruct Hcase as [(Eb & Hsign & R1 & Hne)|(Eb & ->)]; rewrite Eb in *; cbn [andb] in H.
  - destruct (is_kind tokenNumber (p_tok p1)) eqn:Hk; [|done]. apply is_kind_spec in Hk.
    rewrite Hk in H. cbn [negb] in H.
    apply obind_Done in H as (p2 & (R2 & n & Hs2 & HL)%consumeLiteral_ok & H).
    apply String.eqb_neq in Hne. rewrite Hne in H. injection H as <-.
    rewrite (pop_push_app _ (p_stack p) n) by congruence.
    do 2 eexists. split_and!; [exact (reaches_app _ [_] _ [_] _ R1 R2)|done|].
    constructor; [done..|]. destruct R1 as (_ & _ & <-). by rewrite <-Hp.
  - assert (Hlit : t_kind (p_tok p) ∈ [tokenString; tokenNumber; tokenParam] →
      (let! q := consumeLiteral cfg p in Done q) = Done p' →
      yields p (p_stack p) p' (TimeArg cfg (p_depth p) (p_timeDepth p) (p_params p))).
    { intros Hk (p2 & (R & n & Hst & HL)%consumeLiteral_ok & [= <-])%obind_Done.
      exists [p_tok p], n. split_and!; [done..|]. by constructor. }
    destruct (t_kind (p_tok p)) eqn:Hk;
      [discriminate H| |
       |apply Hlit; [set_solver|exact H]|apply Hlit; [set_solver|exact H]|discriminate H
       |apply Hlit; [set_solver|exact H]|discriminate H].
    + destruct (String.eqb (lower_text p) "null") eqn:Hnull.
      { apply advance_ok in H as (R & Hs2 & Hp2). simpl in *. do 2 eexists.
        split_and!; [exact R|exact Hs2|]. rewrite Hp2. constructor; [done|]. by apply String.eqb_eq. }
      destruct (assoc (lower_text p) rejectedKeywords) eqn:Hrej; [done|].
      destruct (String.eqb _ "case" || _) eqn:Hw; [done|]. apply orb_false_iff in Hw as [Hcase Hinf].
      eapply time_word_ok; [exact HA|eapply plain_word_ok; eauto|exact H].
    + apply column_ok_of in H as (R & Hp2 & Hs2 & Hc). do 2 eexists. split_and!; [exact R|done|].
      rewrite Hp2. by constructor.
Qed.

Lemma branches_step f : below expression_spec f → below branches_spec f → branches_spec f.
Proof.
  intros HE HB p acc br' p'. destruct f as [|f]; [done|].
  specialize (HE f (Nat.lt_succ_diag_r f)). specialize (HB f (Nat.lt_succ_diag_r f)). cbn [caseBranches].
  destruct (keyword (p_tok p) "when") eqn:Hw.
  2:{ intros [= <- <-]. exists [], []. rewrite app_nil_r. split_and!; [apply reaches_refl|done..|by constructor]. }
  intros (p1 & (R1 & Hs1 & Hp1)%advance_ok & H)%obind_Done.
  apply obind_Done in H as (p2 & (ts1 & n1 & R2 & Hs2 & J1)%HE & H).
  destruct (keyword (p_tok p2) "then") eqn:Ht; [|done]. simpl in H.
  apply obind_Done in H as (p3 & (R3 & Hs3 & Hp3)%advance_ok & H).
  apply obind_Done in H as (p4 & (ts2 & n2 & R4 & Hs4 & J2)%HE & H).
  change 2%nat with (length [n1; n2]) in H.
  rewrite (take_app p4 (p_stack p) [n1; n2]) in H
    by (done || rewrite Hs4, Hs3, Hs2, Hs1, <-app_assoc; done).
  apply HB in H as (ts3 & br & R5 & Hs5 & -> & J3).
  pose proof (reaches_look _ _ _ R5) as L5.
  exists (p_tok p :: ts1 ++ p_tok p2 :: ts2 ++ ts3), ((n1, n2) :: br). split_and!.
  - apply (reaches_app _ [_] _ _ _ R1), (reaches_app _ _ _ _ _ R2), (reaches_app _ [_] _ _ _ R3).
    exact (reaches_app _ _ _ _ _ R4 R5).
  - done.
  - by rewrite <-app_assoc.
  - simpl in L5. carry. apply Branches_cons with (k1 := p_params p2) (k2 := p_params p4); [done| |done| |].
    + congruence.
    + rewrite L5. congruence.
    + congruence.
Qed.

Lemma case_operand_ok f p q o :
  below expression_spec (S f) →
  (if negb (keyword (p_tok p) "when")
   then let! p1 := expression cfg f p precedenceLowest in Done (pop p1)
   else Done (None, p)) = Done (o, q) →
  ∃ ts, reaches p ts q ∧ p_stack q = p_stack p
  ∧ Operand cfg (p_depth p) (p_timeDepth p) (p_params p) ts (p_tok q) o (p_params q).
Proof.
  intros HE. destruct (keyword (p_tok p) "when"); cbn [negb].
  - intros [= <- <-]. exists []. split_and!; [apply reaches_refl|done|constructor].
  - intros (p1 & (ts & n & R & Hs & J)%(HE f (Nat.lt_succ_diag_r f)) & H)%obind_Done.
    rewrite (pop_app _ _ _ Hs) in H. injection H as <- <-.
    exists ts. split_and!; [by apply reaches_stack|done|by constructor].
Qed.

Lemma case_else_ok f p q o :
  below expression_spec (S f) →
  (if keyword (p_tok p) "else"
   then let! p1 := advance cfg p in let! p2 := expression cfg f p1 precedenceLowest in Done (pop p2)
   else Done (None, p)) = Done (o, q) →
  ∃ ts, reaches p ts q ∧ p_stack q = p_stack p
  ∧ ElseE cfg (p_depth p) (p_timeDepth p) (p_params p) ts (p_tok q) o (p_params q).
Proof.
  intros HE. destruct (keyword (p_tok p) "else") eqn:Hk.
  - intros (p1 & (R1 & Hs1 & Hp1)%advance_ok & H)%obind_Done.
    apply obind_Done in H as (p2 & (ts & n & R & Hs & J)%(operand_ok _ _ _ _ _ HE R1 Hs1 Hp1) & H).
    rewrite (pop_app _ _ _ Hs) in H. injection H as <- <-.
    exists (p_tok p :: ts). split_and!; [by apply reaches_stack|done|by constructor].
  - intros [= <- <-]. exists []. split_and!; [apply reaches_refl|done|by constructor].
Qed.

Lemma case_step f : below expression_spec f → below branches_spec f → case_spec f.
Proof.
  intros HE HB p p'. destruct f as [|f]; [done|]. specialize (HB f (Nat.lt_succ_diag_r f)).
  cbn [caseExpression].
  intros (p1 & (R1 & Hs1 & Hp1)%advance_ok & H)%obind_Done.
  apply obind_Done in H as ((o & p2) & (ts0 & R2 & Hs2 & JO)%(case_operand_ok _ _ _ _ HE) & H).
  destruct (keyword (p_tok p2) "when") eqn:Hw; [|done]. cbn [negb] in H.
  apply obind_Done in H as ((br & p3) & (tsb & br' & R3 & Hs3 & Hbr & JB)%HB & H). simpl in Hbr. subst br'.
  apply obind_Done in H as ((els & p4) & (tse & R4 & Hs4 & JE)%(case_else_ok _ _ _ _ HE) & H).
  destruct (keyword (p_tok p4) "end") eqn:Hend; [|done]. cbn [negb] in H.
  apply obind_Done in H as (p5 & (R5 & Hs5 & Hp5)%advance_ok & [= <-]).
  pose proof (reaches_look _ _ _ R3) as L3. pose proof (reaches_look _ _ _ R4) as L4.
  exists (ts0 ++ tsb ++ tse ++ [p_tok p4]), (Case o br els). split_and!.
  - apply reaches_stack, (reaches_app _ [_] _ _ _ R1), (reaches_app _ _ _ _ _ R2), (reaches_app _ _ _ _ _ R3).
    exact (reaches_app _ _ _ _ _ R4 R5).
  - simpl. congruence.
  - carry. apply Case_intro with (k0 := p_params p2) (w := p_tok p2) (kb := p_params p3);
      [by rewrite L4|done| | | |done].
    + congruence.
    + rewrite L4. congruence.
    + congruence.
Qed.

(** ** Every method, at every fuel *)

Definition all_specs f :=
  expression_spec f ∧ infix_spec f ∧ consume_spec f ∧ prefix_spec f ∧ args_spec f
  ∧ timeArgument_spec f ∧ case_spec f ∧ branches_spec f.

Lemma specs_hold f : all_specs f.
Proof.
  induction f as [f IH] using lt_wf_ind.
  assert (below expression_spec f ∧ below infix_spec f ∧ below consume_spec f ∧ below prefix_spec f
    ∧ below args_spec f ∧ below timeArgument_spec f ∧ below case_spec f ∧ below branches_spec f)
    as (? & ? & ? & ? & ? & ? & ? & ?).
  { split_and!; intros g Hg; by apply IH in Hg as (? & ? & ? & ? & ? & ? & ? & ?). }
  split_and!; eauto using expression_step, infix_step, consume_step, prefix_step, callArgs_step,
    timeArgument_step, case_step, branches_step.
Qed.

Lemma expression_sound f p m p' :
  expression cfg f p m = Done p' →
  yields p (p_stack p) p' (Expr cfg (p_depth p) (p_timeDepth p) m (p_params p)).
Proof. apply (specs_hold f). Qed.
End Sound.

Definition config_of {UT : UnicodeTables} (opts : Options) : config :=
  Config (default background (o_Context opts)) (list_to_set (map to_lower (o_Columns opts))) (o_Args opts).

(** What a returned tree means, for a given fuel. *)
Lemma Parse_fuel_sound {UT : UnicodeTables} (cfg : config) fuel expr n :
  Parse_fuel cfg fuel expr = Done n →
  ∃ t0 l0 ts eof l', next (c_ctx cfg) (Lexer 0 expr 1) = Done (t0, l0) ∧ reads cfg l0 t0 ts l' eof
  ∧ Filter cfg ts eof n.
Proof.
  unfold Parse_fuel. intros (p & Hadv & H)%obind_Done.
  destruct (is_kind tokenEOF (p_tok p)); [done|].
  apply obind_Done in Hadv as ((t0 & l0) & Hn & [= <-]).
  apply obind_Done in H as (p' & (ts & m & R & Hs & J)%expression_sound & H).
  destruct (is_kind tokenEOF (p_tok p')) eqn:Heof; [|by destruct (tok_is _ ";")]. simpl in H.
  destruct (p_params p' =? length (c_args cfg))%nat eqn:Hpar; [|done]. simpl in H.
  rewrite Hs in H. simpl in H. injection H as <-.
  exists t0, l0, ts, (p_tok p'), (p_lex p'). split_and!; [done|exact (proj1 R)|].
  split; [by apply is_kind_spec in Heof|]. apply Nat.eqb_eq in Hpar. by rewrite <-Hpar.
Qed.
