(* ===== verification/FilterTotal.v ===== *)
(** * The parser always returns

    [parse_fuel], a function of the length of the source only, is enough for
    every run of the parser: no method runs out of fuel.  Every recursive
    call either moves past a token, which costs at least one byte, or goes
    down one step of a fixed order of the methods. *)
From Stdlib Require Import ZArith Lia Ascii String.
From stdpp Require Import base gmap strings list.
From S2P Require Import Prelude GoStrings FilterLexer FilterParser FilterGrammar FilterSound.
Local Open Scope Z_scope.

(** ** The lexer *)

Lemma skipSpace_total pos s : skipSpace pos s ≠ OutOfFuel.
Proof. revert pos. induction s as [|c s IH]; intros pos; simpl; repeat case_match; done || apply IH. Qed.

Lemma quoted_loop_total delim start s : ∀ pos acc, quoted_loop delim start pos acc s ≠ OutOfFuel.
Proof.
  induction s as [s IH] using string_len_ind. intros pos acc. destruct s as [|c s]; simpl; [done|].
  destruct (Ascii.eqb c delim); [|apply IH; simpl; lia].
  destruct s as [|c' s]; [done|]. destruct (Ascii.eqb c' delim); [apply IH; simpl; lia|done].
Qed.

Lemma quoted_total delim start s : quoted delim start s ≠ OutOfFuel.
Proof. destruct s; [done|]. apply quoted_loop_total. Qed.

Lemma decimal_loop_total start s : ∀ first d e acc, decimal_loop start first d e acc s ≠ OutOfFuel.
Proof.
  induction s as [s IH] using string_len_ind. intros first d e acc. destruct s as [|c s]; simpl; [done|].
  repeat case_match; try done; apply IH; subst; simpl; lia.
Qed.

Lemma number_total start s : number start s ≠ OutOfFuel.
Proof. unfold number. repeat case_match; try done; apply decimal_loop_total. Qed.

Lemma scan_total l start c s : scan l start c s ≠ OutOfFuel.
Proof.
  unfold scan.
  repeat first [case_match | apply obind_not_fuel; [apply quoted_total || apply number_total|intros [] ?] | done].
Qed.

Lemma next_total c l : next c l ≠ OutOfFuel.
Proof.
  unfold next. case_match; [done|]. apply obind_not_fuel; [apply skipSpace_total|].
  intros [pos s] _. case_match; [done|apply scan_total].
Qed.

Section Total.
Context {UT : UnicodeTables} (cfg : config).

(** ** What is left to read *)

Definition weight (t : token) : nat := if decide (t_kind t = tokenEOF) then 0 else 1.

Definition size (p : parser) : nat := String.length (lx_rest (p_lex p)) + weight (p_tok p).

Lemma reads_size l t ts l' t' :
  reads cfg l t ts l' t' →
  (String.length (lx_rest l') + weight t' ≤ String.length (lx_rest l) + weight t)%nat.
Proof.
  induction 1 as [|l t l1 t1 ts l2 t2 Hn _ IH]; [lia|]. apply next_progress in Hn.
  fold (weight t1) in Hn. unfold weight in *. repeat case_decide; lia.
Qed.

Lemma reaches_size p ts p' : reaches cfg p ts p' → (size p' ≤ size p)%nat.
Proof. intros [R _]. by apply reads_size in R. Qed.

(** Past a token that is not the end, something is consumed. *)
Lemma reaches_lt p t ts p' :
  reaches cfg p (t :: ts) p' → t_kind (p_tok p) ≠ tokenEOF → (size p' < size p)%nat.
Proof.
  intros [R _] Hk. inversion R as [|? ? l1 t1 ? ? ? Hn R']; subst. apply reads_size in R'.
  apply next_progress in Hn. fold (weight t1) in Hn. unfold size.
  unfold weight at 2. rewrite decide_False by done. lia.
Qed.

(** A prefix starts with a token that is not the end. *)
Lemma Pref_start d td k ts u n k' :
  Pref cfg d td k ts u n k' → ∃ t ts', ts = t :: ts' ∧ t_kind t ≠ tokenEOF.
Proof.
  assert (Hop : ∀ t op, tok_is t op = true → t_kind t ≠ tokenEOF).
  { intros t op [H%is_kind_spec _]%andb_true_iff. by rewrite H. }
  destruct 1; (do 2 eexists; split; [reflexivity|]).
  - match goal with H : is_sign _ |- _ => destruct H as [H|H]; by apply Hop in H end.
  - eauto.
  - match goal with H : keyword _ _ = true |- _ => apply keyword_kind in H; by rewrite H end.
  - congruence.
  - intros E. rewrite E in *. set_solver.
  - congruence.
  - congruence.
  - match goal with H : plain_word _ |- _ => destruct H as [H _]; by rewrite H end.
  - match goal with H : plain_word _ |- _ => destruct H as [H _]; by rewrite H end.
Qed.

Lemma Expr_start d td m k ts u n k' :
  Expr cfg d td m k ts u n k' → ∃ t ts', ts = t :: ts' ∧ t_kind t ≠ tokenEOF.
Proof. destruct 1 as [? ? ? ? ? ? ? ? ? ? ? ? (t & ts' & -> & Hk)%Pref_start]. simpl. eauto. Qed.

Lemma TimeArg_start d td k ts u n k' :
  TimeArg cfg d td k ts u n k' → ∃ t ts', ts = t :: ts' ∧ t_kind t ≠ tokenEOF.
Proof.
  destruct 1; (do 2 eexists; split; [reflexivity|]).
  - intros E. rewrite E in *. set_solver.
  - match goal with H : is_sign _ |- _ => destruct H as [[H%is_kind_spec _]%andb_true_iff|[H%is_kind_spec _]%andb_true_iff]; congruence end.
  - congruence.
  - congruence.
  - match goal with H : plain_word _ |- _ => destruct H as [H _]; congruence end.
  - match goal with H : plain_word _ |- _ => destruct H as [H _]; congruence end.
Qed.

Lemma yields_lt p s p' J :
  yields cfg p s p' J →
  (∀ ts u n k, J ts u n k → ∃ t ts', ts = t :: ts' ∧ t_kind t ≠ tokenEOF) → (size p' < size p)%nat.
Proof.
  intros (ts & n & R & _ & HJ) Hstart. apply Hstart in HJ as (t & ts' & -> & Hk).
  eapply reaches_lt; [exact R|]. apply reaches_look in R. by rewrite <-R.
Qed.

Lemma expression_lt f p m p' : expression cfg f p m = Done p' → (size p' < size p)%nat.
Proof. intros H%expression_sound. eapply yields_lt; [exact H|]. intros *. apply Expr_start. Qed.

Lemma prefix_le f p p' : prefix cfg f p = Done p' → (size p' ≤ size p)%nat.
Proof. destruct (specs_hold cfg f) as (_ & _ & _ & HP & _). intros (ts & n & R & _)%HP. by eapply reaches_size. Qed.

Lemma timeArgument_lt f p p' : timeArgument cfg f p = Done p' → (size p' < size p)%nat.
Proof.
  destruct (specs_hold cfg f) as (_ & _ & _ & _ & _ & HT & _). intros H%HT.
  eapply yields_lt; [exact H|]. intros *. apply TimeArg_start.
Qed.

Lemma advance_le p p' : advance cfg p = Done p' → (size p' ≤ size p)%nat.
Proof. intros [R _]%advance_ok. by eapply reaches_size. Qed.

Lemma advance_lt p p' : advance cfg p = Done p' → t_kind (p_tok p) ≠ tokenEOF → (size p' < size p)%nat.
Proof. intros [R _]%advance_ok. by eapply reaches_lt. Qed.

Lemma tok_is_kind t op : tok_is t op = true → t_kind t ≠ tokenEOF.
Proof. intros [H%is_kind_spec _]%andb_true_iff. congruence. Qed.

Lemma keyword_not_eof t w : keyword t w = true → t_kind t ≠ tokenEOF.
Proof. intros ->%keyword_kind. done. Qed.

Lemma expect_le p op what p' : expect cfg p op what = Done p' → (size p' ≤ size p)%nat.
Proof. intros (_ & R & _)%expect_ok. by eapply reaches_size. Qed.

(** The operator at the end of the text is no operator. *)
Lemma peek_eof t prec k : peek_tok t = Done (prec, k) → prec ≠ 0 → t_kind t ≠ tokenEOF.
Proof. unfold peek_tok, is_kind. intros H Hp E. rewrite E in H. simpl in H. by simplify_eq. Qed.


(** ** Enough fuel for each method

    [need rank p] is the fuel that suffices at [p] for a method of that rank:
    twelve for each token left, and the number of methods called in a row
    before a token is read. *)
Definition need (rank : nat) (p : parser) : nat := 12 * size p + rank.

Definition expression_total f := ∀ p m, (need 8 p < f)%nat → expression cfg f p m ≠ OutOfFuel.
Definition prefix_total f := ∀ p, (need 7 p < f)%nat → prefix cfg f p ≠ OutOfFuel.
Definition identifier_total f := ∀ p, (need 6 p < f)%nat → t_kind (p_tok p) ≠ tokenEOF →
  identifier cfg f p ≠ OutOfFuel.
Definition case_total f := ∀ p, (need 5 p < f)%nat → t_kind (p_tok p) ≠ tokenEOF →
  caseExpression cfg f p ≠ OutOfFuel.
Definition branches_total f := ∀ p acc, (need 1 p < f)%nat → caseBranches cfg f p acc ≠ OutOfFuel.
Definition infix_total f := ∀ p m s n, p_stack p = s ++ [n] → (need 5 p < f)%nat →
  infix cfg f p m ≠ OutOfFuel.
Definition consume_total f := ∀ p prec k, (need 4 p < f)%nat → t_kind (p_tok p) ≠ tokenEOF →
  consume_with cfg f p prec k ≠ OutOfFuel.
Definition args_total f := ∀ p name count, (need 10 p < f)%nat → callArgs cfg f p name count ≠ OutOfFuel.
Definition timeArgument_total f := ∀ p, (need 3 p < f)%nat → timeArgument cfg f p ≠ OutOfFuel.

Lemma advance_total p : advance cfg p ≠ OutOfFuel.
Proof. apply obind_not_fuel; [apply next_total|]. by intros [] _. Qed.

Lemma expect_total p op what : expect cfg p op what ≠ OutOfFuel.
Proof. unfold expect. case_match; [apply advance_total|done]. Qed.

Lemma consumeLiteral_total p : consumeLiteral cfg p ≠ OutOfFuel.
Proof.
  unfold consumeLiteral. apply obind_not_fuel.
  - case_match; [|done]. unfold rejectClockWord. by case_match.
  - intros _ _. case_match; apply advance_total.
Qed.

Lemma namedColumn_total p name pos : namedColumn cfg p name pos ≠ OutOfFuel.
Proof. unfold namedColumn, unknownColumn. by repeat case_match. Qed.

Lemma column_total p name pos : column cfg p name pos ≠ OutOfFuel.
Proof. unfold column. apply obind_not_fuel; [apply advance_total|]. intros q _. apply namedColumn_total. Qed.

Lemma listValue_total p : listValue cfg p ≠ OutOfFuel.
Proof.
  unfold listValue. apply obind_not_fuel; [case_match; [apply advance_total|done]|].
  intros q _. destruct (negb (literalToken q)); [done|]. destruct (_ && _); [done|].
  apply obind_not_fuel; [apply consumeLiteral_total|done].
Qed.

Lemma check_escape_total p : check_escape cfg p ≠ OutOfFuel.
Proof. unfold check_escape. by repeat case_match. Qed.

Lemma peekOperator_total p : peekOperator p ≠ OutOfFuel.
Proof. unfold peekOperator, peek_tok. by repeat case_match. Qed.

Lemma listValue_lt p p' : listValue cfg p = Done p' → (size p' < size p)%nat.
Proof.
  intros H%listValue_ok. eapply yields_lt; [exact H|].
  intros ts u n k. destruct 1 as [t ? ? Hl _|s t ? ? Hs]; (do 2 eexists; split; [reflexivity|]).
  - destruct Hl as [Hl|[Hl _]]; [|congruence]. intros E. rewrite E in Hl. set_solver.
  - destruct Hs as [Hs|Hs]; by apply tok_is_kind in Hs.
Qed.

Lemma inList_loop_total f : ∀ p, (size p < f)%nat → inList_loop cfg f p ≠ OutOfFuel.
Proof.
  induction f as [|f IH]; intros p Hf; [lia|]. simpl. case_match; [done|].
  apply obind_not_fuel; [apply listValue_total|]. intros q Hq%listValue_lt. case_match; [|done].
  apply obind_not_fuel; [apply advance_total|]. intros q' Hq'%advance_le. apply IH. lia.
Qed.

Lemma inListNegated_total f p negated : (size p < f)%nat → inListNegated cfg f p negated ≠ OutOfFuel.
Proof.
  intros Hf. unfold inListNegated. apply obind_not_fuel; [apply advance_total|]. intros p1 H1%advance_le.
  case_match; [done|]. apply obind_not_fuel; [apply advance_total|]. intros p2 H2%advance_le.
  case_match.
  - apply obind_not_fuel; [apply advance_total|done].
  - apply obind_not_fuel; [apply inList_loop_total; lia|]. intros p3 _.
    apply obind_not_fuel; [apply expect_total|]. intros p4 _. by case_match.
Qed.

(** ** Each method, one step *)

(** One step of every method, with the recursive calls named again. *)
Ltac unroll :=
  cbn [expression infix consume_with binary isOperator negatedOperator likeNegated betweenNegated
       prefix identifier callArgs timeArgument caseExpression caseBranches];
  fold (expression cfg) (infix cfg) (consume_with cfg) (binary cfg) (isOperator cfg)
    (negatedOperator cfg) (likeNegated cfg) (betweenNegated cfg) (prefix cfg) (identifier cfg)
    (callArgs cfg) (timeArgument cfg) (caseExpression cfg) (caseBranches cfg).

(** [total] takes a method apart, discharging what cannot run out. *)
Ltac total1 :=
  match goal with
  | |- obind _ _ ≠ OutOfFuel => apply obind_not_fuel
  | |- advance _ _ ≠ OutOfFuel => apply advance_total
  | |- expect _ _ _ _ ≠ OutOfFuel => apply expect_total
  | |- consumeLiteral _ _ ≠ OutOfFuel => apply consumeLiteral_total
  | |- check_escape _ _ ≠ OutOfFuel => apply check_escape_total
  | |- column _ _ _ _ ≠ OutOfFuel => apply column_total
  | |- namedColumn _ _ _ _ ≠ OutOfFuel => apply namedColumn_total
  | |- peekOperator _ ≠ OutOfFuel => apply peekOperator_total
  | |- Done _ ≠ OutOfFuel => discriminate
  | |- Fail _ ≠ OutOfFuel => discriminate
  | |- at_tok _ _ _ ≠ OutOfFuel => discriminate
  | |- errAt _ _ _ ≠ OutOfFuel => discriminate
  | |- (if ?b then _ else _) ≠ OutOfFuel => destruct b eqn:?
  | |- (let '(_, _) := ?x in _) ≠ OutOfFuel => destruct x
  | |- ∀ _, _ => intros ? ?
  end.
Ltac total := repeat total1.

(** What the calls before consumed, as inequalities on [size]. *)
Ltac sizes :=
  repeat match goal with
  | H : advance cfg _ = Done _ |- _ =>
      first [apply advance_lt in H; [|by eauto using keyword_not_eof, tok_is_kind] | apply advance_le in H]
  | H : expect cfg _ _ _ = Done _ |- _ => apply expect_le in H
  | H : expression cfg _ _ _ = Done _ |- _ => apply expression_lt in H
  | H : timeArgument cfg _ _ = Done _ |- _ => apply timeArgument_lt in H
  | H : prefix cfg _ _ = Done _ |- _ => apply prefix_le in H
  end; unfold need in *; lia.

Lemma expression_total_step f : prefix_total f → infix_total f → expression_total (S f).
Proof.
  intros HP HI p m Hf. unroll. total.
  - apply HP. unfold need, size in *. simpl in *. lia.
  - match goal with H : prefix _ _ _ = _ |- _ =>
      destruct (specs_hold cfg f) as (_ & _ & _ & HPs & _);
      pose proof H as (ts & n & _ & Hs & _)%HPs; apply prefix_le in H end.
    eapply HI; [exact Hs|]. unfold need, size in *. simpl in *. lia.
Qed.

Lemma binary_total f p prec :
  expression_total f → (need 1 p < S f)%nat → t_kind (p_tok p) ≠ tokenEOF →
  binary cfg (S f) p prec ≠ OutOfFuel.
Proof. intros HE Hf Hk. unroll. total. apply HE. sizes. Qed.

Lemma isOperator_total f p prec :
  expression_total f → (need 1 p < S f)%nat → t_kind (p_tok p) ≠ tokenEOF →
  isOperator cfg (S f) p prec ≠ OutOfFuel.
Proof.
  intros HE Hf Hk. unroll. total; apply HE; inv_done; sizes.
Qed.

Lemma likeNegated_total f p prec negated :
  expression_total f → (need 1 p < S f)%nat → t_kind (p_tok p) ≠ tokenEOF →
  likeNegated cfg (S f) p prec negated ≠ OutOfFuel.
Proof. intros HE Hf Hk. unroll. total. apply HE. sizes. Qed.

Lemma betweenNegated_total f p negated :
  expression_total f → (need 1 p < S f)%nat → t_kind (p_tok p) ≠ tokenEOF →
  betweenNegated cfg (S f) p negated ≠ OutOfFuel.
Proof. intros HE Hf Hk. unroll. total; apply HE; sizes. Qed.

Lemma negatedOperator_total f p prec :
  expression_total f → (need 2 p < S (S f))%nat → t_kind (p_tok p) ≠ tokenEOF →
  negatedOperator cfg (S (S f)) p prec ≠ OutOfFuel.
Proof.
  intros HE Hf Hk. unroll. apply obind_not_fuel; [apply advance_total|]. intros q Hq. apply advance_lt in Hq; [|done].
  repeat case_match; try done.
  - apply inListNegated_total. unfold need in *. lia.
  - apply likeNegated_total; [done|unfold need in *; lia|by eapply keyword_not_eof].
  - apply betweenNegated_total; [done|unfold need in *; lia|by eapply keyword_not_eof].
Qed.

Lemma consume_total_step f : below expression_total (S (S f)) → consume_total (S f).
Proof.
  intros HE p prec k Hf Hk. unroll.
  destruct f as [|f]; [unfold need in Hf; lia|].
  assert (HE1 : expression_total f) by (apply HE; lia).
  destruct k; [done|..].
  - apply binary_total; [done|unfold need in *; lia|done].
  - apply isOperator_total; [done|unfold need in *; lia|done].
  - apply inListNegated_total. unfold need in *. lia.
  - apply likeNegated_total; [done|unfold need in *; lia|done].
  - apply betweenNegated_total; [done|unfold need in *; lia|done].
  - destruct f as [|f]; [unfold need in Hf; lia|].
    apply negatedOperator_total; [apply HE; lia|unfold need in *; lia|done].
Qed.

Lemma infix_total_step f : consume_total f → infix_total f → infix_total (S f).
Proof.
  intros HC HI p m s n Hs Hf. unroll. apply obind_not_fuel; [apply peekOperator_total|].
  intros [prec k] Hpeek. destruct ((prec =? 0) || _) eqn:Hstop; [done|].
  apply orb_false_iff in Hstop as [Hp%Z.eqb_neq _].
  pose proof (peek_eof _ _ _ Hpeek Hp) as Hk.
  apply obind_not_fuel; [apply HC; [unfold need in *; lia|done]|]. intros q Hq.
  destruct (specs_hold cfg f) as (_ & _ & HCs & _).
  apply (HCs _ _ _ _ _ _ (peek_nil _ _ _ Hpeek Hp) Hs) in Hq as (ts & n' & R & Hs' & _).
  apply reaches_lt in R; [|done]. eapply HI; [exact Hs'|]. unfold need in *. lia.
Qed.

Lemma call_total loop p name pos :
  (∀ q, (size q ≤ size p)%nat → loop q ≠ OutOfFuel) → call_with cfg loop p name pos ≠ OutOfFuel.
Proof.
  intros Hloop. unfold call_with. destruct (assoc _ _) as [r|]; [|done].
  apply obind_not_fuel; [apply advance_total|]. intros q Hq%advance_le.
  destruct (tok_is (p_tok q) "*"); [done|]. destruct (keyword (p_tok q) "distinct"); [done|].
  apply obind_not_fuel.
  - apply Hloop. unfold size in *. by case_match.
  - intros [count q'] _. apply obind_not_fuel; [apply advance_total|]. intros q'' _.
    destruct (_ || _); [done|]. destruct (_ || _); [done|]. destruct (takeFrom _ _). done.
Qed.

Lemma branches_total_step f : expression_total f → branches_total f → branches_total (S f).
Proof.
  intros HE HB p acc Hf. unroll. destruct (keyword (p_tok p) "when") eqn:Hk; [|done].
  apply obind_not_fuel; [apply advance_total|]. intros p1 H1.
  apply obind_not_fuel; [apply HE; sizes|]. intros p2 H2. destruct (negb _); [done|].
  apply obind_not_fuel; [apply advance_total|]. intros p3 H3.
  apply obind_not_fuel; [apply HE; sizes|]. intros p4 H4.
  assert (size (take p4 2).2 = size p4) by (unfold take; by case_match).
  destruct (take p4 2) as [l p5]. simpl in *.
  assert (need 1 p5 < f)%nat by sizes.
  repeat case_match; by apply HB.
Qed.

Lemma case_total_step f : expression_total f → branches_total f → case_total (S f).
Proof.
  intros HE HB p Hf Hk. unroll. apply obind_not_fuel; [apply advance_total|].
  intros p1 H1. apply advance_lt in H1; [|done].
  apply obind_not_fuel; [total; apply HE; unfold need in *; lia|].
  intros [o p2] Ho. apply (case_operand_ok _ f) in Ho as (ts & R2%reaches_size & _ & _);
    [|intros g Hg; apply (specs_hold cfg g)].
  destruct (negb _); [done|].
  apply obind_not_fuel; [apply HB; unfold need in *; lia|].
  intros [br p3] Hbr. destruct (specs_hold cfg f) as (_ & _ & _ & _ & _ & _ & _ & HBs).
  apply HBs in Hbr as (tsb & br' & R3%reaches_size & _ & _ & _).
  apply obind_not_fuel; [total; apply HE; sizes|].
  intros [els p4] _. destruct (negb _); [done|]. total.
Qed.

Lemma timeArgument_total_step f : args_total f → timeArgument_total (S f).
Proof.
  intros HA p Hf. unroll.
  apply obind_not_fuel; [total|]. intros p1 (_ & _ & Hcase)%sign_spec.
  assert (size p1 ≤ size p)%nat
    by (destruct Hcase as [(_ & _ & R & _)|[_ ->]]; [by eapply reaches_size|lia]).
  destruct (_ && negb _); [done|].
  destruct (t_kind (p_tok p1)) eqn:Hk; try (total; fail).
  destruct (String.eqb (lower_text p1) "null"); [apply advance_total|].
  destruct (assoc _ _); [done|]. destruct (String.eqb (lower_text p1) "case" || _); [done|].
  apply obind_not_fuel; [apply advance_total|]. intros p2 H2. apply advance_lt in H2; [|congruence].
  destruct (negb (tok_is _ _)); [apply namedColumn_total|].
  destruct (negb (mem _ _)); [done|].
  apply call_total. intros q Hq. apply HA. unfold need in *. lia.
Qed.

Lemma callArgs_total_step f :
  expression_total f → timeArgument_total f → args_total f → args_total (S f).
Proof.
  intros HE HT HA p name count Hf. unroll.
  destruct (tok_is (p_tok p) ")"); [done|].
  apply obind_not_fuel; [total|]. intros p1 H1.
  assert (size p1 ≤ size p)%nat by (destruct (0 <? count); [by eapply expect_le|by simplify_eq]).
  apply obind_not_fuel; [destruct (mem name timeFunctions); [apply HT|apply HE]; unfold need in *; lia|].
  intros p2 H2. assert (size p2 < size p1)%nat
    by (destruct (mem name timeFunctions); [by eapply timeArgument_lt|by eapply expression_lt]).
  destruct (_ && negb _ && _); [done|]. destruct (is_kind _ _); [done|].
  apply HA. unfold need in *. lia.
Qed.

Lemma identifier_total_step f : args_total f → case_total f → identifier_total (S f).
Proof.
  intros HA HC p Hf Hk. unroll.
  destruct (assoc (lower_text p) rejectedKeywords); [done|].
  destruct (mem (lower_text p) ["null"; "true"; "false"]); [apply advance_total|].
  destruct (String.eqb (lower_text p) "case"); [apply HC; [unfold need in *; lia|done]|].
  destruct (mem (lower_text p) infixWords); [done|].
  apply obind_not_fuel; [apply advance_total|]. intros q Hq. apply advance_lt in Hq; [|done].
  destruct (tok_is (p_tok q) "("); [|apply namedColumn_total].
  apply call_total. intros r Hr. apply HA. unfold need in *. lia.
Qed.

Lemma prefix_total_step f :
  expression_total f → identifier_total f → case_total f → prefix_total (S f).
Proof.
  intros HE HI HC p Hf. unroll.
  destruct (tok_is (p_tok p) "-" || tok_is (p_tok p) "+") eqn:Hsign.
  { apply orb_true_iff in Hsign as [Hs%tok_is_kind|Hs%tok_is_kind]; total; apply HE;
      match goal with H : advance _ _ = _ |- _ => apply advance_lt in H; [sizes|done] end. }
  destruct (tok_is (p_tok p) "~"); [done|].
  destruct (tok_is (p_tok p) "(") eqn:Ho; [total; apply HE; sizes|].
  destruct (keyword (p_tok p) "not") eqn:Hn; [total; apply HE; sizes|].
  destruct (keyword (p_tok p) "case") eqn:Hc.
  { apply HC; [unfold need in *; lia|by eapply keyword_not_eof]. }
  destruct (is_kind tokenParam (p_tok p)); [apply consumeLiteral_total|].
  destruct (is_kind tokenString (p_tok p) || _ || _); [apply consumeLiteral_total|].
  destruct (is_kind tokenQuotedIdent (p_tok p)); [apply column_total|].
  destruct (is_kind tokenIdent (p_tok p)) eqn:Hid; [|done].
  apply HI; [unfold need in *; lia|]. apply is_kind_spec in Hid. congruence.
Qed.

(** ** Every method, at every fuel *)

Definition all_total f :=
  expression_total f ∧ infix_total f ∧ consume_total f ∧ prefix_total f ∧ identifier_total f
  ∧ args_total f ∧ timeArgument_total f ∧ case_total f ∧ branches_total f.

Lemma all_return f : all_total f.
Proof.
  induction f as [f IH] using lt_wf_ind. destruct f as [|f].
  { split_and!; repeat intro; unfold need in *; lia. }
  destruct (IH f (Nat.lt_succ_diag_r f)) as (? & ? & ? & ? & ? & ? & ? & ? & ?).
  split_and!; eauto using expression_total_step, infix_total_step, prefix_total_step,
    identifier_total_step, callArgs_total_step, timeArgument_total_step, case_total_step,
    branches_total_step.
  apply consume_total_step. intros g Hg. destruct (decide (g = S f)) as [->|].
  - eauto using expression_total_step.
  - apply IH. lia.
Qed.

Lemma Parse_fuel_total expr : Parse_fuel cfg (parse_fuel expr) expr ≠ OutOfFuel.
Proof.
  unfold Parse_fuel. apply obind_not_fuel; [apply advance_total|]. intros p Hp.
  destruct (is_kind tokenEOF (p_tok p)); [done|].
  assert (Hs : (size p ≤ String.length expr)%nat).
  { apply obind_Done in Hp as ([t l] & Hn & [= <-]). by apply next_progress in Hn. }
  apply obind_not_fuel.
  - apply all_return. unfold need, parse_fuel. lia.
  - intros q _. repeat case_match; done.
Qed.
End Total.

(** [Parse] returns on every text, under every context. *)
Lemma Parse_returns {UT : UnicodeTables} expr opts : Parse expr opts ≠ OutOfFuel.
Proof.
  unfold Parse. case_match; [done|]. case_match; [done|]. apply Parse_fuel_total.
Qed.
