(* ===== verification/FilterProps.v ===== *)
(** * What a filter that was accepted may contain

    Functions over the syntax tree (the nodes with whether a date or time
    function encloses them, the placeholders, the nesting), and what the
    grammar guarantees of them, by rule induction over all its judgements. *)
From Stdlib Require Import ZArith Lia Ascii String.
From stdpp Require Import base gmap strings list.
From S2P Require Import Prelude GoStrings FilterLexer FilterParser FilterGrammar FilterSound FilterTotal.

Local Open Scope Z_scope.

(** ** Walking the tree *)

Definition option_list {A} (o : option A) : list A := match o with Some a => [a] | None => [] end.
Definition pair_list {A} (l : list (A * A)) : list A := flat_map (λ '(a, b), [a; b]) l.

(** Every node in source order, with whether a time function encloses it. *)
Fixpoint nodes (timed : bool) (n : Node) : list (bool * Node) :=
  (timed, n) ::
  match n with
  | Literal _ _ | Param _ | Column _ => []
  | Call name args => flat_map (nodes (timed || mem name timeFunctions)) args
  | Binary _ l r | Is _ l r => nodes timed l ++ nodes timed r
  | Unary _ m | Paren m => nodes timed m
  | In _ l vs => nodes timed l ++ flat_map (nodes timed) vs
  | Like _ l p e => nodes timed l ++ nodes timed p ++ match e with Some e => nodes timed e | None => [] end
  | Between _ v lo hi => nodes timed v ++ nodes timed lo ++ nodes timed hi
  | Case o br e =>
      match o with Some o => nodes timed o | None => [] end
      ++ flat_map (λ '(w, t), nodes timed w ++ nodes timed t) br
      ++ match e with Some e => nodes timed e | None => [] end
  end.

Definition placeholder (x : bool * Node) : option nat :=
  match x.2 with Param i => Some i | _ => None end.

(** The placeholders of a tree, left to right. *)
Definition placeholders (n : Node) : list nat := omap placeholder (nodes false n).

(** The levels of [expression] a tree takes.  The left operand of an operator
    is read at the level of the operator; a list of literals takes no level,
    and neither do the arguments of a date or time function. *)
Fixpoint nesting (n : Node) : Z :=
  match n with
  | Literal _ _ | Param _ | Column _ => 1
  | Call name args => if mem name timeFunctions then 1 else 1 + foldr Z.max 0 (map nesting args)
  | Binary _ l r | Is _ l r => Z.max (nesting l) (1 + nesting r)
  | Unary _ m | Paren m => 1 + nesting m
  | In _ l _ => nesting l
  | Like _ l p _ => Z.max (nesting l) (1 + nesting p)
  | Between _ v lo hi => Z.max (nesting v) (1 + Z.max (nesting lo) (nesting hi))
  | Case o br e =>
      1 + Z.max (match o with Some o => nesting o | None => 0 end)
            (Z.max (foldr Z.max 0 (map (λ '(w, t), Z.max (nesting w) (nesting t)) br))
               (match e with Some e => nesting e | None => 0 end))
  end.

(** What may stand as an argument of a date or time function. *)
Definition time_arg_ok (n : Node) : bool :=
  match n with
  | Literal k _ => bool_decide (k ∈ [LiteralString; LiteralNumber; LiteralNull])
  | Param _ | Column _ => true
  | Unary _ (Literal LiteralNumber _) => true
  | Call name _ => mem name timeFunctions
  | _ => false
  end.

Definition not_clock (s : string) `{UnicodeTables} : Prop :=
  assoc (to_lower (trim_space s)) rejectedTimeWords = None.

(** The induction principle of all the judgements together. *)
Scheme Expr_mind := Minimality for Expr Sort Prop
  with Pref_mind := Minimality for Pref Sort Prop
  with CallE_mind := Minimality for CallE Sort Prop
  with Args_mind := Minimality for Args Sort Prop
  with TimeArg_mind := Minimality for TimeArg Sort Prop
  with CaseE_mind := Minimality for CaseE Sort Prop
  with Operand_mind := Minimality for Operand Sort Prop
  with Branches_mind := Minimality for Branches Sort Prop
  with ElseE_mind := Minimality for ElseE Sort Prop
  with Infx_mind := Minimality for Infx Sort Prop
  with Step_mind := Minimality for Step Sort Prop.
Combined Scheme grammar_ind from Expr_mind, Pref_mind, CallE_mind, Args_mind, TimeArg_mind,
  CaseE_mind, Operand_mind, Branches_mind, ElseE_mind, Infx_mind, Step_mind.

Section Props.
Context {UT : UnicodeTables} (cfg : config).

(** What holds of every node of an accepted filter. *)
Definition node_ok (x : bool * Node) : Prop :=
  match x.2 with
  | Column c => c ∈ c_columns cfg
  | Call name args =>
      arity_ok name (Z.of_nat (length args))
      ∧ (mem name timeFunctions = true → forallb time_arg_ok args = true)
  | Literal LiteralString s => x.1 = true → not_clock s
  | Param i => x.1 = true → ∀ s, c_args cfg !! i = Some (ArgString s) → not_clock s
  | _ => True
  end.

(** The trees [ns], read under [td] time functions, with the placeholders
    from [k] to [k']. *)
Record goods (td : Z) (ns : list Node) (k k' : nat) : Prop := Goods {
  goods_le : (k ≤ k')%nat;
  goods_nodes : Forall node_ok (flat_map (nodes (0 <? td)) ns);
  goods_params : omap placeholder (flat_map (nodes (0 <? td)) ns) = seq k (k' - k) }.

Abbreviation good td n k k' := (goods td [n] k k').

(** Read at depth [d], the tree stays within the limit. *)
Definition shallow (d : Z) (n : Node) : Prop := d + nesting n ≤ MaxNestingDepth.

Lemma goods_nil td k : goods td [] k k.
Proof. split; simpl; [done|constructor|]. by rewrite Nat.sub_diag. Qed.

Lemma seq_split k k1 k2 : (k ≤ k1)%nat → (k1 ≤ k2)%nat →
  seq k (k1 - k) ++ seq k1 (k2 - k1) = seq k (k2 - k).
Proof.
  intros. replace (k2 - k)%nat with ((k1 - k) + (k2 - k1))%nat by lia.
  rewrite seq_app. by replace (k + (k1 - k))%nat with k1 by lia.
Qed.

Lemma goods_app td ns1 ns2 k k1 k2 :
  goods td ns1 k k1 → goods td ns2 k1 k2 → goods td (ns1 ++ ns2) k k2.
Proof.
  intros [H1 N1 P1] [H2 N2 P2]. split.
  - lia.
  - rewrite flat_map_app. by apply Forall_app.
  - rewrite flat_map_app, omap_app, P1, P2. by apply seq_split.
Qed.

Lemma goods_cons td n ns k k1 k2 :
  good td n k k1 → goods td ns k1 k2 → goods td (n :: ns) k k2.
Proof. apply (goods_app td [n]). Qed.

(** A node over [ns], with its own condition. *)
Lemma good_node td td' n ns k k' :
  goods td' ns k k' →
  nodes (0 <? td) n = (0 <? td, n) :: flat_map (nodes (0 <? td')) ns →
  placeholder (0 <? td, n) = None → node_ok (0 <? td, n) → good td n k k'.
Proof.
  intros [Hle Hn Hp] Heq Hnp Hok. split; simpl; [done| |].
  - rewrite app_nil_r, Heq. by constructor.
  - rewrite app_nil_r, Heq. simpl. by rewrite Hnp.
Qed.

(** A literal or a column. *)
Lemma good_leaf td n k :
  nodes (0 <? td) n = [(0 <? td, n)] → placeholder (0 <? td, n) = None → node_ok (0 <? td, n) →
  good td n k k.
Proof. intros. by eapply good_node; [apply (goods_nil td)|..]. Qed.

(** A literal token, of any of the kinds the parser reads one at. *)
Lemma good_Lit td k t n k' :
  Lit cfg td k t n k' → is_literal t → good td n k k'.
Proof.
  intros HL Hlit. destruct HL as [Hk Hfree|Hk Hfree].
  - split; simpl; [lia| |].
    + constructor; [|constructor]. unfold node_ok. simpl. intros Htd s Hs.
      apply Hfree. unfold clock_text. rewrite Htd. apply is_kind_spec in Hk as ->. by rewrite Hs.
    + by replace (S k - k)%nat with 1%nat by lia.
  - apply good_leaf; [done|done|]. unfold node_ok. simpl.
    destruct (literalKindOf t) eqn:Hlk; try done. intros Htd. apply Hfree. unfold clock_text. rewrite Htd.
    unfold literalKindOf in Hlk. destruct (t_kind t) eqn:Htk; try done; exfalso.
    all: destruct Hlit as [Hl|[Hl Hin]]; rewrite Htk in Hl; unfold is_kind in Hk; rewrite Htk in Hk;
      try done; try set_solver.
    apply mem_spec in Hin. simpl in Hin. repeat case_match; done.
Qed.

Lemma nesting_Lit td k t n k' : Lit cfg td k t n k' → nesting n = 1.
Proof. by destruct 1. Qed.

Lemma good_unary td s n k k' : good td n k k' → good td (Unary s n) k k'.
Proof. intros H. apply (good_node td td _ [n]); [done| |done|done]. simpl. by rewrite app_nil_r. Qed.

Lemma good_paren td n k k' : good td n k k' → good td (Paren n) k k'.
Proof. intros H. apply (good_node td td _ [n]); [done| |done|done]. simpl. by rewrite app_nil_r. Qed.

Lemma good_Signed td k ts n k' : Signed cfg td k ts n k' → good td n k k'.
Proof.
  destruct 1 as [t n k' Hl HL|s t n k' Hs Hk HL]; [by eapply good_Lit|].
  apply good_unary. eapply good_Lit; [done|]. left. rewrite Hk. set_solver.
Qed.

Lemma goods_Values td k ts ns k' : Values cfg td k ts ns k' → goods td ns k k'.
Proof. induction 1; eauto using good_Signed, goods_cons. Qed.

Lemma goods_InList td k ts ns k' : InList cfg td k ts ns k' → goods td ns k k'.
Proof. destruct 1; eauto using goods_nil, goods_Values. Qed.

(** The level of a node is above zero. *)
Lemma foldr_max_nonneg l : 0 ≤ foldr Z.max 0 l.
Proof. induction l; simpl; lia. Qed.

Lemma foldr_max_le l b : 0 ≤ b → Forall (λ x, x ≤ b) l → foldr Z.max 0 l ≤ b.
Proof. induction 2; simpl; lia. Qed.

Lemma plain_not_clock td n k k' : good td n k k' → Forall node_ok (nodes (0 <? td) n).
Proof. intros [_ H _]. simpl in H. by rewrite app_nil_r in H. Qed.

(** ** Calls *)

Lemma under_pos name td : 0 ≤ td → (0 <? under name td) = (0 <? td) || mem name timeFunctions.
Proof.
  intros Htd. unfold under. destruct (mem name timeFunctions).
  - rewrite orb_true_r. apply Z.ltb_lt. lia.
  - by rewrite orb_false_r.
Qed.

Lemma good_call td name ns k k' :
  0 ≤ td → goods (under name td) ns k k' → arity_ok name (Z.of_nat (length ns)) →
  (mem name timeFunctions = true → forallb time_arg_ok ns = true) →
  good td (Call name ns) k k'.
Proof.
  intros Htd H Ha Ht. apply (good_node td (under name td) _ ns); [done| |done|done].
  simpl. by rewrite under_pos.
Qed.

Lemma pair_list_nodes timed br :
  flat_map (nodes timed) (pair_list br) = flat_map (λ '(w, t), nodes timed w ++ nodes timed t) br.
Proof. induction br as [|[w t] br IH]; [done|]. simpl. by rewrite <-app_assoc, IH. Qed.

Lemma option_list_nodes timed o :
  flat_map (nodes timed) (option_list o) = match o with Some n => nodes timed n | None => [] end.
Proof. destruct o; simpl; by rewrite ?app_nil_r. Qed.

Lemma good_case td o br e k k0 kb ke :
  goods td (option_list o) k k0 → goods td (pair_list br) k0 kb → goods td (option_list e) kb ke →
  good td (Case o br e) k ke.
Proof.
  intros Ho Hb He.
  apply (good_node td td _ (option_list o ++ pair_list br ++ option_list e)); [|  |done|done].
  - eapply goods_app; [exact Ho|]. by eapply goods_app.
  - by rewrite !flat_map_app, pair_list_nodes, !option_list_nodes.
Qed.

Lemma under_nonneg name td : 0 ≤ td → 0 ≤ under name td.
Proof. unfold under. case_match; lia. Qed.

Lemma good_word td t k :
  t_kind t = tokenIdent → to_lower (t_text t) ∈ ["null"; "true"; "false"] →
  good td (Literal (literalKindOf t) (t_text t)) k k.
Proof.
  intros Hk Hin%mem_spec. apply good_leaf; [done|done|]. unfold node_ok, literalKindOf. simpl.
  rewrite Hk. simpl in Hin. repeat case_match; done.
Qed.

Lemma good_column td t u k : column_ok cfg t u → good td (Column (to_lower (t_text t))) k k.
Proof. intros [_ Hc]. by apply good_leaf. Qed.

(** An operator over its operands, in source order. *)
Lemma good_operands td n ns k k' :
  goods td ns k k' → nodes (0 <? td) n = (0 <? td, n) :: flat_map (nodes (0 <? td)) ns →
  match n with Binary _ _ _ | Is _ _ _ | In _ _ _ | Like _ _ _ _ | Between _ _ _ _ => True | _ => False end →
  good td n k k'.
Proof. intros H Hn Hop. eapply good_node; [exact H|exact Hn|by destruct n..]. Qed.

(** ** Nesting *)

Lemma nesting_call d name ns :
  d ≤ MaxNestingDepth → (mem name timeFunctions = false → Forall (shallow d) ns) →
  shallow (d - 1) (Call name ns).
Proof.
  intros Hd Hns. unfold shallow. cbn [nesting]. destruct (mem name timeFunctions); [lia|].
  specialize (Hns eq_refl). cut (foldr Z.max 0 (map nesting ns) ≤ MaxNestingDepth - d); [lia|].
  apply foldr_max_le; [lia|]. apply Forall_map. eapply Forall_impl; [exact Hns|].
  unfold shallow. simpl. lia.
Qed.

Lemma nesting_case d o br e :
  d ≤ MaxNestingDepth → Forall (shallow d) (option_list o) → Forall (shallow d) (pair_list br) →
  Forall (shallow d) (option_list e) → shallow (d - 1) (Case o br e).
Proof.
  intros Hd Ho Hb He. unfold shallow in *. simpl.
  cut (foldr Z.max 0 (map (λ '(w, t), Z.max (nesting w) (nesting t)) br) ≤ MaxNestingDepth - d).
  - destruct o, e; simpl in *; rewrite ?Forall_singleton in *; lia.
  - apply foldr_max_le; [lia|]. apply Forall_map. clear Ho He.
    induction br as [|[w t] br IH]; [constructor|]. unfold pair_list in Hb. simpl in Hb.
    apply Forall_cons in Hb as [Hw Hb]. apply Forall_cons in Hb as [Ht Hb]. constructor; [simpl; lia|by apply IH].
Qed.

(** ** The rule induction *)

Definition M_expr (d td : Z) (k : nat) (n : Node) (k' : nat) : Prop :=
  0 ≤ td → good td n k k' ∧ shallow d n.
Definition M_prefix (d td : Z) (k : nat) (n : Node) (k' : nat) : Prop :=
  0 ≤ td → d ≤ MaxNestingDepth → good td n k k' ∧ shallow (d - 1) n.
Definition M_list (d td : Z) (k : nat) (ns : list Node) (k' : nat) : Prop :=
  0 ≤ td → goods td ns k k' ∧ Forall (shallow d) ns.
Definition M_args (d td : Z) (name : string) (k : nat) (ns : list Node) (k' : nat) : Prop :=
  0 ≤ td → d ≤ MaxNestingDepth → goods td ns k k'
  ∧ (mem name timeFunctions = false → Forall (shallow d) ns)
  ∧ (mem name timeFunctions = true → forallb time_arg_ok ns = true).
Definition M_time (d td : Z) (k : nat) (n : Node) (k' : nat) : Prop :=
  0 ≤ td → d ≤ MaxNestingDepth → good td n k k' ∧ time_arg_ok n = true.
Definition M_infix (d td : Z) (k : nat) (left n : Node) (k' : nat) : Prop :=
  0 ≤ td → d ≤ MaxNestingDepth → ∀ k0, good td left k0 k → shallow (d - 1) left →
  good td n k0 k' ∧ shallow (d - 1) n.

Lemma time_arg_Lit td k t n k' :
  Lit cfg td k t n k' → t_kind t ∈ [tokenString; tokenNumber; tokenParam] → time_arg_ok n = true.
Proof.
  intros HL Hk. destruct HL as [Hp|Hp]; [done|]. unfold literalKindOf.
  destruct (t_kind t) eqn:E; try done; set_solver.
Qed.

Lemma time_arg_sign td k t n k' s :
  Lit cfg td k t n k' → t_kind t = tokenNumber → time_arg_ok (Unary s n) = true.
Proof.
  intros HL Hk. destruct HL as [Hp|Hp]; [unfold is_kind in Hp; by rewrite Hk in Hp|].
  simpl. unfold literalKindOf. by rewrite Hk.
Qed.

Lemma time_arg_call d td name k ts u n k' :
  CallE cfg d td name k ts u n k' → name ∈ timeFunctions → time_arg_ok n = true.
Proof. destruct 1. intros ?. by apply mem_spec. Qed.

Lemma literal_kinds t : t_kind t ∈ [tokenString; tokenNumber; tokenParam] → is_literal t.
Proof. intros H. left. set_solver. Qed.

Lemma escape_literal k t : escape_ok cfg k t → is_literal t.
Proof. intros [[H _]|[H _]]; left; rewrite H; set_solver. Qed.

(** The induction hypotheses, applied to what the context has. *)
Ltac hyps :=
  repeat match goal with
  | H : _ ∧ _ |- _ => destruct H
  | Hp : ?P, H : ?P → _ |- _ => match type of P with Prop => specialize (H Hp) end
  end.

Lemma grammar_good :
  (∀ d td m k ts u n k', Expr cfg d td m k ts u n k' → M_expr d td k n k')
  ∧ (∀ d td k ts u n k', Pref cfg d td k ts u n k' → M_prefix d td k n k')
  ∧ (∀ d td name k ts u n k', CallE cfg d td name k ts u n k' → M_prefix d td k n k')
  ∧ (∀ d td name k first ts u ns k', Args cfg d td name k first ts u ns k' → M_args d td name k ns k')
  ∧ (∀ d td k ts u n k', TimeArg cfg d td k ts u n k' → M_time d td k n k')
  ∧ (∀ d td k ts u n k', CaseE cfg d td k ts u n k' → M_prefix d td k n k')
  ∧ (∀ d td k ts u o k', Operand cfg d td k ts u o k' → M_list d td k (option_list o) k')
  ∧ (∀ d td k ts u br k', Branches cfg d td k ts u br k' → M_list d td k (pair_list br) k')
  ∧ (∀ d td k ts u o k', ElseE cfg d td k ts u o k' → M_list d td k (option_list o) k')
  ∧ (∀ d td m k left ts u n k', Infx cfg d td m k left ts u n k' → M_infix d td k left n k')
  ∧ (∀ d td p k c t left ts u n k', Step cfg d td p k c t left ts u n k' → M_infix d td k left n k').
Proof.
  apply grammar_ind; unfold M_expr, M_prefix, M_list, M_args, M_time, M_infix; intros; hyps;
    try (split; [eauto using goods_nil, goods_cons, good_unary, good_paren, good_Lit, good_word,
      good_column, good_call, good_case, under_nonneg|unfold shallow in *; simpl; lia]).
  - rewrite Z.add_simpl_r in *. match goal with H : ∀ k0, _ |- _ => eapply H; eauto end.
  - split; [eapply good_Lit; [done|by left]|].
    match goal with H : Lit _ _ _ _ _ _ |- _ => apply nesting_Lit in H end. unfold shallow. lia.
  - match goal with H : 0 ≤ under _ _ → _ |- _ => destruct (H (under_nonneg _ _ ltac:(done)) ltac:(done)) as (? & ? & ?) end.
    split; [by apply good_call|by apply nesting_call].
  - split_and!; [apply goods_nil|constructor|done].
  - split_and!; [by eapply goods_cons|by constructor; auto|congruence].
  - split_and!; [by eapply goods_cons|congruence|]. intros Ht. simpl. apply andb_true_iff; auto.
  - split; [eapply good_Lit; eauto using literal_kinds|by eapply time_arg_Lit].
  - split; [|by eapply time_arg_sign]. apply good_unary. eapply good_Lit; [done|].
    apply literal_kinds. match goal with H : t_kind _ = _ |- _ => rewrite H end. set_solver.
  - by apply good_leaf.
  - split; [done|by eapply time_arg_call].
  - split; [by eapply good_case|by apply nesting_case].
  - split; [apply goods_nil|constructor].
  - split; [done|by repeat constructor].
  - split; [apply goods_nil|constructor].
  - split; [|by repeat constructor]. eapply goods_cons; [done|]. by eapply goods_cons.
  - split; [apply goods_nil|constructor].
  - split; [done|by repeat constructor].
  - match goal with H : good _ _ ?k _ , H1 : ∀ k0, goods _ [?l] k0 _ → _ |- _ =>
      destruct (H1 _ ltac:(eassumption) ltac:(assumption)) end. eauto.
  - eapply (good_operands _ _ [_; _]); [by eapply goods_cons| |done]. simpl. by rewrite app_nil_r.
  - eapply (good_operands _ _ [_; _]); [by eapply goods_cons| |done]. simpl. by rewrite app_nil_r.
  - eapply (good_operands _ _ (_ :: _)); [eapply goods_cons; [done|by eapply goods_InList]|done|done].
  - eapply (good_operands _ _ [_; _]); [by eapply goods_cons| |done]. simpl. by rewrite app_nil_r.
  - eapply (good_operands _ _ [_; _; _]); [|simpl; by rewrite app_nil_r|done].
    eapply goods_cons; [done|]. eapply goods_cons; [done|]. eapply good_Lit; eauto using escape_literal.
  - eapply (good_operands _ _ [_; _; _]); [|simpl; by rewrite app_nil_r|done].
    eapply goods_cons; [done|]. by eapply goods_cons.
Qed.

(** ** No judgement consumes the end of the text *)

Definition inner (t : token) : Prop := t_kind t ≠ tokenEOF.

Lemma inner_tok t op : tok_is t op = true → inner t.
Proof. apply tok_is_kind. Qed.
Lemma inner_keyword t w : keyword t w = true → inner t.
Proof. apply keyword_not_eof. Qed.
Lemma inner_kind t k : t_kind t = k → k ≠ tokenEOF → inner t.
Proof. unfold inner. congruence. Qed.
Lemma inner_in t (ks : list tokenKind) : t_kind t ∈ ks → tokenEOF ∉ ks → inner t.
Proof. intros H Hn E. by rewrite E in H. Qed.
Lemma inner_word t : plain_word t → inner t.
Proof. intros [H _]. unfold inner. congruence. Qed.
Lemma inner_sign t : is_sign t → inner t.
Proof. intros [H|H]; by eapply inner_tok. Qed.
Lemma inner_literal t : is_literal t → inner t.
Proof. intros [H|[H _]]; [eapply inner_in; [exact H|set_solver]|by eapply inner_kind]. Qed.
Lemma inner_negatable c cw w pre b : negatable c cw w pre b → Forall inner pre.
Proof. intros [(_ & -> & _)|(_ & (x & -> & Hx) & _)]; [constructor|]. repeat constructor. by eapply inner_keyword. Qed.

Lemma inner_Signed td k ts n k' : Signed cfg td k ts n k' → Forall inner ts.
Proof.
  destruct 1; repeat constructor; eauto using inner_literal, inner_sign. by eapply inner_kind.
Qed.
Lemma inner_Values td k ts ns k' : Values cfg td k ts ns k' → Forall inner ts.
Proof.
  induction 1; [by eapply inner_Signed|]. apply Forall_app. split; [by eapply inner_Signed|].
  constructor; [by eapply inner_tok|done].
Qed.
Lemma inner_InList td k ts ns k' : InList cfg td k ts ns k' → Forall inner ts.
Proof.
  destruct 1 as [|o ts c ns k' Ho HV Hc]; [repeat constructor; by eapply inner_tok|].
  constructor; [by eapply inner_tok|]. apply Forall_app. split; [by eapply inner_Values|].
  repeat constructor. by eapply inner_tok.
Qed.

Lemma grammar_inner :
  (∀ d td m k ts u n k', Expr cfg d td m k ts u n k' → Forall inner ts)
  ∧ (∀ d td k ts u n k', Pref cfg d td k ts u n k' → Forall inner ts)
  ∧ (∀ d td name k ts u n k', CallE cfg d td name k ts u n k' → Forall inner ts)
  ∧ (∀ d td name k first ts u ns k', Args cfg d td name k first ts u ns k' → Forall inner ts)
  ∧ (∀ d td k ts u n k', TimeArg cfg d td k ts u n k' → Forall inner ts)
  ∧ (∀ d td k ts u n k', CaseE cfg d td k ts u n k' → Forall inner ts)
  ∧ (∀ d td k ts u o k', Operand cfg d td k ts u o k' → Forall inner ts)
  ∧ (∀ d td k ts u br k', Branches cfg d td k ts u br k' → Forall inner ts)
  ∧ (∀ d td k ts u o k', ElseE cfg d td k ts u o k' → Forall inner ts)
  ∧ (∀ d td m k left ts u n k', Infx cfg d td m k left ts u n k' → Forall inner ts)
  ∧ (∀ d td p k c t left ts u n k', Step cfg d td p k c t left ts u n k' → Forall inner ts).
Proof.
  apply grammar_ind; intros;
    repeat match goal with
    | H : _ ∧ _ ∨ _ ∧ _ |- _ => destruct H
    | H : _ ∧ _ |- _ => destruct H
    | H : ∃ _, _ |- _ => destruct H
    end; subst; rewrite ?Forall_app, ?Forall_cons;
    split_and?; eauto using inner_tok, inner_keyword, inner_word, inner_sign, inner_negatable, inner_InList;
    try (by eapply inner_kind); try (by eapply inner_in; [eassumption|set_solver]).
  all: try (rewrite ?Forall_app, ?Forall_cons, ?Forall_app; split_and?; eauto using inner_tok, inner_keyword).
  - by eapply peek_eof.
  - eauto using inner_literal, escape_literal.
Qed.
End Props.

(** * More columns refuse no more filters

    A text accepted over some columns is accepted, with the same tree, over
    any columns that include them, and under any context that ends no earlier. *)


(** [m2] returns what [m1] does, wherever [m1] does. *)
Definition refines {E A} (m1 m2 : outcome E A) : Prop := ∀ a, m1 = Done a → m2 = Done a.

Lemma refines_refl {E A} (m : outcome E A) : refines m m.
Proof. by intros a. Qed.

Lemma refines_bind {E A B} (m1 m2 : outcome E A) (k1 k2 : A → outcome E B) :
  refines m1 m2 → (∀ a, refines (k1 a) (k2 a)) → refines (obind m1 k1) (obind m2 k2).
Proof. intros Hm Hk b (a & Ha & Hb)%obind_Done. apply obind_Done. exists a. split; [by apply Hm|by apply Hk]. Qed.

Section Mono.
Context {UT : UnicodeTables} (context1 context2 : ctx) (args : list arg) (few many : gset string).
Hypothesis Hsub : few ⊆ many.
Hypothesis Hctx : ∀ i, context1 i = None → context2 i = None.
Let cfg1 := Config context1 few args.
Let cfg2 := Config context2 many args.

Lemma advance_mono p : refines (advance cfg1 p) (advance cfg2 p).
Proof.
  apply refines_bind; [|intros []; apply refines_refl]. unfold next. cbn [c_ctx cfg1 cfg2].
  destruct (context1 (lx_polls (p_lex p))) eqn:E; [done|]. rewrite (Hctx _ E). apply refines_refl.
Qed.

Lemma expect_mono p op what : refines (expect cfg1 p op what) (expect cfg2 p op what).
Proof. unfold expect. destruct (tok_is _ _); [apply advance_mono|done]. Qed.

Lemma consumeLiteral_mono p : refines (consumeLiteral cfg1 p) (consumeLiteral cfg2 p).
Proof.
  apply refines_bind; [apply refines_refl|]. intros []. destruct (is_kind _ _); apply advance_mono.
Qed.

Lemma listValue_mono p : refines (listValue cfg1 p) (listValue cfg2 p).
Proof.
  unfold listValue. cbv zeta. apply refines_bind.
  - destruct (_ || _); [apply advance_mono|apply refines_refl].
  - intros q. destruct (negb _); [done|]. destruct (_ && _); [done|].
    apply refines_bind; [apply consumeLiteral_mono|intros ?; apply refines_refl].
Qed.

Lemma inList_loop_mono f : ∀ p, refines (inList_loop cfg1 f p) (inList_loop cfg2 f p).
Proof.
  induction f as [|f IH]; intros p; cbn [inList_loop]; [done|]. destruct (keyword _ _); [done|].
  apply refines_bind; [apply listValue_mono|]. intros q. destruct (tok_is _ _); [|apply refines_refl].
  apply refines_bind; [apply advance_mono|apply IH].
Qed.

Lemma inListNegated_mono f p b : refines (inListNegated cfg1 f p b) (inListNegated cfg2 f p b).
Proof.
  unfold inListNegated. apply refines_bind; [apply advance_mono|]. intros p1.
  destruct (negb _); [done|]. apply refines_bind; [apply advance_mono|]. intros p2.
  destruct (tok_is _ _).
  - apply refines_bind; [apply advance_mono|intros ?; apply refines_refl].
  - apply refines_bind; [apply inList_loop_mono|]. intros p3.
    apply refines_bind; [apply expect_mono|intros ?; apply refines_refl].
Qed.

Lemma namedColumn_mono p name pos : refines (namedColumn cfg1 p name pos) (namedColumn cfg2 p name pos).
Proof.
  unfold namedColumn. destruct (tok_is _ _); [apply refines_refl|].
  change (c_columns cfg1) with few. change (c_columns cfg2) with many.
  destruct (bool_decide (to_lower name ∈ few)) eqn:E.
  - apply bool_decide_eq_true in E. rewrite (bool_decide_eq_true_2 (to_lower name ∈ many)) by (by apply Hsub).
    apply refines_refl.
  - intros a. unfold unknownColumn. cbn [negb]. destruct (bool_decide (_ = ∅)); discriminate.
Qed.

Lemma column_mono p name pos : refines (column cfg1 p name pos) (column cfg2 p name pos).
Proof. apply refines_bind; [apply advance_mono|]. intros q. apply namedColumn_mono. Qed.

Lemma call_with_mono l1 l2 p name pos :
  (∀ p, refines (l1 p) (l2 p)) → refines (call_with cfg1 l1 p name pos) (call_with cfg2 l2 p name pos).
Proof.
  intros Hl. unfold call_with. destruct (assoc _ _); [|apply refines_refl].
  apply refines_bind; [apply advance_mono|]. intros q. destruct (tok_is _ _); [done|].
  destruct (keyword _ _); [done|]. apply refines_bind; [apply Hl|].
  intros [count r]. apply refines_bind; [apply advance_mono|]. intros ?. apply refines_refl.
Qed.

(** Peels binds, conditionals and matches that both sides share. *)
Ltac mono1 :=
  match goal with
  | |- refines ?x ?x => apply refines_refl
  | |- refines (namedColumn _ _ _ _) _ => apply namedColumn_mono
  | |- refines (advance _ _) _ => apply advance_mono
  | |- refines (expect _ _ _ _) _ => apply expect_mono
  | |- refines (consumeLiteral _ _) _ => apply consumeLiteral_mono
  | |- refines (inListNegated _ _ _ _) _ => apply inListNegated_mono
  | |- refines (Fail _) _ => done
  | |- refines (column _ _ _ _) _ => apply column_mono
  | |- refines (call_with _ _ _ _ _) _ => apply call_with_mono; intros ?
  | H : ∀ _, _ |- _ => apply H
  | |- refines (obind _ _) _ => apply refines_bind; [|intros ?]
  | |- refines (if ?b then _ else _) _ => destruct b
  | |- refines (match ?x with _ => _ end) _ => destruct x
  | |- _ => apply refines_refl
  end.

Record mono_at (f : nat) : Prop := Mono {
  m_expression : ∀ p k, refines (expression cfg1 f p k) (expression cfg2 f p k);
  m_infix : ∀ p k, refines (infix cfg1 f p k) (infix cfg2 f p k);
  m_consume : ∀ p k c, refines (consume_with cfg1 f p k c) (consume_with cfg2 f p k c);
  m_binary : ∀ p k, refines (binary cfg1 f p k) (binary cfg2 f p k);
  m_is : ∀ p k, refines (isOperator cfg1 f p k) (isOperator cfg2 f p k);
  m_negated : ∀ p k, refines (negatedOperator cfg1 f p k) (negatedOperator cfg2 f p k);
  m_like : ∀ p k b, refines (likeNegated cfg1 f p k b) (likeNegated cfg2 f p k b);
  m_between : ∀ p b, refines (betweenNegated cfg1 f p b) (betweenNegated cfg2 f p b);
  m_prefix : ∀ p, refines (prefix cfg1 f p) (prefix cfg2 f p);
  m_identifier : ∀ p, refines (identifier cfg1 f p) (identifier cfg2 f p);
  m_args : ∀ p n k, refines (callArgs cfg1 f p n k) (callArgs cfg2 f p n k);
  m_time : ∀ p, refines (timeArgument cfg1 f p) (timeArgument cfg2 f p);
  m_case : ∀ p, refines (caseExpression cfg1 f p) (caseExpression cfg2 f p);
  m_branches : ∀ p acc, refines (caseBranches cfg1 f p acc) (caseBranches cfg2 f p acc) }.

Lemma mono_all f : mono_at f.
Proof.
  induction f as [|f [I1 I2 I3 I4 I5 I6 I7 I8 I9 I10 I11 I12 I13 I14]]; [split; intros; apply refines_refl|].
  split; intros;
    cbn [expression infix consume_with binary isOperator negatedOperator likeNegated betweenNegated
         prefix identifier callArgs timeArgument caseExpression caseBranches].
  all: fold (expression cfg1) (infix cfg1) (consume_with cfg1) (binary cfg1) (isOperator cfg1)
    (negatedOperator cfg1) (likeNegated cfg1) (betweenNegated cfg1) (prefix cfg1) (identifier cfg1)
    (callArgs cfg1) (timeArgument cfg1) (caseExpression cfg1) (caseBranches cfg1)
    (expression cfg2) (infix cfg2) (consume_with cfg2) (binary cfg2) (isOperator cfg2)
    (negatedOperator cfg2) (likeNegated cfg2) (betweenNegated cfg2) (prefix cfg2) (identifier cfg2)
    (callArgs cfg2) (timeArgument cfg2) (caseExpression cfg2) (caseBranches cfg2).
  all: cbv zeta; repeat mono1.
Qed.

Lemma Parse_fuel_mono f expr : refines (Parse_fuel cfg1 f expr) (Parse_fuel cfg2 f expr).
Proof.
  unfold Parse_fuel. apply refines_bind; [apply advance_mono|]. intros p.
  destruct (is_kind _ _); [apply refines_refl|].
  apply refines_bind; [apply m_expression, mono_all|]. intros q. apply refines_refl.
Qed.
End Mono.

Lemma Parse_mono `{!UnicodeTables} expr context1 context2 few many args n :
  few ⊆ many → (∀ i, default background context1 i = None → default background context2 i = None) →
  Parse expr (MkOptions context1 few args) = Done n →
  Parse expr (MkOptions context2 many args) = Done n.
Proof.
  intros Hsub Hctx. unfold Parse. cbn [o_Context o_Columns o_Args].
  destruct (default background context1 0%nat) eqn:E; [done|]. rewrite (Hctx _ E).
  destruct (_ <? _); [done|]. apply Parse_fuel_mono; [|done].
  intros x. rewrite !elem_of_list_to_set, !list_elem_of_fmap. intros (y & -> & Hy). exists y.
  split; [done|by apply Hsub].
Qed.
