(* ===== verification/FilterTheorems.v ===== *)
(** * The theorems of the filter language

    What [internal/filter] promises to the code that evaluates filters: a text
    that is accepted is a sentence of the grammar, names only the columns it
    was given, calls only the listed functions, cannot observe the clock, and
    uses its arguments in order; and every text is answered. *)
From Stdlib Require Import ZArith Lia Ascii String.
From stdpp Require Import base gmap strings list sorting.
From S2P Require Import Prelude GoStrings FilterLexer FilterParser FilterGrammar FilterSound FilterTotal FilterProps.
Local Open Scope Z_scope.

(** ** The tokens of a source text *)

(** [lexed pos s ts eof]: from offset [pos], [s] is blanks and the spellings
    of [ts], with nothing left out, and [eof] marks its end. *)
Inductive lexed : Z → string → list token → token → Prop :=
| lexed_end pos blanks eof :
    all_bytes is_blank blanks = true → t_kind eof = tokenEOF → t_pos eof = pos + len blanks →
    lexed pos blanks [] eof
| lexed_token pos blanks raw rest t ts eof :
    all_bytes is_blank blanks = true → spells t raw → raw ≠ "" → t_kind t ≠ tokenEOF →
    t_pos t = pos + len blanks → lexed (t_pos t + len raw) rest ts eof →
    lexed pos (blanks +:+ raw +:+ rest) (t :: ts) eof.

Section Theorems.
Context {UT : UnicodeTables}.

Lemma lexed_reads cfg l t ts l' eof :
  reads cfg l t ts l' eof → t_kind eof = tokenEOF → ∀ l0,
  next (c_ctx cfg) l0 = Done (t, l) → Forall (λ t, t_kind t ≠ tokenEOF) ts →
  lexed (lx_pos l0) (lx_rest l0) ts eof.
Proof.
  induction 1 as [l t|l t l1 t1 ts l2 t2 Hn _ IH]; intros Heof l0 H0 Hall.
  - apply next_ok in H0 as [(bl & raw & Hr & Hb & Hsp & Hp & _ & Hend & _) _].
    rewrite Hr, Hend by done. unfold spells in Hsp. rewrite Heof in Hsp. subst raw.
    simpl. rewrite app_nil_r_str. by constructor.
  - apply Forall_cons in Hall as [Hk Hall]. specialize (IH Heof _ Hn Hall).
    apply next_ok in H0 as [(bl & raw & Hr & Hb & Hsp & Hp & Hp' & _ & Hne) _].
    rewrite Hr. constructor; auto. by rewrite <-Hp'.
Qed.

(** What [Parse] reads, and what the tree it returns is. *)
Lemma Parse_Done expr opts n :
  Parse expr opts = Done n →
  ∃ ts eof, lexed 0 expr ts eof ∧ Filter (config_of opts) ts eof n.
Proof.
  unfold Parse. case_match; [done|]. case_match; [done|].
  intros (t0 & l0 & ts & eof & l' & Hn & R & HF)%Parse_fuel_sound.
  exists ts, eof. split; [|done]. destruct HF as [Heof HE].
  exact (lexed_reads _ _ _ _ _ _ R Heof _ Hn (proj1 (grammar_inner _) _ _ _ _ _ _ _ _ HE)).
Qed.

(** The facts of the rule induction, for a whole filter. *)
Lemma Parse_good expr opts n :
  Parse expr opts = Done n →
  goods (config_of opts) 0 [n] 0 (length (o_Args opts)) ∧ shallow 0 n.
Proof.
  intros (ts & eof & _ & _ & HE)%Parse_Done.
  exact (proj1 (grammar_good _) _ _ _ _ _ _ _ _ HE (Z.le_refl 0)).
Qed.

Lemma Parse_node expr opts n x :
  Parse expr opts = Done n → x ∈ nodes false n → node_ok (config_of opts) x.
Proof.
  intros [[_ H _] _]%Parse_good Hx. simpl in H. rewrite app_nil_r in H.
  by eapply Forall_forall in H.
Qed.

(** ** The theorems *)

(** C1. A text that [Parse] accepts is, read from the first byte to the last
    as blanks and token spellings with nothing skipped, a sentence of the
    grammar of filters, and the tree returned is the one the grammar gives it:
    the recursive descent with its operand stack implements the grammar. *)
Theorem Parse_refines_grammar expr opts n (H : Parse expr opts = Done n) :
  ∃ ts eof, lexed 0 expr ts eof ∧ Filter (config_of opts) ts eof n.
Proof. exact (Parse_Done _ _ _ H). Qed.

(** C31. [Parse] returns, with a tree or with an error, on every text and under
    every context: the fuel of the model, linear in the text, never runs out. *)
Theorem Parse_total expr opts :
  (∃ n, Parse expr opts = Done n) ∨ (∃ e, Parse expr opts = Fail e).
Proof. pose proof (Parse_returns expr opts). destruct (Parse expr opts); eauto; done. Qed.

(** A filter sees only its own table: every column an accepted tree names,
    anywhere, is one of the columns it was given, in lower case. *)
Theorem Parse_columns_known expr opts n timed c
    (H : Parse expr opts = Done n) (Hc : (timed, Column c) ∈ nodes false n) :
  ∃ name, name ∈ o_Columns opts ∧ c = to_lower name.
Proof.
  apply (Parse_node _ _ _ _ H) in Hc. unfold node_ok in Hc. simpl in Hc.
  apply elem_of_list_to_set, list_elem_of_fmap in Hc. naive_solver.
Qed.

(** Every call in an accepted tree is of a function of [allowedFunctions],
    with a number of arguments its range allows. *)
Theorem Parse_calls_allowed expr opts n timed name args
    (H : Parse expr opts = Done n) (Hc : (timed, Call name args) ∈ nodes false n) :
  ∃ r, (name, r) ∈ allowedFunctions ∧ r_min r ≤ Z.of_nat (length args)
       ∧ (0 ≤ r_max r → Z.of_nat (length args) ≤ r_max r).
Proof.
  apply (Parse_node _ _ _ _ H) in Hc as [(r & Hr & Ha) _]. eauto with dolmen.
Qed.

(** An accepted filter cannot observe the clock or the time zone: each
    argument of a date or time function is a literal, an argument, a column or
    another such call, never a computed text, and at any depth below one
    neither a literal nor a text bound to a placeholder is one of the words
    now, localtime and utc, in any case and with any blanks around it. *)
Theorem Parse_no_clock expr opts n (H : Parse expr opts = Done n) :
  (∀ timed name args a, (timed, Call name args) ∈ nodes false n → name ∈ timeFunctions →
     a ∈ args → time_arg_ok a = true)
  ∧ (∀ s, (true, Literal LiteralString s) ∈ nodes false n →
     to_lower (trim_space s) ∉ map fst rejectedTimeWords)
  ∧ (∀ i s, (true, Param i) ∈ nodes false n → o_Args opts !! i = Some (ArgString s) →
     to_lower (trim_space s) ∉ map fst rejectedTimeWords).
Proof.
  assert (Hno : ∀ s, not_clock s → to_lower (trim_space s) ∉ map fst rejectedTimeWords).
  { intros s. unfold not_clock. simpl. repeat case_match; try done. intros _.
    rewrite !not_elem_of_cons. split_and!; try (by apply String.eqb_neq). apply not_elem_of_nil. }
  split_and!.
  - intros timed name args a Hc Hn Ha. apply (Parse_node _ _ _ _ H) in Hc as [_ Ht].
    apply mem_spec in Hn. specialize (Ht Hn). rewrite forallb_forall in Ht.
    by apply Ht, list_elem_of_In.
  - intros s Hs. by apply Hno, (Parse_node _ _ _ _ H Hs).
  - intros i s Hi Hs. apply Hno. by apply (Parse_node _ _ _ _ H Hi).
Qed.

(** The placeholders of an accepted filter, left to right, are the
    arguments 0, 1, 2, ... each exactly once: none is unused, none repeated. *)
Theorem Parse_placeholders expr opts n (H : Parse expr opts = Done n) :
  placeholders n = seq 0 (length (o_Args opts)).
Proof.
  apply Parse_good in H as [[_ _ H] _]. simpl in H. rewrite app_nil_r, Nat.sub_0_r in H. exact H.
Qed.

(** No accepted filter takes more than [MaxNestingDepth] levels of
    [expression]. *)
Theorem Parse_nesting expr opts n (H : Parse expr opts = Done n) : nesting n ≤ MaxNestingDepth.
Proof. apply Parse_good in H as [_ H]. unfold shallow in H. lia. Qed.
End Theorems.

(** ** The sorting of names in messages *)

Lemma sink_split a x b :
  ∃ l, sink (length a) (a ++ x :: b) = l ++ b ∧ l ≡ₚ a ++ [x]
       ∧ (StronglySorted str_le a → StronglySorted str_le l).
Proof.
  revert x b. induction a as [|y a IH] using rev_ind; intros x b.
  { exists [x]. split_and!; [done|done|]. intros _. repeat constructor. }
  rewrite length_app, Nat.add_comm. simpl.
  rewrite !lookup_app_r by (rewrite length_app; simpl; lia). rewrite length_app. simpl.
  replace (S (length a) - (length a + 1))%nat with 0%nat by lia. simpl.
  rewrite lookup_app_l by (rewrite length_app; simpl; lia).
  rewrite lookup_app_r, Nat.sub_diag by lia. simpl. destruct (str_ltb x y) eqn:Hxy.
  - replace (<[length a:=x]> (<[S (length a):=y]> ((a ++ [y]) ++ x :: b))) with (a ++ x :: y :: b).
    2:{ replace (S (length a)) with (length (a ++ [y]) + 0)%nat by (rewrite length_app; simpl; lia).
        rewrite insert_app_r, <-app_assoc. simpl.
        replace (length a) with (length a + 0)%nat at 1 by lia. by rewrite insert_app_r. }
    destruct (IH x (y :: b)) as (l & -> & Hp & Hs). exists (l ++ [y]).
    split_and!; [by rewrite <-app_assoc| |].
    + rewrite Hp, <-!app_assoc. simpl. by rewrite (Permutation_swap x y []).
    + intros Ha. apply StronglySorted_app_2; [|by eapply Hs, StronglySorted_app_1_l|repeat constructor].
      intros z1 z2 Hz1 ->%list_elem_of_singleton. rewrite Hp in Hz1.
      apply elem_of_app in Hz1 as [Hz1| ->%list_elem_of_singleton]; [|by apply str_lt_le].
      eapply StronglySorted_app_1_elem_of; [exact Ha|done|by left].
  - exists ((a ++ [y]) ++ [x]). split_and!; [by rewrite <-!app_assoc|done|].
    intros Ha. apply StronglySorted_app_2; [|done|repeat constructor].
    intros z1 z2 Hz1 ->%list_elem_of_singleton.
    apply elem_of_app in Hz1 as [Hz1| ->%list_elem_of_singleton]; [|exact Hxy].
    transitivity y; [|exact Hxy]. eapply StronglySorted_app_1_elem_of; [exact Ha|done|by left].
Qed.

Lemma sortStrings_from n : ∀ i done_ rest,
  length done_ = i → length rest = n → StronglySorted str_le done_ →
  let r := foldl (λ s i, sink i s) (done_ ++ rest) (seq i n) in
  r ≡ₚ done_ ++ rest ∧ StronglySorted str_le r.
Proof.
  induction n as [|n IH]; intros i d rest Hi Hn Hs; destruct rest as [|x rest]; try done; simpl.
  { rewrite app_nil_r. done. }
  destruct (sink_split d x rest) as (l & Hl & Hp & Hsl). subst i. rewrite Hl.
  destruct (IH (S (length d)) l rest) as [Hp' Hs'].
  - rewrite Hp, length_app. simpl. lia.
  - simpl in Hn. lia.
  - auto.
  - split; [|done]. rewrite Hp', Hp, <-app_assoc. done.
Qed.

Lemma sortStrings_ok s : sortStrings s ≡ₚ s ∧ StronglySorted str_le (sortStrings s).
Proof.
  unfold sortStrings. destruct s as [|x s]; [split; [done|constructor]|].
  simpl. rewrite Nat.sub_0_r. apply (sortStrings_from (length s) 1 [x] s); [done|done|repeat constructor].
Qed.

(** [sortStrings] sorts: a permutation of the names in byte order.  Hence
    the list of functions in a refusal does not depend on the order in which
    Go iterates over the map it is made from. *)
Theorem sortStrings_sorts :
  (∀ s, sortStrings s ≡ₚ s ∧ StronglySorted str_le (sortStrings s))
  ∧ ∀ order, order ≡ₚ map fst allowedFunctions → functionList_from order = functionList.
Proof.
  split; [exact sortStrings_ok|]. intros order Ho. unfold functionList, functionList_from. f_equal.
  apply (StronglySorted_unique str_le); [apply sortStrings_ok..|].
  rewrite (proj1 (sortStrings_ok order)), Ho. symmetry. apply sortStrings_ok.
Qed.

(** ** Quoted texts *)

Lemma skipSpace_blanks pos blanks s :
  all_bytes is_blank blanks = true → skipSpace pos (blanks +:+ s) = skipSpace (pos + len blanks) s.
Proof.
  revert pos. induction blanks as [|c b IH]; intros pos; cbn [String.append].
  - intros _. by rewrite len_nil, Z.add_0_r.
  - simpl. intros [Hc Hb]%andb_true_iff. rewrite Hc, IH by done. rewrite len_cons. f_equal. lia.
Qed.

(** Quoting round-trips: wherever a text is written between quotes with
    its quotes doubled, [next] reads one token with exactly that text, whether
    a string literal or a quoted column, and stands after the closing quote. *)
Theorem next_reads_quoted c l blanks body rest
    (Hctx : c (lx_polls l) = None) (Hblank : all_bytes is_blank blanks = true) :
  (lx_rest l = blanks +:+ quote apostrophe body +:+ rest → starts_with (Ascii.eqb apostrophe) rest = false →
   next c l = Done (Token tokenString body (lx_pos l + len blanks),
     Lexer (lx_pos l + len blanks + len (quote apostrophe body)) rest (S (lx_polls l))))
  ∧ (lx_rest l = blanks +:+ quote dquote body +:+ rest → starts_with (Ascii.eqb dquote) rest = false →
     next c l = Done (Token tokenQuotedIdent body (lx_pos l + len blanks),
       Lexer (lx_pos l + len blanks + len (quote dquote body)) rest (S (lx_polls l)))).
Proof.
  unfold next. rewrite Hctx. split; intros -> Hrest.
  - rewrite skipSpace_blanks by done. unfold quote. simpl.
    unfold scan, quoted. simpl. rewrite app_assoc_str. simpl. rewrite quoted_loop_escape by done.
    simpl. unfold moved. simpl. rewrite len_cons, len_app. do 3 f_equal. str_solve.
  - rewrite skipSpace_blanks by done. unfold quote. simpl.
    unfold scan, quoted. simpl. rewrite app_assoc_str. simpl. rewrite quoted_loop_escape by done.
    simpl. unfold moved. simpl. rewrite len_cons, len_app. do 3 f_equal. str_solve.
Qed.

(** ** The theorems at a concrete filter *)

#[local] Existing Instance ascii_tables.

Definition sample : string := "Title = ? and date(created, '+1 day') >= 'x' or lower(title) in ('a', -1)".
Definition sample_options : Options := MkOptions None ["title"; "Created"] [ArgString "now"].
Definition sample_tree : Node :=
  Binary "or"
    (Binary "and" (Binary "=" (Column "title") (Param 0))
       (Binary ">=" (Call "date" [Column "created"; Literal LiteralString "+1 day"])
          (Literal LiteralString "x")))
    (In false (Call "lower" [Column "title"])
       [Literal LiteralString "a"; Unary "-" (Literal LiteralNumber "1")]).

Lemma sample_parses : Parse sample sample_options = Done sample_tree.
Proof. vm_compute. reflexivity. Qed.

Lemma Parse_refines_grammar_witness :
  ∃ ts eof, lexed 0 sample ts eof ∧ Filter (config_of sample_options) ts eof sample_tree.
Proof. exact (Parse_refines_grammar _ _ _ sample_parses). Defined.

Lemma Parse_columns_known_witness : ∃ name, name ∈ ["title"; "Created"] ∧ "created" = to_lower name.
Proof.
  refine (Parse_columns_known _ _ _ true _ sample_parses _).
  apply list_elem_of_In. vm_compute. tauto.
Defined.

Lemma Parse_calls_allowed_witness :
  ∃ r, ("lower", r) ∈ allowedFunctions ∧ r_min r ≤ 1 ∧ (0 ≤ r_max r → 1 ≤ r_max r).
Proof.
  refine (Parse_calls_allowed _ _ _ false _ [Column "title"] sample_parses _).
  apply list_elem_of_In. vm_compute. tauto.
Defined.

Lemma Parse_no_clock_witness :
  time_arg_ok (Column "created") = true
  ∧ to_lower (trim_space "+1 day") ∉ map fst rejectedTimeWords.
Proof.
  destruct (Parse_no_clock _ _ _ sample_parses) as (Hargs & Htexts & _). split.
  - apply (Hargs false "date" [Column "created"; Literal LiteralString "+1 day"]).
    + apply list_elem_of_In. vm_compute. tauto.
    + by left.
    + by left.
  - apply Htexts. apply list_elem_of_In. vm_compute. tauto.
Defined.

Lemma Parse_placeholders_witness : placeholders sample_tree = [0%nat].
Proof. exact (Parse_placeholders _ _ _ sample_parses). Defined.

Lemma next_reads_quoted_witness :
  next background (Lexer 3 "  'it''s' = 1" 0)
  = Done (Token tokenString "it's" 5, Lexer 12 " = 1" 1).
Proof.
  apply (proj1 (next_reads_quoted background (Lexer 3 "  'it''s' = 1" 0) "  " "it's" " = 1" eq_refl eq_refl));
    vm_compute; reflexivity.
Defined.

Lemma Parse_nesting_witness : nesting sample_tree ≤ MaxNestingDepth.
Proof. exact (Parse_nesting _ _ _ sample_parses). Defined.

(** The limit does not see the calls of date and time functions: each is the
    argument of the one before, and [timeArgument] adds no level. *)
Fixpoint repeated (n : nat) (s : string) : string :=
  match n with O => "" | S n => s +:+ repeated n s end.
Fixpoint call_depth (n : Node) : nat :=
  match n with Call _ [a] => S (call_depth a) | _ => 0 end.

Theorem nested_dates_accepted :
  match Parse (repeated 1100 "date(" +:+ "'x'" +:+ repeated 1100 ")") (MkOptions None [] []) with
  | Done n => Z.of_nat (call_depth n) = 1100 ∧ nesting n = 1 ∧ MaxNestingDepth < 1100
  | _ => False
  end.
Proof. vm_compute. done. Qed.
