(* ===== verification/AuthVerbs.v ===== *)
(** * Verbs and verb sets ([internal/auth/verb.go])

    A [VerbSet] is a [uint8] with one bit per verb, in [VerbOrder].  The
    lemmas read it as a set: membership of a union, of a difference, of the
    set built from a list. *)
From Stdlib Require Import ZArith Lia Ascii String.
From stdpp Require Import base gmap strings list.
From S2P Require Import Prelude GoStrings.
Local Open Scope Z_scope.

(** A [Verb] is a string; the known ones are these. *)
Definition Verb := string.
Definition VerbCreate : Verb := "create".
Definition VerbRead : Verb := "read".
Definition VerbUpdate : Verb := "update".
Definition VerbDelete : Verb := "delete".
Definition VerbSchema : Verb := "schema".
Definition VerbAdmin : Verb := "admin".
Definition VerbReveal : Verb := "reveal".

Definition VerbOrder : list Verb :=
  [VerbCreate; VerbRead; VerbUpdate; VerbDelete; VerbSchema; VerbAdmin; VerbReveal].

Definition VerbSet := Z.

(** [uint8] truncation of a stored integer, as [VerbSet(v)] does. *)
Definition to_VerbSet (v : Z) : VerbSet := v mod 256.

Fixpoint bit_from (i : Z) (order : list Verb) (v : Verb) : option VerbSet :=
  match order with
  | [] => None
  | known :: order => if String.eqb known v then Some (Z.shiftl 1 i) else bit_from (i + 1) order v
  end.
Definition bit (v : Verb) : option VerbSet := bit_from 0 VerbOrder v.

(** The errors of [ParseVerb] and [ParseVerbs]. *)
Inductive verb_error :=
| UnknownVerb (raw : string) (known : string)
| NoVerbs (known : string)
| VerbTwice (raw : string).

#[global] Instance verb_error_eq_dec : EqDecision verb_error.
Proof. solve_decision. Defined.

Definition VerbList : string := join ", " VerbOrder.

Definition ParseVerb (raw : string) : outcome verb_error Verb :=
  match bit raw with
  | None => Fail (UnknownVerb raw VerbList)
  | Some _ => Done raw
  end.

Definition NewVerbSet (verbs : list Verb) : VerbSet :=
  foldl (λ set v, match bit v with Some b => Z.lor set b | None => set end) 0 verbs.

Definition Has (s : VerbSet) (v : Verb) : bool :=
  match bit v with
  | Some b => negb (Z.land s b =? 0)
  | None => false
  end.

Definition HasAll (s : VerbSet) (verbs : list Verb) : bool := forallb (Has s) verbs.
Definition HasAny (s : VerbSet) (verbs : list Verb) : bool := existsb (Has s) verbs.
Definition Empty (s : VerbSet) : bool := s =? 0.
Definition List_ (s : VerbSet) : list Verb := List.filter (Has s) VerbOrder.
Definition Strings (s : VerbSet) : list string := List_ s.

(** The loop of [ParseVerbs]: the texts already seen, and the set so far. *)
Fixpoint ParseVerbs_loop (raw seen : list string) (set : VerbSet) : outcome verb_error VerbSet :=
  match raw with
  | [] => Done set
  | r :: raw =>
      if mem r seen then Fail (VerbTwice r)
      else
        let! v := ParseVerb r in
        ParseVerbs_loop raw (r :: seen) (match bit v with Some b => Z.lor set b | None => set end)
  end.

Definition ParseVerbs (raw : list string) : outcome verb_error VerbSet :=
  match raw with
  | [] => Fail (NoVerbs VerbList)
  | _ => ParseVerbs_loop raw [] 0
  end.

(** ** Verb sets as sets *)

(** The position of a verb in [VerbOrder]. *)
Fixpoint position (order : list Verb) (v : Verb) : option nat :=
  match order with
  | [] => None
  | known :: order => if String.eqb known v then Some 0%nat else S <$> position order v
  end.
Definition index_of (v : Verb) : option nat := position VerbOrder v.

Lemma bit_from_position i order v :
  bit_from i order v = (λ k, Z.shiftl 1 (i + Z.of_nat k)) <$> position order v.
Proof.
  revert i. induction order as [|k order IH]; intros i; simpl; [done|].
  destruct (String.eqb k v); simpl; [by rewrite Z.add_0_r|]. rewrite IH.
  destruct (position order v); simpl; [do 2 f_equal; lia|done].
Qed.

Lemma bit_index v : bit v = (λ i, Z.shiftl 1 (Z.of_nat i)) <$> index_of v.
Proof. unfold bit. by rewrite bit_from_position. Qed.

Lemma position_Some order v i : position order v = Some i → order !! i = Some v.
Proof.
  revert i. induction order as [|k order IH]; intros i; simpl; [done|].
  destruct (String.eqb_spec k v) as [->|]; [by intros [= <-]|].
  intros (j & Hj & ->)%fmap_Some. by apply IH.
Qed.

Lemma position_None order v : position order v = None ↔ v ∉ order.
Proof.
  induction order as [|k order IH]; simpl; [split; [intros; apply not_elem_of_nil|done]|].
  destruct (String.eqb_spec k v) as [->|]; [set_solver|]. rewrite fmap_None, IH. set_solver.
Qed.

Lemma Has_index s v : Has s v = match index_of v with Some i => Z.testbit s (Z.of_nat i) | None => false end.
Proof.
  unfold Has. rewrite bit_index. destruct (index_of v) as [i|]; [|done]. simpl.
  rewrite Z.shiftl_1_l. destruct (Z.testbit s (Z.of_nat i)) eqn:E.
  - apply negb_true_iff, Z.eqb_neq. intros H0.
    assert (Z.testbit (Z.land s (2 ^ Z.of_nat i)) (Z.of_nat i) = false) as Hb by (by rewrite H0, Z.bits_0).
    rewrite Z.land_spec, E, Z.pow2_bits_true in Hb by lia. done.
  - apply negb_false_iff, Z.eqb_eq. apply Z.bits_inj'. intros n Hn.
    rewrite Z.land_spec, Z.bits_0. destruct (decide (n = Z.of_nat i)) as [->|Hne]; [by rewrite E|].
    rewrite Z.pow2_bits_false by lia. by rewrite andb_false_r.
Qed.

Lemma Has_empty v : Has 0 v = false.
Proof. rewrite Has_index. case_match; [apply Z.bits_0|done]. Qed.

Lemma Has_union s t v : Has (Z.lor s t) v = Has s v || Has t v.
Proof. rewrite !Has_index. case_match; [apply Z.lor_spec|done]. Qed.

Lemma Has_inter s t v : Has (Z.land s t) v = Has s v && Has t v.
Proof. rewrite !Has_index. case_match; [apply Z.land_spec|done]. Qed.

Lemma Has_diff s t v : Has (Z.ldiff s t) v = Has s v && negb (Has t v).
Proof. rewrite !Has_index. case_match; [apply Z.ldiff_spec|done]. Qed.

Lemma Has_bit v b w : bit v = Some b → Has b w = bool_decide (w = v).
Proof.
  rewrite bit_index, Has_index. intros (i & Hi & ->)%fmap_Some. rewrite Z.shiftl_1_l.
  apply position_Some in Hi. destruct (index_of w) as [j|] eqn:Hj.
  - apply position_Some in Hj. destruct (decide (j = i)) as [->|Hne].
    + rewrite Z.pow2_bits_true by lia. symmetry. apply bool_decide_eq_true. congruence.
    + rewrite Z.pow2_bits_false by lia. symmetry. apply bool_decide_eq_false. intros ->.
      apply Hne. assert (NoDup VerbOrder) as HN by (vm_compute; repeat constructor; set_solver).
      by eapply NoDup_lookup.
  - apply position_None in Hj. symmetry. apply bool_decide_eq_false. intros ->.
    by apply Hj, list_elem_of_lookup_2 with i.
Qed.

Lemma bit_None v : bit v = None ↔ v ∉ VerbOrder.
Proof. rewrite bit_index, fmap_None. apply position_None. Qed.

Lemma Has_known s v : Has s v = true → v ∈ VerbOrder.
Proof.
  unfold Has. destruct (bit v) eqn:E; [|done]. intros _. apply dec_stable. by rewrite <-bit_None, E.
Qed.

(** Adding one verb, as the folds of the code do. *)
Lemma Has_add set v w :
  Has (match bit v with Some b => Z.lor set b | None => set end) w = true
  ↔ Has set w = true ∨ w = v ∧ v ∈ VerbOrder.
Proof.
  destruct (bit v) as [b|] eqn:E.
  - rewrite Has_union, orb_true_iff, (Has_bit _ _ _ E), bool_decide_eq_true.
    assert (v ∈ VerbOrder) by (apply dec_stable; by rewrite <-bit_None, E). tauto.
  - apply bit_None in E. tauto.
Qed.

Lemma Has_NewVerbSet_from verbs set w :
  Has (foldl (λ set v, match bit v with Some b => Z.lor set b | None => set end) set verbs) w = true
  ↔ Has set w = true ∨ w ∈ verbs ∧ w ∈ VerbOrder.
Proof.
  revert set. induction verbs as [|v verbs IH]; intros set; cbn [foldl].
  { pose proof (not_elem_of_nil w). tauto. }
  rewrite IH, Has_add, elem_of_cons. intuition congruence.
Qed.

Lemma Has_NewVerbSet verbs w : Has (NewVerbSet verbs) w = true ↔ w ∈ verbs ∧ w ∈ VerbOrder.
Proof. unfold NewVerbSet. rewrite Has_NewVerbSet_from, Has_empty. intuition congruence. Qed.

Lemma elem_of_List s v : v ∈ List_ s ↔ Has s v = true.
Proof.
  unfold List_. rewrite list_elem_of_In, filter_In, <-list_elem_of_In.
  split; [tauto|]. intros H. split; [by eapply Has_known|done].
Qed.

Lemma ParseVerbs_loop_ok raw : ∀ seen set t,
  ParseVerbs_loop raw seen set = Done t →
  (∀ w, Has t w = true ↔ Has set w = true ∨ w ∈ raw)
  ∧ NoDup raw ∧ (∀ w, w ∈ raw → w ∈ VerbOrder ∧ w ∉ seen).
Proof.
  induction raw as [|r raw IH]; intros seen set t; simpl.
  - intros [= ->]. split_and!; [|constructor|by intros w ?%not_elem_of_nil].
    intros w. pose proof (not_elem_of_nil w). tauto.
  - destruct (mem r seen) eqn:Hm; [done|].
    assert (Hr : r ∉ seen) by (rewrite <-mem_spec; congruence).
    unfold ParseVerb. destruct (bit r) as [b|] eqn:Hb; simpl; [|done]. rewrite Hb.
    assert (Hk : r ∈ VerbOrder) by (apply dec_stable; by rewrite <-bit_None, Hb).
    intros (Ht & Hnd & Hin)%IH. split_and!.
    + intros w. rewrite Ht. pose proof (Has_add set r w) as Ha. rewrite Hb in Ha.
      rewrite Ha, elem_of_cons. intuition congruence.
    + constructor; [|done]. intros Hr'. apply Hin in Hr' as [_ Hr']. by apply Hr', list_elem_of_here.
    + intros w [->|Hw]%elem_of_cons; [done|].
      apply Hin in Hw as [? Hw]. split; [done|]. intros ?. by apply Hw, list_elem_of_further.
Qed.

(** The set is the one [NewVerbSet] makes, and the loop accepts what it may. *)
Lemma ParseVerbs_loop_value raw : ∀ seen set t,
  ParseVerbs_loop raw seen set = Done t →
  t = foldl (λ set v, match bit v with Some b => Z.lor set b | None => set end) set raw.
Proof.
  induction raw as [|r raw IH]; intros seen set t; simpl; [by intros [= ->]|].
  destruct (mem r seen); [done|]. unfold ParseVerb. destruct (bit r) eqn:Hb; simpl; [|done].
  rewrite Hb. apply IH.
Qed.

Lemma ParseVerbs_loop_accepts raw : ∀ seen set,
  NoDup raw → (∀ v, v ∈ seen → v ∉ raw) → (∀ v, v ∈ raw → v ∈ VerbOrder) →
  ParseVerbs_loop raw seen set
  = Done (foldl (λ set v, match bit v with Some b => Z.lor set b | None => set end) set raw).
Proof.
  induction raw as [|r raw IH]; intros seen set Hnd Hs Hk; simpl; [done|].
  apply NoDup_cons in Hnd as [Hr Hnd].
  destruct (mem r seen) eqn:Hm; [apply mem_spec, Hs in Hm; exfalso; apply Hm; left|].
  unfold ParseVerb. destruct (bit r) eqn:Hb; simpl.
  - rewrite Hb. apply IH; [done| |].
    + intros w [->|Hw]%elem_of_cons Hw'; [done|]. apply Hs in Hw. by apply Hw; right.
    + intros w Hw. apply Hk. by right.
  - apply bit_None in Hb. exfalso. apply Hb, Hk. left.
Qed.

(** What [ParseVerbs] accepts, and the set it makes of it. *)
Lemma ParseVerbs_Done raw t :
  ParseVerbs raw = Done t →
  raw ≠ [] ∧ NoDup raw ∧ (∀ w, w ∈ raw → w ∈ VerbOrder) ∧ (∀ w, Has t w = true ↔ w ∈ raw).
Proof.
  destruct raw as [|r raw]; [done|]. intros (Ht & Hnd & Hin)%ParseVerbs_loop_ok.
  split_and!; [done|done|apply Hin|]. intros w. rewrite Ht, Has_empty. intuition congruence.
Qed.

Lemma ParseVerbs_total raw : ParseVerbs raw ≠ OutOfFuel.
Proof.
  destruct raw as [|r raw]; [done|]. unfold ParseVerbs. generalize (r :: raw). clear.
  intros raw. generalize (@nil string), 0. induction raw as [|r raw IH]; intros seen set; simpl; [done|].
  case_match; [done|]. unfold ParseVerb. case_match; [|done]. apply IH.
Qed.

(** Sets of seven bits: the ones any operation of the program makes. *)
Definition all_sets : list VerbSet := map Z.of_nat (seq 0 128).

Lemma all_sets_spec s : 0 ≤ s < 128 → s ∈ all_sets.
Proof.
  intros Hs. unfold all_sets. apply list_elem_of_fmap. exists (Z.to_nat s).
  split; [lia|]. apply elem_of_seq. lia.
Qed.
