(* ===== verification/AuthIdentity.v ===== *)
(** * Identities and where they come from
    ([internal/auth/auth.go], [header.go], [oidc_identity.go], [reach.go])

    The shapes a principal, a group and a bearer credential must have, the
    identity a trusted proxy asserts, and the principals an identity provider
    can qualify. *)
From Stdlib Require Import ZArith Lia Ascii String.
From stdpp Require Import base gmap strings list.
From S2P Require Import Prelude GoStrings.
Local Open Scope Z_scope.

(** ** Constants and shapes *)

Inductive Mode := ModeOff | ModeOn.
Definition On (m : Mode) : bool := match m with ModeOn => true | ModeOff => false end.

Definition ParseMode (raw : string) : outcome string Mode :=
  if mem raw [""; "off"] then Done ModeOff
  else if String.eqb raw "on" then Done ModeOn
  else Fail raw.

Definition AdminPrincipal : string := "dolmen-admin".
Definition KeyPrefix : string := "dlm_".
Definition AdminKeySourceName : string := "admin-key".
Definition HeaderSourceName : string := "trusted-proxy".
Definition KeySourceName : string := "api-keys".
Definition OIDCSourceName : string := "oidc".
Definition DefaultMaxGroups : Z := 128.
Definition MinMaxGroups : Z := 1.
Definition MaxMaxGroups : Z := 1024.

Record Identity := MkIdentity { Principal : string; Groups : list string; Source : string }.
Definition no_identity : Identity := MkIdentity "" [] "".
Definition Identity_Empty (i : Identity) : bool := String.eqb (Principal i) "".

Definition byte_in (lo hi : Z) (c : ascii) : bool := in_range lo hi (byte_val c).

(** A pattern of the form [^[class]{lo,hi}$], with an ASCII class. *)
Definition shape (class : ascii → bool) (lo hi : Z) (s : string) : bool :=
  all_bytes class s && in_range lo hi (len s).

(** [[!-~]{1,256}] *)
Definition principalRe : string → bool := shape (byte_in 0x21 0x7E) 1 256.
(** [[\x21-\x2B\x2D-\x7E]{1,128}] *)
Definition group_byte (c : ascii) : bool := byte_in 0x21 0x2B c || byte_in 0x2D 0x7E c.
Definition groupRe : string → bool := shape group_byte 1 128.
(** [[A-Za-z0-9_-]] *)
Definition token_byte (c : ascii) : bool :=
  byte_in 65 90 c || byte_in 97 122 c || byte_in 48 57 c || Ascii.eqb c "_" || Ascii.eqb c "-".
Definition adminKeyRe : string → bool := shape token_byte 32 256.
Definition keyBodyRe : string → bool := shape token_byte 43 43.

Inductive key_error := AdminKeyPrefixed | AdminKeyShape.
Definition ValidateAdminKey (key : string) : outcome key_error () :=
  if has_prefix key KeyPrefix then Fail AdminKeyPrefixed
  else if negb (adminKeyRe key) then Fail AdminKeyShape
  else Done ().

Definition ValidateMaxGroups (n : Z) : bool := negb ((n <? MinMaxGroups) || (MaxMaxGroups <? n)).

Definition cut_prefix (s p : string) : option string :=
  if has_prefix s p then Some (str_drop (String.length p) s) else None.

Definition ValidateKeyShape (secret : string) : bool :=
  match cut_prefix secret KeyPrefix with Some body => keyBodyRe body | None => false end.

(** ** A request, as the sources read it *)

(** [strings.Split(s, ",")] of a header, the header's absence being "". *)
Record request := Request {
  rq_authorization : string; rq_principal : string; rq_groups : string; rq_peer : string }.

Section Sources.
Context {UT : UnicodeTables}.

Definition BearerToken (r : request) : option string :=
  let raw := rq_authorization r in
  if String.eqb raw "" then None
  else if (len raw <=? 7) || negb (equal_fold (str_take 7 raw) "bearer ") then None
  else Some (trim_space (str_drop 7 raw)).

(** [adminKeySource.Authenticate]; the comparison is in constant time. *)
Definition admin_authenticate (key : string) (r : request) : option Identity :=
  match BearerToken r with
  | Some token => if String.eqb token key then Some (MkIdentity AdminPrincipal [] AdminKeySourceName) else None
  | None => None
  end.

(** [parseGroups]: [seen] are the groups so far, also the output reversed. *)
Fixpoint parseGroups_loop (entries out : list string) (maxGroups : Z) : option (list string) :=
  match entries with
  | [] => Some out
  | entry :: entries =>
      let entry := trim_space entry in
      if String.eqb entry "" then parseGroups_loop entries out maxGroups
      else if negb (groupRe entry) then None
      else if mem entry out then parseGroups_loop entries out maxGroups
      else
        let out := out ++ [entry] in
        if maxGroups <? Z.of_nat (length out) then None
        else parseGroups_loop entries out maxGroups
  end.

Definition parseGroups (raw : string) (maxGroups : Z) : option (list string) :=
  if String.eqb raw "" then Some [] else parseGroups_loop (split raw ",") [] maxGroups.

(** [headerSource]: [contains] answers whether a configured range holds the
    peer's address, [None] when no range is configured. *)
Record headerSource := HeaderSource { h_trusted : option (string → bool); h_maxGroups : Z }.

Definition NewHeaderSource (trusted : option (string → bool)) (maxGroups : Z) : headerSource :=
  HeaderSource trusted (if maxGroups =? 0 then DefaultMaxGroups else maxGroups).

Definition header_authenticate (s : headerSource) (r : request) : option Identity :=
  match h_trusted s with
  | None => None
  | Some contains =>
      if negb (contains (rq_peer r)) then None
      else
        let principal := rq_principal r in
        if String.eqb principal "" then None
        else if negb (principalRe principal) || String.eqb principal AdminPrincipal then None
        else match parseGroups (rq_groups r) (h_maxGroups s) with
             | None => None
             | Some groups => Some (MkIdentity principal groups HeaderSourceName)
             end
  end.
End Sources.

(** ** Principals of an identity provider *)

Definition OIDCDigestLen : Z := 26.
Definition oidcQualifyPrefix : string := "oidc:v1:".

Inductive oidc_error := EmptyClaim | ClaimShape | ClaimReserved.

Definition QualifyOIDC (issuerDigest claim : string) : outcome oidc_error string :=
  if String.eqb claim "" then Fail EmptyClaim
  else
    let qualified := oidcQualifyPrefix +:+ issuerDigest +:+ ":" +:+ claim in
    if negb (principalRe qualified) then Fail ClaimShape
    else if String.eqb qualified AdminPrincipal then Fail ClaimReserved
    else Done qualified.

Definition QualifyOIDCGroup (issuerDigest claim : string) : outcome oidc_error string :=
  if String.eqb claim "" then Fail EmptyClaim
  else
    let qualified := oidcQualifyPrefix +:+ issuerDigest +:+ ":" +:+ claim in
    if negb (groupRe qualified) then Fail ClaimShape else Done qualified.

Definition IsOIDCQualified (id : string) : bool := has_prefix id oidcQualifyPrefix.

Definition OIDCIssuerOf (id : string) : option string :=
  match cut_prefix id oidcQualifyPrefix with
  | None => None
  | Some rest =>
      match cut rest ":" with
      | Some (digest, _) => if len digest =? OIDCDigestLen then Some digest else None
      | None => None
      end
  end.

(** ** [Reach]: which principals some enabled source could assert *)

Record Reach := MkReach { rc_Header : bool; rc_OIDC : bool; rc_OIDCIssuer : string }.

Definition PrincipalReachable (r : Reach) (id : string) : bool :=
  if rc_Header r then true
  else if rc_OIDC r then
    match OIDCIssuerOf id with Some digest => String.eqb digest (rc_OIDCIssuer r) | None => false end
  else false.

Definition Reach_Any (r : Reach) : bool := rc_Header r || rc_OIDC r.

(** ** Splitting and joining *)

Definition lacks (sep : ascii) (s : string) : Prop := any_byte (Ascii.eqb sep) s = false.

Lemma split_lacks sep s : lacks sep s → split s sep = [s].
Proof.
  unfold lacks. induction s as [|c s IH]; simpl; [done|].
  intros [Hc Hs]%orb_false_iff. rewrite Ascii.eqb_sym, Hc, IH by done. done.
Qed.

Lemma split_app sep w s : lacks sep w → split (w +:+ String sep s) sep = w :: split s sep.
Proof.
  unfold lacks. induction w as [|c w IH]; simpl.
  - by rewrite Ascii.eqb_refl.
  - intros [Hc Hs]%orb_false_iff. rewrite Ascii.eqb_sym, Hc, IH by done. done.
Qed.

(** [strings.Split] undoes [strings.Join] on parts without the separator. *)
Lemma split_join sep l :
  Forall (lacks sep) l → l ≠ [] → split (join (String sep "") l) sep = l.
Proof.
  induction 1 as [|w l Hw Hl IH]; [done|]. intros _. destruct l as [|w' l].
  - simpl. by apply split_lacks.
  - change (join (String sep "") (w :: w' :: l)) with (w +:+ String sep (join (String sep "") (w' :: l))).
    rewrite split_app by done. by rewrite IH.
Qed.

Lemma cut_app sep w s : lacks sep w → cut (w +:+ String sep s) sep = Some (w, s).
Proof.
  unfold lacks. induction w as [|c w IH]; simpl.
  - by rewrite Ascii.eqb_refl.
  - intros [Hc Hs]%orb_false_iff. rewrite Ascii.eqb_sym, Hc, IH by done. done.
Qed.

Lemma cut_prefix_app p s : cut_prefix (p +:+ s) p = Some s.
Proof.
  unfold cut_prefix. rewrite (proj2 (has_prefix_spec _ _)) by (by eexists). by rewrite str_drop_app.
Qed.

(** A group name has no comma and no byte outside the printable range. *)
Lemma groupRe_lacks g : groupRe g = true → lacks "," g.
Proof.
  unfold groupRe, shape, lacks. intros [Hb _]%andb_true_iff.
  induction g as [|c g IH]; cbn [any_byte all_bytes] in *; [done|]. apply andb_true_iff in Hb as [Hc Hg].
  rewrite IH, orb_false_r by done. apply Ascii.eqb_neq. intros <-. discriminate Hc.
Qed.

Lemma groupRe_nonempty g : groupRe g = true → g ≠ "".
Proof. intros H ->. done. Qed.

(** ** What [parseGroups] accepts *)

Lemma parseGroups_loop_ok {UT : UnicodeTables} entries out m groups :
  parseGroups_loop entries out m = Some groups →
  NoDup out → Forall (λ g, groupRe g = true) out → Z.of_nat (length out) ≤ m →
  NoDup groups ∧ Forall (λ g, groupRe g = true) groups ∧ Z.of_nat (length groups) ≤ m
  ∧ ∀ g, g ∈ groups ↔ g ∈ out ∨ g ≠ "" ∧ g ∈ map trim_space entries.
Proof.
  revert out. induction entries as [|e entries IH]; intros out; cbn [parseGroups_loop].
  { intros [= <-] ? ? ?. split_and!; [done..|]. set_solver. }
  destruct (String.eqb_spec (trim_space e) "") as [He|He].
  { intros H ? ? ?. destruct (IH _ H) as (? & ? & ? & Hin); [done..|]. split_and!; [done..|].
    intros g. rewrite Hin. simpl. rewrite elem_of_cons. naive_solver. }
  destruct (groupRe (trim_space e)) eqn:Hg; cbn [negb]; [|done].
  destruct (mem (trim_space e) out) eqn:Hm.
  { apply mem_spec in Hm. intros H ? ? ?. destruct (IH _ H) as (? & ? & ? & Hin); [done..|].
    split_and!; [done..|]. intros g. rewrite Hin. simpl. rewrite elem_of_cons. naive_solver. }
  assert (Hnew : trim_space e ∉ out) by (rewrite <-mem_spec; congruence).
  destruct (m <? _) eqn:Hlen; [done|]. apply Z.ltb_ge in Hlen.
  intros H Hnd Hall _. destruct (IH _ H) as (? & ? & ? & Hin); [|by apply Forall_app; auto|done|].
  { apply NoDup_app. split_and!; [done|set_solver|apply NoDup_singleton]. }
  split_and!; [done..|]. intros g. rewrite Hin, elem_of_app, list_elem_of_singleton. simpl.
  rewrite elem_of_cons. naive_solver.
Qed.

Lemma parseGroups_ok {UT : UnicodeTables} raw m groups :
  parseGroups raw m = Some groups → 0 ≤ m →
  NoDup groups ∧ Forall (λ g, groupRe g = true) groups ∧ Z.of_nat (length groups) ≤ m.
Proof.
  unfold parseGroups. destruct (String.eqb raw "").
  - intros [= <-] ?. split_and!; [constructor|constructor|done].
  - intros H Hm. apply parseGroups_loop_ok in H; [naive_solver|constructor|constructor|done].
Qed.

(** ** What the sources can yield *)

Lemma header_authenticate_ok {UT : UnicodeTables} s r id :
  header_authenticate s r = Some id →
  (∃ contains, h_trusted s = Some contains ∧ contains (rq_peer r) = true)
  ∧ principalRe (Principal id) = true ∧ Principal id ≠ AdminPrincipal ∧ Source id = HeaderSourceName
  ∧ parseGroups (rq_groups r) (h_maxGroups s) = Some (Groups id) ∧ Principal id = rq_principal r.
Proof.
  unfold header_authenticate. destruct (h_trusted s) as [contains|]; [|done].
  destruct (contains (rq_peer r)) eqn:Hc; cbn [negb]; [|done].
  destruct (String.eqb (rq_principal r) ""); [done|].
  destruct (_ || _) eqn:Hp; [done|]. apply orb_false_iff in Hp as [Hp%negb_false_iff Ha%String.eqb_neq].
  destruct (parseGroups _ _) eqn:Hg; [|done]. intros [= <-]. simpl. split_and!; eauto.
Qed.

Lemma QualifyOIDC_ok d c q :
  QualifyOIDC d c = Done q →
  q = oidcQualifyPrefix +:+ d +:+ ":" +:+ c ∧ principalRe q = true ∧ q ≠ AdminPrincipal ∧ c ≠ "".
Proof.
  unfold QualifyOIDC. destruct (String.eqb_spec c ""); [done|].
  destruct (principalRe _) eqn:Hp; cbn [negb]; [|done].
  destruct (String.eqb _ AdminPrincipal) eqn:Ha; [done|]. apply String.eqb_neq in Ha. by intros [= <-].
Qed.

Lemma OIDCIssuerOf_qualified d c :
  len d = OIDCDigestLen → lacks ":" d → OIDCIssuerOf (oidcQualifyPrefix +:+ d +:+ ":" +:+ c) = Some d.
Proof.
  intros Hd Hl. unfold OIDCIssuerOf. rewrite cut_prefix_app.
  change (":" +:+ c) with (String ":" c). rewrite cut_app by done. by rewrite Hd.
Qed.
