(* ===== verification/AuthRegistry.v ===== *)
(** * The grant and key registry
    ([internal/auth/grants.go] and [keys.go])

    The SQLite file [_grants.db] as a state: the table [grants] keyed by
    subject and object, the table [api_keys] in insertion order.  Every
    statement the code sends may fail, which [faults] decides by its number;
    an operation is an action on this state.  The two clauses the code writes
    with LIKE go through the class [SqlLike]. *)
From Stdlib Require Import ZArith Lia Ascii String.
From stdpp Require Import base gmap strings list.
From S2P Require Import Prelude GoStrings AuthVerbs AuthIdentity.
Local Open Scope Z_scope.

(** ** Data *)

Definition SubjectPrincipal : string := "principal".
Definition SubjectGroup : string := "group".
Definition RootObject : string := "*".

Record Subject := MkSubject { S_Type : string; S_ID : string }.
Record Object_ := MkObject { Namespace : string; Table : string }.

#[global] Instance Subject_eq_dec : EqDecision Subject.
Proof. solve_decision. Defined.
#[global] Instance Object_eq_dec : EqDecision Object_.
Proof. solve_decision. Defined.
#[global] Instance Subject_countable : Countable Subject.
Proof. refine (inj_countable' (λ s, (S_Type s, S_ID s)) (λ p, MkSubject p.1 p.2) _). by intros []. Defined.
#[global] Instance Object_countable : Countable Object_.
Proof. refine (inj_countable' (λ s, (Namespace s, Table s)) (λ p, MkObject p.1 p.2) _). by intros []. Defined.

Record Grant := MkGrant { G_Subject : Subject; G_Object : Object_; G_Verbs : VerbSet; G_CreatedAt : Z }.

Definition Root (o : Object_) : bool := String.eqb (Namespace o) RootObject.

(** A stored timestamp; [None] is a text [time.Parse] refuses. *)
Definition stamp := option Z.

(** A row of [grants] under its key, and a row of [api_keys]. *)
Record grant_row := GrantRow { gr_verbs : Z; gr_created : stamp }.
Record key_row := KeyRow {
  kr_id : string; kr_hash : string; kr_name : string; kr_principal : string; kr_groups : string;
  kr_revoked : bool; kr_created : stamp; kr_expires : option stamp }.

Record registry := Registry {
  grants : gmap (Subject * Object_) grant_row; api_keys : list key_row; calls : nat }.

Definition set_grants (r : registry) g : registry := Registry g (api_keys r) (calls r).
Definition set_keys (r : registry) k : registry := Registry (grants r) k (calls r).

Inductive auth_error :=
| DBError (doing : string)
| BadStamp
| KeyExists
| ErrLastRootAdmin
| ErrLastRootKey.

Definition db (A : Type) := act registry auth_error A.

(** SQLite's [text LIKE pattern ESCAPE '\'], as its documentation states it
    for texts of ASCII characters: [%] matches any text, [_] any character,
    the character after the escape matches itself, and letters match without
    regard to case. *)
Definition ci_eq (a b : ascii) : bool := Ascii.eqb (ascii_lower_byte a) (ascii_lower_byte b).
Definition escape_char : ascii := ascii_of_N 92.
Class SqlLike := {
  like : string → string → bool;
  like_any t : like t "%" = true;
  like_char t c p :
    c ∉ ["%"%char; "_"%char; escape_char] →
    like t (String c p) = match t with String d t' => ci_eq c d && like t' p | EmptyString => false end;
  like_escaped t c p :
    like t (String escape_char (String c p))
    = match t with String d t' => ci_eq c d && like t' p | EmptyString => false end }.

Section Registry.
Context {SL : SqlLike} (faults : nat → bool).

(** One statement: it fails as a whole, or does [f]. *)
Definition stmt {A} (doing : string) (f : registry → A * registry) : db A :=
  λ r, let r' := Registry (grants r) (api_keys r) (S (calls r)) in
       if faults (calls r) then (Fail (DBError doing), r')
       else let '(a, r'') := f r' in (Done a, r'').

Definition of_outcome {A} (o : outcome auth_error A) : db A := λ r, (o, r).
#[global] Arguments of_outcome {_} _ _ /.

(** ** Grants *)

(** [likePrefix]. *)
Definition likePrefix (ns : string) : string :=
  join "" (map (λ r, (if mem (encode_rune r) [String escape_char ""; "%"; "_"]
                      then String escape_char "" else "") +:+ encode_rune r) (runes ns)) +:+ "/%".

(** [namespace = ? OR namespace LIKE ? ESCAPE '\']. *)
Definition under_ns (ns : string) (o : Object_) : bool :=
  String.eqb (Namespace o) ns || like (Namespace o) (likePrefix ns).

Fixpoint joins (segments acc : list string) : list Object_ :=
  match segments with
  | [] => []
  | s :: segments => MkObject (join "/" (acc ++ [s])) "" :: joins segments (acc ++ [s])
  end.

Definition coveringObjects (o : Object_) : list Object_ :=
  MkObject RootObject "" ::
  if Root o then []
  else joins (split (Namespace o) "/") []
       ++ (if String.eqb (Table o) "" then [] else [o]).

Definition subjectsFor (id : Identity) : list Subject :=
  MkSubject SubjectPrincipal (Principal id) :: map (MkSubject SubjectGroup) (Groups id).

Definition rows_of (r : registry) (p : Subject → Object_ → bool) : list (Subject * Object_ * grant_row) :=
  List.filter (λ x, p x.1.1 x.1.2) (map_to_list (grants r)).

Definition EffectiveVerbs (id : Identity) (obj : Object_) : db VerbSet :=
  stmt "resolve grants" (λ r,
    (foldl (λ union x, Z.lor union (to_VerbSet (gr_verbs x.2))) 0
       (rows_of r (λ s o, bool_decide (s ∈ subjectsFor id) && bool_decide (o ∈ coveringObjects obj))), r)).

(** A row as a [Grant]; its timestamp must parse. *)
Definition scan_grant (k : Subject * Object_) (row : grant_row) : outcome auth_error Grant :=
  match gr_created row with
  | Some at_ => Done (MkGrant k.1 k.2 (to_VerbSet (gr_verbs row)) at_)
  | None => Fail BadStamp
  end.

Definition lookup_grant (subj : Subject) (obj : Object_) : db (option Grant) :=
  do! row := stmt "read grant" (λ r, (grants r !! (subj, obj), r)) in
  match row with
  | None => aret None
  | Some row => do! g := of_outcome (scan_grant (subj, obj) row) in aret (Some g)
  end.

(** [Registry.Grant]; [now] is the clock when a new row is made. *)
Definition put_grant (subj : Subject) (obj : Object_) (verbs : VerbSet) (now : Z) : db Grant :=
  do! existing := lookup_grant subj obj in
  match existing with
  | Some g =>
      let merged := Z.lor (G_Verbs g) verbs in
      if negb (merged =? G_Verbs g) then
        do! _ := stmt "merge grant" (λ r, (tt, set_grants r
                   (alter (λ row, GrantRow merged (gr_created row)) (subj, obj) (grants r)))) in
        aret (MkGrant (G_Subject g) (G_Object g) merged (G_CreatedAt g))
      else aret g
  | None =>
      do! _ := stmt "store grant" (λ r, (tt, set_grants r
                 (<[(subj, obj) := GrantRow verbs (Some now)]> (grants r)))) in
      aret (MkGrant subj obj verbs now)
  end.

(** ** Keys *)

Record Key := MkKey {
  K_ID : string; K_Name : string; K_Principal : string; K_Groups : list string;
  K_Revoked : bool; K_CreatedAt : Z; K_ExpiresAt : option Z }.

(** [Key.Expired]: the zero time is no expiry. *)
Definition Expired (k : Key) (now : Z) : bool :=
  match K_ExpiresAt k with Some e => e <=? now | None => false end.

Definition encodeGroups (groups : list string) : string := join "," groups.
Definition decodeGroups (raw : string) : list string :=
  if String.eqb raw "" then [] else split raw ",".

Definition scanKey (row : key_row) : outcome auth_error Key :=
  match kr_created row with
  | None => Fail BadStamp
  | Some created =>
      let! expires := match kr_expires row with
                      | None => Done None
                      | Some None => Fail BadStamp
                      | Some (Some e) => Done (Some e)
                      end in
      Done (MkKey (kr_id row) (kr_name row) (kr_principal row) (decodeGroups (kr_groups row))
              (kr_revoked row) created expires)
  end.

Fixpoint scan_all (rows : list key_row) : outcome auth_error (list Key) :=
  match rows with
  | [] => Done []
  | row :: rows => let! k := scanKey row in let! ks := scan_all rows in Done (k :: ks)
  end.

Definition activeKeys (now : Z) : db (list Key) :=
  do! rows := stmt "read active keys" (λ r, (List.filter (λ k, negb (kr_revoked k)) (api_keys r), r)) in
  do! keys := of_outcome (scan_all rows) in
  aret (List.filter (λ k, negb (Expired k now)) keys).

(** The rows of [grants] on the root that hold admin. *)
Definition root_admins_of (r : registry) : list Subject :=
  map (λ x, x.1.1) (List.filter (λ x, Has (to_VerbSet (gr_verbs x.2)) VerbAdmin)
    (rows_of r (λ _ o, bool_decide (o = MkObject RootObject "")))).

Definition rootAdmins : db (list Subject) :=
  stmt "read root administrators" (λ r, (root_admins_of r, r)).

Definition key_bears (k : Key) (a : Subject) : bool :=
  (String.eqb (S_Type a) SubjectPrincipal && String.eqb (S_ID a) (K_Principal k))
  || (String.eqb (S_Type a) SubjectGroup && mem (S_ID a) (K_Groups k)).

Definition rootReachableByKey (admins : list Subject) (keys : list Key) (excludeKeyID : string) : bool :=
  existsb (λ k, negb (String.eqb (K_ID k) excludeKeyID) && existsb (key_bears k) admins) keys.

Definition principal_reachable (reach : Reach) (a : Subject) : bool :=
  String.eqb (S_Type a) SubjectPrincipal && PrincipalReachable reach (S_ID a).

Definition otherRootAdminRemains (revoked : Subject) (reach : Reach) (now : Z) : db bool :=
  do! admins := rootAdmins in
  let remaining := List.filter (λ a, negb (bool_decide (a = revoked))) admins in
  if bool_decide (remaining = []) then aret false
  else if existsb (principal_reachable reach) remaining then aret true
  else do! keys := activeKeys now in aret (rootReachableByKey remaining keys "").

(** [Registry.Revoke]: the grant left, if any, and the verbs removed. *)
Definition Revoke (subj : Subject) (obj : Object_) (verbs : VerbSet) (keepRootAdmin : bool)
    (reach : Reach) (now : Z) : db (option Grant * VerbSet) :=
  do! existing := lookup_grant subj obj in
  match existing with
  | None => aret (None, 0)
  | Some g =>
      let remaining := Z.ldiff (G_Verbs g) verbs in
      let removed := Z.land (G_Verbs g) verbs in
      if removed =? 0 then aret (Some g, 0)
      else
        do! _ := (if keepRootAdmin && Root obj && Has (G_Verbs g) VerbAdmin && negb (Has remaining VerbAdmin)
                  then do! ok := otherRootAdminRemains subj reach now in
                       if negb ok then afail ErrLastRootAdmin else aret tt
                  else aret tt) in
        if remaining =? 0 then
          do! _ := stmt "revoke grant" (λ r, (tt, set_grants r (delete (subj, obj) (grants r)))) in
          aret (None, removed)
        else
          do! _ := stmt "revoke grant" (λ r, (tt, set_grants r
                     (alter (λ row, GrantRow remaining (gr_created row)) (subj, obj) (grants r)))) in
          aret (Some (MkGrant (G_Subject g) (G_Object g) remaining (G_CreatedAt g)), removed)
  end.

Definition DropNamespace (ns : string) : db () :=
  stmt "drop grants for namespace" (λ r, (tt, set_grants r
    (filter (λ x, under_ns ns x.1.2 = false) (grants r)))).

Definition DropTable (ns table : string) : db () :=
  stmt "drop grants for table" (λ r, (tt, set_grants r
    (filter (λ x, x.1.2 ≠ MkObject ns table) (grants r)))).

(** ** Reading grants *)

Definition grant_ltb (a b : Grant) : bool :=
  if negb (String.eqb (S_Type (G_Subject a)) (S_Type (G_Subject b)))
  then str_ltb (S_Type (G_Subject a)) (S_Type (G_Subject b))
  else if negb (String.eqb (S_ID (G_Subject a)) (S_ID (G_Subject b)))
  then str_ltb (S_ID (G_Subject a)) (S_ID (G_Subject b))
  else if negb (String.eqb (Namespace (G_Object a)) (Namespace (G_Object b)))
  then str_ltb (Namespace (G_Object a)) (Namespace (G_Object b))
  else str_ltb (Table (G_Object a)) (Table (G_Object b)).

(** [sortGrants], a stable sort: an element goes after its equals. *)
Fixpoint insert_grant (g : Grant) (l : list Grant) : list Grant :=
  match l with
  | [] => [g]
  | h :: l' => if grant_ltb h g then h :: insert_grant g l' else g :: l
  end.
Definition sortGrants (l : list Grant) : list Grant := foldr insert_grant [] l.

Fixpoint scan_grants (rows : list (Subject * Object_ * grant_row)) : outcome auth_error (list Grant) :=
  match rows with
  | [] => Done []
  | x :: rows => let! g := scan_grant x.1 x.2 in let! gs := scan_grants rows in Done (g :: gs)
  end.

(** The WHERE clause of [List]. *)
Definition listed (subj : option Subject) (obj : option Object_) (s : Subject) (o : Object_) : bool :=
  match subj with Some s' => bool_decide (s = s') | None => true end
  && match obj with
     | Some o' =>
         if Root o' then true
         else if negb (String.eqb (Table o') "") then bool_decide (o = o')
         else under_ns (Namespace o') o
     | None => true
     end.

Definition List_grants (subj : option Subject) (obj : option Object_) : db (list Grant) :=
  do! rows := stmt "list grants" (λ r, (rows_of r (listed subj obj), r)) in
  do! out := of_outcome (scan_grants rows) in
  aret (sortGrants out).

Fixpoint held_by (subjects : list Subject) : db (list Grant) :=
  match subjects with
  | [] => aret []
  | s :: subjects =>
      do! grants := List_grants (Some s) None in
      do! rest := held_by subjects in
      aret (grants ++ rest)
  end.
Definition HeldBy (id : Identity) : db (list Grant) := held_by (subjectsFor id).

Definition NamespacesWithAnyGrant (id : Identity) : db (gset string) :=
  stmt "list granted namespaces" (λ r,
    (list_to_set (map (λ x, Namespace x.1.2)
       (rows_of r (λ s _, bool_decide (s ∈ subjectsFor id)))), r)).

(** ** The life of a key *)

Inductive name_error := NameRequired | NameTooLong (n : Z) | NameControl.
Definition MaxKeyName : Z := 128.
Definition ValidateKeyName (name : string) : outcome name_error () :=
  if String.eqb name "" then Fail NameRequired
  else if MaxKeyName <? len name then Fail (NameTooLong (len name))
  else if any_byte (λ c, (byte_val c =? 0) || (byte_val c =? 10) || (byte_val c =? 13)) name then Fail NameControl
  else Done ().

Inductive identity_error :=
| PrincipalRequired | PrincipalReserved | PrincipalShape | TooManyGroups (n max : Z)
| GroupShape (g : string) | GroupTwice (g : string).

Fixpoint check_groups (groups seen : list string) : outcome identity_error () :=
  match groups with
  | [] => Done ()
  | g :: groups =>
      if negb (groupRe g) then Fail (GroupShape g)
      else if mem g seen then Fail (GroupTwice g)
      else check_groups groups (g :: seen)
  end.

Definition ValidateKeyIdentity (principal : string) (groups : list string) (maxGroups : Z) : outcome identity_error () :=
  if String.eqb principal "" then Fail PrincipalRequired
  else if String.eqb principal AdminPrincipal then Fail PrincipalReserved
  else if negb (principalRe principal) then Fail PrincipalShape
  else
    let maxGroups := if maxGroups <=? 0 then DefaultMaxGroups else maxGroups in
    if maxGroups <? Z.of_nat (length groups) then Fail (TooManyGroups (Z.of_nat (length groups)) maxGroups)
    else check_groups groups [].

(** [Subject.Valid]. *)
Inductive subject_error := SubjectTypeUnknown | SubjectGroupShape | SubjectPrincipalShape | SubjectReserved.
Definition Valid (s : Subject) : outcome subject_error () :=
  if negb (mem (S_Type s) [SubjectPrincipal; SubjectGroup]) then Fail SubjectTypeUnknown
  else if String.eqb (S_Type s) SubjectGroup then
    if negb (groupRe (S_ID s)) then Fail SubjectGroupShape else Done ()
  else if negb (principalRe (S_ID s)) then Fail SubjectPrincipalShape
  else if String.eqb (S_ID s) AdminPrincipal then Fail SubjectReserved
  else Done ().

(** [MintKey], from the random bytes it draws. *)
Definition MintKey (body id : list Z) : string * string := (KeyPrefix +:+ b64url body, hex_encode id).

Section Keys.
(** [hashKey]: SHA-256 in hexadecimal. *)
Variable hashKey : string → string.

(** The zero [expiresAt] is [None]. *)
Definition CreateKeyExpiring (body id : list Z) (name principal : string) (groups : list string)
    (expiresAt : option Z) (now : Z) : db (Key * string) :=
  let '(secret, id) := MintKey body id in
  do! fresh := stmt "store key" (λ r,
    let clash := existsb (λ k, String.eqb (kr_id k) id || String.eqb (kr_hash k) (hashKey secret)) (api_keys r) in
    if clash then (false, r)
    else (true, set_keys r (api_keys r ++
            [KeyRow id (hashKey secret) name principal (encodeGroups groups) false (Some now)
               (match expiresAt with Some e => Some (Some e) | None => None end)]))) in
  if fresh then aret (MkKey id name principal groups false now expiresAt, secret) else afail KeyExists.

Definition keyByID (id : string) : db (option Key) :=
  do! row := stmt "read key" (λ r, (find (λ k, String.eqb (kr_id k) id) (api_keys r), r)) in
  match row with
  | None => aret None
  | Some row => do! k := of_outcome (scanKey row) in aret (Some k)
  end.

Definition rootReachableWithout (excludeKeyID : string) (reach : Reach) (now : Z) : db bool :=
  do! admins := rootAdmins in
  if bool_decide (admins = []) then aret true
  else if existsb (principal_reachable reach) admins then aret true
  else do! keys := activeKeys now in aret (rootReachableByKey admins keys excludeKeyID).

Definition revoke_row (row : key_row) : key_row :=
  KeyRow (kr_id row) (kr_hash row) (kr_name row) (kr_principal row) (kr_groups row) true
    (kr_created row) (kr_expires row).

(** [Registry.RevokeKey]: the key, if there is one, and whether this call
    revoked it. *)
Definition RevokeKey (id : string) (keepRootAdmin : bool) (reach : Reach) (now : Z) : db (option Key * bool) :=
  do! found := keyByID id in
  match found with
  | None => aret (None, false)
  | Some k =>
      if K_Revoked k then aret (Some k, false)
      else
        do! _ := (if keepRootAdmin
                  then do! reachable := rootReachableWithout id reach now in
                       if negb reachable then afail ErrLastRootKey else aret tt
                  else aret tt) in
        do! _ := stmt "revoke key" (λ r, (tt, set_keys r
                   (map (λ row, if String.eqb (kr_id row) id then revoke_row row else row) (api_keys r)))) in
        aret (Some (MkKey (K_ID k) (K_Name k) (K_Principal k) (K_Groups k) true (K_CreatedAt k) (K_ExpiresAt k)), true)
  end.

(** The scan of [keyByHash]: each row is read before its hash is compared. *)
Fixpoint find_hash (rows : list key_row) (hash : string) : outcome auth_error (option Key) :=
  match rows with
  | [] => Done None
  | row :: rows =>
      let! k := scanKey row in
      if String.eqb (kr_hash row) hash then Done (Some k) else find_hash rows hash
  end.

Definition keyByHash (hash : string) : db (option Key) :=
  do! rows := stmt "read keys" (λ r, (api_keys r, r)) in of_outcome (find_hash rows hash).

(** [keySource.Authenticate], for a bearer token; an error is a refusal. *)
Definition key_authenticate (now : Z) (token : string) (r : registry) : option Identity * registry :=
  if negb (ValidateKeyShape token) then (None, r)
  else match keyByHash (hashKey token) r with
       | (Done (Some k), r') =>
           (if K_Revoked k || Expired k now then None
            else Some (MkIdentity (K_Principal k) (K_Groups k) KeySourceName), r')
       | (_, r') => (None, r')
       end.

Definition SubjectReachable (subj : Subject) (reach : Reach) (now : Z) : db bool :=
  if String.eqb (S_Type subj) SubjectPrincipal && PrincipalReachable reach (S_ID subj) then aret true
  else if String.eqb (S_Type subj) SubjectGroup && PrincipalReachable reach (S_ID subj) then aret true
  else do! keys := activeKeys now in aret (rootReachableByKey [subj] keys "").
End Keys.
End Registry.
