(* ===== verification/Authenticator.v ===== *)
(** * The authenticator ([internal/auth/authenticator.go] and [token.go])

    Which source answers for a request, the tokens a deployment signs and
    verifies, the keyring it refreshes, and the check at startup that somebody
    can administer the deployment.  Signatures, JSON and the decoding of
    base64 are the class [TokenCodec]. *)
From Stdlib Require Import ZArith Lia Ascii String.
From stdpp Require Import base gmap strings list.
From S2P Require Import Prelude GoStrings AuthVerbs AuthIdentity AuthRegistry.
Local Open Scope Z_scope.

(** ** Tokens *)

Definition TokenType : string := "dolmen-token".
Definition TokenAlg : string := "EdDSA".
Definition TokenVersion : Z := 1.
Definition second : Z := 10 ^ 9.
Definition hour : Z := 3600 * second.
Definition MinTokenTTL : Z := hour.
Definition MaxTokenTTL : Z := 720 * hour.
Definition ValidateTokenTTL (d : Z) : bool := negb ((d <? MinTokenTTL) || (MaxTokenTTL <? d)).
(** [Time.Unix] of a time in nanoseconds. *)
Definition Unix (t : Z) : Z := t / second.

Record tokenHeader := TokenHeader { th_typ : string; th_alg : string; th_kid : string }.
Record tokenClaims := TokenClaims {
  tc_v : Z; tc_iss : string; tc_sub : string; tc_grp : list string; tc_iat : Z; tc_exp : Z }.

(** Ed25519 signatures, the JSON of the two parts, and base64 decoding. *)
Class TokenCodec := {
  PublicKey : Type; PrivateKey : Type;
  public_of : PrivateKey → PublicKey;
  sign : PrivateKey → string → string;
  verify : PublicKey → string → string → bool;
  encode_header : tokenHeader → string; decode_header : string → option tokenHeader;
  encode_claims : tokenClaims → string; decode_claims : string → option tokenClaims;
  b64 : string → string; b64_decode : string → option string }.

(** Their documented behaviour: what is signed verifies, what is encoded
    decodes, and the alphabet of base64 has no dot. *)
Class TokenCodecLaws `{TokenCodec} := {
  verify_sign k m : verify (public_of k) m (sign k m) = true;
  decode_encode_header h : decode_header (encode_header h) = Some h;
  decode_encode_claims c : decode_claims (encode_claims c) = Some c;
  b64_decode_b64 s : b64_decode (b64 s) = Some s;
  b64_no_dot s : lacks "." (b64 s) }.

Inductive tokenError := ErrTokenInvalid.

Section Tokens.
Context {TC : TokenCodec}.

Record SigningKey := MkSigningKey {
  sk_ID : string; sk_Private : option PrivateKey; sk_Public : option PublicKey; sk_Retired : bool }.
Record Keyring := MkKeyring { k_Deployment : string; k_Active : SigningKey; k_Verify : list SigningKey }.

Definition usable (kid : string) (k : SigningKey) : option PublicKey :=
  if String.eqb (sk_ID k) kid then sk_Public k else None.

Fixpoint first_usable (kid : string) (ks : list SigningKey) : option PublicKey :=
  match ks with
  | [] => None
  | k :: ks => match usable kid k with Some pub => Some pub | None => first_usable kid ks end
  end.

Definition publicKeyFor (k : Keyring) (kid : string) : option PublicKey :=
  first_usable kid (k_Active k :: k_Verify k).

(** [MintToken]; the active key of a ring that signs has a private part. *)
Definition MintToken (k : Keyring) (private : PrivateKey) (principal : string) (groups : list string)
    (ttl now : Z) : option string :=
  if String.eqb (k_Deployment k) "" then None
  else
    let header := encode_header (TokenHeader TokenType TokenAlg (sk_ID (k_Active k))) in
    let claims := encode_claims (TokenClaims TokenVersion (k_Deployment k) principal groups
                                   (Unix now) (Unix (now + ttl))) in
    let signing := b64 header +:+ "." +:+ b64 claims in
    Some (signing +:+ "." +:+ b64 (sign private signing)).

(** [strings.Count(bearer, ".") == 2]. *)
Fixpoint count_byte (c : ascii) (s : string) : Z :=
  match s with EmptyString => 0 | String d s => (if Ascii.eqb c d then 1 else 0) + count_byte c s end.
Definition LooksLikeToken (bearer : string) : bool := count_byte "." bearer =? 2.

Definition check {A} (b : bool) (k : outcome tokenError A) : outcome tokenError A :=
  if b then k else Fail ErrTokenInvalid.
Definition need {A B} (o : option A) (k : A → outcome tokenError B) : outcome tokenError B :=
  match o with Some a => k a | None => Fail ErrTokenInvalid end.

Definition VerifyToken (k : Keyring) (token : string) (now : Z) : outcome tokenError Identity :=
  match split token "." with
  | [part0; part1; part2] =>
      need (b64_decode part0) (λ rawHeader,
      need (decode_header rawHeader) (λ h,
      check (String.eqb (th_typ h) TokenType && String.eqb (th_alg h) TokenAlg)
      (need (publicKeyFor k (th_kid h)) (λ pub,
      need (b64_decode part2) (λ sig,
      check (verify pub (part0 +:+ "." +:+ part1) sig)
      (need (b64_decode part1) (λ rawClaims,
      need (decode_claims rawClaims) (λ c,
      check (tc_v c =? TokenVersion)
      (check (String.eqb (tc_iss c) (k_Deployment k))
      (check (negb (tc_exp c <=? Unix now))
      (check (negb (String.eqb (tc_sub c) "" || String.eqb (tc_sub c) AdminPrincipal
                    || negb (principalRe (tc_sub c))))
      (check (forallb groupRe (tc_grp c))
      (Done (MkIdentity (tc_sub c) (tc_grp c) OIDCSourceName))))))))))))))
  | _ => Fail ErrTokenInvalid
  end.

(** ** The keyring and its refresh *)

(** The times are readings of [now]; [ts_every] is zero without a loader. *)
Record tokenSource := TokenSource {
  ts_ring : Keyring; ts_loadedAt : Z; ts_gen : Z; ts_every : Z }.

(** The first critical section of [keyring]: serve the ring held, or go and
    load a fresh one, remembering the generation. *)
Definition keyring_begin (t : tokenSource) (now : Z) : Keyring + Z :=
  if (ts_every t <=? 0) || (now - ts_loadedAt t <? ts_every t) then inl (ts_ring t) else inr (ts_gen t).

(** The second, with what was loaded: [None] when loading failed. *)
Definition keyring_commit (t : tokenSource) (before : Keyring) (gen : Z) (fresh : option Keyring) (now : Z)
    : Keyring * tokenSource :=
  match fresh with
  | None => (before, t)
  | Some fresh =>
      if negb (ts_gen t =? gen) then (ts_ring t, t)
      else (fresh, TokenSource fresh now (ts_gen t + 1) (ts_every t))
  end.

Definition replace_ring (t : tokenSource) (ring : Keyring) (now : Z) : tokenSource :=
  TokenSource ring now (ts_gen t + 1) (ts_every t).

Definition DefaultKeyringRefresh : Z := 30 * second.
Definition RefreshTokensFrom (t : tokenSource) (every : Z) : tokenSource :=
  TokenSource (ts_ring t) (ts_loadedAt t) (ts_gen t) (if every <=? 0 then DefaultKeyringRefresh else every).

(** ** The authenticator *)

(** [a_keys]: whether a registry is attached. *)
Record Authenticator := MkAuthenticator {
  a_mode : Mode; a_admin : option string; a_header : option headerSource; a_keys : bool;
  a_tokens : option tokenSource; a_oidcIssuer : string; a_maxGroups : Z }.

Definition AdminKeyConfigured (a : Authenticator) : bool := bool_decide (is_Some (a_admin a)).
Definition HeaderSourceEnabled (a : Authenticator) : bool := match a_header a with Some _ => true | None => false end.
Definition KeySourceEnabled (a : Authenticator) : bool := a_keys a.
Definition OIDCEnabled (a : Authenticator) : bool := match a_tokens a with Some _ => true | None => false end.
Definition reach_of (a : Authenticator) : Reach :=
  MkReach (HeaderSourceEnabled a) (OIDCEnabled a) (a_oidcIssuer a).

Record Config := MkConfig {
  cf_Mode : Mode; cf_AdminKey : string; cf_TrustedProxies : option (string → bool);
  cf_MaxGroups : Z; cf_Stdio : bool }.

Inductive config_error := BadAdminKey (e : key_error) | BadMaxGroups | StdioWithAuth.

Definition New (cfg : Config) : outcome config_error Authenticator :=
  let! admin := (if String.eqb (cf_AdminKey cfg) "" then Done None
                 else match ValidateAdminKey (cf_AdminKey cfg) with
                      | Fail e => Fail (BadAdminKey e)
                      | _ => Done (Some (cf_AdminKey cfg))
                      end) in
  if negb (cf_MaxGroups cfg =? 0) && negb (ValidateMaxGroups (cf_MaxGroups cfg)) then Fail BadMaxGroups
  else
    let header := match cf_TrustedProxies cfg with
                  | Some contains => Some (NewHeaderSource (Some contains) (cf_MaxGroups cfg))
                  | None => None
                  end in
    let a := MkAuthenticator (cf_Mode cfg) admin header false None "" (cf_MaxGroups cfg) in
    if negb (On (cf_Mode cfg)) then Done a
    else if cf_Stdio cfg then Fail StdioWithAuth
    else Done a.

(** The only error of [Authenticate]. *)
Inductive unauthorized := Unauthorized.

Section Authenticate.
Context {UT : UnicodeTables} (faults : nat → bool) (hashKey : string → string).

(** [ring] is what [keyring] answers for this request. *)
Definition Authenticate (a : Authenticator) (ring : Keyring) (now : Z) (r : request) (reg : registry)
    : outcome unauthorized Identity * registry :=
  if negb (On (a_mode a)) then (Done no_identity, reg)
  else match BearerToken r with
  | None =>
      match a_header a with
      | Some h => match header_authenticate h r with
                  | Some id => (Done id, reg)
                  | None => (Fail Unauthorized, reg)
                  end
      | None => (Fail Unauthorized, reg)
      end
  | Some token =>
      if has_prefix token KeyPrefix then
        if negb (a_keys a) then (Fail Unauthorized, reg)
        else match key_authenticate faults hashKey now token reg with
             | (Some id, reg') => (Done id, reg')
             | (None, reg') => (Fail Unauthorized, reg')
             end
      else if LooksLikeToken token then
        match a_tokens a with
        | None => (Fail Unauthorized, reg)
        | Some _ => match VerifyToken ring token now with
                    | Done id => (Done id, reg)
                    | _ => (Fail Unauthorized, reg)
                    end
        end
      else match a_admin a with
      | None => (Fail Unauthorized, reg)
      | Some key => match admin_authenticate key r with
                    | Some id => (Done id, reg)
                    | None => (Fail Unauthorized, reg)
                    end
      end
  end.

(** ** The check at startup *)

Inductive startup_error :=
| NoIdentitySource | NoRootAdministrator
| OtherIssuer (id : string) | OnlyGroup (id : string) | NotReachable
| StartupDB (e : auth_error).

Definition other_issuer (a : Authenticator) (s : Subject) : bool :=
  match OIDCIssuerOf (S_ID s) with
  | Some digest => negb (String.eqb digest (a_oidcIssuer a))
  | None => false
  end.

Definition CheckRootAdministrator (a : Authenticator) (now : Z) : registry → outcome startup_error () := λ reg,
  if negb (On (a_mode a)) || AdminKeyConfigured a then Done ()
  else if negb (HeaderSourceEnabled a) && negb (KeySourceEnabled a) && negb (OIDCEnabled a)
  then Fail NoIdentitySource
  else match rootAdmins faults reg with
  | (Fail e, _) => Fail (StartupDB e)
  | (OutOfFuel, _) => OutOfFuel
  | (Done admins, reg) =>
      if bool_decide (admins = []) then Fail NoRootAdministrator
      else if existsb (principal_reachable (reach_of a)) admins then Done ()
      else
        let! by_key := (if KeySourceEnabled a
                        then match activeKeys faults now reg with
                             | (Done keys, _) => Done (rootReachableByKey admins keys "")
                             | (Fail e, _) => Fail (StartupDB e)
                             | (OutOfFuel, _) => OutOfFuel
                             end
                        else Done false) in
        if by_key then Done ()
        else match (if OIDCEnabled a then find (other_issuer a) admins else None) with
        | Some s => Fail (OtherIssuer (S_ID s))
        | None => match find (λ s, String.eqb (S_Type s) SubjectGroup) admins with
                  | Some s => Fail (OnlyGroup (S_ID s))
                  | None => Fail NotReachable
                  end
        end
  end.
End Authenticate.
End Tokens.
