(* ===== verification/AuthFacts.v ===== *)
(** * Facts about the registry

    The registry read as an access relation: which subject holds which verb on
    which object.  Each operation's effect on the relation, the objects that
    cover an object, and the administrators a deployment keeps. *)
From Stdlib Require Import ZArith Lia Ascii String.
From stdpp Require Import base gmap strings list.
From S2P Require Import Prelude GoStrings AuthVerbs AuthIdentity AuthRegistry.
Local Open Scope Z_scope.

(** ** The access relation *)

Definition holds (r : registry) (s : Subject) (o : Object_) (v : Verb) : Prop :=
  ∃ row, grants r !! (s, o) = Some row ∧ Has (to_VerbSet (gr_verbs row)) v = true.

(** What an identity may do: through one of its subjects, on an object that
    covers the one asked about. *)
Definition effective (r : registry) (id : Identity) (obj : Object_) (v : Verb) : Prop :=
  ∃ s o, s ∈ subjectsFor id ∧ o ∈ coveringObjects obj ∧ holds r s o v.

(** The stored integers are bytes. *)
Definition bytes_ok (r : registry) : Prop :=
  ∀ k row, grants r !! k = Some row → 0 ≤ gr_verbs row < 256.

Lemma to_VerbSet_id v : 0 ≤ v < 256 → to_VerbSet v = v.
Proof. intros H. unfold to_VerbSet. by apply Z.mod_small. Qed.

Lemma byte_bits v : 0 ≤ v < 256 ↔ 0 ≤ v ∧ ∀ n, 8 ≤ n → Z.testbit v n = false.
Proof.
  split.
  - intros [H0 H1]. split; [done|]. intros n Hn. destruct (decide (v = 0)) as [->|]; [apply Z.bits_0|].
    apply Z.bits_above_log2; [done|]. assert (Z.log2 v < 8) by (apply Z.log2_lt_pow2; lia). lia.
  - intros [H0 Hb]. split; [done|]. change 256 with (2 ^ 8).
    destruct (decide (v = 0)) as [->|]; [lia|]. apply Z.log2_lt_pow2; [lia|].
    destruct (decide (Z.log2 v < 8)); [done|]. specialize (Hb (Z.log2 v) ltac:(lia)).
    rewrite Z.bit_log2 in Hb by lia. done.
Qed.

Lemma byte_lor a b : 0 ≤ a < 256 → 0 ≤ b < 256 → 0 ≤ Z.lor a b < 256.
Proof.
  rewrite !byte_bits. intros [Ha Ba] [Hb Bb]. split; [by apply Z.lor_nonneg|].
  intros n Hn. by rewrite Z.lor_spec, Ba, Bb.
Qed.

Lemma byte_ldiff a b : 0 ≤ a < 256 → 0 ≤ Z.ldiff a b < 256.
Proof.
  rewrite !byte_bits. intros [Ha Ba]. split; [apply Z.ldiff_nonneg; auto|].
  intros n Hn. by rewrite Z.ldiff_spec, Ba.
Qed.

(** ** Rows *)

(** A condition on every row, evaluated. *)
Lemma rows_forallb (r : registry) (P : Subject * Object_ → grant_row → bool) :
  forallb (λ x, P x.1 x.2) (map_to_list (grants r)) = true →
  ∀ k row, grants r !! k = Some row → P k row = true.
Proof.
  rewrite forallb_forall. intros H k row Hk%elem_of_map_to_list%list_elem_of_In. exact (H _ Hk).
Qed.

Lemma elem_of_rows r p s o row :
  (s, o, row) ∈ rows_of r p ↔ grants r !! (s, o) = Some row ∧ p s o = true.
Proof.
  unfold rows_of. rewrite list_elem_of_In, filter_In, <-list_elem_of_In, elem_of_map_to_list. done.
Qed.

Lemma Has_fold rows u v :
  Has (foldl (λ (union : VerbSet) (x : Subject * Object_ * grant_row), Z.lor union (to_VerbSet (gr_verbs x.2))) u rows) v = true
  ↔ Has u v = true ∨ ∃ x, x ∈ rows ∧ Has (to_VerbSet (gr_verbs x.2)) v = true.
Proof.
  revert u. induction rows as [|x rows IH]; intros u; simpl.
  - split; [tauto|]. intros [?|(x & Hx & _)]; [done|]. by apply not_elem_of_nil in Hx.
  - rewrite IH, Has_union, orb_true_iff. setoid_rewrite elem_of_cons. naive_solver.
Qed.

Section Facts.
Context {SL : SqlLike} (faults : nat → bool).

Lemma stmt_Done {A} doing (f : registry → A * registry) r a r' :
  stmt faults doing f r = (Done a, r') → f (Registry (grants r) (api_keys r) (S (calls r))) = (a, r').
Proof. unfold stmt. destruct (faults _); [done|]. destruct (f _). by intros [= -> ->]. Qed.

Lemma stmt_Fail {A} doing (f : registry → A * registry) r e r' :
  stmt faults doing f r = (Fail e, r') → grants r' = grants r ∧ api_keys r' = api_keys r.
Proof. unfold stmt. destruct (faults _); [by intros [= _ <-]|]. by destruct (f _). Qed.

Lemma EffectiveVerbs_ok id obj r vs r' :
  EffectiveVerbs faults id obj r = (Done vs, r') →
  grants r' = grants r ∧ api_keys r' = api_keys r ∧ ∀ v, Has vs v = true ↔ effective r id obj v.
Proof.
  intros H%stmt_Done. simplify_eq/=. split_and!; [done|done|]. intros v.
  rewrite Has_fold, Has_empty. unfold effective, holds. split.
  - intros [?|([[s o] row] & Hx & Hv)]; [done|]. apply elem_of_rows in Hx as [Hg Hp].
    apply andb_true_iff in Hp as [?%bool_decide_eq_true ?%bool_decide_eq_true]. eauto 10.
  - intros (s & o & Hs & Ho & row & Hg & Hv). right. exists (s, o, row). split; [|done].
    apply elem_of_rows. split; [done|]. by rewrite !bool_decide_true.
Qed.

(** ** Reading one grant *)

Lemma lookup_grant_ok s o r g r' :
  lookup_grant faults s o r = (Done g, r') →
  grants r' = grants r ∧ api_keys r' = api_keys r
  ∧ match g with
    | None => grants r !! (s, o) = None
    | Some g => ∃ row, grants r !! (s, o) = Some row ∧ G_Verbs g = to_VerbSet (gr_verbs row)
                       ∧ gr_created row = Some (G_CreatedAt g) ∧ G_Subject g = s ∧ G_Object g = o
    end.
Proof.
  unfold lookup_grant. intros (row & r1 & H1%stmt_Done & H2)%abind_Done. simplify_eq/=.
  destruct (grants r !! (s, o)) as [row|] eqn:Hg; [|by simplify_eq/=].
  apply abind_Done in H2 as (g' & r2 & H2 & H3). unfold of_outcome, scan_grant in H2.
  destruct (gr_created row) eqn:Hc; simplify_eq/=. split_and!; [done|done|]. eauto 10.
Qed.

Lemma lookup_grant_Fail s o r e r' :
  lookup_grant faults s o r = (Fail e, r') → grants r' = grants r ∧ api_keys r' = api_keys r.
Proof.
  unfold lookup_grant, abind. destruct (stmt _ _ _ r) as [[row|e'|] r1] eqn:H1.
  - apply stmt_Done in H1. simplify_eq/=. destruct (grants r !! (s, o)) as [row|]; [|done].
    unfold of_outcome. destruct (scan_grant _ row); by intros [= _ <-].
  - intros [= _ <-]. by eapply stmt_Fail.
  - done.
Qed.

(** ** The effect of [Grant] *)

Lemma put_grant_ok s o vs now r g r' :
  put_grant faults s o vs now r = (Done g, r') → bytes_ok r → 0 ≤ vs < 256 →
  bytes_ok r' ∧ api_keys r' = api_keys r
  ∧ (∀ k, k ≠ (s, o) → grants r' !! k = grants r !! k)
  ∧ ∃ row, grants r' !! (s, o) = Some row ∧ gr_created row = Some (G_CreatedAt g)
    ∧ gr_verbs row = G_Verbs g
    ∧ G_Verbs g = Z.lor (from_option gr_verbs 0 (grants r !! (s, o))) vs.
Proof.
  intros H Hb Hvs. unfold put_grant in H.
  apply abind_Done in H as (ex & r1 & (Hg1 & Hk1 & Hex)%lookup_grant_ok & H).
  destruct ex as [g0|].
  - destruct Hex as (row & Hrow & Hv & Hc & _ & _). pose proof (Hb _ _ Hrow) as Hr.
    rewrite to_VerbSet_id in Hv by done. rewrite Hrow. simpl.
    destruct (Z.lor (G_Verbs g0) vs =? G_Verbs g0) eqn:Heq; cbn [negb] in H.
    + apply Z.eqb_eq in Heq. simplify_eq/=. unfold bytes_ok. rewrite Hg1.
      split_and!; [done|done|done|]. exists row. split_and!; [done|done|done|]. by rewrite <-Hv.
    + apply abind_Done in H as ([] & r2 & H2%stmt_Done & H3). simplify_eq/=. rewrite Hg1.
      split_and!; [|done| |].
      * intros k row'. simpl. destruct (decide (k = (s, o))) as [->|].
        -- rewrite lookup_alter_eq, Hrow. intros [= <-]. simpl. apply byte_lor; [by rewrite Hv|done].
        -- rewrite lookup_alter_ne by done. apply Hb.
      * intros k Hk. by rewrite lookup_alter_ne.
      * exists (GrantRow (Z.lor (G_Verbs g0) vs) (gr_created row)). rewrite lookup_alter_eq, Hrow. simpl.
        split_and!; [done|done|done|by rewrite Hv].
  - apply abind_Done in H as ([] & r2 & H2%stmt_Done & H3). simplify_eq/=. rewrite Hg1, Hex. simpl.
    split_and!; [|done| |].
    + intros k row'. simpl. destruct (decide (k = (s, o))) as [->|].
      * rewrite lookup_insert_eq. by intros [= <-].
      * rewrite lookup_insert_ne by done. apply Hb.
    + intros k Hk. by rewrite lookup_insert_ne.
    + exists (GrantRow vs (Some now)). by rewrite lookup_insert_eq.
Qed.

Lemma holds_put_grant s o vs now r g r' s' o' v :
  put_grant faults s o vs now r = (Done g, r') → bytes_ok r → 0 ≤ vs < 256 →
  holds r' s' o' v ↔ holds r s' o' v ∨ (s' = s ∧ o' = o ∧ Has vs v = true).
Proof.
  intros H Hb Hvs. destruct (put_grant_ok _ _ _ _ _ _ _ H Hb Hvs) as (Hb' & _ & Hne & row & Hrow & _ & Hv & Hg).
  unfold holds. destruct (decide ((s', o') = (s, o))) as [[= -> ->]|Hk].
  - rewrite Hrow. assert (Hbits : Has (to_VerbSet (gr_verbs row)) v = true ↔
      Has (from_option gr_verbs 0 (grants r !! (s, o))) v = true ∨ Has vs v = true).
    { rewrite to_VerbSet_id by (by eapply Hb'). by rewrite Hv, Hg, Has_union, orb_true_iff. }
    destruct (grants r !! (s, o)) as [row0|] eqn:H0; simpl in Hbits.
    + pose proof (Hb _ _ H0). setoid_rewrite (inj_iff Some). rewrite <-(to_VerbSet_id (gr_verbs row0)) in Hbits by done.
      naive_solver.
    + rewrite Has_empty in Hbits. naive_solver.
  - rewrite Hne by done. naive_solver.
Qed.

(** A failed [Grant] leaves the registry as it was. *)
Lemma put_grant_Fail s o vs now r e r' :
  put_grant faults s o vs now r = (Fail e, r') → grants r' = grants r ∧ api_keys r' = api_keys r.
Proof.
  unfold put_grant, abind at 1. destruct (lookup_grant faults s o r) as [[ex|e'|] r1] eqn:H1.
  - apply lookup_grant_ok in H1 as (<- & <- & _). destruct ex as [g|].
    + destruct (negb _); [|done]. unfold abind. destruct (stmt _ _ _ r1) as [[[]|e'|] r2] eqn:H2; try done.
      intros [= _ <-]. by eapply stmt_Fail.
    + unfold abind. destruct (stmt _ _ _ r1) as [[[]|e'|] r2] eqn:H2; try done.
      intros [= _ <-]. by eapply stmt_Fail.
  - intros [= _ <-]. by eapply lookup_grant_Fail.
  - done.
Qed.

(** ** Administrators *)

Definition root_object : Object_ := MkObject RootObject "".

Lemma elem_of_root_admins r a :
  a ∈ root_admins_of r ↔ holds r a root_object VerbAdmin.
Proof.
  unfold root_admins_of, holds. rewrite list_elem_of_In, in_map_iff. split.
  - intros ([[s o] row] & <- & [Hin%list_elem_of_In Hv]%filter_In). simpl in *.
    apply elem_of_rows in Hin as [Hg ->%bool_decide_eq_true]. eauto.
  - intros (row & Hg & Hv). exists (a, root_object, row). split; [done|].
    apply filter_In. split; [|done]. apply list_elem_of_In, elem_of_rows. split; [done|].
    by apply bool_decide_eq_true.
Qed.

Lemma rootAdmins_ok r admins r' :
  rootAdmins faults r = (Done admins, r') →
  admins = root_admins_of r ∧ grants r' = grants r ∧ api_keys r' = api_keys r.
Proof. intros H%stmt_Done. by simplify_eq/=. Qed.

(** A row of the key table whose key works at [now]. *)
Definition active_row (row : key_row) (now : Z) (k : Key) : Prop :=
  kr_revoked row = false ∧ scanKey row = Done k ∧ Expired k now = false.

Lemma scan_all_elem rows ks k :
  scan_all rows = Done ks → (k ∈ ks ↔ ∃ row, row ∈ rows ∧ scanKey row = Done k).
Proof.
  revert ks. induction rows as [|row rows IH]; intros ks; simpl.
  - intros [= <-]. split; [by intros ?%not_elem_of_nil|]. by intros (? & ?%not_elem_of_nil & _).
  - intros (k0 & Hk0 & (ks0 & Hks & [= <-])%obind_Done)%obind_Done.
    rewrite elem_of_cons, (IH _ Hks). setoid_rewrite elem_of_cons. split.
    + intros [->|(x & ? & ?)]; eauto.
    + intros (x & [->|Hx] & Hsx); [left; congruence|right; eauto].
Qed.

Lemma activeKeys_ok now r ks r' :
  activeKeys faults now r = (Done ks, r') →
  grants r' = grants r ∧ api_keys r' = api_keys r
  ∧ ∀ k, k ∈ ks ↔ ∃ row, row ∈ api_keys r ∧ active_row row now k.
Proof.
  unfold activeKeys. intros (rows & r1 & H1%stmt_Done & H)%abind_Done. simplify_eq/=.
  apply abind_Done in H as (keys & r2 & [= Hscan <-] & [= <- <-]). split_and!; [done|done|].
  intros k. rewrite list_elem_of_In, filter_In, <-list_elem_of_In, (scan_all_elem _ _ _ Hscan), negb_true_iff.
  unfold active_row. setoid_rewrite list_elem_of_In. setoid_rewrite filter_In.
  setoid_rewrite negb_true_iff. naive_solver.
Qed.

(** Some administrator can present itself, at [now]. *)
Definition reachable_admin (r : registry) (reach : Reach) (now : Z) (a : Subject) : Prop :=
  holds r a root_object VerbAdmin
  ∧ (principal_reachable reach a = true
     ∨ ∃ row k, row ∈ api_keys r ∧ active_row row now k ∧ key_bears k a = true).

Definition usable_root (r : registry) (reach : Reach) (now : Z) : Prop :=
  ∃ a, reachable_admin r reach now a.

Lemma rootReachableByKey_spec admins keys x :
  rootReachableByKey admins keys x = true ↔
  ∃ k a, k ∈ keys ∧ K_ID k ≠ x ∧ a ∈ admins ∧ key_bears k a = true.
Proof.
  unfold rootReachableByKey. rewrite existsb_exists. split.
  - intros (k & Hk & [Hx (a & Ha & Hb)%existsb_exists]%andb_true_iff).
    apply negb_true_iff, String.eqb_neq in Hx. exists k, a.
    split_and!; [by apply list_elem_of_In|done|by apply list_elem_of_In|done].
  - intros (k & a & Hk & Hx & Ha & Hb). exists k. split; [by apply list_elem_of_In|].
    apply andb_true_iff. split; [by apply negb_true_iff, String.eqb_neq|].
    apply existsb_exists. exists a. split; [by apply list_elem_of_In|done].
Qed.

Lemma otherRootAdminRemains_ok s reach now r b r' :
  otherRootAdminRemains faults s reach now r = (Done b, r') →
  grants r' = grants r ∧ api_keys r' = api_keys r
  ∧ (b = true → ∃ a, a ≠ s ∧ reachable_admin r reach now a).
Proof.
  unfold otherRootAdminRemains.
  intros (admins & r1 & (-> & Hg1 & Hk1)%rootAdmins_ok & H)%abind_Done.
  set (rest := List.filter _ _) in H.
  assert (Hrest : ∀ a, a ∈ rest ↔ holds r a root_object VerbAdmin ∧ a ≠ s).
  { intros a. unfold rest. rewrite list_elem_of_In, filter_In, <-list_elem_of_In, elem_of_root_admins.
    by rewrite negb_true_iff, bool_decide_eq_false. }
  case_bool_decide; [by simplify_eq/=|]. destruct (existsb _ rest) eqn:Hex.
  - simplify_eq/=. split_and!; [done..|]. intros _. apply existsb_exists in Hex as (a & Ha & Hr).
    apply list_elem_of_In, Hrest in Ha as [Ha Hne]. exists a. split; [done|]. split; [done|by left].
  - apply abind_Done in H as (keys & r2 & (Hg2 & Hk2 & Hkeys)%activeKeys_ok & H). simplify_eq/=.
    split_and!; [congruence..|]. intros (k & a & Hk & _ & Ha & Hb)%rootReachableByKey_spec.
    apply Hrest in Ha as [Ha Hne]. apply Hkeys in Hk as (row & Hrow & Hact). rewrite Hk1 in Hrow.
    exists a. split; [done|]. split; [done|]. right. eauto.
Qed.

(** ** The effect of [Revoke] *)

(** The verbs of one row. *)
Definition verbs_at (r : registry) (s : Subject) (o : Object_) : Z :=
  from_option gr_verbs 0 (grants r !! (s, o)).

Lemma holds_verbs_at r s o v :
  bytes_ok r → holds r s o v ↔ Has (verbs_at r s o) v = true.
Proof.
  intros Hb. unfold holds, verbs_at. destruct (grants r !! (s, o)) as [row|] eqn:Hg; simpl.
  - pose proof (Hb _ _ Hg). setoid_rewrite (inj_iff Some). split.
    + intros (? & <- & Hv). by rewrite to_VerbSet_id in Hv.
    + intros Hv. exists row. by rewrite to_VerbSet_id.
  - rewrite Has_empty. naive_solver.
Qed.

(** Replacing the verbs of one row, or deleting it when none is left. *)
Lemma holds_update r r' s o w :
  bytes_ok r → 0 ≤ w < 256 → verbs_at r' s o = w →
  (∀ k, k ≠ (s, o) → grants r' !! k = grants r !! k) →
  bytes_ok r' ∧ ∀ s' o' v, holds r' s' o' v ↔
    (if decide ((s', o') = (s, o)) then Has w v = true else holds r s' o' v).
Proof.
  intros Hb Hw Hat Hne.
  assert (Hb' : bytes_ok r').
  { intros k row Hk. destruct (decide (k = (s, o))) as [->|].
    - unfold verbs_at in Hat. rewrite Hk in Hat. simpl in Hat. by rewrite Hat.
    - rewrite Hne in Hk by done. by eapply Hb. }
  split; [done|]. intros s' o' v. case_decide as Hk.
  - simplify_eq. by apply holds_verbs_at.
  - unfold holds. by rewrite Hne.
Qed.

(** The guard of [Revoke]: it lets the revocation through. *)
Lemma revoke_guard_ok (b : bool) s reach now r u r' :
  (if b then do! ok := otherRootAdminRemains faults s reach now in
             if negb ok then afail ErrLastRootAdmin else aret tt
   else aret tt) r = (Done u, r') →
  grants r' = grants r ∧ api_keys r' = api_keys r
  ∧ (b = true → ∃ a, a ≠ s ∧ reachable_admin r reach now a).
Proof.
  destruct b; [|intros [= _ <-]; done].
  intros (ok & r1 & (Hg & Hk & Hok)%otherRootAdminRemains_ok & H)%abind_Done.
  destruct ok; simpl in H; [|done]. injection H as _ <-. auto.
Qed.

Lemma Revoke_ok s o vs keep reach now r left removed r' :
  Revoke faults s o vs keep reach now r = (Done (left, removed), r') → bytes_ok r →
  bytes_ok r' ∧ api_keys r' = api_keys r
  ∧ removed = Z.land (verbs_at r s o) vs
  ∧ (∀ s' o' v, holds r' s' o' v ↔ holds r s' o' v ∧ ¬ (s' = s ∧ o' = o ∧ Has vs v = true))
  ∧ (keep = true → Root o = true → holds r s o VerbAdmin → Has vs VerbAdmin = true →
     ∃ a, a ≠ s ∧ reachable_admin r reach now a).
Proof.
  intros H Hb. unfold Revoke in H.
  apply abind_Done in H as (ex & r1 & (Hg1 & Hk1 & Hex)%lookup_grant_ok & H).
  destruct ex as [g|].
  2:{ simplify_eq/=. unfold verbs_at, holds, bytes_ok. rewrite Hg1, Hex. simpl.
      split_and!; [done|done|done| |]; [|intros _ _ (? & ? & _); done].
      intros s' o' v. split; [|tauto]. intros Hh. split; [done|]. intros (-> & -> & _).
      destruct Hh as (? & Hh & _). congruence. }
  destruct Hex as (row & Hrow & Hv & Hc & _ & _). pose proof (Hb _ _ Hrow) as Hr.
  rewrite to_VerbSet_id in Hv by done.
  assert (Hat : verbs_at r s o = G_Verbs g) by (unfold verbs_at; by rewrite Hrow).
  assert (Hsame : ∀ v, holds r s o v ↔ Has (G_Verbs g) v = true).
  { intros v. by rewrite holds_verbs_at, Hat. }
  destruct (Z.land (G_Verbs g) vs =? 0) eqn:Hrem.
  { apply Z.eqb_eq in Hrem. injection H as <- <- <-.
    assert (Hnone : ∀ v, holds r s o v → Has vs v = true → False).
    { intros v Hh%Hsame Hvs. pose proof (Has_inter (G_Verbs g) vs v) as Hi.
      by rewrite Hrem, Has_empty, Hh, Hvs in Hi. }
    unfold holds, bytes_ok in *. rewrite Hg1, Hat, Hrem.
    split_and!; [done|done|done| |].
    - intros s' o' v. split; [|tauto]. intros Hh. split; [done|].
      intros (-> & -> & Hvs). by eapply Hnone.
    - intros _ _ Hh Hvs. exfalso. by eapply Hnone. }
  apply abind_Done in H as (u & r2 & (Hg2 & Hk2 & Hguard)%revoke_guard_ok & H).
  assert (Hend : verbs_at r' s o = Z.ldiff (G_Verbs g) vs ∧ api_keys r' = api_keys r
    ∧ (∀ k, k ≠ (s, o) → grants r' !! k = grants r !! k) ∧ removed = Z.land (G_Verbs g) vs).
  { destruct (Z.ldiff (G_Verbs g) vs =? 0) eqn:Hz.
    - apply Z.eqb_eq in Hz. apply abind_Done in H as ([] & r3 & H3%stmt_Done & H). simplify_eq/=.
      unfold verbs_at. simpl. rewrite lookup_delete_eq, Hz. simpl. split_and!; [done|congruence| |done].
      intros k Hk. rewrite lookup_delete_ne by done. congruence.
    - apply abind_Done in H as ([] & r3 & H3%stmt_Done & H). simplify_eq/=.
      unfold verbs_at. simpl. rewrite lookup_alter_eq, Hg2, Hg1, Hrow. simpl. split_and!; [done|congruence| |done].
      intros k Hk. rewrite lookup_alter_ne by done. congruence. }
  destruct Hend as (Hat' & Hk' & Hne & ->).
  destruct (holds_update r r' s o _ Hb (byte_ldiff (G_Verbs g) vs ltac:(by rewrite Hv)) Hat' Hne) as [Hb' Hh].
  split_and!; [done|done|by rewrite Hat| |].
  - intros s' o' v. rewrite Hh. case_decide as Hk.
    + simplify_eq. rewrite Has_diff, andb_true_iff, negb_true_iff, <-Hsame. destruct (Has vs v); naive_solver.
    + naive_solver.
  - intros Hkeep Hroot Ha%Hsame Hvs. destruct Hguard as (a & Hne' & Ha').
    { rewrite Hkeep, Hroot, Ha, Has_diff, Ha, Hvs. done. }
    exists a. split; [done|]. unfold reachable_admin, holds in *. by rewrite <-Hg1, <-Hk1.
Qed.

Lemma Revoke_keeps_root s o vs reach now r x r' :
  Revoke faults s o vs true reach now r = (Done x, r') → bytes_ok r →
  usable_root r reach now → usable_root r' reach now.
Proof.
  destruct x as [left removed]. intros H Hb (a & Ha & Hreach).
  destruct (Revoke_ok _ _ _ _ _ _ _ _ _ _ H Hb) as (_ & Hk & _ & Hh & Hguard).
  assert (Hkeep : ∀ a', reachable_admin r reach now a' → ¬ (a' = s ∧ root_object = o ∧ Has vs VerbAdmin = true) →
    reachable_admin r' reach now a').
  { intros a' [Ha' Hr'] Hn. split; [by apply Hh|]. by rewrite Hk. }
  destruct (decide (a = s ∧ root_object = o ∧ Has vs VerbAdmin = true)) as [(-> & <- & Hvs)|Hn].
  - destruct Hguard as (a' & Hne & Ha'); [done|done|done|done|].
    exists a'. apply Hkeep; [done|]. by intros [? _].
  - exists a. by apply Hkeep.
Qed.

(** Statements that fail leave the tables as they were. *)
Definition unchanged (r r' : registry) : Prop := grants r' = grants r ∧ api_keys r' = api_keys r.

Lemma unchanged_trans r1 r2 r3 : unchanged r1 r2 → unchanged r2 r3 → unchanged r1 r3.
Proof. unfold unchanged. naive_solver congruence. Qed.

(** An action all of whose outcomes leave the tables alone. *)
Definition reads_only {A} (m : db A) : Prop := ∀ r x r', m r = (x, r') → unchanged r r'.

Lemma stmt_reads_only {A} doing (f : registry → A * registry) :
  (∀ r a r', f r = (a, r') → r' = r) → reads_only (stmt faults doing f).
Proof.
  intros Hf r x r'. unfold stmt. destruct (faults _); [by intros [= _ <-]|].
  destruct (f _) as [a r2] eqn:E. apply Hf in E as ->. by intros [= _ <-].
Qed.

Lemma abind_reads_only {A B} (m : db A) (k : A → db B) :
  reads_only m → (∀ a, reads_only (k a)) → reads_only (abind m k).
Proof.
  intros Hm Hk r x r'. unfold abind. destruct (m r) as [[a|e|] r1] eqn:E; intros H.
  - eapply unchanged_trans; [by eapply Hm|by eapply Hk].
  - injection H as _ <-. by eapply Hm.
  - injection H as _ <-. by eapply Hm.
Qed.

Lemma ret_reads_only {A} (o : outcome auth_error A) : reads_only (λ r, (o, r)).
Proof. intros r x r' [= _ <-]. done. Qed.

Lemma rootAdmins_reads_only : reads_only (rootAdmins faults).
Proof. apply stmt_reads_only. by intros r a r' [= _ <-]. Qed.

Lemma activeKeys_reads_only now : reads_only (activeKeys faults now).
Proof.
  apply abind_reads_only; [apply stmt_reads_only; by intros r a r' [= _ <-]|]. intros rows.
  apply abind_reads_only; [apply ret_reads_only|]. intros keys. apply ret_reads_only.
Qed.

Lemma lookup_grant_reads_only s o : reads_only (lookup_grant faults s o).
Proof.
  apply abind_reads_only; [apply stmt_reads_only; by intros r a r' [= _ <-]|]. intros [row|]; [|apply ret_reads_only].
  apply abind_reads_only; [apply ret_reads_only|]. intros g. apply ret_reads_only.
Qed.

Lemma otherRootAdminRemains_reads_only s reach now : reads_only (otherRootAdminRemains faults s reach now).
Proof.
  apply abind_reads_only; [apply rootAdmins_reads_only|]. intros admins. cbv zeta.
  destruct (bool_decide _); [apply ret_reads_only|]. destruct (existsb _ _); [apply ret_reads_only|].
  apply abind_reads_only; [apply activeKeys_reads_only|]. intros keys. apply ret_reads_only.
Qed.

(** Reading, then one statement that writes: a failure changes nothing. *)
Definition fails_clean {A} (m : db A) : Prop := ∀ r e r', m r = (Fail e, r') → unchanged r r'.

Lemma reads_then_clean {A B} (m : db A) (k : A → db B) :
  reads_only m → (∀ a, fails_clean (k a)) → fails_clean (abind m k).
Proof.
  intros Hm Hk r e r'. unfold abind. destruct (m r) as [[a|e'|] r1] eqn:E; intros H.
  - eapply unchanged_trans; [by eapply Hm|by eapply Hk].
  - injection H as _ <-. by eapply Hm.
  - done.
Qed.

Lemma stmt_then_ret_clean {A B} doing (f : registry → A * registry) (b : A → B) :
  fails_clean (do! a := stmt faults doing f in aret (b a)).
Proof.
  intros r e r'. unfold abind. destruct (stmt _ _ _ r) as [[a|e'|] r1] eqn:E; try done.
  intros [= _ <-]. by eapply stmt_Fail.
Qed.

Lemma reads_clean {A} (m : db A) : reads_only m → fails_clean m.
Proof. intros H r e r'. apply H. Qed.

Lemma put_grant_clean s o vs now : fails_clean (put_grant faults s o vs now).
Proof. intros r e r'. apply put_grant_Fail. Qed.

Lemma Revoke_clean s o vs keep reach now : fails_clean (Revoke faults s o vs keep reach now).
Proof.
  apply reads_then_clean; [apply lookup_grant_reads_only|]. intros [g|]; [|apply reads_clean, ret_reads_only].
  cbv zeta. destruct (Z.land (G_Verbs g) vs =? 0); [apply reads_clean, ret_reads_only|].
  apply reads_then_clean.
  - destruct (_ && _ && _ && _); [|apply ret_reads_only].
    apply abind_reads_only; [apply otherRootAdminRemains_reads_only|]. intros ok. destruct (negb ok); apply ret_reads_only.
  - intros []. destruct (Z.ldiff (G_Verbs g) vs =? 0); apply stmt_then_ret_clean.
Qed.
End Facts.

(** ** Keys *)

Section Keys.
Context (faults : nat → bool) (hashKey : string → string).

Lemma rootReachableWithout_ok x reach now r b r' :
  rootReachableWithout faults x reach now r = (Done b, r') →
  unchanged r r'
  ∧ (b = true → usable_root r reach now →
     ∃ a, holds r a root_object VerbAdmin
       ∧ (principal_reachable reach a = true
          ∨ ∃ row k, row ∈ api_keys r ∧ active_row row now k ∧ K_ID k ≠ x ∧ key_bears k a = true)).
Proof.
  unfold rootReachableWithout, unchanged.
  intros (admins & r1 & (-> & Hg1 & Hk1)%rootAdmins_ok & H)%abind_Done.
  case_bool_decide as Hnil.
  { simplify_eq/=. split; [done|]. intros _ (a & Ha%elem_of_root_admins & _). rewrite Hnil in Ha.
    by apply not_elem_of_nil in Ha. }
  destruct (existsb _ _) eqn:Hex.
  - simplify_eq/=. split; [done|]. intros _ _. apply existsb_exists in Hex as (a & Ha & Hr).
    apply list_elem_of_In, elem_of_root_admins in Ha. eauto.
  - apply abind_Done in H as (keys & r2 & (Hg2 & Hk2 & Hkeys)%activeKeys_ok & H). simplify_eq/=.
    split; [split; congruence|]. intros (k & a & Hk & Hx & Ha & Hb)%rootReachableByKey_spec _.
    apply elem_of_root_admins in Ha. apply Hkeys in Hk as (row & Hrow & Hact). rewrite Hk1 in Hrow.
    exists a. split; [done|]. right. eauto 10.
Qed.

Lemma scanKey_id row k : scanKey row = Done k → K_ID k = kr_id row ∧ K_Revoked k = kr_revoked row.
Proof.
  unfold scanKey. destruct (kr_created row); [|done]. destruct (kr_expires row) as [[e|]|]; simpl; try done.
  - by intros [= <-].
  - by intros [= <-].
Qed.

(** What [RevokeKey] does when it reports that it revoked a key. *)
Lemma RevokeKey_ok id keep reach now r k did r' :
  RevokeKey faults id keep reach now r = (Done (k, did), r') →
  grants r' = grants r
  ∧ (if did
     then api_keys r' = map (λ row, if String.eqb (kr_id row) id then revoke_row row else row) (api_keys r)
     else api_keys r' = api_keys r)
  ∧ (keep = true → usable_root r reach now → usable_root r' reach now).
Proof.
  unfold RevokeKey, keyByID.
  intros (found & r1 & (row & r0 & H0%stmt_Done & H1)%abind_Done & H)%abind_Done. simplify_eq/=.
  destruct (find _ (api_keys r)) as [row|]; [|by simplify_eq/=].
  apply abind_Done in H1 as (k0 & r2 & [= Hscan <-] & [= <- <-]). cbv iota in H.
  destruct (K_Revoked k0); [by simplify_eq/=|].
  apply abind_Done in H as (u & r3 & Hguard & H).
  apply abind_Done in H as (u' & r4 & H4%stmt_Done & [= <- <- <-]).
  assert (Hu : grants r3 = grants r ∧ api_keys r3 = api_keys r
    ∧ (keep = true → usable_root r reach now → ∃ a, holds r a root_object VerbAdmin
       ∧ (principal_reachable reach a = true
          ∨ ∃ row k, row ∈ api_keys r ∧ active_row row now k ∧ K_ID k ≠ id ∧ key_bears k a = true))).
  { destruct keep; [|by simplify_eq/=].
    apply abind_Done in Hguard as (b & r5 & ([Hg5 Hk5] & Hb)%rootReachableWithout_ok & H5).
    destruct b; simpl in H5; [|done]. injection H5 as _ <-. split_and!; [done..|].
    intros _ Hu. by apply Hb. }
  destruct Hu as (Hg3 & Hk3 & Hroot). injection H4 as <- <-. simpl. rewrite Hk3. split_and!; [done|done|].
  intros Hkeep Hu. destruct (Hroot Hkeep Hu) as (a & Ha & Hreach). exists a. split.
  - unfold holds in *. simpl. by rewrite Hg3.
  - destruct Hreach as [?|(row' & k' & Hrow' & Hact & Hne & Hbears)]; [by left|]. right.
    exists row', k'. split; [|done]. simpl. apply list_elem_of_In, in_map_iff. exists row'.
    split; [|by apply list_elem_of_In]. destruct Hact as (_ & Hs & _). apply scanKey_id in Hs as [Hid _].
    destruct (String.eqb_spec (kr_id row') id); [congruence|done].
Qed.

(** A key authenticates only while a row bears its hash, is not revoked and
    has not expired. *)
Lemma find_hash_ok rows hash k :
  find_hash rows hash = Done (Some k) → ∃ row, row ∈ rows ∧ kr_hash row = hash ∧ scanKey row = Done k.
Proof.
  induction rows as [|row rows IH]; simpl; [done|].
  intros (k0 & Hk0 & H)%obind_Done. destruct (String.eqb_spec (kr_hash row) hash) as [Hh|].
  - injection H as <-. exists row. split_and!; [by left|done..].
  - apply IH in H as (row' & ? & ?). exists row'. split; [by right|done].
Qed.

Lemma key_authenticate_ok now token r id r' :
  key_authenticate faults hashKey now token r = (Some id, r') →
  ∃ row k, row ∈ api_keys r ∧ kr_hash row = hashKey token ∧ active_row row now k
    ∧ id = MkIdentity (K_Principal k) (K_Groups k) KeySourceName ∧ ValidateKeyShape token = true.
Proof.
  unfold key_authenticate. destruct (ValidateKeyShape token) eqn:Hshape; cbn [negb]; [|done].
  destruct (keyByHash _ _ r) as [[[k|]|e|] r1] eqn:Hk; try done.
  destruct (K_Revoked k || Expired k now) eqn:Hre; [done|]. intros [= <- <-].
  apply orb_false_iff in Hre as [Hrev Hexp]. unfold keyByHash in Hk.
  apply abind_Done in Hk as (rows & r2 & H2%stmt_Done & H). simplify_eq/=.
  match goal with H : find_hash _ _ = _ |- _ => apply find_hash_ok in H as (row & Hrow & Hh & Hs) end.
  exists row, k. split_and!; try done. unfold active_row. split_and!; [|done|done].
  apply scanKey_id in Hs as [_ <-]. done.
Qed.

(** ** A new key *)

Lemma decode_encode_groups groups :
  Forall (λ g, groupRe g = true) groups → decodeGroups (encodeGroups groups) = groups.
Proof.
  intros Hg. unfold decodeGroups, encodeGroups. destruct groups as [|g groups]; [done|].
  assert (Hne : join "," (g :: groups) ≠ "").
  { apply Forall_cons in Hg as [Hg _]. apply groupRe_nonempty in Hg.
    destruct g as [|c g]; [done|]. by destruct groups. }
  apply String.eqb_neq in Hne. rewrite Hne. apply split_join; [|done].
  eapply Forall_impl; [exact Hg|]. apply groupRe_lacks.
Qed.

Lemma existsb_false {A} (f : A → bool) l : existsb f l = false ↔ ∀ x, x ∈ l → f x = false.
Proof.
  rewrite <-not_true_iff_false, existsb_exists. split.
  - intros H x Hx. apply not_true_iff_false. intros Hf. apply H. exists x. split; [by apply list_elem_of_In|done].
  - intros H (x & Hx%list_elem_of_In & Hf). by rewrite H in Hf.
Qed.

Lemma CreateKey_ok body id name principal groups expires now r k secret r' :
  CreateKeyExpiring faults hashKey body id name principal groups expires now r = (Done (k, secret), r') →
  grants r' = grants r ∧ secret = KeyPrefix +:+ b64url body ∧ K_ID k = hex_encode id
  ∧ ∃ row, api_keys r' = api_keys r ++ [row] ∧ kr_hash row = hashKey secret ∧ kr_id row = K_ID k
    ∧ kr_revoked row = false ∧ kr_created row = Some now ∧ kr_principal row = principal
    ∧ kr_groups row = encodeGroups groups ∧ kr_expires row = Some <$> expires
    ∧ ∀ other, other ∈ api_keys r → kr_hash other ≠ hashKey secret ∧ kr_id other ≠ K_ID k.
Proof.
  unfold CreateKeyExpiring, MintKey. intros (fresh & r1 & H1%stmt_Done & H)%abind_Done.
  simpl in H1. match type of H1 with (if ?b then _ else _) = _ => destruct b eqn:Hclash end.
  { by simplify_eq/=. }
  injection H1 as <- <-. simplify_eq/=. split_and!; [done..|]. eexists. split; [done|]. simpl.
  split_and!; try done.
  intros other Ho. rewrite existsb_false in Hclash. apply Hclash in Ho.
  apply orb_false_iff in Ho as [?%String.eqb_neq ?%String.eqb_neq]. done.
Qed.

Lemma find_hash_fresh rows hash row k :
  (∀ x, x ∈ rows → kr_hash x ≠ hash ∧ ∃ k', scanKey x = Done k') →
  kr_hash row = hash → scanKey row = Done k → find_hash (rows ++ [row]) hash = Done (Some k).
Proof.
  intros Hrows Hh Hs. induction rows as [|x rows IH]; simpl.
  - by rewrite Hs, Hh, String.eqb_refl.
  - destruct (Hrows x) as [Hne (k' & ->)]; [by left|]. simpl. apply String.eqb_neq in Hne. rewrite Hne.
    apply IH. intros y Hy. apply Hrows. by right.
Qed.

(** Every row of the key table can be read. *)
Definition keys_readable (r : registry) : Prop := ∀ row, row ∈ api_keys r → ∃ k, scanKey row = Done k.

Lemma b64_char_token d : 0 ≤ d < 64 → token_byte (b64_char d) = true.
Proof.
  intros Hd. assert (H : forallb (λ n, token_byte (b64_char (Z.of_nat n))) (seq 0 64) = true) by (vm_compute; reflexivity).
  rewrite forallb_forall in H. specialize (H (Z.to_nat d)). rewrite Z2Nat.id in H by lia.
  apply H, in_seq. lia.
Qed.

Definition all_octets (bs : list Z) : Prop := Forall (λ b, 0 ≤ b < 256) bs.

Lemma b64url_token n : ∀ bs, (length bs ≤ n)%nat → all_octets bs → all_bytes token_byte (b64url bs) = true.
Proof.
  induction n as [|n IH]; intros bs Hn Ho; [destruct bs; [done|simpl in Hn; lia]|].
  destruct bs as [|a [|b [|c bs]]]; [done|..]; unfold all_octets in Ho; rewrite ?Forall_cons in Ho;
    destruct_and?; cbn [b64url all_bytes]; rewrite !b64_char_token by (Z.to_euclidean_division_equations; lia); simpl.
  - done.
  - done.
  - apply IH; [simpl in Hn; lia|done].
Qed.

Lemma b64url_length3 n : ∀ bs, length bs = (3 * n)%nat → String.length (b64url bs) = (4 * n)%nat.
Proof.
  induction n as [|n IH]; intros bs Hn; [by destruct bs|].
  destruct bs as [|a [|b [|c bs]]]; simpl in Hn; try lia. simpl. rewrite IH by lia. lia.
Qed.

Lemma b64url_app3 n : ∀ bs tail, length bs = (3 * n)%nat → b64url (bs ++ tail) = b64url bs +:+ b64url tail.
Proof.
  induction n as [|n IH]; intros bs tail Hn; [by destruct bs|].
  destruct bs as [|a [|b [|c bs]]]; simpl in Hn; try lia. simpl. by rewrite IH by lia.
Qed.

(** The secret of a key of 32 random bytes has the shape [ValidateKeyShape]
    asks for. *)
Lemma minted_shape body :
  length body = 32%nat → all_octets body → ValidateKeyShape (KeyPrefix +:+ b64url body) = true.
Proof.
  intros Hl Ho. unfold ValidateKeyShape. rewrite cut_prefix_app. unfold keyBodyRe, shape.
  rewrite (b64url_token 32) by (done || lia). simpl.
  assert (Hlen : len (b64url body) = 43).
  { unfold len. rewrite <-(take_drop 30 body). rewrite (b64url_app3 10) by (rewrite length_take; lia).
    rewrite string_length_app, (b64url_length3 10) by (rewrite length_take; lia).
    assert (Hd : length (drop 30 body) = 2%nat) by (rewrite length_drop; lia).
    destruct (drop 30 body) as [|x [|y [|]]]; try done. }
  by rewrite Hlen.
Qed.

Lemma new_key_authenticates body id name principal groups expires now r k secret r' now' :
  CreateKeyExpiring faults hashKey body id name principal groups expires now r = (Done (k, secret), r') →
  length body = 32%nat → all_octets body → Forall (λ g, groupRe g = true) groups → keys_readable r →
  faults (calls r') = false → match expires with Some e => now' < e | None => True end →
  (key_authenticate faults hashKey now' secret r').1 = Some (MkIdentity principal groups KeySourceName).
Proof.
  intros H Hl Ho Hg Hread Hf Hexp.
  destruct (CreateKey_ok _ _ _ _ _ _ _ _ _ _ _ H) as (_ & Hsec & _ & row & Hk' & Hh & Hid & Hrev & Hc & Hp & Hgr & Hx & Hfresh).
  unfold key_authenticate. rewrite Hsec, (minted_shape body Hl Ho), <-Hsec. cbn [negb].
  assert (Hscan : scanKey row = Done (MkKey (kr_id row) (kr_name row) principal groups false now expires)).
  { unfold scanKey. rewrite Hc, Hx, Hrev, Hp, Hgr, decode_encode_groups by done. by destruct expires. }
  unfold keyByHash, abind, stmt. rewrite Hf. simpl. rewrite Hk'.
  rewrite (find_hash_fresh _ _ _ _ ltac:(intros y Hy; split; [by apply Hfresh|by apply Hread]) Hh Hscan).
  cbn. unfold Expired. simpl. destruct expires as [e|]; [|done].
  replace (e <=? now') with false by (symmetry; apply Z.leb_gt; lia). done.
Qed.

(** ** Failures of the key operations *)

Lemma CreateKey_clean body id name principal groups expires now :
  fails_clean (CreateKeyExpiring faults hashKey body id name principal groups expires now).
Proof.
  unfold CreateKeyExpiring, MintKey. intros r e r'. unfold abind.
  destruct (stmt _ _ _ r) as [[fresh|e'|] r1] eqn:H1; [|intros [= _ <-]; by eapply stmt_Fail|done].
  destruct fresh; [done|]. intros [= _ <-]. apply stmt_Done in H1.
  match type of H1 with (if ?b then _ else _) = _ => destruct b end; by simplify_eq/=.
Qed.

Lemma keyByID_reads_only id : reads_only (keyByID faults id).
Proof.
  apply abind_reads_only; [apply stmt_reads_only; by intros r a r' [= _ <-]|]. intros [row|]; [|apply ret_reads_only].
  apply abind_reads_only; [apply ret_reads_only|]. intros k. apply ret_reads_only.
Qed.

Lemma rootReachableWithout_reads_only id reach now : reads_only (rootReachableWithout faults id reach now).
Proof.
  apply abind_reads_only; [apply rootAdmins_reads_only|]. intros admins.
  destruct (bool_decide _); [apply ret_reads_only|]. destruct (existsb _ _); [apply ret_reads_only|].
  apply abind_reads_only; [apply activeKeys_reads_only|]. intros keys. apply ret_reads_only.
Qed.

Lemma RevokeKey_clean id keep reach now : fails_clean (RevokeKey faults id keep reach now).
Proof.
  apply reads_then_clean; [apply keyByID_reads_only|]. intros [k|]; [|apply reads_clean, ret_reads_only].
  destruct (K_Revoked k); [apply reads_clean, ret_reads_only|].
  apply reads_then_clean; [|intros []; apply stmt_then_ret_clean].
  destruct keep; [|apply ret_reads_only].
  apply abind_reads_only; [apply rootReachableWithout_reads_only|]. intros b. destruct (negb b); apply ret_reads_only.
Qed.
End Keys.
