(* ===== verification/AuthPaths.v ===== *)
(** * Namespace paths in the registry

    The objects that cover an object are the prefixes of its path, segment by
    segment; and the pattern [likePrefix] makes of a namespace matches what
    lies under it and nothing else. *)
From Stdlib Require Import ZArith Lia Ascii String.
From stdpp Require Import base gmap strings list.
From S2P Require Import Prelude GoStrings AuthVerbs AuthIdentity AuthRegistry AuthFacts.
Local Open Scope Z_scope.

(** ** Paths *)

(** [p] is [s] or an ancestor of it. *)
Definition path_prefix (p s : string) : Prop := s = p ∨ ∃ rest, s = p +:+ "/" +:+ rest.

Lemma split_nonempty s sep : split s sep ≠ [].
Proof. destruct s as [|c s]; simpl; [done|]. destruct (Ascii.eqb c sep); [done|]. by destruct (split s sep). Qed.

Lemma split_append sep a b : split (a +:+ String sep b) sep = split a sep ++ split b sep.
Proof.
  induction a as [|c a IH]; simpl; [by rewrite Ascii.eqb_refl|].
  destruct (Ascii.eqb c sep); [by rewrite IH|]. rewrite IH.
  destruct (split a sep) eqn:E; [|done]. by apply split_nonempty in E.
Qed.

Lemma join_cons sep w l : l ≠ [] → join sep (w :: l) = w +:+ sep +:+ join sep l.
Proof. by destruct l. Qed.

Lemma join_app sep l1 l2 : l1 ≠ [] → l2 ≠ [] → join sep (l1 ++ l2) = join sep l1 +:+ sep +:+ join sep l2.
Proof.
  intros H1 H2. induction l1 as [|w l1 IH]; [done|]. destruct l1 as [|w' l1].
  - change ([w] ++ l2) with (w :: l2). by rewrite join_cons.
  - change ((w :: w' :: l1) ++ l2) with (w :: ((w' :: l1) ++ l2)).
    rewrite join_cons by done. rewrite IH by done. rewrite (join_cons sep w (w' :: l1)) by done.
    by rewrite !app_assoc_str.
Qed.

Lemma join_split sep s : join (String sep "") (split s sep) = s.
Proof.
  induction s as [|c s IH]; cbn [split]; [done|]. destruct (Ascii.eqb_spec c sep) as [->|].
  - rewrite join_cons by apply split_nonempty. by rewrite IH.
  - destruct (split s sep) as [|w l] eqn:E; [by apply split_nonempty in E|].
    destruct l; simpl in *; by rewrite <-IH.
Qed.

Lemma elem_of_joins n segments acc :
  n ∈ joins segments acc ↔ ∃ k, (0 < k ≤ length segments)%nat ∧ n = MkObject (join "/" (acc ++ take k segments)) "".
Proof.
  revert acc. induction segments as [|s segments IH]; intros acc; simpl.
  - split; [by intros ?%not_elem_of_nil|]. intros (k & ? & _). lia.
  - rewrite elem_of_cons, IH. split.
    + intros [->|(k & Hk & ->)]; [exists 1%nat; split; [lia|done]|].
      exists (S k). split; [lia|]. simpl. by rewrite <-app_assoc.
    + intros (k & Hk & ->). destruct k as [|k]; [lia|]. destruct k as [|k]; [by left|].
      right. exists (S k). split; [lia|]. simpl. by rewrite <-app_assoc.
Qed.

Lemma joins_prefix s n :
  MkObject n "" ∈ joins (split s "/") [] ↔ path_prefix n s.
Proof.
  rewrite elem_of_joins. unfold path_prefix. split.
  - intros (k & Hk & [= ->]). pose proof (take_drop k (split s "/")) as Htd.
    destruct (drop k (split s "/")) as [|w l] eqn:Hd.
    + left. rewrite app_nil_r in Htd. by rewrite Htd, join_split.
    + right. exists (join "/" (w :: l)).
      transitivity (join "/" (take k (split s "/") ++ w :: l)); [by rewrite Htd, join_split|].
      apply join_app; [|done]. destruct k; [lia|]. by destruct (split s "/").
  - intros [->|(rest & ->)].
    + exists (length (split n "/")). cbn [app]. split; [|by rewrite firstn_all, join_split].
      pose proof (split_nonempty n "/"). destruct (split n "/"); [done|simpl; lia].
    + change (n +:+ "/" +:+ rest) with (n +:+ String "/" rest). rewrite split_append.
      exists (length (split n "/")). cbn [app]. rewrite length_app, take_app_length, join_split.
      split; [|done]. pose proof (split_nonempty n "/"). destruct (split n "/"); [done|simpl; lia].
Qed.

Lemma joins_table o segments acc : o ∈ joins segments acc → Table o = "".
Proof. by intros (k & _ & ->)%elem_of_joins. Qed.

(** The objects whose grants reach [o]: the root, the namespaces on the path
    to it, and the table itself. *)
Lemma elem_of_covering o' o :
  o' ∈ coveringObjects o ↔
  o' = root_object
  ∨ Root o = false ∧ (Table o' = "" ∧ path_prefix (Namespace o') (Namespace o) ∨ o' = o ∧ Table o ≠ "").
Proof.
  unfold coveringObjects. rewrite elem_of_cons. fold root_object.
  destruct (Root o) eqn:Hr.
  { split; [intros [?|?%not_elem_of_nil]; [auto|done]|]. intros [?|[? _]]; [auto|done]. }
  rewrite elem_of_app. split.
  - intros [?|[Hj|Ht]]; [auto| |].
    + right. split; [done|]. left. pose proof (joins_table _ _ _ Hj) as Ht. split; [done|].
      apply joins_prefix. by destruct o'; simpl in *; subst.
    + right. split; [done|]. right. destruct (String.eqb_spec (Table o) ""); [by apply not_elem_of_nil in Ht|].
      apply list_elem_of_singleton in Ht. done.
  - intros [?|[_ [[Ht Hp]|[-> Ht]]]]; [auto| |].
    + right. left. destruct o' as [n t]. simpl in *. subst t. by apply joins_prefix.
    + right. right. apply String.eqb_neq in Ht. rewrite Ht. by left.
Qed.

(** ** The pattern of a namespace *)

(** The bytes of a namespace path. *)
Definition ns_byte (c : ascii) : bool :=
  byte_in 97 122 c || byte_in 48 57 c || Ascii.eqb c "_" || Ascii.eqb c "-" || Ascii.eqb c "/".
Definition ns_path (s : string) : bool := all_bytes ns_byte s.

(** Finite facts about bytes, by evaluation. *)
Definition all_ascii : list ascii := map (λ n, ascii_of_nat n) (seq 0 256).
Lemma all_ascii_spec (P : ascii → bool) : forallb P all_ascii = true → ∀ c, P c = true.
Proof.
  intros H c. rewrite forallb_forall in H. apply H. unfold all_ascii. apply in_map_iff.
  exists (nat_of_ascii c). split; [apply ascii_nat_embedding|]. apply in_seq.
  pose proof (nat_ascii_bounded c). lia.
Qed.

Lemma ns_byte_ascii c : ns_byte c = true → (byte_val c <? 0x80) = true.
Proof.
  pose proof (all_ascii_spec (λ c, negb (ns_byte c) || (byte_val c <? 0x80)) ltac:(vm_compute; reflexivity) c) as H.
  cbv beta in H. intros Hc. by rewrite Hc in H.
Qed.

Lemma ns_byte_lower c : ns_byte c = true → ascii_lower_byte c = c.
Proof.
  pose proof (all_ascii_spec (λ c, negb (ns_byte c) || Ascii.eqb (ascii_lower_byte c) c) ltac:(vm_compute; reflexivity) c) as H.
  cbv beta in H. intros Hc. rewrite Hc in H. by apply Ascii.eqb_eq in H.
Qed.

Lemma ns_byte_special c : ns_byte c = true → Ascii.eqb c "_" = false → c ∉ ["%"%char; "_"%char; escape_char].
Proof.
  intros Hc Hu Hin. rewrite !elem_of_cons in Hin.
  destruct Hin as [->|[->|[->|Hin%not_elem_of_nil]]]; done.
Qed.

Lemma runes_ascii s : is_ascii s = true → runes s = map byte_val (list_ascii_of_string s).
Proof.
  unfold runes. induction s as [|c s IH]; simpl; [done|]. intros [Hc Hs]%andb_true_iff.
  unfold is_ascii in IH. rewrite Hc. simpl. by rewrite IH.
Qed.

Lemma encode_rune_ascii c : (byte_val c <? 0x80) = true → encode_rune (byte_val c) = String c "".
Proof.
  pose proof (all_ascii_spec (λ c, negb (byte_val c <? 0x80) || String.eqb (encode_rune (byte_val c)) (String c ""))
                ltac:(vm_compute; reflexivity) c) as H.
  cbv beta in H. intros Hc. rewrite Hc in H. by apply String.eqb_eq in H.
Qed.

(** ** What the pattern matches *)

Section Like.
Context {SL : SqlLike}.

(** The escaped text, byte by byte. *)
Fixpoint escaped (s : string) : string :=
  match s with
  | EmptyString => EmptyString
  | String c s =>
      (if mem (String c "") [String escape_char ""; "%"; "_"] then String escape_char "" else "")
      +:+ String c (escaped s)
  end.

Lemma likePrefix_escaped ns : ns_path ns = true → likePrefix ns = escaped ns +:+ "/%".
Proof.
  intros Hns. unfold likePrefix. f_equal.
  rewrite runes_ascii.
  2:{ unfold is_ascii, ns_path in *. induction ns as [|c ns IH]; simpl in *; [done|].
      apply andb_true_iff in Hns as [Hc Hs]. by rewrite (ns_byte_ascii _ Hc), IH. }
  unfold ns_path in Hns. induction ns as [|c ns IH]; [done|].
  cbn [all_bytes] in Hns. apply andb_true_iff in Hns as [Hc Hs].
  cbn [list_ascii_of_string map]. rewrite encode_rune_ascii by (by apply ns_byte_ascii).
  assert (Hj : ∀ w l, join "" (w :: l) = w +:+ join "" l).
  { intros w l. destruct l; [simpl; by rewrite app_nil_r_str|done]. }
  rewrite Hj, IH by done. cbn [escaped]. rewrite app_assoc_str. done.
Qed.

Lemma like_ns_char t c p :
  ns_byte c = true →
  like t ((if mem (String c "") [String escape_char ""; "%"; "_"] then String escape_char "" else "")
          +:+ String c p)
  = match t with String d t' => ci_eq c d && like t' p | EmptyString => false end.
Proof.
  intros Hc. destruct (Ascii.eqb_spec c "_") as [->|Hne].
  - change (mem "_" _) with true. cbn [String.append]. apply like_escaped.
  - apply Ascii.eqb_neq in Hne. pose proof (ns_byte_special _ Hc Hne) as Hsp.
    replace (mem (String c "") _) with false; [simpl; by apply like_char|].
    symmetry. apply not_true_iff_false. rewrite mem_spec, !elem_of_cons.
    intros [[= ->]|[[= ->]|[[= ->]|Hin%not_elem_of_nil]]]; try done; by apply Hsp; rewrite !elem_of_cons; auto.
Qed.

(** Only texts in lower case are compared, so the case folding is harmless. *)
Lemma like_under t ns :
  ns_path ns = true → ns_path t = true →
  like t (escaped ns +:+ "/%") = true ↔ ∃ rest, t = ns +:+ "/" +:+ rest.
Proof.
  revert t. induction ns as [|c ns IH]; intros t Hns Ht.
  - cbn [escaped String.append]. rewrite like_char by (vm_compute; intros; set_solver).
    destruct t as [|d t]; [split; [done|by intros (? & ?)]|]. rewrite like_any, andb_true_r.
    cbn [ns_path all_bytes] in Ht. apply andb_true_iff in Ht as [Hd _].
    unfold ci_eq. rewrite (ns_byte_lower d Hd). change (ascii_lower_byte "/") with "/"%char.
    rewrite Ascii.eqb_eq. split; [intros <-; by exists t|]. by intros (rest & [= -> _]).
  - cbn [ns_path all_bytes] in Hns. apply andb_true_iff in Hns as [Hc Hns].
    cbn [escaped]. rewrite app_assoc_str. cbn [String.append]. rewrite like_ns_char by done.
    destruct t as [|d t]; [split; [done|by intros (? & ?)]|].
    cbn [ns_path all_bytes] in Ht. apply andb_true_iff in Ht as [Hd Ht].
    unfold ci_eq. rewrite (ns_byte_lower d Hd), (ns_byte_lower c Hc), andb_true_iff, Ascii.eqb_eq, (IH t Hns Ht).
    split; [intros [-> (rest & ->)]; by exists rest|]. intros (rest & [= -> ->]). eauto.
Qed.

Lemma under_ns_path ns o :
  ns_path ns = true → ns_path (Namespace o) = true →
  under_ns ns o = true ↔ path_prefix ns (Namespace o).
Proof.
  intros Hns Ho. unfold under_ns, path_prefix.
  rewrite orb_true_iff, String.eqb_eq, likePrefix_escaped, like_under by done. done.
Qed.

(** The root is under no namespace. *)
Lemma under_ns_root ns o :
  ns_path ns = true → Root o = true → under_ns ns o = false.
Proof.
  intros Hns Ho%String.eqb_eq. unfold under_ns. rewrite Ho, likePrefix_escaped by done.
  apply orb_false_iff. split.
  - apply String.eqb_neq. intros <-. done.
  - destruct ns as [|c ns].
    + cbn [escaped String.append]. rewrite like_char by (vm_compute; intros; set_solver). done.
    + cbn [ns_path all_bytes] in Hns. apply andb_true_iff in Hns as [Hc Hns].
      cbn [escaped]. rewrite app_assoc_str. cbn [String.append]. rewrite like_ns_char by done.
      unfold ci_eq, RootObject. cbv iota. rewrite (ns_byte_lower c Hc). change (ascii_lower_byte "*") with "*"%char.
      cbv iota. assert (Hne : Ascii.eqb c "*" = false) by (apply Ascii.eqb_neq; intros ->; discriminate Hc).
      by rewrite Hne.
Qed.
End Like.
