(* ===== verification/AuthTheorems.v ===== *)
(** * The theorems of authentication and of the grant registry

    What a grant gives and a revocation takes away, that a deployment is not
    locked out, the life of a key and of a token, and who can present itself
    as whom; each with an instance at concrete data. *)
From Stdlib Require Import ZArith Lia Ascii String.
From stdpp Require Import base gmap strings list countable.
From S2P Require Import Prelude GoStrings AuthVerbs AuthIdentity AuthRegistry Authenticator AuthFacts AuthPaths.
Local Open Scope Z_scope.

Section Registry.
Context {SL : SqlLike} (faults : nat → bool).

(** C32. [EffectiveVerbs] answers exactly the verbs that some subject of the
    identity (its principal, or one of its groups) holds on the root, on the
    namespace of the object or an ancestor of it segment by segment, or on
    the table itself; nothing else reaches the object, so no grant is no
    access. *)
Theorem EffectiveVerbs_exact id obj r vs r'
    (H : EffectiveVerbs faults id obj r = (Done vs, r')) v :
  Has vs v = true ↔
  ∃ s o, s ∈ subjectsFor id ∧ holds r s o v
    ∧ (o = root_object
       ∨ Root obj = false ∧ (Table o = "" ∧ path_prefix (Namespace o) (Namespace obj)
                             ∨ o = obj ∧ Table obj ≠ "")).
Proof.
  destruct (EffectiveVerbs_ok faults _ _ _ _ _ H) as (_ & _ & Hv). rewrite Hv. unfold effective.
  setoid_rewrite elem_of_covering. naive_solver.
Qed.

(** [Grant] adds the verbs to what the subject holds on the object, and
    changes nothing else: for every identity, object and verb, access after is
    access before, or the new grant reaches it. *)
Theorem Grant_effect s o vs now r g r'
    (H : put_grant faults s o vs now r = (Done g, r')) (Hb : bytes_ok r) (Hvs : 0 ≤ vs < 256) :
  bytes_ok r' ∧ api_keys r' = api_keys r ∧ G_Verbs g = Z.lor (verbs_at r s o) vs
  ∧ ∀ id obj v, effective r' id obj v ↔
      effective r id obj v ∨ (s ∈ subjectsFor id ∧ o ∈ coveringObjects obj ∧ Has vs v = true).
Proof.
  destruct (put_grant_ok faults _ _ _ _ _ _ _ H Hb Hvs) as (Hb' & Hk & _ & _ & _ & _ & _ & Hg).
  split_and!; [done|done|done|]. intros id obj v. unfold effective.
  setoid_rewrite (holds_put_grant faults _ _ _ _ _ _ _ _ _ _ H Hb Hvs). naive_solver.
Qed.

(** [Revoke] takes away exactly the verbs it names from that subject on
    that object: every other subject, object and verb is as before, and what
    it reports as removed is what was held of them. *)
Theorem Revoke_effect s o vs keep reach now r left removed r'
    (H : Revoke faults s o vs keep reach now r = (Done (left, removed), r')) (Hb : bytes_ok r) :
  bytes_ok r' ∧ api_keys r' = api_keys r ∧ removed = Z.land (verbs_at r s o) vs
  ∧ ∀ s' o' v, holds r' s' o' v ↔ holds r s' o' v ∧ ¬ (s' = s ∧ o' = o ∧ Has vs v = true).
Proof. destruct (Revoke_ok faults _ _ _ _ _ _ _ _ _ _ H Hb) as (? & ? & ? & ? & _). auto. Qed.

(** No lockout by revoking a grant: with [keepRootAdmin], if some root
    administrator could present itself (its principal through an enabled
    source, or through an active key bearing it or its group), then after a
    [Revoke] that succeeds some still can. *)
Theorem Revoke_no_lockout s o vs reach now r x r'
    (H : Revoke faults s o vs true reach now r = (Done x, r')) (Hb : bytes_ok r)
    (Hu : usable_root r reach now) : usable_root r' reach now.
Proof. exact (Revoke_keeps_root faults _ _ _ _ _ _ _ _ H Hb Hu). Qed.

(** [DropNamespace] removes the grants on the namespace, on its tables
    and on all that lies under it, and no other: the pattern it sends matches
    no sibling whose name begins alike, and the grants on the root stay. *)
Theorem DropNamespace_exact ns r r'
    (H : DropNamespace faults ns r = (Done tt, r')) (Hns : ns_path ns = true)
    (Hobj : ∀ s o row, grants r !! (s, o) = Some row → Root o = true ∨ ns_path (Namespace o) = true) :
  ∀ s o v, holds r' s o v ↔ holds r s o v ∧ (Root o = true ∨ ¬ path_prefix ns (Namespace o)).
Proof.
  apply stmt_Done in H. simplify_eq/=. intros s o v. unfold holds. simpl.
  setoid_rewrite map_lookup_filter_Some. simpl. split.
  - intros (row & [Hg Hu] & Hv). split; [eauto|]. destruct (Hobj _ _ _ Hg) as [?|Ho]; [by left|].
    right. rewrite <-under_ns_path by done. by rewrite Hu.
  - intros [(row & Hg & Hv) Hk]. exists row. split_and!; [done| |done].
    destruct Hk as [Hr|Hn]; [by apply under_ns_root|].
    destruct (Hobj _ _ _ Hg) as [?|Ho]; [by apply under_ns_root|].
    apply not_true_iff_false. by rewrite under_ns_path.
Qed.

(** C40. An operation of the registry that fails leaves both tables as they
    were: whichever of its statements the database refuses, and when a guard
    refuses, nothing is half done. *)
Theorem failures_change_nothing hashKey s o vs keep reach now ns table body kid name principal groups expires id :
  fails_clean (put_grant faults s o vs now)
  ∧ fails_clean (Revoke faults s o vs keep reach now)
  ∧ fails_clean (DropNamespace faults ns)
  ∧ fails_clean (DropTable faults ns table)
  ∧ fails_clean (CreateKeyExpiring faults hashKey body kid name principal groups expires now)
  ∧ fails_clean (RevokeKey faults id keep reach now).
Proof.
  split_and!.
  - apply put_grant_clean.
  - apply Revoke_clean.
  - intros r e r'. apply stmt_Fail.
  - intros r e r'. apply stmt_Fail.
  - apply CreateKey_clean.
  - apply RevokeKey_clean.
Qed.
End Registry.

Section Keys.
Context (faults : nat → bool) (hashKey : string → string).

(** C34. No lockout by revoking a key: with [keepRootAdmin], if some root
    administrator could present itself, then after a [RevokeKey] that succeeds
    some still can; and every row of the key it revoked is revoked, while
    other keys and all grants are untouched. *)
Theorem RevokeKey_no_lockout id reach now r k did r'
    (H : RevokeKey faults id true reach now r = (Done (k, did), r')) :
  (usable_root r reach now → usable_root r' reach now)
  ∧ grants r' = grants r
  ∧ (did = true → ∀ row, row ∈ api_keys r' → kr_id row = id → kr_revoked row = true)
  ∧ (∀ row, row ∈ api_keys r → kr_id row ≠ id → row ∈ api_keys r').
Proof.
  destruct (RevokeKey_ok faults _ _ _ _ _ _ _ _ H) as (Hg & Hk & Hu). split_and!; [auto|done| |].
  - intros -> row Hrow Hid. rewrite Hk in Hrow. apply list_elem_of_In, in_map_iff in Hrow as (row0 & <- & _).
    destruct (String.eqb_spec (kr_id row0) id); [done|]. done.
  - intros row Hrow Hid. destruct did; rewrite Hk; [|done]. apply list_elem_of_In, in_map_iff.
    exists row. split; [|by apply list_elem_of_In]. by apply String.eqb_neq in Hid as ->.
Qed.

(** The life of a key: the secret [CreateKeyExpiring] hands out
    authenticates as the principal and the groups it was made for, at every
    moment before it expires; from its expiry on, and once [RevokeKey] has
    revoked it, it does not. *)
Theorem key_lifecycle body kid name principal groups expires now r k secret r1
    (H : CreateKeyExpiring faults hashKey body kid name principal groups expires now r = (Done (k, secret), r1))
    (Hl : length body = 32%nat) (Ho : all_octets body) (Hg : Forall (λ g, groupRe g = true) groups)
    (Hread : keys_readable r) :
  (∀ now', faults (calls r1) = false → from_option (λ e, now' < e) True expires →
     (key_authenticate faults hashKey now' secret r1).1 = Some (MkIdentity principal groups KeySourceName))
  ∧ (∀ now' e, expires = Some e → e ≤ now' → (key_authenticate faults hashKey now' secret r1).1 = None)
  ∧ (∀ now' keep reach k' r2, RevokeKey faults (K_ID k) keep reach now' r1 = (Done (k', true), r2) →
     ∀ now'', (key_authenticate faults hashKey now'' secret r2).1 = None).
Proof.
  destruct (CreateKey_ok faults hashKey _ _ _ _ _ _ _ _ _ _ _ H)
    as (_ & _ & _ & row & Hk & Hh & Hid & _ & Hc & _ & _ & Hx & Hfresh).
  split_and!.
  - intros now' Hf Hexp. eapply new_key_authenticates; eauto.
  - intros now' e -> He. destruct (key_authenticate _ _ now' secret r1) as [[id|] r2] eqn:E; [|done].
    apply key_authenticate_ok in E as (row' & k' & Hrow' & Hh' & (_ & Hs & Hne) & _).
    rewrite Hk in Hrow'. apply elem_of_app in Hrow' as [Hrow'| ->%list_elem_of_singleton].
    + by apply Hfresh in Hrow' as [? _].
    + unfold scanKey in Hs. rewrite Hc, Hx in Hs. simpl in Hs. injection Hs as <-.
      unfold Expired in Hne. simpl in Hne. apply Z.leb_gt in Hne. lia.
  - intros now' keep reach k' r2 Hrev now''. apply RevokeKey_ok in Hrev as (_ & Hk2 & _).
    destruct (key_authenticate _ _ now'' secret r2) as [[id|] r3] eqn:E; [|done].
    apply key_authenticate_ok in E as (row' & k'' & Hrow' & Hh' & (Hnr & _) & _).
    rewrite Hk2 in Hrow'. apply list_elem_of_In, in_map_iff in Hrow' as (row0 & <- & Hrow0%list_elem_of_In).
    destruct (String.eqb_spec (kr_id row0) (K_ID k)) as [|Hne]; [done|].
    rewrite Hk in Hrow0. apply elem_of_app in Hrow0 as [Hrow0| ->%list_elem_of_singleton]; [|congruence].
    by apply Hfresh in Hrow0 as [? _].
Qed.
End Keys.

(** ** Tokens *)

Section Tokens.
Context `{TC : TokenCodec}.

Lemma VerifyToken_ok ring token now id :
  VerifyToken ring token now = Done id →
  ∃ part0 part1 part2 rawHeader h pub sig rawClaims c,
    split token "." = [part0; part1; part2]
    ∧ b64_decode part0 = Some rawHeader ∧ decode_header rawHeader = Some h
    ∧ th_typ h = TokenType ∧ th_alg h = TokenAlg ∧ publicKeyFor ring (th_kid h) = Some pub
    ∧ b64_decode part2 = Some sig ∧ verify pub (part0 +:+ "." +:+ part1) sig = true
    ∧ b64_decode part1 = Some rawClaims ∧ decode_claims rawClaims = Some c
    ∧ tc_v c = TokenVersion ∧ tc_iss c = k_Deployment ring ∧ Unix now < tc_exp c
    ∧ tc_sub c ≠ AdminPrincipal ∧ principalRe (tc_sub c) = true
    ∧ forallb groupRe (tc_grp c) = true
    ∧ id = MkIdentity (tc_sub c) (tc_grp c) OIDCSourceName.
Proof.
  unfold VerifyToken. intros H.
  destruct (split token ".") as [|p0 [|p1 [|p2 [|]]]]; try done. unfold need, check in H.
  destruct (b64_decode p0) as [rh|] eqn:H0; [|done]. destruct (decode_header rh) as [h|] eqn:Hh; [|done].
  destruct (String.eqb (th_typ h) _ && _) eqn:Hty; [|done].
  destruct (publicKeyFor ring (th_kid h)) as [pub|] eqn:Hpub; [|done].
  destruct (b64_decode p2) as [sig|] eqn:H2; [|done]. destruct (verify pub _ sig) eqn:Hv; [|done].
  destruct (b64_decode p1) as [rc|] eqn:H1; [|done]. destruct (decode_claims rc) as [c|] eqn:Hc; [|done].
  destruct (tc_v c =? _) eqn:Hver; [|done]. destruct (String.eqb (tc_iss c) _) eqn:Hiss; [|done].
  destruct (tc_exp c <=? _) eqn:Hexp; cbn [negb] in H; [done|].
  destruct (negb _) eqn:Hsub; [|done]. destruct (forallb groupRe (tc_grp c)) eqn:Hg; [|done].
  injection H as <-. apply andb_true_iff in Hty as [?%String.eqb_eq ?%String.eqb_eq].
  apply negb_true_iff, orb_false_iff in Hsub as [[_ ?%String.eqb_neq]%orb_false_iff ?%negb_false_iff].
  apply Z.eqb_eq in Hver. apply String.eqb_eq in Hiss. apply Z.leb_gt in Hexp.
  by exists p0, p1, p2, rh, h, pub, sig, rc, c.
Qed.

(** A token is accepted only if its bytes carry a signature that a key of
    the ring verifies, over claims of this version, for this deployment, not
    yet expired, naming a usable principal that is not the bootstrap one. *)
Theorem VerifyToken_sound ring token now id (H : VerifyToken ring token now = Done id) :
  ∃ part0 part1 part2 sig kid pub rawClaims c,
    split token "." = [part0; part1; part2] ∧ publicKeyFor ring kid = Some pub
    ∧ b64_decode part2 = Some sig ∧ verify pub (part0 +:+ "." +:+ part1) sig = true
    ∧ b64_decode part1 = Some rawClaims ∧ decode_claims rawClaims = Some c
    ∧ tc_iss c = k_Deployment ring ∧ Unix now < tc_exp c
    ∧ Principal id = tc_sub c ∧ Groups id = tc_grp c
    ∧ principalRe (Principal id) = true ∧ Principal id ≠ AdminPrincipal
    ∧ Forall (λ g, groupRe g = true) (Groups id).
Proof.
  apply VerifyToken_ok in H as (p0 & p1 & p2 & rh & h & pub & sig & rc & c & ? & ? & ? & ? & ? & ? & ? & ? & ? & ? & ? & ? & ? & ? & ? & Hg & ->).
  exists p0, p1, p2, sig, (th_kid h), pub, rc, c. simpl. split_and!; try done.
  apply Forall_forall. rewrite forallb_forall in Hg. exact Hg.
Qed.

(** Tokens round-trip: what [MintToken] signs for a usable identity looks
    like a token and is accepted, as that identity, by every ring of the same
    deployment that has the public key, until the second it expires; after
    that it is refused. *)
Theorem token_roundtrip {TL : TokenCodecLaws} ring private principal groups ttl now token ring' now'
    (Hmint : MintToken ring private principal groups ttl now = Some token)
    (Hring : k_Deployment ring' = k_Deployment ring)
    (Hkey : publicKeyFor ring' (sk_ID (k_Active ring)) = Some (public_of private))
    (Hp : principalRe principal = true) (Hadmin : principal ≠ AdminPrincipal)
    (Hg : forallb groupRe groups = true) :
  LooksLikeToken token = true
  ∧ VerifyToken ring' token now'
    = (if Unix now' <? Unix (now + ttl) then Done (MkIdentity principal groups OIDCSourceName)
       else Fail ErrTokenInvalid).
Proof.
  unfold MintToken in Hmint. destruct (String.eqb (k_Deployment ring) "") eqn:Hd; [done|].
  apply (inj Some) in Hmint. subst token. set (h := encode_header _). set (c := encode_claims _).
  set (sg := sign private _).
  assert (Hsplit : split ((b64 h +:+ "." +:+ b64 c) +:+ "." +:+ b64 sg) "." = [b64 h; b64 c; b64 sg]).
  { rewrite !app_assoc_str. change ("." +:+ b64 c +:+ "." +:+ b64 sg) with (String "." (b64 c +:+ String "." (b64 sg))).
    rewrite split_app, split_app, split_lacks by apply b64_no_dot. done. }
  split.
  - unfold LooksLikeToken. assert (Hcount : ∀ s, lacks "." s → count_byte "." s = 0).
    { unfold lacks. intros s. induction s as [|x s IH]; simpl; [done|]. intros [-> Hs]%orb_false_iff. by rewrite IH. }
    assert (Happ : ∀ a b, count_byte "." (a +:+ b) = count_byte "." a + count_byte "." b).
    { intros a b. induction a; simpl; [done|]. rewrite IHa. lia. }
    rewrite !Happ. rewrite (Hcount (b64 h)), (Hcount (b64 c)), (Hcount (b64 sg)) by apply b64_no_dot. done.
  - unfold VerifyToken. rewrite Hsplit. unfold h, c. rewrite !b64_decode_b64. cbn [need].
    rewrite decode_encode_header. cbn [need th_typ th_alg th_kid]. rewrite !String.eqb_refl. cbn [andb check].
    rewrite Hkey. cbn [need]. unfold sg. fold h c.
    rewrite verify_sign. cbn [check]. unfold c. rewrite decode_encode_claims. cbn [need tc_v tc_iss tc_exp tc_sub tc_grp].
    rewrite Hring, Z.eqb_refl, String.eqb_refl. cbn [check].
    assert (Hne : String.eqb principal "" = false) by (apply String.eqb_neq; intros ->; done).
    apply String.eqb_neq in Hadmin. rewrite Hne, Hadmin, Hp, Hg. cbn [negb orb check].
    rewrite Z.leb_antisym, negb_involutive. by destruct (Unix now' <? Unix (now + ttl)).
Qed.
End Tokens.

(** ** The authenticator *)

Section Authenticator.
Context `{TC : TokenCodec} {UT : UnicodeTables} (faults : nat → bool) (hashKey : string → string).

(** No row of the key table bears the bootstrap principal: what
    [ValidateKeyIdentity] ensures of every key that is made. *)
Definition keys_safe (reg : registry) : Prop :=
  ∀ row, row ∈ api_keys reg → principalRe (kr_principal row) = true ∧ kr_principal row ≠ AdminPrincipal.

Lemma scanKey_principal row k : scanKey row = Done k → K_Principal k = kr_principal row.
Proof.
  unfold scanKey. destruct (kr_created row); [|done]. destruct (kr_expires row) as [[e|]|]; simpl; try done;
    by intros [= <-].
Qed.

(** C33. With authentication on, an identity comes from exactly one source,
    which the request itself selects: no bearer credential, the trusted proxy;
    one with the key prefix, an active key whose hash it has; one shaped as a
    token, a token that verifies; any other, the bootstrap credential itself.
    So only that credential yields the bootstrap principal. *)
Theorem Authenticate_sound a ring now r reg id reg'
    (H : Authenticate faults hashKey a ring now r reg = (Done id, reg'))
    (Hon : On (a_mode a) = true) (Hsafe : keys_safe reg) :
  match BearerToken r with
  | None => ∃ h, a_header a = Some h ∧ header_authenticate h r = Some id
  | Some token =>
      if has_prefix token KeyPrefix then
        a_keys a = true ∧ ∃ row k, row ∈ api_keys reg ∧ kr_hash row = hashKey token ∧ active_row row now k
        ∧ id = MkIdentity (K_Principal k) (K_Groups k) KeySourceName
      else if LooksLikeToken token then is_Some (a_tokens a) ∧ VerifyToken ring token now = Done id
      else a_admin a = Some token ∧ id = MkIdentity AdminPrincipal [] AdminKeySourceName
  end
  ∧ (Principal id = AdminPrincipal → ∃ key, a_admin a = Some key ∧ BearerToken r = Some key)
  ∧ principalRe (Principal id) = true.
Proof.
  unfold Authenticate in H. rewrite Hon in H. cbn [negb] in H.
  destruct (BearerToken r) as [token|] eqn:Hb.
  2:{ destruct (a_header a) as [h|]; [|done]. destruct (header_authenticate h r) as [id'|] eqn:Hh; [|done].
      injection H as <- <-. split; [eauto|]. apply header_authenticate_ok in Hh as (_ & ? & ? & _). done. }
  destruct (has_prefix token KeyPrefix) eqn:Hpre.
  { destruct (a_keys a); cbn [negb] in H; [|done].
    destruct (key_authenticate faults hashKey now token reg) as [[id'|] reg''] eqn:Hk; [|done].
    injection H as <- <-. apply key_authenticate_ok in Hk as (row & k & Hrow & Hh & Hact & -> & _).
    pose proof (Hsafe _ Hrow) as [Hp Hne]. destruct Hact as (Hrev & Hs & Hexp).
    rewrite <-(scanKey_principal _ _ Hs) in Hp, Hne. split; [|done].
    split; [done|]. exists row, k. done. }
  destruct (LooksLikeToken token).
  { destruct (a_tokens a) as [t|]; [|done]. destruct (VerifyToken ring token now) as [id'|e|] eqn:Hv; [|done..].
    injection H as <- <-. split; [eauto|].
    apply VerifyToken_ok in Hv as (? & ? & ? & ? & ? & ? & ? & ? & c & ? & ? & ? & ? & ? & ? & ? & ? & ? & ? & ? & ? & ? & ? & ? & ? & ->).
    done. }
  destruct (a_admin a) as [key|]; [|done]. unfold admin_authenticate in H. rewrite Hb in H.
  destruct (String.eqb_spec token key) as [->|]; [|done]. injection H as <- <-. split; [done|]. split; [eauto|done].
Qed.

(** ** The startup check *)

Lemma scan_all_readable rows :
  (∀ row, row ∈ rows → ∃ k, scanKey row = Done k) → ∃ ks, scan_all rows = Done ks.
Proof.
  induction rows as [|row rows IH]; intros H; simpl; [eauto|].
  destruct (H row) as (k & ->); [by left|]. destruct IH as (ks & ->); [|simpl; eauto].
  intros x Hx. apply H. by right.
Qed.

Lemma activeKeys_readable now reg :
  (∀ n, faults n = false) → keys_readable reg → ∃ ks reg', activeKeys faults now reg = (Done ks, reg').
Proof.
  intros Hf Hr. unfold activeKeys, abind, stmt. rewrite Hf. simpl.
  destruct (scan_all_readable (List.filter (λ k, negb (kr_revoked k)) (api_keys reg))) as (ks & ->); [|eauto].
  intros row [Hin _]%list_elem_of_In%filter_In. by apply Hr, list_elem_of_In.
Qed.

(** The active keys, and whether one of them bears an administrator. *)
Lemma active_bearer now reg admins :
  (∀ n, faults n = false) → keys_readable reg →
  ∃ ks reg', activeKeys faults now reg = (Done ks, reg')
  ∧ (rootReachableByKey admins ks "" = true ↔
     ∃ s, s ∈ admins ∧ ∃ row k, row ∈ api_keys reg ∧ active_row row now k ∧ K_ID k ≠ "" ∧ key_bears k s = true).
Proof.
  intros Hf Hr. destruct (activeKeys_readable now reg Hf Hr) as (ks & reg' & Hks). exists ks, reg'.
  split; [done|]. apply activeKeys_ok in Hks as (_ & _ & Hks). rewrite rootReachableByKey_spec.
  setoid_rewrite Hks. naive_solver.
Qed.

(** The startup check passes exactly when somebody can administer: when
    authentication is off, or a bootstrap credential is set, or some holder of
    admin on the root is a principal an enabled source can assert, or is borne
    by an active key while keys are accepted. *)
Theorem CheckRootAdministrator_exact a now reg
    (Hf : ∀ n, faults n = false) (Hr : keys_readable reg) :
  CheckRootAdministrator faults a now reg = Done tt ↔
  On (a_mode a) = false ∨ AdminKeyConfigured a = true
  ∨ ∃ s, holds reg s root_object VerbAdmin
      ∧ (principal_reachable (reach_of a) s = true
         ∨ KeySourceEnabled a = true
           ∧ ∃ row k, row ∈ api_keys reg ∧ active_row row now k ∧ K_ID k ≠ "" ∧ key_bears k s = true).
Proof.
  unfold CheckRootAdministrator.
  destruct (On (a_mode a)) eqn:Hon; cbn [negb orb]; [|tauto].
  destruct (AdminKeyConfigured a); [tauto|].
  assert (Hno : HeaderSourceEnabled a = false → OIDCEnabled a = false → ∀ s, principal_reachable (reach_of a) s = false).
  { intros H1 H2 s. unfold principal_reachable, PrincipalReachable, reach_of. simpl. rewrite H1, H2. apply andb_false_r. }
  destruct (negb (HeaderSourceEnabled a) && _ && _) eqn:Hsrc.
  { apply andb_true_iff in Hsrc as [[H1%negb_true_iff H2%negb_true_iff]%andb_true_iff H3%negb_true_iff].
    split; [done|]. intros [?|[?|(s & _ & [Hp|[? _]])]]; try done; [|congruence].
    by rewrite Hno in Hp. }
  unfold rootAdmins, stmt at 1. rewrite Hf. cbn [root_admins_of]. fold (root_admins_of (Registry (grants reg) (api_keys reg) (S (calls reg)))).
  set (reg1 := Registry _ _ _). assert (Hadm : ∀ s, s ∈ root_admins_of reg1 ↔ holds reg s root_object VerbAdmin)
    by exact (elem_of_root_admins reg1).
  case_bool_decide as Hnil.
  { split; [done|]. intros [?|[?|(s & Hs & _)]]; try done. apply Hadm in Hs. rewrite Hnil in Hs. by apply not_elem_of_nil in Hs. }
  destruct (existsb _ (root_admins_of reg1)) eqn:Hex.
  { split; [|done]. intros _. right. right. apply existsb_exists in Hex as (s & Hs%list_elem_of_In & Hp).
    exists s. split; [by apply Hadm|by left]. }
  assert (Hnp : ∀ s, holds reg s root_object VerbAdmin → principal_reachable (reach_of a) s = false).
  { intros s Hs%Hadm. rewrite existsb_false in Hex. by apply Hex. }
  destruct (KeySourceEnabled a); cbn [obind].
  - destruct (active_bearer now reg1 (root_admins_of reg1) Hf Hr) as (ks & reg2 & -> & Hby). cbn [obind].
    setoid_rewrite Hadm in Hby. destruct (rootReachableByKey _ ks ""); split; try done.
    + intros _. destruct (proj1 Hby eq_refl) as (s & ? & ?). right. right. eauto.
    + intros HF. by repeat case_match.
    + intros [?|[?|(s & Hs & [Hp|[_ Hk]])]]; [done..|by rewrite Hnp in Hp|].
      exfalso. assert (false = true) by (apply Hby; eauto). done.
  - split; [intros HF; by repeat case_match|].
    intros [?|[?|(s & Hs & [Hp|[? _]])]]; try done. by rewrite Hnp in Hp.
Qed.
End Authenticator.

(** ** The keyring *)

Section Keyring.
Context `{TC : TokenCodec}.

(** What may happen to the keyring while a refresh is under way: a sign-in
    replaces the ring, another refresh commits, the period is set. *)
Inductive ring_step : tokenSource → tokenSource → Prop :=
| step_replace t ring now : ring_step t (replace_ring t ring now)
| step_commit t before gen fresh now : ring_step t (keyring_commit t before gen fresh now).2
| step_period t every : ring_step t (RefreshTokensFrom t every).

Lemma ring_step_gen t t' : ring_step t t' → ts_gen t ≤ ts_gen t' ∧ (ts_gen t' = ts_gen t → ts_ring t' = ts_ring t).
Proof.
  destruct 1 as [t ring now|t before gen fresh now|t every]; simpl.
  - lia.
  - unfold keyring_commit. destruct fresh; [|simpl; split; [lia|done]]. destruct (negb _); simpl; split; try lia; done.
  - split; [lia|done].
Qed.

Lemma ring_steps_gen t t' : rtc ring_step t t' → ts_gen t ≤ ts_gen t' ∧ (ts_gen t' = ts_gen t → ts_ring t' = ts_ring t).
Proof.
  induction 1 as [t|t1 t2 t3 H12 _ [IH1 IH2]]; [split; [lia|done]|].
  apply ring_step_gen in H12 as [H1 H2]. split; [lia|]. intros. rewrite IH2, H2 by lia. done.
Qed.

(** A refresh never undoes a newer ring: one that began before the ring
    was replaced, whatever else was interleaved, changes nothing when it
    commits and answers the ring then held; one during which nothing changed
    the ring installs what it loaded. *)
Theorem refresh_never_stale t0 now0 gen t1 t2 before fresh now
    (Hbegin : keyring_begin t0 now0 = inr gen) (H01 : rtc ring_step t0 t1) :
  (∀ ring now1, rtc ring_step (replace_ring t1 ring now1) t2 →
     keyring_commit t2 before gen (Some fresh) now = (ts_ring t2, t2))
  ∧ (ts_gen t1 = gen →
     ts_ring t1 = ts_ring t0 ∧ (keyring_commit t1 before gen (Some fresh) now).1 = fresh
     ∧ ts_ring (keyring_commit t1 before gen (Some fresh) now).2 = fresh).
Proof.
  unfold keyring_begin in Hbegin. destruct (_ || _); [done|]. injection Hbegin as <-.
  apply ring_steps_gen in H01 as [Hle Hsame]. split.
  - intros ring now1 [Hle2 _]%ring_steps_gen. simpl in Hle2. unfold keyring_commit.
    replace (ts_gen t2 =? ts_gen t0) with false by (symmetry; apply Z.eqb_neq; lia). done.
  - intros Heq. split; [auto|]. unfold keyring_commit. by rewrite Heq, Z.eqb_refl.
Qed.
End Keyring.

(** ** Verbs, groups and qualified principals *)

(** [ParseVerbs] accepts exactly the non-empty lists of known verbs
    without a repetition, the set it answers has exactly the verbs listed, and
    [Strings] undoes it for every set. *)
Theorem ParseVerbs_exact raw :
  (∀ t, ParseVerbs raw = Done t ↔
     (raw ≠ [] ∧ NoDup raw ∧ (∀ v, v ∈ raw → v ∈ VerbOrder)) ∧ t = NewVerbSet raw)
  ∧ Forall (λ s, s = 0 ∨ ParseVerbs (Strings s) = Done s) all_sets.
Proof.
  split.
  - intros t. unfold NewVerbSet. split.
    + intros H. pose proof (ParseVerbs_Done _ _ H) as (? & ? & ? & _). split; [done|].
      destruct raw as [|r raw]; [done|]. by apply ParseVerbs_loop_value in H.
    + intros [(Hne & Hnd & Hin) ->]. destruct raw as [|r raw]; [done|].
      apply ParseVerbs_loop_accepts; [done|set_solver|done].
  - assert (Hall : forallb (λ s, bool_decide (s = 0 ∨ ParseVerbs (Strings s) = Done s)) all_sets = true)
      by (vm_compute; reflexivity).
    rewrite forallb_forall in Hall. apply List.Forall_forall. intros s Hs.
    exact (proj1 (bool_decide_eq_true _) (Hall s Hs)).
Qed.

(** Principals of an identity provider are told apart: a qualified
    principal is usable and never the bootstrap one, it names its issuer, and
    two claims qualified alike are the same claim of the same issuer; a
    deployment that accepts only that issuer can reach it, and one that
    accepts only another cannot. *)
Theorem QualifyOIDC_injective d c q d' c' other
    (H : QualifyOIDC d c = Done q) (Hd : len d = OIDCDigestLen) (Hl : lacks ":" d) :
  principalRe q = true ∧ q ≠ AdminPrincipal ∧ OIDCIssuerOf q = Some d
  ∧ (len d' = OIDCDigestLen → lacks ":" d' → QualifyOIDC d' c' = Done q → d' = d ∧ c' = c)
  ∧ PrincipalReachable (MkReach false true other) q = String.eqb d other.
Proof.
  apply QualifyOIDC_ok in H as (-> & Hp & Ha & _). pose proof (OIDCIssuerOf_qualified d c Hd Hl) as Hiss.
  split_and!; [done..| |].
  - intros Hd' Hl' (Heq & _)%QualifyOIDC_ok.
    assert (d' = d) as ->.
    { pose proof (OIDCIssuerOf_qualified d' c' Hd' Hl') as Hiss'. rewrite <-Heq in Hiss'. congruence. }
    split; [done|]. apply app_inv_head_str in Heq. apply app_inv_head_str in Heq. by injection Heq.
  - unfold PrincipalReachable. cbn [rc_Header rc_OIDC rc_OIDCIssuer]. by rewrite Hiss.
Qed.

(** ** The theorems at concrete data *)

(** SQLite's LIKE with the escape, on texts of ASCII characters. *)
Fixpoint like_match (p t : string) {struct p} : bool :=
  match p with
  | EmptyString => String.eqb t ""
  | String c p' =>
      if Ascii.eqb c "%" then
        (fix any (t : string) : bool :=
           like_match p' t || match t with String _ t' => any t' | EmptyString => false end) t
      else if Ascii.eqb c "_" then match t with String _ t' => like_match p' t' | EmptyString => false end
      else if Ascii.eqb c escape_char then
        match p' with
        | String c' p'' => match t with String d t' => ci_eq c' d && like_match p'' t' | EmptyString => false end
        | EmptyString => false
        end
      else match t with String d t' => ci_eq c d && like_match p' t' | EmptyString => false end
  end.

#[local] Program Instance ascii_like : SqlLike := {| like t p := like_match p t |}.
Next Obligation. intros t. induction t as [|c t IH]; [done|]. simpl in *. by rewrite IH. Qed.
Next Obligation.
  intros t c p Hc. rewrite !not_elem_of_cons in Hc. destruct Hc as (H1%Ascii.eqb_neq & H2%Ascii.eqb_neq & H3%Ascii.eqb_neq & _).
  cbn [like_match]. by rewrite H1, H2, H3.
Qed.
Next Obligation. done. Qed.
#[local] Existing Instance ascii_tables.

Definition no_faults : nat → bool := λ _, false.
Definition alice : Subject := MkSubject SubjectPrincipal "alice".
Definition staff : Subject := MkSubject SubjectGroup "staff".
Definition docs : Object_ := MkObject "team_a/docs" "".
Definition sample_row (hash : string) : key_row := KeyRow "k1" hash "ci" "alice" "staff" false (Some 0) None.
Definition sample_registry : registry :=
  Registry {[ (alice, root_object) := GrantRow 32 (Some 0); (staff, docs) := GrantRow 3 (Some 0);
              (staff, root_object) := GrantRow 32 (Some 0);
              (staff, MkObject "teamza/docs" "") := GrantRow 2 (Some 0) ]} [sample_row "h"] 0.
Definition bob : Identity := MkIdentity "bob" ["staff"] HeaderSourceName.
Definition no_reach : Reach := MkReach false false "".

Lemma sample_bytes : bytes_ok sample_registry.
Proof.
  intros k row H. apply (rows_forallb sample_registry (λ _ row, (0 <=? gr_verbs row) && (gr_verbs row <? 256))) in H.
  - apply andb_true_iff in H as [?%Z.leb_le ?%Z.ltb_lt]. done.
  - vm_compute. reflexivity.
Qed.

Lemma sample_usable : usable_root sample_registry no_reach 5.
Proof.
  exists staff. split; [by eexists; split; vm_compute; reflexivity|]. right.
  exists (sample_row "h"), (MkKey "k1" "ci" "alice" ["staff"] false 0 None).
  split; [by left|]. split; [done|]. vm_compute. reflexivity.
Qed.

Lemma EffectiveVerbs_exact_witness :
  Has 35 VerbRead = true ↔
  ∃ s o, s ∈ subjectsFor bob ∧ holds sample_registry s o VerbRead
    ∧ (o = root_object ∨ false = false ∧ (Table o = "" ∧ path_prefix (Namespace o) "team_a/docs/2024"
       ∨ o = MkObject "team_a/docs/2024" "t" ∧ "t" ≠ "")).
Proof.
  refine (EffectiveVerbs_exact no_faults bob (MkObject "team_a/docs/2024" "t") sample_registry 35
    (EffectiveVerbs no_faults bob (MkObject "team_a/docs/2024" "t") sample_registry).2 _ VerbRead).
  vm_compute. reflexivity.
Defined.

Lemma Grant_effect_witness :
  let r' := (put_grant no_faults staff docs 4 9 sample_registry).2 in
  effective r' bob docs VerbUpdate ↔
  effective sample_registry bob docs VerbUpdate
  ∨ (staff ∈ subjectsFor bob ∧ docs ∈ coveringObjects docs ∧ Has 4 VerbUpdate = true).
Proof.
  assert (H : put_grant no_faults staff docs 4 9 sample_registry
    = (Done (MkGrant staff docs 7 0), (put_grant no_faults staff docs 4 9 sample_registry).2))
    by (vm_compute; reflexivity).
  destruct (Grant_effect no_faults _ _ _ _ _ _ _ H sample_bytes ltac:(lia)) as (_ & _ & _ & He). apply He.
Defined.

Lemma Revoke_effect_witness :
  let r' := (Revoke no_faults staff docs 1 true no_reach 5 sample_registry).2 in
  holds r' staff docs VerbRead ↔ holds sample_registry staff docs VerbRead ∧ ¬ (staff = staff ∧ docs = docs ∧ Has 1 VerbRead = true).
Proof.
  assert (H : Revoke no_faults staff docs 1 true no_reach 5 sample_registry
    = (Done (Some (MkGrant staff docs 2 0), 1), (Revoke no_faults staff docs 1 true no_reach 5 sample_registry).2))
    by (vm_compute; reflexivity).
  destruct (Revoke_effect no_faults _ _ _ _ _ _ _ _ _ _ H sample_bytes) as (_ & _ & _ & He). apply He.
Defined.

Lemma Revoke_no_lockout_witness :
  usable_root (Revoke no_faults alice root_object 127 true no_reach 5 sample_registry).2 no_reach 5.
Proof.
  refine (Revoke_no_lockout no_faults alice root_object 127 no_reach 5 sample_registry (None, 32) _ _ sample_bytes sample_usable).
  vm_compute. reflexivity.
Defined.

Lemma DropNamespace_exact_witness :
  let r' := (DropNamespace no_faults "team_a" sample_registry).2 in
  holds r' staff docs VerbRead ↔ holds sample_registry staff docs VerbRead ∧ (false = true ∨ ¬ path_prefix "team_a" "team_a/docs").
Proof.
  refine (DropNamespace_exact no_faults "team_a" sample_registry _ _ _ _ staff docs VerbRead).
  - vm_compute. reflexivity.
  - reflexivity.
  - intros s o row H.
    apply orb_true_iff. revert H.
    apply (rows_forallb sample_registry (λ k _, Root k.2 || ns_path (Namespace k.2))).
    vm_compute. reflexivity.
Defined.

Definition spare_row : key_row := KeyRow "k2" "h2" "spare" "alice" "" false (Some 0) None.
Definition two_keys : registry := Registry (grants sample_registry) [sample_row "h"; spare_row] 0.

Lemma two_keys_usable : usable_root two_keys no_reach 5.
Proof.
  exists staff. split; [by eexists; split; vm_compute; reflexivity|]. right.
  exists (sample_row "h"), (MkKey "k1" "ci" "alice" ["staff"] false 0 None).
  split; [by left|]. split; [done|]. vm_compute. reflexivity.
Qed.

Lemma RevokeKey_no_lockout_witness :
  usable_root (RevokeKey no_faults "k1" true no_reach 5 two_keys).2 no_reach 5.
Proof.
  refine (proj1 (RevokeKey_no_lockout no_faults "k1" no_reach 5 two_keys
    (Some (MkKey "k1" "ci" "alice" ["staff"] true 0 None)) true _ _) two_keys_usable).
  vm_compute. reflexivity.
Defined.

Definition sample_body : list Z := map Z.of_nat (seq 100 32).
Definition sample_hash (s : string) : string := s.

Lemma key_lifecycle_witness :
  let r1 := (CreateKeyExpiring no_faults sample_hash sample_body [1; 2] "ci" "carol" ["dev"] (Some 50) 7 sample_registry).2 in
  let secret := KeyPrefix +:+ b64url sample_body in
  (key_authenticate no_faults sample_hash 49 secret r1).1 = Some (MkIdentity "carol" ["dev"] KeySourceName)
  ∧ (key_authenticate no_faults sample_hash 50 secret r1).1 = None.
Proof.
  assert (H : CreateKeyExpiring no_faults sample_hash sample_body [1; 2] "ci" "carol" ["dev"] (Some 50) 7 sample_registry
    = (Done (MkKey "0102" "ci" "carol" ["dev"] false 7 (Some 50), KeyPrefix +:+ b64url sample_body),
       (CreateKeyExpiring no_faults sample_hash sample_body [1; 2] "ci" "carol" ["dev"] (Some 50) 7 sample_registry).2))
    by (vm_compute; reflexivity).
  destruct (key_lifecycle no_faults sample_hash _ _ _ _ _ _ _ _ _ _ _ H) as (H1 & H2 & _).
  - reflexivity.
  - unfold all_octets, sample_body. apply List.Forall_map, List.Forall_forall. intros n Hn%in_seq. lia.
  - repeat constructor.
  - intros row [->|[]%not_elem_of_nil]%elem_of_cons. by eexists.
  - split; [apply H1; [done|simpl; lia]|apply (H2 50 50); [done|lia]].
Defined.

(** A codec in which every value is written as the digits of its number. *)
Fixpoint digits (p : positive) : string :=
  match p with xH => "1" | xO p => String "0" (digits p) | xI p => String "2" (digits p) end.
Fixpoint undigits (s : string) : positive :=
  match s with
  | String c s => if Ascii.eqb c "0" then xO (undigits s) else if Ascii.eqb c "2" then xI (undigits s) else xH
  | EmptyString => xH
  end.
Lemma undigits_digits p : undigits (digits p) = p.
Proof. induction p; simpl; congruence. Qed.
Lemma digits_no_dot p : lacks "." (digits p).
Proof. unfold lacks. induction p; simpl; auto. Qed.

Definition write {A} `{Countable A} (a : A) : string := digits (encode a).
Definition read {A} `{Countable A} (s : string) : option A := decode (undigits s).
Lemma read_write {A} `{Countable A} (a : A) : read (write a) = Some a.
Proof. unfold read, write. by rewrite undigits_digits, decode_encode. Qed.

Definition header_tuple (h : tokenHeader) := (th_typ h, th_alg h, th_kid h).
Definition claims_tuple (c : tokenClaims) := (tc_v c, tc_iss c, tc_sub c, tc_grp c, tc_iat c, tc_exp c).

#[local] Instance digit_codec : TokenCodec := {|
  PublicKey := string; PrivateKey := string; public_of k := k;
  sign k m := k +:+ m; verify k m s := String.eqb s (k +:+ m);
  encode_header h := write (header_tuple h);
  decode_header s := (λ t, TokenHeader t.1.1 t.1.2 t.2) <$> (read s : option (string * string * string));
  encode_claims c := write (claims_tuple c);
  decode_claims s := (λ t, TokenClaims t.1.1.1.1.1 t.1.1.1.1.2 t.1.1.1.2 t.1.1.2 t.1.2 t.2)
                     <$> (read s : option (Z * string * string * list string * Z * Z));
  b64 s := write s; b64_decode s := read s |}.

#[local] Instance digit_codec_laws : TokenCodecLaws.
Proof.
  split.
  - intros. apply String.eqb_refl.
  - intros []. cbn [decode_header encode_header digit_codec]. by rewrite read_write.
  - intros []. cbn [decode_claims encode_claims digit_codec]. by rewrite read_write.
  - intros. apply read_write.
  - intros. apply digits_no_dot.
Qed.

Definition sample_ring : Keyring :=
  MkKeyring "dep" (MkSigningKey "kid" (Some "secret") (Some "secret") false) [].
Definition sample_token : string :=
  default "" (MintToken sample_ring "secret" "dana" ["dev"] hour 0).

Lemma token_roundtrip_witness :
  VerifyToken sample_ring sample_token second = Done (MkIdentity "dana" ["dev"] OIDCSourceName).
Proof.
  refine (proj2 (token_roundtrip sample_ring "secret" "dana" ["dev"] hour 0 sample_token sample_ring second
    _ _ _ _ _ _)); try reflexivity. discriminate.
Defined.

Lemma sample_token_verifies :
  VerifyToken sample_ring sample_token second = Done (MkIdentity "dana" ["dev"] OIDCSourceName).
Proof. vm_compute. reflexivity. Qed.

Lemma VerifyToken_sound_witness : principalRe "dana" = true ∧ "dana" ≠ AdminPrincipal.
Proof.
  destruct (VerifyToken_sound sample_ring sample_token second _ sample_token_verifies)
    as (? & ? & ? & ? & ? & ? & ? & ? & _ & _ & _ & _ & _ & _ & _ & _ & _ & _ & Hp & Ha & _).
  exact (conj Hp Ha).
Defined.

Definition sample_admin : Authenticator :=
  MkAuthenticator ModeOn (Some "0123456789abcdef0123456789abcdef") None true None "" 0.

Lemma Authenticate_sound_witness :
  ∃ key, a_admin sample_admin = Some key
    ∧ BearerToken (Request "Bearer 0123456789abcdef0123456789abcdef" "" "" "") = Some key.
Proof.
  refine (proj1 (proj2 (Authenticate_sound no_faults sample_hash sample_admin sample_ring 5
    (Request "Bearer 0123456789abcdef0123456789abcdef" "" "" "") sample_registry
    (MkIdentity AdminPrincipal [] AdminKeySourceName) sample_registry _ _ _)) _).
  - vm_compute. reflexivity.
  - reflexivity.
  - intros row [->|[]%not_elem_of_nil]%elem_of_cons. split; [reflexivity|discriminate].
  - reflexivity.
Defined.

Lemma refresh_never_stale_witness :
  let t0 := TokenSource sample_ring 0 3 10 in
  let ring := MkKeyring "dep" (MkSigningKey "new" None (Some "k") false) [] in
  let t2 := replace_ring t0 ring 30 in
  keyring_commit t2 sample_ring 3 (Some sample_ring) 40 = (ring, t2).
Proof.
  refine (proj1 (refresh_never_stale (TokenSource sample_ring 0 3 10) 20 3 (TokenSource sample_ring 0 3 10) _
    sample_ring sample_ring 40 _ _) _ _ _).
  - reflexivity.
  - apply rtc_refl.
  - apply rtc_refl.
Defined.

Lemma QualifyOIDC_injective_witness :
  OIDCIssuerOf "oidc:v1:abcdefghijklmnopqrstuvwxyz:eve" = Some "abcdefghijklmnopqrstuvwxyz".
Proof.
  refine (proj1 (proj2 (proj2 (QualifyOIDC_injective "abcdefghijklmnopqrstuvwxyz" "eve" _ "" "" "" _ _ _))));
    vm_compute; reflexivity.
Defined.

Lemma CheckRootAdministrator_exact_witness :
  CheckRootAdministrator no_faults (MkAuthenticator ModeOn None None true None "" 0) 5 sample_registry = Done tt.
Proof.
  apply (CheckRootAdministrator_exact no_faults (MkAuthenticator ModeOn None None true None "" 0) 5 sample_registry).
  - reflexivity.
  - intros row [->|[]%not_elem_of_nil]%elem_of_cons. by eexists.
  - right. right. exists staff. split; [by eexists; split; vm_compute; reflexivity|]. right. split; [done|].
    exists (sample_row "h"), (MkKey "k1" "ci" "alice" ["staff"] false 0 None).
    split; [by left|]. split; [done|]. split; [discriminate|vm_compute; reflexivity].
Defined.
