(* ===== verification/SchemaIdent.v ===== *)
(** * Names of tables and fields ([internal/schema/schema.go], [keywords.go],
    [engine_keywords.go] and [filename.go])

    Which names are accepted, the names suggested and inferred when one is
    not, and the file names and media types a file field takes. *)
From Stdlib Require Import ZArith Lia Ascii String.
From stdpp Require Import base gmap strings list.
From S2P Require Import Prelude GoStrings AuthIdentity.
Local Open Scope Z_scope.

(** ** The words that cannot name anything *)

Definition sqlKeywords : list string :=
  [
   "abort"; "action"; "add"; "after"; "all"; "alter"; "always"; "analyze"; "and"; "as"; "asc";
   "attach"; "autoincrement"; "before"; "begin"; "between"; "by"; "cascade"; "case"; "cast";
   "check"; "collate"; "column"; "commit"; "conflict"; "constraint"; "create"; "cross";
   "current"; "current_date"; "current_time"; "current_timestamp"; "database"; "default";
   "deferrable"; "deferred"; "delete"; "desc"; "detach"; "distinct"; "do"; "drop"; "each";
   "else"; "end"; "escape"; "except"; "exclude"; "exclusive"; "exists"; "explain"; "fail";
   "filter"; "first"; "following"; "for"; "foreign"; "from"; "full"; "generated"; "glob";
   "group"; "groups"; "having"; "if"; "ignore"; "immediate"; "in"; "index"; "indexed";
   "initially"; "inner"; "insert"; "instead"; "intersect"; "into"; "is"; "isnull"; "join"; "key";
   "last"; "left"; "like"; "limit"; "match"; "materialized"; "natural"; "no"; "not"; "nothing";
   "notnull"; "null"; "nulls"; "of"; "offset"; "on"; "or"; "order"; "others"; "outer"; "over";
   "partition"; "plan"; "pragma"; "preceding"; "primary"; "query"; "raise"; "range"; "recursive";
   "references"; "regexp"; "reindex"; "release"; "rename"; "replace"; "restrict"; "returning";
   "right"; "rollback"; "row"; "rows"; "savepoint"; "select"; "set"; "table"; "temp";
   "temporary"; "then"; "ties"; "to"; "transaction"; "trigger"; "unbounded"; "union"; "unique";
   "update"; "using"; "vacuum"; "values"; "view"; "virtual"; "when"; "where"; "window"; "with";
   "without"].

Definition engineKeywords : list (string * list string) :=
  [("postgresql", [
   "analyse"; "any"; "array"; "asymmetric"; "authorization"; "binary"; "both"; "collation";
   "concurrently"; "current_catalog"; "current_role"; "current_schema"; "current_user"; "false";
   "fetch"; "freeze"; "grant"; "ilike"; "lateral"; "leading"; "localtime"; "localtimestamp";
   "only"; "overlaps"; "placing"; "session_user"; "similar"; "some"; "symmetric"; "system_user";
   "tablesample"; "trailing"; "true"; "user"; "variadic"; "verbose"]);
   ("duckdb", [
   "analyse"; "anti"; "any"; "array"; "asof"; "asymmetric"; "at"; "authorization"; "binary";
   "both"; "collation"; "concurrently"; "describe"; "false"; "fetch"; "freeze"; "ilike";
   "lambda"; "lateral"; "leading"; "only"; "overlaps"; "pivot"; "pivot_longer"; "pivot_wider";
   "placing"; "positional"; "qualify"; "semi"; "show"; "similar"; "some"; "summarize";
   "symmetric"; "tablesample"; "trailing"; "true"; "unpack"; "unpivot"; "variadic"; "verbose"])].

Definition reserved : list string := ["id"; "created_at"; "_embedding"; "_score"; "_rank"; "rowid"].
Definition forbidden : list string := reserved ++ sqlKeywords.

Definition reservedSuggestions : list (string * string) :=
  [("id", "record_id"); ("created_at", "created_time"); ("_embedding", "embedding");
   ("_score", "score"); ("_rank", "rank"); ("rowid", "record_id")].

(** ** Identifiers *)

Definition lower_letter (c : ascii) : bool := byte_in 97 122 c.
Definition digit_byte (c : ascii) : bool := byte_in 48 57 c.
Definition ident_byte (c : ascii) : bool := lower_letter c || digit_byte c || Ascii.eqb c "_".

(** [^[a-z][a-z0-9_]{0,63}$] *)
Definition identRe (s : string) : bool :=
  match s with
  | EmptyString => false
  | String c _ => lower_letter c && all_bytes ident_byte s && (len s <=? 64)
  end.

Definition ValidIdent (s : string) : bool := identRe s && negb (mem s forbidden).
Definition ValidIdentSyntax (s : string) : bool := identRe s.

Definition SuggestIdent (name : string) : string :=
  if ValidIdent name then name
  else match assoc name reservedSuggestions with
       | Some s => if ValidIdent s then s
                   else match find ValidIdent ["my_" +:+ name; name +:+ "_field"] with
                        | Some c => c | None => "a different name" end
       | None => match find ValidIdent ["my_" +:+ name; name +:+ "_field"] with
                 | Some c => c | None => "a different name" end
       end.

(** Why a name is refused; a suggestion goes with the words. *)
Inductive ident_error :=
| BadIdent (what name : string)
| ReservedName (what name suggestion : string)
| KeywordName (what name suggestion : string)
| TableHasFts (name : string) | TableSqlite (name : string) | TablePragma (name : string)
| TableDbstat (name : string)
| EngineKeyword (what name suggestion : string).

Definition ValidateIdent (name what : string) : outcome ident_error () :=
  if negb (identRe name) then Fail (BadIdent what name)
  else if mem name reserved then Fail (ReservedName what name (SuggestIdent name))
  else if mem name sqlKeywords then Fail (KeywordName what name (SuggestIdent name))
  else Done ().

Definition ValidateTableName (name : string) : outcome ident_error () :=
  let! _ := ValidateIdent name "table name" in
  if contains name "__fts" then Fail (TableHasFts name)
  else if has_prefix name "sqlite_" then Fail (TableSqlite name)
  else if has_prefix name "pragma_" then Fail (TablePragma name)
  else if String.eqb name "dbstat" then Fail (TableDbstat name)
  else Done ().

Definition ValidTableName (s : string) : bool :=
  match ValidateTableName s with Done _ => true | _ => false end.

Definition engineWords (dialect : string) : list string := default [] (assoc dialect engineKeywords).

Definition ValidateEngineIdent (dialect name what : string) : outcome ident_error () :=
  let words := engineWords dialect in
  if negb (mem name words) then Done ()
  else
    let free c := ValidIdent c && negb (mem c words) in
    Fail (EngineKeyword what name
            (match find free ["my_" +:+ name; name +:+ "_field"] with
             | Some c => c | None => "a different name" end)).

(** ** Inferred names *)

Section Clean.
Context {UT : UnicodeTables}.

Definition clean_rune (r : Z) : ascii :=
  if in_range 97 122 r || in_range 48 57 r || (r =? 95) then byte_of r else "_"%char.

Fixpoint of_bytes (l : list ascii) : string :=
  match l with [] => EmptyString | c :: l => String c (of_bytes l) end.

(** [cleanName]: every rune kept is a byte, so the slices of runes are texts. *)
Definition cleanName (raw : string) : string :=
  let s := str_take 64 (of_bytes (map clean_rune (runes (to_lower raw)))) in
  match s with
  | EmptyString => "x"
  | String c _ =>
      let s := if lower_letter c then s else str_take 64 (String "x" s) in
      if mem s forbidden then
        if len s <? 64 then s +:+ "_" else str_take 63 s +:+ "_"
      else s
  end.

(** The base of a key under a dialect, as [InferSchemaIn] groups them. *)
Definition base_name (dialect raw : string) : string :=
  let base := cleanName raw in
  if mem base (engineWords dialect) then base +:+ "_" else base.
End Clean.

(** [fmt.Sprintf("_%d", n)] for a positive [n]. *)
Fixpoint decimal_loop (fuel : nat) (n : Z) (acc : string) : string :=
  match fuel with
  | O => acc
  | S f => if n =? 0 then acc else decimal_loop f (n / 10) (String (byte_of (48 + n mod 10)) acc)
  end.
Definition decimal (n : Z) : string := decimal_loop (Z.to_nat n) n "".

Definition candidate (desired : string) (n : Z) : string :=
  let suffix := "_" +:+ decimal n in
  let stem := if 64 <? len desired + len suffix
              then str_take (Z.to_nat (64 - len suffix)) desired else desired in
  stem +:+ suffix.

(** [freeName], from the counter [n]. *)
Fixpoint freeName_from (fuel : nat) (n : Z) (desired : string) (taken : list string) : option string :=
  match fuel with
  | O => None
  | S f => let c := candidate desired n in
           if negb (mem c taken) && ValidIdent c then Some c
           else freeName_from f (n + 1) desired taken
  end.

(** The candidates are distinct, so one of the first [taken + forbidden + 1]
    is free. *)
Definition freeName (desired : string) (taken : list string) : option string :=
  freeName_from (S (length taken + length forbidden)) 2 desired taken.

(** The two passes of [InferSchemaIn] over the sorted units' desired names:
    the first holder of a name gets it, the others a free one. *)
Fixpoint first_pass (desired taken : list string) : list (option string) * list string :=
  match desired with
  | [] => ([], taken)
  | d :: desired =>
      if mem d taken then let '(rest, taken) := first_pass desired taken in (None :: rest, taken)
      else let '(rest, taken) := first_pass desired (d :: taken) in (Some d :: rest, taken)
  end.

Fixpoint second_pass (desired : list string) (names : list (option string)) (taken : list string)
    : option (list string) :=
  match desired, names with
  | d :: desired, Some n :: names => cons n <$> second_pass desired names taken
  | d :: desired, None :: names =>
      match freeName d taken with
      | Some n => cons n <$> second_pass desired names (n :: taken)
      | None => None
      end
  | _, _ => Some []
  end.

Definition assign_names (desired : list string) : option (list string) :=
  let '(names, taken) := first_pass desired [] in second_pass desired names taken.
