(* ===== verification/SchemaNames.v ===== *)
(** * Facts about names

    Cleaned names are always acceptable, the numbered candidates are distinct
    and one of them is free, so that inference names every field and no two
    alike. *)
From Stdlib Require Import ZArith Lia Ascii String.
From stdpp Require Import base gmap strings list.
From S2P Require Import Prelude GoStrings AuthIdentity AuthPaths SchemaIdent.
Local Open Scope Z_scope.

(** ** Cutting texts *)

Lemma len_str_take n s : len (str_take n s) ≤ Z.of_nat n.
Proof.
  revert s. induction n as [|n IH]; intros s; simpl; [by rewrite len_nil|].
  destruct s as [|c s]; [rewrite len_nil; lia|]. rewrite len_cons. specialize (IH s). lia.
Qed.

Lemma len_str_take_le n s : len (str_take n s) ≤ len s.
Proof.
  revert s. induction n as [|n IH]; intros s; simpl; [rewrite len_nil; apply len_nonneg|].
  destruct s as [|c s]; [done|]. rewrite !len_cons. specialize (IH s). lia.
Qed.

Lemma all_bytes_take f n s : all_bytes f s = true → all_bytes f (str_take n s) = true.
Proof.
  revert s. induction n as [|n IH]; intros s; simpl; [done|].
  destruct s as [|c s]; [done|]. simpl. intros [-> Hs]%andb_true_iff. by rewrite IH.
Qed.

Lemma all_bytes_app f a b : all_bytes f (a +:+ b) = all_bytes f a && all_bytes f b.
Proof. induction a as [|c a IH]; simpl; [done|]. by rewrite IH, andb_assoc. Qed.

Lemma identRe_app a b :
  identRe a = true → all_bytes ident_byte b = true → len a + len b ≤ 64 → identRe (a +:+ b) = true.
Proof.
  destruct a as [|c a]; [done|]. unfold identRe. cbn [String.append].
  intros [[Hc Ha]%andb_true_iff _]%andb_true_iff Hb Hl.
  rewrite Hc. change (String c (a +:+ b)) with (String c a +:+ b).
  rewrite all_bytes_app, Ha, Hb, len_app. simpl. apply Z.leb_le. lia.
Qed.

Lemma identRe_len s : identRe s = true → 0 < len s ≤ 64.
Proof.
  destruct s as [|c s]; [done|]. intros [_ H%Z.leb_le]%andb_true_iff.
  rewrite len_cons in *. pose proof (len_nonneg s). lia.
Qed.

Lemma identRe_take n s : (0 < n)%nat → identRe s = true → identRe (str_take n s) = true.
Proof.
  destruct s as [|c s], n as [|n]; try done; try lia. intros _ H. cbn [str_take].
  pose proof (all_bytes_take ident_byte n s) as Ht. pose proof (len_str_take_le n s).
  unfold identRe in *. apply andb_true_iff in H as [[Hc Ha]%andb_true_iff Hl%Z.leb_le].
  cbn [all_bytes] in *. apply andb_true_iff in Ha as [Hi Ha]. rewrite Hc, Hi, Ht by done. simpl.
  apply Z.leb_le. rewrite len_cons in *. lia.
Qed.

(** ** Cleaned names *)

(** Checked on the table: a forbidden identifier is short, and with an
    underscore it is acceptable. *)
Lemma forbidden_with_underscore w :
  w ∈ forbidden → identRe w = true → len w < 64 ∧ ValidIdent (w +:+ "_") = true.
Proof.
  assert (H : forallb (λ w, negb (identRe w) || ((len w <? 64) && ValidIdent (w +:+ "_"))) forbidden = true)
    by (vm_compute; reflexivity).
  rewrite forallb_forall in H. intros Hw%list_elem_of_In Hi. specialize (H w Hw). cbv beta in H. rewrite Hi in H.
  apply andb_true_iff in H as [?%Z.ltb_lt ?]. done.
Qed.

Lemma engine_with_underscore dialect w :
  mem w (engineWords dialect) = true → ValidIdent (w +:+ "_") = true.
Proof.
  assert (H : forallb (λ x : string * list string, forallb (λ w, ValidIdent (w +:+ "_")) x.2) engineKeywords = true)
    by (vm_compute; reflexivity).
  intros Hw%mem_spec. unfold engineWords in Hw.
  destruct (assoc dialect engineKeywords) as [ws|] eqn:E; [|by apply not_elem_of_nil in Hw].
  apply assoc_Some_elem, list_elem_of_In in E. rewrite forallb_forall in H. specialize (H _ E). simpl in H.
  rewrite forallb_forall in H. by apply H, list_elem_of_In.
Qed.

Lemma clean_rune_ident r : ident_byte (clean_rune r) = true.
Proof.
  unfold clean_rune. destruct (_ || _) eqn:E; [|done].
  assert (0 ≤ r < 256) by (unfold in_range in E; lia).
  unfold ident_byte, lower_letter, digit_byte, byte_in. rewrite byte_val_of by done.
  apply orb_true_iff in E as [[E|E]%orb_true_iff|E%Z.eqb_eq].
  - by rewrite E.
  - by rewrite E, orb_true_r.
  - subst r. done.
Qed.

Lemma ident_of_bytes l : all_bytes ident_byte (of_bytes (map clean_rune l)) = true.
Proof. induction l as [|r l IH]; simpl; [done|]. by rewrite clean_rune_ident, IH. Qed.

Section Clean.
Context {UT : UnicodeTables}.

Lemma cleanName_valid raw : ValidIdent (cleanName raw) = true.
Proof.
  unfold cleanName. set (s0 := str_take 64 _).
  assert (Hb : all_bytes ident_byte s0 = true) by (apply all_bytes_take, ident_of_bytes).
  assert (Hl : len s0 ≤ 64) by (apply (len_str_take 64)).
  destruct s0 as [|c s] eqn:E0; [done|]. rewrite <-E0 in *.
  set (s1 := if lower_letter c then s0 else _).
  assert (Hs1 : identRe s1 = true).
  { subst s1. destruct (lower_letter c) eqn:Hc.
    - rewrite E0. unfold identRe. rewrite Hc. rewrite <-E0, Hb. by apply Z.leb_le.
    - assert (Hx : all_bytes ident_byte (String "x" s0) = true) by (simpl; by rewrite Hb).
      apply (all_bytes_take _ 64) in Hx. pose proof (len_str_take 64 (String "x" s0)) as Hlx.
      unfold identRe. change (str_take 64 (String "x" s0)) with (String "x" (str_take 63 s0)) in *.
      rewrite Hx. by apply Z.leb_le. }
  destruct (mem s1 forbidden) eqn:Hf.
  - apply mem_spec in Hf. destruct (forbidden_with_underscore _ Hf Hs1) as [Hlt Hv].
    apply Z.ltb_lt in Hlt. by rewrite Hlt.
  - unfold ValidIdent. by rewrite Hs1, Hf.
Qed.

Lemma base_name_valid dialect raw : ValidIdent (base_name dialect raw) = true.
Proof.
  unfold base_name. destruct (mem _ _) eqn:H; [by eapply engine_with_underscore|apply cleanName_valid].
Qed.
End Clean.

(** ** The numbered candidates *)

(** The number a text of digits writes. *)
Fixpoint value (s : string) : Z :=
  match s with
  | EmptyString => 0
  | String c s => (byte_val c - 48) * 10 ^ len s + value s
  end.

Lemma decimal_loop_value f : ∀ n acc, 0 ≤ n ≤ Z.of_nat f →
  value (decimal_loop f n acc) = n * 10 ^ len acc + value acc.
Proof.
  induction f as [|f IH]; intros n acc Hn; simpl.
  - replace n with 0 by lia. lia.
  - destruct (n =? 0) eqn:E; [apply Z.eqb_eq in E as ->; lia|]. apply Z.eqb_neq in E.
    rewrite IH by (Z.to_euclidean_division_equations; lia). simpl value.
    rewrite byte_val_of by (Z.to_euclidean_division_equations; lia). rewrite len_cons.
    rewrite (Z.add_comm 1), Z.pow_add_r by (pose proof (len_nonneg acc); lia).
    pose proof (Z.div_mod n 10 ltac:(lia)) as Hdm. set (t := 10 ^ len acc).
    replace (n * t) with ((10 * (n / 10) + n mod 10) * t) by (f_equal; lia). ring.
Qed.

Lemma decimal_loop_digits f : ∀ n acc, 0 ≤ n → all_bytes digit_byte acc = true →
  all_bytes digit_byte (decimal_loop f n acc) = true.
Proof.
  induction f as [|f IH]; intros n acc Hn Ha; simpl; [done|]. destruct (n =? 0); [done|].
  apply IH; [apply Z.div_pos; lia|]. simpl. rewrite Ha, andb_true_r. unfold digit_byte, byte_in, in_range.
  rewrite byte_val_of by (Z.to_euclidean_division_equations; lia).
  apply andb_true_iff. split; apply Z.leb_le; Z.to_euclidean_division_equations; lia.
Qed.

Lemma decimal_loop_len f : ∀ n acc k, 0 ≤ k → 0 ≤ n < 10 ^ k → len (decimal_loop f n acc) ≤ k + len acc.
Proof.
  induction f as [|f IH]; intros n acc k Hk Hn; simpl; [lia|]. destruct (n =? 0) eqn:E; [lia|].
  apply Z.eqb_neq in E. assert (k ≠ 0) by (intros ->; lia).
  specialize (IH (n / 10) (String (byte_of (48 + n mod 10)) acc) (k - 1)). rewrite len_cons in IH.
  assert (10 ^ k = 10 * 10 ^ (k - 1)) by (rewrite <-Z.pow_succ_r by lia; f_equal; lia).
  assert (0 ≤ n / 10 < 10 ^ (k - 1)) by (split; [apply Z.div_pos; lia|apply Z.div_lt_upper_bound; lia]).
  lia.
Qed.

Lemma decimal_inj n m : 0 ≤ n → 0 ≤ m → decimal n = decimal m → n = m.
Proof.
  intros Hn Hm H. unfold decimal in H.
  pose proof (decimal_loop_value (Z.to_nat n) n "" ltac:(lia)) as Vn.
  pose proof (decimal_loop_value (Z.to_nat m) m "" ltac:(lia)) as Vm.
  rewrite H in Vn. rewrite Vn in Vm. change (len "") with 0 in Vm. simpl in Vm. lia.
Qed.

Lemma decimal_digits n : 0 ≤ n → all_bytes digit_byte (decimal n) = true.
Proof. intros. by apply decimal_loop_digits. Qed.

Lemma digits_lack_underscore s : all_bytes digit_byte s = true → lacks "_" s.
Proof.
  unfold lacks. induction s as [|c s IH]; cbn [any_byte all_bytes]; [done|]. intros [Hc Hs]%andb_true_iff.
  rewrite (IH Hs), orb_false_r. apply Ascii.eqb_neq. intros <-. discriminate Hc.
Qed.

Lemma digits_ident s : all_bytes digit_byte s = true → all_bytes ident_byte s = true.
Proof.
  induction s as [|c s IH]; simpl; [done|]. intros [Hc Hs]%andb_true_iff. rewrite (IH Hs), andb_true_r.
  unfold ident_byte. by rewrite Hc, orb_true_r.
Qed.

Lemma candidate_inj d n m : 0 ≤ n → 0 ≤ m → candidate d n = candidate d m → n = m.
Proof.
  intros Hn Hm. unfold candidate. set (s1 := if 64 <? _ then _ else d). set (s2 := if 64 <? _ then _ else d).
  intros H. apply decimal_inj; [done|done|].
  assert (Hl : ∀ s k, 0 ≤ k → last (split (s +:+ "_" +:+ decimal k) "_") = Some (decimal k)).
  { intros s k Hk. change ("_" +:+ decimal k) with (String "_" (decimal k)).
    rewrite split_append, (split_lacks _ (decimal k)) by (by apply digits_lack_underscore, decimal_digits).
    apply last_snoc. }
  pose proof (Hl s1 n Hn) as H1. rewrite H, Hl in H1 by done. congruence.
Qed.

Lemma candidate_ident d n :
  identRe d = true → 0 ≤ n < 10 ^ 60 → identRe (candidate d n) = true.
Proof.
  intros Hd Hn. unfold candidate.
  assert (Hsuf : all_bytes ident_byte ("_" +:+ decimal n) = true)
    by (simpl; apply digits_ident, decimal_digits; lia).
  assert (Hlen : 0 < len ("_" +:+ decimal n) ≤ 61).
  { rewrite len_app. change (len "_") with 1. pose proof (len_nonneg (decimal n)).
    pose proof (decimal_loop_len (Z.to_nat n) n "" 60 ltac:(lia) Hn) as H60. rewrite len_nil in H60.
    fold (decimal n) in H60. lia. }
  destruct (64 <? _) eqn:E.
  - apply Z.ltb_lt in E. pose proof (len_str_take (Z.to_nat (64 - len ("_" +:+ decimal n))) d).
    apply identRe_app; [apply identRe_take; [lia|done]|done|lia].
  - apply Z.ltb_ge in E. by apply identRe_app.
Qed.

(** ** A free name *)

Lemma freeName_from_None fuel : ∀ n d taken,
  freeName_from fuel n d taken = None →
  ∀ i, (i < fuel)%nat → mem (candidate d (n + Z.of_nat i)) taken = true ∨ ValidIdent (candidate d (n + Z.of_nat i)) = false.
Proof.
  induction fuel as [|f IH]; intros n d taken; cbn [freeName_from]; [lia|].
  destruct (negb _ && _) eqn:E; [done|]. intros H i Hi. destruct i as [|i].
  - rewrite Z.add_0_r. apply andb_false_iff in E as [?%negb_false_iff|?]; auto.
  - replace (n + Z.of_nat (S i)) with ((n + 1) + Z.of_nat i) by lia. apply IH; [done|lia].
Qed.

Lemma freeName_from_Some fuel : ∀ n d taken c,
  freeName_from fuel n d taken = Some c → c ∉ taken ∧ ValidIdent c = true.
Proof.
  induction fuel as [|f IH]; intros n d taken c; cbn [freeName_from]; [done|].
  destruct (negb _ && _) eqn:E; [|apply IH]. intros [= <-].
  apply andb_true_iff in E as [E ?]. split; [|done]. rewrite <-mem_spec. by destruct (mem _ _).
Qed.

Lemma forbidden_few : Z.of_nat (length forbidden) < 1000.
Proof. vm_compute. reflexivity. Qed.

(** A list does not hold more distinct values than its length. *)
Lemma pigeonhole {A} (f : nat → A) (l : list A) :
  (∀ x y, f x = f y → x = y) → (∀ i, (i < S (length l))%nat → f i ∈ l) → False.
Proof.
  intros Hinj Hin.
  assert (Hnd : NoDup (f <$> seq 0 (S (length l)))) by (apply NoDup_fmap_2_strong; [auto|apply NoDup_seq]).
  assert (Hsub : ∀ c, c ∈ f <$> seq 0 (S (length l)) → c ∈ l).
  { intros c (i & -> & Hi)%list_elem_of_fmap. apply Hin. apply elem_of_seq in Hi. lia. }
  pose proof (submseteq_length _ _ (NoDup_submseteq _ _ Hnd Hsub)) as Hl.
  rewrite length_fmap, length_seq in Hl. lia.
Qed.

(** As many candidates as there are names that could be in the way, and one
    more, cannot all be in the way. *)
Lemma freeName_total d taken :
  identRe d = true → Z.of_nat (length taken) < 10 ^ 50 → ∃ c, freeName d taken = Some c.
Proof.
  intros Hd Ht. destruct (freeName d taken) as [c|] eqn:E; [eauto|]. exfalso. unfold freeName in E.
  pose proof forbidden_few as Hf. pose proof (λ c, proj1 (mem_spec c forbidden)) as Hforb.
  assert (Hbad : ∀ c, ValidIdent c = false → identRe c = true → c ∈ forbidden).
  { intros c Hc Hi. apply Hforb. unfold ValidIdent in Hc. rewrite Hi in Hc. by destruct (mem c forbidden). }
  clear Hforb. revert Hf Hbad E. generalize forbidden as bad. intros bad Hf Hbad E.
  pose proof (freeName_from_None _ _ _ _ E) as Hall. clear E.
  assert (10 ^ 60 = 10 ^ 50 * 10 ^ 10) as Hpow by reflexivity.
  assert (0 < 10 ^ 50) by (apply Z.pow_pos_nonneg; lia).
  assert (Hs : Z.of_nat (S (length taken + length bad)) + 2 < 10 ^ 60).
  { change (10 ^ 10) with 10000000000 in Hpow. lia. }
  apply (pigeonhole (λ i, candidate d (2 + Z.of_nat i)) (taken ++ bad)).
  - intros x y Hxy. apply candidate_inj in Hxy; lia.
  - rewrite length_app. intros i Hi. apply elem_of_app.
    destruct (Hall i ltac:(lia)) as [Hm|Hm]; [left; by apply mem_spec|right].
    apply Hbad; [done|]. apply candidate_ident; [done|lia].
Qed.

(** ** The names of inferred fields *)

Lemma first_pass_spec desired : ∀ taken names taken',
  first_pass desired taken = (names, taken') →
  length names = length desired
  ∧ NoDup (omap id names) ∧ (∀ n, n ∈ omap id names → n ∈ desired ∧ n ∉ taken)
  ∧ (∀ n, n ∈ taken' ↔ n ∈ taken ∨ n ∈ omap id names)
  ∧ (length taken' ≤ length taken + length desired)%nat.
Proof.
  induction desired as [|d desired IH]; intros taken names taken'; simpl.
  - intros [= <- <-]. simpl. split_and!; [done|constructor|set_solver|set_solver|lia].
  - destruct (mem d taken) eqn:Hm.
    + destruct (first_pass desired taken) as [rest taken1] eqn:E. intros [= <- <-].
      destruct (IH _ _ _ E) as (? & ? & Hin & ? & ?). simpl. split_and!; [lia|done| |done|lia].
      intros n Hn. apply Hin in Hn as [? ?]. split; [by right|done].
    + destruct (first_pass desired (d :: taken)) as [rest taken1] eqn:E. intros [= <- <-].
      destruct (IH _ _ _ E) as (? & ? & Hin & Ht & ?). simpl in *.
      assert (d ∉ taken) by (rewrite <-mem_spec; congruence).
      split_and!; [lia| | | |lia].
      * constructor; [|done]. intros Hd%Hin. destruct Hd as [_ Hd]. apply Hd. left.
      * intros n [->|Hn]%elem_of_cons; [split; [left|done]|].
        apply Hin in Hn as [? Hn]. split; [by right|]. set_solver.
      * intros n. rewrite Ht, !elem_of_cons. tauto.
Qed.

Lemma second_pass_spec desired : ∀ names taken,
  length names = length desired → Forall (λ d, ValidIdent d = true) desired →
  (∀ n, n ∈ omap id names → ValidIdent n = true ∧ n ∈ taken) → NoDup (omap id names) →
  Z.of_nat (length taken + length desired) < 10 ^ 50 →
  ∃ out, second_pass desired names taken = Some out ∧ length out = length desired
  ∧ Forall (λ d, ValidIdent d = true) out ∧ NoDup out
  ∧ (∀ n, n ∈ out → n ∈ omap id names ∨ n ∉ taken)
  ∧ (∀ i n, names !! i = Some (Some n) → out !! i = Some n).
Proof.
  induction desired as [|d desired IH]; intros names taken Hl Hd Hn Hnd Hb; destruct names as [|[n|] names]; try done.
  - exists []. split_and!; try done; try (by constructor); by intros n ?%elem_of_nil.
  - apply Forall_cons in Hd as [_ Hd]. simpl in *. apply NoDup_cons in Hnd as [Hnew Hnd].
    destruct (IH names taken ltac:(lia) Hd) as (out & -> & Hlo & Hv & Hndo & Hino & Hk);
      [intros m Hm; apply Hn; by right|done|lia|].
    exists (n :: out). split_and!; [done|simpl; lia| | | |].
    + constructor; [|done]. apply Hn. left.
    + constructor; [|done]. intros [?|Ho]%Hino; [done|]. apply Ho, Hn. left.
    + intros m [->|Hm]%elem_of_cons; [left; left|]. destruct (Hino m Hm); [left; by right|by right].
    + intros [|i] m; simpl; [by intros [= ->]|apply Hk].
  - apply Forall_cons in Hd as [Hd1 Hd]. cbn [second_pass length] in *. simpl in Hn, Hnd.
    assert (Hid : identRe d = true) by (unfold ValidIdent in Hd1; by apply andb_true_iff in Hd1 as [? _]).
    destruct (freeName_total d taken Hid ltac:(lia)) as (c & Hc). rewrite Hc.
    apply freeName_from_Some in Hc as [Hct Hcv].
    destruct (IH names (c :: taken) ltac:(simpl in Hl; lia) Hd) as (out & -> & Hlo & Hv & Hndo & Hino & Hk);
      [intros m Hm; apply Hn in Hm as [? ?]; split; [done|by right]|done|simpl; lia|].
    exists (c :: out). split_and!; [done|simpl; lia| | | |].
    + by constructor.
    + constructor; [|done]. intros [Ho|Ho]%Hino; [apply Hn in Ho as [_ ?]; done|]. apply Ho. left.
    + intros m [->|Hm]%elem_of_cons; [by right|]. destruct (Hino m Hm) as [?|Ho]; [by left|].
      right. intros ?. apply Ho. by right.
    + intros [|i] m; simpl; [done|apply Hk].
Qed.
