(* ===== verification/Schema.v ===== *)
(** * Fields of a table ([internal/schema/schema.go], [shape.go] and
    [filename.go])

    The declaration of a table's fields and its validation, the shapes of JSON
    values, the names and media types of files, and the encoding of vectors. *)
From Stdlib Require Import ZArith Lia Ascii String.
From stdpp Require Import base gmap strings list.
From S2P Require Import Prelude GoStrings AuthIdentity SchemaIdent.
Local Open Scope Z_scope.

(** ** Values: what a JSON text decodes to, [JNull] being Go's nil *)

Inductive json :=
| JNull
| JBool (b : bool)
| JNumber (text : string)
| JString (s : string)
| JArray (items : list json)
| JObject (members : list (string * json)).

Definition is_nil (v : json) : bool := match v with JNull => true | _ => false end.

(** ** Fields *)

(** [FieldType] is a string type: a declaration can carry any text. *)
Definition FieldType : Type := string.
Definition TString : FieldType := "string".
Definition Text : FieldType := "text".
Definition Number : FieldType := "number".
Definition Boolean : FieldType := "boolean".
Definition Timestamp : FieldType := "timestamp".
Definition JSON : FieldType := "json".
Definition Vector : FieldType := "vector".
Definition Secret : FieldType := "secret".
Definition File : FieldType := "file".
Definition known_types : list FieldType :=
  [TString; Text; Number; Boolean; Timestamp; JSON; Vector; Secret; File].

Definition MaxVectorDim : Z := 4096.
Definition NowDefault : string := "now()".

(** A nil slice is [None]; it differs from an empty one. *)
Record Field := MkField {
  f_Name : string; f_Type : FieldType; f_Fulltext : bool; f_Vectorize : bool; f_Dim : Z;
  f_Required : bool; f_Enum : option (list string); f_Shape : string; f_Default : json;
  f_MaxBytes : Z; f_MediaTypes : option (list string) }.

Definition RowAccessOwn : string := "own".
Definition OwnerColumn : string := "owner".

Inductive field_error :=
| RowAccessUnknown
| NoFields | IdentRefused (e : ident_error) | DuplicateField (n : string)
| UnknownType (n : string) (t : FieldType)
| SecretOption (n option : string) | FileOption (n option : string)
| FileOnly (n : string)
| MaxBytesNegative (n : string) | MediaTypesEmpty (n : string)
| MediaTypeInvalid (n m : string) | MediaTypeTwice (n m : string)
| FulltextType (n : string) | FulltextRank (n : string)
| ShapeType (n : string) | ShapeUnknown (n shape : string)
| EnumType (n : string) | EnumEmpty (n : string) | EnumBlank (n : string) | EnumDuplicate (n v : string)
| VectorizeType (n : string) | VectorizeTwice
| DimRange (n : string) | DimOnly (n : string)
| DefaultRequired (n : string) | DefaultVectorize (n : string) | DefaultNow (n : string)
| FileNameRefused (n rule : string).

Definition ValidateRowAccess (v : string) : outcome field_error () :=
  if String.eqb v "" || String.eqb v RowAccessOwn then Done () else Fail RowAccessUnknown.
Definition ReservedWithOwner (name : string) : bool := String.eqb name OwnerColumn.

(** The loop of [ValidateEnum] with its map [seen]. *)
Fixpoint enum_loop (field : string) (seen vals : list string) : outcome field_error () :=
  match vals with
  | [] => Done ()
  | v :: vals =>
      if String.eqb v "" then Fail (EnumBlank field)
      else if mem v seen then Fail (EnumDuplicate field v)
      else enum_loop field (v :: seen) vals
  end.
Definition ValidateEnum (field : string) (vals : list string) : outcome field_error () :=
  match vals with [] => Fail (EnumEmpty field) | _ => enum_loop field [] vals end.

Definition EnumAllows (enum : list string) (s : string) : bool :=
  match enum with [] => true | _ => existsb (λ v, String.eqb v s) enum end.

Definition IsNowDefault (v : json) : bool :=
  match v with JString s => String.eqb s NowDefault | _ => false end.

(** ** Shapes *)

Definition shapeElements : list (string * string) :=
  [("array<string>", "string"); ("array<number>", "number"); ("array<boolean>", "boolean");
   ("array<object>", "object")].
Definition Shapes : list string := ["object"; "array"] ++ map fst shapeElements.

Definition ValidateShape (field shape : string) : outcome field_error () :=
  if mem shape Shapes then Done () else Fail (ShapeUnknown field shape).

Definition shapeKind (v : json) : string :=
  match v with
  | JNull => "null" | JBool _ => "boolean" | JNumber _ => "number" | JString _ => "string"
  | JArray _ => "array" | JObject _ => "object"
  end.
Definition article (kind : string) : string :=
  if String.eqb kind "null" then "null"
  else if mem kind ["object"; "array"] then "an " +:+ kind else "a " +:+ kind.

Inductive mismatch := Got (what : string) | Holding (what : string) (index : nat).

Fixpoint items_mismatch (want : string) (i : nat) (items : list json) : option mismatch :=
  match items with
  | [] => None
  | v :: items => if String.eqb (shapeKind v) want then items_mismatch want (S i) items
                  else Some (Holding (article (shapeKind v)) i)
  end.
(** [shapeMismatch]; [None] is the answer [true]. *)
Definition shapeMismatch (shape : string) (v : json) : option mismatch :=
  if String.eqb shape "object" then
    if String.eqb (shapeKind v) "object" then None else Some (Got (article (shapeKind v)))
  else match v with
       | JArray items => match assoc shape shapeElements with
                         | None => None
                         | Some want => items_mismatch want 0 items
                         end
       | _ => Some (Got (article (shapeKind v)))
       end.
(** [ShapeViolation], after the text was decoded. *)
Definition ShapeViolation (shape : string) (v : json) : option mismatch :=
  if String.eqb shape "" then None else if is_nil v then None else shapeMismatch shape v.

(** ** Media types and file names *)

Definition media_first (c : ascii) : bool := lower_letter c || digit_byte c.
Definition token_mark (r : Z) : bool :=
  existsb (λ c, byte_val c =? r) (list_ascii_of_string "!#$&^_.+-").
Definition media_byte (c : ascii) : bool := media_first c || token_mark (byte_val c).

(** [^[a-z0-9][a-z0-9!#$&^_.+-]{0,126}$] *)
Definition mediaTokenRe (s : string) : bool :=
  match s with
  | EmptyString => false
  | String c s' => media_first c && all_bytes media_byte s' && (len s <=? 127)
  end.

Definition validMediaTypePattern (m : string) : bool :=
  match cut m "/" with
  | Some (typ, sub) => mediaTokenRe typ && (String.eqb sub "*" || mediaTokenRe sub)
  | None => false
  end.

Fixpoint token_runes (first : bool) (rs : list Z) : bool :=
  match rs with
  | [] => true
  | r :: rs => (in_range 97 122 r || in_range 48 57 r || (negb first && token_mark r)) && token_runes false rs
  end.
Definition mediaToken (s : string) : bool :=
  if String.eqb s "" || (127 <? len s) then false else token_runes true (runes s).
Definition ValidateMediaType (m : string) : bool :=
  match cut m "/" with Some (typ, sub) => mediaToken typ && mediaToken sub | None => false end.

Definition MediaTypeAllowed (patterns : list string) (mediaType : string) : bool :=
  match patterns with
  | [] => true
  | _ => let typ := match cut mediaType "/" with Some (typ, _) => typ | None => mediaType end in
         existsb (λ p, String.eqb p mediaType || String.eqb p (typ +:+ "/*")) patterns
  end.

(** [utf8.ValidString]: a [RuneError] of width one is an invalid byte. *)
Fixpoint valid_utf8_fuel (fuel : nat) (s : string) : bool :=
  match fuel, s with
  | O, _ | _, EmptyString => true
  | S f, _ => let '(r, w) := decode_rune s in
              negb ((r =? RuneError) && (w =? 1)%nat) && valid_utf8_fuel f (str_drop w s)
  end.
Definition valid_utf8 (s : string) : bool := valid_utf8_fuel (String.length s) s.

(** [unicode.IsControl]: the category Cc is these two ranges in every version
    of Unicode; likewise the property [Bidi_Control]. *)
Definition is_control (r : Z) : bool := in_range 0 0x1F r || in_range 0x7F 0x9F r.
Definition is_bidi_control (r : Z) : bool :=
  (r =? 0x061C) || in_range 0x200E 0x200F r || in_range 0x202A 0x202E r || in_range 0x2066 0x2069 r.

Inductive name_rule := NameLength | NameUTF8 | NameDots | NameRunes.
(** [FileNameRule]; [None] is the empty answer. *)
Definition FileNameRule (name : string) : option name_rule :=
  if String.eqb name "" || (255 <? len name) then Some NameLength
  else if negb (valid_utf8 name) then Some NameUTF8
  else if String.eqb name "." || String.eqb name ".." then Some NameDots
  else if existsb (λ r, is_control r || is_bidi_control r || (r =? 47) || (r =? 92)) (runes name)
  then Some NameRunes else None.

Fixpoint media_loop (field : string) (seen ms : list string) : outcome field_error () :=
  match ms with
  | [] => Done ()
  | m :: ms =>
      if negb (validMediaTypePattern m) then Fail (MediaTypeInvalid field m)
      else if mem m seen then Fail (MediaTypeTwice field m)
      else media_loop field (m :: seen) ms
  end.
Definition ValidateFileConstraints (field : string) (maxBytes : Z) (mediaTypes : option (list string))
    : outcome field_error () :=
  if maxBytes <? 0 then Fail (MaxBytesNegative field)
  else match mediaTypes with
       | Some [] => Fail (MediaTypesEmpty field)
       | Some ms => media_loop field [] ms
       | None => Done ()
       end.

(** ** The validation of fields *)

Definition secretRefusal (f : Field) : outcome field_error () :=
  if f_Fulltext f then Fail (SecretOption (f_Name f) "fulltext")
  else if f_Vectorize f then Fail (SecretOption (f_Name f) "vectorize")
  else if bool_decide (f_Enum f ≠ None) then Fail (SecretOption (f_Name f) "enum")
  else if negb (is_nil (f_Default f)) then Fail (SecretOption (f_Name f) "default")
  else Done ().

Definition fileRefusal (f : Field) : outcome field_error () :=
  if f_Fulltext f then Fail (FileOption (f_Name f) "fulltext")
  else if f_Vectorize f then Fail (FileOption (f_Name f) "vectorize")
  else if bool_decide (f_Enum f ≠ None) then Fail (FileOption (f_Name f) "enum")
  else if negb (String.eqb (f_Shape f) "") then Fail (FileOption (f_Name f) "shape")
  else if negb (is_nil (f_Default f)) then Fail (FileOption (f_Name f) "default")
  else ValidateFileConstraints (f_Name f) (f_MaxBytes f) (f_MediaTypes f).

Definition is_type (f : Field) (t : FieldType) : bool := String.eqb (f_Type f) t.
Definition textual (f : Field) : bool := is_type f TString || is_type f Text.
Definition when (b : bool) (e : field_error) : outcome field_error () := if b then Fail e else Done ().

(** The fields a migration starts from, by name; nil when a table is created. *)
Definition legacy_fields : Type := list (string * Field).
Definition legacy_map (existing : list Field) : legacy_fields :=
  rev (map (λ f, (f_Name f, f)) existing).

(** The body of the loop of [validate] for the field [f], with the map [seen]
    and [vectorizeCount]; it answers the count after the field. *)
Definition validate_field (legacy : legacy_fields) (seen : list string) (count : Z) (f : Field)
    : outcome field_error Z :=
  let n := f_Name f in
  let carried := assoc n legacy in
  let! _ := match carried with
            | Some _ => Done ()
            | None => match ValidateIdent n "field name" with
                      | Fail e => Fail (IdentRefused e) | _ => Done () end
            end in
  let! _ := when (mem n seen) (DuplicateField n) in
  let! _ := when (negb (mem (f_Type f) known_types)) (UnknownType n (f_Type f)) in
  let! _ := (if is_type f Secret then secretRefusal f else Done ()) in
  let! _ := (if is_type f File then fileRefusal f
             else when (negb (f_MaxBytes f =? 0) || bool_decide (f_MediaTypes f ≠ None)) (FileOnly n)) in
  let! _ := when (f_Fulltext f && negb (textual f)) (FulltextType n) in
  let! _ := when (f_Fulltext f && String.eqb n "rank") (FulltextRank n) in
  let! _ := (if String.eqb (f_Shape f) "" then Done ()
             else if negb (is_type f JSON) then Fail (ShapeType n)
             else ValidateShape n (f_Shape f)) in
  let! _ := match f_Enum f with
            | None => Done ()
            | Some vals => if negb (is_type f TString) then Fail (EnumType n) else ValidateEnum n vals
            end in
  let! count := (if f_Vectorize f then
                   if negb (textual f) then Fail (VectorizeType n)
                   else if 1 <? count + 1 then Fail VectorizeTwice else Done (count + 1)
                 else Done count) in
  let! _ := (if is_type f Vector
             then when ((f_Dim f <? 1) || (MaxVectorDim <? f_Dim f)) (DimRange n)
             else when (negb (f_Dim f =? 0)) (DimOnly n)) in
  let! _ := (if is_nil (f_Default f) then Done ()
             else if f_Required f then Fail (DefaultRequired n)
             else if f_Vectorize f then Fail (DefaultVectorize n)
             else if IsNowDefault (f_Default f) && negb (is_type f Timestamp)
             then match carried with
                  | Some pre => when (negb (IsNowDefault (f_Default pre))) (DefaultNow n)
                  | None => Fail (DefaultNow n)
                  end
             else Done ()) in
  Done count.

Fixpoint validate_loop (legacy : legacy_fields) (seen : list string) (count : Z) (fields : list Field)
    : outcome field_error () :=
  match fields with
  | [] => Done ()
  | f :: fields =>
      let! count := validate_field legacy seen count f in
      validate_loop legacy (f_Name f :: seen) count fields
  end.
Definition validate (fields : list Field) (legacy : legacy_fields) : outcome field_error () :=
  match fields with [] => Fail NoFields | _ => validate_loop legacy [] 0 fields end.

Definition Validate (fields : list Field) : outcome field_error () := validate fields [].
Definition ValidateForMigration (fields existing : list Field) : outcome field_error () :=
  validate fields (legacy_map existing).

Definition Normalize (fields : list Field) : list Field :=
  map (λ f, if String.eqb (f_Type f) "" then
              MkField (f_Name f) TString (f_Fulltext f) (f_Vectorize f) (f_Dim f) (f_Required f)
                (f_Enum f) (f_Shape f) (f_Default f) (f_MaxBytes f) (f_MediaTypes f)
            else f) fields.

(** ** Fields of a table by what they are *)

Definition FileFields (fields : list Field) : list Field := List.filter (λ f, is_type f File) fields.
Definition SecretFields (fields : list Field) : list Field := List.filter (λ f, is_type f Secret) fields.
Definition FTSFields (fields : list Field) : list Field := List.filter f_Fulltext fields.
Definition VectorFields (fields : list Field) : list Field := List.filter (λ f, is_type f Vector) fields.
Definition VectorizeField (fields : list Field) : option Field := find f_Vectorize fields.
Definition FieldNamed (fields : list Field) (name : string) : option Field :=
  find (λ f, String.eqb (f_Name f) name) fields.

Definition SQLType (f : Field) : string :=
  if is_type f Number then "NUMERIC"
  else if is_type f Boolean then "INTEGER"
  else if is_type f Vector || is_type f Secret then "BLOB" else "TEXT".

(** ** Vectors: a float32 is its 32 bits *)

Definition le32 (x : Z) : list Z :=
  [Z.land x 255; Z.land (Z.shiftr x 8) 255; Z.land (Z.shiftr x 16) 255; Z.land (Z.shiftr x 24) 255].
Definition EncodeVector (v : list Z) : list Z := flat_map le32 v.

Fixpoint decode_loop (b : list Z) : list Z :=
  match b with
  | b0 :: b1 :: b2 :: b3 :: b =>
      Z.lor b0 (Z.lor (Z.shiftl b1 8) (Z.lor (Z.shiftl b2 16) (Z.shiftl b3 24))) :: decode_loop b
  | _ => []
  end.
(** [None] is the error: the length is not a multiple of four. *)
Definition DecodeVector (b : list Z) : option (list Z) :=
  if (length b mod 4 =? 0)%nat then Some (decode_loop b) else None.
