(* ===== verification/SchemaFacts.v ===== *)
(** * Lemmas on the validation of fields, file names and vectors *)
From Stdlib Require Import ZArith Lia Ascii String.
From stdpp Require Import base gmap strings list.
From S2P Require Import Prelude GoStrings AuthIdentity SchemaIdent SchemaNames Schema.
Local Open Scope Z_scope.

(** ** What a valid declaration is *)

Definition name_ok (legacy : legacy_fields) (n : string) : Prop :=
  assoc n legacy ≠ None ∨ ValidIdent n = true.
Definition plain (f : Field) : Prop :=
  f_Fulltext f = false ∧ f_Vectorize f = false ∧ f_Enum f = None ∧ f_Default f = JNull.
Definition media_ok (ms : option (list string)) : Prop :=
  match ms with
  | None => True
  | Some l => l ≠ [] ∧ NoDup l ∧ Forall (λ m, validMediaTypePattern m = true) l
  end.
Definition is_textual (f : Field) : Prop := f_Type f = TString ∨ f_Type f = Text.

Record field_ok (legacy : legacy_fields) (f : Field) : Prop := FieldOk {
  fo_name : name_ok legacy (f_Name f);
  fo_type : f_Type f ∈ known_types;
  fo_secret : f_Type f = Secret → plain f;
  fo_file : f_Type f = File → plain f ∧ f_Shape f = "" ∧ 0 ≤ f_MaxBytes f ∧ media_ok (f_MediaTypes f);
  fo_nofile : f_Type f ≠ File → f_MaxBytes f = 0 ∧ f_MediaTypes f = None;
  fo_full : f_Fulltext f = true → is_textual f ∧ f_Name f ≠ "rank";
  fo_shape : f_Shape f ≠ "" → f_Type f = JSON ∧ f_Shape f ∈ Shapes;
  fo_enum : ∀ vals, f_Enum f = Some vals → f_Type f = TString ∧ vals ≠ [] ∧ "" ∉ vals ∧ NoDup vals;
  fo_vec : f_Vectorize f = true → is_textual f;
  fo_dim : f_Type f = Vector → 1 ≤ f_Dim f ≤ MaxVectorDim;
  fo_nodim : f_Type f ≠ Vector → f_Dim f = 0;
  fo_default : f_Default f ≠ JNull →
    f_Required f = false ∧ f_Vectorize f = false
    ∧ (f_Default f = JString NowDefault → f_Type f = Timestamp
       ∨ ∃ pre, assoc (f_Name f) legacy = Some pre ∧ f_Default pre = JString NowDefault) }.

Record table_ok (legacy : legacy_fields) (fields : list Field) : Prop := TableOk {
  to_some : fields ≠ [];
  to_distinct : NoDup (map f_Name fields);
  to_fields : Forall (field_ok legacy) fields;
  to_vectorize : (length (List.filter f_Vectorize fields) ≤ 1)%nat }.

(** ** The checks, one by one *)

Lemma obind_unit {E B} (m : outcome E ()) (k : outcome E B) b :
  (let! _ := m in k) = Done b ↔ m = Done () ∧ k = Done b.
Proof. destruct m as [[]| |]; simpl; naive_solver. Qed.

Lemma when_Done b e : when b e = Done () ↔ b = false.
Proof. destruct b; simpl; naive_solver. Qed.

Lemma if_else_Done {E A} (b : bool) (m : outcome E A) e a :
  (if b then Fail e else m) = Done a ↔ b = false ∧ m = Done a.
Proof. destruct b; naive_solver. Qed.

Lemma is_nil_true v : is_nil v = true ↔ v = JNull.
Proof. destruct v; naive_solver. Qed.
Lemma is_nil_false v : is_nil v = false ↔ v ≠ JNull.
Proof. destruct v; naive_solver. Qed.

Lemma IsNowDefault_spec v : IsNowDefault v = true ↔ v = JString NowDefault.
Proof. destruct v; cbn [IsNowDefault]; rewrite ?String.eqb_eq; naive_solver. Qed.

Lemma is_type_spec f t : is_type f t = true ↔ f_Type f = t.
Proof. apply String.eqb_eq. Qed.

Lemma is_type_false f t : is_type f t = false ↔ f_Type f ≠ t.
Proof. apply String.eqb_neq. Qed.

Lemma mem_false k l : mem k l = false ↔ k ∉ l.
Proof. rewrite <-mem_spec. by destruct (mem k l). Qed.

Lemma textual_spec f : textual f = true ↔ is_textual f.
Proof. unfold textual, is_textual. by rewrite orb_true_iff, !is_type_spec. Qed.

Lemma ValidateIdent_Done n what : ValidateIdent n what = Done () ↔ ValidIdent n = true.
Proof.
  unfold ValidateIdent, ValidIdent, forbidden, mem. rewrite existsb_app.
  destruct (identRe n), (existsb _ reserved), (existsb _ sqlKeywords); simpl; naive_solver.
Qed.

Lemma enum_loop_Done n vals : ∀ seen,
  enum_loop n seen vals = Done () ↔ "" ∉ vals ∧ NoDup vals ∧ (∀ v, v ∈ vals → v ∉ seen).
Proof.
  induction vals as [|v vals IH]; intros seen; simpl.
  - split; [intros _; split_and!; [apply not_elem_of_nil|constructor|by intros ? ?%elem_of_nil]|done].
  - rewrite !(if_else_Done (E:=field_error)), IH, String.eqb_neq, mem_false, not_elem_of_cons, NoDup_cons.
    setoid_rewrite elem_of_cons. split.
    + intros (? & ? & ? & ? & Hdis). split_and!; [done|done| |done|].
      * intros Hv. destruct (Hdis v Hv). by left.
      * intros w [->|Hw]; [done|]. intros Hs. destruct (Hdis w Hw). by right.
    + intros ([? ?] & [? ?] & Hdis). split_and!; [done|auto|done|done|].
      intros w Hw [->|Hs]; [done|]. by apply (Hdis w); [right|].
Qed.

Lemma ValidateEnum_Done n vals :
  ValidateEnum n vals = Done () ↔ vals ≠ [] ∧ "" ∉ vals ∧ NoDup vals.
Proof.
  destruct vals as [|v vals]; [naive_solver|]. unfold ValidateEnum. rewrite enum_loop_Done. split.
  - intros (? & ? & _). done.
  - intros (_ & ? & ?). split_and!; try done. intros w _. apply not_elem_of_nil.
Qed.

Lemma media_loop_Done n ms : ∀ seen,
  media_loop n seen ms = Done () ↔
  Forall (λ m, validMediaTypePattern m = true) ms ∧ NoDup ms ∧ (∀ v, v ∈ ms → v ∉ seen).
Proof.
  induction ms as [|v ms IH]; intros seen; cbn [media_loop].
  - split; [intros _; split_and!; [constructor|constructor|by intros ? ?%elem_of_nil]|done].
  - rewrite !if_else_Done, IH, negb_false_iff, mem_false, Forall_cons, NoDup_cons.
    setoid_rewrite elem_of_cons. split.
    + intros (? & ? & ? & ? & Hdis). split_and!; [done|done| |done|].
      * intros Hv. destruct (Hdis v Hv). by left.
      * intros w [->|Hw]; [done|]. intros Hs. destruct (Hdis w Hw). by right.
    + intros ([? ?] & [? ?] & Hdis). split_and!; [done|auto|done|done|].
      intros w Hw [->|Hs]; [done|]. by apply (Hdis w); [right|].
Qed.

Lemma ValidateFileConstraints_Done n mb ms :
  ValidateFileConstraints n mb ms = Done () ↔ 0 ≤ mb ∧ media_ok ms.
Proof.
  unfold ValidateFileConstraints, media_ok. rewrite if_else_Done, Z.ltb_ge.
  apply and_iff_compat_l. destruct ms as [[|m ms]|]; [naive_solver| |done].
  rewrite media_loop_Done. split; [naive_solver|].
  intros (_ & ? & ?). split_and!; try done. intros w _. apply not_elem_of_nil.
Qed.

Lemma secretRefusal_Done f : secretRefusal f = Done () ↔ plain f.
Proof.
  unfold secretRefusal, plain. rewrite !if_else_Done, bool_decide_eq_false, negb_false_iff, is_nil_true.
  destruct (f_Enum f); naive_solver.
Qed.

Lemma fileRefusal_Done f :
  fileRefusal f = Done () ↔ plain f ∧ f_Shape f = "" ∧ 0 ≤ f_MaxBytes f ∧ media_ok (f_MediaTypes f).
Proof.
  unfold fileRefusal, plain.
  rewrite !if_else_Done, ValidateFileConstraints_Done, bool_decide_eq_false, !negb_false_iff, is_nil_true, String.eqb_eq.
  destruct (f_Enum f); naive_solver.
Qed.

Lemma ValidateShape_Done n s : ValidateShape n s = Done () ↔ s ∈ Shapes.
Proof. unfold ValidateShape. rewrite <-mem_spec. destruct (mem s Shapes); naive_solver. Qed.

(** ** One field *)

Lemma name_check_Done legacy n :
  match assoc n legacy with
  | Some _ => Done ()
  | None => match ValidateIdent n "field name" with Fail e => Fail (IdentRefused e) | _ => Done () end
  end = Done () ↔ name_ok legacy n.
Proof.
  unfold name_ok. rewrite <-(ValidateIdent_Done n "field name").
  destruct (assoc n legacy); [naive_solver|].
  assert (ValidateIdent n "field name" ≠ OutOfFuel) by (unfold ValidateIdent; by repeat case_match).
  destruct (ValidateIdent n "field name") as [[]| |]; naive_solver.
Qed.

Lemma shape_check_Done f :
  (if String.eqb (f_Shape f) "" then Done ()
   else if negb (is_type f JSON) then Fail (ShapeType (f_Name f)) else ValidateShape (f_Name f) (f_Shape f))
  = Done () ↔ (f_Shape f ≠ "" → f_Type f = JSON ∧ f_Shape f ∈ Shapes).
Proof.
  destruct (String.eqb_spec (f_Shape f) "") as [E|E]; [by rewrite E; naive_solver|].
  rewrite if_else_Done, negb_false_iff, is_type_spec, ValidateShape_Done. naive_solver.
Qed.

Lemma enum_check_Done f :
  match f_Enum f with
  | None => Done ()
  | Some vals => if negb (is_type f TString) then Fail (EnumType (f_Name f)) else ValidateEnum (f_Name f) vals
  end = Done () ↔
  (∀ vals, f_Enum f = Some vals → f_Type f = TString ∧ vals ≠ [] ∧ "" ∉ vals ∧ NoDup vals).
Proof.
  destruct (f_Enum f) as [vals|]; [|naive_solver].
  rewrite if_else_Done, negb_false_iff, is_type_spec, ValidateEnum_Done. split.
  - by intros H ? [= <-].
  - intros H. by apply H.
Qed.

Lemma default_check_Done legacy f :
  (if is_nil (f_Default f) then Done ()
   else if f_Required f then Fail (DefaultRequired (f_Name f))
   else if f_Vectorize f then Fail (DefaultVectorize (f_Name f))
   else if IsNowDefault (f_Default f) && negb (is_type f Timestamp)
   then match assoc (f_Name f) legacy with
        | Some pre => when (negb (IsNowDefault (f_Default pre))) (DefaultNow (f_Name f))
        | None => Fail (DefaultNow (f_Name f))
        end
   else Done ()) = Done () ↔
  (f_Default f ≠ JNull →
    f_Required f = false ∧ f_Vectorize f = false
    ∧ (f_Default f = JString NowDefault → f_Type f = Timestamp
       ∨ ∃ pre, assoc (f_Name f) legacy = Some pre ∧ f_Default pre = JString NowDefault)).
Proof.
  destruct (is_nil (f_Default f)) eqn:En; [apply is_nil_true in En; naive_solver|].
  apply is_nil_false in En. rewrite !if_else_Done.
  destruct (f_Required f), (f_Vectorize f); [naive_solver..|].
  rewrite <-IsNowDefault_spec, <-is_type_spec.
  destruct (IsNowDefault (f_Default f)), (is_type f Timestamp); simpl; try naive_solver.
  destruct (assoc (f_Name f) legacy) as [pre|]; [|naive_solver].
  rewrite when_Done, negb_false_iff, IsNowDefault_spec. naive_solver.
Qed.

Lemma dim_check_Done f :
  (if is_type f Vector then when ((f_Dim f <? 1) || (MaxVectorDim <? f_Dim f)) (DimRange (f_Name f))
   else when (negb (f_Dim f =? 0)) (DimOnly (f_Name f))) = Done () ↔
  (f_Type f = Vector → 1 ≤ f_Dim f ≤ MaxVectorDim) ∧ (f_Type f ≠ Vector → f_Dim f = 0).
Proof.
  destruct (is_type f Vector) eqn:E.
  - apply is_type_spec in E. rewrite when_Done, orb_false_iff, !Z.ltb_ge. naive_solver.
  - apply is_type_false in E. rewrite when_Done, negb_false_iff, Z.eqb_eq. naive_solver.
Qed.

Lemma file_check_Done f :
  (if is_type f File then fileRefusal f
   else when (negb (f_MaxBytes f =? 0) || bool_decide (f_MediaTypes f ≠ None)) (FileOnly (f_Name f)))
  = Done () ↔
  (f_Type f = File → plain f ∧ f_Shape f = "" ∧ 0 ≤ f_MaxBytes f ∧ media_ok (f_MediaTypes f))
  ∧ (f_Type f ≠ File → f_MaxBytes f = 0 ∧ f_MediaTypes f = None).
Proof.
  destruct (is_type f File) eqn:E.
  - apply is_type_spec in E. rewrite fileRefusal_Done. naive_solver.
  - apply is_type_false in E.
    rewrite when_Done, orb_false_iff, negb_false_iff, Z.eqb_eq, bool_decide_eq_false.
    destruct (f_MediaTypes f); naive_solver.
Qed.

Lemma tail_Done legacy f (a c : Z) :
  (let! _ := (if is_type f Vector
             then when ((f_Dim f <? 1) || (MaxVectorDim <? f_Dim f)) (DimRange (f_Name f))
             else when (negb (f_Dim f =? 0)) (DimOnly (f_Name f))) in
   let! _ := (if is_nil (f_Default f) then Done ()
             else if f_Required f then Fail (DefaultRequired (f_Name f))
             else if f_Vectorize f then Fail (DefaultVectorize (f_Name f))
             else if IsNowDefault (f_Default f) && negb (is_type f Timestamp)
             then match assoc (f_Name f) legacy with
                  | Some pre => when (negb (IsNowDefault (f_Default pre))) (DefaultNow (f_Name f))
                  | None => Fail (DefaultNow (f_Name f))
                  end
             else Done ()) in
   Done a) = Done c ↔
  ((f_Type f = Vector → 1 ≤ f_Dim f ≤ MaxVectorDim) ∧ (f_Type f ≠ Vector → f_Dim f = 0))
  ∧ (f_Default f ≠ JNull →
     f_Required f = false ∧ f_Vectorize f = false
     ∧ (f_Default f = JString NowDefault → f_Type f = Timestamp
        ∨ ∃ pre, assoc (f_Name f) legacy = Some pre ∧ f_Default pre = JString NowDefault))
  ∧ c = a.
Proof. rewrite !obind_unit, dim_check_Done, default_check_Done. naive_solver. Qed.

Lemma validate_field_Done legacy seen count f c :
  validate_field legacy seen count f = Done c ↔
  f_Name f ∉ seen ∧ field_ok legacy f ∧ (f_Vectorize f = true → count + 1 ≤ 1)
  ∧ c = count + (if f_Vectorize f then 1 else 0).
Proof.
  unfold validate_field. rewrite !obind_unit, !when_Done, name_check_Done, file_check_Done,
    shape_check_Done, enum_check_Done, mem_false, negb_false_iff, mem_spec, !andb_false_iff,
    negb_false_iff, textual_spec.
  assert (Hs : (if is_type f Secret then secretRefusal f else Done ()) = Done () ↔
               (f_Type f = Secret → plain f)).
  { destruct (is_type f Secret) eqn:E.
    - apply is_type_spec in E. rewrite secretRefusal_Done. naive_solver.
    - apply is_type_false in E. naive_solver. }
  rewrite Hs, obind_Done. setoid_rewrite tail_Done. rewrite String.eqb_neq.
  assert (Hf : ((f_Fulltext f = false ∨ is_textual f) ∧ (f_Fulltext f = false ∨ f_Name f ≠ "rank")) ↔
               (f_Fulltext f = true → is_textual f ∧ f_Name f ≠ "rank"))
    by (destruct (f_Fulltext f); naive_solver).
  assert (Hv : ∀ c', (if f_Vectorize f
                      then if negb (textual f) then Fail (VectorizeType (f_Name f))
                           else if 1 <? count + 1 then Fail VectorizeTwice else Done (count + 1)
                      else Done count) = Done c' ↔
              (f_Vectorize f = true → is_textual f) ∧ (f_Vectorize f = true → count + 1 ≤ 1)
              ∧ c' = count + (if f_Vectorize f then 1 else 0)).
  { intros c'. destruct (f_Vectorize f).
    - rewrite !if_else_Done, negb_false_iff, textual_spec, Z.ltb_ge. naive_solver.
    - rewrite Z.add_0_r. naive_solver. }
  setoid_rewrite Hv. split.
  - intros (?&?&?&?&[? ?]&?&?&?&?&c'&(?&?&->)&[? ?]&?&->).
    split; [assumption|]. split; [|split; [assumption|reflexivity]].
    apply FieldOk; first [assumption | apply Hf; split; assumption].
  - intros (?&[? ? ? ? ? fo_full' ? ? ? ? ? ?]&?&->). apply Hf in fo_full' as [? ?].
    repeat first [assumption | reflexivity | split].
    eexists. repeat first [assumption | reflexivity | split].
Qed.

(** ** All the fields *)

Lemma validate_loop_Done legacy fields : ∀ seen count,
  0 ≤ count → validate_loop legacy seen count fields = Done () ↔
  (∀ n, n ∈ map f_Name fields → n ∉ seen) ∧ NoDup (map f_Name fields)
  ∧ Forall (field_ok legacy) fields
  ∧ (List.filter f_Vectorize fields = [] ∨
     count + Z.of_nat (length (List.filter f_Vectorize fields)) ≤ 1).
Proof.
  induction fields as [|f fields IH]; intros seen count Hc; cbn [validate_loop map List.filter].
  - split; [intros _; split_and!; [by intros ? ?%elem_of_nil|constructor|constructor|by left]|done].
  - rewrite obind_Done. setoid_rewrite validate_field_Done. setoid_rewrite elem_of_cons.
    rewrite NoDup_cons, Forall_cons. split.
    + intros (c & (Hn & Hf & Hv & ->) & Hl).
      apply IH in Hl as (Hs & Hnd & Hfs & Hvs); [|destruct (f_Vectorize f); lia].
      split_and!; [|intros Hx; apply (Hs _ Hx); left|done|done|done|].
      * intros n [->|Hx]; [done|]. intros Hy. apply (Hs n Hx). by right.
      * destruct (f_Vectorize f); simpl; [right|by rewrite Z.add_0_r in Hvs].
        specialize (Hv eq_refl). destruct Hvs as [->|?]; simpl; lia.
    + intros (Hs & [Hnf Hnd] & [Hf Hfs] & Hvs). eexists. split; [split_and!; [|done| |reflexivity]|].
      * apply Hs. by left.
      * intros Hv. rewrite Hv in Hvs. destruct Hvs as [|Hvs]; [done|]. simpl in Hvs. lia.
      * apply IH; [destruct (f_Vectorize f); lia|]. split_and!; try done.
        -- intros n Hn [->|Hy]%elem_of_cons; [done|]. apply (Hs n); [by right|done].
        -- destruct (f_Vectorize f); simpl in *; [|by rewrite Z.add_0_r].
           destruct Hvs as [|Hvs]; [done|]. destruct (List.filter f_Vectorize fields); [by left|simpl in *; lia].
Qed.

Lemma validate_Done legacy fields : validate fields legacy = Done () ↔ table_ok legacy fields.
Proof.
  destruct fields as [|f fields]; [split; [done|intros []; done]|]. unfold validate.
  rewrite validate_loop_Done by lia. split.
  - intros (_ & Hnd & Hf & Hv). split; [done|done|done|].
    destruct Hv as [->|]; [simpl; lia|lia].
  - intros [_ Hnd Hf Hv]. split_and!; [intros ? _; apply not_elem_of_nil|done|done|].
    right. simpl in *. lia.
Qed.

Lemma table_ok_weaken legacy fields : table_ok [] fields → table_ok legacy fields.
Proof.
  intros [? ? Hf ?]. split; [done|done| |done]. eapply Forall_impl; [exact Hf|].
  intros f [Hn]. split; try done.
  - destruct Hn as [Hn|?]; [done|by right].
  - intros Hd. destruct (fo_default0 Hd) as (? & ? & Hnow). split_and!; [done|done|].
    intros Hx. destruct (Hnow Hx) as [?|(? & ? & _)]; [by left|done].
Qed.
