(* ===== verification/SchemaText.v ===== *)
(** * Texts a file field holds: runes against bytes, media types, vectors *)
From Stdlib Require Import ZArith Lia Ascii String.
From stdpp Require Import base gmap strings list.
From S2P Require Import Prelude GoStrings AuthIdentity AuthPaths SchemaIdent SchemaNames Schema.
Local Open Scope Z_scope.

(** ** The runes of a text show all of its ASCII bytes *)

Lemma lor_ge_l a b : 0 ≤ a → 0 ≤ b → a ≤ Z.lor a b.
Proof.
  intros Ha Hb. assert (H : Z.lor a b - a = Z.ldiff (Z.lor a b) a).
  { apply Z.sub_nocarry_ldiff. apply Z.bits_inj'. intros n Hn.
    rewrite Z.ldiff_spec, Z.lor_spec, Z.bits_0. by destruct (Z.testbit a n). }
  assert (0 ≤ Z.ldiff (Z.lor a b) a); [|lia].
  apply Z.ldiff_nonneg. left. apply Z.lor_nonneg. lia.
Qed.

Lemma lor_ge_r a b : 0 ≤ a → 0 ≤ b → b ≤ Z.lor a b.
Proof. intros. rewrite Z.lor_comm. by apply lor_ge_l. Qed.

Lemma land_nonneg_r a m : 0 ≤ m → 0 ≤ Z.land a m.
Proof. intros. apply Z.land_nonneg. by right. Qed.

Lemma decode_rune_ascii c s : byte_val c < 0x80 → decode_rune (String c s) = (byte_val c, 1%nat).
Proof. intros H%Z.ltb_lt. cbn. by rewrite H. Qed.

(** The bits of a lead or continuation byte, checked on every byte. *)
Lemma lead_bits c :
  (in_range 0xC2 0xDF (byte_val c) = true → 2 ≤ Z.land (byte_val c) 0x1F)
  ∧ (in_range 0xE1 0xEF (byte_val c) = true → 1 ≤ Z.land (byte_val c) 0x0F)
  ∧ (in_range 0xF1 0xF4 (byte_val c) = true → 1 ≤ Z.land (byte_val c) 0x07)
  ∧ (in_range 0x90 0xBF (byte_val c) = true → 0x10 ≤ Z.land (byte_val c) 0x3F).
Proof.
  pose proof (all_ascii_spec (λ c,
    (negb (in_range 0xC2 0xDF (byte_val c)) || (2 <=? Z.land (byte_val c) 0x1F))
    && (negb (in_range 0xE1 0xEF (byte_val c)) || (1 <=? Z.land (byte_val c) 0x0F))
    && (negb (in_range 0xF1 0xF4 (byte_val c)) || (1 <=? Z.land (byte_val c) 0x07))
    && (negb (in_range 0x90 0xBF (byte_val c)) || (0x10 <=? Z.land (byte_val c) 0x3F)))
    ltac:(vm_compute; reflexivity) c) as H. cbv beta in H.
  apply andb_true_iff in H as [[[H1 H2]%andb_true_iff H3]%andb_true_iff H4].
  split_and!; intros E; rewrite E in *; simpl in *; by apply Z.leb_le.
Qed.

Ltac lor_bound := repeat first
  [ apply land_nonneg_r; lia | rewrite Z.shiftl_mul_pow2 by lia | apply Z.lor_nonneg; split
  | apply Z.mul_nonneg_nonneg; [|lia] ]; try lia.

(** A rune that starts past ASCII is past ASCII, and so are all its bytes. *)
Lemma decode_rune_high c s r w :
  0x80 ≤ byte_val c → decode_rune (String c s) = (r, w) →
  0x80 ≤ r ∧ (0 < w)%nat ∧ all_bytes (λ d, 0x80 <=? byte_val d) (str_take w (String c s)) = true.
Proof.
  intros Hc. pose proof (lead_bits c) as (L2 & L3 & L4 & _).
  assert (Hcb : (0x80 <=? byte_val c) = true) by by apply Z.leb_le.
  assert (Herr : (RuneError, 1%nat) = (r, w) →
    0x80 ≤ r ∧ (0 < w)%nat ∧ all_bytes (λ d, 0x80 <=? byte_val d) (str_take w (String c s)) = true).
  { intros [= <- <-]. cbn [str_take all_bytes]. rewrite Hcb. unfold RuneError. split_and!; [lia|lia|done]. }
  cbn [decode_rune]. cbv zeta. assert (byte_val c <? 0x80 = false) as -> by (apply Z.ltb_ge; lia).
  destruct (byte_val c <? 0xC2) eqn:E1; [exact Herr|]. apply Z.ltb_ge in E1.
  destruct s as [|c1 s]; [exact Herr|].
  assert (Hcont : ∀ d lo hi, 0x80 ≤ lo → in_range lo hi (byte_val d) = true → (0x80 <=? byte_val d) = true)
    by (unfold in_range; intros; lia).
  destruct (byte_val c <? 0xE0) eqn:E2.
  { apply Z.ltb_lt in E2. destruct (in_range 0x80 0xBF (byte_val c1)) eqn:I1; [|exact Herr].
    intros [= <- <-]. cbn [str_take all_bytes]. rewrite Hcb, (Hcont _ 0x80 0xBF ltac:(lia) I1).
    split_and!; [|lia|done]. specialize (L2 ltac:(unfold in_range; lia)).
    etrans; [|apply lor_ge_l; lor_bound]; lor_bound. }
  apply Z.ltb_ge in E2. destruct (negb _) eqn:I1; [exact Herr|]. apply negb_false_iff in I1.
  assert (Hc1 : (0x80 <=? byte_val c1) = true) by (eapply Hcont; [|exact I1]; repeat case_match; lia).
  destruct s as [|c2 s]; [exact Herr|].
  destruct (negb (in_range _ _ (byte_val c2))) eqn:I2; [exact Herr|]. apply negb_false_iff in I2.
  pose proof (lead_bits c1) as (_ & _ & _ & B1).
  destruct (byte_val c <? 0xF0) eqn:E3.
  { apply Z.ltb_lt in E3. intros [= <- <-]. cbn [str_take all_bytes].
    rewrite Hcb, Hc1, (Hcont _ 0x80 0xBF ltac:(lia) I2). split_and!; [|lia|done].
    destruct (Z.eq_dec (byte_val c) 0xE0) as [E|E].
    - rewrite E in I1. simpl in I1. specialize (B1 ltac:(unfold in_range in *; lia)).
      etrans; [|apply lor_ge_r; lor_bound]. etrans; [|apply lor_ge_l; lor_bound]; lor_bound.
    - specialize (L3 ltac:(unfold in_range; lia)). etrans; [|apply lor_ge_l; lor_bound]; lor_bound. }
  apply Z.ltb_ge in E3. destruct (0xF4 <? byte_val c) eqn:E4; [exact Herr|]. apply Z.ltb_ge in E4.
  destruct s as [|c3 s]; [exact Herr|].
  destruct (in_range _ _ (byte_val c3)) eqn:I3; [|exact Herr].
  intros [= <- <-]. cbn [str_take all_bytes].
  rewrite Hcb, Hc1, (Hcont _ 0x80 0xBF ltac:(lia) I2), (Hcont _ 0x80 0xBF ltac:(lia) I3). split_and!; [|lia|done].
  destruct (Z.eq_dec (byte_val c) 0xF0) as [E|E].
  - rewrite E in I1. simpl in I1. specialize (B1 I1).
    etrans; [|apply lor_ge_r; lor_bound]. etrans; [|apply lor_ge_l; lor_bound]; lor_bound.
  - specialize (L4 ltac:(unfold in_range; lia)). etrans; [|apply lor_ge_l; lor_bound]; lor_bound.
Qed.

Lemma any_byte_app f a b : any_byte f (a +:+ b) = any_byte f a || any_byte f b.
Proof. induction a as [|c a IH]; simpl; [done|]. by rewrite IH, orb_assoc. Qed.

Lemma high_not_ascii d s :
  byte_val d < 0x80 → all_bytes (λ x, 0x80 <=? byte_val x) s = true → any_byte (Ascii.eqb d) s = false.
Proof.
  intros Hd. induction s as [|c s IH]; cbn [all_bytes any_byte]; [done|].
  intros [Hc%Z.leb_le Hs]%andb_true_iff. rewrite (IH Hs), orb_false_r.
  apply Ascii.eqb_neq. intros <-. lia.
Qed.

Lemma length_drop_lt w s : (0 < w)%nat → s ≠ "" → (String.length (str_drop w s) < String.length s)%nat.
Proof.
  destruct w as [|w], s as [|c s]; try done; try lia. intros _ _. cbn [str_drop String.length].
  enough (∀ w s, (String.length (str_drop w s) ≤ String.length s)%nat) as H by (specialize (H w s); lia).
  clear. induction w as [|w IH]; intros [|c s]; simpl; [lia..|]. specialize (IH s). lia.
Qed.

Lemma runes_any_byte d s :
  byte_val d < 0x80 → existsb (λ r, r =? byte_val d) (runes s) = any_byte (Ascii.eqb d) s.
Proof.
  intros Hd. unfold runes.
  enough (∀ f s, (String.length s ≤ f)%nat →
    existsb (λ r, r =? byte_val d) (runes_fuel f s) = any_byte (Ascii.eqb d) s) by auto.
  clear s. induction f as [|f IH]; intros s Hf.
  { destruct s; [done|simpl in Hf; lia]. }
  destruct s as [|c s]; [done|]. cbn [runes_fuel].
  destruct (decode_rune (String c s)) as [r w] eqn:E. cbn [existsb].
  destruct (Z.lt_ge_cases (byte_val c) 0x80) as [Hc|Hc].
  - rewrite decode_rune_ascii in E by done. injection E as <- <-. cbn [str_drop any_byte].
    rewrite IH by (simpl in Hf; lia). f_equal.
    destruct (Ascii.eqb_spec d c) as [->|Hne]; [by rewrite Z.eqb_refl|].
    apply Z.eqb_neq. intros H. apply Hne. symmetry. by apply byte_val_inj.
  - apply decode_rune_high in E as (Hr & Hw & Hall); [|done].
    rewrite IH by (pose proof (length_drop_lt w (String c s) Hw ltac:(done)); simpl in *; lia).
    rewrite <-(str_take_drop w (String c s)) at 2. rewrite any_byte_app, (high_not_ascii _ _ Hd Hall).
    by assert (r =? byte_val d = false) as -> by (apply Z.eqb_neq; lia).
Qed.

(** ** Media types: the loop over runes against the pattern *)

Lemma media_byte_rune c :
  in_range 97 122 (byte_val c) || in_range 48 57 (byte_val c) || token_mark (byte_val c) = media_byte c.
Proof. done. Qed.

Lemma media_byte_ascii c : media_byte c = true → byte_val c < 0x80.
Proof.
  pose proof (all_ascii_spec (λ c, negb (media_byte c) || (byte_val c <? 0x80)) ltac:(vm_compute; reflexivity) c) as H.
  cbv beta in H. intros Hc. rewrite Hc in H. by apply Z.ltb_lt.
Qed.

Lemma token_mark_ascii r : token_mark r = true → r < 0x80.
Proof.
  unfold token_mark. rewrite existsb_exists. intros (c & Hc & ->%Z.eqb_eq%eq_sym).
  apply media_byte_ascii. unfold media_byte, token_mark.
  apply orb_true_iff. right. apply existsb_exists. exists c. split; [done|apply Z.eqb_refl].
Qed.

Lemma token_runes_high r rs first : 0x80 ≤ r → token_runes first (r :: rs) = false.
Proof.
  intros Hr. cbn [token_runes]. destruct (token_mark r) eqn:E; [apply token_mark_ascii in E; lia|].
  rewrite andb_false_r, orb_false_r. unfold in_range. lia.
Qed.

Lemma token_runes_bytes f : ∀ s, (String.length s ≤ f)%nat →
  token_runes false (runes_fuel f s) = all_bytes media_byte s.
Proof.
  induction f as [|f IH]; intros s Hf; [destruct s; [done|simpl in Hf; lia]|].
  destruct s as [|c s]; [done|]. cbn [runes_fuel all_bytes].
  destruct (decode_rune (String c s)) as [r w] eqn:E. destruct (Z.lt_ge_cases (byte_val c) 0x80) as [Hc|Hc].
  - rewrite decode_rune_ascii in E by done. injection E as <- <-. cbn [str_drop token_runes negb andb].
    rewrite media_byte_rune, IH by (simpl in Hf; lia). done.
  - apply decode_rune_high in E as (Hr & _ & _); [|done]. rewrite token_runes_high by done.
    destruct (media_byte c) eqn:Hm; [apply media_byte_ascii in Hm; lia|done].
Qed.

Lemma mediaToken_eq s : mediaToken s = mediaTokenRe s.
Proof.
  unfold mediaToken, mediaTokenRe, runes. destruct s as [|c s]; [done|].
  change (String.eqb (String c s) "") with false. cbn [orb String.length runes_fuel].
  rewrite Z.ltb_antisym. destruct (len (String c s) <=? 127); simpl negb; [|by rewrite andb_false_r].
  rewrite andb_true_r. destruct (decode_rune (String c s)) as [r w] eqn:E.
  destruct (Z.lt_ge_cases (byte_val c) 0x80) as [Hc|Hc].
  - rewrite decode_rune_ascii in E by done. injection E as <- <-. cbn [str_drop token_runes negb andb].
    by rewrite orb_false_r, token_runes_bytes.
  - apply decode_rune_high in E as (Hr & _ & _); [|done]. rewrite token_runes_high by done.
    assert (media_first c = false) as ->; [|done].
    destruct (media_first c) eqn:Hm; [|done].
    assert (media_byte c = true) as Hx%media_byte_ascii by (unfold media_byte; by rewrite Hm). lia.
Qed.

(** ** Vectors *)

Definition word32 (x : Z) : Prop := 0 ≤ x < 2 ^ 32.
Definition octet (b : Z) : Prop := 0 ≤ b < 2 ^ 8.

Lemma high_bits k x n : 0 ≤ x < 2 ^ k → 0 ≤ k ≤ n → Z.testbit x n = false.
Proof. intros Hx Hk. rewrite <-(Z.mod_small x (2 ^ k)) by done. apply Z.mod_pow2_bits_high. lia. Qed.

Lemma byte_bit x k m : 0 ≤ k →
  Z.testbit (Z.land (Z.shiftr x k) 255) m = (0 <=? m) && (m <? 8) && Z.testbit x (m + k).
Proof.
  intros Hk. rewrite Z.land_spec. destruct (Z.leb_spec 0 m).
  - rewrite Z.shiftr_spec by done. change 255 with (Z.ones 8). rewrite Z.testbit_ones_nonneg by lia.
    by destruct (Z.testbit x (m + k)), (m <? 8).
  - by rewrite !(Z.testbit_neg_r _ m) by lia.
Qed.

Lemma le32_shiftr x :
  le32 x = [Z.land (Z.shiftr x 0) 255; Z.land (Z.shiftr x 8) 255; Z.land (Z.shiftr x 16) 255;
            Z.land (Z.shiftr x 24) 255].
Proof. by rewrite Z.shiftr_0_r. Qed.

Lemma decode_le32 x rest : word32 x → decode_loop (le32 x ++ rest) = x :: decode_loop rest.
Proof.
  intros Hx. rewrite le32_shiftr. cbn [app decode_loop]. f_equal. apply Z.bits_inj'. intros n Hn.
  rewrite !Z.lor_spec, !Z.shiftl_spec, !byte_bit by lia.
  rewrite Z.add_0_r, !Z.sub_add. destruct (Z.testbit x n) eqn:E; [|by rewrite !andb_false_r].
  assert (n < 32) by (destruct (Z.lt_ge_cases n 32); [done|rewrite (high_bits 32) in E by (done || lia); done]).
  lia.
Qed.

Lemma encode_word b0 b1 b2 b3 :
  octet b0 → octet b1 → octet b2 → octet b3 →
  le32 (Z.lor b0 (Z.lor (Z.shiftl b1 8) (Z.lor (Z.shiftl b2 16) (Z.shiftl b3 24)))) = [b0; b1; b2; b3].
Proof.
  intros H0 H1 H2 H3. rewrite le32_shiftr.
  assert (Hb : ∀ b n, octet b → 8 ≤ n → Z.testbit b n = false) by (intros; apply (high_bits 8); [done|lia]).
  assert (Hout : ∀ W k b, 0 ≤ k → octet b → (∀ n, 0 ≤ n < 8 → Z.testbit W (n + k) = Z.testbit b n) →
    Z.land (Z.shiftr W k) 255 = b).
  { intros W k b Hk Hoct HW. apply Z.bits_inj'. intros n Hn. rewrite byte_bit by done.
    destruct (Z.ltb_spec n 8); [|rewrite andb_false_r; symmetry; by apply Hb].
    rewrite (proj2 (Z.leb_le 0 n)) by done. cbn [andb]. apply HW. lia. }
  repeat f_equal; apply Hout; try done; intros n Hn; rewrite !Z.lor_spec, !Z.shiftl_spec by lia.
  all: repeat match goal with
       | |- context [Z.testbit ?b (?n + ?k - ?j)] =>
           first [rewrite (Z.testbit_neg_r b (n + k - j)) by lia
                 |rewrite (Hb b (n + k - j)) by (done || lia)
                 |replace (n + k - j) with n by lia]
       | |- context [Z.testbit ?b (?n + ?k)] =>
           first [rewrite (Hb b (n + k)) by (done || lia) | replace (n + k) with n by lia]
       end; by rewrite ?orb_false_r.
Qed.

Lemma word_octets b0 b1 b2 b3 :
  octet b0 → octet b1 → octet b2 → octet b3 →
  word32 (Z.lor b0 (Z.lor (Z.shiftl b1 8) (Z.lor (Z.shiftl b2 16) (Z.shiftl b3 24)))).
Proof.
  unfold octet, word32. intros.
  assert (Hl : ∀ a b, 0 ≤ a < 2 ^ 32 → 0 ≤ b < 2 ^ 32 → 0 ≤ Z.lor a b < 2 ^ 32).
  { intros a b Ha Hb. split; [apply Z.lor_nonneg; lia|].
    destruct (Z.eq_dec (Z.lor a b) 0) as [->|Hne]; [lia|].
    assert (0 ≤ Z.lor a b) by (apply Z.lor_nonneg; lia).
    apply Z.log2_lt_pow2; [lia|]. rewrite Z.log2_lor by lia.
    apply Z.max_lub_lt.
    - destruct (Z.eq_dec a 0) as [->|]; [done|]. apply Z.log2_lt_pow2; lia.
    - destruct (Z.eq_dec b 0) as [->|]; [done|]. apply Z.log2_lt_pow2; lia. }
  repeat apply Hl; rewrite ?Z.shiftl_mul_pow2 by lia; lia.
Qed.

Lemma DecodeVector_encode v : Forall word32 v → DecodeVector (EncodeVector v) = Some v.
Proof.
  intros Hv. unfold DecodeVector, EncodeVector.
  assert (length (flat_map le32 v) = (length v * 4)%nat) as ->.
  { clear. induction v as [|x v IH]; [done|]. cbn [flat_map]. rewrite length_app, IH. simpl. lia. }
  rewrite Nat.Div0.mod_mul. simpl. f_equal. induction Hv as [|x v Hx Hv IH]; [done|].
  cbn [flat_map]. by rewrite decode_le32, IH.
Qed.

Lemma encode_decode_loop n : ∀ b, length b = (4 * n)%nat → Forall octet b →
  EncodeVector (decode_loop b) = b ∧ length (decode_loop b) = n ∧ Forall word32 (decode_loop b).
Proof.
  induction n as [|n IH]; intros b Hl Hb.
  - destruct b; [|simpl in Hl; lia]. split_and!; [done|done|constructor].
  - destruct b as [|b0 [|b1 [|b2 [|b3 b]]]]; simpl in Hl; try lia.
    rewrite !Forall_cons in Hb. destruct Hb as (? & ? & ? & ? & Hb).
    destruct (IH b ltac:(lia) Hb) as (E & L & W).
    change (decode_loop (b0 :: b1 :: b2 :: b3 :: b)) with
      (Z.lor b0 (Z.lor (Z.shiftl b1 8) (Z.lor (Z.shiftl b2 16) (Z.shiftl b3 24))) :: decode_loop b).
    unfold EncodeVector in *. cbn [flat_map length]. rewrite encode_word, E, L by done.
    split_and!; [done|done|]. constructor; [by apply word_octets|done].
Qed.

Lemma DecodeVector_Some b v :
  Forall octet b → DecodeVector b = Some v →
  EncodeVector v = b ∧ length b = (4 * length v)%nat ∧ Forall word32 v.
Proof.
  unfold DecodeVector. intros Hb. destruct (_ =? 0)%nat eqn:E; [|done]. intros [= <-].
  apply Nat.eqb_eq, Nat.Div0.div_exact in E.
  destruct (encode_decode_loop _ b E Hb) as (? & Hl & ?). by rewrite Hl.
Qed.
