(* ===== verification/SchemaConstraints.v ===== *)
(** * Constraints and relations ([internal/schema/constraints.go] and
    [relations.go]), and the changes of a migration ([schema.go])

    The declarations a table carries beside its fields: unique keys, foreign
    keys and the relation of a table of edges, and which constraints name a
    field.  Then the list of changes a migration asks for, and which of them
    have an outcome that depends on the rows already stored. *)
From Stdlib Require Import ZArith Lia Ascii String.
From stdpp Require Import base gmap strings list sorting.
From S2P Require Import Prelude GoStrings AuthIdentity FilterLexer FilterParser.
From S2P Require Import SchemaIdent Schema.
Local Open Scope Z_scope.

Definition ConstraintUnique : string := "unique".
Definition ConstraintForeignKey : string := "foreign_key".
Definition MaxConstraintsPerTable : Z := 32.
Definition MaxUniqueConstraintFields : Z := 8.

Record ConstraintReference := MkReference { cr_Table : string; cr_Field : string }.

Record Constraint := MkConstraint {
  c_Name : string; c_Kind : string; c_Fields : option (list string); c_Where : string;
  c_Field : string; c_References : option ConstraintReference }.

Record Relation := MkRelation { r_Source : string; r_Target : string; r_Type : string }.

Record TableSchema := MkTable {
  t_Namespace : string; t_Name : string; t_Version : Z; t_Fields : list Field;
  t_EmbedSpace : string; t_EmbedDim : Z; t_RowAccess : string; t_HasOwner : bool;
  t_Constraints : list Constraint; t_AcceptReferences : bool; t_Relation : option Relation }.

(** [constraintScalar] *)
Definition constraintScalar (t : FieldType) : bool := mem t [TString; Text; Number; Boolean; Timestamp].

(** [byName[name]]: the last declaration of a name wins. *)
Definition by_name (fields : list Field) (name : string) : option Field :=
  find (λ f, String.eqb (f_Name f) name) (rev fields).

(** ** Relations *)

Inductive relation_error :=
| RelationRoles | RelationEndpoint (role field : string) | RelationForeignKey (role field : string)
| RelationType (field : string).

Definition hasForeignKey (constraints : list Constraint) (field : string) : bool :=
  existsb (λ c, String.eqb (c_Kind c) ConstraintForeignKey && String.eqb (c_Field c) field) constraints.

Definition required_of (f : option Field) (t : FieldType) : bool :=
  match f with Some f => is_type f t && f_Required f | None => false end.

Definition endpoint_check (fields : list Field) (constraints : list Constraint) (role field : string)
    : outcome relation_error () :=
  if negb (required_of (by_name fields field) Number) then Fail (RelationEndpoint role field)
  else if negb (hasForeignKey constraints field) then Fail (RelationForeignKey role field)
  else Done ().

Definition ValidateRelation (fields : list Field) (constraints : list Constraint) (r : option Relation)
    : outcome relation_error () :=
  match r with
  | None => Done ()
  | Some r =>
      let s := r_Source r in let t := r_Target r in let ty := r_Type r in
      if String.eqb s "" || String.eqb t "" || String.eqb ty ""
         || String.eqb s t || String.eqb s ty || String.eqb t ty
      then Fail RelationRoles
      else
        let! _ := endpoint_check fields constraints "source" s in
        let! _ := endpoint_check fields constraints "target" t in
        if negb (required_of (by_name fields ty) TString) then Fail (RelationType ty) else Done ()
  end.

(** ** Constraints *)

Fixpoint constraintOperand (n : Node) : bool :=
  match n with
  | Column _ => true
  | Literal k _ => negb (bool_decide (k = LiteralBlob))
  | Paren inner => constraintOperand inner
  | Unary op (Literal k _) => bool_decide (k = LiteralNumber) && (String.eqb op "+" || String.eqb op "-")
  | _ => false
  end.

Definition comparisons : list string := ["="; "=="; "!="; "<>"; "<"; "<="; ">"; ">="].

Fixpoint constraintPredicate (n : Node) : bool :=
  match n with
  | Paren inner => constraintPredicate inner
  | Unary op operand => String.eqb op "not" && constraintPredicate operand
  | Binary op l r =>
      if mem op ["and"; "or"] then constraintPredicate l && constraintPredicate r
      else if mem op comparisons then constraintOperand l && constraintOperand r
      else false
  | Is _ l (Literal k _) => bool_decide (k = LiteralNull) && constraintOperand l
  | _ => false
  end.

(** What the context answers: at the start and before each constraint, and to
    the parser of each constraint's predicate. *)
Record polls := Polls { poll_loop : nat → option ctx_error; poll_parse : nat → ctx }.
Definition quiet : polls := Polls (λ _, None) (λ _, background).

Inductive constraint_error :=
| ConstraintCanceled (e : ctx_error) | TooManyConstraints
| ConstraintIdent (i : nat) (e : ident_error) | ConstraintTwice (n : string)
| ConstraintBad (n : string) (e : declaration_error)
with declaration_error :=
| KindUnknown | UniqueTakes | UniqueCount | KeyField (n : string) | KeyRepeated (n : string)
| WhereInvalid (e : error) | WherePredicate
| ForeignKeyTakes | ForeignKeyField (n : string) | ForeignKeyReference | ForeignKeyTable (e : ident_error).

(** The loop over the key fields, with the map [seen]. *)
Fixpoint key_loop (fields : list Field) (seen names : list string) : outcome declaration_error () :=
  match names with
  | [] => Done ()
  | name :: names =>
      let scalar := match by_name fields name with Some f => constraintScalar (f_Type f) | None => false end in
      if negb scalar then Fail (KeyField name)
      else if mem name seen then Fail (KeyRepeated name)
      else key_loop fields (name :: seen) names
  end.

Section Constraints.
Context {UT : UnicodeTables}.

Definition validateUniqueConstraint (context : ctx) (fields : list Field) (columns : list string)
    (c : Constraint) : outcome declaration_error () :=
  let keys := default [] (c_Fields c) in
  if negb (String.eqb (c_Field c) "") || bool_decide (c_References c ≠ None) then Fail UniqueTakes
  else if (length keys <? 1)%nat || (MaxUniqueConstraintFields <? Z.of_nat (length keys)) then Fail UniqueCount
  else
    let! _ := key_loop fields [] keys in
    if String.eqb (c_Where c) "" then Done ()
    else match Parse (c_Where c) (MkOptions (Some context) columns []) with
         | Done node => if negb (constraintPredicate node) then Fail WherePredicate else Done ()
         | Fail e => Fail (WhereInvalid e)
         | OutOfFuel => OutOfFuel
         end.

Definition validateForeignKeyDeclaration (fields : list Field) (c : Constraint) : outcome declaration_error () :=
  if bool_decide (c_Fields c ≠ None) || negb (String.eqb (c_Where c) "") then Fail ForeignKeyTakes
  else if negb (match by_name fields (c_Field c) with Some f => is_type f Number | None => false end)
  then Fail (ForeignKeyField (c_Field c))
  else match c_References c with
       | Some r => if negb (String.eqb (cr_Field r) "id") then Fail ForeignKeyReference
                   else match ValidateTableName (cr_Table r) with
                        | Fail e => Fail (ForeignKeyTable e) | Done _ => Done () | OutOfFuel => OutOfFuel
                        end
       | None => Fail ForeignKeyReference
       end.

Definition validate_declaration (context : ctx) (fields : list Field) (columns : list string)
    (c : Constraint) : outcome declaration_error () :=
  if String.eqb (c_Kind c) ConstraintUnique then validateUniqueConstraint context fields columns c
  else if String.eqb (c_Kind c) ConstraintForeignKey then validateForeignKeyDeclaration fields c
  else Fail KindUnknown.

(** The loop over the constraints, from the one numbered [i]. *)
Fixpoint declarations_loop (ps : polls) (fields : list Field) (columns : list string)
    (i : nat) (names : list string) (constraints : list Constraint) : outcome constraint_error () :=
  match constraints with
  | [] => Done ()
  | c :: constraints =>
      match poll_loop ps (S i) with
      | Some e => Fail (ConstraintCanceled e)
      | None =>
          match ValidateIdent (c_Name c) "constraint name" with
          | Fail e => Fail (ConstraintIdent i e)
          | OutOfFuel => OutOfFuel
          | Done _ =>
              if mem (c_Name c) names then Fail (ConstraintTwice (c_Name c))
              else match validate_declaration (poll_parse ps i) fields columns c with
                   | Fail e => Fail (ConstraintBad (c_Name c) e)
                   | OutOfFuel => OutOfFuel
                   | Done _ => declarations_loop ps fields columns (S i) (c_Name c :: names) constraints
                   end
          end
      end
  end.

Definition scalar_columns (fields : list Field) : list string :=
  map f_Name (List.filter (λ f, constraintScalar (f_Type f)) fields).

Definition ValidateConstraintDeclarations (ps : polls) (fields : list Field)
    (constraints : list Constraint) : outcome constraint_error () :=
  match poll_loop ps 0 with
  | Some e => Fail (ConstraintCanceled e)
  | None =>
      if MaxConstraintsPerTable <? Z.of_nat (length constraints) then Fail TooManyConstraints
      else declarations_loop ps fields (scalar_columns fields) 0 [] constraints
  end.

(** ** The constraints that name a field *)

Fixpoint mentionsColumn (n : Node) (field : string) : bool :=
  match n with
  | Column name => equal_fold name field
  | Paren inner => mentionsColumn inner field
  | Unary _ operand => mentionsColumn operand field
  | Binary _ l r | Is _ l r => mentionsColumn l field || mentionsColumn r field
  | _ => false
  end.

Fixpoint naming_loop (parse_ctx : nat → ctx) (columns : list string) (i : nat)
    (constraints : list Constraint) (field : string) : string :=
  match constraints with
  | [] => ""
  | c :: constraints =>
      if String.eqb (c_Field c) field || mem field (default [] (c_Fields c)) then c_Name c
      else if String.eqb (c_Where c) "" then naming_loop parse_ctx columns (S i) constraints field
      else match Parse (c_Where c) (MkOptions (Some (parse_ctx i)) columns []) with
           | Done node => if mentionsColumn node field then c_Name c
                          else naming_loop parse_ctx columns (S i) constraints field
           | _ => naming_loop parse_ctx columns (S i) constraints field
           end
  end.
Definition ConstraintNamingField (parse_ctx : nat → ctx) (fields : list Field)
    (constraints : list Constraint) (field : string) : string :=
  naming_loop parse_ctx (map f_Name fields) 0 constraints field.
End Constraints.

(** [ReferencingTables]; a nil schema is [None]. *)
Definition references_table (table : string) (c : Constraint) : bool :=
  String.eqb (c_Kind c) ConstraintForeignKey
  && match c_References c with Some r => String.eqb (cr_Table r) table | None => false end.
Definition referencing (table : string) (sc : option TableSchema) : option string :=
  match sc with
  | Some sc => if negb (String.eqb (t_Name sc) table) && existsb (references_table table) (t_Constraints sc)
               then Some (t_Name sc) else None
  | None => None
  end.
Definition ReferencingTables (schemas : list (option TableSchema)) (table : string) : list string :=
  merge_sort str_le (omap (referencing table) schemas).

(** ** Migration changes *)

(** A pointer field is an [option]; [Default] is [any], whose nil is [JNull]. *)
Record Change := MkChange {
  ch_Op : string; ch_Field : option Field; ch_From : string; ch_To : string; ch_Name : string;
  ch_Value : option bool; ch_Enum : option (list string); ch_Shape : option string;
  ch_MaxBytes : option Z; ch_MediaTypes : option (list string); ch_Default : json;
  ch_Constraint : option Constraint }.

Definition OpAddField : string := "add_field".
Definition OpRenameField : string := "rename_field".
Definition OpDropField : string := "drop_field".
Definition OpSetFulltext : string := "set_fulltext".
Definition OpSetVectorize : string := "set_vectorize".
Definition OpSetEnum : string := "set_enum".
Definition OpSetShape : string := "set_shape".
Definition OpSetFileConstraints : string := "set_file_constraints".
Definition OpSetRowAccess : string := "set_row_access".
Definition OpAddConstraint : string := "add_constraint".
Definition OpDropConstraint : string := "drop_constraint".
Definition OpSetAcceptReferences : string := "set_accept_references".

Definition TakesValue (op : string) : bool :=
  mem op [OpSetFulltext; OpSetVectorize; OpSetRowAccess; OpSetAcceptReferences].

Definition ReadsRows (c : Change) : bool :=
  if String.eqb (ch_Op c) OpAddField then
    match ch_Field c with
    | None => true
    | Some f => f_Required f || f_Fulltext f || f_Vectorize f || negb (is_nil (ch_Default c))
    end
  else mem (ch_Op c) [OpSetEnum; OpSetShape; OpSetFileConstraints; OpSetVectorize; OpSetFulltext;
                      OpSetRowAccess; OpDropField; OpAddConstraint; OpSetAcceptReferences].
