(* ===== verification/SchemaRules.v ===== *)
(** * What valid constraints are, and the columns of their predicates *)
From Stdlib Require Import ZArith Lia Ascii String.
From stdpp Require Import base gmap strings list sorting.
From S2P Require Import Prelude GoStrings AuthIdentity AuthPaths.
From S2P Require Import FilterLexer FilterParser FilterProps FilterTheorems.
From S2P Require Import SchemaIdent SchemaNames Schema SchemaFacts SchemaConstraints.
Local Open Scope Z_scope.

Section Rules.
Context {UT : UnicodeTables} (fields : list Field).

(** ** Valid constraints *)

(** The predicate of a unique constraint, read over the scalar columns. *)
Definition predicate (c : Constraint) (n : Node) : Prop :=
  Parse (c_Where c) (MkOptions (Some background) (scalar_columns fields) []) = Done n.

Record unique_ok (c : Constraint) : Prop := UniqueOk {
  uo_field : c_Field c = "";
  uo_references : c_References c = None;
  uo_count : 1 ≤ Z.of_nat (length (default [] (c_Fields c))) ≤ MaxUniqueConstraintFields;
  uo_distinct : NoDup (default [] (c_Fields c));
  uo_keys : ∀ k, k ∈ default [] (c_Fields c) →
    ∃ f, by_name fields k = Some f ∧ constraintScalar (f_Type f) = true;
  uo_where : c_Where c = "" ∨ ∃ n, predicate c n ∧ constraintPredicate n = true }.

Record foreign_ok (c : Constraint) : Prop := ForeignOk {
  ko_fields : c_Fields c = None;
  ko_where : c_Where c = "";
  ko_field : ∃ f, by_name fields (c_Field c) = Some f ∧ f_Type f = Number;
  ko_references : ∃ r, c_References c = Some r ∧ cr_Field r = "id" ∧ ValidTableName (cr_Table r) = true }.

Definition constraint_ok (c : Constraint) : Prop :=
  ValidIdent (c_Name c) = true
  ∧ (c_Kind c = ConstraintUnique ∧ unique_ok c ∨ c_Kind c = ConstraintForeignKey ∧ foreign_ok c).

Definition constraints_ok (cs : list Constraint) : Prop :=
  Z.of_nat (length cs) ≤ MaxConstraintsPerTable ∧ NoDup (map c_Name cs) ∧ Forall constraint_ok cs.

Lemma key_loop_Done names : ∀ seen,
  key_loop fields seen names = Done () ↔
  (∀ k, k ∈ names → ∃ f, by_name fields k = Some f ∧ constraintScalar (f_Type f) = true)
  ∧ NoDup names ∧ (∀ k, k ∈ names → k ∉ seen).
Proof.
  induction names as [|k names IH]; intros seen; cbn [key_loop].
  - split; [intros _; split_and!; [by intros ? ?%elem_of_nil|constructor|by intros ? ?%elem_of_nil]|done].
  - rewrite !if_else_Done, IH, negb_false_iff, mem_false, NoDup_cons. setoid_rewrite elem_of_cons. split.
    + intros (Hk & Hs & Hks & Hnd & Hdis). split_and!; [|intros Hx; by destruct (Hdis _ Hx); left|done|].
      * intros x [->|Hx]; [|by apply Hks]. destruct (by_name fields k) as [f|]; [eauto|done].
      * intros x [->|Hx]; [done|]. intros Hy. apply (Hdis x Hx). by right.
    + intros (Hks & [Hn Hnd] & Hdis). split_and!; [|apply Hdis; by left|intros x Hx; apply Hks; by right|done|].
      * destruct (Hks k (or_introl eq_refl)) as (f & -> & ?). done.
      * intros x Hx [->|Hy]; [done|]. by apply (Hdis x (or_intror Hx)).
Qed.

Lemma validateUnique_Done context c :
  validateUniqueConstraint context fields (scalar_columns fields) c = Done () → unique_ok c.
Proof.
  unfold validateUniqueConstraint.
  rewrite !if_else_Done, obind_unit, !orb_false_iff, negb_false_iff, String.eqb_eq, bool_decide_eq_false,
    Z.ltb_ge, Nat.ltb_ge, key_loop_Done.
  intros ([? ?] & [? ?] & (? & ? & _) & Hw). split; [done|by destruct (c_References c); naive_solver|lia|done|done|].
  destruct (String.eqb_spec (c_Where c) "") as [?|_]; [by left|right].
  destruct (Parse _ _) as [n| |] eqn:E; [|done|done]. apply if_else_Done in Hw as [Hw%negb_false_iff _].
  exists n. split; [|done]. unfold predicate. by eapply Parse_mono; [| |exact E].
Qed.

Lemma unique_Done c :
  unique_ok c → validateUniqueConstraint background fields (scalar_columns fields) c = Done ().
Proof.
  intros []. unfold validateUniqueConstraint.
  rewrite !if_else_Done, obind_unit, !orb_false_iff, negb_false_iff, String.eqb_eq, bool_decide_eq_false,
    Z.ltb_ge, Nat.ltb_ge, key_loop_Done.
  split_and!; try done; [naive_solver|lia|lia|intros ? _; apply not_elem_of_nil|].
  destruct uo_where0 as [->|(n & Hp & Hn)]; [done|]. unfold predicate in Hp. rewrite Hp, Hn.
  by destruct (String.eqb _ _).
Qed.

Lemma validateForeignKey_Done c : validateForeignKeyDeclaration fields c = Done () ↔ foreign_ok c.
Proof.
  unfold validateForeignKeyDeclaration.
  rewrite !if_else_Done, orb_false_iff, !negb_false_iff, String.eqb_eq, bool_decide_eq_false.
  assert (Hv : ∀ t, match ValidateTableName t with
                    | Fail e => Fail (ForeignKeyTable e) | Done _ => Done () | OutOfFuel => OutOfFuel
                    end = Done () ↔ ValidTableName t = true).
  { intros t. unfold ValidTableName. destruct (ValidateTableName t) as [[]| |]; naive_solver. }
  split.
  - intros ([? ?] & Hf & Hr). split; [by destruct (c_Fields c); naive_solver|done| |].
    + destruct (by_name _ _) as [f|]; [|done]. apply is_type_spec in Hf. eauto.
    + destruct (c_References c) as [r|]; [|done].
      apply if_else_Done in Hr as [Hi%negb_false_iff%String.eqb_eq Hr%Hv]. eauto.
  - intros [H1 H2 (f & H3 & H4) (r & H5 & H6 & H7)]. rewrite H1, H3, H5, H6. split_and!; [naive_solver|done| |].
    + by apply is_type_spec.
    + by apply Hv.
Qed.

Lemma declaration_Done context c :
  validate_declaration context fields (scalar_columns fields) c = Done () →
  c_Kind c = ConstraintUnique ∧ unique_ok c ∨ c_Kind c = ConstraintForeignKey ∧ foreign_ok c.
Proof.
  unfold validate_declaration. destruct (String.eqb_spec (c_Kind c) ConstraintUnique) as [->|_].
  - intros ?%validateUnique_Done. by left.
  - destruct (String.eqb_spec (c_Kind c) ConstraintForeignKey) as [->|_]; [|done].
    intros ?%validateForeignKey_Done. by right.
Qed.

Lemma declarations_loop_Done ps cs : ∀ i names,
  declarations_loop ps fields (scalar_columns fields) i names cs = Done () →
  Forall constraint_ok cs ∧ NoDup (map c_Name cs) ∧ (∀ c, c ∈ cs → c_Name c ∉ names).
Proof.
  induction cs as [|c cs IH]; intros i names; cbn [declarations_loop].
  { intros _. split_and!; [constructor|constructor|by intros ? ?%elem_of_nil]. }
  destruct (poll_loop _ _); [done|].
  destruct (ValidateIdent _ _) as [[]| |] eqn:Ei; [|done..]. apply ValidateIdent_Done in Ei.
  destruct (mem (c_Name c) names) eqn:Em; [done|]. apply mem_false in Em.
  destruct (validate_declaration _ _ _ _) as [[]| |] eqn:Ed; [|done..]. apply declaration_Done in Ed.
  intros (Hf & Hnd & Hnames)%IH. split_and!.
  - by constructor.
  - cbn [map]. constructor; [|done]. intros (x & Hx & Hin)%list_elem_of_fmap.
    apply (Hnames x Hin). rewrite <-Hx. by left.
  - intros x [->|Hx]%elem_of_cons; [done|]. intros Hy. apply (Hnames x Hx). by right.
Qed.

Lemma declarations_Done cs : ∀ i names,
  Forall constraint_ok cs → NoDup (map c_Name cs) → (∀ c, c ∈ cs → c_Name c ∉ names) →
  declarations_loop quiet fields (scalar_columns fields) i names cs = Done ().
Proof.
  induction cs as [|c cs IH]; intros i names Hf Hnd Hn; cbn [declarations_loop]; [done|].
  apply Forall_cons in Hf as [[Hi Hk] Hf]. apply NoDup_cons in Hnd as [Hnc Hnd]. cbn [quiet poll_loop].
  rewrite (proj2 (ValidateIdent_Done _ _) Hi), (proj2 (mem_false _ _)) by (apply Hn; by left).
  assert (validate_declaration (poll_parse quiet i) fields (scalar_columns fields) c = Done ()) as ->.
  { unfold validate_declaration. destruct Hk as [[-> Hu]|[-> Hu]].
    - apply (unique_Done c Hu).
    - by apply validateForeignKey_Done. }
  apply IH; [done|done|]. intros x Hx [He|Hy]%elem_of_cons.
  - apply Hnc. rewrite <-He. by apply list_elem_of_fmap_2.
  - apply (Hn x); [by right|done].
Qed.

Lemma ValidateConstraintDeclarations_Done ps cs :
  ValidateConstraintDeclarations ps fields cs = Done () → constraints_ok cs.
Proof.
  unfold ValidateConstraintDeclarations. destruct (poll_loop _ _); [done|].
  rewrite if_else_Done, Z.ltb_ge. intros [? (? & ? & _)%declarations_loop_Done]. done.
Qed.

(** ** The columns of a predicate *)

Lemma constraintOperand_columns n x t :
  constraintOperand n = true →
  (mentionsColumn n x = true ↔ ∃ c, (t, Column c) ∈ nodes t n ∧ equal_fold c x = true).
Proof.
  induction n; cbn [constraintOperand mentionsColumn nodes]; try done; intros H.
  - setoid_rewrite list_elem_of_singleton. naive_solver.
  - setoid_rewrite list_elem_of_singleton. naive_solver.
  - destruct n; try done. cbn [mentionsColumn nodes].
    setoid_rewrite elem_of_cons. setoid_rewrite list_elem_of_singleton. naive_solver.
  - rewrite (IHn H). setoid_rewrite elem_of_cons. naive_solver.
Qed.

Lemma constraintPredicate_columns n x t :
  constraintPredicate n = true →
  (mentionsColumn n x = true ↔ ∃ c, (t, Column c) ∈ nodes t n ∧ equal_fold c x = true).
Proof.
  induction n; cbn [constraintPredicate mentionsColumn nodes]; try done; intros H;
    setoid_rewrite elem_of_cons; setoid_rewrite elem_of_app || idtac.
  - rewrite orb_true_iff. destruct (mem Op ["and"; "or"]).
    + apply andb_true_iff in H as [H1 H2]. rewrite (IHn1 H1), (IHn2 H2). naive_solver.
    + destruct (mem Op comparisons); [|done]. apply andb_true_iff in H as [H1 H2].
      rewrite (constraintOperand_columns _ x t H1), (constraintOperand_columns _ x t H2). naive_solver.
  - apply andb_true_iff in H as [_ H]. rewrite (IHn H). naive_solver.
  - rewrite (IHn H). naive_solver.
  - destruct n2; try done. apply andb_true_iff in H as [_ H]. cbn [mentionsColumn nodes].
    rewrite orb_false_r, (constraintOperand_columns _ x t H). setoid_rewrite list_elem_of_singleton. naive_solver.
Qed.

(** Nothing else than these can be found in a predicate. *)
Definition predicate_node (n : Node) : bool :=
  match n with
  | Column _ | Paren _ | Unary _ _ | Binary _ _ _ | Is _ _ _ => true
  | Literal _ _ => true
  | _ => false
  end.

Lemma constraintOperand_nodes n t x : constraintOperand n = true → x ∈ nodes t n → predicate_node x.2 = true.
Proof.
  induction n; cbn [constraintOperand nodes]; try done; intros H; rewrite elem_of_cons.
  - intros [->|?%not_elem_of_nil]; done.
  - intros [->|?%not_elem_of_nil]; done.
  - destruct n; try done. cbn [nodes]. rewrite list_elem_of_singleton. by intros [->| ->].
  - intros [->|?]; [done|auto].
Qed.

Lemma constraintPredicate_nodes n t x : constraintPredicate n = true → x ∈ nodes t n → predicate_node x.2 = true.
Proof.
  induction n; cbn [constraintPredicate nodes]; try done; intros H; rewrite elem_of_cons, ?elem_of_app.
  - destruct (mem Op ["and"; "or"]).
    + apply andb_true_iff in H as [H1 H2]. intros [->|[?|?]]; auto.
    + destruct (mem Op comparisons); [|done]. apply andb_true_iff in H as [H1 H2].
      intros [->|[?|?]]; eauto using constraintOperand_nodes.
  - apply andb_true_iff in H as [_ H]. intros [->|?]; auto.
  - intros [->|?]; auto.
  - destruct n2; try done. apply andb_true_iff in H as [_ H]. cbn [nodes]. rewrite list_elem_of_singleton.
    intros [->|[?| ->]]; eauto using constraintOperand_nodes.
Qed.
End Rules.

(** ** The constraints that name a field *)

Lemma ident_ascii_bytes s : all_bytes ident_byte s = true →
  is_ascii s = true ∧ map_bytes ascii_lower_byte s = s
  ∧ map ascii_lower (map byte_val (list_ascii_of_string s)) = map byte_val (list_ascii_of_string s)
  ∧ Forall (λ r, (r <? 0x80) = true) (map byte_val (list_ascii_of_string s)).
Proof.
  induction s as [|c s IH]; cbn [all_bytes map_bytes list_ascii_of_string map is_ascii]; [done|].
  intros [Hc Hs]%andb_true_iff. destruct (IH Hs) as (Ha & Hm & Hl & Hf).
  pose proof (all_ascii_spec (λ c, negb (ident_byte c) || ((byte_val c <? 0x80)
    && Ascii.eqb (ascii_lower_byte c) c && (ascii_lower (byte_val c) =? byte_val c))) ltac:(vm_compute; reflexivity) c) as H.
  cbv beta in H. rewrite Hc in H.
  apply andb_true_iff in H as [[H1 H2%Ascii.eqb_eq]%andb_true_iff H3%Z.eqb_eq].
  unfold is_ascii in *. cbn [all_bytes]. rewrite H1, H2, H3, Hm, Hl. split_and!; [done|done|done|by constructor].
Qed.

Lemma ident_bytes s : identRe s = true → all_bytes ident_byte s = true.
Proof. destruct s; [done|]. by intros [[_ ?]%andb_true_iff _]%andb_true_iff. Qed.

Section Naming.
Context {UT : UnicodeTables}.

Lemma to_lower_ident s : identRe s = true → to_lower s = s.
Proof.
  intros (Ha & Hm & _)%ident_bytes%ident_ascii_bytes. unfold to_lower. by rewrite Ha.
Qed.

Lemma list_ascii_inj a b : map byte_val (list_ascii_of_string a) = map byte_val (list_ascii_of_string b) → a = b.
Proof.
  revert b. induction a as [|c a IH]; intros [|d b]; simpl; try done.
  intros [= Hc%byte_val_inj Ht]. by rewrite Hc, (IH b Ht).
Qed.

Lemma equal_fold_ident a b : identRe a = true → identRe b = true → (equal_fold a b = true ↔ a = b).
Proof.
  intros (Aa & _ & La & Fa)%ident_bytes%ident_ascii_bytes (Ab & _ & Lb & Fb)%ident_bytes%ident_ascii_bytes.
  unfold equal_fold. rewrite !runes_ascii by done.
  transitivity (map byte_val (list_ascii_of_string a) = map byte_val (list_ascii_of_string b));
    [|split; [apply list_ascii_inj|by intros ->]].
  revert La Lb Fa Fb. generalize (map byte_val (list_ascii_of_string a)) (map byte_val (list_ascii_of_string b)).
  clear. intros l. induction l as [|x l IH]; intros [|y k]; cbn [fold_eq_runes map]; try done.
  intros [= Hx Hl] [= Hy Hk] [Fx Fl]%Forall_cons [Fy Fk]%Forall_cons.
  unfold fold_eq at 1. rewrite Fx, Fy. cbn [andb]. rewrite Hx, Hy, andb_true_iff, Z.eqb_eq, (IH k) by done.
  naive_solver.
Qed.

Variable fields : list Field.
Hypothesis Hidents : Forall (λ f, identRe (f_Name f) = true) fields.

(** The field is a key, the holder of a reference, or read by the predicate. *)
Definition names_field (c : Constraint) (field : string) : Prop :=
  c_Field c = field ∨ field ∈ default [] (c_Fields c)
  ∨ ∃ n, c_Where c ≠ "" ∧ predicate fields c n ∧ (false, Column field) ∈ nodes false n.

Lemma scalar_columns_sub : scalar_columns fields ⊆ map f_Name fields.
Proof.
  intros n (f & -> & Hf)%list_elem_of_fmap. apply list_elem_of_In, List.filter_In in Hf as [Hf _].
  apply list_elem_of_fmap_2. by apply list_elem_of_In.
Qed.

Lemma predicate_columns c n t x :
  predicate fields c n → (t, Column x) ∈ nodes false n → x ∈ scalar_columns fields ∧ identRe x = true.
Proof.
  intros Hp Hx. apply (Parse_node _ _ _ _ Hp) in Hx. unfold node_ok in Hx. cbn in Hx.
  apply elem_of_list_to_set, list_elem_of_fmap in Hx as (y & -> & Hy). assert (identRe y = true) as Hi.
  { apply scalar_columns_sub, list_elem_of_fmap in Hy as (f & -> & Hf).
    by apply (proj1 (Forall_forall _ _) Hidents). }
  by rewrite to_lower_ident.
Qed.

Lemma mentions_predicate c n field :
  identRe field = true → predicate fields c n → constraintPredicate n = true →
  (mentionsColumn n field = true ↔ (false, Column field) ∈ nodes false n).
Proof.
  intros Hf Hp Hn. rewrite (constraintPredicate_columns _ _ false Hn). split; [|intros; exists field].
  - intros (x & Hx & He). destruct (predicate_columns _ _ _ _ Hp Hx) as [_ Hi].
    apply equal_fold_ident in He; [by subst|done|done].
  - split; [done|]. by apply equal_fold_ident.
Qed.

Lemma naming_loop_spec field : identRe field = true → ∀ cs i,
  Forall (constraint_ok fields) cs →
  let r := naming_loop (λ _, background) (map f_Name fields) i cs field in
  (r = "" ∧ ∀ c, c ∈ cs → ¬ names_field c field)
  ∨ (∃ c, c ∈ cs ∧ names_field c field ∧ r = c_Name c ∧ r ≠ "").
Proof.
  intros Hf. induction cs as [|c cs IH]; intros i Hcs; cbn [naming_loop]; cbv zeta.
  { left. split; [done|by intros ? ?%elem_of_nil]. }
  apply Forall_cons in Hcs as [Hc Hcs]. specialize (IH (S i) Hcs). cbv zeta in IH.
  assert (Hname : c_Name c ≠ "") by (intros E; destruct Hc as [Hv _]; by rewrite E in Hv).
  assert (Hskip : ¬ names_field c field →
    let r := naming_loop (λ _, background) (map f_Name fields) (S i) cs field in
    (r = "" ∧ ∀ c', c' ∈ c :: cs → ¬ names_field c' field)
    ∨ (∃ c', c' ∈ c :: cs ∧ names_field c' field ∧ r = c_Name c' ∧ r ≠ "")).
  { intros Hno. destruct IH as [[Hr Hall]|(c' & ? & ? & ? & ?)].
    - left. split; [done|]. intros c' [->|?]%elem_of_cons; auto.
    - right. exists c'. split_and!; try done. by right. }
  destruct (String.eqb_spec (c_Field c) field) as [He|He]; cbn [orb].
  { right. exists c. split_and!; [by left|by left|done|done]. }
  destruct (mem field _) eqn:Hm.
  { apply mem_spec in Hm. right. exists c. split_and!; [by left|right; by left|done|done]. }
  apply mem_false in Hm. destruct (String.eqb_spec (c_Where c) "") as [Hw|Hw].
  { apply Hskip. intros [?|[?|(n & ? & _)]]; done. }
  destruct Hc as [_ [[_ Hu]|[_ Hk]]]; [|by destruct Hk].
  destruct (uo_where _ _ Hu) as [?|(n & Hp & Hn)]; [done|].
  rewrite (Parse_mono _ (Some background) (Some background) _ _ _ _ scalar_columns_sub (λ _ H, H) Hp).
  pose proof (mentions_predicate c n field Hf Hp Hn) as Hmen.
  destruct (mentionsColumn n field).
  - right. exists c. split_and!; [by left|right; right; exists n; naive_solver|done|done].
  - apply Hskip. intros [?|[?|(n' & _ & Hp' & Hin)]]; [done|done|]. unfold predicate in Hp, Hp'.
    rewrite Hp in Hp'. injection Hp' as <-. by apply Hmen in Hin.
Qed.
End Naming.
