(* ===== verification/SchemaTheorems.v ===== *)
(** * Theorems on schemas

    Inferred names, the validation of fields, the texts and media types of
    files, vectors, and constraints. *)
From Stdlib Require Import ZArith Lia Ascii String.
From stdpp Require Import base gmap strings list sorting.
From S2P Require Import Prelude GoStrings AuthIdentity AuthPaths.
From S2P Require Import FilterLexer FilterParser FilterProps.
From S2P Require Import SchemaIdent SchemaNames Schema SchemaFacts SchemaText SchemaConstraints SchemaRules.
Local Open Scope Z_scope.

(** ** Inferred names *)

Lemma first_pass_first desired : ∀ taken names taken' i d,
  first_pass desired taken = (names, taken') → desired !! i = Some d →
  d ∉ taken → (∀ j, (j < i)%nat → desired !! j ≠ Some d) → names !! i = Some (Some d).
Proof.
  induction desired as [|e desired IH]; intros taken names taken' i d; simpl; [done|].
  destruct (mem e taken) eqn:Hm.
  - destruct (first_pass desired taken) as [rest t1] eqn:E. intros [= <- <-]. destruct i as [|i].
    + intros [= ->] Hd. by apply mem_spec in Hm.
    + intros Hi Hd Hj. apply (IH _ _ _ _ _ E Hi Hd). intros j Hlt. apply (Hj (S j)). lia.
  - destruct (first_pass desired (e :: taken)) as [rest t1] eqn:E. intros [= <- <-]. destruct i as [|i].
    + by intros [= ->].
    + intros Hi Hd Hj. apply (IH _ _ _ _ _ E Hi).
      * intros [->|?]%elem_of_cons; [|done]. by apply (Hj 0%nat); [lia|].
      * intros j Hlt. apply (Hj (S j)). lia.
Qed.

(** Whatever the keys of the samples, the name inferred from a key is one
    [Validate] accepts; and the names given to the inferred fields, however
    their wanted names collide, are all valid and all distinct, and a wanted
    name goes to the first that wants it. *)
Theorem inferred_names_valid {UT : UnicodeTables} (desired : list string)
    (Hvalid : Forall (λ d, ValidIdent d = true) desired) (Hlen : Z.of_nat (length desired) < 10 ^ 49) :
  (∀ dialect raw, ValidIdent (base_name dialect raw) = true)
  ∧ ∃ names, assign_names desired = Some names ∧ length names = length desired
    ∧ Forall (λ n, ValidIdent n = true) names ∧ NoDup names
    ∧ (∀ i d, desired !! i = Some d → (∀ j, (j < i)%nat → desired !! j ≠ Some d) → names !! i = Some d).
Proof.
  split; [intros; apply base_name_valid|]. unfold assign_names.
  destruct (first_pass desired []) as [names taken] eqn:E.
  destruct (first_pass_spec _ _ _ _ E) as (Hl & Hnd & Hin & Ht & Hlt).
  destruct (second_pass_spec desired names taken) as (out & -> & Hlo & Hv & Hndo & _ & Hk); try done.
  - intros n Hn. destruct (Hin n Hn) as [Hd _]. split; [|apply Ht; by right].
    by apply (proj1 (Forall_forall _ _) Hvalid).
  - assert (10 ^ 50 = 10 * 10 ^ 49) by reflexivity. simpl in Hlt. lia.
  - exists out. split_and!; try done. intros i d Hi Hj. apply Hk.
    eapply first_pass_first; [exact E|done|apply not_elem_of_nil|done].
Qed.

Lemma inferred_names_valid_witness :
  let desired := ["user_id"; "user_id"; "rank_"] in
  assign_names desired = Some ["user_id"; "user_id_2"; "rank_"]
  ∧ ∃ names, assign_names desired = Some names ∧ NoDup names.
Proof.
  split; [vm_compute; reflexivity|].
  destruct (proj2 (inferred_names_valid (UT := ascii_tables) ["user_id"; "user_id"; "rank_"]
    ltac:(repeat constructor) ltac:(vm_compute; reflexivity))) as (names & H & _ & _ & Hnd & _).
  exists names. split; assumption.
Defined.

(** ** Fields *)

(** C39. [validate] accepts exactly the tables that are well formed: at least
    one field, distinct names that are valid or carried over, at most one
    vectorized field, and for each field its own conditions ([field_ok]); the
    order of the checks in the loop never matters to acceptance.  A table that
    can be created can be kept by any migration. *)
Theorem validate_exact :
  (∀ legacy fields, validate fields legacy = Done () ↔ table_ok legacy fields)
  ∧ (∀ fields existing, Validate fields = Done () → ValidateForMigration fields existing = Done ()).
Proof.
  split; [intros; apply validate_Done|].
  intros fields existing H. apply validate_Done, table_ok_weaken. by apply validate_Done.
Qed.

(** ** Files *)

(** A file name that [FileNameRule] lets through is safe as the last
    component of a path on every system: 1 to 255 bytes of UTF-8, not a dot
    name, and without a slash, a backslash, a NUL or another ASCII control
    byte anywhere, not even inside an encoded rune. *)
Theorem FileNameRule_safe (name : string) (H : FileNameRule name = None) :
  0 < len name ≤ 255 ∧ valid_utf8 name = true ∧ name ≠ "." ∧ name ≠ ".."
  ∧ ∀ c, any_byte (Ascii.eqb c) name = true →
      byte_val c ≠ 0x2F ∧ byte_val c ≠ 0x5C ∧ 0x20 ≤ byte_val c ∧ byte_val c ≠ 0x7F.
Proof.
  unfold FileNameRule in H. destruct (_ || _) eqn:E1 in H; [done|].
  destruct (negb _) eqn:E2 in H; [done|]. destruct (_ || _) eqn:E3 in H; [done|].
  destruct (existsb _ _) eqn:E4 in H; [done|].
  apply orb_false_iff in E1 as [E0%String.eqb_neq E1%Z.ltb_ge].
  apply orb_false_iff in E3 as [?%String.eqb_neq ?%String.eqb_neq]. apply negb_false_iff in E2.
  assert (0 < len name) by (destruct name; [done|rewrite len_cons; pose proof (len_nonneg name); lia]).
  split_and!; try done. intros c Hc. destruct (Z.lt_ge_cases (byte_val c) 0x80) as [Hlt|]; [|lia].
  rewrite <-runes_any_byte in Hc by done. apply existsb_exists in Hc as (r & Hr & ->%Z.eqb_eq).
  assert (Hbad : is_control (byte_val c) || is_bidi_control (byte_val c) || (byte_val c =? 47) || (byte_val c =? 92) = false).
  { destruct (_ || _) eqn:E; [|done]. rewrite <-not_true_iff_false in E4. destruct E4.
    apply existsb_exists. by exists (byte_val c). }
  pose proof (byte_val_range c). unfold is_control, in_range in Hbad. lia.
Qed.

Lemma FileNameRule_safe_witness :
  FileNameRule "report (1).pdf" = None ∧ len "report (1).pdf" ≤ 255.
Proof.
  assert (H : FileNameRule "report (1).pdf" = None) by (vm_compute; reflexivity).
  split; [exact H|]. destruct (FileNameRule_safe _ H) as [[_ Hl] _]. exact Hl.
Defined.

(** The top-level type of a media type. *)
Definition top_level (m : string) : string := match cut m "/" with Some (t, _) => t | None => m end.

Definition is_wildcard (m : string) : bool :=
  match cut m "/" with Some (_, sub) => String.eqb sub "*" | None => false end.

(** The two readings of a media type agree: the pattern of a schema's
    entries accepts the texts the rune loop accepts, plus the wildcards.  A
    file's media type is allowed exactly when it is listed or the wildcard of
    its top-level type is. *)
Theorem media_types_agree :
  (∀ s, mediaToken s = mediaTokenRe s)
  ∧ (∀ m, ValidateMediaType m = validMediaTypePattern m && negb (is_wildcard m))
  ∧ (∀ patterns m, MediaTypeAllowed patterns m = true ↔
       patterns = [] ∨ m ∈ patterns ∨ (top_level m +:+ "/*") ∈ patterns).
Proof.
  split_and!; [exact mediaToken_eq| |].
  - intros m. unfold ValidateMediaType, validMediaTypePattern, is_wildcard.
    destruct (cut m "/") as [[typ sub]|] eqn:E; [|done]. rewrite !mediaToken_eq.
    destruct (mediaTokenRe typ); [|done]. cbn [andb].
    destruct (String.eqb_spec sub "*") as [->|Hs]; [done|]. by rewrite andb_true_r.
  - intros [|p ps] m; [split; [by left|done]|]. unfold MediaTypeAllowed. fold (top_level m).
    generalize (top_level m +:+ "/*") as w. intros w.
    rewrite existsb_exists. split.
    + intros (x & Hx%list_elem_of_In & [->%String.eqb_eq| ->%String.eqb_eq]%orb_true_iff); auto.
    + intros [?|[Hm|Hm]]; [done| |]; eexists; (split; [apply list_elem_of_In, Hm|]).
      * by rewrite String.eqb_refl.
      * by rewrite String.eqb_refl, orb_true_r.
Qed.

(** ** Vectors *)

(** The stored form of a vector loses nothing: decoding an encoded vector
    of 32-bit words gives the vector back, four bytes a word, and bytes decode
    only to the vector whose encoding they are; a length that is not a
    multiple of four is refused. *)
Theorem vector_roundtrip :
  (∀ v, Forall word32 v → DecodeVector (EncodeVector v) = Some v)
  ∧ (∀ b v, Forall octet b → DecodeVector b = Some v →
       EncodeVector v = b ∧ length b = (4 * length v)%nat ∧ Forall word32 v)
  ∧ (∀ b, DecodeVector b = None ↔ (length b mod 4 ≠ 0)%nat).
Proof.
  split_and!; [exact DecodeVector_encode|exact DecodeVector_Some|].
  intros b. unfold DecodeVector. destruct (Nat.eqb_spec (length b mod 4) 0); naive_solver.
Qed.

(** ** Constraints *)

Section Constraints.
Context {UT : UnicodeTables}.

(** [ValidateConstraintDeclarations] accepts exactly the well-formed lists
    of constraints, whatever the context answered before; and the predicate of
    an accepted unique constraint, once parsed, holds no call, no placeholder
    and no other expression than comparisons of the table's scalar columns. *)
Theorem ValidateConstraintDeclarations_exact (fields : list Field) (cs : list Constraint) :
  (∀ ps, ValidateConstraintDeclarations ps fields cs = Done () → constraints_ok fields cs)
  ∧ (constraints_ok fields cs → ValidateConstraintDeclarations quiet fields cs = Done ())
  ∧ (∀ c, constraints_ok fields cs → c ∈ cs → c_Where c ≠ "" →
       ∃ n, predicate fields c n
         ∧ ∀ x, x ∈ nodes false n → predicate_node x.2 = true
           ∧ ∀ name, x.2 = Column name → ∃ col, col ∈ scalar_columns fields ∧ name = to_lower col).
Proof.
  split_and!.
  - intros ps. apply ValidateConstraintDeclarations_Done.
  - intros (Hl & Hnd & Hf). unfold ValidateConstraintDeclarations. cbn [quiet poll_loop].
    apply if_else_Done. split; [by apply Z.ltb_ge|].
    apply declarations_Done; [done|done|]. intros ? _. apply not_elem_of_nil.
  - intros c (_ & _ & Hf) Hc Hw. apply (proj1 (Forall_forall _ _) Hf) in Hc as [_ [[_ Hu]|[_ Hk]]]; [|by destruct Hk].
    destruct (uo_where _ _ Hu) as [?|(n & Hp & Hn)]; [done|]. exists n. split; [done|].
    intros [t x] Hx. split; [by eapply constraintPredicate_nodes|]. cbn [snd]. intros name ->.
    apply (FilterTheorems.Parse_node _ _ _ _ Hp) in Hx. cbn in Hx.
    apply elem_of_list_to_set, list_elem_of_fmap in Hx as (y & -> & Hy). eauto.
Qed.

(** No constraint that names a field is missed: over a table whose
    constraints are well formed, [ConstraintNamingField] answers the empty
    text exactly when no constraint has the field among its keys, as its
    reference's holder, or anywhere in its predicate; and otherwise it answers
    the name of one that does. *)
Theorem ConstraintNamingField_complete (fields : list Field) (cs : list Constraint) (field : string)
    (Hidents : Forall (λ f, identRe (f_Name f) = true) fields) (Hfield : identRe field = true)
    (Hcs : constraints_ok fields cs) :
  let r := ConstraintNamingField (λ _, background) fields cs field in
  (r = "" ↔ ∀ c, c ∈ cs → ¬ names_field fields c field)
  ∧ (r ≠ "" → ∃ c, c ∈ cs ∧ names_field fields c field ∧ r = c_Name c).
Proof.
  cbv zeta. destruct Hcs as (_ & _ & Hf). unfold ConstraintNamingField.
  destruct (naming_loop_spec fields Hidents field Hfield cs 0 Hf) as [[-> H]|(c & ? & ? & -> & Hne)].
  - split; [done|]. done.
  - split; [|by exists c]. split; [done|]. intros Hno. by destruct (Hno c).
Qed.
End Constraints.

Definition plain_field (name : string) (t : FieldType) : Field :=
  MkField name t false false 0 true None "" JNull 0 None.
Definition sample_fields : list Field :=
  [plain_field "email" TString; plain_field "age" Number; plain_field "team" Number].
Definition sample_constraints : list Constraint :=
  [MkConstraint "one_email" "unique" (Some ["email"]) "not (Age < 18)" "" None;
   MkConstraint "team_ref" "foreign_key" None "" "team" (Some (MkReference "teams" "id"))].

Lemma ConstraintNamingField_complete_witness :
  ValidateConstraintDeclarations (UT := ascii_tables) quiet sample_fields sample_constraints = Done ()
  ∧ ConstraintNamingField (UT := ascii_tables) (λ _, background) sample_fields sample_constraints "age" = "one_email"
  ∧ ∃ c, c ∈ sample_constraints ∧ names_field (UT := ascii_tables) sample_fields c "age".
Proof.
  assert (H : ValidateConstraintDeclarations (UT := ascii_tables) quiet sample_fields sample_constraints = Done ())
    by (vm_compute; reflexivity).
  split; [exact H|].
  assert (Hn : ConstraintNamingField (UT := ascii_tables) (λ _, background) sample_fields sample_constraints "age"
    = "one_email") by (vm_compute; reflexivity).
  split; [exact Hn|].
  destruct (ConstraintNamingField_complete (UT := ascii_tables) sample_fields sample_constraints "age"
    ltac:(repeat constructor) ltac:(reflexivity) (ValidateConstraintDeclarations_Done _ _ _ H)) as [_ Hex].
  rewrite Hn in Hex. destruct (Hex ltac:(discriminate)) as (c & Hc & Hnc & _). exists c. split; assumption.
Defined.
