(* ===== verification/Graph.v ===== *)
(** * Reading the graph of relations ([internal/graph/neighbors.go] and
    [traversal.go])

    One-hop neighbours and bounded breadth-first traversal over a snapshot,
    with their limits, their deadline and the reasons they stop. *)
From Stdlib Require Import ZArith Lia Ascii String.
From stdpp Require Import base gmap strings list sorting.
From S2P Require Import Prelude GoStrings SchemaIdent.
Local Open Scope Z_scope.

(** ** References and edges *)

Record Ref := MkRef { r_Table : string; r_ID : Z }.
#[global] Instance Ref_eq_dec : EqDecision Ref.
Proof. solve_decision. Defined.
#[global] Instance Ref_countable : Countable Ref.
Proof.
  refine (inj_countable' (λ r, (r_Table r, r_ID r)) (λ p, MkRef p.1 p.2) _). by intros [].
Defined.

Record Edge := MkEdge { e_Ref : Ref; e_Source : Ref; e_Target : Ref; e_Type : string }.
#[global] Instance Edge_eq_dec : EqDecision Edge.
Proof. solve_decision. Defined.

Definition compareRef (a b : Ref) : comparison :=
  match str_compare (r_Table a) (r_Table b) with
  | Eq => r_ID a ?= r_ID b
  | c => c
  end.
Definition ref_le (a b : Ref) : Prop := compareRef a b ≠ Gt.
#[global] Instance ref_le_dec a b : Decision (ref_le a b).
Proof. unfold ref_le. apply _. Defined.
Definition edge_le (a b : Edge) : Prop := ref_le (e_Ref a) (e_Ref b).
#[global] Instance edge_le_dec a b : Decision (edge_le a b).
Proof. unfold edge_le. apply _. Defined.

Record Limits := MkLimits { l_Nodes : Z; l_Edges : Z; l_Elapsed : Z }.
Record Query := MkQuery {
  q_Node : Ref; q_Direction : string; q_RelationTypes : list string; q_Limits : Limits }.
Record Result := MkResult {
  res_Nodes : list Ref; res_Edges : list Edge; res_Truncated : bool; res_StopReason : string }.

Inductive gerror := InvalidNeighbors | InvalidLimits | TooManyTypes | InvalidTraversal
  | CtxErr (e : ctx_error) | Backend (what : string).

Definition directions : list string := ["out"; "in"; "both"].
Definition second : Z := 1000000000.

(** ** The world a read sees

    [clock] numbers the observations of contexts and the calls of the
    snapshot; [examined] is the counter of [traversalView]. *)
Record world := World { clock : nat; examined : Z }.
Definition tick (w : world) : world := World (S (clock w)) (examined w).

Definition catch {A B} (m : act world gerror A) (h : gerror → act world gerror B)
    (k : A → act world gerror B) : act world gerror B :=
  λ w, match m w with
       | (Done a, w') => k a w'
       | (Fail e, w') => h e w'
       | (OutOfFuel, w') => (OutOfFuel, w')
       end.

(** [ctx.Err()] *)
Definition poll (c : ctx) : act world gerror (option ctx_error) := λ w, (Done (c (clock w)), tick w).

(** The interfaces [Snapshot] and [Index]; the context they take shows in the
    errors they may answer. *)
Record Snapshot := MkSnapshot {
  Visible : Ref → act world gerror bool;
  Adjacent : Ref → string → Z → act world gerror (list Edge * bool) }.
Definition Index : Type := string → act world gerror Snapshot.

(** [slices.SortFunc] by [compareRef], which is not stable: of the edges only
    their references are compared, so the order of edges with the same one is
    the implementation's.  (References with the same order are equal, and their
    sort is a function.) *)
Class EdgeSort := {
  sort_edges : list Edge → list Edge;
  sort_edges_permutes l : sort_edges l ≡ₚ l;
  sort_edges_sorts l : StronglySorted edge_le (sort_edges l) }.

Section Graph.
Context {SE : EdgeSort}.
(** The time of each observation, in nanoseconds. *)
Variable time_at : nat → Z.

(** [context.WithTimeout(ctx, elapsed)], at the present of the world. *)
Definition with_timeout (c : ctx) (now : Z) (elapsed : Z) : ctx :=
  λ n, match c n with
       | Some e => Some e
       | None => if now + elapsed <=? time_at n then Some DeadlineExceeded else None
       end.

(** ** One hop *)

Section Neighbors.
Variable (context work : ctx) (q : Query) (view : Snapshot).

Definition finish (nodes : list Ref) (edges : list Edge) (reason : string) : act world gerror Result :=
  let nodes := merge_sort ref_le nodes in
  let edges := sort_edges edges in
  do! e := poll context in
  match e with
  | Some e => afail (CtxErr e)
  | None =>
      do! e := poll work in
      let reason := match e with Some _ => "elapsed" | None => reason end in
      aret (MkResult nodes edges (negb (String.eqb reason "complete")) reason)
  end.

Definition fail (nodes : list Ref) (edges : list Edge) (err : gerror) : act world gerror Result :=
  do! e := poll context in
  match e with
  | Some e => afail (CtxErr e)
  | None =>
      do! e := poll work in
      match e with
      | Some _ => finish nodes edges "elapsed"
      | None => afail err
      end
  end.

(** The edge leads the way asked for, and touches the node. *)
Definition wrong_way (e : Edge) : bool :=
  (String.eqb (q_Direction q) "out" && negb (bool_decide (e_Source e = q_Node q)))
  || (String.eqb (q_Direction q) "in" && negb (bool_decide (e_Target e = q_Node q)))
  || (negb (bool_decide (e_Source e = q_Node q)) && negb (bool_decide (e_Target e = q_Node q))).
Definition wrong_type (e : Edge) : bool :=
  match q_RelationTypes q with [] => false | ts => negb (mem (e_Type e) ts) end.

(** Whether every reference is visible, asked one by one until one is not. *)
Fixpoint all_visible (refs : list Ref) : act world gerror bool :=
  match refs with
  | [] => aret true
  | r :: refs => do! ok := Visible view r in if ok then all_visible refs else aret false
  end.

Definition add_node (seen : gset Ref) (nodes : list Ref) (r : Ref) : gset Ref * list Ref :=
  if decide (r ∈ seen) then (seen, nodes) else ({[r]} ∪ seen, nodes ++ [r]).

Fixpoint neighbors_loop (more : bool) (i : Z) (edges : list Edge)
    (seen : gset Ref) (nodes : list Ref) (out : list Edge) : act world gerror Result :=
  match edges with
  | [] => if more then finish nodes out "edges" else finish nodes out "complete"
  | e :: edges =>
      do! werr := poll work in
      match werr with
      | Some werr => fail nodes out (CtxErr werr)
      | None =>
          if i =? l_Edges (q_Limits q) then finish nodes out "edges"
          else if wrong_way e then neighbors_loop more (i + 1) edges seen nodes out
          else if wrong_type e then neighbors_loop more (i + 1) edges seen nodes out
          else
            catch (all_visible [e_Ref e; e_Source e; e_Target e]) (fail nodes out) (λ visible,
            if negb visible then neighbors_loop more (i + 1) edges seen nodes out
            else
              let needed :=
                (if decide (e_Source e ∈ seen) then 0 else 1)
                + (if decide (e_Target e ≠ e_Source e ∧ e_Target e ∉ seen) then 1 else 0) in
              if l_Nodes (q_Limits q) <? Z.of_nat (size seen) + needed then finish nodes out "nodes"
              else
                let '(seen, nodes) := add_node seen nodes (e_Source e) in
                let '(seen, nodes) := add_node seen nodes (e_Target e) in
                neighbors_loop more (i + 1) edges seen nodes (out ++ [e]))
      end
  end.

(** [Neighbors] once the snapshot is open. *)
Definition neighbors_view : act world gerror Result :=
  catch (Visible view (q_Node q)) (fail [] []) (λ visible,
  if negb visible then finish [] [] "complete"
  else
    catch (Adjacent view (q_Node q) (q_Direction q) (l_Edges (q_Limits q))) (fail [q_Node q] []) (λ found,
    neighbors_loop found.2 0 (sort_edges found.1) {[q_Node q]} [q_Node q] [])).
End Neighbors.

Definition valid_limits (l : Limits) : bool :=
  in_range 1 1000 (l_Nodes l) && in_range 1 1000 (l_Edges l) && in_range 1 (30 * second) (l_Elapsed l).

Definition Neighbors (context : ctx) (index : Index) (namespace : string) (q : Query)
    : act world gerror Result :=
  if (r_ID (q_Node q) <=? 0) || negb (ValidTableName (r_Table (q_Node q))) || negb (mem (q_Direction q) directions)
  then afail InvalidNeighbors
  else if negb (valid_limits (q_Limits q)) then afail InvalidLimits
  else if 1000 <? Z.of_nat (length (q_RelationTypes q)) then afail TooManyTypes
  else
    do! e := poll context in
    match e with
    | Some e => afail (CtxErr e)
    | None => λ w,
        let work := with_timeout context (time_at (clock w)) (l_Elapsed (q_Limits q)) in
        catch (index namespace) (fail context work [] []) (neighbors_view context work q) w
    end.

(** ** Traversal *)

Record TraversalQuery := MkTraversal {
  tq_Seeds : list Ref; tq_Target : option Ref; tq_Direction : string; tq_RelationTypes : list string;
  tq_Limits : Limits; tq_MaxHops : Z; tq_MaxWork : Z }.

(** [traversalView]: the snapshot, counting the candidates it hands out. *)
Definition count_work (n : Z) : act world gerror () := λ w, (Done (), World (clock w) (examined w + n)).
Definition traversalView (view : Snapshot) : Snapshot :=
  MkSnapshot (Visible view) (λ r d limit,
    do! found := Adjacent view r d limit in
    do! _ := count_work (Z.of_nat (length found.1)) in
    aret found).
Definition examined_now : act world gerror Z := λ w, (Done (examined w), w).

Definition valid_ref (r : Ref) : bool := (0 <? r_ID r) && ValidTableName (r_Table r).

Definition ValidateTraversalLimits (q : TraversalQuery) : bool :=
  in_range 1 32 (tq_MaxHops q) && in_range 1 1000 (tq_MaxWork q) && valid_limits (tq_Limits q)
  && (Z.of_nat (length (tq_RelationTypes q)) <=? 1000) && mem (tq_Direction q) directions.

(** [slices.Compact] *)
Fixpoint compact (l : list Ref) : list Ref :=
  match l with
  | a :: (b :: _) as l' => if decide (a = b) then compact l' else a :: compact l'
  | _ => l
  end.

(** The variables of the loop. *)
Record bfs := Bfs {
  b_queue : list Ref; b_depth : gmap Ref Z; b_parent : gmap Ref Ref; b_via : gmap Ref Edge;
  b_edges : gset Ref; b_nodes : list Ref; b_out : list Edge }.

Section Traverse.
Variable (context work : ctx) (namespace : string) (q : TraversalQuery).

Definition t_finish (nodes : list Ref) (edges : list Edge) (reason : string) : act world gerror Result :=
  do! e := poll context in
  match e with
  | Some e => afail (CtxErr e)
  | None =>
      do! e := poll work in
      let reason := match e with Some _ => "elapsed" | None => reason end in
      let truncated := negb (String.eqb reason "complete") in
      aret match tq_Target q with
           | Some _ => MkResult [] [] truncated reason
           | None => MkResult (merge_sort ref_le nodes) (sort_edges edges) truncated reason
           end
  end.

Definition t_fail (nodes : list Ref) (edges : list Edge) (err : gerror) : act world gerror Result :=
  do! e := poll context in
  match e with
  | Some e => afail (CtxErr e)
  | None =>
      do! e := poll work in
      match e with Some _ => t_finish nodes edges "elapsed" | None => afail err end
  end.

(** The loop of [found], from [node] back to the source: the edges and the
    parents, in the order they are appended. *)
Fixpoint walk_back (fuel : nat) (b : bfs) (source node : Ref) : option (list Edge * list Ref) :=
  if decide (node = source) then Some ([], [])
  else match fuel with
  | O => None
  | S f =>
      match b_via b !! node, b_parent b !! node with
      | Some e, Some p =>
          match walk_back f b source p with
          | Some (es, ns) => Some (e :: es, p :: ns)
          | None => None
          end
      | _, _ => None
      end
  end.

(** [found]: as many steps back as the target is deep. *)
Definition t_found (b : bfs) (target : Ref) : act world gerror Result :=
  let source := hd target (tq_Seeds q) in
  match walk_back (Z.to_nat (default 0 (b_depth b !! target))) b source target with
  | None => λ w, (OutOfFuel, w)
  | Some (es, ns) =>
      do! e := poll context in
      match e with
      | Some e => afail (CtxErr e)
      | None =>
          do! e := poll work in
          match e with
          | Some _ => t_finish (rev (target :: ns)) (rev es) "elapsed"
          | None => aret (MkResult (rev (target :: ns)) (rev es) false "complete")
          end
      end
  end.

Definition is_target (r : Ref) : bool :=
  match tq_Target q with Some t => bool_decide (r = t) | None => false end.

(** The seeds that are visible enter the queue at depth 0. *)
Fixpoint seeds_loop (view : Snapshot) (seeds : list Ref) (b : bfs) (k : bfs → act world gerror Result)
    : act world gerror Result :=
  match seeds with
  | [] => k b
  | s :: seeds =>
      catch (Visible view s) (t_fail (b_nodes b) (b_out b)) (λ visible,
      if negb visible then seeds_loop view seeds b k
      else if Z.of_nat (size (b_depth b)) =? l_Nodes (tq_Limits q) then t_finish (b_nodes b) (b_out b) "nodes"
      else
        let b := Bfs (b_queue b ++ [s]) (<[s := 0]> (b_depth b)) (b_parent b) (b_via b) (b_edges b)
                   (b_nodes b ++ [s]) (b_out b) in
        if is_target s then t_found b s else seeds_loop view seeds b k)
  end.

Definition other_end (node : Ref) (e : Edge) : Ref :=
  if decide (e_Target e = node) then e_Source e else e_Target e.

(** What the body does for one edge of [node]. *)
Inductive edge_step := Skip | Stop (reason : string) | Take (b : bfs) (other : Ref).
Definition take_edge (node : Ref) (e : Edge) (b : bfs) : edge_step :=
  if decide (e_Ref e ∈ b_edges b) then Skip
  else if Z.of_nat (size (b_edges b)) =? l_Edges (tq_Limits q) then Stop "edges"
  else
    let other := other_end node e in
    match b_depth b !! other with
    | Some _ =>
        Take (Bfs (b_queue b) (b_depth b) (b_parent b) (b_via b) ({[e_Ref e]} ∪ b_edges b)
                (b_nodes b) (b_out b ++ [e])) other
    | None =>
        if Z.of_nat (size (b_depth b)) =? l_Nodes (tq_Limits q) then Stop "nodes"
        else
          Take (Bfs (b_queue b ++ [other]) (<[other := default 0 (b_depth b !! node) + 1]> (b_depth b))
                  (<[other := node]> (b_parent b)) (<[other := e]> (b_via b))
                  ({[e_Ref e]} ∪ b_edges b) (b_nodes b ++ [other]) (b_out b ++ [e])) other
    end.

Fixpoint edges_loop (node : Ref) (edges : list Edge) (b : bfs) (k : bfs → act world gerror Result)
    : act world gerror Result :=
  match edges with
  | [] => k b
  | e :: edges =>
      match take_edge node e b with
      | Skip => edges_loop node edges b k
      | Stop reason => t_finish (b_nodes b) (b_out b) reason
      | Take b other => if is_target other then t_found b other else edges_loop node edges b k
      end
  end.

(** The query of one expansion. *)
Definition hop (node : Ref) (done : Z) : Query :=
  MkQuery node (tq_Direction q) (tq_RelationTypes q)
    (MkLimits 1000 (tq_MaxWork q - done) (l_Elapsed (tq_Limits q))).

Fixpoint head_loop (fuel : nat) (view : Snapshot) (head : nat) (b : bfs) : act world gerror Result :=
  match b_queue b !! head with
  | None => t_finish (b_nodes b) (b_out b) "complete"
  | Some node =>
      match fuel with
      | O => λ w, (OutOfFuel, w)
      | S f =>
          do! werr := poll work in
          if bool_decide (werr ≠ None) then t_finish (b_nodes b) (b_out b) "elapsed"
          else if default 0 (b_depth b !! node) =? tq_MaxHops q then t_finish (b_nodes b) (b_out b) "hops"
          else
            do! done := examined_now in
            if tq_MaxWork q <=? done then t_finish (b_nodes b) (b_out b) "work"
            else
              catch (Neighbors work (λ _, aret (traversalView view)) namespace (hop node done))
                (t_fail (b_nodes b) (b_out b)) (λ next,
              edges_loop node (res_Edges next) b (λ b,
                if res_Truncated next
                then t_finish (b_nodes b) (b_out b)
                       (if String.eqb (res_StopReason next) "edges" then "work" else res_StopReason next)
                else head_loop f view (S head) b))
      end
  end.

Definition start : bfs := Bfs [] ∅ ∅ ∅ ∅ [] [].

(** Each turn of the loop takes a node from the queue, which never holds more
    than [Limits.Nodes]. *)
Definition head_fuel : nat := Z.to_nat (l_Nodes (tq_Limits q)).

Definition traverse_view (view : Snapshot) : act world gerror Result :=
  let search := seeds_loop view (compact (merge_sort ref_le (tq_Seeds q))) start
                  (head_loop head_fuel view 0) in
  match tq_Target q with
  | None => search
  | Some t => catch (Visible view t) (t_fail [] []) (λ visible,
      if negb visible then t_finish [] [] "complete" else search)
  end.
End Traverse.

Definition invalid_traversal (q : TraversalQuery) : bool :=
  let n := length (tq_Seeds q) in
  (n =? 0)%nat || (1000 <? Z.of_nat n)
  || match tq_Target q with Some t => negb (n =? 1)%nat || negb (valid_ref t) | None => false end
  || existsb (λ r, negb (valid_ref r)) (tq_Seeds q) || negb (ValidateTraversalLimits q).

Definition Traverse (context : ctx) (index : Index) (namespace : string) (q : TraversalQuery)
    : act world gerror Result :=
  if invalid_traversal q then afail InvalidTraversal
  else λ w,
    let work := with_timeout context (time_at (clock w)) (l_Elapsed (tq_Limits q)) in
    (do! e := poll context in
     match e with
     | Some e => afail (CtxErr e)
     | None => catch (index namespace) (t_fail context work q [] []) (traverse_view context work namespace q)
     end) (World (clock w) 0)
    .
End Graph.
