(* ===== verification/GraphFacts.v ===== *)
(** * Lemmas on one-hop reads *)
From Stdlib Require Import ZArith Lia Ascii String.
From stdpp Require Import base gmap strings list sorting.
From S2P Require Import Prelude GoStrings SchemaIdent Graph.

Local Open Scope Z_scope.

(** ** What an action returns, if it returns *)

Definition returns {A} (m : act world gerror A) (P : A → Prop) : Prop :=
  ∀ w a w', m w = (Done a, w') → P a.
(** It adds at most [k] to the count of examined candidates. *)
Definition examines {A} (k : Z) (m : act world gerror A) : Prop :=
  ∀ w, examined (m w).2 ≤ examined w + k.

Lemma returns_weaken {A} (m : act world gerror A) (P Q : A → Prop) :
  returns m P → (∀ a, P a → Q a) → returns m Q.
Proof. intros Hm H w a w' E. by eapply H, Hm. Qed.

Lemma returns_aret {A} (a : A) (P : A → Prop) : P a → returns (aret a) P.
Proof. by intros H w b w' [= <- <-]. Qed.

Lemma returns_afail {A} e (P : A → Prop) : returns (afail e) P.
Proof. by intros w a w' [=]. Qed.

Lemma returns_bind {A B} (m : act world gerror A) (k : A → act world gerror B) P Q :
  returns m P → (∀ a, P a → returns (k a) Q) → returns (abind m k) Q.
Proof. intros Hm Hk w b w' (a & w1 & E & E')%abind_Done. eapply Hk; [by eapply Hm|exact E']. Qed.

Lemma returns_catch {A B} (m : act world gerror A) h (k : A → act world gerror B) P Q :
  returns m P → (∀ e, returns (h e) Q) → (∀ a, P a → returns (k a) Q) → returns (catch m h k) Q.
Proof.
  intros Hm Hh Hk w b w'. unfold catch. destruct (m w) as [[a|e|] w1] eqn:E; [|by apply Hh|done].
  apply Hk. by eapply Hm.
Qed.

Lemma returns_poll c (P : option ctx_error → Prop) : (∀ o, P o) → returns (poll c) P.
Proof. intros H w a w' [= <- <-]. apply H. Qed.

Lemma stops_catch {A B} (m : act world gerror A) h (k : A → act world gerror B) :
  halts m → (∀ e, halts (h e)) → (∀ a, halts (k a)) → halts (catch m h k).
Proof.
  intros Hm Hh Hk w. unfold catch. specialize (Hm w). destruct (m w) as [[a|e|] w1]; [apply Hk|apply Hh|done].
Qed.

Lemma stops_if {A} (b : bool) (m1 m2 : act world gerror A) : halts m1 → halts m2 → halts (if b then m1 else m2).
Proof. by destruct b. Qed.

Lemma stops_poll c : halts (poll c).
Proof. by intros w. Qed.

Lemma examines_bind {A B} j k (m : act world gerror A) (f : A → act world gerror B) :
  0 ≤ k → examines j m → (∀ a, examines k (f a)) → examines (j + k) (abind m f).
Proof.
  intros Hk Hm Hf w. unfold abind. specialize (Hm w). destruct (m w) as [[a|e|] w1]; simpl in *; [|lia|lia].
  specialize (Hf a w1). lia.
Qed.

Lemma examines_catch {A B} j k (m : act world gerror A) h (f : A → act world gerror B) :
  0 ≤ k → examines j m → (∀ e, examines k (h e)) → (∀ a, examines k (f a)) → examines (j + k) (catch m h f).
Proof.
  intros Hk Hm Hh Hf w. unfold catch. specialize (Hm w). destruct (m w) as [[a|e|] w1]; simpl in *; [| |lia].
  - specialize (Hf a w1). lia.
  - specialize (Hh e w1). lia.
Qed.

#[export] Hint Resolve aret_halts afail_halts stops_poll stops_if : dolmen.

(** Binds of observations. *)
Lemma returns_poll_bind {A} c (k : option ctx_error → act world gerror A) P :
  (∀ o, returns (k o) P) → returns (abind (poll c) k) P.
Proof. intros H. apply (returns_bind _ _ (λ _, True)); [by apply returns_poll|auto]. Qed.

(** ** What a snapshot promises *)

(** The graph behind a snapshot: what is visible, and the edges incident to a
    node.  A reference identifies its edge. *)
Class GraphSource := {
  vis : Ref → bool;
  incident : Ref → string → list Edge }.
Class GraphLaws (G : GraphSource) : Prop := {
  incident_identity : ∀ u v d d' e e',
    e ∈ incident u d → e' ∈ incident v d' → e_Ref e = e_Ref e' → e = e' }.

(** An answered [Visible] or [Adjacent] is true to the graph; [Adjacent] hands
    out at most its limit, and is complete when it says there is no more. *)
Class SnapshotLaws `{GraphSource} (view : Snapshot) : Prop := {
  Visible_ok : ∀ r, returns (Visible view r) (λ b, b = vis r);
  Adjacent_ok : ∀ r d limit, 0 ≤ limit → returns (Adjacent view r d limit) (λ x,
    (∀ e, e ∈ x.1 → e ∈ incident r d) ∧ Z.of_nat (length x.1) ≤ limit
    ∧ (x.2 = false → ∀ e, e ∈ incident r d → e ∈ x.1));
  Visible_stops : ∀ r, halts (Visible view r);
  Adjacent_stops : ∀ r d limit, halts (Adjacent view r d limit) }.

(** ** Sorted results *)

Lemma str_compare_trans_le a b c :
  str_compare a b ≠ Gt → str_compare b c ≠ Gt → str_compare a c ≠ Gt.
Proof.
  intros H1 H2. destruct (str_compare a b) eqn:E1; [|clear H1|done].
  - apply str_compare_eq in E1 as ->. done.
  - destruct (str_compare b c) eqn:E2; [|clear H2|done].
    + apply str_compare_eq in E2 as ->. by rewrite E1.
    + by rewrite (str_compare_trans _ _ _ E1 E2).
Qed.

Lemma compareRef_antisym a b : compareRef b a = CompOpp (compareRef a b).
Proof.
  unfold compareRef. rewrite (str_compare_antisym (r_Table a) (r_Table b)).
  destruct (str_compare (r_Table a) (r_Table b)); simpl; [|done|done]. by rewrite Z.compare_antisym.
Qed.

#[global] Instance ref_le_total : Total ref_le.
Proof. intros a b. unfold ref_le. rewrite (compareRef_antisym a b). destruct (compareRef a b); simpl; auto. Qed.

#[global] Instance ref_le_trans : Transitive ref_le.
Proof.
  intros a b c. unfold ref_le, compareRef.
  destruct (str_compare (r_Table a) (r_Table b)) eqn:E1; [|intros _|done].
  - apply str_compare_eq in E1 as ->. destruct (str_compare (r_Table b) (r_Table c)); [|done|done].
    rewrite !Z.compare_le_iff. lia.
  - destruct (str_compare (r_Table b) (r_Table c)) eqn:E2; [|intros _|done].
    + apply str_compare_eq in E2 as <-. by rewrite E1.
    + by rewrite (str_compare_trans _ _ _ E1 E2).
Qed.

#[global] Instance ref_le_antisymm : AntiSymm (=) ref_le.
Proof.
  intros [t i] [t' i']. unfold ref_le. rewrite (compareRef_antisym (MkRef t i) (MkRef t' i')). unfold compareRef. simpl.
  destruct (str_compare t t') eqn:E; [|done|done]. apply str_compare_eq in E as ->.
  destruct (Z.compare_spec i i') as [->| |]; done.
Qed.

#[global] Instance edge_le_total : Total edge_le.
Proof. intros a b. unfold edge_le. apply ref_le_total. Qed.
#[global] Instance edge_le_trans : Transitive edge_le.
Proof. intros a b c. unfold edge_le. apply ref_le_trans. Qed.

Lemma sorted_nodes l : merge_sort ref_le l ≡ₚ l ∧ StronglySorted ref_le (merge_sort ref_le l).
Proof. split; [apply merge_sort_Permutation|apply (StronglySorted_merge_sort ref_le)]. Qed.
(** The stable sort is one that keeps to [EdgeSort]. *)
Definition stable_edges : EdgeSort := {|
  sort_edges := merge_sort edge_le;
  sort_edges_permutes := merge_sort_Permutation edge_le;
  sort_edges_sorts := StronglySorted_merge_sort edge_le |}.

Section EdgeSorts.
Context {SE : EdgeSort}.
Lemma sorted_edges l : sort_edges l ≡ₚ l ∧ StronglySorted edge_le (sort_edges l).
Proof. split; [apply sort_edges_permutes|apply sort_edges_sorts]. Qed.
Lemma sort_no_edges : sort_edges [] = [].
Proof. apply Permutation_nil_r, sort_edges_permutes. Qed.
End EdgeSorts.

(** ** The end of [Neighbors] *)

(** The result holds these nodes and edges in order, for this reason or
    because the time ran out. *)
Definition ends {SE : EdgeSort} (nodes : list Ref) (edges : list Edge) (reason : string) (r : Result) : Prop :=
  res_Nodes r = merge_sort ref_le nodes ∧ res_Edges r = sort_edges edges
  ∧ (res_StopReason r = reason ∨ res_StopReason r = "elapsed")
  ∧ res_Truncated r = negb (String.eqb (res_StopReason r) "complete").

Lemma finish_ends {SE : EdgeSort} context work nodes edges reason :
  returns (finish context work nodes edges reason) (ends nodes edges reason).
Proof.
  apply returns_poll_bind. intros [e|]; [apply returns_afail|].
  apply returns_poll_bind. intros o. apply returns_aret. unfold ends. destruct o; simpl; auto.
Qed.

Lemma fail_ends {SE : EdgeSort} context work nodes edges err :
  returns (fail context work nodes edges err) (ends nodes edges "elapsed").
Proof.
  apply returns_poll_bind. intros [e|]; [apply returns_afail|].
  apply returns_poll_bind. intros [e|]; [apply finish_ends|apply returns_afail].
Qed.

(** ** The loop of [Neighbors] *)

Section Neighbors.
Context {SE : EdgeSort} {G : GraphSource} (context work : ctx) (q : Query) (view : Snapshot) {L : SnapshotLaws view}.

(** The edges [Neighbors] is asked for. *)
Definition shown (e : Edge) : bool := vis (e_Ref e) && vis (e_Source e) && vis (e_Target e).
Definition accepted (e : Edge) : bool := negb (wrong_way q e) && negb (wrong_type q e) && shown e.

Lemma all_visible_ok refs : returns (all_visible view refs) (λ b, b = forallb vis refs).
Proof.
  induction refs as [|r refs IH]; [by apply returns_aret|]. cbn [all_visible forallb].
  eapply returns_bind; [apply Visible_ok|]. intros b ->. destruct (vis r); [apply IH|by apply returns_aret].
Qed.

Record linv (all done rest : list Edge) (seen : gset Ref) (nodes : list Ref) (out : list Edge) : Prop := Linv {
  li_split : all = done ++ rest;
  li_seen : seen = list_to_set nodes;
  li_nodup : NoDup nodes;
  li_node : q_Node q ∈ nodes;
  li_vis : ∀ n, n ∈ nodes → vis n = true;
  li_ends : ∀ e, e ∈ out → e_Source e ∈ nodes ∧ e_Target e ∈ nodes;
  li_from : ∀ n, n ∈ nodes → n = q_Node q ∨ ∃ e, e ∈ out ∧ (n = e_Source e ∨ n = e_Target e);
  li_sound : ∀ e, e ∈ out → e ∈ all ∧ accepted e = true;
  li_complete : ∀ e, e ∈ done → accepted e = true → e ∈ out;
  li_nodes : Z.of_nat (length nodes) ≤ l_Nodes (q_Limits q);
  li_out : (length out ≤ length done)%nat;
  li_done : Z.of_nat (length done) ≤ l_Edges (q_Limits q) }.

Lemma size_nodes (seen : gset Ref) (nodes : list Ref) : seen = list_to_set nodes → NoDup nodes → size seen = length nodes.
Proof. intros -> H. by apply size_list_to_set. Qed.

(** A node is added once. *)
Lemma add_node_spec nodes r :
  NoDup nodes → ∃ nodes', add_node (list_to_set nodes) nodes r = (list_to_set nodes', nodes')
  ∧ NoDup nodes' ∧ (∀ n, n ∈ nodes' ↔ n ∈ nodes ∨ n = r)
  ∧ length nodes' = (length nodes + if decide (r ∈ (list_to_set nodes : gset Ref)) then 0 else 1)%nat.
Proof.
  intros Hnd. unfold add_node. destruct (decide _) as [Hin|Hin]; rewrite elem_of_list_to_set in Hin.
  - exists nodes. split_and!; [done|done| |lia]. intros n. naive_solver.
  - exists (nodes ++ [r]). split_and!.
    + f_equal. apply set_eq. intros x. rewrite elem_of_union, !elem_of_list_to_set, elem_of_app.
      set_solver.
    + apply NoDup_app. split_and!; [done| |apply NoDup_singleton]. intros x Hx. rewrite list_elem_of_singleton. by intros ->.
    + intros n. by rewrite elem_of_app, list_elem_of_singleton.
    + rewrite length_app. simpl. lia.
Qed.

Lemma linv_skip all done e rest seen nodes out :
  linv all done (e :: rest) seen nodes out → accepted e = false →
  Z.of_nat (length done) ≠ l_Edges (q_Limits q) →
  linv all (done ++ [e]) rest seen nodes out.
Proof.
  intros [] He Hi. split; try done.
  - by rewrite <-app_assoc.
  - intros e'. rewrite elem_of_app, list_elem_of_singleton. intros [?| ->]; [auto|congruence].
  - rewrite length_app. lia.
  - rewrite length_app. simpl. lia.
Qed.

Lemma linv_take all done e rest nodes out :
  linv all done (e :: rest) (list_to_set nodes) nodes out → accepted e = true →
  Z.of_nat (length done) ≠ l_Edges (q_Limits q) →
  let seen : gset Ref := list_to_set nodes in
  Z.of_nat (size seen)
    + ((if decide (e_Source e ∈ seen) then 0 else 1)
       + (if decide (e_Target e ≠ e_Source e ∧ e_Target e ∉ seen) then 1 else 0)) ≤ l_Nodes (q_Limits q) →
  let '(seen1, nodes1) := add_node seen nodes (e_Source e) in
  let '(seen2, nodes2) := add_node seen1 nodes1 (e_Target e) in
  linv all (done ++ [e]) rest seen2 nodes2 (out ++ [e]).
Proof.
  intros [] He Hi seen Hlim. subst seen.
  destruct (add_node_spec nodes (e_Source e) li_nodup0) as (n1 & -> & Hnd1 & H1 & Hl1).
  destruct (add_node_spec n1 (e_Target e) Hnd1) as (n2 & -> & Hnd2 & H2 & Hl2).
  pose proof He as Hacc. unfold accepted, shown in He. rewrite !andb_true_iff in He.
  destruct He as [_ [[_ Hsrc] Htgt]].
  rewrite (size_nodes _ _ eq_refl li_nodup0) in Hlim.
  assert (Hlen : Z.of_nat (length n2) ≤ l_Nodes (q_Limits q)).
  { rewrite Hl2, Hl1. clear Hl1 Hl2.
    destruct (decide (e_Source e ∈ (list_to_set nodes : gset Ref))) as [Hs|Hs], (decide (e_Target e ∈ (list_to_set n1 : gset Ref))) as [Ht|Ht];
      destruct (decide (e_Target e ≠ e_Source e ∧ e_Target e ∉ (list_to_set nodes : gset Ref))) as [Hd|Hd];
      try lia; destruct Hd; rewrite elem_of_list_to_set, H1 in Ht; rewrite elem_of_list_to_set; tauto. }
  split; try done.
  - by rewrite <-app_assoc.
  - apply H2. left. apply H1. by left.
  - intros n [[?| ->]%H1| ->]%H2; auto.
  - intros e'. rewrite elem_of_app, list_elem_of_singleton, !H2, !H1. intros [He'| ->]; [|auto].
    destruct (li_ends0 e' He'). auto.
  - intros n [[Hn| ->]%H1| ->]%H2.
    + destruct (li_from0 n Hn) as [|(e' & ? & ?)]; [by left|]. right. exists e'. rewrite elem_of_app. auto.
    + right. exists e. rewrite elem_of_app, list_elem_of_singleton. auto.
    + right. exists e. rewrite elem_of_app, list_elem_of_singleton. auto.
  - intros e'. rewrite elem_of_app, list_elem_of_singleton. intros [?| ->]; [auto|].
    split; [|done]. rewrite li_split0, elem_of_app. right. by left.
  - intros e'. rewrite !elem_of_app, !list_elem_of_singleton. intros [?| ->]; auto.
  - rewrite !length_app. simpl. lia.
  - rewrite length_app. simpl. lia.
Qed.

(** What [Neighbors] promises of a snapshot's answer [all], of which [whole]
    tells whether it is complete. *)
Record neighbors_post (r : Result) : Prop := NeighborsPost {
  np_edges : ∀ e, e ∈ res_Edges r → e ∈ incident (q_Node q) (q_Direction q) ∧ accepted e = true;
  np_ends : ∀ e, e ∈ res_Edges r → e_Source e ∈ res_Nodes r ∧ e_Target e ∈ res_Nodes r;
  np_from : ∀ n, n ∈ res_Nodes r → n = q_Node q ∨ ∃ e, e ∈ res_Edges r ∧ (n = e_Source e ∨ n = e_Target e);
  np_vis : ∀ n, n ∈ res_Nodes r → vis n = true ∧ vis (q_Node q) = true;
  np_nodup : NoDup (res_Nodes r);
  np_sorted : StronglySorted ref_le (res_Nodes r) ∧ StronglySorted edge_le (res_Edges r);
  np_limits : Z.of_nat (length (res_Nodes r)) ≤ l_Nodes (q_Limits q)
            ∧ Z.of_nat (length (res_Edges r)) ≤ l_Edges (q_Limits q);
  np_truncated : res_Truncated r = negb (String.eqb (res_StopReason r) "complete");
  np_complete : res_Truncated r = false →
    (q_Node q ∈ res_Nodes r ↔ vis (q_Node q) = true)
    ∧ ∀ e, e ∈ incident (q_Node q) (q_Direction q) → accepted e = true → vis (q_Node q) = true →
        e ∈ res_Edges r }.

Lemma ends_post all done rest seen nodes out reason r :
  linv all done rest seen nodes out → ends nodes out reason r →
  (∀ e, e ∈ all → e ∈ incident (q_Node q) (q_Direction q)) →
  (reason = "complete" →
     rest = [] ∧ ∀ e, e ∈ incident (q_Node q) (q_Direction q) → e ∈ all) →
  neighbors_post r.
Proof.
  intros [] (Hn & He & Hr & Ht) Hall Hcomp.
  destruct (sorted_nodes nodes) as [Pn Sn], (sorted_edges out) as [Pe Se].
  split; rewrite ?Hn, ?He; setoid_rewrite Pe || idtac; setoid_rewrite Pn || idtac.
  - intros e [? ?]%li_sound0. auto.
  - done.
  - done.
  - auto.
  - by rewrite ?Pn.
  - done.
  - rewrite ?Pn, ?Pe. lia.
  - done.
  - intros Hf. rewrite Ht in Hf. apply negb_false_iff, String.eqb_eq in Hf.
    destruct Hr as [Hr|Hr]; [|by rewrite Hr in Hf]. rewrite Hr in Hf.
    destruct (Hcomp Hf) as [-> Hwhole]. rewrite app_nil_r in li_split0. subst.
    split; [split; auto|]. auto.
Qed.

Lemma neighbors_loop_post all more :
  (∀ e, e ∈ all → e ∈ incident (q_Node q) (q_Direction q)) →
  (more = false → ∀ e, e ∈ incident (q_Node q) (q_Direction q) → e ∈ all) →
  ∀ rest done seen nodes out i,
  linv all done rest seen nodes out → i = Z.of_nat (length done) →
  returns (neighbors_loop context work q view more i rest seen nodes out) neighbors_post.
Proof.
  intros Hall Hmore. induction rest as [|e rest IH]; intros done seen nodes out i Hinv ->; cbn [neighbors_loop].
  - destruct more; (eapply returns_weaken; [apply finish_ends|]; intros r Hr; eapply ends_post; try done; auto).
  - apply returns_poll_bind. intros [err|].
    { eapply returns_weaken; [apply fail_ends|]. intros r Hr. eapply ends_post; done. }
    destruct (Z.eqb_spec (Z.of_nat (length done)) (l_Edges (q_Limits q))) as [Hi|Hi].
    { eapply returns_weaken; [apply finish_ends|]. intros r Hr. eapply ends_post; done. }
    assert (Hskip : accepted e = false →
      returns (neighbors_loop context work q view more (Z.of_nat (length done) + 1) rest seen nodes out) neighbors_post).
    { intros He. apply (IH (done ++ [e])); [by eapply linv_skip|]. rewrite length_app. simpl. lia. }
    destruct (wrong_way q e) eqn:Hway; [apply Hskip; unfold accepted; by rewrite Hway|].
    destruct (wrong_type q e) eqn:Htype; [apply Hskip; unfold accepted; by rewrite Hway, Htype|].
    eapply returns_catch; [apply all_visible_ok| |].
    { intros err. eapply returns_weaken; [apply fail_ends|]. intros r Hr. eapply ends_post; done. }
    intros visible ->. cbn [forallb]. rewrite andb_true_r, andb_assoc. fold (shown e).
    destruct (shown e) eqn:Hshown; cbn [negb].
    2: { apply Hskip. unfold accepted. by rewrite Hway, Htype, Hshown. }
    assert (He : accepted e = true) by (unfold accepted; by rewrite Hway, Htype, Hshown).
    destruct (_ <? _) eqn:Hlim.
    { eapply returns_weaken; [apply finish_ends|]. intros r Hr. eapply ends_post; done. }
    apply Z.ltb_ge in Hlim. pose proof (li_seen _ _ _ _ _ _ Hinv) as ->.
    pose proof (linv_take _ _ _ _ _ _ Hinv He Hi Hlim) as Hnext. cbv zeta in Hnext.
    destruct (add_node _ nodes (e_Source e)) as [seen1 nodes1].
    destruct (add_node seen1 nodes1 (e_Target e)) as [seen2 nodes2].
    apply (IH (done ++ [e])); [done|]. rewrite length_app. simpl. lia.
Qed.

Lemma neighbors_view_post :
  1 ≤ l_Nodes (q_Limits q) → 1 ≤ l_Edges (q_Limits q) →
  returns (neighbors_view context work q view) neighbors_post.
Proof.
  intros Hn He. unfold neighbors_view.
  assert (Hempty : ∀ r reason, ends [] [] reason r → (reason = "complete" → vis (q_Node q) = false) → neighbors_post r).
  { intros r reason (En & Ee & Hr & Ht) Hv. change (merge_sort ref_le []) with (@nil Ref) in En.
    rewrite sort_no_edges in Ee.
    split; rewrite ?En, ?Ee; try (by intros ? ?%elem_of_nil); try done.
    - constructor.
    - split; constructor.
    - simpl. lia.
    - intros Hf. rewrite Ht in Hf. apply negb_false_iff, String.eqb_eq in Hf.
      destruct Hr as [Hr|Hr]; [|by rewrite Hr in Hf]. rewrite Hr in Hf. rewrite (Hv Hf).
      split; [split; [by intros ?%elem_of_nil|done]|done]. }
  eapply returns_catch; [apply Visible_ok| |].
  { intros err. eapply returns_weaken; [apply fail_ends|]. intros r Hr. by apply (Hempty _ _ Hr). }
  intros visible ->. destruct (vis (q_Node q)) eqn:Hv; cbn [negb].
  2: { eapply returns_weaken; [apply finish_ends|]. intros r Hr. by apply (Hempty _ _ Hr). }
  assert (Hinit : ∀ all, linv all [] all {[q_Node q]} [q_Node q] []).
  { intros all. split; try (by intros ? ?%elem_of_nil); try (simpl; lia).
    - done.
    - apply set_eq. intros x. rewrite elem_of_list_to_set. set_solver.
    - apply NoDup_singleton.
    - by left.
    - intros n. rewrite list_elem_of_singleton. by intros ->.
    - intros n. rewrite list_elem_of_singleton. by left. }
  eapply returns_catch; [apply Adjacent_ok; lia| |].
  { intros err. eapply returns_weaken; [apply fail_ends|]. intros r Hr.
    eapply (ends_post [] [] []); [apply Hinit|exact Hr|by intros ? ?%elem_of_nil|done]. }
  intros [edges more] (Hsub & _ & Hcomp). cbn [fst snd] in *.
  destruct (sorted_edges edges) as [Pe _].
  eapply (neighbors_loop_post (sort_edges edges) more); [| |apply Hinit|done].
  - intros e. rewrite Pe. apply Hsub.
  - intros Hm e He'. rewrite Pe. by apply Hcomp.
Qed.
End Neighbors.

Lemma Neighbors_post {SE : EdgeSort} `{GraphSource} time_at context index ns q :
  (∀ ns, returns (index ns) SnapshotLaws) → returns (Neighbors time_at context index ns q) (neighbors_post q).
Proof.
  intros Hindex. unfold Neighbors. destruct (_ || _); [apply returns_afail|].
  destruct (valid_limits (q_Limits q)) eqn:Hl; cbn [negb]; [|apply returns_afail].
  destruct (_ <? _); [apply returns_afail|]. apply returns_poll_bind. intros [e|]; [apply returns_afail|].
  unfold valid_limits, in_range in Hl.
  intros w r w'. generalize (with_timeout time_at context (time_at (clock w)) (l_Elapsed (q_Limits q))).
  intros work. revert w r w'.
  apply (returns_catch _ _ _ SnapshotLaws); [apply Hindex| |].
  - intros err. eapply returns_weaken; [apply fail_ends|]. intros r (En & Ee & Hr & Ht).
    change (merge_sort ref_le []) with (@nil Ref) in En. rewrite sort_no_edges in Ee.
    assert (res_StopReason r = "elapsed") as Hs by (by destruct Hr).
    split; rewrite ?En, ?Ee; try (by intros ? ?%elem_of_nil); try done.
    + constructor.
    + split; constructor.
    + simpl. lia.
    + intros Hf. by rewrite Ht, Hs in Hf.
  - intros view Hview. rewrite !andb_true_iff, !Z.leb_le in Hl. apply neighbors_view_post; [done|lia|lia].
Qed.

(** * One-hop reads stop, and count their work *)


(** ** Stopping *)

Lemma finish_stops {SE : EdgeSort} context work nodes edges reason : halts (finish context work nodes edges reason).
Proof.
  apply abind_halts; [apply stops_poll|]. intros [e|]; [apply afail_halts|].
  apply abind_halts; [apply stops_poll|]. intros o. apply aret_halts.
Qed.

Lemma fail_stops {SE : EdgeSort} context work nodes edges err : halts (fail context work nodes edges err).
Proof.
  apply abind_halts; [apply stops_poll|]. intros [e|]; [apply afail_halts|].
  apply abind_halts; [apply stops_poll|]. intros [e|]; [apply finish_stops|apply afail_halts].
Qed.
#[export] Hint Resolve finish_stops fail_stops : dolmen.

Section Stops.
Context {SE : EdgeSort} {G : GraphSource} (context work : ctx) (q : Query) (view : Snapshot) {L : SnapshotLaws view}.

Lemma all_visible_stops refs : halts (all_visible view refs).
Proof.
  induction refs as [|r refs IH]; cbn [all_visible]; [apply aret_halts|].
  apply abind_halts; [apply Visible_stops|]. intros []; auto with dolmen.
Qed.

Lemma neighbors_loop_stops more edges : ∀ i seen nodes out,
  halts (neighbors_loop context work q view more i edges seen nodes out).
Proof.
  induction edges as [|e edges IH]; intros i seen nodes out; cbn [neighbors_loop]; [auto with dolmen|].
  apply abind_halts; [apply stops_poll|]. intros [err|]; [auto with dolmen|].
  repeat apply stops_if; auto with dolmen.
  apply stops_catch; [apply all_visible_stops|auto with dolmen|]. intros visible.
  apply stops_if; [auto|]. apply stops_if; [auto with dolmen|].
  destruct (add_node _ _ _), (add_node _ _ _). auto.
Qed.

Lemma neighbors_view_stops : halts (neighbors_view context work q view).
Proof.
  apply stops_catch; [apply Visible_stops|auto with dolmen|]. intros visible.
  apply stops_if; [auto with dolmen|].
  apply stops_catch; [apply Adjacent_stops|auto with dolmen|]. intros found. apply neighbors_loop_stops.
Qed.
End Stops.

(** An action that answers lawful views, and stops. *)
Record opens `{GraphSource} (m : act world gerror Snapshot) : Prop := Opens {
  op_laws : returns m SnapshotLaws;
  op_stops : halts m }.

Lemma stops_catch_view `{GraphSource} {B} m h (k : Snapshot → act world gerror B) :
  opens m → (∀ e, halts (h e)) → (∀ v, SnapshotLaws v → halts (k v)) → halts (catch m h k).
Proof.
  intros [Hl Hs] Hh Hk w. unfold catch. specialize (Hs w). destruct (m w) as [[v|e|] w1] eqn:E; [|apply Hh|done].
  apply Hk. by eapply Hl.
Qed.

Lemma Neighbors_stops {SE : EdgeSort} `{GraphSource} time_at context index ns q :
  opens (index ns) → halts (Neighbors time_at context index ns q).
Proof.
  intros Ho. unfold Neighbors. repeat (apply stops_if; [apply afail_halts|]).
  apply abind_halts; [apply stops_poll|]. intros [e|]; [apply afail_halts|]. intros w.
  apply stops_catch_view; [done|auto with dolmen|]. intros v Hv. by apply neighbors_view_stops.
Qed.

(** ** Counting the candidates *)

(** A snapshot that leaves the counter of [traversalView] alone. *)
Class CounterLaws (view : Snapshot) : Prop := {
  Visible_counts : ∀ r, examines 0 (Visible view r);
  Adjacent_counts : ∀ r d limit, examines 0 (Adjacent view r d limit) }.

Lemma examines_weaken {A} j k (m : act world gerror A) : examines j m → j ≤ k → examines k m.
Proof. intros Hm Hj w. specialize (Hm w). lia. Qed.

Lemma examines_aret {A} (a : A) : examines 0 (aret a).
Proof. intros w. simpl. lia. Qed.
Lemma examines_afail {A} e : examines (A := A) 0 (afail e).
Proof. intros w. simpl. lia. Qed.
Lemma examines_if {A} k (b : bool) (m1 m2 : act world gerror A) :
  examines k m1 → examines k m2 → examines k (if b then m1 else m2).
Proof. by destruct b. Qed.
Lemma examines_poll {A} c k (f : option ctx_error → act world gerror A) :
  (∀ o, examines k (f o)) → examines k (abind (poll c) f).
Proof. intros Hf w. unfold abind, poll. specialize (Hf (c (clock w)) (tick w)). simpl in *. lia. Qed.
#[export] Hint Resolve examines_aret examines_afail examines_if : dolmen.

Lemma finish_examines {SE : EdgeSort} context work nodes edges reason : examines 0 (finish context work nodes edges reason).
Proof. apply examines_poll. intros [e|]; [apply examines_afail|]. apply examines_poll. intros o. apply examines_aret. Qed.

Lemma fail_examines {SE : EdgeSort} context work nodes edges err : examines 0 (fail context work nodes edges err).
Proof.
  apply examines_poll. intros [e|]; [apply examines_afail|]. apply examines_poll.
  intros [e|]; [apply finish_examines|apply examines_afail].
Qed.
#[export] Hint Resolve finish_examines fail_examines : dolmen.

Lemma examines_bind0 {A B} (m : act world gerror A) (f : A → act world gerror B) :
  examines 0 m → (∀ a, examines 0 (f a)) → examines 0 (abind m f).
Proof. intros. by apply (examines_bind 0 0). Qed.
Lemma examines_catch0 {A B} k (m : act world gerror A) h (f : A → act world gerror B) :
  0 ≤ k → examines 0 m → (∀ e, examines k (h e)) → (∀ a, examines k (f a)) → examines k (catch m h f).
Proof. intros. rewrite <-(Z.add_0_l k). by apply examines_catch. Qed.

Section Examines.
Context {SE : EdgeSort} (context work : ctx) (q : Query) (view : Snapshot).
Context (HV : ∀ r, examines 0 (Visible view r)).

Lemma all_visible_examines refs : examines 0 (all_visible view refs).
Proof.
  induction refs as [|r refs IH]; cbn [all_visible]; [apply examines_aret|].
  apply examines_bind0; [apply HV|]. intros []; auto with dolmen.
Qed.

Lemma neighbors_loop_examines more edges : ∀ i seen nodes out,
  examines 0 (neighbors_loop context work q view more i edges seen nodes out).
Proof.
  induction edges as [|e edges IH]; intros i seen nodes out; cbn [neighbors_loop]; [auto with dolmen|].
  apply examines_poll. intros [err|]; [auto with dolmen|].
  repeat apply examines_if; auto with dolmen.
  apply examines_catch0; [lia|apply all_visible_examines|auto with dolmen|]. intros visible.
  apply examines_if; [auto|]. apply examines_if; [auto with dolmen|].
  destruct (add_node _ _ _), (add_node _ _ _). auto.
Qed.

Lemma neighbors_view_examines k : 0 ≤ k →
  examines k (Adjacent view (q_Node q) (q_Direction q) (l_Edges (q_Limits q))) →
  examines k (neighbors_view context work q view).
Proof.
  intros Hk HA. assert (H0 : ∀ B (m : act world gerror B), examines 0 m → examines k m)
    by (intros; by eapply examines_weaken).
  apply examines_catch0; [done|apply HV|auto with dolmen|]. intros visible.
  apply examines_if; [auto with dolmen|]. rewrite <-(Z.add_0_r k).
  apply examines_catch; [done|done|auto with dolmen|]. intros found. apply neighbors_loop_examines.
Qed.
End Examines.

Lemma traversalView_examines `{GraphSource} view r d limit :
  SnapshotLaws view → CounterLaws view → 0 ≤ limit →
  examines limit (Adjacent (traversalView view) r d limit).
Proof.
  intros HL HC Hl w. cbn [traversalView Adjacent]. unfold abind at 1.
  pose proof (Adjacent_counts (view := view) r d limit w) as Hc.
  destruct (Adjacent view r d limit w) as [[found|e|] w1] eqn:E; simpl in *; [|lia|lia].
  destruct (Adjacent_ok r d limit Hl _ _ _ E) as (_ & Hlen & _). lia.
Qed.

#[global] Instance traversalView_laws `{GraphSource} view : SnapshotLaws view → SnapshotLaws (traversalView view).
Proof.
  intros HL. split.
  - apply (Visible_ok (view := view)).
  - intros r d limit Hl. eapply returns_bind; [by apply (Adjacent_ok (view := view))|]. intros found Hf.
    apply (returns_bind _ _ (λ _, True)); [done|]. intros _ _. by apply returns_aret.
  - apply (Visible_stops (view := view)).
  - intros r d limit. apply abind_halts; [apply (Adjacent_stops (view := view))|]. intros found.
    apply abind_halts; [by intros w|]. intros _. apply aret_halts.
Qed.

Lemma Neighbors_examines {SE : EdgeSort} `{GraphSource} time_at context view ns q :
  SnapshotLaws view → CounterLaws view →
  examines (Z.max 0 (l_Edges (q_Limits q)))
    (Neighbors time_at context (λ _, aret (traversalView view)) ns q).
Proof.
  intros HL HC. set (k := Z.max 0 _). assert (Hk : 0 ≤ k) by lia.
  assert (H0 : ∀ B (m : act world gerror B), examines 0 m → examines k m)
    by (intros; by eapply examines_weaken).
  unfold Neighbors. apply examines_if; [auto with dolmen|].
  destruct (valid_limits (q_Limits q)) eqn:Hl; cbn [negb]; [|auto with dolmen].
  apply examines_if; [auto with dolmen|].
  apply examines_poll. intros [e|]; [auto with dolmen|]. intros w. revert w.
  assert (Hl0 : 1 ≤ l_Edges (q_Limits q)) by (unfold valid_limits, in_range in Hl; lia).
  intros w. generalize (with_timeout time_at context (time_at (clock w)) (l_Elapsed (q_Limits q))).
  intros work. change (catch (aret (traversalView view)) ?h ?f w) with (f (traversalView view) w).
  revert w. apply neighbors_view_examines; [apply (Visible_counts (view := view))|done|].
  unfold k. rewrite Z.max_r by lia. apply traversalView_examines; [done..|lia].
Qed.
