(* ===== verification/GraphSearch.v ===== *)
(** * Breadth-first traversal: what it finds

    The invariant of the search (depths are distances, parents are links of
    the graph, the queue is in order of depth), from which both the subgraph
    and the path are read. *)
From Stdlib Require Import ZArith Lia Ascii String.
From stdpp Require Import base gmap strings list sorting.
From S2P Require Import Prelude GoStrings SchemaIdent Graph GraphFacts.
Local Open Scope Z_scope.

(** ** Actions that stop, and answer [P] if they answer *)

Definition safe {A} (m : act world gerror A) (P : A → Prop) : Prop := returns m P ∧ halts m.

Lemma safe_weaken {A} (m : act world gerror A) (P Q : A → Prop) :
  safe m P → (∀ a, P a → Q a) → safe m Q.
Proof. intros [? ?] ?. split; [by eapply returns_weaken|done]. Qed.

Lemma safe_aret {A} (a : A) (P : A → Prop) : P a → safe (aret a) P.
Proof. split; [by apply returns_aret|apply aret_halts]. Qed.

Lemma safe_afail {A} e (P : A → Prop) : safe (afail e) P.
Proof. split; [apply returns_afail|apply afail_halts]. Qed.

Lemma safe_poll {A} c (k : option ctx_error → act world gerror A) P :
  (∀ o, safe (k o) P) → safe (abind (poll c) k) P.
Proof.
  intros H. split; [apply returns_poll_bind; intros o; apply H|].
  apply abind_halts; [apply stops_poll|]. intros o. apply H.
Qed.

Lemma safe_catch {A B} (m : act world gerror A) h (k : A → act world gerror B) P Q :
  safe m P → (∀ e, safe (h e) Q) → (∀ a, P a → safe (k a) Q) → safe (catch m h k) Q.
Proof.
  intros [Hm Hs] Hh Hk. split.
  - eapply returns_catch; [exact Hm|intros e; apply Hh|intros a Ha; by apply Hk].
  - intros w. unfold catch. specialize (Hs w). destruct (m w) as [[a|e|] w1] eqn:E; [|apply Hh|done].
    apply Hk. by eapply Hm.
Qed.

Lemma safe_if {A} (b : bool) (m1 m2 : act world gerror A) P : safe m1 P → safe m2 P → safe (if b then m1 else m2) P.
Proof. by destruct b. Qed.

Section Search.
Context {G : GraphSource} {GL : GraphLaws G} (q : TraversalQuery).

(** ** The graph the query walks *)

(** The edge [e], read from [u], leads to [v]. *)
Definition link (u : Ref) (e : Edge) (v : Ref) : Prop :=
  e ∈ incident u (tq_Direction q) ∧ accepted (hop q u 0) e = true ∧ v = other_end u e.

Inductive walk : Ref → nat → Ref → Prop :=
| walk_here s : walk s 0 s
| walk_step s n u e v : walk s n u → link u e v → walk s (S n) v.

(** [v] is [n] links from a visible seed. *)
Definition reach (n : nat) (v : Ref) : Prop := ∃ s, s ∈ tq_Seeds q ∧ vis s = true ∧ walk s n v.

Inductive path (s : Ref) : list Ref → list Edge → Ref → Prop :=
| path_here : path s [s] [] s
| path_snoc nodes edges u e v : path s nodes edges u → link u e v → path s (nodes ++ [v]) (edges ++ [e]) v.

Lemma accepted_ends u e : accepted (hop q u 0) e = true →
  (e_Source e = u ∨ e_Source e = other_end u e) ∧ (e_Target e = u ∨ e_Target e = other_end u e)
  ∧ vis (e_Source e) = true ∧ vis (e_Target e) = true
  ∧ (other_end u e = e_Source e ∨ other_end u e = e_Target e).
Proof.
  unfold accepted, shown, other_end. rewrite !andb_true_iff, !negb_true_iff. intros [[Hw _] [[_ ?] ?]].
  unfold wrong_way in Hw. cbn [hop q_Node] in Hw. apply orb_false_iff in Hw as [_ Hw].
  destruct (decide (e_Target e = u)) as [<-|Ht]; [tauto|].
  destruct (bool_decide (e_Source e = u)) eqn:Es.
  - apply bool_decide_eq_true in Es. tauto.
  - rewrite (bool_decide_eq_false_2 _ Ht) in Hw. done.
Qed.

Lemma link_vis u e v : link u e v → vis v = true.
Proof. intros (_ & H & ->). apply accepted_ends in H as (_ & _ & ? & ? & [-> | ->]); done. Qed.

Lemma reach_vis n v : reach n v → vis v = true.
Proof.
  intros (s & _ & Hv & Hw). destruct Hw; [done|by eapply link_vis].
Qed.

Lemma reach_step n u e v : reach n u → link u e v → reach (S n) v.
Proof. intros (s & ? & ? & ?) ?. exists s. split_and!; [done|done|by econstructor]. Qed.

Lemma reach_S n v : reach (S n) v → ∃ u e, reach n u ∧ link u e v.
Proof. intros (s & ? & ? & Hw). inversion Hw; subst. eexists _, _. split; [|done]. by exists s. Qed.

(** ** The invariant *)

Record binv (b : bfs) : Prop := Binv {
  bi_nodes : b_nodes b = b_queue b;
  bi_nodup : NoDup (b_queue b);
  bi_dom : ∀ v, v ∈ b_queue b ↔ is_Some (b_depth b !! v);
  bi_depth : ∀ v d, b_depth b !! v = Some d → 0 ≤ d ≤ tq_MaxHops q ∧ reach (Z.to_nat d) v;
  bi_short : ∀ v d n, b_depth b !! v = Some d → reach n v → d ≤ Z.of_nat n;
  bi_parent : ∀ v d, b_depth b !! v = Some d → d ≠ 0 →
    ∃ u e, b_parent b !! v = Some u ∧ b_via b !! v = Some e ∧ b_depth b !! u = Some (d - 1) ∧ link u e v;
  bi_edges : b_edges b = list_to_set (map e_Ref (b_out b));
  bi_out_nodup : NoDup (map e_Ref (b_out b));
  bi_out : ∀ e, e ∈ b_out b → e_Source e ∈ b_queue b ∧ e_Target e ∈ b_queue b
    ∧ ∃ u, u ∈ b_queue b ∧ e ∈ incident u (tq_Direction q) ∧ accepted (hop q u 0) e = true;
  bi_lnodes : Z.of_nat (length (b_queue b)) ≤ l_Nodes (tq_Limits q);
  bi_ledges : Z.of_nat (length (b_out b)) ≤ l_Edges (tq_Limits q) }.

(** Before the node at [head] is expanded: those before it are, depths grow
    along the queue by at most one past it, and the target is not there. *)
Record border (b : bfs) (head : nat) : Prop := Border {
  bo_mono : ∀ i j u v du dv, (i ≤ j)%nat → b_queue b !! i = Some u → b_queue b !! j = Some v →
    b_depth b !! u = Some du → b_depth b !! v = Some dv → du ≤ dv;
  bo_gap : ∀ u du v dv, b_queue b !! head = Some u → b_depth b !! u = Some du →
    b_depth b !! v = Some dv → dv ≤ du + 1;
  bo_closed : ∀ i u e v, (i < head)%nat → b_queue b !! i = Some u → link u e v →
    is_Some (b_depth b !! v) ∧ e ∈ b_out b;
  bo_seeds : ∀ s, s ∈ tq_Seeds q → vis s = true → b_depth b !! s = Some 0;
  bo_target : ∀ t, tq_Target q = Some t → b_depth b !! t = None }.

Lemma size_depth b : binv b → size (b_depth b) = length (b_queue b).
Proof.
  intros []. rewrite <-(size_dom (D := gset Ref)). rewrite <-(size_list_to_set (C := gset Ref)) by done.
  f_equal. apply set_eq. intros v. by rewrite elem_of_dom, elem_of_list_to_set, bi_dom0.
Qed.

Lemma size_edges b : binv b → size (b_edges b) = length (b_out b).
Proof. intros []. rewrite bi_edges0, size_list_to_set by done. apply length_map. Qed.

Lemma seen_edge b e u :
  binv b → e ∈ incident u (tq_Direction q) → e_Ref e ∈ b_edges b → e ∈ b_out b.
Proof.
  intros [] He Hin. rewrite bi_edges0 in Hin. apply elem_of_list_to_set, list_elem_of_fmap in Hin as (e' & Hr & He').
  destruct (bi_out0 e' He') as (_ & _ & u' & _ & Hi & _).
  by rewrite (incident_identity u u' _ _ e e' He Hi Hr).
Qed.

(** Whatever is no farther than the head is already in the queue. *)
Lemma nearby_known b head u du : binv b → border b head →
  b_queue b !! head = Some u → b_depth b !! u = Some du →
  ∀ n v, reach n v → Z.of_nat n ≤ du → is_Some (b_depth b !! v).
Proof.
  intros [] [] Hu Hdu n. induction n as [|n IH]; intros v Hv Hn.
  - destruct Hv as (s & Hs & Hvs & Hw). inversion Hw; subst. rewrite bo_seeds0 by done. eauto.
  - apply reach_S in Hv as (x & e & Hx & Hl). destruct (IH x Hx ltac:(lia)) as [dx Hdx].
    pose proof (bi_short0 _ _ _ Hdx Hx) as Hle.
    assert (x ∈ b_queue b) as (i & Hi)%list_elem_of_lookup by (apply bi_dom0; eauto).
    destruct (decide (i < head)%nat) as [Hlt|Hge].
    + by destruct (bo_closed0 i x e v Hlt Hi Hl).
    + assert (du ≤ dx) by (eapply (bo_mono0 head i); [lia|exact Hu|exact Hi|done|done]). lia.
Qed.

(** With the queue exhausted, everything reachable is known. *)
Lemma all_known b head : binv b → border b head → b_queue b !! head = None →
  ∀ n v, reach n v → is_Some (b_depth b !! v) ∧ ∀ e w, link v e w → e ∈ b_out b.
Proof.
  intros [] [] Hend.
  assert (Hclosed : ∀ x e y, is_Some (b_depth b !! x) → link x e y → is_Some (b_depth b !! y) ∧ e ∈ b_out b).
  { intros x e y Hx Hl. apply bi_dom0, list_elem_of_lookup in Hx as (i & Hi).
    apply (bo_closed0 i x e y); [|done|done]. apply lookup_ge_None in Hend. apply lookup_lt_Some in Hi. lia. }
  assert (Hdom : ∀ n v, reach n v → is_Some (b_depth b !! v)).
  { intros n. induction n as [|n IH]; intros v Hv.
    - destruct Hv as (s & Hs & Hvs & Hw). inversion Hw; subst. rewrite bo_seeds0 by done. eauto.
    - apply reach_S in Hv as (x & e & Hx & Hl). by destruct (Hclosed x e v (IH x Hx) Hl). }
  intros n v Hv. split; [by eapply Hdom|]. intros e w Hl. by destruct (Hclosed v e w (Hdom n v Hv) Hl).
Qed.
(** ** One edge *)

Lemma out_ends b u e : binv b → u ∈ b_queue b → other_end u e ∈ b_queue b → accepted (hop q u 0) e = true →
  e_Source e ∈ b_queue b ∧ e_Target e ∈ b_queue b.
Proof. intros _ Hu Ho He. apply accepted_ends in He as (Hs & Ht & _). destruct Hs as [-> | ->], Ht as [-> | ->]; done. Qed.

(** What stays when a state grows. *)
Record grows (b b' : bfs) : Prop := Grows {
  gr_depth : ∀ v d, b_depth b !! v = Some d → b_depth b' !! v = Some d;
  gr_out : ∀ e, e ∈ b_out b → e ∈ b_out b';
  gr_queue : ∀ i v, b_queue b !! i = Some v → b_queue b' !! i = Some v }.

Lemma grows_trans b1 b2 b3 : grows b1 b2 → grows b2 b3 → grows b1 b3.
Proof. intros [] []. split; auto. Qed.

(** The state at the node [node], at depth [D], of the turn [head]. *)
Record expanding (b : bfs) (head : nat) (node : Ref) (D : Z) : Prop := Expanding {
  ex_binv : binv b;
  ex_border : border b head;
  ex_node : b_queue b !! head = Some node;
  ex_depth : b_depth b !! node = Some D;
  ex_hops : D < tq_MaxHops q }.

(** An edge between known nodes is recorded. *)
Lemma take_known b e u v : binv b → u ∈ b_queue b → v ∈ b_queue b → link u e v → e_Ref e ∉ b_edges b →
  Z.of_nat (size (b_edges b)) ≠ l_Edges (tq_Limits q) →
  binv (Bfs (b_queue b) (b_depth b) (b_parent b) (b_via b) ({[e_Ref e]} ∪ b_edges b) (b_nodes b) (b_out b ++ [e])).
Proof.
  intros Hb Hu Hv (Hi & Ha & ->) He Hl. rewrite (size_edges b Hb) in Hl. pose proof (out_ends b u e Hb Hu Hv Ha).
  destruct Hb. split; cbn [b_queue b_depth b_parent b_via b_edges b_nodes b_out]; try done.
  - rewrite bi_edges0, map_app, list_to_set_app_L. simpl. apply set_eq. set_solver.
  - rewrite map_app. apply NoDup_app. split_and!; [done| |apply NoDup_singleton].
    intros x Hx. cbn [map]. rewrite list_elem_of_singleton. intros ->. apply He. rewrite bi_edges0.
    by apply elem_of_list_to_set.
  - intros e' [?| ->%list_elem_of_singleton]%elem_of_app; [by apply bi_out0|]. split_and!; [tauto|tauto|eauto].
  - rewrite length_app. simpl. lia.
Qed.

(** A link from the node being expanded to an unknown node discovers it. *)
Lemma discover b head node D e v : expanding b head node D → link node e v → b_depth b !! v = None →
  Z.of_nat (size (b_depth b)) ≠ l_Nodes (tq_Limits q) →
  binv (Bfs (b_queue b ++ [v]) (<[v := D + 1]> (b_depth b)) (<[v := node]> (b_parent b)) (<[v := e]> (b_via b))
          (b_edges b) (b_nodes b ++ [v]) (b_out b)).
Proof.
  intros [Hb Hbo Hnode HD Hhops] Hl Hnew Hsize. rewrite (size_depth b Hb) in Hsize.
  pose proof (nearby_known b head node D Hb Hbo Hnode HD) as Hnear. destruct Hb.
  assert (Hv : v ∉ b_queue b) by (rewrite bi_dom0, Hnew; by intros [? ?]).
  destruct (bi_depth0 node D HD) as [HD0 Hreach].
  assert (Hne : ∀ x d, b_depth b !! x = Some d → x ≠ v) by (intros x d Hx ->; congruence).
  split; cbn [b_queue b_depth b_parent b_via b_edges b_nodes b_out]; try done.
  - by rewrite bi_nodes0.
  - apply NoDup_app. split_and!; [done| |apply NoDup_singleton]. intros x Hx. rewrite list_elem_of_singleton. by intros ->.
  - intros x. rewrite elem_of_app, list_elem_of_singleton, bi_dom0. destruct (decide (x = v)) as [->|Hx].
    + rewrite lookup_insert_eq. split; [eauto|by right].
    + rewrite lookup_insert_ne by done. split; [by intros [?|?]|by left].
  - intros x d. destruct (decide (x = v)) as [->|Hx].
    + rewrite lookup_insert_eq. intros [= <-]. split; [lia|]. rewrite Z2Nat.inj_add by lia.
      rewrite Nat.add_1_r. by eapply reach_step.
    + rewrite lookup_insert_ne by done. apply bi_depth0.
  - intros x d n. destruct (decide (x = v)) as [->|Hx].
    + rewrite lookup_insert_eq. intros [= <-] Hn. destruct (Z.lt_ge_cases D (Z.of_nat n)) as [|Hle]; [lia|].
      destruct (Hnear n v Hn Hle) as [d Hd]. congruence.
    + rewrite lookup_insert_ne by done. apply bi_short0.
  - intros x d. destruct (decide (x = v)) as [->|Hx].
    + rewrite lookup_insert_eq. intros [= <-] _. exists node, e. rewrite !lookup_insert_eq.
      rewrite lookup_insert_ne by (intros ->; congruence). replace (D + 1 - 1) with D by lia. done.
    + rewrite !lookup_insert_ne by done. intros Hd Hz. destruct (bi_parent0 x d Hd Hz) as (u & e' & ? & ? & Hu & ?).
      exists u, e'. split_and!; try done. rewrite lookup_insert_ne; [done|]. by eapply not_eq_sym, Hne.
  - intros e' (? & ? & u & ? & ? & ?)%bi_out0. rewrite !elem_of_app. split_and!; try tauto.
    exists u. rewrite elem_of_app. tauto.
  - rewrite length_app. simpl. lia.
Qed.

Lemma border_grow b b' head node D : expanding b head node D → binv b' → grows b b' →
  (b_queue b' = b_queue b ∧ b_depth b' = b_depth b
   ∨ ∃ v, b_queue b' = b_queue b ++ [v] ∧ b_depth b' = <[v := D + 1]> (b_depth b) ∧ b_depth b !! v = None
       ∧ tq_Target q ≠ Some v) →
  border b' head.
Proof.
  intros [Hb [] Hnode HD _] Hb' [] [[Eq Ed]|(v & Eq & Ed & Hnew & Ht)].
  - split; rewrite ?Eq, ?Ed; try done. intros i u e w Hi Hu Hl. rewrite <-Ed.
    destruct (bo_closed0 i u e w Hi Hu Hl) as [[d Hd] He]. split; [|auto]. rewrite Ed. eauto.
  - assert (Hlast : ∀ i x, (b_queue b ++ [v]) !! i = Some x →
      b_queue b !! i = Some x ∨ (i = length (b_queue b) ∧ x = v)).
    { intros i x [Hx|[Hi Hx]]%lookup_app_Some; [by left|right].
      apply list_lookup_singleton_Some in Hx as [? <-]. split; [lia|done]. }
    assert (Hold : ∀ x d, b_depth b' !! x = Some d → b_depth b !! x = Some d ∨ (x = v ∧ d = D + 1)).
    { intros x d. rewrite Ed. destruct (decide (x = v)) as [->|?].
      - rewrite lookup_insert_eq. intros [= <-]. by right.
      - rewrite lookup_insert_ne by done. by left. }
    assert (Hdv : ∀ x, b_queue b' !! head = Some x → x = node).
    { intros x Hx. rewrite (gr_queue0 _ _ Hnode) in Hx. by injection Hx. }
    split.
    + intros i j x y dx dy Hij Hx Hy Hdx Hdy. rewrite Eq in Hx, Hy.
      apply Hlast in Hx as [Hx|[-> ->]]; apply Hlast in Hy as [Hy|[-> ->]].
      * apply Hold in Hdx as [Hdx|[-> _]]; [|apply list_elem_of_lookup_2, (bi_dom _ Hb) in Hx as [? ?]; congruence].
        apply Hold in Hdy as [Hdy|[-> _]]; [by eauto|apply list_elem_of_lookup_2, (bi_dom _ Hb) in Hy as [? ?]; congruence].
      * apply Hold in Hdx as [Hdx|[-> ->]]; [|apply list_elem_of_lookup_2, (bi_dom _ Hb) in Hx as [? ?]; congruence].
        apply Hold in Hdy as [Hdy|[_ ->]]; [congruence|]. eauto.
      * apply lookup_lt_Some in Hy. lia.
      * rewrite Hdx in Hdy. injection Hdy as ->. lia.
    + intros x dx y dy Hx Hdx Hdy. apply Hdv in Hx as ->. rewrite (gr_depth0 _ _ HD) in Hdx. injection Hdx as <-.
      apply Hold in Hdy as [Hdy|[_ ->]]; [eauto|lia].
    + intros i x e w Hi Hx Hl. rewrite Eq in Hx. apply Hlast in Hx as [Hx|[-> ->]].
      * destruct (bo_closed0 i x e w Hi Hx Hl) as [[d Hd] He]. split; [|auto]. eauto.
      * apply lookup_lt_Some in Hnode. lia.
    + intros s Hs Hv. auto.
    + intros t Hqt. rewrite Ed, lookup_insert_ne by congruence. auto.
Qed.

Lemma take_edge_ok b head node D e b' other :
  expanding b head node D → e ∈ incident node (tq_Direction q) → accepted (hop q node 0) e = true →
  take_edge q node e b = Take b' other →
  other = other_end node e ∧ binv b' ∧ grows b b' ∧ is_Some (b_depth b' !! other) ∧ e ∈ b_out b'
  ∧ (tq_Target q ≠ Some other → expanding b' head node D).
Proof.
  intros Hex Hi Ha. pose proof Hex as [Hb Hbo Hnode HD Hhops]. unfold take_edge.
  assert (Hnq : node ∈ b_queue b) by by eapply list_elem_of_lookup_2.
  destruct (decide (e_Ref e ∈ b_edges b)) as [|Hnew]; [done|]. destruct (Z.eqb_spec (Z.of_nat (size (b_edges b))) (l_Edges (tq_Limits q))) as [|Hl]; [done|].
  assert (Hlink : link node e (other_end node e)) by done.
  destruct (b_depth b !! other_end node e) as [d|] eqn:Hd.
  - intros [= <- <-].
    assert (Hb' := take_known b e node (other_end node e) Hb Hnq ltac:(apply (bi_dom _ Hb); eauto) Hlink Hnew Hl).
    assert (Hgr : grows b (Bfs (b_queue b) (b_depth b) (b_parent b) (b_via b) ({[e_Ref e]} ∪ b_edges b) (b_nodes b) (b_out b ++ [e]))).
    { split; try done. intros e' He'. apply elem_of_app. by left. }
    split_and!; [done|done|done|eauto|apply elem_of_app; right; by left|]. intros Ht.
    split; try done. eapply border_grow; [done|done|done|by left].
  - destruct (Z.eqb_spec (Z.of_nat (size (b_depth b))) (l_Nodes (tq_Limits q))) as [|Hn]; [done|].
    rewrite HD. intros [= <- <-]. set (v := other_end node e) in *.
    pose proof (discover b head node D e v Hex Hlink Hd Hn) as Hb1.
    assert (Hb' := take_known _ e node v Hb1 ltac:(apply elem_of_app; by left) ltac:(apply elem_of_app; right; by left) Hlink Hnew Hl).
    cbn [b_queue b_depth b_parent b_via b_edges b_nodes b_out] in Hb'.
    match type of Hb' with binv ?x => set (b' := x) in * end.
    assert (Hgr : grows b b').
    { split; cbn [b' b_queue b_depth b_out].
      - intros x dx Hx. rewrite lookup_insert_ne; [done|]. intros ->. congruence.
      - intros e' He'. apply elem_of_app. by left.
      - intros i x Hx. by apply lookup_app_l_Some. }
    split_and!; [done|done|done|cbn [b' b_depth]; rewrite lookup_insert_eq; eauto|apply elem_of_app; right; by left|].
    intros Ht. split; try done.
    + eapply border_grow; [exact Hex|done|done|right]. by exists v.
    + by apply (gr_queue _ _ Hgr).
    + by apply (gr_depth _ _ Hgr).
Qed.
End Search.
