(* ===== verification/GraphTraverse.v ===== *)
(** * Breadth-first traversal: the loops

    The subgraph and the path a traversal promises, and that its loops, taken
    together, stop and keep the promise. *)
From Stdlib Require Import ZArith Lia Ascii String.
From stdpp Require Import base gmap strings list sorting.
From S2P Require Import Prelude GoStrings SchemaIdent Graph GraphFacts GraphSearch.
Local Open Scope Z_scope.

Section Traverse.
Context {SE : EdgeSort} {G : GraphSource} {GL : GraphLaws G} (time_at : nat → Z) (context work : ctx) (ns : string).
Context (q : TraversalQuery) (view : Snapshot) {VL : SnapshotLaws view}.

(** ** The promise *)

Record subgraph_post (r : Result) : Prop := SubgraphPost {
  sp_nodes : ∀ v, v ∈ res_Nodes r → ∃ n, Z.of_nat n ≤ tq_MaxHops q ∧ reach q n v;
  sp_edges : ∀ e, e ∈ res_Edges r → e_Source e ∈ res_Nodes r ∧ e_Target e ∈ res_Nodes r
    ∧ ∃ u, u ∈ res_Nodes r ∧ e ∈ incident u (tq_Direction q) ∧ accepted (hop q u 0) e = true;
  sp_distinct : NoDup (res_Nodes r) ∧ NoDup (map e_Ref (res_Edges r));
  sp_sorted : StronglySorted ref_le (res_Nodes r) ∧ StronglySorted edge_le (res_Edges r);
  sp_limits : Z.of_nat (length (res_Nodes r)) ≤ l_Nodes (tq_Limits q)
            ∧ Z.of_nat (length (res_Edges r)) ≤ l_Edges (tq_Limits q);
  sp_complete : res_Truncated r = false →
    (∀ n v, reach q n v → v ∈ res_Nodes r)
    ∧ ∀ n u e v, reach q n u → link q u e v → e ∈ res_Edges r }.

(** A shortest path from the source, or nothing; and nothing only for want of
    budget, unless there is no path. *)
Definition path_post (t : Ref) (r : Result) : Prop :=
  (res_Nodes r = [] ∧ res_Edges r = [] ∧ (res_Truncated r = false → ∀ n, ¬ reach q n t))
  ∨ (res_Truncated r = false ∧ Z.of_nat (length (res_Edges r)) ≤ tq_MaxHops q
     ∧ (∀ n, reach q n t → (length (res_Edges r) ≤ n)%nat)
     ∧ ∃ s, tq_Seeds q = [s] ∧ vis s = true ∧ path q s (res_Nodes r) (res_Edges r) t).

Definition traverse_post (r : Result) : Prop :=
  res_Truncated r = negb (String.eqb (res_StopReason r) "complete")
  ∧ match tq_Target q with None => subgraph_post r | Some t => path_post t r end.

(** What "complete" has to mean at a given state. *)
Definition exhausted (b : bfs) : Prop :=
  match tq_Target q with
  | None => ∀ n v, reach q n v → is_Some (b_depth b !! v) ∧ ∀ e w, link q v e w → e ∈ b_out b
  | Some t => ∀ n, ¬ reach q n t
  end.

(** ** Ending *)

Lemma elapsed_post b r : binv q b → ∀ reason,
  (reason = "complete" → exhausted b) →
  r = match tq_Target q with
      | Some _ => MkResult [] [] (negb (String.eqb reason "complete")) reason
      | None => MkResult (merge_sort ref_le (b_nodes b)) (sort_edges (b_out b))
                  (negb (String.eqb reason "complete")) reason
      end → traverse_post r.
Proof.
  intros Hb reason Hex ->. unfold traverse_post, exhausted in *. destruct (tq_Target q) as [t|]; cbn.
  - split; [done|]. left. split_and!; [done|done|]. intros H%negb_false_iff%String.eqb_eq. auto.
  - split; [done|]. destruct (sorted_nodes (b_nodes b)) as [Pn Sn], (sorted_edges (b_out b)) as [Pe Se].
    destruct Hb. rewrite bi_nodes in *.
    split; cbn [res_Nodes res_Edges res_Truncated]; try done.
    + intros v Hv. rewrite Pn in Hv. apply bi_dom in Hv as [d Hd]. destruct (bi_depth v d Hd) as [? ?].
      exists (Z.to_nat d). split; [lia|done].
    + intros e He. rewrite Pe in He. setoid_rewrite Pn. by apply bi_out.
    + split; [by rewrite Pn|]. by rewrite Pe.
    + rewrite Pn, Pe. done.
    + intros H%negb_false_iff%String.eqb_eq. specialize (Hex H). split.
      * intros n v Hv. rewrite Pn, bi_dom. by eapply Hex.
      * intros n u e v Hu Hl. rewrite Pe. by apply (proj2 (Hex n u Hu) e v).
Qed.

Lemma t_finish_safe b reason : binv q b → (reason = "complete" → exhausted b) →
  safe (t_finish context work q (b_nodes b) (b_out b) reason) traverse_post.
Proof.
  intros Hb Hex. apply safe_poll. intros [e|]; [apply safe_afail|]. apply safe_poll. intros o.
  apply safe_aret. destruct o as [e|].
  - by apply (elapsed_post b _ Hb "elapsed").
  - by apply (elapsed_post b _ Hb reason).
Qed.

Lemma t_fail_safe b err : binv q b → safe (t_fail context work q (b_nodes b) (b_out b) err) traverse_post.
Proof.
  intros Hb. apply safe_poll. intros [e|]; [apply safe_afail|]. apply safe_poll.
  intros [e|]; [|apply safe_afail]. by apply t_finish_safe.
Qed.

(** ** The path back *)

Lemma walk_back_ok b s : binv q b → tq_Seeds q = [s] → ∀ f v d,
  b_depth b !! v = Some d → Z.to_nat d = f →
  ∃ es ns, walk_back f b s v = Some (es, ns) ∧ path q s (rev (v :: ns)) (rev es) v ∧ length es = f.
Proof.
  intros Hb Hs. destruct Hb. intros f. induction f as [|f IH]; intros v d Hd Hf;
    destruct (bi_depth v d Hd) as [Hr (s' & Hs' & Hv & Hw)];
    rewrite Hs in Hs'; apply list_elem_of_singleton in Hs' as ->.
  - rewrite Hf in Hw. inversion Hw; subst. exists [], []. cbn [walk_back]. rewrite decide_True by done.
    split_and!; [done|apply path_here|done].
  - assert (Hvs : v ≠ s).
    { intros ->. assert (d ≤ 0); [|lia]. apply (bi_short s d 0%nat Hd). exists s. rewrite Hs.
      split_and!; [by left|done|apply walk_here]. }
    destruct (bi_parent v d Hd ltac:(lia)) as (u & e & Hp & He & Hu & Hl).
    destruct (IH u (d - 1) Hu ltac:(lia)) as (es & ms & Hwb & Hpath & Hlen).
    exists (e :: es), (u :: ms). cbn [walk_back]. rewrite decide_False, He, Hp, Hwb by done.
    split_and!; [done| |simpl; lia]. cbn [rev] in *. by eapply path_snoc.
Qed.

Lemma t_found_safe b s t : binv q b → tq_Seeds q = [s] → tq_Target q = Some t → is_Some (b_depth b !! t) →
  safe (t_found context work q b t) traverse_post.
Proof.
  intros Hb Hs Ht [d Hd]. unfold t_found. rewrite Hs, Hd. cbn [hd]. change (default 0 (Some d)) with d.
  destruct (walk_back_ok b s Hb Hs (Z.to_nat d) t d Hd eq_refl) as (es & ms & -> & Hpath & Hlen).
  assert (Hel : safe (t_finish context work q (rev (t :: ms)) (rev es) "elapsed") traverse_post).
  { apply safe_poll. intros [e|]; [apply safe_afail|]. apply safe_poll. intros o. apply safe_aret.
    apply (elapsed_post b _ Hb "elapsed"); [done|]. rewrite Ht. by destruct o. }
  apply safe_poll. intros [e|]; [apply safe_afail|]. apply safe_poll. intros [e|]; [exact Hel|].
  apply safe_aret. unfold traverse_post. rewrite Ht. split; [done|]. right. cbn [res_Truncated res_Edges res_Nodes].
  destruct Hb. destruct (bi_depth t d Hd) as [Hr (s' & Hs' & Hv & Hw)].
  rewrite Hs in Hs'. apply list_elem_of_singleton in Hs' as ->. rewrite length_rev, Hlen.
  split_and!; [done|lia| |by exists s]. intros n Hn. pose proof (bi_short t d n Hd Hn). lia.
Qed.

(** ** The edges of a node *)

Lemma Stop_reason node e b reason : take_edge q node e b = Stop reason → reason ≠ "complete".
Proof. unfold take_edge. repeat case_match; try done; intros [= <-]; done. Qed.

Lemma edges_loop_safe head node D k es : ∀ b,
  (∀ t, tq_Target q = Some t → ∃ s, tq_Seeds q = [s]) →
  expanding q b head node D →
  (∀ e, e ∈ es → e ∈ incident node (tq_Direction q) ∧ accepted (hop q node 0) e = true) →
  (∀ b', expanding q b' head node D → grows b b' →
     (∀ e, e ∈ es → e ∈ b_out b' ∧ is_Some (b_depth b' !! other_end node e)) → safe (k b') traverse_post) →
  safe (edges_loop context work q node es b k) traverse_post.
Proof.
  intros b Hone. revert b. induction es as [|e es IH]; intros b Hex Hes Hk; cbn [edges_loop].
  { apply Hk; [done|by split|by intros ? ?%elem_of_nil]. }
  destruct (Hes e ltac:(by left)) as [Hi Ha].
  assert (Hrest : ∀ b1, expanding q b1 head node D → grows b b1 → e ∈ b_out b1 →
    is_Some (b_depth b1 !! other_end node e) → safe (edges_loop context work q node es b1 k) traverse_post).
  { intros b1 Hex1 Hg1 He1 [d1 Hd1]. apply IH; [done|intros; apply Hes; by right|].
    intros b' Hex' Hg Hout. apply Hk; [done|by eapply grows_trans|].
    intros e' [->|He']%elem_of_cons; [|by apply Hout].
    split; [by apply (gr_out _ _ Hg)|]. exists d1. by apply (gr_depth _ _ Hg). }
  pose proof Hex as [Hb Hbo Hnode HD Hhops].
  destruct (take_edge q node e b) as [|reason|b' other] eqn:Et.
  - assert (He : e ∈ b_out b).
    { unfold take_edge in Et. destruct (decide _) as [Hin|]; [by eapply seen_edge|repeat case_match; done]. }
    apply Hrest; [done|by split|done|]. apply (bi_dom _ _ Hb).
    destruct (bi_out _ _ Hb e He) as (? & ? & _).
    apply accepted_ends in Ha as (_ & _ & _ & _ & [-> | ->]); done.
  - apply t_finish_safe; [done|]. intros Hr. by apply Stop_reason in Et.
  - destruct (take_edge_ok q b head node D e b' other Hex Hi Ha Et) as (-> & Hb' & Hg & Hd & He & Hnext).
    unfold is_target. destruct (tq_Target q) as [t|] eqn:Ht.
    + destruct (bool_decide (other_end node e = t)) eqn:E.
      * apply bool_decide_eq_true in E as <-. destruct (Hone _ eq_refl) as [s Hs]. by eapply t_found_safe.
      * apply bool_decide_eq_false in E. apply Hrest; try done. apply Hnext. congruence.
    + apply Hrest; try done. by apply Hnext.
Qed.

(** ** The nodes of the queue *)

Lemma safe_examined {A} (k : Z → act world gerror A) P : (∀ n, safe (k n) P) → safe (abind examined_now k) P.
Proof.
  intros Hk. split.
  - intros w a w' E. unfold abind, examined_now in E. by eapply (proj1 (Hk (examined w))).
  - intros w. apply (proj2 (Hk (examined w))).
Qed.

Lemma Neighbors_safe node done :
  safe (Neighbors time_at work (λ _, aret (traversalView view)) ns (hop q node done)) (neighbors_post (hop q node done)).
Proof.
  split; [apply Neighbors_post; intros ?|apply Neighbors_stops; split].
  - apply returns_aret. by apply traversalView_laws.
  - apply returns_aret. by apply traversalView_laws.
  - apply aret_halts.
Qed.

Lemma border_next b head node D : expanding q b head node D → 
  (∀ e v, link q node e v → e ∈ b_out b ∧ is_Some (b_depth b !! v)) → border q b (S head).
Proof.
  intros [Hb [] Hnode HD _] Hclosed. split; try done.
  - intros u du v dv Hu Hdu Hdv. pose proof (bo_gap node D v dv Hnode HD Hdv).
    assert (D ≤ du) by (eapply (bo_mono head (S head)); [lia|done..]). lia.
  - intros i u e v Hi Hu Hl. destruct (decide (i = head)) as [->|].
    + rewrite Hnode in Hu. injection Hu as <-. by destruct (Hclosed e v Hl).
    + eapply bo_closed; [|done|done]. lia.
Qed.

Lemma head_loop_safe f : ∀ head b,
  (∀ t, tq_Target q = Some t → ∃ s, tq_Seeds q = [s]) →
  binv q b → border q b head → l_Nodes (tq_Limits q) ≤ Z.of_nat (head + f) →
  safe (head_loop time_at context work ns q f view head b) traverse_post.
Proof.
  induction f as [|f IH]; intros head b Hone Hb Hbo Hf; cbn [head_loop];
    destruct (b_queue b !! head) as [node|] eqn:Hnode.
  1: { apply lookup_lt_Some in Hnode. pose proof (bi_lnodes _ _ Hb). lia. }
  1, 3: apply t_finish_safe; [done|]; intros _; pose proof (all_known q b head Hb Hbo Hnode) as Hall;
      unfold exhausted; destruct (tq_Target q) as [t|] eqn:Ht; [|exact Hall];
      intros n Hn; destruct (Hall n t Hn) as [[d Hd] _]; rewrite (bo_target _ _ _ Hbo t Ht) in Hd; done.
  apply safe_poll. intros werr. apply safe_if; [by apply t_finish_safe|].
  assert (Hin : node ∈ b_queue b) by by eapply list_elem_of_lookup_2.
  destruct (proj1 (bi_dom _ _ Hb node) Hin) as [D HD]. rewrite HD. change (default 0 (Some D)) with D.
  destruct (bi_depth _ _ Hb node D HD) as [HDr Hreach].
  destruct (Z.eqb_spec D (tq_MaxHops q)) as [|Hhops]; [by apply t_finish_safe|].
  apply safe_examined. intros count. apply safe_if; [by apply t_finish_safe|].
  eapply safe_catch; [apply Neighbors_safe|by intros err; apply t_fail_safe|].
  intros next Hnext. assert (Hex : expanding q b head node D) by (split; try done; lia).
  eapply edges_loop_safe; [done|exact Hex|apply (np_edges _ _ Hnext)|].
  intros b' Hex' _ Hout. pose proof Hex' as [Hb' Hbo' Hnode' HD' _].
  destruct (res_Truncated next) eqn:Htr.
  - apply t_finish_safe; [done|]. rewrite (np_truncated _ _ Hnext) in Htr.
    apply negb_true_iff, String.eqb_neq in Htr. by destruct (String.eqb (res_StopReason next) "edges").
  - apply IH; [done|done| |lia]. eapply border_next; [done|]. intros e v (Hi & Ha & ->).
    apply Hout. destruct (np_complete _ _ Hnext Htr) as [_ Hall]. apply Hall; [done|done|].
    by eapply reach_vis.
Qed.
(** ** The seeds *)

Lemma compact_sorted l : StronglySorted ref_le l → NoDup (compact l) ∧ ∀ v, v ∈ compact l ↔ v ∈ l.
Proof.
  induction l as [|a [|b l] IH]; intros Hs.
  - split; [constructor|done].
  - split; [apply NoDup_singleton|done].
  - apply StronglySorted_inv in Hs as [Hs Ha]. destruct (IH Hs) as [Hnd Hin].
    cbn [compact]. destruct (decide (a = b)) as [->|Hne].
    + split; [done|]. intros v. rewrite Hin, !elem_of_cons. tauto.
    + split; [|intros v; by rewrite elem_of_cons, Hin, (elem_of_cons (b :: l))].
      constructor; [|done]. rewrite Hin. intros Hab. apply Hne.
      apply (anti_symm ref_le).
      * by apply Forall_cons in Ha as [? _].
      * apply elem_of_cons in Hab as [->|Hab]; [by destruct (total ref_le b b)|].
        apply StronglySorted_inv in Hs as [_ Hb]. by apply (proj1 (Forall_forall _ _) Hb).
Qed.

(** While the seeds enter: they are all at depth 0, and none enters twice. *)
Record sinv (b : bfs) (rest : list Ref) : Prop := Sinv {
  si_binv : binv q b;
  si_zero : ∀ v d, b_depth b !! v = Some d → d = 0;
  si_seeds : ∀ s, s ∈ tq_Seeds q → vis s = true → s ∈ rest ∨ b_depth b !! s = Some 0;
  si_rest : ∀ v, v ∈ rest → v ∈ tq_Seeds q ∧ v ∉ b_queue b;
  si_target : ∀ t, tq_Target q = Some t → b_depth b !! t = None }.

Lemma seed_enters b s rest : 0 ≤ tq_MaxHops q → sinv b (s :: rest) → NoDup (s :: rest) → vis s = true →
  Z.of_nat (size (b_depth b)) ≠ l_Nodes (tq_Limits q) →
  let b' := Bfs (b_queue b ++ [s]) (<[s := 0]> (b_depth b)) (b_parent b) (b_via b) (b_edges b)
              (b_nodes b ++ [s]) (b_out b) in
  binv q b' ∧ (tq_Target q ≠ Some s → sinv b' rest).
Proof.
  intros Hh [Hb Hzero Hseeds Hrest Htarget] [Hnr Hndr]%NoDup_cons Hvis Hsize. cbv zeta.
  rewrite (size_depth q b Hb) in Hsize. destruct (Hrest s ltac:(by left)) as [Hs Hnq].
  assert (Hold : ∀ v d, <[s := 0]> (b_depth b) !! v = Some d → d = 0).
  { intros v d. destruct (decide (v = s)) as [->|?].
    - rewrite lookup_insert_eq. by intros [= <-].
    - rewrite lookup_insert_ne by done. apply Hzero. }
  assert (Hb' : binv q (Bfs (b_queue b ++ [s]) (<[s := 0]> (b_depth b)) (b_parent b) (b_via b) (b_edges b)
                          (b_nodes b ++ [s]) (b_out b))).
  { destruct Hb. split; cbn [b_queue b_depth b_parent b_via b_edges b_nodes b_out]; try done.
    - by rewrite bi_nodes.
    - apply NoDup_app. split_and!; [done| |apply NoDup_singleton]. intros x Hx. rewrite list_elem_of_singleton. by intros ->.
    - intros x. rewrite elem_of_app, list_elem_of_singleton, bi_dom. destruct (decide (x = s)) as [->|Hx].
      + rewrite lookup_insert_eq. split; [eauto|by right].
      + rewrite lookup_insert_ne by done. split; [by intros [?|?]|by left].
    - intros x d Hd. pose proof (Hold x d Hd) as ->. split; [lia|]. revert Hd.
      destruct (decide (x = s)) as [->|Hx]; [|rewrite lookup_insert_ne by done; apply bi_depth].
      intros _. exists s. split_and!; [done|done|apply walk_here].
    - intros x d n Hd _. rewrite (Hold x d Hd). lia.
    - intros x d Hd Hz. destruct Hz. by eapply Hold.
    - intros e He. destruct (bi_out e He) as (? & ? & u & ? & ? & ?). rewrite !elem_of_app.
      split_and!; try tauto. exists u. rewrite elem_of_app. tauto.
    - rewrite length_app. simpl. lia. }
  split; [done|]. intros Ht. split; cbn [b_queue b_depth]; try done.
  - intros x Hx Hv. destruct (decide (x = s)) as [->|Hne]; [right; apply lookup_insert_eq|].
    rewrite lookup_insert_ne by done. destruct (Hseeds x Hx Hv) as [[->|?]%elem_of_cons|?]; auto; done.
  - intros v Hv. destruct (Hrest v ltac:(by right)) as [? ?]. split; [done|].
    rewrite elem_of_app, list_elem_of_singleton. intros [?| ->]; done.
  - intros t Hqt. rewrite lookup_insert_ne by congruence. auto.
Qed.

Lemma seeds_done b : sinv b [] → border q b 0.
Proof.
  intros [Hb Hzero Hseeds _ Htarget]. split.
  - intros i j u v du dv _ _ _ Hu Hv. apply Hzero in Hu as ->, Hv as ->. done.
  - intros u du v dv _ Hu Hv. apply Hzero in Hu as ->, Hv as ->. lia.
  - intros i u e v Hi. lia.
  - intros s Hs Hv. by destruct (Hseeds s Hs Hv) as [?%elem_of_nil|?].
  - done.
Qed.

Lemma seeds_loop_safe rest : ∀ b,
  0 ≤ tq_MaxHops q → (∀ t, tq_Target q = Some t → ∃ s, tq_Seeds q = [s]) →
  sinv b rest → NoDup rest →
  safe (seeds_loop context work q view rest b (head_loop time_at context work ns q (head_fuel q) view 0)) traverse_post.
Proof.
  induction rest as [|s rest IH]; intros b Hh Hone Hs Hnd; cbn [seeds_loop].
  { apply head_loop_safe; [done|apply Hs|by apply seeds_done|]. unfold head_fuel. lia. }
  pose proof (si_binv _ _ Hs) as Hb.
  apply (safe_catch _ _ _ (λ v, v = vis s)); [split; [apply Visible_ok|apply Visible_stops]|by intros err; apply t_fail_safe|].
  intros visible ->. destruct (vis s) eqn:Hv; cbn [negb].
  2: { apply IH; [done|done| |by apply NoDup_cons in Hnd as [_ ?]]. destruct Hs. split; try done.
       - intros x Hx Hvx. destruct (si_seeds0 x Hx Hvx) as [[->|?]%elem_of_cons|?]; [congruence|auto|auto].
       - intros x Hx. apply si_rest0. by right. }
  destruct (Z.eqb_spec (Z.of_nat (size (b_depth b))) (l_Nodes (tq_Limits q))) as [|Hn]; [by apply t_finish_safe|].
  destruct (seed_enters b s rest Hh Hs Hnd Hv Hn) as [Hb' Hs'].
  apply NoDup_cons in Hnd as [_ Hnd]. unfold is_target. destruct (tq_Target q) as [t|] eqn:Ht; [|by apply IH, Hnd; [..|apply Hs']].
  destruct (bool_decide (s = t)) eqn:E.
  - apply bool_decide_eq_true in E as <-. destruct (Hone _ eq_refl) as [s' Hs1]. eapply t_found_safe; [done|done|done|].
    cbn [b_depth]. rewrite lookup_insert_eq. eauto.
  - apply bool_decide_eq_false in E. apply IH; [done|done| |done]. apply Hs'. congruence.
Qed.

Lemma start_binv : 0 ≤ l_Nodes (tq_Limits q) → 0 ≤ l_Edges (tq_Limits q) → binv q start.
Proof.
  intros. split; cbn; try done; try (by intros ? ?%elem_of_nil); try constructor.
  - by intros ?%elem_of_nil.
  - rewrite lookup_empty. by intros [? ?].
Qed.

Lemma traverse_view_safe : invalid_traversal q = false →
  safe (traverse_view time_at context work ns q view) traverse_post.
Proof.
  unfold invalid_traversal. rewrite !orb_false_iff, negb_false_iff. intros [[[[_ _] Htq] _] Hlim].
  unfold ValidateTraversalLimits, valid_limits, in_range in Hlim. rewrite !andb_true_iff, !Z.leb_le in Hlim.
  destruct Hlim as [[[[[Hh _] _] [[[Hn _] [He _]] _]] _] _].
  assert (Hone : ∀ t, tq_Target q = Some t → ∃ s, tq_Seeds q = [s]).
  { intros t Ht. rewrite Ht in Htq. apply orb_false_iff in Htq as [Hl%negb_false_iff%Nat.eqb_eq _].
    destruct (tq_Seeds q) as [|s [|]]; [done|eauto|done]. }
  pose proof (start_binv ltac:(lia) ltac:(lia)) as Hstart.
  destruct (sorted_nodes (tq_Seeds q)) as [Pm Sm]. destruct (compact_sorted _ Sm) as [Hnd Hin].
  assert (Hsearch : safe (seeds_loop context work q view (compact (merge_sort ref_le (tq_Seeds q))) start
      (head_loop time_at context work ns q (head_fuel q) view 0)) traverse_post).
  { apply seeds_loop_safe; [lia|done| |done]. split; [done|by intros v d|..].
    - intros s Hs _. left. by rewrite Hin, Pm.
    - intros v Hv. rewrite Hin, Pm in Hv. split; [done|by intros ?%elem_of_nil].
    - intros t _. apply lookup_empty. }
  unfold traverse_view. destruct (tq_Target q) as [t|] eqn:Ht; [|exact Hsearch].
  apply (safe_catch _ _ _ (λ v, v = vis t)); [split; [apply Visible_ok|apply Visible_stops]|by intros err; apply (t_fail_safe start)|].
  intros visible ->. destruct (vis t) eqn:Hv; cbn [negb]; [exact Hsearch|].
  apply (t_finish_safe start); [done|]. intros _. unfold exhausted. rewrite Ht. intros n Hr%reach_vis. congruence.
Qed.
End Traverse.

Lemma Traverse_safe {SE : EdgeSort} {G : GraphSource} {GL : GraphLaws G} time_at context index ns q :
  opens (index ns) → safe (Traverse time_at context index ns q) (traverse_post q).
Proof.
  intros [Hl Hs]. unfold Traverse. destruct (invalid_traversal q) eqn:Hi; [apply safe_afail|].
  assert (Hb : binv q start).
  { unfold invalid_traversal, ValidateTraversalLimits, valid_limits, in_range in Hi.
    apply start_binv; lia. }
  assert (Hgen : ∀ work, safe
    (do! e := poll context in
     match e with
     | Some e => afail (CtxErr e)
     | None => catch (index ns) (t_fail context work q [] []) (traverse_view time_at context work ns q)
     end) (traverse_post q)).
  { intros work. apply safe_poll. intros [e|]; [apply safe_afail|].
    eapply safe_catch; [by split|by intros err; apply (t_fail_safe context work q start)|].
    intros view Hview. by apply traverse_view_safe. }
  split.
  - intros w r w' E. by apply (proj1 (Hgen (with_timeout time_at context (time_at (clock w)) (l_Elapsed (tq_Limits q)))) _ _ _ E).
  - intros w. apply (proj2 (Hgen _)).
Qed.
