(* ===== verification/GraphTheorems.v ===== *)
(** * Theorems on the reading of the graph *)
From Stdlib Require Import ZArith Lia Ascii String.
From stdpp Require Import base gmap strings list sorting.
From S2P Require Import Prelude GoStrings SchemaIdent Graph GraphFacts GraphSearch GraphTraverse.
Local Open Scope Z_scope.

(** ** The budget of work *)

(** It leaves the count of examined candidates within [K]. *)
Definition below {A} (K : Z) (m : act world gerror A) : Prop :=
  ∀ w, examined w ≤ K → examined (m w).2 ≤ K.

Lemma examines_below {A} K (m : act world gerror A) : examines 0 m → below K m.
Proof. intros H w Hw. specialize (H w). lia. Qed.

Lemma below_catch {A B} K (m : act world gerror A) h (k : A → act world gerror B) :
  below K m → (∀ e, below K (h e)) → (∀ a, below K (k a)) → below K (catch m h k).
Proof.
  intros Hm Hh Hk w Hw. unfold catch. specialize (Hm w Hw). destruct (m w) as [[a|e|] w1]; [by apply Hk|by apply Hh|done].
Qed.

Lemma below_if {A} K (b : bool) (m1 m2 : act world gerror A) : below K m1 → below K m2 → below K (if b then m1 else m2).
Proof. by destruct b. Qed.

Section Work.
Context {SE : EdgeSort} {G : GraphSource} (time_at : nat → Z) (context work : ctx) (ns : string) (q : TraversalQuery).
Context (view : Snapshot) {VL : SnapshotLaws view} {CL : CounterLaws view}.
Let K := tq_MaxWork q.

Lemma t_finish_below nodes edges reason : below K (t_finish context work q nodes edges reason).
Proof.
  apply examines_below, examines_poll. intros [e|]; [apply examines_afail|]. apply examines_poll. intros o. apply examines_aret.
Qed.

Lemma t_fail_below nodes edges err : below K (t_fail context work q nodes edges err).
Proof.
  apply examines_below, examines_poll. intros [e|]; [apply examines_afail|]. apply examines_poll.
  intros [e|]; [|apply examines_afail].
  apply examines_poll. intros [e'|]; [apply examines_afail|]. apply examines_poll. intros o. apply examines_aret.
Qed.

Lemma t_found_below b t : below K (t_found context work q b t).
Proof.
  unfold t_found. destruct (walk_back _ _ _ _) as [[es ms]|]; [|by intros w].
  intros w Hw. unfold abind at 1, poll at 1. destruct (context (clock w)); [done|].
  unfold abind at 1, poll at 1. destruct (work _); [by apply t_finish_below|done].
Qed.

Lemma edges_loop_below node k es : ∀ b, (∀ b', below K (k b')) → below K (edges_loop context work q node es b k).
Proof.
  induction es as [|e es IH]; intros b Hk; cbn [edges_loop]; [apply Hk|].
  destruct (take_edge _ _ _ _); [by apply IH|apply t_finish_below|].
  apply below_if; [apply t_found_below|by apply IH].
Qed.

Lemma head_loop_below f : ∀ head b, below K (head_loop time_at context work ns q f view head b).
Proof.
  induction f as [|f IH]; intros head b; cbn [head_loop]; destruct (b_queue b !! head) as [node|];
    [by intros w|apply t_finish_below| |apply t_finish_below].
  intros w Hw. unfold abind at 1, poll at 1.
  enough (H : ∀ werr, below K
    (if bool_decide (werr ≠ (None : option ctx_error)) then t_finish context work q (b_nodes b) (b_out b) "elapsed"
     else if default 0 (b_depth b !! node) =? tq_MaxHops q then t_finish context work q (b_nodes b) (b_out b) "hops"
     else do! done := examined_now in
       if tq_MaxWork q <=? done then t_finish context work q (b_nodes b) (b_out b) "work"
       else catch (Neighbors time_at work (λ _, aret (traversalView view)) ns (hop q node done))
              (t_fail context work q (b_nodes b) (b_out b)) (λ next,
            edges_loop context work q node (res_Edges next) b (λ b,
              if res_Truncated next
              then t_finish context work q (b_nodes b) (b_out b)
                     (if String.eqb (res_StopReason next) "edges" then "work" else res_StopReason next)
              else head_loop time_at context work ns q f view (S head) b)))) by (by apply H).
  clear w Hw. intros werr. repeat (apply below_if; [apply t_finish_below|]).
  intros w Hw. unfold abind at 1, examined_now at 1.
  destruct (tq_MaxWork q <=? examined w) eqn:Hle; [by apply t_finish_below|]. apply Z.leb_gt in Hle.
  unfold catch. pose proof (Neighbors_examines time_at work view ns (hop q node (examined w)) VL CL w) as Hx.
  cbn [hop q_Limits l_Edges] in Hx. rewrite Z.max_r in Hx by lia.
  destruct (Neighbors _ _ _ _ _ w) as [[next|e|] w1]; cbn [snd] in Hx |- *; [| |unfold K; lia].
  - apply edges_loop_below; [|unfold K; lia]. intros b'. apply below_if; [apply t_finish_below|apply IH].
  - apply t_fail_below. unfold K. lia.
Qed.

Lemma seeds_loop_below rest : ∀ b, below K
  (seeds_loop context work q view rest b (head_loop time_at context work ns q (head_fuel q) view 0)).
Proof.
  induction rest as [|s rest IH]; intros b; cbn [seeds_loop]; [apply head_loop_below|].
  apply below_catch; [apply examines_below, Visible_counts|intros; apply t_fail_below|]. intros visible.
  apply below_if; [apply IH|]. apply below_if; [apply t_finish_below|].
  cbv zeta. apply below_if; [apply t_found_below|apply IH].
Qed.

Lemma traverse_view_below : below K (traverse_view time_at context work ns q view).
Proof.
  unfold traverse_view. destruct (tq_Target q); [|apply seeds_loop_below].
  apply below_catch; [apply examines_below, Visible_counts|intros; apply t_fail_below|]. intros visible.
  apply below_if; [apply t_finish_below|apply seeds_loop_below].
Qed.
End Work.

(** An action that opens lawful snapshots and leaves the count of work alone. *)
Record opens_view `{GraphSource} (m : act world gerror Snapshot) : Prop := OpensView {
  ov_opens : opens m;
  ov_counts : returns m CounterLaws;
  ov_examines : examines 0 m }.

(** ** The theorems *)

Section Theorems.
Context {SE : EdgeSort} {G : GraphSource} {GL : GraphLaws G} (time_at : nat → Z) (context : ctx) (index : Index) (ns : string).

(** One hop shows nothing it should not: every edge [Neighbors] returns is
    incident to the node in the direction asked for, of a type asked for, and
    it and both its ends are visible; every returned node is visible and is the
    node or an end of a returned edge, and no returned edge lacks an end; and
    both lists are sorted and within their limits. *)
Theorem Neighbors_sound (q : Query) (w w' : world) (r : Result)
    (Hindex : ∀ ns, returns (index ns) SnapshotLaws)
    (H : Neighbors time_at context index ns q w = (Done r, w')) :
  (∀ e, e ∈ res_Edges r →
     e ∈ incident (q_Node q) (q_Direction q) ∧ wrong_way q e = false ∧ wrong_type q e = false
     ∧ vis (e_Ref e) = true ∧ vis (e_Source e) = true ∧ vis (e_Target e) = true
     ∧ e_Source e ∈ res_Nodes r ∧ e_Target e ∈ res_Nodes r)
  ∧ (∀ n, n ∈ res_Nodes r → vis n = true ∧ vis (q_Node q) = true
       ∧ (n = q_Node q ∨ ∃ e, e ∈ res_Edges r ∧ (n = e_Source e ∨ n = e_Target e)))
  ∧ NoDup (res_Nodes r) ∧ StronglySorted ref_le (res_Nodes r) ∧ StronglySorted edge_le (res_Edges r)
  ∧ Z.of_nat (length (res_Nodes r)) ≤ l_Nodes (q_Limits q)
  ∧ Z.of_nat (length (res_Edges r)) ≤ l_Edges (q_Limits q).
Proof.
  apply (Neighbors_post time_at context index ns q Hindex) in H. destruct H.
  split_and!; try apply np_sorted; try apply np_limits; try done.
  - intros e He. destruct (np_edges e He) as [? Ha]. unfold accepted, shown in Ha.
    rewrite !andb_true_iff, !negb_true_iff in Ha. destruct (np_ends e He). tauto.
  - intros n Hn. destruct (np_vis n Hn). auto.
Qed.

(** One hop hides nothing it should show: when [Neighbors] says it is not
    truncated, it returns every incident edge in the direction and of the
    types asked for that is visible with its ends; it returns the node itself
    exactly if the node is visible; and it says so exactly when its reason is
    "complete". *)
Theorem Neighbors_complete (q : Query) (w w' : world) (r : Result)
    (Hindex : ∀ ns, returns (index ns) SnapshotLaws)
    (H : Neighbors time_at context index ns q w = (Done r, w')) :
  (res_Truncated r = false ↔ res_StopReason r = "complete")
  ∧ (res_Truncated r = false →
      (q_Node q ∈ res_Nodes r ↔ vis (q_Node q) = true)
      ∧ ∀ e, e ∈ incident (q_Node q) (q_Direction q) → accepted q e = true → vis (q_Node q) = true →
          e ∈ res_Edges r).
Proof.
  apply (Neighbors_post time_at context index ns q Hindex) in H. destruct H. split; [|done].
  by rewrite np_truncated, negb_false_iff, String.eqb_eq.
Qed.

(** A traversal always returns, whatever the graph, its cycles, the
    context and the faults of the storage: the turns of its loop are at most
    its limit of nodes, and the steps of its path back at most the target's
    depth.  And it examines no more candidates than its budget. *)
Theorem Traverse_returns (q : TraversalQuery) (w : world) (Hopen : opens_view (index ns)) :
  ((∃ r, (Traverse time_at context index ns q w).1 = Done r)
   ∨ (∃ e, (Traverse time_at context index ns q w).1 = Fail e))
  ∧ (invalid_traversal q = false → examined (Traverse time_at context index ns q w).2 ≤ tq_MaxWork q).
Proof.
  destruct Hopen as [Ho Hc Hx]. split.
  - pose proof (proj2 (Traverse_safe time_at context index ns q Ho) w) as Hs.
    destruct (Traverse time_at context index ns q w) as [[r|e|] w1]; simpl in *; eauto; done.
  - intros Hi. unfold Traverse. rewrite Hi. cbv zeta.
    generalize (with_timeout time_at context (time_at (clock w)) (l_Elapsed (tq_Limits q))). intros work.
    assert (Hb : below (tq_MaxWork q) (do! e := poll context in
      match e with
      | Some e => afail (CtxErr e)
      | None => catch (index ns) (t_fail context work q [] []) (traverse_view time_at context work ns q)
      end)).
    { intros w0 Hw0. unfold abind at 1, poll at 1. destruct (context (clock w0)); [done|].
      unfold catch. specialize (Hx (tick w0)). destruct (index ns (tick w0)) as [[view|e|] w1] eqn:E; simpl in Hx.
      - apply traverse_view_below; [by eapply (op_laws _ Ho)|by eapply Hc|lia].
      - apply t_fail_below. lia.
      - simpl. lia. }
    apply Hb. unfold invalid_traversal, ValidateTraversalLimits, in_range in Hi. simpl. lia.
Qed.

(** The subgraph around the seeds: every returned node can be reached from
    a visible seed over at most [MaxHops] visible links, every returned edge is
    such a link between returned nodes, no node and no edge is returned twice,
    and the limits hold; and when the result is not truncated it is the whole
    of what can be reached, at any distance, with all of its links. *)
Theorem Traverse_subgraph (q : TraversalQuery) (w w' : world) (r : Result)
    (Hopen : opens (index ns)) (Hsub : tq_Target q = None)
    (H : Traverse time_at context index ns q w = (Done r, w')) :
  (∀ v, v ∈ res_Nodes r → ∃ n, Z.of_nat n ≤ tq_MaxHops q ∧ reach q n v)
  ∧ (∀ e, e ∈ res_Edges r → e_Source e ∈ res_Nodes r ∧ e_Target e ∈ res_Nodes r
       ∧ ∃ u, u ∈ res_Nodes r ∧ link q u e (other_end u e))
  ∧ NoDup (res_Nodes r) ∧ NoDup (map e_Ref (res_Edges r))
  ∧ Z.of_nat (length (res_Nodes r)) ≤ l_Nodes (tq_Limits q)
  ∧ Z.of_nat (length (res_Edges r)) ≤ l_Edges (tq_Limits q)
  ∧ (res_StopReason r = "complete" →
       (∀ v, v ∈ res_Nodes r ↔ ∃ n, reach q n v)
       ∧ ∀ n u e v, reach q n u → link q u e v → e ∈ res_Edges r).
Proof.
  apply (proj1 (Traverse_safe time_at context index ns q Hopen)) in H as [Ht H]. rewrite Hsub in H. destruct H.
  split_and!; try apply sp_distinct; try apply sp_limits; try done.
  - intros e He. destruct (sp_edges e He) as (? & ? & u & ? & ? & ?). split_and!; [done|done|].
    exists u. by split_and!.
  - intros Hc. rewrite Hc in Ht. destruct (sp_complete Ht) as [Hn He]. split; [|done].
    intros v. split; [|by intros [n ?]; eapply Hn].
    intros (n & _ & ?)%sp_nodes. by exists n.
Qed.

(** C16. The path found is a path, and a shortest one: its edges lead, visible
    link by visible link, from the source to the target through its nodes, in
    at most [MaxHops] of them, and no other way from the source to the target
    is shorter, however long the search could have gone on.  An empty answer
    is only called complete when there is no path at all. *)
Theorem Traverse_shortest_path (q : TraversalQuery) (t : Ref) (w w' : world) (r : Result)
    (Hopen : opens (index ns)) (Htarget : tq_Target q = Some t)
    (H : Traverse time_at context index ns q w = (Done r, w')) :
  (res_Nodes r = [] → res_Edges r = [] ∧ (res_StopReason r = "complete" → ∀ n, ¬ reach q n t))
  ∧ (res_Nodes r ≠ [] →
       res_StopReason r = "complete" ∧ Z.of_nat (length (res_Edges r)) ≤ tq_MaxHops q
       ∧ (∀ n, reach q n t → (length (res_Edges r) ≤ n)%nat)
       ∧ ∃ s, tq_Seeds q = [s] ∧ vis s = true ∧ path q s (res_Nodes r) (res_Edges r) t).
Proof.
  apply (proj1 (Traverse_safe time_at context index ns q Hopen)) in H as [Ht H]. rewrite Htarget in H.
  destruct H as [(Hn & He & Hc)|(Htr & Hh & Hs & s & Hseed & Hv & Hp)].
  - split; [|done]. intros _. split; [done|]. intros Hr. rewrite Hr in Ht. auto.
  - split.
    + intros Hn. exfalso. destruct Hp; simpl in Hn; [done|]. by apply app_nil in Hn as [_ ?].
    + intros _. rewrite Htr in Ht. symmetry in Ht. apply negb_false_iff, String.eqb_eq in Ht.
      split_and!; [done|done|done|by exists s].
Qed.
End Theorems.

(** ** A concrete graph *)

Section Pure.
Context {G : GraphSource}.

(** A snapshot held in memory: it always answers, from the graph. *)
Definition pure_view : Snapshot := MkSnapshot
  (λ r w, (Done (vis r), tick w))
  (λ r d limit w, let all := incident r d in
     (Done (take (Z.to_nat limit) all, limit <? Z.of_nat (length all)), tick w)).
Definition pure_index : Index := λ _, aret pure_view.

#[export] Instance pure_view_laws : SnapshotLaws pure_view.
Proof.
  split.
  - by intros r w b w' [= <- <-].
  - intros r d limit Hl w x w' [= <- <-]. cbn [fst snd]. split_and!.
    + intros e He. apply (list_elem_of_In) in He. apply list_elem_of_In.
      rewrite <-(take_drop (Z.to_nat limit) (incident r d)). apply in_or_app. by left.
    + rewrite length_take. lia.
    + intros Hm%Z.ltb_ge e He. by rewrite take_ge by lia.
  - by intros r w.
  - by intros r d limit w.
Qed.

Lemma pure_index_opens ns : opens_view (pure_index ns).
Proof.
  split; [split|..].
  - apply returns_aret. apply pure_view_laws.
  - by intros w.
  - apply returns_aret. split; intros; intros w; simpl; lia.
  - intros w. simpl. lia.
Qed.
End Pure.

Definition person (i : Z) : Ref := MkRef "people" i.
Definition knows (i a b : Z) : Edge := MkEdge (MkRef "knows" i) (person a) (person b) "friend".
(** 1 -> 2 -> 3 -> 1, with 4, which is hidden, after 2. *)
Definition sample_edges : list Edge := [knows 1 1 2; knows 2 2 3; knows 3 3 1; knows 4 2 4].
#[export] Instance sample_graph : GraphSource :=
  {| vis := λ r, negb (bool_decide (r = person 4));
     incident := λ r _, List.filter (λ e, bool_decide (e_Source e = r ∨ e_Target e = r)) sample_edges |}.

#[export] Instance sample_laws : GraphLaws sample_graph.
Proof.
  split. intros u v d d' e e' He He' Hr.
  apply list_elem_of_In, List.filter_In in He as [He%list_elem_of_In _].
  apply list_elem_of_In, List.filter_In in He' as [He'%list_elem_of_In _].
  unfold sample_edges in *. rewrite !elem_of_cons in He, He'.
  destruct He as [->|[->|[->|[->|?%elem_of_nil]]]], He' as [->|[->|[->|[->|?%elem_of_nil]]]];
    done || discriminate Hr.
Qed.

(** The samples sort with the stable sort. *)
#[local] Existing Instance stable_edges.

Definition sample_limits : Limits := MkLimits 10 10 second.
Definition sample_query : Query := MkQuery (person 2) "out" [] sample_limits.
Definition sample_traversal (t : option Ref) : TraversalQuery :=
  MkTraversal [person 1] t "out" [] sample_limits 5 100.
Definition still : nat → Z := λ _, 0.

Definition hop_result : Result := MkResult [person 2; person 3] [knows 2 2 3] false "complete".
Definition subgraph_result : Result :=
  MkResult [person 1; person 2; person 3] [knows 1 1 2; knows 2 2 3; knows 3 3 1] false "complete".
Definition path_result : Result :=
  MkResult [person 1; person 2; person 3] [knows 1 1 2; knows 2 2 3] false "complete".

Lemma hop_runs :
  Neighbors still background pure_index "ns" sample_query (World 0 0) = (Done hop_result, World 14 0).
Proof. vm_compute. reflexivity. Qed.
Lemma subgraph_runs :
  Traverse still background pure_index "ns" (sample_traversal None) (World 0 0) = (Done subgraph_result, World 41 7).
Proof. vm_compute. reflexivity. Qed.
Lemma path_runs :
  Traverse still background pure_index "ns" (sample_traversal (Some (person 3))) (World 0 0)
  = (Done path_result, World 31 5).
Proof. vm_compute. reflexivity. Qed.

Lemma pure_index_laws (ns : string) : returns (pure_index ns) SnapshotLaws.
Proof. apply (op_laws _ (ov_opens _ (pure_index_opens ns))). Qed.

Lemma Neighbors_sound_witness : vis (person 3) = true ∧ NoDup (res_Nodes hop_result).
Proof.
  destruct (Neighbors_sound still background pure_index "ns" sample_query _ _ hop_result pure_index_laws hop_runs)
    as (_ & Hn & Hnd & _).
  split; [|exact Hnd]. destruct (Hn (person 3) ltac:(right; left)) as [Hv _]. exact Hv.
Defined.

Lemma Neighbors_complete_witness : person 2 ∈ res_Nodes hop_result.
Proof.
  destruct (Neighbors_complete still background pure_index "ns" sample_query _ _ hop_result pure_index_laws hop_runs)
    as [_ Hc].
  apply (proj1 (Hc eq_refl)). reflexivity.
Defined.

Lemma Traverse_returns_witness :
  invalid_traversal (sample_traversal None) = false
  ∧ examined (Traverse still background pure_index "ns" (sample_traversal None) (World 0 0)).2 ≤ 100.
Proof.
  split; [reflexivity|].
  exact (proj2 (Traverse_returns still background pure_index "ns" (sample_traversal None) (World 0 0)
    (pure_index_opens "ns")) eq_refl).
Defined.

Lemma Traverse_subgraph_witness :
  (∃ n, reach (sample_traversal None) n (person 3)) ∧ ¬ ∃ n, reach (sample_traversal None) n (person 4).
Proof.
  destruct (Traverse_subgraph still background pure_index "ns" (sample_traversal None) _ _ subgraph_result
    (ov_opens _ (pure_index_opens "ns")) eq_refl subgraph_runs) as (_ & _ & _ & _ & _ & _ & Hc).
  split; [apply (proj1 (proj1 (Hc eq_refl) (person 3))); right; right; left|].
  intros Hr. apply (proj1 (Hc eq_refl)) in Hr. cbn [subgraph_result res_Nodes] in Hr.
  rewrite !elem_of_cons in Hr. destruct Hr as [Hr|[Hr|[Hr|Hr]]]; [discriminate Hr..|].
  apply not_elem_of_nil in Hr. exact Hr.
Defined.

Lemma Traverse_shortest_path_witness :
  path (sample_traversal (Some (person 3))) (person 1) (res_Nodes path_result) (res_Edges path_result) (person 3)
  ∧ ∀ n, reach (sample_traversal (Some (person 3))) n (person 3) → (2 ≤ n)%nat.
Proof.
  destruct (Traverse_shortest_path still background pure_index "ns" (sample_traversal (Some (person 3))) (person 3)
    _ _ path_result (ov_opens _ (pure_index_opens "ns")) eq_refl path_runs) as [_ Hp].
  destruct (Hp ltac:(discriminate)) as (_ & _ & Hs & s & Hseed & _ & Hpath). split; [|exact Hs].
  injection Hseed as <-. exact Hpath.
Defined.
