(* ===== verification/Authz.v ===== *)
(** * Authorization of operations ([internal/api/authz.go], [scope.go])

    The rule table, the object an operation acts on, and the decisions the
    server takes before it runs one: the verbs the caller must hold, the
    reveal check, the reads a constrained write needs, and the row scope the
    store is then asked to apply.  Decisions read the grant registry and the
    engine's table states; the engine is read at numbered instants, so a table
    may change between two reads of one request. *)
From Stdlib Require Import ZArith Lia Ascii String.
From stdpp Require Import base gmap strings list.
From S2P Require Import Prelude GoStrings AuthVerbs AuthIdentity AuthRegistry SchemaIdent Schema SchemaConstraints.
Local Open Scope Z_scope.

(** ** The rules *)

Inductive authScope :=
| scopeNone | scopeRoot | scopeParentNamespace | scopeNamespace | scopeTable
| scopeTableOrNamespace | scopeGrantObject.
#[global] Instance authScope_eq_dec : EqDecision authScope.
Proof. solve_decision. Defined.

Record authRule := MkRule {
  ru_Scope : authScope; ru_Verbs : list Verb; ru_AnyVerb : bool; ru_OwnRows : bool; ru_Reveal : bool }.

Definition dataVerbs : list Verb := [VerbCreate; VerbUpdate; VerbDelete].

Definition rule_of (s : authScope) (verbs : list Verb) : authRule := MkRule s verbs false false false.
Definition any_rule (s : authScope) (verbs : list Verb) : authRule := MkRule s verbs true false false.
Definition own_rule (s : authScope) (verbs : list Verb) : authRule := MkRule s verbs false true false.
Definition reveal_rule (s : authScope) (verbs : list Verb) : authRule := MkRule s verbs false true true.

Definition authRules : list (string * authRule) := [
  ("capabilities", rule_of scopeNone []);
  ("describe_server", rule_of scopeNone []);
  ("infer_schema", rule_of scopeNone []);
  ("find_path", rule_of scopeNone []);
  ("subgraph", rule_of scopeNone []);
  ("search_graph", rule_of scopeNone []);
  ("neighbors", rule_of scopeNone []);
  ("list_namespaces", rule_of scopeNone []);
  ("list_tables", rule_of scopeNone []);
  ("whoami", rule_of scopeNone []);
  ("create_key", rule_of scopeRoot [VerbAdmin]);
  ("list_keys", rule_of scopeRoot [VerbAdmin]);
  ("revoke_key", rule_of scopeRoot [VerbAdmin]);
  ("rotate_signing_key", rule_of scopeRoot [VerbAdmin]);
  ("rotate_secret_key", rule_of scopeRoot [VerbAdmin]);
  ("create_namespace", rule_of scopeParentNamespace [VerbAdmin]);
  ("drop_namespace", rule_of scopeNamespace [VerbAdmin]);
  ("vacuum", rule_of scopeNamespace [VerbAdmin]);
  ("describe_table", any_rule scopeTable VerbOrder);
  ("tokenize", any_rule scopeTable VerbOrder);
  ("create_table", rule_of scopeNamespace [VerbSchema]);
  ("drop_table", rule_of scopeTable [VerbSchema; VerbAdmin]);
  ("migrate", rule_of scopeTable [VerbSchema]);
  ("list_migrations", rule_of scopeTable [VerbSchema]);
  ("insert", rule_of scopeTable [VerbCreate]);
  ("import_records", rule_of scopeTable [VerbAdmin; VerbCreate]);
  ("relate", rule_of scopeTable [VerbCreate]);
  ("update", rule_of scopeTable [VerbUpdate]);
  ("delete", rule_of scopeTable [VerbDelete]);
  ("upsert", rule_of scopeTable [VerbCreate; VerbUpdate]);
  ("upsert_by_key", rule_of scopeTable [VerbCreate; VerbUpdate]);
  ("batch", rule_of scopeNamespace [VerbAdmin]);
  ("read_rows", reveal_rule scopeTable [VerbRead]);
  ("file_url", own_rule scopeTable [VerbRead]);
  ("search_fulltext", reveal_rule scopeTable [VerbRead]);
  ("search_vector", reveal_rule scopeTable [VerbRead]);
  ("query", rule_of scopeNamespace [VerbRead]);
  ("changes_since", own_rule scopeTableOrNamespace [VerbRead]);
  ("wait_for", own_rule scopeTableOrNamespace [VerbRead]);
  ("grant", rule_of scopeGrantObject [VerbAdmin]);
  ("revoke", rule_of scopeGrantObject [VerbAdmin]);
  ("list_grants", rule_of scopeGrantObject [VerbAdmin]) ].

(** [authRules[op]]: a missing key reads as the zero rule. *)
Definition authRule_of (op : string) : authRule := default (rule_of scopeNone []) (assoc op authRules).

(** ** Requests

    A request body is read by several decoders: the lenient ones, which keep
    what they could fill and drop their error, and the strict one of
    [migrationReadsRows].  [Body] is what each of them reads in it. *)

Record auth_change := AuthChange { ac_Op : string; ac_Value : option bool }.
Record grantObjectRaw := MkGrantObject { go_Namespace : string; go_Table : string }.
Record authTarget := MkTarget {
  at_Namespace : string; at_Table : string; at_Object : option grantObjectRaw;
  at_Reveal : list string; at_Changes : list auth_change }.

Record createTableReq := MkCreateTable { ct_Constraints : list Constraint; ct_AcceptReferences : bool }.

Record Incarnation := MkIncarnation { i_NsGen : list Z; i_Table : string; i_Version : Z; i_DropGen : Z }.
Definition zero_incarnation : Incarnation := MkIncarnation (replicate 16 0) "" 0 0.
Record RowScope := MkRowScope { rs_Owner : string; rs_Empty : bool }.

(** A [store.BatchWrite], less the payload authorization never reads. *)
Record BatchWrite := MkBatchWrite {
  bw_Kind : string; bw_Table : string; bw_Filter : string;
  bw_Scope : option RowScope; bw_Incarnation : Incarnation }.

Inductive store_error := StoreNotFound | StoreOther.
Inductive denial := NoGrant | NoGrantForQuery | MigrationNeedsRead | RowAccessNeedsAdmin
| RevealAdminKey | RevealDenied | ConstraintNeedsRead (subject : string) | ParentNeedsRead (subject : string).

Inductive api_error :=
| Forbidden (why : denial)
| NoRule (op : string)
| NoGrantRegistry
| NamespaceRequired
| TableRequired (i : nat)
| BadBody
| RegistryFailed (e : auth_error)
| StoreRaw (e : store_error)
| StoreWrapped (e : store_error)
| NamespaceHidden (ns : string)
| NothingToGrantOn (o : Object_)
| NamespaceNotCreated (ns : string)
| Indexed (i : nat) (e : api_error).

Record Body := MkBody {
  b_target : authTarget; b_create : createTableReq; b_changes : list Change;
  b_migrate : option (list Change); b_batch : outcome api_error (string * list BatchWrite) }.

(** ** Names *)
Section Names.
Context {UT : UnicodeTables}.

(** [ops.NormalizeNamespace], [ops.NormalizeTable]. *)
Definition NormalizeTable (t : string) : string := to_lower (trim_space t).
Definition NormalizeNamespace (ns : string) : string :=
  join "/" (map (λ seg, to_lower (trim_space seg)) (split ns "/")).

(** What stands before the last [c] of a text, if it has one. *)
Fixpoint before_last (c : ascii) (s : string) : option string :=
  match s with
  | EmptyString => None
  | String d s =>
      match before_last c s with
      | Some p => Some (String d p)
      | None => if Ascii.eqb d c then Some EmptyString else None
      end
  end.

Definition parentNamespace (ns : string) : Object_ :=
  match before_last "/" ns with
  | None => MkObject RootObject ""
  | Some p => MkObject p ""
  end.

Definition objectFor (scope : authScope) (t : authTarget) : outcome api_error Object_ :=
  let named k := if String.eqb (at_Namespace t) "" then Fail NamespaceRequired else Done k in
  match scope with
  | scopeNone | scopeRoot => Done (MkObject RootObject "")
  | scopeParentNamespace => named (parentNamespace (at_Namespace t))
  | scopeNamespace => named (MkObject (at_Namespace t) "")
  | scopeTable | scopeTableOrNamespace => named (MkObject (at_Namespace t) (at_Table t))
  | scopeGrantObject =>
      match at_Object t with
      | None => Done (MkObject RootObject "")
      | Some o => Done (MkObject (go_Namespace o) (go_Table o))
      end
  end.

Definition disablesRowAccess (t : authTarget) : bool :=
  existsb (λ c, String.eqb (ac_Op c) OpSetRowAccess && match ac_Value c with Some v => negb v | None => false end)
    (at_Changes t).

Definition migrationReadsRows (b : Body) : bool :=
  match b_migrate b with
  | None => true
  | Some changes => existsb ReadsRows changes
  end.

Definition batchTarget (ns table : string) : authTarget :=
  MkTarget (NormalizeNamespace ns) (NormalizeTable table) None [] [].
End Names.

(** ** Decisions *)

(** The engine as one read of it answers. *)
Record engine := Engine {
  en_table : string → string → outcome store_error (TableSchema * Incarnation);
  en_namespace : string → outcome store_error () }.

(** What a decision reads: the registry, and how often the engine was asked. *)
Record server_state := ServerState { sv_registry : registry; sv_reads : nat }.
Definition api (A : Type) := act server_state api_error A.

(** The parts of the server a decision depends on: whether authentication is
    on, and whether a grant registry is configured. *)
Record Server := MkServer { s_On : bool; s_HasGrants : bool }.

Section Decide.
Context {UT : UnicodeTables} {SL : SqlLike} (faults : nat → bool) (eng : nat → engine).
Context (s : Server) (id : Identity).

Definition registry_op {A} (m : db A) : api A := λ st,
  match m (sv_registry st) with
  | (Done a, r) => (Done a, ServerState r (sv_reads st))
  | (Fail e, r) => (Fail (RegistryFailed e), ServerState r (sv_reads st))
  | (OutOfFuel, r) => (OutOfFuel, ServerState r (sv_reads st))
  end.
Definition verbs_on (obj : Object_) : api VerbSet := registry_op (EffectiveVerbs faults id obj).

Definition engine_op {A} (q : engine → A) : api A := λ st,
  (Done (q (eng (sv_reads st))), ServerState (sv_registry st) (S (sv_reads st))).
Definition TableState (ns table : string) : api (outcome store_error (TableSchema * Incarnation)) :=
  engine_op (λ e, en_table e ns table).
Definition NamespaceState (ns : string) : api (outcome store_error ()) :=
  engine_op (λ e, en_namespace e ns).

Definition is_admin : bool := String.eqb (Principal id) AdminPrincipal.
Definition own_rows (sc : TableSchema) : bool := String.eqb (t_RowAccess sc) RowAccessOwn.

Definition tableHasRowAccess (obj : Object_) : api bool :=
  if String.eqb (Table obj) "" then aret false
  else
    do! st := TableState (Namespace obj) (Table obj) in
    aret (match st with Done (sc, _) => own_rows sc | _ => false end).

Definition forbid {A} (why : denial) : api A := afail (Forbidden why).

Definition authorizeVerbsOn (op : string) (body : Body) (target : authTarget) : api () :=
  if is_admin then aret ()
  else match assoc op authRules with
  | None => afail (NoRule op)
  | Some rule =>
    if decide (ru_Scope rule = scopeNone) then aret ()
    else if negb (s_HasGrants s) then afail NoGrantRegistry
    else match objectFor (ru_Scope rule) target with
    | Fail e => afail e
    | OutOfFuel => λ st, (OutOfFuel, st)
    | Done obj =>
      do! held := verbs_on obj in
      if ru_AnyVerb rule then
        if HasAny held (ru_Verbs rule) then aret () else forbid NoGrant
      else if negb (HasAll held (ru_Verbs rule)) then
        do! own := (if ru_OwnRows rule && HasAny held dataVerbs then tableHasRowAccess obj else aret false) in
        if own then aret ()
        else if String.eqb op "query" then forbid NoGrantForQuery else forbid NoGrant
      else if String.eqb op "migrate" then
        if migrationReadsRows body && negb (Has held VerbRead) then forbid MigrationNeedsRead
        else if disablesRowAccess target && negb (Has held VerbAdmin) then forbid RowAccessNeedsAdmin
        else aret ()
      else aret ()
    end
  end.

Definition authorizeReveal (t : authTarget) : api () :=
  match at_Reveal t with
  | [] => aret ()
  | _ =>
    if is_admin then forbid RevealAdminKey
    else if negb (s_HasGrants s) then afail NoGrantRegistry
    else
      do! held := verbs_on (MkObject (at_Namespace t) (at_Table t)) in
      if Has held VerbReveal then aret () else forbid RevealDenied
  end.

(** ** Reads that constraints need ([authz_constraints.go]) *)

Definition requireRead (obj : Object_) (why : denial) : api () :=
  do! held := verbs_on obj in
  if Has held VerbRead then aret () else forbid why.

Fixpoint each {A} (f : A → api ()) (l : list A) : api () :=
  match l with
  | [] => aret ()
  | x :: l => do! _ := f x in each f l
  end.

Definition constraint_targets (table : string) (constraints : list Constraint) : list string :=
  table :: omap (λ c, if String.eqb (c_Kind c) ConstraintForeignKey
                      then (λ r, NormalizeTable (cr_Table r)) <$> c_References c else None) constraints.

Definition requireConstraintReads (ns table : string) (constraints : list Constraint) (verb : string) : api () :=
  match constraints with
  | [] => aret ()
  | _ => each (λ target, requireRead (MkObject ns target) (ConstraintNeedsRead verb))
           (constraint_targets table constraints)
  end.

Definition declaredSchema (ns table : string) : api TableSchema :=
  do! st := TableState ns table in
  match st with
  | Done (sc, _) => aret sc
  | Fail e => afail (StoreWrapped e)
  | OutOfFuel => λ st, (OutOfFuel, st)
  end.

Definition declaredNamed (ns table name : string) : api (list Constraint) :=
  do! sc := declaredSchema ns table in
  aret (match find (λ c, String.eqb (c_Name c) name) (t_Constraints sc) with Some c => [c] | None => [] end).

Definition holdsTableWideRead (ns table : string) : api bool :=
  if negb (s_On s) then aret false
  else if is_admin then aret true
  else if negb (s_HasGrants s) then afail NoGrantRegistry
  else do! verbs := verbs_on (MkObject ns table) in aret (Has verbs VerbRead).

Definition upserts (op : string) : bool := mem op ["update"; "upsert"; "upsert_by_key"].

(** The table a constraint consults; [None] is the loop's [continue]. *)
Definition consulted (op table : string) (c : Constraint) : option string :=
  if String.eqb (c_Kind c) ConstraintForeignKey then
    match c_References c with
    | Some r => if String.eqb op "delete" then None else Some (cr_Table r)
    | None => None
    end
  else Some table.

Definition constraint_read (op ns table : string) (own : bool) (c : Constraint) : api () :=
  match consulted op table c with
  | None => aret ()
  | Some target =>
      do! held := verbs_on (MkObject ns target) in
      if Has held VerbRead || own && HasAny held dataVerbs then aret ()
      else forbid (ConstraintNeedsRead "the write verb")
  end.

Definition authorizeConstrainedWrite (op ns table : string) : api () :=
  if is_admin || negb (s_HasGrants s) then aret ()
  else
    do! sc := declaredSchema ns table in
    do! _ := (if String.eqb op "delete" && t_AcceptReferences sc
              then requireRead (MkObject ns "") (ParentNeedsRead "delete") else aret ()) in
    do! own := (if own_rows sc && upserts op
                then do! wide := holdsTableWideRead ns table in aret (negb wide)
                else aret (own_rows sc)) in
    each (constraint_read op ns table own) (t_Constraints sc).

Definition authorize_change (ns table : string) (c : Change) : api () :=
  if String.eqb (ch_Op c) OpSetAcceptReferences then
    requireRead (MkObject ns "") (ParentNeedsRead "changing accept_references")
  else if String.eqb (ch_Op c) OpSetRowAccess then
    do! sc := declaredSchema ns table in
    if t_AcceptReferences sc then requireRead (MkObject ns "") (ParentNeedsRead "changing row_access") else aret ()
  else if String.eqb (ch_Op c) OpAddConstraint then
    match ch_Constraint c with
    | Some k => requireConstraintReads ns table [k] "schema"
    | None => aret ()
    end
  else if String.eqb (ch_Op c) OpDropConstraint then
    do! constraints := declaredNamed ns table (ch_Name c) in
    requireConstraintReads ns table constraints "schema"
  else aret ().

Definition constrained_writes : list string :=
  ["insert"; "import_records"; "relate"; "update"; "upsert"; "upsert_by_key"; "delete"].

Definition authorizeConstraints (op : string) (body : Body) (t : authTarget) : api () :=
  if is_admin || negb (s_HasGrants s) || String.eqb (at_Namespace t) "" then aret ()
  else
    let ns := NormalizeNamespace (at_Namespace t) in
    let table := NormalizeTable (at_Table t) in
    if String.eqb op "create_table" then
      do! _ := (if ct_AcceptReferences (b_create body)
                then requireRead (MkObject ns "") (ParentNeedsRead "create_table") else aret ()) in
      requireConstraintReads ns table (ct_Constraints (b_create body)) "schema"
    else if String.eqb op "migrate" then each (authorize_change ns table) (b_changes body)
    else if String.eqb op "drop_table" then
      do! sc := declaredSchema ns table in
      if t_AcceptReferences sc then requireRead (MkObject ns "") (ParentNeedsRead "drop_table") else aret ()
    else if mem op constrained_writes then authorizeConstrainedWrite op ns table
    else aret ().

(** ** Batches and whole operations *)

(** [indexed]: the error, told with the write it came from. *)
Definition indexed {A} (i : nat) (m : api A) : api A := λ st,
  match m st with
  | (Fail e, st') => (Fail (Indexed i e), st')
  | r => r
  end.

Fixpoint authorizeBatch_from (i : nat) (ns : string) (body : Body) (writes : list BatchWrite) : api () :=
  match writes with
  | [] => aret ()
  | w :: writes =>
      if String.eqb (bw_Table w) "" then afail (TableRequired i)
      else
        do! _ := indexed i (authorizeVerbsOn (bw_Kind w) body (batchTarget ns (bw_Table w))) in
        do! _ := indexed i (authorizeConstrainedWrite (bw_Kind w) (NormalizeNamespace ns) (NormalizeTable (bw_Table w))) in
        authorizeBatch_from (S i) ns body writes
  end.
(** A write of a batch is authorized without a body: what [migrationReadsRows]
    reads in it is the strict decoder's failure. *)
Definition no_body : Body := MkBody (MkTarget "" "" None [] []) (MkCreateTable [] false) [] None (Fail BadBody).
Definition authorizeBatch (ns : string) (writes : list BatchWrite) : api () :=
  authorizeBatch_from 0 ns no_body writes.

Definition authorizeOp (op : string) (body : Body) : api () :=
  if negb (s_On s) then aret ()
  else if String.eqb op "batch" then
    match b_batch body with
    | Done (ns, writes) => authorizeBatch ns writes
    | Fail e => afail e
    | OutOfFuel => λ st, (OutOfFuel, st)
    end
  else
    do! _ := authorizeVerbsOn op body (b_target body) in
    do! _ := authorizeConstraints op body (b_target body) in
    if ru_Reveal (authRule_of op) then authorizeReveal (b_target body) else aret ().

(** ** Row scopes ([scope.go]) *)

Definition resolveScopeState (ns table : string) : api (option RowScope * Incarnation * option TableSchema) :=
  if negb (s_On s) then aret (None, zero_incarnation, None)
  else
    do! st := TableState ns table in
    match st with
    | Fail StoreNotFound => aret (None, zero_incarnation, None)
    | Fail e => afail (StoreWrapped e)
    | OutOfFuel => λ st, (OutOfFuel, st)
    | Done (sc, inc) =>
      if is_admin then aret (None, zero_incarnation, Some sc)
      else if negb (s_HasGrants s) then afail NoGrantRegistry
      else
        do! verbs := verbs_on (MkObject ns table) in
        if negb (own_rows sc) then
          if Has verbs VerbRead || HasAny verbs dataVerbs then aret (None, inc, Some sc)
          else aret (Some (MkRowScope "" true), inc, Some sc)
        else if Has verbs VerbRead then aret (None, inc, Some sc)
        else if HasAny verbs dataVerbs then aret (Some (MkRowScope (Principal id) false), inc, Some sc)
        else aret (Some (MkRowScope "" true), inc, Some sc)
    end.

Definition resolveScope (ns table : string) : api (option RowScope * Incarnation) :=
  do! (scope, inc, _) := resolveScopeState ns table in aret (scope, inc).

Fixpoint resolveBatchScopes_from (i : nat) (ns : string) (writes : list BatchWrite) : api (list BatchWrite) :=
  match writes with
  | [] => aret []
  | w :: writes =>
      do! (scope, inc, _) := indexed i (resolveScopeState ns (NormalizeTable (bw_Table w))) in
      do! rest := resolveBatchScopes_from (S i) ns writes in
      aret (MkBatchWrite (bw_Kind w) (bw_Table w) (bw_Filter w) scope inc :: rest)
  end.
Definition resolveBatchScopes (ns : string) (writes : list BatchWrite) : api (list BatchWrite) :=
  resolveBatchScopes_from 0 ns writes.

Definition writeOwner : string := if s_On s then Principal id else "".

(** ** Guards of listings, feeds and grants ([authz_guards.go]) *)

Definition requireGrantableObject (obj : Object_) : api () :=
  if Root obj then aret ()
  else if String.eqb (Table obj) "" then
    do! st := NamespaceState (Namespace obj) in
    match st with
    | Fail StoreNotFound => afail (NothingToGrantOn obj)
    | Fail e => afail (StoreRaw e)
    | OutOfFuel => λ st, (OutOfFuel, st)
    | Done _ => aret ()
    end
  else
    do! st := TableState (Namespace obj) (Table obj) in
    match st with
    | Fail StoreNotFound => afail (NothingToGrantOn obj)
    | Fail e => afail (StoreRaw e)
    | OutOfFuel => λ st, (OutOfFuel, st)
    | Done _ => aret ()
    end.

Definition namespaceVisible (ns : string) (granted : gset string) : bool :=
  existsb (λ g, String.eqb g ns || has_prefix ns (g +:+ "/") || has_prefix g (ns +:+ "/")) (elements granted).

Definition granted_namespaces : api (gset string) := registry_op (NamespacesWithAnyGrant faults id).

Definition visibleNamespaces (nss : list string) : api (list string) :=
  if negb (s_On s) then aret nss
  else if is_admin then aret nss
  else if negb (s_HasGrants s) then afail NoGrantRegistry
  else
    do! granted := granted_namespaces in
    if bool_decide (RootObject ∈ granted) then aret nss
    else aret (List.filter (λ ns, namespaceVisible ns granted) nss).

Definition requireNamespaceVisible (ns : string) : api () :=
  if negb (s_On s) then aret ()
  else if is_admin then aret ()
  else if negb (s_HasGrants s) then afail NoGrantRegistry
  else
    do! granted := granted_namespaces in
    if bool_decide (RootObject ∈ granted) then aret ()
    else if namespaceVisible ns granted then aret () else afail (NamespaceHidden ns).

Fixpoint visible_loop (ns : string) (tables : list string) : api (list string) :=
  match tables with
  | [] => aret []
  | t :: tables =>
      do! verbs := verbs_on (MkObject ns t) in
      do! rest := visible_loop ns tables in
      aret (if Empty verbs then rest else t :: rest)
  end.

Definition visibleTables (ns : string) (tables : list string) : api (list string) :=
  if negb (s_On s) then aret tables
  else if is_admin then aret tables
  else if negb (s_HasGrants s) then afail NoGrantRegistry
  else
    do! nsVerbs := verbs_on (MkObject ns "") in
    if negb (Empty nsVerbs) then aret tables else visible_loop ns tables.

(** [ensureNamespace] with authentication on; with it off the namespace is
    created by [ops.EnsureNamespace]. *)
Definition ensureNamespace (create : api ()) (ns : string) : api () :=
  if negb (s_On s) then create
  else
    do! st := NamespaceState ns in
    match st with
    | Fail StoreNotFound => afail (NamespaceNotCreated ns)
    | Fail e => afail (StoreWrapped e)
    | OutOfFuel => λ st, (OutOfFuel, st)
    | Done _ => aret ()
    end.

Definition authorizeFeed (ns table : string) : api () :=
  if negb (s_On s) then aret ()
  else if is_admin then aret ()
  else if negb (s_HasGrants s) then afail NoGrantRegistry
  else
    let obj := MkObject (NormalizeNamespace ns) table in
    do! verbs := verbs_on obj in
    if Has verbs VerbRead then aret ()
    else
      do! own := (if negb (String.eqb table "") && HasAny verbs dataVerbs then tableHasRowAccess obj else aret false) in
      if own then aret () else forbid NoGrant.

Definition dropNamespaceGrants (ns : string) : api () :=
  if negb (s_HasGrants s) then aret () else registry_op (DropNamespace faults ns).
Definition dropTableGrants (ns table : string) : api () :=
  if negb (s_HasGrants s) then aret () else registry_op (DropTable faults ns table).

Definition ToolVisible (op : string) : server_state → bool := λ st,
  if negb (s_On s) || negb (bool_decide (ru_Scope (authRule_of op) = scopeRoot)) then true
  else if is_admin then true
  else if negb (s_HasGrants s) then false
  else match (verbs_on (MkObject RootObject "") st).1 with
       | Done held => Has held VerbAdmin
       | _ => true
       end.

(** One check of a live feed: the re-authenticated caller is still allowed,
    and with which scope; [None] ends the feed. *)
Definition live_check (ns table : string) : server_state → option (option RowScope * Incarnation) := λ st,
  match authorizeFeed ns table st with
  | (Done _, st) =>
      if String.eqb table "" then Some (None, zero_incarnation)
      else match (resolveScope ns table st).1 with
           | Done r => Some r
           | _ => None
           end
  | _ => None
  end.
End Decide.

(** [liveAuthz]: with authentication on, a live feed asks this before every
    delivery; [who] is the identity the request authenticates as now. *)
Definition liveAuthz {UT : UnicodeTables} {SL : SqlLike} (faults : nat → bool) (eng : nat → engine) (s : Server)
    (who : option Identity) (ns table : string) : server_state → option (option RowScope * Incarnation) := λ st,
  match who with
  | None => None
  | Some id => live_check faults eng s id ns table st
  end.
