(* ===== verification/AuthzTheorems.v ===== *)
(** * The theorems of authorization

    The rule table against its declarative reading, the agreement of the row
    scope with the verbs held, the listings, the feeds, the batches; each
    with an instance at concrete data. *)
From Stdlib Require Import ZArith Lia Ascii String.
From stdpp Require Import base gmap strings list.
From S2P Require Import Prelude GoStrings AuthVerbs AuthIdentity AuthRegistry AuthFacts AuthPaths SchemaIdent Schema SchemaConstraints.
From S2P Require Import Authz AuthTheorems.

(** * Facts about authorization

    What the registry answers as a pure function of its grants, the reading
    of requests after normalisation, and the inversion tactic for decisions. *)

Local Open Scope Z_scope.

(** ** The verbs held, as a function of the grants *)

Definition reaching_rows (r : registry) (id : Identity) (obj : Object_) :=
  rows_of r (λ s o, bool_decide (s ∈ subjectsFor id) && bool_decide (o ∈ coveringObjects obj)).
Definition held_verbs (r : registry) (id : Identity) (obj : Object_) : VerbSet :=
  foldl (λ union x, Z.lor union (to_VerbSet (gr_verbs x.2))) 0 (reaching_rows r id obj).

Lemma held_grants r r' id obj : grants r = grants r' → held_verbs r id obj = held_verbs r' id obj.
Proof. unfold held_verbs, reaching_rows, rows_of. by intros ->. Qed.

(** A grant that is not empty reaches the object. *)
Definition reaches (r : registry) (id : Identity) (obj : Object_) : Prop :=
  ∃ s o row, s ∈ subjectsFor id ∧ o ∈ coveringObjects obj ∧ grants r !! (s, o) = Some row
             ∧ to_VerbSet (gr_verbs row) ≠ 0.

Lemma elem_of_reaching r id obj s o row :
  (s, o, row) ∈ reaching_rows r id obj ↔ grants r !! (s, o) = Some row ∧ s ∈ subjectsFor id ∧ o ∈ coveringObjects obj.
Proof. unfold reaching_rows. by rewrite elem_of_rows, andb_true_iff, !bool_decide_eq_true. Qed.

Lemma fold_lor_zero (rows : list (Subject * Object_ * grant_row)) u :
  foldl (λ union x, Z.lor union (to_VerbSet (gr_verbs x.2))) u rows = 0
  ↔ u = 0 ∧ ∀ x, x ∈ rows → to_VerbSet (gr_verbs x.2) = 0.
Proof.
  revert u. induction rows as [|x rows IH]; intros u; simpl.
  - split; [intros ->; split; [done|by intros x ?%not_elem_of_nil]|tauto].
  - rewrite IH, Z.lor_eq_0_iff. setoid_rewrite elem_of_cons. naive_solver.
Qed.

Lemma held_nonempty r id obj : Empty (held_verbs r id obj) = false ↔ reaches r id obj.
Proof.
  unfold Empty. rewrite Z.eqb_neq. unfold held_verbs, reaches. split.
  - intros Hne. destruct (decide (Exists (λ x, to_VerbSet (gr_verbs x.2) ≠ 0) (reaching_rows r id obj))) as [He|He].
    + apply Exists_exists in He as ([[s o] row] & (Hg & Hs & Ho)%elem_of_reaching & Hv). eauto 10.
    + exfalso. apply Hne, fold_lor_zero. split; [done|]. intros x Hx.
      destruct (decide (to_VerbSet (gr_verbs x.2) = 0)) as [|Hx0]; [done|].
      exfalso. apply He, Exists_exists. eauto.
  - intros (s & o & row & Hs & Ho & Hg & Hv) [_ Hz]%fold_lor_zero. apply Hv.
    apply (Hz (s, o, row)), elem_of_reaching. done.
Qed.

Lemma covering_table ns t o : o ∈ coveringObjects (MkObject ns "") → o ∈ coveringObjects (MkObject ns t).
Proof.
  rewrite !elem_of_covering. unfold Root. cbn [Namespace Table].
  intros [?|[? [?|[_ ?]]]]; [auto|auto|done].
Qed.

(** What reaches a namespace reaches each of its tables. *)
Lemma reaches_table r id ns t : reaches r id (MkObject ns "") → reaches r id (MkObject ns t).
Proof. intros (s & o & row & Hs & Ho & Hg). exists s, o, row. eauto using covering_table. Qed.

Lemma effective_table r id ns t v : effective r id (MkObject ns "") v → effective r id (MkObject ns t) v.
Proof. intros (s & o & Hs & Ho & Hg). exists s, o. eauto using covering_table. Qed.

Section Facts.
Context {SL : SqlLike} (faults : nat → bool).

Lemma EffectiveVerbs_run id obj r :
  EffectiveVerbs faults id obj r =
  (if faults (calls r) then Fail (DBError "resolve grants") else Done (held_verbs r id obj),
   Registry (grants r) (api_keys r) (S (calls r))).
Proof. unfold EffectiveVerbs, stmt. by destruct (faults (calls r)). Qed.
End Facts.

Lemma Has_held r id obj v : Has (held_verbs r id obj) v = true ↔ effective r id obj v.
Proof.
  pose proof (EffectiveVerbs_run (λ _, false) id obj r) as H.
  by apply EffectiveVerbs_ok in H as (_ & _ & Hv).
Qed.

Lemma HasAny_held r id obj vs : HasAny (held_verbs r id obj) vs = true ↔ ∃ v, v ∈ vs ∧ effective r id obj v.
Proof.
  unfold HasAny. rewrite existsb_exists. setoid_rewrite <-list_elem_of_In. by setoid_rewrite Has_held.
Qed.

Lemma HasAll_held r id obj vs : HasAll (held_verbs r id obj) vs = true ↔ ∀ v, v ∈ vs → effective r id obj v.
Proof.
  unfold HasAll. rewrite forallb_forall. setoid_rewrite <-list_elem_of_In. by setoid_rewrite Has_held.
Qed.

(** ** Decisions only read *)

(** The registry keeps its grants and keys; the engine may have been read. *)
Definition same_grants (st st' : server_state) : Prop :=
  grants (sv_registry st') = grants (sv_registry st) ∧ api_keys (sv_registry st') = api_keys (sv_registry st)
  ∧ (sv_reads st ≤ sv_reads st')%nat.

#[global] Instance same_grants_preorder : PreOrder same_grants.
Proof.
  split; [done|]. intros a b c (H1 & H2 & H3) (H4 & H5 & H6).
  split_and!; [congruence|congruence|lia].
Qed.

Lemma same_grants_held st st' id obj :
  same_grants st st' → held_verbs (sv_registry st') id obj = held_verbs (sv_registry st) id obj.
Proof. intros (H & _). by apply held_grants. Qed.

Definition reads {A} (m : api A) : Prop := ∀ st, same_grants st (m st).2.

Lemma reads_aret {A} (a : A) : reads (aret a).
Proof. by intros st. Qed.
Lemma reads_afail {A} e : reads (afail (A := A) e).
Proof. by intros st. Qed.
Lemma reads_answer {A} (o : outcome api_error A) : reads (λ st, (o, st)).
Proof. by intros st. Qed.
Lemma reads_abind {A B} (m : api A) (k : A → api B) : reads m → (∀ a, reads (k a)) → reads (abind m k).
Proof.
  intros Hm Hk st. unfold abind. specialize (Hm st). destruct (m st) as [[a|e|] st1]; [|done|done].
  etransitivity; [exact Hm|apply Hk].
Qed.
Lemma reads_if {A} (b : bool) (m k : api A) : reads m → reads k → reads (if b then m else k).
Proof. by destruct b. Qed.
Create HintDb reads discriminated.
#[export] Hint Resolve reads_aret reads_afail reads_answer reads_if : reads.

Section Reads.
Context {UT : UnicodeTables} {SL : SqlLike} (faults : nat → bool) (eng : nat → engine).
Context (s : Server) (id : Identity).

Lemma verbs_on_run obj st :
  verbs_on faults id obj st =
  (if faults (calls (sv_registry st)) then Fail (RegistryFailed (DBError "resolve grants"))
   else Done (held_verbs (sv_registry st) id obj),
   ServerState (Registry (grants (sv_registry st)) (api_keys (sv_registry st)) (S (calls (sv_registry st)))) (sv_reads st)).
Proof. unfold verbs_on, registry_op. rewrite EffectiveVerbs_run. by destruct (faults _). Qed.

Lemma verbs_on_Done obj st vs st' :
  verbs_on faults id obj st = (Done vs, st') →
  vs = held_verbs (sv_registry st) id obj ∧ same_grants st st' ∧ sv_reads st' = sv_reads st.
Proof. rewrite verbs_on_run. destruct (faults _); [done|]. by intros [= <- <-]. Qed.

Lemma verbs_on_reads obj : reads (verbs_on faults id obj).
Proof. intros st. by rewrite verbs_on_run. Qed.

Lemma engine_op_reads {A} (q : engine → A) : reads (engine_op eng q).
Proof. intros st. unfold engine_op, same_grants. simpl. split_and!; [done|done|lia]. Qed.

Lemma TableState_Done ns t st o st' :
  TableState eng ns t st = (Done o, st') →
  o = en_table (eng (sv_reads st)) ns t ∧ same_grants st st' ∧ sv_registry st' = sv_registry st.
Proof.
  intros [= <- <-]. split_and!; [done| |done]. unfold same_grants. simpl. split_and!; [done|done|lia].
Qed.

Lemma tableHasRowAccess_Done obj st b st' :
  tableHasRowAccess eng obj st = (Done b, st') →
  same_grants st st'
  ∧ (b = true ↔ Table obj ≠ "" ∧ ∃ sc inc, en_table (eng (sv_reads st)) (Namespace obj) (Table obj) = Done (sc, inc)
                                          ∧ own_rows sc = true).
Proof.
  unfold tableHasRowAccess. destruct (String.eqb_spec (Table obj) "") as [He|He].
  - intros [= <- <-]. split; [done|]. naive_solver.
  - intros (o & st1 & (-> & Hs & _)%TableState_Done & [= <- <-])%abind_Done. split; [done|].
    destruct (en_table _ _ _) as [[sc inc]|e|]; naive_solver.
Qed.

Lemma tableHasRowAccess_reads obj : reads (tableHasRowAccess eng obj).
Proof.
  unfold tableHasRowAccess. apply reads_if; [auto with reads|].
  apply reads_abind; [apply engine_op_reads|auto with reads].
Qed.
End Reads.
#[export] Hint Resolve verbs_on_reads engine_op_reads tableHasRowAccess_reads : reads.

(** One step of inversion through a decision that answered [Done]. *)
Ltac inv_api1 :=
  match goal with
  | H : Fail _ = Done _ |- _ => discriminate H
  | H : (_, _) = (_, _) |- _ => injection H as ?; subst
  | H : aret _ _ = (Done _, _) |- _ => unfold aret in H
  | H : afail _ _ = (Done _, _) |- _ => discriminate H
  | H : forbid _ _ = (Done _, _) |- _ => discriminate H
  | H : abind _ _ _ = (Done _, _) |- _ => apply abind_Done in H; destruct H as (? & ? & ? & H)
  | H : verbs_on _ _ _ _ = (Done _, _) |- _ => apply verbs_on_Done in H; destruct H as (-> & ? & ?)
  | H : TableState _ _ _ _ = (Done _, _) |- _ => apply TableState_Done in H; destruct H as (-> & ? & ?)
  | H : (if ?b then _ else _) _ = (Done _, _) |- _ => destruct b eqn:?
  end.
Ltac inv_api := repeat (inv_api1; try discriminate).

(** ** Names after normalisation *)
Section Normal.
Context {UT : UnicodeTables}.

Definition normal_object (o : Object_) : Prop :=
  NormalizeNamespace (Namespace o) = Namespace o ∧ NormalizeTable (Table o) = Table o.

(** Grants are stored on normal names, as the grant operation writes them. *)
Definition normal_grants (r : registry) : Prop :=
  ∀ s o row, grants r !! (s, o) = Some row → normal_object o.

Lemma NormalizeNamespace_app a b :
  NormalizeNamespace (a +:+ "/" +:+ b) = NormalizeNamespace a +:+ "/" +:+ NormalizeNamespace b.
Proof.
  unfold NormalizeNamespace. change (a +:+ "/" +:+ b) with (a +:+ String "/" b).
  rewrite split_append, map_app. apply join_app.
  - intros ?%map_eq_nil. by apply (split_nonempty a "/").
  - intros ?%map_eq_nil. by apply (split_nonempty b "/").
Qed.

Lemma path_prefix_normal p ns :
  NormalizeNamespace p = p → path_prefix p ns → path_prefix p (NormalizeNamespace ns).
Proof.
  intros Hp [->|(rest & ->)]; [left; done|]. right. exists (NormalizeNamespace rest).
  by rewrite NormalizeNamespace_app, Hp.
Qed.

Lemma slash_not_root p rest : p +:+ "/" +:+ rest ≠ RootObject.
Proof. destruct p as [|c p]; [done|]. intros [= -> H]. by destruct p. Qed.

(** A caller allowed under the name as sent is allowed under the name the
    operation acts on: normalising a name never leaves the grants that
    reached it. *)
Lemma effective_normal r id ns t v :
  normal_grants r → effective r id (MkObject ns t) v →
  effective r id (MkObject (NormalizeNamespace ns) (NormalizeTable t)) v.
Proof.
  intros Hn (sub & o & Hs & Ho & row & Hg & Hv).
  exists sub, o. split_and!; [done| |by exists row]. destruct (Hn _ _ _ Hg) as [Hns Ht].
  apply elem_of_covering in Ho. apply elem_of_covering. unfold Root in *. cbn [Namespace Table] in *.
  destruct Ho as [->|[Hr [[Hto Hp]|[-> Hne]]]]; [by left| |]; right; cbn [Namespace Table] in *.
  - split; [|left; split; [done|by apply path_prefix_normal]].
    apply String.eqb_neq. apply String.eqb_neq in Hr. intros Heq.
    destruct Hp as [->|(rest & ->)]; [by rewrite Hns in Heq|].
    rewrite NormalizeNamespace_app in Heq. by apply slash_not_root in Heq.
  - rewrite Hns, Ht. split; [done|]. by right.
Qed.
End Normal.


(** ** What a rule permits *)

(** The engine's table has row access, as one read of it answers. *)
Definition row_access_on (e : engine) (obj : Object_) : Prop :=
  Table obj ≠ "" ∧ ∃ sc inc, en_table e (Namespace obj) (Table obj) = Done (sc, inc) ∧ own_rows sc = true.

Definition rule_met (r : registry) (e : engine) (id : Identity) (rule : authRule) (obj : Object_) : Prop :=
  if ru_AnyVerb rule then ∃ v, v ∈ ru_Verbs rule ∧ effective r id obj v
  else (∀ v, v ∈ ru_Verbs rule → effective r id obj v)
       ∨ ru_OwnRows rule = true ∧ (∃ v, v ∈ dataVerbs ∧ effective r id obj v) ∧ row_access_on e obj.

Definition migration_met (r : registry) (id : Identity) (obj : Object_) (body : Body) (t : authTarget) : Prop :=
  (migrationReadsRows body = true → effective r id obj VerbRead)
  ∧ (disablesRowAccess t = true → effective r id obj VerbAdmin).

(** What a caller other than the administrator key may do. *)
Definition permitted (r : registry) (e : engine) (id : Identity) (op : string) (body : Body) (t : authTarget) : Prop :=
  ∃ rule, assoc op authRules = Some rule
    ∧ (ru_Scope rule = scopeNone
       ∨ ∃ obj, objectFor (ru_Scope rule) t = Done obj ∧ rule_met r e id rule obj
                ∧ (op = "migrate" → migration_met r id obj body t)).

(** The rules leave these facts to a case analysis. *)
Lemma migrate_rule rule : assoc "migrate" authRules = Some rule → ru_AnyVerb rule = false ∧ ru_OwnRows rule = false.
Proof. by intros [= <-]. Qed.

Section Rules.
Context {UT : UnicodeTables} {SL : SqlLike} (faults : nat → bool) (eng : nat → engine).
Context (s : Server) (id : Identity).

Lemma migration_check r obj body t :
  (migrationReadsRows body && negb (Has (held_verbs r id obj) VerbRead) = false
   ∧ disablesRowAccess t && negb (Has (held_verbs r id obj) VerbAdmin) = false)
  ↔ migration_met r id obj body t.
Proof.
  unfold migration_met. rewrite !andb_false_iff, !negb_false_iff, !Has_held.
  destruct (migrationReadsRows body), (disablesRowAccess t); naive_solver.
Qed.

(** Soundness, whatever the database and the engine answer meanwhile. *)
Lemma authorizeVerbsOn_sound op body t st st' :
  is_admin id = false →
  authorizeVerbsOn faults eng s id op body t st = (Done (), st') →
  same_grants st st' ∧ permitted (sv_registry st) (eng (sv_reads st)) id op body t.
Proof.
  intros Ha. unfold authorizeVerbsOn, permitted. rewrite Ha.
  destruct (assoc op authRules) as [rule|] eqn:Hr; [|done].
  destruct (decide (ru_Scope rule = scopeNone)) as [Hn|Hn]; [intros [= <-]; split; [done|eauto]|].
  destruct (s_HasGrants s); simpl; [|done].
  destruct (objectFor (ru_Scope rule) t) as [obj| |] eqn:Ho; [|done|done].
  intros (vs & st1 & (-> & H1 & Hn1)%verbs_on_Done & H)%abind_Done.
  assert (∀ P Q : Prop, P → (op = "migrate" → Q) → P ∧ (op = "migrate" → Q)) as Hboth by auto.
  enough (same_grants st st' ∧ rule_met (sv_registry st) (eng (sv_reads st)) id rule obj
          ∧ (op = "migrate" → migration_met (sv_registry st) id obj body t)) by naive_solver.
  clear Hboth. unfold rule_met, forbid, afail, aret in *. destruct (ru_AnyVerb rule) eqn:Hany.
  { destruct (HasAny _ _) eqn:Hh; [|done]. injection H as <-. split_and!; [done|by apply HasAny_held|].
    intros ->. by apply migrate_rule in Hr as [? _]; congruence. }
  destruct (HasAll _ _) eqn:Hh; cbn [negb] in H.
  - rewrite HasAll_held in Hh. split; [|split; [by left|]].
    + destruct (String.eqb op "migrate"); [|by injection H as <-].
      do 2 (destruct (_ && negb _) in H; [done|]). by injection H as <-.
    + intros ->. simpl in H. apply migration_check.
      destruct (migrationReadsRows body && _); [done|]. by destruct (disablesRowAccess t && _).
  - apply abind_Done in H as (b & st2 & Hb & H).
    destruct b; [|destruct (String.eqb op "query"); done]. injection H as <-.
    destruct (ru_OwnRows rule && _) eqn:Hown; [|done].
    apply andb_true_iff in Hown as [Hown Hd]. apply (HasAny_held _ _ _ dataVerbs) in Hd.
    apply tableHasRowAccess_Done in Hb as (H2 & Hb).
    destruct (proj1 Hb eq_refl) as [Ht He]. rewrite Hn1 in He.
    split; [by etransitivity|]. split; [right; unfold row_access_on; auto|].
    intros ->. apply migrate_rule in Hr as [_ ?]. congruence.
Qed.

(** C9. [authorizeVerbs] decides exactly what the rule table says: with a
    database that answers, a caller other than the administrator key passes if
    and only if the operation has a rule, and the rule asks nothing, or its
    object can be named and the caller effectively holds one of the verbs (for
    a rule that asks for any) or all of them (else); or, where the rule admits
    own rows, holds some data verb on a table with row access; and for
    [migrate] holds [read] when the outcome depends on stored rows, and
    [admin] when row access is turned off. *)
Theorem authorizeVerbsOn_exact op body t st
    (Ha : is_admin id = false) (Hg : s_HasGrants s = true) (Hf : faults (calls (sv_registry st)) = false) :
  (authorizeVerbsOn faults eng s id op body t st).1 = Done ()
  ↔ permitted (sv_registry st) (eng (sv_reads st)) id op body t.
Proof.
  split.
  - intros H. destruct (authorizeVerbsOn _ _ _ _ _ _ _ st) as [o st'] eqn:E. simpl in H. subst o.
    by apply authorizeVerbsOn_sound in E as [_ ?].
  - intros (rule & Hr & Hcase). unfold authorizeVerbsOn. rewrite Ha, Hr.
    destruct (decide _) as [|Hn]; [done|]. destruct Hcase as [|(obj & Ho & Hm & Hmig)]; [done|].
    rewrite Hg, Ho. cbn [negb]. unfold abind at 1. rewrite verbs_on_run, Hf. unfold rule_met in Hm.
    destruct (ru_AnyVerb rule).
    { rewrite <-HasAny_held in Hm. by rewrite Hm. }
    destruct (HasAll (held_verbs (sv_registry st) id obj) (ru_Verbs rule)) eqn:Hall; cbn [negb].
    + destruct (String.eqb_spec op "migrate") as [Hop|]; [|done].
      apply Hmig, migration_check in Hop as [-> ->]. done.
    + destruct Hm as [Hm|(-> & Hd%HasAny_held & Ht & sc & inc & He & Hown)].
      { apply HasAll_held in Hm. congruence. }
      rewrite Hd. unfold abind, tableHasRowAccess. apply String.eqb_neq in Ht. rewrite Ht. simpl.
      unfold abind, TableState, engine_op. simpl. by rewrite He, Hown.
Qed.

(** ** The rows a reader is given *)

Definition own_reads : list string :=
  ["read_rows"; "file_url"; "search_fulltext"; "search_vector"; "changes_since"; "wait_for"].

(** These operations are exactly the ones whose rule admits own rows; they all
    ask for [read] on the table they name. *)
Lemma own_reads_rule op rule :
  op ∈ own_reads → assoc op authRules = Some rule →
  ru_AnyVerb rule = false ∧ ru_Verbs rule = [VerbRead] ∧ (ru_Scope rule = scopeTable ∨ ru_Scope rule = scopeTableOrNamespace).
Proof.
  unfold own_reads. intros Hop. repeat (apply elem_of_cons in Hop as [->|Hop]; [intros [= <-]; simpl; auto|]).
  by apply not_elem_of_nil in Hop.
Qed.

Lemma own_reads_unconstrained op body t st :
  op ∈ own_reads → authorizeConstraints faults eng s id op body t st = (Done (), st).
Proof.
  unfold own_reads. intros Hop. unfold authorizeConstraints. destruct (_ || _); [done|].
  repeat (apply elem_of_cons in Hop as [->|Hop]; [done|]). by apply not_elem_of_nil in Hop.
Qed.

Lemma authorizeReveal_reads t : reads (authorizeReveal faults s id t).
Proof.
  unfold authorizeReveal, forbid. destruct (at_Reveal t); [auto with reads|].
  repeat (apply reads_if; [auto with reads|]). apply reads_abind; [apply verbs_on_reads|].
  intros vs. auto with reads.
Qed.

Lemma objectFor_table scope t obj :
  scope = scopeTable ∨ scope = scopeTableOrNamespace → objectFor scope t = Done obj →
  obj = MkObject (at_Namespace t) (at_Table t).
Proof. intros [->| ->]; simpl; destruct (String.eqb _ _); congruence. Qed.

(** A read that passed: who may read the table the operation acts on. *)
Lemma own_read_authorized op body st st' :
  op ∈ own_reads → s_On s = true → is_admin id = false → normal_grants (sv_registry st) →
  authorizeOp faults eng s id op body st = (Done (), st') →
  let t := b_target body in
  let obj := MkObject (NormalizeNamespace (at_Namespace t)) (NormalizeTable (at_Table t)) in
  same_grants st st'
  ∧ (effective (sv_registry st) id obj VerbRead
     ∨ (∃ v, v ∈ dataVerbs ∧ effective (sv_registry st) id obj v)
       ∧ row_access_on (eng (sv_reads st)) (MkObject (at_Namespace t) (at_Table t))).
Proof.
  intros Hop Hon Ha Hn. unfold authorizeOp. rewrite Hon. cbn [negb].
  destruct (String.eqb_spec op "batch") as [->|_].
  { exfalso. revert Hop. apply (bool_decide_unpack (_ ∉ _)). vm_compute. exact I. }
  intros ([] & st1 & [H1 (rule & Hr & Hcase)]%authorizeVerbsOn_sound & H2)%abind_Done; [|done].
  unfold abind in H2. rewrite own_reads_unconstrained in H2 by done.
  assert (same_grants st1 st') as H3.
  { destruct (ru_Reveal _); [|by injection H2 as <-].
    pose proof (authorizeReveal_reads (b_target body) st1) as Hs. by rewrite H2 in Hs. }
  split; [by etransitivity|].
  destruct (own_reads_rule _ _ Hop Hr) as (Hany & Hverbs & Hsc).
  destruct Hcase as [Hc|(obj & Ho & Hm & _)]; [by destruct Hsc; congruence|].
  apply objectFor_table in Ho as ->; [|done]. unfold rule_met in Hm. rewrite Hany, Hverbs in Hm.
  destruct Hm as [Hm|(_ & (v & Hv & Hd) & Hra)].
  - left. apply effective_normal; [done|]. apply Hm. by left.
  - right. split; [|done]. exists v. split; [done|by apply effective_normal].
Qed.

(** C10. What a reader sees.  When a read, search or feed of a table passes
    authorization and its row scope is then resolved, on names sent in any
    case and spacing, and the table's policy does not change in between: an
    unrestricted scope means the caller effectively holds [read] on the
    table; any other scope is the caller's own rows, given because the table
    has row access and the caller holds a data verb and not [read]; and it is
    never the empty scope. *)
Theorem own_rows_scope op body st scope inc st' answer
    (Hop : op ∈ own_reads) (Hon : s_On s = true) (Ha : is_admin id = false)
    (Hn : normal_grants (sv_registry st))
    (Hnames : ∀ i ns t sc inc, en_table (eng i) ns t = Done (sc, inc) →
              NormalizeNamespace ns = ns ∧ NormalizeTable t = t)
    (Hsame : ∀ i, en_table (eng i) (NormalizeNamespace (at_Namespace (b_target body)))
                    (NormalizeTable (at_Table (b_target body))) = answer)
    (H : (do! _ := authorizeOp faults eng s id op body in
          resolveScope faults eng s id (NormalizeNamespace (at_Namespace (b_target body)))
            (NormalizeTable (at_Table (b_target body)))) st = (Done (scope, inc), st')) :
  let obj := MkObject (NormalizeNamespace (at_Namespace (b_target body))) (NormalizeTable (at_Table (b_target body))) in
  match scope with
  | None => effective (sv_registry st) id obj VerbRead
  | Some sc => sc = MkRowScope (Principal id) false
      ∧ ¬ effective (sv_registry st) id obj VerbRead
      ∧ (∃ v, v ∈ dataVerbs ∧ effective (sv_registry st) id obj v) ∧ row_access_on (eng (sv_reads st)) obj
  end.
Proof.
  apply abind_Done in H as ([] & st1 & H1 & H).
  apply own_read_authorized in H1 as [Hsg Hcase]; [|done|done|done|done].
  set (ns := NormalizeNamespace _) in *. set (t := NormalizeTable _) in *. cbv zeta.
  assert (effective (sv_registry st) id (MkObject ns t) VerbRead
          ∨ (∃ v, v ∈ dataVerbs ∧ effective (sv_registry st) id (MkObject ns t) v)
            ∧ row_access_on (eng (sv_reads st)) (MkObject ns t)) as Hcase'.
  { destruct Hcase as [|[Hd Hra]]; [by left|right]. split; [done|].
    pose proof Hra as (_ & sc & inc' & He & _). cbn [Namespace Table] in He.
    destruct (Hnames _ _ _ _ _ He) as [Hns Ht]. subst ns t. by rewrite Hns, Ht. }
  clear Hcase Hnames. apply abind_Done in H as ([[scope' inc'] osc] & st2 & H2 & Heq).
  injection Heq as -> -> ->. unfold resolveScopeState in H2. rewrite Hon, Ha in H2. cbn [negb] in H2.
  apply abind_Done in H2 as (o & st3 & (-> & Hs3 & _)%TableState_Done & H2). rewrite Hsame in H2.
  destruct answer as [[sc i]|[]|] eqn:Hans; [| |done|done].
  2:{ injection H2 as <- _ _ _. destruct Hcase' as [|[_ (_ & sc & i & He & _)]]; [done|].
      cbn [Namespace Table] in He. by rewrite Hsame in He. }
  destruct (s_HasGrants s); cbn [negb] in H2; [|done].
  apply abind_Done in H2 as (vs & st4 & (-> & _)%verbs_on_Done & H2).
  rewrite (same_grants_held st) in H2 by (by etransitivity).
  pose proof (Has_held (sv_registry st) id (MkObject ns t) VerbRead) as Hread.
  pose proof (HasAny_held (sv_registry st) id (MkObject ns t) dataVerbs) as Hdata.
  destruct (Has (held_verbs _ _ _) VerbRead), (HasAny (held_verbs _ _ _) dataVerbs), (own_rows sc) eqn:Hown;
    cbn [negb orb] in H2; injection H2 as <- _ _ _; try (by apply Hread).
  all: destruct Hcase' as [Hr|[Hd (Ht & sc' & i' & He & Hown')]]; [by apply Hread in Hr|].
  all: cbn [Namespace Table] in *; rewrite Hsame in He; simplify_eq.
  all: try congruence; try (by apply Hdata in Hd).
  split_and!; [done|by intros ?%Hread|done|]. unfold row_access_on. naive_solver.
Qed.

(** ** Writes checked against constraints *)

Lemma requireRead_Done obj why st x st' :
  requireRead faults id obj why st = (Done x, st') →
  effective (sv_registry st) id obj VerbRead ∧ same_grants st st'.
Proof.
  intros (vs & st1 & (-> & Hs & _)%verbs_on_Done & H)%abind_Done. unfold forbid in H.
  destruct (Has _ _) eqn:Hh; [|done]. injection H as _ <-. split; [by apply Has_held|done].
Qed.

Lemma declaredSchema_Done ns t st sc st' :
  declaredSchema eng ns t st = (Done sc, st') →
  (∃ inc, en_table (eng (sv_reads st)) ns t = Done (sc, inc)) ∧ same_grants st st'.
Proof.
  intros (o & st1 & (-> & Hs & _)%TableState_Done & H)%abind_Done.
  destruct (en_table _ _ _) as [[sc' inc]|e|]; [|done|done]. injection H as <- <-. eauto.
Qed.

Lemma each_Done {A} (f : A → api ()) (P : A → server_state → Prop) l st x st' :
  (∀ a st y st', f a st = (Done y, st') → P a st ∧ same_grants st st') →
  (∀ a st st', same_grants st st' → P a st' → P a st) →
  each f l st = (Done x, st') → (∀ a, a ∈ l → P a st) ∧ same_grants st st'.
Proof.
  intros Hf Hback. revert st. induction l as [|a l IH]; intros st; simpl.
  - intros [= <- <-]. split; [by intros a ?%not_elem_of_nil|done].
  - intros ([] & st1 & [Ha Hs]%Hf & [Hl Hs']%IH)%abind_Done. split; [|by etransitivity].
    intros b [->|Hb]%elem_of_cons; [done|]. eapply Hback; [exact Hs|]. auto.
Qed.

Lemma constraint_read_Done op ns table own c st x st' :
  constraint_read faults id op ns table own c st = (Done x, st') →
  (∀ target, consulted op table c = Some target →
     effective (sv_registry st) id (MkObject ns target) VerbRead
     ∨ own = true ∧ ∃ v, v ∈ dataVerbs ∧ effective (sv_registry st) id (MkObject ns target) v)
  ∧ same_grants st st'.
Proof.
  unfold constraint_read. destruct (consulted op table c) as [target|]; [|intros [= <- <-]; naive_solver].
  intros (vs & st1 & (-> & Hs & _)%verbs_on_Done & H)%abind_Done. unfold forbid in H.
  destruct (_ || _) eqn:Hh; [|done]. injection H as _ <-. split; [|done].
  apply orb_true_iff in Hh as [Hh|[-> Hh]%andb_true_iff]; intros target' [= <-].
  - left. by apply Has_held.
  - right. split; [done|]. by apply (HasAny_held _ _ _ dataVerbs).
Qed.

(** The reads a write to a constrained table is checked to have. *)
Definition constrained_met (r : registry) (e : engine) (op ns table : string) : Prop :=
  ∃ sc inc, en_table e ns table = Done (sc, inc)
    ∧ (op = "delete" → t_AcceptReferences sc = true → effective r id (MkObject ns "") VerbRead)
    ∧ ∀ c target, c ∈ t_Constraints sc → consulted op table c = Some target →
        effective r id (MkObject ns target) VerbRead
        ∨ own_rows sc = true ∧ (∃ v, v ∈ dataVerbs ∧ effective r id (MkObject ns target) v)
          ∧ (upserts op = true → ¬ effective r id (MkObject ns table) VerbRead).

Lemma effective_grants st st' obj v :
  same_grants st st' → effective (sv_registry st') id obj v ↔ effective (sv_registry st) id obj v.
Proof. intros Hs. by rewrite <-!Has_held, (same_grants_held _ _ _ _ Hs). Qed.

Lemma holdsTableWideRead_Done ns table st b st' :
  s_On s = true → is_admin id = false →
  holdsTableWideRead faults s id ns table st = (Done b, st') →
  (b = true ↔ effective (sv_registry st) id (MkObject ns table) VerbRead) ∧ same_grants st st'.
Proof.
  intros Hon Ha. unfold holdsTableWideRead. rewrite Hon, Ha. cbn [negb].
  destruct (s_HasGrants s); cbn [negb]; [|done].
  intros (vs & st1 & (-> & Hs & _)%verbs_on_Done & [= <- <-])%abind_Done. split; [apply Has_held|done].
Qed.

Lemma authorizeConstrainedWrite_Done op ns table st x st' :
  s_On s = true → is_admin id = false → s_HasGrants s = true →
  authorizeConstrainedWrite faults eng s id op ns table st = (Done x, st') →
  same_grants st st' ∧ constrained_met (sv_registry st) (eng (sv_reads st)) op ns table.
Proof.
  intros Hon Ha Hg. unfold authorizeConstrainedWrite. rewrite Ha, Hg. cbn [negb orb].
  intros (sc & st1 & [(inc & He) Hs1]%declaredSchema_Done & H)%abind_Done.
  apply abind_Done in H as (u & st2 & Hdel & H).
  assert (same_grants st1 st2 ∧ (op = "delete" → t_AcceptReferences sc = true →
    effective (sv_registry st1) id (MkObject ns "") VerbRead)) as [Hs2 Hd].
  { destruct (String.eqb_spec op "delete") as [->|]; cbn [andb] in Hdel; [|by injection Hdel as _ <-].
    destruct (t_AcceptReferences sc); [|by injection Hdel as _ <-].
    by apply requireRead_Done in Hdel as [? ?]. }
  apply abind_Done in H as (own & st3 & Hown & H).
  assert (same_grants st2 st3 ∧ (own = true → own_rows sc = true
    ∧ (upserts op = true → ¬ effective (sv_registry st2) id (MkObject ns table) VerbRead))) as [Hs3 Hw].
  { destruct (own_rows sc) eqn:Ho; cbn [andb] in Hown; [|by injection Hown as <- <-].
    destruct (upserts op); [|by injection Hown as <- <-].
    apply abind_Done in Hown as (wide & st4 & [Hiff ?]%holdsTableWideRead_Done & [= <- <-]); [|done|done].
    destruct wide; naive_solver. }
  apply (each_Done _ (λ c st, ∀ target, consulted op table c = Some target →
     effective (sv_registry st) id (MkObject ns target) VerbRead
     ∨ own = true ∧ ∃ v, v ∈ dataVerbs ∧ effective (sv_registry st) id (MkObject ns target) v)) in H as [Hc Hs4].
  - assert (same_grants st st2) as H02 by (by etransitivity).
    assert (same_grants st st3) as H03 by (by etransitivity).
    split; [by etransitivity|]. exists sc, inc. split; [done|].
    setoid_rewrite (λ o v, effective_grants st st1 o v Hs1) in Hd.
    setoid_rewrite (λ o v, effective_grants st st2 o v H02) in Hw.
    setoid_rewrite (λ o v, effective_grants st st3 o v H03) in Hc. split; [done|].
    intros c target Hin Ht. destruct (Hc c Hin target Ht) as [Hr|[-> Hv]]; [by left|right].
    destruct (Hw eq_refl). auto.
  - intros c st0 y st0'. apply constraint_read_Done.
  - intros c st0 st0' Hs Hp target Ht. setoid_rewrite <-(λ o v, effective_grants st0 st0' o v Hs). by apply Hp.
Qed.

(** ** Batches *)

Lemma indexed_Done {A} i (m : api A) st x st' : indexed i m st = (Done x, st') → m st = (Done x, st').
Proof. unfold indexed. destruct (m st) as [[]]; [done|done|done]. Qed.

(** One write of a batch passed as it would alone, at some instants of the
    engine. *)
Definition write_permitted (r : registry) (ns : string) (w : BatchWrite) : Prop :=
  bw_Table w ≠ ""
  ∧ (∃ k, permitted r (eng k) id (bw_Kind w) no_body (batchTarget ns (bw_Table w)))
  ∧ ∃ k, constrained_met r (eng k) (bw_Kind w) (NormalizeNamespace ns) (NormalizeTable (bw_Table w)).

Lemma write_permitted_grants st st' ns w :
  same_grants st st' → write_permitted (sv_registry st') ns w → write_permitted (sv_registry st) ns w.
Proof.
  destruct st as [[g k c] n], st' as [[g' k' c'] n']. intros (Hg & _). simpl in Hg. by subst g'.
Qed.

Lemma authorizeBatch_from_Done i ns body writes st x st' :
  s_On s = true → is_admin id = false → s_HasGrants s = true → body = no_body →
  authorizeBatch_from faults eng s id i ns body writes st = (Done x, st') →
  ∀ w, w ∈ writes → write_permitted (sv_registry st) ns w.
Proof.
  intros Hon Ha Hg ->. revert i st. induction writes as [|w writes IH]; intros i st; cbn [authorizeBatch_from].
  { by intros _ w ?%not_elem_of_nil. }
  destruct (String.eqb_spec (bw_Table w) "") as [|Ht]; [done|].
  intros H. apply abind_Done in H as ([] & st1 & Hp%indexed_Done & H).
  apply abind_Done in H as ([] & st2 & Hc%indexed_Done & H).
  apply authorizeVerbsOn_sound in Hp as [Hs1 Hp]; [|done].
  apply authorizeConstrainedWrite_Done in Hc as [Hs2 Hc]; [|done|done|done].
  intros w' [->|Hw]%elem_of_cons.
  - split; [done|]. split; [by eexists|]. exists (sv_reads st1).
    unfold constrained_met in *. by setoid_rewrite (λ o v, effective_grants st st1 o v Hs1) in Hc.
  - eapply write_permitted_grants; [|by eapply IH]. by etransitivity.
Qed.

(** C38. A batch is no way around the rules: when a batch passes
    authorization, every one of its writes names a table and is permitted as
    the same operation sent alone would be, on the normal names, constraint
    reads included. *)
Theorem batch_no_escalation body ns writes st st'
    (Hon : s_On s = true) (Ha : is_admin id = false) (Hg : s_HasGrants s = true)
    (Hb : b_batch body = Done (ns, writes))
    (H : authorizeOp faults eng s id "batch" body st = (Done (), st')) w (Hw : w ∈ writes) :
  write_permitted (sv_registry st) ns w.
Proof.
  unfold authorizeOp in H. rewrite Hon in H. simpl in H. rewrite Hb in H. unfold authorizeBatch in H.
  by eapply authorizeBatch_from_Done.
Qed.

(** ** Feeds *)

(** The guard of a feed decides as the rule of [changes_since] does. *)
Lemma authorizeFeed_rule ns table body t st :
  s_On s = true → at_Namespace t = NormalizeNamespace ns → at_Table t = table → NormalizeNamespace ns ≠ "" →
  authorizeFeed faults eng s id ns table st = authorizeVerbsOn faults eng s id "changes_since" body t st.
Proof.
  intros Hon Hns Ht Hne. unfold authorizeFeed, authorizeVerbsOn. rewrite Hon. cbn [negb].
  destruct (is_admin id); [done|].
  change (assoc "changes_since" authRules) with (Some (own_rule scopeTableOrNamespace [VerbRead])).
  cbv iota beta. rewrite decide_False by done. destruct (s_HasGrants s); cbn [negb]; [|done].
  cbn [objectFor ru_Scope own_rule]. apply String.eqb_neq in Hne. rewrite Hns, Hne, Ht.
  unfold abind. destruct (verbs_on faults id _ st) as [[vs|e|] st1]; [|done|done].
  cbn [ru_AnyVerb ru_Verbs ru_OwnRows own_rule andb]. unfold HasAll. cbn [forallb]. rewrite andb_true_r.
  destruct (Has vs VerbRead); cbn [negb]; [done|]. unfold tableHasRowAccess. cbn [Table].
  destruct (String.eqb table ""); cbn [negb andb]; [by destruct (HasAny vs dataVerbs)|]. done.
Qed.

(** ** Listings *)

Lemma visible_loop_Done ns tables st out st' :
  visible_loop faults id ns tables st = (Done out, st') →
  out = List.filter (λ t, negb (Empty (held_verbs (sv_registry st) id (MkObject ns t)))) tables.
Proof.
  revert st out st'. induction tables as [|t tables IH]; intros st out st'; simpl; [by intros [= <- _]|].
  intros (vs & st1 & (-> & Hs & _)%verbs_on_Done & H)%abind_Done.
  apply abind_Done in H as (rest & st2 & ->%IH & [= <- _]).
  assert (∀ t, held_verbs (sv_registry st1) id (MkObject ns t) = held_verbs (sv_registry st) id (MkObject ns t)) as Hh.
  { intros. by apply same_grants_held. }
  destruct (Empty _); simpl; [|f_equal]; apply List.filter_ext; intros; by rewrite Hh.
Qed.

Lemma visible_filter r ns tables t :
  t ∈ List.filter (λ t, negb (Empty (held_verbs r id (MkObject ns t)))) tables ↔ t ∈ tables ∧ reaches r id (MkObject ns t).
Proof. by rewrite list_elem_of_In, List.filter_In, negb_true_iff, held_nonempty, <-list_elem_of_In. Qed.

Lemma visibleTables_Done ns tables st out st' :
  s_On s = true → is_admin id = false → visibleTables faults s id ns tables st = (Done out, st') →
  out = List.filter (λ t, negb (Empty (held_verbs (sv_registry st) id (MkObject ns t)))) tables.
Proof.
  intros Hon Ha. unfold visibleTables. rewrite Hon, Ha. cbn [negb]. destruct (s_HasGrants s); cbn [negb]; [|done].
  intros (vs & st1 & (-> & Hs & _)%verbs_on_Done & H)%abind_Done.
  destruct (Empty _) eqn:He; cbn [negb] in H.
  - apply visible_loop_Done in H as ->. apply List.filter_ext. intros t. by rewrite (same_grants_held st).
  - injection H as <- _. symmetry. apply List.forallb_filter_id, List.forallb_forall. intros t _.
    apply negb_true_iff, held_nonempty, reaches_table, held_nonempty. done.
Qed.

Lemma granted_Done st g st' :
  granted_namespaces faults id st = (Done g, st') →
  same_grants st st'
  ∧ ∀ ns, ns ∈ g ↔ ∃ sub o row, sub ∈ subjectsFor id ∧ grants (sv_registry st) !! (sub, o) = Some row ∧ Namespace o = ns.
Proof.
  unfold granted_namespaces, registry_op, NamespacesWithAnyGrant, stmt. destruct (faults _); [done|].
  intros [= <- <-]. split; [done|]. intros ns. rewrite elem_of_list_to_set, list_elem_of_fmap. split.
  - intros ([[sub o] row] & -> & [Hg Hs%bool_decide_eq_true]%elem_of_rows). eauto 10.
  - intros (sub & o & row & Hs & Hg & <-). exists (sub, o, row). split; [done|].
    apply elem_of_rows. split; [done|]. by apply bool_decide_eq_true.
Qed.

(** A grant the caller holds bears on a namespace: it is on the root, on the
    namespace, above it or below it. *)
Definition namespace_granted (r : registry) (ns : string) : Prop :=
  ∃ sub o row, sub ∈ subjectsFor id ∧ grants r !! (sub, o) = Some row
    ∧ (Namespace o = RootObject ∨ path_prefix (Namespace o) ns ∨ path_prefix ns (Namespace o)).

Lemma has_prefix_path p ns : has_prefix ns (p +:+ "/") = true ↔ ∃ rest, ns = p +:+ "/" +:+ rest.
Proof. rewrite has_prefix_spec. by setoid_rewrite <-app_assoc_str. Qed.

Lemma namespaceVisible_spec ns g :
  namespaceVisible ns g = true ↔ ∃ n, n ∈ g ∧ (path_prefix n ns ∨ path_prefix ns n).
Proof.
  unfold namespaceVisible. rewrite existsb_exists. setoid_rewrite <-list_elem_of_In.
  setoid_rewrite elem_of_elements. setoid_rewrite orb_true_iff. setoid_rewrite orb_true_iff.
  setoid_rewrite has_prefix_path. setoid_rewrite String.eqb_eq. unfold path_prefix. naive_solver.
Qed.

Lemma granted_visible st g st' ns :
  granted_namespaces faults id st = (Done g, st') →
  (RootObject ∈ g ∨ namespaceVisible ns g = true) ↔ namespace_granted (sv_registry st) ns.
Proof.
  intros [_ Hg]%granted_Done. rewrite namespaceVisible_spec, Hg. setoid_rewrite Hg.
  unfold namespace_granted. naive_solver.
Qed.

(** The listings.  [list_namespaces] shows exactly the namespaces that a
    grant the caller holds bears on: on the root, on it, above it or below it;
    [list_tables] exactly the tables a non-empty grant reaches, although it
    asks table by table only when nothing reaches the namespace; both keep the
    order they were given, and whoever is shown a table is shown its
    namespace. *)
Theorem listings_exact nss ns tables st out_ns out_tables st1 st2
    (Hon : s_On s = true) (Ha : is_admin id = false)
    (H1 : visibleNamespaces faults s id nss st = (Done out_ns, st1))
    (H2 : visibleTables faults s id ns tables st = (Done out_tables, st2)) :
  (∀ n, n ∈ out_ns ↔ n ∈ nss ∧ namespace_granted (sv_registry st) n)
  ∧ (∀ t, t ∈ out_tables ↔ t ∈ tables ∧ reaches (sv_registry st) id (MkObject ns t))
  ∧ (∃ keep, out_ns = List.filter keep nss) ∧ (∃ keep, out_tables = List.filter keep tables)
  ∧ (ns ∈ nss → out_tables ≠ [] → ns ∈ out_ns).
Proof.
  apply visibleTables_Done in H2 as ->; [|done|done].
  assert ((∀ n, n ∈ out_ns ↔ n ∈ nss ∧ namespace_granted (sv_registry st) n)
          ∧ ∃ keep, out_ns = List.filter keep nss) as [Hns Hkeep].
  { unfold visibleNamespaces in H1. rewrite Hon, Ha in H1. cbn [negb] in H1.
    destruct (s_HasGrants s); cbn [negb] in H1; [|done].
    apply abind_Done in H1 as (g & st3 & Hg & H1). pose proof (λ n, granted_visible _ _ _ n Hg) as Hv.
    destruct (bool_decide_reflect (RootObject ∈ g)) as [Hr|Hr]; injection H1 as <- _.
    - split; [intros n; split; [|by intros [? _]]; intros Hn; split; [done|]; apply Hv; by left|].
      exists (λ _, true). symmetry. by apply List.forallb_filter_id, List.forallb_forall.
    - split; [|by eexists]. intros n. rewrite <-Hv, list_elem_of_In, List.filter_In, <-list_elem_of_In. tauto. }
  split_and!; [done|intros t; apply visible_filter|done|by eexists|].
  intros Hin Hne. apply Hns. split; [done|].
  destruct (List.filter _ _) as [|t out] eqn:Hf in Hne; [done|].
  assert (t ∈ t :: out) as Ht by left. rewrite <-Hf in Ht.
  apply visible_filter in Ht as [_ (sub & o & row & Hs & Ho & Hg & _)]. exists sub, o, row.
  split_and!; [done|done|]. apply elem_of_covering in Ho as [->|(_ & [[_ Hp]|[-> _]])]; [by left|by right; left|].
  right; left. by left.
Qed.
End Rules.

(** ** At concrete data *)

#[local] Existing Instance ascii_tables.

Definition carol : Identity := MkIdentity "carol" ["drafters"] HeaderSourceName.
Definition drafters : Subject := MkSubject SubjectGroup "drafters".
Definition notes : Object_ := MkObject "team_a/docs" "notes".
(** Carol may create in one table, and her group read another namespace. *)
Definition desk : registry :=
  Registry {[ (MkSubject SubjectPrincipal "carol", notes) := GrantRow 1 (Some 0);
              (drafters, MkObject "team_b" "") := GrantRow 3 (Some 0) ]} [] 0.
Definition desk_state : server_state := ServerState desk 0.
Definition notes_schema (row_access : string) (version : Z) : TableSchema :=
  MkTable "team_a/docs" "notes" version [] "" 0 row_access true [] false None.
Definition notes_engine (row_access : string) (version : Z) : engine :=
  Engine (λ ns t, if String.eqb ns "team_a/docs" && String.eqb t "notes"
                  then Done (notes_schema row_access version, MkIncarnation (replicate 16 7) "notes" version 0)
                  else Fail StoreNotFound)
         (λ ns, if String.eqb ns "team_a/docs" then Done () else Fail StoreNotFound).
Definition own_engine : nat → engine := λ _, notes_engine RowAccessOwn 1.
Definition guarded : Server := MkServer true true.
Definition body_for (ns t : string) (batch : list BatchWrite) : Body :=
  MkBody (MkTarget ns t None [] []) (MkCreateTable [] false) [] None (Done (ns, batch)).

Lemma desk_normal : normal_grants desk.
Proof.
  intros sub o row H. unfold normal_object.
  assert ((String.eqb (NormalizeNamespace (Namespace o)) (Namespace o)
           && String.eqb (NormalizeTable (Table o)) (Table o)) = true) as [?%String.eqb_eq ?%String.eqb_eq]%andb_true_iff;
    [|done].
  apply (rows_forallb desk (λ k _, String.eqb (NormalizeNamespace (Namespace k.2)) (Namespace k.2)
    && String.eqb (NormalizeTable (Table k.2)) (Table k.2)) ltac:(vm_compute; reflexivity) (sub, o) row H).
Qed.

Lemma own_engine_names i ns t sc inc :
  en_table (own_engine i) ns t = Done (sc, inc) → NormalizeNamespace ns = ns ∧ NormalizeTable t = t.
Proof.
  unfold own_engine, notes_engine. cbn [en_table].
  destruct (String.eqb_spec ns "team_a/docs") as [->|]; [|done].
  destruct (String.eqb_spec t "notes") as [->|]; [|done]. intros _. split; vm_compute; reflexivity.
Qed.

Lemma authorizeVerbsOn_exact_witness :
  (authorizeVerbsOn (λ _, false) own_engine guarded carol "read_rows" (body_for "team_a/docs" "notes" [])
     (b_target (body_for "team_a/docs" "notes" [])) desk_state).1 = Done ()
  ↔ permitted desk (own_engine 0) carol "read_rows" (body_for "team_a/docs" "notes" [])
      (b_target (body_for "team_a/docs" "notes" [])).
Proof. by apply (authorizeVerbsOn_exact (λ _, false) own_engine guarded carol). Defined.

Lemma own_rows_scope_witness :
  MkRowScope "carol" false = MkRowScope (Principal carol) false
  ∧ ¬ effective desk carol notes VerbRead
  ∧ (∃ v, v ∈ dataVerbs ∧ effective desk carol notes v) ∧ row_access_on (own_engine 0) notes.
Proof.
  refine (own_rows_scope (λ _, false) own_engine guarded carol "read_rows" (body_for "team_a/docs" "notes" []) desk_state
    (Some (MkRowScope "carol" false)) (MkIncarnation (replicate 16 7) "notes" 1 0)
    (ServerState (Registry (grants desk) [] 2) 2)
    (Done (notes_schema RowAccessOwn 1, MkIncarnation (replicate 16 7) "notes" 1 0)) _ _ _ desk_normal own_engine_names _ _).
  - by left.
  - done.
  - done.
  - done.
  - vm_compute. reflexivity.
Defined.

Definition note_write : BatchWrite := MkBatchWrite "insert" "notes" "" None zero_incarnation.
Lemma batch_no_escalation_witness : write_permitted own_engine carol desk "team_a/docs" note_write.
Proof.
  refine (batch_no_escalation (λ _, false) own_engine guarded carol (body_for "team_a/docs" "" [note_write])
    "team_a/docs" [note_write] desk_state (ServerState (Registry (grants desk) [] 1) 1) _ _ _ _ _ note_write _).
  - done.
  - done.
  - done.
  - done.
  - vm_compute. reflexivity.
  - by left.
Defined.

Lemma listings_exact_witness :
  (∀ n, n ∈ ["team_a"; "team_a/docs"] ↔ n ∈ ["team_a"; "team_a/docs"; "team_c"] ∧ namespace_granted carol desk n)
  ∧ (∀ t, t ∈ ["notes"] ↔ t ∈ ["notes"; "plans"] ∧ reaches desk carol (MkObject "team_a/docs" t))
  ∧ (∃ keep, ["team_a"; "team_a/docs"] = List.filter keep ["team_a"; "team_a/docs"; "team_c"])
  ∧ (∃ keep, ["notes"] = List.filter keep ["notes"; "plans"])
  ∧ ("team_a/docs" ∈ ["team_a"; "team_a/docs"; "team_c"] → ["notes"] ≠ [] → "team_a/docs" ∈ ["team_a"; "team_a/docs"]).
Proof.
  refine (listings_exact (λ _, false) guarded carol ["team_a"; "team_a/docs"; "team_c"] "team_a/docs" ["notes"; "plans"] desk_state
    ["team_a"; "team_a/docs"] ["notes"] (ServerState (Registry (grants desk) [] 1) 0)
    (ServerState (Registry (grants desk) [] 3) 0) _ _ _ _).
  - done.
  - done.
  - vm_compute. reflexivity.
  - vm_compute. reflexivity.
Defined.

(** Where the policy may change between the two reads of one request, the
    guarantee is lost: row access is turned off after [read_rows] was let
    through for her own rows and before the scope is resolved, and Carol, who
    does not hold [read], is answered with the unrestricted scope, on the
    table's new incarnation. *)
Definition changing_engine : nat → engine := λ i, match i with O => notes_engine RowAccessOwn 1 | _ => notes_engine "" 2 end.
Lemma policy_race :
  ((do! _ := authorizeOp (λ _, false) changing_engine guarded carol "read_rows" (body_for "team_a/docs" "notes" []) in
    resolveScope (λ _, false) changing_engine guarded carol "team_a/docs" "notes") desk_state).1
  = Done (None, MkIncarnation (replicate 16 7) "notes" 2 0)
  ∧ ¬ effective desk carol notes VerbRead.
Proof. split; [vm_compute; reflexivity|]. rewrite <-Has_held. vm_compute. discriminate. Qed.
