(* ===== verification/GoNumbers.v ===== *)
(** * Numbers as Go reads and compares them

    [float64] values as exact binary fractions, [strconv.ParseInt] and
    [strconv.ParseFloat] on decimal texts (rounded to the nearest double, ties
    to even), and the exact rationals of [math/big] with their text. *)
From Stdlib Require Import ZArith QArith Qcanon Lia Ascii String.
From stdpp Require Import base gmap strings list numbers pretty.
From S2P Require Import Prelude GoStrings.
Local Open Scope Z_scope.

(** ** float64 *)

(** A finite value is [m * 2^e]; several pairs may stand for one value. *)
Inductive float64 :=
| Finite (m e : Z)
| Infinite (negative : bool)
| NotANumber.

Definition is_finite (f : float64) : bool := match f with Finite _ _ => true | _ => false end.

(** The value of a finite float; [big.Rat.SetFloat64] has no other. *)
Definition pow2 (e : Z) : Qc :=
  if e <? 0 then Q2Qc (Qmake 1 (Z.to_pos (2 ^ (- e)))) else Q2Qc (inject_Z (2 ^ e)).
Definition SetFloat64 (f : float64) : option Qc :=
  match f with
  | Finite m e => Some (Q2Qc (inject_Z m) * pow2 e)%Qc
  | _ => None
  end.
Definition SetInt64 (n : Z) : Qc := Q2Qc (inject_Z n).

(** ** Integers *)

Definition min_int64 : Z := - 2 ^ 63.
Definition max_int64 : Z := 2 ^ 63 - 1.
Definition is_int64 (n : Z) : bool := (min_int64 <=? n) && (n <=? max_int64).

Definition digit_value (c : ascii) : option Z :=
  if in_range 48 57 (byte_val c) then Some (byte_val c - 48) else None.

(** The digits at the head of a text: their value, how many, and the rest. *)
Fixpoint read_digits (acc : Z) (count : nat) (s : string) : Z * nat * string :=
  match s with
  | EmptyString => (acc, count, s)
  | String c s' =>
      match digit_value c with
      | Some d => read_digits (10 * acc + d) (S count) s'
      | None => (acc, count, s)
      end
  end.

Definition read_sign (s : string) : bool * string :=
  match s with
  | String c s' => if Ascii.eqb c "-" then (true, s') else if Ascii.eqb c "+" then (false, s') else (false, s)
  | EmptyString => (false, s)
  end.

(** [strconv.ParseInt(s, 10, 64)]; [None] is its error. *)
Definition ParseInt (s : string) : option Z :=
  let '(neg, s) := read_sign s in
  let '(v, n, rest) := read_digits 0 0 s in
  if (n =? 0)%nat || negb (String.eqb rest "") then None
  else let v := if neg then - v else v in if is_int64 v then Some v else None.

(** ** Rounding to a double *)

(** [num / den], rounded to [2^e] units, ties to even. *)
Definition round_even (num den : Z) : Z :=
  let q := num / den in
  let r := 2 * (num - q * den) in
  if r <? den then q else if den <? r then q + 1 else if Z.even q then q else q + 1.

Definition scaled (num den e : Z) : Z * Z := if e <? 0 then (num * 2 ^ (- e), den) else (num, den * 2 ^ e).

(** The double nearest to the positive [num / den]: 53 bits of mantissa, no
    exponent under -1074, and no finite value from [2^1024] on. *)
Definition round_float (num den : Z) : float64 :=
  let e0 := Z.log2 num - Z.log2 den - 53 in
  let fits e := let '(n, d) := scaled num den e in n <? 2 ^ 53 * d in
  let e1 := if fits e0 then e0 else if fits (e0 + 1) then e0 + 1 else e0 + 2 in
  let e := Z.max e1 (-1074) in
  let '(n, d) := scaled num den e in
  let m := round_even n d in
  if (0 <? e) && (2 ^ 1024 <=? m * 2 ^ e) then Infinite false else Finite m e.

(** [strconv.ParseFloat(s, 64)] on a decimal text: digits with at most one
    point, and an exponent.  [None] is its error, which an overflow is too. *)
Definition ParseFloat (s : string) : option float64 :=
  let '(neg, s) := read_sign s in
  let '(v1, n1, rest) := read_digits 0 0 s in
  let '(v2, n2, rest) :=
    match rest with
    | String c rest' => if Ascii.eqb c "." then read_digits v1 0 rest' else (v1, O, rest)
    | EmptyString => (v1, O, rest)
    end in
  let tail :=
    match rest with
    | EmptyString => Some 0
    | String c rest' =>
        if Ascii.eqb c "e" || Ascii.eqb c "E" then
          let '(eneg, rest') := read_sign rest' in
          let '(e, n, rest'') := read_digits 0 0 rest' in
          if (n =? 0)%nat || negb (String.eqb rest'' "") then None else Some (if eneg then - e else e)
        else None
    end in
  match tail with
  | None => None
  | Some e =>
      if (n1 + n2 =? 0)%nat then None
      else if v2 =? 0 then Some (Finite 0 0)
      else
        let e := e - Z.of_nat n2 in
        match (if e <? 0 then round_float v2 (10 ^ (- e)) else round_float (v2 * 10 ^ e) 1) with
        | Finite m x => Some (Finite (if neg then - m else m) x)
        | _ => None
        end
  end.

(** ** Rationals and their texts *)

Definition Rat_Cmp (a b : Qc) : comparison := Qccompare a b.

(** [RatString]: the numerator, and the denominator when it is not one. *)
Definition RatString (q : Qc) : string :=
  let '(Qmake num den) := this q in
  if Pos.eqb den 1 then pretty num else pretty num +:+ "/" +:+ pretty (Zpos den).

(** ** Examples *)

Example parse_half : ParseFloat "-0.5" = Some (Finite (- 2 ^ 52) (-53)).
Proof. vm_compute. reflexivity. Qed.
Example parse_tenth : SetFloat64 (default NotANumber (ParseFloat "0.1"))
  = Some (Q2Qc (3602879701896397 # 36028797018963968)).
Proof. vm_compute. f_equal. apply Qc_is_canon. reflexivity. Qed.
Example parse_huge : ParseFloat "1e400" = None.
Proof. vm_compute. reflexivity. Qed.
Example parse_smallest : ParseFloat "4.9e-324" = Some (Finite 1 (-1074)).
Proof. vm_compute. reflexivity. Qed.
Example parse_largest : ParseFloat "1.7976931348623157e308" = Some (Finite (2 ^ 53 - 1) 971).
Proof. vm_compute. reflexivity. Qed.

(** ** Lemmas *)

Lemma Rat_Cmp_eq a b : Rat_Cmp a b = Eq ↔ a = b.
Proof. unfold Rat_Cmp. symmetry. apply Qceq_alt. Qed.

Fixpoint has_slash (s : string) : bool :=
  match s with EmptyString => false | String c s => Ascii.eqb c "/" || has_slash s end.

Lemma has_slash_app a b : has_slash (a +:+ b) = has_slash a || has_slash b.
Proof. induction a; simpl; [done|]. by rewrite IHa, orb_assoc. Qed.

Lemma pretty_N_char_slash n : Ascii.eqb (pretty_N_char n) "/" = false.
Proof. unfold pretty_N_char. repeat case_match; done. Qed.

Lemma pretty_N_go_slash x s : has_slash s = false → has_slash (pretty_N_go x s) = false.
Proof.
  revert s. induction (N.lt_wf_0 x) as [x _ IH]. intros s Hs.
  destruct (decide (0 < x)%N) as [Hx|Hx].
  - rewrite pretty_N_go_step by done. apply IH; [by apply N.div_lt|].
    simpl. by rewrite pretty_N_char_slash.
  - assert (x = 0%N) as -> by lia. by rewrite pretty_N_go_0.
Qed.

Lemma pretty_Z_slash (z : Z) : has_slash (pretty z) = false.
Proof.
  assert (∀ n : N, has_slash (pretty n) = false) as HN.
  { intros n. unfold pretty, pretty_N. destruct (decide _); [done|]. by apply pretty_N_go_slash. }
  destruct z as [|p|p]; [done| |]; simpl; apply HN.
Qed.

Lemma slash_split a b c d :
  has_slash a = false → has_slash c = false → a +:+ String "/" b = c +:+ String "/" d → a = c ∧ b = d.
Proof.
  revert c. induction a as [|x a IH]; intros [|y c]; simpl; intros Ha Hc.
  - by intros [= ->].
  - intros [= <- _]. done.
  - intros [= -> _]. done.
  - apply orb_false_iff in Ha as [_ Ha], Hc as [_ Hc]. intros [= -> H]. by destruct (IH c Ha Hc H) as [-> ->].
Qed.

(** A rational is its text. *)
Lemma RatString_inj a b : RatString a = RatString b → a = b.
Proof.
  intros H. apply Qc_is_canon. unfold RatString in H. destruct (this a) as [n d], (this b) as [n' d'].
  assert (n = n' ∧ d = d') as [-> ->]; [|done].
  destruct (Pos.eqb d 1) eqn:Hd; destruct (Pos.eqb d' 1) eqn:Hd'.
  - apply Pos.eqb_eq in Hd, Hd'. split; [by apply (inj pretty)|congruence].
  - exfalso. pose proof (pretty_Z_slash n) as Hs. rewrite H, has_slash_app, orb_false_iff in Hs. by destruct Hs.
  - exfalso. pose proof (pretty_Z_slash n') as Hs. rewrite <-H, has_slash_app, orb_false_iff in Hs. by destruct Hs.
  - apply slash_split in H as [Hn Hd2]; [|apply pretty_Z_slash..].
    apply (inj pretty) in Hn, Hd2. split; [done|congruence].
Qed.
