(* ===== verification/Timestamps.v ===== *)
(** * Timestamps ([CanonicalTimestamp] of [internal/schema/schema.go])

    The shape a timestamp text must have, what [time.Parse] accepts for the
    four layouts tried, the offsets allowed, and the canonical text. *)
From Stdlib Require Import ZArith Lia Ascii String.
From stdpp Require Import base gmap strings list.
From S2P Require Import Prelude GoStrings AuthIdentity SchemaIdent GoNumbers.
Local Open Scope Z_scope.

(** ** The readers of [time.Parse] *)

Definition expect (c : ascii) (s : string) : option string :=
  match s with String d s => if Ascii.eqb d c then Some s else None | EmptyString => None end.

(** [getnum(s, true)] and [getnum(s, false)]. *)
Definition getnum (fixed : bool) (s : string) : option (Z * string) :=
  match s with
  | String a s1 =>
      match digit_value a with
      | None => None
      | Some x =>
          match s1 with
          | String b s2 =>
              match digit_value b with
              | Some y => Some (10 * x + y, s2)
              | None => if fixed then None else Some (x, s1)
              end
          | EmptyString => if fixed then None else Some (x, s1)
          end
      end
  | EmptyString => None
  end.

Definition read_year (s : string) : option (Z * string) :=
  match s with
  | String a (String b (String c (String d rest))) =>
      match digit_value a, digit_value b, digit_value c, digit_value d with
      | Some a, Some b, Some c, Some d => Some (1000 * a + 100 * b + 10 * c + d, rest)
      | _, _, _, _ => None
      end
  | _ => None
  end.

Definition leap (year : Z) : bool := (year mod 4 =? 0) && (negb (year mod 100 =? 0) || (year mod 400 =? 0)).
Definition daysIn (month year : Z) : Z :=
  if (month =? 2) then (if leap year then 29 else 28)
  else if (month =? 4) || (month =? 6) || (month =? 9) || (month =? 11) then 30 else 31.

Notation "'read!' x ':=' m 'in' k" := (match m with Some x => k | None => None end)
  (at level 10, x pattern, m at level 100, k at level 200, only parsing) : dolmen_scope.

(** The layout [2006-01-02]: what follows the date. *)
Definition read_date (s : string) : option string :=
  read! (year, s) := read_year s in
  read! s := expect "-" s in
  read! (month, s) := getnum true s in
  if negb (in_range 1 12 month) then None
  else
    read! s := expect "-" s in
    read! (day, s) := getnum true s in
    if in_range 1 (daysIn month year) day then Some s else None.

(** A fraction of a second after [05], although the layout has none. *)
Definition skip_fraction (s : string) : string :=
  match s with
  | String c (String d rest) =>
      if (Ascii.eqb c "." || Ascii.eqb c ",") && bool_decide (is_Some (digit_value d))
      then (read_digits 0 0 rest).2 else s
  | _ => s
  end.

(** The layout [15:04:05]. *)
Definition read_clock (s : string) : option string :=
  read! (hour, s) := getnum false s in
  if 24 <=? hour then None
  else
    read! s := expect ":" s in
    read! (minute, s) := getnum true s in
    if 60 <=? minute then None
    else
      read! s := expect ":" s in
      read! (sec, s) := getnum true s in
      if 60 <=? sec then None else Some (skip_fraction s).

(** The layout [Z07:00]; offsets of 24 hours and 60 minutes pass here. *)
Definition read_zone (s : string) : option string :=
  match s with
  | String "Z" s => Some s
  | String sign s =>
      if Ascii.eqb sign "+" || Ascii.eqb sign "-" then
        read! (h, s) := getnum true s in
        read! s := expect ":" s in
        read! (m, s) := getnum true s in
        if (24 <? h) || (60 <? m) then None else Some s
      else None
  | EmptyString => None
  end.

Definition ended (s : option string) : bool := match s with Some s => String.eqb s "" | None => false end.

Inductive layout := RFC3339 | LocalT | LocalSpace | DateOnly.
Definition timestampLayouts : list layout := [RFC3339; LocalT; LocalSpace; DateOnly].

Definition time_Parse (l : layout) (s : string) : bool :=
  match l with
  | RFC3339 => ended (read! s := read_date s in read! s := expect "T" s in
                      read! s := read_clock s in read_zone s)
  | LocalT => ended (read! s := read_date s in read! s := expect "T" s in read_clock s)
  | LocalSpace => ended (read! s := read_date s in read! s := expect " " s in read_clock s)
  | DateOnly => ended (read_date s)
  end.

(** ** The code *)

(** The part of [isoRe] after the date. *)
Definition clock_byte (c : ascii) : bool :=
  digit_byte c || Ascii.eqb c ":" || Ascii.eqb c "." || Ascii.eqb c "+" || Ascii.eqb c "-"
  || Ascii.eqb c "Z" || Ascii.eqb c "z".
Definition isoRe (s : string) : bool :=
  match (read! (_, s) := read_year s in read! s := expect "-" s in read! (_, s) := getnum true s in
         read! s := expect "-" s in read! (_, s) := getnum true s in Some s) with
  | None => false
  | Some EmptyString => true
  | Some (String c rest) =>
      (Ascii.eqb c "T" || Ascii.eqb c "t" || Ascii.eqb c " ") && negb (String.eqb rest "") && all_bytes clock_byte rest
  end.

(** [offsetRe] matched, and not on [Z]: the hours and minutes of the offset a
    text ends with. *)
Definition offset_at (s : string) : option (Z * Z) :=
  match s with
  | String sign s =>
      if Ascii.eqb sign "+" || Ascii.eqb sign "-" then
        read! (h, s) := getnum true s in
        read! s := expect ":" s in
        read! (m, s) := getnum true s in
        if String.eqb s "" then Some (h, m) else None
      else None
  | EmptyString => None
  end.
Definition validRFC3339Offset (s : string) : bool :=
  match offset_at (str_drop (String.length s - 6) s) with
  | Some (h, m) => (h <=? 23) && (m <=? 59)
  | None => true
  end.

(** The separator [t] and the suffix [z] written in capitals. *)
Definition capital_t (s : string) : string :=
  match str_drop 10 s with
  | String "t" rest => str_take 10 s +:+ String "T" rest
  | _ => s
  end.
Fixpoint capital_z (s : string) : string :=
  match s with
  | EmptyString => EmptyString
  | String c EmptyString => if Ascii.eqb c "z" then "Z" else s
  | String c s => String c (capital_z s)
  end.

Section Canonical.
Context {UT : UnicodeTables}.

Definition CanonicalTimestamp (s : string) : option string :=
  let s := trim_space s in
  if negb (isoRe s) then None
  else
    let norm := capital_z (capital_t s) in
    if existsb (λ l, time_Parse l norm) timestampLayouts
    then if validRFC3339Offset s then Some norm else None
    else None.

Definition LooksLikeTimestamp (s : string) : bool := bool_decide (is_Some (CanonicalTimestamp s)).
End Canonical.

(** ** Examples *)

#[local] Existing Instance ascii_tables.
Example canonical_lower : CanonicalTimestamp " 2024-02-29t1:02:03.25z " = Some "2024-02-29T1:02:03.25Z".
Proof. vm_compute. reflexivity. Qed.
Example canonical_leap : CanonicalTimestamp "2023-02-29" = None.
Proof. vm_compute. reflexivity. Qed.
Example canonical_offset : CanonicalTimestamp "2023-02-28T10:00:00+24:00" = None.
Proof. vm_compute. reflexivity. Qed.
Example canonical_space_zone : CanonicalTimestamp "2023-02-28 10:00:00Z" = None.
Proof. vm_compute. reflexivity. Qed.
