(* ===== verification/ConstraintPlans.v ===== *)
(** * Constraint plans and their checks
    ([internal/constraints/predicate.go], [evaluate.go], [check.go], [catalog.go])

    A unique constraint is compiled to its key fields and a predicate, a
    foreign key to the endpoint it looks up; a catalogue check runs every plan
    of every table of a namespace on the rows of a snapshot.

    A context is observed at numbered places of the computation: [oracle]
    answers for a place, written as the path of calls that leads to it. *)
From Stdlib Require Import ZArith QArith Qcanon Lia Ascii String.
From stdpp Require Import base gmap strings list sorting.
From S2P Require Import Prelude GoStrings FilterLexer FilterParser SchemaIdent SchemaNames Schema SchemaConstraints GoNumbers Timestamps ConstraintValues.
Local Open Scope Z_scope.

Definition oracle := list nat → option ctx_error.
Definition still : oracle := λ _, None.
Definition at_ctx (o : oracle) (path : list nat) : ctx := λ n, o (n :: path).
Definition polls_at (o : oracle) (path : list nat) : polls :=
  Polls (λ n, o (n :: 0%nat :: path)) (λ n, at_ctx o (n :: 1%nat :: path)).

(** ** Predicates *)

Record operand := MkOperand { op_column : string; op_field : Field; op_constant : option scalar }.

(** [CNil] is the nil [*condition]. *)
Inductive condition :=
| CNil
| Cond (op : string) (left right : condition) (a b : operand).

Definition zero_field : Field := MkField "" "" false false 0 false None "" JNull 0 None.
Definition predicate_field (t : FieldType) : Field := MkField "predicate" t false false 0 false None "" JNull 0 None.
Definition no_operand : operand := MkOperand "" zero_field None.
Definition without_enum (f : Field) : Field :=
  MkField (f_Name f) (f_Type f) (f_Fulltext f) (f_Vectorize f) (f_Dim f) (f_Required f) None (f_Shape f)
    (f_Default f) (f_MaxBytes f) (f_MediaTypes f).
(** [fields[name]] of a map: a missing name reads as the zero field. *)
Definition field_of (fields : list Field) (name : string) : Field := default zero_field (by_name fields name).

Inductive compile_error :=
| CompileCanceled (e : ctx_error) | UnsupportedCondition | IncompatibleLiterals | IncompatibleFields
| ExpectedLiteral | UnsupportedLiteral | BadNumber (e : coerce_error) | BadScalar (e : scalar_error).

Fixpoint unparen (n : Node) : Node := match n with Paren inner => unparen inner | _ => n end.
Definition column_of (n : Node) : option string := match unparen n with Column name => Some name | _ => None end.

Definition lift_error {A E E'} (f : E → E') (o : outcome E A) : outcome E' A :=
  match o with Done a => Done a | Fail e => Fail (f e) | OutOfFuel => OutOfFuel end.

Section Compile.
Context {UT : UnicodeTables}.

Definition literalValue (n : Node) : outcome compile_error goval :=
  let '(sign, n) := match unparen n with Unary op operand => (op, operand) | n => ("", n) end in
  match n with
  | Literal LiteralNull _ => Done GNil
  | Literal LiteralString text => Done (GString text)
  | Literal LiteralTrue _ => Done (GBool true)
  | Literal LiteralFalse _ => Done (GBool false)
  | Literal LiteralNumber text => lift_error BadNumber (Coerce (predicate_field Number) (GNumber (sign +:+ text)))
  | Literal LiteralBlob _ => Fail UnsupportedLiteral
  | _ => Fail ExpectedLiteral
  end.

Definition compileOperand (n : Node) (field : Field) (fields : list Field) : outcome compile_error operand :=
  match column_of n with
  | Some name =>
      let actual := field_of fields name in
      if negb (String.eqb (f_Type actual) (f_Type field)) && negb (textual actual && textual field)
      then Fail IncompatibleFields
      else Done (MkOperand name (without_enum actual) None)
  | None =>
      let! raw := literalValue n in
      match raw with
      | GNil => Done no_operand
      | _ => let! s := lift_error BadScalar (coerceScalar field raw) in Done (MkOperand "" zero_field (Some s))
      end
  end.

Definition literal_type (v : goval) : FieldType :=
  match v with GInt64 _ | GFloat _ => Number | GBool _ => Boolean | _ => TString end.

(** The loop over two literals: the kind agreed so far. *)
Fixpoint literal_kinds (kind : FieldType) (nodes : list Node) : outcome compile_error FieldType :=
  match nodes with
  | [] => Done kind
  | n :: nodes =>
      match literalValue n with
      | Fail _ | Done GNil => literal_kinds kind nodes
      | OutOfFuel => OutOfFuel
      | Done raw =>
          if negb (String.eqb kind "") && negb (String.eqb kind (literal_type raw)) then Fail IncompatibleLiterals
          else literal_kinds (literal_type raw) nodes
      end
  end.

(** The field the operands of a comparison are read as: the left column's,
    the right one's, or a field of the literals' own type. *)
Definition comparison_field (a b : Node) (fields : list Field) : outcome compile_error Field :=
  match column_of a, column_of b with
  | Some name, _ => Done (without_enum (field_of fields name))
  | None, Some name => Done (without_enum (field_of fields name))
  | None, None =>
      let! kind := literal_kinds "" [a; b] in
      Done (predicate_field (if String.eqb kind "" then TString else kind))
  end.

Definition compile_comparison (op : string) (a b : Node) (fields : list Field) : outcome compile_error condition :=
  let! field := comparison_field a b fields in
  let! x := compileOperand a field fields in
  let! y := compileOperand b field fields in
  Done (Cond op CNil CNil x y).

Definition polled {A E} (o : oracle) (path : list nat) (canceled : ctx_error → E) (k : outcome E A) : outcome E A :=
  match o path with Some e => Fail (canceled e) | None => k end.

Fixpoint compile_node (o : oracle) (path : list nat) (fields : list Field) (n : Node) : outcome compile_error condition :=
  match n with
  | Paren inner => compile_node o path fields inner
  | Unary op operand =>
      let! lhs := polled o (0%nat :: path) CompileCanceled (compile_node o (0%nat :: path) fields operand) in
      Done (Cond op lhs CNil no_operand no_operand)
  | Binary op l r =>
      if mem op ["and"; "or"] then
        let! lhs := polled o (0%nat :: path) CompileCanceled (compile_node o (0%nat :: path) fields l) in
        let! rhs := polled o (1%nat :: path) CompileCanceled (compile_node o (1%nat :: path) fields r) in
        Done (Cond op lhs rhs no_operand no_operand)
      else compile_comparison op l r fields
  | Is negated l r => compile_comparison (if negated then "is_not_null" else "is_null") l r fields
  | _ => Fail UnsupportedCondition
  end.
Definition compileCondition (o : oracle) (path : list nat) (n : Node) (fields : list Field)
    : outcome compile_error condition :=
  polled o path CompileCanceled (compile_node o path fields n).

(** ** Unique plans *)

Record UniquePlan := MkUniquePlan { up_keys : list Field; up_predicate : condition }.

Inductive plan_error :=
| PlanCanceled (e : ctx_error) | NotUnique | NotForeign | Declaration (e : constraint_error)
| WhereUnparsed (e : error) | WhereIncomparable (n : string)
| ReferenceOptIn (n : string) | ReferencePolicy (n : string).

Definition CompileUnique (o : oracle) (path : list nat) (fields : list Field) (c : Constraint)
    : outcome plan_error UniquePlan :=
  if negb (String.eqb (c_Kind c) ConstraintUnique) then Fail NotUnique
  else
    let! _ := lift_error Declaration (ValidateConstraintDeclarations (polls_at o (0%nat :: path)) fields [c]) in
    let keys := map (λ name, without_enum (field_of fields name)) (default [] (c_Fields c)) in
    if String.eqb (c_Where c) "" then Done (MkUniquePlan keys CNil)
    else
      let! node := lift_error WhereUnparsed
        (Parse (c_Where c) (MkOptions (Some (at_ctx o (1%nat :: path))) (map f_Name fields) [])) in
      match compileCondition o (2%nat :: path) node fields with
      | Done predicate => Done (MkUniquePlan keys predicate)
      | Fail _ => match o (3%nat :: path) with
                  | Some e => Fail (PlanCanceled e)
                  | None => Fail (WhereIncomparable (c_Name c))
                  end
      | OutOfFuel => OutOfFuel
      end.

(** ** Evaluation *)

Definition truth := Z.
Definition unknown : truth := -1.
Definition no : truth := 0.
Definition yes : truth := 1.
Definition truthOf (v : bool) : truth := if v then yes else no.

Inductive eval_error :=
| EvalCanceled (e : ctx_error) | EvalScalar (e : scalar_error) | EvalKinds | EvalOperator
| EvalKey (e : key_error) | NotCompiled.

Definition readOperand (x : operand) (row : row_values) : outcome eval_error (option scalar) :=
  if String.eqb (op_column x) "" then Done (op_constant x)
  else match row_value row (op_column x) with
       | GNil => Done None
       | input => let! s := lift_error EvalScalar (coerceScalar (op_field x) input) in Done (Some s)
       end.

(** [strings.Compare] on the texts, or the numbers' order. *)
Definition scalar_compare (a b : scalar) : comparison :=
  if String.eqb (sc_kind a) Number
  then Rat_Cmp (default 0%Qc (sc_number a)) (default 0%Qc (sc_number b))
  else str_compare (sc_text a) (sc_text b).

Definition holds_cmp (op : string) (cmp : comparison) : option bool :=
  if mem op ["="; "=="] then Some (match cmp with Eq => true | _ => false end)
  else if mem op ["!="; "<>"] then Some (match cmp with Eq => false | _ => true end)
  else if String.eqb op "<" then Some (match cmp with Lt => true | _ => false end)
  else if String.eqb op "<=" then Some (match cmp with Gt => false | _ => true end)
  else if String.eqb op ">" then Some (match cmp with Gt => true | _ => false end)
  else if String.eqb op ">=" then Some (match cmp with Lt => false | _ => true end)
  else None.

Definition evaluate_comparison (op : string) (x y : operand) (row : row_values) : outcome eval_error truth :=
  let! a := readOperand x row in
  if mem op ["is_null"; "is_not_null"]
  then Done (truthOf (Bool.eqb (match a with None => true | Some _ => false end) (String.eqb op "is_null")))
  else
    let! b := readOperand y row in
    match a, b with
    | Some a, Some b =>
        if negb (String.eqb (sc_kind a) (sc_kind b)) then Fail EvalKinds
        else match holds_cmp op (scalar_compare a b) with
             | Some v => Done (truthOf v)
             | None => Fail EvalOperator
             end
    | _, _ => Done unknown
    end.

Fixpoint evaluate (o : oracle) (path : list nat) (c : condition) (row : row_values) : outcome eval_error truth :=
  polled o path EvalCanceled
    match c with
    | CNil => Done yes
    | Cond op l r x y =>
        if mem op ["and"; "or"; "not"] then
          let! lhs := evaluate o (0%nat :: path) l row in
          if String.eqb op "not" then Done (if lhs =? unknown then unknown else yes - lhs)
          else
            let! rhs := evaluate o (1%nat :: path) r row in
            if String.eqb op "and" && ((lhs =? no) || (rhs =? no)) then Done no
            else if String.eqb op "or" && ((lhs =? yes) || (rhs =? yes)) then Done yes
            else if (lhs =? unknown) || (rhs =? unknown) then Done unknown
            else Done lhs
        else evaluate_comparison op x y row
    end.

(** [UniquePlan.Key]; [None] when the row does not take part. *)
Definition plan_Key (o : oracle) (path : list nat) (p : UniquePlan) (row : row_values) (owner : option string)
    : outcome eval_error (option string) :=
  let! matches := evaluate o path (up_predicate p) row in
  let! key := lift_error EvalKey (UniqueKey (up_keys p) row owner) in
  Done (if matches =? yes then key else None).

(** ** Checks *)

Record Row := MkRow { rw_Values : row_values; rw_Owner : option string }.
Record ReferenceTarget := MkReferenceTarget { rt_Name : string; rt_Own : bool; rt_AcceptReferences : bool }.
Record ForeignPlan := MkForeignPlan {
  fp_name : string; fp_field : string; fp_table : string; fp_own : bool; fp_required : bool }.

Inductive check_error :=
| CheckCanceled (e : ctx_error) | CheckEval (e : eval_error) | CheckPlan (e : plan_error)
| UniqueViolation (n : string) | ForeignViolation (n : string)
| NoSchema | NoReferencedTable (n : string).

Definition CompileForeign (o : oracle) (path : list nat) (fields : list Field) (c : Constraint) (own : bool)
    (target : ReferenceTarget) : outcome plan_error ForeignPlan :=
  if negb (String.eqb (c_Kind c) ConstraintForeignKey) then Fail NotForeign
  else
    let! _ := lift_error Declaration (ValidateConstraintDeclarations (polls_at o (0%nat :: path)) fields [c]) in
    let table := match c_References c with Some r => cr_Table r | None => "" end in
    if negb (String.eqb (rt_Name target) table) || negb (rt_AcceptReferences target) then Fail (ReferenceOptIn (c_Name c))
    else if negb (Bool.eqb own (rt_Own target)) then Fail (ReferencePolicy (c_Name c))
    else Done (MkForeignPlan (c_Name c) (c_Field c) table own
           (match find (λ f, String.eqb (f_Name f) (c_Field c)) fields with Some f => f_Required f | None => false end)).

(** A lookup answers the parent's owner, or [None] when there is no parent. *)
Definition ParentLookup := string → Z → outcome check_error (option (option string)).

Definition foreign_Check (o : oracle) (path : list nat) (p : ForeignPlan) (row : Row) (lookup : ParentLookup)
    : outcome check_error () :=
  polled o path CheckCanceled
    match ReferenceID (row_value (rw_Values row) (fp_field p)) with
    | Done None => if fp_required p then Fail (ForeignViolation (fp_name p)) else Done ()
    | Done (Some id) =>
        let! found := lookup (fp_table p) id in
        match found with
        | None => Fail (ForeignViolation (fp_name p))
        | Some owner => if fp_own p && negb (SameOwner (rw_Owner row) owner)
                        then Fail (ForeignViolation (fp_name p)) else Done ()
        end
    | _ => Fail (ForeignViolation (fp_name p))
    end.

(** The loop over the rows, with the keys [seen]. *)
Fixpoint unique_loop (o : oracle) (path : list nat) (i : nat) (name : string) (plan : UniquePlan) (own : bool)
    (seen : list string) (rows : list Row) : outcome check_error () :=
  match rows with
  | [] => Done ()
  | row :: rows =>
      let! key := lift_error CheckEval
        (plan_Key o (i :: path) plan (rw_Values row) (if own then rw_Owner row else None)) in
      match key with
      | None => unique_loop o path (S i) name plan own seen rows
      | Some key => if mem key seen then Fail (UniqueViolation name)
                    else unique_loop o path (S i) name plan own (key :: seen) rows
      end
  end.
Definition CheckUnique (o : oracle) (path : list nat) (name : string) (plan : UniquePlan) (rows : list Row) (own : bool)
    : outcome check_error () :=
  polled o path CheckCanceled (unique_loop o path 0 name plan own [] rows).

(** ** Catalogues *)

Record CTable := MkCTable { tb_Schema : option TableSchema; tb_Rows : gmap Z Row }.
Abbreviation catalog := (gmap string CTable).

Inductive constraint_plan := PUnique (name : string) (p : UniquePlan) | PForeign (p : ForeignPlan).
Definition is_unique_plan (p : constraint_plan) : bool := match p with PUnique _ _ => true | _ => false end.

Definition own_access (sc : TableSchema) : bool := String.eqb (t_RowAccess sc) RowAccessOwn.

Definition compile_plan (o : oracle) (path : list nat) (tables : catalog) (sc : TableSchema) (c : Constraint)
    : outcome check_error (list constraint_plan) :=
  if String.eqb (c_Kind c) ConstraintUnique then
    let! p := lift_error CheckPlan (CompileUnique o path (t_Fields sc) c) in Done [PUnique (c_Name c) p]
  else if String.eqb (c_Kind c) ConstraintForeignKey then
    let table := match c_References c with Some r => cr_Table r | None => "" end in
    match tables !! table with
    | Some (MkCTable (Some parent) _) =>
        let! p := lift_error CheckPlan (CompileForeign o path (t_Fields sc) c (own_access sc)
                    (MkReferenceTarget table (own_access parent) (t_AcceptReferences parent))) in
        Done [PForeign p]
    | _ => Fail (NoReferencedTable (c_Name c))
    end
  else Done [].

Fixpoint compile_plans (o : oracle) (path : list nat) (i : nat) (tables : catalog) (sc : TableSchema) (cs : list Constraint)
    : outcome check_error (list constraint_plan) :=
  match cs with
  | [] => Done []
  | c :: cs =>
      let! p := compile_plan o (i :: path) tables sc c in
      let! ps := compile_plans o path (S i) tables sc cs in
      Done (p ++ ps)
  end.

Definition table_plans (o : oracle) (path : list nat) (tables : catalog) (name : string)
    : outcome check_error (list constraint_plan) :=
  match tables !! name with
  | Some (MkCTable (Some sc) _) =>
      let! _ := lift_error (λ e, CheckPlan (Declaration e))
        (ValidateConstraintDeclarations (polls_at o (0%nat :: path)) (t_Fields sc) (t_Constraints sc)) in
      compile_plans o (1%nat :: path) 0 tables sc (t_Constraints sc)
  | _ => Fail NoSchema
  end.

Fixpoint all_plans (o : oracle) (path : list nat) (i : nat) (tables : catalog) (names : list string)
    : outcome check_error (list (string * list constraint_plan)) :=
  match names with
  | [] => Done []
  | name :: names =>
      let! ps := table_plans o (i :: path) tables name in
      let! rest := all_plans o path (S i) tables names in
      Done ((name, ps) :: rest)
  end.

Definition catalog_lookup (o : oracle) (path : list nat) (tables : catalog) : ParentLookup := λ table id,
  polled o (0%nat :: path) CheckCanceled
    (Done (rw_Owner <$> (t ← tables !! table; tb_Rows t !! id))).

Definition table_rows (t : CTable) : list Row :=
  omap (λ id, tb_Rows t !! id) (merge_sort Z.le (map fst (map_to_list (tb_Rows t)))).

Fixpoint foreign_rows (o : oracle) (path : list nat) (i : nat) (p : ForeignPlan) (tables : catalog) (rows : list Row)
    : outcome check_error () :=
  match rows with
  | [] => Done ()
  | row :: rows =>
      let! _ := foreign_Check o (i :: path) p row (catalog_lookup o (i :: path) tables) in
      foreign_rows o path (S i) p tables rows
  end.

Definition run_plan (o : oracle) (path : list nat) (tables : catalog) (own : bool) (rows : list Row) (p : constraint_plan)
    : outcome check_error () :=
  match p with
  | PUnique name plan => CheckUnique o path name plan rows own
  | PForeign plan => foreign_rows o path 0 plan tables rows
  end.

Fixpoint run_plans (o : oracle) (path : list nat) (i : nat) (tables : catalog) (own : bool) (rows : list Row)
    (ps : list constraint_plan) : outcome check_error () :=
  match ps with
  | [] => Done ()
  | p :: ps =>
      let! _ := run_plan o (i :: path) tables own rows p in
      run_plans o path (S i) tables own rows ps
  end.

(** The unique plans of a table run before its foreign keys. *)
Definition ordered_plans (ps : list constraint_plan) : list constraint_plan :=
  List.filter is_unique_plan ps ++ List.filter (λ p, negb (is_unique_plan p)) ps.

Fixpoint run_tables (o : oracle) (path : list nat) (i : nat) (tables : catalog)
    (plans : list (string * list constraint_plan)) : outcome check_error () :=
  match plans with
  | [] => Done ()
  | (name, ps) :: plans =>
      let! _ :=
        match ps, tables !! name with
        | _ :: _, Some t =>
            run_plans o (i :: path) 0 tables
              (match tb_Schema t with Some sc => own_access sc | None => false end) (table_rows t) (ordered_plans ps)
        | _, _ => Done ()
        end in
      run_tables o path (S i) tables plans
  end.

Definition sorted_names (tables : catalog) : list string := merge_sort str_le (map fst (map_to_list tables)).

Definition CheckCatalog (o : oracle) (tables : catalog) : outcome check_error () :=
  polled o [0%nat] CheckCanceled
    (let! plans := all_plans o [1%nat] 0 tables (sorted_names tables) in
     let! _ := run_tables o [2%nat] 0 tables plans in
     polled o [3%nat] CheckCanceled (Done ())).
End Compile.

Abbreviation catalog := (gmap string CTable).

(** ** Which constraints a write is checked against *)

Definition concerns (changed : string) (incoming : bool) (name : string) (c : Constraint) : bool :=
  String.eqb name changed
  || incoming && String.eqb (c_Kind c) ConstraintForeignKey
     && match c_References c with Some r => String.eqb (cr_Table r) changed | None => false end.

Definition select_schema (changed : string) (incoming : bool) (name : string) (sc : TableSchema) : TableSchema :=
  MkTable (t_Namespace sc) (t_Name sc) (t_Version sc) (t_Fields sc) (t_EmbedSpace sc) (t_EmbedDim sc)
    (t_RowAccess sc) (t_HasOwner sc) (List.filter (concerns changed incoming name) (t_Constraints sc))
    (t_AcceptReferences sc) (t_Relation sc).

Definition SelectChecks (tables : catalog) (changed : string) (incoming : bool) : catalog :=
  map_imap (λ name t, Some (MkCTable (select_schema changed incoming name <$> tb_Schema t) (tb_Rows t))) tables.

(** [checkSQLiteConstraints]: the tables whose rows the snapshot loads, and
    the check after a write to the table [changed]. *)
Definition needed (tables : catalog) (name : string) : bool :=
  existsb (λ x : string * CTable,
    match tb_Schema x.2 with
    | Some sc => (String.eqb x.1 name && negb (match t_Constraints sc with [] => true | _ => false end))
                 || existsb (λ c, String.eqb (c_Kind c) ConstraintForeignKey
                       && match c_References c with Some r => String.eqb (cr_Table r) name | None => false end)
                      (t_Constraints sc)
    | None => false
    end) (map_to_list tables).

Definition constraint_snapshot (tables : catalog) (changed : string) (incoming : bool) : catalog :=
  let selected := SelectChecks tables changed incoming in
  map_imap (λ name t, Some (MkCTable (tb_Schema t) (if needed selected name then tb_Rows t else ∅))) selected.

Definition checkConstraints {UT : UnicodeTables} (o : oracle) (tables : catalog) (sc : TableSchema) (incoming : bool)
    : outcome check_error () :=
  if match t_Constraints sc with [] => negb (incoming && t_AcceptReferences sc) | _ => false end then Done ()
  else CheckCatalog o (constraint_snapshot tables (t_Name sc) incoming).
