(* ===== verification/ConstraintCatalog.v ===== *)
(** * What a catalogue check establishes

    Declarative readings of the unique check, the foreign-key check and the
    catalogue check, under a context that is not canceled. *)
From Stdlib Require Import ZArith QArith Qcanon Lia Ascii String.
From stdpp Require Import base gmap strings list sorting fin_maps.
From S2P Require Import Prelude GoStrings FilterLexer FilterParser FilterTotal SchemaIdent SchemaNames Schema SchemaConstraints GoNumbers Timestamps.
From S2P Require Import ConstraintValues ConstraintPlans.

(** * Facts about constraint keys and predicates

    The key of a unique constraint is a prefix code of the owner and the
    scalars; compiled predicates evaluate in Kleene's three-valued logic. *)

Local Open Scope Z_scope.

(** ** The prefix code *)

Lemma byte_of_inj a b : 0 ≤ a < 256 → 0 ≤ b < 256 → byte_of a = byte_of b → a = b.
Proof. intros Ha Hb H. by rewrite <-(byte_val_of a), <-(byte_val_of b), H. Qed.

Lemma uvarint_app f g n m x y :
  0 ≤ n < 128 ^ Z.of_nat (S f) → 0 ≤ m < 128 ^ Z.of_nat (S g) →
  uvarint (S f) n +:+ x = uvarint (S g) m +:+ y → n = m ∧ x = y.
Proof.
  revert g n m. induction f as [|f IH]; intros g n m Hn Hm; cbn [uvarint].
  - assert ((n <? 128) = true) as -> by (apply Z.ltb_lt; lia). destruct (Z.ltb_spec m 128) as [Hm8|Hm8].
    + intros [= Hb ->]. split; [apply byte_of_inj in Hb; lia|done].
    + pose proof (Z.mod_pos_bound m 128). intros [= Hb _]. apply byte_of_inj in Hb; lia.
  - pose proof (Z.mod_pos_bound n 128). pose proof (Z.mod_pos_bound m 128).
    destruct (Z.ltb_spec n 128) as [Hn8|Hn8]; destruct (Z.ltb_spec m 128) as [Hm8|Hm8].
    + intros [= Hb ->]. split; [apply byte_of_inj in Hb; lia|done].
    + intros [= Hb _]. apply byte_of_inj in Hb; lia.
    + intros [= Hb _]. apply byte_of_inj in Hb; lia.
    + intros H3. cbn [String.append] in H3. injection H3 as Hb H3. apply byte_of_inj in Hb; [|lia..].
      destruct g as [|g]; [change (128 ^ Z.of_nat 1) with 128 in Hm; lia|].
      assert (∀ k h, 128 ≤ k < 128 ^ Z.of_nat (S (S h)) → 0 ≤ k / 128 < 128 ^ Z.of_nat (S h)) as Hdiv.
      { intros k h Hk. split; [apply Z.div_pos; lia|]. apply Z.div_lt_upper_bound; [lia|].
        rewrite (Nat2Z.inj_succ (S h)), Z.pow_succ_r in Hk by lia. lia. }
      apply IH in H3 as [Hd ->]; [|apply Hdiv; lia|apply Hdiv; lia]. split; [|done].
      rewrite (Z_div_mod_eq_full n 128), (Z_div_mod_eq_full m 128). lia.
Qed.

Lemma uvarint_of_app n m x y :
  0 ≤ n → 0 ≤ m → uvarint_of n +:+ x = uvarint_of m +:+ y → n = m ∧ x = y.
Proof.
  assert (∀ k, 0 ≤ k → k < 128 ^ Z.of_nat (S (Z.to_nat (Z.log2 k)))) as Hb.
  { intros k Hk. rewrite Nat2Z.inj_succ, Z2Nat.id by apply Z.log2_nonneg.
    destruct (Z.eq_dec k 0) as [->|]; [done|]. destruct (Z.log2_spec k) as [_ Hl]; [lia|].
    eapply Z.lt_le_trans; [exact Hl|]. apply Z.pow_le_mono_l. lia. }
  intros Hn Hm. apply uvarint_app; split; auto.
Qed.

Definition part (text : string) : string := uvarint_of (len text) +:+ text.

Lemma app_same_length a b x y : String.length a = String.length b → a +:+ x = b +:+ y → a = b ∧ x = y.
Proof.
  revert b. induction a as [|c a IH]; intros [|d b]; simpl; try discriminate; [done|].
  intros [= Hl] [= -> H]. by destruct (IH b Hl H) as [-> ->].
Qed.

Lemma part_app a b x y : part a +:+ x = part b +:+ y → a = b ∧ x = y.
Proof.
  unfold part. rewrite !app_assoc_str. intros [Hl H]%uvarint_of_app; [|apply len_nonneg..].
  apply app_same_length; [unfold len in Hl; lia|done].
Qed.

Lemma appendPart_part dst text : appendPart dst text = dst +:+ part text.
Proof. done. Qed.

Section Keys.
Context {UT : UnicodeTables}.

(** ** The key as a code of the owner and the scalars *)

Definition parts (ss : list scalar) : string :=
  foldr (λ s acc, part (sc_kind s) +:+ part (sc_text s) +:+ acc) "" ss.

(** A row gives a scalar for every key field. *)
Definition row_scalars (fields : list Field) (row : row_values) (ss : list scalar) : Prop :=
  Forall2 (λ f s, coerceScalar f (row_value row (f_Name f)) = Done s) fields ss.

Lemma coerceScalar_nil f : coerceScalar f GNil = Fail (InvalidScalar (f_Name f)).
Proof. unfold coerceScalar, boolean_input. by destruct (is_type f Boolean). Qed.

Lemma key_parts_ok fields row key null k n :
  key_parts fields row key null = Done (k, n) →
  (n = false → null = false ∧ ∃ ss, row_scalars fields row ss ∧ k = key +:+ parts ss).
Proof.
  revert key null. induction fields as [|f fields IH]; intros key null; cbn [key_parts].
  { intros [= -> ->] ->. split; [done|]. exists []. split; [constructor|]. symmetry. apply app_nil_r_str. }
  assert (row_value row (f_Name f) = GNil ∨ row_value row (f_Name f) ≠ GNil) as [Hv|Hv].
  { destruct (row_value row (f_Name f)); auto. }
  - rewrite Hv. intros H Hn. by destruct (IH _ _ H Hn).
  - intros H. assert (∃ s, coerceScalar f (row_value row (f_Name f)) = Done s
      ∧ key_parts fields row (appendPart (appendPart key (sc_kind s)) (sc_text s)) null = Done (k, n)) as (s & Hs & Hk).
    { destruct (row_value row (f_Name f)); [done|..]; destruct (coerceScalar f _); try done; eauto. }
    intros Hn. destruct (IH _ _ Hk Hn) as (Hnull & ss & Hss & ->). split; [done|].
    exists (s :: ss). split; [by constructor|]. cbn [parts foldr]. rewrite !appendPart_part, !app_assoc_str. done.
Qed.

Lemma key_parts_run fields row key null ss :
  row_scalars fields row ss → key_parts fields row key null = Done (key +:+ parts ss, null).
Proof.
  intros H. revert key. induction H as [|f s fields ss Hs _ IH]; intros key; cbn [key_parts].
  { cbn [parts foldr]. by rewrite app_nil_r_str. }
  destruct (row_value row (f_Name f)) eqn:Hv; [by rewrite coerceScalar_nil in Hs|..];
    rewrite Hs, IH, !appendPart_part; cbn [parts foldr]; by rewrite !app_assoc_str.
Qed.

(** A row takes part with the key of its owner and scalars, and no other. *)
Definition count_ok (fields : list Field) : Prop := (0 < length fields ≤ 8)%nat.

Lemma UniqueKey_Some fields row owner k :
  UniqueKey fields row owner = Done (Some k) ↔
  count_ok fields ∧ ∃ ss, row_scalars fields row ss ∧ k = owner_part owner +:+ parts ss.
Proof.
  unfold UniqueKey, count_ok, MaxUniqueConstraintFields. split.
  - destruct ((length fields =? 0)%nat || _) eqn:Hc; [done|].
    apply orb_false_iff in Hc as [?%Nat.eqb_neq ?%Z.ltb_ge].
    intros ((key & null) & Hk & Hret)%obind_Done. destruct null; [done|]. injection Hret as ->.
    apply key_parts_ok in Hk; [|done]. split; [lia|]. naive_solver.
  - intros (Hc & ss & Hss & ->). rewrite (proj2 (orb_false_iff _ _)).
    + by rewrite (key_parts_run _ _ _ _ _ Hss).
    + split; [apply Nat.eqb_neq; lia|apply Z.ltb_ge; lia].
Qed.

Lemma parts_inj ss ts : length ss = length ts → parts ss = parts ts →
  Forall2 (λ s t, sc_kind s = sc_kind t ∧ sc_text s = sc_text t) ss ts.
Proof.
  revert ts. induction ss as [|s ss IH]; intros [|t ts]; simpl; try discriminate; [constructor|].
  intros [= Hl] [Hk [Ht H]%part_app]%part_app. constructor; [done|auto].
Qed.

Lemma owner_part_app o1 o2 x y : owner_part o1 +:+ x = owner_part o2 +:+ y → o1 = o2 ∧ x = y.
Proof.
  destruct o1 as [a|], o2 as [b|]; cbn [owner_part]; rewrite ?appendPart_part; intros Heq.
  - cbn [String.append] in Heq. injection Heq as Heq. by apply part_app in Heq as [-> ->].
  - discriminate.
  - discriminate.
  - cbn [String.append] in Heq. by injection Heq as ->.
Qed.

(** What a scalar of a field looks like. *)
Lemma coerceScalar_shape f v s :
  coerceScalar f v = Done s →
  sc_kind s = (if is_type f Text then TString else f_Type f)
  ∧ match sc_number s with
    | Some q => is_type f Number = true ∧ sc_text s = RatString q
    | None => is_type f Number = false
    end.
Proof.
  unfold coerceScalar. destruct (Coerce _ _) as [x|e|]; [|done|done].
  unfold is_type. destruct (String.eqb_spec (f_Type f) TString) as [->|_]; simpl.
  { destruct x; try done. by intros [= <-]. }
  destruct (String.eqb_spec (f_Type f) Text) as [->|_]; simpl.
  { destruct x; try done. by intros [= <-]. }
  destruct (String.eqb_spec (f_Type f) Timestamp) as [->|_]; simpl.
  { destruct x; try done. by intros [= <-]. }
  destruct (String.eqb_spec (f_Type f) Number) as [->|_]; simpl.
  { destruct x as [|n|n|n|y| | | | | |]; try done; [by intros [= <-]|]. destruct (SetFloat64 y); [by intros [= <-]|done]. }
  destruct (String.eqb_spec (f_Type f) Boolean) as [->|_]; simpl; [|by destruct x].
  destruct x; try done. by intros [= <-].
Qed.

(** A scalar is known from its kind and text. *)
Lemma coerceScalar_text f v w s t :
  coerceScalar f v = Done s → coerceScalar f w = Done t → sc_text s = sc_text t → s = t.
Proof.
  intros [Hks Hns]%coerceScalar_shape [Hkt Hnt]%coerceScalar_shape Heq.
  destruct s as [ks ts ns], t as [kt tt nt]. cbn [sc_kind sc_text sc_number] in *. subst. f_equal.
  destruct ns as [q|], nt as [q'|]; [|destruct Hns; congruence|destruct Hnt; congruence|done].
  f_equal. apply RatString_inj. by destruct Hns as [_ <-], Hnt as [_ <-].
Qed.

Lemma row_scalars_inj fields row1 row2 ss ts :
  row_scalars fields row1 ss → row_scalars fields row2 ts →
  Forall2 (λ s t, sc_kind s = sc_kind t ∧ sc_text s = sc_text t) ss ts → ss = ts.
Proof.
  intros H. revert ts. induction H as [|f s fields ss Hs _ IH]; intros ts H2 Heq.
  - by inversion H2.
  - inversion H2 as [|? t ? ts' Ht Hts]; subst. inversion Heq as [|? ? ? ? [_ Htext]]; subst.
    f_equal; [by eapply coerceScalar_text|auto].
Qed.

(** Equal keys are equal owners and equal scalars. *)
Lemma unique_key_eq fields row1 row2 o1 o2 k1 k2 :
  UniqueKey fields row1 o1 = Done (Some k1) → UniqueKey fields row2 o2 = Done (Some k2) →
  k1 = k2 ↔ o1 = o2 ∧ ∀ f, f ∈ fields →
    coerceScalar f (row_value row1 (f_Name f)) = coerceScalar f (row_value row2 (f_Name f)).
Proof.
  intros (_ & ss & Hs & ->)%UniqueKey_Some (_ & ts & Ht & ->)%UniqueKey_Some.
  pose proof (Forall2_length _ _ _ Hs). pose proof (Forall2_length _ _ _ Ht). split.
  - intros [-> Hp]%owner_part_app. split; [done|]. apply parts_inj in Hp; [|congruence].
    assert (ss = ts) as <- by (by eapply row_scalars_inj). intros f [i Hi]%list_elem_of_lookup.
    destruct (Forall2_lookup_l _ _ _ _ _ Hs Hi) as (s & Hi' & ->).
    destruct (Forall2_lookup_l _ _ _ _ _ Ht Hi) as (s' & Hi'' & ->). congruence.
  - intros [-> Heq]. do 2 f_equal. apply list_eq_Forall2. apply Forall2_same_length_lookup_2; [congruence|].
    intros i s t Hsi Hti. destruct (Forall2_lookup_r _ _ _ _ _ Hs Hsi) as (f & Hf & E1).
    destruct (Forall2_lookup_r _ _ _ _ _ Ht Hti) as (f' & Hf' & E2). simplify_eq.
    rewrite Heq in E1 by (by eapply list_elem_of_lookup_2). congruence.
Qed.
End Keys.


(** ** Lists *)

Lemma omap_omap {A B C} (f : A → option B) (g : B → option C) (l : list A) :
  omap g (omap f l) = omap (λ x, f x ≫= g) l.
Proof. induction l as [|x l IH]; [done|]. cbn. destruct (f x); cbn; [|done]. destruct (g b); by rewrite <-IH. Qed.

Lemma NoDup_omap {A B} (f : A → option B) (l : list A) :
  NoDup l → NoDup (omap f l) ↔ ∀ x y b, x ∈ l → y ∈ l → f x = Some b → f y = Some b → x = y.
Proof.
  induction 1 as [|x l Hx Hl IH].
  { split; [by intros _ ? ? ? ?%not_elem_of_nil|constructor]. }
  cbn. destruct (f x) as [b|] eqn:Hf.
  - rewrite NoDup_cons, IH, list_elem_of_omap. setoid_rewrite elem_of_cons. split.
    + intros [Hn Hi] y z c [->|Hy] [->|Hz] Hfy Hfz; [done| | |by eapply Hi].
      * exfalso. apply Hn. exists z. split; [done|congruence].
      * exfalso. apply Hn. exists y. split; [done|congruence].
    + intros Hi. split; [|intros; eapply Hi; eauto]. intros (y & Hy & Hfy). apply Hx.
      assert (x = y) as -> by (eapply Hi; eauto). done.
  - rewrite IH. setoid_rewrite elem_of_cons. split.
    + intros Hi y z c [->|Hy] [->|Hz] Hfy Hfz; try congruence. by eapply Hi.
    + intros Hi y z c Hy Hz. apply Hi; auto.
Qed.

Section Catalog.
Context {UT : UnicodeTables}.

(** ** A context that is not canceled makes no difference *)

Lemma evaluate_still path c row : evaluate still path c row = evaluate still [] c row.
Proof.
  assert (∀ q p, evaluate still p c row = evaluate still q c row) as H; [|apply H].
  clear path. induction c as [|op l IHl r IHr x y]; intros q p; [done|]. cbn [evaluate polled still].
  rewrite (IHl (0%nat :: q)), (IHr (1%nat :: q)). done.
Qed.

Lemma plan_Key_still path p row owner : plan_Key still path p row owner = plan_Key still [] p row owner.
Proof. unfold plan_Key. by rewrite evaluate_still. Qed.

Lemma compile_node_still path fields n : compile_node still path fields n = compile_node still [] fields n.
Proof.
  assert (∀ q p, compile_node still p fields n = compile_node still q fields n) as H; [|apply H].
  clear path. induction n; intros q p; try done.
  - cbn [compile_node polled still]. rewrite (IHn1 (0%nat :: q)), (IHn2 (1%nat :: q)). done.
  - cbn [compile_node polled still]. by rewrite (IHn (0%nat :: q)).
  - cbn [compile_node]. apply IHn.
Qed.

Lemma CompileUnique_still path fields c : CompileUnique still path fields c = CompileUnique still [] fields c.
Proof.
  unfold CompileUnique. destruct (negb _); [done|].
  change (polls_at still (0%nat :: path)) with (polls_at still [0%nat]).
  change (at_ctx still (1%nat :: path)) with (at_ctx still [1%nat]).
  destruct (lift_error _ _) as [[]| |]; [|done|done]. cbn [obind]. destruct (String.eqb _ _); [done|].
  destruct (lift_error _ _) as [node| |]; [|done|done]. cbn [obind]. unfold compileCondition, polled, still at 1 3.
  by rewrite (compile_node_still (2%nat :: path)), (compile_node_still [2%nat]).
Qed.

Lemma CompileForeign_still path fields c own target :
  CompileForeign still path fields c own target = CompileForeign still [] fields c own target.
Proof. done. Qed.

(** ** Unique constraints *)

Definition row_key (p : UniquePlan) (own : bool) (row : Row) : outcome eval_error (option string) :=
  plan_Key still [] p (rw_Values row) (if own then rw_Owner row else None).
Definition key_of (p : UniquePlan) (own : bool) (row : Row) : option string :=
  match row_key p own row with Done k => k | _ => None end.

Lemma unique_loop_Done path i name p own seen rows :
  unique_loop still path i name p own seen rows = Done () ↔
  Forall (λ row, ∃ k, row_key p own row = Done k) rows
  ∧ NoDup (omap (key_of p own) rows) ∧ ∀ k, k ∈ omap (key_of p own) rows → k ∉ seen.
Proof.
  revert i seen. induction rows as [|row rows IH]; intros i seen; cbn [unique_loop].
  { split; [|done]. intros _. split_and!; [constructor|constructor|by intros ? ?%not_elem_of_nil]. }
  rewrite plan_Key_still. fold (row_key p own row).
  assert (omap (key_of p own) (row :: rows)
          = match key_of p own row with Some k => k :: omap (key_of p own) rows | None => omap (key_of p own) rows end)
    as -> by done.
  change (key_of p own row) with (match row_key p own row with Done k => k | _ => None end).
  destruct (row_key p own row) as [[k|]|e|] eqn:Hk; cbn [lift_error obind].
  - destruct (mem k seen) eqn:Hm.
    + split; [done|]. intros (_ & _ & Hs). apply mem_spec in Hm. exfalso. apply (Hs k); [by left|done].
    + assert (k ∉ seen) as Hns by (intros Hin%mem_spec; congruence).
      rewrite IH, Forall_cons, NoDup_cons. setoid_rewrite elem_of_cons. split.
      * intros (Hf & Hn & Hs). split_and!; [eauto|done|..]; [|done|].
        { intros Hin. apply (Hs k Hin). by left. }
        intros k' [->|Hk']; [done|]. intros Hin. apply (Hs k' Hk'). by right.
      * intros ([_ Hf] & [Hni Hn] & Hs). split_and!; [done|done|]. intros k' Hk' [->|Hin]; [done|].
        apply (Hs k'); auto.
  - rewrite IH, Forall_cons. naive_solver.
  - rewrite Forall_cons. split; [done|]. intros [[[? ?] _] _]. congruence.
  - rewrite Forall_cons. split; [done|]. intros [[[? ?] _] _]. congruence.
Qed.

(** No two rows of a table have the same key. *)
Definition unique_on (p : UniquePlan) (own : bool) (rows : gmap Z Row) : Prop :=
  (∀ id row, rows !! id = Some row → ∃ k, row_key p own row = Done k)
  ∧ ∀ i j ri rj k, rows !! i = Some ri → rows !! j = Some rj →
      row_key p own ri = Done (Some k) → row_key p own rj = Done (Some k) → i = j.

Definition row_ids (rows : gmap Z Row) : list Z := merge_sort Z.le (map fst (map_to_list rows)).

Lemma row_ids_NoDup rows : NoDup (row_ids rows).
Proof. unfold row_ids. rewrite merge_sort_Permutation. apply NoDup_fst_map_to_list. Qed.

Lemma elem_of_row_ids rows id : id ∈ row_ids rows ↔ ∃ row, rows !! id = Some row.
Proof.
  unfold row_ids. rewrite merge_sort_Permutation, list_elem_of_fmap. split.
  - intros ([i row] & -> & H%elem_of_map_to_list). eauto.
  - intros (row & H%elem_of_map_to_list). by exists (id, row).
Qed.

Lemma elem_of_table_rows t row : row ∈ table_rows t ↔ ∃ id, tb_Rows t !! id = Some row.
Proof.
  unfold table_rows. fold (row_ids (tb_Rows t)). rewrite list_elem_of_omap. setoid_rewrite elem_of_row_ids. naive_solver.
Qed.

Lemma CheckUnique_Done path name p t own :
  CheckUnique still path name p (table_rows t) own = Done () ↔ unique_on p own (tb_Rows t).
Proof.
  unfold CheckUnique, polled, still at 1. rewrite unique_loop_Done, Forall_forall.
  setoid_rewrite elem_of_table_rows. unfold table_rows. fold (row_ids (tb_Rows t)).
  rewrite omap_omap, (NoDup_omap _ _ (row_ids_NoDup _)). unfold unique_on.
  assert (∀ id k, (tb_Rows t !! id ≫= key_of p own) = Some k ↔
            ∃ row, tb_Rows t !! id = Some row ∧ row_key p own row = Done (Some k)) as Hkey.
  { intros id k. rewrite bind_Some. unfold key_of. split; intros (row & Hr & Hk); exists row; (split; [done|]).
    - destruct (row_key p own row) as [x| |]; congruence.
    - by rewrite Hk. }
  setoid_rewrite Hkey. setoid_rewrite elem_of_row_ids. split.
  - intros (Hall & Hinj & _). split; [naive_solver|]. intros i j ri rj k Hi Hj Hki Hkj. eapply Hinj; eauto.
  - intros [Hall Hinj]. split_and!; [naive_solver| |].
    + intros i j k _ _ (ri & Hi & Hki) (rj & Hj & Hkj). eauto.
    + by intros k _ ?%not_elem_of_nil.
Qed.

(** ** Foreign keys *)

Definition parent_row (tables : catalog) (table : string) (id : Z) : option Row :=
  t ← tables !! table; tb_Rows t !! id.

(** A row's reference is null where that is allowed, or names a parent row,
    of the same owner under row access. *)
Definition reference_ok (tables : catalog) (p : ForeignPlan) (row : Row) : Prop :=
  let reference := ReferenceID (row_value (rw_Values row) (fp_field p)) in
  reference = Done None ∧ fp_required p = false
  ∨ ∃ id parent, reference = Done (Some id) ∧ parent_row tables (fp_table p) id = Some parent
                 ∧ (fp_own p = true → rw_Owner row = rw_Owner parent).

Lemma SameOwner_spec a b : SameOwner a b = true ↔ a = b.
Proof. destruct a, b; simpl; rewrite ?String.eqb_eq; naive_solver. Qed.

Lemma foreign_Check_Done path lpath tables p row :
  foreign_Check still path p row (catalog_lookup still lpath tables) = Done () ↔ reference_ok tables p row.
Proof.
  unfold foreign_Check, polled, still at 1, reference_ok, catalog_lookup, parent_row. cbv zeta.
  destruct (ReferenceID _) as [[id|]|[]|]; [| |naive_solver|naive_solver].
  - unfold polled, still. cbn [obind]. destruct (tables !! fp_table p ≫= _) as [parent|] eqn:Hp; cbn [fmap option_fmap option_map].
    + destruct (fp_own p) eqn:Ho; cbn [andb].
      * destruct (SameOwner (rw_Owner row) (rw_Owner parent)) eqn:Hs; cbn [negb].
        { apply SameOwner_spec in Hs. naive_solver. }
        split; [done|]. intros [[? ?]|(i & q & [= <-] & Hq & Heq)]; [done|].
        rewrite Hp in Hq. injection Hq as <-. rewrite (Heq eq_refl) in Hs. destruct (rw_Owner parent); simpl in Hs; [by rewrite String.eqb_refl in Hs|done].
      * split; [|done]. intros _. right. by exists id, parent.
    + split; [done|]. intros [[? ?]|(i & q & [= <-] & ? & _)]; [done|congruence].
  - destruct (fp_required p); naive_solver.
Qed.

Lemma foreign_rows_Done path i p tables rows :
  foreign_rows still path i p tables rows = Done () ↔ ∀ row, row ∈ rows → reference_ok tables p row.
Proof.
  revert i. induction rows as [|row rows IH]; intros i; cbn [foreign_rows].
  { split; [by intros _ ? ?%not_elem_of_nil|done]. }
  setoid_rewrite elem_of_cons. rewrite obind_Done. setoid_rewrite IH. split.
  - intros ([] & H%foreign_Check_Done & Hr) row' [->|Hin]; auto.
  - intros H. exists (). split; [apply foreign_Check_Done; auto|auto].
Qed.

(** ** Catalogues *)

Definition ref_table (c : Constraint) : string := match c_References c with Some r => cr_Table r | None => "" end.
Definition foreign_target (tables : catalog) (c : Constraint) : option TableSchema :=
  match tables !! ref_table c with Some (MkCTable (Some parent) _) => Some parent | _ => None end.
Definition target_of (c : Constraint) (parent : TableSchema) : ReferenceTarget :=
  MkReferenceTarget (ref_table c) (own_access parent) (t_AcceptReferences parent).

(** What a constraint demands of the rows of its table. *)
Definition satisfied (tables : catalog) (rows : gmap Z Row) (sc : TableSchema) (c : Constraint) : Prop :=
  (c_Kind c = ConstraintUnique →
     ∃ p, CompileUnique still [] (t_Fields sc) c = Done p ∧ unique_on p (own_access sc) rows)
  ∧ (c_Kind c = ConstraintForeignKey →
     ∃ parent p, foreign_target tables c = Some parent
       ∧ CompileForeign still [] (t_Fields sc) c (own_access sc) (target_of c parent) = Done p
       ∧ ∀ id row, rows !! id = Some row → reference_ok tables p row).

Definition declared (sc : TableSchema) : Prop :=
  ValidateConstraintDeclarations (polls_at still []) (t_Fields sc) (t_Constraints sc) = Done ().

(** A namespace whose every table has a schema, sound declarations and rows
    that satisfy them. *)
Definition catalog_valid (tables : catalog) : Prop :=
  ∀ name t, tables !! name = Some t →
    ∃ sc, tb_Schema t = Some sc ∧ declared sc ∧ ∀ c, c ∈ t_Constraints sc → satisfied tables (tb_Rows t) sc c.

Definition plan_ok (tables : catalog) (own : bool) (t : CTable) (p : constraint_plan) : Prop :=
  match p with
  | PUnique _ p => unique_on p own (tb_Rows t)
  | PForeign p => ∀ id row, tb_Rows t !! id = Some row → reference_ok tables p row
  end.

Lemma run_plans_Done path i tables own t ps :
  run_plans still path i tables own (table_rows t) ps = Done () ↔ ∀ p, p ∈ ps → plan_ok tables own t p.
Proof.
  revert i. induction ps as [|p ps IH]; intros i; cbn [run_plans].
  { split; [by intros _ ? ?%not_elem_of_nil|done]. }
  assert (run_plan still (i :: path) tables own (table_rows t) p = Done () ↔ plan_ok tables own t p) as Hp.
  { destruct p as [n q|q]; cbn [run_plan plan_ok]; [apply CheckUnique_Done|]. rewrite foreign_rows_Done.
    setoid_rewrite elem_of_table_rows. naive_solver. }
  setoid_rewrite elem_of_cons. rewrite obind_Done. setoid_rewrite IH. split.
  - intros ([] & H%Hp & Hr) q [->|Hin]; auto.
  - intros H. exists (). split; [apply Hp; auto|auto].
Qed.

Lemma elem_of_ordered p ps : p ∈ ordered_plans ps ↔ p ∈ ps.
Proof.
  unfold ordered_plans. rewrite elem_of_app, !list_elem_of_In, !List.filter_In. destruct (is_unique_plan p); naive_solver.
Qed.

Lemma compile_plan_ok path tables sc t c :
  (∃ ps, compile_plan still path tables sc c = Done ps ∧ ∀ p, p ∈ ps → plan_ok tables (own_access sc) t p)
  ↔ satisfied tables (tb_Rows t) sc c.
Proof.
  unfold compile_plan, satisfied. destruct (String.eqb_spec (c_Kind c) ConstraintUnique) as [->|Hu].
  - rewrite CompileUnique_still. split.
    + intros (ps & (q & Hq & [= <-])%obind_Done & Hok). split; [|done]. intros _. exists q.
      split; [by destruct (CompileUnique _ _ _ _); simplify_eq/=|]. apply (Hok (PUnique (c_Name c) q)). by left.
    + intros [Hs _]. destruct (Hs eq_refl) as (q & Hq & Hok). rewrite Hq. eexists. split; [done|].
      intros p ->%list_elem_of_singleton. done.
  - destruct (String.eqb_spec (c_Kind c) ConstraintForeignKey) as [->|Hf].
    2:{ split; [done|]. intros _. eexists. split; [done|]. by intros ? ?%not_elem_of_nil. }
    unfold foreign_target. fold (ref_table c). split.
    + intros (ps & Hc & Hok). split; [done|]. intros _.
      destruct (tables !! ref_table c) as [[[parent|] rows]|]; try done.
      apply obind_Done in Hc as (q & Hq & [= <-]). exists parent, q. split; [done|]. rewrite CompileForeign_still in Hq.
      split; [unfold target_of; by destruct (CompileForeign _ _ _ _ _ _); simplify_eq/=|].
      apply (Hok (PForeign q)). by left.
    + intros [_ Hs]. destruct (Hs eq_refl) as (parent & q & Ht & Hq & Hok).
      destruct (tables !! ref_table c) as [[[parent'|] rows]|]; simplify_eq.
      rewrite CompileForeign_still. unfold target_of in Hq. rewrite Hq. eexists. split; [done|].
      intros p ->%list_elem_of_singleton. done.
Qed.

Lemma compile_plans_ok path i tables sc t cs :
  (∃ ps, compile_plans still path i tables sc cs = Done ps ∧ ∀ p, p ∈ ps → plan_ok tables (own_access sc) t p)
  ↔ ∀ c, c ∈ cs → satisfied tables (tb_Rows t) sc c.
Proof.
  revert i. induction cs as [|c cs IH]; intros i; cbn [compile_plans].
  { split; [by intros _ ? ?%not_elem_of_nil|]. intros _. exists []. split; [done|]. by intros ? ?%not_elem_of_nil. }
  setoid_rewrite elem_of_cons. split.
  - intros (ps & (qs & Hq & (rs & Hr & [= <-])%obind_Done)%obind_Done & Hok). setoid_rewrite elem_of_app in Hok.
    intros c' [->|Hin].
    + apply (compile_plan_ok (i :: path)). exists qs. auto.
    + apply (IH (S i)); [|done]. exists rs. auto.
  - intros H. destruct (proj2 (compile_plan_ok (i :: path) tables sc t c) (H c (or_introl eq_refl))) as (qs & Hq & Hokq).
    destruct (proj2 (IH (S i)) (λ c' Hc', H c' (or_intror Hc'))) as (rs & Hr & Hokr).
    rewrite Hq. cbn [obind]. rewrite Hr. eexists. split; [done|]. intros p [?|?]%elem_of_app; auto.
Qed.

(** A table passes: its plans compile and hold. *)
Definition table_passes (tables : catalog) (path : list nat) (name : string) : Prop :=
  ∃ t sc ps, tables !! name = Some t ∧ tb_Schema t = Some sc ∧ table_plans still path tables name = Done ps
             ∧ ∀ p, p ∈ ps → plan_ok tables (own_access sc) t p.

Lemma table_passes_spec tables path name :
  table_passes tables path name ↔
  ∃ t sc, tables !! name = Some t ∧ tb_Schema t = Some sc ∧ declared sc
          ∧ ∀ c, c ∈ t_Constraints sc → satisfied tables (tb_Rows t) sc c.
Proof.
  unfold table_passes, table_plans, declared. split.
  - intros (t & sc & ps & Ht & Hs & Hp & Hok). exists t, sc. rewrite Ht in Hp. destruct t as [s rows].
    simpl in Hs. subst s. apply obind_Done in Hp as ([] & Hd & Hp). split_and!; [done|done| |].
    + change (polls_at still (0%nat :: path)) with (polls_at still []) in Hd.
      by destruct (ValidateConstraintDeclarations _ _ _) as [[]| |]; simplify_eq/=.
    + apply (compile_plans_ok (1%nat :: path) 0). eauto.
  - intros (t & sc & Ht & Hs & Hd & Hok). destruct t as [s rows]. simpl in Hs. subst s.
    apply (compile_plans_ok (1%nat :: path) 0) in Hok as (ps & Hp & Hok).
    exists (MkCTable (Some sc) rows), sc, ps. rewrite Ht. split_and!; [done|done| |done].
    change (polls_at still (0%nat :: path)) with (polls_at still []). by rewrite Hd.
Qed.

Lemma run_table_Done tables path name ps t sc :
  tables !! name = Some t → tb_Schema t = Some sc →
  match ps, tables !! name with
  | _ :: _, Some t => run_plans still path 0 tables
      (match tb_Schema t with Some sc => own_access sc | None => false end) (table_rows t) (ordered_plans ps)
  | _, _ => Done ()
  end = Done () ↔ ∀ p, p ∈ ps → plan_ok tables (own_access sc) t p.
Proof.
  intros -> Hs. destruct ps as [|p ps]; [split; [by intros _ ? ?%not_elem_of_nil|done]|].
  rewrite run_plans_Done, Hs. by setoid_rewrite elem_of_ordered.
Qed.

Lemma table_plans_Done tables path name ps :
  table_plans still path tables name = Done ps → ∃ t sc, tables !! name = Some t ∧ tb_Schema t = Some sc.
Proof. unfold table_plans. destruct (tables !! name) as [[[sc|] rows]|]; [|done|done]. eauto. Qed.

Lemma all_tables_Done path rpath i j tables names :
  (∃ plans, all_plans still path i tables names = Done plans ∧ run_tables still rpath j tables plans = Done ())
  ↔ ∀ name, name ∈ names → table_passes tables [] name.
Proof.
  assert (∀ p name, table_passes tables p name ↔ table_passes tables [] name) as Hpath.
  { intros p name. by rewrite !table_passes_spec. }
  revert i j. induction names as [|name names IH]; intros i j; cbn [all_plans].
  { split; [by intros _ ? ?%not_elem_of_nil|]. intros _. by exists []. }
  setoid_rewrite elem_of_cons. split.
  - intros (plans & (ps & Hp & (rest & Hr & [= <-])%obind_Done)%obind_Done & Hrun).
    cbn [run_tables] in Hrun. apply obind_Done in Hrun as ([] & Ht & Hrun).
    intros name' [->|Hin]; [|eapply IH; eauto].
    destruct (table_plans_Done _ _ _ _ Hp) as (t & sc & Hn & Hs). apply (Hpath (i :: path)).
    exists t, sc, ps. split_and!; [done|done|done|]. exact (proj1 (run_table_Done tables (j :: rpath) name ps t sc Hn Hs) Ht).
  - intros H. destruct (proj2 (IH (S i) (S j)) (λ n Hn, H n (or_intror Hn))) as (plans & Hpl & Hrun).
    pose proof (H name (or_introl eq_refl)) as (t & sc & ps & Hn & Hs & Hp & Hok)%(Hpath (i :: path)).
    exists ((name, ps) :: plans). rewrite Hp. cbn [obind]. rewrite Hpl. split; [done|]. cbn [run_tables].
    pose proof (proj2 (run_table_Done tables (j :: rpath) name ps t sc Hn Hs) Hok) as Hrun1. by rewrite Hrun1.
Qed.

(** The catalogue check passes exactly the valid catalogues. *)
Lemma CheckCatalog_valid tables : CheckCatalog still tables = Done () ↔ catalog_valid tables.
Proof.
  assert (CheckCatalog still tables = Done () ↔
    ∃ plans, all_plans still [1%nat] 0 tables (sorted_names tables) = Done plans
             ∧ run_tables still [2%nat] 0 tables plans = Done ()) as ->.
  { unfold CheckCatalog. unfold polled, still at 1. rewrite obind_Done. split.
    - intros (plans & Hp & ([] & Hr & _)%obind_Done). eauto.
    - intros (plans & Hp & Hr). exists plans. split; [done|]. by rewrite Hr. }
  rewrite all_tables_Done. setoid_rewrite table_passes_spec. unfold catalog_valid, sorted_names.
  setoid_rewrite merge_sort_Permutation. setoid_rewrite list_elem_of_fmap. split.
  - intros H name t Ht. destruct (H name) as (t' & sc & Ht' & Hrest).
    + exists (name, t). split; [done|by apply elem_of_map_to_list].
    + exists sc. simplify_eq. tauto.
  - intros H name ([n t] & -> & Ht%elem_of_map_to_list). destruct (H _ _ Ht) as (sc & ?). eauto.
Qed.
End Catalog.

(** ** Every check comes to an end *)

Lemma lift_error_returns {A E E'} (f : E → E') (o : outcome E A) : o ≠ OutOfFuel → lift_error f o ≠ OutOfFuel.
Proof. by destruct o. Qed.
Lemma polled_returns {A E} o path (canceled : ctx_error → E) (k : outcome E A) : k ≠ OutOfFuel → polled o path canceled k ≠ OutOfFuel.
Proof. unfold polled. by destruct (o path). Qed.
Create HintDb halts.
#[export] Hint Extern 5 (_ ≠ OutOfFuel) => discriminate : halts.
Ltac halting :=
  repeat first
    [ progress cbn beta zeta
    | discriminate
    | solve [auto with halts]
    | match goal with
      | |- polled _ _ _ _ ≠ OutOfFuel => apply polled_returns
      | |- lift_error _ _ ≠ OutOfFuel => apply lift_error_returns
      | |- obind _ _ ≠ OutOfFuel => apply obind_not_fuel; [|intros ? _]
      | H : ?X = OutOfFuel |- _ => exfalso; revert H; change (X ≠ OutOfFuel)
      end
    | case_match ].

Section Returns.
Context {UT : UnicodeTables}.

#[local] Hint Resolve Parse_returns : halts.

Lemma ValidateIdent_returns n what : ValidateIdent n what ≠ OutOfFuel.
Proof. unfold ValidateIdent. halting. Qed.
#[local] Hint Resolve ValidateIdent_returns : halts.
Lemma ValidateTableName_returns n : ValidateTableName n ≠ OutOfFuel.
Proof. unfold ValidateTableName. halting. Qed.
#[local] Hint Resolve ValidateTableName_returns : halts.

Lemma key_loop_returns fields names : ∀ seen, key_loop fields seen names ≠ OutOfFuel.
Proof. induction names; intros seen; cbn; halting. Qed.
#[local] Hint Resolve key_loop_returns : halts.
Lemma validate_declaration_returns c fields columns d : validate_declaration c fields columns d ≠ OutOfFuel.
Proof. unfold validate_declaration, validateUniqueConstraint, validateForeignKeyDeclaration. halting. Qed.
#[local] Hint Resolve validate_declaration_returns : halts.
Lemma declarations_loop_returns ps fields columns cs : ∀ i names, declarations_loop ps fields columns i names cs ≠ OutOfFuel.
Proof. induction cs; intros i names; cbn; halting. Qed.
#[local] Hint Resolve declarations_loop_returns : halts.
Lemma ValidateConstraintDeclarations_returns ps fields cs : ValidateConstraintDeclarations ps fields cs ≠ OutOfFuel.
Proof. unfold ValidateConstraintDeclarations. halting. Qed.
#[local] Hint Resolve ValidateConstraintDeclarations_returns : halts.

Lemma Coerce_returns f v : Coerce f v ≠ OutOfFuel.
Proof. unfold Coerce, coerce_number, finiteNumber. halting. Qed.
#[local] Hint Resolve Coerce_returns : halts.
Lemma coerceScalar_returns f v : coerceScalar f v ≠ OutOfFuel.
Proof. unfold coerceScalar. halting. Qed.
#[local] Hint Resolve coerceScalar_returns : halts.
Lemma key_parts_returns fields row : ∀ key null, key_parts fields row key null ≠ OutOfFuel.
Proof. induction fields; intros key null; cbn; halting. Qed.
#[local] Hint Resolve key_parts_returns : halts.
Lemma UniqueKey_returns fields row owner : UniqueKey fields row owner ≠ OutOfFuel.
Proof. unfold UniqueKey. halting. Qed.
#[local] Hint Resolve UniqueKey_returns : halts.

Lemma literalValue_returns n : literalValue n ≠ OutOfFuel.
Proof. unfold literalValue. halting. Qed.
#[local] Hint Resolve literalValue_returns : halts.
Lemma literal_kinds_returns nodes : ∀ kind, literal_kinds kind nodes ≠ OutOfFuel.
Proof. induction nodes; intros kind; cbn; halting. Qed.
#[local] Hint Resolve literal_kinds_returns : halts.
Lemma compile_comparison_returns op a b fields : compile_comparison op a b fields ≠ OutOfFuel.
Proof. unfold compile_comparison, comparison_field, compileOperand. halting. Qed.
#[local] Hint Resolve compile_comparison_returns : halts.
Lemma compile_node_returns o fields n : ∀ path, compile_node o path fields n ≠ OutOfFuel.
Proof. induction n; intros path; cbn; halting. Qed.
#[local] Hint Resolve compile_node_returns : halts.
Lemma CompileUnique_returns o path fields c : CompileUnique o path fields c ≠ OutOfFuel.
Proof. unfold CompileUnique, compileCondition. halting. Qed.
Lemma CompileForeign_returns o path fields c own target : CompileForeign o path fields c own target ≠ OutOfFuel.
Proof. unfold CompileForeign. halting. Qed.
#[local] Hint Resolve CompileUnique_returns CompileForeign_returns : halts.

Lemma evaluate_returns o row c : ∀ path, evaluate o path c row ≠ OutOfFuel.
Proof. induction c; intros path; cbn; unfold evaluate_comparison, readOperand; halting. Qed.
#[local] Hint Resolve evaluate_returns : halts.
Lemma plan_Key_returns o path p row owner : plan_Key o path p row owner ≠ OutOfFuel.
Proof. unfold plan_Key. halting. Qed.
#[local] Hint Resolve plan_Key_returns : halts.
Lemma unique_loop_returns o path name plan own rows : ∀ i seen, unique_loop o path i name plan own seen rows ≠ OutOfFuel.
Proof. induction rows; intros i seen; cbn; halting. Qed.
#[local] Hint Resolve unique_loop_returns : halts.
Lemma foreign_rows_returns o path p tables rows : ∀ i, foreign_rows o path i p tables rows ≠ OutOfFuel.
Proof. induction rows; intros i; cbn; unfold foreign_Check, catalog_lookup; halting. Qed.
#[local] Hint Resolve foreign_rows_returns : halts.
Lemma compile_plans_returns o path tables sc cs : ∀ i, compile_plans o path i tables sc cs ≠ OutOfFuel.
Proof. induction cs; intros i; cbn; unfold compile_plan; halting. Qed.
#[local] Hint Resolve compile_plans_returns : halts.
Lemma all_plans_returns o path tables names : ∀ i, all_plans o path i tables names ≠ OutOfFuel.
Proof. induction names; intros i; cbn; unfold table_plans; halting. Qed.
Lemma run_plans_returns o path tables own rows ps : ∀ i, run_plans o path i tables own rows ps ≠ OutOfFuel.
Proof. induction ps; intros i; cbn; unfold run_plan, CheckUnique; halting. Qed.
#[local] Hint Resolve all_plans_returns run_plans_returns : halts.
Lemma run_tables_returns o path tables plans : ∀ i, run_tables o path i tables plans ≠ OutOfFuel.
Proof. induction plans as [|[]]; intros i; cbn; halting. Qed.
#[local] Hint Resolve run_tables_returns : halts.
Lemma checkConstraints_returns o tables sc incoming : checkConstraints o tables sc incoming ≠ OutOfFuel.
Proof. unfold checkConstraints, CheckCatalog. halting. Qed.

Lemma enum_loop_returns n vals : ∀ seen, enum_loop n seen vals ≠ OutOfFuel.
Proof. induction vals; intros seen; cbn; halting. Qed.
Lemma media_loop_returns n vals : ∀ seen, media_loop n seen vals ≠ OutOfFuel.
Proof. induction vals; intros seen; cbn; halting. Qed.
#[local] Hint Resolve enum_loop_returns media_loop_returns : halts.
Lemma ValidateFileConstraints_returns n maxBytes types : ValidateFileConstraints n maxBytes types ≠ OutOfFuel.
Proof. unfold ValidateFileConstraints. halting. Qed.
#[local] Hint Resolve ValidateFileConstraints_returns : halts.
Lemma validate_field_returns legacy seen count f : validate_field legacy seen count f ≠ OutOfFuel.
Proof. unfold validate_field, when, secretRefusal, fileRefusal, ValidateShape, ValidateEnum. halting. Qed.
#[local] Hint Resolve validate_field_returns : halts.
Lemma validate_loop_returns legacy fields : ∀ seen count, validate_loop legacy seen count fields ≠ OutOfFuel.
Proof. induction fields; intros seen count; cbn; halting. Qed.
#[local] Hint Resolve validate_loop_returns : halts.
Lemma ValidateForMigration_returns fields existing : ValidateForMigration fields existing ≠ OutOfFuel.
Proof. unfold ValidateForMigration, validate. halting. Qed.
End Returns.
