(* ===== verification/ConstraintTheorems.v ===== *)
(** * The theorems of constraint checking

    The key of a unique constraint, the meaning of a catalogue check, and that
    the check a write runs is enough to keep a whole namespace valid. *)
From Stdlib Require Import ZArith QArith Qcanon Lia Ascii String.
From stdpp Require Import base gmap strings list sorting fin_maps.
From S2P Require Import Prelude GoStrings FilterLexer FilterParser SchemaIdent SchemaNames Schema SchemaConstraints SchemaRules.
From S2P Require Import GoNumbers Timestamps ConstraintValues ConstraintPlans ConstraintCatalog.
Local Open Scope Z_scope.

Section Theorems.
Context {UT : UnicodeTables}.

(** C37. The key of a unique constraint is a faithful code.  Two rows that
    take part have the same key exactly when their owners are the same and
    every key field holds the same value as a constraint compares values:
    text lengths are written before texts, so no two lists of values run
    together, and numbers of any form are equal when their exact values are. *)
Theorem UniqueKey_faithful fields row1 row2 owner1 owner2 k1 k2
    (H1 : UniqueKey fields row1 owner1 = Done (Some k1)) (H2 : UniqueKey fields row2 owner2 = Done (Some k2)) :
  k1 = k2 ↔ owner1 = owner2 ∧ ∀ f, f ∈ fields →
    coerceScalar f (row_value row1 (f_Name f)) = coerceScalar f (row_value row2 (f_Name f)).
Proof. by apply unique_key_eq. Qed.

(** C26. [CheckCatalog] passes exactly the valid catalogues: every table has a
    schema with sound declarations, no two of its rows share a key of a unique
    constraint, and every reference is null where that is allowed or names a
    row of the parent, of the same owner under row access. *)
Theorem CheckCatalog_exact tables : CheckCatalog still tables = Done () ↔ catalog_valid tables.
Proof. apply CheckCatalog_valid. Qed.

(** ** The check of one write *)

Lemma CompileForeign_Done o path fields c own target p :
  CompileForeign o path fields c own target = Done p →
  fp_table p = ref_table c ∧ rt_AcceptReferences target = true ∧ ∃ r, c_References c = Some r.
Proof.
  unfold CompileForeign. destruct (String.eqb_spec (c_Kind c) ConstraintForeignKey) as [Hk|]; [cbn [negb]|done].
  intros ([] & Hv & H)%obind_Done. fold (ref_table c) in H.
  destruct (negb _ || negb _) eqn:Hneg; [done|]. apply orb_false_iff in Hneg as [_ Hacc%negb_false_iff].
  destruct (negb _); [done|]. injection H as <-. split_and!; [done|done|].
  destruct (ValidateConstraintDeclarations _ _ _) as [[]| |] eqn:Hd; [|done|done].
  apply ValidateConstraintDeclarations_Done in Hd as (_ & _ & Hf). inversion Hf as [|? ? [_ Hok] _]; subst.
  destruct Hok as [[Hu _]|[_ Hfk]]; [rewrite Hk in Hu; done|]. destruct Hfk; naive_solver.
Qed.

Section Snapshot.
Context (tables : catalog) (changed : string) (incoming : bool).
Let snapshot : catalog := constraint_snapshot tables changed incoming.

Definition selects (name : string) (c : Constraint) : bool := concerns changed incoming name c.

Lemma lookup_select name :
  SelectChecks tables changed incoming !! name =
  (λ t, MkCTable (select_schema changed incoming name <$> tb_Schema t) (tb_Rows t)) <$> tables !! name.
Proof. unfold SelectChecks. rewrite map_lookup_imap. by destruct (tables !! name). Qed.

Lemma lookup_snapshot name t sc :
  tables !! name = Some t → tb_Schema t = Some sc →
  snapshot !! name = Some (MkCTable (Some (select_schema changed incoming name sc))
    (if needed (SelectChecks tables changed incoming) name then tb_Rows t else ∅)).
Proof.
  intros Ht Hs. subst snapshot. unfold constraint_snapshot. rewrite map_lookup_imap, lookup_select, Ht. cbn.
  by rewrite Hs.
Qed.

(** The tables a selected constraint consults are loaded. *)
Lemma needed_own name t sc c :
  tables !! name = Some t → tb_Schema t = Some sc → c ∈ t_Constraints sc → selects name c = true →
  needed (SelectChecks tables changed incoming) name = true
  ∧ (c_Kind c = ConstraintForeignKey → ∀ r, c_References c = Some r →
       needed (SelectChecks tables changed incoming) (cr_Table r) = true).
Proof.
  intros Ht Hs Hc Hsel.
  assert ((name, MkCTable (Some (select_schema changed incoming name sc)) (tb_Rows t))
          ∈ map_to_list (SelectChecks tables changed incoming)) as Hin.
  { apply elem_of_map_to_list. rewrite lookup_select, Ht. cbn. by rewrite Hs. }
  assert (c ∈ List.filter (concerns changed incoming name) (t_Constraints sc)) as Hf.
  { apply list_elem_of_In, List.filter_In. split; [by apply list_elem_of_In|done]. }
  split.
  - unfold needed. apply existsb_exists. eexists. split; [by apply list_elem_of_In|]. cbn.
    rewrite String.eqb_refl. destruct (List.filter _ _); [by apply not_elem_of_nil in Hf|done].
  - intros Hk r Hr. unfold needed. apply existsb_exists. eexists. split; [by apply list_elem_of_In|]. cbn.
    apply orb_true_iff. right. apply existsb_exists. exists c. split; [by apply list_elem_of_In|].
    by rewrite Hk, Hr, !String.eqb_refl.
Qed.

Lemma foreign_target_snapshot c psc :
  foreign_target snapshot c = Some psc →
  ∃ parent, foreign_target tables c = Some parent ∧ psc = select_schema changed incoming (ref_table c) parent.
Proof.
  unfold foreign_target. destruct (tables !! ref_table c) as [[[parent|] rows]|] eqn:Hp.
  - rewrite (lookup_snapshot _ _ _ Hp eq_refl). intros [= <-]. eauto.
  - subst snapshot. unfold constraint_snapshot. rewrite map_lookup_imap, lookup_select, Hp. done.
  - subst snapshot. unfold constraint_snapshot. rewrite map_lookup_imap, lookup_select, Hp. done.
Qed.

(** What the snapshot says of a selected constraint holds of the tables. *)
Lemma satisfied_snapshot name t sc c :
  tables !! name = Some t → tb_Schema t = Some sc → c ∈ t_Constraints sc → selects name c = true →
  catalog_valid snapshot → satisfied tables (tb_Rows t) sc c.
Proof.
  intros Ht Hs Hc Hsel Hvalid.
  destruct (Hvalid _ _ (lookup_snapshot _ _ _ Ht Hs)) as (sc' & [= <-] & _ & Hall).
  destruct (needed_own _ _ _ _ Ht Hs Hc Hsel) as [Hn Hnr]. rewrite Hn in Hall.
  destruct (Hall c) as [Hu Hf].
  { apply list_elem_of_In, List.filter_In. split; [by apply list_elem_of_In|done]. }
  split; [done|]. intros Hk. destruct (Hf Hk) as (psc & p & Htg & Hcf & Hrows).
  destruct (foreign_target_snapshot _ _ Htg) as (parent & Hparent & ->).
  exists parent, p. split; [done|]. split; [done|]. intros id row Hrow.
  destruct (CompileForeign_Done _ _ _ _ _ _ _ Hcf) as (Hfp & _ & r & Hr).
  assert (∀ pid, parent_row snapshot (fp_table p) pid = parent_row tables (fp_table p) pid) as Hpr.
  { intros pid. unfold parent_row. rewrite Hfp. unfold foreign_target in Hparent.
    destruct (tables !! ref_table c) as [[[x|] rows]|] eqn:Hp; [|done|done].
    rewrite (lookup_snapshot _ _ _ Hp eq_refl). cbn. unfold ref_table in *. rewrite Hr in *. by rewrite (Hnr Hk r eq_refl). }
  specialize (Hrows id row Hrow). unfold reference_ok in *. by setoid_rewrite Hpr in Hrows.
Qed.
End Snapshot.

(** Writing a table's rows leaves the other tables' parents alone, and, where
    rows are only added or kept with their owners, the references to it. *)
Definition keeps_parents (rows rows' : gmap Z Row) : Prop :=
  ∀ id row, rows !! id = Some row → ∃ row', rows' !! id = Some row' ∧ rw_Owner row' = rw_Owner row.

Section Write.
Context (tables : catalog) (name : string) (sc : TableSchema) (rows rows' : gmap Z Row).
Context (Hin : tables !! name = Some (MkCTable (Some sc) rows)).
Let tables' : catalog := <[name := MkCTable (Some sc) rows']> tables.

Lemma foreign_target_write c : foreign_target tables' c = foreign_target tables c.
Proof.
  unfold foreign_target, tables'. destruct (decide (ref_table c = name)) as [->|Hne].
  - by rewrite lookup_insert_eq, Hin.
  - by rewrite lookup_insert_ne by done.
Qed.

Lemma satisfied_write_other trows sc' c :
  satisfied tables trows sc' c → (c_Kind c = ConstraintForeignKey → ref_table c = name → keeps_parents rows rows') →
  satisfied tables' trows sc' c.
Proof.
  intros [Hu Hf] Hkeep. split; [done|]. intros Hk. destruct (Hf Hk) as (parent & p & Ht & Hc & Hrows).
  exists parent, p. rewrite foreign_target_write. split_and!; [done|done|].
  destruct (CompileForeign_Done _ _ _ _ _ _ _ Hc) as (Hfp & _). intros id row Hrow.
  destruct (Hrows id row Hrow) as [Hnull|(pid & prow & Hr & Hp & Hown)]; [by left|right].
  unfold parent_row, tables' in *. rewrite Hfp in *. destruct (decide (ref_table c = name)) as [Heq|Hne].
  - rewrite Heq in *. rewrite Hin in Hp. cbn in Hp. destruct (Hkeep Hk eq_refl pid prow Hp) as (prow' & Hp' & Ho).
    exists pid, prow'. rewrite lookup_insert_eq. cbn. split_and!; [done|done|]. intros Hfo. rewrite Ho. auto.
  - exists pid, prow. by rewrite lookup_insert_ne by done.
Qed.

(** C19. The check of a write is enough.  In a valid namespace, after the rows
    of one table are replaced, the constraints selected for that table, on a
    snapshot that loads only the rows they consult, passing their check makes
    the whole namespace valid again: always when incoming references are
    checked, and without them when no parent row was removed or changed
    owner. *)
Theorem incremental_check_sufficient incoming
    (Hname : t_Name sc = name) (Hvalid : catalog_valid tables)
    (Hkeep : incoming = false → keeps_parents rows rows')
    (Hcheck : checkConstraints still tables' sc incoming = Done ()) :
  catalog_valid tables'.
Proof.
  assert (catalog_valid (constraint_snapshot tables' name incoming)
          ∨ t_Constraints sc = [] ∧ (incoming = true → t_AcceptReferences sc = false)) as Hran.
  { unfold checkConstraints in Hcheck. rewrite Hname in Hcheck.
    destruct (t_Constraints sc) as [|c cs]; [|left; by apply CheckCatalog_valid].
    destruct (incoming && t_AcceptReferences sc) eqn:Hia; cbn [negb] in Hcheck;
      [left; by apply CheckCatalog_valid|right]. split; [done|]. by intros ->. }
  intros n t Ht. destruct (decide (n = name)) as [->|Hne].
  - unfold tables' in Ht. rewrite lookup_insert_eq in Ht. injection Ht as <-.
    destruct (Hvalid _ _ Hin) as (sc' & [= <-] & Hd & _). exists sc. split_and!; [done|done|].
    intros c Hc. destruct Hran as [Hran|[Hnil _]]; [|rewrite Hnil in Hc; by apply not_elem_of_nil in Hc].
    apply (satisfied_snapshot tables' name incoming name (MkCTable (Some sc) rows')); [|done|done| |done].
    + apply lookup_insert_eq.
    + unfold selects, concerns. by rewrite String.eqb_refl.
  - unfold tables' in Ht. rewrite lookup_insert_ne in Ht by done.
    destruct (Hvalid _ _ Ht) as (sc' & Hs & Hd & Hall). exists sc'. split_and!; [done|done|]. intros c Hc.
    pose proof (Hall c Hc) as Hold. destruct incoming eqn:Hinc.
    2:{ apply satisfied_write_other; auto. }
    destruct (decide (c_Kind c = ConstraintForeignKey ∧ ref_table c = name)) as [[Hk Href]|Hnot].
    2:{ apply satisfied_write_other; [done|]. intros Hk Href. by destruct Hnot. }
    pose proof Hold as [_ Hf]. destruct (Hf Hk) as (parent & p & Htg & Hcf & _).
    destruct (CompileForeign_Done _ _ _ _ _ _ _ Hcf) as (_ & Hacc & r & Hr).
    unfold foreign_target in Htg. rewrite Href, Hin in Htg. injection Htg as <-. cbn in Hacc.
    destruct Hran as [Hran|[_ Hno]]; [|rewrite (Hno eq_refl) in Hacc; done].
    apply (satisfied_snapshot tables' name true n t); [|done|done| |done].
    + unfold tables'. by rewrite lookup_insert_ne by done.
    + unfold selects, concerns. unfold ref_table in Href. rewrite Hr in *. rewrite Hk, Href.
      rewrite !String.eqb_refl. apply orb_true_r.
Qed.
End Write.

(** ** Predicates *)

(** Kleene's connectives; [None] is unknown. *)
Definition and3 (a b : option bool) : option bool :=
  match a, b with
  | Some false, _ | _, Some false => Some false
  | Some true, Some true => Some true
  | _, _ => None
  end.
Definition or3 (a b : option bool) : option bool := negb <$> and3 (negb <$> a) (negb <$> b).

Definition encode3 (v : option bool) : truth :=
  match v with None => unknown | Some b => truthOf b end.

(** The value of an operand: a column of the row, or a literal read as a value
    of the comparison's field. *)
Definition value_of (fields : list Field) (field : Field) (row : row_values) (n : Node) : option scalar :=
  let scalar_of f v := match coerceScalar f v with Done s => Some s | _ => None end in
  match column_of n with
  | Some name => match row_value row name with
                 | GNil => None
                 | v => scalar_of (without_enum (field_of fields name)) v
                 end
  | None => match literalValue n with
            | Done GNil => None
            | Done raw => scalar_of field raw
            | _ => None
            end
  end.

Definition compared (fields : list Field) (row : row_values) (op : string) (a b : Node) : option bool :=
  match comparison_field a b fields with
  | Done field =>
      match value_of fields field row a, value_of fields field row b with
      | Some x, Some y => holds_cmp op (scalar_compare x y)
      | _, _ => None
      end
  | _ => None
  end.

(** The meaning of a constraint's predicate on a row. *)
Fixpoint predicate_holds (fields : list Field) (row : row_values) (n : Node) : option bool :=
  match n with
  | Paren inner => predicate_holds fields row inner
  | Unary _ operand => negb <$> predicate_holds fields row operand
  | Binary op l r =>
      if String.eqb op "and" then and3 (predicate_holds fields row l) (predicate_holds fields row r)
      else if String.eqb op "or" then or3 (predicate_holds fields row l) (predicate_holds fields row r)
      else compared fields row op l r
  | Is negated l r =>
      match comparison_field l r fields with
      | Done field => Some (Bool.eqb (bool_decide (value_of fields field row l = None)) (negb negated))
      | _ => None
      end
  | _ => None
  end.

(** Every column of the row holds null or a value of its field. *)
Definition row_typed (fields : list Field) (row : row_values) : Prop :=
  row_value row "" = GNil
  ∧ ∀ name, row_value row name = GNil
          ∨ ∃ s, coerceScalar (without_enum (field_of fields name)) (row_value row name) = Done s.

Definition kind_of_field (f : Field) : FieldType := if is_type f Text then TString else f_Type f.

Lemma coerceScalar_kind f v s : coerceScalar f v = Done s → sc_kind s = kind_of_field f.
Proof. intros H. by destruct (coerceScalar_shape f v s H). Qed.

Lemma textual_kind f g : textual f = true → textual g = true → kind_of_field f = kind_of_field g.
Proof.
  unfold textual, kind_of_field, is_type. intros H1 H2.
  assert (∀ h, String.eqb (f_Type h) TString || String.eqb (f_Type h) Text = true →
    (if String.eqb (f_Type h) Text then TString else f_Type h) = TString) as Hk; [|by rewrite !Hk].
  intros h [->%String.eqb_eq| ->%String.eqb_eq]%orb_true_iff; done.
Qed.

Lemma readOperand_value fields field row n x :
  row_typed fields row → compileOperand n field fields = Done x →
  readOperand x row = Done (value_of fields field row n)
  ∧ ∀ s, value_of fields field row n = Some s → sc_kind s = kind_of_field field.
Proof.
  intros [Hempty Hrow]. unfold compileOperand, value_of. destruct (column_of n) as [name|].
  - destruct (negb _ && negb _) eqn:Hty; [done|]. intros [= <-]. unfold readOperand. cbn [op_column op_field op_constant].
    destruct (String.eqb_spec name "") as [->|_]; [by rewrite Hempty|].
    assert (kind_of_field (field_of fields name) = kind_of_field field) as Hkind.
    { apply andb_false_iff in Hty as [Hty%negb_false_iff%String.eqb_eq|Hty%negb_false_iff].
      - unfold kind_of_field, is_type. by rewrite Hty.
      - apply andb_true_iff in Hty as [? ?]. by apply textual_kind. }
    destruct (Hrow name) as [->|(s & Hs)]; [done|].
    assert (sc_kind s = kind_of_field field) as Hks.
    { apply coerceScalar_kind in Hs. by rewrite Hs, <-Hkind. }
    destruct (row_value row name); [done|..]; rewrite Hs; (split; [done|by intros ? [= <-]]).
  - destruct (literalValue n) as [raw|e|]; [|done|done]. cbn [obind].
    destruct raw; [by intros [= <-]|..]; destruct (coerceScalar field _) as [s'|e|] eqn:Hs; try done;
      cbn [lift_error obind]; intros [= <-]; (split; [done|]); intros ? [= <-]; by apply coerceScalar_kind in Hs.
Qed.

Lemma holds_cmp_comparisons op cmp : mem op comparisons = true → ∃ b, holds_cmp op cmp = Some b.
Proof.
  rewrite mem_spec. unfold comparisons. intros Hop.
  repeat (apply elem_of_cons in Hop as [->|Hop]; [by eexists|]). by apply not_elem_of_nil in Hop.
Qed.

Lemma comparison_not_logic op : mem op comparisons = true →
  mem op ["and"; "or"; "not"] = false ∧ mem op ["is_null"; "is_not_null"] = false
  ∧ String.eqb op "and" = false ∧ String.eqb op "or" = false.
Proof.
  rewrite (mem_spec op comparisons). unfold comparisons. intros Hop.
  repeat (apply elem_of_cons in Hop as [->|Hop]; [done|]). by apply not_elem_of_nil in Hop.
Qed.

Lemma compile_comparison_Done op a b fields c :
  compile_comparison op a b fields = Done c →
  ∃ field x y, comparison_field a b fields = Done field ∧ compileOperand a field fields = Done x
    ∧ compileOperand b field fields = Done y ∧ c = Cond op CNil CNil x y.
Proof. unfold compile_comparison. intros (f & Hf & (x & Hx & (y & Hy & [= <-])%obind_Done)%obind_Done)%obind_Done. by exists f, x, y. Qed.

Lemma compared_evaluates fields row op a b c path :
  row_typed fields row → mem op comparisons = true → compile_comparison op a b fields = Done c →
  evaluate still path c row = Done (encode3 (compared fields row op a b)).
Proof.
  intros Hrow Hop (field & x & y & Hf & Hx & Hy & ->)%compile_comparison_Done.
  destruct (comparison_not_logic _ Hop) as (Hl & Hn & _ & _).
  cbn [evaluate]. unfold polled, still at 1. rewrite Hl. unfold evaluate_comparison, compared. rewrite Hf, Hn.
  destruct (readOperand_value _ _ _ _ _ Hrow Hx) as [-> Ka], (readOperand_value _ _ _ _ _ Hrow Hy) as [-> Kb].
  cbn [obind]. destruct (value_of fields field row a) as [s|], (value_of fields field row b) as [s'|]; try done.
  rewrite (Ka s eq_refl), (Kb s' eq_refl), String.eqb_refl. cbn [negb].
  destruct (holds_cmp_comparisons op (scalar_compare s s') Hop) as (v & ->). done.
Qed.

Lemma compile_evaluates o fields row n :
  row_typed fields row → constraintPredicate n = true → ∀ path path' c,
  compile_node o path fields n = Done c → evaluate still path' c row = Done (encode3 (predicate_holds fields row n)).
Proof.
  intros Hrow. induction n as [| | | |op l IHl r IHr|op x IHx|inner IH|negated l IHl r IHr| | | |];
    cbn [constraintPredicate]; try done; intros Hp path path' c Hc.
  - cbn [compile_node predicate_holds] in *. destruct (mem op ["and"; "or"]) eqn:Hlogic.
    + apply andb_true_iff in Hp as [Hpl Hpr]. unfold polled in Hc.
      apply obind_Done in Hc as (cl & Hcl & (cr & Hcr & [= <-])%obind_Done).
      destruct (o (0%nat :: path)); [done|]. destruct (o (1%nat :: path)); [done|].
      cbn [evaluate]. unfold polled, still at 1. rewrite (IHl Hpl _ _ _ Hcl), (IHr Hpr _ _ _ Hcr).
      apply mem_spec in Hlogic. apply elem_of_cons in Hlogic as [->| ->%list_elem_of_singleton];
        destruct (predicate_holds fields row l) as [[]|], (predicate_holds fields row r) as [[]|]; done.
    + destruct (mem op comparisons) eqn:Hop; [|done]. destruct (comparison_not_logic _ Hop) as (_ & _ & -> & ->).
      by apply compared_evaluates.
  - apply andb_true_iff in Hp as [->%String.eqb_eq Hpx]. cbn [compile_node predicate_holds] in *. unfold polled in Hc.
    apply obind_Done in Hc as (cx & Hcx & [= <-]). destruct (o (0%nat :: path)); [done|].
    cbn [evaluate]. unfold polled, still at 1. rewrite (IHx Hpx _ _ _ Hcx). by destruct (predicate_holds fields row x) as [[]|].
  - clear IHl IHr. cbn [compile_node predicate_holds] in *.
    apply compile_comparison_Done in Hc as (field & x & y & Hf & Hx & Hy & ->). rewrite Hf.
    destruct (readOperand_value _ _ _ _ _ Hrow Hx) as [Hv _]. cbn [evaluate]. unfold polled, still at 1.
    assert (mem (if negated then "is_not_null" else "is_null") ["and"; "or"; "not"] = false) as -> by by destruct negated.
    unfold evaluate_comparison. rewrite Hv. cbn [obind].
    destruct negated, (value_of fields field row l); reflexivity.
Qed.

(** Compiled predicates do not go wrong.  A predicate a declaration may
    use, once compiled, evaluates without an error on every row whose columns
    hold null or values of their fields, and answers its meaning in Kleene's
    three-valued logic: comparisons with a null are unknown, [is null] never
    is, and the connectives follow. *)
Theorem predicate_evaluates o path path' fields row n c
    (Hn : constraintPredicate n = true) (Hrow : row_typed fields row)
    (Hc : compileCondition o path n fields = Done c) :
  evaluate still path' c row = Done (encode3 (predicate_holds fields row n)).
Proof.
  unfold compileCondition, polled in Hc. destruct (o path); [done|]. by eapply compile_evaluates.
Qed.
End Theorems.

(** ** At concrete data *)

#[local] Existing Instance ascii_tables.

Definition scalar_field (name : string) (t : FieldType) (required : bool) : Field :=
  MkField name t false false 0 required None "" JNull 0 None.
Definition user_fields : list Field :=
  [scalar_field "email" TString true; scalar_field "active" Boolean false; scalar_field "age" Number false].
Definition one_email : Constraint :=
  MkConstraint "one_email" ConstraintUnique (Some ["email"; "age"]) "active = true and not (age < 18)" "" None.
Definition post_fields : list Field := [scalar_field "author" Number true].
Definition by_author : Constraint :=
  MkConstraint "by_author" ConstraintForeignKey None "" "author" (Some (MkReference "users" "id")).
Definition users : TableSchema := MkTable "ns" "users" 1 user_fields "" 0 "" false [one_email] true None.
Definition posts : TableSchema := MkTable "ns" "posts" 1 post_fields "" 0 "" false [by_author] false None.

Definition user_row (email : string) (age : goval) : row_values :=
  <["email" := GString email]> (<["active" := GInt64 1]> {["age" := age]}).
Definition twenty_float : goval := GFloat (Finite (20 * 2 ^ 48) (-48)).
Definition user_rows : gmap Z Row :=
  <[1 := MkRow (user_row "a@x" (GInt64 20)) None]> {[2 := MkRow (user_row "b@x" twenty_float) None]}.
Definition post_row (author : Z) : Row := MkRow {["author" := GInt64 author]} None.
Definition sample_tables : catalog :=
  <["users" := MkCTable (Some users) user_rows]> {["posts" := MkCTable (Some posts) {[7 := post_row 1]}]}.

Lemma UniqueKey_faithful_witness :
  default "" (match UniqueKey user_fields (user_row "a@x" (GInt64 20)) None with Done k => k | _ => None end)
  = default "" (match UniqueKey user_fields (user_row "a@x" twenty_float) None with Done k => k | _ => None end)
  ↔ (None : option string) = None ∧ ∀ f, f ∈ user_fields →
      coerceScalar f (row_value (user_row "a@x" (GInt64 20)) (f_Name f))
      = coerceScalar f (row_value (user_row "a@x" twenty_float) (f_Name f)).
Proof.
  refine (UniqueKey_faithful user_fields (user_row "a@x" (GInt64 20)) (user_row "a@x" twenty_float) None None _ _ _ _);
    vm_compute; reflexivity.
Defined.

Lemma sample_valid : catalog_valid sample_tables.
Proof. apply CheckCatalog_valid. vm_compute. reflexivity. Qed.

Definition more_posts : gmap Z Row := <[8 := post_row 2]> {[7 := post_row 1]}.
Lemma incremental_check_sufficient_witness :
  catalog_valid (<["posts" := MkCTable (Some posts) more_posts]> sample_tables).
Proof.
  refine (incremental_check_sufficient sample_tables "posts" posts {[7 := post_row 1]} more_posts _ true _ sample_valid _ _).
  - vm_compute. reflexivity.
  - reflexivity.
  - discriminate.
  - vm_compute. reflexivity.
Defined.

Lemma sample_row_typed : row_typed user_fields (user_row "a@x" twenty_float).
Proof.
  split; [reflexivity|]. intros name.
  destruct (decide (name = "email")) as [->|H1]; [right; eexists; vm_compute; reflexivity|].
  destruct (decide (name = "active")) as [->|H2]; [right; eexists; vm_compute; reflexivity|].
  destruct (decide (name = "age")) as [->|H3]; [right; eexists; vm_compute; reflexivity|].
  left. unfold row_value, user_row. rewrite !lookup_insert_ne, lookup_singleton_ne by done. done.
Qed.

Definition sample_predicate : Node :=
  Binary "and" (Binary "=" (Column "active") (Literal LiteralTrue "true"))
    (Unary "not" (Paren (Binary "<" (Column "age") (Literal LiteralNumber "18")))).
Lemma predicate_evaluates_witness :
  ∃ c, compileCondition still [] sample_predicate user_fields = Done c
       ∧ evaluate still [] c (user_row "a@x" twenty_float)
         = Done (encode3 (predicate_holds user_fields (user_row "a@x" twenty_float) sample_predicate)).
Proof.
  eexists. split; [vm_compute; reflexivity|].
  apply (predicate_evaluates still [] [] user_fields (user_row "a@x" twenty_float) sample_predicate);
    [reflexivity|apply sample_row_typed|vm_compute; reflexivity].
Defined.

(** The values compared are what the texts say. *)
Example predicate_meaning : predicate_holds user_fields (user_row "a@x" twenty_float) sample_predicate = Some true.
Proof. vm_compute. reflexivity. Qed.
Example unknown_age : predicate_holds user_fields (user_row "a@x" GNil) sample_predicate = None.
Proof. vm_compute. reflexivity. Qed.
Example duplicate_refused :
  checkConstraints still (<["users" := MkCTable (Some users) (<[3 := MkRow (user_row "b@x" (GInt64 20)) None]> user_rows)]> sample_tables)
    users false = Fail (UniqueViolation "one_email").
Proof. vm_compute. reflexivity. Qed.
