(* ===== verification/TableEngine.v ===== *)
(** * The table a store keeps its rows in

    A table of [internal/store] is a table of SQLite: its columns, and for
    every row the value of each.  The store reads it by queries and changes it
    by the statements of this file.  SQLite is not part of the repository, so
    [Engine] is an interface and [EngineLaws] what the store relies on: the
    documented effect of each statement, and when it runs.  [sheet] is a
    concrete engine that has the laws. *)
From Stdlib Require Import ZArith Lia Ascii String.
From stdpp Require Import base gmap strings list.
From S2P Require Import Prelude GoStrings AuthIdentity SchemaIdent Schema SchemaFacts GoNumbers.
Local Open Scope Z_scope.

(** What a column of a row holds.  [VJson v] is the text [json.Marshal] writes
    for [v], and [VVector l] the blob of the vector with the entries [l] rounded
    to [float32]. *)
Inductive sqlval :=
| VNull | VInt (n : Z) | VFloat (x : float64) | VText (s : string) | VJson (v : json) | VVector (l : list float64)
| VBlob (b : list Z).

Definition is_null (v : sqlval) : bool := match v with VNull => true | _ => false end.
(** NaN is no number: SQLite keeps NULL for it, so no column holds one. *)
Definition is_number (v : sqlval) : bool :=
  match v with VInt _ | VFloat (Finite _ _) | VFloat (Infinite _) => true | _ => false end.
Definition text_cell (v : sqlval) : bool := match v with VText _ | VJson _ => true | _ => false end.

(** The statements of a migration.  [AddColumn c ty notnull d] is
    [ALTER TABLE ADD COLUMN c ty NOT NULL DEFAULT d], the last two where they
    are given ([VNull] is no default); [CountRows] makes the triggers and the
    counts of [installRowCount] again. *)
Inductive statement :=
| AddColumn (c ty : string) (notnull : bool) (d : sqlval)
| UpdateAll (c : string) (v : sqlval)
| RenameColumn (from to : string)
| DropColumn (c : string)
| CountRows (hasOwner : bool).

(** SQLite compares names of columns without regard to the case of ASCII
    letters; names in lower case are the same only when they are equal. *)
Definition upper_byte (c : ascii) : bool := byte_in 65 90 c.
Definition lower_name (s : string) : bool := all_bytes (λ c, negb (upper_byte c)) s.

(** [names] in the order they were added; [decl] the declared type of a
    column; [ids] ascending; [pinned] the columns a key, an index or a trigger
    names; [store_as ty v] what a column of the type [ty] holds of [v]. *)
Class Engine (DB : Type) := {
  names : DB → list string;
  decl : DB → string → string;
  ids : DB → list Z;
  cell : DB → Z → string → sqlval;
  pinned : DB → list string;
  store_as : string → sqlval → sqlval;
  exec : statement → DB → option DB }.

Definition renamed (from to n : string) : string := if String.eqb n from then to else n.

(** When a statement runs. *)
Definition ready {DB} `{Engine DB} (db : DB) (st : statement) : Prop :=
  match st with
  | AddColumn c _ notnull d => (c ∉ names db) ∧ (notnull = true → is_null d = true → ids db = [])
  | UpdateAll c v => (c ∈ names db) ∧ is_null v = false
  | RenameColumn a b => (a ∈ names db) ∧ (a ∉ pinned db) ∧ (b = a ∨ b ∉ names db)
  | DropColumn a => (a ∈ names db) ∧ (a ∉ pinned db)
  | CountRows _ => True
  end.
Definition mentions (st : statement) : list string :=
  match st with
  | AddColumn c _ _ _ | UpdateAll c _ | DropColumn c => [c]
  | RenameColumn a b => [a; b]
  | CountRows _ => []
  end.

Class EngineLaws (DB : Type) `{Engine DB} := {
  exec_runs st (db : DB) :
    Forall (λ n, lower_name n = true) (mentions st ++ names db) → ready db st → is_Some (exec st db);
  exec_ids st (db db' : DB) : exec st db = Some db' → ids db' = ids db;
  exec_pinned st (db db' : DB) c : exec st db = Some db' → c ∈ pinned db' →
    c ∈ pinned db ∨ (st = CountRows true ∧ c = OwnerColumn);
  exec_names st (db db' : DB) : exec st db = Some db' →
    names db' = match st with
                | AddColumn c _ _ _ => names db ++ [c]
                | RenameColumn a b => map (renamed a b) (names db)
                | DropColumn a => List.filter (λ n, negb (String.eqb n a)) (names db)
                | UpdateAll _ _ | CountRows _ => names db
                end;
  exec_add c ty nn d (db db' : DB) id n : exec (AddColumn c ty nn d) db = Some db' → id ∈ ids db →
    cell db' id n = (if String.eqb n c then store_as ty d else cell db id n);
  exec_decl c ty nn d (db db' : DB) : exec (AddColumn c ty nn d) db = Some db' → decl db' c = ty;
  exec_update c v (db db' : DB) id n : exec (UpdateAll c v) db = Some db' → id ∈ ids db →
    cell db' id n = (if String.eqb n c then store_as (decl db c) v else cell db id n);
  exec_rename a b (db db' : DB) id n : exec (RenameColumn a b) db = Some db' → id ∈ ids db →
    n = b ∨ n ≠ a → cell db' id n = (if String.eqb n b then cell db id a else cell db id n);
  exec_drop a (db db' : DB) id n : exec (DropColumn a) db = Some db' → id ∈ ids db →
    n ≠ a → cell db' id n = cell db id n;
  exec_count o (db db' : DB) id n : exec (CountRows o) db = Some db' → id ∈ ids db →
    cell db' id n = cell db id n;
  store_null ty : store_as ty VNull = VNull;
  store_text v : text_cell v = true → store_as "TEXT" v = v;
  store_blob v : store_as "BLOB" v = v;
  store_integer n : store_as "INTEGER" (VInt n) = VInt n;
  store_numeric v : is_number v = true → is_number (store_as "NUMERIC" v) = true }.

(** The statements of a transaction, in their order; [None] where one is
    refused. *)
Fixpoint run_steps {DB} `{Engine DB} (steps : list statement) (db : DB) : option DB :=
  match steps with
  | [] => Some db
  | st :: steps => match exec st db with Some db' => run_steps steps db' | None => None end
  end.

Lemma run_steps_app {DB} `{Engine DB} s1 s2 (db : DB) :
  run_steps (s1 ++ s2) db = run_steps s1 db ≫= run_steps s2.
Proof. revert db. induction s1 as [|st s1 IH]; intros db; [done|]. cbn. by destruct (exec st db). Qed.

(** ** A concrete engine *)

Module Sheet.
Record sheet := MkSheet {
  sh_columns : list (string * string); sh_rows : list (Z * gmap string sqlval); sh_pinned : list string }.

Definition sheet_names (s : sheet) : list string := map fst (sh_columns s).
Definition row_of (s : sheet) (id : Z) : gmap string sqlval :=
  default ∅ (snd <$> find (λ r, r.1 =? id) (sh_rows s)).
Definition sheet_cell (s : sheet) (id : Z) (c : string) : sqlval := default VNull (row_of s id !! c).
Definition sheet_decl (s : sheet) (c : string) : string := default "" (assoc c (sh_columns s)).
(** A column of numbers keeps numbers as they are; no other change is made. *)
Definition sheet_store (ty : string) (v : sqlval) : sqlval := v.
Definition each_row (f : gmap string sqlval → gmap string sqlval) (s : sheet) : list (Z * gmap string sqlval) :=
  map (λ r, (r.1, f r.2)) (sh_rows s).

Definition move (a b : string) (row : gmap string sqlval) : gmap string sqlval :=
  <[b := default VNull (row !! a)]> (delete a row).

Definition no_rows (s : sheet) : bool := match sh_rows s with [] => true | _ => false end.
Definition sheet_exec (st : statement) (s : sheet) : option sheet :=
  match st with
  | AddColumn c ty nn d =>
      if mem c (sheet_names s) || (nn && is_null d && negb (no_rows s)) then None
      else Some (MkSheet (sh_columns s ++ [(c, ty)]) (each_row (<[c := d]>) s) (sh_pinned s))
  | UpdateAll c v =>
      if mem c (sheet_names s) then Some (MkSheet (sh_columns s) (each_row (<[c := v]>) s) (sh_pinned s)) else None
  | RenameColumn a b =>
      if mem a (sheet_names s) && negb (mem a (sh_pinned s)) && (String.eqb b a || negb (mem b (sheet_names s)))
      then Some (MkSheet (map (λ x, (renamed a b x.1, x.2)) (sh_columns s)) (each_row (move a b) s) (sh_pinned s))
      else None
  | DropColumn a =>
      if mem a (sheet_names s) && negb (mem a (sh_pinned s))
      then Some (MkSheet (List.filter (λ x, negb (String.eqb x.1 a)) (sh_columns s)) (each_row (delete a) s) (sh_pinned s))
      else None
  | CountRows o => Some (MkSheet (sh_columns s) (sh_rows s) (if o then OwnerColumn :: sh_pinned s else sh_pinned s))
  end.

#[export] Instance sheet_engine : Engine sheet := {|
  names := sheet_names; decl := sheet_decl; ids s := map fst (sh_rows s); cell := sheet_cell; pinned := sh_pinned;
  store_as := sheet_store; exec := sheet_exec |}.

Lemma row_of_each f s cols pins id : id ∈ map fst (sh_rows s) →
  row_of (MkSheet cols (each_row f s) pins) id = f (row_of s id).
Proof.
  unfold row_of, each_row. cbn [sh_rows]. generalize (sh_rows s) as rows. induction rows as [|[i r] rows IH]; cbn [map find fst snd].
  - intros []%not_elem_of_nil.
  - intros [Heq|Hin]%elem_of_cons.
    + cbn in Heq. subst i. by rewrite Z.eqb_refl.
    + destruct (i =? id); [done | by apply IH].
Qed.
Lemma cell_each f s cols pins id n : id ∈ map fst (sh_rows s) →
  sheet_cell (MkSheet cols (each_row f s) pins) id n = default VNull (f (row_of s id) !! n).
Proof. intros Hid. unfold sheet_cell. by rewrite row_of_each. Qed.
Lemma ids_each f s : map fst (each_row f s) = map fst (sh_rows s).
Proof. unfold each_row. rewrite map_map. by apply map_ext. Qed.
Lemma sheet_names_rename a b s : map fst (map (λ x : string * string, (renamed a b x.1, x.2)) (sh_columns s)) = map (renamed a b) (sheet_names s).
Proof. unfold sheet_names. by rewrite !map_map. Qed.
Lemma sheet_names_drop a (l : list (string * string)) :
  map fst (List.filter (λ x, negb (String.eqb x.1 a)) l) = List.filter (λ n, negb (String.eqb n a)) (map fst l).
Proof. induction l as [|[c ty] l IH]; [done|]. cbn. destruct (String.eqb c a); cbn; by rewrite ?IH. Qed.
Lemma assoc_last c ty (l : list (string * string)) : c ∉ map fst l → assoc c (l ++ [(c, ty)]) = Some ty.
Proof.
  induction l as [|[k v] l IH]; cbn; intros Hc; [by rewrite String.eqb_refl|].
  apply not_elem_of_cons in Hc as [Hne Hc]. destruct (String.eqb_spec c k) as [->|_]; [done | by apply IH].
Qed.


Lemma sheet_runs st s : ready s st → is_Some (sheet_exec st s).
Proof.
  destruct st as [c ty nn d|c v|a b|a|o]; cbn.
  - intros [Hc%mem_false Hn]. rewrite Hc. cbn. unfold no_rows.
    destruct nn, (is_null d), (sh_rows s) eqn:E; cbn; eauto. by specialize (Hn eq_refl eq_refl).
  - intros [Hc%mem_spec _]. rewrite Hc. eauto.
  - intros (Ha%mem_spec & Hp%mem_false & Hb). rewrite Ha, Hp. cbn.
    destruct Hb as [->|Hb%mem_false]; [rewrite String.eqb_refl; cbn; eauto|]. rewrite Hb, orb_true_r. eauto.
  - intros [Ha%mem_spec Hp%mem_false]. rewrite Ha, Hp. cbn. eauto.
  - eauto.
Qed.

Ltac sheet_done :=
  cbn -[no_rows] in *; repeat match goal with H : (if ?b then _ else _) = Some _ |- _ => destruct b eqn:? end;
  simplify_eq; cbn -[no_rows] in *.

#[export] Instance sheet_laws : EngineLaws sheet.
Proof.
  split.
  - intros st s _ H. by apply sheet_runs.
  - intros st s s' H. cbn in *. destruct st; sheet_done; by rewrite ?ids_each.
  - intros st s s' c H. cbn in *. destruct st as [| | | |[]]; sheet_done; try tauto. intros [->|?]%elem_of_cons; tauto.
  - intros st s s' H. cbn in *. destruct st; sheet_done; [|done|by apply sheet_names_rename|apply sheet_names_drop|done].
    unfold sheet_names. cbn. by rewrite map_app.
  - intros c ty nn d s s' id n H Hid. cbn in *. sheet_done. rewrite cell_each by done.
    destruct (String.eqb_spec n c) as [->|Hne]; [by rewrite lookup_insert_eq | by rewrite lookup_insert_ne].
  - intros c ty nn d s s' H. cbn in *. sheet_done. unfold sheet_decl. cbn. rewrite assoc_last; [done|].
    match goal with H : _ || _ = false |- _ => apply orb_false_iff in H as [H _]; by apply mem_false in H end.
  - intros c v s s' id n H Hid. cbn in *. sheet_done. rewrite cell_each by done.
    destruct (String.eqb_spec n c) as [->|Hne]; [by rewrite lookup_insert_eq | by rewrite lookup_insert_ne].
  - intros a b s s' id n H Hid Hn. cbn in *. sheet_done. rewrite cell_each by done. unfold move.
    destruct (String.eqb_spec n b) as [->|Hne]; [by rewrite lookup_insert_eq |].
    rewrite lookup_insert_ne by done. destruct Hn as [|Hn]; [done|]. by rewrite lookup_delete_ne.
  - intros a s s' id n H Hid Hn. cbn in *. sheet_done. rewrite cell_each by done. by rewrite lookup_delete_ne.
  - intros o s s' id n H Hid. cbn in *. by sheet_done.
  - done.
  - done.
  - done.
  - done.
  - done.
Qed.
End Sheet.
