(* ===== verification/Migrate.v ===== *)
(** * Planning a migration ([internal/store/migrate.go],
    [constraint_metadata.go], [shape.go], [file_constraints.go])

    A migration is a list of changes to the declaration of a table.  The
    planner applies them one by one to a copy of the declaration, checks the
    stored rows where a change could make them wrong, and collects the
    statements that will change the table itself.  It only reads: the rows are
    those of the table before the first statement, so it also keeps, for each
    field, the column its values are in now. *)
From Stdlib Require Import ZArith QArith Qcanon Lia Ascii String.
From stdpp Require Import base gmap strings list sorting.
From S2P Require Import Prelude GoStrings AuthIdentity FilterLexer FilterParser SchemaIdent Schema SchemaConstraints Authz.
From S2P Require Import GoNumbers Timestamps ConstraintValues ConstraintPlans TableEngine.
Local Open Scope Z_scope.

Definition MaxFieldsPerTable : Z := 100.

(** ** What a plan says, and why there is none *)

(** The texts of the operations, one constructor for each form. *)
Inductive operation :=
| Added (f : Field) (dflt : json) | Renamed (from to : string) | Dropped (n : string)
| FulltextSet (n : string) (v : bool) | VectorizeSet (n : string) (v : bool)
| EnumSet (n : string) (vals : list string) | ShapeSet (n shape : string)
| FileConstraintsSet (n : string) (maxBytes : Z) (mediaTypes : option (list string))
| RowAccessSet (v already : bool)
| ConstraintAdded (n kind : string) | ConstraintDropped (n : string) | ReferencesSet (v : bool).
Inductive destruction := BreaksName (from to : string) | LosesColumn (n : string).

Inductive migrate_error :=
| DBError | NoChanges
| DefaultOnAdd (i : nat) (op : string) | ValueNeeded (i : nat) (op : string) | ValueOnly (i : nat) (op : string)
| ConstraintOnAdd (i : nat) (op : string) | OwnerReserved
| EnumNeeded (i : nat) | EnumOnly (i : nat) (op : string)
| ShapeNeeded (i : nat) | ShapeOnly (i : nat) (op : string)
| FileArgsNeeded (i : nat) | FileArgsOnly (i : nat) (op : string)
| UnknownOp (op : string)
| MixedChanges (constraintOp fieldOp : string) | ConstraintAlone (constraintOp : string)
| FieldNeeded | DefaultInField (i : nat) | SecretRefusal (n option : string) | FileRefusal (n option : string)
| NameInvalid (e : ident_error) | FieldExists (n : string) | FieldNotFound (n : string) | TooManyFields (n : Z)
| DefaultInvalid (n : string) | DefaultInfinite (n : string) | DefaultNUL (n : string) | DefaultKind
| RequiredWithoutDefault (n : string) (rows : option Z)
| FieldConstrained (op field constraint : string) | FieldInRelation (op field : string)
| FulltextOnText (n : string) | VectorizeOnText (n : string) | VectorizeOnce (already : string)
| EnumOnString (n : string) | FieldInvalid (e : field_error)
| EnumInUse (n : string) (used : option (list (string * Z)))
| EnumDeclaredDefault (n s : string) | EnumBackfill (n s : string)
| ShapeOnJSON (n : string) | ShapeDeclaredDefault (n : string) | ShapeBackfill (n : string)
| ShapeInUse (n shape : string) (rows : option (Z * list Z))
| FileOnFile (n : string) | FileInUse (n : string) (rows : option (Z * list Z))
| DeclarationInvalid (e : constraint_error) | NoConstraint (n : string) | ConstraintInRelation (n field : string)
| StillReferenced (table : string) | RowAccessConstrained | RowAccessValue | OwnerCollision | RowAccessRows (rows : option Z)
| NeedsExpectedVersion (ds : list destruction) | NoEmbedder | NoEmbedderIdentity
| CatalogBroken | CatalogRefused (e : check_error)
| BadExpectedVersion (v : Z) | VersionConflict (expected current : Z) | TableReplaced.

(** ** Guards that read only the change *)

Definition refuse {E} (b : bool) (e : E) : outcome E () := if b then Fail e else Done ().

Definition ShapeChangeArgs (i : nat) (ch : Change) : outcome migrate_error () :=
  let! _ := refuse (String.eqb (ch_Op ch) OpSetShape && bool_decide (ch_Shape ch = None)) (ShapeNeeded i) in
  refuse (negb (String.eqb (ch_Op ch) OpSetShape) && bool_decide (ch_Shape ch ≠ None)) (ShapeOnly i (ch_Op ch)).

Definition FileConstraintArgs (i : nat) (ch : Change) : outcome migrate_error () :=
  let given := bool_decide (ch_MaxBytes ch ≠ None) || bool_decide (ch_MediaTypes ch ≠ None) in
  let! _ := refuse (String.eqb (ch_Op ch) OpSetFileConstraints && negb given) (FileArgsNeeded i) in
  refuse (negb (String.eqb (ch_Op ch) OpSetFileConstraints) && given) (FileArgsOnly i (ch_Op ch)).

(** The two variables of the loop of [RefuseMixedConstraintChanges]. *)
Definition constraint_ops : list string := [OpAddConstraint; OpDropConstraint; OpSetAcceptReferences].
Definition field_ops : list string := [OpAddField; OpRenameField; OpDropField; OpSetRowAccess].
Definition last_op (ops : list string) (changes : list Change) : string :=
  foldl (λ acc ch, if mem (ch_Op ch) ops then ch_Op ch else acc) "" changes.
Definition RefuseMixedConstraintChanges (changes : list Change) : outcome migrate_error () :=
  let constraintOp := last_op constraint_ops changes in
  let fieldOp := last_op field_ops changes in
  let! _ := refuse (negb (String.eqb constraintOp "") && negb (String.eqb fieldOp "")) (MixedChanges constraintOp fieldOp) in
  refuse (negb (String.eqb constraintOp "") && negb (length changes =? 1)%nat) (ConstraintAlone constraintOp).

Definition RefuseReferencedDrop (table : string) (referencing : list string) : outcome migrate_error () :=
  match referencing with [] => Done () | by_ :: _ => Fail (StillReferenced by_) end.
Definition RefuseConstrainedRowAccess (sc : TableSchema) (referencing : list string) : outcome migrate_error () :=
  match t_Constraints sc, referencing with [], [] => Done () | _, _ => Fail RowAccessConstrained end.

Definition ValidateOwnerCollision (fields : list Field) : outcome migrate_error () :=
  if existsb (λ f, ReservedWithOwner (f_Name f)) fields then Fail OwnerCollision else Done ().

Definition checkExpectedVersion (expected : Z) (old : TableSchema) : outcome migrate_error () :=
  if expected <? 0 then Fail (BadExpectedVersion expected)
  else if (0 <? expected) && negb (expected =? t_Version old) then Fail (VersionConflict expected (t_Version old))
  else Done ().

(** [FindJSONNUL] on the text [json.Marshal] writes: a name or a text with a
    NUL character. *)
Fixpoint json_nul (v : json) : bool :=
  match v with
  | JString s => has_nul s
  | JArray items => existsb json_nul items
  | JObject members => existsb (λ m : string * json, has_nul m.1 || json_nul m.2) members
  | _ => false
  end.

(** ** Fields with one attribute changed *)

Definition with_Name (n : string) (f : Field) : Field :=
  MkField n (f_Type f) (f_Fulltext f) (f_Vectorize f) (f_Dim f) (f_Required f) (f_Enum f) (f_Shape f) (f_Default f)
    (f_MaxBytes f) (f_MediaTypes f).
Definition with_Fulltext (b : bool) (f : Field) : Field :=
  MkField (f_Name f) (f_Type f) b (f_Vectorize f) (f_Dim f) (f_Required f) (f_Enum f) (f_Shape f) (f_Default f)
    (f_MaxBytes f) (f_MediaTypes f).
Definition with_Vectorize (b : bool) (f : Field) : Field :=
  MkField (f_Name f) (f_Type f) (f_Fulltext f) b (f_Dim f) (f_Required f) (f_Enum f) (f_Shape f) (f_Default f)
    (f_MaxBytes f) (f_MediaTypes f).
Definition with_Enum (e : option (list string)) (f : Field) : Field :=
  MkField (f_Name f) (f_Type f) (f_Fulltext f) (f_Vectorize f) (f_Dim f) (f_Required f) e (f_Shape f) (f_Default f)
    (f_MaxBytes f) (f_MediaTypes f).
Definition with_Shape (s : string) (f : Field) : Field :=
  MkField (f_Name f) (f_Type f) (f_Fulltext f) (f_Vectorize f) (f_Dim f) (f_Required f) (f_Enum f) s (f_Default f)
    (f_MaxBytes f) (f_MediaTypes f).
Definition with_Files (max : Z) (types : option (list string)) (f : Field) : Field :=
  MkField (f_Name f) (f_Type f) (f_Fulltext f) (f_Vectorize f) (f_Dim f) (f_Required f) (f_Enum f) (f_Shape f)
    (f_Default f) max types.

Definition with_fields (fs : list Field) (t : TableSchema) : TableSchema :=
  MkTable (t_Namespace t) (t_Name t) (t_Version t) fs (t_EmbedSpace t) (t_EmbedDim t) (t_RowAccess t) (t_HasOwner t)
    (t_Constraints t) (t_AcceptReferences t) (t_Relation t).
Definition with_version (v : Z) (t : TableSchema) : TableSchema :=
  MkTable (t_Namespace t) (t_Name t) v (t_Fields t) (t_EmbedSpace t) (t_EmbedDim t) (t_RowAccess t) (t_HasOwner t)
    (t_Constraints t) (t_AcceptReferences t) (t_Relation t).
Definition with_embedding (space : string) (dim : Z) (t : TableSchema) : TableSchema :=
  MkTable (t_Namespace t) (t_Name t) (t_Version t) (t_Fields t) space dim (t_RowAccess t) (t_HasOwner t)
    (t_Constraints t) (t_AcceptReferences t) (t_Relation t).
Definition with_row_access (a : string) (owner : bool) (t : TableSchema) : TableSchema :=
  MkTable (t_Namespace t) (t_Name t) (t_Version t) (t_Fields t) (t_EmbedSpace t) (t_EmbedDim t) a owner
    (t_Constraints t) (t_AcceptReferences t) (t_Relation t).
Definition with_constraints (cs : list Constraint) (t : TableSchema) : TableSchema :=
  MkTable (t_Namespace t) (t_Name t) (t_Version t) (t_Fields t) (t_EmbedSpace t) (t_EmbedDim t) (t_RowAccess t)
    (t_HasOwner t) cs (t_AcceptReferences t) (t_Relation t).
Definition with_accept (b : bool) (t : TableSchema) : TableSchema :=
  MkTable (t_Namespace t) (t_Name t) (t_Version t) (t_Fields t) (t_EmbedSpace t) (t_EmbedDim t) (t_RowAccess t)
    (t_HasOwner t) (t_Constraints t) b (t_Relation t).

(** ** The variables of [planMigration]

    [w_phys] and [w_defaults] are the maps [physicalName] and [defaults]: the
    column that holds a field's values before the migration, empty for a field
    the migration adds, and the value an added field is filled with, [VNull]
    being nil.  [w_calls] numbers the queries. *)
Record work := MkWork {
  w_cur : TableSchema; w_phys : gmap string string; w_defaults : gmap string sqlval;
  w_ops : list operation; w_destr : list destruction; w_backfill : Z; w_steps : list statement;
  w_fts : bool; w_vec : bool; w_calls : nat }.

Definition set_cur (t : TableSchema) (w : work) : work :=
  MkWork t (w_phys w) (w_defaults w) (w_ops w) (w_destr w) (w_backfill w) (w_steps w) (w_fts w) (w_vec w) (w_calls w).
Definition set_fields (fs : list Field) (w : work) : work := set_cur (with_fields fs (w_cur w)) w.
Definition set_maps (p : gmap string string) (d : gmap string sqlval) (w : work) : work :=
  MkWork (w_cur w) p d (w_ops w) (w_destr w) (w_backfill w) (w_steps w) (w_fts w) (w_vec w) (w_calls w).
Definition say (o : operation) (w : work) : work :=
  MkWork (w_cur w) (w_phys w) (w_defaults w) (w_ops w ++ [o]) (w_destr w) (w_backfill w) (w_steps w) (w_fts w) (w_vec w) (w_calls w).
Definition warn (d : destruction) (w : work) : work :=
  MkWork (w_cur w) (w_phys w) (w_defaults w) (w_ops w) (w_destr w ++ [d]) (w_backfill w) (w_steps w) (w_fts w) (w_vec w) (w_calls w).
Definition add_backfill (n : Z) (w : work) : work :=
  MkWork (w_cur w) (w_phys w) (w_defaults w) (w_ops w) (w_destr w) (w_backfill w + n) (w_steps w) (w_fts w) (w_vec w) (w_calls w).
Definition add_steps (l : list statement) (w : work) : work :=
  MkWork (w_cur w) (w_phys w) (w_defaults w) (w_ops w) (w_destr w) (w_backfill w) (w_steps w ++ l) (w_fts w) (w_vec w) (w_calls w).
Definition mark (fts vec : bool) (w : work) : work :=
  MkWork (w_cur w) (w_phys w) (w_defaults w) (w_ops w) (w_destr w) (w_backfill w) (w_steps w) (w_fts w || fts) (w_vec w || vec) (w_calls w).
Definition tick (w : work) : work :=
  MkWork (w_cur w) (w_phys w) (w_defaults w) (w_ops w) (w_destr w) (w_backfill w) (w_steps w) (w_fts w) (w_vec w) (S (w_calls w)).

Definition planner (A : Type) : Type := act work migrate_error A.
Definition look {A} (f : work → A) : planner A := λ w, (Done (f w), w).
Definition change (f : work → work) : planner () := λ w, (Done (), f w).
Definition check {A} (o : outcome migrate_error A) : planner A := λ w, (o, w).
Definition when_ (b : bool) (m : planner ()) : planner () := if b then m else aret ().

Definition ident_check (o : outcome ident_error ()) : outcome migrate_error () := lift_error NameInvalid o.
Definition field_check (o : outcome field_error ()) : outcome migrate_error () := lift_error FieldInvalid o.

(** [physicalName[n]] and [defaults[n]]; a missing key is the zero value. *)
Definition phys_of (w : work) (n : string) : string := default "" (w_phys w !! n).
Definition default_of (w : work) (n : string) : sqlval := default VNull (w_defaults w !! n).

Definition findField (name : string) : planner (nat * Field) := λ w,
  match list_find (λ f, f_Name f = name) (t_Fields (w_cur w)) with
  | Some x => (Done x, w)
  | None => (Fail (FieldNotFound name), w)
  end.
(** What is written through the pointer [findField] answers. *)
Definition set_field (i : nat) (f : Field) (w : work) : work := set_fields (<[i := f]> (t_Fields (w_cur w))) w.

(** ** Values a change gives, as they will be stored *)

Definition json_goval (v : json) : goval :=
  match v with
  | JNull => GNil | JBool b => GBool b | JNumber text => GNumber text | JString s => GString s
  | JArray _ | JObject _ => GComposite
  end.
Definition goval_sql (v : goval) : sqlval :=
  match v with GInt64 n => VInt n | GFloat x => VFloat x | GString s => VText s | _ => VNull end.

(** An entry of a vector, and [math.Abs(x) > math.MaxFloat32]. *)
Definition vector_entry (v : json) : option float64 := match v with JNumber text => ParseFloat text | _ => None end.
Definition max_float32 : Z := (2 ^ 24 - 1) * 2 ^ 104.
Definition in_float32 (x : float64) : bool :=
  match x with
  | Finite m e => if e <? 0 then Z.abs m <=? max_float32 * 2 ^ (- e) else Z.abs m * 2 ^ e <=? max_float32
  | _ => false
  end.

Section Values.
Context {UT : UnicodeTables}.

(** [coerceValue], that is [value.Coerce], on a decoded JSON value. *)
Definition coerceValue (f : Field) (v : json) : outcome migrate_error sqlval :=
  if is_nil v then Done VNull
  else if is_type f Vector then
    match v with
    | JArray items =>
        match mapM vector_entry items with
        | Some l => if (Z.of_nat (length l) =? f_Dim f) && forallb in_float32 l then Done (VVector l)
                    else Fail (DefaultInvalid (f_Name f))
        | None => Fail (DefaultInvalid (f_Name f))
        end
    | _ => Fail (DefaultInvalid (f_Name f))
    end
  else if is_type f JSON then
    if json_nul v || bool_decide (is_Some (ShapeViolation (f_Shape f) v)) then Fail (DefaultInvalid (f_Name f))
    else Done (VJson v)
  else match Coerce f (json_goval v) with
       | Done g => Done (goval_sql g)
       | Fail _ => Fail (DefaultInvalid (f_Name f))
       | OutOfFuel => OutOfFuel
       end.

(** [sqlLiteral]; the literal is kept as the value it stands for. *)
Definition sqlLiteral (v : sqlval) : outcome migrate_error sqlval :=
  if is_null v then Fail DefaultKind else Done v.

(** The value an added field is filled with, and the literal of its DEFAULT. *)
Definition backfill_default (f : Field) (d : json) : outcome migrate_error (sqlval * sqlval) :=
  if is_nil d then Done (VNull, VNull)
  else
    let! cv := coerceValue f d in
    let! _ := refuse (match cv with VFloat x => negb (is_finite x) | _ => false end) (DefaultInfinite (f_Name f)) in
    let! _ := refuse (match cv with VText s => has_nul s | _ => false end) (DefaultNUL (f_Name f)) in
    if f_Required f then let! lit := sqlLiteral cv in Done (cv, lit) else Done (cv, VNull).
End Values.

(** [storedString] on a declared default, a decoded JSON value. *)
Definition stored_string (v : json) : option string :=
  match v with JString s | JNumber s => Some s | _ => None end.

(** What a query reads into a Go string; a column of a field of type string
    holds texts. *)
Definition scan_text (v : sqlval) : option string := match v with VText s => Some s | _ => None end.

(** [ShapeFits] on what a JSON column holds. *)
Definition ShapeFits (shape : string) (v : sqlval) : bool :=
  match v with VJson j => bool_decide (ShapeViolation shape j = None) | _ => false end.

Definition ShapeTarget (f : Field) (shape : string) : outcome migrate_error () :=
  if negb (is_type f JSON) then Fail (ShapeOnJSON (f_Name f))
  else if String.eqb shape "" then Done () else field_check (ValidateShape (f_Name f) shape).

Definition ShapeDefaults (f : Field) (shape : string) (backfill : sqlval) : outcome migrate_error () :=
  if String.eqb shape "" then Done ()
  else
    let! _ := refuse (negb (is_nil (f_Default f)) && bool_decide (is_Some (ShapeViolation shape (f_Default f))))
                (ShapeDeclaredDefault (f_Name f)) in
    refuse (match backfill with VJson j => bool_decide (is_Some (ShapeViolation shape j)) | VText _ => true | _ => false end)
      (ShapeBackfill (f_Name f)).

(** [json_extract(c, '$.size')] read into an int64, and
    [json_extract(c, '$.media_type')] read into a nullable text. *)
Definition file_size (v : sqlval) : option Z :=
  match v with
  | VJson (JObject ms) => match assoc "size" ms with Some (JNumber text) => ParseInt text | _ => None end
  | _ => None
  end.
Definition file_media (v : sqlval) : string :=
  match v with
  | VJson (JObject ms) => match assoc "media_type" ms with Some (JString s) => s | _ => "" end
  | _ => ""
  end.
Definition breaks_files (next : Field) (size : Z) (media : string) : bool :=
  ((0 <? f_MaxBytes next) && (f_MaxBytes next <? size))
  || negb (MediaTypeAllowed (default [] (f_MediaTypes next)) media).

Definition FileConstraintField (f : Field) (ch : Change) : outcome migrate_error Field :=
  if negb (is_type f File) then Fail (FileOnFile (f_Name f))
  else
    let maxBytes := default (f_MaxBytes f) (ch_MaxBytes ch) in
    let mediaTypes := match ch_MediaTypes ch with
                      | Some [] => None
                      | Some ms => Some ms
                      | None => f_MediaTypes f
                      end in
    let! _ := field_check (ValidateFileConstraints (f_Name f) maxBytes mediaTypes) in
    Done (with_Files maxBytes mediaTypes f).

(** How often each text occurs, in the order of its first row. *)
Fixpoint count_in (s : string) (l : list string) : Z :=
  match l with [] => 0 | x :: l => (if String.eqb x s then 1 else 0) + count_in s l end.
Fixpoint usages (seen : list string) (all l : list string) : list (string * Z) :=
  match l with
  | [] => []
  | s :: l => if mem s seen then usages seen all l else (s, count_in s all) :: usages (s :: seen) all l
  end.

(** ** The planner *)

Section Plan.
Context {DB : Type} {E : Engine DB} {UT : UnicodeTables}.
(** [faults n]: the query numbered [n] fails.  [polls n] and [naming n]: what
    the context answers while the change [n] is planned, and [final] at the
    check of the constraints.  [tables]: the registry of the namespace with
    the rows of its tables, [db] the table itself. *)
Context (faults : nat → bool) (polls : nat → polls) (naming : nat → nat → ctx) (final : oracle).
Context (tables : catalog) (db : DB) (embeds : bool) (identity : string) (scope : option RowScope).

Definition scoped : bool := bool_decide (scope ≠ None).

(** One query, whose answer [a] is read from [db]. *)
Definition query {A} (a : A) : planner A := λ w,
  if faults (w_calls w) then (Fail DBError, tick w) else (Done a, tick w).

(** The rows a caller sees, [scopeClause]. *)
Definition visible (id : Z) : bool :=
  match scope with
  | None => true
  | Some sc => negb (rs_Empty sc) && match cell db id OwnerColumn with VText o => String.eqb o (rs_Owner sc) | _ => false end
  end.
Definition count_where (p : Z → bool) : Z := Z.of_nat (length (List.filter p (ids db))).
Definition countRows : planner Z := query (count_where (λ _, true)).
Definition visibleCount : planner Z := query (count_where visible).

(** The rows whose column [c] is not null. *)
Definition filled (c : string) : list Z := List.filter (λ id, negb (is_null (cell db id c))) (ids db).

(** [sqliteReferencing] *)
Definition sqliteReferencing (table : string) : planner (list string) :=
  do! schemas := query (map (λ x : string * CTable, tb_Schema x.2) (map_to_list tables)) in
  if existsb (λ sc, bool_decide (sc = None)) schemas then afail CatalogBroken
  else aret (ReferencingTables schemas table).

Definition RefuseConstrainedField (n : nat) (op field : string) : planner () := λ w,
  let sc := w_cur w in
  let name := ConstraintNamingField (naming n) (t_Fields sc) (t_Constraints sc) field in
  if negb (String.eqb name "") then (Fail (FieldConstrained op field name), w)
  else match t_Relation sc with
       | Some r => if String.eqb field (r_Source r) || String.eqb field (r_Target r) || String.eqb field (r_Type r)
                   then (Fail (FieldInRelation op field), w) else (Done (), w)
       | None => (Done (), w)
       end.

(** *** The conditions at the head of the loop *)
Definition owner_target (ch : Change) : bool :=
  existsb (λ t, ReservedWithOwner (to_lower (trim_space t)))
    ([ch_Name ch; ch_To ch] ++ match ch_Field ch with Some f => [f_Name f] | None => [] end).
Definition change_args (i : nat) (ch : Change) (owner : bool) : outcome migrate_error () :=
  let op := ch_Op ch in
  let! _ := refuse (negb (String.eqb op OpAddField) && negb (is_nil (ch_Default ch))) (DefaultOnAdd i op) in
  let! _ := refuse (TakesValue op && bool_decide (ch_Value ch = None)) (ValueNeeded i op) in
  let! _ := refuse (negb (TakesValue op) && bool_decide (ch_Value ch ≠ None)) (ValueOnly i op) in
  let! _ := refuse (xorb (String.eqb op OpAddConstraint) (bool_decide (ch_Constraint ch ≠ None))) (ConstraintOnAdd i op) in
  let! _ := refuse (owner && owner_target ch) OwnerReserved in
  let! _ := refuse (String.eqb op OpSetEnum && bool_decide (ch_Enum ch = None)) (EnumNeeded i) in
  let! _ := refuse (negb (String.eqb op OpSetEnum) && bool_decide (ch_Enum ch ≠ None)) (EnumOnly i op) in
  let! _ := ShapeChangeArgs i ch in
  FileConstraintArgs i ch.

(** *** add_field *)

Definition normalized (raw : Field) : Field := default raw (head (Normalize [raw])).

(** The rows an added field needs, and those it fills. *)
Definition add_rows (f : Field) (given : bool) : planner () :=
  when_ (f_Required f || given)
    (do! rowCount := countRows in
     do! _ := check (refuse (f_Required f && negb given && (0 <? rowCount))
                       (RequiredWithoutDefault (f_Name f) (if scoped then None else Some rowCount))) in
     when_ given (do! n := visibleCount in change (add_backfill n))).
Definition add_statements (f : Field) (given : bool) (defVal defSQL : sqlval) : list statement :=
  AddColumn (f_Name f) (SQLType f) (f_Required f) defSQL
  :: (if given && negb (f_Required f) then [UpdateAll (f_Name f) defVal] else []).
Definition add_work (f : Field) (d : json) (defVal defSQL : sqlval) (w : work) : work :=
  let w := set_fields (t_Fields (w_cur w) ++ [f]) w in
  let w := set_maps (<[f_Name f := ""]> (w_phys w)) (<[f_Name f := defVal]> (w_defaults w)) w in
  add_steps (add_statements f (negb (is_nil d)) defVal defSQL) (say (Added f d) (mark (f_Fulltext f) (f_Vectorize f) w)).
Definition add_field (i : nat) (ch : Change) : planner () :=
  match ch_Field ch with
  | None => afail FieldNeeded
  | Some raw =>
      do! _ := check (refuse (negb (is_nil (f_Default raw))) (DefaultInField i)) in
      let f := normalized raw in
      let n := f_Name f in
      let given := negb (is_nil (ch_Default ch)) in
      do! _ := check (refuse (is_type f Secret && given) (SecretRefusal n "default")) in
      do! _ := check (refuse (is_type f File && given) (FileRefusal n "default")) in
      do! _ := check (ident_check (ValidateIdent n "field name")) in
      do! fields := look (λ w, t_Fields (w_cur w)) in
      do! _ := check (refuse (existsb (λ ef, String.eqb (f_Name ef) n) fields) (FieldExists n)) in
      do! _ := check (refuse (MaxFieldsPerTable <=? Z.of_nat (length fields)) (TooManyFields (Z.of_nat (length fields) + 1))) in
      do! (defVal, defSQL) := check (backfill_default f (ch_Default ch)) in
      do! _ := add_rows f given in
      change (add_work f (ch_Default ch) defVal defSQL)
  end.

(** *** rename_field *)
Definition rename_maps (from to : string) (w : work) : work :=
  set_maps (delete from (<[to := phys_of w from]> (w_phys w)))
    (match w_defaults w !! from with
     | Some d => delete from (<[to := d]> (w_defaults w))
     | None => w_defaults w
     end) w.
Definition rename_work (i : nat) (f : Field) (from to : string) (w : work) : work :=
  let w := set_field i (with_Name to f) w in
  let w := if String.eqb to from then w else rename_maps from to w in
  add_steps [RenameColumn from to] (warn (BreaksName from to) (say (Renamed from to) (mark (f_Fulltext f) false w))).
Definition rename_field (n : nat) (ch : Change) : planner () :=
  do! _ := check (ident_check (ValidateIdent (ch_To ch) "new field name")) in
  do! _ := RefuseConstrainedField n OpRenameField (ch_From ch) in
  do! (i, f) := findField (ch_From ch) in
  do! fields := look (λ w, t_Fields (w_cur w)) in
  do! _ := check (refuse (negb (String.eqb (ch_To ch) (ch_From ch)) && existsb (λ ef, String.eqb (f_Name ef) (ch_To ch)) fields)
                    (FieldExists (ch_To ch))) in
  change (rename_work i f (ch_From ch) (ch_To ch)).

(** *** drop_field *)
Definition drop_work (i : nat) (f : Field) (n : string) (w : work) : work :=
  let fs := t_Fields (w_cur w) in
  let w := set_fields (delete i fs) w in
  let w := set_maps (delete n (w_phys w)) (delete n (w_defaults w)) w in
  add_steps [DropColumn n] (warn (LosesColumn n) (say (Dropped n) (mark (f_Fulltext f) (f_Vectorize f) w))).
Definition drop_field (n : nat) (ch : Change) : planner () :=
  do! (i, f) := findField (ch_Name ch) in
  do! _ := RefuseConstrainedField n OpDropField (ch_Name ch) in
  change (drop_work i f (ch_Name ch)).

(** *** set_fulltext, set_vectorize *)
Definition flag_value (ch : Change) : bool := default false (ch_Value ch).

Definition set_fulltext (ch : Change) : planner () :=
  do! (i, f) := findField (ch_Name ch) in
  let v := flag_value ch in
  do! _ := check (refuse (v && is_type f Secret) (SecretRefusal (f_Name f) "fulltext")) in
  do! _ := check (refuse (v && is_type f File) (FileRefusal (f_Name f) "fulltext")) in
  do! _ := check (refuse (v && negb (textual f)) (FulltextOnText (f_Name f))) in
  change (λ w, say (FulltextSet (ch_Name ch) v) (mark (v || f_Fulltext f) false (set_field i (with_Fulltext v f) w))).

Definition other_vectorized (i : nat) (fields : list Field) : option (nat * Field) :=
  find (λ x, f_Vectorize x.2 && negb (x.1 =? i)%nat) (imap pair fields).
Definition set_vectorize (ch : Change) : planner () :=
  do! (i, f) := findField (ch_Name ch) in
  let v := flag_value ch in
  do! fields := look (λ w, t_Fields (w_cur w)) in
  do! _ := when_ v
    (do! _ := check (refuse (is_type f Secret) (SecretRefusal (f_Name f) "vectorize")) in
     do! _ := check (refuse (is_type f File) (FileRefusal (f_Name f) "vectorize")) in
     do! _ := check (refuse (negb (textual f)) (VectorizeOnText (f_Name f))) in
     match other_vectorized i fields with
     | Some x => afail (VectorizeOnce (f_Name x.2))
     | None => aret ()
     end) in
  change (λ w, say (VectorizeSet (ch_Name ch) v) (mark false (xorb (f_Vectorize f) v) (set_field i (with_Vectorize v f) w))).

(** *** set_enum *)

(** The values in use that the new vocabulary does not allow, and how many
    rows hold each. *)
Definition enum_usage (vals : list string) (texts : list string) : list (string * Z) :=
  List.filter (λ u, negb (EnumAllows vals u.1)) (usages [] texts texts).
Definition enum_rows (f : Field) (vals : list string) (phys : string) : planner () :=
  if String.eqb phys "" then aret ()
  else
    do! cells := query (map (λ id, cell db id phys) (filled phys)) in
    match mapM scan_text cells with
    | None => afail DBError
    | Some texts =>
        match enum_usage vals texts with
        | [] => aret ()
        | used => afail (EnumInUse (f_Name f) (if scoped then None else Some used))
        end
    end.
Definition enum_defaults (f : Field) (vals : list string) (backfill : sqlval) : outcome migrate_error () :=
  let! _ := match stored_string (f_Default f) with
            | Some s => refuse (negb (EnumAllows vals s)) (EnumDeclaredDefault (f_Name f) s)
            | None => Done ()
            end in
  match backfill with
  | VText s => refuse (negb (EnumAllows vals s)) (EnumBackfill (f_Name f) s)
  | _ => Done ()
  end.
Definition set_enum (ch : Change) : planner () :=
  do! (i, f) := findField (ch_Name ch) in
  let vals := default [] (ch_Enum ch) in
  let some := negb (length vals =? 0)%nat in
  do! _ := check (refuse (is_type f Secret && some) (SecretRefusal (f_Name f) "enum")) in
  do! _ := check (refuse (is_type f File && some) (FileRefusal (f_Name f) "enum")) in
  do! _ := check (refuse (negb (is_type f TString)) (EnumOnString (f_Name f))) in
  do! _ := check (if some then field_check (ValidateEnum (f_Name f) vals) else Done ()) in
  do! phys := look (λ w, phys_of w (f_Name f)) in
  do! _ := when_ some (enum_rows f vals phys) in
  do! backfill := look (λ w, default_of w (f_Name f)) in
  do! _ := check (enum_defaults f vals backfill) in
  change (λ w, say (EnumSet (ch_Name ch) vals) (set_field i (with_Enum (if some then Some vals else None) f) w)).

(** *** set_shape *)
Definition shape_rows (f : Field) (shape phys : string) : planner () :=
  if String.eqb phys "" then aret ()
  else
    do! rows := query (map (λ id, (id, cell db id phys)) (filled phys)) in
    let bad := List.filter (λ r, negb (ShapeFits shape r.2)) rows in
    match bad with
    | [] => aret ()
    | _ => afail (ShapeInUse (f_Name f) shape
                    (if scoped then None else Some (Z.of_nat (length bad), firstn 5 (map fst bad))))
    end.
Definition set_shape (ch : Change) : planner () :=
  do! (i, f) := findField (ch_Name ch) in
  let shape := default "" (ch_Shape ch) in
  do! _ := check (ShapeTarget f shape) in
  do! phys := look (λ w, phys_of w (f_Name f)) in
  do! backfill := look (λ w, default_of w (f_Name f)) in
  do! _ := when_ (negb (String.eqb shape ""))
    (do! _ := shape_rows f shape phys in check (ShapeDefaults f shape backfill)) in
  change (λ w, say (ShapeSet (ch_Name ch) shape) (set_field i (with_Shape shape f) w)).

(** *** set_file_constraints *)
Definition file_rows (next : Field) (phys : string) : planner () :=
  if String.eqb phys "" then aret ()
  else
    do! rows := query (map (λ id, (id, cell db id phys)) (filled phys)) in
    match mapM (λ r, (λ size, (r.1, size, file_media r.2)) <$> file_size r.2) rows with
    | None => afail DBError
    | Some files =>
        let bad := List.filter (λ r : Z * Z * string, breaks_files next r.1.2 r.2) files in
        match bad with
        | [] => aret ()
        | _ => afail (FileInUse (f_Name next)
                        (if scoped then None else Some (Z.of_nat (length bad), firstn 5 (map (λ r, r.1.1) bad))))
        end
    end.
Definition set_file_constraints (ch : Change) : planner () :=
  do! (i, f) := findField (ch_Name ch) in
  do! next := check (FileConstraintField f ch) in
  do! phys := look (λ w, phys_of w (f_Name f)) in
  do! _ := file_rows next phys in
  change (λ w, say (FileConstraintsSet (ch_Name ch) (f_MaxBytes next) (f_MediaTypes next)) (set_field i next w)).

(** *** add_constraint, drop_constraint, set_accept_references *)
Definition index_of (p : Constraint → bool) (cs : list Constraint) : option (nat * Constraint) :=
  list_find (λ c, p c = true) cs.
Definition add_constraint (n : nat) (ch : Change) : planner () :=
  do! cur := look w_cur in
  match ch_Constraint ch with
  | None => aret ()
  | Some c =>
      let next := t_Constraints cur ++ [c] in
      do! _ := check (lift_error DeclarationInvalid (ValidateConstraintDeclarations (polls n) (t_Fields cur) next)) in
      change (λ w, say (ConstraintAdded (c_Name c) (c_Kind c)) (set_cur (with_constraints next (w_cur w)) w))
  end.
Definition relation_uses (r : option Relation) (c : Constraint) : bool :=
  match r with
  | Some r => String.eqb (c_Kind c) ConstraintForeignKey
              && (String.eqb (c_Field c) (r_Source r) || String.eqb (c_Field c) (r_Target r))
  | None => false
  end.
Definition drop_constraint (ch : Change) : planner () :=
  do! cur := look w_cur in
  match index_of (λ c, String.eqb (c_Name c) (ch_Name ch)) (t_Constraints cur) with
  | None => afail (NoConstraint (ch_Name ch))
  | Some (i, c) =>
      do! _ := check (refuse (relation_uses (t_Relation cur) c) (ConstraintInRelation (ch_Name ch) (c_Field c))) in
      change (λ w, say (ConstraintDropped (ch_Name ch)) (set_cur (with_constraints (delete i (t_Constraints cur)) (w_cur w)) w))
  end.
Definition set_accept_references (ch : Change) : planner () :=
  let v := flag_value ch in
  do! cur := look w_cur in
  do! _ := when_ (negb v)
    (do! others := sqliteReferencing (t_Name cur) in
     let own := if existsb (references_table (t_Name cur)) (t_Constraints cur) then [t_Name cur] else [] in
     match own ++ others with
     | [] => aret ()
     | t :: _ => afail (StillReferenced t)
     end) in
  change (λ w, say (ReferencesSet v) (set_cur (with_accept v (w_cur w)) w)).

(** *** set_row_access *)
Definition enable_row_access : planner () :=
  do! cur := look w_cur in
  do! _ := check (ValidateOwnerCollision (t_Fields cur)) in
  do! rows := countRows in
  do! _ := check (refuse (0 <? rows) (RowAccessRows (if scoped then None else Some rows))) in
  change (λ w, say (RowAccessSet true false)
    (set_cur (with_row_access RowAccessOwn true (w_cur w))
      (add_steps ((if t_HasOwner cur then [] else [AddColumn OwnerColumn "TEXT" false VNull]) ++ [CountRows true]) w))).
Definition set_row_access (ch : Change) : planner () :=
  match ch_Value ch with
  | None => afail RowAccessValue
  | Some v =>
      do! cur := look w_cur in
      do! referencing := sqliteReferencing (t_Name cur) in
      do! _ := check (RefuseConstrainedRowAccess cur referencing) in
      if v then
        if String.eqb (t_RowAccess cur) RowAccessOwn then change (say (RowAccessSet true true))
        else enable_row_access
      else if String.eqb (t_RowAccess cur) "" then change (say (RowAccessSet false true))
      else change (λ w, say (RowAccessSet false false)
             (set_cur (with_row_access "" (t_HasOwner (w_cur w)) (w_cur w)) w))
  end.

(** *** The loop over the changes *)
Definition apply_change (i : nat) (ch : Change) : planner () :=
  let op := ch_Op ch in
  if String.eqb op OpAddField then add_field i ch
  else if String.eqb op OpRenameField then rename_field i ch
  else if String.eqb op OpDropField then drop_field i ch
  else if String.eqb op OpSetFulltext then set_fulltext ch
  else if String.eqb op OpSetVectorize then set_vectorize ch
  else if String.eqb op OpSetEnum then set_enum ch
  else if String.eqb op OpSetShape then set_shape ch
  else if String.eqb op OpAddConstraint then add_constraint i ch
  else if String.eqb op OpDropConstraint then drop_constraint ch
  else if String.eqb op OpSetAcceptReferences then set_accept_references ch
  else if String.eqb op OpSetRowAccess then set_row_access ch
  else if String.eqb op OpSetFileConstraints then set_file_constraints ch
  else afail (UnknownOp op).
Definition plan_change (i : nat) (ch : Change) : planner () :=
  do! owner := look (λ w, t_HasOwner (w_cur w)) in
  do! _ := check (change_args i ch owner) in
  apply_change i ch.
Fixpoint plan_changes (i : nat) (changes : list Change) : planner () :=
  match changes with
  | [] => aret ()
  | ch :: changes => do! _ := plan_change i ch in plan_changes (S i) changes
  end.

(** *** What follows the loop *)

Record embedWork := MkEmbedWork {
  e_embedding : bool; e_clear : bool; e_addColumn : bool; e_target : string;
  e_source : string; e_hasSource : bool; e_constant : string }.
Definition no_embedding : embedWork := MkEmbedWork false false false "" "" false "".

Record MigrationPlan := MkPlan {
  p_FromVersion : Z; p_ToVersion : Z; p_Table : TableSchema; p_Operations : list operation;
  p_Destructive : list destruction; p_BackfillRows : Z; p_RebuildFulltext : bool; p_FulltextReindexRows : Z;
  p_ClearsEmbeddings : bool; p_EmbedRows : Z }.
Record migrationWork := MkMigration {
  m_cur : TableSchema; m_steps : list statement; m_plan : MigrationPlan; m_fts : bool; m_vec : bool; m_embed : embedWork }.

(** The rows the full-text index will hold: an added field counts for every
    row it fills. *)
Definition fts_preds (w : work) : list (Z → bool) :=
  omap (λ f, let p := phys_of w (f_Name f) in
             if String.eqb p "" then if is_null (default_of w (f_Name f)) then None else Some (λ _, true)
             else Some (λ id, negb (is_null (cell db id p)))) (FTSFields (t_Fields (w_cur w))).
Definition reindex_rows (rebuild : bool) : planner Z :=
  if rebuild then
    do! preds := look fts_preds in
    match preds with
    | [] => aret 0
    | _ => query (count_where (λ id, existsb (λ p : Z → bool, p id) preds && visible id))
    end
  else aret 0.

(** The text a field of every row holds when it is added with a default. *)
Definition constant_text (v : sqlval) : string := match v with VText s => s | _ => "" end.
Definition has_text (c : string) (id : Z) : bool :=
  match cell db id c with VNull => false | VText s => negb (String.eqb s "") | _ => true end.
Definition embed_source (f : Field) (clear addColumn : bool) : planner (embedWork * Z) :=
  do! phys := look (λ w, phys_of w (f_Name f)) in
  do! dflt := look (λ w, default_of w (f_Name f)) in
  if String.eqb phys "" then
    let text := constant_text dflt in
    if String.eqb text "" then aret (MkEmbedWork true clear addColumn (f_Name f) "" false "", 0)
    else do! n := visibleCount in aret (MkEmbedWork true clear addColumn (f_Name f) "" false text, n)
  else
    do! n := query (count_where (λ id, has_text phys id && visible id)) in
    aret (MkEmbedWork true clear addColumn (f_Name f) phys true "", n).
Definition plan_embedding (old : TableSchema) : planner (embedWork * Z) :=
  do! changed := look w_vec in
  if negb changed then aret (no_embedding, 0)
  else
    do! cur := look w_cur in
    let had := bool_decide (is_Some (VectorizeField (t_Fields old))) in
    match VectorizeField (t_Fields cur) with
    | Some f =>
        do! _ := check (refuse (negb embeds) NoEmbedder) in
        do! _ := check (refuse (String.eqb identity "") NoEmbedderIdentity) in
        let modelChanged := negb (String.eqb (t_EmbedSpace cur) "") && negb (String.eqb identity "")
                            && negb (String.eqb (t_EmbedSpace cur) identity) in
        do! e := embed_source f (had || modelChanged) (negb had) in
        do! _ := change (λ w, set_cur (with_embedding identity 0 (w_cur w)) w) in
        aret e
    | None => aret (MkEmbedWork false had false "" "" false "", 0)
    end.

(** [checkSQLiteConstraints], after a change that concerns constraints. *)
Definition check_constraints (changes : list Change) : planner () :=
  if existsb (λ ch, mem (ch_Op ch) constraint_ops) changes then
    do! cur := look w_cur in
    let rows := default ∅ (tb_Rows <$> tables !! t_Name cur) in
    do! stored := query (<[t_Name cur := MkCTable (Some cur) rows]> tables) in
    check (lift_error CatalogRefused (checkConstraints final stored cur true))
  else aret ().

Definition start (nsName table : string) (old : TableSchema) : work :=
  MkWork (MkTable nsName table (t_Version old) (t_Fields old) (t_EmbedSpace old) (t_EmbedDim old) (t_RowAccess old)
            (t_HasOwner old) (t_Constraints old) (t_AcceptReferences old) (t_Relation old))
    (list_to_map (map (λ f, (f_Name f, f_Name f)) (t_Fields old))) ∅ [] [] 0 [] false false 0.

Definition plan_body (old : TableSchema) (changes : list Change) (expectedVersion : Z) : planner migrationWork :=
  do! _ := check (RefuseMixedConstraintChanges changes) in
  do! _ := plan_changes 0 changes in
  do! destr := look w_destr in
  do! _ := check (refuse (negb (length destr =? 0)%nat && (expectedVersion =? 0)) (NeedsExpectedVersion destr)) in
  do! fields := look (λ w, t_Fields (w_cur w)) in
  do! _ := check (field_check (ValidateForMigration fields (t_Fields old))) in
  let gone := (length (FTSFields fields) =? 0)%nat && negb (length (FTSFields (t_Fields old)) =? 0)%nat in
  do! _ := change (mark gone false) in
  do! rebuild := look w_fts in
  do! reindexed := reindex_rows rebuild in
  do! (e, embedded) := plan_embedding old in
  do! _ := check_constraints changes in
  do! _ := change (λ w, set_cur (with_version (t_Version old + 1) (w_cur w)) w) in
  look (λ w, MkMigration (w_cur w) (w_steps w)
    (MkPlan (t_Version old) (t_Version old + 1) (w_cur w) (w_ops w) (w_destr w) (w_backfill w) rebuild reindexed
       (e_clear e) embedded) rebuild (w_vec w) e).
Definition planMigration (nsName table : string) (old : TableSchema) (changes : list Change) (expectedVersion : Z)
    : outcome migrate_error migrationWork :=
  fst (plan_body old changes expectedVersion (start nsName table old)).
End Plan.

(** ** The names a migration moves, for what the schema's JSON keeps
    ([RenamesOf], [schema_preserve.go]) *)
Definition origin_step (origin : gmap string string) (ch : Change) : gmap string string :=
  if String.eqb (ch_Op ch) OpDropField then <[ch_Name ch := ""]> origin
  else if String.eqb (ch_Op ch) OpRenameField then
    <[ch_To ch := default (ch_From ch) (origin !! ch_From ch)]> (delete (ch_From ch) origin)
  else origin.
Definition RenamesOf (changes : list Change) : gmap string string := foldl origin_step ∅ changes.

(** The name of the old field whose unknown keys [MergeUnknownSchemaKeys]
    copies into the field [name]; [None] where it copies none. *)
Definition keys_source (renames : gmap string string) (name : string) : option string :=
  match renames !! name with
  | Some was => if String.eqb was "" then None else Some was
  | None => Some name
  end.
