(* ===== verification/MigrateFacts.v ===== *)
(** * One change of a migration

    What each handler of the planner requires of the declaration and of the
    rows, and what it leaves: the lemmas the migration theorems are put
    together from. *)
From Stdlib Require Import ZArith QArith Qcanon Lia Ascii String.
From stdpp Require Import base gmap strings list sorting.
From S2P Require Import Prelude GoStrings AuthIdentity FilterLexer FilterParser SchemaIdent Schema SchemaFacts SchemaConstraints SchemaRules Authz.
From S2P Require Import GoNumbers Timestamps ConstraintValues ConstraintPlans TableEngine Migrate.
Local Open Scope Z_scope.

(** ** Lists of fields *)

Lemma list_find_field n fs i f : list_find (λ f, f_Name f = n) fs = Some (i, f) → fs !! i = Some f ∧ f_Name f = n.
Proof. by intros (? & ? & _)%list_find_Some. Qed.

Definition on_named {A} (name : A → string) (n : string) (g : A → A) (l : list A) : list A :=
  map (λ x, if String.eqb (name x) n then g x else x) l.

Lemma on_named_other {A} (name : A → string) n g l : n ∉ map name l → on_named name n g l = l.
Proof.
  unfold on_named. induction l as [|x l IH]; [done|]. cbn [map]. intros [Hne Hn]%not_elem_of_cons.
  destruct (String.eqb_spec (name x) n) as [He|_]; [by destruct Hne|]. by rewrite IH.
Qed.

Lemma insert_named n g fs i f : NoDup (map f_Name fs) → fs !! i = Some f → f_Name f = n →
  <[i := g f]> fs = on_named f_Name n g fs.
Proof.
  revert i. induction fs as [|h fs IH]; intros i Hnd Hi Hn; [done|].
  cbn in Hnd. apply NoDup_cons in Hnd as [Hh Hnd]. destruct i as [|i]; cbn in Hi |- *.
  - injection Hi as ->. unfold on_named. cbn. rewrite Hn, String.eqb_refl. f_equal. symmetry.
    apply (on_named_other f_Name n g). by rewrite <- Hn.
  - destruct (String.eqb_spec (f_Name h) n) as [Heq|_].
    + destruct Hh. rewrite Heq, <- Hn. apply list_elem_of_fmap. exists f. split; [done|]. by eapply list_elem_of_lookup_2.
    + f_equal. by apply IH.
Qed.

Lemma filter_other n fs : n ∉ map f_Name fs → List.filter (λ f, negb (String.eqb (f_Name f) n)) fs = fs.
Proof.
  induction fs as [|h fs IH]; [done|]. cbn. intros [Hne Hn]%not_elem_of_cons.
  destruct (String.eqb_spec (f_Name h) n) as [He|_]; [by destruct Hne|]. cbn. by rewrite IH.
Qed.
Lemma delete_named n fs i f : NoDup (map f_Name fs) → fs !! i = Some f → f_Name f = n →
  delete i fs = List.filter (λ f, negb (String.eqb (f_Name f) n)) fs.
Proof.
  revert i. induction fs as [|h fs IH]; intros i Hnd Hi Hn; [done|].
  cbn in Hnd. apply NoDup_cons in Hnd as [Hh Hnd]. destruct i as [|i]; cbn in Hi |- *.
  - injection Hi as ->. rewrite Hn, String.eqb_refl. cbn. symmetry.
    rewrite Hn in Hh. by apply filter_other.
  - destruct (String.eqb_spec (f_Name h) n) as [Heq|_].
    + destruct Hh. rewrite Heq, <- Hn. apply list_elem_of_fmap. exists f. split; [done|]. by eapply list_elem_of_lookup_2.
    + cbn. f_equal. by apply IH.
Qed.

Lemma existsb_named n fs : existsb (λ f, String.eqb (f_Name f) n) fs = false ↔ n ∉ map f_Name fs.
Proof.
  induction fs as [|f fs IH]; cbn; [split; [intros _; apply not_elem_of_nil | done]|].
  rewrite orb_false_iff, IH, String.eqb_neq, not_elem_of_cons. intuition congruence.
Qed.

Lemma names_on_named n g fs : (∀ f, f_Name (g f) = f_Name f) → map f_Name (on_named f_Name n g fs) = map f_Name fs.
Proof.
  intros Hg. unfold on_named. rewrite map_map. apply map_ext. intros f. destruct (String.eqb _ n); [apply Hg | done].
Qed.
Lemma names_rename from to fs :
  map f_Name (on_named f_Name from (with_Name to) fs) = map (renamed from to) (map f_Name fs).
Proof. unfold on_named, renamed. rewrite !map_map. apply map_ext. intros f. by destruct (String.eqb _ from). Qed.
Lemma names_filter n fs :
  map f_Name (List.filter (λ f, negb (String.eqb (f_Name f) n)) fs) = List.filter (λ x, negb (String.eqb x n)) (map f_Name fs).
Proof. induction fs as [|f fs IH]; [done|]. cbn. destruct (String.eqb (f_Name f) n); cbn; by rewrite ?IH. Qed.

(** ** The planner's actions *)

Definition at_calls (k : nat) (w : work) : work :=
  MkWork (w_cur w) (w_phys w) (w_defaults w) (w_ops w) (w_destr w) (w_backfill w) (w_steps w) (w_fts w) (w_vec w) k.
Lemma tick_at w : tick w = at_calls (S (w_calls w)) w.
Proof. done. Qed.
Lemma at_self w : at_calls (w_calls w) w = w.
Proof. by destruct w. Qed.

Lemma check_Done {A} (o : outcome migrate_error A) w a w' : check o w = (Done a, w') ↔ o = Done a ∧ w' = w.
Proof. unfold check. naive_solver. Qed.
Lemma look_Done {A} (f : work → A) w a w' : look f w = (Done a, w') ↔ a = f w ∧ w' = w.
Proof. unfold look. naive_solver. Qed.
Lemma change_Done f w u w' : change f w = (Done u, w') ↔ w' = f w.
Proof. destruct u. unfold change. naive_solver. Qed.
Lemma refuse_Done {Er} b (e : Er) u : refuse b e = Done u ↔ b = false.
Proof. destruct b, u; cbn; naive_solver. Qed.
Lemma if_done b m w u w' : when_ b m w = (Done u, w') ↔ (b = true ∧ m w = (Done u, w')) ∨ (b = false ∧ w' = w).
Proof. destruct b, u; cbn; naive_solver. Qed.
Lemma aret_Done {St Er A} (a b : A) (s s' : St) : aret (E := Er) a s = (Done b, s') ↔ b = a ∧ s' = s.
Proof. cbn. naive_solver. Qed.
Lemma lift_error_Done {A Er Er'} (g : Er → Er') (o : outcome Er A) a : lift_error g o = Done a ↔ o = Done a.
Proof. destruct o; cbn; naive_solver. Qed.

Ltac is_unit a := match type of a with unit => idtac end.
(** [plan_inv H] takes apart a run that ends with a value. *)
Ltac plan_inv H :=
  repeat match type of H with
  | abind _ _ _ = (Done _, _) =>
      let a := fresh "a" in let s := fresh "s" in let H1 := fresh "P" in
      apply abind_Done in H as (a & s & H1 & H); first [is_unit a; destruct a | idtac]; plan_inv H1
  | check _ _ = (Done _, _) => apply check_Done in H as [H ?]; subst; plan_inv H
  | look _ _ = (Done _, _) => apply look_Done in H as [? ?]; subst
  | change _ _ = (Done _, _) => apply change_Done in H as ->
  | aret _ _ = (Done _, _) => apply aret_Done in H as [? ?]; subst
  | afail _ _ = (Done _, _) => discriminate H
  | refuse _ _ = Done _ => apply refuse_Done in H
  | ident_check _ = Done _ => apply lift_error_Done in H
  | field_check _ = Done _ => apply lift_error_Done in H
  | lift_error _ _ = Done _ => apply lift_error_Done in H
  | obind _ _ = Done _ =>
      let a := fresh "a" in let H1 := fresh "P" in apply obind_Done in H as (a & H1 & H); first [is_unit a; destruct a | idtac]; plan_inv H1
  | (let '(_, _) := ?x in _) _ = _ => destruct x
  end.

Section Facts.
Context {DB : Type} {E : Engine DB} {UT : UnicodeTables}.
Context (faults : nat → bool) (polls : nat → polls) (naming : nat → nat → ctx) (final : oracle).
Context (tables : catalog) (db : DB) (embeds : bool) (identity : string) (scope : option RowScope).

Lemma query_Done {A} (a b : A) w w' : query faults a w = (Done b, w') → b = a ∧ ∃ k, w' = at_calls k w.
Proof. unfold query. destruct (faults _); [done|]. intros [= <- <-]. split; [done|]. by eexists. Qed.

Lemma count_zero p : count_where db p = 0 → List.filter p (ids db) = [].
Proof. unfold count_where. destruct (List.filter p (ids db)); [done|]. cbn. lia. Qed.
Lemma count_all : count_where db (λ _, true) = 0 → ids db = [].
Proof. intros H%count_zero. induction (ids db); [done|]. done. Qed.
Lemma count_nonneg p : 0 <= count_where db p.
Proof. unfold count_where. lia. Qed.

Lemma RefuseConstrainedField_Done n op field w u w' :
  RefuseConstrainedField naming n op field w = (Done u, w') →
  w' = w ∧ ConstraintNamingField (naming n) (t_Fields (w_cur w)) (t_Constraints (w_cur w)) field = "" ∧
  (∀ r, t_Relation (w_cur w) = Some r → field ∉ [r_Source r; r_Target r; r_Type r]).
Proof.
  unfold RefuseConstrainedField. destruct (String.eqb_spec (ConstraintNamingField (naming n) (t_Fields (w_cur w))
    (t_Constraints (w_cur w)) field) "") as [->|]; cbn [negb]; [|done].
  destruct (t_Relation (w_cur w)) as [r|] eqn:Hr.
  - destruct (String.eqb_spec field (r_Source r)); cbn [orb]; [done|].
    destruct (String.eqb_spec field (r_Target r)); cbn [orb]; [done|].
    destruct (String.eqb_spec field (r_Type r)); [done|]. intros [= <- <-]. split_and!; [done|done|].
    intros ? [= <-]. rewrite !not_elem_of_cons. repeat split; try done. apply not_elem_of_nil.
  - intros [= <- <-]. split_and!; [done|done|]. by intros.
Qed.

Lemma findField_Done n w i f w' : findField n w = (Done (i, f), w') →
  w' = w ∧ t_Fields (w_cur w) !! i = Some f ∧ f_Name f = n.
Proof.
  unfold findField. destruct (list_find _ _) as [[i' f']|] eqn:Hf; [|done]. intros [= <- <- <-].
  by apply list_find_field in Hf.
Qed.

(** ** The handlers *)

Lemma add_rows_Done f given w w' : add_rows faults db scope f given w = (Done (), w') →
  (f_Required f = true → given = false → ids db = []) ∧ ∃ n k, w' = at_calls k (add_backfill n w).
Proof.
  unfold add_rows. intros [[Hb H]|[Hb ->]]%if_done.
  - plan_inv H. apply query_Done in P as [-> [k ->]]. split.
    + intros Hr Hg. rewrite Hr, Hg in P0. cbn in P0. apply Z.ltb_ge in P0.
      apply count_all. pose proof (count_nonneg (λ _, true)). lia.
    + apply if_done in H as [[-> H]|[-> ->]].
      * plan_inv H. apply query_Done in P as [-> [k' ->]]. by eexists _, k'.
      * exists 0, k. unfold add_backfill, at_calls. cbn. by rewrite Z.add_0_r.
  - apply orb_false_iff in Hb as [Hb ->]. split; [by rewrite Hb|]. exists 0, (w_calls w).
    unfold add_backfill, at_calls. cbn. rewrite Z.add_0_r. by destruct w.
Qed.

Lemma add_field_Done i ch w u w' : add_field faults db scope i ch w = (Done u, w') →
  ∃ raw dv ds, ch_Field ch = Some raw ∧ let f := normalized raw in
    ValidIdent (f_Name f) = true ∧ (f_Name f ∉ map f_Name (t_Fields (w_cur w))) ∧
    Z.of_nat (length (t_Fields (w_cur w))) < MaxFieldsPerTable ∧ backfill_default f (ch_Default ch) = Done (dv, ds) ∧
    (ch_Default ch ≠ JNull → f_Type f ≠ Secret ∧ f_Type f ≠ File) ∧
    (f_Required f = true → ch_Default ch = JNull → ids db = []) ∧
    ∃ n k, w' = at_calls k (add_backfill n (add_work f (ch_Default ch) dv ds w)).
Proof.
  unfold add_field. destruct (ch_Field ch) as [raw|]; [|done]. intros H. plan_inv H.
  apply add_rows_Done in P6 as [Hrow (n & k & ->)]. exists raw, s, s0. split; [done|]. cbn zeta.
  apply ValidateIdent_Done in P2. apply existsb_named in P3. apply Z.leb_gt in P4.
  split_and!; [done|done|done|done| | |by exists n, k].
  - intros Hd%is_nil_false. rewrite Hd in *. rewrite andb_true_r in P0, P1. split; by apply is_type_false.
  - intros Hr Hd%is_nil_true. apply Hrow; [done|]. by rewrite Hd.
Qed.

Lemma rename_field_Done i ch w u w' : rename_field naming i ch w = (Done u, w') →
  ∃ j f, t_Fields (w_cur w) !! j = Some f ∧ f_Name f = ch_From ch ∧ ValidIdent (ch_To ch) = true ∧
    ConstraintNamingField (naming i) (t_Fields (w_cur w)) (t_Constraints (w_cur w)) (ch_From ch) = "" ∧
    (∀ r, t_Relation (w_cur w) = Some r → (ch_From ch ∉ [r_Source r; r_Target r; r_Type r])) ∧
    (ch_To ch = ch_From ch ∨ (ch_To ch ∉ map f_Name (t_Fields (w_cur w)))) ∧
    w' = rename_work j f (ch_From ch) (ch_To ch) w.
Proof.
  unfold rename_field. intros H. plan_inv H. apply RefuseConstrainedField_Done in P0 as (-> & Hc & Hr).
  apply findField_Done in P1 as (-> & Hi & Hn). exists n, f. apply ValidateIdent_Done in P. split_and!; try done.
  apply andb_false_iff in P2 as [He|He]; [left; by apply negb_false_iff, String.eqb_eq in He | right; by apply existsb_named].
Qed.

Lemma drop_field_Done i ch w u w' : drop_field naming i ch w = (Done u, w') →
  ∃ j f, t_Fields (w_cur w) !! j = Some f ∧ f_Name f = ch_Name ch ∧
    ConstraintNamingField (naming i) (t_Fields (w_cur w)) (t_Constraints (w_cur w)) (ch_Name ch) = "" ∧
    (∀ r, t_Relation (w_cur w) = Some r → ch_Name ch ∉ [r_Source r; r_Target r; r_Type r]) ∧
    w' = drop_work j f (ch_Name ch) w.
Proof.
  unfold drop_field. intros H. plan_inv H. apply findField_Done in P as (-> & Hi & Hn).
  apply RefuseConstrainedField_Done in P0 as (-> & Hc & Hr). by exists n, f.
Qed.

Lemma set_fulltext_Done ch w u w' : set_fulltext ch w = (Done u, w') →
  ∃ j f, t_Fields (w_cur w) !! j = Some f ∧ f_Name f = ch_Name ch ∧ let v := flag_value ch in
    w' = say (FulltextSet (ch_Name ch) v) (mark (v || f_Fulltext f) false (set_field j (with_Fulltext v f) w)).
Proof.
  unfold set_fulltext. intros H. plan_inv H. apply findField_Done in P as (-> & Hi & Hn). by exists n, f.
Qed.

Lemma set_vectorize_Done ch w u w' : set_vectorize ch w = (Done u, w') →
  ∃ j f, t_Fields (w_cur w) !! j = Some f ∧ f_Name f = ch_Name ch ∧ let v := flag_value ch in
    w' = say (VectorizeSet (ch_Name ch) v) (mark false (xorb (f_Vectorize f) v) (set_field j (with_Vectorize v f) w)).
Proof.
  unfold set_vectorize. intros H. plan_inv H. apply findField_Done in P as (-> & Hi & Hn).
  apply if_done in P0 as [[Hv H]|[Hv ->]].
  - plan_inv H. destruct (other_vectorized _ _); plan_inv H. by exists n, f.
  - by exists n, f.
Qed.

(** *** The changes that look at stored rows *)

Lemma filled_spec c id : id ∈ filled db c ↔ id ∈ ids db ∧ is_null (cell db id c) = false.
Proof.
  unfold filled. rewrite list_elem_of_In, filter_In, <- list_elem_of_In. by rewrite negb_true_iff.
Qed.
Lemma filter_nil {A} (p : A → bool) l x : List.filter p l = [] → x ∈ l → p x = false.
Proof.
  intros Hl Hx. destruct (p x) eqn:Hp; [|done]. assert (x ∈ List.filter p l) as Hin
    by (rewrite list_elem_of_In, filter_In, <- list_elem_of_In; done).
  rewrite Hl in Hin. by apply not_elem_of_nil in Hin.
Qed.

Lemma usages_all all l : ∀ seen s, s ∈ l → s ∈ seen ∨ s ∈ map fst (usages seen all l).
Proof.
  induction l as [|x l IH]; intros seen s; [by intros []%not_elem_of_nil|]. cbn.
  intros [->|Hs]%elem_of_cons; destruct (mem x seen) eqn:Hm.
  - left. by apply mem_spec.
  - right. left.
  - by apply IH.
  - destruct (IH (x :: seen) s Hs) as [[->|?]%elem_of_cons|?]; [right; left|by left|right; by right].
Qed.
Lemma enum_usage_none vals texts s : enum_usage vals texts = [] → s ∈ texts → EnumAllows vals s = true.
Proof.
  intros Hu Hs. destruct (usages_all texts texts [] s Hs) as [[]%not_elem_of_nil|Hin].
  apply list_elem_of_fmap in Hin as ([s' n] & -> & Hin). cbn.
  apply (filter_nil _ _ _ Hu), negb_false_iff in Hin. done.
Qed.

Lemma mapM_elem {A B} (f : A → option B) l k x : mapM f l = Some k → x ∈ l → ∃ y, f x = Some y ∧ y ∈ k.
Proof.
  intros H%mapM_Some Hx. induction H as [|a b l k Hab _ IH]; [by apply not_elem_of_nil in Hx|].
  apply elem_of_cons in Hx as [->|Hx]; [exists b; split; [done|left]|].
  destruct (IH Hx) as (y & ? & ?). exists y. split; [done|by right].
Qed.

Definition enum_ok (vals : list string) (v : sqlval) : Prop :=
  is_null v = true ∨ ∃ s, v = VText s ∧ EnumAllows vals s = true.
Definition shape_ok (shape : string) (v : sqlval) : Prop := is_null v = true ∨ ShapeFits shape v = true.
Definition files_ok (f : Field) (v : sqlval) : Prop :=
  is_null v = true ∨ ∃ size, file_size v = Some size ∧ breaks_files f size (file_media v) = false.

(** What a check of the stored rows found, for a field whose values are in
    the column [phys]. *)
Definition stored_ok (ok : sqlval → Prop) (phys : string) : Prop :=
  phys ≠ "" → ∀ id, id ∈ ids db → ok (cell db id phys).

Lemma enum_rows_Done f vals phys w u w' : enum_rows faults db scope f vals phys w = (Done u, w') →
  stored_ok (enum_ok vals) phys ∧ ∃ k, w' = at_calls k w.
Proof.
  unfold enum_rows, stored_ok. destruct (String.eqb_spec phys "") as [->|Hne].
  - intros [-> ->]%aret_Done. split; [done|]. exists (w_calls w). by rewrite at_self.
  - intros H. plan_inv H. apply query_Done in P as [-> [k ->]].
    destruct (mapM _ _) as [texts|] eqn:Hm; [|done]. destruct (enum_usage vals texts) eqn:Hu; [|done].
    plan_inv H. split; [|by exists k]. intros _ id Hid. destruct (is_null (cell db id phys)) eqn:Hn; [by left|right].
    destruct (mapM_elem _ _ _ (cell db id phys) Hm) as (s & Hs & Hin).
    { apply list_elem_of_fmap. exists id. split; [done|]. by apply filled_spec. }
    exists s. split; [by destruct (cell db id phys); simplify_eq/=|]. by eapply enum_usage_none.
Qed.

Lemma shape_rows_Done f shape phys w u w' : shape_rows faults db scope f shape phys w = (Done u, w') →
  stored_ok (shape_ok shape) phys ∧ ∃ k, w' = at_calls k w.
Proof.
  unfold shape_rows, stored_ok. destruct (String.eqb_spec phys "") as [->|Hne].
  - intros [-> ->]%aret_Done. split; [done|]. exists (w_calls w). by rewrite at_self.
  - intros H. plan_inv H. apply query_Done in P as [-> [k ->]].
    destruct (List.filter _ _) eqn:Hf in H; [|done]. plan_inv H. split; [|by exists k].
    intros _ id Hid. destruct (is_null (cell db id phys)) eqn:Hn; [by left|right].
    assert ((id, cell db id phys) ∈ map (λ id, (id, cell db id phys)) (filled db phys)) as Hin.
    { apply list_elem_of_fmap. exists id. split; [done|]. by apply filled_spec. }
    by apply (filter_nil _ _ _ Hf), negb_false_iff in Hin.
Qed.

Lemma file_rows_Done next phys w u w' : file_rows faults db scope next phys w = (Done u, w') →
  stored_ok (files_ok next) phys ∧ ∃ k, w' = at_calls k w.
Proof.
  unfold file_rows, stored_ok. destruct (String.eqb_spec phys "") as [->|Hne].
  - intros [-> ->]%aret_Done. split; [done|]. exists (w_calls w). by rewrite at_self.
  - intros H. plan_inv H. apply query_Done in P as [-> [k ->]].
    destruct (mapM _ _) as [files|] eqn:Hm; [|done]. destruct (List.filter _ _) eqn:Hf in H; [|done].
    plan_inv H. split; [|by exists k]. intros _ id Hid. destruct (is_null (cell db id phys)) eqn:Hn; [by left|right].
    destruct (mapM_elem _ _ _ (id, cell db id phys) Hm) as (r & Hr & Hin).
    { apply list_elem_of_fmap. exists id. split; [done|]. by apply filled_spec. }
    cbn in Hr. destruct (file_size (cell db id phys)) as [size|]; [|done]. injection Hr as <-.
    exists size. split; [done|]. by apply (filter_nil _ _ _ Hf) in Hin.
Qed.

Lemma when_rows b m w u w' (P : Prop) : (∀ w', m w = (Done u, w') → P ∧ ∃ k, w' = at_calls k w) →
  when_ b m w = (Done u, w') → (b = true → P) ∧ ∃ k, w' = at_calls k w.
Proof.
  intros Hm [[-> H]|[-> ->]]%if_done; [destruct (Hm _ H); done|]. split; [done|]. exists (w_calls w). by rewrite at_self.
Qed.

Lemma set_enum_Done ch w u w' : set_enum faults db scope ch w = (Done u, w') →
  ∃ j f k, t_Fields (w_cur w) !! j = Some f ∧ f_Name f = ch_Name ch ∧ f_Type f = TString ∧
    let vals := default [] (ch_Enum ch) in let some := negb (length vals =? 0)%nat in
    (some = true → ValidateEnum (f_Name f) vals = Done () ∧ stored_ok (enum_ok vals) (phys_of w (f_Name f))) ∧
    enum_defaults f vals (default_of w (f_Name f)) = Done () ∧
    w' = at_calls k (say (EnumSet (ch_Name ch) vals) (set_field j (with_Enum (if some then Some vals else None) f) w)).
Proof.
  unfold set_enum. intros H. plan_inv H. apply findField_Done in P as (-> & Hi & Hn).
  apply (when_rows _ _ _ _ _ (stored_ok (enum_ok (default [] (ch_Enum ch))) (phys_of w (f_Name f)))) in P4 as [Hrow [k ->]];
    [|by intros ? ?%enum_rows_Done].
  exists n, f, k. split_and!; try done.
  - by apply negb_false_iff, is_type_spec in P2.
  - intros Hs. rewrite Hs in P3. plan_inv P3. by split; [|apply Hrow].
Qed.

Lemma ShapeTarget_Done f shape u : ShapeTarget f shape = Done u → f_Type f = JSON ∧ (shape ≠ "" → shape ∈ Shapes).
Proof.
  unfold ShapeTarget. destruct (is_type f JSON) eqn:Ht; cbn [negb]; [|done]. apply is_type_spec in Ht.
  destruct (String.eqb_spec shape "") as [->|Hne]; [done|]. intros H. plan_inv H. destruct u.
  apply ValidateShape_Done in H. done.
Qed.

Lemma set_shape_Done ch w u w' : set_shape faults db scope ch w = (Done u, w') →
  ∃ j f k, t_Fields (w_cur w) !! j = Some f ∧ f_Name f = ch_Name ch ∧ f_Type f = JSON ∧
    let shape := default "" (ch_Shape ch) in
    (shape ≠ "" → (shape ∈ Shapes) ∧ stored_ok (shape_ok shape) (phys_of w (f_Name f)) ∧
                  ShapeDefaults f shape (default_of w (f_Name f)) = Done ()) ∧
    w' = at_calls k (say (ShapeSet (ch_Name ch) shape) (set_field j (with_Shape shape f) w)).
Proof.
  unfold set_shape. intros H. plan_inv H. apply findField_Done in P as (-> & Hi & Hn).
  apply ShapeTarget_Done in P0 as [Ht Hs].
  apply (when_rows _ _ _ _ _ (stored_ok (shape_ok (default "" (ch_Shape ch))) (phys_of w (f_Name f)) ∧
    ShapeDefaults f (default "" (ch_Shape ch)) (default_of w (f_Name f)) = Done ())) in P1 as [Hrow [k ->]].
  - exists n, f, k. split_and!; try done. intros Hne. split; [by apply Hs|]. apply Hrow.
    by apply negb_true_iff, String.eqb_neq.
  - intros w1 H. plan_inv H. apply shape_rows_Done in P as [Hok [k ->]]. split; [done|by exists k].
Qed.

Lemma set_file_constraints_Done ch w u w' : set_file_constraints faults db scope ch w = (Done u, w') →
  ∃ j f next k, t_Fields (w_cur w) !! j = Some f ∧ f_Name f = ch_Name ch ∧ FileConstraintField f ch = Done next ∧
    stored_ok (files_ok next) (phys_of w (f_Name f)) ∧
    w' = at_calls k (say (FileConstraintsSet (ch_Name ch) (f_MaxBytes next) (f_MediaTypes next)) (set_field j next w)).
Proof.
  unfold set_file_constraints. intros H. plan_inv H. apply findField_Done in P as (-> & Hi & Hn).
  apply file_rows_Done in P1 as [Hok [k ->]]. by exists n, f, a, k.
Qed.
Lemma FileConstraintField_Done f ch next : FileConstraintField f ch = Done next →
  f_Type f = File ∧ ∃ max types, next = with_Files max types f ∧ ValidateFileConstraints (f_Name f) max types = Done ().
Proof.
  unfold FileConstraintField. destruct (is_type f File) eqn:Ht; cbn [negb]; [|done]. apply is_type_spec in Ht.
  intros H. plan_inv H. injection H as <-. split; [done|]. by eexists _, _.
Qed.

(** *** The changes that leave the fields as they are *)

(** [cur] differs from the declaration of [w] in its constraints, its
    references or its row access. *)
Definition same_fields (t t' : TableSchema) : Prop :=
  t_Fields t' = t_Fields t ∧ t_Relation t' = t_Relation t ∧ t_Version t' = t_Version t ∧ t_Name t' = t_Name t.

Lemma sqliteReferencing_Done table w l w' : sqliteReferencing faults tables table w = (Done l, w') →
  ∃ k, w' = at_calls k w.
Proof.
  unfold sqliteReferencing. intros H. plan_inv H. apply query_Done in P as [-> [k ->]].
  destruct (existsb _ _); plan_inv H. by exists k.
Qed.

Lemma constraint_change_Done (i : nat) (ch : Change) w u w' :
  (add_constraint polls i ch w = (Done u, w') ∧ ch_Constraint ch ≠ None) ∨ drop_constraint ch w = (Done u, w') ∨
    set_accept_references faults tables ch w = (Done u, w') →
  ∃ o t k, same_fields (w_cur w) t ∧ t_HasOwner t = t_HasOwner (w_cur w) ∧ w' = at_calls k (say o (set_cur t w)).
Proof.
  intros [[H Hc]|[H|H]].
  - unfold add_constraint in H. plan_inv H. destruct (ch_Constraint ch) as [c|]; [|done]. plan_inv H.
    eexists _, (with_constraints _ (w_cur w)), (w_calls w). by repeat split.
  - unfold drop_constraint in H. plan_inv H. destruct (index_of _ _) as [[j c]|]; [|done]. plan_inv H.
    eexists _, (with_constraints _ (w_cur w)), (w_calls w). by repeat split.
  - unfold set_accept_references in H. plan_inv H.
    apply (when_rows _ _ _ _ _ True) in P as [_ [k ->]].
    + eexists _, (with_accept _ (w_cur w)), k. by repeat split.
    + intros w1 H. split; [done|]. plan_inv H. apply sqliteReferencing_Done in P0 as [k ->].
      destruct (_ ++ _); plan_inv H. by exists k.
Qed.

(** What [set_row_access] leaves: the column of owners is added, on a table
    without rows, the first time it is turned on. *)
Lemma set_row_access_Done ch w u w' : set_row_access faults tables db scope ch w = (Done u, w') →
  ∃ o t k steps, same_fields (w_cur w) t ∧ t_Constraints (w_cur w) = [] ∧
    w' = at_calls k (say o (set_cur t (add_steps steps w))) ∧
    ((steps = [] ∧ t_HasOwner t = t_HasOwner (w_cur w)) ∨
     (ids db = [] ∧ t_HasOwner t = true ∧ (OwnerColumn ∉ map f_Name (t_Fields (w_cur w))) ∧
      steps = (if t_HasOwner (w_cur w) then [] else [AddColumn OwnerColumn "TEXT" false VNull]) ++ [CountRows true])).
Proof.
  unfold set_row_access. destruct (ch_Value ch) as [v|]; [|done]. intros H. plan_inv H.
  apply sqliteReferencing_Done in P as [k ->].
  assert (t_Constraints (w_cur w) = []) as Hcs.
  { unfold RefuseConstrainedRowAccess in P0. by destruct (t_Constraints (w_cur w)). }
  assert (∀ o t, same_fields (w_cur w) t → t_HasOwner t = t_HasOwner (w_cur w) → w' = say o (set_cur t (at_calls k w)) →
    ∃ o t k steps, same_fields (w_cur w) t ∧ t_Constraints (w_cur w) = [] ∧
      w' = at_calls k (say o (set_cur t (add_steps steps w))) ∧
      ((steps = [] ∧ t_HasOwner t = t_HasOwner (w_cur w)) ∨
       (ids db = [] ∧ t_HasOwner t = true ∧ (OwnerColumn ∉ map f_Name (t_Fields (w_cur w))) ∧
        steps = (if t_HasOwner (w_cur w) then [] else [AddColumn OwnerColumn "TEXT" false VNull]) ++ [CountRows true]))) as Hsame.
  { intros o t Ht Ho ->. exists o, t, k, []. split_and!; [done|done| |by left].
    unfold say, at_calls, set_cur, add_steps. cbn. by rewrite app_nil_r. }
  destruct v.
  - destruct (String.eqb _ RowAccessOwn).
    { plan_inv H. by apply (Hsame (RowAccessSet true true) (w_cur w)). }
    unfold enable_row_access in H. plan_inv H. apply query_Done in P1 as [-> [k' ->]].
    unfold ValidateOwnerCollision in P. destruct (existsb _ _) eqn:Hex; [done|].
    unfold ReservedWithOwner in Hex. apply existsb_named in Hex. apply Z.ltb_ge in P2.
    eexists _, (with_row_access RowAccessOwn true (w_cur w)), k', _. split_and!; [by repeat split|done|done|].
    right. split_and!; [|done|done|done]. apply count_all. pose proof (count_nonneg (λ _, true)). lia.
  - destruct (String.eqb _ "").
    { plan_inv H. by apply (Hsame (RowAccessSet false true) (w_cur w)). }
    plan_inv H. by apply (Hsame (RowAccessSet false false) (with_row_access "" (t_HasOwner (w_cur w)) (w_cur w))).
Qed.
End Facts.
