(* ===== verification/MigrateData.v ===== *)
(** * What a migration does to the stored rows

    The specification is a table read as a list of fields, each with the list
    of its values; a change appends, renames, removes or redeclares one entry.
    The planner only collects statements and the names of old columns; the
    invariant [inv] says that the statements collected so far lead from the
    table of the store to one that holds what the specification says. *)
From Stdlib Require Import ZArith QArith Qcanon Lia Ascii String.
From stdpp Require Import base gmap strings list sorting.
From S2P Require Import Prelude GoStrings AuthIdentity FilterLexer FilterParser SchemaIdent Schema SchemaFacts SchemaConstraints SchemaRules Authz.
From S2P Require Import GoNumbers Timestamps ConstraintValues ConstraintPlans TableEngine Migrate MigrateFacts.
Local Open Scope Z_scope.

(** ** Values that fit a field *)

(** The kind of value each type of field stores. *)
Definition kind (t : FieldType) (v : sqlval) : bool :=
  if String.eqb t Number then is_number v
  else match v with
       | VInt n => String.eqb t Boolean && ((n =? 0) || (n =? 1))
       | VVector _ => String.eqb t Vector
       | VJson _ => String.eqb t JSON || String.eqb t File
       | VBlob _ => String.eqb t Secret
       | VText _ => negb (mem t [Boolean; Vector; JSON; File; Secret])
       | _ => false
       end.
Definition fits_declaration (f : Field) (v : sqlval) : bool :=
  (if is_type f TString then match v with VText s => EnumAllows (default [] (f_Enum f)) s | _ => false end else true)
  && (if is_type f JSON then ShapeFits (f_Shape f) v else true)
  && (if is_type f Vector then match v with VVector l => Z.of_nat (length l) =? f_Dim f | _ => false end else true)
  && (if is_type f File then match file_size v with Some size => negb (breaks_files f size (file_media v)) | None => false end
      else true).
(** [fits f v]: a row may hold [v] in the field [f]. *)
Definition fits (f : Field) (v : sqlval) : bool :=
  if is_null v then negb (f_Required f) else kind (f_Type f) v && fits_declaration f v.

Section Kinds.
Context {UT : UnicodeTables}.

Lemma finite_number x : is_finite x = true → is_number (VFloat x) = true.
Proof. by destruct x. Qed.
Lemma Coerce_kind f v g : Coerce f v = Done g → is_type f Vector = false → is_type f JSON = false →
  is_type f File = false → is_type f Secret = false → v ≠ GNil →
  is_null (goval_sql g) = false ∧ kind (f_Type f) (goval_sql g) = true ∧ fits_declaration f (goval_sql g) = true.
Proof.
  intros H Hv Hj Hfi Hs Hnil. unfold fits_declaration. rewrite Hv, Hj, Hfi. unfold Coerce in H.
  destruct v eqn:Ev; [done|..]; rewrite Hfi, Hv, Hj in H; cbn [orb] in H; clear Ev Hnil.
  all: unfold is_type in *; unfold kind; destruct (String.eqb_spec (f_Type f) Number) as [Hn|Hn].
  all: try (rewrite Hn; cbn -[is_number]; unfold coerce_number, finiteNumber in H; repeat case_match; simplify_eq; split_and?; first [done|by apply finite_number]).
  all: destruct (String.eqb_spec (f_Type f) Boolean) as [Hb|Hb].
  all: try (rewrite Hb in *; cbn in H; first [discriminate H | injection H as <-; by destruct b]).
  all: assert (negb (mem (f_Type f) [Boolean; Vector; JSON; File; Secret]) = true) as Hmem
    by (unfold mem; cbn [existsb]; by rewrite Hv, Hj, Hfi, Hs, (proj2 (String.eqb_neq _ _) Hb)).
  all: repeat (case_match; simplify_eq); cbn -[mem]; rewrite ?Hmem; try done.
  all: cbn in *; simplify_eq.
  all: try (match goal with Ha : EnumAllows _ _ = true |- _ => by rewrite Ha end).
  all: match goal with Ht : String.eqb _ Timestamp = true |- _ => apply String.eqb_eq in Ht; by rewrite Ht in * end.
Qed.

Lemma coerceValue_fits f d v : coerceValue f d = Done v → d ≠ JNull → f_Type f ≠ Secret → f_Type f ≠ File →
  is_null v = false ∧ kind (f_Type f) v = true ∧ fits_declaration f v = true.
Proof.
  unfold coerceValue. intros H Hd%is_nil_false Hs%is_type_false Hfi%is_type_false. rewrite Hd in H.
  destruct (is_type f Vector) eqn:Hv; [|destruct (is_type f JSON) eqn:Hj].
  - destruct d as [| | | |items|]; try done. destruct (mapM _ _) as [l|]; [|done].
    destruct (_ && _) eqn:Hl; [|done]. injection H as <-. apply andb_true_iff in Hl as [Hl _].
    unfold fits_declaration. rewrite Hv, Hfi, Hl. apply is_type_spec in Hv. unfold is_type, kind. by rewrite Hv.
  - destruct (_ || _) eqn:Hb; [done|]. injection H as <-. apply orb_false_iff in Hb as [_ Hb%bool_decide_eq_false].
    unfold fits_declaration. rewrite Hv, Hj, Hfi. apply is_type_spec in Hj. unfold is_type, kind. rewrite Hj. cbn.
    split_and!; [done|done|]. rewrite !andb_true_r. apply bool_decide_eq_true. by destruct (ShapeViolation _ _); [destruct Hb|].
  - destruct (Coerce f (json_goval d)) as [g| |] eqn:Hc; [|done|done]. injection H as <-.
    apply (Coerce_kind f (json_goval d)); try done. by destruct d.
Qed.

(** The value an added field is filled with, and its DEFAULT. *)
Lemma backfill_default_spec f d dv ds : backfill_default f d = Done (dv, ds) →
  (d ≠ JNull → f_Type f ≠ Secret ∧ f_Type f ≠ File) →
  if is_nil d then dv = VNull ∧ ds = VNull
  else is_null dv = false ∧ kind (f_Type f) dv = true ∧ fits_declaration f dv = true ∧
       ds = (if f_Required f then dv else VNull).
Proof.
  unfold backfill_default. intros H Ht. destruct (is_nil d) eqn:Hd; [by injection H as <- <-|].
  apply is_nil_false in Hd. destruct (Ht Hd) as [Hs Hf]. plan_inv H.
  destruct (coerceValue_fits f d _ P Hd Hs Hf) as (Hn & Hk & Hfit).
  destruct (f_Required f); plan_inv H.
  - unfold sqlLiteral in P2. rewrite Hn in P2. by simplify_eq.
  - by simplify_eq.
Qed.
End Kinds.

Section Stored.
Context {DB : Type} {E : Engine DB} {L : EngineLaws DB}.

Lemma store_kind f v : is_null v = false → kind (f_Type f) v = true → f_Type f ≠ File → fits_declaration f v = true →
  fits f (store_as (SQLType f) v) = true ∧ (f_Type f ≠ Number → store_as (SQLType f) v = v).
Proof.
  intros Hn Hk Hfi Hd. unfold SQLType, fits. destruct (is_type f Number) eqn:Ht.
  - apply is_type_spec in Ht. split; [|done]. unfold kind in *. rewrite Ht in *. cbn in Hk |- *.
    pose proof (store_numeric _ Hk) as Hs. destruct (store_as "NUMERIC" v) as [| |[]| | | |]; cbn in *; try done; unfold fits_declaration, is_type in *;
      rewrite Ht in *; cbn in *; done.
  - assert (store_as (if is_type f Boolean then "INTEGER" else if is_type f Vector || is_type f Secret then "BLOB" else "TEXT") v = v) as ->;
      [|by rewrite Hn, Hk, Hd].
    unfold kind, is_type in *. rewrite Ht in Hk. destruct v as [|n| |s|j|l|b]; try done.
    + apply andb_true_iff in Hk as [-> _]. apply store_integer.
    + apply negb_true_iff in Hk. unfold mem in Hk. cbn [existsb] in Hk. apply orb_false_iff in Hk as [-> Hk].
      apply orb_false_iff in Hk as [-> Hk]. apply orb_false_iff in Hk as [_ Hk]. apply orb_false_iff in Hk as [_ Hk].
      apply orb_false_iff in Hk as [-> _]. by apply store_text.
    + apply String.eqb_neq in Hfi. rewrite Hfi, orb_false_r in Hk. apply String.eqb_eq in Hk. rewrite Hk. by apply store_text.
    + apply String.eqb_eq in Hk. rewrite Hk. apply store_blob.
    + apply String.eqb_eq in Hk. rewrite Hk. apply store_blob.
Qed.
End Stored.

(** ** The specification *)

(** A table as its reader sees it. *)
Abbreviation content := (list (Field * list sqlval)).
Definition table_of {DB} `{Engine DB} (fields : list Field) (db : DB) : content :=
  map (λ f, (f, map (λ id, cell db id (f_Name f)) (ids db))) fields.

Definition redeclare (n : string) (g : Field → Field) : content → content :=
  on_named (λ c : Field * list sqlval, f_Name c.1) n (λ c, (g c.1, c.2)).

(** What a change does to a table of [rows] rows. *)
Definition spec_change {DB} `{Engine DB} `{UnicodeTables} (rows : nat) (t : content) (ch : Change) : content :=
  let op := ch_Op ch in
  if String.eqb op OpAddField then
    match ch_Field ch with
    | Some raw =>
        let f := normalized raw in
        match backfill_default f (ch_Default ch) with
        | Done (v, _) => t ++ [(f, replicate rows (store_as (DB := DB) (SQLType f) v))]
        | _ => t
        end
    | None => t
    end
  else if String.eqb op OpRenameField then redeclare (ch_From ch) (with_Name (ch_To ch)) t
  else if String.eqb op OpDropField then List.filter (λ c, negb (String.eqb (f_Name c.1) (ch_Name ch))) t
  else if String.eqb op OpSetFulltext then redeclare (ch_Name ch) (with_Fulltext (flag_value ch)) t
  else if String.eqb op OpSetVectorize then redeclare (ch_Name ch) (with_Vectorize (flag_value ch)) t
  else if String.eqb op OpSetEnum then
    let vals := default [] (ch_Enum ch) in
    redeclare (ch_Name ch) (with_Enum (if negb (length vals =? 0)%nat then Some vals else None)) t
  else if String.eqb op OpSetShape then redeclare (ch_Name ch) (with_Shape (default "" (ch_Shape ch))) t
  else if String.eqb op OpSetFileConstraints then
    redeclare (ch_Name ch) (λ f, match FileConstraintField f ch with Done next => next | _ => f end) t
  else t.
Definition rows_fit {DB} `{Engine DB} (fields : list Field) (db : DB) : Prop :=
  ∀ f id, f ∈ fields → id ∈ ids db → fits f (cell db id (f_Name f)) = true.

(** ** The table of the store, and the invariant *)

Definition owner_columns (sc : TableSchema) : list string := if t_HasOwner sc then [OwnerColumn] else [].

(** The columns of a table: those of every table, [base]; the one of owners;
    and one for each field. *)
Record laid_out {DB} `{Engine DB} (base : list string) (sc : TableSchema) (db : DB) : Prop := LaidOut {
  lo_columns : names db ≡ₚ base ++ owner_columns sc ++ map f_Name (t_Fields sc);
  lo_distinct : NoDup (base ++ owner_columns sc ++ map f_Name (t_Fields sc));
  lo_base : ∀ c, c ∈ base → c ∈ reserved;
  lo_lower : Forall (λ n, lower_name n = true) (names db);
  lo_named : "" ∉ map f_Name (t_Fields sc);
  lo_pinned : ∀ c, c ∈ pinned db → (c ∈ base ++ owner_columns sc) ∨
    ∃ r, t_Relation sc = Some r ∧ (c ∈ [r_Source r; r_Target r; r_Type r]) }.

Lemma laid_out_nodup {DB} `{Engine DB} base sc (db : DB) : laid_out base sc db → NoDup (map f_Name (t_Fields sc)).
Proof. intros []. by apply NoDup_app in lo_distinct0 as (_ & _ & (_ & _ & ?)%NoDup_app). Qed.
Lemma laid_out_ext {DB} `{Engine DB} base sc sc' (db : DB) :
  map f_Name (t_Fields sc') = map f_Name (t_Fields sc) → t_HasOwner sc' = t_HasOwner sc → t_Relation sc' = t_Relation sc →
  laid_out base sc db → laid_out base sc' db.
Proof. intros Hf Ho Hr []. split; unfold owner_columns in *; rewrite ?Hf, ?Ho, ?Hr; done. Qed.

Lemma lower_ident n : identRe n = true → lower_name n = true.
Proof.
  intros H%ident_bytes. unfold lower_name. induction n as [|c n IH]; [done|]. cbn in *.
  apply andb_true_iff in H as [Hc Hn]. rewrite IH by done. rewrite andb_true_r. apply negb_true_iff.
  unfold ident_byte, lower_letter, digit_byte, upper_byte, byte_in in *. apply not_true_iff_false. intros Hu.
  apply andb_true_iff in Hu as [H1%Z.leb_le H2%Z.leb_le]. apply orb_true_iff in Hc as [Hc|Hc].
  - apply orb_true_iff in Hc as [Hc|Hc]; apply andb_true_iff in Hc as [H3%Z.leb_le H4%Z.leb_le]; lia.
  - apply Ascii.eqb_eq in Hc as ->. cbn in H2. unfold byte_val in H2. cbn in H2. lia.
Qed.

Lemma valid_not_reserved n : ValidIdent n = true → (n ∉ reserved) ∧ n ≠ "" ∧ lower_name n = true.
Proof.
  unfold ValidIdent. intros [Hi Hm]%andb_true_iff. apply negb_true_iff, mem_false in Hm. unfold forbidden in Hm.
  rewrite !elem_of_app in Hm. split_and!; [tauto| |by apply lower_ident]. by intros ->.
Qed.

Section Data.
Context {DB : Type} {E : Engine DB} {L : EngineLaws DB} {UT : UnicodeTables}.
Context (faults : nat → bool) (polls : nat → polls) (naming : nat → nat → ctx) (final : oracle).
Context (tables : catalog) (db : DB) (scope : option RowScope) (base : list string).

(** Where the values of the field [f] come from. *)
Definition sourced (w : work) (dbk : DB) (f : Field) : Prop :=
  let n := f_Name f in
  (∃ p, w_phys w !! n = Some p ∧ p ≠ "" ∧ ∀ id, id ∈ ids db → cell dbk id n = cell db id p) ∨
  (w_phys w !! n = Some "" ∧ ∃ v, w_defaults w !! n = Some v ∧
    (∀ id, id ∈ ids db → cell dbk id n = store_as (SQLType f) v) ∧
    (is_null v = true ∨ is_null v = false ∧ kind (f_Type f) v = true ∧ f_Type f ≠ File ∧
       (∀ id, id ∈ ids db → f_Type f ≠ Number → cell dbk id n = v))).

Record inv (w : work) (dbk : DB) : Prop := Inv {
  inv_laid : laid_out base (w_cur w) dbk;
  inv_ran : run_steps (w_steps w) db = Some dbk;
  inv_ids : ids dbk = ids db;
  inv_sourced : ∀ f, f ∈ t_Fields (w_cur w) → sourced w dbk f }.

Lemma inv_ext w w' dbk : w_cur w' = w_cur w → w_phys w' = w_phys w → w_defaults w' = w_defaults w → w_steps w' = w_steps w →
  inv w dbk → inv w' dbk.
Proof. intros Hc Hp Hd Hs []. split; unfold sourced in *; by rewrite ?Hc, ?Hp, ?Hd, ?Hs. Qed.

Lemma sourced_keep w w' d d' f f' : sourced w d f → f_Type f' = f_Type f →
  w_phys w' !! f_Name f' = w_phys w !! f_Name f →
  (∀ v, w_defaults w !! f_Name f = Some v → w_defaults w' !! f_Name f' = Some v) →
  (∀ id, id ∈ ids db → cell d' id (f_Name f') = cell d id (f_Name f)) → sourced w' d' f'.
Proof.
  unfold sourced, SQLType, is_type. intros [(p & Hp & Hne & Hc)|(Hp & v & Hv & Hc & Hk)] -> -> Hdef Hcell; [left|right].
  - exists p. split_and!; [done|done|]. intros id Hid. by rewrite Hcell, Hc.
  - split; [done|]. exists v. split_and!; [by apply Hdef|intros id Hid; by rewrite Hcell, Hc|].
    destruct Hk as [|(? & ? & ? & Hk)]; [by left|right]. split_and!; [done|done|done|].
    intros id Hid Hnum. by rewrite Hcell, Hk.
Qed.
Lemma names_nodup w dbk : inv w dbk → NoDup (map f_Name (t_Fields (w_cur w))).
Proof. intros []. by eapply laid_out_nodup. Qed.

(** *** A field declared again under its name *)

Definition keeps_name (g : Field → Field) : Prop := ∀ f, f_Name (g f) = f_Name f ∧ f_Type (g f) = f_Type f.

Lemma table_redeclare n g fs (d : DB) : keeps_name g → table_of (on_named f_Name n g fs) d = redeclare n g (table_of fs d).
Proof.
  intros Hg. unfold table_of, redeclare, on_named. rewrite !map_map. apply map_ext. intros f. cbn.
  destruct (String.eqb (f_Name f) n); [|done]. by rewrite (proj1 (Hg f)).
Qed.

Lemma inv_redeclare w w' dbk j f n g : inv w dbk → keeps_name g → t_Fields (w_cur w) !! j = Some f → f_Name f = n →
  w_cur w' = with_fields (<[j := g f]> (t_Fields (w_cur w))) (w_cur w) →
  w_phys w' = w_phys w → w_defaults w' = w_defaults w → w_steps w' = w_steps w →
  inv w' dbk ∧ table_of (t_Fields (w_cur w')) dbk = redeclare n g (table_of (t_Fields (w_cur w)) dbk).
Proof.
  intros Hi Hg Hj Hn Hc Hp Hd Hs. pose proof (names_nodup _ _ Hi) as Hnd.
  rewrite (insert_named n g _ j f Hnd Hj Hn) in Hc. split.
  - destruct Hi. split; [|by rewrite Hs|done|].
    + apply (laid_out_ext base (w_cur w)); rewrite ?Hc; cbn; try done. by apply names_on_named; intros; apply Hg.
    + intros f'. rewrite Hc. cbn. unfold on_named. intros (f0 & -> & Hf0)%list_elem_of_fmap.
      specialize (inv_sourced0 f0 Hf0). destruct (String.eqb (f_Name f0) n).
      * unfold sourced, SQLType, is_type in *. destruct (Hg f0) as [-> ->]. by rewrite Hp, Hd.
      * unfold sourced in *. by rewrite Hp, Hd.
  - rewrite Hc. cbn. by apply table_redeclare.
Qed.

Lemma fit_redeclare fs n g (d : DB) : keeps_name g →
  (∀ f id, f ∈ fs → f_Name f = n → id ∈ ids d → fits f (cell d id n) = true → fits (g f) (cell d id n) = true) →
  rows_fit fs d → rows_fit (on_named f_Name n g fs) d.
Proof.
  intros Hg Hf Hfit f' id (f & -> & Hin)%list_elem_of_fmap Hid.
  destruct (String.eqb_spec (f_Name f) n) as [Hn|_]; [|by apply Hfit]. rewrite (proj1 (Hg f)), Hn.
  apply Hf; [done|done|done|]. rewrite <- Hn. by apply Hfit.
Qed.

(** *** Statements added to the list *)

Lemma run_more w dbk steps dbk' : inv w dbk → run_steps steps dbk = Some dbk' → run_steps (w_steps w ++ steps) db = Some dbk'.
Proof. intros [] H. by rewrite run_steps_app, inv_ran0. Qed.

Lemma exec_more st d : Forall (λ n, lower_name n = true) (names d) → Forall (λ n, lower_name n = true) (mentions st) → ready d st →
  ∃ d', exec st d = Some d' ∧ ids d' = ids d.
Proof.
  intros Hl Hm Hr. destruct (exec_runs st d) as [d' Hd']; [by apply Forall_app|done|].
  exists d'. split; [done|]. by eapply exec_ids.
Qed.

(** [add_field]: the column, then the values of the rows there are. *)
Lemma add_runs (d : DB) f (given : bool) dv ds :
  Forall (λ n, lower_name n = true) (names d) → lower_name (f_Name f) = true → f_Name f ∉ names d →
  (if given then is_null dv = false ∧ ds = (if f_Required f then dv else VNull) else dv = VNull ∧ ds = VNull) →
  (f_Required f = true → given = false → ids d = []) →
  ∃ d', run_steps (add_statements f given dv ds) d = Some d' ∧ names d' = names d ++ [f_Name f] ∧
    ids d' = ids d ∧ (∀ c, c ∈ pinned d' → c ∈ pinned d) ∧
    ∀ id n, id ∈ ids d → cell d' id n = (if String.eqb n (f_Name f) then store_as (SQLType f) dv else cell d id n).
Proof.
  intros Hl Hf Hn Hds Hreq. unfold add_statements.
  destruct (exec_more (AddColumn (f_Name f) (SQLType f) (f_Required f) ds) d) as (d1 & H1 & Hids1).
  { done. } { by constructor. }
  { split; [done|]. intros Hr Hnull. destruct given; [|by apply Hreq]. destruct Hds as [Hdv ->]. rewrite Hr in Hnull. congruence. }
  cbn [run_steps]. rewrite H1. pose proof (exec_names _ _ _ H1) as Hn1. cbn in Hn1.
  assert (∀ c, c ∈ pinned d1 → c ∈ pinned d) as Hp1 by (intros c Hc; by destruct (exec_pinned _ _ _ _ H1 Hc) as [|[]]).
  destruct (given && negb (f_Required f)) eqn:Hg; cbn [run_steps].
  - apply andb_true_iff in Hg as [-> Hr%negb_true_iff]. destruct Hds as [Hdv ->]. rewrite Hr in *.
    destruct (exec_more (UpdateAll (f_Name f) dv) d1) as (d2 & H2 & Hids2).
    { rewrite Hn1. apply Forall_app. split; [done|by constructor]. } { by constructor. }
    { split; [|done]. rewrite Hn1. apply elem_of_app. right. by left. }
    rewrite H2. exists d2. split_and!; [done|by rewrite (exec_names _ _ _ H2)|congruence| |].
    + intros c Hc. destruct (exec_pinned _ _ _ _ H2 Hc) as [|[]]; [by apply Hp1|done].
    + intros id n Hid. rewrite (exec_update _ _ _ _ _ _ H2) by (by rewrite Hids1).
      rewrite (exec_decl _ _ _ _ _ _ H1), (exec_add _ _ _ _ _ _ _ _ H1) by done. by destruct (String.eqb n (f_Name f)).
  - exists d1. split_and!; try done. intros id n Hid. rewrite (exec_add _ _ _ _ _ _ _ _ H1) by done.
    destruct given; [|by destruct Hds as [-> ->]]. destruct Hds as [Hdv ->].
    by apply negb_false_iff in Hg as ->.
Qed.

(** ** Each change, against its specification *)

(** From [w], whose statements lead to [dbk], the change [ch] leaves [w']. *)
Definition moves (w : work) (dbk : DB) (ch : Change) (w' : work) : Prop :=
  ∃ dbk', inv w' dbk' ∧
    table_of (t_Fields (w_cur w')) dbk' = spec_change (DB := DB) (length (ids db)) (table_of (t_Fields (w_cur w)) dbk) ch ∧
    (rows_fit (t_Fields (w_cur w)) dbk → rows_fit (t_Fields (w_cur w')) dbk').

Lemma normalized_name raw : f_Name (normalized raw) = f_Name raw.
Proof. unfold normalized. cbn. by destruct (String.eqb (f_Type raw) ""). Qed.

Lemma fresh_column w dbk n : inv w dbk → ValidIdent n = true → n ∉ map f_Name (t_Fields (w_cur w)) →
  (t_HasOwner (w_cur w) = true → n ≠ OwnerColumn) → n ∉ names dbk.
Proof.
  intros [[]] Hv Hn Ho. rewrite lo_columns0, !elem_of_app. apply valid_not_reserved in Hv as (Hr & _).
  intros [Hb|[Hc|Hf]]; [by apply lo_base0 in Hb | | done].
  unfold owner_columns in Hc. destruct (t_HasOwner (w_cur w)); [|by apply not_elem_of_nil in Hc].
  apply list_elem_of_singleton in Hc. by apply Ho.
Qed.

Lemma distinct_from n fs g : n ∉ map f_Name fs → g ∈ fs → f_Name g ≠ n.
Proof. intros Hn Hg <-. apply Hn, list_elem_of_fmap. by exists g. Qed.
Lemma laid_add sc d d' f : laid_out base sc d → ValidIdent (f_Name f) = true → f_Name f ∉ names d →
  names d' = names d ++ [f_Name f] → (∀ c, c ∈ pinned d' → c ∈ pinned d) →
  laid_out base (with_fields (t_Fields sc ++ [f]) sc) d'.
Proof.
  intros [] (_ & Hne & Hlow)%valid_not_reserved Hn Hnames Hpin.
  assert (map f_Name (t_Fields sc ++ [f]) = map f_Name (t_Fields sc) ++ [f_Name f]) as Hmap by apply map_app.
  split; cbn; unfold owner_columns; cbn; rewrite ?Hmap.
  - by rewrite Hnames, lo_columns0, !app_assoc.
  - rewrite !app_assoc. apply NoDup_app. rewrite <- app_assoc. split_and!; [done| |apply NoDup_singleton].
    intros x Hx ->%list_elem_of_singleton. apply Hn. by rewrite lo_columns0.
  - done.
  - rewrite Hnames. apply Forall_app. split; [done|by constructor].
  - rewrite elem_of_app, list_elem_of_singleton. intros [?|?]; [done|congruence].
  - intros c Hc. by apply lo_pinned0, Hpin.
Qed.

Lemma add_moves i ch w u w' dbk : inv w dbk → (t_HasOwner (w_cur w) = true → owner_target ch = false) →
  ch_Op ch = OpAddField → add_field faults db scope i ch w = (Done u, w') → moves w dbk ch w'.
Proof.
  intros Hi Hown Hop (raw & dv & ds & Hraw & Hv & Hfresh & _ & Hdef & Hty & Hreq & n & k & ->)%add_field_Done.
  set (f := normalized raw) in *. unfold moves, spec_change. rewrite Hop, Hraw. cbn [String.eqb]. fold f. rewrite Hdef.
  assert (f_Name f ∉ names dbk) as Hnew.
  { apply (fresh_column w); [done|done|done|]. intros Ho Heq. specialize (Hown Ho).
    unfold owner_target in Hown. rewrite Hraw, existsb_app in Hown. apply orb_false_iff in Hown as [_ Hown].
    cbn in Hown. rewrite orb_false_r in Hown. unfold f in Heq. rewrite normalized_name in Heq. rewrite Heq in Hown. done. }
  pose proof (backfill_default_spec f _ dv ds Hdef Hty) as Hspec. destruct (valid_not_reserved _ Hv) as (_ & Hne & Hlow).
  destruct (add_runs dbk f (negb (is_nil (ch_Default ch))) dv ds) as (d' & Hrun & Hnames & Hids & Hpin & Hcell).
  { by destruct Hi as [[]]. } { done. } { done. }
  { destruct (is_nil (ch_Default ch)); cbn; [done|]. by destruct Hspec as (? & _ & _ & ?). }
  { intros Hr Hg%negb_false_iff%is_nil_true. destruct Hi. rewrite inv_ids0. by apply Hreq. }
  pose proof Hi as [Hlaid _ Hidk Hsrc]. rewrite Hidk in Hids, Hcell.
  assert (∀ id, id ∈ ids db → cell d' id (f_Name f) = store_as (SQLType f) dv) as Hnewcell
    by (intros id Hid; by rewrite Hcell, String.eqb_refl).
  assert (∀ id g, id ∈ ids db → g ∈ t_Fields (w_cur w) → cell d' id (f_Name g) = cell dbk id (f_Name g)) as Hold.
  { intros id g Hid Hg. rewrite Hcell by done. by rewrite (proj2 (String.eqb_neq _ _) (distinct_from _ _ _ Hfresh Hg)). }
  assert (is_null dv = true ∨ is_null dv = false ∧ kind (f_Type f) dv = true ∧ f_Type f ≠ File ∧ fits_declaration f dv = true) as Hdv.
  { destruct (is_nil (ch_Default ch)) eqn:Hnil; [left; by destruct Hspec as [-> _]|right].
    destruct Hspec as (? & ? & ? & _). split_and!; [done|done| |done]. apply Hty. by apply is_nil_false. }
  exists d'. split_and!; cbn.
  - split; cbn.
    + by apply (laid_add _ dbk).
    + by eapply run_more.
    + done.
    + intros g [Hg| ->%list_elem_of_singleton]%elem_of_app.
      * pose proof (distinct_from _ _ _ Hfresh Hg) as Hd. apply (sourced_keep w _ dbk _ g); [by apply Hsrc|done| | |].
        -- cbn. by rewrite lookup_insert_ne.
        -- cbn. intros v. by rewrite lookup_insert_ne.
        -- intros id Hid. by apply Hold.
      * right. cbn. split; [by rewrite lookup_insert_eq|]. exists dv. split_and!; [by rewrite lookup_insert_eq|done|].
        destruct Hdv as [|(? & ? & ? & ?)]; [by left|right]. split_and!; [done|done|done|]. intros id Hid Hnum.
        rewrite Hnewcell by done. by apply store_kind.
  - unfold table_of. rewrite map_app. rewrite Hids, Hidk. f_equal.
    + apply map_ext_in. intros g Hg%list_elem_of_In. f_equal. apply map_ext_in. intros id Hid%list_elem_of_In.
      by apply Hold.
    + cbn. do 2 f_equal. clear - Hnewcell. induction (ids db) as [|id l IH]; [done|]. cbn.
      rewrite Hnewcell by left. f_equal. apply IH. intros id' Hid'. apply Hnewcell. by right.
  - intros Hfit g id Hg Hid. rewrite Hids in Hid. apply elem_of_app in Hg as [Hg| ->%list_elem_of_singleton].
    + rewrite (Hold id g Hid Hg). apply Hfit; [done|by rewrite Hidk].
    + rewrite Hnewcell by done. destruct Hdv as [Hnull|(? & ? & ? & ?)]; [|by apply store_kind].
      destruct dv; try done. rewrite store_null. cbn. apply negb_true_iff. destruct (f_Required f) eqn:Hr; [|done].
      destruct (is_nil (ch_Default ch)) eqn:Hnil; [|by destruct Hspec].
      apply is_nil_true in Hnil. rewrite (Hreq eq_refl Hnil) in Hid. by apply not_elem_of_nil in Hid.
Qed.

(** *** rename_field *)

Lemma field_column w dbk f : inv w dbk → f ∈ t_Fields (w_cur w) →
  (f_Name f ∈ names dbk) ∧ (f_Name f ∉ base ++ owner_columns (w_cur w)).
Proof.
  intros [[]] Hf. assert (f_Name f ∈ map f_Name (t_Fields (w_cur w))) as Hin by (apply list_elem_of_fmap; by exists f).
  split; [rewrite lo_columns0, !elem_of_app; tauto|]. rewrite app_assoc in lo_distinct0.
  apply NoDup_app in lo_distinct0 as (_ & Hd & _). intros Hx. by apply (Hd _ Hx).
Qed.
Lemma unpinned w dbk f : inv w dbk → f ∈ t_Fields (w_cur w) →
  (∀ r, t_Relation (w_cur w) = Some r → f_Name f ∉ [r_Source r; r_Target r; r_Type r]) → f_Name f ∉ pinned dbk.
Proof.
  intros Hi Hf Hr Hp. pose proof (field_column _ _ _ Hi Hf) as [_ Hb]. destruct Hi as [[]].
  destruct (lo_pinned0 _ Hp) as [?|(r & Heq & Hin)]; [done|]. by apply (Hr r Heq).
Qed.

Lemma renamed_other from to l : from ∉ l → map (renamed from to) l = l.
Proof.
  induction l as [|x l IH]; [done|]. cbn. intros [Hne Hl]%not_elem_of_cons. unfold renamed at 1.
  rewrite (proj2 (String.eqb_neq x from)) by congruence. by rewrite IH.
Qed.
Lemma renamed_nodup from to l : NoDup l → to = from ∨ to ∉ l → NoDup (map (renamed from to) l).
Proof.
  intros Hl Ht. apply (NoDup_fmap_2_strong (renamed from to)); [|done]. intros x y Hx Hy. unfold renamed.
  destruct (String.eqb_spec x from), (String.eqb_spec y from); intros Heq; subst; try done.
  - destruct Ht as [->|Ht]; [done|]. by destruct Ht.
  - destruct Ht as [->|Ht]; [done|]. by destruct Ht.
Qed.

Lemma laid_rename sc d d' from to : laid_out base sc d → from ∉ base ++ owner_columns sc → ValidIdent to = true →
  to = from ∨ to ∉ names d → names d' = map (renamed from to) (names d) → (∀ c, c ∈ pinned d' → c ∈ pinned d) →
  laid_out base (with_fields (on_named f_Name from (with_Name to) (t_Fields sc)) sc) d'.
Proof.
  intros [] Hf (_ & Hne & Hlow)%valid_not_reserved Hto Hnames Hpin. rewrite elem_of_app in Hf.
  assert (∀ l, base ++ owner_columns sc ++ map (renamed from to) l = map (renamed from to) (base ++ owner_columns sc ++ l)) as Hmap.
  { intros l. by rewrite !map_app, (renamed_other _ _ base), (renamed_other _ _ (owner_columns sc)) by tauto. }
  split; cbn; unfold owner_columns in *; cbn; rewrite ?names_rename, ?Hmap.
  - by rewrite Hnames, lo_columns0.
  - apply renamed_nodup; [done|]. by rewrite <- lo_columns0.
  - done.
  - rewrite Hnames. apply Forall_map. eapply Forall_impl; [exact lo_lower0|]. intros x Hx. unfold renamed. by destruct (String.eqb x from).
  - intros (x & Hx & Hin)%list_elem_of_fmap. unfold renamed in Hx. case_match; [done|]. by subst x.
  - intros c Hc. by apply lo_pinned0, Hpin.
Qed.

Lemma rename_maps_other from to w n : n ≠ from → n ≠ to →
  w_phys (rename_maps from to w) !! n = w_phys w !! n ∧ w_defaults (rename_maps from to w) !! n = w_defaults w !! n.
Proof.
  intros Hf Ht. unfold rename_maps. cbn. rewrite lookup_delete_ne, lookup_insert_ne by done. split; [done|].
  destruct (w_defaults w !! from); [by rewrite lookup_delete_ne, lookup_insert_ne|done].
Qed.
Lemma rename_maps_same from to w : to ≠ from → is_Some (w_phys w !! from) →
  w_phys (rename_maps from to w) !! to = w_phys w !! from ∧
  (∀ v, w_defaults w !! from = Some v → w_defaults (rename_maps from to w) !! to = Some v).
Proof.
  intros Hne [p Hp]. unfold rename_maps, phys_of. cbn. rewrite lookup_delete_ne, lookup_insert_eq, Hp by done. split; [done|].
  intros v ->. by rewrite lookup_delete_ne, lookup_insert_eq.
Qed.
Lemma sourced_phys w d f : sourced w d f → is_Some (w_phys w !! f_Name f).
Proof. intros [(p & -> & _)|(-> & _)]; eauto. Qed.

(** The field that carried the old name, and the others. *)
Lemma sourced_rename w d d' from to f : sourced w d f → (to = from ∨ f_Name f ≠ to) →
  (∀ id n, id ∈ ids db → n = to ∨ n ≠ from → cell d' id n = (if String.eqb n to then cell d id from else cell d id n)) →
  let w' := if String.eqb to from then w else rename_maps from to w in
  sourced w' d' (if String.eqb (f_Name f) from then with_Name to f else f).
Proof.
  intros Hs Hto Hcell. cbn zeta. destruct (String.eqb_spec (f_Name f) from) as [Hn|Hn].
  - apply (sourced_keep w _ d _ f); [done|done| | |]; cbn.
    + destruct (String.eqb_spec to from) as [->|Hne]; [by rewrite Hn|]. rewrite Hn. apply rename_maps_same; [done|].
      rewrite <- Hn. by eapply sourced_phys.
    + intros v. destruct (String.eqb_spec to from) as [->|Hne]; [by rewrite Hn|]. rewrite Hn. apply rename_maps_same; [done|].
      rewrite <- Hn. by eapply sourced_phys.
    + intros id Hid. rewrite Hcell by auto. by rewrite String.eqb_refl, Hn.
  - assert (f_Name f ≠ to) as Hnt by (destruct Hto as [->|]; done).
    apply (sourced_keep w _ d _ f); [done|done| | |].
    + destruct (String.eqb to from); [done|]. by apply rename_maps_other.
    + intros v Hv. destruct (String.eqb to from); [done|]. by rewrite (proj2 (rename_maps_other _ _ _ _ Hn Hnt)).
    + intros id Hid. rewrite Hcell by auto. by rewrite (proj2 (String.eqb_neq _ _) Hnt).
Qed.

Lemma fits_name n f v : fits (with_Name n f) v = fits f v.
Proof. done. Qed.

Lemma table_rename from to fs d d' : ids d' = ids d → (∀ f, f ∈ fs → f_Name f = to → to = from) →
  (∀ id n, id ∈ ids d → n = to ∨ n ≠ from → cell d' id n = (if String.eqb n to then cell d id from else cell d id n)) →
  table_of (on_named f_Name from (with_Name to) fs) d' = redeclare from (with_Name to) (table_of fs d).
Proof.
  intros Hids Hto Hcell. unfold table_of, redeclare, on_named. rewrite !map_map, Hids. apply map_ext_in. intros f Hf%list_elem_of_In. cbn.
  destruct (String.eqb_spec (f_Name f) from) as [Hn|Hn]; f_equal; apply map_ext_in; intros id Hid%list_elem_of_In; rewrite Hcell by auto.
  - cbn. by rewrite String.eqb_refl, Hn.
  - destruct (String.eqb_spec (f_Name f) to) as [Heq|_]; [|done]. destruct Hn. rewrite Heq. by eapply Hto.
Qed.

Lemma rename_work_parts j f from to w : let w' := rename_work j f from to w in
  let w1 := if String.eqb to from then w else rename_maps from to w in
  w_cur w' = with_fields (<[j := with_Name to f]> (t_Fields (w_cur w))) (w_cur w) ∧
  w_phys w' = w_phys w1 ∧ w_defaults w' = w_defaults w1 ∧ w_steps w' = w_steps w ++ [RenameColumn from to].
Proof. unfold rename_work. by destruct (String.eqb to from). Qed.

Lemma rename_moves i ch w u w' dbk : inv w dbk → (t_HasOwner (w_cur w) = true → owner_target ch = false) →
  ch_Op ch = OpRenameField → rename_field naming i ch w = (Done u, w') → moves w dbk ch w'.
Proof.
  intros Hi Hown Hop (j & f & Hj & Hn & Hv & _ & Hrel & Hto & ->)%rename_field_Done.
  pose proof (list_elem_of_lookup_2 _ _ _ Hj) as Hf. pose proof (names_nodup _ _ Hi) as Hnd.
  destruct (field_column _ _ _ Hi Hf) as [Hcol Hbase]. rewrite Hn in Hcol, Hbase.
  assert (ch_To ch = ch_From ch ∨ (ch_To ch ∉ names dbk)) as Hfresh.
  { destruct Hto as [|Hto]; [by left|right]. apply (fresh_column w); [done|done|done|]. intros Ho Heq. specialize (Hown Ho).
    unfold owner_target in Hown. cbn in Hown. rewrite Heq in Hown. by rewrite orb_true_r in Hown. }
  destruct (exec_more (RenameColumn (ch_From ch) (ch_To ch)) dbk) as (d' & Hex & Hids).
  { by destruct Hi as [[]]. }
  { constructor; [|constructor; [by apply valid_not_reserved|constructor]].
    destruct Hi as [[]]. rewrite Forall_forall in lo_lower0. by apply lo_lower0. }
  { split_and!; [done| |done]. rewrite <- Hn. apply (unpinned w); [done|done|]. by rewrite Hn. }
  assert (∀ id n, id ∈ ids dbk → n = ch_To ch ∨ n ≠ ch_From ch →
    cell d' id n = (if String.eqb n (ch_To ch) then cell dbk id (ch_From ch) else cell dbk id n)) as Hcell
    by (intros; by apply exec_rename).
  assert (∀ g, g ∈ t_Fields (w_cur w) → ch_To ch = ch_From ch ∨ f_Name g ≠ ch_To ch) as Hother.
  { intros g Hg. destruct Hto as [|Hto]; [by left|right]. by apply (distinct_from _ _ _ Hto). }
  pose proof Hi as [Hlaid _ Hidk Hsrc]. unfold moves, spec_change. rewrite Hop. cbn [String.eqb].
  destruct (rename_work_parts j f (ch_From ch) (ch_To ch) w) as (Hc & Hp & Hd & Hst).
  rewrite (insert_named (ch_From ch) (with_Name (ch_To ch)) _ j f Hnd Hj Hn) in Hc. rewrite Hc.
  exists d'. split_and!.
  - split; [|by rewrite Hst; eapply run_more; [|cbn; rewrite Hex]|congruence|].
    + rewrite Hc. apply (laid_rename _ dbk); try done; [by rewrite (exec_names _ _ _ Hex)|].
      intros c Hcp. by destruct (exec_pinned _ _ _ _ Hex Hcp) as [|[]].
    + rewrite Hc. cbn. intros g (g0 & -> & Hg)%list_elem_of_fmap.
      pose proof (sourced_rename w dbk d' (ch_From ch) (ch_To ch) g0 (Hsrc g0 Hg) (Hother g0 Hg)) as Hs.
      cbn zeta in Hs. unfold sourced in *. rewrite Hp, Hd. apply Hs. intros id n Hid. rewrite <- Hidk in Hid. by apply Hcell.
  - apply table_rename; [done| |done]. intros g Hg Heq. destruct (Hother g Hg); [done|congruence].
  - intros Hfit g id Hg Hid. cbn in Hg. apply list_elem_of_fmap in Hg as (g0 & -> & Hg). rewrite Hids in Hid.
    destruct (String.eqb_spec (f_Name g0) (ch_From ch)) as [Heq|Hne]; rewrite ?fits_name; cbn [with_Name f_Name]; rewrite Hcell by auto.
    + rewrite String.eqb_refl, <- Heq. by apply Hfit.
    + destruct (Hother g0 Hg) as [Heq|Hne']; [rewrite Heq|]; rewrite (proj2 (String.eqb_neq _ _)) by done; by apply Hfit.
Qed.

(** *** drop_field *)

Lemma elem_filter {A} (p : A → bool) l x : x ∈ List.filter p l ↔ x ∈ l ∧ p x = true.
Proof. by rewrite !list_elem_of_In, filter_In. Qed.
Lemma list_filter_perm {A} (p : A → bool) l l' : l ≡ₚ l' → List.filter p l ≡ₚ List.filter p l'.
Proof.
  induction 1 as [|x l l' _ IH|x y l|l l2 l3 _ IH1 _ IH2]; [done| | |by etransitivity]; cbn.
  - destruct (p x); [by constructor|done].
  - destruct (p x), (p y); try done. constructor.
Qed.
Lemma list_filter_nodup {A} (p : A → bool) (l : list A) : NoDup l → NoDup (List.filter p l).
Proof.
  induction 1 as [|x l Hx _ IH]; cbn; [constructor|]. destruct (p x); [|done]. constructor; [|done].
  by intros [? _]%elem_filter.
Qed.
Lemma laid_drop sc d d' n : laid_out base sc d → n ∉ base ++ owner_columns sc →
  names d' = List.filter (λ c, negb (String.eqb c n)) (names d) → (∀ c, c ∈ pinned d' → c ∈ pinned d) →
  laid_out base (with_fields (List.filter (λ f, negb (String.eqb (f_Name f) n)) (t_Fields sc)) sc) d'.
Proof.
  intros [] Hn Hnames Hpin. rewrite elem_of_app in Hn.
  assert (∀ l, n ∉ l → List.filter (λ c, negb (String.eqb c n)) l = l) as Hkeep.
  { induction l as [|x l IH]; [done|]. cbn. intros [Hne Hl]%not_elem_of_cons.
    rewrite (proj2 (String.eqb_neq x n)) by congruence. cbn. by rewrite IH. }
  assert (∀ l, base ++ owner_columns sc ++ List.filter (λ c, negb (String.eqb c n)) l =
    List.filter (λ c, negb (String.eqb c n)) (base ++ owner_columns sc ++ l)) as Hf.
  { intros l. by rewrite !List.filter_app, (Hkeep base), (Hkeep (owner_columns sc)) by tauto. }
  split; cbn; unfold owner_columns in *; cbn; rewrite ?names_filter, ?Hf.
  - rewrite Hnames. by apply list_filter_perm.
  - by apply list_filter_nodup.
  - done.
  - rewrite Hnames. apply Forall_forall. intros x [Hx _]%elem_filter. rewrite Forall_forall in lo_lower0. by apply lo_lower0.
  - by intros [? _]%elem_filter.
  - intros c Hc. by apply lo_pinned0, Hpin.
Qed.

Lemma drop_moves i ch w u w' dbk : inv w dbk → ch_Op ch = OpDropField →
  drop_field naming i ch w = (Done u, w') → moves w dbk ch w'.
Proof.
  intros Hi Hop (j & f & Hj & Hn & _ & Hrel & ->)%drop_field_Done.
  pose proof (list_elem_of_lookup_2 _ _ _ Hj) as Hf. pose proof (names_nodup _ _ Hi) as Hnd.
  destruct (field_column _ _ _ Hi Hf) as [Hcol Hbase]. rewrite Hn in Hcol, Hbase.
  destruct (exec_more (DropColumn (ch_Name ch)) dbk) as (d' & Hex & Hids).
  { by destruct Hi as [[]]. }
  { constructor; [|constructor]. destruct Hi as [[]]. rewrite Forall_forall in lo_lower0. by apply lo_lower0. }
  { split; [done|]. rewrite <- Hn. apply (unpinned w); [done|done|]. by rewrite Hn. }
  pose proof Hi as [Hlaid _ Hidk Hsrc]. unfold moves, spec_change. rewrite Hop. cbn [String.eqb].
  assert (∀ g, g ∈ List.filter (λ f, negb (String.eqb (f_Name f) (ch_Name ch))) (t_Fields (w_cur w)) →
    g ∈ t_Fields (w_cur w) ∧ f_Name g ≠ ch_Name ch ∧ ∀ id, id ∈ ids dbk → cell d' id (f_Name g) = cell dbk id (f_Name g)) as Hkept.
  { intros g [Hg Hne%negb_true_iff%String.eqb_neq]%elem_filter.
    split_and!; [done|done|]. intros id Hid. by eapply exec_drop. }
  unfold drop_work. cbn. rewrite (delete_named (ch_Name ch) _ j f Hnd Hj Hn).
  exists d'. split_and!.
  - split; cbn; [| |congruence|].
    + apply (laid_drop _ dbk); [done|done|by rewrite (exec_names _ _ _ Hex)|].
      intros c Hcp. by destruct (exec_pinned _ _ _ _ Hex Hcp) as [|[]].
    + eapply run_more; [done|]. cbn. by rewrite Hex.
    + intros g Hg. destruct (Hkept g Hg) as (Hin & Hne & Hcell). apply (sourced_keep w _ dbk _ g); [by apply Hsrc|done| | |]; cbn.
      * by rewrite lookup_delete_ne.
      * intros v. by rewrite lookup_delete_ne.
      * intros id Hid. apply Hcell. by rewrite Hidk.
  - transitivity (map (λ f, (f, map (λ id, cell dbk id (f_Name f)) (ids dbk)))
      (List.filter (λ f, negb (String.eqb (f_Name f) (ch_Name ch))) (t_Fields (w_cur w)))).
    + unfold table_of. rewrite Hids. apply map_ext_in. intros g Hg%list_elem_of_In. f_equal. apply map_ext_in.
      intros id Hid%list_elem_of_In. by apply Hkept.
    + unfold table_of. clear. induction (t_Fields (w_cur w)) as [|g l IH]; [done|]. cbn.
      destruct (String.eqb (f_Name g) (ch_Name ch)); cbn; by rewrite IH.
  - intros Hfit g id Hg Hid. cbn in Hg. destruct (Hkept g Hg) as (Hin & _ & Hcell). rewrite Hids in Hid. rewrite Hcell by done. by apply Hfit.
Qed.

(** *** The changes that declare a field again *)

Lemma unique_name fs j f g : NoDup (map f_Name fs) → fs !! j = Some f → g ∈ fs → f_Name g = f_Name f → g = f.
Proof.
  intros Hnd Hj [k Hk]%list_elem_of_lookup Hn.
  assert (j = k) as ->; [|congruence]. eapply NoDup_lookup; [exact Hnd| |]; rewrite list_lookup_fmap.
  - by rewrite Hj.
  - rewrite Hk. cbn. by rewrite Hn.
Qed.

Lemma redeclare_moves w w' dbk ch j f n g : inv w dbk → keeps_name g → t_Fields (w_cur w) !! j = Some f → f_Name f = n →
  w_cur w' = with_fields (<[j := g f]> (t_Fields (w_cur w))) (w_cur w) →
  w_phys w' = w_phys w → w_defaults w' = w_defaults w → w_steps w' = w_steps w →
  (∀ rows t, spec_change (DB := DB) rows t ch = redeclare n g t) →
  (∀ id, id ∈ ids db → fits f (cell dbk id n) = true → fits (g f) (cell dbk id n) = true) →
  moves w dbk ch w'.
Proof.
  intros Hi Hg Hj Hn Hc Hp Hd Hs Hspec Hfit. pose proof (names_nodup _ _ Hi) as Hnd.
  destruct (inv_redeclare w w' dbk j f n g Hi Hg Hj Hn Hc Hp Hd Hs) as [Hi' Ht].
  exists dbk. split_and!; [done|by rewrite Hspec|]. rewrite Hc, (insert_named n g _ j f Hnd Hj Hn). cbn.
  apply (fit_redeclare _ _ _ _ Hg). intros f' id Hf' Hn' Hid. rewrite <- Hn in Hn'.
  rewrite (unique_name _ _ _ _ Hnd Hj Hf' Hn'). apply Hfit. by rewrite <- (inv_ids _ _ Hi).
Qed.

(** What is known of the cells of a field before it is declared again: the
    stored rows were checked, or the backfill was. *)
Lemma checked_cells w dbk f (ok : sqlval → Prop) id : inv w dbk → f ∈ t_Fields (w_cur w) → id ∈ ids db → f_Type f ≠ Number →
  stored_ok db ok (phys_of w (f_Name f)) →
  (is_null (default_of w (f_Name f)) = false → kind (f_Type f) (default_of w (f_Name f)) = true → f_Type f ≠ File →
    ok (default_of w (f_Name f))) →
  is_null (cell dbk id (f_Name f)) = true ∨ ok (cell dbk id (f_Name f)).
Proof.
  intros Hi Hf Hid Hnum Hst Hdef. destruct (inv_sourced _ _ Hi f Hf) as [(p & Hp & Hne & Hc)|(Hp & v & Hv & Hc & Hk)].
  - right. rewrite Hc by done. unfold phys_of in Hst. rewrite Hp in Hst. by apply Hst.
  - unfold default_of in Hdef. rewrite Hv in Hdef. cbn in Hdef. destruct Hk as [Hnull|(Hnull & Hkind & Hfi & Hcell)].
    + left. rewrite Hc by done. destruct v; try done. by rewrite store_null.
    + right. rewrite Hcell by done. by apply Hdef.
Qed.

Lemma fits_enum f e v : f_Type f = TString → fits f v = true →
  (is_null v = true ∨ ∀ s, v = VText s → EnumAllows (default [] e) s = true) → fits (with_Enum e f) v = true.
Proof.
  intros Ht. unfold fits. destruct (is_null v) eqn:Hn; [done|]. unfold fits_declaration, is_type, kind. cbn [with_Enum f_Type f_Enum]. rewrite Ht.
  cbn. intros Hf [|He]; [done|]. destruct v; try done. cbn in *. by rewrite (He s eq_refl).
Qed.
Lemma fits_shape f shape v : f_Type f = JSON → fits f v = true →
  (is_null v = true ∨ ShapeFits shape v = true) → fits (with_Shape shape f) v = true.
Proof.
  intros Ht. unfold fits. destruct (is_null v) eqn:Hn; [done|]. unfold fits_declaration, is_type, kind. cbn [with_Shape f_Type f_Shape]. rewrite Ht.
  cbn. intros Hf [|He]; [done|]. destruct v; try done. cbn in *. by rewrite He.
Qed.
Lemma fits_files f max types v : f_Type f = File → fits f v = true →
  (is_null v = true ∨ files_ok (with_Files max types f) v) → fits (with_Files max types f) v = true.
Proof.
  intros Ht. unfold fits, files_ok. destruct (is_null v) eqn:Hn; [done|]. unfold fits_declaration, is_type, kind.
  cbn [with_Files f_Type f_Shape f_Dim f_Enum]. rewrite Ht. cbn [String.eqb]. intros Hf [|[|(size & Hs & Hb)]]; [done|done|].
  rewrite Hs in *. rewrite Hb. apply andb_true_iff in Hf as [-> _]. done.
Qed.

Lemma stored_string_fits w dbk ch j f vals : inv w dbk → t_Fields (w_cur w) !! j = Some f → f_Name f = ch_Name ch → f_Type f = TString →
  (vals ≠ [] → stored_ok db (enum_ok vals) (phys_of w (f_Name f))) → enum_defaults f vals (default_of w (f_Name f)) = Done () →
  ∀ id, id ∈ ids db → is_null (cell dbk id (ch_Name ch)) = true ∨
    ∀ s, cell dbk id (ch_Name ch) = VText s → EnumAllows vals s = true.
Proof.
  intros Hi Hj Hn Ht Hst Hdef id Hid. destruct vals as [|v0 vals0]; [by right|]. rewrite <- Hn.
  destruct (checked_cells w dbk f (enum_ok (v0 :: vals0)) id) as [Hnull|[Hnull|(s & Hs & Ha)]]; try by left.
  - done.
  - by eapply list_elem_of_lookup_2.
  - done.
  - by rewrite Ht.
  - by apply Hst.
  - intros Hnull Hk _. right. rewrite Ht in Hk. unfold enum_defaults in Hdef. plan_inv Hdef.
    destruct (default_of w (f_Name f)); try done. exists s. split; [done|]. apply refuse_Done, negb_false_iff in Hdef. done.
  - right. intros s'. rewrite Hs. by intros [= <-].
Qed.

Lemma set_enum_moves ch w u w' dbk : inv w dbk → ch_Op ch = OpSetEnum →
  set_enum faults db scope ch w = (Done u, w') → moves w dbk ch w'.
Proof.
  intros Hi Hop (j & f & k & Hj & Hn & Ht & Hst & Hdef & ->)%set_enum_Done.
  set (vals := default [] (ch_Enum ch)) in *. set (e := if negb (length vals =? 0)%nat then Some vals else None) in *.
  apply (redeclare_moves _ _ _ _ j f (ch_Name ch) (with_Enum e)); try done.
  - intros rows t. unfold spec_change. by rewrite Hop.
  - intros id Hid Hfit. apply fits_enum; [done|done|].
    assert (default [] e = vals) as -> by (unfold e; by destruct vals).
    eapply stored_string_fits; try done. intros Hne. apply Hst. by destruct vals.
Qed.

Lemma set_shape_moves ch w u w' dbk : inv w dbk → ch_Op ch = OpSetShape →
  set_shape faults db scope ch w = (Done u, w') → moves w dbk ch w'.
Proof.
  intros Hi Hop (j & f & k & Hj & Hn & Ht & Hst & ->)%set_shape_Done.
  set (shape := default "" (ch_Shape ch)) in *.
  apply (redeclare_moves _ _ _ _ j f (ch_Name ch) (with_Shape shape)); try done.
  - intros rows t. unfold spec_change. by rewrite Hop.
  - intros id Hid Hfit. apply fits_shape; [done|done|].
    destruct (decide (shape = "")) as [Hs|Hs].
    { destruct (is_null (cell dbk id (ch_Name ch))) eqn:Hnull; [by left|right]. unfold fits in Hfit. rewrite Hnull in Hfit.
      apply andb_true_iff in Hfit as [Hk _]. unfold kind in Hk. rewrite Ht in Hk. rewrite Hs. by destruct (cell dbk id (ch_Name ch)). }
    destruct (Hst Hs) as (_ & Hrow & Hdef). rewrite <- Hn.
    destruct (checked_cells w dbk f (shape_ok shape) id) as [?|[?|?]]; try done; try by left; try by right.
    + by eapply list_elem_of_lookup_2.
    + by rewrite Ht.
    + intros Hnull Hk _. right. rewrite Ht in Hk. unfold ShapeDefaults in Hdef. rewrite (proj2 (String.eqb_neq _ _) Hs) in Hdef.
      plan_inv Hdef. destruct (default_of w (f_Name f)); try done. cbn. apply bool_decide_eq_false in Hdef.
      apply bool_decide_eq_true. by apply eq_None_not_Some.
    + by right.
Qed.

Lemma set_file_constraints_moves ch w u w' dbk : inv w dbk → ch_Op ch = OpSetFileConstraints →
  set_file_constraints faults db scope ch w = (Done u, w') → moves w dbk ch w'.
Proof.
  intros Hi Hop (j & f & next & k & Hj & Hn & Hnext & Hst & ->)%set_file_constraints_Done.
  pose proof Hnext as (Ht & max & types & -> & _)%FileConstraintField_Done.
  apply (redeclare_moves _ _ _ _ j f (ch_Name ch) (λ f, match FileConstraintField f ch with Done next => next | _ => f end)); try done.
  - intros g. destruct (FileConstraintField g ch) as [g'| |] eqn:Hg; try done.
    by apply FileConstraintField_Done in Hg as (_ & max' & types' & -> & _).
  - cbn. by rewrite Hnext.
  - intros rows t. unfold spec_change. by rewrite Hop.
  - intros id Hid Hfit. rewrite Hnext. apply fits_files; [done|done|]. rewrite <- Hn.
    apply (checked_cells w dbk f (files_ok (with_Files max types f)) id); try done.
    + by eapply list_elem_of_lookup_2.
    + by rewrite Ht.
Qed.

(** *** The changes that leave the fields *)

Lemma inv_kept w dbk o t k steps d' : inv w dbk → same_fields (w_cur w) t → run_steps steps dbk = Some d' →
  laid_out base t d' → ids d' = ids dbk → (∀ f id, f ∈ t_Fields t → id ∈ ids db → cell d' id (f_Name f) = cell dbk id (f_Name f)) →
  inv (at_calls k (say o (set_cur t (add_steps steps w)))) d'.
Proof.
  intros Hi (Hf & _) Hrun Hl Hids Hcell. split; cbn; [done|by eapply run_more| |].
  - rewrite Hids. apply Hi.
  - intros f Hin. apply (sourced_keep w _ dbk _ f); try done.
    + apply Hi. by rewrite <- Hf.
    + intros id Hid. by apply Hcell.
Qed.

Lemma same_moves w dbk o t k steps d' ch : inv w dbk → same_fields (w_cur w) t → run_steps steps dbk = Some d' →
  laid_out base t d' → ids d' = ids dbk → (∀ f id, f ∈ t_Fields t → id ∈ ids db → cell d' id (f_Name f) = cell dbk id (f_Name f)) →
  (∀ rows c, spec_change (DB := DB) rows c ch = c) → moves w dbk ch (at_calls k (say o (set_cur t (add_steps steps w)))).
Proof.
  intros Hi Hs Hrun Hl Hids Hcell Hspec. exists d'. pose proof Hs as (Hf & _). pose proof (inv_ids _ _ Hi) as Hidk.
  rewrite Hf in Hcell. split_and!; [by apply (inv_kept _ dbk); rewrite ?Hf| |].
  - rewrite Hspec. cbn. rewrite Hf. unfold table_of. rewrite Hids. apply map_ext_in. intros f Hin%list_elem_of_In. f_equal.
    apply map_ext_in. intros id Hid%list_elem_of_In. apply Hcell; [done|by rewrite <- Hidk].
  - cbn. rewrite Hf. intros Hfit f id Hin Hid. rewrite Hids in Hid. rewrite Hcell; [by apply Hfit|done|by rewrite <- Hidk].
Qed.

Lemma add_steps_nil w : add_steps [] w = w.
Proof. unfold add_steps. rewrite app_nil_r. by destruct w. Qed.

Lemma quiet_moves w dbk o t k ch : inv w dbk → same_fields (w_cur w) t → t_HasOwner t = t_HasOwner (w_cur w) →
  (∀ rows c, spec_change (DB := DB) rows c ch = c) → moves w dbk ch (at_calls k (say o (set_cur t w))).
Proof.
  intros Hi Hs Ho Hspec. rewrite <- (add_steps_nil w). pose proof Hs as (Hf & Hr & _).
  apply (same_moves w dbk o t k [] dbk ch); try done.
  apply (laid_out_ext base (w_cur w)); [by rewrite Hf|done|done|apply Hi].
Qed.

(** Turning row access on adds the column of owners, where there is none. *)
Lemma owner_runs sc t (d : DB) : laid_out base sc d → same_fields sc t → t_HasOwner t = true → OwnerColumn ∉ map f_Name (t_Fields sc) →
  ids d = [] →
  ∃ d', run_steps ((if t_HasOwner sc then [] else [AddColumn OwnerColumn "TEXT" false VNull]) ++ [CountRows true]) d = Some d' ∧
    laid_out base t d' ∧ ids d' = ids d.
Proof.
  intros Hl (Hf & Hr & _) Ho Hn Hids.
  assert (∃ d1, run_steps (if t_HasOwner sc then [] else [AddColumn OwnerColumn "TEXT" false VNull]) d = Some d1 ∧
    laid_out base t d1 ∧ ids d1 = ids d) as (d1 & Hrun & Hl1 & Hids1).
  { destruct (t_HasOwner sc) eqn:Hsc.
    { exists d. split_and!; [done| |done]. apply (laid_out_ext base sc); [by rewrite Hf|congruence|done|done]. }
    destruct Hl. unfold owner_columns in *. rewrite Hsc in *. cbn in lo_columns0, lo_distinct0.
    assert (OwnerColumn ∉ base) as Hbase by (intros Hb%lo_base0%mem_spec; discriminate Hb).
    destruct (exec_more (AddColumn OwnerColumn "TEXT" false VNull) d) as (d1 & Hex & Hid1); [done|by constructor| |].
    { split; [|done]. rewrite lo_columns0, elem_of_app. tauto. }
    exists d1. cbn. rewrite Hex. split_and!; [done| |done].
    split; unfold owner_columns; rewrite ?Ho, ?Hf, ?Hr; try done.
    - rewrite (exec_names _ _ _ Hex), lo_columns0, <- app_assoc. f_equiv. apply Permutation_app_comm.
    - apply NoDup_app in lo_distinct0 as (Hb & Hd & Hfs). apply NoDup_app. split_and!; [done| |].
      + intros x Hx [->%list_elem_of_singleton|Hin]%elem_of_app; [done|]. by apply (Hd x).
      + by apply NoDup_cons.
    - rewrite (exec_names _ _ _ Hex). apply Forall_app. split; [done|by constructor].
    - intros c Hc. destruct (exec_pinned _ _ _ _ Hex Hc) as [Hc'|[]]; [|done].
      destruct (lo_pinned0 c Hc') as [Hin|?]; [left|by right]. rewrite app_nil_r in Hin. apply elem_of_app. by left. }
  destruct (exec_more (CountRows true) d1) as (d2 & Hex & Hid2); [by destruct Hl1|constructor|done|].
  exists d2. rewrite run_steps_app, Hrun. cbn. rewrite Hex. split_and!; [done| |congruence].
  pose proof (exec_names _ _ _ Hex) as Hnames. destruct Hl1. split; rewrite ?Hnames; try done.
  intros c Hc. destruct (exec_pinned _ _ _ _ Hex Hc) as [Hc'|[_ ->]]; [by apply lo_pinned0|].
  left. unfold owner_columns. rewrite Ho. apply elem_of_app. right. by left.
Qed.

Lemma set_row_access_moves ch w u w' dbk : inv w dbk → ch_Op ch = OpSetRowAccess →
  set_row_access faults tables db scope ch w = (Done u, w') → moves w dbk ch w'.
Proof.
  intros Hi Hop (o & t & k & steps & Hs & _ & -> & Hcase)%set_row_access_Done.
  assert (∀ rows c, spec_change (DB := DB) rows c ch = c) as Hspec by (intros; unfold spec_change; by rewrite Hop).
  destruct Hcase as [[-> Ho]|(Hids & Ho & Hn & ->)]; [rewrite add_steps_nil; by apply quiet_moves|].
  destruct (owner_runs (w_cur w) t dbk) as (d' & Hrun & Hl & Hid); [apply Hi|done|done|done|by rewrite (inv_ids _ _ Hi)|].
  apply (same_moves w dbk o t k _ d' ch); try done. intros f id _ Hin. rewrite Hids in Hin. by apply not_elem_of_nil in Hin.
Qed.

(** *** Any change *)

Lemma change_args_Done i ch owner u : change_args i ch owner = Done u →
  (owner = true → owner_target ch = false) ∧ (ch_Op ch = OpAddConstraint → ch_Constraint ch ≠ None).
Proof.
  unfold change_args. intros H. plan_inv H. split.
  - intros ->. done.
  - intros Hop. rewrite Hop in *. cbn in *. apply negb_false_iff, bool_decide_eq_true in P2. done.
Qed.

Lemma plan_change_moves i ch w u w' dbk : inv w dbk →
  plan_change faults polls naming tables db scope i ch w = (Done u, w') → moves w dbk ch w'.
Proof.
  intros Hi H. unfold plan_change in H. plan_inv H. apply change_args_Done in P as [Hown Hcon]. unfold apply_change in H.
  destruct (String.eqb_spec (ch_Op ch) OpAddField) as [Hop|_]; [by eapply add_moves|].
  destruct (String.eqb_spec (ch_Op ch) OpRenameField) as [Hop|_]; [by eapply rename_moves|].
  destruct (String.eqb_spec (ch_Op ch) OpDropField) as [Hop|_]; [by eapply drop_moves|].
  destruct (String.eqb_spec (ch_Op ch) OpSetFulltext) as [Hop|_].
  { apply set_fulltext_Done in H as (j & f & Hj & Hn & ->).
    apply (redeclare_moves _ _ _ _ j f (ch_Name ch) (with_Fulltext (flag_value ch))); try done.
    intros rows t. unfold spec_change. by rewrite Hop. }
  destruct (String.eqb_spec (ch_Op ch) OpSetVectorize) as [Hop|_].
  { apply set_vectorize_Done in H as (j & f & Hj & Hn & ->).
    apply (redeclare_moves _ _ _ _ j f (ch_Name ch) (with_Vectorize (flag_value ch))); try done.
    intros rows t. unfold spec_change. by rewrite Hop. }
  destruct (String.eqb_spec (ch_Op ch) OpSetEnum) as [Hop|_]; [by eapply set_enum_moves|].
  destruct (String.eqb_spec (ch_Op ch) OpSetShape) as [Hop|_]; [by eapply set_shape_moves|].
  assert ((ch_Op ch = OpAddConstraint ∨ ch_Op ch = OpDropConstraint ∨ ch_Op ch = OpSetAcceptReferences) →
    ∀ rows c, spec_change (DB := DB) rows c ch = c) as Hspec.
  { intros Hop rows c. unfold spec_change. by destruct Hop as [->|[->| ->]]. }
  destruct (String.eqb_spec (ch_Op ch) OpAddConstraint) as [Hop|_].
  { destruct (constraint_change_Done faults polls tables i ch w u w') as (o & t & k & Hs & Ho & ->); [left; by auto|].
    apply quiet_moves; auto. }
  destruct (String.eqb_spec (ch_Op ch) OpDropConstraint) as [Hop|_].
  { destruct (constraint_change_Done faults polls tables i ch w u w') as (o & t & k & Hs & Ho & ->); [right; by left|].
    apply quiet_moves; auto. }
  destruct (String.eqb_spec (ch_Op ch) OpSetAcceptReferences) as [Hop|_].
  { destruct (constraint_change_Done faults polls tables i ch w u w') as (o & t & k & Hs & Ho & ->); [right; by right|].
    apply quiet_moves; auto. }
  destruct (String.eqb_spec (ch_Op ch) OpSetRowAccess) as [Hop|_]; [by eapply set_row_access_moves|].
  destruct (String.eqb_spec (ch_Op ch) OpSetFileConstraints) as [Hop|_]; [by eapply set_file_constraints_moves|done].
Qed.

(** ** A list of changes, and a whole plan *)

Lemma plan_changes_moves changes : ∀ i w u w' dbk, inv w dbk →
  plan_changes faults polls naming tables db scope i changes w = (Done u, w') →
  ∃ dbk', inv w' dbk' ∧
    table_of (t_Fields (w_cur w')) dbk' =
      foldl (spec_change (DB := DB) (length (ids db))) (table_of (t_Fields (w_cur w)) dbk) changes ∧
    (rows_fit (t_Fields (w_cur w)) dbk → rows_fit (t_Fields (w_cur w')) dbk').
Proof.
  induction changes as [|ch changes IH]; intros i w u w' dbk Hi H; cbn [plan_changes] in H.
  - plan_inv H. by exists dbk.
  - plan_inv H. apply (plan_change_moves _ _ _ _ _ dbk) in P as (d1 & Hi1 & Ht1 & Hf1); [|done].
    destruct (IH _ _ _ _ d1 Hi1 H) as (d2 & Hi2 & Ht2 & Hf2). exists d2. split_and!; [done| |by auto].
    cbn. by rewrite Ht2, Ht1.
Qed.

Lemma start_phys n t old f : NoDup (map f_Name (t_Fields old)) → f ∈ t_Fields old →
  w_phys (start n t old) !! f_Name f = Some (f_Name f).
Proof.
  intros Hnd Hf. unfold start. cbn. apply elem_of_list_to_map_1.
  - by rewrite map_map.
  - apply list_elem_of_fmap. by exists f.
Qed.
Lemma start_inv n t old : laid_out base old db → inv (start n t old) db.
Proof.
  intros Hl. pose proof (laid_out_nodup _ _ _ Hl) as Hnd. split; [by apply (laid_out_ext base old)|done|done|].
  intros f Hf. left. exists (f_Name f). split_and!; [by apply start_phys| |done].
  intros He. destruct Hl. apply lo_named0. rewrite <- He. apply list_elem_of_fmap. by exists f.
Qed.
End Data.

Section Body.
Context {DB : Type} {E : Engine DB} {UT : UnicodeTables}.
Context (faults : nat → bool) (polls : nat → polls) (naming : nat → nat → ctx) (final : oracle).
Context (tables : catalog) (db : DB) (embeds : bool) (identity : string) (scope : option RowScope).

Lemma reindex_rows_Done b w n w' : reindex_rows faults db scope b w = (Done n, w') → ∃ k, w' = at_calls k w.
Proof.
  unfold reindex_rows. destruct b; intros H; plan_inv H; [|exists (w_calls w); by rewrite at_self].
  destruct (fts_preds db w); plan_inv H; [exists (w_calls w); by rewrite at_self|].
  apply query_Done in H as [_ [k ->]]. by exists k.
Qed.

Lemma embed_source_Done f c a w e w' : embed_source faults db scope f c a w = (Done e, w') →
  e_clear e.1 = c ∧ ∃ k, w' = at_calls k w.
Proof.
  unfold embed_source. intros H. plan_inv H. destruct (String.eqb (phys_of w (f_Name f)) "").
  - destruct (String.eqb (constant_text _) "").
    + plan_inv H. split; [done|]. exists (w_calls w). by rewrite at_self.
    + plan_inv H. apply query_Done in P as [_ [k ->]]. split; [done|by exists k].
  - plan_inv H. apply query_Done in P as [_ [k ->]]. split; [done|by exists k].
Qed.

(** The declaration a plan ends with is the one after the changes, but for the
    space of its embeddings and its version. *)
Definition same_declaration (t t' : TableSchema) : Prop :=
  same_fields t t' ∧ t_HasOwner t' = t_HasOwner t ∧ t_RowAccess t' = t_RowAccess t ∧
  t_Constraints t' = t_Constraints t ∧ t_AcceptReferences t' = t_AcceptReferences t.

Lemma plan_embedding_Done old w e w' : plan_embedding faults db embeds identity scope old w = (Done e, w') →
  ∃ space dim k, w' = at_calls k (set_cur (with_embedding space dim (w_cur w)) w).
Proof.
  assert (∀ k, ∃ space dim k', at_calls k w = at_calls k' (set_cur (with_embedding space dim (w_cur w)) w)) as Hsame.
  { intros k. exists (t_EmbedSpace (w_cur w)), (t_EmbedDim (w_cur w)), k. unfold set_cur, with_embedding, at_calls. cbn.
    by destruct (w_cur w). }
  unfold plan_embedding. intros H. plan_inv H. destruct (negb (w_vec w)).
  - plan_inv H. destruct (Hsame (w_calls w)) as (sp & d & k & Hk). rewrite at_self in Hk. by exists sp, d, k.
  - plan_inv H. destruct (VectorizeField (t_Fields (w_cur w))) as [f|].
    + plan_inv H. apply embed_source_Done in P1 as [_ [k ->]]. by eexists _, _, k.
    + plan_inv H. destruct (Hsame (w_calls w)) as (sp & d & k & Hk). rewrite at_self in Hk. by exists sp, d, k.
Qed.

Lemma check_constraints_Done changes w u w' : check_constraints faults final tables changes w = (Done u, w') →
  (∃ k, w' = at_calls k w) ∧
  (existsb (λ ch, mem (ch_Op ch) constraint_ops) changes = true →
   checkConstraints final (<[t_Name (w_cur w) := MkCTable (Some (w_cur w)) (default ∅ (tb_Rows <$> tables !! t_Name (w_cur w)))]> tables)
     (w_cur w) true = Done ()).
Proof.
  unfold check_constraints. destruct (existsb _ changes).
  - intros H. plan_inv H. apply query_Done in P as [-> [k ->]]. split; [by exists k|]. intros _. by destruct u.
  - intros H. plan_inv H. split; [|done]. exists (w_calls w). by rewrite at_self.
Qed.

Lemma plan_body_Done old changes v w m w' :
  plan_body faults polls naming final tables db embeds identity scope old changes v w = (Done m, w') →
  ∃ w1, plan_changes faults polls naming tables db scope 0 changes w = (Done (), w1) ∧
    RefuseMixedConstraintChanges changes = Done () ∧ (w_destr w1 ≠ [] → v ≠ 0) ∧
    ValidateForMigration (t_Fields (w_cur w1)) (t_Fields old) = Done () ∧
    same_declaration (with_version (t_Version old + 1) (w_cur w1)) (m_cur m) ∧
    m_steps m = w_steps w1 ∧ p_Table (m_plan m) = m_cur m ∧ p_FromVersion (m_plan m) = t_Version old ∧
    p_ToVersion (m_plan m) = t_Version old + 1 ∧
    p_Destructive (m_plan m) = w_destr w1 ∧ p_Operations (m_plan m) = w_ops w1.
Proof.
  unfold plan_body. intros H. plan_inv H.
  apply reindex_rows_Done in P3 as [k ->]. apply plan_embedding_Done in P4 as (space & dim & k1 & ->).
  apply check_constraints_Done in P5 as [[k2 ->] _]. exists s. split_and!; try done.
  - intros Hne ->. rewrite andb_true_r in P1. by destruct (w_destr s).
Qed.
End Body.
