(* ===== verification/MigrateTheorems.v ===== *)
(** * What a migration guarantees

    The theorems are about the plan of any list of changes, on any table of
    any engine that has the laws of [EngineLaws]. *)
From Stdlib Require Import ZArith QArith Qcanon Lia Ascii String.
From stdpp Require Import base gmap strings list sorting.
From S2P Require Import Prelude GoStrings AuthIdentity FilterLexer FilterParser SchemaIdent Schema SchemaFacts SchemaConstraints SchemaRules Authz.
From S2P Require Import GoNumbers Timestamps ConstraintValues ConstraintPlans ConstraintCatalog TableEngine Migrate MigrateFacts MigrateData.
Local Open Scope Z_scope.

(** ** What one change does to the declaration *)

Definition destroys (ch : Change) : bool := mem (ch_Op ch) [OpRenameField; OpDropField].

(** [grows w w' ch]: fields are added up to the cap only, a change that breaks
    a name or loses a column is announced, and the column of owners stays. *)
Record grows (w w' : work) (ch : Change) : Prop := Grows {
  gr_cap : Z.of_nat (length (t_Fields (w_cur w'))) <= Z.max MaxFieldsPerTable (Z.of_nat (length (t_Fields (w_cur w))));
  gr_destr : ∃ ds, w_destr w' = w_destr w ++ ds ∧ (ds = [] ↔ destroys ch = false);
  gr_owner : t_HasOwner (w_cur w) = true → t_HasOwner (w_cur w') = true }.

(** A change of the declaration that moves no column, and whose marks tell
    where it turned a flag. *)
Record redeclared (w' : work) (ch : Change) (f f' : Field) : Prop := Redeclared {
  rd_name : f_Name f' = f_Name f;
  rd_fulltext : w_fts w' = false → f_Fulltext f' = f_Fulltext f;
  rd_vectorize : w_vec w' = false ∨ ch_Op ch ≠ OpSetVectorize → f_Vectorize f' = f_Vectorize f }.
Record settled (ch : Change) (w w' : work) : Prop := Settled {
  qu_fields : Forall2 (redeclared w' ch) (t_Fields (w_cur w)) (t_Fields (w_cur w'));
  qu_maps : w_phys w' = w_phys w ∧ w_defaults w' = w_defaults w;
  qu_marks : (w_fts w' = false → w_fts w = false) ∧ (w_vec w' = false → w_vec w = false);
  qu_destr : w_destr w' = w_destr w;
  qu_owner : t_HasOwner (w_cur w) = true → t_HasOwner (w_cur w') = true }.
Definition moving_ops : list string := [OpAddField; OpRenameField; OpDropField].

Section Declaration.
Context {DB : Type} {E : Engine DB} {UT : UnicodeTables}.
Context (faults : nat → bool) (polls : nat → polls) (naming : nat → nat → ctx) (final : oracle).
Context (tables : catalog) (db : DB) (scope : option RowScope).

Lemma redeclared_refl w' ch f : redeclared w' ch f f.
Proof. by split. Qed.
Lemma quiet_field ch w w' j f f' o k fts vec : t_Fields (w_cur w) !! j = Some f →
  w' = at_calls k (say o (mark fts vec (set_field j f' w))) → redeclared w' ch f f' → settled ch w w'.
Proof.
  intros Hj -> Hr. split; [|done| |done|done].
  - cbn. rewrite <- (list_insert_id _ _ _ Hj) at 1. apply Forall2_insert; [|done]. apply Forall2_same_length_lookup_2; [done|].
    intros i g g' Hg Hg'. rewrite Hg in Hg'. injection Hg' as <-. apply redeclared_refl.
  - cbn. split; intros H; by apply orb_false_iff in H as [? _].
Qed.
Lemma unmarked w : mark false false w = w.
Proof. unfold mark. rewrite !orb_false_r. by destruct w. Qed.
Lemma quiet_declaration ch w o t k steps : same_fields (w_cur w) t → (t_HasOwner (w_cur w) = true → t_HasOwner t = true) →
  settled ch w (at_calls k (say o (set_cur t (add_steps steps w)))).
Proof.
  intros (Hf & _) Ho. split; cbn; [|done|done|done|done]. rewrite Hf. apply Forall_Forall2_diag, Forall_forall. intros g _.
  apply redeclared_refl.
Qed.

Lemma plan_change_cases i ch w u w' : plan_change faults polls naming tables db scope i ch w = (Done u, w') →
  (ch_Op ch = OpAddField ∧ add_field faults db scope i ch w = (Done u, w')) ∨
  (ch_Op ch = OpRenameField ∧ rename_field naming i ch w = (Done u, w')) ∨
  (ch_Op ch = OpDropField ∧ drop_field naming i ch w = (Done u, w')) ∨
  ((ch_Op ch ∉ moving_ops) ∧ (ch_Op ch = OpSetVectorize → set_vectorize ch w = (Done u, w')) ∧ settled ch w w').
Proof.
  intros H. unfold plan_change in H. plan_inv H. apply change_args_Done in P as [_ Hcon]. unfold apply_change in H.
  destruct (String.eqb_spec (ch_Op ch) OpAddField) as [Hop|Ha]; [by left|right].
  destruct (String.eqb_spec (ch_Op ch) OpRenameField) as [Hop|Hr]; [by left|right].
  destruct (String.eqb_spec (ch_Op ch) OpDropField) as [Hop|Hd]; [by left|right].
  split; [unfold moving_ops; rewrite !not_elem_of_cons; repeat split; try done; apply not_elem_of_nil|]. clear Ha Hr Hd.
  split; [by intros Hop; rewrite Hop in H|].
  destruct (String.eqb_spec (ch_Op ch) OpSetFulltext) as [Hop|_].
  { apply set_fulltext_Done in H as (j & f & Hj & _ & ->). rewrite <- (at_self (say _ _)). eapply quiet_field; [done|done|].
    split; [done| |done]. cbn. intros [_ [Hv ?]%orb_false_iff]%orb_false_iff. by rewrite Hv. }
  destruct (String.eqb_spec (ch_Op ch) OpSetVectorize) as [Hop|_].
  { apply set_vectorize_Done in H as (j & f & Hj & _ & ->). rewrite <- (at_self (say _ _)). eapply quiet_field; [done|done|].
    split; [done|done|]. cbn. intros [[_ Hx]%orb_false_iff|Hne]; [|by rewrite Hop in Hne]. symmetry. by apply xorb_eq. }
  destruct (String.eqb_spec (ch_Op ch) OpSetEnum) as [Hop|_].
  { apply set_enum_Done in H as (j & f & k & Hj & _ & _ & _ & _ & ->). rewrite <- (unmarked (set_field _ _ _)). by eapply quiet_field. }
  destruct (String.eqb_spec (ch_Op ch) OpSetShape) as [Hop|_].
  { apply set_shape_Done in H as (j & f & k & Hj & _ & _ & _ & ->). rewrite <- (unmarked (set_field _ _ _)). by eapply quiet_field. }
  assert (((ch_Op ch = OpAddConstraint ∧ add_constraint polls i ch w = (Done u, w')) ∨ drop_constraint ch w = (Done u, w') ∨
    set_accept_references faults tables ch w = (Done u, w')) → settled ch w w') as Hcons.
  { intros Hc. destruct (constraint_change_Done faults polls tables i ch w u w') as (o & t & k & Hs & Ho & ->).
    - destruct Hc as [[Hop Hc]|Hc]; [left; by auto|by right].
    - rewrite <- (add_steps_nil w) at 2. apply quiet_declaration; [done|by rewrite Ho]. }
  destruct (String.eqb_spec (ch_Op ch) OpAddConstraint) as [Hop|_]; [by auto|].
  destruct (String.eqb_spec (ch_Op ch) OpDropConstraint) as [Hop|_]; [by auto|].
  destruct (String.eqb_spec (ch_Op ch) OpSetAcceptReferences) as [Hop|_]; [by auto|].
  destruct (String.eqb_spec (ch_Op ch) OpSetRowAccess) as [Hop|_].
  { apply set_row_access_Done in H as (o & t & k & steps & Hs & _ & -> & Hcase). apply quiet_declaration; [done|].
    destruct Hcase as [[_ ->]|(_ & -> & _)]; done. }
  destruct (String.eqb_spec (ch_Op ch) OpSetFileConstraints) as [Hop|_]; [|done].
  apply set_file_constraints_Done in H as (j & f & next & k & Hj & _ & Hf & _ & ->). rewrite <- (unmarked (set_field _ _ _)).
  eapply quiet_field; [done|done|]. apply FileConstraintField_Done in Hf as (_ & mx & types & -> & _). by split.
Qed.

Lemma plan_change_grows i ch w u w' :
  plan_change faults polls naming tables db scope i ch w = (Done u, w') → grows w w' ch.
Proof.
  intros [[Hop H]|[[Hop H]|[[Hop H]|[Hop [_ [Hl%Forall2_length _ _ Hd Ho]]]]]]%plan_change_cases.
  - apply add_field_Done in H as (raw & dv & ds & _ & _ & _ & Hcap & _ & _ & _ & n & k & ->). split; cbn.
    + rewrite length_app. cbn. lia.
    + exists []. rewrite app_nil_r. unfold destroys. by rewrite Hop.
    + done.
  - apply rename_field_Done in H as (j & f & _ & _ & _ & _ & _ & _ & ->).
    unfold rename_work. destruct (String.eqb _ _); (split; cbn; [rewrite length_insert; lia| |done]);
      eexists; (split; [done|]; unfold destroys; by rewrite Hop).
  - apply drop_field_Done in H as (j & f & Hj & _ & _ & _ & ->). split; cbn; [| |done].
    + rewrite length_delete by (by eexists). lia.
    + eexists. split; [done|]. unfold destroys. by rewrite Hop.
  - split; [rewrite <- Hl; lia| |done]. exists []. rewrite Hd, app_nil_r. split; [done|]. split; [|done]. intros _.
    apply mem_false. unfold moving_ops in Hop. by apply not_elem_of_cons in Hop as [_ Hop].
Qed.

Lemma plan_changes_grow changes : ∀ i w u w', plan_changes faults polls naming tables db scope i changes w = (Done u, w') →
  Z.of_nat (length (t_Fields (w_cur w'))) <= Z.max MaxFieldsPerTable (Z.of_nat (length (t_Fields (w_cur w)))) ∧
  (∃ ds, w_destr w' = w_destr w ++ ds ∧ (ds = [] ↔ existsb destroys changes = false)) ∧
  (t_HasOwner (w_cur w) = true → t_HasOwner (w_cur w') = true).
Proof.
  induction changes as [|ch changes IH]; intros i w u w' H; cbn [plan_changes] in H; plan_inv H.
  - split_and!; [lia| |done]. exists []. by rewrite app_nil_r.
  - apply plan_change_grows in P as [Hcap (ds & Hd & Hds) Ho]. destruct (IH _ _ _ _ H) as (Hcap' & (ds' & Hd' & Hds') & Ho').
    split_and!; [lia| |auto]. exists (ds ++ ds'). rewrite Hd', Hd, app_assoc. split; [done|]. cbn.
    rewrite orb_false_iff, <- Hds, <- Hds'. split; [apply app_eq_nil|by intros [-> ->]].
Qed.
End Declaration.

(** ** Two plans side by side

    [m1 ~ m2 : R]: from states that differ only in the number of queries made,
    when both succeed their answers are related by [R] and the states they
    leave again differ only in that number. *)
Definition alike {A} (R : A → A → Prop) (m1 m2 : planner A) : Prop :=
  ∀ w k1 k2 a1 a2 w1 w2, m1 (at_calls k1 w) = (Done a1, w1) → m2 (at_calls k2 w) = (Done a2, w2) →
    R a1 a2 ∧ ∃ w' k1' k2', w1 = at_calls k1' w' ∧ w2 = at_calls k2' w'.
Definition anything {A} (_ _ : A) : Prop := True.

Lemma alike_bind {A B} R R' (m1 m2 : planner A) (g1 g2 : A → planner B) :
  alike R m1 m2 → (∀ a1 a2, R a1 a2 → alike R' (g1 a1) (g2 a2)) → alike R' (abind m1 g1) (abind m2 g2).
Proof.
  intros Hm Hg w k1 k2 b1 b2 w1 w2 (a1 & s1 & H1 & H1')%abind_Done (a2 & s2 & H2 & H2')%abind_Done.
  destruct (Hm _ _ _ _ _ _ _ H1 H2) as (Ha & w' & k1' & k2' & -> & ->). by eapply Hg.
Qed.
Lemma alike_check {A} (o1 o2 : outcome migrate_error A) (R : A → A → Prop) :
  (∀ a1 a2, o1 = Done a1 → o2 = Done a2 → R a1 a2) → alike R (check o1) (check o2).
Proof. intros H w k1 k2 a1 a2 w1 w2 [H1 ->]%check_Done [H2 ->]%check_Done. split; [by apply H|by exists w, k1, k2]. Qed.
Lemma alike_unit (o1 o2 : outcome migrate_error ()) : alike eq (check o1) (check o2).
Proof. apply alike_check. by intros [] []. Qed.
Lemma alike_same {A} (o : outcome migrate_error A) : alike eq (check o) (check o).
Proof. apply alike_check. congruence. Qed.
Lemma alike_look {A} (f : work → A) : (∀ w k, f (at_calls k w) = f w) → alike eq (look f) (look f).
Proof. intros Hf w k1 k2 a1 a2 w1 w2 [-> ->]%look_Done [-> ->]%look_Done. rewrite !Hf. split; [done|by exists w, k1, k2]. Qed.
Lemma alike_change f : (∀ w k, f (at_calls k w) = at_calls k (f w)) → alike eq (change f) (change f).
Proof.
  intros Hf w k1 k2 [] [] w1 w2 ->%change_Done ->%change_Done. rewrite !Hf. split; [done|by exists (f w), k1, k2].
Qed.
Lemma alike_query {A} faults1 faults2 (a1 a2 : A) (R : A → A → Prop) : R a1 a2 → alike R (query faults1 a1) (query faults2 a2).
Proof.
  intros HR w k1 k2 b1 b2 w1 w2 [-> [k ->]]%query_Done [-> [k' ->]]%query_Done. split; [done|]. by exists w, k, k'.
Qed.
Lemma alike_ret {A} (a1 a2 : A) (R : A → A → Prop) : R a1 a2 → alike R (aret a1) (aret a2).
Proof. intros HR w k1 k2 b1 b2 w1 w2 [-> ->]%aret_Done [-> ->]%aret_Done. split; [done|by exists w, k1, k2]. Qed.
Lemma alike_fail {A} e (m : planner A) R : alike R (afail e) m.
Proof. by intros w k1 k2 a1 a2 w1 w2 H. Qed.
Lemma alike_fail_r {A} e (m : planner A) R : alike R m (afail e).
Proof. by intros w k1 k2 a1 a2 w1 w2 _ H. Qed.
Lemma alike_when b m1 m2 : (b = true → alike eq m1 m2) → alike eq (when_ b m1) (when_ b m2).
Proof. destruct b; cbn; [auto|]. intros _. by apply alike_ret. Qed.
Lemma alike_findField n : alike eq (findField n) (findField n).
Proof.
  intros w k1 k2 a1 a2 w1 w2. unfold findField. cbn [at_calls w_cur]. destruct (list_find _ _) as [x|]; [|done].
  intros [= <- <-] [= <- <-]. split; [done|by exists w, k1, k2].
Qed.

Create HintDb alike.
#[local] Hint Resolve alike_unit alike_same alike_look alike_change alike_query alike_ret alike_fail alike_fail_r alike_findField : alike.

Section Disclosure.
Context {DB : Type} {E : Engine DB} {UT : UnicodeTables}.
Context (faults1 faults2 : nat → bool) (polls1 polls2 : nat → polls) (naming1 naming2 : nat → nat → ctx) (final1 final2 : oracle).
Context (tables1 tables2 : catalog) (db1 db2 : DB) (embeds : bool) (identity : string) (scope : option RowScope).

(** The rows the scope shows are the same in both tables. *)
Definition same_visible : Prop :=
  List.filter (visible db1 scope) (ids db1) = List.filter (visible db2 scope) (ids db2) ∧
  ∀ id c, id ∈ ids db1 → visible db1 scope id = true → cell db1 id c = cell db2 id c.
Context (Hsame : same_visible).

Lemma visible_count (p1 p2 : Z → bool) :
  (∀ id, id ∈ ids db1 → visible db1 scope id = true → p1 id = p2 id) →
  count_where db1 (λ id, p1 id && visible db1 scope id) = count_where db2 (λ id, p2 id && visible db2 scope id).
Proof.
  intros Hp. destruct Hsame as [Hv _]. unfold count_where. do 2 f_equal.
  assert (∀ (d : DB) p, List.filter (λ id, p id && visible d scope id) (ids d) = List.filter p (List.filter (visible d scope) (ids d))) as Hf.
  { intros d p. induction (ids d) as [|id l IH]; [done|]. cbn. destruct (visible d scope id); cbn; [|by rewrite andb_false_r].
    rewrite andb_true_r. destruct (p id); by rewrite IH. }
  rewrite !Hf, <- Hv. apply filter_ext_in. intros id [Hid Hvis]%list_elem_of_In%elem_filter. by apply Hp.
Qed.

Lemma visibleCount_alike : alike eq (visibleCount faults1 db1 scope) (visibleCount faults2 db2 scope).
Proof. apply alike_query. by apply (visible_count (λ _, true) (λ _, true)). Qed.

(** The checks of stored rows answer nothing but whether they passed. *)
Lemma unit_alike (m1 m2 : planner ()) : (∀ w u w', m1 w = (Done u, w') → ∃ k, w' = at_calls k w) →
  (∀ w u w', m2 w = (Done u, w') → ∃ k, w' = at_calls k w) → alike eq m1 m2.
Proof.
  intros H1 H2 w k1 k2 [] [] w1 w2 [k1' ->]%H1 [k2' ->]%H2. split; [done|]. by exists w, k1', k2'.
Qed.
Lemma enum_rows_alike f vals phys : alike eq (enum_rows faults1 db1 scope f vals phys) (enum_rows faults2 db2 scope f vals phys).
Proof. by apply unit_alike; intros w u w' [_ [k ->]]%enum_rows_Done; exists k. Qed.
Lemma shape_rows_alike f shape phys : alike eq (shape_rows faults1 db1 scope f shape phys) (shape_rows faults2 db2 scope f shape phys).
Proof. by apply unit_alike; intros w u w' [_ [k ->]]%shape_rows_Done; exists k. Qed.
Lemma file_rows_alike next phys : alike eq (file_rows faults1 db1 scope next phys) (file_rows faults2 db2 scope next phys).
Proof. by apply unit_alike; intros w u w' [_ [k ->]]%file_rows_Done; exists k. Qed.
Lemma RefuseConstrainedField_alike n op f : alike eq (RefuseConstrainedField naming1 n op f) (RefuseConstrainedField naming2 n op f).
Proof. by apply unit_alike; intros w u w' [-> _]%RefuseConstrainedField_Done; exists (w_calls w); rewrite at_self. Qed.
Lemma referencing_alike t : alike anything (sqliteReferencing faults1 tables1 t) (sqliteReferencing faults2 tables2 t).
Proof.
  intros w k1 k2 a1 a2 w1 w2 [k ->]%sqliteReferencing_Done [k' ->]%sqliteReferencing_Done. split; [done|]. by exists w, k, k'.
Qed.
Lemma countRows_alike : alike anything (countRows faults1 db1) (countRows faults2 db2).
Proof. by apply alike_query. Qed.
#[local] Hint Resolve visibleCount_alike enum_rows_alike shape_rows_alike file_rows_alike RefuseConstrainedField_alike : alike.

(** One step of a proof that two runs of the same code are alike. *)
Ltac alike1 :=
  lazymatch goal with
  | |- alike _ (abind (sqliteReferencing _ _ _) _) _ => eapply alike_bind; [apply referencing_alike|intros ? ? _]
  | |- alike _ (abind (countRows _ _) _) _ => eapply alike_bind; [apply countRows_alike|intros ? ? _]
  | |- alike _ (abind _ _) (abind _ _) => eapply (alike_bind eq); [|intros ? ? <-]
  | |- alike _ (when_ _ _) (when_ _ _) => apply alike_when; intros _
  | |- alike _ (let '(_, _) := ?x in _) _ => destruct x
  | |- alike _ (match ?x with _ => _ end) (match ?x with _ => _ end) => destruct x
  | |- alike _ (match ?x with _ => _ end) (match ?y with _ => _ end) => destruct x, y
  | |- alike _ _ _ => solve [eauto with alike]
  end.
Ltac alike := repeat alike1.

Lemma add_rows_alike f given : alike eq (add_rows faults1 db1 scope f given) (add_rows faults2 db2 scope f given).
Proof.
  unfold add_rows. alike.
Qed.
#[local] Hint Resolve add_rows_alike : alike.

Lemma enable_row_access_alike : alike eq (enable_row_access faults1 db1 scope) (enable_row_access faults2 db2 scope).
Proof. unfold enable_row_access. alike. Qed.
#[local] Hint Resolve enable_row_access_alike : alike.

Lemma apply_change_alike i ch :
  alike eq (apply_change faults1 polls1 naming1 tables1 db1 scope i ch) (apply_change faults2 polls2 naming2 tables2 db2 scope i ch).
Proof.
  unfold apply_change. repeat match goal with |- alike _ (if ?b then _ else _) _ => destruct b end; [..|by apply alike_fail].
  - unfold add_field. alike.
  - unfold rename_field. alike. apply alike_change. intros w k. unfold rename_work. by destruct (String.eqb _ _).
  - unfold drop_field. alike.
  - unfold set_fulltext. alike.
  - unfold set_vectorize. alike.
  - unfold set_enum. alike.
  - unfold set_shape. alike.
  - unfold add_constraint. alike.
  - unfold drop_constraint. alike.
  - unfold set_accept_references. alike.
  - unfold set_row_access. alike.
  - unfold set_file_constraints. alike.
Qed.

Lemma plan_changes_alike changes : ∀ i,
  alike eq (plan_changes faults1 polls1 naming1 tables1 db1 scope i changes) (plan_changes faults2 polls2 naming2 tables2 db2 scope i changes).
Proof.
  induction changes as [|ch changes IH]; intros i; cbn [plan_changes]; [by apply alike_ret|].
  eapply (alike_bind eq); [|by intros]. unfold plan_change. alike1; [alike|]. alike1; [alike|]. apply apply_change_alike.
Qed.

(** What the counts of the index and of the embeddings range over. *)
Lemma fts_preds_alike w : Forall2 (λ p1 p2 : Z → bool, ∀ id, id ∈ ids db1 → visible db1 scope id = true → p1 id = p2 id)
  (fts_preds db1 w) (fts_preds db2 w).
Proof.
  unfold fts_preds. induction (FTSFields (t_Fields (w_cur w))) as [|f fs IH]; [constructor|]. cbn.
  destruct (String.eqb (phys_of w (f_Name f)) ""); [destruct (is_null _); [done|by constructor]|].
  constructor; [|done]. intros id Hid Hvis. by rewrite (proj2 Hsame).
Qed.
Lemma reindex_rows_alike b : alike eq (reindex_rows faults1 db1 scope b) (reindex_rows faults2 db2 scope b).
Proof.
  unfold reindex_rows. destruct b; [|by apply alike_ret].
  eapply (alike_bind (λ l1 l2, Forall2 (λ p1 p2 : Z → bool, ∀ id, id ∈ ids db1 → visible db1 scope id = true → p1 id = p2 id) l1 l2)).
  - intros w k1 k2 a1 a2 w1 w2 [-> ->]%look_Done [-> ->]%look_Done. split; [exact (fts_preds_alike w)|by exists w, k1, k2].
  - intros l1 l2 Hl. destruct Hl as [|p1 p2 l1 l2 Hp Hl]; [by apply alike_ret|]. apply alike_query, visible_count.
    intros id Hid Hvis. cbn. rewrite (Hp id Hid Hvis). f_equal. induction Hl as [|q1 q2 l1 l2 Hq _ IH]; [done|]. cbn.
    by rewrite (Hq id Hid Hvis), IH.
Qed.
Lemma embed_source_alike f c a : alike eq (embed_source faults1 db1 scope f c a) (embed_source faults2 db2 scope f c a).
Proof.
  unfold embed_source. alike1; [alike|]. alike1; [alike|]. destruct (String.eqb _ ""); [alike|].
  eapply (alike_bind eq); [|intros ? ? <-; alike]. apply alike_query, visible_count. intros id Hid Hvis. unfold has_text.
  by rewrite (proj2 Hsame).
Qed.
#[local] Hint Resolve reindex_rows_alike embed_source_alike plan_changes_alike : alike.

Lemma plan_embedding_alike old : alike eq (plan_embedding faults1 db1 embeds identity scope old) (plan_embedding faults2 db2 embeds identity scope old).
Proof. unfold plan_embedding. alike. Qed.
Lemma check_constraints_alike changes : alike eq (check_constraints faults1 final1 tables1 changes) (check_constraints faults2 final2 tables2 changes).
Proof. apply unit_alike; intros w u w' [[k ->] _]%check_constraints_Done; by exists k. Qed.
#[local] Hint Resolve plan_embedding_alike check_constraints_alike : alike.

Lemma plan_body_alike old changes v :
  alike eq (plan_body faults1 polls1 naming1 final1 tables1 db1 embeds identity scope old changes v)
    (plan_body faults2 polls2 naming2 final2 tables2 db2 embeds identity scope old changes v).
Proof. unfold plan_body. alike. Qed.
Lemma plans_alike n t old changes v m1 m2 :
  planMigration faults1 polls1 naming1 final1 tables1 db1 embeds identity scope n t old changes v = Done m1 →
  planMigration faults2 polls2 naming2 final2 tables2 db2 embeds identity scope n t old changes v = Done m2 → m1 = m2.
Proof.
  unfold planMigration. intros H1 H2.
  destruct (plan_body faults1 _ _ _ _ _ _ _ _ _ _ _ _) as [o1 w1] eqn:E1, (plan_body faults2 _ _ _ _ _ _ _ _ _ _ _ _) as [o2 w2] eqn:E2.
  cbn in H1, H2. subst. rewrite <- (at_self (start n t old)) in E1, E2. by destruct (plan_body_alike old changes v _ _ _ _ _ _ _ E1 E2).
Qed.
End Disclosure.

(** ** The theorems *)

Section Plans.
Context {DB : Type} {E : Engine DB} {L : EngineLaws DB} {UT : UnicodeTables}.
Context (faults : nat → bool) (polls : nat → polls) (naming : nat → nat → ctx) (final : oracle).
Context (tables : catalog) (db : DB) (embeds : bool) (identity : string) (scope : option RowScope).
#[local] Abbreviation plan_of := (planMigration faults polls naming final tables db embeds identity scope).

Lemma planned n t old changes v m : plan_of n t old changes v = Done m →
  ∃ w1, plan_changes faults polls naming tables db scope 0 changes (start n t old) = (Done (), w1) ∧
    (w_destr w1 ≠ [] → v ≠ 0) ∧ ValidateForMigration (t_Fields (w_cur w1)) (t_Fields old) = Done () ∧
    same_declaration (with_version (t_Version old + 1) (w_cur w1)) (m_cur m) ∧ m_steps m = w_steps w1 ∧
    p_ToVersion (m_plan m) = t_Version (m_cur m) ∧ p_Destructive (m_plan m) = w_destr w1.
Proof.
  unfold planMigration. destruct (plan_body _ _ _ _ _ _ _ _ _ _ _ _ _) as [[m'| |] w'] eqn:Hb; try done. intros [= ->].
  apply plan_body_Done in Hb as (w1 & Hc & _ & Hd & Hv & Hs & Hst & _ & _ & Hto & Hde & _). exists w1.
  split_and!; try done. rewrite Hto. by destruct Hs as [(_ & _ & -> & _) _].
Qed.

Lemma planned_runs base n t old changes v m : laid_out base old db → plan_of n t old changes v = Done m →
  ∃ db', run_steps (m_steps m) db = Some db' ∧ laid_out base (m_cur m) db' ∧ ids db' = ids db ∧
    table_of (t_Fields (m_cur m)) db' = foldl (spec_change (DB := DB) (length (ids db))) (table_of (t_Fields old) db) changes ∧
    (rows_fit (t_Fields old) db → rows_fit (t_Fields (m_cur m)) db').
Proof.
  intros Hl (w1 & Hc & _ & _ & [(Hf & Hr & _) (Ho & _)] & Hst & _)%planned.
  destruct (plan_changes_moves _ _ _ _ _ _ base _ _ _ _ _ db (start_inv db base n t old Hl) Hc) as (db' & [Hl' Hrun Hids _] & Ht & Hfit).
  exists db'. rewrite Hst, Hf. split_and!; try done. apply (laid_out_ext base (w_cur w1)); [by rewrite Hf|by rewrite Ho|by rewrite Hr|done].
Qed.

(** C7. A migration that is planned is carried out by its statements: they all
    run on the table the plan was made for, the rows are the same, and the
    table read through the planned declaration is what the changes, taken one
    after another, make of the old table; each value is where the last name of
    its field says, an added field holds its default in every row. *)
Theorem migration_refines base n t old changes v m
    (Hl : laid_out base old db) (Hp : plan_of n t old changes v = Done m) :
  ∃ db', run_steps (m_steps m) db = Some db' ∧ laid_out base (m_cur m) db' ∧ ids db' = ids db ∧
    table_of (t_Fields (m_cur m)) db' = foldl (spec_change (DB := DB) (length (ids db))) (table_of (t_Fields old) db) changes.
Proof. destruct (planned_runs base n t old changes v m Hl Hp) as (db' & ? & ? & ? & ? & _). by exists db'. Qed.

(** C8. No migration leaves a row that its declaration forbids: if every stored
    value had the kind of its field, was among the values of its enumeration,
    fitted its shape, its file constraints and its dimension, and was there
    where it is required, then so it is after the statements of the plan, for
    the planned fields. *)
Theorem migration_keeps_rows_fit base n t old changes v m db'
    (Hl : laid_out base old db) (Hp : plan_of n t old changes v = Done m)
    (Hrun : run_steps (m_steps m) db = Some db') (Hfit : rows_fit (t_Fields old) db) :
  rows_fit (t_Fields (m_cur m)) db'.
Proof.
  destruct (planned_runs base n t old changes v m Hl Hp) as (db'' & Hrun' & _ & _ & _ & Hf).
  rewrite Hrun in Hrun'. injection Hrun' as <-. auto.
Qed.

(** C18. A planned declaration is a valid one, with distinct names, at most
    [MaxFieldsPerTable] fields if there were no more, the next version, and
    the column of owners if there was one; and a plan that renames or drops a
    field is made for the version the caller named. *)
Theorem planned_declaration n t old changes v m
    (Hv : checkExpectedVersion v old = Done ()) (Hp : plan_of n t old changes v = Done m) :
  table_ok (legacy_map (t_Fields old)) (t_Fields (m_cur m)) ∧
  (Z.of_nat (length (t_Fields old)) <= MaxFieldsPerTable → Z.of_nat (length (t_Fields (m_cur m))) <= MaxFieldsPerTable) ∧
  t_Version (m_cur m) = t_Version old + 1 ∧ p_ToVersion (m_plan m) = t_Version (m_cur m) ∧
  (t_HasOwner old = true → t_HasOwner (m_cur m) = true) ∧
  (p_Destructive (m_plan m) = [] ↔ existsb destroys changes = false) ∧
  (existsb destroys changes = true → v = t_Version old).
Proof.
  apply planned in Hp as (w1 & Hc & Hd & Hval & [(Hf & _ & Hver & _) (Ho & _)] & _ & Hto & Hde).
  apply plan_changes_grow in Hc as (Hcap & (ds & Hds & Hdest) & Hown). cbn in Hcap, Hds, Hown.
  rewrite Hf, Hde, Hds, Hver, Ho. split_and!; try done.
  - by apply validate_Done.
  - cbn. lia.
  - by rewrite Hto, Hver.
  - intros Hex. assert (v ≠ 0) as Hv0.
    { apply Hd. rewrite Hds. intros Hnil. apply Hdest in Hnil. congruence. }
    unfold checkExpectedVersion in Hv. destruct (v <? 0) eqn:Hneg; [done|]. apply Z.ltb_ge in Hneg.
    destruct (0 <? v) eqn:Hpos; [|apply Z.ltb_ge in Hpos; lia]. cbn in Hv.
    destruct (v =? t_Version old) eqn:Heq; [by apply Z.eqb_eq|done].
Qed.
End Plans.

(** *** The keys of a field that the store does not know *)

(** [kept w origin]: for every field with a column of the old table, [origin]
    names that column. *)
Definition kept (w : work) (origin : gmap string string) : Prop :=
  ∀ n p, w_phys w !! n = Some p → p ≠ "" → keys_source origin n = Some p.

Lemma origin_step_quiet ch origin : ch_Op ch ∉ moving_ops → origin_step origin ch = origin.
Proof.
  unfold moving_ops. rewrite !not_elem_of_cons. intros (_ & Hr & Hd & _). unfold origin_step.
  by rewrite (proj2 (String.eqb_neq _ _) Hr), (proj2 (String.eqb_neq _ _) Hd).
Qed.
Lemma origin_step_rename origin ch n : ch_Op ch = OpRenameField →
  origin_step origin ch !! n = if String.eqb n (ch_To ch) then Some (default (ch_From ch) (origin !! ch_From ch))
    else if String.eqb n (ch_From ch) then None else origin !! n.
Proof.
  intros Hop. unfold origin_step. rewrite Hop. change (String.eqb OpRenameField OpDropField) with false.
  change (String.eqb OpRenameField OpRenameField) with true. cbv iota. destruct (String.eqb_spec n (ch_To ch)) as [->|Ht].
  - by rewrite lookup_insert_eq.
  - rewrite lookup_insert_ne by done. destruct (String.eqb_spec n (ch_From ch)) as [->|Hf]; [apply lookup_delete_eq|by apply lookup_delete_ne].
Qed.
Lemma keys_source_default origin n p : keys_source origin n = Some p → default n (origin !! n) = p ∧ (p ≠ "" → origin !! n ≠ Some "").
Proof.
  unfold keys_source. destruct (origin !! n) as [was|]; [|by intros [= ->]]. destruct (String.eqb_spec was ""); [done|].
  intros [= ->]. split; [done|]. intros _ [= ->]. done.
Qed.

Section Keys.
Context {DB : Type} {E : Engine DB} {UT : UnicodeTables}.
Context (faults : nat → bool) (polls : nat → polls) (naming : nat → nat → ctx) (final : oracle).
Context (tables : catalog) (db : DB) (scope : option RowScope).

Lemma plan_change_kept i ch w u w' origin : kept w origin →
  plan_change faults polls naming tables db scope i ch w = (Done u, w') → kept w' (origin_step origin ch).
Proof.
  intros Hk [[Hop H]|[[Hop H]|[[Hop H]|[Hop [_ [_ [Hp _] _ _ _]]]]]]%plan_change_cases n p Hn Hne.
  - apply add_field_Done in H as (raw & dv & ds & _ & _ & _ & _ & _ & _ & _ & x & k & ->). cbn in Hn.
    unfold origin_step. rewrite Hop. apply lookup_insert_Some in Hn as [[_ <-]|[_ Hn]]; [done|by apply Hk].
  - apply rename_field_Done in H as (j & f & _ & _ & _ & _ & _ & _ & ->).
    destruct (rename_work_parts j f (ch_From ch) (ch_To ch) w) as (_ & Hp & _). rewrite Hp in Hn. clear Hp.
    unfold keys_source. rewrite (origin_step_rename _ _ _ Hop).
    assert (∀ q, w_phys w !! ch_From ch = Some q → q ≠ "" → default (ch_From ch) (origin !! ch_From ch) = q) as Hfrom
      by (intros q Hq Hqne; by destruct (keys_source_default _ _ _ (Hk _ _ Hq Hqne))).
    destruct (String.eqb_spec (ch_To ch) (ch_From ch)) as [Heq|Hd].
    + rewrite Heq. destruct (String.eqb_spec n (ch_From ch)) as [->|_]; [|by apply Hk].
      rewrite (Hfrom p Hn Hne). by destruct (String.eqb_spec p "").
    + unfold rename_maps in Hn. cbn in Hn. apply lookup_delete_Some in Hn as [Hnf Hn].
      apply lookup_insert_Some in Hn as [[<- Hn]|[Hnt Hn]].
      * rewrite String.eqb_refl. unfold phys_of in Hn. destruct (w_phys w !! ch_From ch) as [q|] eqn:Hq; cbn in Hn; [subst q|by subst p].
        rewrite (Hfrom p eq_refl Hne). by destruct (String.eqb_spec p "").
      * rewrite (proj2 (String.eqb_neq n (ch_To ch))), (proj2 (String.eqb_neq n (ch_From ch))) by done. by apply Hk.
  - apply drop_field_Done in H as (j & f & _ & _ & _ & _ & ->). cbn in Hn. apply lookup_delete_Some in Hn as [Hd Hn].
    unfold keys_source, origin_step. rewrite Hop. change (String.eqb OpDropField OpDropField) with true. cbv iota.
    rewrite lookup_insert_ne by done. by apply Hk.
  - rewrite origin_step_quiet by done. rewrite Hp in Hn. by apply Hk.
Qed.

Lemma plan_changes_kept changes : ∀ i w u w' origin, kept w origin →
  plan_changes faults polls naming tables db scope i changes w = (Done u, w') → kept w' (foldl origin_step origin changes).
Proof.
  induction changes as [|ch changes IH]; intros i w u w' origin Hk H; cbn [plan_changes] in H; plan_inv H; [done|].
  cbn. eapply IH; [|done]. by eapply plan_change_kept.
Qed.

(** C36. What the JSON of a declaration holds beyond what this version of the
    program knows of a field stays with the field: after any list of changes,
    the name [RenamesOf] gives for a field whose values come from the old
    table is the one of the column they are in. *)
Theorem unknown_keys_follow n t old changes u w
    (Hc : plan_changes faults polls naming tables db scope 0 changes (start n t old) = (Done u, w)) name column
    (Hp : w_phys w !! name = Some column) (Hold : column ≠ "") :
  keys_source (RenamesOf changes) name = Some column.
Proof.
  eapply (plan_changes_kept changes 0 _ u w ∅); [|done|done|done]. intros x p Hx Hne. unfold start in Hx. cbn in Hx.
  apply elem_of_list_to_map_2 in Hx. apply list_elem_of_fmap in Hx as (f & [= -> ->] & _). done.
Qed.
End Keys.

(** *** What the marks and the changes alone tell of a plan

    Where a plan was not marked, the fields it did not mark are those of the
    old table, each in its column; and the fields a plan adds, with the values
    they are filled with, depend on the changes only. *)

Definition flagged (flag : Field → bool) (fs : list Field) : list string := map f_Name (List.filter flag fs).
#[local] Arguments flagged : simpl never.
Record traced (old : list Field) (w : work) : Prop := Traced {
  tr_fulltext : w_fts w = false → flagged f_Fulltext (t_Fields (w_cur w)) = flagged f_Fulltext old ∧
    Forall (λ n, w_phys w !! n = Some n) (flagged f_Fulltext old);
  tr_vectorize : w_vec w = false →
    map (λ n, w_phys w !! n) (flagged f_Vectorize (t_Fields (w_cur w))) = map Some (flagged f_Vectorize old) }.

(** The added fields: the value each is filled with, and whether it is embedded. *)
Definition added_step `{UnicodeTables} (g : gmap string (sqlval * bool)) (ch : Change) : gmap string (sqlval * bool) :=
  if String.eqb (ch_Op ch) OpAddField then
    match ch_Field ch with
    | Some raw =>
        match backfill_default (normalized raw) (ch_Default ch) with
        | Done (v, _) => <[f_Name raw := (v, f_Vectorize (normalized raw))]> g
        | _ => g
        end
    | None => g
    end
  else if String.eqb (ch_Op ch) OpRenameField then
    match g !! ch_From ch with Some x => <[ch_To ch := x]> (delete (ch_From ch) g) | None => g end
  else if String.eqb (ch_Op ch) OpDropField then delete (ch_Name ch) g
  else if String.eqb (ch_Op ch) OpSetVectorize then
    match g !! ch_Name ch with Some (v, _) => <[ch_Name ch := (v, flag_value ch)]> g | None => g end
  else g.
Definition added (w : work) (g : gmap string (sqlval * bool)) : Prop := ∀ n v b,
  g !! n = Some (v, b) ↔
  w_phys w !! n = Some "" ∧ w_defaults w !! n = Some v ∧ ∃ f, f ∈ t_Fields (w_cur w) ∧ f_Name f = n ∧ f_Vectorize f = b.

Lemma flagged_names flag fs n : n ∈ flagged flag fs → n ∈ map f_Name fs.
Proof. unfold flagged. rewrite !list_elem_of_fmap. intros (f & -> & Hf%elem_filter). exists f. by destruct Hf. Qed.
Lemma flagged_insert flag fs j f f' : fs !! j = Some f → flag f = false → flag f' = false → flagged flag (<[j := f']> fs) = flagged flag fs.
Proof.
  unfold flagged. revert j. induction fs as [|g fs IH]; intros [|j] Hj Hf Hf'; [done|done| |]; cbn in Hj |- *.
  - injection Hj as ->. by rewrite Hf, Hf'.
  - destruct (flag g); [cbn; f_equal|]; exact (IH j Hj Hf Hf').
Qed.
Lemma flagged_delete flag fs j f : fs !! j = Some f → flag f = false → flagged flag (delete j fs) = flagged flag fs.
Proof.
  unfold flagged. revert j. induction fs as [|g fs IH]; intros [|j] Hj Hf; [done|done| |]; cbn in Hj |- *.
  - injection Hj as ->. by rewrite Hf.
  - destruct (flag g); [cbn; f_equal|]; exact (IH j Hj Hf).
Qed.
Lemma flagged_rename flag fs j f from to : NoDup (map f_Name fs) → fs !! j = Some f → f_Name f = from → flag (with_Name to f) = flag f →
  flagged flag (<[j := with_Name to f]> fs) = map (renamed from to) (flagged flag fs).
Proof.
  unfold flagged. revert j. induction fs as [|g fs IH]; intros [|j] Hnd Hj Hn Hf; [done|done| |]; cbn in Hj, Hnd |- *;
    apply NoDup_cons in Hnd as [Hg Hnd].
  - injection Hj as ->. rewrite Hf, Hn in *.
    assert (map (renamed from to) (map f_Name (List.filter flag fs)) = map f_Name (List.filter flag fs)) as Hrest.
    { apply renamed_other. intros Hin. apply Hg. by eapply flagged_names. }
    destruct (flag f); cbn; rewrite Hrest; [|done]. f_equal. unfold renamed. by rewrite Hn, String.eqb_refl.
  - assert (renamed from to (f_Name g) = f_Name g) as Hng.
    { unfold renamed. destruct (String.eqb_spec (f_Name g) from) as [He|]; [|done]. exfalso. apply Hg. rewrite He, <- Hn.
      apply list_elem_of_fmap. exists f. split; [done|]. by eapply list_elem_of_lookup_2. }
    destruct (flag g); [cbn; rewrite Hng; f_equal|]; exact (IH j Hnd Hj Hn Hf).
Qed.
Lemma flagged_snoc flag fs f : flag f = false → flagged flag (fs ++ [f]) = flagged flag fs.
Proof. unfold flagged. rewrite List.filter_app, map_app. cbn. intros ->. apply app_nil_r. Qed.
Lemma flagged_same flag (R : Field → Field → Prop) fs fs' : Forall2 R fs fs' →
  (∀ f f', R f f' → f_Name f' = f_Name f ∧ flag f' = flag f) → flagged flag fs' = flagged flag fs.
Proof.
  intros HR Hf. unfold flagged. induction HR as [|f f' fs fs' Hff _ IH]; [done|]. cbn. destruct (Hf _ _ Hff) as [Hn ->].
  destruct (flag f); cbn; by rewrite ?Hn, IH.
Qed.

Section Tracing.
Context {DB : Type} {E : Engine DB} {L : EngineLaws DB} {UT : UnicodeTables}.
Context (faults : nat → bool) (polls : nat → polls) (naming : nat → nat → ctx) (final : oracle).
Context (tables : catalog) (db : DB) (scope : option RowScope) (base : list string).

(** The column of a name after a renaming is the one the old name had. *)
Lemma rename_phys w dbk j f from to n : inv db base w dbk → t_Fields (w_cur w) !! j = Some f → f_Name f = from →
  to = from ∨ to ∉ map f_Name (t_Fields (w_cur w)) → n ∈ map f_Name (t_Fields (w_cur w)) →
  w_phys (rename_work j f from to w) !! renamed from to n = w_phys w !! n.
Proof.
  intros Hi Hj Hn Hto Hin. destruct (rename_work_parts j f from to w) as (_ & -> & _).
  unfold renamed. destruct (String.eqb_spec to from) as [->|Hne]; [destruct (String.eqb_spec n from) as [->|]; done|].
  destruct (String.eqb_spec n from) as [->|Hnf].
  - apply rename_maps_same; [done|]. rewrite <- Hn. eapply sourced_phys, inv_sourced; [done|by eapply list_elem_of_lookup_2].
  - apply rename_maps_other; [done|]. intros ->. by destruct Hto.
Qed.

Lemma plan_change_traced i ch w u w' dbk old : inv db base w dbk → traced old w →
  plan_change faults polls naming tables db scope i ch w = (Done u, w') → traced old w'.
Proof.
  intros Hi [Hft Hv] [[Hop H]|[[Hop H]|[[Hop H]|[Hop [_ [Hf [Hp _] [Mf Mv] _ _]]]]]]%plan_change_cases.
  - apply add_field_Done in H as (raw & dv & ds & _ & _ & Hn & _ & _ & _ & _ & x & k & ->).
    generalize dependent (normalized raw). intros f Hn.
    assert (∀ flag n, n ∈ flagged flag (t_Fields (w_cur w)) → n ≠ f_Name f) as Hother
      by (intros flag n Hin%flagged_names ->; done).
    split; cbn; intros [Hm Hf]%orb_false_iff; rewrite flagged_snoc by done.
    + destruct (Hft Hm) as [He Hall]. split; [done|]. rewrite Forall_forall in Hall |- *. intros n Hin.
      rewrite lookup_insert_ne; [by apply Hall|]. symmetry. apply (Hother f_Fulltext). by rewrite He.
    + rewrite <- (Hv Hm). apply map_ext_in. intros n Hin. apply lookup_insert_ne. symmetry. apply (Hother f_Vectorize). by apply list_elem_of_In.
  - apply rename_field_Done in H as (j & f & Hj & Hn & _ & _ & _ & Hto & ->). pose proof (names_nodup _ _ _ _ Hi) as Hnd.
    assert (w_vec (rename_work j f (ch_From ch) (ch_To ch) w) = w_vec w ∧
            w_fts (rename_work j f (ch_From ch) (ch_To ch) w) = w_fts w || f_Fulltext f ∧
            t_Fields (w_cur (rename_work j f (ch_From ch) (ch_To ch) w)) = <[j := with_Name (ch_To ch) f]> (t_Fields (w_cur w))) as (Ev & Ef & Efs).
    { unfold rename_work. destruct (String.eqb _ _); cbn; by rewrite orb_false_r. }
    split; rewrite ?Ev, ?Ef, Efs.
    + intros [Hm Hff]%orb_false_iff. destruct (Hft Hm) as [He Hall]. rewrite (flagged_insert _ _ _ f) by done. split; [done|].
      rewrite Forall_forall in Hall |- *. intros n Hin. rewrite <- He in Hin.
      assert (n ≠ ch_From ch) as Hne.
      { intros ->. unfold flagged in Hin. apply list_elem_of_fmap in Hin as (g & Hg & [Hg1 Hg2]%elem_filter).
        assert (g = f) as -> by (eapply unique_name; [done|done|done|]; by rewrite Hn, Hg). congruence. }
      rewrite <- (Hall n) by (by rewrite <- He).
      rewrite <- (rename_phys w dbk j f (ch_From ch) (ch_To ch) n Hi Hj Hn Hto) by (by eapply flagged_names).
      f_equal. unfold renamed. by rewrite (proj2 (String.eqb_neq _ _) Hne).
    + intros Hm. rewrite (flagged_rename _ _ _ _ (ch_From ch)) by done. rewrite map_map, <- (Hv Hm). apply map_ext_in. intros n Hin.
      eapply rename_phys; [done|done|done|done|]. eapply flagged_names. by apply list_elem_of_In.
  - apply drop_field_Done in H as (j & f & Hj & Hn & _ & _ & ->). pose proof (names_nodup _ _ _ _ Hi) as Hnd.
    assert (∀ flag n, flag f = false → n ∈ flagged flag (t_Fields (w_cur w)) → n ≠ ch_Name ch) as Hother.
    { intros flag n Hf Hin ->. unfold flagged in Hin. apply list_elem_of_fmap in Hin as (g & Hg & [Hg1 Hg2]%elem_filter).
      assert (g = f) as -> by (eapply unique_name; [done|done|done|]; by rewrite Hn, Hg). congruence. }
    split; cbn; intros [Hm Hf]%orb_false_iff; rewrite (flagged_delete _ _ _ f) by done.
    + destruct (Hft Hm) as [He Hall]. split; [done|]. rewrite Forall_forall in Hall |- *. intros n Hin.
      rewrite lookup_delete_ne; [by apply Hall|]. symmetry. apply (Hother f_Fulltext); [done|]. by rewrite He.
    + rewrite <- (Hv Hm). apply map_ext_in. intros n Hin. apply lookup_delete_ne. symmetry. apply (Hother f_Vectorize); [done|]. by apply list_elem_of_In.
  - split; rewrite Hp; intros Hm.
    + rewrite (flagged_same _ _ _ _ Hf); [by apply Hft, Mf|]. intros g g' [Hn Hfl _]. split; [done|by apply Hfl].
    + rewrite (flagged_same _ _ _ _ Hf); [by apply Hv, Mv|]. intros g g' [Hn _ Hfl]. split; [done|by apply Hfl; left].
Qed.

Lemma plan_changes_traced changes old : ∀ i w u w' dbk, inv db base w dbk → traced old w →
  plan_changes faults polls naming tables db scope i changes w = (Done u, w') → traced old w'.
Proof.
  induction changes as [|ch changes IH]; intros i w u w' dbk Hi Ht H; cbn [plan_changes] in H; plan_inv H; [done|].
  destruct (plan_change_moves _ _ _ _ _ _ _ _ _ _ _ _ _ Hi P) as (d1 & Hi1 & _). eapply IH; [exact Hi1| |exact H]. exact (plan_change_traced _ _ _ _ _ _ _ Hi Ht P).
Qed.
Lemma start_traced n t old : NoDup (map f_Name (t_Fields old)) → traced (t_Fields old) (start n t old).
Proof.
  intros Hnd. assert (∀ flag n', n' ∈ flagged flag (t_Fields old) → w_phys (start n t old) !! n' = Some n') as Hp.
  { intros flag n' Hin%flagged_names. apply list_elem_of_fmap in Hin as (f & -> & Hf). by apply start_phys. }
  split; intros _.
  - split; [done|]. apply Forall_forall. intros n'. apply Hp.
  - apply map_ext_in. intros n' Hin. eapply Hp, list_elem_of_In. exact Hin.
Qed.

Lemma added_names w g n : added w g → n ∉ map f_Name (t_Fields (w_cur w)) → g !! n = None.
Proof.
  intros Hg Hn. destruct (g !! n) as [[v b]|] eqn:He; [|done]. apply Hg in He as (_ & _ & f & Hf & <- & _).
  destruct Hn. apply list_elem_of_fmap. by exists f.
Qed.
Lemma added_field w w' g : added w g → w_phys w' = w_phys w → w_defaults w' = w_defaults w →
  Forall2 (λ f f', f_Name f' = f_Name f ∧ f_Vectorize f' = f_Vectorize f) (t_Fields (w_cur w)) (t_Fields (w_cur w')) → added w' g.
Proof.
  intros Hg Hp Hd Hf n v b. rewrite (Hg n v b), Hp, Hd. do 2 (apply and_iff_compat_l).
  split; intros (f & Hin & Hn & Hb); apply list_elem_of_lookup in Hin as [j Hj].
  - destruct (Forall2_lookup_l _ _ _ _ _ Hf Hj) as (f' & Hj' & Hn' & Hb'). exists f'. rewrite Hn', Hb'. split_and!; [|done..].
    by eapply list_elem_of_lookup_2.
  - destruct (Forall2_lookup_r _ _ _ _ _ Hf Hj) as (f' & Hj' & Hn' & Hb'). exists f'. rewrite <- Hn', <- Hb'. split_and!; [|done..].
    by eapply list_elem_of_lookup_2.
Qed.
Lemma added_add raw d dv ds w g : added w g → f_Name raw ∉ map f_Name (t_Fields (w_cur w)) →
  added (add_work (normalized raw) d dv ds w) (<[f_Name raw := (dv, f_Vectorize (normalized raw))]> g).
Proof.
  intros Hg Hn n v b. rewrite <- (normalized_name raw) in Hn |- *. generalize dependent (normalized raw). intros f Hn. cbn.
  destruct (decide (f_Name f = n)) as [<-|Hne].
  - rewrite !lookup_insert_eq. split.
    + intros [= -> <-]. split_and!; [done|done|]. exists f. rewrite elem_of_app, list_elem_of_singleton. auto.
    + intros (_ & [= ->] & f' & [Hf|Hf]%elem_of_app & Hfn & <-).
      * destruct Hn. rewrite <- Hfn. apply list_elem_of_fmap. by exists f'.
      * by apply list_elem_of_singleton in Hf as ->.
  - rewrite !lookup_insert_ne by done. rewrite (Hg n v b). do 2 (apply and_iff_compat_l).
    split; intros (f' & Hf & Hfn & Hb); exists f'; split_and!; try done; [apply elem_of_app; by left|].
    apply elem_of_app in Hf as [Hf|Hf]; [done|]. apply list_elem_of_singleton in Hf as ->. done.
Qed.
Lemma named_at fs j f f' g : NoDup (map f_Name fs) → fs !! j = Some f →
  g ∈ <[j := f']> fs ↔ g = f' ∨ g ∈ fs ∧ f_Name g ≠ f_Name f.
Proof.
  intros Hnd Hj. pose proof (lookup_lt_Some _ _ _ Hj) as Hlt. split.
  - intros [i Hi]%list_elem_of_lookup. destruct (decide (i = j)) as [->|Hne].
    + rewrite list_lookup_insert_eq in Hi by done. injection Hi as <-. by left.
    + rewrite list_lookup_insert_ne in Hi by done. right. split; [by eapply list_elem_of_lookup_2|]. intros Heq.
      apply Hne. eapply NoDup_lookup; [exact Hnd| |]; rewrite list_lookup_fmap, ?Hi, ?Hj; cbn; by rewrite ?Heq.
  - intros [->|[[i Hi]%list_elem_of_lookup Hne]].
    + eapply list_elem_of_lookup_2. by apply list_lookup_insert_eq.
    + apply (list_elem_of_lookup_2 _ i). rewrite list_lookup_insert_ne; [done|]. intros ->. congruence.
Qed.
Lemma added_rename w dbk j f from to g : inv db base w dbk → added w g → t_Fields (w_cur w) !! j = Some f → f_Name f = from →
  to = from ∨ to ∉ map f_Name (t_Fields (w_cur w)) →
  added (rename_work j f from to w) (match g !! from with Some x => <[to := x]> (delete from g) | None => g end).
Proof.
  intros Hi Hg Hj Hn Hto. pose proof (names_nodup _ _ _ _ Hi) as Hnd. pose proof (list_elem_of_lookup_2 _ _ _ Hj) as Hf.
  assert (∀ w', w_phys w' = w_phys (if String.eqb to from then w else rename_maps from to w) →
    w_defaults w' = w_defaults (if String.eqb to from then w else rename_maps from to w) →
    t_Fields (w_cur w') = <[j := with_Name to f]> (t_Fields (w_cur w)) →
    added w' (match g !! from with Some x => <[to := x]> (delete from g) | None => g end)) as Hmain;
    [|unfold rename_work; by destruct (String.eqb to from); apply Hmain].
  intros w' Ep Ed Efs n v b. rewrite Ep, Ed, Efs. clear Ep Ed Efs w'. setoid_rewrite (named_at _ _ _ _ _ Hnd Hj). cbn.
  assert (match g !! from with Some x => <[to := x]> (delete from g) | None => g end !! n =
          if String.eqb n to then g !! from else if String.eqb n from then None else g !! n) as ->.
  { destruct (String.eqb_spec n to) as [->|Hnt]; [|destruct (String.eqb_spec n from) as [->|Hnf]]; destruct (g !! from) as [x|] eqn:Hx.
    - apply lookup_insert_eq.
    - destruct Hto as [->|Hto]; [done|by eapply added_names].
    - by rewrite lookup_insert_ne, lookup_delete_eq.
    - done.
    - by rewrite lookup_insert_ne, lookup_delete_ne.
    - done. }
  destruct (String.eqb_spec to from) as [->|Hne].
  - destruct (String.eqb_spec n from) as [->|Hnf]; rewrite (Hg _ v b); do 2 (apply and_iff_compat_l).
    + split; [intros (h & Hh & Hhn & Hb); exists (with_Name from f); split_and!; [by left|done|]|].
      * rewrite <- Hb. cbn. by rewrite (unique_name _ _ _ _ Hnd Hj Hh) by (by rewrite Hhn, Hn).
      * intros (h & [->|[Hh Hneq]] & Hhn & Hb); [by exists f|congruence].
    + split; intros (h & Hh & Hhn & Hb); exists h; (split; [|done]); [right|destruct Hh as [->|[? _]]; [done|done]].
      split; [done|]. by rewrite Hhn, Hn.
  - unfold rename_maps, phys_of. cbn. destruct (String.eqb_spec n to) as [->|Hnt]; [|destruct (String.eqb_spec n from) as [->|Hnf]].
    + rewrite (Hg from v b), lookup_delete_ne, lookup_insert_eq by done.
      destruct (inv_sourced _ _ _ _ Hi f Hf) as [(p & Hp & Hpne & _)|(Hp & v0 & Hv0 & _)]; rewrite Hn in *; rewrite Hp; cbn.
      * split; intros ([= ->] & _); done.
      * rewrite Hv0, lookup_delete_ne, lookup_insert_eq by done. do 2 (apply and_iff_compat_l). split.
        -- intros (h & Hh & Hhn & Hb). exists (with_Name to f). split_and!; [by left|done|]. rewrite <- Hb. cbn.
           by rewrite (unique_name _ _ _ _ Hnd Hj Hh) by (by rewrite Hhn, Hn).
        -- intros (h & [->|[Hh _]] & Hhn & Hb); [by exists f|]. destruct Hto as [|Hto]; [done|]. destruct Hto. rewrite <- Hhn.
           apply list_elem_of_fmap. by exists h.
    + rewrite lookup_delete_eq. split; [done|]. by intros (? & _).
    + rewrite (Hg n v b). destruct (rename_maps_other from to w n Hnf Hnt) as [Ep Ed]. unfold rename_maps, phys_of in Ep, Ed. cbn in Ep, Ed.
      rewrite Ep, Ed. do 2 (apply and_iff_compat_l).
      split; intros (h & Hh & Hhn & Hb); exists h; (split; [|done]); [right; split; [done|by rewrite Hhn, Hn]|].
      destruct Hh as [->|[? _]]; [cbn in Hhn; congruence|done].
Qed.
Lemma added_drop w dbk j f n0 g : inv db base w dbk → added w g → t_Fields (w_cur w) !! j = Some f → f_Name f = n0 →
  added (drop_work j f n0 w) (delete n0 g).
Proof.
  intros Hi Hg Hj Hn n v b. pose proof (names_nodup _ _ _ _ Hi) as Hnd. cbn. destruct (decide (n0 = n)) as [->|Hne].
  - rewrite !lookup_delete_eq. split; [done|]. by intros (? & _).
  - rewrite !lookup_delete_ne, (Hg n v b) by done. do 2 (apply and_iff_compat_l).
    split; intros (h & Hh & Hhn & Hb); exists h; (split; [|done]).
    + apply list_elem_of_lookup in Hh as [i Hih]. apply list_elem_of_lookup.
      assert (i ≠ j) as Hij by (intros ->; congruence). destruct (decide (i < j)%nat).
      * exists i. by rewrite list_lookup_delete_lt.
      * exists (pred i). rewrite list_lookup_delete_ge by lia. by replace (S (pred i)) with i by lia.
    + apply list_elem_of_lookup in Hh as [i Hih]. destruct (decide (i < j)%nat).
      * rewrite list_lookup_delete_lt in Hih by done. by eapply list_elem_of_lookup_2.
      * rewrite list_lookup_delete_ge in Hih by lia. by eapply list_elem_of_lookup_2.
Qed.
Lemma added_vectorize w dbk j f n0 x g : inv db base w dbk → added w g → t_Fields (w_cur w) !! j = Some f → f_Name f = n0 →
  added (set_field j (with_Vectorize x f) w) (match g !! n0 with Some (v, _) => <[n0 := (v, x)]> g | None => g end).
Proof.
  intros Hi Hg Hj Hn n v b. pose proof (names_nodup _ _ _ _ Hi) as Hnd. pose proof (list_elem_of_lookup_2 _ _ _ Hj) as Hf. cbn.
  setoid_rewrite (named_at _ _ _ _ _ Hnd Hj). cbn. destruct (decide (n0 = n)) as [->|Hne].
  - destruct (g !! n) as [[v1 b1]|] eqn:He.
    + rewrite lookup_insert_eq. pose proof He as (Hp & Hd & _)%Hg. split.
      * intros [= -> ->]. split_and!; [done|done|]. exists (with_Vectorize b f). by split; [left|].
      * intros (_ & Hd' & h & [->|[Hh Hhne]] & Hhn & Hb); [|congruence]. rewrite Hd in Hd'. injection Hd' as ->. by rewrite <- Hb.
    + rewrite He. split; [done|]. intros (Hp & Hd & _). exfalso. assert (g !! n = Some (v, f_Vectorize f)) as Hc; [|congruence].
      apply Hg. split_and!; [done|done|]. by exists f.
  - assert (match g !! n0 with Some (v, _) => <[n0 := (v, x)]> g | None => g end !! n = g !! n) as ->
      by (destruct (g !! n0) as [[]|]; [by apply lookup_insert_ne|done]).
    rewrite (Hg n v b). do 2 (apply and_iff_compat_l). split; intros (h & Hh & Hhn & Hb); exists h; (split; [|done]).
    + right. split; [done|]. congruence.
    + destruct Hh as [->|[? _]]; [cbn in Hhn; congruence|done].
Qed.

Lemma added_ext w w' g : w_phys w' = w_phys w → w_defaults w' = w_defaults w → t_Fields (w_cur w') = t_Fields (w_cur w) →
  added w g → added w' g.
Proof. intros Hp Hd Hf Hg n v b. rewrite (Hg n v b). by rewrite Hp, Hd, Hf. Qed.
Lemma plan_change_added i ch w u w' dbk g : inv db base w dbk → added w g →
  plan_change faults polls naming tables db scope i ch w = (Done u, w') → added w' (added_step g ch).
Proof.
  intros Hi Hg [[Hop H]|[[Hop H]|[[Hop H]|[Hop [Hsv Hs]]]]]%plan_change_cases.
  - apply add_field_Done in H as (raw & dv & ds & Hraw & _ & Hn & _ & Hb & _ & _ & x & k & ->).
    assert (added_step g ch = <[f_Name raw := (dv, f_Vectorize (normalized raw))]> g) as -> by (unfold added_step; by rewrite Hop, Hraw, Hb).
    apply (added_ext (add_work (normalized raw) (ch_Default ch) dv ds w)); try done. apply added_add; [done|]. by rewrite <- normalized_name.
  - apply rename_field_Done in H as (j & f & Hj & Hn & _ & _ & _ & Hto & ->).
    assert (added_step g ch = match g !! ch_From ch with Some x => <[ch_To ch := x]> (delete (ch_From ch) g) | None => g end) as ->
      by (unfold added_step; by rewrite Hop).
    by eapply added_rename.
  - apply drop_field_Done in H as (j & f & Hj & Hn & _ & _ & ->).
    assert (added_step g ch = delete (ch_Name ch) g) as -> by (unfold added_step; by rewrite Hop).
    by eapply added_drop.
  - unfold moving_ops in Hop. rewrite !not_elem_of_cons in Hop. destruct Hop as (Ha & Hr & Hd & _).
    unfold added_step. rewrite (proj2 (String.eqb_neq _ _) Ha), (proj2 (String.eqb_neq _ _) Hr), (proj2 (String.eqb_neq _ _) Hd).
    destruct (String.eqb_spec (ch_Op ch) OpSetVectorize) as [Hop|Hop].
    + apply Hsv, set_vectorize_Done in Hop as (j & f & Hj & Hn & ->).
      eapply added_ext; [| | |by eapply (added_vectorize w dbk j f _ (flag_value ch))]; done.
    + destruct Hs as [Hf [Hp Hde] _ _ _]. apply (added_field w); [done|done|done|]. eapply Forall2_impl; [exact Hf|].
      intros f f' [Hn _ Hv]. split; [done|]. apply Hv. by right.
Qed.
Lemma plan_changes_added changes : ∀ i w u w' dbk g, inv db base w dbk → added w g →
  plan_changes faults polls naming tables db scope i changes w = (Done u, w') → added w' (foldl added_step g changes).
Proof.
  induction changes as [|ch changes IH]; intros i w u w' dbk g Hi Hg H; cbn [plan_changes] in H; plan_inv H; [done|].
  destruct (plan_change_moves _ _ _ _ _ _ _ _ _ _ _ _ _ Hi P) as (d1 & Hi1 & _). cbn. eapply IH; [exact Hi1| |exact H].
  exact (plan_change_added _ _ _ _ _ _ _ Hi Hg P).
Qed.
Lemma start_added n t old : (∀ f, f ∈ t_Fields old → f_Name f ≠ "") → added (start n t old) ∅.
Proof.
  intros Hne x v b. rewrite lookup_empty. split; [done|]. intros (Hp & _). unfold start in Hp. cbn in Hp.
  apply elem_of_list_to_map_2, list_elem_of_fmap in Hp as (f & [= -> Hf] & Hin). by destruct (Hne f Hin).
Qed.
End Tracing.

(** C11. What a plan tells a caller restricted to some rows depends on those
    rows only: two tables with the same visible rows, whatever else they and
    the rest of the namespace hold, have the same plan (its counts of rows
    included), when neither is refused. *)
Theorem scoped_plan_discloses_nothing {DB} `{Engine DB} `{UnicodeTables} faults1 faults2 polls1 polls2 naming1 naming2 final1 final2
    tables1 tables2 (db1 db2 : DB) embeds identity scope n t old changes v m1 m2
    (Hsame : same_visible db1 db2 scope)
    (H1 : planMigration faults1 polls1 naming1 final1 tables1 db1 embeds identity scope n t old changes v = Done m1)
    (H2 : planMigration faults2 polls2 naming2 final2 tables2 db2 embeds identity scope n t old changes v = Done m2) :
  m1 = m2.
Proof.
  exact (plans_alike _ _ _ _ _ _ _ _ _ _ _ _ _ _ _ Hsame n t old changes v m1 m2 H1 H2).
Qed.

(** ** A migration that runs *)

Import Sheet.
#[local] Existing Instance ascii_tables.

Definition plain_field (n : string) (t : FieldType) (required fulltext : bool) : Field :=
  MkField n t fulltext false 0 required None "" JNull 0 None.
Definition notes : TableSchema :=
  MkTable "ns" "notes" 3
    [plain_field "title" TString true false; plain_field "body" Text false true; plain_field "meta" JSON false false]
    "" 0 "" false [] false None.
Definition note (title body : string) : gmap string sqlval :=
  <["title" := VText title]> (<["body" := VText body]> {["meta" := VJson (JObject [("k", JNumber "1")])]}).
Definition notes_of (rows : list (Z * gmap string sqlval)) : sheet :=
  MkSheet [("id", "INTEGER"); ("created_at", "TEXT"); ("title", "TEXT"); ("body", "TEXT"); ("meta", "TEXT")] rows ["id"].
Definition notes_table : sheet := notes_of [(1, note "draft" "first"); (2, note "done" "second")].

Definition blank (op name : string) : Change :=
  MkChange op None "" "" name None None None None None JNull None.
Definition rename (from to : string) : Change :=
  MkChange OpRenameField None from to "" None None None None None JNull None.
Definition add (f : Field) (d : json) : Change :=
  MkChange OpAddField (Some f) "" "" "" None None None None None d None.
Definition enum_to (n : string) (vals : list string) : Change :=
  MkChange OpSetEnum None "" "" n None (Some vals) None None None JNull None.
Definition shape_to (n shape : string) : Change :=
  MkChange OpSetShape None "" "" n None None (Some shape) None None JNull None.
Definition changes : list Change :=
  [rename "title" "state"; enum_to "state" ["draft"; "done"]; add (plain_field "stars" Number true false) (JNumber "3");
   blank OpDropField "body"; shape_to "meta" "object"; rename "state" "title"].

Definition fine : nat → bool := λ _, false.
Definition calm : nat → nat → ctx := λ _ _, background.
Definition plan_notes (scope : option RowScope) (db : sheet) (changes : list Change) (v : Z) : outcome migrate_error migrationWork :=
  planMigration fine (λ _, quiet) calm still ∅ db false "" scope "ns" "notes" notes changes v.
Definition no_plan : migrationWork :=
  MkMigration notes [] (MkPlan 0 0 notes [] [] 0 false 0 false 0) false false no_embedding.
Definition planned_notes : migrationWork := match plan_notes None notes_table changes 3 with Done m => m | _ => no_plan end.

Example planned_statements : m_steps planned_notes =
  [RenameColumn "title" "state"; AddColumn "stars" "NUMERIC" true (VInt 3); DropColumn "body"; RenameColumn "state" "title"].
Proof. vm_compute. reflexivity. Qed.
Example enum_refused : plan_notes None notes_table [enum_to "title" ["draft"]] 3 = Fail (EnumInUse "title" (Some [("done", 1)])).
Proof. vm_compute. reflexivity. Qed.
Example scoped_enum_refused :
  plan_notes (Some (MkRowScope "ann" true)) notes_table [enum_to "title" ["draft"]] 3 = Fail (EnumInUse "title" None).
Proof. vm_compute. reflexivity. Qed.
Example required_refused : plan_notes None notes_table [add (plain_field "stars" Number true false) JNull] 3
  = Fail (RequiredWithoutDefault "stars" (Some 2)).
Proof. vm_compute. reflexivity. Qed.

Lemma notes_laid_out rows : laid_out ["id"; "created_at"] notes (notes_of rows).
Proof.
  split.
  - reflexivity.
  - eapply bool_decide_unpack; vm_compute; exact I.
  - intros c Hc. apply mem_spec. apply elem_of_cons in Hc as [->|Hc]; [reflexivity|].
    apply list_elem_of_singleton in Hc as ->. reflexivity.
  - repeat constructor.
  - eapply bool_decide_unpack; vm_compute; exact I.
  - intros c Hc. left. apply list_elem_of_singleton in Hc as ->. left.
Defined.

Lemma migration_refines_witness : ∃ db',
  run_steps (m_steps planned_notes) notes_table = Some db' ∧ laid_out ["id"; "created_at"] (m_cur planned_notes) db' ∧ ids db' = [1; 2] ∧
  table_of (t_Fields (m_cur planned_notes)) db' = foldl (spec_change (DB := sheet) 2) (table_of (t_Fields notes) notes_table) changes.
Proof.
  refine (migration_refines fine (λ _, quiet) calm still ∅ notes_table false "" None ["id"; "created_at"] "ns" "notes" notes changes 3
    planned_notes (notes_laid_out _) _). vm_compute. reflexivity.
Defined.

Definition migrated : sheet := default notes_table (run_steps (m_steps planned_notes) notes_table).
Lemma notes_fit : rows_fit (t_Fields notes) notes_table.
Proof.
  intros f id Hf Hid. apply elem_of_cons in Hid as [->|Hid]; [|apply list_elem_of_singleton in Hid as ->];
    (apply elem_of_cons in Hf as [->|Hf]; [vm_compute; reflexivity|]; apply elem_of_cons in Hf as [->|Hf]; [vm_compute; reflexivity|];
     apply list_elem_of_singleton in Hf as ->; vm_compute; reflexivity).
Qed.
Lemma migration_keeps_rows_fit_witness : rows_fit (t_Fields (m_cur planned_notes)) migrated.
Proof.
  refine (migration_keeps_rows_fit fine (λ _, quiet) calm still ∅ notes_table false "" None ["id"; "created_at"] "ns" "notes" notes changes 3
    planned_notes migrated (notes_laid_out _) _ _ notes_fit); vm_compute; reflexivity.
Defined.

Lemma planned_declaration_witness : t_Version (m_cur planned_notes) = 4 ∧ (existsb destroys changes = true → 3 = t_Version notes).
Proof.
  destruct (planned_declaration fine (λ _, quiet) calm still ∅ notes_table false "" None "ns" "notes" notes changes 3 planned_notes)
    as (_ & _ & Hv & _ & _ & _ & Hd); [vm_compute; reflexivity|vm_compute; reflexivity|]. split; [exact Hv|exact Hd].
Defined.

(** Two tables that differ in a row the scope hides. *)
Definition owned (owner title : string) : gmap string sqlval := <["owner" := VText owner]> (note title "text").
Definition shared_table (rows : list (Z * gmap string sqlval)) : sheet :=
  MkSheet [("id", "INTEGER"); ("created_at", "TEXT"); ("owner", "TEXT"); ("title", "TEXT"); ("body", "TEXT"); ("meta", "TEXT")] rows ["id"; "owner"].
Definition anns : option RowScope := Some (MkRowScope "ann" false).
Definition few : sheet := shared_table [(1, owned "ann" "draft")].
Definition more : sheet := shared_table [(1, owned "ann" "draft"); (2, owned "bob" "done"); (3, owned "bob" "draft")].
Definition ann_plan : migrationWork := match plan_notes anns few changes 3 with Done m => m | _ => no_plan end.
Definition ann_plan_more : migrationWork := match plan_notes anns more changes 3 with Done m => m | _ => no_plan end.
Lemma scoped_plan_discloses_nothing_witness : ann_plan = ann_plan_more ∧ p_BackfillRows (m_plan ann_plan_more) = 1.
Proof.
  split; [|vm_compute; reflexivity].
  refine (scoped_plan_discloses_nothing fine fine (λ _, quiet) (λ _, quiet) calm calm still still ∅ ∅ few more false "" anns "ns" "notes"
    notes changes 3 ann_plan ann_plan_more _ _ _); [|vm_compute; reflexivity|vm_compute; reflexivity].
  split; [vm_compute; reflexivity|]. intros id c Hid Hvis. apply list_elem_of_singleton in Hid as ->. reflexivity.
Defined.

Definition walked : work :=
  snd (plan_changes fine (λ _, quiet) calm ∅ notes_table None 0 changes (start "ns" "notes" notes)).
Lemma unknown_keys_follow_witness : keys_source (RenamesOf changes) "title" = Some "title".
Proof.
  refine (unknown_keys_follow fine (λ _, quiet) calm ∅ notes_table None "ns" "notes" notes changes () walked _ "title" "title" _ _);
    [vm_compute; reflexivity|vm_compute; reflexivity|discriminate].
Defined.

(** A field that is added under a name an old field was renamed away from gets
    the old field's unknown keys, as well as the field they belong to. *)
Definition reused : list Change := [rename "title" "state"; add (plain_field "title" Number false false) JNull].
Lemma reused_name_takes_keys :
  (∃ m, plan_notes None notes_table reused 3 = Done m ∧ map f_Name (t_Fields (m_cur m)) = ["state"; "body"; "meta"; "title"]) ∧
  keys_source (RenamesOf reused) "title" = Some "title" ∧ keys_source (RenamesOf reused) "state" = Some "title".
Proof.
  split; [|split; reflexivity]. eexists. split; [vm_compute; reflexivity|reflexivity].
Qed.

(** ** Every plan comes to an end *)

Lemma check_halts {A} (o : outcome migrate_error A) : o ≠ OutOfFuel → halts (check o).
Proof. intros Ho s. exact Ho. Qed.
Lemma look_halts {A} (f : work → A) : halts (look f).
Proof. done. Qed.
Lemma change_halts f : halts (change f).
Proof. done. Qed.
Lemma when_halts b m : halts m → halts (when_ b m).
Proof. by destruct b. Qed.
Lemma query_halts {A} faults (a : A) : halts (query faults a).
Proof. intros s. unfold query. by destruct (faults _). Qed.
Lemma findField_halts n : halts (findField n).
Proof. intros s. unfold findField. by destruct (list_find _ _). Qed.
Lemma refuse_returns {Er} b (e : Er) : refuse b e ≠ OutOfFuel.
Proof. by destruct b. Qed.
Create HintDb halt_act.
#[export] Hint Resolve aret_halts afail_halts look_halts change_halts query_halts findField_halts : halt_act.
#[export] Hint Resolve refuse_returns : halts.
Ltac halting_act :=
  repeat first
    [ progress cbn beta zeta
    | solve [auto with halt_act halts nocore]
    | match goal with
      | |- halts (abind _ _) => apply abind_halts; [|intros ?]
      | |- halts (check _) => apply check_halts
      | |- halts (when_ _ _) => apply when_halts
      | |- halts (match _ with _ => _ end) => case_match
      end
    | progress halting ].

Section PlansEnd.
Context {DB : Type} {E : Engine DB} {UT : UnicodeTables}.
Context (faults : nat → bool) (polls : nat → polls) (naming : nat → nat → ctx) (final : oracle).
Context (tables : catalog) (db : DB) (embeds : bool) (identity : string) (scope : option RowScope).
#[local] Hint Resolve ValidateIdent_returns Coerce_returns ValidateFileConstraints_returns ValidateForMigration_returns
  ValidateConstraintDeclarations_returns checkConstraints_returns enum_loop_returns : halts.

Lemma change_args_returns i ch owner : change_args i ch owner ≠ OutOfFuel.
Proof. unfold change_args, ShapeChangeArgs, FileConstraintArgs. halting. Qed.
Lemma RefuseMixed_returns changes : RefuseMixedConstraintChanges changes ≠ OutOfFuel.
Proof. unfold RefuseMixedConstraintChanges. halting. Qed.
Lemma backfill_default_returns f d : backfill_default f d ≠ OutOfFuel.
Proof. unfold backfill_default, coerceValue, sqlLiteral. halting. Qed.
Lemma constrained_halts n op field : halts (RefuseConstrainedField naming n op field).
Proof. intros s. unfold RefuseConstrainedField. by repeat case_match. Qed.
Lemma referencing_halts t : halts (sqliteReferencing faults tables t).
Proof. unfold sqliteReferencing. halting_act. Qed.
#[local] Hint Resolve change_args_returns RefuseMixed_returns backfill_default_returns : halts.
#[local] Hint Resolve constrained_halts referencing_halts : halt_act.

Lemma add_field_halts i ch : halts (add_field faults db scope i ch).
Proof. unfold add_field, add_rows, countRows, visibleCount, ident_check. halting_act. Qed.
Lemma rename_field_halts n ch : halts (rename_field naming n ch).
Proof. unfold rename_field, ident_check. halting_act. Qed.
Lemma set_enum_halts ch : halts (set_enum faults db scope ch).
Proof. unfold set_enum, enum_rows, enum_defaults, field_check, ValidateEnum. halting_act. Qed.
Lemma set_shape_halts ch : halts (set_shape faults db scope ch).
Proof. unfold set_shape, shape_rows, ShapeTarget, ShapeDefaults, field_check, ValidateShape. halting_act. Qed.
Lemma set_file_halts ch : halts (set_file_constraints faults db scope ch).
Proof. unfold set_file_constraints, file_rows, FileConstraintField, field_check. halting_act. Qed.
Lemma set_row_access_halts ch : halts (set_row_access faults tables db scope ch).
Proof. unfold set_row_access, enable_row_access, countRows, ValidateOwnerCollision, RefuseConstrainedRowAccess. halting_act. Qed.
#[local] Hint Resolve add_field_halts rename_field_halts set_enum_halts set_shape_halts set_file_halts set_row_access_halts : halt_act.
Lemma plan_change_halts i ch : halts (plan_change faults polls naming tables db scope i ch).
Proof.
  unfold plan_change, apply_change, drop_field, set_fulltext, set_vectorize, add_constraint, drop_constraint, set_accept_references.
  halting_act.
Qed.
#[local] Hint Resolve plan_change_halts : halt_act.
Lemma plan_changes_halts changes : ∀ i, halts (plan_changes faults polls naming tables db scope i changes).
Proof. induction changes; intros i; cbn; halting_act. Qed.
#[local] Hint Resolve plan_changes_halts : halt_act.

Lemma planMigration_returns n t old changes v :
  planMigration faults polls naming final tables db embeds identity scope n t old changes v ≠ OutOfFuel.
Proof.
  assert (halts (plan_body faults polls naming final tables db embeds identity scope old changes v)) as He; [|apply He].
  unfold plan_body, reindex_rows, plan_embedding, embed_source, visibleCount, check_constraints, field_check. halting_act.
Qed.
End PlansEnd.
