(* ===== verification/FtsQuery.v ===== *)
(** * Full-text queries for PostgreSQL ([internal/postgres/fts_query.go])

    A search text is cut into words, phrases, operators and parentheses, read
    by a recursive-descent parser, and compiled to an expression over
    [tsquery] functions whose every text is a bound argument. *)
From Stdlib Require Import ZArith Lia Ascii String.
From stdpp Require Import base gmap strings list numbers pretty.
From S2P Require Import Prelude GoStrings SchemaIdent.
Local Open Scope Z_scope.

Definition ftsConfig : string := "english".

(** ** Tokens *)

Inductive ftsToken :=
| TOpen | TClose | TAnd | TOr | TNot
| TPhrase (text : string)
| TWord (text : string) (star : bool).

Inductive fts_error :=
| Unterminated | ColumnFilter | ColumnGroup | SingleQuote | FirstToken | Adjacency | BareMinus | BareStar | Proximity
| ExpectedTerm | Unbalanced | NoTerms | PrefixNeedsWord (term : string).

Inductive tsNode :=
| tsTerm (text : string) (prefix : bool)
| tsPhrase (text : string)
| tsBinary (op : ascii) (lhs rhs : tsNode).

Definition double_quote : ascii := ascii_of_N 34.
Definition single_quote : ascii := ascii_of_N 39.

(** The text up to the next double quote, and what follows it. *)
Fixpoint until_quote (s : string) : option (string * string) :=
  match s with
  | EmptyString => None
  | String c s => if Ascii.eqb c double_quote then Some (EmptyString, s)
                  else match until_quote s with Some (a, rest) => Some (String c a, rest) | None => None end
  end.

Section Tokens.
Context {UT : UnicodeTables}.

(** The runes that end a word. *)
Definition word_end (r : Z) : bool :=
  is_space r || (r =? 40) || (r =? 41) || (r =? 34) || (r =? 58) || (r =? 123) || (r =? 39) || (r =? 94)
  || (r =? 43) || (r =? 45).

(** A word: its text without a closing star, whether it had one, and the rest. *)
Fixpoint read_word (fuel : nat) (s : string) : string * bool * string :=
  match fuel with
  | O => ("", false, s)
  | S fuel =>
      match s with
      | EmptyString => ("", false, "")
      | _ =>
          let '(r, w) := decode_rune s in
          if word_end r then ("", false, s)
          else if r =? 42 then ("", true, str_drop w s)
          else let '(word, star, rest) := read_word fuel (str_drop w s) in (str_take w s +:+ word, star, rest)
      end
  end.

Definition word_token (word : string) (star : bool) : outcome fts_error ftsToken :=
  if String.eqb word "" then Fail BareStar
  else if String.eqb word "AND" then Done TAnd
  else if String.eqb word "OR" then Done TOr
  else if String.eqb word "NOT" then Done TNot
  else if String.eqb word "NEAR" then Fail Proximity
  else Done (TWord word star).

Fixpoint ftsTokenize_fuel (fuel : nat) (s : string) : outcome fts_error (list ftsToken) :=
  match fuel with
  | O => OutOfFuel
  | S fuel =>
      match s with
      | EmptyString => Done []
      | _ =>
          let '(r, w) := decode_rune s in
          let rest := str_drop w s in
          if is_space r then ftsTokenize_fuel fuel rest
          else if r =? 40 then let! ts := ftsTokenize_fuel fuel rest in Done (TOpen :: ts)
          else if r =? 41 then let! ts := ftsTokenize_fuel fuel rest in Done (TClose :: ts)
          else if r =? 34 then
            match until_quote rest with
            | None => Fail Unterminated
            | Some (text, rest) => let! ts := ftsTokenize_fuel fuel rest in Done (TPhrase text :: ts)
            end
          else if r =? 58 then Fail ColumnFilter
          else if r =? 123 then Fail ColumnGroup
          else if r =? 39 then Fail SingleQuote
          else if r =? 94 then Fail FirstToken
          else if r =? 43 then Fail Adjacency
          else if r =? 45 then Fail BareMinus
          else
            let '(word, star, rest) := read_word (String.length s) s in
            let! t := word_token word star in
            let! ts := ftsTokenize_fuel fuel rest in
            Done (t :: ts)
      end
  end.
Definition ftsTokenize (s : string) : outcome fts_error (list ftsToken) :=
  ftsTokenize_fuel (S (String.length s)) s.
End Tokens.

(** ** The parser, on the tokens that are left *)

Definition parsed : Type := outcome fts_error (tsNode * list ftsToken).

Fixpoint primary (fuel : nat) (ts : list ftsToken) : parsed :=
  match fuel with
  | O => OutOfFuel
  | S fuel =>
      match ts with
      | TWord text star :: ts => Done (tsTerm text star, ts)
      | TPhrase text :: ts => Done (tsPhrase text, ts)
      | TOpen :: ts =>
          let! (inner, ts) := orExpr fuel ts in
          match ts with
          | TClose :: ts => Done (inner, ts)
          | _ => Fail Unbalanced
          end
      | _ => Fail ExpectedTerm
      end
  end
with notExpr (fuel : nat) (ts : list ftsToken) : parsed :=
  match fuel with
  | O => OutOfFuel
  | S fuel => let! (lhs, ts) := primary fuel ts in not_loop fuel lhs ts
  end
with not_loop (fuel : nat) (lhs : tsNode) (ts : list ftsToken) : parsed :=
  match fuel with
  | O => OutOfFuel
  | S fuel =>
      match ts with
      | TNot :: ts => let! (rhs, ts) := primary fuel ts in not_loop fuel (tsBinary "!" lhs rhs) ts
      | _ => Done (lhs, ts)
      end
  end
with andExpr (fuel : nat) (ts : list ftsToken) : parsed :=
  match fuel with
  | O => OutOfFuel
  | S fuel => let! (lhs, ts) := notExpr fuel ts in and_loop fuel lhs ts
  end
with and_loop (fuel : nat) (lhs : tsNode) (ts : list ftsToken) : parsed :=
  match fuel with
  | O => OutOfFuel
  | S fuel =>
      match ts with
      | [] | TClose :: _ | TOr :: _ => Done (lhs, ts)
      | TAnd :: ts => let! (rhs, ts) := notExpr fuel ts in and_loop fuel (tsBinary "&" lhs rhs) ts
      | _ => let! (rhs, ts) := notExpr fuel ts in and_loop fuel (tsBinary "&" lhs rhs) ts
      end
  end
with orExpr (fuel : nat) (ts : list ftsToken) : parsed :=
  match fuel with
  | O => OutOfFuel
  | S fuel => let! (lhs, ts) := andExpr fuel ts in or_loop fuel lhs ts
  end
with or_loop (fuel : nat) (lhs : tsNode) (ts : list ftsToken) : parsed :=
  match fuel with
  | O => OutOfFuel
  | S fuel =>
      match ts with
      | TOr :: ts => let! (rhs, ts) := andExpr fuel ts in or_loop fuel (tsBinary "|" lhs rhs) ts
      | _ => Done (lhs, ts)
      end
  end.

Definition fts_fuel (ts : list ftsToken) : nat := 8 * length ts + 4.

Section Compile.
Context {UT : UnicodeTables}.

Definition parseFTSQuery (match_ : string) : outcome fts_error tsNode :=
  let! ts := ftsTokenize match_ in
  match ts with
  | [] => Fail NoTerms
  | _ =>
      let! (node, rest) := orExpr (fts_fuel ts) ts in
      match rest with [] => Done node | _ => Fail Unbalanced end
  end.

(** ** The compiler *)

Definition simpleLexeme (term : string) : bool :=
  forallb (λ r, (r =? 95) || is_letter r || is_digit_rune r) (runes term) && negb (String.eqb term "").

(** [*ftsCompiler]: how many arguments stand before the query's, the query's
    arguments, and the first error. *)
Record ftsCompiler := MkCompiler { fc_offset : nat; fc_args : list string; fc_err : option fts_error }.

Definition param (c : ftsCompiler) (v : string) : string * ftsCompiler :=
  let c' := MkCompiler (fc_offset c) (fc_args c ++ [v]) (fc_err c) in
  ("$" +:+ pretty (Z.of_nat (fc_offset c' + length (fc_args c'))), c').

Definition call_of (f : string) (p : string) : string :=
  f +:+ "_tsquery(" +:+ String single_quote "" +:+ ftsConfig +:+ String single_quote "" +:+ "," +:+ p +:+ ")".

Definition operator_text (op : ascii) : string :=
  if Ascii.eqb op "|" then " || " else if Ascii.eqb op "!" then " && !! " else " && ".

Definition prefix_arg (text : string) : string :=
  String single_quote "" +:+ text +:+ String single_quote "" +:+ ":*".

Fixpoint write (c : ftsCompiler) (node : tsNode) : string * ftsCompiler :=
  match node with
  | tsTerm text prefix =>
      if negb prefix then let '(p, c) := param c text in (call_of "plainto" p, c)
      else if negb (simpleLexeme text) then
        let c := MkCompiler (fc_offset c) (fc_args c)
                   (match fc_err c with None => Some (PrefixNeedsWord text) | e => e end) in
        let '(p, c) := param c text in (call_of "plainto" p, c)
      else let '(p, c) := param c (prefix_arg text) in (call_of "to" p, c)
  | tsPhrase text => let '(p, c) := param c text in (call_of "phraseto" p, c)
  | tsBinary op lhs rhs =>
      let '(a, c) := write c lhs in
      let '(b, c) := write c rhs in
      ("(" +:+ a +:+ operator_text op +:+ b +:+ ")", c)
  end.

Definition compileFTSQuery (match_ : string) (offset : nat) : outcome fts_error (string * list string) :=
  let! node := parseFTSQuery match_ in
  let '(sql, c) := write (MkCompiler offset [] None) node in
  match fc_err c with
  | Some e => Fail e
  | None => Done (sql, fc_args c)
  end.
End Compile.

#[local] Existing Instance ascii_tables.
Example compile_sample :
  compileFTSQuery "pay* (card OR bank) NOT fraud" 2
  = Done ("(to_tsquery('english',$3) && ((plainto_tsquery('english',$4) || plainto_tsquery('english',$5)) && !! plainto_tsquery('english',$6)))",
          ["'pay':*"; "card"; "bank"; "fraud"]).
Proof. vm_compute. reflexivity. Qed.
