(* ===== verification/FtsTheorems.v ===== *)
(** * The theorems of full-text queries

    The parser always answers and keeps every term; the SQL it compiles to
    has the words of the caller as bound arguments only. *)
From Stdlib Require Import ZArith Lia Ascii String.
From stdpp Require Import base gmap strings list numbers pretty.
From S2P Require Import Prelude GoStrings SchemaIdent SchemaText FtsQuery.
Local Open Scope Z_scope.

(** ** Enough fuel *)

(** An answer whose rest is shorter than [n]. *)
Definition shortens (n : nat) (m : parsed) : Prop :=
  match m with
  | Done (_, ts) => (length ts < n)%nat
  | Fail _ => True
  | OutOfFuel => False
  end.

Lemma shortens_bind n k (m : parsed) (f : tsNode * list ftsToken → parsed) :
  shortens n m → (∀ a ts, (length ts < n)%nat → shortens k (f (a, ts))) → shortens k (obind m f).
Proof. destruct m as [[a ts]|e|]; simpl; auto. Qed.

Lemma shortens_le n k m : shortens n m → (n ≤ k)%nat → shortens k m.
Proof. destruct m as [[a ts]|e|]; simpl; lia || done. Qed.

Lemma parser_total fuel :
  (∀ ts, (8 * length ts + 1 ≤ fuel)%nat → shortens (length ts) (primary fuel ts))
  ∧ (∀ ts, (8 * length ts + 2 ≤ fuel)%nat → shortens (length ts) (notExpr fuel ts))
  ∧ (∀ lhs ts, (8 * length ts + 1 ≤ fuel)%nat → shortens (S (length ts)) (not_loop fuel lhs ts))
  ∧ (∀ ts, (8 * length ts + 3 ≤ fuel)%nat → shortens (length ts) (andExpr fuel ts))
  ∧ (∀ lhs ts, (8 * length ts + 3 ≤ fuel)%nat → shortens (S (length ts)) (and_loop fuel lhs ts))
  ∧ (∀ ts, (8 * length ts + 4 ≤ fuel)%nat → shortens (length ts) (orExpr fuel ts))
  ∧ (∀ lhs ts, (8 * length ts + 1 ≤ fuel)%nat → shortens (S (length ts)) (or_loop fuel lhs ts)).
Proof.
  induction fuel as [|fuel (Hp & Hn & Hnl & Ha & Hal & Ho & Hol)]; [split_and!; intros; lia|].
  split_and!; intros; cbn [primary notExpr not_loop andExpr and_loop orExpr or_loop].
  - destruct ts as [|[| | | | |text|text star] ts]; simpl in *; try done; try lia.
    eapply shortens_bind; [apply Ho; simpl in *; lia|]. intros a rest Hr.
    destruct rest as [|[] rest]; simpl in *; try done; lia.
  - eapply shortens_bind; [apply Hp; lia|]. intros a rest Hr. eapply shortens_le; [apply Hnl; lia|lia].
  - destruct ts as [|[| | | | |text|text star] ts]; simpl in *; try lia.
    eapply shortens_bind; [apply Hp; lia|]. intros a rest Hr. eapply shortens_le; [apply Hnl; lia|lia].
  - eapply shortens_bind; [apply Hn; lia|]. intros a rest Hr. eapply shortens_le; [apply Hal; lia|lia].
  - assert (∀ us, (length us ≤ length ts)%nat →
      shortens (S (length ts)) (let! (rhs, ts) := notExpr fuel us in and_loop fuel (tsBinary "&" lhs rhs) ts)) as Hstep.
    { intros us Hus. eapply shortens_bind; [apply Hn; lia|]. intros a rest Hr.
      eapply shortens_le; [apply Hal; lia|lia]. }
    destruct ts as [|[| | | | |text|text star] ts]; try (simpl; lia); try (by apply Hstep).
    apply Hstep. simpl. lia.
  - eapply shortens_bind; [apply Ha; lia|]. intros a rest Hr. eapply shortens_le; [apply Hol; lia|lia].
  - destruct ts as [|[| | | | |text|text star] ts]; simpl in *; try lia.
    eapply shortens_bind; [apply Ha; lia|]. intros a rest Hr. eapply shortens_le; [apply Hol; lia|lia].
Qed.

(** ** The words of a query *)

(** A term or phrase, as a token and as a leaf. *)
Inductive leaf := LWord (text : string) (prefix : bool) | LPhrase (text : string).
Definition token_leaf (t : ftsToken) : option leaf :=
  match t with TWord text star => Some (LWord text star) | TPhrase text => Some (LPhrase text) | _ => None end.
Definition token_leaves (ts : list ftsToken) : list leaf := omap token_leaf ts.
Fixpoint leaves (n : tsNode) : list leaf :=
  match n with
  | tsTerm text prefix => [LWord text prefix]
  | tsPhrase text => [LPhrase text]
  | tsBinary _ l r => leaves l ++ leaves r
  end.

(** What was read is what the leaves say. *)
Definition reads_leaves (before : list leaf) (ts : list ftsToken) (m : parsed) : Prop :=
  ∀ n rest, m = Done (n, rest) → before ++ token_leaves ts = leaves n ++ token_leaves rest.

Lemma reads_bind b1 b2 ts1 ts2 (m : parsed) f :
  reads_leaves b1 ts1 m →
  (∀ n rest, b1 ++ token_leaves ts1 = leaves n ++ token_leaves rest → reads_leaves b2 ts2 (f (n, rest))) →
  reads_leaves b2 ts2 (obind m f).
Proof. intros Hm Hf n rest ([n1 r1] & H1 & H2)%obind_Done. eapply Hf; eauto. Qed.

Lemma parser_leaves fuel :
  (∀ ts, reads_leaves [] ts (primary fuel ts)) ∧ (∀ ts, reads_leaves [] ts (notExpr fuel ts))
  ∧ (∀ lhs ts, reads_leaves (leaves lhs) ts (not_loop fuel lhs ts))
  ∧ (∀ ts, reads_leaves [] ts (andExpr fuel ts)) ∧ (∀ lhs ts, reads_leaves (leaves lhs) ts (and_loop fuel lhs ts))
  ∧ (∀ ts, reads_leaves [] ts (orExpr fuel ts)) ∧ (∀ lhs ts, reads_leaves (leaves lhs) ts (or_loop fuel lhs ts)).
Proof.
  induction fuel as [|fuel (Hp & Hn & Hnl & Ha & Hal & Ho & Hol)]; [by split_and!; intros; intros ? ?|].
  assert (∀ (m : list ftsToken → parsed) (loop : tsNode → list ftsToken → parsed),
    (∀ ts, reads_leaves [] ts (m ts)) → (∀ lhs ts, reads_leaves (leaves lhs) ts (loop lhs ts)) →
    (∀ ts, reads_leaves [] ts (let! (lhs, ts) := m ts in loop lhs ts))
    ∧ ∀ op lhs ts, reads_leaves (leaves lhs) ts (let! (rhs, ts) := m ts in loop (tsBinary op lhs rhs) ts)) as Hchain.
  { intros m loop Hm Hl. split.
    - intros ts. eapply reads_bind; [apply Hm|]. intros n rest Heq n' rest' Hd%Hl. simpl in *. congruence.
    - intros op lhs ts. eapply reads_bind; [apply Hm|]. intros n rest Heq n' rest' Hd%Hl. simpl in *.
      rewrite <-Hd, <-app_assoc. by rewrite <-Heq. }
  split_and!; intros; cbn [primary notExpr not_loop andExpr and_loop orExpr or_loop].
  - destruct ts as [|[| | | | |text|text star] ts]; try (intros ? ?; discriminate);
      try (by intros ? ? [= <- <-]).
    eapply (reads_bind [] [] ts); [apply Ho|]. intros n rest Heq n' rest' Hd.
    destruct rest as [|[] rest]; simplify_eq. done.
  - by apply Hchain.
  - destruct ts as [|[| | | | |text|text star] ts]; try (by intros ? ? [= <- <-]).
    exact (proj2 (Hchain _ _ Hp Hnl) _ lhs ts).
  - by apply Hchain.
  - destruct ts as [|[| | | | |text|text star] ts]; try (by intros ? ? [= <- <-]);
      exact (proj2 (Hchain _ _ Hn Hal) _ lhs _).
  - by apply Hchain.
  - destruct ts as [|[| | | | |text|text star] ts]; try (by intros ? ? [= <- <-]).
    exact (proj2 (Hchain _ _ Ha Hol) _ lhs ts).
Qed.

Section Theorems.
Context {UT : UnicodeTables}.

Lemma decode_rune_width c s : (0 < (decode_rune (String c s)).2)%nat.
Proof.
  destruct (Z.lt_ge_cases (byte_val c) 0x80) as [Hc|Hc]; [rewrite decode_rune_ascii by done; simpl; lia|].
  destruct (decode_rune (String c s)) as [r w] eqn:E. by apply decode_rune_high in E as (_ & ? & _).
Qed.

Lemma until_quote_length s a rest : until_quote s = Some (a, rest) → (String.length rest < String.length s)%nat.
Proof.
  revert a. induction s as [|c s IH]; intros a; simpl; [done|].
  destruct (Ascii.eqb c double_quote); [intros [= <- <-]; lia|].
  destruct (until_quote s) as [[b r]|]; [|done]. intros [= <- <-]. specialize (IH _ eq_refl). lia.
Qed.

Lemma read_word_rest fuel s : (String.length (read_word fuel s).2 ≤ String.length s)%nat.
Proof.
  revert s. induction fuel as [|fuel IH]; intros [|c s]; cbn [read_word]; [simpl; lia..|].
  destruct (decode_rune (String c s)) as [r w]. destruct (word_end r); [simpl; lia|].
  destruct (r =? 42); [cbn [snd]; rewrite str_drop_length; lia|].
  specialize (IH (str_drop w (String c s))). rewrite str_drop_length in IH.
  destruct (read_word fuel _) as [[word star] rest]. simpl in *. lia.
Qed.

Lemma read_word_shorter c s word star rest :
  read_word (String.length (String c s)) (String c s) = (word, star, rest) → (word ≠ "" ∨ star = true) →
  (String.length rest < String.length (String c s))%nat.
Proof.
  intros H Hne. cbn [String.length read_word] in H.
  pose proof (decode_rune_width c s) as Hw. destruct (decode_rune (String c s)) as [r w]. cbn [snd] in Hw.
  destruct (word_end r); [injection H as <- <- <-; naive_solver|].
  destruct (r =? 42).
  { injection H as <- <- <-. rewrite str_drop_length. cbn [String.length]. lia. }
  pose proof (read_word_rest (String.length s) (str_drop w (String c s))) as Hr. rewrite str_drop_length in Hr.
  destruct (read_word (String.length s) _) as [[word' star'] rest']. injection H as <- <- <-. simpl in *. lia.
Qed.

Lemma word_token_nonempty word star t : word_token word star = Done t → word ≠ "".
Proof. unfold word_token. by destruct (String.eqb_spec word ""). Qed.

Lemma ftsTokenize_total fuel s : (String.length s < fuel)%nat → ftsTokenize_fuel fuel s ≠ OutOfFuel.
Proof.
  revert s. induction fuel as [|fuel IH]; intros [|c s] Hf; [simpl in Hf; lia..|done|].
  cbn [ftsTokenize_fuel]. pose proof (decode_rune_width c s) as Hw.
  destruct (decode_rune (String c s)) as [r w]. cbn [snd] in Hw.
  assert (ftsTokenize_fuel fuel (str_drop w (String c s)) ≠ OutOfFuel) as Hrest.
  { apply IH. rewrite str_drop_length. simpl in *. lia. }
  assert (∀ t rest, ftsTokenize_fuel fuel rest ≠ OutOfFuel →
    (let! ts := ftsTokenize_fuel fuel rest in Done (t :: ts)) ≠ (OutOfFuel : outcome fts_error (list ftsToken))) as Hcons.
  { intros t rest Hr. apply obind_not_fuel; [done|]. by intros. }
  repeat match goal with |- context [if ?b then _ else _] => destruct b end; try done; try (by apply Hcons).
  - destruct (until_quote _) as [[text rest]|] eqn:Hq; [|done]. apply until_quote_length in Hq.
    rewrite str_drop_length in Hq. apply Hcons, IH. simpl in *. lia.
  - destruct (read_word _ _) as [[word star] rest] eqn:Hr.
    apply obind_not_fuel; [unfold word_token; repeat case_match; done|]. intros t Ht.
    apply Hcons, IH. apply read_word_shorter in Hr; [simpl in *; lia|]. left. by eapply word_token_nonempty.
Qed.

(** Every search text is answered: the tokenizer and the parser, with the
    fuel the model gives them, end with a tree or an error. *)
Theorem parseFTSQuery_total match_ : parseFTSQuery match_ ≠ OutOfFuel.
Proof.
  unfold parseFTSQuery. apply obind_not_fuel; [apply ftsTokenize_total; lia|].
  intros ts _. destruct ts as [|t ts]; [done|]. apply obind_not_fuel.
  - destruct (parser_total (fts_fuel (t :: ts))) as (_ & _ & _ & _ & _ & Ho & _).
    specialize (Ho (t :: ts)). unfold fts_fuel in *. intros Hf. rewrite Hf in Ho. by apply Ho.
  - intros [n rest] _. by destruct rest.
Qed.

(** ** The compiled text *)

(** A tree with its words left out: which terms are prefixes, and the operators. *)
Inductive shape := SWord | SPrefix | SPhrase | SBinary (op : ascii) (l r : shape).
Fixpoint shape_of (n : tsNode) : shape :=
  match n with
  | tsTerm _ prefix => if prefix then SPrefix else SWord
  | tsPhrase _ => SPhrase
  | tsBinary op l r => SBinary op (shape_of l) (shape_of r)
  end.
Fixpoint places (s : shape) : nat := match s with SBinary _ l r => places l + places r | _ => 1 end.

(** The SQL of a shape, its places numbered from [n + 1]. *)
Definition place (n : nat) : string := "$" +:+ pretty (Z.of_nat (S n)).
Fixpoint sql_of (n : nat) (s : shape) : string :=
  match s with
  | SWord => call_of "plainto" (place n)
  | SPrefix => call_of "to" (place n)
  | SPhrase => call_of "phraseto" (place n)
  | SBinary op l r => "(" +:+ sql_of n l +:+ operator_text op +:+ sql_of (n + places l) r +:+ ")"
  end.

Definition leaf_arg (l : leaf) : string :=
  match l with LWord text prefix => if prefix then prefix_arg text else text | LPhrase text => text end.

(** Every prefix is a plain word. *)
Definition leaf_ok (l : leaf) : Prop := match l with LWord text true => simpleLexeme text = true | _ => True end.

Lemma write_spec node c :
  let '(sql, c') := write c node in
  fc_offset c' = fc_offset c
  ∧ (fc_err c' = None → fc_err c = None ∧ Forall leaf_ok (leaves node)
     ∧ sql = sql_of (fc_offset c + length (fc_args c)) (shape_of node)
     ∧ fc_args c' = fc_args c ++ map leaf_arg (leaves node)
     ∧ places (shape_of node) = length (leaves node)).
Proof.
  assert (∀ n m : nat, (n + (m + 1))%nat = S (n + m)) as Hplus by lia.
  revert c. induction node as [text prefix|text|op l IHl r IHr]; intros c; cbn [write].
  - destruct prefix; cbn [negb]; [destruct (simpleLexeme text) eqn:Hs; cbn [negb]|]; cbn [param fc_offset fc_args fc_err];
      (split; [done|]); intros He.
    + split_and!; [done|by constructor| |done|done]. cbn. unfold place. by rewrite length_app, Hplus.
    + by destruct (fc_err c).
    + split_and!; [done|by constructor| |done|done]. cbn. unfold place. by rewrite length_app, Hplus.
  - cbn [param fc_offset fc_args fc_err]. split; [done|]. intros He.
    split_and!; [done|by constructor| |done|done]. cbn. unfold place. by rewrite length_app, Hplus.
  - specialize (IHl c). destruct (write c l) as [a c1]. specialize (IHr c1). destruct (write c1 r) as [b c2].
    destruct IHl as [Ho1 H1], IHr as [Ho2 H2]. split; [congruence|]. intros He.
    destruct (H2 He) as (He1 & Hok2 & -> & -> & Hp2), (H1 He1) as (He0 & Hok1 & -> & -> & Hp1).
    cbn [shape_of sql_of leaves places]. split_and!; [done|by apply Forall_app| | |].
    + rewrite Ho1, length_app, length_map, Hp1. by rewrite Nat.add_assoc.
    + by rewrite map_app, app_assoc.
    + by rewrite length_app, Hp1, Hp2.
Qed.

(** A compiled search query holds the caller's words as arguments only.
    When a text compiles, its tokens are those of a tree whose terms and
    phrases are the text's, all of them in order; the SQL is a function of the
    tree's shape alone, with the places [$offset+1], [$offset+2], ... in
    order, one for each argument; the arguments are the words and phrases as
    they were written, a prefix search alone being rewritten; and a word that
    is rewritten has only letters, digits and underscores, so nothing in it
    can end the quoted lexeme it is put in. *)
Theorem compileFTSQuery_binds match_ offset sql args (H : compileFTSQuery match_ offset = Done (sql, args)) :
  ∃ ts node, ftsTokenize match_ = Done ts ∧ parseFTSQuery match_ = Done node
    ∧ leaves node = token_leaves ts
    ∧ sql = sql_of offset (shape_of node) ∧ args = map leaf_arg (token_leaves ts)
    ∧ length args = places (shape_of node)
    ∧ ∀ text, LWord text true ∈ token_leaves ts →
        Forall (λ r, r = 95 ∨ is_letter r = true ∨ is_digit_rune r = true) (runes text).
Proof.
  unfold compileFTSQuery in H. apply obind_Done in H as (node & Hp & H).
  pose proof Hp as Hp'. unfold parseFTSQuery in Hp'. apply obind_Done in Hp' as (ts & Ht & Hp').
  assert (leaves node = token_leaves ts) as Hleaves.
  { destruct ts as [|t ts]; [done|]. apply obind_Done in Hp' as ([n rest] & Ho & Hr).
    destruct rest; [|done]. injection Hr as <-.
    destruct (parser_leaves (fts_fuel (t :: ts))) as (_ & _ & _ & _ & _ & Hor & _).
    specialize (Hor _ _ _ Ho). change (token_leaves []) with (@nil leaf) in Hor. by rewrite app_nil_r in Hor. }
  pose proof (write_spec node (MkCompiler offset [] None)) as Hw.
  destruct (write _ node) as [sql' c] eqn:Hwr. destruct Hw as [_ Hw].
  destruct (fc_err c) eqn:He; [done|]. injection H as <- <-.
  destruct (Hw eq_refl) as (_ & Hok & -> & -> & Hplaces). cbn [fc_offset fc_args length] in *.
  rewrite Nat.add_0_r. exists ts, node. rewrite <-Hleaves. split_and!; try done.
  - cbn. by rewrite length_map.
  - intros text Hin. rewrite Forall_forall in Hok. specialize (Hok _ Hin). cbn in Hok. unfold simpleLexeme in Hok.
    apply andb_true_iff in Hok as [Hall _]. apply Forall_forall. intros r Hr%list_elem_of_In.
    rewrite List.forallb_forall in Hall. apply Hall in Hr. rewrite !orb_true_iff, Z.eqb_eq in Hr. tauto.
Qed.
End Theorems.

#[local] Existing Instance ascii_tables.
Lemma compileFTSQuery_binds_witness :
  ∃ ts node, ftsTokenize "pay* (card OR bank) NOT fraud" = Done ts
    ∧ parseFTSQuery "pay* (card OR bank) NOT fraud" = Done node
    ∧ leaves node = token_leaves ts
    ∧ "(to_tsquery('english',$3) && ((plainto_tsquery('english',$4) || plainto_tsquery('english',$5)) && !! plainto_tsquery('english',$6)))"
      = sql_of 2 (shape_of node)
    ∧ ["'pay':*"; "card"; "bank"; "fraud"] = map leaf_arg (token_leaves ts)
    ∧ length ["'pay':*"; "card"; "bank"; "fraud"] = places (shape_of node)
    ∧ ∀ text, LWord text true ∈ token_leaves ts →
        Forall (λ r, r = 95 ∨ is_letter r = true ∨ is_digit_rune r = true) (runes text).
Proof. apply compileFTSQuery_binds. vm_compute. reflexivity. Defined.
