(* ===== verification/QueryScan.v ===== *)
(** * The scanner of read queries ([internal/store/query_tables.go])

    A read query is cut into tokens before its table references are checked.
    The scanner is lazy: a text that is not closed is an error where it is
    met, and a parser that drops that error finds the end of the query next.
    A query is therefore a list of tokens and at most one error, at its end. *)
From Stdlib Require Import ZArith Lia Ascii String.
From stdpp Require Import base gmap strings list.
From S2P Require Import Prelude GoStrings AuthIdentity SchemaIdent.
Local Open Scope Z_scope.

Inductive token_type := TyNone | TyEof | TyOp | TyString | TyIdent | TyPunct | TyParam | TyNumber.
#[global] Instance token_type_eq_dec : EqDecision token_type.
Proof. solve_decision. Defined.

Record token := MkToken { t_typ : token_type; t_val : string; t_start : Z; t_end : Z }.
Definition no_token : token := MkToken TyNone "" 0 0.

Inductive query_error :=
| TooLong | UnterminatedString | UnterminatedIdent | UnterminatedBracket
| Expected (what : string) (got : string) | PragmaArg | PragmaSchema | ReservedTable (name : string)
| ReservedPragma (name : string) | NestedTooDeep | FactorsTooDeep | NotSelect | NotCore | NotName (got : string)
| OpenGroup | NotJoin (got : string) | NotAlias (got : string) | NotIndex (got : string)
| MaskedQualified (table : string) | MaskedHinted (table : string).

(** ** Bytes *)

Definition space_byte (c : ascii) : bool :=
  let b := byte_val c in (b =? 32) || (b =? 9) || (b =? 10) || (b =? 13) || (b =? 12).
Definition isIdentStart (c : ascii) : bool :=
  Ascii.eqb c "_" || byte_in 97 122 c || byte_in 65 90 c || (0x80 <=? byte_val c).
Definition isIdentCont (c : ascii) : bool := isIdentStart c || Ascii.eqb c "$" || digit_byte c.
Definition newline : ascii := ascii_of_N 10.
Definition dquote : ascii := ascii_of_N 34.
Definition squote : ascii := ascii_of_N 39.

(** ** Pieces of text, each with what follows it *)

Fixpoint skip_while (f : ascii → bool) (s : string) : string :=
  match s with String c s' => if f c then skip_while f s' else s | EmptyString => EmptyString end.
Definition skipWhitespace : string → string := skip_while space_byte.

Definition skipLineComment (s : string) : string := skip_while (λ c, negb (Ascii.eqb c newline)) (str_drop 2 s).

Fixpoint block_rest (s : string) : string :=
  match s with
  | String c s' =>
      if Ascii.eqb c "*" && match s' with String d _ => Ascii.eqb d "/" | EmptyString => false end
      then str_drop 1 s' else block_rest s'
  | EmptyString => EmptyString
  end.
Definition skipBlockComment (s : string) : string := block_rest (str_drop 2 s).

(** After an opening quote: the text with doubled quotes read as one, the
    closing quote kept, and the rest; [None] when the text is not closed. *)
Fixpoint read_closed (close : ascii) (s : string) : option (string * string) :=
  match s with
  | EmptyString => None
  | String c s1 =>
      let more c r := match r with Some (b, rest) => Some (String c b, rest) | None => None end in
      if Ascii.eqb c close then
        match s1 with
        | String d s2 => if Ascii.eqb d close then more c (read_closed close s2) else Some (String close "", s1)
        | EmptyString => Some (String close "", "")
        end
      else more c (read_closed close s1)
  end.

(** The text of [s] before its suffix [rest]. *)
Definition text_before (s rest : string) : string := str_take (String.length s - String.length rest) s.

Definition readIdent (s : string) : string := skip_while isIdentCont s.

Definition atTclSuffix (s : string) : bool :=
  match s with String c (String d _) => Ascii.eqb c ":" && Ascii.eqb d ":" | _ => false end.

Fixpoint tcl_suffixes (fuel : nat) (s : string) : string :=
  match fuel with
  | O => s
  | S fuel => if atTclSuffix s then tcl_suffixes fuel (skip_while isIdentCont (str_drop 2 s)) else s
  end.

Fixpoint tcl_argument (s : string) : string :=
  match s with
  | EmptyString => EmptyString
  | String c s' => if Ascii.eqb c ")" then s' else if space_byte c then s else tcl_argument s'
  end.

(** What follows a parameter that starts [s]. *)
Definition readParam (s : string) : string :=
  let s := skip_while isIdentCont (str_drop 1 s) in
  let s := tcl_suffixes (String.length s) s in
  match s with
  | String c s' => if Ascii.eqb c "(" then tcl_argument s' else s
  | EmptyString => s
  end.
Definition readNumberedParam (s : string) : string := skip_while digit_byte (str_drop 1 s).

Fixpoint read_number (after_e : bool) (s : string) : string :=
  match s with
  | EmptyString => EmptyString
  | String c s' =>
      let e := Ascii.eqb c "e" || Ascii.eqb c "E" in
      if digit_byte c || Ascii.eqb c "." || e || ((Ascii.eqb c "+" || Ascii.eqb c "-") && after_e)
      then read_number e s' else s
  end.
Definition readNumber (s : string) : string := read_number false s.

(** ** One token *)

Section Scan.
(** The length of the whole query; positions count from its start. *)
Context (total : nat).
Definition position (rest : string) : Z := Z.of_nat (total - String.length rest).

(** The token of type [ty] that starts [s] and is followed by [rest]. *)
Definition tok (ty : token_type) (val s rest : string) : outcome query_error token * string :=
  (Done (MkToken ty val (position s) (position rest)), rest).
Definition tok_text (ty : token_type) (s rest : string) : outcome query_error token * string :=
  tok ty (text_before s rest) s rest.
(** A text opened by [open], the first byte of [s], and closed by [close]. *)
Definition tok_closed (ty : token_type) (open close : ascii) (e : query_error) (s rest : string)
    : outcome query_error token * string :=
  match read_closed close rest with
  | Some (body, rest) => tok ty (String open body) s rest
  | None => (Fail e, "")
  end.

Definition next_is (f : ascii → bool) (s : string) : bool := match s with String c _ => f c | EmptyString => false end.
Definition punctuation : list ascii := ["("; ")"; ","; ";"; "."]%char.
Definition sigils : list ascii := [":"; "@"; "$"; "#"]%char.

Fixpoint scanToken (fuel : nat) (s0 : string) : outcome query_error token * string :=
  match fuel with
  | O => (OutOfFuel, s0)
  | S fuel =>
      let s := skipWhitespace s0 in
      match s with
      | EmptyString => tok TyEof "" s s
      | String c rest =>
          let single ty := tok ty (String c "") s rest in
          if Ascii.eqb c "-" then
            if next_is (Ascii.eqb "-") rest then scanToken fuel (skipLineComment s) else single TyOp
          else if Ascii.eqb c "/" then
            if next_is (Ascii.eqb "*") rest then scanToken fuel (skipBlockComment s) else single TyOp
          else if Ascii.eqb c squote then tok_closed TyString squote squote UnterminatedString s rest
          else if Ascii.eqb c dquote then tok_closed TyIdent dquote dquote UnterminatedIdent s rest
          else if Ascii.eqb c "`" then tok_closed TyIdent "`" "`" UnterminatedIdent s rest
          else if Ascii.eqb c "[" then tok_closed TyIdent "[" "]" UnterminatedBracket s rest
          else if bool_decide (c ∈ punctuation) then single TyPunct
          else if bool_decide (c ∈ sigils) then
            if next_is isIdentCont rest || atTclSuffix rest then tok_text TyParam s (readParam s) else single TyOp
          else if Ascii.eqb c "?" then
            if next_is digit_byte rest then tok_text TyParam s (readNumberedParam s) else single TyOp
          else if isIdentStart c then tok_text TyIdent s (readIdent s)
          else if digit_byte c then tok_text TyNumber s (readNumber s)
          else single TyOp
      end
  end.

(** The tokens of a text up to its end, which is left out. *)
Fixpoint scan_all (fuel : nat) (s : string) : list (outcome query_error token) :=
  match fuel with
  | O => [OutOfFuel]
  | S fuel =>
      match scanToken (S (String.length s)) s with
      | (Done t, rest) => if decide (t_typ t = TyEof) then [] else Done t :: scan_all fuel rest
      | (o, _) => [o]
      end
  end.
End Scan.

Definition scan_query (stmt : string) : list (outcome query_error token) :=
  scan_all (String.length stmt) (S (String.length stmt)) stmt.

(** ** Names *)

Definition isQuotedIdent (v : string) : bool :=
  match v with String c _ => Ascii.eqb c dquote || Ascii.eqb c "`" || Ascii.eqb c "[" | EmptyString => false end.

(** [strings.ReplaceAll(s, cc, c)] for a byte [c]. *)
Fixpoint halve (c : ascii) (s : string) : string :=
  match s with
  | String a (String b s' as s1) =>
      if Ascii.eqb a c && Ascii.eqb b c then String c (halve c s') else String a (halve c s1)
  | _ => s
  end.

Fixpoint last_byte (s : string) : option ascii :=
  match s with EmptyString => None | String c EmptyString => Some c | String _ s => last_byte s end.
Definition inner_of (v : string) : string := str_take (String.length v - 2) (str_drop 1 v).
Definition closed_by (c : ascii) (v : string) : bool :=
  (2 <=? String.length v)%nat && bool_decide (last_byte v = Some c).

Definition unquoteIdent (v : string) : string :=
  match v with
  | EmptyString => v
  | String c _ =>
      if Ascii.eqb c dquote then if closed_by dquote v then halve dquote (inner_of v) else v
      else if Ascii.eqb c "`" then if closed_by "`" v then halve "`" (inner_of v) else v
      else if Ascii.eqb c "[" then if closed_by "]" v then halve "]" (inner_of v) else v
      else v
  end.
Definition unquoteString (v : string) : string :=
  match v with
  | String c _ => if Ascii.eqb c squote && closed_by squote v then halve squote (inner_of v) else v
  | EmptyString => v
  end.

Definition asciiLower (s : string) : string := map_bytes ascii_lower_byte s.

Definition isKeyword (t : token) (kw : string) : bool :=
  bool_decide (t_typ t = TyIdent) && negb (isQuotedIdent (t_val t)) && String.eqb (asciiLower (t_val t)) kw.

Definition isPragmaFunction (rawName : string) : bool := has_prefix (asciiLower (unquoteIdent rawName)) "pragma_".

Definition ownSchema (schema : string) : bool :=
  String.eqb schema "" || String.eqb (asciiLower (unquoteIdent schema)) "main".

Definition sample_query : string :=
  "select a.id -- note" +:+ String newline "" +:+ "from Notes a, (values (1)) where x in [t]]s] and n = 1.5e+3;".
Example scan_sample : map (λ o, match o with Done t => t_val t | _ => "!" end) (scan_query sample_query)
  = ["select"; "a"; "."; "id"; "from"; "Notes"; "a"; ","; "("; "values"; "("; "1"; ")"; ")"; "where"; "x"; "in"; "[t]s]";
     "and"; "n"; "="; "1.5e+3"; ";"].
Proof. vm_compute. reflexivity. Qed.
