(* ===== verification/QueryTables.v ===== *)
(** * Which tables a read query may name ([internal/store/query_tables.go])

    A walk over the tokens of a query that follows SELECT statements, common
    table expressions, FROM clauses and IN operands, checks every table name
    it meets, and records where the registered ones stand, so that a table
    with secret fields can be replaced by its masked projection.

    The walk is a set of mutually recursive methods.  Each is a definition
    that is given the others as one function [rec] on [call]s; [run] ties the
    knot with fuel, and [query_fuel] is shown to be enough in QueryTotal. *)
From Stdlib Require Import ZArith Lia Ascii String.
From stdpp Require Import base gmap strings list.
From S2P Require Import Prelude GoStrings AuthIdentity SchemaIdent QueryScan.
Local Open Scope Z_scope.

Definition maxTableParens : nat := 50.
Definition maxStmtDepth : nat := 20.
Definition MaxQueryRunes : Z := 2 ^ 20.

Record tableRewrite := MkRewrite {
  rw_table : string; rw_start : Z; rw_end : Z; rw_aliased : bool; rw_qualified : bool; rw_hinted : bool }.

(** The scanner's state: the tokens left, the rewrites recorded, the index
    hint, and where the text ends.  What a method restores before it returns,
    the scopes of CTE names and the two depths, is its environment. *)
Record scanner := MkScanner {
  sc_toks : list (outcome query_error token); sc_rewrites : list tableRewrite; sc_hint : bool; sc_end : Z }.
Record env := MkEnv { e_ctes : list string; e_parens : nat; e_depth : nat }.

Definition step (A : Type) : Type := scanner → outcome query_error (A * scanner).
Definition ret {A} (a : A) : step A := λ s, Done (a, s).
Definition refuse {A} (e : query_error) : step A := λ _, Fail e.
Definition and_then {A B} (m : step A) (k : A → step B) : step B :=
  λ s, let! (a, s) := m s in k a s.
Notation "'let$' x ':=' m 'in' k" := (and_then m (λ x, k))
  (at level 10, x pattern, m at level 100, k at level 200) : dolmen_scope.

Definition with_toks (s : scanner) ts : scanner := MkScanner ts (sc_rewrites s) (sc_hint s) (sc_end s).
(** What is scanned where no token is left: the end of the text. *)
Definition eof_token (s : scanner) : token := MkToken TyEof "" (sc_end s) (sc_end s).

Definition next : step token := λ s,
  match sc_toks s with
  | [] => Done (eof_token s, s)
  | Done t :: ts => Done (t, with_toks s ts)
  | Fail e :: _ => Fail e
  | OutOfFuel :: _ => OutOfFuel
  end.
Definition peek : step token := λ s,
  match sc_toks s with
  | [] => Done (eof_token s, s)
  | Done t :: _ => Done (t, s)
  | Fail e :: _ => Fail e
  | OutOfFuel :: _ => OutOfFuel
  end.
(** [t, _ := s.peek()]: an error is dropped with the text it was found in. *)
Definition peek_any : step token := λ s,
  match sc_toks s with
  | [] => Done (eof_token s, s)
  | Done t :: _ => Done (t, s)
  | _ :: ts => Done (no_token, with_toks s ts)
  end.
(** [s.next()] after a peek: the token is known. *)
Definition drop_token : step () := λ s,
  match sc_toks s with
  | [] => Done ((), s)
  | _ :: ts => Done ((), with_toks s ts)
  end.

Definition expect (kw : string) : step () :=
  let$ t := next in
  if String.eqb (asciiLower (t_val t)) kw then ret () else refuse (Expected kw (t_val t)).

Definition is_val (t : token) (v : string) : bool := String.eqb (t_val t) v.
Definition is_name (t : token) : bool := bool_decide (t_typ t = TyIdent ∨ t_typ t = TyString).
(** The name a token gives: a string literal loses its quotes here, an
    identifier later. *)
Definition name_of (t : token) : string :=
  if decide (t_typ t = TyString) then unquoteString (t_val t) else t_val t.

(** ** Where a scan stops *)

Definition selectStop : list string := [")"; "union"; "intersect"; "except"].
Definition fromStop : list string := [")"; "from"; "union"; "intersect"; "except"].
Definition joinConditionStop : list string :=
  [")"; ","; "where"; "group"; "having"; "order"; "limit"; "union"; "intersect"; "except"; "join"].
Definition clauseEndStop : list string :=
  ["where"; "group"; "having"; "order"; "limit"; "union"; "intersect"; "except"; ")"; ";"].

Definition plain_word (t : token) : option string :=
  if bool_decide (t_typ t = TyIdent) && negb (isQuotedIdent (t_val t)) then Some (asciiLower (t_val t)) else None.
Definition isStopToken (t : token) (stop : list string) : bool :=
  if decide (t_typ t = TyEof) then true
  else if decide (t_typ t = TyPunct) then mem (t_val t) stop
  else match plain_word t with Some w => mem w stop | None => false end.
Definition isClauseEnd (t : token) : bool :=
  if decide (t_typ t = TyEof) then true
  else if decide (t_typ t = TyPunct) then is_val t ")" || is_val t ";"
  else match plain_word t with Some w => mem w clauseEndStop | None => false end.
Definition isJoinOp (t : token) : bool :=
  match plain_word t with
  | Some w => mem w ["inner"; "cross"; "left"; "right"; "full"; "outer"; "natural"; "join"]
  | None => false
  end.
Definition starts_statement (t : token) : bool := isKeyword t "select" || isKeyword t "with" || isKeyword t "values".

(** The tokens ahead, [None] where reading them is an error. *)
Definition ahead (n : nat) (s : scanner) : option token :=
  match sc_toks s !! n with
  | Some (Done t) => Some t
  | Some _ => None
  | None => if forallb (λ o, match o with Done _ => true | _ => false end) (sc_toks s) then Some (eof_token s) else None
  end.
Definition isWindowClause : step bool := λ s,
  Done (match ahead 0 s, ahead 1 s, ahead 2 s with
        | Some t, Some name, Some as_ => isKeyword t "window" && is_name name && isKeyword as_ "as"
        | _, _, _ => false
        end, s).
Definition isNotIndexed : step bool := λ s,
  Done (match ahead 0 s, ahead 1 s with
        | Some t, Some t2 => isKeyword t "not" && isKeyword t2 "indexed"
        | _, _ => false
        end, s).

(** ** Names *)

Section Names.
Context {UT : UnicodeTables} (registered : list string).

Definition isUserTable (name : string) : bool := ValidTableName (to_lower name).

(** What follows the last dot, or the whole text. *)
Fixpoint after_last_dot (s : string) : option string :=
  match s with
  | EmptyString => None
  | String c s' => match after_last_dot s' with
                   | Some r => Some r
                   | None => if Ascii.eqb c "." then Some s' else None
                   end
  end.
Definition base_of (s : string) : string := default s (after_last_dot s).

Definition isRegisteredRef (schema name : string) : bool :=
  ownSchema schema && mem (asciiLower (unquoteIdent name)) registered.

Definition isCte (e : env) (schema name : string) : bool :=
  String.eqb schema "" && mem (asciiLower (unquoteIdent name)) (e_ctes e).

Definition checkTableName (e : env) (schema rawName : string) : step () :=
  let name := if String.eqb schema "" then unquoteIdent rawName else unquoteIdent schema +:+ "." +:+ unquoteIdent rawName in
  let base := asciiLower name in
  if String.eqb schema "" && mem base (e_ctes e) then ret ()
  else
    let base := base_of base in
    if ownSchema schema && mem base registered then ret ()
    else if isUserTable base then ret () else refuse (ReservedTable base).

Definition parsePragmaArgs (schema rawName : string) : step () :=
  let$ _ := expect "(" in
  let$ arg := next in
  if negb (bool_decide (t_typ arg = TyString)) then refuse PragmaArg
  else
    let$ t := peek_any in
    let$ _ := (if is_val t "," then
                 let$ _ := drop_token in
                 let$ schemaArg := next in
                 if bool_decide (t_typ schemaArg = TyString) then ret () else refuse PragmaSchema
               else ret ()) in
    let$ _ := expect ")" in
    let table := base_of (unquoteString (t_val arg)) in
    if isUserTable table then ret () else refuse (ReservedTable table).

(** [name] or [schema.name] after its first token: the two parts, and where
    the reference ends. *)
Definition qualified_name (t : token) : step (string * string * Z) :=
  let$ t2 := peek_any in
  if is_val t2 "." then
    let$ _ := drop_token in
    let$ t3 := next in
    if is_name t3 then ret (name_of t, name_of t3, t_end t3) else refuse (NotName (t_val t3))
  else ret ("", name_of t, t_end t).

(** ** Aliases and index hints *)

Definition set_hint (b : bool) : step () := λ s, Done ((), MkScanner (sc_toks s) (sc_rewrites s) b (sc_end s)).

Definition skipIndexedBy : step () :=
  let$ t := peek in
  let$ not_indexed := isNotIndexed in
  if isKeyword t "indexed" then
    let$ _ := set_hint true in
    let$ _ := drop_token in
    let$ _ := expect "by" in
    let$ idx := next in
    if is_name idx then ret () else refuse (NotIndex (t_val idx))
  else if isKeyword t "not" && not_indexed then
    let$ _ := set_hint true in
    let$ _ := drop_token in
    expect "indexed"
  else ret ().

Definition skipOptionalAliasReported : step bool :=
  let$ t := peek in
  let$ not_indexed := isNotIndexed in
  let$ window := isWindowClause in
  if isKeyword t "indexed" || (isKeyword t "not" && not_indexed) then
    let$ _ := skipIndexedBy in ret false
  else if isKeyword t "as" then
    let$ _ := drop_token in
    let$ t := next in
    if is_name t then let$ _ := skipIndexedBy in ret true else refuse (NotAlias (t_val t))
  else if negb (is_name t) then ret false
  else
    let ends :=
      match plain_word t with
      | Some kw => isJoinOp t || isClauseEnd t || mem kw ["on"; "using"] || is_val t ")" || is_val t ","
                   || (isKeyword t "window" && window)
      | None => false
      end in
    if ends then ret false
    else let$ _ := drop_token in let$ _ := skipIndexedBy in ret true.
Definition skipOptionalAlias : step () := let$ _ := skipOptionalAliasReported in ret ().

Definition record_rewrite (r : tableRewrite) : step () := λ s,
  Done ((), MkScanner (sc_toks s) (sc_rewrites s ++ [r]) (sc_hint s) (sc_end s)).
(** [last := &s.rewrites[len(s.rewrites)-1]] and its two assignments. *)
Fixpoint set_last (aliased hinted : bool) (rs : list tableRewrite) : list tableRewrite :=
  match rs with
  | [] => []
  | [r] => [MkRewrite (rw_table r) (rw_start r) (rw_end r) aliased (rw_qualified r) hinted]
  | r :: rs => r :: set_last aliased hinted rs
  end.
Definition mark_last (aliased : bool) : step () := λ s,
  Done ((), MkScanner (sc_toks s) (set_last aliased (sc_hint s) (sc_rewrites s)) (sc_hint s) (sc_end s)).

(** ** CTE names ahead of a WITH clause *)

(** The loop of [skipParenthesized], on the tokens alone. *)
Fixpoint skip_group (depth : nat) (ts : list (outcome query_error token))
    : outcome query_error (list (outcome query_error token)) :=
  match ts with
  | [] => Fail OpenGroup
  | Done t :: ts =>
      if is_val t "(" then skip_group (S depth) ts
      else if is_val t ")" then match depth with S (S d) => skip_group (S d) ts | _ => Done ts end
      else skip_group depth ts
  | Fail e :: _ => Fail e
  | OutOfFuel :: _ => OutOfFuel
  end.
Definition skipParenthesized : step () :=
  let$ _ := expect "(" in
  λ s, let! ts := skip_group 1 (sc_toks s) in Done ((), with_toks s ts).

Definition skip_materialized : step () :=
  let$ t := peek_any in
  if isKeyword t "not" then let$ _ := drop_token in expect "materialized"
  else if isKeyword t "materialized" then drop_token
  else ret ().

Definition cte_name : step string :=
  let$ t := next in
  if is_name t then ret (asciiLower (if decide (t_typ t = TyString) then unquoteString (t_val t) else unquoteIdent (t_val t)))
  else refuse (NotName (t_val t)).

Fixpoint cte_names_loop (fuel : nat) (names : list string) : step (list string) :=
  match fuel with
  | O => λ _, OutOfFuel
  | S fuel =>
      let$ name := cte_name in
      let names := name :: names in
      let$ t := peek_any in
      let$ _ := (if is_val t "(" then skipParenthesized else ret ()) in
      let$ _ := expect "as" in
      let$ _ := skip_materialized in
      let$ _ := skipParenthesized in
      let$ t := peek_any in
      if is_val t "," then let$ _ := drop_token in cte_names_loop fuel names else ret names
  end.
Definition skip_recursive : step () :=
  let$ t := peek_any in if isKeyword t "recursive" then drop_token else ret ().

(** [collectCteNames] on a copy of the scanner: only its answer is kept. *)
Definition collectCteNames : step (list string) := λ s,
  let! (names, _) := (let$ _ := skip_recursive in cte_names_loop (S (length (sc_toks s))) []) s in Done (names, s).

(** ** The recursive methods *)

Inductive call :=
| CStatement              (* parseStatement *)
| CWith                   (* the loop of parseWith *)
| CSelects                (* the loop of parseSelectStatement *)
| CValues                 (* the loop of parseValuesCore *)
| CUntil (stop : list string)
| CInOperand
| CParenthesized
| CGroup (depth : nat)    (* the loop of scanParenthesized *)
| CTables (sawTable : bool)
| CFactor.

(** What a method answers: a token for [scanUntil], the CTE names in scope for
    [parseWith], nothing that matters for the others. *)
Record answer := MkAnswer { an_token : token; an_ctes : list string }.
Definition nothing : answer := MkAnswer no_token [].
Definition done : step answer := ret nothing.

Section Methods.
Context (rec : env → call → step answer).

Definition parseValuesCore (e : env) : step answer :=
  let$ _ := expect "values" in rec e CValues.

Definition values_loop (e : env) : step answer :=
  let$ _ := rec e CParenthesized in
  let$ t := peek_any in
  if is_val t "," then let$ _ := drop_token in rec e CValues
  else rec e (CUntil selectStop).

Definition parseSelectCore (e : env) : step answer :=
  let$ _ := expect "select" in
  let$ a := rec e (CUntil fromStop) in
  let$ _ := (if isKeyword (an_token a) "from" then let$ _ := drop_token in rec e (CTables false) else done) in
  rec e (CUntil selectStop).

Definition parseCore (e : env) : step answer :=
  let$ t := peek_any in
  if isKeyword t "select" then parseSelectCore e
  else if isKeyword t "values" then parseValuesCore e
  else refuse NotCore.

Definition selects_loop (e : env) : step answer :=
  let$ t := peek in
  if isKeyword t "union" || isKeyword t "intersect" || isKeyword t "except" then
    let$ _ := drop_token in
    let$ _ := (if isKeyword t "union" then
                 let$ t2 := peek_any in if isKeyword t2 "all" then drop_token else ret ()
               else ret ()) in
    let$ _ := parseCore e in
    rec e CSelects
  else done.

Definition parseSelectStatement (e : env) : step answer :=
  let$ _ := parseCore e in rec e CSelects.

Definition with_loop (e : env) : step answer :=
  let$ name := cte_name in
  let e := MkEnv (name :: e_ctes e) (e_parens e) (e_depth e) in
  let$ t := peek_any in
  let$ _ := (if is_val t "(" then rec e CParenthesized else done) in
  let$ _ := expect "as" in
  let$ _ := skip_materialized in
  let$ _ := expect "(" in
  let$ _ := rec e CStatement in
  let$ _ := expect ")" in
  let$ t := peek_any in
  if is_val t "," then let$ _ := drop_token in rec e CWith
  else ret (MkAnswer no_token (e_ctes e)).

Definition parseWith (e : env) : step answer :=
  let$ _ := expect "with" in
  let$ names := collectCteNames in
  let$ _ := skip_recursive in
  rec (MkEnv (names ++ e_ctes e) (e_parens e) (e_depth e)) CWith.

Definition parseStatement (e : env) : step answer :=
  if (maxStmtDepth <=? e_depth e)%nat then refuse NestedTooDeep
  else
    let e := MkEnv (e_ctes e) (e_parens e) (S (e_depth e)) in
    let$ t := peek in
    if isKeyword t "with" then
      let$ a := parseWith e in
      parseSelectStatement (MkEnv (an_ctes a) (e_parens e) (e_depth e))
    else if negb (isKeyword t "select") && negb (isKeyword t "values") then refuse NotSelect
    else parseSelectStatement e.

Definition scanUntil (e : env) (stop : list string) : step answer :=
  let$ t := peek in
  if isStopToken t stop then ret (MkAnswer t [])
  else if is_val t "(" then
    let$ _ := rec e CParenthesized in rec e (CUntil stop)
  else
    let$ _ := drop_token in
    let$ _ := (if isKeyword t "in" then rec e CInOperand else done) in
    rec e (CUntil stop).

Definition checkInTableOperand (e : env) : step answer :=
  let$ t := peek in
  if negb (is_name t) then done
  else
    let$ _ := drop_token in
    let$ (schema, name, _) := qualified_name t in
    let isCTE := isCte e schema name in
    let$ t2 := peek_any in
    if is_val t2 "(" then
      if negb isCTE && isPragmaFunction name then let$ _ := parsePragmaArgs schema name in done
      else let$ _ := rec e CParenthesized in let$ _ := checkTableName e schema name in done
    else if negb isCTE && negb (isRegisteredRef schema name) && isPragmaFunction name
    then refuse (ReservedPragma (unquoteIdent name))
    else let$ _ := checkTableName e schema name in done.

Definition group_loop (e : env) (depth : nat) : step answer :=
  let$ t := next in
  if decide (t_typ t = TyEof) then refuse OpenGroup
  else
    let$ _ := (if isKeyword t "in" then rec e CInOperand else done) in
    if is_val t "(" then
      let$ t2 := peek in
      if starts_statement t2 then
        let$ _ := rec e CStatement in
        let$ _ := expect ")" in
        rec e (CGroup depth)
      else rec e (CGroup (S depth))
    else if is_val t ")" then
      match depth with
      | S (S d) => rec e (CGroup (S d))
      | _ => done
      end
    else rec e (CGroup depth).

Definition scanParenthesized (e : env) : step answer :=
  let$ _ := expect "(" in
  let$ t := peek in
  if starts_statement t then
    let$ _ := rec e CStatement in
    let$ _ := expect ")" in done
  else rec e (CGroup 1).

(** The loop of [consumeJoinOp], on the tokens alone. *)
Fixpoint join_ops (ts : list (outcome query_error token)) : outcome query_error (list (outcome query_error token)) :=
  match ts with
  | [] => Fail (NotJoin "")
  | Done t :: ts =>
      if isKeyword t "join" then Done ts
      else if isJoinOp t then join_ops ts
      else Fail (NotJoin (t_val t))
  | Fail e :: _ => Fail e
  | OutOfFuel :: _ => OutOfFuel
  end.
Definition consumeJoinOp : step () := λ s, let! ts := join_ops (sc_toks s) in Done ((), with_toks s ts).

Definition parseTableList (e : env) (sawTable : bool) : step answer :=
  let$ t := peek in
  let$ window := isWindowClause in
  let factor := let$ _ := rec e CFactor in rec e (CTables true) in
  if is_val t "," then let$ _ := drop_token in rec e (CTables false)
  else if isJoinOp t then
    if negb sawTable then factor
    else let$ _ := consumeJoinOp in rec e (CTables false)
  else if isKeyword t "on" || isKeyword t "using" then
    if negb sawTable then factor
    else let$ _ := rec e (CUntil joinConditionStop) in rec e (CTables sawTable)
  else if isKeyword t "window" && window then done
  else if isClauseEnd t then done
  else factor.

(** A FROM item that starts with a parenthesis. *)
Definition nested_factor (e : env) : step answer :=
  if (maxTableParens <=? e_parens e)%nat then refuse FactorsTooDeep
  else
    let e := MkEnv (e_ctes e) (S (e_parens e)) (e_depth e) in
    let$ _ := drop_token in
    let$ t2 := peek_any in
    let$ _ := (if starts_statement t2 then rec e CStatement else rec e (CTables false)) in
    let$ _ := expect ")" in
    let$ _ := skipOptionalAlias in done.

(** A named FROM item after its name: the check, the record and the alias. *)
Definition named_factor (e : env) (start : Z) (schema name : string) (ref_end : Z) : step answer :=
  let isCTE := isCte e schema name in
  let$ _ := checkTableName e schema name in
  let recorded := negb isCTE && isRegisteredRef schema name in
  let$ _ := (if recorded
             then record_rewrite (MkRewrite (asciiLower (unquoteIdent name)) start ref_end false
                                    (negb (String.eqb schema "")) false)
             else ret ()) in
  let$ _ := set_hint false in
  let$ aliased := skipOptionalAliasReported in
  let$ _ := (if recorded then mark_last aliased else ret ()) in
  done.

Definition parseTableFactor (e : env) : step answer :=
  let$ t := peek in
  if is_val t "(" then nested_factor e
  else if negb (is_name t) then refuse (NotName (t_val t))
  else
    let$ _ := drop_token in
    let$ (schema, name, ref_end) := qualified_name t in
    let isCTE := isCte e schema name in
    let$ t2 := peek_any in
    if is_val t2 "(" then
      if negb isCTE && isPragmaFunction name then
        let$ _ := parsePragmaArgs schema name in
        let$ _ := skipOptionalAlias in done
      else
        let$ _ := rec e CParenthesized in named_factor e (t_start t) schema name ref_end
    else if negb isCTE && negb (isRegisteredRef schema name) && isPragmaFunction name
    then refuse (ReservedPragma (unquoteIdent name))
    else named_factor e (t_start t) schema name ref_end.

Definition method (e : env) (c : call) : step answer :=
  match c with
  | CStatement => parseStatement e
  | CWith => with_loop e
  | CSelects => selects_loop e
  | CValues => values_loop e
  | CUntil stop => scanUntil e stop
  | CInOperand => checkInTableOperand e
  | CParenthesized => scanParenthesized e
  | CGroup depth => group_loop e depth
  | CTables saw => parseTableList e saw
  | CFactor => parseTableFactor e
  end.
End Methods.

Fixpoint run (fuel : nat) : env → call → step answer :=
  match fuel with
  | O => λ _ _ _, OutOfFuel
  | S fuel => method (run fuel)
  end.

Definition query_fuel (toks : list (outcome query_error token)) : nat := 4 * length toks + 4.

Definition top : env := MkEnv [] 0 0.
Definition scanQueryTables (stmt : string) : outcome query_error (list tableRewrite) :=
  if MaxQueryRunes <? Z.of_nat (length (runes stmt)) then Fail TooLong
  else
    let toks := scan_query stmt in
    let! (_, s) := run (query_fuel toks) top CStatement (MkScanner toks [] false (len stmt)) in
    Done (sc_rewrites s).
Definition validateQueryTables (stmt : string) : outcome query_error () :=
  let! _ := scanQueryTables stmt in Done ().
End Names.

(** ** Masked tables *)

Definition refuseMaskedShapes (rewrites : list tableRewrite) (masked : string → option string) : outcome query_error () :=
  match find (λ r, match masked (rw_table r) with Some _ => rw_qualified r || rw_hinted r | None => false end) rewrites with
  | Some r => if rw_qualified r then Fail (MaskedQualified (rw_table r)) else Fail (MaskedHinted (rw_table r))
  | None => Done ()
  end.

(** [stmt[from:to]]. *)
Definition substring_z (stmt : string) (from to : Z) : string := str_take (Z.to_nat (to - from)) (str_drop (Z.to_nat from) stmt).

(** [q(name)]: the name in double quotes. *)
Definition quote_ident (name : string) : string := String dquote name +:+ String dquote "".

Fixpoint mask_loop (stmt : string) (masked : string → option string) (last : Z) (rs : list tableRewrite) : string :=
  match rs with
  | [] => substring_z stmt last (len stmt)
  | r :: rs =>
      match masked (rw_table r) with
      | Some projection =>
          if (rw_start r <? last) || (len stmt <? rw_end r) then mask_loop stmt masked last rs
          else substring_z stmt last (rw_start r) +:+ projection
               +:+ (if rw_aliased r then "" else " AS " +:+ quote_ident (rw_table r))
               +:+ mask_loop stmt masked (rw_end r) rs
      | None => mask_loop stmt masked last rs
      end
  end.
Definition maskSecretTables (stmt : string) (rewrites : list tableRewrite) (masked : string → option string) : string :=
  mask_loop stmt masked 0 rewrites.
