(* ===== verification/QueryTotal.v ===== *)
(** * The walk over a read query ends, and what it records

    A Hoare logic for the walker's steps: [wp] says that a step never runs out
    of fuel and what holds of the states it may end in.  The invariant is that
    the tokens left are real, in the order of the text and inside it, and that
    every rewrite recorded so far is of a registered table at a span of the
    text. *)
From Stdlib Require Import ZArith Lia Ascii String.
From stdpp Require Import base gmap strings list.
From S2P Require Import Prelude GoStrings AuthIdentity SchemaIdent QueryScan QueryTables.
Local Open Scope Z_scope.

(** ** Tokens of a text *)

Definition span_within (lo hi : Z) (t : token) : Prop := lo ≤ t_start t ∧ t_start t < t_end t ∧ t_end t ≤ hi.

(** Tokens that start at [lo] or later, in order, up to [hi]; none is the end
    of the text. *)
Fixpoint in_order (lo hi : Z) (ts : list (outcome query_error token)) : Prop :=
  match ts with
  | [] => True
  | Done t :: ts => t_typ t ≠ TyEof ∧ span_within lo hi t ∧ in_order (t_end t) hi ts
  | Fail _ :: ts => ts = []
  | OutOfFuel :: _ => False
  end.

Lemma in_order_le lo lo' hi ts : in_order lo hi ts → lo' ≤ lo → in_order lo' hi ts.
Proof. destruct ts as [|[t|e|] ts]; simpl; [done| |done..]. unfold span_within. intuition lia. Qed.

Lemma skip_while_length f s : (String.length (skip_while f s) ≤ String.length s)%nat.
Proof. induction s as [|c s IH]; simpl; [lia|]. destruct (f c); simpl; lia. Qed.

Lemma str_drop_le n s : (String.length (str_drop n s) ≤ String.length s)%nat.
Proof. rewrite str_drop_length. lia. Qed.

Lemma block_rest_length s : (String.length (block_rest s) ≤ String.length s)%nat.
Proof.
  induction s as [|c s IH]; [simpl; lia|]. cbn [block_rest].
  destruct (Ascii.eqb c "*" && _); [|simpl; lia]. pose proof (str_drop_le 1 s). cbn [String.length]. lia.
Qed.

Lemma read_closed_length close s b rest :
  read_closed close s = Some (b, rest) → (String.length rest ≤ String.length s)%nat.
Proof.
  remember (String.length s) as n eqn:Hn. revert s b rest Hn.
  induction n as [n IH] using lt_wf_ind. intros [|c s] b rest Hn; [done|]. cbn [read_closed String.length] in *.
  destruct (Ascii.eqb c close).
  - destruct s as [|d s]; [intros [= <- <-]; simpl in *; lia|].
    destruct (Ascii.eqb d close); [|intros [= <- <-]; simpl in *; lia].
    destruct (read_closed close s) as [[b' r']|] eqn:Hr; [|done]. intros [= <- <-].
    cbn [String.length] in *. assert (String.length r' ≤ String.length s)%nat; [|lia]. eapply IH; [|done|exact Hr]. lia.
  - destruct (read_closed close s) as [[b' r']|] eqn:Hr; [|done]. intros [= <- <-].
    cbn [String.length] in *. assert (String.length r' ≤ String.length s)%nat; [|lia]. eapply IH; [|done|exact Hr]. lia.
Qed.

Lemma tcl_argument_length s : (String.length (tcl_argument s) ≤ String.length s)%nat.
Proof. induction s as [|c s IH]; simpl; [lia|]. repeat case_match; simpl; lia. Qed.

Lemma tcl_suffixes_length fuel s : (String.length (tcl_suffixes fuel s) ≤ String.length s)%nat.
Proof.
  revert s. induction fuel as [|fuel IH]; intros s; [done|]. cbn [tcl_suffixes].
  destruct (atTclSuffix s); [|done]. etrans; [apply IH|]. etrans; [apply skip_while_length|]. apply str_drop_le.
Qed.

Lemma readParam_length c s : (String.length (readParam (String c s)) ≤ String.length s)%nat.
Proof.
  unfold readParam. change (str_drop 1 (String c s)) with s.
  set (u := tcl_suffixes _ _). assert (String.length u ≤ String.length s)%nat as Hu.
  { subst u. etrans; [apply tcl_suffixes_length|]. apply skip_while_length. }
  destruct u as [|d u]; [simpl; lia|]. destruct (Ascii.eqb d "("); [|done].
  pose proof (tcl_argument_length u). simpl in Hu. lia.
Qed.

Lemma read_number_length b s : (String.length (read_number b s) ≤ String.length s)%nat.
Proof. revert b. induction s as [|c s IH]; intros b; [done|]. cbn [read_number]. case_match; [|done].
  etrans; [apply IH|]. simpl. lia. Qed.

Section Scan.
Context (total : nat).

(** What [scanToken] gives for a text of which [n] bytes are left. *)
Definition scanned (n : nat) (r : outcome query_error token * string) : Prop :=
  match r with
  | (Done t, rest) =>
      t_typ t = TyEof
      ∨ (t_typ t ≠ TyEof ∧ (String.length rest < n)%nat ∧ t_end t = position total rest
         ∧ span_within (Z.of_nat (total - n)) (Z.of_nat total) t)
  | (Fail _, _) => True
  | (OutOfFuel, _) => False
  end.

Lemma scanned_le n m r : scanned n r → (n ≤ m)%nat → scanned m r.
Proof.
  destruct r as [[t|e|] rest]; simpl; try done. unfold span_within.
  intros [?|(? & ? & ? & ?)] ?; [by left|right]. split_and!; try done; lia.
Qed.

Lemma tok_scanned ty val s rest :
  ty ≠ TyEof → (String.length rest < String.length s ≤ total)%nat → scanned (String.length s) (tok total ty val s rest).
Proof. intros Hty Hl. right. unfold span_within, position. cbn [t_start t_end t_typ]. split_and!; try done; lia. Qed.

Lemma tok_closed_scanned ty o c e ch s :
  ty ≠ TyEof → (String.length (String ch s) ≤ total)%nat →
  scanned (String.length (String ch s)) (tok_closed total ty o c e (String ch s) s).
Proof.
  intros Hty Hl. unfold tok_closed. destruct (read_closed c s) as [[b rest]|] eqn:Hr; [|done].
  apply tok_scanned; [done|]. apply read_closed_length in Hr. cbn [String.length] in *. lia.
Qed.

Lemma scanToken_scanned fuel s :
  (String.length s < fuel)%nat → (String.length s ≤ total)%nat → scanned (String.length s) (scanToken total fuel s).
Proof.
  revert s. induction fuel as [|fuel IH]; intros s0 Hf Ht; [lia|]. cbn [scanToken].
  pose proof (skip_while_length space_byte s0) as Hw. fold (skipWhitespace s0) in Hw.
  eapply scanned_le; [|exact Hw]. assert (String.length (skipWhitespace s0) < S fuel)%nat as Hf' by lia.
  assert (String.length (skipWhitespace s0) ≤ total)%nat as Ht' by lia.
  destruct (skipWhitespace s0) as [|c s]; [by left|]. clear s0 Hf Ht Hw. rename Hf' into Hf, Ht' into Ht.
  assert (∀ ty v, ty ≠ TyEof → scanned (String.length (String c s)) (tok total ty v (String c s) s)) as Hsingle.
  { intros ty v Hty. apply tok_scanned; [done|]. cbn [String.length] in *. lia. }
  assert (∀ ty rest, ty ≠ TyEof → (String.length rest ≤ String.length s)%nat →
    scanned (String.length (String c s)) (tok_text total ty (String c s) rest)) as Htext.
  { intros ty rest Hty Hr. apply tok_scanned; [done|]. cbn [String.length] in *. lia. }
  assert (∀ u, (String.length u ≤ String.length s)%nat →
    scanned (String.length (String c s)) (scanToken total fuel u)) as Hskip.
  { intros u Hu. eapply scanned_le; [apply IH|]; cbn [String.length] in *; lia. }
  repeat (case_match; [first [by apply Hsingle | by apply tok_closed_scanned | idtac]|]); try by apply Hsingle.
  - apply Hskip. unfold skipLineComment. etrans; [apply skip_while_length|]. cbn [str_drop].
    apply (str_drop_le 1).
  - apply Hskip. unfold skipBlockComment. etrans; [apply block_rest_length|]. apply (str_drop_le 1).
  - apply Htext; [done|]. apply readParam_length.
  - apply Htext; [done|]. apply skip_while_length.
  - apply Htext; [done|]. unfold readIdent. cbn [skip_while]. destruct (isIdentCont c) eqn:Hc; [apply skip_while_length|].
    unfold isIdentCont in Hc. rewrite !orb_false_iff in Hc. naive_solver congruence.
  - apply Htext; [done|]. unfold readNumber. cbn [read_number].
    replace (digit_byte c) with true by done. apply read_number_length.
Qed.

Lemma scan_all_in_order fuel s :
  (String.length s < fuel)%nat → (String.length s ≤ total)%nat →
  in_order (position total s) (Z.of_nat total) (scan_all total fuel s).
Proof.
  revert s. induction fuel as [|fuel IH]; intros s Hf Ht; [lia|]. cbn [scan_all].
  pose proof (scanToken_scanned (S (String.length s)) s ltac:(lia) Ht) as Hs.
  destruct (scanToken total (S (String.length s)) s) as [[t|e|] rest]; [|done|done].
  destruct Hs as [Hs|(Hty & Hl & He & Hsp)]; [by rewrite decide_True by done|].
  rewrite decide_False by done. cbn [in_order]. split_and!; [done|exact Hsp|]. rewrite He. apply IH; lia.
Qed.
End Scan.

Lemma scan_query_in_order stmt : in_order 0 (len stmt) (scan_query stmt).
Proof.
  unfold scan_query. pose proof (scan_all_in_order (String.length stmt) (S (String.length stmt)) stmt) as H.
  unfold position in H. rewrite Nat.sub_diag in H. apply H; lia.
Qed.

(** ** The logic *)

Definition wp {A} (m : step A) (s : scanner) (Q : A → scanner → Prop) : Prop :=
  match m s with Done (a, s') => Q a s' | Fail _ => True | OutOfFuel => False end.

Lemma wp_bind {A B} (m : step A) (k : A → step B) s Q :
  wp m s (λ a s', wp (k a) s' Q) → wp (and_then m k) s Q.
Proof. unfold wp, and_then. destruct (m s) as [[a s']|e|]; done. Qed.
Lemma wp_mono {A} (m : step A) s (P Q : A → scanner → Prop) :
  wp m s P → (∀ a s', P a s' → Q a s') → wp m s Q.
Proof. unfold wp. destruct (m s) as [[a s']|e|]; eauto. Qed.
Lemma wp_ret {A} (a : A) s (Q : A → scanner → Prop) : Q a s → wp (ret a) s Q.
Proof. done. Qed.
Lemma wp_refuse {A} e s (Q : A → scanner → Prop) : wp (refuse e) s Q.
Proof. done. Qed.

Section Logic.
Context {UT : UnicodeTables} (registered : list string) (hi : Z).

Definition rewrite_ok (r : tableRewrite) : Prop :=
  rw_table r ∈ registered ∧ 0 ≤ rw_start r ∧ rw_start r < rw_end r ∧ rw_end r ≤ hi.
Definition size (s : scanner) : nat := length (sc_toks s).
Definition good (lo : Z) (s : scanner) : Prop :=
  0 ≤ lo ∧ in_order lo hi (sc_toks s) ∧ Forall rewrite_ok (sc_rewrites s).
(** [t] was peeked: it is the next token, or nothing is left. *)
Definition held (t : token) (s : scanner) : Prop :=
  t = eof_token s ∨ t = no_token ∨ ∃ ts, sc_toks s = Done t :: ts.

Lemma good_weaken lo s : good lo s → good 0 s.
Proof. intros (? & ? & ?). split_and!; [done| |done]. by eapply in_order_le. Qed.
Hint Resolve good_weaken : core.

Lemma good_tail lo s t ts : good lo s → sc_toks s = Done t :: ts →
  span_within lo hi t ∧ good (t_end t) (with_toks s ts) ∧ (length ts < size s)%nat ∧ t_typ t ≠ TyEof.
Proof.
  intros (? & Ho & ?) Ht. unfold size. rewrite Ht in *. cbn [in_order] in Ho. destruct Ho as (? & Hs & ?).
  split_and!; [done| |simpl; lia|done]. unfold span_within in Hs. split_and!; simpl; [lia|done|done].
Qed.

Lemma wp_next lo s Q :
  good lo s → Q (eof_token s) s →
  (∀ t s', t_typ t ≠ TyEof → span_within lo hi t → good (t_end t) s' → (size s' < size s)%nat → Q t s') →
  wp next s Q.
Proof.
  intros Hg He HQ. unfold wp, next. destruct (sc_toks s) as [|[t|e|] ts] eqn:Ht; [done| |done|].
  - destruct (good_tail _ _ _ _ Hg Ht) as (? & ? & ? & ?). by apply HQ.
  - destruct Hg as (_ & Ho & _). by rewrite Ht in Ho.
Qed.

Definition peeked (t : token) (s : scanner) : Prop :=
  (sc_toks s = [] ∧ t = eof_token s) ∨ ∃ ts, sc_toks s = Done t :: ts ∧ t_typ t ≠ TyEof.

Lemma wp_peek lo s Q : good lo s → (∀ t, held t s → peeked t s → Q t s) → wp peek s Q.
Proof.
  intros Hg HQ. unfold wp, peek. destruct (sc_toks s) as [|[t|e|] ts] eqn:Ht; [apply HQ; by left| |done|].
  - destruct (good_tail _ _ _ _ Hg Ht) as (_ & _ & _ & ?).
    apply HQ; [right; right; by exists ts|right; by exists ts].
  - destruct Hg as (_ & Ho & _). by rewrite Ht in Ho.
Qed.

Lemma wp_peek_any lo s Q :
  good lo s → (∀ t s', held t s' → good lo s' → (size s' ≤ size s)%nat → Q t s') → wp peek_any s Q.
Proof.
  intros Hg HQ. unfold wp, peek_any. destruct (sc_toks s) as [|[t|e|] ts] eqn:Ht.
  - apply HQ; [by left|done|lia].
  - apply HQ; [right; right; by exists ts|done|lia].
  - destruct Hg as (? & Ho & ?). rewrite Ht in Ho. simpl in Ho. subst ts.
    apply HQ; [by right; left|done|unfold size; simpl; lia].
  - destruct Hg as (_ & Ho & _). by rewrite Ht in Ho.
Qed.

Lemma wp_drop lo s t ts Q :
  good lo s → sc_toks s = Done t :: ts →
  (∀ s', span_within lo hi t → good (t_end t) s' → (size s' < size s)%nat → Q () s') → wp drop_token s Q.
Proof.
  intros Hg Ht HQ. unfold wp, drop_token. rewrite Ht.
  destruct (good_tail _ _ _ _ Hg Ht) as (? & ? & ? & ?). by apply HQ.
Qed.

Lemma wp_expect lo s kw Q :
  good lo s → kw ≠ "" → (∀ s', good 0 s' → (size s' < size s)%nat → Q () s') → wp (expect kw) s Q.
Proof.
  intros Hg Hkw HQ. apply wp_bind. eapply wp_next; [done| |].
  - rewrite (proj2 (String.eqb_neq _ _)); [done|]. by apply not_eq_sym.
  - intros t s' _ Hs Hg' Hl. case_match; [|done]. apply wp_ret. eauto.
Qed.

Lemma wp_isWindowClause s Q : (∀ b, Q b s) → wp isWindowClause s Q.
Proof. intros HQ. apply HQ. Qed.
Lemma wp_isNotIndexed s Q : (∀ b, Q b s) → wp isNotIndexed s Q.
Proof. intros HQ. apply HQ. Qed.
Lemma wp_set_hint lo b s Q : good lo s → (∀ s', good lo s' → size s' = size s → sc_toks s' = sc_toks s → Q () s') → wp (set_hint b) s Q.
Proof. intros Hg HQ. by apply HQ. Qed.

(** A test that neither the end of the query nor a dropped error passes. *)
Lemma held_token (f : token → bool) t s :
  held t s → f t = true → f (eof_token s) = false → f no_token = false → ∃ ts, sc_toks s = Done t :: ts.
Proof. intros [->|[->|H]] Ht H1 H2; [congruence..|done]. Qed.

Lemma skip_group_good depth ts lo :
  in_order lo hi ts → 0 ≤ lo →
  match skip_group depth ts with
  | Done ts' => (length ts' ≤ length ts)%nat ∧ ∃ lo', 0 ≤ lo' ∧ in_order lo' hi ts'
  | Fail _ => True
  | OutOfFuel => False
  end.
Proof.
  revert depth lo. induction ts as [|[t|e|] ts IH]; intros depth lo Ho Hlo; [done| |done|done].
  destruct Ho as (_ & Hs & Ho). cbn [skip_group]. unfold span_within in Hs.
  assert (0 ≤ t_end t) as He by lia.
  assert (∀ d, match skip_group d ts with
    | Done ts' => (length ts' ≤ length (Done t :: ts))%nat ∧ ∃ lo', 0 ≤ lo' ∧ in_order lo' hi ts'
    | Fail _ => True | OutOfFuel => False end) as Hrec.
  { intros d. specialize (IH d _ Ho He). destruct (skip_group d ts); [|done|done].
    destruct IH as [? ?]. split; [simpl; lia|done]. }
  destruct (is_val t "("); [apply Hrec|]. destruct (is_val t ")"); [|apply Hrec].
  destruct depth as [|[|d]]; [..|apply Hrec]; (split; [simpl; lia|by exists (t_end t)]).
Qed.

Lemma join_ops_good ts lo :
  in_order lo hi ts → 0 ≤ lo →
  match join_ops ts with
  | Done ts' => (length ts' < length ts)%nat ∧ ∃ lo', 0 ≤ lo' ∧ in_order lo' hi ts'
  | Fail _ => True
  | OutOfFuel => False
  end.
Proof.
  revert lo. induction ts as [|[t|e|] ts IH]; intros lo Ho Hlo; [done| |done|done].
  destruct Ho as (_ & Hs & Ho). cbn [join_ops]. unfold span_within in Hs.
  destruct (isKeyword t "join"); [split; [simpl; lia|exists (t_end t); split; [lia|done]]|].
  destruct (isJoinOp t); [|done]. specialize (IH _ Ho ltac:(lia)).
  destruct (join_ops ts); [|done|done]. destruct IH as [? ?]. split; [simpl; lia|done].
Qed.

(** The next token, where a test shows that there is one. *)
Ltac seen :=
  repeat match goal with
  | H : _ && _ = true |- _ => apply andb_true_iff in H as [? ?]
  | H : held ?t ?s, Ht : is_val ?t ?v = true |- _ =>
      destruct (held_token (λ u, is_val u v) t s H Ht eq_refl eq_refl) as [? ?]; clear H
  | H : held ?t ?s, Ht : isKeyword ?t ?v = true |- _ =>
      destruct (held_token (λ u, isKeyword u v) t s H Ht eq_refl eq_refl) as [? ?]; clear H
  | H : held ?t ?s, Ht : negb (is_name ?t) = false |- _ => apply negb_false_iff in Ht
  | H : held ?t ?s, Ht : is_name ?t = true |- _ =>
      destruct (held_token is_name t s H Ht eq_refl eq_refl) as [? ?]; clear H
  end.

(** One step of a method, by the lemma of the step at the head of it. *)
Ltac walk1 :=
  match goal with
  | |- wp (ret _) _ _ => apply wp_ret
  | |- wp done _ _ => apply wp_ret
  | |- wp (refuse _) _ _ => apply wp_refuse
  | |- wp (and_then _ _) _ _ => apply wp_bind
  | |- wp isNotIndexed _ _ => apply wp_isNotIndexed; intros ?
  | |- wp isWindowClause _ _ => apply wp_isWindowClause; intros ?
  | Hg : good _ ?st |- wp (set_hint _) ?st _ => eapply (wp_set_hint _ _ _ _ Hg); intros ? ? ? Htoks;
      first [match goal with Ht : sc_toks st = Done _ :: _ |- _ => rewrite Ht in Htoks end | clear Htoks]
  | Hg : good _ ?s |- wp next ?s _ => eapply (wp_next _ _ _ Hg); [|intros ?t ? ? ? ? ?]
  | Hg : good _ ?s |- wp peek ?s _ => eapply (wp_peek _ _ _ Hg); intros ?t ? ?
  | Hg : good _ ?s |- wp peek_any ?s _ => eapply (wp_peek_any _ _ _ Hg); intros ?t ? ? ? ?
  | Hg : good _ ?s, Ht : sc_toks ?s = Done _ :: _ |- wp drop_token ?s _ => eapply (wp_drop _ _ _ _ _ Hg Ht); intros ? ? ? ?
  | Hg : good _ ?s |- wp (expect _) ?s _ => eapply (wp_expect _ _ _ _ Hg); [done|intros ? ? ?]
  | |- wp (if ?b then _ else _) _ _ => destruct b eqn:?; seen
  end.
Ltac walk := repeat walk1; try solve [split; [by eauto|lia] | done].

(** A step that leaves the invariant and reads no more than there is. *)
Definition keeps {A} (m : step A) : Prop :=
  ∀ lo s, good lo s → wp m s (λ _ s', good 0 s' ∧ (size s' ≤ size s)%nat).
Definition consumes {A} (m : step A) : Prop :=
  ∀ lo s, good lo s → wp m s (λ _ s', good 0 s' ∧ (size s' < size s)%nat).

Lemma wp_keeps {A} (m : step A) lo s Q :
  keeps m → good lo s → (∀ a s', good 0 s' → (size s' ≤ size s)%nat → Q a s') → wp m s Q.
Proof. intros Hm Hg HQ. eapply wp_mono; [by eapply Hm|]. intros a s' [? ?]. by apply HQ. Qed.
Lemma wp_consumes {A} (m : step A) lo s Q :
  consumes m → good lo s → (∀ a s', good 0 s' → (size s' < size s)%nat → Q a s') → wp m s Q.
Proof. intros Hm Hg HQ. eapply wp_mono; [by eapply Hm|]. intros a s' [? ?]. by apply HQ. Qed.

Lemma skipParenthesized_consumes : consumes skipParenthesized.
Proof.
  intros lo s Hg. unfold skipParenthesized. walk. destruct H as (? & Ho & ?).
  pose proof (skip_group_good 1 _ _ Ho ltac:(lia)) as Hk. unfold wp. destruct (skip_group 1 (sc_toks s')); [|done|done].
  destruct Hk as (Hk & lo' & ? & ?). unfold size in *. simpl. split; [|lia]. eapply good_weaken. by split_and!.
Qed.

Lemma consumeJoinOp_consumes : consumes consumeJoinOp.
Proof.
  intros lo s (? & Ho & ?). unfold consumeJoinOp, wp. pose proof (join_ops_good _ _ Ho ltac:(lia)) as Hk.
  destruct (join_ops (sc_toks s)); [|done|done].
  destruct Hk as (Hk & lo' & ? & ?). unfold size. simpl. split; [|lia]. eapply good_weaken. by split_and!.
Qed.

Lemma skip_materialized_keeps : keeps skip_materialized.
Proof. intros lo s Hg. unfold skip_materialized. walk. Qed.
Lemma skip_recursive_keeps : keeps skip_recursive.
Proof. intros lo s Hg. unfold skip_recursive. walk. Qed.
Lemma cte_name_consumes : consumes cte_name.
Proof. intros lo s Hg. unfold cte_name. walk; done. Qed.
Lemma skipIndexedBy_keeps : keeps skipIndexedBy.
Proof. intros lo s Hg. unfold skipIndexedBy. walk. Qed.

Lemma skipOptionalAliasReported_keeps : keeps skipOptionalAliasReported.
Proof.
  intros lo s Hg. unfold skipOptionalAliasReported. walk.
  all: eapply wp_keeps; [apply skipIndexedBy_keeps|done|intros; walk].
Qed.
Lemma skipOptionalAlias_keeps : keeps skipOptionalAlias.
Proof.
  intros lo s Hg. unfold skipOptionalAlias. walk. eapply wp_keeps; [apply skipOptionalAliasReported_keeps|done|intros; walk].
Qed.
Lemma parsePragmaArgs_consumes schema name : consumes (parsePragmaArgs schema name).
Proof. intros lo s Hg. unfold parsePragmaArgs. walk. Qed.
Lemma checkTableName_keeps e schema name : keeps (checkTableName registered e schema name).
Proof. intros lo s Hg. unfold checkTableName. walk. Qed.

Lemma set_last_ok a h rs : Forall rewrite_ok rs → Forall rewrite_ok (set_last a h rs).
Proof.
  induction rs as [|r rs IH]; [done|]. intros [Hr Hrs]%Forall_cons.
  destruct rs as [|r' rs]; [by apply Forall_singleton|]. constructor; [done|]. by apply IH.
Qed.
Lemma mark_last_keeps a : keeps (mark_last a).
Proof. intros lo s (? & Ho & ?). split; [|done]. eapply good_weaken. split_and!; [done..|]. by apply set_last_ok. Qed.

(** The names of a WITH clause: enough fuel, and nothing but them is kept. *)
Lemma cte_names_loop_total fuel names lo s :
  good lo s → (size s < fuel)%nat → wp (cte_names_loop fuel names) s (λ _ _, True).
Proof.
  revert names lo s. induction fuel as [|fuel IH]; intros names lo s Hg Hf; [lia|]. cbn [cte_names_loop].
  apply wp_bind. eapply wp_consumes; [apply cte_name_consumes|done|]. intros name s1 Hg1 Hl1.
  walk1. walk1. walk1.
  eapply (wp_keeps _ 0); [|done|].
  { intros lo' u Hu. destruct (is_val t "("); [|by walk]. eapply wp_consumes; [apply skipParenthesized_consumes|done|].
    intros. split; [done|lia]. }
  intros [] s2 Hg2 Hl2. walk1. walk1. walk1.
  eapply wp_keeps; [apply skip_materialized_keeps|done|]. intros [] s4 Hg4 Hl4. walk1.
  eapply wp_consumes; [apply skipParenthesized_consumes|done|]. intros [] s5 Hg5 Hl5.
  walk. eapply IH; [done|lia].
Qed.

Lemma collectCteNames_keeps lo s Q :
  good lo s → (∀ names, Q names s) → wp collectCteNames s Q.
Proof.
  intros Hg HQ. unfold wp, collectCteNames.
  assert (wp (let$ _ := skip_recursive in cte_names_loop (S (length (sc_toks s))) []) s (λ _ _, True)) as Hw.
  { apply wp_bind. eapply wp_keeps; [apply skip_recursive_keeps|done|]. intros [] s1 Hg1 Hl1.
    eapply cte_names_loop_total; [done|]. unfold size in *. lia. }
  unfold wp in Hw. destruct (and_then skip_recursive _ s) as [[names s']|e|]; [apply HQ|done|done].
Qed.

(** The two parts of a name after its first token [t], and where it ends. *)
Lemma wp_qualified_name t s Q :
  good (t_end t) s → t_start t < t_end t → t_end t ≤ hi →
  (∀ schema name e s', good 0 s' → (size s' ≤ size s)%nat → t_start t < e → e ≤ hi → Q (schema, name, e) s') →
  wp (qualified_name t) s Q.
Proof.
  intros Hg Ht Hh HQ. unfold qualified_name. walk; unfold span_within in *; apply HQ; eauto; lia.
Qed.

(** ** The methods *)

Definition rank (c : call) : nat :=
  match c with CTables _ => 2 | CUntil _ | CValues => 1 | _ => 0 end.
Definition need (c : call) (n : nat) : nat := 4 * n + rank c + 1.

(** What a method leaves of the tokens. *)
Definition left_by (c : call) (s : scanner) (a : answer) (s' : scanner) : Prop :=
  match c with
  | CStatement | CParenthesized | CFactor => (size s' < size s)%nat
  | CUntil stop =>
      held (an_token a) s' ∧ (size s' ≤ size s)%nat
      ∧ ∀ t, held t s → isStopToken t stop = false → t_val t ≠ "" → (size s' < size s)%nat
  | _ => (size s' ≤ size s)%nat
  end.
Definition post (c : call) (s : scanner) (a : answer) (s' : scanner) : Prop := good 0 s' ∧ left_by c s a s'.

Section Methods.
Context (fuel : nat) (rec : env → call → step answer).
Hypothesis Hrec : ∀ e c lo s, good lo s → (need c (size s) ≤ fuel)%nat → wp (rec e c) s (post c s).

Lemma wp_rec e c lo s Q :
  good lo s → (need c (size s) ≤ fuel)%nat →
  (∀ a s', good 0 s' → left_by c s a s' → Q a s') → wp (rec e c) s Q.
Proof. intros Hg Hf HQ. eapply wp_mono; [by eapply Hrec|]. intros a s' [? ?]. by apply HQ. Qed.

(** One step, or one of the calls and helpers the lemmas above are about. *)
Ltac by_lemma lem := eapply lem; [eassumption|intros ? ? ? ?].
Ltac call1 :=
  match goal with
  | |- wp (rec _ _) _ _ =>
      eapply wp_rec; [eassumption|unfold need in *; cbn [rank] in *; lia|intros ? ? ? ?; cbn [left_by] in *; destruct_and?]
  | |- wp skip_materialized _ _ => eapply wp_keeps; [apply skip_materialized_keeps|eassumption|intros ? ? ? ?]
  | |- wp skip_recursive _ _ => eapply wp_keeps; [apply skip_recursive_keeps|eassumption|intros ? ? ? ?]
  | |- wp skipOptionalAlias _ _ => eapply wp_keeps; [apply skipOptionalAlias_keeps|eassumption|intros ? ? ? ?]
  | |- wp skipOptionalAliasReported _ _ => eapply wp_keeps; [apply skipOptionalAliasReported_keeps|eassumption|intros ? ? ? ?]
  | |- wp (checkTableName _ _ _ _) _ _ => eapply wp_keeps; [apply checkTableName_keeps|eassumption|intros ? ? ? ?]
  | |- wp (mark_last _) _ _ => eapply wp_keeps; [apply mark_last_keeps|eassumption|intros ? ? ? ?]
  | |- wp (parsePragmaArgs _ _) _ _ => eapply wp_consumes; [apply parsePragmaArgs_consumes|eassumption|intros ? ? ? ?]
  | |- wp consumeJoinOp _ _ => eapply wp_consumes; [apply consumeJoinOp_consumes|eassumption|intros ? ? ? ?]
  | |- wp cte_name _ _ => eapply wp_consumes; [apply cte_name_consumes|eassumption|intros ? ? ? ?]
  | |- wp collectCteNames _ _ => eapply collectCteNames_keeps; [eassumption|intros ?]
  end.
Ltac follow := repeat first [walk1 | call1]; try solve [split; [by eauto|cbn [left_by] in *; lia] | done].

Definition within (n : nat) (m : step answer) : Prop :=
  ∀ lo s, good lo s → (4 * size s < fuel + n)%nat → wp m s (λ _ s', good 0 s' ∧ (size s' < size s)%nat).

Lemma parseValuesCore_within e : within 3 (parseValuesCore rec e).
Proof. intros lo s Hg Hf. unfold parseValuesCore. follow. Qed.

Lemma parseSelectCore_within e : within 3 (parseSelectCore rec e).
Proof. intros lo s Hg Hf. unfold parseSelectCore. follow. Qed.


Lemma parseCore_within e : within 3 (parseCore rec e).
Proof.
  intros lo s Hg Hf. unfold parseCore. follow.
  - eapply wp_mono; [by eapply parseSelectCore_within; [|lia]|]. intros a u [? ?]. split; [done|lia].
  - eapply wp_mono; [by eapply parseValuesCore_within; [|lia]|]. intros a u [? ?]. split; [done|lia].
Qed.

Lemma parseSelectStatement_within e : within 3 (parseSelectStatement rec e).
Proof.
  intros lo s Hg Hf. unfold parseSelectStatement. walk1.
  eapply wp_mono; [by eapply parseCore_within|]. intros a s1 [? ?]. follow.
Qed.

Lemma parseStatement_within e : within 3 (parseStatement rec e).
Proof.
  intros lo s Hg Hf. unfold parseStatement. do 2 walk1.
  all: follow.
  - unfold parseWith. follow. eapply wp_mono; [eapply parseSelectStatement_within; [done|lia]|].
    intros ? ? [? ?]. split; [done|lia].
  - by eapply parseSelectStatement_within.
Qed.

Lemma wp_within m lo s Q :
  within 3 m → good lo s → (4 * size s < fuel + 3)%nat →
  (∀ a s', good 0 s' → (size s' < size s)%nat → Q a s') → wp m s Q.
Proof. intros Hm Hg Hf HQ. eapply wp_mono; [by eapply Hm|]. intros a s' [? ?]. by apply HQ. Qed.

(** What [method] leaves, as its callers use it. *)
Definition implements (c : call) (m : step answer) : Prop :=
  ∀ lo s, good lo s → (need c (size s) ≤ S fuel)%nat → wp m s (post c s).

Lemma selects_loop_implements e : implements CSelects (selects_loop rec e).
Proof.
  unfold implements, need. intros lo s Hg Hf. unfold selects_loop. walk1. walk1. walk1; [|by follow].
  assert (∃ ts, sc_toks s = Done t :: ts) as [ts Hts].
  { rewrite !orb_true_iff in Heqb. by destruct Heqb as [[Hb|Hb]|Hb]; seen; eauto. }
  walk1. walk1. walk1. apply (wp_keeps _ (t_end t)); [|done|].
  { intros lo' u Hu. follow. }
  intros [] s2 ? ?. walk1. eapply wp_within; [apply parseCore_within|done|cbn [rank] in *; lia|].
  intros. call1. split; [done|]. cbn [left_by]. lia.
Qed.

Lemma with_loop_implements e : implements CWith (with_loop rec e).
Proof. unfold implements, need. intros lo s Hg Hf. unfold with_loop. follow. Qed.

Lemma values_loop_implements e : implements CValues (values_loop rec e).
Proof. unfold implements, need. intros lo s Hg Hf. unfold values_loop. follow. Qed.

Lemma scanUntil_implements e stop : implements (CUntil stop) (scanUntil rec e stop).
Proof.
  unfold implements, need. intros lo s Hg Hf. unfold scanUntil. walk1. walk1. destruct (isStopToken t stop) eqn:Hstop.
  - apply wp_ret. split; [by eauto|]. cbn [left_by an_token]. split_and!; [done|done|].
    intros t' Ht' Hn Hv. destruct Ht' as [->|[->|[ts' Ht'']]], H0 as [[Ht ->]|(ts & Ht & _)]; try done; congruence.
  - destruct H0 as [[_ ->]|(ts & Hts & _)]; [done|]. destruct (is_val t "(") eqn:Hp; follow.
    all: split; [done|]; cbn [left_by]; split_and!; [done|lia|intros; lia].
Qed.

Lemma checkInTableOperand_implements e : implements CInOperand (checkInTableOperand registered rec e).
Proof.
  unfold implements, need. intros lo s Hg Hf. unfold checkInTableOperand. do 4 walk1; [by follow|].
  walk1. walk1.
  eapply wp_qualified_name; [done|unfold span_within in *; lia..|].
  intros schema name ends s2 Hg2 Hl2 _ _. follow.
Qed.

Lemma scanParenthesized_implements e : implements CParenthesized (scanParenthesized rec e).
Proof. unfold implements, need. intros lo s Hg Hf. unfold scanParenthesized. follow. Qed.

Lemma group_loop_implements e depth : implements (CGroup depth) (group_loop rec e depth).
Proof.
  unfold implements, need. intros lo s Hg Hf. unfold group_loop. walk1. walk1; [done|].
  rewrite decide_False by done. walk1.
  apply (wp_mono _ _ (λ _ u, good 0 u ∧ (size u ≤ size s')%nat)); [by follow|]. intros a u [? ?].
  follow. destruct depth as [|[|d]]; follow.
Qed.
Lemma nested_factor_wp e lo s ts t :
  good lo s → sc_toks s = Done t :: ts → (4 * size s ≤ fuel)%nat → wp (nested_factor rec e) s (post CFactor s).
Proof. unfold post. intros Hg Hts Hf. unfold nested_factor. follow. Qed.

Lemma named_factor_wp e start schema name ends s :
  good 0 s → 0 ≤ start → start < ends → ends ≤ hi →
  wp (named_factor registered e start schema name ends) s (λ _ s', good 0 s' ∧ (size s' ≤ size s)%nat).
Proof.
  intros Hg H0 H1 H2. unfold named_factor. walk1. call1. walk1.
  eapply (wp_mono _ _ (λ _ u, good 0 u ∧ (size u ≤ size s)%nat)).
  - walk1; [|by walk]. split; [|done]. destruct H as (? & ? & Hr). split_and!; [done..|]. simpl.
    apply Forall_app. split; [done|]. apply Forall_singleton. unfold isRegisteredRef in *. seen.
    split_and!; simpl; [by apply mem_spec|done..].
  - intros [] u [? ?]. follow.
Qed.

Lemma parseTableFactor_implements e : implements CFactor (parseTableFactor registered rec e).
Proof.
  unfold implements, need. intros lo s Hg Hf. unfold parseTableFactor. do 2 walk1. walk1.
  { eapply nested_factor_wp; [done..|cbn [rank] in *; lia]. }
  walk1; [done|]. walk1. walk1. walk1.
  eapply wp_qualified_name; [done|unfold span_within in *; lia..|].
  intros schema name ends s2 Hg2 Hl2 ? ?. walk1. walk1.
  assert (0 ≤ t_start t) as Ht0. { destruct Hg. unfold span_within in *. lia. }
  walk1; [walk1; [by follow|]|walk1; [by follow|]].
  - follow. eapply wp_mono; [by apply named_factor_wp|]. intros ? ? [? ?]. split; [done|cbn [left_by] in *; lia].
  - eapply wp_mono; [by apply named_factor_wp|]. intros ? ? [? ?]. split; [done|cbn [left_by] in *; lia].
Qed.
Lemma keyword_stop t kw stop : isKeyword t kw = true → isStopToken t stop = mem kw stop.
Proof.
  unfold isKeyword, isStopToken, plain_word. rewrite !andb_true_iff, bool_decide_eq_true, String.eqb_eq.
  intros [[Hty Hq] <-]. by rewrite Hty, Hq.
Qed.

Lemma parseTableList_implements e saw : implements (CTables saw) (parseTableList rec e saw).
Proof.
  unfold implements, need. intros lo s Hg Hf. unfold parseTableList. do 4 walk1.
  assert (wp (let$ _ := rec e CFactor in rec e (CTables true)) s (post (CTables saw) s)) as Hfactor.
  { unfold post. follow. }
  walk1; [by follow|].
  walk1; [destruct saw; [unfold post; follow|exact Hfactor]|].
  destruct (isKeyword t "on" || isKeyword t "using") eqn:Hon.
  - destruct saw; [|exact Hfactor]. simpl negb. cbn [negb].
    assert (isStopToken t joinConditionStop = false ∧ t_val t ≠ "") as [Hstop Hv].
    { apply orb_true_iff in Hon as [Hon|Hon]; rewrite (keyword_stop _ _ _ Hon);
        (split; [done|]); intros Hv; unfold isKeyword in Hon; rewrite Hv in Hon; by destruct (bool_decide _). }
    walk1. eapply wp_rec; [done|unfold need; cbn [rank] in *; lia|]. intros a s1 Hg1 (_ & _ & Hl).
    specialize (Hl t H Hstop Hv). unfold post. follow.
  - walk1; [by follow|]. destruct (isClauseEnd t); [unfold post; by follow|exact Hfactor].
Qed.

Lemma method_post e c lo s :
  good lo s → (need c (size s) ≤ S fuel)%nat → wp (method registered rec e c) s (post c s).
Proof.
  intros Hg Hf. destruct c; cbn [method].
  - eapply wp_mono; [eapply parseStatement_within; [done|unfold need in Hf; cbn [rank] in Hf; lia]|].
    intros a s' [? ?]. by split.
  - by eapply with_loop_implements.
  - by eapply selects_loop_implements.
  - by eapply values_loop_implements.
  - by eapply scanUntil_implements.
  - by eapply checkInTableOperand_implements.
  - by eapply scanParenthesized_implements.
  - by eapply group_loop_implements.
  - by eapply parseTableList_implements.
  - by eapply parseTableFactor_implements.
Qed.
End Methods.

Lemma run_post fuel e c lo s :
  good lo s → (need c (size s) ≤ fuel)%nat → wp (run registered fuel e c) s (post c s).
Proof.
  revert e c lo s. induction fuel as [|fuel IH]; intros e c lo s Hg Hf; [unfold need in Hf; lia|].
  cbn [run]. by eapply method_post.
Qed.
End Logic.

Lemma run_query {UT : UnicodeTables} registered stmt :
  wp (run registered (query_fuel (scan_query stmt)) top CStatement) (MkScanner (scan_query stmt) [] false (len stmt))
    (λ _ s, Forall (rewrite_ok registered (len stmt)) (sc_rewrites s)).
Proof.
  eapply wp_mono; [eapply (run_post registered (len stmt))|].
  - split_and!; [done|apply scan_query_in_order|done].
  - unfold need, query_fuel, size. simpl. lia.
  - intros a s [(_ & _ & ?) _]. done.
Qed.
