(* ===== verification/QueryTheorems.v ===== *)
(** * The theorems of read queries

    The walk always ends, what it records is inside the text, and a name that
    is neither a table of the namespace nor a legal table name is refused in
    both places a table can be named.  At the end: the store's search for a
    second statement in a text, against SQLite's rules. *)
From Stdlib Require Import ZArith Lia Ascii String.
From stdpp Require Import base gmap strings list.
From S2P Require Import Prelude GoStrings AuthIdentity SchemaIdent SchemaText QueryScan QueryTables QueryTotal.
Local Open Scope Z_scope.

(** C29. For every text, [scanQueryTables] (store/query_tables.go) answers:
    the fuel [query_fuel] is enough for its mutually recursive methods.  When
    it accepts the query, every recorded reference is of a registered table
    and stands at a non-empty span inside the text, so the slices that
    [maskSecretTables] cuts are in range. *)
Theorem scanQueryTables_total {UT : UnicodeTables} (registered : list string) (stmt : string) :
  (∃ rewrites, scanQueryTables registered stmt = Done rewrites
     ∧ Forall (rewrite_ok registered (len stmt)) rewrites)
  ∨ ∃ e, scanQueryTables registered stmt = Fail e.
Proof.
  unfold scanQueryTables. case_match; [right; by eexists|].
  pose proof (run_query registered stmt) as Hr. unfold wp in Hr.
  destruct (run _ _ _ _ _) as [[a s]|e|]; [left; by eexists|right; by eexists|done].
Qed.

(** ** Names in the two places of a table *)

Lemma after_last_dot_none s : (∀ i, String.get i s ≠ Some "."%char) → after_last_dot s = None.
Proof.
  induction s as [|c s IH]; intros H; [done|]. cbn [after_last_dot]. rewrite IH.
  - destruct (Ascii.eqb c ".") eqn:Hc; [|done]. apply Ascii.eqb_eq in Hc. by destruct (H 0%nat); subst c.
  - intros i. exact (H (S i)).
Qed.

(** The token ahead does not make [name] a qualified name or a call. *)
Definition bare (ts : list (outcome query_error token)) : bool :=
  match ts with
  | Done t :: _ => negb (is_val t ".") && negb (is_val t "(")
  | _ :: _ :: _ => false
  | _ => true
  end.

Lemma checkTableName_refuses {UT : UnicodeTables} registered e name st :
  let base := asciiLower (unquoteIdent name) in
  isCte e "" name = false → after_last_dot base = None → mem base registered = false → isUserTable base = false →
  checkTableName registered e "" name st = Fail (ReservedTable base).
Proof.
  intros base Hcte Hdot Hreg Hu. unfold checkTableName, isCte, base_of in *. cbn [String.eqb andb] in *. fold base in Hcte |- *.
  rewrite Hcte, Hdot. cbn [default]. change (ownSchema "") with true. cbn [andb default]. by rewrite Hreg, Hu.
Qed.

(** The two ways a name is refused. *)
Definition refusal (name : string) : query_error :=
  if isPragmaFunction name then ReservedPragma (unquoteIdent name) else ReservedTable (asciiLower (unquoteIdent name)).

(** A name that is not a common table expression in scope, not a table
    of the namespace and not a legal table name (SQLite's own tables, the
    engine's reserved tables, virtual tables such as dbstat) is refused
    wherever a query reads a table by its bare name, quoted or not: as a FROM
    item ([parseTableFactor]) and as the right operand of IN
    ([checkInTableOperand]), whatever stands around it. *)
Theorem reserved_name_refused {UT : UnicodeTables} (registered : list string) (rec : env → call → step answer)
    (e : env) (st : scanner) (t : token) (ts : list (outcome query_error token)) :
  sc_toks st = Done t :: ts →
  is_name t = true → is_val t "(" = false → bare ts = true →
  isCte e "" (name_of t) = false →
  mem (asciiLower (unquoteIdent (name_of t))) registered = false →
  after_last_dot (asciiLower (unquoteIdent (name_of t))) = None →
  isUserTable (asciiLower (unquoteIdent (name_of t))) = false →
  parseTableFactor registered rec e st = Fail (refusal (name_of t))
  ∧ checkInTableOperand registered rec e st = Fail (refusal (name_of t)).
Proof.
  intros Hts Hname Hopen Hbare Hcte Hreg Hdot Hu.
  assert (isRegisteredRef registered "" (name_of t) = false) as Href by exact Hreg.
  pose proof (λ st, checkTableName_refuses registered e (name_of t) st Hcte Hdot Hreg Hu) as Hcheck.
  unfold refusal, parseTableFactor, checkInTableOperand, named_factor, and_then, peek, drop_token, qualified_name, and_then, peek_any.
  destruct st as [toks rws hint last]. cbn [sc_toks] in Hts. subst toks.
  cbn [obind sc_toks]. rewrite Hname, Hopen. cbn [negb obind with_toks sc_toks].
  destruct ts as [|[t2|er|] ts]; cbn [bare] in Hbare.
  2: apply andb_true_iff in Hbare as [Hdot2%negb_true_iff Hopen2%negb_true_iff].
  3, 4: destruct ts; [|done].
  all: cbn [obind is_val t_val eof_token no_token String.eqb with_toks sc_toks]; rewrite ?Hdot2, ?Hopen2.
  all: unfold ret; cbn [obind]; rewrite ?Hdot2, ?Hopen2, Hcte, Href; cbn [negb andb].
  all: unfold named_factor, and_then; cbn [with_toks sc_toks obind is_val t_val eof_token String.eqb]; rewrite ?Hopen2, ?Hcte.
  all: destruct (isPragmaFunction (name_of t)); unfold refuse; rewrite ?Hcheck; done.
Qed.

#[local] Existing Instance ascii_tables.
Definition master_token : token := MkToken TyIdent (String dquote ("sqlite_master" +:+ String dquote "")) 14 29.

Lemma reserved_name_refused_witness :
  parseTableFactor ["notes"] (λ _ _ _, OutOfFuel) top (MkScanner [Done master_token] [] false 29)
    = Fail (ReservedTable "sqlite_master")
  ∧ checkInTableOperand ["notes"] (λ _ _ _, OutOfFuel) top (MkScanner [Done master_token] [] false 29)
    = Fail (ReservedTable "sqlite_master").
Proof.
  exact (reserved_name_refused ["notes"] (λ _ _ _, OutOfFuel) top (MkScanner [Done master_token] [] false 29)
    master_token [] eq_refl eq_refl eq_refl eq_refl eq_refl eq_refl eq_refl eq_refl).
Defined.

(** ** The walk on whole queries *)

Definition notes : list string := ["notes"; "secrets"].

(** Joins, nested queries, the names of common table expressions and schema
    qualifiers. *)
Example query_accepted :
  scanQueryTables notes "with t(a) as (select 1) select * from t, main.notes as n where n.id in (select id from Secrets)"
    = Done [MkRewrite "notes" 41 51 true true false; MkRewrite "secrets" 87 94 false false false].
Proof. vm_compute. reflexivity. Qed.

Example query_refused :
  map (scanQueryTables notes) ["select * from sqlite_master"; "select 1 where 1 in sqlite_master"; "delete from notes";
    "select * from pragma_table_list"; "select (select max(id) from _meta) from notes"]
  = [Fail (ReservedTable "sqlite_master"); Fail (ReservedTable "sqlite_master"); Fail NotSelect;
     Fail (ReservedPragma "pragma_table_list"); Fail (ReservedTable "_meta")].
Proof. vm_compute. reflexivity. Qed.

(** A masked table is read through its projection, under its own name. *)
Example query_masked :
  let masked t := if String.eqb t "secrets" then Some "(select id from secrets)" else None in
  let query := "select * from secrets, notes n" in
  (let! rewrites := scanQueryTables notes query in
   let! _ := refuseMaskedShapes rewrites masked in Done (maskSecretTables query rewrites masked))
  = Done ("select * from (select id from secrets) AS " +:+ quote_ident "secrets" +:+ ", notes n").
Proof. vm_compute. reflexivity. Qed.

(** * Where a text of SQL ends ([internal/store/query.go])

    The filter of a delete is put into a statement as it is, and a query is
    run as it is, so the store first looks for a semicolon that would end the
    statement: outside of texts, quoted names and comments.  SQLite's own
    rules for those are the automaton [sql_step]. *)
(** ** The scanner of the store *)

(** Where the loop of [hasStatementSeparator] is: among the text, before the
    closing character of a quote, or in one of its two inner loops. *)
Inductive scan_mode := Plain | Closing (c : ascii) | InLine | InBlock.

Definition double_quote : ascii := ascii_of_nat 34.
Definition quote_char (c : ascii) : bool := Ascii.eqb c "'" || Ascii.eqb c double_quote || Ascii.eqb c "`".
Fixpoint separator_from (m : scan_mode) (s : string) : bool :=
  match s with
  | EmptyString => false
  | String c s1 =>
      match m with
      | Closing q =>
          if negb (Ascii.eqb c q) then separator_from m s1
          else match s1 with
               | String c2 s2 => if negb (Ascii.eqb c "]") && Ascii.eqb c2 c then separator_from m s2 else separator_from Plain s1
               | EmptyString => false
               end
      | InLine => separator_from (if Ascii.eqb c (byte_of 10) then Plain else InLine) s1
      | InBlock =>
          match s1 with
          | String c2 s2 => if Ascii.eqb c "*" && Ascii.eqb c2 "/" then separator_from Plain s2 else separator_from InBlock s1
          | EmptyString => false
          end
      | Plain =>
          if quote_char c then separator_from (Closing c) s1
          else if Ascii.eqb c "[" then separator_from (Closing "]") s1
          else if Ascii.eqb c ";" then true
          else match s1 with
               | String c2 _ =>
                   if Ascii.eqb c "-" && Ascii.eqb c2 "-" then separator_from InLine s1
                   else if Ascii.eqb c "/" && Ascii.eqb c2 "*" then separator_from InBlock s1
                   else separator_from Plain s1
               | EmptyString => false
               end
      end
  end.
Definition hasStatementSeparator (s : string) : bool := separator_from Plain s.

(** ** SQLite's rules

    A text ends at its quote, two of which together close it and open it
    again; a name in brackets ends at the first bracket; a block comment ends
    at the first [*/] after its [/*], and may also end with the text. *)
Inductive zone := Code | Dash | Slash | Text (q : ascii) | Bracket | Line | Opened | Block | Star.
Definition code_step (c : ascii) : option zone :=
  if quote_char c then Some (Text c)
  else if Ascii.eqb c "[" then Some Bracket
  else if Ascii.eqb c ";" then None
  else if Ascii.eqb c "-" then Some Dash
  else if Ascii.eqb c "/" then Some Slash
  else Some Code.
Definition block_step (c : ascii) : zone := if Ascii.eqb c "*" then Star else Block.
(** [None]: the statement ends here. *)
Definition sql_step (z : zone) (c : ascii) : option zone :=
  match z with
  | Code => code_step c
  | Dash => if Ascii.eqb c "-" then Some Line else code_step c
  | Slash => if Ascii.eqb c "*" then Some Opened else code_step c
  | Text q => Some (if Ascii.eqb c q then Code else Text q)
  | Bracket => Some (if Ascii.eqb c "]" then Code else Bracket)
  | Line => Some (if Ascii.eqb c (byte_of 10) then Code else Line)
  | Opened | Block => Some (block_step c)
  | Star => Some (if Ascii.eqb c "/" then Code else block_step c)
  end.
Fixpoint statement_ends (z : zone) (s : string) : bool :=
  match s with
  | EmptyString => false
  | String c s => match sql_step z c with Some z => statement_ends z s | None => true end
  end.
(** Where the theorem does not speak: a comment that starts with [/*/], and
    the characters that begin the name of a parameter, outside of texts and
    comments; the name may hold a quote in parentheses. *)
Definition odd (z : zone) (c : ascii) : bool :=
  match z with
  | Opened => Ascii.eqb c "/"
  | Code | Dash | Slash => existsb (Ascii.eqb c) ["$"; "@"; ":"; "#"]%char
  | _ => false
  end.
Fixpoint ordinary (z : zone) (s : string) : bool :=
  match s with
  | EmptyString => true
  | String c s => negb (odd z c) && match sql_step z c with Some z => ordinary z s | None => true end
  end.

(** ** The scanner and the rules *)

Lemma after_dash s c : Ascii.eqb c "-" = false → statement_ends Dash (String c s) = statement_ends Code (String c s) ∧
  ordinary Dash (String c s) = ordinary Code (String c s).
Proof. intros Hc. cbn. by rewrite Hc. Qed.
Lemma after_slash s c : Ascii.eqb c "*" = false → statement_ends Slash (String c s) = statement_ends Code (String c s) ∧
  ordinary Slash (String c s) = ordinary Code (String c s).
Proof. intros Hc. cbn. by rewrite Hc. Qed.
Lemma after_star s c : Ascii.eqb c "/" = false → statement_ends Star (String c s) = statement_ends Block (String c s) ∧
  ordinary Star (String c s) = ordinary Block (String c s).
Proof. intros Hc. cbn. by rewrite Hc. Qed.
Lemma opened_is_block s : statement_ends Opened s = statement_ends Block s.
Proof. by destruct s. Qed.

Lemma in_block_star c s : Ascii.eqb c "/" = false →
  separator_from InBlock (String "*" (String c s)) = separator_from InBlock (String c s).
Proof. intros Hc. change (separator_from InBlock (String "*" (String c s))) with (if Ascii.eqb c "/" then separator_from Plain s else separator_from InBlock (String c s)). by rewrite Hc. Qed.

Definition zone_of (m : scan_mode) : zone :=
  match m with
  | Plain => Code
  | Closing q => if Ascii.eqb q "]" then Bracket else Text q
  | InLine => Line
  | InBlock => Block
  end.
Definition mode_ok (m : scan_mode) : bool := match m with Closing q => quote_char q || Ascii.eqb q "]" | _ => true end.

Lemma quote_not_bracket q : quote_char q = true → Ascii.eqb q "]" = false.
Proof. unfold quote_char. intros H. destruct (Ascii.eqb_spec q "]") as [->|]; [by vm_compute in H|done]. Qed.
Lemma eqb_trans_quote c q : Ascii.eqb c q = true → c = q.
Proof. apply Ascii.eqb_eq. Qed.

Lemma scanner_follows n : ∀ s m, (String.length s < n)%nat → mode_ok m = true → ordinary (zone_of m) s = true →
  separator_from m s = statement_ends (zone_of m) s.
Proof.
  induction n as [|n IH]; intros s m Hn Hm Ho; [lia|]. destruct s as [|c s1]; [done|]. cbn [String.length] in Hn.
  assert (∀ m', mode_ok m' = true → ordinary (zone_of m') s1 = true → separator_from m' s1 = statement_ends (zone_of m') s1) as IH1
    by (intros; apply IH; [lia|done..]).
  cbn [ordinary] in Ho. apply andb_true_iff in Ho as [Hodd%negb_true_iff Ho].
  destruct m as [|q| |]; cbn [separator_from zone_of statement_ends] in *.
  - cbn [sql_step] in *. unfold code_step in *. destruct (quote_char c) eqn:Hq.
    { rewrite IH1; cbn; rewrite ?Hq, ?(quote_not_bracket _ Hq); done. }
    destruct (Ascii.eqb c "[") eqn:Hb; [rewrite IH1; done|]. destruct (Ascii.eqb c ";"); [done|].
    destruct s1 as [|c2 s2]; [by destruct (Ascii.eqb c "-"), (Ascii.eqb c "/")|].
    destruct (Ascii.eqb c "-") eqn:Hd; [apply Ascii.eqb_eq in Hd as ->|]; cbn [andb].
    + destruct (Ascii.eqb c2 "-") eqn:Hd2.
      * apply Ascii.eqb_eq in Hd2 as ->. apply (IH1 InLine); [done|]. cbn in Ho |- *. exact Ho.
      * destruct (after_dash s2 c2 Hd2) as [E1 E2]. rewrite E2 in Ho. rewrite E1. by apply (IH1 Plain).
    + destruct (Ascii.eqb c "/") eqn:Hs; [apply Ascii.eqb_eq in Hs as ->|]; cbn [andb]; [|by apply (IH1 Plain)].
      destruct (Ascii.eqb c2 "*") eqn:Hs2.
      * apply Ascii.eqb_eq in Hs2 as ->. cbn in Ho. change (separator_from InBlock (String "*" s2) = statement_ends Opened s2). rewrite opened_is_block.
        destruct s2 as [|c3 s3]; [done|]. cbn [ordinary odd] in Ho. apply andb_true_iff in Ho as [H3%negb_true_iff Ho].
        rewrite (in_block_star _ _ H3). apply (IH _ InBlock); [cbn in Hn |- *; lia|done|]. cbn. exact Ho.
      * destruct (after_slash s2 c2 Hs2) as [E1 E2]. rewrite E2 in Ho. rewrite E1. by apply (IH1 Plain).
  - destruct (Ascii.eqb q "]") eqn:Hq; cbn [sql_step] in *.
    + apply Ascii.eqb_eq in Hq as ->. destruct (Ascii.eqb c "]") eqn:Hc; cbn [negb]; [|by apply (IH1 (Closing "]"))].
      destruct s1 as [|c2 s2]; [done|]. cbn [negb andb]. by apply (IH1 Plain).
    + destruct (Ascii.eqb c q) eqn:Hc; cbn [negb]; [apply Ascii.eqb_eq in Hc as ->|].
      * rewrite Hq. cbn [negb andb]. destruct s1 as [|c2 s2]; [done|]. destruct (Ascii.eqb c2 q) eqn:Hc2; [|by apply (IH1 Plain)].
        apply Ascii.eqb_eq in Hc2 as ->. cbn in Hm.
        cbn [statement_ends sql_step]. unfold code_step. assert (quote_char q = true) as Hqq by (rewrite Hq, orb_false_r in Hm; exact Hm).
        rewrite Hqq. cbn [ordinary sql_step] in Ho. apply andb_true_iff in Ho as [_ Ho]. unfold code_step in Ho. rewrite Hqq in Ho.
        pose proof (IH s2 (Closing q)) as IH2. cbn [zone_of] in IH2. rewrite Hq in IH2. apply IH2; [cbn in Hn; lia|done|done].
      * pose proof (IH1 (Closing q)) as IH2. cbn [zone_of] in IH2. rewrite Hq in IH2. by apply IH2.
  - cbn [sql_step] in *. destruct (Ascii.eqb c (byte_of 10)); [by apply (IH1 Plain)|by apply (IH1 InLine)].
  - cbn [sql_step] in *. unfold block_step in *. destruct s1 as [|c2 s2]; [done|]. destruct (Ascii.eqb c "*") eqn:Hc; cbn [andb]; [|by apply (IH1 InBlock)].
    destruct (Ascii.eqb c2 "/") eqn:Hc2.
    + apply Ascii.eqb_eq in Hc2 as ->. cbn in Ho |- *. apply (IH s2 Plain); [cbn in Hn; lia|done|done].
    + destruct (after_star s2 c2 Hc2) as [E1 E2]. rewrite E2 in Ho. rewrite E1. by apply (IH1 InBlock).
Qed.

(** Where the store's scanner and SQLite read a text alike: for a text
    with no comment that starts with [/*/] and no named parameter, the scanner
    finds a separator exactly when SQLite would end the statement there,
    through quotes doubled or not, brackets, line comments and block comments,
    closed or open. *)
Theorem hasStatementSeparator_exact s (H : ordinary Code s = true) : hasStatementSeparator s = statement_ends Code s.
Proof. by apply (scanner_follows (S (String.length s)) s Plain); [lia| |]. Qed.
Definition quoted_filter : string := "title = 'a;b' /* ; */ AND [x;y] = 1 -- ;".
Lemma hasStatementSeparator_exact_witness :
  hasStatementSeparator quoted_filter = statement_ends Code quoted_filter ∧ statement_ends Code quoted_filter = false.
Proof. split; [apply (hasStatementSeparator_exact quoted_filter)|]; vm_compute; reflexivity. Defined.

(** The comment [/*/] is not closed in SQLite, but the scanner takes it for
    closed: what follows in the comment opens a text for the scanner, which
    hides the semicolon after the comment. *)
Definition hiding_filter : string := "1=1 /*/ ' */ ; DROP TABLE notes -- '".
Example separator_missed : hasStatementSeparator hiding_filter = false ∧ statement_ends Code hiding_filter = true.
Proof. vm_compute. split; reflexivity. Qed.
