(* ===== verification/Changelog.v ===== *)
(** * The change log and its cursors ([internal/store/changelog.go])

    Every write appends its changes to the table [_dolmen_changes]; a reader
    follows them by cursor tokens, rows of [_dolmen_cursor_tokens] that hold a
    position, the chain of reads they belong to and the time they were issued;
    and what no live cursor needs is pruned after the retention.

    The two tables of one namespace, with the rows of [_dolmen_meta],
    [_dolmen_drop_gen] and [_dolmen_tables] the code reads, are the state.
    Each SQL statement is an action that may fail as a whole, which [faults]
    decides by its number; a transaction that fails restores the tables. *)
From Stdlib Require Import ZArith Lia Ascii String.
From stdpp Require Import base gmap strings list sorting.
From S2P Require Import Prelude GoStrings AuthIdentity SchemaIdent Schema SchemaConstraints Authz GoNumbers.
Local Open Scope Z_scope.

(** ** Data *)

Definition ChangeKind := string.
Definition ChangeInsert : ChangeKind := "insert".
Definition ChangeUpdate : ChangeKind := "update".
Definition ChangeDelete : ChangeKind := "delete".

Record Lifetime := MkLifetime { lt_NsGen : list Z; lt_Table : string; lt_DropGen : Z }.
Record ChangeRecord := MkChangeRecord {
  cr_Commit : Z; cr_Cursor : string; cr_Table_ : string; cr_RowID : Z; cr_Kind : ChangeKind; cr_Owner : string;
  cr_Lifetime : Lifetime }.
Record ChangeRange := MkChangeRange { cg_First : Z; cg_Last : Z; cg_Count : Z }.
Record loggedChange := MkLogged { lc_rec : ChangeRecord; lc_seq : Z }.
Record changeFeed := MkFeed { cf_table : string; cf_nsgen : list Z; cf_dropGen : Z }.
Record cursorChain := MkChain { ch_ID : string; ch_Origin : Z; ch_Start : Z }.

(** A row of [_dolmen_cursor_tokens] under its token. *)
Record cursorRow := MkCursorRow { cu_Position : Z; cu_IssuedAt : Z; cu_Chain : cursorChain; cu_FeedTable : string }.
(** A row of [_dolmen_changes] under its [seq]; [at] in milliseconds. *)
Record log_row := MkLogRow {
  lr_table : string; lr_row_id : Z; lr_kind : string; lr_owner : option string; lr_commit : option Z;
  lr_nsgen : list Z; lr_drop_gen : Z; lr_at : Z }.

(** [cl_seq] is what SQLite keeps for AUTOINCREMENT; a schema is [None] where
    its JSON does not decode. *)
Record changelog := MkChangelog {
  cl_changes : gmap Z log_row; cl_seq : Z; cl_tokens : gmap string cursorRow;
  cl_next_commit : Z; cl_gens : gmap string Z; cl_schemas : gmap string (option TableSchema);
  cl_nsgen : option (list Z); cl_calls : nat; cl_draws : nat }.

Definition with_changes (s : changelog) c q : changelog :=
  MkChangelog c q (cl_tokens s) (cl_next_commit s) (cl_gens s) (cl_schemas s) (cl_nsgen s) (cl_calls s) (cl_draws s).
Definition with_tokens (s : changelog) t : changelog :=
  MkChangelog (cl_changes s) (cl_seq s) t (cl_next_commit s) (cl_gens s) (cl_schemas s) (cl_nsgen s) (cl_calls s) (cl_draws s).
Definition with_commit (s : changelog) n : changelog :=
  MkChangelog (cl_changes s) (cl_seq s) (cl_tokens s) n (cl_gens s) (cl_schemas s) (cl_nsgen s) (cl_calls s) (cl_draws s).
Definition with_counts (s : changelog) c d : changelog :=
  MkChangelog (cl_changes s) (cl_seq s) (cl_tokens s) (cl_next_commit s) (cl_gens s) (cl_schemas s) (cl_nsgen s) c d.

Inductive change_error :=
| DBFailed | RandFailed | OwnerLabels | NoTable (t : string) | CorruptSchema | CorruptNSGen | CorruptRecord (seq : Z)
| ErrCursorExpired | ErrCursorCrossFeed | ErrScopedNamespaceFeed | ErrScopedFeedPredatesLabels
| NoOwnerColumn | ScopeMismatch | IncarnationChanged.

Definition logs (A : Type) := act changelog change_error A.

(** ** Time: durations and Go times in nanoseconds *)

Definition Millisecond : Z := 1000000.
Definition UnixMilli (now : Z) : Z := now / Millisecond.
(** [int64(retention / time.Millisecond)]. *)
Definition millis (d : Z) : Z := Z.quot d Millisecond.
Definition wrap_int64 (n : Z) : Z := (n + 2 ^ 63) mod 2 ^ 64 - 2 ^ 63.
(** The stamp text of [isoChangeStamp], as its milliseconds: texts of years
    of four digits are ordered as these. *)
Definition isoChangeStamp (t : Z) : Z := t / Millisecond.

Definition cursorTokenBytes : nat := 16.
Definition CursorBegin : string := "begin".
Definition DefaultChangesPageLimit : Z := 100.
Definition MaxChangesPageLimit : Z := 1000.
Definition changesPageLimit (n : Z) : Z :=
  if n <=? 0 then DefaultChangesPageLimit else if MaxChangesPageLimit <? n then MaxChangesPageLimit else n.

(** SQL's [MIN] and [MAX]: NULL on no rows. *)
Definition min_of (l : list Z) : option Z := match l with [] => None | x :: l => Some (foldr Z.min x l) end.
Definition max_of (l : list Z) : option Z := match l with [] => None | x :: l => Some (foldr Z.max x l) end.

Section Log.
(** Which statements fail, SQLite's clock and [crypto/rand], by their number. *)
Context (faults : nat → bool) (clock : nat → Z) (rand : nat → option (list Z)).

(** One statement: it fails as a whole, or does [f]. *)
Definition stmt {A} (f : changelog → outcome change_error A * changelog) : logs A := λ s,
  let s' := with_counts s (S (cl_calls s)) (cl_draws s) in
  if faults (cl_calls s) then (Fail DBFailed, s') else f s'.
Definition select {A} (f : changelog → A) : logs A := stmt (λ s, (Done (f s), s)).

Definition draw : logs (option (list Z)) := λ s,
  (Done (rand (cl_draws s)), with_counts s (cl_calls s) (S (cl_draws s))).

(** [BeginTx], the body, [Commit]; the deferred [Rollback] otherwise. *)
Definition rollback (before after : changelog) : changelog := with_counts before (cl_calls after) (cl_draws after).
Definition in_tx {A} (body : logs A) : logs A := λ s,
  match stmt (λ s, (Done (), s)) s with
  | (Done _, s1) =>
      match body s1 with
      | (Done a, s2) =>
          match stmt (λ s, (Done (), s)) s2 with
          | (Done _, s3) => (Done a, s3)
          | (Fail e, s3) => (Fail e, rollback s1 s3)
          | (OutOfFuel, s3) => (OutOfFuel, s3)
          end
      | (o, s2) => (o, rollback s1 s2)
      end
  | (Fail e, s1) => (Fail e, s1)
  | (OutOfFuel, s1) => (OutOfFuel, s1)
  end.

(** ** What the code reads of a table and of its namespace *)

Definition tableGen (table : string) : logs Z := select (λ s, default 0 (cl_gens s !! table)).
Definition readNSGen : logs (list Z) :=
  do! raw := select cl_nsgen in
  match raw with
  | None => afail DBFailed
  | Some gen => if (length gen =? 16)%nat then aret gen else afail CorruptNSGen
  end.
Definition loadSchema (table : string) : logs TableSchema :=
  do! raw := select (λ s, cl_schemas s !! table) in
  match raw with
  | None => afail (NoTable table)
  | Some None => afail CorruptSchema
  | Some (Some sc) => aret sc
  end.

Definition scopeUsable (scope : option RowScope) (sc : option TableSchema) : outcome change_error () :=
  match scope with
  | None => Done ()
  | Some scope =>
      if rs_Empty scope then Done ()
      else match sc with
           | Some sc => if t_HasOwner sc then Done () else Fail NoOwnerColumn
           | None => Done ()
           end
  end.

(** [Incarnation.zero] *)
Definition inc_zero (i : Incarnation) : bool :=
  String.eqb (i_Table i) "" && (i_Version i =? 0) && (i_DropGen i =? 0) && bool_decide (i_NsGen i = replicate 16 0).
#[global] Instance Incarnation_eq_dec : EqDecision Incarnation.
Proof. solve_decision. Defined.

Definition checkScopeIncarnation (table : string) (want : Incarnation) : logs () :=
  if inc_zero want then aret ()
  else if negb (String.eqb (i_Table want) table) then afail ScopeMismatch
  else
    do! sc := loadSchema table in
    do! dropGen := tableGen table in
    do! gen := readNSGen in
    if decide (MkIncarnation gen table (t_Version sc) dropGen = want) then aret () else afail IncarnationChanged.
Definition guardIncarnation (table : string) (want : Incarnation) : logs () :=
  if inc_zero want then aret () else checkScopeIncarnation table want.

Definition changeFeedOf (table : string) : logs changeFeed :=
  do! _ := loadSchema table in
  do! dropGen := tableGen table in
  do! nsgen := readNSGen in
  aret (MkFeed table nsgen dropGen).

(** ** Writing changes *)

(** [w.commit] of the transaction, 0 until one is reserved. *)
Definition changeCommit (commit : Z) : logs Z :=
  if commit =? 0 then
    stmt (λ s, if cl_next_commit s <? max_int64
               then (Done (cl_next_commit s + 1), with_commit s (cl_next_commit s + 1))
               else (Fail DBFailed, s))
  else aret commit.

(** [INSERT INTO _dolmen_changes]: AUTOINCREMENT gives the next number that
    was never used, and fails after the largest. *)
Definition insert_change (row : Z → log_row) : logs Z :=
  stmt (λ s, if cl_seq s <? max_int64 then
               let seq := cl_seq s + 1 in
               (Done seq, with_changes s (<[seq := row (clock (cl_calls s))]> (cl_changes s)) seq)
             else (Fail DBFailed, s)).

Fixpoint insert_changes (table kind : string) (nsgen : list Z) (gen commit : Z) (i : nat) (owners : option (list string))
    (ids : list Z) : logs (list Z) :=
  match ids with
  | [] => aret []
  | id :: ids =>
      let owner := match owners with
                   | Some os => let o := default "" (os !! i) in if String.eqb o "" then None else Some o
                   | None => None
                   end in
      do! seq := insert_change (λ at_, MkLogRow table id kind owner (Some commit) nsgen gen at_) in
      do! seqs := insert_changes table kind nsgen gen commit (S i) owners ids in
      aret (seq :: seqs)
  end.

Definition no_range : ChangeRange := MkChangeRange 0 0 0.
(** [first] and [last] as the loop leaves them. *)
Definition range_of (seqs : list Z) (count : Z) : ChangeRange :=
  MkChangeRange (default 0 (head seqs)) (default 0 (last seqs)) count.

(** [mintChanges]; the commit number it leaves in the transaction. *)
Definition mintChanges (commit : Z) (table : string) (kind : ChangeKind) (ids : list Z) (owners : option (list string))
    : logs (ChangeRange * Z) :=
  if bool_decide (ids = []) then aret (no_range, commit)
  else if match owners with Some os => negb (length os =? length ids)%nat | None => false end then afail OwnerLabels
  else
    do! commit := changeCommit commit in
    do! gen := tableGen table in
    do! nsGen := readNSGen in
    do! seqs := insert_changes table kind nsGen gen commit 0 owners ids in
    aret (range_of seqs (Z.of_nat (length ids)), commit).

(** [INSERT INTO _dolmen_changes ... SELECT ... FROM temp ORDER BY id] of the
    rows [temp], an id and an owner each: one statement. *)
Fixpoint append_rows (row : Z * option string → log_row) (temp : list (Z * option string)) (c : gmap Z log_row) (seq : Z)
    : gmap Z log_row * Z :=
  match temp with
  | [] => (c, seq)
  | x :: temp => append_rows row temp (<[seq + 1 := row x]> c) (seq + 1)
  end.
Definition by_id (x y : Z * option string) : Prop := x.1 ≤ y.1.
#[global] Instance by_id_dec x y : Decision (by_id x y).
Proof. unfold by_id. apply _. Defined.
Definition mintChangesFromTemp (commit : Z) (table : string) (kind : ChangeKind) (temp : list (Z * option string))
    : logs (ChangeRange * Z) :=
  do! commit := changeCommit commit in
  do! gen := tableGen table in
  do! nsGen := readNSGen in
  let n := Z.of_nat (length temp) in
  do! last := stmt (λ s,
    if cl_seq s + n <=? max_int64 then
      let '(c, seq) := append_rows (λ x, MkLogRow table x.1 kind x.2 (Some commit) nsGen gen (clock (cl_calls s)))
                         (merge_sort by_id temp) (cl_changes s) (cl_seq s) in
      (Done seq, with_changes s c seq)
    else (Fail DBFailed, s)) in
  if n =? 0 then aret (no_range, commit) else aret (MkChangeRange (last - n + 1) last n, commit).

Definition sameOwner (owner : string) (n : nat) : option (list string) :=
  if String.eqb owner "" then None else Some (replicate n owner).

(** ** Cursors *)

Definition seqs_where (p : log_row → bool) (s : changelog) : list Z :=
  map fst (List.filter (λ x, p x.2) (map_to_list (cl_changes s))).
Definition changeHead : logs Z := select (λ s, default 0 (max_of (seqs_where (λ _, true) s))).

Definition changeBegin (now retention : Z) : logs Z :=
  if retention <=? 0 then
    do! oldest := select (λ s, min_of (seqs_where (λ _, true) s)) in
    aret (match oldest with Some seq => seq - 1 | None => 0 end)
  else
    do! first := select (λ s, min_of (seqs_where (λ row, isoChangeStamp (now - retention) <=? lr_at row) s)) in
    match first with
    | Some seq => aret (seq - 1)
    | None => changeHead
    end.

Definition newCursorChain (now position : Z) : logs cursorChain :=
  do! id := draw in
  aret (MkChain (match id with Some raw => hex_encode raw | None => "" end) position (UnixMilli now)).

Definition mintCursorToken (now position : Z) (feedTable : string) (chain : option cursorChain) : logs string :=
  do! raw := draw in
  match raw with
  | None => afail RandFailed
  | Some raw =>
      do! chain := match chain with Some c => aret c | None => newCursorChain now position end in
      let tok := hex_encode raw in
      stmt (λ s, match cl_tokens s !! tok with
                 | Some _ => (Fail DBFailed, s)
                 | None => (Done tok, with_tokens s (<[tok := MkCursorRow position (UnixMilli now) chain feedTable]> (cl_tokens s)))
                 end)
  end.

(** The two limits a token is refused and pruned by. *)
Definition expired (now retention : Z) (row : cursorRow) : bool :=
  (cu_IssuedAt row + millis retention <? UnixMilli now)
  || (ch_Start (cu_Chain row) + 2 * millis retention <? UnixMilli now).

Definition touched (now : Z) (row : cursorRow) : cursorRow :=
  MkCursorRow (cu_Position row) (Z.max (cu_IssuedAt row) (UnixMilli now)) (cu_Chain row) (cu_FeedTable row).

Definition resolveCursorToken (now retention : Z) (tok feedTable : string) : logs cursorRow :=
  do! found := select (λ s, cl_tokens s !! tok) in
  match found with
  | None => afail ErrCursorExpired
  | Some row =>
      if negb (String.eqb (cu_FeedTable row) feedTable) then afail ErrCursorCrossFeed
      else if (0 <? retention) && expired now retention row then afail ErrCursorExpired
      else
        do! n := stmt (λ s, (Done (match cl_tokens s !! tok with Some _ => 1 | None => 0 end),
                             with_tokens s (alter (touched now) tok (cl_tokens s)))) in
        if n =? 0 then afail ErrCursorExpired else aret row
  end.

(** ** Retention *)

Definition min_origin (s : changelog) : Z :=
  default 9223372036854775807 (min_of (map (λ x, ch_Origin (cu_Chain x.2)) (map_to_list (cl_tokens s)))).

Definition pruneChanges (now retention : Z) : logs () :=
  if retention <=? 0 then aret ()
  else
    let rms := millis retention in
    do! _ := stmt (λ s, (Done (), with_tokens s (filter (λ x, ¬ cu_IssuedAt x.2 < UnixMilli now - rms) (cl_tokens s)))) in
    do! _ := stmt (λ s, (Done (), with_tokens s (filter (λ x, ¬ ch_Start (cu_Chain x.2) < UnixMilli now - 2 * rms) (cl_tokens s)))) in
    stmt (λ s, (Done (), with_changes s
      (filter (λ x, ¬ (lr_at x.2 < isoChangeStamp (now + wrap_int64 (-2 * retention)) ∧ x.1 ≤ min_origin s)) (cl_changes s))
      (cl_seq s))).

(** ** Pages *)

(** The rows a feed is made of, and those a scope may see. *)
Definition in_feed (feed : option changeFeed) (row : log_row) : bool :=
  match feed with
  | Some f => String.eqb (lr_table row) (cf_table f) && (lr_drop_gen row =? cf_dropGen f)
              && bool_decide (lr_nsgen row = cf_nsgen f)
  | None => true
  end.
Definition in_scope (scope : option RowScope) (row : log_row) : bool :=
  match scope with
  | None => true
  | Some scope =>
      if rs_Empty scope then false
      else match lr_owner row with Some o => String.eqb o (rs_Owner scope) | None => false end
  end.
Definition within (from : Z) (to_ : option Z) (seq : Z) : bool :=
  (from <? seq) && match to_ with Some t => seq <=? t | None => true end.

(** [ORDER BY seq]. *)
Definition by_seq (x y : Z * log_row) : Prop := x.1 ≤ y.1.
#[global] Instance by_seq_dec x y : Decision (by_seq x y).
Proof. unfold by_seq. apply _. Defined.
Definition rows_after (from : Z) (to_ : option Z) (feed : option changeFeed) (scope : option RowScope) (s : changelog)
    : list (Z * log_row) :=
  merge_sort by_seq
    (List.filter (λ x, within from to_ x.1 && in_feed feed x.2 && in_scope scope x.2) (map_to_list (cl_changes s))).
(** The statement of [changePageSQL]. *)
Definition changePage (from : Z) (to_ : option Z) (limit : nat) (feed : option changeFeed) (scope : option RowScope)
    : logs (list (Z * log_row)) :=
  select (λ s, take limit (rows_after from to_ feed scope s)).

Definition logged (x : Z * log_row) : loggedChange :=
  MkLogged (MkChangeRecord (default 0 (lr_commit x.2)) "" (lr_table x.2) (lr_row_id x.2) (lr_kind x.2)
              (default "" (lr_owner x.2)) (MkLifetime (lr_nsgen x.2) (lr_table x.2) (lr_drop_gen x.2))) x.1.
Fixpoint scanChangePage (rows : list (Z * log_row)) : outcome change_error (list loggedChange) :=
  match rows with
  | [] => Done []
  | x :: rows =>
      if negb (length (lr_nsgen x.2) =? 16)%nat then Fail (CorruptRecord x.1)
      else let! rest := scanChangePage rows in Done (logged x :: rest)
  end.

Definition of_outcome {A} (o : outcome change_error A) : logs A := λ s, (o, s).

Definition unlabeledChangeInRange (from to_ : Z) (feed : option changeFeed) : logs bool :=
  select (λ s, existsb (λ x, within from (Some to_) x.1 && bool_decide (lr_owner x.2 = None) && in_feed feed x.2)
                 (map_to_list (cl_changes s))).
(** The statement of [changeCountSQL]. *)
Definition changeCount (from to_ : Z) (feed : option changeFeed) : logs Z :=
  select (λ s, Z.of_nat (length (List.filter (λ x, within from (Some to_) x.1 && in_feed feed x.2) (map_to_list (cl_changes s))))).

Definition set_cursor (r : ChangeRecord) (tok : string) : ChangeRecord :=
  MkChangeRecord (cr_Commit r) tok (cr_Table_ r) (cr_RowID r) (cr_Kind r) (cr_Owner r) (cr_Lifetime r).
Fixpoint mint_each (now : Z) (feedTable : string) (chain : option cursorChain) (scanned : list loggedChange)
    : logs (list ChangeRecord) :=
  match scanned with
  | [] => aret []
  | lc :: scanned =>
      do! tok := mintCursorToken now (lc_seq lc) feedTable chain in
      do! rest := mint_each now feedTable chain scanned in
      aret (set_cursor (lc_rec lc) tok :: rest)
  end.
Definition mintChangeCursors (now : Z) (scanned : list loggedChange) (resume : Z) (from feedTable : string)
    (chain : option cursorChain) : logs (list ChangeRecord * string) :=
  do! records := mint_each now feedTable chain scanned in
  if bool_decide (scanned = []) && negb (String.eqb from "") && negb (String.eqb from CursorBegin)
  then aret (records, from)
  else
    let nextPos := match last scanned with Some lc => lc_seq lc | None => resume end in
    do! next := mintCursorToken now nextPos feedTable chain in
    aret (records, next).

(** Where a read starts, and the chain its tokens join. *)
Definition start_of (now retention : Z) (from table : string) : logs (Z * cursorChain) :=
  if String.eqb from "" then
    do! position := changeHead in
    do! chain := newCursorChain now position in aret (position, chain)
  else if String.eqb from CursorBegin then
    do! position := changeBegin now retention in
    do! chain := newCursorChain now position in aret (position, chain)
  else
    do! row := resolveCursorToken now retention from table in
    aret (cu_Position row, cu_Chain row).

Definition changes_tx (now retention : Z) (table from : string) (scope : option RowScope) (limit : Z)
    : logs (list ChangeRecord * string) :=
  do! feed := (if String.eqb table "" then aret None
               else
                 do! feed := changeFeedOf table in
                 do! sc := loadSchema table in
                 do! _ := of_outcome (scopeUsable scope (Some sc)) in
                 aret (Some feed)) in
  do! (position, chain) := start_of now retention from table in
  do! _ := match scope with
           | None => aret ()
           | Some _ =>
               do! head := changeHead in
               if position <? head then
                 do! stale := unlabeledChangeInRange position head feed in
                 if stale then afail ErrScopedFeedPredatesLabels else aret ()
               else aret ()
           end in
  do! rows := changePage position None (Z.to_nat (changesPageLimit limit)) feed scope in
  do! scanned := of_outcome (scanChangePage rows) in
  do! (records, next) := mintChangeCursors now scanned position from table (Some chain) in
  do! _ := pruneChanges now retention in
  aret (records, next).

(** [Store.ChangesSince], on a namespace that is open. *)
Definition ChangesSince (now retention : Z) (table from : string) (scope : option RowScope) (inc : Incarnation) (limit : Z)
    : logs (list ChangeRecord * string) :=
  if bool_decide (scope ≠ None) && String.eqb table "" then afail ErrScopedNamespaceFeed
  else
    do! _ := (if String.eqb table "" then aret () else guardIncarnation table inc) in
    in_tx (changes_tx now retention table from scope limit).
End Log.
