(* ===== verification/ChangelogFacts.v ===== *)
(** * Facts about the change log

    What each statement and transaction leaves of the two tables: minting
    only adds, pruning only removes what no token needs, and a transaction
    that fails removes nothing. *)
From Stdlib Require Import ZArith Lia Ascii String.
From stdpp Require Import base gmap strings list sorting relations.
From S2P Require Import Prelude GoStrings AuthIdentity SchemaIdent Schema SchemaConstraints Authz GoNumbers Changelog.
Local Open Scope Z_scope.

(** ** Minima and maxima *)

Lemma min_of_le l m x : min_of l = Some m → x ∈ l → m ≤ x.
Proof.
  destruct l as [|y l]; simpl; [done|]. intros [= <-]. rewrite elem_of_cons.
  induction l as [|z l IH]; simpl; [intros [->|H]; [lia|by apply elem_of_nil in H]|].
  rewrite elem_of_cons. intros [->|[->|H]]; [specialize (IH (or_introl eq_refl)); lia|lia|specialize (IH (or_intror H)); lia].
Qed.
Lemma min_of_elem l m : min_of l = Some m → m ∈ l.
Proof.
  destruct l as [|y l]; simpl; [done|]. intros [= <-]. induction l as [|z l IH]; simpl; [by left|].
  destruct (Z.min_spec z (foldr Z.min y l)) as [[_ ->]|[_ ->]]; [right; by left|].
  apply elem_of_cons in IH as [->|IH]; [by left|right; by right].
Qed.
Lemma max_of_ge l m x : max_of l = Some m → x ∈ l → x ≤ m.
Proof.
  destruct l as [|y l]; simpl; [done|]. intros [= <-]. rewrite elem_of_cons.
  induction l as [|z l IH]; simpl; [intros [->|H]; [lia|by apply elem_of_nil in H]|].
  rewrite elem_of_cons. intros [->|[->|H]]; [specialize (IH (or_introl eq_refl)); lia|lia|specialize (IH (or_intror H)); lia].
Qed.
Lemma max_of_elem l m : max_of l = Some m → m ∈ l.
Proof.
  destruct l as [|y l]; simpl; [done|]. intros [= <-]. induction l as [|z l IH]; simpl; [by left|].
  destruct (Z.max_spec z (foldr Z.max y l)) as [[_ ->]|[_ ->]]; [|right; by left].
  apply elem_of_cons in IH as [->|IH]; [by left|right; by right].
Qed.

(** ** The invariant *)

(** A cursor of [chain] may stand at [pos]: no change after it is one that
    the chain's origin allows to prune, nor can one be made. *)
Record sound_at (s : changelog) (chain : cursorChain) (pos : Z) : Prop := {
  sd_position : pos ≤ cl_seq s;
  sd_origin : ch_Origin chain ≤ cl_seq s;
  sd_behind seq row : cl_changes s !! seq = Some row → pos < seq → ch_Origin chain < seq }.

Record log_wf (s : changelog) : Prop := {
  wf_seq : 0 ≤ cl_seq s;
  wf_changes seq row : cl_changes s !! seq = Some row → 0 < seq ≤ cl_seq s;
  wf_tokens tok row : cl_tokens s !! tok = Some row → sound_at s (cu_Chain row) (cu_Position row) }.

Lemma sound_le s chain pos : ch_Origin chain ≤ pos ≤ cl_seq s → sound_at s chain pos.
Proof. intros H. split; [lia..|]. intros. lia. Qed.
Lemma sound_after s chain pos pos' : sound_at s chain pos → pos ≤ pos' ≤ cl_seq s → sound_at s chain pos'.
Proof. intros [H1 H2 H3] Hp. split; [lia..|]. intros seq row Hr Hs. eapply H3; [done|lia]. Qed.
(** What only removes changes, or adds them after all numbers used. *)
Lemma sound_mono s s' chain pos :
  cl_seq s ≤ cl_seq s' → (∀ seq row, cl_changes s' !! seq = Some row → (∃ row0, cl_changes s !! seq = Some row0) ∨ cl_seq s < seq) →
  sound_at s chain pos → sound_at s' chain pos.
Proof.
  intros Hq Hc [H1 H2 H3]. split; [lia..|]. intros seq row [[row0 Hr]|Hr]%Hc Hs; [by eapply H3|lia].
Qed.
Lemma sound_eq s s' chain pos :
  cl_changes s' = cl_changes s → cl_seq s' = cl_seq s → sound_at s chain pos → sound_at s' chain pos.
Proof. intros Hc Hq. apply sound_mono; [lia|]. intros seq row. rewrite Hc. eauto. Qed.

(** Two states with the same tables. *)
Definition same_tables (s s' : changelog) : Prop := with_counts s 0 0 = with_counts s' 0 0.
#[global] Instance same_tables_equiv : Equivalence same_tables.
Proof. split; unfold same_tables; repeat intro; congruence. Qed.

Lemma same_tables_counts s c d : same_tables s (with_counts s c d).
Proof. by destruct s. Qed.
Lemma same_tables_inv s s' : same_tables s s' →
  cl_changes s = cl_changes s' ∧ cl_seq s = cl_seq s' ∧ cl_tokens s = cl_tokens s' ∧ cl_gens s = cl_gens s'
  ∧ cl_schemas s = cl_schemas s' ∧ cl_nsgen s = cl_nsgen s' ∧ cl_next_commit s = cl_next_commit s'.
Proof. destruct s, s'. unfold same_tables, with_counts. simpl. intros [=]. by subst. Qed.
Lemma same_tables_wf s s' : same_tables s s' → log_wf s → log_wf s'.
Proof.
  intros (H1 & H2 & H3 & _)%same_tables_inv [W1 W2 W3]. split; rewrite <-?H1, <-?H2, <-?H3; [done..|].
  intros tok row Hr. eapply sound_eq; [| |by eapply W3]; congruence.
Qed.

(** A token keeps its position, its chain and its feed; its use is recorded. *)
Definition same_cursor (row row' : cursorRow) : Prop :=
  cu_Position row = cu_Position row' ∧ cu_Chain row = cu_Chain row' ∧ cu_FeedTable row = cu_FeedTable row'
  ∧ cu_IssuedAt row ≤ cu_IssuedAt row'.

(** What reading and minting tokens do: no change is touched, no token is
    lost, and a new token stands where its chain allows. *)
Record grows (s s' : changelog) : Prop := {
  gr_changes : cl_changes s' = cl_changes s;
  gr_seq : cl_seq s' = cl_seq s;
  gr_gens : cl_gens s' = cl_gens s;
  gr_schemas : cl_schemas s' = cl_schemas s;
  gr_nsgen : cl_nsgen s' = cl_nsgen s;
  gr_kept tok row : cl_tokens s !! tok = Some row → ∃ row', cl_tokens s' !! tok = Some row' ∧ same_cursor row row';
  gr_new tok row' : cl_tokens s' !! tok = Some row' →
    (∃ row, cl_tokens s !! tok = Some row ∧ same_cursor row row')
    ∨ sound_at s (cu_Chain row') (cu_Position row') }.

Lemma same_cursor_refl row : same_cursor row row.
Proof. unfold same_cursor. auto with zarith. Qed.
Lemma same_cursor_trans a b c : same_cursor a b → same_cursor b c → same_cursor a c.
Proof. unfold same_cursor. intuition (congruence || lia). Qed.
#[export] Hint Resolve same_cursor_refl : dolmen.

Lemma same_tables_grows s s' : same_tables s s' → grows s s'.
Proof.
  intros (H1 & H2 & H3 & H4 & H5 & H6 & _)%same_tables_inv.
  split; try done; intros tok row; rewrite H3; intros Hr; [|left]; exists row; auto using same_cursor_refl.
Qed.

Lemma log_grows_trans s1 s2 s3 : grows s1 s2 → grows s2 s3 → grows s1 s3.
Proof.
  intros [A1 A2 A3 A4 A5 A6 A7] [B1 B2 B3 B4 B5 B6 B7]. split; try congruence.
  - intros tok row (row' & H1 & ?)%A6. destruct (B6 _ _ H1) as (row'' & ? & ?). eauto using same_cursor_trans.
  - intros tok row'' [(row' & H1 & Hc)|H1]%B7; [|right; by eapply sound_eq].
    destruct (A7 _ _ H1) as [(row & ? & ?)|Hn]; [left; eauto using same_cursor_trans|right].
    destruct Hc as (Hp & Hch & _ & _). by rewrite <-Hp, <-Hch.
Qed.

Lemma sound_grows s s' chain pos : grows s s' → sound_at s chain pos → sound_at s' chain pos.
Proof. intros Hg. apply sound_eq; apply Hg. Qed.
Lemma grows_wf s s' : grows s s' → log_wf s → log_wf s'.
Proof.
  intros [A1 A2 _ _ _ A6 A7] [W1 W2 W3]. split; rewrite ?A1, ?A2; [done|done|].
  intros tok row' [(row & H1 & Hp & Hc & _ & _)|H1]%A7; (eapply sound_eq; [done..|]); [|done]. rewrite <-Hp, <-Hc. eauto.
Qed.

Section Facts.
Context (faults : nat → bool) (clock : nat → Z) (rand : nat → option (list Z)).

(** ** Statements and transactions *)

Lemma log_stmt_Done {A} (f : changelog → outcome change_error A * changelog) s a s' :
  stmt faults f s = (Done a, s') → ∃ s1, same_tables s s1 ∧ cl_draws s1 = cl_draws s ∧ f s1 = (Done a, s').
Proof. unfold stmt. destruct (faults (cl_calls s)); [done|]. intros H.
  exists (with_counts s (S (cl_calls s)) (cl_draws s)). split_and!; [apply same_tables_counts|by destruct s|done]. Qed.

Lemma select_Done {A} (f : changelog → A) s a s' :
  (∀ s1, same_tables s s1 → f s1 = f s) → select faults f s = (Done a, s') → a = f s ∧ same_tables s s' ∧ cl_draws s' = cl_draws s.
Proof. intros Hf (s1 & Hs & Hd & [= <- <-])%log_stmt_Done. by rewrite Hf. Qed.

Lemma in_tx_result {A} (body : logs A) s o s' :
  in_tx faults body s = (o, s') →
  same_tables s s' ∧ (∀ a, o ≠ Done a)
  ∨ ∃ a s1 s2, o = Done a ∧ same_tables s s1 ∧ cl_draws s1 = cl_draws s ∧ body s1 = (Done a, s2) ∧ same_tables s2 s'.
Proof.
  unfold in_tx, stmt. pose proof (same_tables_counts s (S (cl_calls s)) (cl_draws s)) as Hs.
  destruct (faults (cl_calls s)); [intros [= <- <-]; by left|]. cbn [abind].
  set (s1 := with_counts _ _ _) in *.
  assert (∀ s2, same_tables s (rollback s1 s2)) as Hroll.
  { intros s2. unfold rollback. etrans; [exact Hs|apply same_tables_counts]. }
  destruct (body s1) as [[a|e|] s2] eqn:Hb.
  - destruct (faults (cl_calls s2)); intros [= <- <-]; [by left|].
    right. eexists a, s1, s2. split_and!; [done|done|by destruct s|done|apply same_tables_counts].
  - intros [= <- <-]. by left.
  - intros [= <- <-]. by left.
Qed.

(** ** Minting and resolving tokens *)

Lemma draw_Done s a s' : draw rand s = (Done a, s') → same_tables s s'.
Proof. intros [= <- <-]. apply same_tables_counts. Qed.

Lemma newCursorChain_Done now position s c s' :
  newCursorChain rand now position s = (Done c, s') →
  same_tables s s' ∧ ch_Origin c = position ∧ ch_Start c = UnixMilli now.
Proof.
  unfold newCursorChain. intros (id & s1 & Hd & Hr)%abind_Done. apply draw_Done in Hd. simpl in Hr. injection Hr as <- <-.
  done.
Qed.

(** [s'] is [s] with the tokens [t]. *)
Definition with_tokens_of (s : changelog) (t : gmap string cursorRow) (s' : changelog) : Prop :=
  same_tables (with_tokens s t) s'.

Lemma same_tables_with_tokens s s1 t : same_tables s s1 → same_tables (with_tokens s t) (with_tokens s1 t).
Proof. destruct s, s1. unfold same_tables, with_counts, with_tokens. simpl. congruence. Qed.
Lemma with_tokens_id s : with_tokens s (cl_tokens s) = s.
Proof. by destruct s. Qed.

(** A token is the text of bytes that were drawn. *)
Definition minted (tok : string) : Prop := ∃ k raw, rand k = Some raw ∧ tok = hex_encode raw.

Lemma mintCursorToken_Done now position feed chain s tok s' :
  mintCursorToken faults rand now position feed (Some chain) s = (Done tok, s') →
  minted tok ∧ cl_tokens s !! tok = None
  ∧ with_tokens_of s (<[tok := MkCursorRow position (UnixMilli now) chain feed]> (cl_tokens s)) s'.
Proof.
  unfold mintCursorToken. intros (raw & s1 & Hd & H)%abind_Done. injection Hd as Hraw Hd0.
  assert (same_tables s s1) as Hd by (subst s1; apply same_tables_counts).
  destruct raw as [raw|]; [|done]. cbn [abind aret] in H.
  apply log_stmt_Done in H as (s3 & Hs & _ & H).
  assert (same_tables s s3) as Hs3 by (etrans; eassumption).
  destruct (same_tables_inv _ _ Hs3) as (_ & _ & Ht & _). rewrite <-Ht in H.
  destruct (cl_tokens s !! hex_encode raw) eqn:Hn; [done|]. injection H as <- <-. split_and!; [by eexists _, _|done|].
  unfold with_tokens_of. by apply same_tables_with_tokens.
Qed.

Lemma insert_grows s s' tok row :
  cl_tokens s !! tok = None → sound_at s (cu_Chain row) (cu_Position row) →
  with_tokens_of s (<[tok := row]> (cl_tokens s)) s' → grows s s'.
Proof.
  intros Hn Hp Hs. eapply log_grows_trans; [|by apply same_tables_grows]. split; try done; simpl.
  - intros tok' row' Hr. exists row'. split; [|done]. rewrite lookup_insert_ne; [done|congruence].
  - intros tok' row' [[<- <-]|[_ Hr]]%lookup_insert_Some; [by right|left; eauto with dolmen].
Qed.

Lemma resolve_Done now retention tok feed s row s' :
  resolveCursorToken faults now retention tok feed s = (Done row, s') →
  cl_tokens s !! tok = Some row ∧ cu_FeedTable row = feed ∧ (0 < retention → expired now retention row = false)
  ∧ with_tokens_of s (alter (touched now) tok (cl_tokens s)) s'.
Proof.
  unfold resolveCursorToken. intros (found & s1 & Hf & H)%abind_Done.
  apply select_Done in Hf as (-> & Hs1 & _); [|by intros ? (_ & _ & -> & _)%same_tables_inv].
  destruct (cl_tokens s !! tok) as [row0|] eqn:Hr; [|done].
  destruct (String.eqb (cu_FeedTable row0) feed) eqn:Hfd; [|done]. apply String.eqb_eq in Hfd. cbn [negb] in H.
  destruct ((0 <? retention) && expired now retention row0) eqn:Hx; [done|].
  apply abind_Done in H as (n & s2 & (s3 & Hs3 & _ & [= <- <-])%log_stmt_Done & H).
  assert (same_tables s s3) as Hs by (etrans; eassumption).
  destruct (same_tables_inv _ _ Hs) as (_ & _ & Ht & _). rewrite <-Ht, Hr in H. cbn [Z.eqb aret] in H.
  injection H as -> <-. split_and!; [done..| |].
  - intros Hret. destruct (0 <? retention) eqn:Hlt; [done|lia].
  - unfold with_tokens_of. by apply same_tables_with_tokens.
Qed.

Lemma alter_grows s s' tok now :
  with_tokens_of s (alter (touched now) tok (cl_tokens s)) s' → grows s s'.
Proof.
  intros Hs. eapply log_grows_trans; [|by apply same_tables_grows]. split; try done; simpl.
  - intros tok' row Hr. rewrite lookup_alter. case_decide; subst; rewrite Hr; simpl; eauto with dolmen.
    eexists. split; [done|]. unfold same_cursor, touched. simpl. auto with zarith.
  - intros tok' row'. rewrite lookup_alter. case_decide; [subst|intros Hr; left; eauto with dolmen].
    intros (row & Hr & ->)%fmap_Some. left. exists row. split; [done|]. unfold same_cursor, touched. simpl. auto with zarith.
Qed.

(** ** Pruning *)

Lemma min_origin_le s tok row : cl_tokens s !! tok = Some row → min_origin s ≤ ch_Origin (cu_Chain row).
Proof.
  intros Hr. unfold min_origin.
  assert (ch_Origin (cu_Chain row) ∈ map (λ x, ch_Origin (cu_Chain x.2)) (map_to_list (cl_tokens s))) as Hin.
  { apply list_elem_of_fmap. exists (tok, row). split; [done|]. by apply elem_of_map_to_list. }
  destruct (min_of _) as [m|] eqn:Hm; [by eapply min_of_le|].
  destruct (map _ _); [by apply elem_of_nil in Hin|done].
Qed.

(** What pruning leaves at [now]. *)
Record pruned (now retention : Z) (s s' : changelog) : Prop := {
  pr_seq : cl_seq s' = cl_seq s;
  pr_gens : cl_gens s' = cl_gens s;
  pr_schemas : cl_schemas s' = cl_schemas s;
  pr_nsgen : cl_nsgen s' = cl_nsgen s;
  pr_tokens tok row : cl_tokens s' !! tok = Some row ↔
    cl_tokens s !! tok = Some row ∧ (0 < retention → expired now retention row = false);
  pr_changes seq row : cl_changes s' !! seq = Some row ↔
    cl_changes s !! seq = Some row
    ∧ (0 < retention → ¬ (lr_at row < isoChangeStamp (now + wrap_int64 (-2 * retention)) ∧ seq ≤ min_origin s')) }.

Lemma pruneChanges_Done now retention s s' :
  pruneChanges faults now retention s = (Done (), s') → pruned now retention s s'.
Proof.
  unfold pruneChanges. destruct (Z.leb_spec retention 0) as [Hle|Hgt].
  { intros [= <-]. split; try done; intros; split; try (intros [? ?]; done); intros ?; (split; [done|lia]). }
  intros (u1 & s2 & (s1 & H1 & _ & [= _ <-])%log_stmt_Done & H)%abind_Done.
  apply abind_Done in H as (u2 & s4 & (s3 & H2 & _ & [= _ <-])%log_stmt_Done & H).
  apply log_stmt_Done in H as (s5 & H3 & _ & [= <-]).
  apply same_tables_inv in H1 as (C1 & Q1 & T1 & G1 & S1 & N1 & _), H2 as (C2 & Q2 & T2 & G2 & S2 & N2 & _),
    H3 as (C3 & Q3 & T3 & G3 & S3 & N3 & _).
  cbn [with_tokens cl_changes cl_seq cl_tokens cl_gens cl_schemas cl_nsgen] in *.
  assert (∀ tok row, cl_tokens s5 !! tok = Some row ↔ cl_tokens s !! tok = Some row ∧ expired now retention row = false) as Htok.
  { intros tok row. rewrite <-T3, !map_lookup_filter_Some, <-T2, map_lookup_filter_Some, <-T1. simpl.
    unfold expired. rewrite orb_false_iff, !Z.ltb_ge. intuition lia. }
  split; cbn [with_changes cl_changes cl_seq cl_tokens cl_gens cl_schemas cl_nsgen]; try congruence.
  - intros tok row. rewrite Htok. naive_solver.
  - intros seq row. rewrite map_lookup_filter_Some, <-C3, <-C2, <-C1. simpl.
    change (min_origin (with_changes s5 _ _)) with (min_origin s5).
    split; intros [H1 H2]; (split; [exact H1|]); [intros _; exact H2|exact (H2 Hgt)].
Qed.

Lemma pruned_keeps now retention s s' tok row seq c :
  log_wf s → pruned now retention s s' → cl_tokens s' !! tok = Some row → cu_Position row < seq →
  cl_changes s !! seq = Some c → cl_changes s' !! seq = Some c.
Proof.
  intros Hwf Hp Hr Hs Hc. apply (pr_changes _ _ _ _ Hp). split; [done|]. intros _ [_ Hle].
  pose proof (min_origin_le _ _ _ Hr). apply (pr_tokens _ _ _ _ Hp) in Hr as [Hr _].
  pose proof (sd_behind _ _ _ (wf_tokens _ Hwf _ _ Hr) _ _ Hc Hs). lia.
Qed.

Lemma pruned_wf now retention s s' : log_wf s → pruned now retention s s' → log_wf s'.
Proof.
  intros Hwf Hp. split; rewrite ?(pr_seq _ _ _ _ Hp); [apply Hwf| |].
  - intros seq row [Hc _]%(pr_changes _ _ _ _ Hp). by eapply wf_changes.
  - intros tok row [Hc _]%(pr_tokens _ _ _ _ Hp). eapply sound_mono; [|..|by eapply wf_tokens].
    + by rewrite (pr_seq _ _ _ _ Hp).
    + intros seq row' [Hr _]%(pr_changes _ _ _ _ Hp). eauto.
Qed.

(** ** Pages *)

(** [tok] is a live cursor at [pos], of the chain and feed given, used at
    [now] or later. *)
Definition stands (now : Z) (chain : cursorChain) (feed : string) (s : changelog) (tok : string) (pos : Z) : Prop :=
  ∃ row, cl_tokens s !! tok = Some row ∧ cu_Position row = pos ∧ cu_Chain row = chain ∧ cu_FeedTable row = feed
    ∧ UnixMilli now ≤ cu_IssuedAt row.

Lemma stands_grows now chain feed s s' tok pos : stands now chain feed s tok pos → grows s s' → stands now chain feed s' tok pos.
Proof.
  intros (row & Hr & <- & <- & <- & Hi) Hg. destruct (gr_kept _ _ Hg _ _ Hr) as (row' & Hr' & (? & ? & ? & ?)).
  exists row'. split_and!; try congruence; lia.
Qed.

Lemma mint_stands now position feed chain s tok s' :
  mintCursorToken faults rand now position feed (Some chain) s = (Done tok, s') → sound_at s chain position →
  grows s s' ∧ stands now chain feed s' tok position ∧ minted tok.
Proof.
  intros (Hm & Hn & Hs)%mintCursorToken_Done Hp. split_and!; [refine (insert_grows _ _ _ _ Hn _ Hs); exact Hp| |done].
  apply same_tables_inv in Hs as (_ & _ & Ht & _). eexists. rewrite <-Ht. simpl. rewrite lookup_insert_eq.
  split_and!; [done..|]. simpl. lia.
Qed.

(** A record is the row it stands for, under a cursor at its position. *)
Definition reports (now : Z) (chain : cursorChain) (feed : string) (s : changelog) (x : Z * log_row) (r : ChangeRecord) : Prop :=
  r = set_cursor (lc_rec (logged x)) (cr_Cursor r) ∧ stands now chain feed s (cr_Cursor r) x.1.

Lemma scanChangePage_Done rows scanned : scanChangePage rows = Done scanned → scanned = map logged rows.
Proof.
  revert scanned. induction rows as [|x rows IH]; intros scanned; simpl; [by intros [= <-]|].
  destruct (negb _); [done|]. intros (rest & Hr & [= <-])%obind_Done. by rewrite (IH rest).
Qed.

Lemma mint_each_Done now feed chain rows s records s' :
  mint_each faults rand now feed (Some chain) (map logged rows) s = (Done records, s') →
  (∀ x, x ∈ rows → sound_at s chain x.1) →
  grows s s' ∧ Forall2 (reports now chain feed s') rows records.
Proof.
  revert s records s'. induction rows as [|x rows IH]; intros s records s'.
  { intros [= <- <-] _. split; [by apply same_tables_grows|]. constructor. }
  intros (tok & s1 & Hm & H)%abind_Done Hrows.
  apply mint_stands in Hm as (Hg & Hst & _); [|apply Hrows; by left].
  apply abind_Done in H as (rest & s2 & Hr & [= <- <-]).
  apply IH in Hr as [Hg2 Hf]; [|intros y Hy; apply (sound_grows _ _ _ _ Hg), Hrows; by right].
  split; [by eapply log_grows_trans|]. constructor; [|done]. split; [done|]. by eapply stands_grows.
Qed.

(** The position after a page. *)
Definition page_end (position : Z) (rows : list (Z * log_row)) : Z :=
  match last rows with Some x => x.1 | None => position end.

Lemma mintChangeCursors_Done now rows position from feed chain s records next s' :
  mintChangeCursors faults rand now (map logged rows) position from feed (Some chain) s = (Done (records, next), s') →
  sound_at s chain position →
  (∀ x, x ∈ rows → sound_at s chain x.1) →
  grows s s' ∧ Forall2 (reports now chain feed s') rows records
  ∧ (stands now chain feed s' next (page_end position rows) ∧ minted next
     ∨ rows = [] ∧ next = from ∧ from ≠ "" ∧ from ≠ CursorBegin).
Proof.
  unfold mintChangeCursors. intros (recs & s1 & Hm & H)%abind_Done Hpos Hrows.
  apply mint_each_Done in Hm as [Hg Hf]; [|done].
  destruct (bool_decide (map logged rows = []) && _ && _) eqn:He.
  - rewrite !andb_true_iff, bool_decide_eq_true, !negb_true_iff, !String.eqb_neq in He.
    destruct He as [[He ?] ?]. injection H as <- <- <-. split_and!; [done..|right]. by destruct rows.
  - apply abind_Done in H as (tok & s2 & Ht & [= <- <- <-]).
    apply mint_stands in Ht as (Hg2 & Hst & Hmt).
    + split_and!; [by eapply log_grows_trans| |left].
      * eapply Forall2_impl; [done|]. intros x r [? ?]. split; [done|]. by eapply stands_grows.
      * unfold page_end. change (map logged rows) with (logged <$> rows) in Hst. rewrite fmap_last in Hst. split; [|done]. by destruct (last rows).
    + apply (sound_grows _ _ _ _ Hg). change (map logged rows) with (logged <$> rows). rewrite fmap_last. destruct (last rows) as [x|] eqn:Hl; [|done].
      apply Hrows. by apply last_Some_elem_of in Hl.
Qed.

(** ** Where a read starts *)

Definition head_of (s : changelog) : Z := default 0 (max_of (seqs_where (λ _, true) s)).
Definition begin_of (now retention : Z) (s : changelog) : Z :=
  if retention <=? 0 then match min_of (seqs_where (λ _, true) s) with Some seq => seq - 1 | None => 0 end
  else match min_of (seqs_where (λ row, isoChangeStamp (now - retention) <=? lr_at row) s) with
       | Some seq => seq - 1
       | None => head_of s
       end.

Lemma seqs_where_spec p s seq : seq ∈ seqs_where p s ↔ ∃ row, cl_changes s !! seq = Some row ∧ p row = true.
Proof.
  unfold seqs_where. rewrite list_elem_of_fmap. split.
  - intros ([q row] & -> & H). apply list_elem_of_In, filter_In in H as [H Hp].
    apply list_elem_of_In, elem_of_map_to_list in H. by exists row.
  - intros (row & Hr & Hp). exists (seq, row). split; [done|]. apply list_elem_of_In, filter_In.
    split; [|done]. by apply list_elem_of_In, elem_of_map_to_list.
Qed.

Lemma head_of_ok s : log_wf s → 0 ≤ head_of s ≤ cl_seq s ∧ ∀ seq row, cl_changes s !! seq = Some row → seq ≤ head_of s.
Proof.
  intros Hwf. unfold head_of. split.
  - destruct (max_of _) as [m|] eqn:Hm; simpl; [|split; [done|apply Hwf]].
    apply max_of_elem, seqs_where_spec in Hm as (row & Hr & _). apply wf_changes in Hr; [lia|done].
  - intros seq row Hr. assert (seq ∈ seqs_where (λ _, true) s) as Hin by (apply seqs_where_spec; by exists row).
    destruct (max_of _) as [m|] eqn:Hm; simpl; [by eapply max_of_ge|].
    destruct (seqs_where _ s); [by apply elem_of_nil in Hin|done].
Qed.

Lemma begin_of_ok now retention s : log_wf s → begin_of now retention s ≤ cl_seq s.
Proof.
  intros Hwf. unfold begin_of.
  assert (∀ p m, min_of (seqs_where p s) = Some m → m - 1 ≤ cl_seq s) as Hmin.
  { intros p m (row & Hr & _)%min_of_elem%seqs_where_spec. apply wf_changes in Hr; [lia|done]. }
  destruct (retention <=? 0).
  - destruct (min_of _) as [m|] eqn:Hm; [by eapply Hmin|apply Hwf].
  - destruct (min_of _) as [m|] eqn:Hm; [by eapply Hmin|]. by apply head_of_ok.
Qed.

Inductive starts (now retention : Z) (table from : string) (s : changelog) : Z → cursorChain → Prop :=
| starts_head chain : from = "" → ch_Origin chain = head_of s → ch_Start chain = UnixMilli now →
    starts now retention table from s (head_of s) chain
| starts_begin chain : from = CursorBegin → ch_Origin chain = begin_of now retention s → ch_Start chain = UnixMilli now →
    starts now retention table from s (begin_of now retention s) chain
| starts_token row : from ≠ "" → from ≠ CursorBegin →
    cl_tokens s !! from = Some row → cu_FeedTable row = table → (0 < retention → expired now retention row = false) →
    starts now retention table from s (cu_Position row) (cu_Chain row).

Lemma starts_ok now retention table from s p c :
  log_wf s → starts now retention table from s p c → sound_at s c p.
Proof.
  intros Hwf [c' _ Ho _|c' _ Ho _|row _ _ Hr _ _].
  - apply sound_le. pose proof (head_of_ok s Hwf). lia.
  - apply sound_le. pose proof (begin_of_ok now retention s Hwf). lia.
  - by eapply wf_tokens.
Qed.

Lemma head_same s s1 : same_tables s s1 → head_of s1 = head_of s.
Proof. intros (Hc & _)%same_tables_inv. unfold head_of, seqs_where. by rewrite Hc. Qed.

Lemma changeHead_Done s h s' : changeHead faults s = (Done h, s') → h = head_of s ∧ same_tables s s'.
Proof. intros (-> & ? & _)%select_Done; [done|]. intros s1. apply head_same. Qed.

Lemma changeBegin_Done now retention s p s' :
  changeBegin faults now retention s = (Done p, s') → p = begin_of now retention s ∧ same_tables s s'.
Proof.
  unfold changeBegin, begin_of. destruct (retention <=? 0); intros (m & s1 & Hm & H)%abind_Done;
    (apply select_Done in Hm as (-> & Hs & _); [|intros ? (Hc & _)%same_tables_inv; unfold seqs_where; by rewrite Hc]).
  - injection H as <- <-. done.
  - destruct (min_of _); [injection H as <- <-; done|].
    apply changeHead_Done in H as [-> ?]. split; [by apply head_same|by etrans].
Qed.

Lemma start_of_Done now retention table from s p c s' :
  start_of faults rand now retention from table s = (Done (p, c), s') →
  starts now retention table from s p c ∧ grows s s'.
Proof.
  unfold start_of. destruct (String.eqb from "") eqn:He; [|destruct (String.eqb from CursorBegin) eqn:Hb].
  - apply String.eqb_eq in He. intros (h & s1 & (-> & Hs)%changeHead_Done & H)%abind_Done.
    apply abind_Done in H as (ch & s2 & (Hs2 & Ho & Ht)%newCursorChain_Done & [= <- <- <-]).
    split; [by apply starts_head|]. apply same_tables_grows. by etrans.
  - apply String.eqb_eq in Hb. intros (h & s1 & (-> & Hs)%changeBegin_Done & H)%abind_Done.
    apply abind_Done in H as (ch & s2 & (Hs2 & Ho & Ht)%newCursorChain_Done & [= <- <- <-]).
    split; [by apply starts_begin|]. apply same_tables_grows. by etrans.
  - apply String.eqb_neq in He, Hb. intros (row & s1 & (Hr & Hf & Hx & Hs)%resolve_Done & [= <- <- <-])%abind_Done.
    split; [by apply starts_token|]. by eapply alter_grows.
Qed.

(** ** The rows of a page *)

Definition before (x y : Z * log_row) : Prop := x.1 < y.1.

Lemma elem_of_rows_after from to_ feed scope s x :
  x ∈ rows_after from to_ feed scope s ↔
  cl_changes s !! x.1 = Some x.2 ∧ within from to_ x.1 = true ∧ in_feed feed x.2 = true ∧ in_scope scope x.2 = true.
Proof.
  unfold rows_after. rewrite merge_sort_Permutation, list_elem_of_In, filter_In, <-list_elem_of_In.
  destruct x as [q row]. rewrite elem_of_map_to_list, !andb_true_iff. simpl. tauto.
Qed.

Lemma Sorted_before l : Sorted by_seq l → NoDup l.*1 → StronglySorted before l.
Proof.
  intros Hs Hnd. assert (StronglySorted by_seq l) as Hss.
  { apply Sorted_StronglySorted; [|done]. intros x y z; unfold by_seq; lia. }
  clear Hs. induction Hss as [|x l Hss IH Hx]; [constructor|]. cbn [fmap list_fmap] in Hnd. apply NoDup_cons in Hnd as [Hn Hnd].
  constructor; [by apply IH|]. rewrite Forall_forall in *. intros y Hy. unfold by_seq, before in *.
  assert (x.1 ≠ y.1); [|specialize (Hx y Hy); lia]. intros He. apply Hn. rewrite He. by apply list_elem_of_fmap_2.
Qed.

Lemma rows_after_sorted from to_ feed scope s : StronglySorted before (rows_after from to_ feed scope s).
Proof.
  apply Sorted_before.
  - unfold rows_after. apply Sorted_merge_sort. intros x y. unfold by_seq. lia.
  - unfold rows_after. eapply NoDup_Permutation_proper; [by rewrite merge_sort_Permutation|].
    assert (∀ (f : Z * log_row → bool) l, NoDup l.*1 → NoDup (List.filter f l).*1) as Hf.
    { intros f l. induction l as [|y l IH]; [done|]. cbn [fmap list_fmap List.filter]. intros [Hn Hnd]%NoDup_cons.
      destruct (f y); [|by apply IH]. cbn [fmap list_fmap]. apply NoDup_cons. split; [|by apply IH].
      intros (z & Hz & Hin)%list_elem_of_fmap. apply Hn, list_elem_of_fmap. exists z. split; [done|].
      apply list_elem_of_In in Hin. apply filter_In in Hin as [? _]. by apply list_elem_of_In. }
    apply Hf, NoDup_fst_map_to_list.
Qed.

Lemma rows_after_same from to_ feed scope s s1 : cl_changes s1 = cl_changes s → rows_after from to_ feed scope s1 = rows_after from to_ feed scope s.
Proof. unfold rows_after. by intros ->. Qed.

(** ** [ChangesSince] *)

Definition nsgen_of (s : changelog) : list Z := default [] (cl_nsgen s).
Definition feed_of (table : string) (s : changelog) : option changeFeed :=
  if String.eqb table "" then None
  else Some (MkFeed table (nsgen_of s) (default 0 (cl_gens s !! table))).

Lemma tableGen_Done table s g s' : tableGen faults table s = (Done g, s') → g = default 0 (cl_gens s !! table) ∧ same_tables s s'.
Proof. intros (-> & ? & _)%select_Done; [done|]. by intros s1 (_ & _ & _ & -> & _)%same_tables_inv. Qed.
Lemma readNSGen_Done s g s' : readNSGen faults s = (Done g, s') → g = nsgen_of s ∧ length g = 16%nat ∧ same_tables s s'.
Proof.
  unfold readNSGen, nsgen_of. intros (raw & s1 & (-> & Hs1 & _)%select_Done & H)%abind_Done; [|by intros u (_ & _ & _ & _ & _ & -> & _)%same_tables_inv].
  destruct (cl_nsgen s) as [gen|]; [|done]. destruct (Nat.eqb_spec (length gen) 16); [|done]. by injection H as <- <-.
Qed.
Lemma loadSchema_Done table s sc s' : loadSchema faults table s = (Done sc, s') → cl_schemas s !! table = Some (Some sc) ∧ same_tables s s'.
Proof.
  unfold loadSchema. intros (raw & s1 & (-> & Hs1 & _)%select_Done & H)%abind_Done; [|by intros u (_ & _ & _ & _ & -> & _)%same_tables_inv].
  destruct (cl_schemas s !! table) as [[sc'|]|]; [|done..]. by injection H as <- <-.
Qed.
Lemma changeFeedOf_Done table s f s' :
  changeFeedOf faults table s = (Done f, s') →
  f = MkFeed table (nsgen_of s) (default 0 (cl_gens s !! table)) ∧ same_tables s s'.
Proof.
  unfold changeFeedOf. intros (sc & s1 & (_ & H1)%loadSchema_Done & H)%abind_Done.
  apply abind_Done in H as (g & s2 & (-> & H2)%tableGen_Done & H).
  apply abind_Done in H as (n & s3 & (-> & _ & H3)%readNSGen_Done & [= <- <-]).
  assert (same_tables s s2) as H12 by (by etrans).
  destruct (same_tables_inv _ _ H1) as (_ & _ & _ & Hg & _). destruct (same_tables_inv _ _ H12) as (_ & _ & _ & _ & _ & Hn & _).
  unfold nsgen_of. rewrite Hg, Hn. split; [done|]. by etrans.
Qed.

(** A read that succeeds, as a relation between the states around it. *)
Record reads (now retention : Z) (table from : string) (scope : option RowScope) (limit : Z)
    (s : changelog) (position : Z) (chain : cursorChain) (rows : list (Z * log_row))
    (records : list ChangeRecord) (next : string) (s1 s' : changelog) : Prop := {
  rd_start : starts now retention table from s position chain;
  rd_rows : rows = take (Z.to_nat (changesPageLimit limit)) (rows_after position None (feed_of table s) scope s);
  rd_labelled : scope ≠ None → ∀ seq row, position < seq → cl_changes s !! seq = Some row →
    in_feed (feed_of table s) row = true → lr_owner row ≠ None;
  rd_grows : grows s s1;
  rd_records : Forall2 (reports now chain table s1) rows records;
  rd_next : stands now chain table s1 next (page_end position rows) ∧ minted next
    ∨ rows = [] ∧ next = from ∧ from ≠ "" ∧ from ≠ CursorBegin;
  rd_pruned : pruned now retention s1 s' }.

Lemma starts_same now retention table from s s1 position chain :
  same_tables s s1 → starts now retention table from s1 position chain → starts now retention table from s position chain.
Proof.
  intros H1 Hst. destruct (same_tables_inv _ _ H1) as (E1 & _ & E3 & _).
  assert (∀ p, seqs_where p s1 = seqs_where p s) as Hsw by (intros p; unfold seqs_where; by rewrite E1).
  destruct Hst as [c Hf Ho Ht|c Hf Ho Ht|row ? ? Hr ? ?].
  - unfold head_of in *. rewrite Hsw in *. by apply starts_head.
  - unfold begin_of, head_of in *. rewrite !Hsw in *. by apply starts_begin.
  - rewrite <-E3 in Hr. by apply starts_token.
Qed.

Lemma feed_part_Done table scope s feed s' :
  (if String.eqb table "" then aret None
   else
     do! feed := changeFeedOf faults table in
     do! sc := loadSchema faults table in
     do! _ := of_outcome (scopeUsable scope (Some sc)) in
     aret (Some feed)) s = (Done feed, s') →
  feed = feed_of table s ∧ same_tables s s'.
Proof.
  unfold feed_of. destruct (String.eqb table ""); [by intros [= <- <-]|].
  intros (f & s1 & (-> & H1)%changeFeedOf_Done & H)%abind_Done.
  apply abind_Done in H as (sc & s2 & (_ & H2)%loadSchema_Done & H).
  apply abind_Done in H as ([] & s3 & Hu & [= <- <-]). injection Hu as _ <-. split; [done|]. by etrans.
Qed.

Lemma labelled_part_Done (scope : option RowScope) position feed s s' :
  log_wf s →
  match scope with
  | None => aret ()
  | Some _ =>
      do! head := changeHead faults in
      if position <? head then
        do! stale := unlabeledChangeInRange faults position head feed in
        if stale then afail ErrScopedFeedPredatesLabels else aret ()
      else aret ()
  end s = (Done (), s') →
  same_tables s s' ∧
  (scope ≠ None → ∀ seq row, position < seq → cl_changes s !! seq = Some row → in_feed feed row = true → lr_owner row ≠ None).
Proof.
  intros Hwf. destruct scope as [scope|]; [|intros [= <-]; done].
  intros (h & s1 & (-> & H1)%changeHead_Done & H)%abind_Done. destruct (head_of_ok s Hwf) as [_ Hhead].
  destruct (Z.ltb_spec position (head_of s)).
  - apply abind_Done in H as (stale & s2 & Hst & H). unfold unlabeledChangeInRange in Hst.
    apply select_Done in Hst as (-> & H2 & _); [|by intros u (-> & _)%same_tables_inv].
    destruct (existsb _ _) eqn:He; [done|]. injection H as <-. split; [by etrans|].
    intros _ seq row Hseq Hrow Hf Ho. apply not_true_iff_false in He. apply He, existsb_exists.
    exists (seq, row). split; [apply list_elem_of_In, elem_of_map_to_list|].
    + by destruct (same_tables_inv _ _ H1) as (<- & _).
    + simpl. rewrite Ho, Hf. unfold within. specialize (Hhead _ _ Hrow).
      rewrite !andb_true_iff, bool_decide_eq_true. split_and!; [lia|lia|done|done].
  - injection H as <-. split; [done|]. intros _ seq row Hseq Hrow. specialize (Hhead _ _ Hrow). lia.
Qed.

Lemma changes_tx_Done now retention table from scope limit s records next s' :
  log_wf s →
  changes_tx faults rand now retention table from scope limit s = (Done (records, next), s') →
  ∃ position chain rows s1, reads now retention table from scope limit s position chain rows records next s1 s'.
Proof.
  intros Hwf (feed & s1 & (-> & H1)%feed_part_Done & H)%abind_Done.
  apply abind_Done in H as ([position chain] & s2 & (Hst & Hg2)%start_of_Done & H).
  assert (grows s s2) as Hgs by (eapply log_grows_trans; [by apply same_tables_grows|done]).
  apply abind_Done in H as ([] & s3 & (H3 & Hlab)%labelled_part_Done & H); [|by eapply grows_wf].
  assert (grows s s3) as Hgs3 by (eapply log_grows_trans; [done|by apply same_tables_grows]).
  apply abind_Done in H as (rows & s4 & Hrows & H). unfold changePage in Hrows.
  apply select_Done in Hrows as (-> & H4 & _); [|intros u (Hc & _)%same_tables_inv; by erewrite rows_after_same].
  assert (grows s s4) as Hgs4 by (eapply log_grows_trans; [done|by apply same_tables_grows]).
  rewrite (rows_after_same _ _ _ _ s s3) in H by apply Hgs3. unfold of_outcome in H.
  apply abind_Done in H as (scanned & s5 & [= Hsc <-] & H). apply scanChangePage_Done in Hsc as ->.
  apply abind_Done in H as ([recs nxt] & s6 & Hm & H).
  apply abind_Done in H as ([] & s7 & Hp & [= <- <- <-]). apply pruneChanges_Done in Hp.
  pose proof (starts_same _ _ _ _ _ _ _ _ H1 Hst) as Hst'.
  pose proof (starts_ok _ _ _ _ _ _ _ Hwf Hst') as Hpos.
  apply mintChangeCursors_Done in Hm as (Hg6 & Hrec & Hnext).
  - exists position, chain, (take (Z.to_nat (changesPageLimit limit)) (rows_after position None (feed_of table s) scope s)), s6.
    split; try done; [|by eapply log_grows_trans].
    intros Hsc seq row Hseq Hrow. apply (Hlab Hsc seq row Hseq). by rewrite (gr_changes _ _ Hgs).
  - by apply (sound_grows _ _ _ _ Hgs4).
  - intros x (k & Hx%list_elem_of_lookup_2 & _)%elem_of_take. apply (sound_grows _ _ _ _ Hgs4).
    apply elem_of_rows_after in Hx as (Hx & Hw & _). unfold within in Hw.
    destruct (wf_changes _ Hwf _ _ Hx). eapply sound_after; [done|lia].
Qed.

Lemma pruned_same now retention s s1 s2 : pruned now retention s s1 → same_tables s1 s2 → pruned now retention s s2.
Proof.
  intros [P1 P2 P3 P4 P5 P6] (E1 & E2 & E3 & E4 & E5 & E6 & _)%same_tables_inv.
  split; rewrite <-?E1, <-?E2, <-?E3, <-?E4, <-?E5, <-?E6; try done.
  intros seq row. rewrite P6. unfold min_origin. by rewrite E3.
Qed.

Lemma reads_same now retention table from scope limit s s0 position chain rows records next s1 s2 s' :
  same_tables s s0 → same_tables s2 s' →
  reads now retention table from scope limit s0 position chain rows records next s1 s2 →
  reads now retention table from scope limit s position chain rows records next s1 s'.
Proof.
  intros H1 H2 [R1 R2 R3 R4 R5 R6 R7]. destruct (same_tables_inv _ _ H1) as (E1 & _ & _ & E4 & _ & E6 & _).
  assert (feed_of table s0 = feed_of table s) as Hf by (unfold feed_of, nsgen_of; by rewrite E4, E6).
  rewrite Hf in *. split; try done.
  - by eapply starts_same.
  - by rewrite R2, (rows_after_same _ _ _ _ s s0).
  - by rewrite E1.
  - eapply log_grows_trans; [by apply same_tables_grows|done].
  - by eapply pruned_same.
Qed.

Lemma guard_same table inc s s' :
  guardIncarnation faults table inc s = (Done (), s') → same_tables s s'.
Proof.
  unfold guardIncarnation, checkScopeIncarnation. destruct (inc_zero inc); [by intros [= <-]|].
  destruct (negb _); [done|]. intros (sc & s1 & (_ & H1)%loadSchema_Done & H)%abind_Done.
  apply abind_Done in H as (g & s2 & (_ & H2)%tableGen_Done & H).
  apply abind_Done in H as (n & s3 & (_ & _ & H3)%readNSGen_Done & H).
  destruct (decide _); [|done]. injection H as <-. etrans; [done|]. by etrans.
Qed.

Lemma ChangesSince_Done now retention table from scope inc limit s records next s' :
  log_wf s →
  ChangesSince faults rand now retention table from scope inc limit s = (Done (records, next), s') →
  ∃ position chain rows s1, reads now retention table from scope limit s position chain rows records next s1 s'.
Proof.
  intros Hwf. unfold ChangesSince. destruct (_ && _); [done|].
  intros ([] & s0 & Hg & H)%abind_Done.
  assert (same_tables s s0) as H0 by (destruct (String.eqb table "") in Hg; [by injection Hg as <-|by eapply guard_same]).
  apply in_tx_result in H as [[_ Hno]|(a & s1 & s2 & [= <-] & H1 & _ & Hb & H2)].
  - by destruct (Hno (records, next)).
  - apply changes_tx_Done in Hb as (p & c & rows & s3 & Hr); [|eapply same_tables_wf; [by etrans|done]].
    exists p, c, rows, s3. eapply reads_same; [by etrans|done|done].
Qed.

(** Actions that change no table, whatever they answer. *)
Definition quiet {A} (m : logs A) : Prop := ∀ s o s', m s = (o, s') → same_tables s s'.
Lemma quiet_bind {A B} (m : logs A) (k : A → logs B) : quiet m → (∀ a, quiet (k a)) → quiet (abind m k).
Proof.
  intros Hm Hk s o s'. unfold abind. destruct (m s) as [[a|e|] s1] eqn:H1.
  - intros H2. etrans; [by eapply Hm|by eapply Hk].
  - intros [= <- <-]. by eapply Hm.
  - intros [= <- <-]. by eapply Hm.
Qed.
Lemma quiet_ret {A} (a : A) : quiet (aret a).
Proof. by intros s o s' [= <- <-]. Qed.
Lemma quiet_fail {A} e : quiet (A:=A) (afail e).
Proof. by intros s o s' [= <- <-]. Qed.
Lemma quiet_select {A} (f : changelog → A) : quiet (select faults f).
Proof. intros s o s'. unfold select, stmt. destruct (faults _); intros [= <- <-]; apply same_tables_counts. Qed.

Lemma quiet_guard table inc : quiet (guardIncarnation faults table inc).
Proof.
  unfold guardIncarnation, checkScopeIncarnation, loadSchema, readNSGen, tableGen.
  repeat first [apply quiet_bind; [|intros ?] | apply quiet_select | apply quiet_ret | apply quiet_fail | case_match].
Qed.

Lemma ChangesSince_Fail now retention table from scope inc limit s o s' :
  ChangesSince faults rand now retention table from scope inc limit s = (o, s') →
  (∀ a, o ≠ Done a) → same_tables s s'.
Proof.
  unfold ChangesSince. destruct (_ && _); [by intros [= _ <-]|]. unfold abind.
  destruct ((if String.eqb table "" then aret () else guardIncarnation faults table inc) s) as [g s0] eqn:Hg.
  assert (same_tables s s0) as H0.
  { destruct (String.eqb table "") in Hg; [by injection Hg as _ <-|by eapply quiet_guard]. }
  destruct g as [[]|e|]; [|by intros [= _ <-]..].
  intros [[? _]|(a & s1 & s2 & -> & _)]%in_tx_result Ho; [by etrans|by destruct (Ho a)].
Qed.

(** ** Writing changes *)

(** What a write does: it only appends, after every number used before. *)
Record appended (s s' : changelog) : Prop := {
  ap_tokens : cl_tokens s' = cl_tokens s;
  ap_gens : cl_gens s' = cl_gens s;
  ap_schemas : cl_schemas s' = cl_schemas s;
  ap_nsgen : cl_nsgen s' = cl_nsgen s;
  ap_seq : cl_seq s ≤ cl_seq s';
  ap_changes seq row : cl_changes s' !! seq = Some row →
    cl_changes s !! seq = Some row ∨ cl_seq s < seq ≤ cl_seq s';
  ap_kept seq row : cl_changes s !! seq = Some row → seq ≤ cl_seq s → cl_changes s' !! seq = Some row }.

Lemma same_tables_appended s s' : same_tables s s' → appended s s'.
Proof.
  intros (E1 & E2 & E3 & E4 & E5 & E6 & _)%same_tables_inv. split; rewrite <-?E1, <-?E2; try done; try lia; eauto.
Qed.
Lemma appended_trans s1 s2 s3 : appended s1 s2 → appended s2 s3 → appended s1 s3.
Proof.
  intros [A1 A2 A3 A4 A5 A6 A7] [B1 B2 B3 B4 B5 B6 B7]. split; try congruence; try lia.
  - intros seq row [H|H]%B6; [apply A6 in H as [H|H]; [by left|right; lia]|right; lia].
  - intros seq row H Hle. apply B7; [by apply A7|lia].
Qed.
Lemma appended_wf s s' : log_wf s → appended s s' → log_wf s'.
Proof.
  intros [W1 W2 W3] [A1 A2 A3 A4 A5 A6 A7]. split; [lia| |].
  - intros seq row [H%W2|H]%A6; lia.
  - intros tok row. rewrite A1. intros H%W3. eapply sound_mono; [done| |exact H].
    intros seq row' [?|?]%A6; [eauto|right; lia].
Qed.

Definition appends {A} (m : logs A) : Prop := ∀ s a s', log_wf s → m s = (Done a, s') → appended s s'.
Lemma appends_quiet {A} (m : logs A) : quiet m → appends m.
Proof. intros Hm s a s' _ H. by eapply same_tables_appended, Hm. Qed.
Lemma appends_bind {A B} (m : logs A) (k : A → logs B) : appends m → (∀ a, appends (k a)) → appends (abind m k).
Proof.
  intros Hm Hk s b s' Hwf (a & s1 & H1 & H2)%abind_Done. apply Hm in H1; [|done].
  eapply appended_trans; [done|]. eapply Hk; [by eapply appended_wf|done].
Qed.
Lemma appends_stmt {A} (f : changelog → outcome change_error A * changelog) :
  (∀ s a s', log_wf s → f s = (Done a, s') → appended s s') → appends (stmt faults f).
Proof.
  intros Hf s a s' Hwf (s1 & H1 & _ & H2)%log_stmt_Done. eapply appended_trans; [by apply same_tables_appended|].
  eapply Hf; [by eapply same_tables_wf|done].
Qed.

Lemma insert_appended s row q :
  log_wf s → q = cl_seq s + 1 → appended s (with_changes s (<[q := row]> (cl_changes s)) q).
Proof.
  intros Hwf ->. split; simpl; try done; try lia.
  - intros seq row' [[<- _]|[_ H]]%lookup_insert_Some; [right; lia|by left].
  - intros seq row' H Hle. rewrite lookup_insert_ne; [done|lia].
Qed.

Lemma changeCommit_appends commit : appends (changeCommit faults commit).
Proof.
  unfold changeCommit. case_match; [|apply appends_quiet, quiet_ret].
  apply appends_stmt. intros s a s' _. case_match; [|done]. intros [= _ <-].
  split; simpl; try done; try lia; eauto.
Qed.

Lemma insert_changes_appends table kind nsgen gen commit i owners ids :
  appends (insert_changes faults clock table kind nsgen gen commit i owners ids).
Proof.
  revert i. induction ids as [|id ids IH]; intros i; cbn [insert_changes]; [apply appends_quiet, quiet_ret|].
  apply appends_bind; [|intros seq; apply appends_bind; [apply IH|intros; apply appends_quiet, quiet_ret]].
  apply appends_stmt. intros s a s' Hwf. case_match; [|done]. intros [= _ <-]. by apply insert_appended.
Qed.

Lemma quiet_read table : quiet (tableGen faults table) ∧ quiet (readNSGen faults).
Proof.
  split; [apply quiet_select|]. unfold readNSGen. apply quiet_bind; [apply quiet_select|].
  intros [gen|]; [|apply quiet_fail]. case_match; [apply quiet_ret|apply quiet_fail].
Qed.

Lemma mintChanges_appends commit table kind ids owners : appends (mintChanges faults clock commit table kind ids owners).
Proof.
  unfold mintChanges. case_match; [apply appends_quiet, quiet_ret|]. case_match; [apply appends_quiet, quiet_fail|].
  apply appends_bind; [apply changeCommit_appends|intros c].
  apply appends_bind; [apply appends_quiet, (quiet_read table)|intros g].
  apply appends_bind; [apply appends_quiet, (quiet_read table)|intros n].
  apply appends_bind; [apply insert_changes_appends|intros ?; apply appends_quiet, quiet_ret].
Qed.

Lemma append_rows_appended row temp s c q :
  log_wf s → append_rows row temp (cl_changes s) (cl_seq s) = (c, q) →
  appended s (with_changes s c q).
Proof.
  revert s. induction temp as [|x temp IH]; intros s Hwf; cbn [append_rows].
  - intros [= <- <-]. destruct s. by apply same_tables_appended.
  - intros H. pose proof (insert_appended s (row x) _ Hwf eq_refl) as Ha.
    eapply appended_trans; [exact Ha|]. apply appended_wf in Ha as Hwf'; [|done].
    specialize (IH (with_changes s (<[cl_seq s + 1 := row x]> (cl_changes s)) (cl_seq s + 1)) Hwf' H). by destruct s.
Qed.

Lemma mintChangesFromTemp_appends commit table kind temp : appends (mintChangesFromTemp faults clock commit table kind temp).
Proof.
  unfold mintChangesFromTemp.
  apply appends_bind; [apply changeCommit_appends|intros c].
  apply appends_bind; [apply appends_quiet, (quiet_read table)|intros g].
  apply appends_bind; [apply appends_quiet, (quiet_read table)|intros n].
  apply appends_bind; [|intros last; case_match; apply appends_quiet, quiet_ret].
  apply appends_stmt. intros s a' s' Hwf. case_match; [|done].
  destruct (append_rows _ _ _ _) as [cs q] eqn:Hr. intros [= _ <-]. by eapply append_rows_appended.
Qed.

End Facts.
