(* ===== verification/ChangelogTheorems.v ===== *)
(** * The theorems of the change log

    The log as a transition system: reads, writes, pruning and the cursors of
    subscriptions in any order.  A live cursor loses no change behind the
    retention, a page is exactly the next changes of its feed, and a reader
    who keeps reading is given every change. *)
From Stdlib Require Import ZArith Lia Ascii String.
From stdpp Require Import base gmap strings list sorting relations.
From S2P Require Import Prelude GoStrings AuthIdentity SchemaIdent Schema SchemaConstraints Authz GoNumbers Changelog ChangelogFacts.
Local Open Scope Z_scope.

(** A change belongs to the feed of [table] (of all tables, for [""]) when it
    was made in the current lifetime of the table and of its namespace; a row
    scope admits the changes of its owner only. *)
Definition belongs (table : string) (s : changelog) (c : log_row) : Prop :=
  table = "" ∨ lr_table c = table ∧ lr_drop_gen c = default 0 (cl_gens s !! table) ∧ lr_nsgen c = nsgen_of s.
Definition admits (scope : option RowScope) (c : log_row) : Prop :=
  ∀ sc, scope = Some sc → rs_Empty sc = false ∧ lr_owner c = Some (rs_Owner sc).

Lemma in_feed_spec table s c : in_feed (feed_of table s) c = true ↔ belongs table s c.
Proof.
  unfold in_feed, feed_of, belongs. destruct (String.eqb_spec table "") as [->|Hne]; [naive_solver|]. simpl.
  rewrite !andb_true_iff, String.eqb_eq, Z.eqb_eq, bool_decide_eq_true. naive_solver.
Qed.
Lemma in_scope_spec scope c : in_scope scope c = true ↔ admits scope c.
Proof.
  unfold in_scope, admits. destruct scope as [sc|]; [|naive_solver]. destruct (rs_Empty sc) eqn:He.
  - split; [done|]. intros H. destruct (H sc eq_refl). congruence.
  - destruct (lr_owner c) as [o|]; [rewrite String.eqb_eq|]; split; try done.
    + intros -> sc' [= <-]. done.
    + intros H. by destruct (H sc eq_refl) as [_ [= ->]].
    + intros H. by destruct (H sc eq_refl) as [_ [=]].
Qed.

Section Theorems.
Context (faults : nat → bool) (clock : nat → Z) (rand : nat → option (list Z)).

(** ** The transition system *)

(** Everything that changes the log or its cursors: a read of a feed, a write
    (of given rows or of the rows of a temporary table), a pruning, a cursor
    a subscription mints (no change between it and the origin of its chain) or
    resolves, and a change of the catalogue. *)
Inductive log_step : changelog → changelog → Prop :=
| step_read now retention table from scope inc limit s o s' :
    ChangesSince faults rand now retention table from scope inc limit s = (o, s') → log_step s s'
| step_write table kind ids owners s o s' :
    in_tx faults (mintChanges faults clock 0 table kind ids owners) s = (o, s') → log_step s s'
| step_write_temp table kind temp s o s' :
    in_tx faults (mintChangesFromTemp faults clock 0 table kind temp) s = (o, s') → log_step s s'
| step_prune now retention s o s' :
    in_tx faults (pruneChanges faults now retention) s = (o, s') → log_step s s'
| step_mint now position feed chain s o s' :
    sound_at s chain position →
    in_tx faults (mintCursorToken faults rand now position feed (Some chain)) s = (o, s') → log_step s s'
| step_resolve now retention tok feed s o s' :
    in_tx faults (resolveCursorToken faults now retention tok feed) s = (o, s') → log_step s s'
| step_catalog gens schemas nsgen s :
    log_step s (MkChangelog (cl_changes s) (cl_seq s) (cl_tokens s) (cl_next_commit s) gens schemas nsgen
                  (cl_calls s) (cl_draws s)).

(** One step, seen by a cursor: the log is well-formed after it; if the
    cursor is there before and after, it stands where it stood, and every
    change after it is kept; a change that is new has a new number. *)
Record fair (s s' : changelog) : Prop := {
  fa_wf : log_wf s';
  fa_seq : cl_seq s ≤ cl_seq s';
  fa_cursor tok row : cl_tokens s !! tok = Some row → is_Some (cl_tokens s' !! tok) →
    ∃ row', cl_tokens s' !! tok = Some row' ∧ same_cursor row row'
      ∧ ∀ seq c, cu_Position row < seq → cl_changes s !! seq = Some c → cl_changes s' !! seq = Some c;
  fa_new seq c : cl_changes s' !! seq = Some c → cl_changes s !! seq = Some c ∨ cl_seq s < seq }.

Lemma grows_fair s s' : log_wf s → grows s s' → fair s s'.
Proof.
  intros Hwf Hg. split; [by eapply grows_wf|by rewrite (gr_seq _ _ Hg)| |].
  - intros tok row Hr _. destruct (gr_kept _ _ Hg _ _ Hr) as (row' & ? & ?). exists row'. split_and!; [done..|].
    intros seq c _. by rewrite (gr_changes _ _ Hg).
  - intros seq c. rewrite (gr_changes _ _ Hg). by left.
Qed.

Lemma appended_fair s s' : log_wf s → appended s s' → fair s s'.
Proof.
  intros Hwf Ha. split; [by eapply appended_wf|by apply Ha| |].
  - intros tok row Hr _. exists row. rewrite (ap_tokens _ _ Ha). split_and!; [done|apply same_cursor_refl|].
    intros seq c _ Hc. apply (ap_kept _ _ Ha); [done|]. by eapply wf_changes.
  - intros seq c [H|H]%(ap_changes _ _ Ha); [by left|right; lia].
Qed.

Lemma grows_pruned_fair now retention s s1 s' : log_wf s → grows s s1 → pruned now retention s1 s' → fair s s'.
Proof.
  intros Hwf Hg Hp. assert (log_wf s1) as Hwf1 by (by eapply grows_wf).
  split; [by eapply pruned_wf|rewrite (pr_seq _ _ _ _ Hp), (gr_seq _ _ Hg); done| |].
  - intros tok row Hr [row2 Hr2]. destruct (gr_kept _ _ Hg _ _ Hr) as (row' & Hr' & Hc).
    pose proof Hr2 as [Hr3 _]%(pr_tokens _ _ _ _ Hp). rewrite Hr' in Hr3. injection Hr3 as ->.
    exists row2. split_and!; [done..|]. intros seq c Hs Hch. destruct Hc as (Hpos & _).
    eapply pruned_keeps; [done|done|done|lia|]. by rewrite (gr_changes _ _ Hg).
  - intros seq c [Hc _]%(pr_changes _ _ _ _ Hp). rewrite (gr_changes _ _ Hg) in Hc. by left.
Qed.

Lemma in_tx_fair {A} (body : logs A) s o s' :
  log_wf s → in_tx faults body s = (o, s') →
  (∀ a s1 s2, log_wf s1 → same_tables s s1 → body s1 = (Done a, s2) → fair s1 s2) → fair s s'.
Proof.
  intros Hwf [[Hs _]|(a & s1 & s2 & _ & H1 & _ & Hb & H2)]%in_tx_result Hbody.
  { apply grows_fair; [done|by apply same_tables_grows]. }
  pose proof (same_tables_wf _ _ H1 Hwf) as Hwf1.
  destruct (same_tables_inv _ _ H1) as (C1 & Q1 & T1 & _). destruct (same_tables_inv _ _ H2) as (C2 & Q2 & T2 & _).
  destruct (Hbody a s1 s2 Hwf1 H1 Hb) as [F1 F2 F3 F4].
  split; rewrite ?C1, ?Q1, ?T1, <-?C2, <-?Q2, <-?T2; [exact (same_tables_wf _ _ H2 F1)|exact F2|exact F3|exact F4].
Qed.

Lemma log_step_fair s s' : log_wf s → log_step s s' → fair s s'.
Proof.
  intros Hwf Hstep. revert Hwf.
  destruct Hstep as [now ret table from scope inc limit s0 o s0' H|table kind ids owners s0 o s0' H|table kind temp s0 o s0' H
    |now ret s0 o s0' H|now pos feed chain s0 o s0' Hp H|now ret tok feed s0 o s0' H|gens schemas nsgen s0];
    intros Hwf.
  - destruct o as [[records next]|e|].
    + apply ChangesSince_Done in H as (p & c & rows & s1 & Hr); [|done].
      eapply grows_pruned_fair; [done|apply Hr..].
    + apply grows_fair; [done|]. by eapply same_tables_grows, ChangesSince_Fail.
    + apply grows_fair; [done|]. by eapply same_tables_grows, ChangesSince_Fail.
  - eapply in_tx_fair; [done|done|]. intros a s1 s2 Hwf1 _ Hb. apply appended_fair; [done|]. by eapply mintChanges_appends.
  - eapply in_tx_fair; [done|done|]. intros a s1 s2 Hwf1 _ Hb. apply appended_fair; [done|]. by eapply mintChangesFromTemp_appends.
  - eapply in_tx_fair; [done|done|]. intros [] s1 s2 Hwf1 _ Hb%pruneChanges_Done.
    eapply grows_pruned_fair; [done|by apply same_tables_grows|done].
  - eapply in_tx_fair; [done|done|]. intros a s1 s2 Hwf1 Hq Hb. apply grows_fair; [done|].
    apply mint_stands in Hb as (? & _); [done|].
    destruct (same_tables_inv _ _ Hq) as (? & ? & _). by eapply sound_eq.
  - eapply in_tx_fair; [done|done|]. intros a s1 s2 Hwf1 _ (_ & _ & _ & Hb)%resolve_Done. apply grows_fair; [done|].
    by eapply alter_grows.
  - split; simpl; [|done| |by left].
    + destruct Hwf as [W1 W2 W3]. split; [done..|]. intros tok row Hr. apply (sound_eq s0); [done..|by apply (W3 tok)].
    + intros tok row Hr _. exists row. split_and!; [done|apply same_cursor_refl|done].
Qed.

(** The log of a namespace before its first write. *)
Definition new_log (gens : gmap string Z) (schemas : gmap string (option TableSchema)) (nsgen : option (list Z)) : changelog :=
  MkChangelog ∅ 0 ∅ 0 gens schemas nsgen 0 0.

Lemma new_log_wf gens schemas nsgen : log_wf (new_log gens schemas nsgen).
Proof. split; [done|intros ? ? H; cbn in H; by rewrite lookup_empty in H..]. Qed.

Lemma reachable_wf s s' : log_wf s → rtc log_step s s' → log_wf s'.
Proof. intros Hwf H. induction H as [|a b c Hab _ IH]; [done|]. apply IH. by eapply log_step_fair. Qed.

(** A step during which the cursor [tok] is not pruned. *)
Definition step_with (tok : string) (s s' : changelog) : Prop := log_step s s' ∧ is_Some (cl_tokens s' !! tok).

(** C15. A live cursor loses nothing.  In every execution from a new log of
    reads, writes, prunings at any times, subscriptions and catalogue changes,
    with any statement failing anywhere: as long as a cursor's token is in the
    table, it stands at the same position of the same feed, every change that
    was after it is still in the log, and a change that was not there has a
    number no change had before, so nothing slips in behind the cursor. *)
Theorem cursor_loses_nothing gens schemas nsgen tok row s s' :
  rtc log_step (new_log gens schemas nsgen) s →
  cl_tokens s !! tok = Some row →
  rtc (step_with tok) s s' →
  ∃ row', cl_tokens s' !! tok = Some row' ∧ same_cursor row row'
    ∧ (∀ seq c, cu_Position row < seq → cl_changes s !! seq = Some c → cl_changes s' !! seq = Some c)
    ∧ (∀ seq c, cl_changes s' !! seq = Some c → seq ≤ cl_seq s → cl_changes s !! seq = Some c).
Proof.
  intros Hreach Hr Hrun. assert (log_wf s) as Hwf by (eapply reachable_wf; [apply new_log_wf|exact Hreach]). clear Hreach.
  revert row Hr. induction Hrun as [s|a b c [Hab Hb] _ IH]; intros row Hr.
  { exists row. split_and!; [done|apply same_cursor_refl|done..]. }
  pose proof (log_step_fair _ _ Hwf Hab) as [F1 F2 F3 F4].
  destruct (F3 _ _ Hr Hb) as (row1 & Hr1 & Hc1 & Hk1).
  destruct (IH F1 _ Hr1) as (row2 & Hr2 & Hc2 & Hk2 & Hn2).
  exists row2. split_and!; [done|by eapply same_cursor_trans| |].
  - intros seq ch Hs Hch. apply Hk2; [|by apply Hk1]. destruct Hc1 as (<- & _). done.
  - intros seq ch Hch Hle. apply Hn2 in Hch; [|lia]. apply F4 in Hch as [?|?]; [done|lia].
Qed.

(** C30. What one successful read of a feed ([ChangesSince]) answers, in a
    log of any such execution: the first rows after the start position (of
    the cursor, or the head, or the oldest retained change), in the order of
    their numbers, that belong to the current lifetime of the table and that
    the row scope admits, at most the page limit of them; each with a cursor
    that stands at it; and a next cursor that stands at the last of them.  A
    scoped reader is refused while the feed holds a change without an owner
    ahead. *)
Theorem ChangesSince_exact gens schemas nsgen now retention table from scope inc limit s records next s' :
  rtc log_step (new_log gens schemas nsgen) s →
  ChangesSince faults rand now retention table from scope inc limit s = (Done (records, next), s') →
  ∃ position chain rows s1,
    starts now retention table from s position chain
    ∧ StronglySorted before rows
    ∧ (∃ rest, StronglySorted before (rows ++ rest)
         ∧ (Z.of_nat (length rows) < changesPageLimit limit → rest = [])
         ∧ ∀ x, x ∈ rows ++ rest ↔ position < x.1 ∧ cl_changes s !! x.1 = Some x.2
                  ∧ belongs table s x.2 ∧ admits scope x.2)
    ∧ Z.of_nat (length rows) ≤ changesPageLimit limit
    ∧ reads rand now retention table from scope limit s position chain rows records next s1 s'.
Proof.
  intros Hreach H. assert (log_wf s) as Hwf by (eapply reachable_wf; [apply new_log_wf|exact Hreach]).
  apply ChangesSince_Done in H as (p & c & rows & s1 & Hr); [|done].
  assert (0 < changesPageLimit limit) as Hlim.
  { unfold changesPageLimit, DefaultChangesPageLimit, MaxChangesPageLimit. repeat case_match; lia. }
  exists p, c, rows, s1. pose proof Hr as [R1 R2 _ _ _ _ _].
  set (n := Z.to_nat (changesPageLimit limit)) in *. set (all := rows_after _ _ _ _ _) in *.
  pose proof (rows_after_sorted p None (feed_of table s) scope s : StronglySorted before all) as Hsort.
  assert (rows ++ drop n all = all) as Hall by (rewrite R2; apply take_drop).
  split_and!; [done| | | |done].
  - rewrite <-Hall in Hsort. by apply StronglySorted_app_1_l in Hsort.
  - exists (drop n all). rewrite Hall. split_and!; [done| |].
    + intros Hlen. apply drop_ge. rewrite R2, length_take in Hlen. lia.
    + intros x. subst all. rewrite elem_of_rows_after, in_feed_spec, in_scope_spec. unfold within.
      rewrite andb_true_r, Z.ltb_lt. tauto.
  - rewrite R2, length_take. lia.
Qed.

(** ** Following a feed *)

(** The changes of a feed, visible to a scope, after [p] and up to [seq]. *)
Definition pending (feed : option changeFeed) (scope : option RowScope) (s : changelog) (p seq : Z) : gset Z :=
  dom (filter (λ x, p < x.1 ∧ x.1 ≤ seq ∧ in_feed feed x.2 = true ∧ in_scope scope x.2 = true) (cl_changes s)).

Lemma elem_of_pending feed scope s p seq q :
  q ∈ pending feed scope s p seq ↔
  ∃ c, cl_changes s !! q = Some c ∧ p < q ∧ q ≤ seq ∧ in_feed feed c = true ∧ in_scope scope c = true.
Proof.
  unfold pending. rewrite elem_of_dom. split.
  - intros [c [Hc Hp]%map_lookup_filter_Some]. by exists c.
  - intros (c & Hc & Hp). exists c. by apply map_lookup_filter_Some.
Qed.

Lemma pending_fair feed scope s s' p seq :
  fair s s' → seq ≤ cl_seq s → pending feed scope s' p seq ⊆ pending feed scope s p seq.
Proof.
  intros Hf Hle q (c & Hc & ? & ? & ? & ?)%elem_of_pending. apply elem_of_pending. exists c. split_and!; try done.
  apply (fa_new _ _ Hf) in Hc as [Hc|Hc]; [done|lia].
Qed.

(** The record of a change, under some cursor. *)
Definition delivered (seq : Z) (c : log_row) (records : list ChangeRecord) : Prop :=
  ∃ r, r ∈ records ∧ r = set_cursor (lc_rec (logged (seq, c))) (cr_Cursor r).

Lemma read_delivers now retention table tok scope limit s row chain rows records next s1 s' position seq c :
  log_wf s → tok ≠ "" → tok ≠ CursorBegin → cl_tokens s !! tok = Some row →
  reads rand now retention table tok scope limit s position chain rows records next s1 s' →
  cu_Position row < seq → cl_changes s !! seq = Some c →
  in_feed (feed_of table s) c = true → in_scope scope c = true →
  delivered seq c records
  ∨ ∃ row', cl_tokens s' !! next = Some row' ∧ minted rand next ∧ cu_Position row' < seq ∧ cl_changes s' !! seq = Some c
      ∧ pending (feed_of table s) scope s' (cu_Position row') seq ⊂ pending (feed_of table s) scope s (cu_Position row) seq.
Proof.
  intros Hwf Hne Hnb Hrow [R1 R2 _ R4 R5 R6 R7] Hseq Hc Hf Hsc.
  inversion R1 as [| |row0 _ _ Hrow0 _ Hexp]; subst; try done.
  rewrite Hrow in Hrow0. injection Hrow0 as <-.
  set (n := Z.to_nat (changesPageLimit limit)) in *. set (all := rows_after _ _ _ _ _) in *.
  assert ((seq, c) ∈ all) as Hin.
  { apply elem_of_rows_after. unfold within. simpl. rewrite andb_true_r, Z.ltb_lt. done. }
  pose proof (rows_after_sorted (cu_Position row) None (feed_of table s) scope s : StronglySorted before all) as Hsort.
  rewrite <-(take_drop n all) in Hin. apply elem_of_app in Hin as [Hin|Hin].
  { left. apply list_elem_of_lookup in Hin as [k Hk]. destruct (Forall2_lookup_l _ _ _ _ _ R5 Hk) as (r & Hr & Hrep & _).
    exists r. split; [by apply list_elem_of_lookup_2 in Hr|done]. }
  right. assert (0 < n)%nat as Hn.
  { subst n. unfold changesPageLimit, DefaultChangesPageLimit, MaxChangesPageLimit. repeat case_match; lia. }
  destruct (last (take n all)) as [x|] eqn:Hlast.
  2:{ apply last_None in Hlast. destruct all as [|y all']; [by rewrite drop_nil in Hin; apply elem_of_nil in Hin|].
      destruct n; [lia|done]. }
  destruct R6 as [[(row' & Hr' & Hp' & Hch & _ & Hi) Hmt]|[He _]]; [|by rewrite He in Hlast].
  unfold page_end in Hp'. rewrite Hlast in Hp'. apply last_Some_elem_of in Hlast as Hx.
  assert (x.1 < seq) as Hxs.
  { apply (StronglySorted_app_1_elem_of before (take n all) (drop n all) x (seq, c)); [by rewrite take_drop|done..]. }
  assert (x ∈ all) as Hxall by (rewrite <-(take_drop n all); apply elem_of_app; by left).
  apply elem_of_rows_after in Hxall as (Hxc & Hxw & Hxf & Hxsc). unfold within in Hxw.
  rewrite andb_true_r, Z.ltb_lt in Hxw.
  assert (log_wf s1) as Hwf1 by (by eapply grows_wf).
  assert (cl_tokens s' !! next = Some row') as Hr2.
  { apply (pr_tokens _ _ _ _ R7). split; [done|]. intros Hret. specialize (Hexp Hret). unfold expired in *.
    rewrite Hch. apply orb_false_iff in Hexp as [_ ->]. rewrite orb_false_r, Z.ltb_ge.
    assert (0 ≤ millis retention); [|lia]. unfold millis, Millisecond. apply Z.quot_pos; lia. }
  exists row'. split_and!; [done|done|lia| |].
  - eapply pruned_keeps; [done|done|done|lia|]. by rewrite (gr_changes _ _ R4).
  - rewrite Hp'. split.
    + intros q (d & Hd & ? & ? & ? & ?)%elem_of_pending. apply (pr_changes _ _ _ _ R7) in Hd as [Hd _].
      rewrite (gr_changes _ _ R4) in Hd. apply elem_of_pending. exists d. split_and!; try done; lia.
    + intros Hsub. assert (x.1 ∈ pending (feed_of table s) scope s (cu_Position row) seq) as Hxp.
      { apply elem_of_pending. exists x.2. split_and!; try done; lia. }
      apply Hsub, elem_of_pending in Hxp as (d & _ & ? & _). lia.
Qed.

Lemma minted_name tok : (∀ k raw, rand k = Some raw → length raw = cursorTokenBytes) → minted rand tok → tok ≠ "" ∧ tok ≠ CursorBegin.
Proof.
  intros Hr (k & raw & Hk & ->). apply Hr in Hk.
  do 16 (destruct raw as [|? raw]; [done|]). split; [done|]. intros H. by injection H.
Qed.

(** A reader that follows one feed: between its reads anything may happen
    that keeps its cursor, and each successful read is followed by one from
    the next cursor.  [polls n] has [n] reads and answers their records. *)
Inductive polls (retention : Z) (table : string) (scope : option RowScope) :
    nat → changelog → string → list ChangeRecord → changelog → Prop :=
| polls_done s tok : polls retention table scope 0 s tok [] s
| polls_wait n s tok s1 records s2 :
    step_with tok s s1 → feed_of table s1 = feed_of table s →
    polls retention table scope n s1 tok records s2 → polls retention table scope n s tok records s2
| polls_read n s tok now inc limit records next s1 rest s2 :
    ChangesSince faults rand now retention table tok scope inc limit s = (Done (records, next), s1) →
    polls retention table scope n s1 next rest s2 → polls retention table scope (S n) s tok (records ++ rest) s2.

Lemma reads_feed now retention table tok scope limit s p c rows records next s1 s' :
  reads rand now retention table tok scope limit s p c rows records next s1 s' → feed_of table s' = feed_of table s.
Proof.
  intros [_ _ _ [_ _ G4 _ G6 _ _] _ _ [_ P2 _ P4 _ _]]. unfold feed_of, nsgen_of. by rewrite P2, P4, G4, G6.
Qed.

Lemma polls_deliver retention table scope n s tok records s' row seq c :
  (∀ k raw, rand k = Some raw → length raw = cursorTokenBytes) →
  polls retention table scope n s tok records s' →
  log_wf s → minted rand tok → cl_tokens s !! tok = Some row → cu_Position row < seq → cl_changes s !! seq = Some c →
  in_feed (feed_of table s) c = true → in_scope scope c = true →
  (size (pending (feed_of table s) scope s (cu_Position row) seq) ≤ n)%nat →
  delivered seq c records.
Proof.
  intros Hrand Hp. revert row. induction Hp as [s tok|n s tok s1 records s2 [Hstep Hst] Hfeed _ IH|n s tok now inc limit records next s1 rest s2 Hread _ IH];
    intros row Hwf Hmt Hrow Hseq Hc Hf Hsc Hsize.
  - assert (seq ∈ pending (feed_of table s) scope s (cu_Position row) seq) as Hin.
    { apply elem_of_pending. exists c. split_and!; try done; lia. }
    assert (size (pending (feed_of table s) scope s (cu_Position row) seq) = 0)%nat as H0 by lia.
    apply size_empty_inv in H0. set_solver.
  - pose proof (log_step_fair _ _ Hwf Hstep) as Hfair. destruct (wf_changes _ Hwf _ _ Hc) as [_ Hle].
    destruct (fa_cursor _ _ Hfair _ _ Hrow Hst) as (row1 & Hrow1 & (Hpos & _) & Hkeep).
    rewrite <-Hfeed in Hf, Hsize. apply (IH row1); try done; [apply Hfair|lia|by apply Hkeep|].
    rewrite <-Hpos. etrans; [|exact Hsize]. apply subseteq_size. by apply pending_fair.
  - destruct (minted_name tok Hrand Hmt) as [Hne Hnb].
    apply ChangesSince_Done in Hread as (p & ch & rows & s3 & Hr); [|done].
    assert (p = cu_Position row) as ->.
    { destruct Hr as [R1 _ _ _ _ _ _]. inversion R1 as [| |row0 _ _ Hrow0]; subst; try done. congruence. }
    pose proof (reads_feed _ _ _ _ _ _ _ _ _ _ _ _ _ _ Hr) as Hfeed.
    destruct (read_delivers _ _ _ _ _ _ _ _ _ _ _ _ _ _ _ _ _ Hwf Hne Hnb Hrow Hr Hseq Hc Hf Hsc)
      as [(r & Hin & Hre)|(row' & Hrow' & Hmt' & Hlt & Hc' & Hsub)].
    { exists r. split; [|done]. apply elem_of_app. by left. }
    assert (log_wf s1) as Hwf1.
    { eapply pruned_wf; [|apply Hr]. eapply grows_wf; [apply Hr|done]. }
    rewrite <-Hfeed in Hf. apply subset_size in Hsub. rewrite <-Hfeed in Hsub at 1.
    assert (delivered seq c rest) as (r & Hin & Hre).
    { apply (IH row'); try done. rewrite <-Hfeed in Hsize. rewrite Hfeed in Hsub |- *. rewrite Hfeed in Hsize. lia. }
    exists r. split; [|done]. apply elem_of_app. by right.
Qed.

(** C12. Following a feed reaches every change.  In an execution from a new
    log, take a cursor and a change of its feed after it that the reader may
    see.  A reader who reads from the cursor, then from each next cursor,
    while writers, prunings, subscriptions and other readers go on in between
    (as long as its cursor is not pruned and the table is not dropped), has
    been given a record of that change after as many successful reads as
    there are visible changes up to it, at any page limits. *)
Theorem following_reaches gens schemas nsgen retention table scope n s tok records s' row seq c :
  (∀ k raw, rand k = Some raw → length raw = cursorTokenBytes) →
  rtc log_step (new_log gens schemas nsgen) s →
  minted rand tok → cl_tokens s !! tok = Some row →
  cu_Position row < seq → cl_changes s !! seq = Some c →
  belongs table s c → admits scope c →
  polls retention table scope n s tok records s' →
  (size (pending (feed_of table s) scope s (cu_Position row) seq) ≤ n)%nat →
  delivered seq c records.
Proof.
  intros Hrand Hreach Hmt Hrow Hseq Hc Hf%in_feed_spec Hsc%in_scope_spec Hp Hn. eapply polls_deliver; try done.
  eapply reachable_wf; [apply new_log_wf|done].
Qed.
End Theorems.

(** ** Concrete executions *)

Definition no_faults : nat → bool := λ _, false.
Definition noon : Z := 1700000000000000000.
Definition minute : Z := 60000000000.
Definition sqlite_clock : nat → Z := λ _, UnixMilli noon.
Definition counter : nat → option (list Z) := λ k, Some (replicate 15 0 ++ [Z.of_nat k]).
Definition notes_table : TableSchema := MkTable "app" "notes" 1 [] "" 0 "" false [] false None.
Definition empty_log : changelog := new_log ∅ {["notes" := Some notes_table]} (Some (replicate 16 7)).
Definition write_three := in_tx no_faults (mintChanges no_faults sqlite_clock 0 "notes" ChangeInsert [10; 20; 30] None) empty_log.
Definition first_read := ChangesSince no_faults counter noon minute "notes" CursorBegin None zero_incarnation 1 write_three.2.
Definition first_cursor : string := match first_read.1 with Done (_, next) => next | _ => "" end.
Definition late_prune := in_tx no_faults (pruneChanges no_faults (noon + 30 * 1000000000) minute) first_read.2.
Definition read_from (tok : string) (s : changelog) :=
  ChangesSince no_faults counter (noon + 30 * 1000000000) minute "notes" tok None zero_incarnation 1 s.
Definition second_read := read_from first_cursor late_prune.2.
Definition second_cursor : string := match second_read.1 with Done (_, next) => next | _ => "" end.
Definition third_read := read_from second_cursor second_read.2.
Definition records_of (r : outcome change_error (list ChangeRecord * string) * changelog) : list ChangeRecord :=
  match r.1 with Done (records, _) => records | _ => [] end.
Definition row_of (s : changelog) (tok : string) : cursorRow :=
  default (MkCursorRow 0 0 (MkChain "" 0 0) "") (cl_tokens s !! tok).

(** The conversion test unfolds these names before it evaluates them. *)
#[local] Strategy expand [write_three first_read late_prune read_from second_read third_read empty_log].

(** Three writes, read one at a time. *)
Example log_sample :
  map cr_RowID (records_of first_read ++ records_of second_read ++ records_of third_read) = [10; 20; 30]
  ∧ cu_Position (row_of late_prune.2 first_cursor) = 1.
Proof. vm_compute. done. Qed.

Lemma written : rtc (log_step no_faults sqlite_clock counter) empty_log write_three.2.
Proof. apply rtc_once. eapply step_write. apply surjective_pairing. Qed.
Lemma read_once : rtc (log_step no_faults sqlite_clock counter) empty_log first_read.2.
Proof. eapply rtc_r; [apply written|]. eapply step_read. apply surjective_pairing. Qed.

Lemma cursor_loses_nothing_witness :
  ∃ row', cl_tokens late_prune.2 !! first_cursor = Some row' ∧ same_cursor (row_of first_read.2 first_cursor) row'
    ∧ (∀ seq c, cu_Position (row_of first_read.2 first_cursor) < seq →
        cl_changes first_read.2 !! seq = Some c → cl_changes late_prune.2 !! seq = Some c)
    ∧ (∀ seq c, cl_changes late_prune.2 !! seq = Some c → seq ≤ cl_seq first_read.2 → cl_changes first_read.2 !! seq = Some c).
Proof.
  refine (cursor_loses_nothing no_faults sqlite_clock counter _ _ _ first_cursor _ _ _ read_once _ _).
  - vm_compute. reflexivity.
  - apply rtc_once. split; [eapply step_prune; apply surjective_pairing|]. vm_compute. by eexists.
Defined.

Lemma ChangesSince_exact_witness :
  ∃ position chain rows s1,
    starts noon minute "notes" CursorBegin write_three.2 position chain
    ∧ StronglySorted before rows
    ∧ (∃ rest, StronglySorted before (rows ++ rest)
         ∧ (Z.of_nat (length rows) < changesPageLimit 1 → rest = [])
         ∧ ∀ x, x ∈ rows ++ rest ↔ position < x.1 ∧ cl_changes write_three.2 !! x.1 = Some x.2
                  ∧ belongs "notes" write_three.2 x.2 ∧ admits None x.2)
    ∧ Z.of_nat (length rows) ≤ changesPageLimit 1
    ∧ reads counter noon minute "notes" CursorBegin None 1 write_three.2 position chain rows
        (records_of first_read) first_cursor s1 first_read.2.
Proof.
  refine (ChangesSince_exact no_faults sqlite_clock counter _ _ _ noon minute "notes" CursorBegin None zero_incarnation 1
    write_three.2 (records_of first_read) first_cursor first_read.2 written _).
  vm_compute. reflexivity.
Defined.

Definition third_cursor : string := match third_read.1 with Done (_, next) => next | _ => "" end.
Lemma second_poll :
  ChangesSince no_faults counter (noon + 30 * 1000000000) minute "notes" first_cursor None zero_incarnation 1 late_prune.2
  = (Done (records_of second_read, second_cursor), second_read.2).
Proof. vm_compute. reflexivity. Qed.
Lemma third_poll :
  ChangesSince no_faults counter (noon + 30 * 1000000000) minute "notes" second_cursor None zero_incarnation 1 second_read.2
  = (Done (records_of third_read, third_cursor), third_read.2).
Proof. vm_compute. reflexivity. Qed.

Lemma following_reaches_witness : ∃ c, delivered 3 c (records_of second_read ++ records_of third_read ++ []).
Proof.
  exists (MkLogRow "notes" 30 ChangeInsert None (Some 1) (replicate 16 7) 0 (UnixMilli noon)).
  refine (following_reaches no_faults sqlite_clock counter ∅ {["notes" := Some notes_table]} (Some (replicate 16 7))
    minute "notes" None 2 first_read.2 first_cursor _ third_read.2 (row_of first_read.2 first_cursor) 3 _ _ read_once _ _ _ _ _ _ _ _).
  - intros k raw [= <-]. reflexivity.
  - exists 2%nat, (replicate 15 0 ++ [2]). split; vm_compute; reflexivity.
  - vm_compute. reflexivity.
  - vm_compute. reflexivity.
  - vm_compute. reflexivity.
  - right. split_and!; vm_compute; reflexivity.
  - intros sc [=].
  - apply (polls_wait _ _ _ _ _ _ _ _ _ late_prune.2).
    + split; [eapply step_prune; apply surjective_pairing|]. vm_compute. by eexists.
    + vm_compute. reflexivity.
    + exact (polls_read _ _ _ _ _ _ _ _ _ _ _ _ _ _ _ _ _ second_poll
               (polls_read _ _ _ _ _ _ _ _ _ _ _ _ _ _ _ _ _ third_poll (polls_done _ _ _ _ _ _ _ _))).
  - vm_compute. lia.
Defined.
