(* ===== verification/MigrateStaged.v ===== *)
(** * Carrying out a migration ([internal/store/migrate.go],
    [migrate_staged.go], [embed_stage.go])

    A migration of a table that embeds a text first computes the vectors, page
    by page, and stages them in a table of their own while other clients go on
    writing; then one transaction plans again, checks that every row's vector
    is staged for the text it holds now, changes the table and stamps the
    vectors.  Where a row changed under it the whole is tried again, a bounded
    number of times. *)
From Stdlib Require Import ZArith QArith Qcanon Lia Ascii String.
From stdpp Require Import base gmap strings list sorting.
From S2P Require Import Prelude GoStrings AuthIdentity SchemaIdent Schema SchemaConstraints Authz.
From S2P Require Import ConstraintValues ConstraintPlans TableEngine Migrate Changelog.
Local Open Scope Z_scope.

Definition embedBackfillPage : nat := 128.
Definition maxMigrateAttempts : nat := 3.
Definition stageLookupChunk : nat := 500.

Inductive staged_error :=
| Refused (e : migrate_error) | RetryActivation | MigrationConflict | TableMissing
| NoProvider | NoProviderIdentity | ProviderChanged (was now : string)
| EmbeddingFailed | EmbeddingCount (got want : nat) | ZeroVector | NonFiniteVector | WrongDimension (got want : Z)
| BackfillZeroVector | BackfillNonFinite | BackfillDimension (got want : Z)
| StepFailed | SecretsNeedKey (n : string) | ScopeNeedsOwner | ScopeOfOtherTable | ScopeChanged.

(** A row of [_dolmen_embed_stage]; a digest is the text of its 32 bytes. *)
Record stage_row := MkStage {
  sg_table : string; sg_gen : Z; sg_id : Z; sg_provider : string; sg_digest : string; sg_vector : list Z }.
(** A vector is the list of its [float32] words. *)
Record stagedVector := MkStaged { sv_id : Z; sv_digest : string; sv_vec : list Z }.

(** What the file of the namespace holds of the table.  [ns_stage]: the staged
    vectors, if their table was made; [ns_vectors]: the column [_embedding], if
    it was added, with the rows where it is not NULL; [ns_index]: the columns
    of the full-text index and its rows; [ns_reader]: the catalogue asks for a
    reader that knows constraints. *)
Record nsfile (DB : Type) := MkNs {
  ns_gen : list Z; ns_dropGen : Z; ns_schema : option TableSchema; ns_rows : DB;
  ns_changes : gmap Z log_row; ns_stage : option (list stage_row); ns_vectors : option (gmap Z (list Z));
  ns_index : option (list string * list (Z * list sqlval)); ns_migrations : list (Z * Z); ns_reader : bool }.
Arguments MkNs {DB}. Arguments ns_gen {DB}. Arguments ns_dropGen {DB}. Arguments ns_schema {DB}. Arguments ns_rows {DB}.
Arguments ns_changes {DB}. Arguments ns_stage {DB}. Arguments ns_vectors {DB}. Arguments ns_index {DB}.
Arguments ns_migrations {DB}. Arguments ns_reader {DB}.

Definition with_stage {DB} l (ns : nsfile DB) : nsfile DB :=
  MkNs (ns_gen ns) (ns_dropGen ns) (ns_schema ns) (ns_rows ns) (ns_changes ns) l (ns_vectors ns) (ns_index ns) (ns_migrations ns) (ns_reader ns).
Definition with_vectors {DB} v (ns : nsfile DB) : nsfile DB :=
  MkNs (ns_gen ns) (ns_dropGen ns) (ns_schema ns) (ns_rows ns) (ns_changes ns) (ns_stage ns) v (ns_index ns) (ns_migrations ns) (ns_reader ns).
Definition with_rows {DB} (d : DB) (ns : nsfile DB) : nsfile DB :=
  MkNs (ns_gen ns) (ns_dropGen ns) (ns_schema ns) d (ns_changes ns) (ns_stage ns) (ns_vectors ns) (ns_index ns) (ns_migrations ns) (ns_reader ns).
Definition with_index {DB} i (ns : nsfile DB) : nsfile DB :=
  MkNs (ns_gen ns) (ns_dropGen ns) (ns_schema ns) (ns_rows ns) (ns_changes ns) (ns_stage ns) (ns_vectors ns) i (ns_migrations ns) (ns_reader ns).
Definition with_schema {DB} (sc : TableSchema) (from : Z) (ns : nsfile DB) : nsfile DB :=
  MkNs (ns_gen ns) (ns_dropGen ns) (Some sc) (ns_rows ns) (ns_changes ns) (ns_stage ns) (ns_vectors ns) (ns_index ns)
    (ns_migrations ns ++ [(from, t_Version sc)]) (ns_reader ns).
Definition with_reader {DB} (ns : nsfile DB) : nsfile DB :=
  MkNs (ns_gen ns) (ns_dropGen ns) (ns_schema ns) (ns_rows ns) (ns_changes ns) (ns_stage ns) (ns_vectors ns) (ns_index ns) (ns_migrations ns) true.

(** [r_calls] numbers the statements and the calls of the provider, [r_txs] the
    transactions. *)
Record run (DB : Type) := MkRun { r_ns : nsfile DB; r_calls : nat; r_txs : nat }.
Arguments MkRun {DB}. Arguments r_ns {DB}. Arguments r_calls {DB}. Arguments r_txs {DB}.

(** ** The digests and vectors of the stage *)

Definition digestSize : nat := 32.
(** [decodeStageVector]; nil where the blob is no vector. *)
Definition decodeStageVector (b : list Z) : list Z := default [] (DecodeVector b).

(** A [float32] word that is a NaN or an infinity: its exponent is all ones. *)
Definition nonfinite32 (w : Z) : bool := Z.land (Z.shiftr w 23) 255 =? 255.

(** The loop over the vectors of [embedTexts] and of [checkBackfillVectors]:
    the dimension after it. *)
Fixpoint check_vectors (zero nonfinite : staged_error) (wrong : Z → Z → staged_error) (dim : Z) (vecs : list (list Z))
    : outcome staged_error Z :=
  match vecs with
  | [] => Done dim
  | v :: vecs =>
      let n := Z.of_nat (length v) in
      if n =? 0 then Fail zero
      else if existsb nonfinite32 v then Fail nonfinite
      else if dim =? 0 then check_vectors zero nonfinite wrong n vecs
      else if n =? dim then check_vectors zero nonfinite wrong dim vecs
      else Fail (wrong n dim)
  end.
Definition checkBackfillVectors := check_vectors BackfillZeroVector BackfillNonFinite BackfillDimension.

Definition staged_here (tbl : string) (gen : Z) (prov : string) (r : stage_row) : bool :=
  String.eqb (sg_table r) tbl && (sg_gen r =? gen) && String.eqb (sg_provider r) prov.
Definition stage_le (a b : stage_row) : Prop := sg_id a < sg_id b ∨ sg_id a = sg_id b ∧ str_le (sg_digest a) (sg_digest b).
#[export] Instance stage_le_dec : RelDecision stage_le.
Proof. intros a b. unfold stage_le, str_le. apply _. Defined.

(** One row of the loop of [loadStagedVectors]. *)
Definition load_row (out : gmap Z stagedVector) (r : stage_row) : gmap Z stagedVector :=
  let v := decodeStageVector (sg_vector r) in
  if negb (String.length (sg_digest r) =? digestSize)%nat then out
  else if (length v =? 0)%nat then out
  else if bool_decide (is_Some (out !! sg_id r)) then out
  else <[sg_id r := MkStaged (sg_id r) (sg_digest r) v]> out.
Definition stage_of (tbl : string) (gen : Z) (prov : string) (l : list Z) (stage : list stage_row) : list stage_row :=
  List.filter (λ r, staged_here tbl gen prov r && bool_decide (sg_id r ∈ l)) stage.
Definition load_stage (tbl : string) (gen : Z) (prov : string) (l : list Z) (stage : option (list stage_row)) : gmap Z stagedVector :=
  match l, stage with
  | [], _ | _, None => ∅
  | _, Some stage => foldl load_row ∅ (merge_sort stage_le (stage_of tbl gen prov l stage))
  end.

(** One turn of the loop of [writeStagedVectors]. *)
Definition stage_one (tbl : string) (gen : Z) (prov : string) (stage : list stage_row) (v : stagedVector) : list stage_row :=
  List.filter (λ r, negb (staged_here tbl gen prov r && (sg_id r =? sv_id v))) stage
  ++ [MkStage tbl gen (sv_id v) prov (sv_digest v) (EncodeVector (sv_vec v))].

(** What surrounds a migration.  [textDigest] is SHA-256 and [Embed] the
    provider, by the number of the call.  [others n]: what other clients commit
    before the transaction [n] begins.  [failing]: which statements fail; the
    next five are what a plan of the transaction [n] meets beside the table, as
    in [planMigration].  [has_embedder] and [provider]: whether a provider is
    configured, and its identity; [has_keys]: whether secrets can be encrypted. *)
Class Surroundings (DB : Type) := {
  textDigest : string → string;
  Embed : nat → list string → option (list (list Z));
  others : nat → nsfile DB → nsfile DB;
  failing : nat → bool;
  plan_failing : nat → nat → bool;
  plan_polls : nat → nat → polls;
  plan_naming : nat → nat → nat → ctx;
  plan_final : nat → oracle;
  other_tables : nat → catalog;
  has_embedder : bool;
  provider : string;
  has_keys : bool;
  nsName : string;
  table : string }.

Definition staged (DB A : Type) : Type := act (run DB) staged_error A.

Section Staged.
Context {DB : Type} {E : Engine DB} {UT : UnicodeTables} {W : Surroundings DB}.

#[local] Abbreviation st := (staged DB).

(** ** Statements and transactions *)

Definition at_ns (ns : nsfile DB) (s : run DB) : run DB := MkRun ns (r_calls s) (r_txs s).
Definition called (s : run DB) : run DB := MkRun (r_ns s) (S (r_calls s)) (r_txs s).
Definition stmt {A} (f : nsfile DB → outcome staged_error (A * nsfile DB)) : st A := λ s,
  if failing (r_calls s) then (Fail (Refused DBError), called s)
  else match f (r_ns s) with
       | Done (a, ns) => (Done a, at_ns ns (called s))
       | Fail e => (Fail e, called s)
       | OutOfFuel => (OutOfFuel, called s)
       end.
Definition ask {A} (f : nsfile DB → outcome staged_error A) : st A := stmt (λ ns, let! a := f ns in Done (a, ns)).
Definition write (f : nsfile DB → nsfile DB) : st () := stmt (λ ns, Done ((), f ns)).
(** An update of the column [_embedding]. *)
Definition update_vectors (f : nsfile DB → gmap Z (list Z) → gmap Z (list Z)) : st () :=
  stmt (λ ns, match ns_vectors ns with
              | Some m => Done ((), with_vectors (Some (f ns m)) ns)
              | None => Fail (Refused DBError)
              end).
Definition answer {A} (o : outcome staged_error A) : st A := λ s, (o, s).
Definition now : st (nsfile DB) := λ s, (Done (r_ns s), s).
Definition refused {A} (o : outcome migrate_error A) : outcome staged_error A := lift_error Refused o.

Definition begin_tx : st () := λ s,
  ask (λ _, Done ()) (MkRun (others (r_txs s) (r_ns s)) (r_calls s) (S (r_txs s))).
(** A transaction that only reads, and one that commits what its body wrote or
    nothing. *)
Definition read_tx {A} (body : st A) : st A := do! _ := begin_tx in body.
Definition write_tx {A} (body : st A) : st A := λ s,
  match begin_tx s with
  | (Done _, s1) =>
      match (do! a := body in do! _ := ask (λ _, Done ()) in aret a) s1 with
      | (Done a, s2) => (Done a, s2)
      | (o, s2) => (o, at_ns (r_ns s1) s2)
      end
  | (Fail e, s1) => (Fail e, s1)
  | (OutOfFuel, s1) => (OutOfFuel, s1)
  end.
(** What the caller makes of [errMigrateRetry]. *)
Definition retrying {A} (m : st A) : st (option A) := λ s,
  match m s with
  | (Done a, s') => (Done (Some a), s')
  | (Fail RetryActivation, s') => (Done None, s')
  | (Fail e, s') => (Fail e, s')
  | (OutOfFuel, s') => (OutOfFuel, s')
  end.

Definition loadSchema : st TableSchema :=
  ask (λ ns, match ns_schema ns with Some sc => Done sc | None => Fail TableMissing end).
Definition tableGen : st Z := ask (λ ns, Done (ns_dropGen ns)).
Definition readNSGen : st (list Z) := ask (λ ns, Done (ns_gen ns)).
Definition changeHead : st Z := ask (λ ns, Done (default 0 (max_of (map fst (map_to_list (ns_changes ns)))))).
Definition loadStagedVectors (gen : Z) (l : list Z) : st (gmap Z stagedVector) :=
  ask (λ ns, Done (load_stage table gen provider l (ns_stage ns))).

(** ** The version and the lifetime a caller names *)

Definition tableReplaced : staged_error := Refused TableReplaced.
Definition zero_gen : list Z := replicate 16 0.
Definition bound_lifetime (want : Incarnation) : bool :=
  bool_decide (i_NsGen want ≠ zero_gen) || negb (String.eqb (i_Table want) "") || negb (i_DropGen want =? 0).
Definition checkBoundLifetime (want : Incarnation) : st () :=
  if negb (bound_lifetime want) then aret ()
  else if negb (String.eqb (i_Table want) "") && negb (String.eqb (i_Table want) table) then afail tableReplaced
  else
    do! gen := readNSGen in
    do! dropGen := tableGen in
    if bool_decide (i_NsGen want ≠ zero_gen) && bool_decide (i_NsGen want ≠ gen) then afail tableReplaced
    else if negb (i_DropGen want =? dropGen) then afail tableReplaced
    else aret ().
Definition checkScopeIncarnation (want : Incarnation) : st () :=
  if bool_decide (want = zero_incarnation) then aret ()
  else if negb (String.eqb (i_Table want) table) then afail ScopeOfOtherTable
  else
    do! sc := loadSchema in
    do! dropGen := tableGen in
    do! gen := readNSGen in
    if bool_decide (MkIncarnation gen table (t_Version sc) dropGen ≠ want) then afail ScopeChanged else aret ().
Definition scopeUsable (scope : option RowScope) (sc : TableSchema) : outcome staged_error () :=
  match scope with
  | Some s => if negb (rs_Empty s) && negb (t_HasOwner sc) then Fail ScopeNeedsOwner else Done ()
  | None => Done ()
  end.

(** [planMigration] in the transaction that runs. *)
Definition plan_now (scope : option RowScope) (old : TableSchema) (changes : list Change) (expected : Incarnation) : st migrationWork :=
  λ s, let n := r_txs s in
    (refused (planMigration (plan_failing n) (plan_polls n) (plan_naming n) (plan_final n) (other_tables n) (ns_rows (r_ns s)) has_embedder provider scope
                nsName table old changes (i_Version expected)), s).

(** ** Reading the texts and embedding them *)

(** [stagedSourcePage], and [backfillPage] where no row is hidden. *)
Definition source_rows (column : string) (after : Z) (scope : option RowScope) (d : DB) : list Z :=
  List.filter (λ id, (after <? id) && has_text d column id && visible d scope id) (ids d).
Definition source_page (column : string) (after : Z) (scope : option RowScope) : st (list (Z * string)) :=
  ask (λ ns, match mapM (λ id, pair id <$> scan_text (cell (ns_rows ns) id column))
                     (firstn embedBackfillPage (source_rows column after scope (ns_rows ns))) with
             | Some page => Done page
             | None => Fail (Refused DBError)
             end).
Definition backfillPage (column : string) (after : Z) : st (list (Z * string)) := read_tx (source_page column after None).

Definition embedTexts (sc : TableSchema) (texts : list string) : st (list (list Z) * Z) := λ s,
  if negb has_embedder then (Fail NoProvider, s)
  else if String.eqb provider "" then (Fail NoProviderIdentity, s)
  else if negb (String.eqb (t_EmbedSpace sc) "") && negb (String.eqb (t_EmbedSpace sc) provider)
  then (Fail (ProviderChanged (t_EmbedSpace sc) provider), s)
  else match Embed (r_calls s) texts with
       | None => (Fail EmbeddingFailed, called s)
       | Some vecs =>
           if negb (length vecs =? length texts)%nat then (Fail (EmbeddingCount (length vecs) (length texts)), called s)
           else (let! dim := check_vectors ZeroVector NonFiniteVector WrongDimension (t_EmbedDim sc) vecs in Done (vecs, dim),
                 called s)
       end.

(** [textDigest(texts[i])] is the digest staged for the row. *)
Definition is_staged (now : gmap Z stagedVector) (row : Z * string) : bool :=
  match now !! row.1 with Some held => String.eqb (sv_digest held) (textDigest row.2) | None => false end.

(** ** Staging *)

Definition writeStagedVectors (gen : Z) (batch : list stagedVector) : st () :=
  match batch with
  | [] => aret ()
  | _ => write (λ ns, with_stage (Some (foldl (stage_one table gen provider) (default [] (ns_stage ns)) batch)) ns)
  end.
Definition stagePage (gen : Z) (batch : list stagedVector) : st () := write_tx (writeStagedVectors gen batch).
Definition to_stage (rows : list (Z * string)) (vecs : list (list Z)) : list stagedVector :=
  zip_with (λ (row : Z * string) v, MkStaged row.1 (textDigest row.2) v) rows vecs.

(** The texts of a page that are not staged yet; [dim] is the dimension of the
    planned declaration, which the loop writes. *)
Definition stage_fresh (cur : TableSchema) (gen : Z) (dim : Z) (fresh : list (Z * string)) : st Z :=
  match fresh with
  | [] => aret dim
  | _ =>
      do! (vecs, dim) := embedTexts (with_embedding (t_EmbedSpace cur) dim cur) (map snd fresh) in
      do! dim := answer (checkBackfillVectors dim vecs) in
      do! _ := stagePage gen (to_stage fresh vecs) in
      aret dim
  end.
Fixpoint stage_pages (fuel : nat) (cur : TableSchema) (column : string) (gen : Z) (dim : Z) (after : Z) : st () :=
  match fuel with
  | O => answer OutOfFuel
  | S fuel =>
      do! page := backfillPage column after in
      match last page with
      | None => aret ()
      | Some (lastID, _) =>
          do! stagedNow := read_tx (loadStagedVectors gen (map fst page)) in
          do! dim := stage_fresh cur gen dim (List.filter (λ row, negb (is_staged stagedNow row)) page) in
          stage_pages fuel cur column gen dim lastID
      end
  end.
Definition stageBackfill (fuel : nat) (m : migrationWork) (gen : Z) : st (option (list Z)) :=
  let e := m_embed m in
  if negb (String.eqb (e_constant e) "") then
    do! (vecs, _) := embedTexts (m_cur m) [e_constant e] in aret (head vecs)
  else if negb (e_hasSource e) then aret None
  else do! _ := stage_pages fuel (m_cur m) (e_source e) gen (t_EmbedDim (m_cur m)) 0 in aret None.

(** ** Is every row staged? *)

(** The pages of [coverageCheck] are read as the rows are now, the staged
    vectors in the transaction it began, whose file is [snap]. *)
Fixpoint cover_pages (fuel : nat) (snap : nsfile DB) (column : string) (gen : Z) (after : Z) : st () :=
  match fuel with
  | O => answer OutOfFuel
  | S fuel =>
      do! page := backfillPage column after in
      match last page with
      | None => aret ()
      | Some (lastID, _) =>
          do! staged := ask (λ _, Done (load_stage table gen provider (map fst page) (ns_stage snap))) in
          if forallb (is_staged staged) page then cover_pages fuel snap column gen lastID else afail RetryActivation
      end
  end.
Definition coverageCheck (fuel : nat) (m : migrationWork) (gen : Z) : st Z :=
  let e := m_embed m in
  if negb (e_embedding e) then aret 0
  else
    do! _ := begin_tx in
    do! snap := now in
    do! head := changeHead in
    if negb (String.eqb (e_constant e) "") || String.eqb (e_source e) "" then aret head
    else do! _ := cover_pages fuel snap (e_source e) gen 0 in aret head.

(** The rows a change between two positions of the log touched. *)
Definition touched (gen from to : Z) (ns : nsfile DB) : list Z :=
  remove_dups (omap (λ c : Z * log_row,
    if String.eqb (lr_table c.2) table && (lr_drop_gen c.2 =? gen) && (from <? c.1) && (c.1 <=? to) then Some (lr_row_id c.2) else None)
    (map_to_list (ns_changes ns))).
Definition row_missing (column : string) (staged : gmap Z stagedVector) (ns : nsfile DB) (id : Z) : bool :=
  bool_decide (id ∈ ids (ns_rows ns)) &&
  match scan_text (cell (ns_rows ns) id column) with
  | Some text => negb (String.eqb text "") && negb (is_staged staged (id, text))
  | None => false
  end.
Fixpoint anyRowMissing (column : string) (staged : gmap Z stagedVector) (l : list Z) : st bool :=
  match l with
  | [] => aret false
  | id :: l =>
      do! missing := ask (λ ns, Done (row_missing column staged ns id)) in
      if missing then aret true else anyRowMissing column staged l
  end.
Fixpoint stale_chunks (fuel : nat) (gen : Z) (column : string) (l : list Z) : st bool :=
  match l, fuel with
  | [], _ => aret false
  | _, O => answer OutOfFuel
  | _, S fuel =>
      let chunk := firstn stageLookupChunk l in
      do! staged := loadStagedVectors gen chunk in
      do! missing := anyRowMissing column staged chunk in
      if missing then aret true else stale_chunks fuel gen column (skipn stageLookupChunk l)
  end.
Definition rowsStaleSince (gen : Z) (column : string) (from to : Z) : st bool :=
  if to <=? from then aret false
  else do! l := ask (λ ns, Done (touched gen from to ns)) in stale_chunks (length l) gen column l.

(** ** Stamping *)

Definition put_vector (id : Z) (v : list Z) (ns : nsfile DB) (m : gmap Z (list Z)) : gmap Z (list Z) :=
  if bool_decide (id ∈ ids (ns_rows ns)) then <[id := EncodeVector v]> m else m.
(** The rows of a page, and the dimension of the declaration after them. *)
Fixpoint stamp_rows (staged : gmap Z stagedVector) (dim : Z) (page : list (Z * string)) : st Z :=
  match page with
  | [] => aret dim
  | row :: page =>
      match staged !! row.1 with
      | Some held =>
          let n := Z.of_nat (length (sv_vec held)) in
          if negb (String.eqb (sv_digest held) (textDigest row.2)) then afail RetryActivation
          else if negb (dim =? 0) && negb (n =? dim) then afail (BackfillDimension n dim)
          else do! _ := update_vectors (put_vector row.1 (sv_vec held)) in
               stamp_rows staged (if dim =? 0 then n else dim) page
      | None => afail RetryActivation
      end
  end.
Fixpoint stamp_pages (fuel : nat) (column : string) (gen dim after : Z) : st Z :=
  match fuel with
  | O => answer OutOfFuel
  | S fuel =>
      do! page := source_page column after None in
      match last page with
      | None => aret dim
      | Some (lastID, _) =>
          do! staged := loadStagedVectors gen (map fst page) in
          do! dim := stamp_rows staged dim page in
          stamp_pages fuel column gen dim lastID
      end
  end.
(** The update of every row whose field [target] holds a text, for a field all
    rows were given one text in. *)
Definition texts_of (target : string) (d : DB) : list Z := List.filter (has_text d target) (ids d).
Definition put_constant (target : string) (v : list Z) (ns : nsfile DB) (m : gmap Z (list Z)) : gmap Z (list Z) :=
  foldr (λ id, <[id := EncodeVector v]>) m (texts_of target (ns_rows ns)).
Definition stamp_constant (target : string) (dim : Z) (constant : option (list Z)) : st Z :=
  match constant with
  | None => afail RetryActivation
  | Some v =>
      do! _ := update_vectors (put_constant target v) in
      do! ns := now in
      let affected := length (texts_of target (ns_rows ns)) in
      aret (if (0 <? affected)%nat && (dim =? 0) then Z.of_nat (length v) else dim)
  end.

(** ** Activation *)

(** [createFTS]: the index, filled from the rows. *)
Definition index_rows (columns : list string) (d : DB) : list (Z * list sqlval) :=
  map (λ id, (id, map (cell d id) columns)) (List.filter (λ id, existsb (λ c, negb (is_null (cell d id c))) columns) (ids d)).
Definition createFTS (fts : list Field) (ns : nsfile DB) : nsfile DB :=
  let columns := map f_Name fts in with_index (Some (columns, index_rows columns (ns_rows ns))) ns.
Definition rebuild_index (fields : list Field) : st () :=
  do! _ := write (with_index None) in
  match FTSFields fields with [] => aret () | fts => write (createFTS fts) end.
Fixpoint run_statements (steps : list statement) : st () :=
  match steps with
  | [] => aret ()
  | step :: steps =>
      do! _ := stmt (λ ns, match exec step (ns_rows ns) with Some d => Done ((), with_rows d ns) | None => Fail StepFailed end) in
      run_statements steps
  end.
Definition add_embedding (ns : nsfile DB) : nsfile DB := with_vectors (Some (default ∅ (ns_vectors ns))) ns.
Definition delete_stage (ns : nsfile DB) : nsfile DB :=
  with_stage (List.filter (λ r, negb (String.eqb (sg_table r) table)) <$> ns_stage ns) ns.
Definition stampMigratedConstraints (cur : TableSchema) : st () :=
  match t_Constraints cur with
  | [] => if t_AcceptReferences cur then write with_reader else aret ()
  | _ => write with_reader
  end.

Definition when_else {A} (b : bool) (m : st A) (otherwise : A) : st A := if b then m else aret otherwise.
Definition stale_now (e : embedWork) (gen head : Z) : st () :=
  if e_embedding e && e_hasSource e then
    do! cur := changeHead in
    do! stale := rowsStaleSince gen (e_source e) head cur in
    if stale then afail RetryActivation else aret ()
  else aret ().
(** What the transaction does once it has planned. *)
Definition apply_plan (fuel : nat) (m : migrationWork) (from gen : Z) (constant : option (list Z)) : st TableSchema :=
  let e := m_embed m in
  let cur := m_cur m in
  do! _ := when_else (e_addColumn e) (write add_embedding) () in
  do! _ := when_else (e_clear e) (update_vectors (λ _ _, ∅)) () in
  do! dim := when_else (e_embedding e && e_hasSource e)
               (if negb (String.eqb (e_constant e) "") then afail RetryActivation
                else stamp_pages fuel (e_source e) gen (t_EmbedDim cur) 0) (t_EmbedDim cur) in
  do! _ := run_statements (m_steps m) in
  do! _ := when_else (m_fts m) (rebuild_index (t_Fields cur)) () in
  do! dim := when_else (e_embedding e && negb (String.eqb (e_constant e) "")) (stamp_constant (e_target e) dim constant) dim in
  let cur := with_embedding (t_EmbedSpace cur) dim cur in
  do! _ := write (with_schema cur from) in
  do! _ := stampMigratedConstraints cur in
  do! _ := write delete_stage in
  aret cur.
Definition activation (fuel : nat) (changes : list Change) (expected : Incarnation) (gen : Z)
    (constant : option (list Z)) (head : Z) : st TableSchema :=
  do! _ := checkBoundLifetime expected in
  do! old := loadSchema in
  do! _ := answer (refused (checkExpectedVersion (i_Version expected) old)) in
  do! here := tableGen in
  if negb (here =? gen) then afail tableReplaced
  else
    do! m := plan_now None old changes expected in
    do! _ := stale_now (m_embed m) gen head in
    apply_plan fuel m (t_Version old) gen constant.
Definition activateMigration (fuel : nat) (changes : list Change) (expected : Incarnation) (gen : Z)
    (constant : option (list Z)) (head : Z) : st TableSchema :=
  write_tx (activation fuel changes expected gen constant head).

(** ** [Migrate] *)

Definition readMigratePlan (changes : list Change) (expected : Incarnation) : st (migrationWork * Z) :=
  read_tx
    (do! _ := checkBoundLifetime expected in
     do! old := loadSchema in
     do! _ := answer (refused (checkExpectedVersion (i_Version expected) old)) in
     do! m := plan_now None old changes expected in
     do! gen := tableGen in
     aret (m, gen)).
Definition requireSecretKey (fields : list Field) : outcome staged_error () :=
  if has_keys then Done ()
  else match find (λ f, is_type f Secret) fields with Some f => Fail (SecretsNeedKey (f_Name f)) | None => Done () end.
Definition addedFields (changes : list Change) : list Field :=
  omap (λ ch, if String.eqb (ch_Op ch) OpAddField then ch_Field ch else None) changes.

(** One turn of the loop: [None] where it is to be tried again. *)
Definition attempt (fuel : nat) (changes : list Change) (expected : Incarnation) (m : migrationWork) (gen : Z) : st (option TableSchema) :=
  retrying
    (do! constant := when_else (e_embedding (m_embed m)) (stageBackfill fuel m gen) None in
     do! head := coverageCheck fuel m gen in
     activateMigration fuel changes expected gen constant head).
Fixpoint attempts (turns fuel : nat) (changes : list Change) (expected : Incarnation) (first : option Z) : st TableSchema :=
  match turns with
  | O => afail MigrationConflict
  | S turns =>
      do! (m, gen) := readMigratePlan changes expected in
      if negb (default gen first =? gen) then afail tableReplaced
      else
        do! result := attempt fuel changes expected m gen in
        match result with
        | Some sc => aret sc
        | None => attempts turns fuel changes expected (Some gen)
        end
  end.
Definition Migrate (fuel : nat) (changes : list Change) (expected : Incarnation) : st TableSchema :=
  match changes with
  | [] => afail (Refused NoChanges)
  | _ =>
      do! _ := answer (requireSecretKey (addedFields changes)) in
      attempts (S maxMigrateAttempts) fuel changes expected None
  end.

(** ** [PlanMigration] *)

Fixpoint count_pages (fuel : nat) (column : string) (gen after n : Z) (scope : option RowScope) : st Z :=
  match fuel with
  | O => answer OutOfFuel
  | S fuel =>
      do! page := source_page column after scope in
      match last page with
      | None => aret n
      | Some (lastID, _) =>
          do! held := loadStagedVectors gen (map fst page) in
          count_pages fuel column gen lastID (n + Z.of_nat (length (List.filter (is_staged held) page))) scope
      end
  end.
Definition countStagedVectors (fuel : nat) (column : string) (gen : Z) (scope : option RowScope) : st Z :=
  do! present := ask (λ ns, Done (bool_decide (is_Some (ns_stage ns)))) in
  if present then count_pages fuel column gen 0 0 scope else aret 0.

(** The plan with the rows already staged taken out of those to embed. *)
Record DryRun := MkDryRun { dr_Plan : MigrationPlan; dr_EmbedRows : Z; dr_StagedRows : Z; dr_Expected : Incarnation }.
Definition applyStagedPlan (fuel : nat) (m : migrationWork) (gen : Z) (scope : option RowScope) : st (Z * Z) :=
  let e := m_embed m in
  let rows := p_EmbedRows (m_plan m) in
  if negb (e_embedding e) || String.eqb provider "" || negb (e_hasSource e) then aret (rows, 0)
  else
    do! n := countStagedVectors fuel (e_source e) gen scope in
    if n <=? 0 then aret (rows, 0) else aret (Z.max 0 (rows - n), n).
Definition PlanMigration (fuel : nat) (changes : list Change) (expected : Incarnation) (scope : option RowScope)
    (scopeIncarnation : Incarnation) : st DryRun :=
  match changes with
  | [] => afail (Refused NoChanges)
  | _ =>
      do! _ := answer (requireSecretKey (addedFields changes)) in
      read_tx
        (do! _ := checkScopeIncarnation scopeIncarnation in
         do! old := loadSchema in
         do! _ := answer (scopeUsable scope old) in
         do! _ := answer (refused (checkExpectedVersion (i_Version expected) old)) in
         do! m := plan_now scope old changes expected in
         do! gen := readNSGen in
         do! dropGen := tableGen in
         do! (rows, staged) := applyStagedPlan fuel m dropGen scope in
         aret (MkDryRun (m_plan m) rows staged (MkIncarnation gen table (t_Version old) dropGen)))
  end.
End Staged.
