(* ===== verification/StagedFacts.v ===== *)
(** * Carrying out a migration: what each transaction may leave

    What a plan says of embeddings and of the index, the actions that only read
    and those that keep what the other clients keep, the state after the last
    transaction, and the pages, which come to an end. *)
From Stdlib Require Import ZArith QArith Qcanon Lia Ascii String.
From stdpp Require Import base gmap strings list sorting.
From S2P Require Import Prelude GoStrings AuthIdentity FilterLexer FilterParser SchemaIdent Schema SchemaFacts SchemaConstraints SchemaRules Authz.
From S2P Require Import GoNumbers Timestamps ConstraintValues ConstraintPlans ConstraintCatalog TableEngine Migrate MigrateFacts MigrateData MigrateTheorems.
From S2P Require Import SchemaText Changelog MigrateStaged.
Local Open Scope Z_scope.

(** ** What a plan says of embeddings and of the index *)

Section Embedding.
Context {DB : Type} {E : Engine DB} {L : EngineLaws DB} {UT : UnicodeTables}.
Context (faults : nat → bool) (polls : nat → polls) (naming : nat → nat → ctx) (final : oracle).
Context (tables : catalog) (db : DB) (embeds : bool) (identity : string) (scope : option RowScope).

(** The work of an embedding, of the plan that reached [w] from the table [old]. *)
Definition embed_of (old : TableSchema) (w : work) (e : embedWork) : Prop :=
  if w_vec w then
    let had := bool_decide (is_Some (VectorizeField (t_Fields old))) in
    match VectorizeField (t_Fields (w_cur w)) with
    | Some f =>
        let phys := phys_of w (f_Name f) in
        let constant := constant_text (default_of w (f_Name f)) in
        e_embedding e = true ∧ (had = true → e_clear e = true) ∧ e_addColumn e = negb had ∧ e_target e = f_Name f ∧
        e_source e = phys ∧ e_hasSource e = negb (String.eqb phys "") ∧ e_constant e = (if String.eqb phys "" then constant else "")
    | None => e = MkEmbedWork false had false "" "" false ""
    end
  else e = no_embedding.

Lemma embed_source_of f clear add w e w' : embed_source faults db scope f clear add w = (Done e, w') →
  let phys := phys_of w (f_Name f) in
  e.1 = MkEmbedWork true clear add (f_Name f) phys (negb (String.eqb phys "")) (if String.eqb phys "" then constant_text (default_of w (f_Name f)) else "").
Proof.
  unfold embed_source. intros H. plan_inv H. destruct (String.eqb_spec (phys_of w (f_Name f)) "") as [Hp|Hp]; cbn.
  - rewrite Hp. destruct (String.eqb_spec (constant_text (default_of w (f_Name f))) "") as [Hc|Hc]; plan_inv H; cbn; by rewrite ?Hc.
  - plan_inv H. done.
Qed.
Lemma plan_embedding_of old w e w' : plan_embedding faults db embeds identity scope old w = (Done e, w') → embed_of old w e.1.
Proof.
  unfold plan_embedding, embed_of. intros H. plan_inv H. destruct (w_vec w); cbn [negb] in H; plan_inv H; [|done].
  destruct (VectorizeField (t_Fields (w_cur w))) as [f|]; plan_inv H; [|done].
  apply embed_source_of in P1. rewrite P1. cbn. split_and!; try done. by intros ->.
Qed.

Lemma planned_work n t old changes v m :
  planMigration faults polls naming final tables db embeds identity scope n t old changes v = Done m →
  ∃ w, plan_changes faults polls naming tables db scope 0 changes (start n t old) = (Done (), w) ∧
    t_Fields (m_cur m) = t_Fields (w_cur w) ∧ m_steps m = w_steps w ∧ embed_of old w (m_embed m) ∧
    ValidateForMigration (t_Fields (w_cur w)) (t_Fields old) = Done () ∧
    (m_fts m = false → w_fts w = false).
Proof.
  unfold planMigration. destruct (plan_body _ _ _ _ _ _ _ _ _ _ _ _ _) as [[m'| |] w'] eqn:Hb; try done. intros [= ->].
  unfold plan_body in Hb. plan_inv Hb. exists s. apply reindex_rows_Done in P3 as [k ->]. pose proof (plan_embedding_of _ _ _ _ P4) as He.
  apply plan_embedding_Done in P4 as (space & dim & k1 & ->). apply check_constraints_Done in P5 as [[k2 ->] _]. split_and!; try done.
  - unfold embed_of in *. cbn in He. by rewrite orb_false_r in He.
  - cbn. by intros [? _]%orb_false_iff.
Qed.
End Embedding.

(** ** The fields a plan starts from and ends with *)

(** The declaration a store keeps of a table, and the table itself. *)
Definition kept_table {DB} `{Engine DB} (base : list string) (sc : TableSchema) (d : DB) : Prop :=
  laid_out base sc d ∧ (length (List.filter f_Vectorize (t_Fields sc)) <= 1)%nat ∧ StronglySorted Z.lt (0 :: ids d).

Lemma flagged_first (flag : Field → bool) fs : List.find flag fs = List.hd_error (List.filter flag fs).
Proof. induction fs as [|f fs IH]; [done|]. cbn. by destruct (flag f). Qed.
Lemma only_flagged (flag : Field → bool) fs f g : (length (List.filter flag fs) <= 1)%nat → List.find flag fs = Some f → g ∈ fs → flag g = true → g = f.
Proof.
  rewrite flagged_first. intros Hlen Hf Hg Hfl. assert (g ∈ List.filter flag fs) as Hin by by apply elem_filter.
  destruct (List.filter flag fs) as [|x [|y l]]; cbn in *; [done| |lia]. injection Hf as ->. by apply list_elem_of_singleton in Hin.
Qed.

Section Planned.
Context {DB : Type} {E : Engine DB} {L : EngineLaws DB} {UT : UnicodeTables}.
Context (faults : nat → bool) (polls : nat → polls) (naming : nat → nat → ctx) (final : oracle).
Context (tables : catalog) (db : DB) (embeds : bool) (identity : string) (scope : option RowScope) (base : list string).

(** All that the proofs below use of a plan. *)
Record plan_facts (old : TableSchema) (changes : list Change) (m : migrationWork) (w : work) (d : DB) : Prop := PlanFacts {
  pf_run : run_steps (m_steps m) db = Some d;
  pf_kept : kept_table base (m_cur m) d;
  pf_ids : ids d = ids db;
  pf_inv : inv db base w d;
  pf_fields : t_Fields (m_cur m) = t_Fields (w_cur w);
  pf_ok : table_ok (legacy_map (t_Fields old)) (t_Fields (w_cur w));
  pf_traced : traced (t_Fields old) w;
  pf_added : added w (foldl added_step ∅ changes);
  pf_embed : embed_of old w (m_embed m);
  pf_index : m_fts m = false → w_fts w = false }.
Lemma planned_facts n t old changes v m : kept_table base old db →
  planMigration faults polls naming final tables db embeds identity scope n t old changes v = Done m →
  ∃ w d, plan_facts old changes m w d.
Proof.
  intros (Hl & Hv & Hs0) Hp. pose proof (start_inv db base n t old Hl) as Hi.
  destruct (planned_runs _ _ _ _ _ _ _ _ _ base _ _ _ _ _ _ Hl Hp) as (d & Hrun & Hl' & Hids & _).
  destruct (planned_work _ _ _ _ _ _ _ _ _ _ _ _ _ _ _ Hp) as (w & Hc & Hf & Hs & He & Hok & Hx). apply validate_Done in Hok.
  destruct (plan_changes_moves _ _ _ _ _ _ base _ _ _ _ _ db Hi Hc) as (d1 & Hi1 & _).
  assert (d1 = d) as ->. { destruct Hi1. congruence. }
  exists w, d. split; try done.
  - split_and!; [done|rewrite Hf; apply Hok|by rewrite Hids].
  - eapply plan_changes_traced; [exact Hi| |exact Hc]. apply start_traced. by eapply laid_out_nodup.
  - eapply plan_changes_added; [exact Hi| |exact Hc]. apply start_added. intros f Hfi He'. destruct Hl. apply lo_named.
    rewrite <- He'. apply list_elem_of_fmap. by exists f.
Qed.

Context (old : TableSchema) (changes : list Change) (m : migrationWork) (w : work) (d : DB).
Context (Hold : kept_table base old db) (Hpf : plan_facts old changes m w d).

Lemma moved_cells f p : f ∈ t_Fields (m_cur m) → w_phys w !! f_Name f = Some p → p ≠ "" →
  ∀ id, id ∈ ids db → cell d id (f_Name f) = cell db id p.
Proof.
  intros Hf Hp Hne. rewrite (pf_fields _ _ _ _ _ Hpf) in Hf.
  destruct (inv_sourced _ _ _ _ (pf_inv _ _ _ _ _ Hpf) f Hf) as [(q & Hq & _ & Hc)|(Hq & _)]; rewrite Hp in Hq; injection Hq as ->; done.
Qed.
Lemma unmarked_index : m_fts m = false →
  map f_Name (FTSFields (t_Fields (m_cur m))) = map f_Name (FTSFields (t_Fields old)) ∧
  ∀ c id, c ∈ map f_Name (FTSFields (t_Fields old)) → id ∈ ids db → cell d id c = cell db id c.
Proof.
  intros Hm%(pf_index _ _ _ _ _ Hpf). destruct (tr_fulltext _ _ (pf_traced _ _ _ _ _ Hpf) Hm) as [He Hall].
  rewrite (pf_fields _ _ _ _ _ Hpf). split; [exact He|]. intros c id Hc Hid. change (c ∈ flagged f_Fulltext (t_Fields old)) in Hc.
  pose proof (proj1 (Forall_forall _ _) Hall c Hc) as Hp. rewrite <- He in Hc. apply flagged_names, list_elem_of_fmap in Hc as (f & -> & Hf).
  apply (moved_cells f); [by rewrite (pf_fields _ _ _ _ _ Hpf)|done| |done]. intros Hn.
  destruct (pf_kept _ _ _ _ _ Hpf) as ([] & _). apply lo_named. rewrite <- Hn, (pf_fields _ _ _ _ _ Hpf). apply list_elem_of_fmap. by exists f.
Qed.

Lemma flagged_one flag fs n : (length (List.filter flag fs) <= 1)%nat → flagged flag fs = [n] →
  ∃ f, List.find flag fs = Some f ∧ f_Name f = n ∧ f ∈ fs.
Proof.
  unfold flagged. rewrite flagged_first. intros Hlen He. destruct (List.filter flag fs) as [|x [|y l]] eqn:Hf; cbn in *; [done| |lia].
  injection He as <-. exists x. split_and!; [done|done|]. apply (elem_filter flag fs x). rewrite Hf. by left.
Qed.
Lemma flagged_none (flag : Field → bool) fs : flagged flag fs = [] → List.find flag fs = None.
Proof. unfold flagged. rewrite flagged_first. by destruct (List.filter flag fs). Qed.
Lemma unmarked_vectors : w_vec w = false →
  match VectorizeField (t_Fields (m_cur m)), VectorizeField (t_Fields old) with
  | None, None => True
  | Some f, Some g => ∀ id, id ∈ ids db → cell d id (f_Name f) = cell db id (f_Name g)
  | _, _ => False
  end.
Proof.
  intros Hm. pose proof (tr_vectorize _ _ (pf_traced _ _ _ _ _ Hpf) Hm) as He. unfold VectorizeField.
  rewrite <- (pf_fields _ _ _ _ _ Hpf) in He. destruct Hold as (Hl1 & H1 & _). destruct (pf_kept _ _ _ _ _ Hpf) as (_ & H2 & _).
  assert (length (flagged f_Vectorize (t_Fields old)) <= 1)%nat as H1' by (unfold flagged; by rewrite length_map).
  destruct (flagged f_Vectorize (t_Fields old)) as [|n [|y l]] eqn:Eo; [| |cbn in H1'; lia].
  - rewrite (flagged_none _ _ Eo). apply map_eq_nil in He. by rewrite (flagged_none _ _ He).
  - destruct (flagged f_Vectorize (t_Fields (m_cur m))) as [|n' [|]] eqn:Ec; [done| |done]. cbn in He. injection He as He.
    destruct (flagged_one _ _ _ H1 Eo) as (g & -> & <- & Hg), (flagged_one _ _ _ H2 Ec) as (f & -> & <- & Hf).
    apply moved_cells; [done|done|]. intros Hn. destruct Hl1. apply lo_named. rewrite <- Hn. apply list_elem_of_fmap. by exists g.
Qed.

Lemma vectorized_field f : VectorizeField (t_Fields (m_cur m)) = Some f →
  f ∈ t_Fields (m_cur m) ∧ f_Vectorize f = true ∧ f_Type f ≠ Number ∧
  (∀ v, kind (f_Type f) v = true → ∃ s, v = VText s).
Proof.
  intros Hf. unfold VectorizeField in Hf. apply find_some in Hf as [Hf%list_elem_of_In Hv]. split_and!; [done|done| |].
  all: rewrite (pf_fields _ _ _ _ _ Hpf) in Hf; pose proof (proj1 (Forall_forall _ _) (to_fields _ _ (pf_ok _ _ _ _ _ Hpf)) f Hf) as Hok;
    pose proof (fo_vec _ _ Hok Hv) as Ht; unfold is_textual in Ht.
  - by destruct Ht as [-> | ->].
  - intros v Hk. destruct Ht as [Ht | Ht]; rewrite Ht in Hk; destruct v; try done; by eexists.
Qed.
(** A field the plan added, with the value every row has in it. *)
Lemma constant_cells f : VectorizeField (t_Fields (m_cur m)) = Some f → phys_of w (f_Name f) = "" →
  let text := constant_text (default_of w (f_Name f)) in
  ∀ id, id ∈ ids db → if String.eqb text "" then has_text d (f_Name f) id = false else cell d id (f_Name f) = VText text.
Proof.
  intros Hv Hp. cbn zeta. destruct (vectorized_field f Hv) as (Hf & _ & Hnum & Hkind). rewrite (pf_fields _ _ _ _ _ Hpf) in Hf.
  unfold phys_of in Hp.
  destruct (inv_sourced _ _ _ _ (pf_inv _ _ _ _ _ Hpf) f Hf) as [(q & Hq & Hne & _)|(Hq & v & Hd & Hc & Hk)]; rewrite Hq in Hp; cbn in Hp; [done|].
  unfold default_of. rewrite Hd. cbn. intros id Hid. unfold has_text. destruct Hk as [Hn|(Hn & Hk & _ & Hc')].
  - destruct v; try done. cbn. by rewrite Hc, store_null.
  - destruct (Hkind v Hk) as [s ->]. cbn. rewrite Hc' by done. destruct (String.eqb_spec s "") as [->|]; [done|done].
Qed.
End Planned.

(** The text of an added field depends on the changes only. *)
Lemma same_constant {DB} `{EngineLaws DB} `{UnicodeTables} (db1 db2 : DB) base old1 old2 changes m1 m2 w1 w2 d1 d2 :
  plan_facts db1 base old1 changes m1 w1 d1 → plan_facts db2 base old2 changes m2 w2 d2 →
  e_constant (m_embed m1) ≠ "" → e_constant (m_embed m2) ≠ "" → e_constant (m_embed m1) = e_constant (m_embed m2).
Proof.
  assert (∀ (db : DB) old m w d, plan_facts db base old changes m w d → e_constant (m_embed m) ≠ "" →
    ∃ f v, VectorizeField (t_Fields (m_cur m)) = Some f ∧ e_constant (m_embed m) = constant_text v ∧
      foldl added_step ∅ changes !! f_Name f = Some (v, true)) as Hone.
  { intros db old m w d Hpf Hc. pose proof (pf_embed _ _ _ _ _ _ _ Hpf) as He. unfold embed_of in He. rewrite <- (pf_fields _ _ _ _ _ _ _ Hpf) in He.
    destruct (w_vec w); [|by rewrite He in Hc]. destruct (VectorizeField (t_Fields (m_cur m))) as [f|] eqn:Hf; [|by rewrite He in Hc].
    destruct He as (_ & _ & _ & _ & _ & _ & Hconst). rewrite Hconst in Hc |- *.
    destruct (String.eqb_spec (phys_of w (f_Name f)) "") as [Hp|]; [|done]. exists f, (default_of w (f_Name f)). split_and!; [done|done|].
    destruct (vectorized_field db base old changes m w d Hpf f Hf) as (Hin & Hfl & _). pose proof Hin as Hin'. rewrite (pf_fields _ _ _ _ _ _ _ Hpf) in Hin.
    apply (pf_added _ _ _ _ _ _ _ Hpf). unfold default_of, phys_of in *.
    destruct (inv_sourced _ _ _ _ (pf_inv _ _ _ _ _ _ _ Hpf) f Hin) as [(q & Hq & Hne & _)|(Hq & v & Hd & _)]; rewrite Hq in Hp; cbn in Hp; [done|].
    rewrite Hd. cbn. split_and!; [done|done|by exists f]. }
  intros Hp1 Hp2 (f1 & v1 & Hf1 & E1 & G1)%(Hone _ _ _ _ _ Hp1) (f2 & v2 & Hf2 & E2 & G2)%(Hone _ _ _ _ _ Hp2).
  apply (pf_added _ _ _ _ _ _ _ Hp1) in G2 as (_ & Hd2 & g & Hg & Hgn & Hgv).
  assert (g = f1) as ->.
  { destruct (pf_kept _ _ _ _ _ _ _ Hp1) as (_ & Hlen & _). rewrite <- (pf_fields _ _ _ _ _ _ _ Hp1) in Hg. by eapply (only_flagged f_Vectorize). }
  rewrite <- Hgn in Hd2. apply (pf_added _ _ _ _ _ _ _ Hp1) in G1 as (_ & Hd1 & _). rewrite E1, E2. congruence.
Qed.

(** ** Statements, transactions and what they leave *)

Section Steps.
Context {DB : Type} {E : Engine DB} {UT : UnicodeTables} {W : Surroundings DB}.
#[local] Abbreviation st := (staged DB).

Lemma stmt_ran {A} (f : nsfile DB → outcome staged_error (A * nsfile DB)) s a s' : stmt f s = (Done a, s') →
  ∃ ns, f (r_ns s) = Done (a, ns) ∧ r_ns s' = ns ∧ r_txs s' = r_txs s.
Proof.
  unfold stmt. destruct (failing (r_calls s)); [done|]. destruct (f (r_ns s)) as [[b ns]| |]; try done. intros [= -> <-]. by exists ns.
Qed.
Lemma stmt_else {A} (f : nsfile DB → outcome staged_error (A * nsfile DB)) s o s' : stmt f s = (o, s') → (∀ a, o ≠ Done a) →
  r_ns s' = r_ns s ∧ r_txs s' = r_txs s.
Proof.
  unfold stmt. destruct (failing (r_calls s)); [by intros [= <- <-]|]. destruct (f (r_ns s)) as [[b ns]| |]; intros [= <- <-] H; try done.
  by destruct (H b).
Qed.
Lemma ask_Done {A} (f : nsfile DB → outcome staged_error A) s a s' : ask f s = (Done a, s') →
  f (r_ns s) = Done a ∧ r_ns s' = r_ns s ∧ r_txs s' = r_txs s.
Proof. intros (ns & Hf & Hs & Ht)%stmt_ran. apply obind_Done in Hf as (b & Hb & [= -> <-]). done. Qed.
Lemma write_Done f s a s' : write f s = (Done a, s') → r_ns s' = f (r_ns s) ∧ r_txs s' = r_txs s.
Proof. intros (ns & [= <-] & -> & Ht)%stmt_ran. done. Qed.
Lemma update_Done f s a s' : update_vectors f s = (Done a, s') →
  ∃ m, ns_vectors (r_ns s) = Some m ∧ r_ns s' = with_vectors (Some (f (r_ns s) m)) (r_ns s) ∧ r_txs s' = r_txs s.
Proof. intros (ns & Hf & -> & Ht)%stmt_ran. destruct (ns_vectors (r_ns s)) as [m|]; [|done]. injection Hf as <-. by exists m. Qed.

(** [reads m]: the action changes nothing of the file. *)
Definition reads {A} (m : st A) : Prop := ∀ s o s', m s = (o, s') → r_ns s' = r_ns s ∧ r_txs s' = r_txs s.
Lemma reads_ask {A} (f : nsfile DB → outcome staged_error A) : reads (ask f).
Proof.
  intros s [a|e|] s' H; [by apply ask_Done in H as (_ & ? & ?)|by eapply stmt_else..].
Qed.
Lemma reads_then {A B} (m : st A) (k : A → st B) : reads m → (∀ a, reads (k a)) → reads (abind m k).
Proof.
  intros Hm Hk s o s' H. unfold abind in H. destruct (m s) as [[a|e|] s1] eqn:Es; pose proof (Hm _ _ _ Es) as [E1 E2].
  - rewrite <- E1, <- E2. by eapply Hk.
  - by injection H as <- <-.
  - by injection H as <- <-.
Qed.
Lemma reads_outcome {A} (o : outcome staged_error A) : reads (answer o).
Proof. by intros s o' s' [= <- <-]. Qed.
Lemma reads_now : reads now.
Proof. by intros s o' s' [= <- <-]. Qed.
Lemma reads_embed sc texts : reads (embedTexts sc texts).
Proof. intros s o s' H. unfold embedTexts in H. repeat case_match; by injection H as <- <-. Qed.
Lemma reads_plan scope old changes expected : reads (plan_now scope old changes expected).
Proof. by intros s o s' [= <- <-]. Qed.
Lemma reads_ret {A} (a : A) : reads (aret a).
Proof. apply (reads_outcome (Done a)). Qed.
Lemma reads_fail {A} e : reads (A := A) (afail e).
Proof. apply (reads_outcome (Fail e)). Qed.
End Steps.
Create HintDb staged.
#[export] Hint Resolve reads_ask reads_outcome reads_now reads_embed reads_plan reads_ret reads_fail : staged.
Ltac reads_step :=
  match goal with
  | |- reads (abind _ _) => apply reads_then; [|intros ?]
  | |- reads (if ?b then _ else _) => destruct b
  | |- reads (match ?x with _ => _ end) => destruct x
  | |- reads _ => solve [auto with staged] || (progress unfold loadSchema, tableGen, readNSGen, changeHead, loadStagedVectors, source_page)
  end.
Ltac reads_all := repeat reads_step.

(** ** Everything before the last transaction

    [I] is what the other clients keep, and the staging of vectors the provider
    made. *)

(** The provider answered [v] for [text]. *)
Definition made {DB} `{Surroundings DB} (text : string) (v : list Z) : Prop :=
  ∃ n texts vecs (i : nat), Embed n texts = Some vecs ∧ texts !! i = Some text ∧ vecs !! i = Some v.
Definition made_batch {DB} `{Surroundings DB} (batch : list stagedVector) : Prop :=
  Forall (λ b, ∃ text, sv_digest b = textDigest text ∧ made text (sv_vec b)) batch.
Definition staged_batch {DB} `{Surroundings DB} (gen : Z) (batch : list stagedVector) (ns : nsfile DB) : nsfile DB :=
  with_stage (Some (foldl (stage_one table gen provider) (default [] (ns_stage ns)) batch)) ns.

Section Rely.
Context {DB : Type} {E : Engine DB} {UT : UnicodeTables} {W : Surroundings DB}.
#[local] Abbreviation st := (staged DB).
Context (I : nsfile DB → Prop).
Hypothesis others_keep : ∀ n ns, I ns → I (others n ns).
Hypothesis stage_keeps : ∀ gen batch ns, I ns → made_batch batch → I (staged_batch gen batch ns).

Definition keeps {A} (m : st A) : Prop := ∀ s o s', m s = (o, s') → I (r_ns s) → I (r_ns s').

Lemma keeps_reads {A} (m : st A) : reads m → keeps m.
Proof. intros Hm s o s' H Hi. by rewrite (proj1 (Hm _ _ _ H)). Qed.
Lemma keeps_when {A B} (m : st A) (P : A → Prop) (k : A → st B) : keeps m → (∀ s a s', m s = (Done a, s') → P a) →
  (∀ a, P a → keeps (k a)) → keeps (abind m k).
Proof.
  intros Hm HP Hk s o s' H Hi. unfold abind in H. destruct (m s) as [[a|e|] s1] eqn:Es; pose proof (Hm _ _ _ Es Hi) as Hi1.
  - by eapply (Hk a); [eapply HP|exact H|].
  - by injection H as <- <-.
  - by injection H as <- <-.
Qed.
Lemma keeps_bind {A B} (m : st A) (k : A → st B) : keeps m → (∀ a, keeps (k a)) → keeps (abind m k).
Proof. intros Hm Hk. by apply (keeps_when m (λ _, True)). Qed.
Lemma keeps_begin : keeps begin_tx.
Proof. intros s o s' H Hi. unfold begin_tx in H. apply reads_ask in H as [-> _]. by apply others_keep. Qed.
Lemma keeps_read_tx {A} (m : st A) : keeps m → keeps (read_tx m).
Proof. intros Hm. apply keeps_bind; [apply keeps_begin|done]. Qed.
Lemma write_tx_cases {A} (m : st A) s o s' : write_tx m s = (o, s') → I (r_ns s) →
  (∃ s1 s2 a, o = Done a ∧ I (r_ns s1) ∧ m s1 = (Done a, s2) ∧ r_ns s' = r_ns s2) ∨ I (r_ns s') ∧ ∀ a, o ≠ Done a.
Proof.
  unfold write_tx. intros H Hi. destruct (begin_tx s) as [[[]|e|] s1] eqn:Eb; pose proof (keeps_begin _ _ _ Eb Hi) as Hi1;
    [|by injection H as <- <-; right..].
  destruct (abind m _ s1) as [[a|e|] s2] eqn:Em; [|by injection H as <- <-; right..]. injection H as <- <-. left.
  apply abind_Done in Em as (b & s3 & Em & H). apply abind_Done in H as (u & s4 & Hc & [= <- <-]).
  apply ask_Done in Hc as (_ & Hns & _). exists s1, s3, b. by rewrite Hns.
Qed.
Lemma keeps_write_tx {A} (m : st A) : keeps m → keeps (write_tx m).
Proof.
  intros Hm s o s' H Hi. destruct (write_tx_cases m s o s' H Hi) as [(s1 & s2 & a & -> & Hi1 & Hs & ->)|[? _]]; [|done]. by eapply Hm.
Qed.
Lemma keeps_write f : (∀ ns, I ns → I (f ns)) → keeps (write f).
Proof.
  intros Hf s [a|e|] s' H Hi; [apply write_Done in H as [-> _]; by apply Hf|by rewrite (proj1 (stmt_else _ _ _ _ H ltac:(done)))..].
Qed.

Lemma embedTexts_made sc texts s vecs dim s' : embedTexts sc texts s = (Done (vecs, dim), s') →
  (∃ n, Embed n texts = Some vecs) ∧ length vecs = length texts.
Proof.
  unfold embedTexts. intros H. destruct (negb has_embedder), (String.eqb provider ""); try done.
  destruct (negb _ && _); [done|]. destruct (Embed (r_calls s) texts) as [vs|] eqn:He; [|done].
  destruct (length vs =? length texts)%nat eqn:Hl; cbn [negb] in H; [|done]. apply Nat.eqb_eq in Hl.
  destruct (check_vectors _ _ _ _ vs) as [d| |]; try done. injection H as <- _ _. split; [by exists (r_calls s)|done].
Qed.
Lemma to_stage_made rows vecs n : Embed n (map snd rows) = Some vecs → made_batch (to_stage rows vecs).
Proof.
  intros He. apply Forall_forall. intros b [i Hi]%list_elem_of_lookup. unfold to_stage in Hi. rewrite lookup_zip_with in Hi.
  destruct (rows !! i) as [[id text]|] eqn:Hr; [|done]. destruct (vecs !! i) as [v|] eqn:Hv; [|done]. injection Hi as <-. cbn.
  exists text. split; [done|]. exists n, (map snd rows), vecs, i. split_and!; [done| |done]. by rewrite list_lookup_fmap, Hr.
Qed.
Lemma keeps_stage_fresh cur gen dim fresh : keeps (stage_fresh cur gen dim fresh).
Proof.
  unfold stage_fresh. destruct fresh as [|row fresh]; [apply keeps_reads; auto with staged|].
  apply (keeps_when _ (λ r, ∃ n, Embed n (map snd (row :: fresh)) = Some r.1)); [apply keeps_reads; auto with staged| |].
  { intros s [vecs d] s' [[n Hn] _]%embedTexts_made. by exists n. }
  intros [vecs d] [n Hn]. cbn in Hn. apply keeps_bind; [apply keeps_reads; auto with staged|]. intros d'.
  apply keeps_bind; [|intros _; apply keeps_reads; auto with staged].
  apply keeps_write_tx. unfold writeStagedVectors. pose proof (to_stage_made (row :: fresh) vecs n Hn) as Hm.
  destruct (to_stage (row :: fresh) vecs) as [|b batch] eqn:Eb; [apply keeps_reads; auto with staged|]. apply keeps_write.
  intros ns Hi. by apply stage_keeps.
Qed.
Lemma keeps_backfillPage column after : keeps (backfillPage column after).
Proof. apply keeps_read_tx, keeps_reads. unfold source_page. auto with staged. Qed.
Lemma keeps_stage_pages fuel cur column gen : ∀ dim after, keeps (stage_pages fuel cur column gen dim after).
Proof.
  induction fuel as [|fuel IH]; intros dim after; cbn [stage_pages]; [apply keeps_reads; auto with staged|].
  apply keeps_bind; [apply keeps_backfillPage|]. intros page. destruct (last page) as [[lastID text]|]; [|apply keeps_reads; auto with staged].
  apply keeps_bind; [apply keeps_read_tx, keeps_reads; unfold loadStagedVectors; auto with staged|]. intros stagedNow.
  apply keeps_bind; [apply keeps_stage_fresh|done].
Qed.
Lemma keeps_stageBackfill fuel m gen : keeps (stageBackfill fuel m gen).
Proof.
  unfold stageBackfill. destruct (negb (String.eqb (e_constant (m_embed m)) "")).
  { apply keeps_bind; [apply keeps_reads; auto with staged|]. intros [vecs ?]. apply keeps_reads; auto with staged. }
  destruct (negb (e_hasSource _)); [apply keeps_reads; auto with staged|].
  apply keeps_bind; [apply keeps_stage_pages|]. intros _. apply keeps_reads; auto with staged.
Qed.
Lemma keeps_cover_pages fuel snap column gen : ∀ after, keeps (cover_pages fuel snap column gen after).
Proof.
  induction fuel as [|fuel IH]; intros after; cbn [cover_pages]; [apply keeps_reads; auto with staged|].
  apply keeps_bind; [apply keeps_backfillPage|]. intros page. destruct (last page) as [[lastID text]|]; [|apply keeps_reads; auto with staged].
  apply keeps_bind; [apply keeps_reads; auto with staged|]. intros staged. destruct (forallb _ page); [apply IH|apply keeps_reads; auto with staged].
Qed.
Lemma keeps_coverageCheck fuel m gen : keeps (coverageCheck fuel m gen).
Proof.
  unfold coverageCheck. destruct (negb (e_embedding (m_embed m))); [apply keeps_reads; auto with staged|].
  apply keeps_bind; [apply keeps_begin|]. intros _. apply keeps_bind; [apply keeps_reads; auto with staged|]. intros snap.
  apply keeps_bind; [apply keeps_reads; unfold changeHead; auto with staged|]. intros head.
  destruct (_ || _); [apply keeps_reads; auto with staged|]. apply keeps_bind; [apply keeps_cover_pages|].
  intros _. apply keeps_reads; auto with staged.
Qed.

(** ** The transaction that commits *)

(** The plan [m] of the table [old] was made in the transaction [n], on [ns]. *)
Definition planned_at (changes : list Change) (expected : Incarnation) (n : nat) (ns : nsfile DB) (old : TableSchema) (m : migrationWork) : Prop :=
  planMigration (plan_failing n) (plan_polls n) (plan_naming n) (plan_final n) (other_tables n) (ns_rows ns) has_embedder provider None
    nsName table old changes (i_Version expected) = Done m.
(** The vector of the text all rows get in an added field. *)
Definition constant_from (changes : list Change) (expected : Incarnation) (constant : option (list Z)) : Prop :=
  ∀ v, constant = Some v → ∃ n ns old m, I ns ∧ ns_schema ns = Some old ∧ planned_at changes expected n ns old m ∧
    e_constant (m_embed m) ≠ "" ∧ made (e_constant (m_embed m)) v.
Definition committed (fuel : nat) (changes : list Change) (expected : Incarnation) (sc : TableSchema) (ns' : nsfile DB) : Prop :=
  ∃ s1 s2 gen constant head, I (r_ns s1) ∧ constant_from changes expected constant ∧
    activation fuel changes expected gen constant head s1 = (Done sc, s2) ∧ ns' = r_ns s2.

Lemma plan_now_Done changes expected old s m s' : plan_now None old changes expected s = (Done m, s') →
  s' = s ∧ planned_at changes expected (r_txs s) (r_ns s) old m.
Proof. unfold plan_now. intros [= H <-]. split; [done|]. unfold refused in H. by apply lift_error_Done in H. Qed.
Lemma reads_lifetime expected : reads (DB := DB) (checkBoundLifetime expected).
Proof. unfold checkBoundLifetime. reads_all. Qed.
Lemma loadSchema_found s sc s' : loadSchema (DB := DB) s = (Done sc, s') → ns_schema (r_ns s) = Some sc ∧ r_ns s' = r_ns s ∧ r_txs s' = r_txs s.
Proof. intros (H & ? & ?)%ask_Done. destruct (ns_schema (r_ns s)); [|done]. by injection H as ->. Qed.
Lemma reads_readMigratePlan changes expected : reads (
  do! _ := checkBoundLifetime expected in
  do! old := loadSchema (DB := DB) in
  do! _ := answer (refused (checkExpectedVersion (i_Version expected) old)) in
  do! m := plan_now None old changes expected in
  do! gen := tableGen in aret (m, gen)).
Proof. pose proof (reads_lifetime expected). reads_all. Qed.
Lemma readMigratePlan_Done changes expected s m gen s' : readMigratePlan changes expected s = (Done (m, gen), s') → I (r_ns s) →
  ∃ n ns old, I ns ∧ ns_schema ns = Some old ∧ planned_at changes expected n ns old m ∧ r_ns s' = ns ∧ gen = ns_dropGen ns.
Proof.
  unfold readMigratePlan, read_tx. intros H Hi. apply abind_Done in H as ([] & s1 & Hb & H).
  pose proof (keeps_begin _ _ _ Hb Hi) as Hi1.
  apply abind_Done in H as (u & s2 & H2 & H). apply reads_lifetime in H2 as [E2 _].
  apply abind_Done in H as (old & s3 & H3 & H). apply loadSchema_found in H3 as (Hold & E3 & _).
  apply abind_Done in H as (v & s4 & H4 & H). apply reads_outcome in H4 as [E4 _].
  apply abind_Done in H as (m' & s5 & H5 & H). apply plan_now_Done in H5 as [-> Hp].
  apply abind_Done in H as (g & s6 & H6 & [= -> -> <-]). apply ask_Done in H6 as (Hg & E6 & _). injection Hg as <-.
  exists (r_txs s4), (r_ns s1), old. rewrite E6, E4, E3, E2 in *. done.
Qed.
Lemma keeps_readMigratePlan changes expected : keeps (readMigratePlan changes expected).
Proof. apply keeps_read_tx, keeps_reads, reads_readMigratePlan. Qed.

Lemma stageBackfill_constant fuel m gen s v s' : stageBackfill fuel m gen s = (Done (Some v), s') →
  e_constant (m_embed m) ≠ "" ∧ made (e_constant (m_embed m)) v.
Proof.
  unfold stageBackfill. destruct (String.eqb_spec (e_constant (m_embed m)) "") as [|Hne]; cbn [negb]; intros H.
  - destruct (negb (e_hasSource _)); [done|]. by apply abind_Done in H as (? & ? & _ & ?).
  - apply abind_Done in H as ([vecs d] & s1 & [[n Hn] Hl]%embedTexts_made & [= Hv <-]). split; [done|].
    destruct vecs as [|v' vecs]; [done|]. injection Hv as ->. by exists n, [e_constant (m_embed m)], (v :: vecs), 0%nat.
Qed.

Lemma attempt_cases fuel changes expected m gen s o s' : attempt fuel changes expected m gen s = (o, s') → I (r_ns s) →
  (∃ n ns old, I ns ∧ ns_schema ns = Some old ∧ planned_at changes expected n ns old m) →
  match o with Done (Some sc) => committed fuel changes expected sc (r_ns s') | _ => I (r_ns s') end.
Proof.
  intros H Hi (n & ns & old & Hns & Hold & Hp). unfold attempt, retrying in H.
  assert (∀ c s1, when_else (e_embedding (m_embed m)) (stageBackfill fuel m gen) None s = (Done c, s1) →
    I (r_ns s1) ∧ constant_from changes expected c) as Hstage.
  { intros c s1 Hs. unfold when_else in Hs. destruct (e_embedding (m_embed m)).
    - split; [by eapply keeps_stageBackfill|]. intros v ->. apply stageBackfill_constant in Hs as [? ?]. by exists n, ns, old, m.
    - injection Hs as <- <-. done. }
  assert (keeps (when_else (e_embedding (m_embed m)) (stageBackfill fuel m gen) None)) as Hkeep
    by (unfold when_else; destruct (e_embedding _); [apply keeps_stageBackfill|apply keeps_reads, reads_ret]).
  match type of H with match ?x with _ => _ end = _ => destruct x as [r s2] eqn:Er end.
  assert (match r with Done sc => committed fuel changes expected sc (r_ns s2) | _ => I (r_ns s2) end) as Hr;
    [|destruct r as [sc|[]|]; injection H as <- <-; exact Hr].
  clear H. unfold abind in Er at 1. destruct (when_else _ _ _ s) as [[c|e|] s3] eqn:Es;
    [|injection Er as <- <-; exact (Hkeep _ _ _ Es Hi)..].
  destruct (Hstage _ _ eq_refl) as [Hi3 Hc]. unfold abind in Er. destruct (coverageCheck fuel m gen s3) as [[h|e|] s4] eqn:Ec;
    pose proof (keeps_coverageCheck _ _ _ _ _ _ Ec Hi3) as Hi4; [|by injection Er as <- <-..].
  destruct (write_tx_cases _ _ _ _ Er Hi4) as [(a1 & a2 & sc & -> & Hi5 & Ha & ->)|[Hi5 Hno]].
  - by exists a1, a2, gen, c, h.
  - destruct r as [sc| |]; [by destruct (Hno sc)|done|done].
Qed.

Lemma attempts_cases fuel changes expected turns : ∀ first s o s', attempts turns fuel changes expected first s = (o, s') → I (r_ns s) →
  match o with Done sc => committed fuel changes expected sc (r_ns s') | _ => I (r_ns s') end.
Proof.
  induction turns as [|turns IH]; intros first s o s' H Hi; cbn [attempts] in H; [by injection H as <- <-|].
  unfold abind in H at 1. destruct (readMigratePlan changes expected s) as [[[m gen]|e|] s1] eqn:Er;
    pose proof (keeps_readMigratePlan _ _ _ _ _ Er Hi) as Hi1; [|by injection H as <- <-..].
  apply readMigratePlan_Done in Er as (n & ns & old & Hns & Hold & Hp & _); [|done].
  destruct (negb _); [by injection H as <- <-|]. unfold abind in H. destruct (attempt _ _ _ _ _ s1) as [r s2] eqn:Ea.
  apply attempt_cases in Ea; [|done|by exists n, ns, old]. destruct r as [[sc|]|e|]; [by injection H as <- <-|by eapply IH|by injection H as <- <-..].
Qed.
Lemma Migrate_cases fuel changes expected s o s' : Migrate fuel changes expected s = (o, s') → I (r_ns s) →
  match o with Done sc => committed fuel changes expected sc (r_ns s') | _ => I (r_ns s') end.
Proof.
  unfold Migrate. destruct changes as [|ch changes]; [by intros [= <- <-]|]. intros H Hi. unfold abind, answer in H.
  destruct (requireSecretKey _); [|by injection H as <- <-..]. by eapply attempts_cases.
Qed.
End Rely.

(** ** What the transaction that commits leaves *)

Section Commit.
Context {DB : Type} {E : Engine DB} {UT : UnicodeTables} {W : Surroundings DB}.
#[local] Abbreviation st := (staged DB).

Lemma reads_anyRowMissing column staged l : reads (anyRowMissing column staged l).
Proof. induction l as [|id l IH]; cbn [anyRowMissing]; reads_all. Qed.
Lemma reads_stale_chunks fuel gen column : ∀ l, reads (stale_chunks fuel gen column l).
Proof.
  pose proof (reads_anyRowMissing column) as Hany. induction fuel as [|fuel IH]; intros [|id l]; cbn [stale_chunks]; reads_all.
Qed.
Lemma reads_stale_now e gen head : reads (stale_now e gen head).
Proof. pose proof reads_stale_chunks as Hany. unfold stale_now, rowsStaleSince. reads_all. Qed.

Lemma activation_Done fuel changes expected gen constant head s sc s' :
  activation fuel changes expected gen constant head s = (Done sc, s') →
  ∃ old m s1, ns_schema (r_ns s) = Some old ∧ checkExpectedVersion (i_Version expected) old = Done () ∧
    planned_at changes expected (r_txs s) (r_ns s) old m ∧ r_ns s1 = r_ns s ∧
    apply_plan fuel m (t_Version old) gen constant s1 = (Done sc, s').
Proof.
  unfold activation. intros H. apply abind_Done in H as (u & s1 & H1 & H). apply reads_lifetime in H1 as [E1 T1].
  apply abind_Done in H as (old & s2 & H2 & H). apply loadSchema_found in H2 as (Hold & E2 & T2).
  apply abind_Done in H as (v & s3 & H3 & H). pose proof (reads_outcome _ _ _ _ H3) as [E3 T3]. injection H3 as Hv _.
  unfold refused in Hv. apply lift_error_Done in Hv. destruct v.
  apply abind_Done in H as (g & s4 & H4 & H). apply ask_Done in H4 as (_ & E4 & T4). destruct (negb _); [done|].
  apply abind_Done in H as (m & s5 & H5 & H). apply plan_now_Done in H5 as [-> Hp].
  apply abind_Done in H as (w & s6 & H6 & H). apply reads_stale_now in H6 as [E6 _].
  exists old, m, s6. rewrite E6, E4, E3, E2, E1 in *. rewrite T4, T3, T2, T1 in Hp. done.
Qed.

(** The rows of a page read a text each. *)
Lemma source_page_Done column after scope s page s' : source_page column after scope s = (Done page, s') →
  r_ns s' = r_ns s ∧ map fst page = firstn embedBackfillPage (source_rows column after scope (ns_rows (r_ns s))) ∧
  ∀ id text, (id, text) ∈ page → cell (ns_rows (r_ns s)) id column = VText text ∧ text ≠ "" ∧ (id ∈ ids (ns_rows (r_ns s))).
Proof.
  intros (H & Hns & _)%ask_Done. split; [done|]. destruct (mapM _ _) as [p|] eqn:Hm; [|done]. injection H as ->.
  apply mapM_Some in Hm. split.
  - induction Hm as [|id row l page Hrow Hm IH]; [done|]. cbn. rewrite IH. f_equal.
    destruct (scan_text _) as [t|]; [|done]. by injection Hrow as <-.
  - intros id text [j Hj]%list_elem_of_lookup. destruct (Forall2_lookup_r _ _ _ _ _ Hm Hj) as (x & Hx & Hrow).
    destruct (scan_text (cell (ns_rows (r_ns s)) x column)) as [t|] eqn:Ht; [|done]. injection Hrow as -> ->.
    unfold scan_text in Ht. destruct (cell (ns_rows (r_ns s)) id column) as [| | |u| | |] eqn:Hc; try done. injection Ht as ->.
    assert (id ∈ source_rows column after scope (ns_rows (r_ns s))) as Hin.
    { apply lookup_take_Some in Hx as [Hx _]. by eapply list_elem_of_lookup_2. }
    unfold source_rows in Hin. apply elem_filter in Hin as [Hid [[_ Ht]%andb_true_iff _]%andb_true_iff].
    unfold has_text in Ht. rewrite Hc in Ht. apply negb_true_iff, String.eqb_neq in Ht. done.
Qed.

(** What is staged for a row comes from a row of the stage. *)
Definition staged_from (tbl : string) (gen : Z) (prov : string) (stage : list stage_row) (id : Z) (held : stagedVector) : Prop :=
  ∃ r, r ∈ stage ∧ staged_here tbl gen prov r = true ∧ sg_id r = id ∧ sg_digest r = sv_digest held ∧ decodeStageVector (sg_vector r) = sv_vec held.
Lemma load_rows_from rows tbl gen prov stage : (∀ r, r ∈ rows → r ∈ stage ∧ staged_here tbl gen prov r = true) → ∀ out,
  (∀ id held, out !! id = Some held → staged_from tbl gen prov stage id held) →
  ∀ id held, foldl load_row out rows !! id = Some held → staged_from tbl gen prov stage id held.
Proof.
  induction rows as [|r rows IH]; intros Hr out Hout; [exact Hout|]. cbn. apply IH; [intros x Hx; apply Hr; by right|].
  intros id held. unfold load_row. repeat (case_match; [apply Hout|]). intros [[<- <-]|[_ Hl]]%lookup_insert_Some; [|by apply Hout].
  destruct (Hr r) as [? ?]; [by left|]. by exists r.
Qed.
Lemma load_stage_from tbl gen prov l stage id held : load_stage tbl gen prov l stage !! id = Some held →
  staged_from tbl gen prov (default [] stage) id held.
Proof.
  unfold load_stage. destruct l as [|x l]; [done|]. destruct stage as [stage|]; [|done]. apply load_rows_from.
  - intros r Hr. rewrite merge_sort_Permutation in Hr. unfold stage_of in Hr. apply elem_filter in Hr as [Hr [Hh _]%andb_true_iff]. done.
  - intros ? ?. by rewrite lookup_empty.
Qed.

(** The rows of one page are stamped, the others are left. *)
Definition vectors_of (ns : nsfile DB) : gmap Z (list Z) := default ∅ (ns_vectors ns).
Definition stamped (gen : Z) (stage : option (list stage_row)) (id : Z) (text : string) (v : option (list Z)) : Prop :=
  ∃ held, staged_from table gen provider (default [] stage) id held ∧ sv_digest held = textDigest text ∧ v = Some (EncodeVector (sv_vec held)).
Lemma vectors_kept (ns : nsfile DB) : with_vectors (ns_vectors ns) ns = ns.
Proof. by destruct ns. Qed.

Lemma stamp_rows_Done loaded gen stage : (∀ id held, loaded !! id = Some held → staged_from table gen provider (default [] stage) id held) →
  ∀ page dim s dim' s', NoDup (map fst page) → (∀ id text, (id, text) ∈ page → id ∈ ids (ns_rows (r_ns s))) →
  stamp_rows loaded dim page s = (Done dim', s') →
  ∃ mv, r_ns s' = with_vectors mv (r_ns s) ∧
    (∀ id text, (id, text) ∈ page → stamped gen stage id text (default ∅ mv !! id)) ∧
    (∀ id, id ∉ map fst page → default ∅ mv !! id = vectors_of (r_ns s) !! id).
Proof.
  intros Hload. induction page as [|[id text] page IH]; intros dim s dim' s' Hnd Hin H; cbn [stamp_rows] in H.
  - injection H as <- <-. exists (ns_vectors (r_ns s)). rewrite vectors_kept. split_and!; [done| |done]. by intros ? ? ?%not_elem_of_nil.
  - cbn in Hnd. apply NoDup_cons in Hnd as [Hid Hnd]. cbn [fst snd] in H. destruct (loaded !! id) as [held|] eqn:Hl; [|done].
    destruct (String.eqb_spec (sv_digest held) (textDigest text)) as [Hd|]; cbn [negb] in H; [|done].
    destruct (_ && _); [done|]. apply abind_Done in H as (u & s1 & (m & Hm & E1 & _)%update_Done & H).
    assert (id ∈ ids (ns_rows (r_ns s))) as Hids by (eapply Hin; by left).
    unfold put_vector in E1. rewrite (bool_decide_true _ Hids) in E1.
    apply IH in H as (mv & E2 & Hp & Ho); [|done|intros i x Hx; rewrite E1; eapply Hin; by right].
    exists mv. split_and!; [by rewrite E2, E1| |].
    + intros i x [[= -> ->]|Hx]%elem_of_cons; [|by apply Hp]. exists held. split_and!; [by apply Hload|done|].
      rewrite Ho by done. rewrite E1. cbn. apply lookup_insert_eq.
    + intros i Hi. cbn in Hi. apply not_elem_of_cons in Hi as [Hne Hi]. rewrite Ho by done. rewrite E1. unfold vectors_of. rewrite Hm. cbn.
      by apply lookup_insert_ne.
Qed.

(** *** Pages *)

Lemma after_last (l : list Z) n x : StronglySorted Z.lt l → last (firstn n l) = Some x →
  List.filter (λ id, x <? id) l = skipn n l.
Proof.
  revert n. induction l as [|y l IH]; intros [|n] Hs Hx; [done..|]. apply StronglySorted_inv in Hs as [Hs Hy]. cbn [firstn] in Hx. cbn [skipn List.filter].
  destruct (last (firstn n l)) as [z|] eqn:Hz.
  - rewrite last_cons, Hz in Hx. injection Hx as ->. rewrite <- (IH n) by done.
    assert (x ∈ l) as Hin.
    { apply last_Some_elem_of in Hz. apply list_elem_of_lookup in Hz as [i Hi]. apply lookup_take_Some in Hi as [Hi _]. by eapply list_elem_of_lookup_2. }
    rewrite Forall_forall in Hy. specialize (Hy x Hin). by destruct (Z.ltb_spec x y); [lia|].
  - rewrite last_cons, Hz in Hx. injection Hx as <-. rewrite Z.ltb_irrefl. apply last_None in Hz.
    assert (skipn n l = l) as -> by (destruct n, l; done). rewrite Forall_forall in Hy. clear -Hy.
    induction l as [|z l IH]; [done|]. cbn. pose proof (Hy z (list_elem_of_here _ _)). destruct (Z.ltb_spec y z); [|lia].
    f_equal. apply IH. intros w Hw. apply Hy. by right.
Qed.
Lemma filter_sorted (p : Z → bool) l : StronglySorted Z.lt l → StronglySorted Z.lt (List.filter p l).
Proof.
  induction l as [|x l IH]; [done|]. intros [Hs Hx]%StronglySorted_inv. cbn. destruct (p x); [|by apply IH]. constructor; [by apply IH|].
  rewrite Forall_forall in Hx |- *. intros y [Hy _]%elem_filter. by apply Hx.
Qed.
Lemma source_rows_next column after scope (d : DB) x : StronglySorted Z.lt (ids d) →
  last (firstn embedBackfillPage (source_rows column after scope d)) = Some x → after <= x →
  source_rows column x scope d = skipn embedBackfillPage (source_rows column after scope d).
Proof.
  intros Hs Hx Hle. assert (StronglySorted Z.lt (source_rows column after scope d)) as Hf by by apply filter_sorted.
  rewrite <- (after_last _ _ _ Hf Hx). clear Hf. unfold source_rows. clear Hx Hs.
  induction (ids d) as [|y l IH]; [done|]. cbn. destruct (Z.ltb_spec after y); cbn.
  - destruct (Z.ltb_spec x y); destruct (has_text d column y && visible d scope y) eqn:Hp; rewrite <- ?andb_assoc, ?Hp in *; cbn;
      rewrite ?IH; try done; destruct (Z.ltb_spec x y); try lia; done.
  - destruct (Z.ltb_spec x y); [lia|]. cbn. exact IH.
Qed.

(** The first page and the rows after it. *)
Lemma page_split column after scope (d : DB) x id : StronglySorted Z.lt (ids d) →
  last (firstn embedBackfillPage (source_rows column after scope d)) = Some x →
  id ∈ source_rows column after scope d ↔
    (id ∈ firstn embedBackfillPage (source_rows column after scope d)) ∨ (id ∈ source_rows column x scope d).
Proof.
  intros Hs Hx. rewrite (source_rows_next column after scope d x Hs Hx).
  - rewrite <- (firstn_skipn embedBackfillPage (source_rows column after scope d)) at 1. apply elem_of_app.
  - apply last_Some_elem_of, list_elem_of_lookup in Hx as [i Hi]. apply lookup_take_Some in Hi as [Hi _]. apply list_elem_of_lookup_2 in Hi.
    unfold source_rows in Hi. apply elem_filter in Hi as [_ [[Hi _]%andb_true_iff _]%andb_true_iff]. apply Z.ltb_lt in Hi. lia.
Qed.
Lemma page_nodup column after scope (d : DB) : StronglySorted Z.lt (ids d) →
  NoDup (firstn embedBackfillPage (source_rows column after scope d)).
Proof.
  intros Hs. assert (NoDup (source_rows column after scope d)) as Hnd.
  { apply (filter_sorted (λ id, (after <? id) && has_text d column id && visible d scope id)) in Hs. unfold source_rows.
    induction Hs as [|y l Hs IH Hy]; [constructor|]. constructor; [|done]. intros Hin. rewrite Forall_forall in Hy. specialize (Hy y Hin). lia. }
  rewrite <- (firstn_skipn embedBackfillPage (source_rows column after scope d)) in Hnd. by apply NoDup_app in Hnd as [? _].
Qed.
Lemma last_page (page : list (Z * string)) : fst <$> last page = last (map fst page).
Proof. induction page as [|r page IH]; [done|]. cbn [map]. rewrite !last_cons, <- IH. by destruct (last page). Qed.

(** All the rows after a position that hold a text are stamped. *)
Lemma stamp_pages_Done gen column : ∀ fuel dim after s dim' s', StronglySorted Z.lt (ids (ns_rows (r_ns s))) →
  stamp_pages fuel column gen dim after s = (Done dim', s') →
  ∃ mv, r_ns s' = with_vectors mv (r_ns s) ∧ ∀ id,
    if bool_decide (id ∈ source_rows column after None (ns_rows (r_ns s)))
    then ∃ text, cell (ns_rows (r_ns s)) id column = VText text ∧ text ≠ "" ∧ (id ∈ ids (ns_rows (r_ns s))) ∧
           stamped gen (ns_stage (r_ns s)) id text (default ∅ mv !! id)
    else default ∅ mv !! id = vectors_of (r_ns s) !! id.
Proof.
  induction fuel as [|fuel IH]; intros dim after s dim' s' Hs H; cbn [stamp_pages] in H; [done|].
  apply abind_Done in H as (page & s1 & (E1 & Hfst & Hpage)%source_page_Done & H).
  pose proof (last_page page) as Hlast. rewrite Hfst in Hlast. destruct (last page) as [[lastID t]|] eqn:El; cbn in Hlast.
  - apply abind_Done in H as (loaded & s2 & (Hload & E2 & _)%ask_Done & H). injection Hload as <-.
    apply abind_Done in H as (d1 & s3 & H3 & H). rewrite E1 in E2.
    eapply (stamp_rows_Done _ gen (ns_stage (r_ns s))) in H3 as (m1 & E3 & Hin & Hout).
    + rewrite E2 in E3, Hout. apply IH in H as (m2 & E4 & Hall); [|by rewrite E3]. rewrite E3 in E4, Hall. cbn in E4, Hall.
      exists m2. split; [by rewrite E4|]. intros id. specialize (Hall id).
      destruct (decide (id ∈ source_rows column lastID None (ns_rows (r_ns s)))) as [Hd|Hd].
      { rewrite (bool_decide_true _ Hd) in Hall. rewrite bool_decide_true; [done|]. apply (page_split _ _ _ _ _ _ Hs (eq_sym Hlast)). by right. }
      rewrite (bool_decide_false _ Hd) in Hall. unfold vectors_of in Hall. cbn in Hall.
      destruct (decide (id ∈ map fst page)) as [Hp|Hp].
      * rewrite bool_decide_true; [|apply (page_split _ _ _ _ _ _ Hs (eq_sym Hlast)); left; by rewrite <- Hfst].
        apply list_elem_of_fmap in Hp as ([i text] & -> & Hp). destruct (Hpage _ _ Hp) as (? & ? & ?). exists text.
        split_and!; [done..|]. rewrite Hall. by apply Hin.
      * rewrite bool_decide_false; [by rewrite Hall, Hout|]. rewrite (page_split _ _ _ _ _ _ Hs (eq_sym Hlast)), <- Hfst. tauto.
    + intros id held Hl. rewrite E1 in Hl. by eapply load_stage_from.
    + rewrite Hfst. by apply page_nodup.
    + rewrite E2. intros id text Hp. by destruct (Hpage _ _ Hp) as (_ & _ & ?).
  - injection H as <- <-. exists (ns_vectors (r_ns s1)). rewrite E1, vectors_kept. split; [done|]. intros id.
    rewrite bool_decide_false; [done|]. symmetry in Hlast. apply last_None in Hlast.
    destruct (source_rows column after None (ns_rows (r_ns s))); [apply not_elem_of_nil|done].
Qed.

Lemma run_statements_Done steps : ∀ s u s', run_statements steps s = (Done u, s') →
  ∃ d, run_steps steps (ns_rows (r_ns s)) = Some d ∧ r_ns s' = with_rows d (r_ns s).
Proof.
  induction steps as [|stmt steps IH]; intros s u s' H; cbn [run_statements run_steps] in *.
  - injection H as <- <-. exists (ns_rows (r_ns s)). split; [done|]. by destruct (r_ns s).
  - apply abind_Done in H as (v & s1 & (ns & Hf & E1 & _)%stmt_ran & H). destruct (exec stmt (ns_rows (r_ns s))) as [d|]; [|done].
    injection Hf as <- <-. apply IH in H as (d' & Hd & E2). rewrite E1 in Hd, E2. exists d'. split; [exact Hd|]. by rewrite E2.
Qed.
Definition indexed (fields : list Field) (d : DB) : option (list string * list (Z * list sqlval)) :=
  match FTSFields fields with [] => None | fts => Some (map f_Name fts, index_rows (map f_Name fts) d) end.
Lemma rebuild_index_Done fields s u s' : rebuild_index fields s = (Done u, s') →
  r_ns s' = with_index (indexed fields (ns_rows (r_ns s))) (r_ns s).
Proof.
  unfold rebuild_index, indexed. intros H. apply abind_Done in H as (v & s1 & [E1 _]%write_Done & H).
  destruct (FTSFields fields) as [|f fts]; [by injection H as <- <-|]. apply write_Done in H as [E2 _]. by rewrite E2, E1.
Qed.

Record applied (m : migrationWork) (from gen : Z) (constant : option (list Z)) (ns ns' : nsfile DB) (sc : TableSchema) : Prop := Applied {
  ap_rows : run_steps (m_steps m) (ns_rows ns) = Some (ns_rows ns');
  ap_schema : ns_schema ns' = Some sc ∧ ∃ dim, sc = with_embedding (t_EmbedSpace (m_cur m)) dim (m_cur m);
  ap_same : ns_gen ns' = ns_gen ns ∧ ns_dropGen ns' = ns_dropGen ns ∧ ns_changes ns' = ns_changes ns;
  ap_log : ns_migrations ns' = ns_migrations ns ++ [(from, t_Version sc)];
  ap_index : ns_index ns' = if m_fts m then indexed (t_Fields (m_cur m)) (ns_rows ns') else ns_index ns;
  ap_stage : ns_stage ns' = List.filter (λ r, negb (String.eqb (sg_table r) table)) <$> ns_stage ns;
  ap_vectors : let e := m_embed m in ∃ v : gmap Z (list Z),
    (let cleared := if e_clear e then ∅ else vectors_of ns in
     if e_embedding e && e_hasSource e then ∀ id : Z,
       if bool_decide (id ∈ source_rows (e_source e) 0 None (ns_rows ns))
       then ∃ text, cell (ns_rows ns) id (e_source e) = VText text ∧ text ≠ "" ∧ (id ∈ ids (ns_rows ns)) ∧
              stamped gen (ns_stage ns) id text (v !! id)
       else v !! id = cleared !! id
     else v = cleared) ∧
    if e_embedding e && negb (String.eqb (e_constant e) "")
    then ∃ c, constant = Some c ∧ ∀ id : Z,
      vectors_of ns' !! id = if bool_decide (id ∈ texts_of (e_target e) (ns_rows ns')) then Some (EncodeVector c) else v !! id
    else vectors_of ns' = v }.

Lemma when_else_Done {A} b (m : st A) o s a s' : when_else b m o s = (Done a, s') →
  b = true ∧ m s = (Done a, s') ∨ b = false ∧ a = o ∧ s' = s.
Proof. unfold when_else. destruct b; [by left|]. intros [= <- <-]. by right. Qed.
Lemma put_all (l : list Z) (b : list Z) (m : gmap Z (list Z)) id :
  foldr (λ id, <[id := b]>) m l !! id = if bool_decide (id ∈ l) then Some b else m !! id.
Proof.
  induction l as [|x l IH]; cbn; [by rewrite bool_decide_false by apply not_elem_of_nil|].
  destruct (decide (x = id)) as [->|Hne].
  - rewrite lookup_insert_eq. by rewrite bool_decide_true by by left.
  - rewrite lookup_insert_ne, IH by done. rewrite (bool_decide_ext (id ∈ x :: l) (id ∈ l)); [done|].
    rewrite elem_of_cons. split; [by intros [->|]|by right].
Qed.
Lemma stamp_constant_Done target dim constant s dim' s' : stamp_constant target dim constant s = (Done dim', s') →
  ∃ c mv, constant = Some c ∧ r_ns s' = with_vectors (Some mv) (r_ns s) ∧
    ∀ id, mv !! id = if bool_decide (id ∈ texts_of target (ns_rows (r_ns s))) then Some (EncodeVector c) else vectors_of (r_ns s) !! id.
Proof.
  unfold stamp_constant. destruct constant as [c|]; [|done]. intros H.
  apply abind_Done in H as (u & s1 & (m & Hm & E1 & _)%update_Done & H). apply abind_Done in H as (ns & s2 & H2 & H).
  injection H2 as <- <-. injection H as <- <-. eexists c, _. split_and!; [done|exact E1|]. intros id.
  unfold put_constant, vectors_of. rewrite put_all, Hm. done.
Qed.
Lemma stampMigratedConstraints_Done cur s u s' : stampMigratedConstraints cur s = (Done u, s') →
  r_ns s' = r_ns s ∨ r_ns s' = with_reader (r_ns s).
Proof.
  unfold stampMigratedConstraints. destruct (t_Constraints cur); [destruct (t_AcceptReferences cur)|]; intros H;
    first [by apply write_Done in H as [-> _]; right|by injection H as <- <-; left].
Qed.

Lemma apply_plan_Done fuel m from gen constant s sc s' : StronglySorted Z.lt (ids (ns_rows (r_ns s))) →
  apply_plan fuel m from gen constant s = (Done sc, s') → applied m from gen constant (r_ns s) (r_ns s') sc.
Proof.
  intros Hs H. unfold apply_plan in H.
  apply abind_Done in H as (u1 & s1 & H1 & H).
  assert (∃ mv, r_ns s1 = with_vectors mv (r_ns s) ∧ default ∅ mv = vectors_of (r_ns s)) as (v1 & E1 & V1).
  { apply when_else_Done in H1 as [[_ [H1 _]%write_Done]|(_ & _ & ->)].
    - exists (Some (vectors_of (r_ns s))). split; [exact H1|done].
    - exists (ns_vectors (r_ns s)). by rewrite vectors_kept. }
  apply abind_Done in H as (u2 & s2 & H2 & H).
  assert (∃ mv, r_ns s2 = with_vectors mv (r_ns s) ∧ default ∅ mv = if e_clear (m_embed m) then ∅ else vectors_of (r_ns s)) as (v2 & E2 & V2).
  { apply when_else_Done in H2 as [[-> (mm & _ & H2 & _)%update_Done]|(-> & _ & ->)].
    - exists (Some ∅). by rewrite H2, E1.
    - by exists v1. }
  clear E1 V1 H1 H2.
  apply abind_Done in H as (dim & s3 & H3 & H).
  assert (∃ mv, r_ns s3 = with_vectors mv (r_ns s) ∧
    let cleared := if e_clear (m_embed m) then ∅ else vectors_of (r_ns s) in
    if e_embedding (m_embed m) && e_hasSource (m_embed m) then ∀ id : Z,
      if bool_decide (id ∈ source_rows (e_source (m_embed m)) 0 None (ns_rows (r_ns s)))
      then ∃ text, cell (ns_rows (r_ns s)) id (e_source (m_embed m)) = VText text ∧ text ≠ "" ∧ (id ∈ ids (ns_rows (r_ns s))) ∧
             stamped gen (ns_stage (r_ns s)) id text (default ∅ mv !! id)
      else default ∅ mv !! id = cleared !! id
    else default ∅ mv = cleared) as (v3 & E3 & V3).
  { cbn zeta. apply when_else_Done in H3 as [[-> H3]|(-> & _ & ->)]; [|by exists v2]. destruct (negb _); [done|].
    apply stamp_pages_Done in H3 as (mv & E3 & V3); [|by rewrite E2]. rewrite E2 in E3, V3. cbn in E3, V3.
    exists mv. split; [exact E3|]. intros id. specialize (V3 id). unfold vectors_of in V3. cbn in V3. by rewrite V2 in V3. }
  clear E2 V2 H3. apply abind_Done in H as (u4 & s4 & (d & Hd & E4)%run_statements_Done & H). rewrite E3 in Hd, E4. cbn in Hd, E4.
  apply abind_Done in H as (u5 & s5 & H5 & H).
  assert (∃ ix, r_ns s5 = with_index ix (r_ns s4) ∧ ix = if m_fts m then indexed (t_Fields (m_cur m)) d else ns_index (r_ns s)) as (ix & E5 & Hix).
  { apply when_else_Done in H5 as [[-> H5%rebuild_index_Done]|(-> & _ & ->)]; eexists; (split; [|reflexivity]); [by rewrite H5, E4|by rewrite E4]. }
  clear H5. rewrite E4 in E5. cbn in E5. apply abind_Done in H as (dim' & s6 & H6 & H).
  assert (∃ mv, r_ns s6 = with_vectors mv (r_ns s5) ∧
    if e_embedding (m_embed m) && negb (String.eqb (e_constant (m_embed m)) "")
    then ∃ c, constant = Some c ∧ ∀ id : Z,
      default ∅ mv !! id = if bool_decide (id ∈ texts_of (e_target (m_embed m)) d) then Some (EncodeVector c) else default ∅ v3 !! id
    else default ∅ mv = default ∅ v3) as (v6 & E6 & V6).
  { apply when_else_Done in H6 as [[-> H6]|(-> & _ & ->)].
    - apply stamp_constant_Done in H6 as (c & mv & Hc & E6 & V6). exists (Some mv). split; [exact E6|]. exists c. split; [done|].
      rewrite E5 in V6. unfold vectors_of in V6. cbn in V6. exact V6.
    - exists (ns_vectors (r_ns s5)). rewrite vectors_kept. split; [done|]. by rewrite E5. }
  clear H6. rewrite E5 in E6. cbn in E6. apply abind_Done in H as (u7 & s7 & [E7 _]%write_Done & H).
  apply abind_Done in H as (u8 & s8 & E8%stampMigratedConstraints_Done & H). apply abind_Done in H as (u9 & s9 & [E9 _]%write_Done & H).
  injection H as <- <-. rewrite E6 in E7. cbn in E7. clear E3 E4 E5 E6.
  destruct E8 as [E8|E8]; rewrite E8, E7 in E9; clear E7 E8; rewrite E9; split; cbn; try done.
  all: try (split; [done|by exists dim']).
  all: exists (default ∅ v3); split; [exact V3|exact V6].
Qed.
End Commit.

(** ** Every migration comes to an end

    The pages advance by the number of the last row, and [N] bounds the numbers
    of the rows: [Z.to_nat N] is fuel enough, whatever the other clients write
    below it. *)

Section Bounded.
Context {DB : Type} {E : Engine DB} {L : EngineLaws DB} {UT : UnicodeTables} {W : Surroundings DB}.
#[local] Abbreviation st := (staged DB).
Context (N : Z).
Definition bounded (ns : nsfile DB) : Prop := StronglySorted Z.lt (ids (ns_rows ns)) ∧ Forall (λ id, id <= N) (ids (ns_rows ns)).
Hypothesis others_bounded : ∀ n ns, bounded ns → bounded (others n ns).

Definition returning {A} (m : st A) : Prop := keeps bounded m ∧ ∀ s, bounded (r_ns s) → (m s).1 ≠ OutOfFuel.
Definition enough (fuel : nat) (after : Z) : Prop := Z.max 0 (N - after) < Z.of_nat fuel.

Lemma stmt_halts {A} (f : nsfile DB → outcome staged_error (A * nsfile DB)) : (∀ ns, f ns ≠ OutOfFuel) → halts (stmt f).
Proof. intros Hf s. unfold stmt. destruct (failing _); [done|]. specialize (Hf (r_ns s)). by destruct (f (r_ns s)) as [[]| |]. Qed.
Lemma ask_halts {A} (f : nsfile DB → outcome staged_error A) : (∀ ns, f ns ≠ OutOfFuel) → halts (ask f).
Proof. intros Hf. apply stmt_halts. intros ns. specialize (Hf ns). by destruct (f ns). Qed.
Lemma write_halts f : halts (write (DB := DB) f).
Proof. by apply stmt_halts. Qed.
Lemma update_halts f : halts (update_vectors (DB := DB) f).
Proof. apply stmt_halts. intros ns. by destruct (ns_vectors ns). Qed.
Lemma answer_halts {A} (o : outcome staged_error A) : o ≠ OutOfFuel → halts (answer (DB := DB) o).
Proof. intros Ho s. exact Ho. Qed.
Lemma now_halts : halts (now (DB := DB)).
Proof. done. Qed.
Lemma begin_halts : halts begin_tx.
Proof. intros s. by apply ask_halts. Qed.
Lemma check_vectors_returns zero nonfinite wrong vecs : ∀ dim, check_vectors zero nonfinite wrong dim vecs ≠ OutOfFuel.
Proof. induction vecs; intros dim; cbn; halting. Qed.
Lemma embed_halts sc texts : halts (embedTexts (DB := DB) sc texts).
Proof.
  intros s. unfold embedTexts. repeat (case_match; [done|]). case_match; [|done]. case_match; [done|]. cbn.
  pose proof (check_vectors_returns ZeroVector NonFiniteVector WrongDimension l (t_EmbedDim sc)). by destruct (check_vectors _ _ _ _ _).
Qed.
Lemma plan_now_halts scope old changes expected : halts (plan_now (DB := DB) scope old changes expected).
Proof. intros s. unfold plan_now, refused. cbn. apply lift_error_returns, planMigration_returns. Qed.

Lemma source_page_above column after scope s page s' : source_page column after scope s = (Done page, s') → bounded (r_ns s) →
  ∀ lastID text, last page = Some (lastID, text) → after < lastID <= N.
Proof.
  intros (_ & Hfst & _)%source_page_Done [_ HN] lastID text Hl. pose proof (last_page page) as Hlast. rewrite Hl, Hfst in Hlast. cbn in Hlast.
  symmetry in Hlast. apply last_Some_elem_of, list_elem_of_lookup in Hlast as [i Hi]. apply lookup_take_Some in Hi as [Hi _].
  apply list_elem_of_lookup_2 in Hi. unfold source_rows in Hi. apply elem_filter in Hi as [Hid [[Ha _]%andb_true_iff _]%andb_true_iff].
  rewrite Forall_forall in HN. specialize (HN _ Hid). apply Z.ltb_lt in Ha. lia.
Qed.

Lemma returning_halts {A} (m : st A) : keeps bounded m → halts m → returning m.
Proof. intros Hk Hh. split; [done|]. intros s _. apply Hh. Qed.
Lemma returning_reads {A} (m : st A) : reads m → halts m → returning m.
Proof. intros Hr Hh. apply returning_halts; [by apply keeps_reads|done]. Qed.
Lemma returning_when {A B} (m : st A) (P : A → Prop) (k : A → st B) : returning m →
  (∀ s a s', m s = (Done a, s') → bounded (r_ns s) → P a) → (∀ a, P a → returning (k a)) → returning (abind m k).
Proof.
  intros [Hm Hh] HP Hk. split.
  - intros s o s' H Hi. unfold abind in H. destruct (m s) as [[a|e|] s1] eqn:Es; pose proof (Hm _ _ _ Es Hi) as Hi1;
      [by eapply (Hk a); [eapply HP|exact H|]|by injection H as <- <-..].
  - intros s Hi. unfold abind. specialize (Hh s Hi). destruct (m s) as [[a|e|] s1] eqn:Es; [|done..].
    eapply (Hk a); [by eapply HP|by eapply Hm].
Qed.
Lemma returning_bind {A B} (m : st A) (k : A → st B) : returning m → (∀ a, returning (k a)) → returning (abind m k).
Proof. intros Hm Hk. by apply (returning_when m (λ _, True)). Qed.
Lemma returning_ret {A} (a : A) : returning (aret a).
Proof. apply returning_reads; [apply reads_ret|done]. Qed.
Lemma returning_fail {A} e : returning (A := A) (afail e).
Proof. apply returning_reads; [apply reads_fail|done]. Qed.
Lemma returning_answer {A} (o : outcome staged_error A) : o ≠ OutOfFuel → returning (answer o).
Proof. intros Ho. apply returning_reads; [apply reads_outcome|by apply answer_halts]. Qed.
Lemma returning_ask {A} (f : nsfile DB → outcome staged_error A) : (∀ ns, f ns ≠ OutOfFuel) → returning (ask f).
Proof. intros Hf. apply returning_reads; [apply reads_ask|by apply ask_halts]. Qed.
Lemma returning_begin : returning begin_tx.
Proof. apply returning_halts; [by apply keeps_begin|apply begin_halts]. Qed.
Lemma returning_read_tx {A} (m : st A) : returning m → returning (read_tx m).
Proof. intros Hm. apply returning_bind; [apply returning_begin|done]. Qed.
Lemma returning_write f : (∀ ns, ns_rows (f ns) = ns_rows ns) → returning (write f).
Proof. intros Hf. apply returning_halts; [apply keeps_write; intros ns; unfold bounded; by rewrite Hf|apply write_halts]. Qed.
Lemma returning_update f : returning (update_vectors f).
Proof.
  apply returning_halts; [|apply update_halts]. intros s [a|e|] s' H Hi;
    [apply update_Done in H as (m & _ & -> & _); exact Hi|by rewrite (proj1 (stmt_else _ _ _ _ H ltac:(done)))..].
Qed.
Lemma returning_write_tx {A} (m : st A) : returning m → returning (write_tx m).
Proof.
  intros [Hk Hh]. split; [by apply keeps_write_tx|]. intros s Hi. unfold write_tx.
  pose proof (begin_halts s) as Hb. destruct (begin_tx s) as [[u|e|] s1] eqn:Eb; [|done..].
  assert (bounded (r_ns s1)) as Hi1 by (by eapply keeps_begin). unfold abind. specialize (Hh s1 Hi1).
  destruct (m s1) as [[a|e|] s2]; [|done..]. pose proof (ask_halts (λ _, Done ()) ltac:(done) s2) as Hc.
  by destruct (ask _ s2) as [[]].
Qed.
#[local] Hint Resolve returning_ret returning_fail returning_begin returning_update : core.

(** The numbers of the rows of a page lie above [after]. *)
Lemma returning_page {B} column after scope (k : list (Z * string) → st B) :
  (∀ page, (∀ lastID text, last page = Some (lastID, text) → after < lastID <= N) → returning (k page)) →
  returning (abind (source_page column after scope) k).
Proof.
  intros Hk. eapply returning_when; [|intros s page s' H Hi; exact (source_page_above _ _ _ _ _ _ H Hi)|exact Hk].
  apply returning_ask. intros ns. by destruct (mapM _ _).
Qed.
Lemma returning_backfill {B} column after (k : list (Z * string) → st B) :
  (∀ page, (∀ lastID text, last page = Some (lastID, text) → after < lastID <= N) → returning (k page)) →
  returning (abind (backfillPage column after) k).
Proof.
  intros Hk. eapply returning_when; [| |exact Hk].
  - apply returning_read_tx, returning_ask. intros ns. by destruct (mapM _ _).
  - intros s page s' H Hi. unfold backfillPage, read_tx in H. apply abind_Done in H as (u & s1 & Hb & H).
    eapply source_page_above; [exact H|]. by eapply keeps_begin.
Qed.
Lemma enough_next fuel after lastID : enough (S fuel) after → after < lastID <= N → enough fuel lastID.
Proof. unfold enough. lia. Qed.
Lemma enough_none after : ¬ enough 0 after.
Proof. unfold enough. lia. Qed.

Ltac returning_step :=
  match goal with
  | |- returning (abind (source_page _ _ _) _) => apply returning_page; intros ? ?
  | |- returning (abind (backfillPage _ _) _) => apply returning_backfill; intros ? ?
  | |- returning (abind _ _) => apply returning_bind; [|intros ?]
  | |- returning (read_tx _) => apply returning_read_tx
  | |- returning (write_tx _) => apply returning_write_tx
  | |- returning (ask _) => apply returning_ask; intros ?; by repeat case_match
  | |- returning (write _) => apply returning_write; done
  | |- returning (if ?b then _ else _) => destruct b
  | |- returning (match ?x with _ => _ end) => destruct x eqn:?
  | |- returning _ => solve [auto] || (progress unfold loadSchema, tableGen, readNSGen, changeHead, loadStagedVectors, when_else)
  end.
Ltac returning_all := repeat returning_step.

Lemma returning_embed sc texts : returning (embedTexts sc texts).
Proof. apply returning_reads; [apply reads_embed|apply embed_halts]. Qed.
Lemma returning_plan scope old changes expected : returning (plan_now scope old changes expected).
Proof. apply returning_reads; [apply reads_plan|apply plan_now_halts]. Qed.
Lemma returning_now : returning now.
Proof. apply returning_reads; [apply reads_now|apply now_halts]. Qed.
Lemma returning_lifetime expected : returning (checkBoundLifetime expected).
Proof. unfold checkBoundLifetime. returning_all. Qed.
Lemma returning_version v old : returning (answer (refused (checkExpectedVersion v old))).
Proof. apply returning_answer. unfold refused. apply lift_error_returns. unfold checkExpectedVersion. halting. Qed.
#[local] Hint Resolve returning_embed returning_plan returning_now returning_lifetime returning_version : core.

Lemma returning_stage_fresh cur gen dim fresh : returning (stage_fresh cur gen dim fresh).
Proof.
  unfold stage_fresh, stagePage, writeStagedVectors. returning_all. apply returning_answer, check_vectors_returns.
Qed.
#[local] Hint Resolve returning_stage_fresh : core.
Lemma returning_stage_pages cur column gen fuel : ∀ dim after, enough fuel after → returning (stage_pages fuel cur column gen dim after).
Proof.
  induction fuel as [|fuel IH]; intros dim after Hf; [by apply enough_none in Hf|]. cbn [stage_pages]. returning_all.
  apply IH. by eapply enough_next, H.
Qed.
Lemma returning_cover_pages snap column gen fuel : ∀ after, enough fuel after → returning (cover_pages fuel snap column gen after).
Proof.
  induction fuel as [|fuel IH]; intros after Hf; [by apply enough_none in Hf|]. cbn [cover_pages]. returning_all.
  apply IH. by eapply enough_next, H.
Qed.
Lemma returning_stamp_rows staged page : ∀ dim, returning (stamp_rows staged dim page).
Proof. induction page as [|row page IH]; intros dim; cbn [stamp_rows]; returning_all. Qed.
#[local] Hint Resolve returning_stamp_rows : core.
Lemma returning_stamp_pages column gen fuel : ∀ dim after, enough fuel after → returning (stamp_pages fuel column gen dim after).
Proof.
  induction fuel as [|fuel IH]; intros dim after Hf; [by apply enough_none in Hf|]. cbn [stamp_pages]. returning_all.
  apply IH. by eapply enough_next, H.
Qed.
Lemma returning_count_pages column gen scope fuel : ∀ after n, enough fuel after → returning (count_pages fuel column gen after n scope).
Proof.
  induction fuel as [|fuel IH]; intros after n Hf; [by apply enough_none in Hf|]. cbn [count_pages]. returning_all.
  apply IH. by eapply enough_next, H.
Qed.
Lemma returning_any column staged l : returning (anyRowMissing column staged l).
Proof. induction l as [|id l IH]; cbn [anyRowMissing]; returning_all. Qed.
#[local] Hint Resolve returning_any : core.
Lemma returning_chunks gen column fuel : ∀ l, (length l <= fuel)%nat → returning (stale_chunks fuel gen column l).
Proof.
  induction fuel as [|fuel IH]; intros [|id l] Hl; [apply returning_ret|cbn in Hl; lia|apply returning_ret|]. cbn [stale_chunks]. returning_all.
  apply IH. cbn in *. rewrite length_skipn. lia.
Qed.
Lemma returning_stale e gen head : returning (stale_now e gen head).
Proof. unfold stale_now, rowsStaleSince. returning_all. by apply returning_chunks. Qed.
Lemma returning_statements steps : returning (run_statements steps).
Proof.
  induction steps as [|step steps IH]; cbn [run_statements]; returning_all. apply returning_halts.
  - intros s [a|e|] s' H Hi; [|by rewrite (proj1 (stmt_else _ _ _ _ H ltac:(done)))..].
    apply stmt_ran in H as (ns & Hx & -> & _). destruct (exec step (ns_rows (r_ns s))) as [d|] eqn:Hd; [|done]. injection Hx as _ <-.
    unfold bounded. cbn. by rewrite (exec_ids _ _ _ Hd).
  - apply stmt_halts. intros ns. by destruct (exec step (ns_rows ns)).
Qed.
#[local] Hint Resolve returning_stale returning_statements : core.

Context (fuel : nat) (Hfuel : Z.max 0 N < Z.of_nat fuel).
Lemma enough_start : enough fuel 0.
Proof. unfold enough. lia. Qed.
#[local] Hint Resolve enough_start returning_stage_pages returning_cover_pages returning_stamp_pages returning_count_pages : core.

Lemma returning_stageBackfill m gen : returning (stageBackfill fuel m gen).
Proof. unfold stageBackfill. returning_all. Qed.
Lemma returning_coverage m gen : returning (coverageCheck fuel m gen).
Proof. unfold coverageCheck. returning_all. Qed.
Lemma returning_apply m from gen constant : returning (apply_plan fuel m from gen constant).
Proof. unfold apply_plan, rebuild_index, stamp_constant, stampMigratedConstraints. returning_all. Qed.
#[local] Hint Resolve returning_apply : core.
Lemma returning_activate changes expected gen constant head : returning (activateMigration fuel changes expected gen constant head).
Proof. unfold activateMigration, activation. returning_all. Qed.
Lemma returning_attempt changes expected m gen : returning (attempt fuel changes expected m gen).
Proof.
  pose proof returning_stageBackfill. pose proof returning_coverage. pose proof returning_activate.
  unfold attempt. match goal with |- returning (retrying ?x) => assert (returning x) as [Hk Hh] end; [returning_all|].
  split.
  - intros s o s' H2 Hi. unfold retrying in H2. destruct (abind _ _ s) as [[a|e|] s1] eqn:Es; pose proof (Hk _ _ _ Es Hi) as Hi1.
    + by injection H2 as <- <-.
    + destruct e; by injection H2 as <- <-.
    + by injection H2 as <- <-.
  - intros s Hi. unfold retrying. specialize (Hh s Hi). destruct (abind _ _ s) as [[a|[]|] s1]; done.
Qed.
Lemma returning_attempts changes expected turns : ∀ first, returning (attempts turns fuel changes expected first).
Proof.
  pose proof returning_attempt. induction turns as [|turns IH]; intros first; cbn [attempts]; unfold readMigratePlan; returning_all.
Qed.
Lemma returning_secret fields : returning (answer (requireSecretKey fields)).
Proof. apply returning_answer. unfold requireSecretKey. halting. Qed.
Lemma returning_Migrate changes expected : returning (Migrate fuel changes expected).
Proof. pose proof returning_attempts. pose proof returning_secret. unfold Migrate. returning_all. Qed.
Lemma returning_PlanMigration changes expected scope inc : returning (PlanMigration fuel changes expected scope inc).
Proof.
  pose proof returning_secret. unfold PlanMigration, checkScopeIncarnation, applyStagedPlan, countStagedVectors. returning_all.
  apply returning_answer. unfold scopeUsable. halting.
Qed.
End Bounded.
