(* ===== verification/StagedTheorems.v ===== *)
(** * Carrying out a migration: theorems

    Other clients write between any two transactions of a migration, any of
    its statements may fail, and the provider answers what it likes. *)
From Stdlib Require Import ZArith QArith Qcanon Lia Ascii String.
From stdpp Require Import base gmap strings list sorting.
From S2P Require Import Prelude GoStrings AuthIdentity FilterLexer FilterParser SchemaIdent Schema SchemaFacts SchemaConstraints SchemaRules Authz.
From S2P Require Import GoNumbers Timestamps ConstraintValues ConstraintPlans ConstraintCatalog TableEngine Migrate MigrateFacts MigrateData MigrateTheorems.
From S2P Require Import SchemaText Changelog MigrateStaged StagedFacts.
Local Open Scope Z_scope.

(** ** A migration nobody disturbs *)
(** *** What is staged for a row *)

Definition valid_row (r : stage_row) : bool :=
  (String.length (sg_digest r) =? digestSize)%nat && negb (length (decodeStageVector (sg_vector r)) =? 0)%nat.
Definition held_of (r : stage_row) : stagedVector := MkStaged (sg_id r) (sg_digest r) (decodeStageVector (sg_vector r)).
Lemma load_row_valid out r : load_row out r = if valid_row r && negb (bool_decide (is_Some (out !! sg_id r))) then <[sg_id r := held_of r]> out else out.
Proof.
  unfold load_row, valid_row. destruct (_ =? digestSize)%nat; [|done]. cbn. destruct (_ =? 0)%nat; [done|]. cbn. by case_bool_decide.
Qed.
Lemma load_rows_grow rows : ∀ out id held, out !! id = Some held → foldl load_row out rows !! id = Some held.
Proof.
  induction rows as [|r rows IH]; intros out id held Ho; [done|]. cbn. apply IH. rewrite load_row_valid.
  destruct (valid_row r); [|done]. case_bool_decide as Hb; [done|]. cbn. rewrite lookup_insert_ne; [done|]. intros <-. apply Hb. by exists held.
Qed.
Lemma load_rows_has rows r : r ∈ rows → valid_row r = true → ∀ out, is_Some (foldl load_row out rows !! sg_id r).
Proof.
  intros Hr Hv. induction rows as [|x rows IH]; [by apply not_elem_of_nil in Hr|]. intros out. cbn.
  apply elem_of_cons in Hr as [<-|Hr]; [|by apply IH]. rewrite load_row_valid, Hv. cbn.
  case_bool_decide as Hb; cbn; [destruct Hb as [h Hh]; exists h; by apply load_rows_grow|].
  exists (held_of r). apply load_rows_grow, lookup_insert_eq.
Qed.
Lemma load_rows_only rows : ∀ out id held, foldl load_row out rows !! id = Some held →
  out !! id = Some held ∨ ∃ r, (r ∈ rows) ∧ sg_id r = id ∧ valid_row r = true ∧ held = held_of r.
Proof.
  induction rows as [|x rows IH]; intros out id held H; [by left|]. cbn in H.
  apply IH in H as [H|(r & ? & ?)]; [|right; exists r; split; [by right|done]]. rewrite load_row_valid in H.
  destruct (valid_row x) eqn:Hv; [|by left]. destruct (negb _); [|by left].
  apply lookup_insert_Some in H as [[<- <-]|[_ H]]; [|by left]. right. exists x. split_and!; try done. by left.
Qed.

Section Staged.
Context {DB : Type} {W : Surroundings DB}.
Context (gen : Z).

(** At most one vector is staged for a row. *)
Definition single (stage : list stage_row) : Prop := ∀ r1 r2, r1 ∈ stage → r2 ∈ stage →
  staged_here table gen provider r1 = true → staged_here table gen provider r2 = true → sg_id r1 = sg_id r2 → r1 = r2.
Definition staged_text (stage : list stage_row) (id : Z) (text : string) : Prop :=
  ∃ r, (r ∈ stage) ∧ staged_here table gen provider r = true ∧ sg_id r = id ∧ valid_row r = true ∧ sg_digest r = textDigest text.

Lemma stage_of_spec l stage r : r ∈ merge_sort stage_le (stage_of table gen provider l stage) ↔
  (r ∈ stage) ∧ staged_here table gen provider r = true ∧ (sg_id r ∈ l).
Proof. rewrite merge_sort_Permutation. unfold stage_of. rewrite elem_filter, andb_true_iff, bool_decide_eq_true. done. Qed.
Lemma staged_is stage l id text : single stage → staged_text stage id text → id ∈ l →
  is_staged (load_stage table gen provider l (Some stage)) (id, text) = true.
Proof.
  intros Hs (r & Hr & Hh & <- & Hv & Hd) Hl. unfold is_staged, load_stage. cbn [fst snd]. destruct l as [|x l]; [by apply not_elem_of_nil in Hl|].
  destruct (load_rows_has (merge_sort stage_le (stage_of table gen provider (x :: l) stage)) r ltac:(by apply stage_of_spec) Hv ∅) as [held Hheld].
  rewrite Hheld. apply load_rows_only in Hheld as [Hheld|(r' & Hr' & Hid & _ & ->)]; [by rewrite lookup_empty in Hheld|].
  apply stage_of_spec in Hr' as (Hr' & Hh' & _). rewrite (Hs r' r) by done. cbn. apply String.eqb_eq. exact Hd.
Qed.
Lemma is_staged_text stage l id text : is_staged (load_stage table gen provider l stage) (id, text) = true → staged_text (default [] stage) id text.
Proof.
  unfold is_staged, load_stage. cbn [fst snd]. destruct l as [|x l]; [done|]. destruct stage as [stage|]; [|done].
  destruct (foldl load_row ∅ _ !! id) as [held|] eqn:Hh; [|done]. intros Hd%String.eqb_eq.
  apply load_rows_only in Hh as [Hh|(r & Hr & Hid & Hv & ->)]; [by rewrite lookup_empty in Hh|].
  apply stage_of_spec in Hr as (Hr & Hh & _). by exists r.
Qed.

Lemma stage_one_spec stage v r : r ∈ stage_one table gen provider stage v ↔
  (r ∈ stage) ∧ (staged_here table gen provider r = true → sg_id r ≠ sv_id v) ∨
  r = MkStage table gen (sv_id v) provider (sv_digest v) (EncodeVector (sv_vec v)).
Proof.
  unfold stage_one. rewrite elem_of_app, elem_filter, list_elem_of_singleton, negb_true_iff, andb_false_iff, Z.eqb_neq.
  destruct (staged_here table gen provider r); naive_solver.
Qed.
Lemma staged_here_new id d v : staged_here table gen provider (MkStage table gen id provider d v) = true.
Proof. unfold staged_here. cbn. by rewrite !String.eqb_refl, Z.eqb_refl. Qed.
Lemma stage_one_single stage v : single stage → single (stage_one table gen provider stage v).
Proof.
  intros Hs r1 r2 [[Hr1 Hn1]| ->]%stage_one_spec [[Hr2 Hn2]| ->]%stage_one_spec H1 H2 Hid; [by apply Hs| | |done].
  - by destruct (Hn1 H1).
  - by destruct (Hn2 H2).
Qed.
(** A vector that can be staged for a text. *)
Definition stageable (v : stagedVector) (text : string) : Prop :=
  sv_digest v = textDigest text ∧ String.length (sv_digest v) = digestSize ∧ Forall word32 (sv_vec v) ∧ sv_vec v ≠ [].
Lemma stage_one_text stage v text : stageable v text → staged_text (stage_one table gen provider stage v) (sv_id v) text.
Proof.
  intros (Hd & Hl & Hw & Hne). eexists. split_and!; [apply stage_one_spec; by right|apply staged_here_new|done| |exact Hd].
  unfold valid_row, decodeStageVector. cbn. rewrite Hl, DecodeVector_encode by done. cbn. by destruct (sv_vec v).
Qed.
Lemma stage_one_other stage v id text : staged_text stage id text → id ≠ sv_id v → staged_text (stage_one table gen provider stage v) id text.
Proof. intros (r & Hr & Hh & <- & ?) Hne. exists r. split_and!; try done; [|naive_solver..]. apply stage_one_spec. by left. Qed.

(** A page of vectors is staged, and what was staged for other rows stays. *)
Lemma stage_batch rows vecs : (∀ text, String.length (textDigest text) = digestSize) → NoDup (map fst rows) → length vecs = length rows →
  Forall (λ v, Forall word32 v ∧ v ≠ []) vecs → ∀ stage, single stage →
  single (foldl (stage_one table gen provider) stage (to_stage rows vecs)) ∧
  (∀ id text, (id, text) ∈ rows → staged_text (foldl (stage_one table gen provider) stage (to_stage rows vecs)) id text) ∧
  (∀ id text, staged_text stage id text → id ∉ map fst rows → staged_text (foldl (stage_one table gen provider) stage (to_stage rows vecs)) id text).
Proof.
  intros Hdig. revert vecs. induction rows as [|[i t] rows IH]; intros [|v vecs] Hnd Hlen Hv stage Hs; try done.
  { split_and!; [done| |done]. by intros id text ?%not_elem_of_nil. }
  cbn in Hnd. apply NoDup_cons in Hnd as [Hi Hnd]. apply Forall_cons in Hv as [[Hw Hne] Hv].
  destruct (IH vecs Hnd ltac:(cbn in Hlen; lia) Hv (stage_one table gen provider stage (MkStaged i (textDigest t) v))) as (H1 & H2 & H3);
    [by apply stage_one_single|]. cbn. split_and!; [exact H1| |].
  - intros id text [[= -> ->]|Hin]%elem_of_cons; [|by apply H2]. apply H3; [|done].
    apply (stage_one_text _ (MkStaged i (textDigest t) v)). unfold stageable. cbn. by split_and!.
  - intros id text Hst [Hne' Hid]%not_elem_of_cons. apply H3; [|done]. by apply stage_one_other.
Qed.
End Staged.

(** *** Actions that do not start again *)

Section Progress.
Context {DB : Type} {E : Engine DB} {L : EngineLaws DB} {UT : UnicodeTables} {W : Surroundings DB}.
#[local] Abbreviation st := (staged DB).
Hypothesis alone : ∀ n (ns : nsfile DB), others n ns = ns.
Hypothesis digests : ∀ text, String.length (textDigest text) = digestSize.
Hypothesis words : ∀ n texts vecs, Embed n texts = Some vecs → Forall (Forall word32) vecs.

(** The two errors by which an attempt starts again, and by which all end. *)
Definition other_error (e : staged_error) : Prop := e ≠ RetryActivation ∧ e ≠ MigrationConflict.
(** From a file of [P] the action answers as [Q] says, or fails otherwise. *)
Definition triple {A} (P : nsfile DB → Prop) (m : st A) (Q : A → nsfile DB → Prop) : Prop :=
  ∀ s, P (r_ns s) → match m s with
                    | (Done a, s') => Q a (r_ns s')
                    | (Fail e, _) => other_error e
                    | (OutOfFuel, _) => True
                    end.
Definition steady {A} (m : st A) : Prop := triple (λ _, True) m (λ _ _, True).

Lemma triple_bind {A B} P (m : st A) Q (k : A → st B) R : triple P m Q → (∀ a, triple (Q a) (k a) R) → triple P (abind m k) R.
Proof.
  intros Hm Hk s Hs. specialize (Hm s Hs). unfold abind. destruct (m s) as [[a| |] s']; [by apply Hk|done|done].
Qed.
Lemma triple_conseq {A} (P P' : nsfile DB → Prop) (m : st A) (Q Q' : A → nsfile DB → Prop) : triple P' m Q' →
  (∀ ns, P ns → P' ns) → (∀ a ns, Q' a ns → Q a ns) → triple P m Q.
Proof. intros Hm HP HQ s Hs. specialize (Hm s (HP _ Hs)). destruct (m s) as [[a| |] s']; [by apply HQ|done|done]. Qed.
Lemma triple_at {A} (P : nsfile DB → Prop) (m : st A) Q : (∀ ns, P ns → triple (λ ns', ns' = ns) m Q) → triple P m Q.
Proof. intros H s Hs. by apply (H (r_ns s)). Qed.
Lemma triple_done {A} P (m : st A) (Q : A → nsfile DB → Prop) : steady m → (∀ s a s', m s = (Done a, s') → P (r_ns s) → Q a (r_ns s')) → triple P m Q.
Proof. intros Hm HQ s Hs. specialize (Hm s I). destruct (m s) as [[a| |] s'] eqn:Es; [by eapply HQ|done|done]. Qed.
Lemma triple_reads {A} (P : nsfile DB → Prop) (m : st A) : steady m → reads m → triple P m (λ _, P).
Proof. intros Hm Hr. apply triple_done; [done|]. intros s a s' H Hs. by rewrite (proj1 (Hr _ _ _ H)). Qed.
Lemma triple_ret {A} (P : nsfile DB → Prop) (a : A) (Q : A → nsfile DB → Prop) : (∀ ns, P ns → Q a ns) → triple P (aret a) Q.
Proof. intros H s Hs. by apply H. Qed.
Lemma steady_triple {A} P (m : st A) : steady m → triple P m (λ _ _, True).
Proof. intros Hm. by eapply triple_conseq. Qed.

Lemma steady_bind {A B} (m : st A) (k : A → st B) : steady m → (∀ a, steady (k a)) → steady (abind m k).
Proof. intros Hm Hk. by eapply triple_bind. Qed.
Lemma steady_ret {A} (a : A) : steady (aret a).
Proof. done. Qed.
Lemma steady_stmt {A} (f : nsfile DB → outcome staged_error (A * nsfile DB)) : (∀ ns e, f ns = Fail e → other_error e) → steady (stmt f).
Proof.
  intros Hf s _. unfold stmt. destruct (failing _); [done|]. destruct (f (r_ns s)) as [[]| |] eqn:Es; [done|by eapply Hf|done].
Qed.
Lemma steady_ask {A} (f : nsfile DB → outcome staged_error A) : (∀ ns e, f ns = Fail e → other_error e) → steady (ask f).
Proof. intros Hf. apply steady_stmt. intros ns e He. destruct (f ns) eqn:Es; [done| |done]. injection He as <-. by eapply Hf. Qed.
Lemma steady_write f : steady (write f).
Proof. by apply steady_stmt. Qed.
Lemma steady_update f : steady (update_vectors f).
Proof. apply steady_stmt. intros ns e He. destruct (ns_vectors ns); [done|]. by injection He as <-. Qed.
Lemma steady_answer {A} (o : outcome staged_error A) : (∀ e, o = Fail e → other_error e) → steady (answer o).
Proof. intros Ho s _. cbn. destruct o; [done|by apply Ho|done]. Qed.
Lemma steady_refused {A} (o : outcome migrate_error A) : steady (answer (refused o)).
Proof. apply steady_answer. intros e He. destruct o; [done| |done]. by injection He as <-. Qed.
Lemma steady_plan scope old changes expected : steady (plan_now scope old changes expected).
Proof. intros s _. unfold plan_now. cbn. by destruct (planMigration _ _ _ _ _ _ _ _ _ _ _ _ _ _). Qed.
Lemma steady_now : steady now.
Proof. done. Qed.
Lemma steady_begin : steady begin_tx.
Proof. intros s _. by apply steady_ask. Qed.
Lemma steady_read_tx {A} (m : st A) : steady m → steady (read_tx m).
Proof. intros Hm. apply steady_bind; [apply steady_begin|done]. Qed.
Lemma begin_alone s u s' : begin_tx s = (Done u, s') → r_ns s' = r_ns s.
Proof. unfold begin_tx. intros [-> _]%reads_ask. apply alone. Qed.
Lemma triple_read_tx {A} P (m : st A) Q : triple P m Q → triple P (read_tx m) Q.
Proof. intros Hm. apply (triple_bind _ _ (λ _, P)); [|intros _; exact Hm]. apply triple_done; [apply steady_begin|]. intros s u s' H. by rewrite (begin_alone _ _ _ H). Qed.
Lemma triple_write_tx {A} P (m : st A) Q : triple P m Q → triple P (write_tx m) Q.
Proof.
  intros Hm s Hs. unfold write_tx. pose proof (steady_begin s I) as Hb. destruct (begin_tx s) as [[u|e|] s1] eqn:Eb; [|done..].
  apply begin_alone in Eb. rewrite <- Eb in Hs. specialize (Hm s1 Hs). unfold abind. destruct (m s1) as [[a|e|] s2]; [|done..].
  pose proof (steady_ask (λ _, Done ()) ltac:(done) s2 I) as Hc. destruct (ask _ s2) as [[v|e|] s3] eqn:Ec; [|done..].
  cbn. apply reads_ask in Ec as [-> _]. exact Hm.
Qed.
Lemma check_vectors_steady zero nonfinite wrong vecs : other_error zero → other_error nonfinite → (∀ a b, other_error (wrong a b)) →
  ∀ dim e, check_vectors zero nonfinite wrong dim vecs = Fail e → other_error e.
Proof.
  intros Hz Hn Hw. induction vecs as [|v vecs IH]; intros dim e H; [done|]. cbn in H.
  repeat case_match; first [by injection H as <-|by eapply IH].
Qed.
Lemma steady_embed sc texts : steady (embedTexts sc texts).
Proof.
  intros s _. unfold embedTexts. destruct (negb has_embedder); [by split|]. destruct (String.eqb provider ""); [by split|].
  destruct (_ && _); [by split|]. destruct (Embed _ _) as [l|]; [|by split]. destruct (negb _); [by split|]. cbn.
  destruct (check_vectors _ _ _ _ l) eqn:Ec; [done| |done]. cbn. by eapply check_vectors_steady, Ec.
Qed.
#[local] Hint Resolve steady_ret steady_write steady_update steady_refused steady_plan steady_now steady_begin steady_embed : core.
#[local] Hint Extern 4 (steady (afail _)) => by split : core.
Ltac steady_step :=
  match goal with
  | |- steady (abind _ _) => apply steady_bind; [|intros ?]
  | |- steady (read_tx _) => apply steady_read_tx
  | |- steady (write_tx _) => apply triple_write_tx
  | |- triple (λ _, True) ?x (λ _ _, True) => change (steady x)
  | |- steady (ask _) => apply steady_ask; intros ? ? ?; repeat case_match; by simplify_eq
  | |- steady (if ?b then _ else _) => destruct b
  | |- steady (match ?x with _ => _ end) => destruct x
  | |- steady _ => solve [auto] || (progress unfold loadSchema, tableGen, readNSGen, changeHead, loadStagedVectors, source_page, when_else)
  end.
Ltac steady_all := repeat steady_step.

Lemma steady_lifetime expected : steady (checkBoundLifetime expected).
Proof. unfold checkBoundLifetime. steady_all. Qed.
Lemma steady_readMigratePlan changes expected : steady (readMigratePlan changes expected).
Proof. pose proof steady_lifetime. unfold readMigratePlan. steady_all. Qed.

Lemma check_vectors_nonempty zero nonfinite wrong vecs : ∀ dim d, check_vectors zero nonfinite wrong dim vecs = Done d → Forall (λ v, v ≠ []) vecs.
Proof.
  induction vecs as [|v vecs IH]; intros dim d H; [constructor|]. cbn in H. destruct v as [|x v]; [done|].
  constructor; [done|]. repeat case_match; try done; by eapply IH.
Qed.
Lemma embedTexts_good sc texts s vecs d s' : embedTexts sc texts s = (Done (vecs, d), s') →
  length vecs = length texts ∧ Forall (λ v, Forall word32 v ∧ v ≠ []) vecs.
Proof.
  intros H. pose proof (embedTexts_made _ _ _ _ _ _ H) as [[n He] Hlen]. split; [exact Hlen|]. apply Forall_and. split; [by eapply words|].
  unfold embedTexts in H. repeat (case_match; [done|]). case_match; [|done]. case_match; [done|]. injection H as H _.
  apply obind_Done in H as (d' & H & [= -> ->]). by eapply check_vectors_nonempty.
Qed.

(** *** Staging covers the rows *)

(** The file [ns], as [ns0] with another stage. *)
Definition beside (ns0 ns : nsfile DB) : Prop := ns = with_stage (ns_stage ns) ns0.
Definition stage_rows (ns : nsfile DB) : list stage_row := default [] (ns_stage ns).
Definition sorted_rows (ns : nsfile DB) : Prop := StronglySorted Z.lt (ids (ns_rows ns)).
(** The texts of the rows up to [upto] are staged. *)
Definition covered (gen : Z) (column : string) (upto : option Z) (ns : nsfile DB) : Prop :=
  ∀ id text, id ∈ source_rows column 0 None (ns_rows ns) → match upto with Some n => id <= n | None => True end →
    cell (ns_rows ns) id column = VText text → staged_text gen (stage_rows ns) id text.
Definition staging (ns0 : nsfile DB) (gen : Z) (ns : nsfile DB) : Prop := beside ns0 ns ∧ single gen (stage_rows ns).

Lemma beside_refl ns : beside ns ns.
Proof. by destruct ns. Qed.
Lemma beside_rows ns0 ns : beside ns0 ns → ns_rows ns = ns_rows ns0.
Proof. by intros ->. Qed.

Lemma triple_page column after P : triple P (source_page column after None) (λ page ns, P ns ∧
  map fst page = firstn embedBackfillPage (source_rows column after None (ns_rows ns)) ∧
  ∀ id text, (id, text) ∈ page → cell (ns_rows ns) id column = VText text).
Proof.
  apply triple_done; [steady_all|]. intros s page s' H Hs. pose proof (source_page_Done _ _ _ _ _ _ H) as (E1 & Hf & Hp).
  rewrite E1. split_and!; [done..|]. intros id text Hin. by apply Hp.
Qed.

Lemma stage_fresh_triple cur gen dim fresh ns1 : NoDup (map fst fresh) → single gen (stage_rows ns1) →
  triple (λ ns, ns = ns1) (stage_fresh cur gen dim fresh) (λ _ ns, beside ns1 ns ∧ single gen (stage_rows ns) ∧
    (∀ id text, (id, text) ∈ fresh → staged_text gen (stage_rows ns) id text) ∧
    (∀ id text, staged_text gen (stage_rows ns1) id text → id ∉ map fst fresh → staged_text gen (stage_rows ns) id text)).
Proof.
  intros Hnd Hs. unfold stage_fresh. destruct fresh as [|row fresh].
  { apply triple_ret. intros ns ->. split_and!; [apply beside_refl|done| |done]. by intros id text ?%not_elem_of_nil. }
  eapply triple_bind.
  { apply (triple_done _ _ (λ r ns, ns = ns1 ∧ length r.1 = length (row :: fresh) ∧ Forall (λ v, Forall word32 v ∧ v ≠ []) r.1)); [auto|].
    intros s [vecs d] s' H Hns. pose proof (reads_embed _ _ _ _ _ H) as [-> _]. split; [done|]. apply embedTexts_good in H as [Hl ?].
    split; [|done]. cbn. by rewrite Hl, length_map. }
  intros [vecs d]. cbn [fst snd]. eapply triple_bind.
  { apply triple_reads; [|apply reads_outcome]. apply steady_answer. intros e He. by eapply check_vectors_steady in He. }
  intros d'. apply triple_at. intros ns (-> & Hlen & Hv). eapply triple_bind; [|intros ?; apply triple_ret; intros ns Hns; exact Hns].
  unfold stagePage. apply triple_write_tx, triple_done; [unfold writeStagedVectors; steady_all|].
  intros s u s' H Hns. destruct (stage_batch gen (row :: fresh) vecs digests Hnd Hlen Hv (stage_rows ns1) Hs) as (H1 & H2 & H3).
  assert (r_ns s' = staged_batch gen (to_stage (row :: fresh) vecs) ns1) as ->; [|split_and!; done].
  unfold writeStagedVectors in H. destruct vecs as [|v vecs]; [done|]. cbn in H. apply write_Done in H as [-> _]. by rewrite Hns.
Qed.

Lemma filter_nodup {A} (p : Z * A → bool) (l : list (Z * A)) : NoDup (map fst l) → NoDup (map fst (List.filter p l)).
Proof.
  induction l as [|x l IH]; [done|]. cbn. intros [Hx Hl]%NoDup_cons. destruct (p x); [|by apply IH]. cbn. constructor; [|by apply IH].
  intros (y & Hy & [Hin _]%elem_filter)%list_elem_of_fmap. apply Hx. rewrite Hy. apply list_elem_of_fmap. by exists y.
Qed.
Lemma staging_page gen column after lastID text ns1 ns2 page : sorted_rows ns1 →
  map fst page = firstn embedBackfillPage (source_rows column after None (ns_rows ns1)) →
  (∀ id t, (id, t) ∈ page → cell (ns_rows ns1) id column = VText t) → last page = Some (lastID, text) →
  covered gen column (Some after) ns1 → ns_rows ns2 = ns_rows ns1 →
  (∀ id t, (id, t) ∈ page → staged_text gen (stage_rows ns2) id t) →
  (∀ id t, staged_text gen (stage_rows ns1) id t → id ∉ map fst page → staged_text gen (stage_rows ns2) id t) →
  covered gen column (Some lastID) ns2.
Proof.
  intros Hs Hfst Hp Hl Hc Hr Hin Hout id t Hid Hle Hcell. rewrite Hr in *. pose proof (last_page page) as Hlast. rewrite Hl, Hfst in Hlast. cbn in Hlast.
  destruct (decide (id ∈ map fst page)) as [Hpg|Hpg].
  { apply list_elem_of_fmap in Hpg as ([i t'] & -> & Hpg). pose proof (Hp _ _ Hpg) as Hc'. cbn in Hcell. rewrite Hc' in Hcell. injection Hcell as <-. by apply Hin. }
  apply Hout; [|done]. apply Hc; [done| |done]. destruct (Z.le_gt_cases id after) as [|Hgt]; [done|]. exfalso.
  unfold source_rows in Hid. apply elem_filter in Hid as [Hids [[_ Ht]%andb_true_iff Hv]%andb_true_iff].
  assert (id ∈ source_rows column after None (ns_rows ns1)) as Hsrc.
  { unfold source_rows. apply elem_filter. split; [done|]. rewrite (proj2 (Z.ltb_lt _ _) Hgt), Ht. done. }
  apply (page_split _ _ _ _ _ _ Hs (eq_sym Hlast)) in Hsrc as [Hsrc|Hsrc]; [apply Hpg; by rewrite Hfst|].
  unfold source_rows in Hsrc. apply elem_filter in Hsrc as [_ [[Hlt%Z.ltb_lt _]%andb_true_iff _]%andb_true_iff]. lia.
Qed.

Lemma stage_pages_triple cur gen column fuel : ∀ ns1 dim after, sorted_rows ns1 → single gen (stage_rows ns1) →
  covered gen column (Some after) ns1 →
  triple (λ ns, ns = ns1) (stage_pages fuel cur column gen dim after) (λ _ ns, staging ns1 gen ns ∧ covered gen column None ns).
Proof.
  induction fuel as [|fuel IH]; intros ns1 dim after Hs Hone Hc; cbn [stage_pages]; [done|].
  eapply triple_bind; [apply triple_read_tx, triple_page|]. intros page. apply triple_at. intros ns (-> & Hfst & Hp).
  destruct (last page) as [[lastID text]|] eqn:Hl.
  - eapply triple_bind.
    { apply triple_read_tx, (triple_done _ _ (λ now ns, ns = ns1 ∧ now = load_stage table gen provider (map fst page) (ns_stage ns1))); [steady_all|].
      intros s now s' H Hns. apply ask_Done in H as (Hnow & -> & _). rewrite Hns in Hnow |- *. split; [done|congruence]. }
    intros now. apply triple_at. intros ns [-> ->]. set (fresh := List.filter _ page).
    assert (NoDup (map fst page)) as Hnd by (rewrite Hfst; by apply page_nodup).
    assert (fresh ⊆ page) as Hsub by (intros x Hx; by apply elem_filter in Hx as [? _]).
    eapply triple_bind; [apply stage_fresh_triple; [by apply filter_nodup|exact Hone]|]. intros dim'. apply triple_at.
    intros ns2 (Hb & Hone2 & Hin & Hout). eapply triple_conseq; [apply (IH ns2)| |].
    + unfold sorted_rows. by rewrite (beside_rows _ _ Hb).
    + exact Hone2.
    + eapply (staging_page gen column after lastID text ns1); try done; [by apply beside_rows| |].
      * intros id t Ht. destruct (is_staged (load_stage table gen provider (map fst page) (ns_stage ns1)) (id, t)) eqn:Hst.
        -- apply is_staged_text in Hst. destruct (decide (id ∈ map fst fresh)) as [Hf|Hf]; [|by apply Hout].
           apply list_elem_of_fmap in Hf as ([i t'] & -> & Hf). pose proof (Hp _ _ (Hsub _ Hf)) as E1. pose proof (Hp _ _ Ht) as E2.
           cbn in E2. rewrite E1 in E2. injection E2 as <-. by apply Hin.
        -- apply Hin. apply elem_filter. by rewrite Hst.
      * intros id t Ht Hno. apply Hout; [done|]. intros Hf. apply Hno. apply list_elem_of_fmap in Hf as (x & -> & Hf).
        apply list_elem_of_fmap. exists x. split; [done|]. by apply Hsub.
    + done.
    + intros _ ns3 ([Hb3 Hone3] & Hc3). split; [|done]. split; [|done]. unfold beside in *. by rewrite Hb3, Hb.
  - apply triple_ret. intros ns ->. split; [split; [apply beside_refl|done]|]. intros id t Hid _ Hcell. apply Hc; [done| |done].
    pose proof (last_page page) as Hlast. rewrite Hl, Hfst in Hlast. cbn in Hlast. symmetry in Hlast. apply last_None in Hlast.
    destruct (source_rows column after None (ns_rows ns1)) as [|x l] eqn:Hsrc; [|done].
    destruct (Z.le_gt_cases id after) as [|Hgt]; [done|]. exfalso. apply (not_elem_of_nil id). rewrite <- Hsrc.
    unfold source_rows in *. apply elem_filter in Hid as [Hids [[_ Ht]%andb_true_iff Hv]%andb_true_iff]. apply elem_filter.
    split; [done|]. rewrite (proj2 (Z.ltb_lt _ _) Hgt), Ht. done.
Qed.

(** *** Nothing is found changed *)

Lemma covered_is gen column ns1 after page : single gen (stage_rows ns1) → covered gen column None ns1 → 0 <= after →
  map fst page = firstn embedBackfillPage (source_rows column after None (ns_rows ns1)) →
  (∀ id t, (id, t) ∈ page → cell (ns_rows ns1) id column = VText t) →
  (∀ row, row ∈ page → is_staged (load_stage table gen provider (map fst page) (ns_stage ns1)) row = true) ∧
  ∀ lastID t, last page = Some (lastID, t) → 0 <= lastID.
Proof.
  intros Hone Hc Ha Hfst Hp.
  assert (∀ id, id ∈ map fst page → (id ∈ source_rows column 0 None (ns_rows ns1)) ∧ after < id) as Hsrc.
  { intros id Hid. rewrite Hfst in Hid. apply list_elem_of_lookup in Hid as [i Hi]. apply lookup_take_Some in Hi as [Hi%list_elem_of_lookup_2 _].
    unfold source_rows in *. apply elem_filter in Hi as [Hids [[Hlt%Z.ltb_lt Ht]%andb_true_iff Hv]%andb_true_iff]. split; [|done].
    apply elem_filter. split; [done|]. rewrite (proj2 (Z.ltb_lt 0 id)) by lia. by rewrite Ht, Hv. }
  split.
  - intros [id t] Hrow. assert (id ∈ map fst page) as Hid by (apply list_elem_of_fmap; by exists (id, t)).
    pose proof (Hc id t (proj1 (Hsrc id Hid)) I (Hp _ _ Hrow)) as Hst. unfold stage_rows in *.
    destruct (ns_stage ns1) as [stage|]; [by apply staged_is|]. destruct Hst as (r & Hr & _). by apply not_elem_of_nil in Hr.
  - intros lastID t Hl. apply last_Some_elem_of in Hl. assert (lastID ∈ map fst page) as Hid by (apply list_elem_of_fmap; by exists (lastID, t)).
    destruct (Hsrc _ Hid). lia.
Qed.

Lemma cover_pages_triple gen column fuel ns1 : single gen (stage_rows ns1) → covered gen column None ns1 → ∀ after, 0 <= after →
  triple (λ ns, ns = ns1) (cover_pages fuel ns1 column gen after) (λ _ ns, ns = ns1).
Proof.
  intros Hone Hc. induction fuel as [|fuel IH]; intros after Ha; cbn [cover_pages]; [done|].
  eapply triple_bind; [apply triple_read_tx, triple_page|]. intros page. apply triple_at. intros ns (-> & Hfst & Hp).
  destruct (covered_is gen column ns1 after page Hone Hc Ha Hfst Hp) as [Hall Hlast].
  destruct (last page) as [[lastID text]|]; [|by apply triple_ret].
  apply (triple_bind _ _ (λ staged ns, ns = ns1 ∧ staged = load_stage table gen provider (map fst page) (ns_stage ns1))).
  { apply triple_done; [steady_all|]. intros s staged s' H Hns. apply ask_Done in H as (Hst & -> & _). split; [done|congruence]. }
  intros staged. apply triple_at. intros ns [-> ->].
  assert (forallb (is_staged (load_stage table gen provider (map fst page) (ns_stage ns1))) page = true) as ->.
  { apply forallb_forall. intros row Hrow. apply Hall. by apply list_elem_of_In. }
  apply IH. by eapply Hlast.
Qed.

Definition revectored (ns1 ns : nsfile DB) : Prop := ∃ v, ns = with_vectors v ns1.
Lemma triple_update (ns1 : nsfile DB) f : triple (revectored ns1) (update_vectors f) (λ _, revectored ns1).
Proof.
  apply triple_done; [apply steady_update|]. intros s u s' (m & _ & -> & _)%update_Done [v ->]. by eexists.
Qed.
Lemma stamp_rows_triple ns1 staged page : (∀ row, row ∈ page → is_staged staged row = true) → ∀ dim,
  triple (revectored ns1) (stamp_rows staged dim page) (λ _, revectored ns1).
Proof.
  induction page as [|row page IH]; intros Hall dim; cbn [stamp_rows]; [by apply triple_ret|].
  pose proof (Hall row (list_elem_of_here _ _)) as Hrow. unfold is_staged in Hrow. destruct (staged !! row.1) as [held|]; [|done].
  rewrite Hrow. cbn [negb]. destruct (_ && _); [by intros s _|].
  apply (triple_bind _ _ (λ _, revectored ns1)); [apply triple_update|]. intros u. apply IH. intros x Hx. apply Hall. by right.
Qed.
Lemma stamp_pages_triple gen column fuel ns1 : single gen (stage_rows ns1) → covered gen column None ns1 → ∀ dim after, 0 <= after →
  triple (revectored ns1) (stamp_pages fuel column gen dim after) (λ _, revectored ns1).
Proof.
  intros Hone Hc. induction fuel as [|fuel IH]; intros dim after Ha; cbn [stamp_pages]; [done|].
  eapply triple_bind; [apply triple_page|]. intros page. apply triple_at. intros ns ((v & ->) & Hfst & Hp). cbn in Hfst, Hp.
  destruct (covered_is gen column ns1 after page Hone Hc Ha Hfst Hp) as [Hall Hlast].
  destruct (last page) as [[lastID text]|]; [|apply triple_ret; intros ns ->; by exists v].
  apply (triple_bind _ _ (λ staged ns, revectored ns1 ns ∧ staged = load_stage table gen provider (map fst page) (ns_stage ns1))).
  { apply triple_done; [steady_all|]. intros s staged s' H Hns. apply ask_Done in H as (Hst & -> & _). rewrite Hns in Hst |- *.
    split; [by exists v|cbn in Hst; congruence]. }
  intros staged. apply triple_at. intros ns [Hns ->].
  apply (triple_conseq _ (revectored ns1) _ _ (λ _, revectored ns1)); [|by intros ns' ->|done].
  apply (triple_bind _ _ (λ _, revectored ns1)); [by apply stamp_rows_triple|]. intros dim'. apply IH. by eapply Hlast.
Qed.

(** What a plan leaves to be done finds what it needs. *)
Definition provided (e : embedWork) (gen : Z) (constant : option (list Z)) (ns : nsfile DB) : Prop :=
  e_embedding e = true →
    (e_hasSource e = true → e_constant e = "" ∧ covered gen (e_source e) None ns) ∧ (e_constant e ≠ "" → constant ≠ None).
Lemma steady_statements steps : steady (run_statements steps).
Proof.
  induction steps as [|step steps IH]; cbn [run_statements]; steady_all. apply steady_stmt. intros ns e He.
  destruct (exec step (ns_rows ns)); [done|]. by injection He as <-.
Qed.
Lemma apply_plan_steady fuel m from gen constant ns1 : single gen (stage_rows ns1) → provided (m_embed m) gen constant ns1 →
  triple (λ ns, ns = ns1) (apply_plan fuel m from gen constant) (λ _ _, True).
Proof.
  intros Hone Hp. unfold apply_plan. pose proof steady_statements as Hst.
  apply (triple_conseq _ (revectored ns1) _ _ (λ _ _, True)); [|intros ns ->; exists (ns_vectors ns1); by rewrite vectors_kept|done].
  apply (triple_bind _ _ (λ _, revectored ns1)).
  { unfold when_else. destruct (e_addColumn _); [|by apply triple_ret]. apply triple_done; [auto|].
    intros s u s' [-> _]%write_Done [v ->]. by eexists. }
  intros _. apply (triple_bind _ _ (λ _, revectored ns1)).
  { unfold when_else. destruct (e_clear _); [apply triple_update|by apply triple_ret]. }
  intros _. apply (triple_bind _ _ (λ _ _, True)).
  { unfold when_else. destruct (e_embedding (m_embed m)) eqn:He, (e_hasSource (m_embed m)) eqn:Hh; cbn [andb]; try by apply triple_ret.
    destruct (Hp He) as [Hsrc _]. destruct (Hsrc Hh) as [-> Hc]. cbn [String.eqb negb].
    by eapply triple_conseq; [apply (stamp_pages_triple gen (e_source (m_embed m)) fuel ns1 Hone Hc (t_EmbedDim (m_cur m)) 0); lia|..]. }
  intros dim.
  assert (steady (when_else (e_embedding (m_embed m) && negb (String.eqb (e_constant (m_embed m)) "")) (stamp_constant (e_target (m_embed m)) dim constant) dim)) as Hconst.
  { unfold when_else, stamp_constant. destruct (e_embedding (m_embed m)) eqn:He; [|done]. destruct (Hp He) as [_ Hc].
    destruct (String.eqb_spec (e_constant (m_embed m)) ""); [done|]. cbn. destruct constant; [steady_all|]. by destruct (Hc n). }
  match goal with |- triple _ ?x _ => change (steady x) end. unfold rebuild_index, stampMigratedConstraints. steady_all.
Qed.

(** *** One attempt is enough *)

(** The file an attempt starts from, and the plan it made of it. *)
Record at_rest (changes : list Change) (expected : Incarnation) (ns : nsfile DB) (old : TableSchema) (m : migrationWork) : Prop := AtRest {
  ar_sorted : sorted_rows ns;
  ar_single : single (ns_dropGen ns) (stage_rows ns);
  ar_schema : ns_schema ns = Some old;
  ar_plan : ∃ n, planned_at changes expected n ns old m }.

Lemma planned_embed changes expected n ns old m : planned_at changes expected n ns old m →
  let e := m_embed m in (e_hasSource e = true → e_constant e = "" ∧ e_source e ≠ "") ∧ (e_hasSource e = false → e_source e = "").
Proof.
  intros (w & _ & _ & _ & He & _)%planned_work. unfold embed_of in He. destruct (w_vec w); [|by rewrite He].
  destruct (VectorizeField (t_Fields (w_cur w))); [|by rewrite He]. destruct He as (_ & _ & _ & _ & Hs & Hh & Hc). cbn zeta.
  rewrite Hs, Hh, Hc. by destruct (String.eqb_spec (phys_of w (f_Name f)) "").
Qed.
Lemma at_rest_beside changes expected ns1 ns old m : at_rest changes expected ns1 old m → staging ns1 (ns_dropGen ns1) ns →
  at_rest changes expected ns old m ∧ ns_dropGen ns = ns_dropGen ns1.
Proof. intros [Hs _ Hsc [n Hp]] [-> Hone]. split; [|done]. split; [exact Hs|exact Hone|exact Hsc|by exists n]. Qed.

Lemma steady_stage_pages cur column gen fuel : ∀ dim after, steady (stage_pages fuel cur column gen dim after).
Proof.
  induction fuel as [|fuel IH]; intros dim after; cbn [stage_pages]; [done|]. unfold backfillPage, stage_fresh, stagePage, writeStagedVectors. steady_all.
  apply steady_answer. intros e He. by eapply check_vectors_steady in He.
Qed.
Lemma stageBackfill_triple changes expected fuel ns1 old m : at_rest changes expected ns1 old m → e_embedding (m_embed m) = true →
  triple (λ ns, ns = ns1) (stageBackfill fuel m (ns_dropGen ns1)) (λ constant ns, staging ns1 (ns_dropGen ns1) ns ∧
    provided (m_embed m) (ns_dropGen ns1) constant ns).
Proof.
  intros [Hs Hone _ [n Hp]] He. apply planned_embed in Hp as [Hsrc _]. unfold stageBackfill, provided. destruct (String.eqb_spec (e_constant (m_embed m)) "") as [Hc|Hc]; cbn [negb].
  - destruct (e_hasSource (m_embed m)) eqn:Hh; cbn [negb].
    + eapply triple_bind; [apply (stage_pages_triple _ _ _ _ ns1); [done..|]|].
      { intros id text Hid Hle _. unfold source_rows in Hid. apply elem_filter in Hid as [_ [[Hlt%Z.ltb_lt _]%andb_true_iff _]%andb_true_iff]. lia. }
      intros u. apply triple_ret. intros ns [Hst Hcov]. split; [exact Hst|]. by rewrite Hc.
    + apply triple_ret. intros ns ->. split; [split; [apply beside_refl|done]|]. by rewrite Hc.
  - eapply triple_bind; [apply (triple_done _ _ (λ r ns, ns = ns1 ∧ length r.1 = 1%nat)); [auto|]|].
    { intros s [vecs d] s' H Hns. pose proof (reads_embed _ _ _ _ _ H) as [-> _]. by apply embedTexts_good in H as [Hl _]. }
    intros [vecs d]. apply triple_ret. intros ns [-> Hl]. cbn [fst] in Hl. split; [split; [apply beside_refl|done]|]. intros _. split.
    + intros Hh. by destruct (Hsrc Hh).
    + by destruct vecs.
Qed.

Definition head_of (ns : nsfile DB) : Z := default 0 (max_of (map fst (map_to_list (ns_changes ns)))).
Lemma changeHead_triple ns1 : triple (λ ns, ns = ns1) changeHead (λ head ns, ns = ns1 ∧ head = head_of ns1).
Proof. apply triple_done; [steady_all|]. intros s head s' H Hns. apply ask_Done in H as (Hh & -> & _). rewrite Hns in Hh |- *. by injection Hh as <-. Qed.
Lemma coverage_triple changes expected fuel ns1 old m constant : at_rest changes expected ns1 old m →
  (e_embedding (m_embed m) = true → provided (m_embed m) (ns_dropGen ns1) constant ns1) →
  triple (λ ns, ns = ns1) (coverageCheck fuel m (ns_dropGen ns1)) (λ head ns, ns = ns1 ∧ (e_embedding (m_embed m) = true → head = head_of ns1)).
Proof.
  intros [Hs Hone _ [n Hp]] Hprov. apply planned_embed in Hp as [_ Hsrc]. unfold coverageCheck.
  destruct (e_embedding (m_embed m)) eqn:He; cbn [negb]; [|by apply triple_ret]. destruct (Hprov eq_refl He) as [Hc _].
  apply (triple_bind _ _ (λ _ ns, ns = ns1)). { apply triple_done; [auto|]. intros s u s' H Hns. by rewrite (begin_alone _ _ _ H). }
  intros _. apply (triple_bind _ _ (λ snap ns, ns = ns1 ∧ snap = ns1)). { intros s Hns. cbn. done. }
  intros snap. apply triple_at. intros ns [-> ->]. eapply triple_bind; [apply changeHead_triple|]. intros head. apply triple_at. intros ns [-> ->].
  destruct (negb (String.eqb (e_constant (m_embed m)) "")) eqn:Hk; [by apply triple_ret|]. cbn [orb].
  destruct (String.eqb_spec (e_source (m_embed m)) "") as [Hz|Hz]; [by apply triple_ret|].
  destruct (e_hasSource (m_embed m)) eqn:Hh; [|by destruct Hz; apply Hsrc]. destruct (Hc eq_refl) as [_ Hcov].
  eapply triple_bind; [by apply cover_pages_triple|]. intros u. by apply triple_ret.
Qed.

Lemma same_plan changes expected n1 n2 ns old m1 m2 : planned_at changes expected n1 ns old m1 → planned_at changes expected n2 ns old m2 → m1 = m2.
Proof. intros H1 H2. eapply plans_alike; [|exact H1|exact H2]. done. Qed.
Lemma stale_now_triple e gen head ns1 : (e_embedding e = true → head = head_of ns1) →
  triple (λ ns, ns = ns1) (stale_now e gen head) (λ _ ns, ns = ns1).
Proof.
  intros Hh. unfold stale_now. destruct (e_embedding e); cbn [andb]; [|by apply triple_ret]. destruct (e_hasSource e); [|by apply triple_ret].
  apply (triple_bind _ _ (λ cur ns, ns = ns1 ∧ cur = head_of ns1)); [apply changeHead_triple|]. intros cur. apply triple_at. intros ns [-> ->]. rewrite Hh by done.
  unfold rowsStaleSince. rewrite Z.leb_refl. apply (triple_bind _ _ (λ b ns, ns = ns1 ∧ b = false)); [by apply triple_ret|].
  intros b. apply triple_at. intros ns [-> ->]. by apply triple_ret.
Qed.
Lemma activate_steady fuel changes expected ns1 old m constant head : at_rest changes expected ns1 old m →
  (e_embedding (m_embed m) = true → provided (m_embed m) (ns_dropGen ns1) constant ns1) → (e_embedding (m_embed m) = true → head = head_of ns1) →
  triple (λ ns, ns = ns1) (activateMigration fuel changes expected (ns_dropGen ns1) constant head) (λ _ _, True).
Proof.
  intros [Hs Hone Hold [n Hp]] Hprov Hhead. unfold activateMigration, activation. apply triple_write_tx.
  eapply triple_bind; [apply (triple_reads (λ ns, ns = ns1)); [apply steady_lifetime|apply reads_lifetime]|]. intros ?.
  apply (triple_bind _ _ (λ sc ns, ns = ns1 ∧ sc = old)).
  { apply triple_done; [steady_all|]. intros s sc s' H Hns. apply loadSchema_found in H as (Hsc & -> & _). rewrite Hns in Hsc |- *. split; congruence. }
  intros old'. apply triple_at. intros ns [-> ->].
  eapply triple_bind; [apply (triple_reads (λ ns, ns = ns1)); [auto|apply reads_outcome]|]. intros ?.
  apply (triple_bind _ _ (λ here ns, ns = ns1 ∧ here = ns_dropGen ns1)).
  { apply triple_done; [steady_all|]. intros s here s' H Hns. apply ask_Done in H as (Hh & -> & _). rewrite Hns in Hh |- *. split; congruence. }
  intros here. apply triple_at. intros ns [-> ->]. rewrite Z.eqb_refl. cbn [negb].
  apply (triple_bind _ _ (λ m' ns, ns = ns1 ∧ m' = m)).
  { apply triple_done; [auto|]. intros s m' s' H Hns. apply plan_now_Done in H as [-> Hp']. split; [done|]. rewrite Hns in Hp'. by eapply same_plan. }
  intros m'. apply triple_at. intros ns [-> ->]. eapply triple_bind; [by apply stale_now_triple|]. intros ?.
  apply apply_plan_steady; [done|]. intros He. by apply Hprov.
Qed.

Lemma attempt_settles fuel changes expected ns1 old m : at_rest changes expected ns1 old m →
  triple (λ ns, ns = ns1) (attempt fuel changes expected m (ns_dropGen ns1)) (λ r _, r ≠ None).
Proof.
  intros Hr s Hns. unfold attempt, retrying.
  match goal with |- match match ?x s with _ => _ end with _ => _ end => assert (triple (λ ns, ns = ns1) x (λ _ _, True)) as Hm end.
  2: { specialize (Hm s Hns). destruct (abind _ _ s) as [[sc|e|] s']; [done| |done]. destruct Hm as [Hm1 Hm2]. by destruct e. }
  apply (triple_bind _ _ (λ constant ns, staging ns1 (ns_dropGen ns1) ns ∧
    (e_embedding (m_embed m) = true → provided (m_embed m) (ns_dropGen ns1) constant ns))).
  { unfold when_else. destruct (e_embedding (m_embed m)) eqn:He.
    - eapply triple_conseq; [by eapply stageBackfill_triple|done|]. by intros c ns [? ?].
    - apply triple_ret. intros ns ->. split; [|done]. split; [apply beside_refl|apply Hr]. }
  intros constant. apply triple_at. intros ns [Hst Hprov]. destruct (at_rest_beside _ _ _ _ _ _ Hr Hst) as [Hr' Hg]. rewrite <- Hg in Hprov |- *.
  eapply triple_bind; [by eapply coverage_triple|]. intros head. apply triple_at. intros ns' [-> Hhead]. by eapply activate_steady.
Qed.

Lemma Migrate_settles fuel changes expected ns1 : sorted_rows ns1 → single (ns_dropGen ns1) (stage_rows ns1) →
  triple (λ ns, ns = ns1) (Migrate fuel changes expected) (λ _ _, True).
Proof.
  intros Hs Hone. unfold Migrate. destruct changes as [|ch changes]; [by intros s _|].
  eapply triple_bind; [apply (triple_reads (λ ns, ns = ns1)); [|apply reads_outcome]|].
  { apply steady_answer. unfold requireSecretKey. intros e He. repeat case_match; try done. by injection He as <-. }
  intros ?. cbn [attempts].
  apply (triple_bind _ _ (λ r ns, ns = ns1 ∧ r.2 = ns_dropGen ns1 ∧ ∃ old, at_rest (ch :: changes) expected ns1 old r.1)).
  { apply triple_done; [apply steady_readMigratePlan|]. intros s [m gen] s' H Hns. cbn beta in Hns.
    apply (readMigratePlan_Done (λ ns, ns = ns1)) in H as (n & ns & old & -> & Hold & Hp & -> & ->); [|intros k ns ->; apply alone|done].
    split_and!; [done..|]. exists old. split; [done..|by exists n]. }
  intros [m gen]. apply triple_at. intros ns (-> & Hg & old & Hr). cbn [fst snd] in Hg, Hr. subst gen. cbn [default]. rewrite Z.eqb_refl. cbn [negb].
  eapply triple_bind; [by apply (attempt_settles _ _ _ _ old)|]. intros [sc|]; [by apply triple_ret|].
  intros s Hno. by destruct Hno.
Qed.
End Progress.

(** ** The theorems *)

Section Theorems.
Context {DB : Type} {E : Engine DB} {L : EngineLaws DB} {UT : UnicodeTables} {W : Surroundings DB}.
Context (base : list string).

Lemma kept_sorted sc (d : DB) : kept_table base sc d → StronglySorted Z.lt (ids d) ∧ ∀ id, id ∈ ids d → 0 < id.
Proof. intros (_ & _ & [Hs Hp]%StronglySorted_inv). split; [done|]. by apply Forall_forall. Qed.

(** What a plan does to the rows, and to the declaration. *)
Lemma committed_rows changes expected ns n old m from gen constant ns' sc :
  kept_table base old (ns_rows ns) → planned_at changes expected n ns old m → applied m from gen constant ns ns' sc →
  laid_out base sc (ns_rows ns') ∧ ids (ns_rows ns') = ids (ns_rows ns) ∧ t_Version sc = t_Version old + 1 ∧
  table_of (t_Fields sc) (ns_rows ns') =
    foldl (spec_change (DB := DB) (length (ids (ns_rows ns)))) (table_of (t_Fields old) (ns_rows ns)) changes ∧
  (rows_fit (t_Fields old) (ns_rows ns) → rows_fit (t_Fields sc) (ns_rows ns')).
Proof.
  intros (Hl & _) Hp Ha. destruct (planned_runs _ _ _ _ _ _ _ _ _ base _ _ _ _ _ _ Hl Hp) as (d & Hd & Hl' & Hids & Ht & Hfit).
  rewrite (ap_rows _ _ _ _ _ _ _ Ha) in Hd. injection Hd as <-. destruct (ap_schema _ _ _ _ _ _ _ Ha) as (_ & dim & ->).
  apply planned in Hp as (w & _ & _ & _ & [(_ & _ & Hv & _) _] & _). split_and!; try done. by apply (laid_out_ext base (m_cur m)).
Qed.

(** C5. Seen by everyone else, a migration is one step or none.  Whatever the
    other clients write meanwhile, whichever statements fail and however often
    it starts again, a migration that fails leaves the file as the other clients
    would have left it, staged vectors apart; one that succeeds was, at one
    moment, the planned change of the table they had left then: the old version
    was the one the caller named, if any, the rows are the same, the table is
    what the changes make of it, and one row of the migrations says so. *)
Theorem migrate_is_one_step (I : nsfile DB → Prop)
    (Hothers : ∀ n ns, I ns → I (others n ns)) (Hstage : ∀ l ns, I ns → I (with_stage l ns))
    (Htable : ∀ ns sc, I ns → ns_schema ns = Some sc → kept_table base sc (ns_rows ns))
    fuel changes expected s o s' (Hi : I (r_ns s)) (H : Migrate fuel changes expected s = (o, s')) :
  match o with
  | Done sc => ∃ ns old, I ns ∧ ns_schema ns = Some old ∧ checkExpectedVersion (i_Version expected) old = Done () ∧
      ns_schema (r_ns s') = Some sc ∧ t_Version sc = t_Version old + 1 ∧
      laid_out base sc (ns_rows (r_ns s')) ∧ ids (ns_rows (r_ns s')) = ids (ns_rows ns) ∧
      table_of (t_Fields sc) (ns_rows (r_ns s')) =
        foldl (spec_change (DB := DB) (length (ids (ns_rows ns)))) (table_of (t_Fields old) (ns_rows ns)) changes ∧
      (rows_fit (t_Fields old) (ns_rows ns) → rows_fit (t_Fields sc) (ns_rows (r_ns s'))) ∧
      ns_changes (r_ns s') = ns_changes ns ∧ ns_migrations (r_ns s') = ns_migrations ns ++ [(t_Version old, t_Version sc)]
  | _ => I (r_ns s')
  end.
Proof.
  apply (Migrate_cases I) in H; [|done|intros; by apply Hstage|done]. destruct o as [sc| |]; [|done..].
  destruct H as (s1 & s2 & gen & constant & head & Hi1 & _ & Ha & ->).
  apply activation_Done in Ha as (old & m & s0 & Hold & Hver & Hp & E0 & Ha). pose proof (Htable _ _ Hi1 Hold) as Hk.
  apply apply_plan_Done in Ha; [|rewrite E0; by eapply kept_sorted]. rewrite E0 in Ha.
  destruct (committed_rows _ _ _ _ _ _ _ _ _ _ _ Hk Hp Ha) as (? & ? & ? & ? & ?).
  exists (r_ns s1), old. destruct (ap_schema _ _ _ _ _ _ _ Ha) as (? & _), (ap_same _ _ _ _ _ _ _ Ha) as (_ & _ & ?). split_and!; try done.
  apply Ha.
Qed.

(** *** The vectors and the index of a table *)

(** The text of a row, where it holds one. *)
Definition row_text (d : DB) (column : string) (id : Z) : option string :=
  if bool_decide (id ∈ ids d) then match cell d id column with VText s => if String.eqb s "" then None else Some s | _ => None end
  else None.
(** [v] is what the provider made of a text with the digest of [text]: of
    [text] itself, unless SHA-256 collides. *)
Definition made_for (text : string) (v : list Z) : Prop := ∃ t, textDigest t = textDigest text ∧ made t v.
Definition embedded (sc : TableSchema) (ns : nsfile DB) : Prop :=
  match VectorizeField (t_Fields sc) with
  | None => vectors_of ns = ∅
  | Some f => ∀ id, match row_text (ns_rows ns) (f_Name f) id with
                    | Some text => ∃ v, vectors_of ns !! id = Some (EncodeVector v) ∧ made_for text v
                    | None => vectors_of ns !! id = None
                    end
  end.
Definition sound_stage (ns : nsfile DB) : Prop := ∀ r, r ∈ default [] (ns_stage ns) → sg_table r = table → sg_provider r = provider →
  ∃ text v, sg_digest r = textDigest text ∧ sg_vector r = EncodeVector v ∧ made text v.
(** The declared table is there, its index holds its rows, its vectors are
    those of its texts, and so are those that are staged. *)
Definition current (ns : nsfile DB) : Prop :=
  sound_stage ns ∧ ∀ sc, ns_schema ns = Some sc →
    kept_table base sc (ns_rows ns) ∧ ns_index ns = indexed (t_Fields sc) (ns_rows ns) ∧ embedded sc ns.

Lemma row_text_cells (d d' : DB) c c' id : ids d' = ids d → (id ∈ ids d → cell d' id c' = cell d id c) → row_text d' c' id = row_text d c id.
Proof. intros Hids Hc. unfold row_text. rewrite Hids. destruct (decide (id ∈ ids d)) as [Hd|Hd]; [by rewrite !bool_decide_true, Hc|by rewrite !bool_decide_false]. Qed.
Lemma row_text_Some (d : DB) c id s : row_text d c id = Some s ↔ (id ∈ ids d) ∧ cell d id c = VText s ∧ s ≠ "".
Proof.
  unfold row_text. case_bool_decide as Hid; [|naive_solver]. destruct (cell d id c) as [| | |t| | |]; [naive_solver..| |naive_solver|naive_solver|naive_solver].
  destruct (String.eqb_spec t ""); naive_solver.
Qed.
Lemma index_same (d d' : DB) columns : ids d' = ids d → (∀ c id, c ∈ columns → id ∈ ids d → cell d' id c = cell d id c) →
  index_rows columns d' = index_rows columns d.
Proof.
  intros Hids Hc. unfold index_rows. rewrite Hids.
  assert (∀ l, (∀ id, id ∈ l → id ∈ ids d) →
    map (λ id, (id, map (cell d' id) columns)) (List.filter (λ id, existsb (λ c, negb (is_null (cell d' id c))) columns) l) =
    map (λ id, (id, map (cell d id) columns)) (List.filter (λ id, existsb (λ c, negb (is_null (cell d id c))) columns) l)) as Hall;
    [|by apply Hall].
  induction l as [|id l IH]; intros Hin; [done|]. cbn.
  assert (map (cell d' id) columns = map (cell d id) columns) as Hm.
  { apply map_ext_in. intros c Hcc. apply Hc; [by apply list_elem_of_In|]. apply Hin. by left. }
  assert (existsb (λ c, negb (is_null (cell d' id c))) columns = existsb (λ c, negb (is_null (cell d id c))) columns) as ->.
  { revert Hm. clear. induction columns as [|c l IH]; [done|]. cbn. intros [= -> Hl]. by rewrite IH. }
  destruct (existsb _ columns); cbn; rewrite ?Hm; [f_equal|]; apply IH; intros x Hx; apply Hin; by right.
Qed.

Lemma stamped_made gen ns id text v : sound_stage ns → (∀ text v, made text v → Forall word32 v) →
  stamped gen (ns_stage ns) id text v → ∃ w, v = Some (EncodeVector w) ∧ made_for text w.
Proof.
  intros Hs Hw (held & (r & Hr & Hh & _ & Hd & Hv) & Hdig & ->). unfold staged_here in Hh.
  apply andb_true_iff in Hh as [[Ht%String.eqb_eq _]%andb_true_iff Hp%String.eqb_eq].
  destruct (Hs r Hr Ht Hp) as (t & w & Hrd & Hrv & Hm). exists w. split; [|by exists t; rewrite <- Hdig, <- Hd].
  unfold decodeStageVector in Hv. rewrite Hrv, DecodeVector_encode in Hv by (by eapply Hw). by rewrite <- Hv.
Qed.

(** The vectors after the transaction that commits. *)
Lemma committed_embedded changes ns old m w gen from constant ns' sc :
  kept_table base old (ns_rows ns) → plan_facts (ns_rows ns) base old changes m w (ns_rows ns') → applied m from gen constant ns ns' sc →
  (∀ text v, made text v → Forall word32 v) → sound_stage ns → embedded old ns →
  (∀ c, constant = Some c → e_constant (m_embed m) ≠ "" → made (e_constant (m_embed m)) c) → embedded sc ns'.
Proof.
  intros Hk Hpf Ha Hw Hs He Hc. destruct (ap_schema _ _ _ _ _ _ _ Ha) as (_ & dim & ->). unfold embedded. cbn [t_Fields with_embedding].
  destruct (ap_vectors _ _ _ _ _ _ _ Ha) as (v & Hv & Hv'). pose proof (pf_embed _ _ _ _ _ _ _ Hpf) as Hem.
  pose proof (unmarked_vectors _ _ _ _ _ _ _ Hk Hpf) as Hun. pose proof (constant_cells _ _ _ _ _ _ _ Hpf) as Hconst.
  pose proof (pf_ids _ _ _ _ _ _ _ Hpf) as Hids. destruct (kept_sorted _ _ Hk) as [_ Hpos].
  unfold embed_of in Hem. destruct (w_vec w).
  - rewrite <- (pf_fields _ _ _ _ _ _ _ Hpf) in Hem.
    assert ((if bool_decide (is_Some (VectorizeField (t_Fields old))) then ∅ else vectors_of ns) = ∅) as Hcl.
    { case_bool_decide as Hh; [done|]. unfold embedded in He. destruct (VectorizeField (t_Fields old)); [by destruct Hh|done]. }
    destruct (VectorizeField (t_Fields (m_cur m))) as [f|] eqn:Hf.
    + destruct Hem as (Ee & Ecl & _ & Et & Es & Ehs & Ec).
      assert ((if e_clear (m_embed m) then ∅ else vectors_of ns) = ∅) as Hcleared.
      { destruct (e_clear (m_embed m)); [done|]. case_bool_decide as Hh; [by specialize (Ecl eq_refl)|done]. }
      rewrite Ee, Ehs, Es in Hv. cbn in Hv. rewrite Hcleared in Hv. rewrite Ee, Ec, Et in Hv'. cbn in Hv'.
      destruct (String.eqb_spec (phys_of w (f_Name f)) "") as [Hp|Hp]; cbn in Hv, Hv'.
      * subst v. specialize (Hconst f eq_refl Hp). cbn zeta in Hconst.
        destruct (String.eqb_spec (constant_text (default_of w (f_Name f))) "") as [Hno|Htext]; cbn in Hv'.
        -- intros id. rewrite Hv', lookup_empty. destruct (row_text _ _ id) as [s|] eqn:Hr; [|done].
           apply row_text_Some in Hr as (Hid & Hcell & Hne). rewrite Hids in Hid. specialize (Hconst id Hid). unfold has_text in Hconst.
           rewrite Hcell in Hconst. apply negb_false_iff, String.eqb_eq in Hconst. done.
        -- destruct Hv' as (c & -> & Hall). intros id. rewrite Hall.
           destruct (decide (id ∈ ids (ns_rows ns))) as [Hid|Hid].
           ++ assert (row_text (ns_rows ns') (f_Name f) id = Some (constant_text (default_of w (f_Name f)))) as ->
                by (apply row_text_Some; rewrite Hids; auto).
              rewrite bool_decide_true. { exists c. split; [done|]. exists (constant_text (default_of w (f_Name f))). split; [done|]. cbn in Ec. rewrite <- Ec. apply Hc; [done|]. by rewrite Ec. }
              unfold texts_of. apply elem_filter. rewrite Hids. split; [done|]. unfold has_text. rewrite (Hconst id Hid).
              by apply negb_true_iff, String.eqb_neq.
           ++ unfold row_text. rewrite Hids, (bool_decide_false _ Hid), bool_decide_false, lookup_empty; [done|].
              intros [Hin _]%elem_filter. by rewrite Hids in Hin.
      * rewrite Hv'. intros id. specialize (Hv id). rewrite lookup_empty in Hv.
        destruct (vectorized_field _ _ _ _ _ _ _ Hpf f Hf) as (Hin & _).
        assert (w_phys w !! f_Name f = Some (phys_of w (f_Name f))) as Hphys by (unfold phys_of in *; by destruct (w_phys w !! f_Name f)).
        rewrite (row_text_cells (ns_rows ns) _ (phys_of w (f_Name f)));
          [|done|intros Hid; by apply (moved_cells _ _ _ _ _ _ _ Hpf f _ Hin Hphys Hp)].
        destruct (decide (id ∈ source_rows (phys_of w (f_Name f)) 0 None (ns_rows ns))) as [Hsrc|Hsrc];
          [rewrite (bool_decide_true _ Hsrc) in Hv|rewrite (bool_decide_false _ Hsrc) in Hv].
        -- destruct Hv as (text & Hcell & Hne & Hid & Hst).
           assert (row_text (ns_rows ns) (phys_of w (f_Name f)) id = Some text) as -> by by apply row_text_Some.
           by eapply stamped_made.
        -- rewrite Hv. destruct (row_text _ _ id) as [s|] eqn:Hr; [|done]. destruct Hsrc.
           apply row_text_Some in Hr as (Hid & Hcell & Hne). unfold source_rows. apply elem_filter. split; [done|].
           unfold has_text, visible. rewrite Hcell, (proj2 (String.eqb_neq _ _) Hne), (proj2 (Z.ltb_lt _ _) (Hpos id Hid)). done.
    + rewrite Hem in Hv, Hv'. cbn in Hv, Hv'. by rewrite Hv', Hv, Hcl.
  - specialize (Hun eq_refl). rewrite Hem in Hv, Hv'. cbn in Hv, Hv'. unfold embedded in He. rewrite Hv', Hv.
    destruct (VectorizeField (t_Fields (m_cur m))) as [f|], (VectorizeField (t_Fields old)) as [g|]; try done.
    intros id. specialize (He id). by rewrite (row_text_cells (ns_rows ns) _ (f_Name g)) by auto.
Qed.

Lemma staged_rows gen batch : ∀ stage r, r ∈ foldl (stage_one table gen provider) stage batch →
  r ∈ stage ∨ ∃ b, b ∈ batch ∧ r = MkStage table gen (sv_id b) provider (sv_digest b) (EncodeVector (sv_vec b)).
Proof.
  induction batch as [|b batch IH]; intros stage r Hr; cbn in Hr; [by left|].
  apply IH in Hr as [Hr|(x & Hx & ->)]; [|right; exists x; split; [by right|done]].
  unfold stage_one in Hr. apply elem_of_app in Hr as [[Hr _]%elem_filter|Hr]; [by left|].
  apply list_elem_of_singleton in Hr as ->. right. exists b. split; [by left|done].
Qed.
Lemma current_staged gen batch ns : current ns → made_batch batch → current (staged_batch gen batch ns).
Proof.
  intros [Hs Hc] Hm. split; [|exact Hc]. intros r Hr Ht Hp. unfold staged_batch in Hr. cbn in Hr.
  apply staged_rows in Hr as [Hr|(b & Hb & ->)]; [by apply Hs|].
  apply (proj1 (Forall_forall _ _) Hm) in Hb as (text & Hd & Hv). by exists text, (sv_vec b).
Qed.
Lemma committed_index changes old m w (d d' : DB) : plan_facts d base old changes m w d' → m_fts m = false →
  indexed (t_Fields (m_cur m)) d' = indexed (t_Fields old) d.
Proof.
  intros Hpf Hm. destruct (unmarked_index _ _ _ _ _ _ _ Hpf Hm) as [Hn Hc]. unfold indexed.
  destruct (FTSFields (t_Fields (m_cur m))) as [|f fs], (FTSFields (t_Fields old)) as [|g gs]; try done. rewrite Hn.
  by rewrite (index_same d d') by (done || by eapply pf_ids).
Qed.
Lemma committed_current fuel changes expected sc ns' : (∀ text v, made text v → Forall word32 v) →
  committed current fuel changes expected sc ns' → current ns'.
Proof.
  intros Hw (s1 & s2 & gen & constant & head & [Hs Hc] & Hfrom & Ha & ->).
  apply activation_Done in Ha as (old & m & s0 & Hold & _ & Hp & E0 & Ha). destruct (Hc _ Hold) as (Hk & Hix & He).
  apply apply_plan_Done in Ha; [|rewrite E0; by eapply kept_sorted]. rewrite E0 in Ha.
  destruct (planned_facts _ _ _ _ _ _ _ _ _ base _ _ _ _ _ _ Hk Hp) as (w & d & Hpf).
  pose proof (pf_run _ _ _ _ _ _ _ Hpf) as Hrun. rewrite (ap_rows _ _ _ _ _ _ _ Ha) in Hrun. injection Hrun as <-.
  split.
  - intros r Hr. apply Hs. rewrite (ap_stage _ _ _ _ _ _ _ Ha) in Hr. destruct (ns_stage (r_ns s1)); cbn in Hr; [|done].
    by apply elem_filter in Hr as [? _].
  - intros sc' Hsc. destruct (ap_schema _ _ _ _ _ _ _ Ha) as (Hsc' & dim & Hcur). rewrite Hsc' in Hsc. injection Hsc as <-.
    split_and!.
    + rewrite Hcur. destruct (pf_kept _ _ _ _ _ _ _ Hpf) as (Hl & Hv & Hso). split_and!; [|done|done]. by apply (laid_out_ext base (m_cur m)).
    + rewrite (ap_index _ _ _ _ _ _ _ Ha), Hcur. cbn. destruct (m_fts m) eqn:Hm; [done|]. by rewrite Hix, (committed_index _ _ _ _ _ _ Hpf).
    + eapply committed_embedded; [done|exact Hpf|exact Ha|done|done|done|]. intros c Hcc Hne.
      destruct (Hfrom c Hcc) as (n & ns0 & old0 & m0 & [_ Hc0] & Hold0 & Hp0 & Hne0 & Hm0).
      destruct (Hc0 _ Hold0) as (Hk0 & _). destruct (planned_facts _ _ _ _ _ _ _ _ _ base _ _ _ _ _ _ Hk0 Hp0) as (w0 & d0 & Hpf0).
      by rewrite (same_constant _ _ _ _ _ _ _ _ _ _ _ _ Hpf Hpf0 Hne Hne0).
Qed.

(** C6. Search stays right across a migration.  If, in whatever the other
    clients leave, every row of the table that holds a text to embed has the
    vector the provider made of it, no other row has one, and the full-text
    index holds the rows, then so it is at the end of any migration, successful
    or not: for the new declaration, its names and its fields, although rows
    were written while their vectors were staged. *)
Theorem migrate_keeps_search (Hwords : ∀ n texts vecs, Embed n texts = Some vecs → Forall (Forall word32) vecs)
    (Hothers : ∀ n ns, current ns → current (others n ns))
    fuel changes expected s o s' (Hi : current (r_ns s)) (H : Migrate fuel changes expected s = (o, s')) :
  current (r_ns s').
Proof.
  apply (Migrate_cases current) in H; [|done|intros; by apply current_staged|done]. destruct o as [sc| |]; [|done..].
  eapply committed_current; [|done]. intros text v (n & texts & vecs & i & He & _ & Hv). apply Hwords in He.
  rewrite Forall_lookup in He. by eapply He.
Qed.
(** C27. A migration and a dry run come to an end.  If the other clients keep
    the numbers of the rows below [N], the pages of a migration cannot go on for
    ever, and neither can its attempts: more fuel than [N] is enough for every
    run, whatever fails in it, and whatever is written meanwhile. *)
Theorem migrations_return (N : Z) (Hothers : ∀ n ns, bounded N ns → bounded N (others n ns))
    fuel changes expected scope scopeIncarnation s (Hi : bounded N (r_ns s)) (Hf : Z.max 0 N < Z.of_nat fuel) :
  (Migrate fuel changes expected s).1 ≠ OutOfFuel ∧
  (PlanMigration fuel changes expected scope scopeIncarnation s).1 ≠ OutOfFuel.
Proof. split; [by eapply returning_Migrate|by eapply returning_PlanMigration]. Qed.

(** *** A dry run, and the migration it is confirmed by *)

Lemma reads_count fuel column gen scope : ∀ after n, reads (count_pages fuel column gen after n scope).
Proof. induction fuel as [|fuel IH]; intros after n; cbn [count_pages]; reads_all. Qed.
Lemma reads_staged_plan fuel m gen scope : reads (applyStagedPlan fuel m gen scope).
Proof. pose proof reads_count. unfold applyStagedPlan, countStagedVectors. reads_all. Qed.
Lemma reads_scope inc : reads (checkScopeIncarnation inc).
Proof. unfold checkScopeIncarnation. reads_all. Qed.
Lemma plan_to faults polls naming final tables (db : DB) embeds identity scope n t old changes v m :
  planMigration faults polls naming final tables db embeds identity scope n t old changes v = Done m →
  p_ToVersion (m_plan m) = t_Version old + 1 ∧ p_FromVersion (m_plan m) = t_Version old.
Proof.
  unfold planMigration. destruct (plan_body _ _ _ _ _ _ _ _ _ _ _ _ _) as [[m'| |] w'] eqn:Hb; try done. intros [= ->].
  unfold plan_body in Hb. plan_inv Hb. done.
Qed.
Lemma PlanMigration_Done fuel changes expected scope inc s D s' :
  PlanMigration fuel changes expected scope inc s = (Done D, s') →
  r_ns s' = others (r_txs s) (r_ns s) ∧ ∃ old m, ns_schema (r_ns s') = Some old ∧ dr_Plan D = m_plan m ∧
    p_ToVersion (m_plan m) = t_Version old + 1 ∧
    dr_Expected D = MkIncarnation (ns_gen (r_ns s')) table (t_Version old) (ns_dropGen (r_ns s')).
Proof.
  unfold PlanMigration. destruct changes as [|ch changes]; [done|]. intros H.
  apply abind_Done in H as (u & s1 & H1 & H). apply reads_outcome in H1 as [E1 T1].
  unfold read_tx in H. apply abind_Done in H as (b & s2 & H2 & H).
  assert (r_ns s2 = others (r_txs s) (r_ns s)) as E2. { unfold begin_tx in H2. apply reads_ask in H2 as [-> _]. cbn. by rewrite E1, T1. }
  apply abind_Done in H as (u3 & s3 & H3 & H). apply reads_scope in H3 as [E3 _].
  apply abind_Done in H as (old & s4 & H4 & H). apply loadSchema_found in H4 as (Hold & E4 & _).
  apply abind_Done in H as (u5 & s5 & H5 & H). apply reads_outcome in H5 as [E5 _].
  apply abind_Done in H as (u6 & s6 & H6 & H). apply reads_outcome in H6 as [E6 _].
  apply abind_Done in H as (m & s7 & H7 & H). injection H7 as Hp <-. unfold refused in Hp. apply lift_error_Done in Hp.
  apply abind_Done in H as (gen & s8 & H8 & H). apply ask_Done in H8 as (Hg & E8 & _). injection Hg as Hg.
  apply abind_Done in H as (dg & s9 & H9 & H). apply ask_Done in H9 as (Hdg & E9 & _). injection Hdg as Hdg.
  apply abind_Done in H as ([rows n] & s10 & H10 & H). apply reads_staged_plan in H10 as [E10 _]. injection H as <- <-.
  rewrite E10, E9, E8, E6, E5, E4, E3 in *. split; [done|]. exists old, m. cbn. apply plan_to in Hp as [Hp _]. subst. split_and!; done.
Qed.

Lemma lifetime_Done expected s u s' : checkBoundLifetime expected s = (Done u, s') → bound_lifetime expected = true →
  ns_dropGen (r_ns s) = i_DropGen expected ∧ (i_NsGen expected ≠ zero_gen → ns_gen (r_ns s) = i_NsGen expected).
Proof.
  unfold checkBoundLifetime. intros H Hb. rewrite Hb in H. cbn [negb] in H. destruct (_ && _); [done|].
  apply abind_Done in H as (gen & s1 & (Hg & E1 & _)%ask_Done & H). injection Hg as <-.
  apply abind_Done in H as (dg & s2 & (Hd & E2 & _)%ask_Done & H). injection Hd as <-. rewrite E1 in H.
  destruct (bool_decide (i_NsGen expected ≠ zero_gen) && bool_decide (i_NsGen expected ≠ ns_gen (r_ns s))) eqn:Eg; [done|].
  destruct (Z.eqb_spec (i_DropGen expected) (ns_dropGen (r_ns s))) as [->|]; [|done]. split; [done|]. intros Hne.
  rewrite (bool_decide_true _ Hne) in Eg. cbn in Eg. apply bool_decide_eq_false in Eg. destruct (decide (ns_gen (r_ns s) = i_NsGen expected)); [done|].
  destruct Eg. intros He. by rewrite He in n.
Qed.

(** C28. A migration that names what its dry run answered applies to the table
    the dry run read, or not at all.  The dry run writes nothing; and whatever
    the other clients do until then, if they drop the table and create it again,
    replace the namespace, or change the declaration, the migration fails, and
    if it succeeds the version it leaves is the one the dry run announced. *)
Theorem dry_run_pins_table fuel fuel' changes expected scope scopeIncarnation s D s1
    (Hplan : PlanMigration fuel changes expected scope scopeIncarnation s = (Done D, s1))
    (Hns : ns_gen (r_ns s1) ≠ zero_gen) (Hversion : ∀ sc, ns_schema (r_ns s1) = Some sc → 0 < t_Version sc)
    (I : nsfile DB → Prop) (Hothers : ∀ n ns, I ns → I (others n ns)) (Hstage : ∀ l ns, I ns → I (with_stage l ns))
    (Htable : ∀ ns sc, I ns → ns_schema ns = Some sc → kept_table base sc (ns_rows ns))
    s2 sc s3 (Hi : I (r_ns s2)) (H : Migrate fuel' changes (dr_Expected D) s2 = (Done sc, s3)) :
  r_ns s1 = others (r_txs s) (r_ns s) ∧
  ns_gen (r_ns s3) = ns_gen (r_ns s1) ∧ ns_dropGen (r_ns s3) = ns_dropGen (r_ns s1) ∧
  t_Version sc = p_ToVersion (dr_Plan D) ∧ ns_schema (r_ns s3) = Some sc.
Proof.
  apply PlanMigration_Done in Hplan as (Hs & old & m & Hold & HD & Hto & He). specialize (Hversion _ Hold).
  apply (Migrate_cases I) in H; [|done|intros; by apply Hstage|done].
  destruct H as (a1 & a2 & gen & constant & head & Hi1 & _ & Ha & ->). pose proof Ha as Ha'.
  apply activation_Done in Ha as (old' & m' & s0 & Hold' & Hver & Hp & E0 & Ha). pose proof (Htable _ _ Hi1 Hold') as Hk.
  apply apply_plan_Done in Ha; [|rewrite E0; by eapply kept_sorted]. rewrite E0 in Ha.
  unfold activation in Ha'. apply abind_Done in Ha' as (u & s4 & Hl & _).
  apply lifetime_Done in Hl as [Hdg Hg]; [|unfold bound_lifetime; rewrite He; cbn; by rewrite (bool_decide_true _ Hns)].
  rewrite He in Hdg, Hg, Hver. cbn in Hdg, Hg, Hver. specialize (Hg Hns).
  destruct (ap_same _ _ _ _ _ _ _ Ha) as (-> & -> & _), (ap_schema _ _ _ _ _ _ _ Ha) as (Hsc & dim & ->).
  split_and!; try done. apply planned in Hp as (w & _ & _ & _ & [(_ & _ & Hv & _) _] & _). cbn in Hv |- *. rewrite Hv, HD, Hto.
  unfold checkExpectedVersion in Hver. destruct (Z.ltb_spec (t_Version old) 0); [lia|]. destruct (Z.ltb_spec 0 (t_Version old)); [|lia].
  cbn in Hver. destruct (Z.eqb_spec (t_Version old) (t_Version old')); [congruence|done].
Qed.
(** C17. A migration nobody disturbs does not give up.  If no other client
    writes while it runs, and at most one vector of a row is staged when it
    starts, as its own staging leaves it, the first attempt is the last: the
    vectors it staged are found by the check, by the comparison with the log and
    by the stamping, so that the run succeeds or reports what failed, and never
    asks to be tried again. *)
Theorem undisturbed_migration_settles (N : Z) (Halone : ∀ n (ns : nsfile DB), others n ns = ns)
    (Hdigests : ∀ text, String.length (textDigest text) = digestSize)
    (Hwords : ∀ n texts vecs, Embed n texts = Some vecs → Forall (Forall word32) vecs)
    fuel changes expected s (Hi : bounded N (r_ns s)) (Hf : Z.max 0 N < Z.of_nat fuel)
    (Hone : single (ns_dropGen (r_ns s)) (stage_rows (r_ns s))) :
  match (Migrate fuel changes expected s).1 with
  | Done _ => True
  | Fail e => e ≠ MigrationConflict ∧ e ≠ RetryActivation
  | OutOfFuel => False
  end.
Proof.
  pose proof (Migrate_settles Halone Hdigests Hwords fuel changes expected (r_ns s) (proj1 Hi) Hone s eq_refl) as Hs.
  assert ((Migrate fuel changes expected s).1 ≠ OutOfFuel) as Hr.
  { eapply (returning_Migrate N); [|exact Hf|exact Hi]. intros n ns. by rewrite Halone. }
  destruct (Migrate fuel changes expected s) as [[sc|e|] s']; [done| |done]. by destruct Hs.
Qed.
End Theorems.

(** ** A migration with a writer in between *)

Import Sheet.
#[local] Existing Instance ascii_tables.

Definition plain_base : list string := ["id"; "created_at"].
Definition life : list Z := replicate 16 1.
Definition file_of (d : sheet) (log : gmap Z log_row) (stage : option (list stage_row)) : nsfile sheet :=
  MkNs life 7 (Some notes) d log stage None (indexed (t_Fields notes) d) [] false.
(** While the vectors are staged, another client writes the body of row 2. *)
Definition edited_table : sheet := notes_of [(1, note "draft" "first"); (2, note "done" "third")].
Definition before : nsfile sheet := file_of notes_table ∅ None.
Definition edited : option (list stage_row) → nsfile sheet :=
  file_of edited_table {[5 := MkLogRow "notes" 2 "update" None (Some 1) life 7 0]}.

(** A digest of 32 bytes and a provider with two dimensions. *)
Definition padded (s : string) : string := substring 0 32 (s +:+ "................................").
Definition vector_of (s : string) : list Z := [1065353216; Z.of_nat (String.length s) mod 2 ^ 32].
#[local] Instance two_clients : Surroundings sheet := {|
  textDigest := padded; Embed _ texts := Some (map vector_of texts);
  others n ns := if (n =? 8)%nat then edited (ns_stage ns) else ns;
  failing := fine; plan_failing _ := fine; plan_polls _ := λ _, quiet; plan_naming _ := calm; plan_final _ := still;
  other_tables _ := ∅; has_embedder := true; provider := "p"; has_keys := true; nsName := "ns"; table := "notes" |}.

Definition first_run : run sheet := MkRun before 0 0.
Definition vectorize_body : list Change :=
  [MkChange OpSetVectorize None "" "" "body" (Some true) None None None None JNull None].
Definition named (v : Z) : Incarnation := MkIncarnation life "notes" v 7.
Definition after_run : outcome staged_error TableSchema * run sheet := Migrate 9 vectorize_body (named 3) first_run.
Definition new_notes : TableSchema := match after_run.1 with Done sc => sc | _ => notes end.

(** The first attempt finds the row changed; the second embeds the new text. *)
Example second_attempt : r_txs after_run.2 = 18%nat ∧ (ns_vectors (r_ns after_run.2)) = Some (list_to_map
    [(1, EncodeVector [1065353216; 5]); (2, EncodeVector [1065353216; 5])]) ∧ t_EmbedDim new_notes = 2.
Proof. vm_compute. split_and!; reflexivity. Qed.

Lemma notes_kept title1 body1 title2 body2 : kept_table plain_base notes (notes_of [(1, note title1 body1); (2, note title2 body2)]).
Proof. split_and!; [apply notes_laid_out|cbn; lia|repeat constructor]. Qed.
Lemma others_keep_stage (P : nsfile sheet → Prop) : (∀ stage, P (edited stage)) → ∀ n ns, P ns → P (others n ns).
Proof. intros HP n ns Hns. unfold others, two_clients. destruct (n =? 8)%nat; [apply HP|exact Hns]. Qed.
Definition notes_there (ns : nsfile sheet) : Prop := ∀ sc, ns_schema ns = Some sc → kept_table plain_base sc (ns_rows ns).
Lemma notes_there_file d log stage : kept_table plain_base notes d → notes_there (file_of d log stage).
Proof. intros Hk sc [= <-]. exact Hk. Qed.

Lemma migrate_is_one_step_witness : ∃ ns old, notes_there ns ∧ ns_schema ns = Some old ∧ checkExpectedVersion 3 old = Done () ∧
  ids (ns_rows (r_ns after_run.2)) = ids (ns_rows ns) ∧ ns_migrations (r_ns after_run.2) = ns_migrations ns ++ [(t_Version old, 4)].
Proof.
  destruct (migrate_is_one_step plain_base notes_there
    (others_keep_stage notes_there (λ stage, notes_there_file _ _ stage (notes_kept _ _ _ _)))
    (λ l ns H, H) (λ ns sc H, H sc) 9 vectorize_body (named 3) first_run (Done new_notes) after_run.2
    (notes_there_file _ _ _ (notes_kept _ _ _ _)) ltac:(vm_compute; reflexivity))
    as (ns & old & Hns & Hold & Hver & _ & _ & _ & Hids & _ & _ & _ & Hlog).
  exists ns, old. split_and!; [exact Hns|exact Hold|exact Hver|exact Hids|exact Hlog].
Defined.

Lemma current_file d log stage : kept_table plain_base notes d → (sound_stage (file_of d log stage)) →
  current plain_base (file_of d log stage).
Proof. intros Hk Hs. split; [exact Hs|]. intros sc [= <-]. split_and!; [exact Hk|done|reflexivity]. Qed.
Lemma current_before : current plain_base before.
Proof. apply current_file; [apply notes_kept|]. intros r Hr. by apply not_elem_of_nil in Hr. Qed.
Lemma others_current n ns : current plain_base ns → current plain_base (others n ns).
Proof.
  intros Hns. unfold others, two_clients. destruct (n =? 8)%nat; [|exact Hns].
  apply current_file; [apply notes_kept|]. exact (proj1 Hns).
Qed.
Lemma vector_words (n : nat) texts vecs : Embed n texts = Some vecs → Forall (Forall word32) vecs.
Proof.
  cbn. intros [= <-]. apply Forall_map, Forall_true. intros t. repeat constructor; unfold word32; pose proof (Z.mod_pos_bound (Z.of_nat (String.length t)) (2 ^ 32)); cbn; lia.
Qed.
Lemma migrate_keeps_search_witness : current plain_base (r_ns after_run.2).
Proof.
  refine (migrate_keeps_search plain_base vector_words others_current 9 vectorize_body (named 3) first_run after_run.1 after_run.2
    current_before _). vm_compute. reflexivity.
Defined.

Lemma notes_bounded title1 body1 title2 body2 log stage :
  bounded 2 (file_of (notes_of [(1, note title1 body1); (2, note title2 body2)]) log stage).
Proof. split; cbn; repeat constructor; lia. Qed.
Lemma others_bounded n (ns : nsfile sheet) : bounded 2 ns → bounded 2 (others n ns).
Proof.
  intros Hns. unfold others, two_clients. destruct (n =? 8)%nat; [|exact Hns]. apply notes_bounded.
Qed.
Lemma migrations_return_witness : after_run.1 ≠ OutOfFuel ∧ (PlanMigration 9 vectorize_body (named 3) None zero_incarnation first_run).1 ≠ OutOfFuel.
Proof.
  refine (migrations_return 2 others_bounded 9 vectorize_body (named 3) None zero_incarnation first_run _ _).
  - apply notes_bounded.
  - vm_compute. reflexivity.
Defined.

Definition dry : outcome staged_error DryRun * run sheet := PlanMigration 9 vectorize_body zero_incarnation None zero_incarnation first_run.
Definition dry_answer : DryRun := match dry.1 with Done D => D | _ => MkDryRun (m_plan no_plan) 0 0 zero_incarnation end.
Lemma dry_run_pins_table_witness : t_Version new_notes = p_ToVersion (dr_Plan dry_answer) ∧ dr_EmbedRows dry_answer = 2.
Proof.
  split; [|vm_compute; reflexivity].
  refine (proj1 (proj2 (proj2 (proj2 (dry_run_pins_table plain_base 9 9 vectorize_body zero_incarnation None zero_incarnation first_run dry_answer dry.2
    _ _ _ notes_there (others_keep_stage notes_there (λ stage, notes_there_file _ _ stage (notes_kept _ _ _ _)))
    (λ l ns H, H) (λ ns sc H, H sc) first_run new_notes after_run.2 (notes_there_file _ _ _ (notes_kept _ _ _ _)) _)))));
    [vm_compute; reflexivity|discriminate|intros sc [= <-]; reflexivity|vm_compute; reflexivity].
Defined.

(** Nobody else writes. *)
Definition one_client : Surroundings sheet := {|
  textDigest := padded; Embed _ texts := Some (map vector_of texts); others _ ns := ns;
  failing := fine; plan_failing _ := fine; plan_polls _ := λ _, quiet; plan_naming _ := calm; plan_final _ := still;
  other_tables _ := ∅; has_embedder := true; provider := "p"; has_keys := true; nsName := "ns"; table := "notes" |}.
Lemma padded_length text : String.length (padded text) = digestSize.
Proof.
  unfold padded, digestSize.
  assert (∀ n s, (n <= String.length s)%nat → String.length (substring 0 n s) = n) as Hsub.
  { induction n as [|n IH]; intros [|c s] Hn; cbn in *; [done|done|lia|]. f_equal. apply IH. lia. }
  apply Hsub. rewrite string_length_app. cbn. lia.
Qed.
Lemma undisturbed_migration_settles_witness :
  (@Migrate sheet _ _ one_client 9 vectorize_body (named 3) first_run).1 ≠ Fail MigrationConflict.
Proof.
  pose proof (@undisturbed_migration_settles sheet _ _ _ one_client 2 (λ n ns, eq_refl) padded_length vector_words
    9 vectorize_body (named 3) first_run (notes_bounded _ _ _ _ _ _) ltac:(vm_compute; reflexivity)
    (λ r1 r2 H1, False_ind _ (not_elem_of_nil r1 H1))) as H.
  intros He. rewrite He in H. exact (proj1 H eq_refl).
Defined.
