(* ===== verification/Listen.v ===== *)
(** * Live subscriptions ([internal/store/listen_*.go])

    A subscription replays the changes a cursor is behind ([next]) and then
    notifies the changes that commit ([fill] reads them into a queue, [drain]
    notifies them).  Three goroutines, the callers of [Next] and of the cancel
    function, and everything that uses the same log run at once over one
    [listenSession].

    Each goroutine is a program counter and a step function.  A step is one
    critical section of [sess.mu], one transaction on the log, or one call of
    a callback of the subscriber.  A transaction is one step: it takes
    [sess.mu] once at most ([chainFor]), and no other writer runs during it.
    What the code is told while it runs (the clock, the authorization, the
    context's cause, whether a callback panics) is in the [seen] of the step. *)
From Stdlib Require Import ZArith Lia Ascii String.
From stdpp Require Import base gmap strings list.
From S2P Require Import Prelude GoStrings AuthIdentity SchemaIdent Schema SchemaConstraints Authz GoNumbers Changelog.
Local Open Scope Z_scope.

(** ** Data *)

Definition ListenQueueBound : Z := 8 * MaxChangesPageLimit.
Definition listenPruneInterval : Z := 1000.
Definition listenPollInterval : Z := 250 * Millisecond.
Definition nsPruneInterval : Z := listenPollInterval.

(** What a subscription ends with: the errors of listen_live.go, an error of
    the log as it is or wrapped by [fillErr], a panic that [recoverPump]
    reports, or what another part of the server ends it with. *)
Inductive cause :=
| ErrListenOverflow | ErrListenLifetimeEnded | ErrListenRevoked | errListenEnded
| OfLog (e : change_error) | FillFailed (e : change_error) | PumpPanicked (half : string) | Explicit (why : string).
#[global] Instance change_error_eq_dec : EqDecision change_error.
Proof. solve_decision. Defined.
#[global] Instance cause_eq_dec : EqDecision cause.
Proof. solve_decision. Defined.

(** The arguments of [Store.Listen] that stay, and the store's settings. *)
Record subscription := MkSub {
  sb_table : string; sb_retention : Z; sb_queueBound : Z; sb_has_authz : bool; sb_has_closed : bool }.

(** [sync.Once]: not called, running, returned. *)
Inductive once := Unfired | Running | Fired.

Record listenSession := MkSession {
  ls_feed : option changeFeed; ls_position : Z; ls_boundary : Z; ls_outstanding : Z;
  ls_chain : cursorChain; ls_queueChain : option cursorChain;
  ls_woken : bool; ls_queue : list loggedChange; ls_liveRead : Z;
  ls_pendingClose : option cause; ls_pendingCloseYield : bool; ls_pendingDrainClose : option cause;
  ls_deathCause : option cause; ls_deathCauseYield : bool; ls_pumpsLaunched : bool; ls_firing : bool;
  ls_delivered : Z; ls_deliveringSeq : Z; ls_nextCursor : string;
  ls_replayExhausted : bool; ls_dead : bool; ls_replayDone : bool; ls_replayActive : bool; ls_notifyActive : bool;
  ls_closedOnce : once }.

(** [set_x v s] is [s] with the field [x] set to [v]. *)
Ltac build_session s p v c l :=
  lazymatch l with
  | (?l', ?q) => let rec_ := build_session s p v c l' in
                 lazymatch q with p => constr:(rec_ v) | _ => constr:(rec_ (q s)) end
  | ?q => lazymatch q with p => constr:(c v) | _ => constr:(c (q s)) end
  end.
Ltac setter s p v :=
  let t := build_session s p v constr:(MkSession)
    constr:((ls_feed, ls_position, ls_boundary, ls_outstanding, ls_chain, ls_queueChain, ls_woken, ls_queue, ls_liveRead,
      ls_pendingClose, ls_pendingCloseYield, ls_pendingDrainClose, ls_deathCause, ls_deathCauseYield, ls_pumpsLaunched,
      ls_firing, ls_delivered, ls_deliveringSeq, ls_nextCursor, ls_replayExhausted, ls_dead, ls_replayDone,
      ls_replayActive, ls_notifyActive, ls_closedOnce)) in exact t.
Definition set_feed : option changeFeed → listenSession → listenSession := λ v s, ltac:(setter s ls_feed v).
Definition set_position : Z → listenSession → listenSession := λ v s, ltac:(setter s ls_position v).
Definition set_boundary : Z → listenSession → listenSession := λ v s, ltac:(setter s ls_boundary v).
Definition set_outstanding : Z → listenSession → listenSession := λ v s, ltac:(setter s ls_outstanding v).
Definition set_chain : cursorChain → listenSession → listenSession := λ v s, ltac:(setter s ls_chain v).
Definition set_queueChain : option cursorChain → listenSession → listenSession := λ v s, ltac:(setter s ls_queueChain v).
Definition set_woken : bool → listenSession → listenSession := λ v s, ltac:(setter s ls_woken v).
Definition set_queue : list loggedChange → listenSession → listenSession := λ v s, ltac:(setter s ls_queue v).
Definition set_liveRead : Z → listenSession → listenSession := λ v s, ltac:(setter s ls_liveRead v).
Definition set_pendingClose : option cause → listenSession → listenSession := λ v s, ltac:(setter s ls_pendingClose v).
Definition set_pendingCloseYield : bool → listenSession → listenSession := λ v s, ltac:(setter s ls_pendingCloseYield v).
Definition set_pendingDrainClose : option cause → listenSession → listenSession := λ v s, ltac:(setter s ls_pendingDrainClose v).
Definition set_deathCause : option cause → listenSession → listenSession := λ v s, ltac:(setter s ls_deathCause v).
Definition set_deathCauseYield : bool → listenSession → listenSession := λ v s, ltac:(setter s ls_deathCauseYield v).
Definition set_pumpsLaunched : bool → listenSession → listenSession := λ v s, ltac:(setter s ls_pumpsLaunched v).
Definition set_firing : bool → listenSession → listenSession := λ v s, ltac:(setter s ls_firing v).
Definition set_delivered : Z → listenSession → listenSession := λ v s, ltac:(setter s ls_delivered v).
Definition set_deliveringSeq : Z → listenSession → listenSession := λ v s, ltac:(setter s ls_deliveringSeq v).
Definition set_nextCursor : string → listenSession → listenSession := λ v s, ltac:(setter s ls_nextCursor v).
Definition set_replayExhausted : bool → listenSession → listenSession := λ v s, ltac:(setter s ls_replayExhausted v).
Definition set_dead : bool → listenSession → listenSession := λ v s, ltac:(setter s ls_dead v).
Definition set_replayDone : bool → listenSession → listenSession := λ v s, ltac:(setter s ls_replayDone v).
Definition set_replayActive : bool → listenSession → listenSession := λ v s, ltac:(setter s ls_replayActive v).
Definition set_notifyActive : bool → listenSession → listenSession := λ v s, ltac:(setter s ls_notifyActive v).
Definition set_closedOnce : once → listenSession → listenSession := λ v s, ltac:(setter s ls_closedOnce v).

(** What the code is told during one step: the readings of the clock, the
    answers of [liveAuthz] (by the number of the call in the step),
    [context.Cause] when it is neither a cancellation nor a deadline, whether
    the namespace was evicted, whether the caller's context is done, whether
    the driver's error is that of a context, whether the callback panics, and
    which branch a [select] takes. *)
Inductive answer := Refused | Allowed (scope : option RowScope) (inc : Incarnation) | AuthzPanics.
Record seen := MkSeen {
  sn_now : nat → Z; sn_authz : nat → string → answer; sn_explicit : option cause; sn_evicted : bool;
  sn_ctx_done : bool; sn_driver_ctx : bool; sn_panics : bool; sn_stop : bool }.

(** ** Ending a session (listen_session.go) *)

Definition is_some {A} (o : option A) : bool := match o with Some _ => true | None => false end.

Definition endCauseLocked (s : listenSession) : cause :=
  match ls_deathCause s with
  | Some c => c
  | None => match ls_pendingClose s with Some c => c | None => errListenEnded end
  end.

(** The two causes [endPark] may replace: the one the callback will be given
    and the one [Next] reports. *)
Definition park_pending (c : cause) (first yields : bool) (s : listenSession) : listenSession :=
  if first && negb (is_some (ls_pendingClose s)) then set_pendingCloseYield yields (set_pendingClose (Some c) s)
  else if negb first && negb yields && is_some (ls_pendingClose s) && ls_pendingCloseYield s
  then set_pendingCloseYield false (set_pendingClose (Some c) s)
  else s.
Definition park_death (c : cause) (first yields : bool) (s : listenSession) : listenSession :=
  if first && negb (is_some (ls_deathCause s)) then set_deathCauseYield yields (set_deathCause (Some c) s)
  else if negb first && negb yields && is_some (ls_deathCause s) && ls_deathCauseYield s
  then set_deathCauseYield false (set_deathCause (Some c) s)
  else s.
Definition endPark (c : option cause) (yields : bool) (s : listenSession) : bool * listenSession :=
  let first := negb (ls_dead s) in
  let s := if first then set_dead true s else s in
  let s := match c with
           | Some c => park_death c first yields (park_pending c first yields s)
           | None => s
           end in
  (first, s).
Definition endParked (c : option cause) (s : listenSession) : bool * listenSession := endPark c false s.
Definition endYielding (c : cause) (s : listenSession) : bool * listenSession := endPark (Some c) true s.

(** [end]: the cause it goes on to fire itself, once no callback runs, when
    no goroutine is there to do it. *)
Definition end_ (c : option cause) (s : listenSession) : option cause * listenSession :=
  let '(first, s) := endParked c s in
  if negb (is_some c) || negb first then (None, s)
  else if ls_pumpsLaunched s || negb (is_some (ls_pendingClose s)) then (None, s)
  else (ls_pendingClose s, set_pendingClose None s).

Definition endOnPageFailure (o : seen) (e : change_error) (s : listenSession) : listenSession :=
  if sn_ctx_done o || bool_decide (e = DBFailed) && sn_driver_ctx o then s else snd (endYielding (OfLog e) s).

Definition isClosing (s : listenSession) : bool :=
  ls_dead s || is_some (ls_pendingClose s) || is_some (ls_pendingDrainClose s).

(** What the subscriber and its server can see happen, in order.  [changes]
    and [lc] are the model's: the code hands out their records, under cursors. *)
Inductive event :=
| EOpened (position boundary : Z)
| EPaged (changes : list loggedChange) (records : list ChangeRecord) (next : string) (done : bool) (err : option cause)
| ENotified (lc : loggedChange) (record : ChangeRecord)
| EClosed (c : cause)
| ECancelled (waited : bool)
| EUnpinned.

(** [flushParkedClose] and [fireClosed]: waiting for the callbacks, waiting
    for the store's mutex, calling [closedFn]. *)
Inductive flush_pc := LWait | LBarrier | LFire (c : cause) | LFiring.

Definition flush_take (s : listenSession) : option flush_pc * listenSession :=
  (match ls_pendingClose s with Some c => Some (LFire c) | None => None end, set_pendingClose None s).
(** [None]: the step cannot be taken yet; [Some (None, ..)]: it returns. *)
Definition flush_step (sub : subscription) (p : flush_pc) (s : listenSession)
    : option (option flush_pc * listenSession * list event) :=
  match p with
  | LWait =>
      if is_some (ls_pendingClose s) && (ls_replayActive s || ls_notifyActive s) then None
      else if is_some (ls_pendingClose s) && ls_pendingCloseYield s then Some (Some LBarrier, s, [])
      else Some (flush_take s, [])
  | LBarrier => Some (flush_take s, [])
  | LFire c =>
      match ls_closedOnce s with
      | Running => None
      | Fired => Some (None, s, [])
      | Unfired =>
          if sb_has_closed sub then Some (Some LFiring, set_firing true (set_closedOnce Running s), [EClosed c])
          else Some (None, set_closedOnce Fired s, [])
      end
  | LFiring => Some (None, set_closedOnce Fired (set_firing false s), [])
  end.

(** ** Transactions of a session

    They act on the session and on the log; a rollback gives back the tables
    of the log, and leaves what was done to the session. *)
Definition sessions (A : Type) := act (listenSession * changelog) change_error A.
Definition on_log {A} (m : logs A) : sessions A := λ '(s, l), let '(o, l') := m l in (o, (s, l')).
Definition of_session {A} (f : listenSession → A) : sessions A := λ '(s, l), (Done (f s), (s, l)).
Definition on_session (f : listenSession → listenSession) : sessions () := λ '(s, l), (Done (), (f s, l)).

Section Sessions.
Context (faults : nat → bool) (clock : nat → Z) (rand : nat → option (list Z)) (sub : subscription).
Let table := sb_table sub.
Let retention := sb_retention sub.

Definition stx {A} (body : sessions A) : sessions A := λ '(s, l),
  match stmt faults (λ l, (Done (), l)) l with
  | (Done _, l1) =>
      match body (s, l1) with
      | (Done a, (s2, l2)) =>
          match stmt faults (λ l, (Done (), l)) l2 with
          | (Done _, l3) => (Done a, (s2, l3))
          | (Fail e, l3) => (Fail e, (s2, rollback l1 l3))
          | (OutOfFuel, l3) => (OutOfFuel, (s2, l3))
          end
      | (o, (s2, l2)) => (o, (s2, rollback l1 l2))
      end
  | (Fail e, l1) => (Fail e, (s, l1))
  | (OutOfFuel, l1) => (OutOfFuel, (s, l1))
  end.

(** ** Cursors of a session *)

Definition lowestOwedLocked (s : listenSession) : Z :=
  let floor := ls_deliveringSeq s in
  match ls_queue s with
  | lc :: _ => if (floor =? 0) || (lc_seq lc <? floor) then lc_seq lc else floor
  | [] => floor
  end.

(** Where a chain made now starts: no later than what may still be minted. *)
Definition chain_origin (resume : Z) (s : listenSession) : Z :=
  let origin := resume in
  let origin := if negb (ls_replayExhausted s) && (ls_position s <? origin) then ls_position s else origin in
  let floor := lowestOwedLocked s in
  if (0 <? floor) && (floor - 1 <? origin) then floor - 1 else origin.
Definition chainFor (now resume : Z) : sessions cursorChain :=
  if retention <=? 0 then of_session ls_chain
  else
    do! chain := of_session ls_chain in
    if UnixMilli now <? ch_Start chain + millis retention then aret chain
    else
      do! origin := of_session (chain_origin resume) in
      do! chain := on_log (newCursorChain rand now origin) in
      do! _ := on_session (set_chain chain) in
      aret chain.

Definition verifyRetained (from to_ promised : Z) : sessions () :=
  if (to_ <=? from) || (promised =? 0) then aret ()
  else
    do! feed := of_session ls_feed in
    do! kept := on_log (changeCount faults from to_ feed) in
    if kept =? promised then aret () else afail ErrCursorExpired.

Definition is_not_found (e : change_error) : bool := match e with NoTable _ => true | _ => false end.

(** ** The filling goroutine (listen_live.go) *)

(** What [admit_to] decides on a record, given the answer of [liveAuthz]. *)
Inductive admission := Admits (visible : bool) | Ends (c : cause) | AdmitPanics.
Definition admit_inc (inc : Incarnation) (rec : ChangeRecord) : bool :=
  inc_zero inc
  || bool_decide (i_NsGen inc = lt_NsGen (cr_Lifetime rec))
     && (String.eqb table ""
         || String.eqb (i_Table inc) (lt_Table (cr_Lifetime rec)) && (i_DropGen inc =? lt_DropGen (cr_Lifetime rec))).
Definition admit_to (a : answer) (rec : ChangeRecord) : admission :=
  if negb (sb_has_authz sub) then Admits true
  else match a with
       | AuthzPanics => AdmitPanics
       | Refused => Ends ErrListenRevoked
       | Allowed scope inc =>
           match scope with
           | Some sc =>
               if rs_Empty sc then Admits false
               else if String.eqb (cr_Owner rec) "" then Ends (OfLog ErrScopedFeedPredatesLabels)
               else if negb (String.eqb (rs_Owner sc) (cr_Owner rec)) then Admits false
               else Admits (admit_inc inc rec)
           | None => Admits (admit_inc inc rec)
           end
       end.

(** The loop over a batch: what was admitted, and what stopped it. *)
Inductive stopped := Ran | Refuses (c : cause) | Panicked.
Fixpoint admit_all (authz : nat → string → answer) (i : nat) (scanned : list loggedChange) : list loggedChange * stopped :=
  match scanned with
  | [] => ([], Ran)
  | lc :: scanned =>
      match admit_to (authz i (cr_Table_ (lc_rec lc))) (lc_rec lc) with
      | AdmitPanics => ([], Panicked)
      | Ends c => ([], Refuses c)
      | Admits vis =>
          let '(admitted, st) := admit_all authz (S i) scanned in
          (if vis then lc :: admitted else admitted, st)
      end
  end.

Definition pollInterval : Z :=
  if (retention <=? 0) || (listenPollInterval <=? Z.quot retention 2) then listenPollInterval
  else let d := Z.quot retention 2 in if d <? Millisecond then Millisecond else d.

(** The store prunes a namespace at most once per interval: whether it is
    due, and when it is due next. *)
Definition pruneDue (now next : Z) : bool * Z :=
  if retention <=? 0 then (false, next) else if now <? next then (false, next) else (true, now + nsPruneInterval).

(** Whether the lifetime the feed was opened in is over. *)
Definition lifetime_ended (feed : option changeFeed) : logs bool :=
  match feed with
  | None => aret false
  | Some f => λ l,
      match changeFeedOf faults (cf_table f) l with
      | (Done current, l') => (Done (negb (bool_decide (cf_nsgen current = cf_nsgen f) && (cf_dropGen current =? cf_dropGen f))), l')
      | (Fail e, l') => if is_not_found e then (Done true, l') else (Fail e, l')
      | (OutOfFuel, l') => (OutOfFuel, l')
      end
  end.

Definition page_limit : nat := Z.to_nat MaxChangesPageLimit.
Definition scanPage (from : Z) (to_ : option Z) (feed : option changeFeed) : logs (list loggedChange) :=
  do! rows := changePage faults from to_ page_limit feed None in
  of_outcome (scanChangePage rows).

Definition readBatch (prune : bool) (now : nat → Z) : sessions (list loggedChange * bool) :=
  stx (
    do! from := of_session ls_liveRead in
    do! feed := of_session ls_feed in
    do! scanned := on_log (scanPage from None feed) in
    do! ended := on_log (lifetime_ended feed) in
    do! _ := (if prune then
                do! _ := (if bool_decide (scanned = []) then aret ()
                          else
                            do! chain := chainFor (now 2%nat) from in
                            do! _ := on_log (mintCursorToken faults rand (now 1%nat) from table (Some chain)) in
                            aret ()) in
                on_log (pruneChanges faults (now 3%nat) retention)
              else aret ()) in
    aret (scanned, ended)).

Definition fillErr (o : seen) (e : change_error) : cause :=
  match sn_explicit o with
  | Some c => c
  | None => if is_not_found e || sn_evicted o then ErrListenLifetimeEnded else FillFailed e
  end.

(** [protectQueue]: it looks at what is owed, mints a cursor that keeps it,
    and records the cursor's chain. *)
Inductive protect_pc := GStart | GTx (floor : Z) | GSet (chain : cursorChain).
Definition protect_needed (now : Z) (s : listenSession) : option Z :=
  let rms := millis retention in
  if rms <=? 0 then None
  else
    let floor := lowestOwedLocked s in
    if floor =? 0 then None
    else match ls_queueChain s with
         | Some chain =>
             let margin := Z.max (Z.quot rms 2) (2 * millis pollInterval) in
             if UnixMilli now <? ch_Start chain + rms - margin then None else Some floor
         | None => Some floor
         end.
Definition protect_tx (now floor : Z) : sessions cursorChain :=
  stx (
    do! replacement := on_log (newCursorChain rand now (floor - 1)) in
    do! _ := on_log (mintCursorToken faults rand now floor table (Some replacement)) in
    do! _ := on_log (pruneChanges faults now retention) in
    aret replacement).
Definition protect_step (o : seen) (g : protect_pc) (s : listenSession) (l : changelog)
    : option protect_pc * listenSession * changelog :=
  match g with
  | GStart => (match protect_needed (sn_now o 0%nat) s with Some floor => Some (GTx floor) | None => None end, s, l)
  | GTx floor =>
      match protect_tx (sn_now o 0%nat) floor (s, l) with
      | (Done chain, (s', l')) => (Some (GSet chain), s', l')
      | (_, (s', l')) => (None, s', l')
      end
  | GSet chain => (None, set_queueChain (Some chain) s, l)
  end.

Definition bound : Z := if 0 <? sb_queueBound sub then sb_queueBound sub else ListenQueueBound.

(** What [fillBatch] returns, and where [fill] is then. *)
Inductive batch := Count (n : nat) | BatchFails (c : cause).
Inductive fill_after := ToRead | ToReturn (b : batch).
Inductive fill_pc :=
| FOff | FWait | FCheck | FProtect (g : protect_pc) (k : fill_after) | FRead
| FAdmit (scanned : list loggedChange) (ended : bool)
| FRevoked (scanned admitted : list loggedChange) (c : cause)
| FAppend (scanned admitted : list loggedChange) (ended : bool)
| FFull (n : nat) (first : bool)
| FEnd (c : cause) | FFlush (p : flush_pc) | FDone.

Definition fill_return (b : batch) : fill_pc :=
  match b with
  | Count n => if (n <? page_limit)%nat then FWait else FCheck
  | BatchFails c => FEnd c
  end.
(** [protectQueue] runs first when the queue was empty and is not now. *)
Definition fill_leave (first : bool) (b : batch) : fill_pc :=
  if first then FProtect GStart (ToReturn b) else fill_return b.

(** The first critical section after a batch: the batch is appended. *)
Definition appended_batch (scanned admitted : list loggedChange) (s : listenSession) : listenSession :=
  let s := match last scanned with Some lc => set_liveRead (lc_seq lc) s | None => s end in
  set_queue (ls_queue s ++ admitted) s.
Definition starts_queue (admitted : list loggedChange) (s : listenSession) : bool :=
  bool_decide (ls_queue s = []) && negb (bool_decide (admitted = [])).
Definition over_bound (s : listenSession) : bool := bound <? Z.of_nat (length (ls_queue s)).

(** The rest of it, after the wait of an ended feed on a full queue: [n] rows
    were scanned. *)
Definition finish_batch (n : nat) (first ended : bool) (s : listenSession) : listenSession * fill_pc :=
  let short := (n <? page_limit)%nat in
  let dead := ls_dead s in
  let over := over_bound s in
  let s := if ended && short then set_pendingDrainClose (Some ErrListenLifetimeEnded) s else s in
  (s, fill_leave (first && negb dead)
        (if dead then Count 0
         else if ended && short then Count 0
         else if over && negb ended then BatchFails ErrListenOverflow else Count n)).

(** ** The draining goroutine (listen_drain.go) *)

Definition mintOne (now seq : Z) : sessions string :=
  stx (
    do! exists_ := on_log (select faults (λ l, bool_decide (is_Some (cl_changes l !! seq)))) in
    if negb exists_ then afail ErrCursorExpired
    else
      do! chain := chainFor now seq in
      do! tok := on_log (mintCursorToken faults rand now seq table (Some chain)) in
      do! _ := on_session (λ s, set_delivered (wrap_int64 (ls_delivered s + 1)) s) in
      do! delivered := of_session ls_delivered in
      do! _ := (if Z.rem delivered listenPruneInterval =? 0 then on_log (pruneChanges faults now retention) else aret ()) in
      aret tok).

Inductive drain_pc :=
| DOff | DWait | DMint (lc : loggedChange) | DNotify (lc : loggedChange) (rec : ChangeRecord) | DNotifying
| DClear (c : cause) | DEnding (c : option cause) | DEndYield (c : cause) | DFlush (p : flush_pc) | DDone.

Definition drain_waits (s : listenSession) : bool :=
  negb (ls_dead s)
  && (negb (ls_replayDone s) || ls_replayActive s
      || bool_decide (ls_queue s = []) && negb (is_some (ls_pendingClose s)) && negb (is_some (ls_pendingDrainClose s))).
(** The critical section at the top of the loop. *)
Definition drain_take (s : listenSession) : option (drain_pc * listenSession) :=
  if drain_waits s then None
  else if ls_dead s then Some (DFlush LWait, s)
  else match ls_queue s with
       | [] =>
           match ls_pendingDrainClose s with
           | Some c => Some (DEnding (Some c), set_pendingDrainClose None s)
           | None => Some (DEnding (ls_pendingClose s), s)
           end
       | lc :: queue =>
           Some (DMint lc, set_notifyActive true (set_deliveringSeq (lc_seq lc) (set_queue queue s)))
       end.
Definition drain_clear (s : listenSession) : listenSession := set_notifyActive false (set_deliveringSeq 0 s).

(** ** Pages of the replay (listen_page.go) *)

Record pageProgress := MkProgress { pg_short : bool; pg_scannedLast : Z; pg_next : string; pg_consumed : Z }.
Definition no_progress : pageProgress := MkProgress false 0 "" 0.
(** What [page] returns; [pa_scanned] and [pa_changes], the model's, are the
    changes it scanned and those of its records. *)
Record paged := MkPaged {
  pa_scanned : option (list loggedChange); pa_changes : list loggedChange; pa_records : list ChangeRecord; pa_next : string; pa_done : bool; pa_progress : pageProgress;
  pa_err : option cause }.

Definition scan_replay : sessions (list loggedChange) :=
  stx (
    do! position := of_session ls_position in
    do! boundary := of_session ls_boundary in
    do! outstanding := of_session ls_outstanding in
    do! _ := verifyRetained position boundary outstanding in
    do! feed := of_session ls_feed in
    on_log (scanPage position (Some boundary) feed)).

Definition mint_page (now : Z) (admitted : list loggedChange) (resume scannedLast : Z) (scannedCount : nat)
    : sessions (list ChangeRecord * string) :=
  stx (
    do! _ := (if (0 <? scannedCount)%nat then verifyRetained resume scannedLast (Z.of_nat scannedCount) else aret ()) in
    do! chain := chainFor now resume in
    do! minted := on_log (mintChangeCursors faults rand now admitted resume "" table (Some chain)) in
    do! _ := on_log (pruneChanges faults now retention) in
    aret minted).

(** Where a call of [next] is; [resume] is the cursor it began with. *)
Inductive next_pc :=
| NOff | NIdle | NPage (resume : string) | NRead (resume : string) | NAdmit (resume : string) (scanned : list loggedChange)
| NMint (resume : string) (scanned admitted : list loggedChange)
| NFail (resume : string) (e : change_error) | NRefused (resume : string) (c : cause)
| NClear (resume : string) (r : paged) | NFinish (resume : string) (r : paged) | NPanicked.

Definition page_failed (e : change_error) : paged := MkPaged None [] [] "" false no_progress (Some (OfLog e)).
Definition page_ended (s : listenSession) (err : option cause) : paged := MkPaged None [] [] (ls_nextCursor s) true no_progress err.
Definition scanned_last (scanned : list loggedChange) : Z := match last scanned with Some lc => lc_seq lc | None => 0 end.
Definition page_of (scanned admitted : list loggedChange) (records : list ChangeRecord) (next : string) : paged :=
  let short := (length scanned <? page_limit)%nat in
  let progress := MkProgress short (scanned_last scanned) next (Z.of_nat (length scanned)) in
  if short && bool_decide (records = []) then MkPaged (Some scanned) [] [] next true progress None
  else MkPaged (Some scanned) admitted records next false progress None.

(** The last critical section of [next]. *)
Definition finish_next (resume : string) (r : paged) (s : listenSession) : listenSession * event :=
  let s := if pa_done r && negb (is_some (pa_err r)) then set_replayDone true s else s in
  let answer := EPaged (pa_changes r) (pa_records r) (pa_next r) (pa_done r) (pa_err r) in
  if ls_dead s then (set_replayDone true s, EPaged [] [] resume true (Some (endCauseLocked s)))
  else if is_some (pa_err r) || String.eqb (pg_next (pa_progress r)) "" then (s, answer)
  else
    let p := pa_progress r in
    let s := set_replayExhausted (pg_short p) s in
    let s := if 0 <? pg_scannedLast p then set_position (pg_scannedLast p) s else s in
    (set_outstanding (ls_outstanding s - pg_consumed p) (set_nextCursor (pg_next p) s), answer).

(** ** Opening a session (listen_register.go)

    The transaction of [Store.Listen]; [a] is what [liveAuthz] answers. *)
Definition open_start (now : Z) (from : string) : sessions () :=
  do! (position, chain) := on_log (start_of faults rand now retention from table) in
  on_session (λ s, set_nextCursor (if String.eqb from "" || String.eqb from CursorBegin then "" else from)
                     (set_chain chain (set_position position s))).
Definition open_stale (a : answer) : sessions () :=
  do! position := of_session ls_position in
  do! boundary := of_session ls_boundary in
  do! feed := of_session ls_feed in
  match a with
  | Allowed (Some _) _ =>
      if sb_has_authz sub && (position <? boundary) then
        do! stale := on_log (unlabeledChangeInRange faults position boundary feed) in
        if stale then afail ErrScopedFeedPredatesLabels else aret ()
      else aret ()
  | _ => aret ()
  end.
Definition open_session (now : Z) (from : string) (a : answer) : sessions () :=
  stx (
    do! _ := (if String.eqb table "" then aret ()
              else do! feed := on_log (changeFeedOf faults table) in on_session (set_feed (Some feed))) in
    do! _ := open_start now from in
    do! boundary := on_log (changeHead faults) in
    do! _ := on_session (set_boundary boundary) in
    do! _ := open_stale a in
    do! position := of_session ls_position in
    do! feed := of_session ls_feed in
    do! _ := (if position <? boundary then
                do! n := on_log (changeCount faults position boundary feed) in on_session (set_outstanding n)
              else aret ()) in
    do! next := of_session ls_nextCursor in
    do! chain := of_session ls_chain in
    do! _ := (if String.eqb next "" then
                do! tok := on_log (mintCursorToken faults rand now position table (Some chain)) in
                on_session (set_nextCursor tok)
              else aret ()) in
    on_session (set_liveRead boundary)).

(** ** The whole: a log, a session and its goroutines *)

Inductive poll_pc := POff | PWait | PEnd (c : cause) | PWake | PProtect (g : protect_pc) | PDone.
Inductive cancel_pc := COff | CIdle | CRead | CWait | CReturned.
Inductive unpin_pc := UOff | UStop | UPumps | UReplay | UDone.

(** [w_pruneNext] is the store's [pruneNext] of the namespace. *)
Record world := MkWorld {
  w_log : changelog; w_session : listenSession; w_pruneNext : Z; w_fill : fill_pc; w_drain : drain_pc; w_poll : poll_pc;
  w_next : next_pc; w_cancel : cancel_pc; w_unpin : unpin_pc; w_trace : list event }.

Definition with_session (w : world) (s : listenSession) : world :=
  MkWorld (w_log w) s (w_pruneNext w) (w_fill w) (w_drain w) (w_poll w) (w_next w) (w_cancel w) (w_unpin w) (w_trace w).
Definition with_log (w : world) (l : changelog) : world :=
  MkWorld l (w_session w) (w_pruneNext w) (w_fill w) (w_drain w) (w_poll w) (w_next w) (w_cancel w) (w_unpin w) (w_trace w).
Definition with_prune (w : world) (t : Z) : world :=
  MkWorld (w_log w) (w_session w) t (w_fill w) (w_drain w) (w_poll w) (w_next w) (w_cancel w) (w_unpin w) (w_trace w).
(** A step of each of the goroutines: its new place, the session and the log
    it leaves, and what was seen. *)
Definition fill_to (w : world) (p : fill_pc) (s : listenSession) (l : changelog) (evs : list event) : world :=
  MkWorld l s (w_pruneNext w) p (w_drain w) (w_poll w) (w_next w) (w_cancel w) (w_unpin w) (w_trace w ++ evs).
Definition drain_to (w : world) (p : drain_pc) (s : listenSession) (l : changelog) (evs : list event) : world :=
  MkWorld l s (w_pruneNext w) (w_fill w) p (w_poll w) (w_next w) (w_cancel w) (w_unpin w) (w_trace w ++ evs).
Definition poll_to (w : world) (p : poll_pc) (s : listenSession) (l : changelog) (evs : list event) : world :=
  MkWorld l s (w_pruneNext w) (w_fill w) (w_drain w) p (w_next w) (w_cancel w) (w_unpin w) (w_trace w ++ evs).
Definition next_to (w : world) (p : next_pc) (s : listenSession) (l : changelog) (evs : list event) : world :=
  MkWorld l s (w_pruneNext w) (w_fill w) (w_drain w) (w_poll w) p (w_cancel w) (w_unpin w) (w_trace w ++ evs).
Definition cancel_to (w : world) (p : cancel_pc) (s : listenSession) (evs : list event) : world :=
  MkWorld (w_log w) s (w_pruneNext w) (w_fill w) (w_drain w) (w_poll w) (w_next w) p (w_unpin w) (w_trace w ++ evs).
Definition unpin_to (w : world) (p : unpin_pc) (evs : list event) : world :=
  MkWorld (w_log w) (w_session w) (w_pruneNext w) (w_fill w) (w_drain w) (w_poll w) (w_next w) (w_cancel w) p (w_trace w ++ evs).

Definition fill_flush (r : option (option flush_pc * listenSession * list event)) (w : world) : option world :=
  match r with
  | Some (p, s, evs) => Some (fill_to w (match p with Some p => FFlush p | None => FDone end) s (w_log w) evs)
  | None => None
  end.

(** [pump]: [fill], then [endYielding] of its error, then the deferred calls.
    [None]: the goroutine waits, or has returned. *)
Definition fill_step (o : seen) (w : world) : option world :=
  let s := w_session w in
  let l := w_log w in
  match w_fill w with
  | FOff | FDone => None
  | FWait =>
      if negb (ls_dead s) && negb (ls_woken s) then None
      else Some (fill_to w (if isClosing s then FFlush LWait else FCheck) (set_woken false s) l [])
  | FCheck => Some (fill_to w (if isClosing s then FFlush LWait else FProtect GStart ToRead) s l [])
  | FProtect g k =>
      let '(g', s', l') := protect_step o g s l in
      Some (fill_to w (match g' with
                       | Some g => FProtect g k
                       | None => match k with ToRead => FRead | ToReturn b => fill_return b end
                       end) s' l' [])
  | FRead =>
      let '(prune, next) := pruneDue (sn_now o 0%nat) (w_pruneNext w) in
      match readBatch prune (sn_now o) (s, l) with
      | (Done (scanned, ended), (s', l')) => Some (with_prune (fill_to w (FAdmit scanned ended) s' l' []) next)
      | (Fail e, (s', l')) => Some (with_prune (fill_to w (FEnd (fillErr o e)) s' l' []) next)
      | (OutOfFuel, _) => None
      end
  | FAdmit scanned ended =>
      Some (fill_to w (match admit_all (sn_authz o) 0 scanned with
                       | (admitted, Ran) => FAppend scanned admitted ended
                       | (admitted, Refuses c) => FRevoked scanned admitted c
                       | (_, Panicked) => FEnd (PumpPanicked "fill")
                       end) s l [])
  | FRevoked scanned admitted c =>
      if ls_dead s then
        Some (fill_to w (fill_return (Count 0)) (match last scanned with Some lc => set_liveRead (lc_seq lc) s | None => s end) l [])
      else
        let s' := appended_batch scanned admitted s in
        Some (fill_to w (fill_leave (starts_queue admitted s) (Count 0))
                (if is_some (ls_pendingDrainClose s') then s' else set_pendingDrainClose (Some c) s') l [])
  | FAppend scanned admitted ended =>
      let first := starts_queue admitted s in
      let s' := appended_batch scanned admitted s in
      if over_bound s' && ended && negb (ls_dead s') then Some (fill_to w (FFull (length scanned) first) s' l [])
      else let '(s', p) := finish_batch (length scanned) first ended s' in Some (fill_to w p s' l [])
  | FFull n first =>
      if over_bound s && negb (ls_dead s) then None
      else let '(s', p) := finish_batch n first true s in Some (fill_to w p s' l [])
  | FEnd c => Some (fill_to w (FFlush LWait) (snd (endYielding c s)) l [])
  | FFlush p => fill_flush (flush_step sub p s) w
  end.

Definition drain_flush (r : option (option flush_pc * listenSession * list event)) (w : world) : option world :=
  match r with
  | Some (p, s, evs) => Some (drain_to w (match p with Some p => DFlush p | None => DDone end) s (w_log w) evs)
  | None => None
  end.

Definition drain_step (o : seen) (w : world) : option world :=
  let s := w_session w in
  let l := w_log w in
  match w_drain w with
  | DOff | DDone => None
  | DWait => match drain_take s with Some (p, s') => Some (drain_to w p s' l []) | None => None end
  | DMint lc =>
      match mintOne (sn_now o 0%nat) (lc_seq lc) (s, l) with
      | (Done tok, (s', l')) => Some (drain_to w (DNotify lc (set_cursor (lc_rec lc) tok)) s' l' [])
      | (Fail e, (s', l')) => Some (drain_to w (DClear (fillErr o e)) s' l' [])
      | (OutOfFuel, _) => None
      end
  | DNotify lc rec => Some (drain_to w DNotifying s l [ENotified lc rec])
  | DNotifying => Some (drain_to w (if sn_panics o then DEndYield (PumpPanicked "drain") else DWait) (drain_clear s) l [])
  | DClear c => Some (drain_to w (DEndYield c) (drain_clear s) l [])
  | DEnding c => Some (drain_to w (DFlush LWait) (snd (end_ c s)) l [])
  | DEndYield c => Some (drain_to w (DFlush LWait) (snd (endYielding c s)) l [])
  | DFlush p => drain_flush (flush_step sub p s) w
  end.

(** [pollWake]. *)
Definition poll_step (o : seen) (w : world) : option world :=
  let s := w_session w in
  let l := w_log w in
  match w_poll w with
  | POff | PDone => None
  | PWait =>
      if sn_stop o then if ls_dead s then Some (poll_to w PDone s l []) else None
      else Some (poll_to w (match sn_explicit o with Some c => PEnd c | None => PWake end) s l [])
  | PEnd c => Some (poll_to w PDone (snd (end_ (Some c) s)) l [])
  | PWake => Some (poll_to w (PProtect GStart) (set_woken true s) l [])
  | PProtect g =>
      let '(g', s', l') := protect_step o g s l in
      Some (poll_to w (match g' with Some g => PProtect g | None => PWait end) s' l' [])
  end.

(** [next], for the caller that holds [flight]; the others wait, and have no
    effect. *)
Definition next_step (o : seen) (w : world) : option world :=
  let s := w_session w in
  let l := w_log w in
  match w_next w with
  | NOff => None
  | NIdle => Some (next_to w (NPage (ls_nextCursor s)) (set_replayActive true s) l [])
  | NPage resume =>
      Some (next_to w (if ls_dead s then NClear resume (page_ended s (Some (endCauseLocked s)))
                       else if ls_replayExhausted s then NClear resume (page_ended s None)
                       else NRead resume) s l [])
  | NRead resume =>
      match scan_replay (s, l) with
      | (Done scanned, (s', l')) => Some (next_to w (NAdmit resume scanned) s' l' [])
      | (Fail e, (s', l')) => Some (next_to w (NFail resume e) s' l' [])
      | (OutOfFuel, _) => None
      end
  | NAdmit resume scanned =>
      Some (next_to w (match admit_all (sn_authz o) 0 scanned with
                       | (admitted, Ran) => NMint resume scanned admitted
                       | (_, Refuses c) => NRefused resume c
                       | (_, Panicked) => NPanicked
                       end) s l [])
  | NMint resume scanned admitted =>
      match mint_page (sn_now o 0%nat) admitted (ls_position s) (scanned_last scanned) (length scanned) (s, l) with
      | (Done (records, next), (s', l')) => Some (next_to w (NClear resume (page_of scanned admitted records next)) s' l' [])
      | (Fail e, (s', l')) => Some (next_to w (NFail resume e) s' l' [])
      | (OutOfFuel, _) => None
      end
  | NFail resume e => Some (next_to w (NClear resume (page_failed e)) (endOnPageFailure o e s) l [])
  | NRefused resume c =>
      let s' := snd (end_ (Some c) s) in
      Some (next_to w (NClear resume (page_ended s' (Some (endCauseLocked s')))) s' l [])
  | NClear resume r => Some (next_to w (NFinish resume r) (set_replayActive false s) l [])
  | NFinish resume r => let '(s', ev) := finish_next resume r s in Some (next_to w NIdle s' l [ev])
  | NPanicked => Some (next_to w NIdle (set_replayActive false s) l [])
  end.

Definition pumps_done (w : world) : bool :=
  match w_fill w, w_drain w, w_poll w with FDone, DDone, PDone => true | _, _, _ => false end.

(** [cancel]: what [cancelOnce] guards, then the wait. *)
Definition cancel_step (w : world) : option world :=
  let s := w_session w in
  match w_cancel w with
  | COff => None
  | CIdle => Some (cancel_to w CRead (snd (end_ None s)) [])
  | CRead => Some (if ls_firing s then cancel_to w CReturned s [ECancelled false] else cancel_to w CWait s [])
  | CWait => if pumps_done w then Some (cancel_to w CReturned s [ECancelled true]) else None
  | CReturned => Some (cancel_to w CRead s [])
  end.

Definition unpin_step (w : world) : option world :=
  match w_unpin w with
  | UOff | UDone => None
  | UStop => if ls_dead (w_session w) then Some (unpin_to w UPumps []) else None
  | UPumps => if pumps_done w then Some (unpin_to w UReplay []) else None
  | UReplay => if ls_replayActive (w_session w) then None else Some (unpin_to w UDone [EUnpinned])
  end.

(** [Store.Listen] once the session is registered with the store: it fails,
    or the goroutines start.  (An authorization that panics here is the
    caller's panic, and nothing is opened.) *)
Definition answer_panics (a : answer) : bool := match a with AuthzPanics => true | _ => false end.
Definition launch (w : world) (s : listenSession) (l : changelog) : world :=
  MkWorld l (set_pumpsLaunched true s) (w_pruneNext w) FWait DWait PWait NIdle CIdle UStop
    (w_trace w ++ [EOpened (ls_position s) (ls_boundary s)]).
Definition listen_step (o : seen) (from : string) (w : world) : option world :=
  if ls_pumpsLaunched (w_session w) then None
  else if answer_panics (sn_authz o 0%nat table) then None
  else match open_session (sn_now o 0%nat) from (sn_authz o 0%nat table) (w_session w, w_log w) with
       | (Done _, (s, l)) => Some (launch w s l)
       | (_, (_, l)) => Some (with_log w l)
       end.

(** A session before [Store.Listen] has opened it. *)
Definition new_session : listenSession :=
  MkSession None 0 0 0 (MkChain "" 0 0) None false [] 0 None false None None false false false 0 0 "" false false false
    false false Unfired.
Definition new_world (l : changelog) : world :=
  MkWorld l new_session 0 FOff DOff POff NOff COff UOff [].
End Sessions.
