(* ===== verification/ListenTx.v ===== *)
(** * The transactions of a subscription

    What each transaction of a session reads, what it leaves of the log (a
    step that is [fair] to the other readers, and that makes no change), and
    of the session (its chain at most, and the count of deliveries). *)
From Stdlib Require Import ZArith Lia Ascii String.
From stdpp Require Import base gmap strings list sorting relations.
From S2P Require Import Prelude GoStrings AuthIdentity SchemaIdent Schema SchemaConstraints Authz GoNumbers Changelog ChangelogFacts.
From S2P Require Import ChangelogTheorems Listen.

Local Open Scope Z_scope.

(** A step of the log that makes no change. *)
Record shrinks (l l' : changelog) : Prop := {
  sh_fair : fair l l';
  sh_seq : cl_seq l' = cl_seq l;
  sh_changes seq row : cl_changes l' !! seq = Some row → cl_changes l !! seq = Some row }.

Lemma same_tables_shrinks l l' : log_wf l → same_tables l l' → shrinks l l'.
Proof.
  intros Hwf H. pose proof (same_tables_inv _ _ H) as (Hc & Hq & _). split; [|done|by rewrite Hc].
  apply grows_fair; [done|by apply same_tables_grows].
Qed.
Lemma grows_pruned_shrinks now retention l l1 l' :
  log_wf l → grows l l1 → pruned now retention l1 l' → shrinks l l'.
Proof.
  intros Hwf Hg Hp. split; [by eapply grows_pruned_fair|by rewrite (pr_seq _ _ _ _ Hp), (gr_seq _ _ Hg)|].
  intros seq row [Hr _]%(pr_changes _ _ _ _ Hp). by rewrite <-(gr_changes _ _ Hg).
Qed.
Lemma grows_shrinks l l' : log_wf l → grows l l' → shrinks l l'.
Proof.
  intros Hwf Hg. split; [by apply grows_fair|apply Hg|]. intros seq row. by rewrite (gr_changes _ _ Hg).
Qed.

Lemma fair_same l l1 l2 l' : same_tables l l1 → fair l1 l2 → same_tables l2 l' → fair l l'.
Proof.
  intros H1 [F1 F2 F3 F4] H2.
  destruct (same_tables_inv _ _ H1) as (C1 & Q1 & T1 & _). destruct (same_tables_inv _ _ H2) as (C2 & Q2 & T2 & _).
  split; rewrite ?C1, ?Q1, ?T1, <-?C2, <-?Q2, <-?T2; [exact (same_tables_wf _ _ H2 F1)|exact F2|exact F3|exact F4].
Qed.
Lemma shrinks_same l l1 l2 l' : same_tables l l1 → shrinks l1 l2 → same_tables l2 l' → shrinks l l'.
Proof.
  intros H1 [F1 F2 F3] H2. split; [by eapply fair_same|..].
  all: destruct (same_tables_inv _ _ H1) as (C1 & Q1 & _); destruct (same_tables_inv _ _ H2) as (C2 & Q2 & _).
  - by rewrite <-Q2, F2.
  - intros seq row. rewrite <-C2, C1. apply F3.
Qed.

(** What a transaction may do to a session: [chainFor] at [resume], and the
    count of deliveries. *)
Definition rechained (resume : Z) (s s' : listenSession) : Prop :=
  ∃ c d, s' = set_delivered d (set_chain c s) ∧ (c = ls_chain s ∨ ch_Origin c = chain_origin resume s).

#[global] Instance rechained_preorder resume : PreOrder (rechained resume).
Proof.
  split.
  - intros s. exists (ls_chain s), (ls_delivered s). split; [by destruct s|by left].
  - intros s1 s2 s3 (c & d & -> & Hc) (c' & d' & -> & [->|Hc']); (eexists _, _; split; [reflexivity|]); [exact Hc|by right].
Qed.

Section Tx.
Context (faults : nat → bool) (clock : nat → Z) (rand : nat → option (list Z)) (sub : subscription).

(** ** Actions on a session and a log *)

Lemma on_log_eq {A} (m : logs A) s l : on_log m (s, l) = ((m l).1, (s, (m l).2)).
Proof. unfold on_log. by destruct (m l). Qed.
Lemma on_log_Done {A} (m : logs A) s l a p : on_log m (s, l) = (Done a, p) → m l = (Done a, p.2) ∧ p.1 = s.
Proof. rewrite on_log_eq. intros [= H <-]. destruct (m l). simpl in *. by subst. Qed.

(** Whatever the action answers, it takes the session along [R]. *)
Definition moves {A} (R : relation listenSession) (m : sessions A) : Prop := ∀ s l, R s (m (s, l)).2.1.
Definition moves_at {A} (R : relation listenSession) (s : listenSession) (m : sessions A) : Prop := ∀ l, R s (m (s, l)).2.1.
Section Moves.
Context (R : relation listenSession) `{!PreOrder R}.
Lemma moves_bind {A B} (m : sessions A) (k : A → sessions B) : moves R m → (∀ a, moves R (k a)) → moves R (abind m k).
Proof.
  intros Hm Hk s l. unfold abind. specialize (Hm s l). destruct (m (s, l)) as [[a|e|] [s1 l1]]; simpl in *; [|done..].
  etrans; [done|]. apply Hk.
Qed.
Lemma moves_ret {A} (a : A) : moves R (aret a).
Proof. intros s l. reflexivity. Qed.
Lemma moves_fail {A} e : moves (A:=A) R (afail e).
Proof. intros s l. reflexivity. Qed.
Lemma moves_on_log {A} (m : logs A) : moves R (on_log m).
Proof. intros s l. by rewrite on_log_eq. Qed.
Lemma moves_of_session {A} (f : listenSession → A) : moves R (of_session f).
Proof. intros s l. reflexivity. Qed.

Lemma moves_at_moves {A} s (m : sessions A) : moves R m → moves_at R s m.
Proof. intros H l. apply H. Qed.
Lemma moves_at_read {A B} s (f : listenSession → A) (k : A → sessions B) :
  moves_at R s (k (f s)) → moves_at R s (abind (of_session f) k).
Proof. intros H l. apply H. Qed.
Lemma stx_moved {A} s l (body : sessions A) o s' l' : stx faults body (s, l) = (o, (s', l')) → moves_at R s body → R s s'.
Proof.
  unfold stx, stmt. destruct (faults _); [by intros [= _ <- _]|]. intros H Hb.
  specialize (Hb (with_counts l (S (cl_calls l)) (cl_draws l))).
  destruct (body _) as [[a|e|] [s2 l2]]; [|by injection H as _ <- _..].
  destruct (faults _); by injection H as _ <- _.
Qed.
End Moves.

Lemma moves_delivered resume : moves (rechained resume) (on_session (λ s, set_delivered (wrap_int64 (ls_delivered s + 1)) s)).
Proof. intros s l. exists (ls_chain s), (wrap_int64 (ls_delivered s + 1)). split; [by destruct s|by left]. Qed.

Lemma chainFor_moves now resume : moves (rechained resume) (chainFor rand sub now resume).
Proof.
  unfold chainFor. intros s l. destruct (_ <=? 0); [reflexivity|]. unfold abind at 1. cbn [of_session].
  destruct (_ <? _); [reflexivity|]. unfold abind, of_session. rewrite on_log_eq.
  destruct (newCursorChain rand now (chain_origin resume s) l) as [o l'] eqn:Hn. cbn [fst snd].
  destruct o as [c| |]; [|reflexivity..]. cbn.
  exists c, (ls_delivered s). split; [by destruct s|]. right.
  by apply newCursorChain_Done in Hn as (_ & -> & _).
Qed.

(** The actions of the code are made of these. *)
Ltac chain_moves :=
  repeat first [ apply (moves_bind _); [|intros ?] | apply (moves_on_log _) | apply (moves_ret _) | apply (moves_fail _) | apply chainFor_moves
               | apply (moves_of_session _) | apply moves_delivered | case_match ].

Lemma stx_Done {A} (body : sessions A) s l a s' l' :
  stx faults body (s, l) = (Done a, (s', l')) →
  ∃ l1 l2, same_tables l l1 ∧ body (s, l1) = (Done a, (s', l2)) ∧ same_tables l2 l'.
Proof.
  unfold stx, stmt. destruct (faults (cl_calls l)); [done|].
  destruct (body _) as [[a'|e|] [s2 l2]] eqn:Hb; [|done..].
  destruct (faults (cl_calls l2)); [done|]. intros [= -> -> <-].
  eexists _, l2. split_and!; [apply same_tables_counts|exact Hb|apply same_tables_counts].
Qed.
Lemma stx_not_Done {A} (body : sessions A) s l o s' l' :
  stx faults body (s, l) = (o, (s', l')) → (∀ a, o ≠ Done a) → same_tables l l'.
Proof.
  unfold stx, stmt. pose proof (same_tables_counts l (S (cl_calls l)) (cl_draws l)) as Hl.
  destruct (faults (cl_calls l)); [by intros [= _ _ <-]|].
  set (l1 := with_counts l _ _) in *.
  assert (∀ l2, same_tables l (rollback l1 l2)) as Hr by (intros l2; etrans; [exact Hl|apply same_tables_counts]).
  destruct (body (s, l1)) as [[a'|e|] [s2 l2]]; [|by intros [= _ _ <-]..].
  destruct (faults (cl_calls l2)); [by intros [= _ _ <-]|]. intros [= <- _ _] Ho. by destruct (Ho a').
Qed.
Lemma stx_shrinks {A} (body : sessions A) s l o s' l' :
  log_wf l → stx faults body (s, l) = (o, (s', l')) →
  (∀ a l1 l2, log_wf l1 → same_tables l l1 → body (s, l1) = (Done a, (s', l2)) → shrinks l1 l2) →
  shrinks l l'.
Proof.
  intros Hwf H Hb. destruct o as [a|e|].
  - apply stx_Done in H as (l1 & l2 & H1 & Hbody & H2). eapply shrinks_same; [done| |done].
    eapply Hb; [by eapply same_tables_wf|done|done].
  - apply same_tables_shrinks; [done|]. by eapply stx_not_Done.
  - apply same_tables_shrinks; [done|]. by eapply stx_not_Done.
Qed.

(** ** The pieces *)

Lemma verifyRetained_Done from to_ promised s l p :
  verifyRetained faults from to_ promised (s, l) = (Done (), p) →
  p.1 = s ∧ same_tables l p.2
  ∧ (from < to_ → promised ≠ 0 → Z.of_nat (length (rows_after from (Some to_) (ls_feed s) None l)) = promised).
Proof.
  unfold verifyRetained. destruct ((to_ <=? from) || (promised =? 0)) eqn:He.
  { intros [= <-]. split_and!; [done..|]. intros. lia. }
  intros (feed & p1 & Hf & H)%abind_Done. injection Hf as <- <-.
  apply abind_Done in H as (kept & [s2 l2] & [Hk Hs]%on_log_Done & H). cbn in Hk, Hs. subst s2.
  apply select_Done in Hk as (-> & H2 & _); [|intros u (Hc & _)%same_tables_inv; by rewrite Hc].
  destruct (Z.eqb_spec (Z.of_nat (length (List.filter (λ x, within from (Some to_) x.1 && in_feed (ls_feed s) x.2)
    (map_to_list (cl_changes l))))) promised) as [Heq|]; [|done].
  injection H as <-. split_and!; [done..|]. intros _ _. rewrite <-Heq. unfold rows_after.
  rewrite merge_sort_Permutation. do 2 f_equal. apply filter_ext. intros x. cbn. by rewrite andb_true_r.
Qed.

Lemma scanPage_Done from to_ feed l scanned l' :
  scanPage faults from to_ feed l = (Done scanned, l') →
  scanned = map logged (take page_limit (rows_after from to_ feed None l)) ∧ same_tables l l'.
Proof.
  unfold scanPage. intros (rows & l1 & Hr & H)%abind_Done. unfold changePage in Hr.
  apply select_Done in Hr as (-> & H1 & _); [|intros u (Hc & _)%same_tables_inv; by erewrite rows_after_same].
  unfold of_outcome in H. injection H as H <-. apply scanChangePage_Done in H as ->. done.
Qed.

Lemma chainFor_Done now resume s l c s' l' :
  chainFor rand sub now resume (s, l) = (Done c, (s', l')) → same_tables l l' ∧ s' = set_chain c s.
Proof.
  unfold chainFor. destruct (_ <=? 0); [intros [= <- <- <-]; by destruct s|].
  intros (ch & p1 & Hc & H)%abind_Done. injection Hc as <- <-.
  destruct (_ <? _); [injection H as <- <- <-; by destruct s|].
  apply abind_Done in H as (og & p2 & Ho & H). injection Ho as <- <-.
  apply abind_Done in H as (ch' & [s2 l2] & [Hn Hs]%on_log_Done & H). cbn in Hn, Hs. subst s2.
  apply newCursorChain_Done in Hn as (Hl & _). injection H as <- <- <-. done.
Qed.

Lemma lifetime_ended_Done feed l b l' : lifetime_ended faults feed l = (Done b, l') → same_tables l l'.
Proof.
  unfold lifetime_ended. destruct feed as [f|]; [|by intros [= _ <-]].
  destruct (changeFeedOf faults (cf_table f) l) as [[c|e|] l1] eqn:Hc; [| |done].
  - intros [= _ <-]. by apply changeFeedOf_Done in Hc as [_ ?].
  - destruct (is_not_found e); [|done]. intros [= _ <-]. eapply (quiet_bind (loadSchema faults (cf_table f))); [..|exact Hc].
    + unfold loadSchema. apply quiet_bind; [apply quiet_select|]. intros [[|]|]; [apply quiet_ret|apply quiet_fail..].
    + intros sc. apply quiet_bind; [apply (quiet_read faults)|]. intros g. apply quiet_bind; [apply (quiet_read faults "")|].
      intros n. apply quiet_ret.
Qed.

(** ** The transactions *)

Lemma rows_after_tables from to_ feed scope l l' :
  same_tables l l' → rows_after from to_ feed scope l' = rows_after from to_ feed scope l.
Proof. intros (Hc & _)%same_tables_inv. by apply rows_after_same. Qed.

Lemma sound_same l l' c p : same_tables l l' → sound_at l c p → sound_at l' c p.
Proof. intros (Hc & Hq & _)%same_tables_inv. by apply sound_eq. Qed.

(** The chain a cursor of this transaction gets is sound at [resume]. *)
Definition may_mint (resume : Z) (s : listenSession) (l : changelog) : Prop :=
  ∀ c, c = ls_chain s ∨ ch_Origin c = chain_origin resume s → sound_at l c resume.

Lemma may_mint_same resume s l l' : same_tables l l' → may_mint resume s l → may_mint resume s l'.
Proof. intros Hl Hm c Hc. eapply sound_same; [done|]. by apply Hm. Qed.
Lemma chainFor_sound now resume s l c s' l' :
  may_mint resume s l → chainFor rand sub now resume (s, l) = (Done c, (s', l')) → sound_at l c resume.
Proof.
  intros Hm H. pose proof (chainFor_moves now resume s l) as (c' & d & Hs & Hc). rewrite H in Hs. cbn in Hs.
  apply chainFor_Done in H as [_ ->]. apply Hm.
  assert (c = c') as -> by (destruct s; by injection Hs). done.
Qed.

Lemma readBatch_moves prune now s l o s' l' :
  readBatch faults rand sub prune now (s, l) = (o, (s', l')) → rechained (ls_liveRead s) s s'.
Proof. intros H. refine (stx_moved _ _ _ _ _ _ _ H _). apply moves_at_read, moves_at_read, moves_at_moves. chain_moves. Qed.
Lemma protect_tx_moves now floor s l o s' l' : protect_tx faults rand sub now floor (s, l) = (o, (s', l')) → s' = s.
Proof. intros H. symmetry. refine (stx_moved (=) _ _ _ _ _ _ H _). apply moves_at_moves. chain_moves. Qed.
Lemma scan_replay_moves s l o s' l' : scan_replay faults (s, l) = (o, (s', l')) → s' = s.
Proof.
  intros H. symmetry. refine (stx_moved (=) _ _ _ _ _ _ H _).
  apply moves_at_read, moves_at_read, moves_at_read, moves_at_moves. unfold verifyRetained. chain_moves.
Qed.
Lemma mintOne_moves now seq s l o s' l' : mintOne faults rand sub now seq (s, l) = (o, (s', l')) → rechained seq s s'.
Proof. intros H. refine (stx_moved _ _ _ _ _ _ _ H _). apply moves_at_moves. chain_moves. Qed.
Lemma mint_page_moves now admitted resume last_ count s l o s' l' :
  mint_page faults rand sub now admitted resume last_ count (s, l) = (o, (s', l')) → rechained resume s s'.
Proof. intros H. refine (stx_moved _ _ _ _ _ _ _ H _). apply moves_at_moves. unfold verifyRetained. chain_moves. Qed.

Lemma readBatch_scanned prune now s l scanned ended s' l' :
  readBatch faults rand sub prune now (s, l) = (Done (scanned, ended), (s', l')) →
  scanned = map logged (take page_limit (rows_after (ls_liveRead s) None (ls_feed s) None l)).
Proof.
  intros (l1 & l2 & H1 & Hb & _)%stx_Done.
  unfold abind at 1 2 in Hb. cbn [of_session] in Hb.
  apply abind_Done in Hb as (sc & [s2 l3] & [Hsc Hs]%on_log_Done & Hb). cbn in Hsc, Hs. subst s2.
  apply scanPage_Done in Hsc as [-> _].
  apply abind_Done in Hb as (en & p4 & _ & Hb). apply abind_Done in Hb as ([] & p5 & _ & [= <- _ _]).
  by rewrite (rows_after_tables _ _ _ _ _ _ H1).
Qed.
Lemma readBatch_result prune now s l o s' l' :
  log_wf l → may_mint (ls_liveRead s) s l →
  readBatch faults rand sub prune now (s, l) = (o, (s', l')) →
  shrinks l l' ∧ rechained (ls_liveRead s) s s'
  ∧ ∀ scanned ended, o = Done (scanned, ended) →
      scanned = map logged (take page_limit (rows_after (ls_liveRead s) None (ls_feed s) None l)).
Proof.
  intros Hwf Hm H. split_and!.
  - eapply stx_shrinks; [done|exact H|]. intros [scanned ended] l1 l2 Hwf1 H1 Hb.
    apply (may_mint_same _ _ _ _ H1) in Hm. unfold abind at 1 2 in Hb. cbn [of_session] in Hb.
    apply abind_Done in Hb as (sc & [s2 l3] & [Hsc Hs]%on_log_Done & Hb). cbn in Hsc, Hs. subst s2.
    apply scanPage_Done in Hsc as [_ H3].
    apply abind_Done in Hb as (en & [s2 l4] & [He Hs]%on_log_Done & Hb). cbn in He, Hs. subst s2.
    apply lifetime_ended_Done in He. assert (same_tables l1 l4) as H4 by (by etrans).
    apply abind_Done in Hb as ([] & [s5 l5] & Hp & [= _ _ _ <-]).
    destruct prune; [|injection Hp as _ <-; by apply same_tables_shrinks].
    apply abind_Done in Hp as ([] & [s6 l6] & Hmint & [Hpr _]%on_log_Done). apply pruneChanges_Done in Hpr.
    eapply grows_pruned_shrinks; [done| |exact Hpr].
    destruct (bool_decide (sc = [])); [injection Hmint as _ <-; by apply same_tables_grows|].
    apply abind_Done in Hmint as (c & [s7 l7] & Hc & Hmint).
    eapply chainFor_sound in Hc as Hsd; [|eapply may_mint_same; done]. apply chainFor_Done in Hc as [H7 ->].
    apply abind_Done in Hmint as (tok & [s8 l8] & [Ht _]%on_log_Done & [= _ <-]). cbn in Ht.
    apply mint_stands in Ht as (Hg & _); [|by eapply sound_same].
    eapply log_grows_trans; [apply same_tables_grows; by etrans|done].
  - by eapply readBatch_moves.
  - intros scanned ended ->. by apply readBatch_scanned in H.
Qed.

Lemma protect_tx_result now floor s l o s' l' :
  log_wf l → floor ≤ cl_seq l → protect_tx faults rand sub now floor (s, l) = (o, (s', l')) → shrinks l l' ∧ s' = s.
Proof.
  intros Hwf Hfl H. split.
  - eapply stx_shrinks; [done|exact H|]. intros c l1 l2 Hwf1 H1 Hb.
    apply abind_Done in Hb as (ch & [s2 l3] & [Hn Hs]%on_log_Done & Hb). cbn in Hn, Hs. subst s2.
    apply newCursorChain_Done in Hn as (H3 & Ho & _).
    apply abind_Done in Hb as (tok & [s4 l4] & [Ht Hs]%on_log_Done & Hb). cbn in Ht, Hs. subst s4.
    apply abind_Done in Hb as ([] & [s5 l5] & [Hp Hs]%on_log_Done & [= _ _ <-]). cbn in Hp, Hs. subst s5.
    apply mint_stands in Ht as (Hg & _).
    2:{ apply sound_le. destruct (same_tables_inv _ _ H3) as (_ & <- & _), (same_tables_inv _ _ H1) as (_ & <- & _). lia. }
    apply pruneChanges_Done in Hp. eapply grows_pruned_shrinks; [done| |exact Hp].
    eapply log_grows_trans; [by apply same_tables_grows|done].
  - by eapply protect_tx_moves.
Qed.

Lemma scan_replay_result s l o s' l' :
  scan_replay faults (s, l) = (o, (s', l')) →
  s' = s ∧ same_tables l l'
  ∧ ∀ scanned, o = Done scanned →
      let rows := rows_after (ls_position s) (Some (ls_boundary s)) (ls_feed s) None l in
      scanned = map logged (take page_limit rows)
      ∧ (ls_position s < ls_boundary s → ls_outstanding s ≠ 0 → Z.of_nat (length rows) = ls_outstanding s).
Proof.
  intros H.
  assert (∀ l1 a s2 l2, (do! _ := verifyRetained faults (ls_position s) (ls_boundary s) (ls_outstanding s) in
      do! feed := of_session ls_feed in
      on_log (scanPage faults (ls_position s) (Some (ls_boundary s)) feed)) (s, l1) = (Done a, (s2, l2)) →
    let rows := rows_after (ls_position s) (Some (ls_boundary s)) (ls_feed s) None l1 in
    s2 = s ∧ same_tables l1 l2 ∧ a = map logged (take page_limit rows)
    ∧ (ls_position s < ls_boundary s → ls_outstanding s ≠ 0 → Z.of_nat (length rows) = ls_outstanding s)) as Hbody.
  { intros l1 a s2 l2 ([] & [s3 l3] & (Hs & H3 & Hv)%verifyRetained_Done & Hb)%abind_Done. cbn in Hs, H3. subst s3.
    unfold abind at 1 in Hb. cbn [of_session] in Hb. apply on_log_Done in Hb as [Hb Hs]. cbn in Hb, Hs. subst s2.
    apply scanPage_Done in Hb as [-> H4]. rewrite (rows_after_tables _ _ _ _ _ _ H3). split_and!; [done|by etrans|done|exact Hv]. }
  split_and!.
  - by eapply scan_replay_moves.
  - destruct o as [a|e|]; [|by eapply stx_not_Done..].
    apply stx_Done in H as (l1 & l2 & H1 & Hb & H2). unfold abind at 1 2 3 in Hb. cbn [of_session] in Hb.
    apply Hbody in Hb as (_ & H3 & _). etrans; [exact H1|]. by etrans.
  - intros scanned ->. apply stx_Done in H as (l1 & l2 & H1 & Hb & H2). unfold abind at 1 2 3 in Hb. cbn [of_session] in Hb.
    apply Hbody in Hb as (_ & _ & Hb). by rewrite (rows_after_tables _ _ _ _ _ _ H1) in Hb.
Qed.

Lemma mintOne_result now seq s l o s' l' :
  log_wf l → may_mint seq s l → mintOne faults rand sub now seq (s, l) = (o, (s', l')) →
  shrinks l l' ∧ rechained seq s s' ∧ ∀ tok, o = Done tok → is_Some (cl_changes l !! seq) ∧ minted rand tok.
Proof.
  intros Hwf Hm H.
  assert (∀ l1 a s2 l2, same_tables l l1 → (do! exists_ := on_log (select faults (λ l, bool_decide (is_Some (cl_changes l !! seq)))) in
      if negb exists_ then afail ErrCursorExpired
      else
        do! chain := chainFor rand sub now seq in
        do! tok := on_log (mintCursorToken faults rand now seq (sb_table sub) (Some chain)) in
        do! _ := on_session (λ s, set_delivered (wrap_int64 (ls_delivered s + 1)) s) in
        do! delivered := of_session ls_delivered in
        do! _ := (if Z.rem delivered listenPruneInterval =? 0 then on_log (pruneChanges faults now (sb_retention sub)) else aret ()) in
        aret tok) (s, l1) = (Done a, (s2, l2)) →
      ∃ l3, grows l1 l3 ∧ (same_tables l3 l2 ∨ pruned now (sb_retention sub) l3 l2) ∧ is_Some (cl_changes l1 !! seq) ∧ minted rand a) as Hbody.
  { intros l1 a s2 l2 H1 (ex & [s3 l3] & [He Hs]%on_log_Done & Hb)%abind_Done. cbn in He, Hs. subst s3.
    apply select_Done in He as (-> & H3 & _); [|by intros u (-> & _)%same_tables_inv].
    destruct (bool_decide_reflect (is_Some (cl_changes l1 !! seq))) as [Hex|]; [|done]. cbn [negb] in Hb.
    apply abind_Done in Hb as (c & [s4 l4] & Hc & Hb).
    assert (same_tables l l3) as H13 by (by etrans).
    eapply chainFor_sound in Hc as Hsd; [|eapply may_mint_same; done]. apply chainFor_Done in Hc as [H4 ->].
    apply abind_Done in Hb as (tok & [s5 l5] & [Ht Hs]%on_log_Done & Hb). cbn in Ht, Hs. subst s5.
    apply mint_stands in Ht as (Hg & _ & Hmt); [|by eapply sound_same].
    unfold abind at 1 2 in Hb. cbn [on_session of_session] in Hb. apply abind_Done in Hb as ([] & [s6 l6] & Hp & [= <- <- <-]).
    exists l5. split_and!; [|destruct (_ =? 0)|done|done].
    - eapply log_grows_trans; [apply same_tables_grows; by etrans|done].
    - apply on_log_Done in Hp as [Hp _]. right. by apply pruneChanges_Done in Hp.
    - left. by injection Hp as _ <-. }
  split_and!.
  - eapply stx_shrinks; [done|exact H|]. intros a l1 l2 Hwf1 H1 Hb. apply Hbody in Hb as (l3 & Hg & Hp & _); [|done].
    destruct Hp as [Hp|Hp]; [|by eapply grows_pruned_shrinks].
    apply grows_shrinks; [done|]. eapply log_grows_trans; [done|by apply same_tables_grows].
  - by eapply mintOne_moves.
  - intros tok ->. apply stx_Done in H as (l1 & l2 & H1 & Hb & H2). apply Hbody in Hb as (_ & _ & _ & Hex & Hmt); [|done].
    destruct (same_tables_inv _ _ H1) as (Hc & _). by rewrite Hc.
Qed.

(** A page of the replay, minted: the records are those admitted, each under a
    cursor of its own. *)
Definition record_of (lc : loggedChange) (r : ChangeRecord) : Prop :=
  r = set_cursor (lc_rec lc) (cr_Cursor r) ∧ minted rand (cr_Cursor r).
Lemma mint_each_records now feed chain admitted l records l' :
  mint_each faults rand now feed (Some chain) admitted l = (Done records, l') → Forall2 record_of admitted records.
Proof.
  revert l records l'. induction admitted as [|lc admitted IH]; intros l records l'; [intros [= <- _]; constructor|].
  intros (tok & l1 & (Hm & _)%mintCursorToken_Done & H)%abind_Done.
  apply abind_Done in H as (rest & l2 & Hr%IH & [= <- _]). by constructor.
Qed.
Lemma mint_page_records now admitted resume last_ count s l records next p :
  mint_page faults rand sub now admitted resume last_ count (s, l) = (Done (records, next), p) →
  minted rand next ∧ Forall2 record_of admitted records.
Proof.
  destruct p as [s' l']. intros (l1 & l2 & _ & ([] & p1 & _ & H)%abind_Done & _)%stx_Done.
  apply abind_Done in H as (c & p2 & _ & H). apply abind_Done in H as ([rs nx] & p3 & Hm & H).
  apply abind_Done in H as ([] & p4 & _ & [= -> -> _]). destruct p2 as [s2 l3]. apply on_log_Done in Hm as [Hm _].
  apply abind_Done in Hm as (rs & l4 & Hr%mint_each_records & Hm). rewrite andb_false_r in Hm.
  apply abind_Done in Hm as (tok & l5 & (Ht & _)%mintCursorToken_Done & [= <- <- _]). done.
Qed.

Lemma mint_page_result now rows resume last_ count s l o s' l' :
  log_wf l → may_mint resume s l → (∀ x, x ∈ rows → resume ≤ x.1 ≤ cl_seq l) →
  mint_page faults rand sub now (map logged rows) resume last_ count (s, l) = (o, (s', l')) →
  shrinks l l'.
Proof.
  intros Hwf Hm Hrows H. eapply stx_shrinks; [done|exact H|].
  intros [records next] l1 l2 Hwf1 H1 ([] & [s3 l3] & Hv & Hb)%abind_Done.
  assert (s3 = s ∧ same_tables l1 l3) as [-> H3].
  { destruct (0 <? count)%nat; [|by injection Hv as <- <-].
    apply verifyRetained_Done in Hv as (Hs & Hl & _). cbn in Hs. subst s3. exact (conj eq_refl Hl). }
  assert (same_tables l l3) as H13 by (by etrans).
  apply abind_Done in Hb as (c & [s4 l4] & Hc & Hb).
  eapply chainFor_sound in Hc as Hsd; [|by eapply may_mint_same]. apply chainFor_Done in Hc as [H4 ->].
  assert (same_tables l l4) as H14 by (by etrans).
  apply abind_Done in Hb as ([rs nx] & [s5 l5] & [Ht Hs]%on_log_Done & Hb). cbn in Ht, Hs. subst s5.
  apply mintChangeCursors_Done in Ht as (Hg & _ & _); [|exact (sound_same _ _ _ _ H4 Hsd)|].
  - apply abind_Done in Hb as ([] & [s6 l6] & [Hp _]%on_log_Done & [= <- <- _ <-]). cbn in Hp. apply pruneChanges_Done in Hp.
    eapply grows_pruned_shrinks; [done| |done]. eapply log_grows_trans; [apply same_tables_grows; by etrans|done].
  - intros x Hx. destruct (same_tables_inv _ _ H14) as (_ & Hq & _). eapply sound_after; [exact (sound_same _ _ _ _ H4 Hsd)|].
    rewrite <-Hq. by apply Hrows.
Qed.

(** ** Opening *)

Definition opened (f : option changeFeed) (p : Z) (c : cursorChain) (b out : Z) (nc : string) (s : listenSession) : listenSession :=
  set_liveRead b (set_nextCursor nc (set_outstanding out (set_boundary b (set_chain c (set_position p (set_feed f s)))))).

Record opens (now : Z) (from : string) (l : changelog) (f : option changeFeed) (p : Z) (c : cursorChain) (b out : Z) : Prop := {
  op_feed : f = feed_of (sb_table sub) l;
  op_start : starts now (sb_retention sub) (sb_table sub) from l p c;
  op_boundary : b = head_of l;
  op_outstanding : out = Z.of_nat (length (rows_after p (Some b) f None l)) }.

Lemma open_start_Done now from s l p :
  open_start faults rand sub now from (s, l) = (Done (), p) →
  ∃ pos c nc, p.1 = set_nextCursor nc (set_chain c (set_position pos s)) ∧ grows l p.2
    ∧ starts now (sb_retention sub) (sb_table sub) from l pos c.
Proof.
  unfold open_start. intros ([pos c] & [s1 l1] & [Hs Hs1]%on_log_Done & H)%abind_Done. cbn in Hs, Hs1. subst s1.
  apply start_of_Done in Hs as [Hst Hg]. injection H as <-. eexists _, _, _. split_and!; [reflexivity|done|done].
Qed.

Lemma open_stale_Done a s l p : open_stale faults sub a (s, l) = (Done (), p) → p.1 = s ∧ same_tables l p.2.
Proof.
  unfold open_stale. unfold abind at 1 2 3. cbn [of_session].
  destruct a as [|[sc|] inc|]; try by intros [= <-].
  destruct (_ && _); [|by intros [= <-]].
  intros (stale & [s1 l1] & [Hs Hs1]%on_log_Done & H)%abind_Done. cbn in Hs, Hs1. subst s1.
  apply select_Done in Hs as (_ & Hl & _); [|by intros u (-> & _)%same_tables_inv].
  destruct stale; [done|]. by injection H as <-.
Qed.

Lemma rows_after_nil from to_ feed scope l : to_ ≤ from → rows_after from (Some to_) feed scope l = [].
Proof.
  intros Hle. destruct (rows_after _ _ _ _ _) as [|x rows] eqn:Hr; [done|].
  assert (x ∈ rows_after from (Some to_) feed scope l) as (_ & Hw & _)%elem_of_rows_after by (rewrite Hr; by left).
  unfold within in Hw. lia.
Qed.

Lemma open_session_Done now from a s l s' l' :
  log_wf l → ls_feed s = None → ls_outstanding s = 0 → open_session faults rand sub now from a (s, l) = (Done (), (s', l')) →
  shrinks l l' ∧ ∃ f p c b out nc, s' = opened f p c b out nc s ∧ opens now from l f p c b out.
Proof.
  intros Hwf Hnf Hno H. apply stx_Done in H as (l0 & l9 & H0 & H & H9). pose proof (same_tables_wf _ _ H0 Hwf) as Hwf0.
  apply abind_Done in H as ([] & [s1 l1] & Hfeed & H).
  assert (∃ f, f = feed_of (sb_table sub) l0 ∧ s1 = set_feed f s ∧ same_tables l0 l1) as (f & Hf & -> & H1).
  { unfold feed_of. destruct (String.eqb (sb_table sub) "").
    - injection Hfeed as <- <-. exists None. split_and!; [done| |done]. by destruct s; cbn in Hnf; subst.
    - apply abind_Done in Hfeed as (f & [s2 l2] & [Hc Hs]%on_log_Done & Hset). cbn in Hc, Hs. subst s2.
      apply changeFeedOf_Done in Hc as [-> Hl]. injection Hset as <- <-. by eexists. }
  apply abind_Done in H as ([] & [s2 l2] & (p & c & nc & Hs2 & Hg2 & Hst)%open_start_Done & H). cbn in Hs2, Hg2. subst s2.
  apply abind_Done in H as (b & [s3 l3] & [Hb Hs3]%on_log_Done & H). cbn in Hb, Hs3. subst s3.
  apply changeHead_Done in Hb as [-> H3]. apply abind_Done in H as ([] & q & Hset & H). injection Hset as <-.
  apply abind_Done in H as ([] & [s4 l4] & [Hs4 H4]%open_stale_Done & H). cbn in Hs4, H4. subst s4.
  unfold abind at 1 2 in H. cbn [of_session] in H.
  assert (grows l0 l4) as Hg4.
  { eapply log_grows_trans; [by apply same_tables_grows|]. eapply log_grows_trans; [done|]. apply same_tables_grows. by etrans. }
  assert (same_tables l l1) as Hl1 by (by etrans).
  assert (head_of l2 = head_of l) as Hh.
  { transitivity (head_of l1); [|symmetry; by apply head_same]. unfold head_of, seqs_where. by rewrite (gr_changes _ _ Hg2). }
  assert (feed_of (sb_table sub) l0 = feed_of (sb_table sub) l) as Hfl.
  { unfold feed_of, nsgen_of. by destruct (same_tables_inv _ _ H0) as (_ & _ & _ & -> & _ & -> & _). }
  apply abind_Done in H as ([] & [s5 l5] & Hcount & H). cbn [set_boundary ls_position ls_feed set_feed set_position set_chain set_nextCursor] in Hcount.
  set (s3 := set_boundary (head_of l2) _) in *.
  assert (∃ out, s5 = set_outstanding out s3 ∧ same_tables l4 l5
      ∧ out = Z.of_nat (length (rows_after p (Some (head_of l2)) f None l4))) as (out & -> & H5 & Hout).
  { destruct (Z.ltb_spec p (head_of l2)) as [Hlt|Hge] in Hcount.
    - apply abind_Done in Hcount as (n & [s6 l6] & [Hn Hs]%on_log_Done & Hset). cbn in Hn, Hs. subst s6. injection Hset as <- <-.
      apply select_Done in Hn as (-> & Hl & _); [|intros u (Hc & _)%same_tables_inv; by rewrite Hc].
      eexists. split_and!; [reflexivity|done|]. unfold rows_after. rewrite merge_sort_Permutation.
      do 2 f_equal. apply filter_ext. intros x. cbn. by rewrite andb_true_r.
    - injection Hcount as <- <-. exists (ls_outstanding s3). split_and!; [by destruct s3|done|]. by rewrite rows_after_nil by done. }
  unfold abind at 1 2 in H. cbn [of_session] in H.
  apply abind_Done in H as ([] & [s7 l7] & Hmint & [= <- <-]).
  assert (shrinks l l7 ∧ ∃ nc', s7 = set_nextCursor nc' (set_outstanding out s3)) as [Hsh (nc' & ->)].
  { destruct (String.eqb _ _).
    - apply abind_Done in Hmint as (tok & [s8 l8] & [Ht Hs]%on_log_Done & Hset). cbn in Ht, Hs. subst s8. injection Hset as <- <-.
      apply mint_stands in Ht as (Hg & _).
      + split; [|by eexists]. eapply shrinks_same; [exact H0| |reflexivity]. apply grows_shrinks; [done|].
        eapply log_grows_trans; [exact Hg4|]. eapply log_grows_trans; [exact (same_tables_grows _ _ H5)|exact Hg].
      + eapply sound_same; [exact H5|]. apply (sound_grows _ _ _ _ Hg4). eapply sound_same; [exact H0|].
        eapply starts_ok; [done|]. eapply starts_same; [exact Hl1|exact Hst].
    - injection Hmint as <- <-. split; [|exists nc; by destruct s]. eapply shrinks_same; [exact H0| |exact H5].
      by apply grows_shrinks. }
  split; [eapply shrinks_same; [reflexivity|exact Hsh|done]|].
  exists f, p, c, (head_of l), out, nc'. split; [unfold s3; rewrite Hh; by destruct s|].
  split; [by rewrite Hf, Hfl|by eapply starts_same|done|].
  rewrite <-Hh, Hout. do 2 f_equal. apply rows_after_same.
  rewrite (gr_changes _ _ Hg4). by destruct (same_tables_inv _ _ H0) as (<- & _).
Qed.
End Tx.

(** * The control of a subscription

    What holds of the flags of a session and of the places its goroutines are
    at, in every execution: who may be in a callback, who fires the close, and
    what the death of the session stops. *)


Section Control.
Context (faults : nat → bool) (clock : nat → Z) (rand : nat → option (list Z)) (sub : subscription) (policy : answer → Prop).

(** ** The transition system *)

(** The answers of [liveAuthz] keep to [policy]. *)
Definition permits (o : seen) : Prop := ∀ i t, policy (sn_authz o i t).

(** One step of the session's goroutines and callers, or of the rest of the
    server: a commit wakes the session, the store ends it, another session
    prunes, and the log takes any step. *)
Inductive step : world → world → Prop :=
| step_listen o from w w' : permits o → listen_step faults rand sub o from w = Some w' → step w w'
| step_fill o w w' : permits o → fill_step faults rand sub o w = Some w' → step w w'
| step_drain o w w' : drain_step faults rand sub o w = Some w' → step w w'
| step_poll o w w' : poll_step faults rand sub o w = Some w' → step w w'
| step_next o w w' : permits o → next_step faults rand sub o w = Some w' → step w w'
| step_cancel w w' : cancel_step w = Some w' → step w w'
| step_unpin w w' : unpin_step w = Some w' → step w w'
| step_wake w : step w (with_session w (set_woken true (w_session w)))
| step_ended c w : step w (with_session w (snd (endParked c (w_session w))))
| step_due t w : step w (with_prune w t)
| step_log l w : log_step faults clock rand (w_log w) l → step w (with_log w l).

(** The steps that are the session's: those of its goroutines and of its
    callers, and what the rest of the server does to it.  A read, a mint or a
    prune of the session is part of one of these; [step_log] alone, which the
    relation leaves out, is another user of the log. *)
Inductive session_step : world → world → Prop :=
| own_listen o from w w' : permits o → listen_step faults rand sub o from w = Some w' → session_step w w'
| own_fill o w w' : permits o → fill_step faults rand sub o w = Some w' → session_step w w'
| own_drain o w w' : drain_step faults rand sub o w = Some w' → session_step w w'
| own_poll o w w' : poll_step faults rand sub o w = Some w' → session_step w w'
| own_next o w w' : permits o → next_step faults rand sub o w = Some w' → session_step w w'
| own_cancel w w' : cancel_step w = Some w' → session_step w w'
| own_unpin w w' : unpin_step w = Some w' → session_step w w'
| own_wake w : session_step w (with_session w (set_woken true (w_session w)))
| own_ended c w : session_step w (with_session w (snd (endParked c (w_session w))))
| own_due t w : session_step w (with_prune w t).

(** A step is the session's, or another user's of the log, who changes
    nothing of the session. *)
Lemma step_whose w w' :
  step w w' ↔ session_step w w' ∨ ∃ l, log_step faults clock rand (w_log w) l ∧ w' = with_log w l.
Proof.
  split; [intros []; eauto using session_step|]. intros [[]|(l & Hl & ->)]; eauto using step.
Qed.

(** ** Ending *)

(** What [endPark] does, as one form. *)
Definition parked (pc : option cause) (pcy : bool) (dc : option cause) (dcy : bool) (s : listenSession) : listenSession :=
  set_deathCauseYield dcy (set_deathCause dc (set_pendingCloseYield pcy (set_pendingClose pc (set_dead true s)))).

Lemma endPark_form c y s :
  ∃ pc pcy dc dcy, snd (endPark c y s) = parked pc pcy dc dcy s
    ∧ (is_some pc = is_some (ls_pendingClose s) || negb (ls_dead s) && is_some c)
    ∧ (is_some dc = is_some (ls_deathCause s) || negb (ls_dead s) && is_some c)
    ∧ (pc = ls_pendingClose s ∨ pc = c) ∧ (dc = ls_deathCause s ∨ dc = c).
Proof.
  unfold endPark, parked, park_pending, park_death.
  destruct s as [fd po bo ou ch qc wo qu lr pc pcy pd dc dcy pl fi de ds nc re dead rd ra na co].
  destruct dead, c as [c|], pc as [pc|], dc as [dc|], y, pcy, dcy; cbv;
    eexists _, _, _, _; (split; [reflexivity|]); auto.
Qed.

(** ** Taking a step apart *)

(** The session after a transaction is the session before it, but for its
    chain and its count of deliveries. *)
Lemma rechained_inv resume s s' :
  rechained resume s s' → ∃ c d, s' = set_delivered d (set_chain c s).
Proof. intros (c & d & -> & _). eauto. Qed.

Lemma protect_step_session o g s l g' s' l' :
  protect_step faults rand sub o g s l = (g', s', l') → ∃ q, s' = set_queueChain q s.
Proof.
  unfold protect_step. destruct g as [|floor|chain].
  - intros [= _ <- _]. exists (ls_queueChain s). by destruct s.
  - destruct (protect_tx _ _ _ _ _ _) as [o' [s1 l1]] eqn:H. apply protect_tx_moves in H as ->.
    destruct o'; intros [= _ <- _]; exists (ls_queueChain s); by destruct s.
  - intros [= _ <- _]. eauto.
Qed.

(** [end_] of a session whose goroutines run only parks. *)
Lemma end_launched c s : ls_pumpsLaunched s = true → end_ c s = (None, snd (endPark c false s)).
Proof.
  intros Hl. unfold end_, endParked. destruct (endPark_form c false s) as (pc & pcy & dc & dcy & Hf & _).
  destruct (endPark c false s) as [first s']. cbn in Hf |- *. subst s'. cbn. rewrite Hl. by destruct (_ || _).
Qed.
End Control.
