(* ===== verification/ListenFlags.v ===== *)
(** * The flags of a subscription

    The invariant on the flags of a session and the places of its goroutines:
    a close is fired once, by one goroutine, when no callback runs, and what
    a dead session still does. *)
From Stdlib Require Import ZArith Lia Ascii String.
From stdpp Require Import base gmap strings list sorting relations.
From S2P Require Import Prelude GoStrings AuthIdentity SchemaIdent Schema SchemaConstraints Authz GoNumbers Changelog.
From S2P Require Import ChangelogFacts ChangelogTheorems Listen ListenTx.
Local Open Scope Z_scope.

Definition b2n (b : bool) : nat := if b then 1 else 0.

(** A goroutine that has taken the cause and has not finished firing it; one
    that is in [closedFn]. *)
Definition firing_at (p : flush_pc) : bool := match p with LFire _ | LFiring => true | _ => false end.
Definition calling_at (p : flush_pc) : bool := match p with LFiring => true | _ => false end.
Definition fill_fires (p : fill_pc) : bool := match p with FFlush p => firing_at p | _ => false end.
Definition drain_fires (p : drain_pc) : bool := match p with DFlush p => firing_at p | _ => false end.
Definition fill_calls (p : fill_pc) : bool := match p with FFlush p => calling_at p | _ => false end.
Definition drain_calls (p : drain_pc) : bool := match p with DFlush p => calling_at p | _ => false end.
Definition once_running (o : once) : bool := match o with Running => true | _ => false end.
Definition once_fired (o : once) : bool := match o with Fired => true | _ => false end.

(** Where [replayActive] and [notifyActive] are set. *)
Definition next_active (p : next_pc) : bool := match p with NOff | NIdle | NFinish _ _ => false | _ => true end.
Definition drain_active (p : drain_pc) : bool :=
  match p with DMint _ | DNotify _ _ | DNotifying | DClear _ => true | _ => false end.
(** The drain has seen the end of the session. *)
Definition drain_over (p : drain_pc) : bool := match p with DFlush _ | DDone => true | _ => false end.
Definition drain_took (p : drain_pc) : bool := match p with DFlush p => firing_at p | DDone => true | _ => false end.

Definition off (w : world) : Prop :=
  w_fill w = FOff ∧ w_drain w = DOff ∧ w_poll w = POff ∧ w_next w = NOff ∧ w_cancel w = COff ∧ w_unpin w = UOff ∧ w_trace w = [].
Definition on (w : world) : Prop :=
  w_fill w ≠ FOff ∧ w_drain w ≠ DOff ∧ w_poll w ≠ POff ∧ w_next w ≠ NOff ∧ w_cancel w ≠ COff ∧ w_unpin w ≠ UOff.

Record flags (w : world) : Prop := {
  fl_off : ls_pumpsLaunched (w_session w) = false → off w;
  fl_on : ls_pumpsLaunched (w_session w) = true → on w;
  fl_dead : is_some (ls_deathCause (w_session w)) = true → ls_dead (w_session w) = true;
  fl_token : (b2n (is_some (ls_pendingClose (w_session w))) + b2n (fill_fires (w_fill w)) + b2n (drain_fires (w_drain w))
              + b2n (once_fired (ls_closedOnce (w_session w))) = b2n (is_some (ls_deathCause (w_session w))))%nat;
  fl_running : (b2n (fill_calls (w_fill w)) + b2n (drain_calls (w_drain w)) = b2n (once_running (ls_closedOnce (w_session w))))%nat;
  fl_replaying : ls_replayActive (w_session w) = next_active (w_next w);
  fl_notifying : ls_notifyActive (w_session w) = drain_active (w_drain w);
  fl_barrier : w_fill w = FFlush LBarrier → ls_dead (w_session w) = true ∧ ls_notifyActive (w_session w) = false;
  fl_quiet : is_some (ls_deathCause (w_session w)) = true → ls_pendingClose (w_session w) = None →
    ls_notifyActive (w_session w) = false;
  fl_over : drain_over (w_drain w) = true → ls_dead (w_session w) = true;
  fl_took : drain_took (w_drain w) = true → ls_pendingClose (w_session w) = None;
  fl_polled : w_poll w = PDone → ls_dead (w_session w) = true;
  fl_firing : ls_firing (w_session w) = once_running (ls_closedOnce (w_session w)) }.

Section Flags.
Context (faults : nat → bool) (clock : nat → Z) (rand : nat → option (list Z)) (sub : subscription) (policy : answer → Prop).

(** Rewrites the session after a transaction or an ending in terms of the
    session before it. *)
Ltac session_after :=
  repeat match goal with
  | H : protect_step _ _ _ _ _ _ _ = (_, _, _) |- _ => apply protect_step_session in H as [? ->]
  | H : readBatch _ _ _ _ _ _ = _ |- _ => apply readBatch_moves, rechained_inv in H as (? & ? & ->)
  | H : mintOne _ _ _ _ _ _ = _ |- _ => apply mintOne_moves, rechained_inv in H as (? & ? & ->)
  | H : mint_page _ _ _ _ _ _ _ _ = _ |- _ => apply mint_page_moves, rechained_inv in H as (? & ? & ->)
  | H : scan_replay _ _ = _ |- _ => apply scan_replay_moves in H as ->
  end.

Lemma endPark_dead c y s : ls_dead (snd (endPark c y s)) = true.
Proof. by destruct (endPark_form c y s) as (pc & pcy & dc & dcy & -> & _). Qed.

Lemma flags_parked w c y : flags w → flags (with_session w (snd (endPark c y (w_session w)))).
Proof.
  intros [F1 F2 F3 F4 F5 F6 F7 F8 F9 F10 F11 F12 F13].
  destruct (endPark_form c y (w_session w)) as (pc & pcy & dc & dcy & -> & Hp & Hd & _).
  destruct (ls_dead (w_session w)) eqn:Hdead; cbn [negb andb] in Hp, Hd; rewrite ?orb_false_r in *.
  - split; cbn; auto.
    + rewrite Hp, Hd. done.
    + rewrite Hd. intros H1 H2. apply F9; [done|]. subst pc. by destruct (ls_pendingClose _).
    + intros H1%F11. rewrite H1 in Hp. by destruct pc.
  - assert (is_some (ls_deathCause (w_session w)) = false) as Hno.
    { destruct (is_some _); [|done]. specialize (F3 eq_refl). congruence. }
    rewrite Hno in *. cbn [b2n] in F4. assert (is_some (ls_pendingClose (w_session w)) = false) as Hnp.
    { destruct (is_some (ls_pendingClose _)); [|done]. cbn in F4. lia. }
    rewrite Hnp in *. cbn [orb] in *.
    split; cbn; auto.
    + rewrite Hp, Hd. destruct (is_some c); cbn in *; lia.
    + intros H1. by destruct (F8 H1).
    + rewrite Hd, <-Hp. by intros H1 ->.
    + intros H1. assert (drain_over (w_drain w) = true) as H2 by (destruct (w_drain w); done). apply F10 in H2. congruence.
Qed.

(** ** Steps that leave the flags alone *)

(** The flags of a session. *)
Definition flags_of (s : listenSession) :=
  (ls_pumpsLaunched s, ls_pendingClose s, ls_deathCause s, ls_dead s, ls_closedOnce s, ls_firing s, ls_replayActive s, ls_notifyActive s).

Definition fill_plain (p : fill_pc) : bool := match p with FOff | FFlush LBarrier | FFlush (LFire _) | FFlush LFiring => false | _ => true end.
Definition drain_plain (p : drain_pc) : bool :=
  match p with DWait | DEnding _ | DEndYield _ => true | _ => false end.

Lemma fill_return_plain b : fill_plain (fill_return b) = true.
Proof. destruct b; unfold fill_return; by repeat case_match. Qed.
Lemma fill_leave_plain first b : fill_plain (fill_leave first b) = true.
Proof. destruct first; [done|apply fill_return_plain]. Qed.

Lemma flags_session w s : flags w → flags_of s = flags_of (w_session w) → flags (with_session w s).
Proof.
  intros [F1 F2 F3 F4 F5 F6 F7 F8 F9 F10 F11 F12 F13] [= Hl Hp Hd Hde Hc Hf Hr Hn].
  split; cbn; rewrite ?Hl, ?Hp, ?Hd, ?Hde, ?Hc, ?Hf, ?Hr, ?Hn; done.
Qed.

Lemma flags_prune w t : flags w → flags (with_prune w t).
Proof. by intros []. Qed.
Lemma flags_log w l : flags w → flags (with_log w l).
Proof. by intros []. Qed.

Lemma flags_fill_to w p s l evs :
  flags w → fill_plain (w_fill w) = true → fill_plain p = true → flags_of s = flags_of (w_session w) →
  flags (fill_to w p s l evs).
Proof.
  intros HF Hw Hp Hs. pose proof (flags_session _ _ HF Hs) as [F1 F2 F3 F4 F5 F6 F7 F8 F9 F10 F11 F12 F13].
  cbn in *.
  assert (ls_pumpsLaunched s = true) as Hl.
  { destruct (ls_pumpsLaunched s); [done|]. destruct (F1 eq_refl) as [Hoff _]. cbn in Hoff. by rewrite Hoff in Hw. }
  split; cbn; try done.
  - by rewrite Hl.
  - intros _. destruct (F2 Hl) as (_ & H). split; [|exact H]. by destruct p.
  - rewrite <-F4. destruct p as [| | | | | | | | | |[]|], (w_fill w) as [| | | | | | | | | |[]|]; try done.
  - rewrite <-F5. destruct p as [| | | | | | | | | |[]|], (w_fill w) as [| | | | | | | | | |[]|]; try done.
  - by intros ->.
Qed.

Lemma flags_drain_to w p s l evs :
  flags w → w_drain w ≠ DOff → drain_over (w_drain w) = false → drain_over p = false → p ≠ DOff →
  flags_of s = flags_of (set_notifyActive (drain_active p) (w_session w)) →
  (ls_notifyActive (w_session w) = false → drain_active p = true → ls_dead (w_session w) = false) →
  (drain_active p = true → w_fill w ≠ FFlush LBarrier) →
  flags (drain_to w p s l evs).
Proof.
  intros [F1 F2 F3 F4 F5 F6 F7 F8 F9 F10 F11 F12 F13] Hw Ho Hp Hoff [= Hl Hpc Hd Hde Hc Hf Hr Hn] Hact Hbar.
  assert (ls_pumpsLaunched (w_session w) = true) as Hlaunch.
  { destruct (ls_pumpsLaunched _); [done|]. destruct (F1 eq_refl) as (_ & ? & _). done. }
  assert (∀ q, drain_over q = false → drain_fires q = false ∧ drain_calls q = false ∧ drain_took q = false) as Hov.
  { intros q Hq. by destruct q. }
  destruct (Hov _ Hp) as (H1 & H2 & H3), (Hov _ Ho) as (H4 & H5 & H6).
  split; cbn; rewrite ?Hl, ?Hpc, ?Hd, ?Hde, ?Hc, ?Hf, ?Hr, ?Hn, ?H1, ?H2, ?H3, ?Hp; try done.
  - by rewrite Hlaunch.
  - intros _. destruct (F2 Hlaunch) as (? & _ & ?). done.
  - by rewrite H4 in F4.
  - by rewrite H5 in F5.
  - intros Hb. destruct (drain_active p) eqn:Ha; [by destruct (Hbar eq_refl Hb)|]. split; [|done]. by apply F8.
  - intros Hdc Hpn. destruct (drain_active p) eqn:Ha; [|done]. specialize (F9 Hdc Hpn). specialize (F3 Hdc).
    specialize (Hact F9 eq_refl). congruence.
Qed.

Lemma flags_next_to w p s l evs :
  flags w → w_next w ≠ NOff → p ≠ NOff → flags_of s = flags_of (set_replayActive (next_active p) (w_session w)) →
  flags (next_to w p s l evs).
Proof.
  intros [F1 F2 F3 F4 F5 F6 F7 F8 F9 F10 F11 F12 F13] Hw Hp [= Hl Hpc Hd Hde Hc Hf Hr Hn].
  assert (ls_pumpsLaunched (w_session w) = true) as Hlaunch.
  { destruct (ls_pumpsLaunched _); [done|]. destruct (F1 eq_refl) as (_ & _ & _ & ? & _). done. }
  split; cbn; rewrite ?Hl, ?Hpc, ?Hd, ?Hde, ?Hc, ?Hf, ?Hr, ?Hn; try done.
  - by rewrite Hlaunch.
  - intros _. destruct (F2 Hlaunch) as (? & ? & ? & _ & ?). done.
Qed.

Lemma flags_poll_to w p s l evs :
  flags w → w_poll w ≠ POff → p ≠ POff → flags_of s = flags_of (w_session w) → (p = PDone → ls_dead s = true) →
  flags (poll_to w p s l evs).
Proof.
  intros HF Hw Hp Hs Hd. pose proof (flags_session _ _ HF Hs) as [F1 F2 F3 F4 F5 F6 F7 F8 F9 F10 F11 F12 F13]. cbn in *.
  assert (ls_pumpsLaunched s = true) as Hlaunch.
  { destruct (ls_pumpsLaunched _); [done|]. destruct (F1 eq_refl) as (_ & _ & ? & _). done. }
  split; cbn; try done.
  - by rewrite Hlaunch.
  - intros _. destruct (F2 Hlaunch) as (? & ? & _ & ?). done.
Qed.

(** ** Firing the close *)

(** What a step of [flushParkedClose] changes of the flags. *)
Inductive flushes (p : flush_pc) (s : listenSession) : option flush_pc → listenSession → list event → Prop :=
| flush_barrier c : p = LWait → ls_pendingClose s = Some c → ls_replayActive s = false → ls_notifyActive s = false →
    flushes p s (Some LBarrier) s []
| flush_takes c : p = LWait ∧ ls_replayActive s = false ∧ ls_notifyActive s = false ∨ p = LBarrier →
    ls_pendingClose s = Some c → flushes p s (Some (LFire c)) (set_pendingClose None s) []
| flush_nothing : p = LWait ∨ p = LBarrier → ls_pendingClose s = None → flushes p s None (set_pendingClose None s) []
| flush_skips c : p = LFire c → ls_closedOnce s = Fired → flushes p s None s []
| flush_silent c : p = LFire c → ls_closedOnce s = Unfired → sb_has_closed sub = false → flushes p s None (set_closedOnce Fired s) []
| flush_calls c : p = LFire c → ls_closedOnce s = Unfired → sb_has_closed sub = true →
    flushes p s (Some LFiring) (set_firing true (set_closedOnce Running s)) [EClosed c]
| flush_returns : p = LFiring → flushes p s None (set_closedOnce Fired (set_firing false s)) [].

Lemma flush_step_inv p s p' s' evs : flush_step sub p s = Some (p', s', evs) → flushes p s p' s' evs.
Proof.
  unfold flush_step, flush_take. destruct p.
  - destruct (ls_pendingClose s) as [c|] eqn:Hpc; cbn.
    + destruct (ls_replayActive s) eqn:Hr; [done|]. destruct (ls_notifyActive s) eqn:Hn; [done|]. cbn.
      destruct (ls_pendingCloseYield s); intros [= <- <- <-]; [eapply flush_barrier|apply flush_takes]; rewrite ?Hpc; auto.
    + intros [= <- <- <-]. apply flush_nothing; auto.
  - destruct (ls_pendingClose s) as [c|] eqn:Hpc; intros [= <- <- <-]; [apply flush_takes|apply flush_nothing]; auto.
  - destruct (ls_closedOnce s) eqn:Hc; [|done|].
    + destruct (sb_has_closed sub) eqn:Hh; intros [= <- <- <-]; [by eapply flush_calls|by eapply flush_silent].
    + intros [= <- <- <-]. by eapply flush_skips.
  - intros [= <- <- <-]. by apply flush_returns.
Qed.

Ltac flag_solve :=
  cbn in *; intros; subst; cbn in *;
  first [ done | lia | tauto | solve [intuition (congruence || lia)] ].

Lemma b2n_le b : (b2n b ≤ 1)%nat.
Proof. destruct b; cbn; lia. Qed.

Lemma token_dead w c : flags w → ls_pendingClose (w_session w) = Some c → ls_dead (w_session w) = true.
Proof.
  intros HF Hc. apply (fl_dead _ HF). pose proof (fl_token _ HF) as F4. rewrite Hc in F4. cbn in F4.
  destruct (is_some (ls_deathCause _)); [done|]. cbn in F4. lia.
Qed.

Lemma firing_quiet w p : flags w → firing_at p = true → w_fill w = FFlush p ∨ w_drain w = DFlush p →
  is_some (ls_deathCause (w_session w)) = true ∧ ls_pendingClose (w_session w) = None.
Proof.
  intros HF Hp Hor. pose proof (fl_token _ HF) as F4.
  destruct (ls_pendingClose (w_session w)), (is_some (ls_deathCause (w_session w))); cbn in F4; try done; exfalso.
  all: destruct Hor as [Hor|Hor]; rewrite Hor in F4; cbn in F4; rewrite Hp in F4; cbn in F4; lia.
Qed.

Lemma flags_flush_fill p w p' s' evs l :
  flags w → w_fill w = FFlush p → flushes p (w_session w) p' s' evs →
  flags (fill_to w (match p' with Some p => FFlush p | None => FDone end) s' l evs).
Proof.
  intros HF Hpc Hfl.
  assert (∀ c, ls_pendingClose (w_session w) = Some c → ls_dead (w_session w) = true) as Hpd by (intros c; by apply token_dead).
  pose proof (firing_quiet w p HF) as Hfq.
  destruct HF as [F1 F2 F3 F4 F5 F6 F7 F8 F9 F10 F11 F12 F13]. rewrite Hpc in *.
  assert (ls_pumpsLaunched (w_session w) = true) as Hlaunch.
  { destruct (ls_pumpsLaunched _); [done|]. destruct (F1 eq_refl) as (? & _). congruence. }
  specialize (F2 Hlaunch). destruct F2 as (_ & F2).
  pose proof (b2n_le (is_some (ls_deathCause (w_session w)))) as Hle.
  destruct Hfl as [c -> Hpn Hr Hn|c [(-> & Hr & Hn)| ->] Hpn|[-> | ->] Hpn|c -> Hco|c -> Hco Hh|c -> Hco Hh| ->];
    [assert (ls_dead (w_session w) = true) by by eapply Hpd|..];
    destruct (ls_closedOnce (w_session w)) eqn:Hcl; try discriminate;
    (split; cbn in *; rewrite ?Hpn, ?Hcl in *; cbn in *; try flag_solve).
Qed.

Lemma flags_flush_drain p w p' s' evs l :
  flags w → w_drain w = DFlush p → flushes p (w_session w) p' s' evs →
  flags (drain_to w (match p' with Some p => DFlush p | None => DDone end) s' l evs).
Proof.
  intros HF Hpc Hfl.
  assert (∀ c, ls_pendingClose (w_session w) = Some c → ls_dead (w_session w) = true) as Hpd by (intros c; by apply token_dead).
  pose proof (firing_quiet w p HF) as Hfq.
  destruct HF as [F1 F2 F3 F4 F5 F6 F7 F8 F9 F10 F11 F12 F13]. rewrite Hpc in *.
  assert (ls_pumpsLaunched (w_session w) = true) as Hlaunch.
  { destruct (ls_pumpsLaunched _); [done|]. destruct (F1 eq_refl) as (_ & ? & _). congruence. }
  specialize (F2 Hlaunch). destruct F2 as (F2 & _ & F2').
  pose proof (b2n_le (is_some (ls_deathCause (w_session w)))) as Hle.
  destruct Hfl as [c -> Hpn Hr Hn|c [(-> & Hr & Hn)| ->] Hpn|[-> | ->] Hpn|c -> Hco|c -> Hco Hh|c -> Hco Hh| ->];
    [assert (ls_dead (w_session w) = true) by by eapply Hpd|..];
    destruct (ls_closedOnce (w_session w)) eqn:Hcl; try discriminate;
    (split; cbn in *; rewrite ?Hpn, ?Hcl in *; cbn in *; try flag_solve).
Qed.

(** ** Every step keeps the flags *)

Lemma flags_rechained s c d : flags_of (set_delivered d (set_chain c s)) = flags_of s.
Proof. done. Qed.

Lemma flags_fill o w w' : flags w → fill_step faults rand sub o w = Some w' → flags w'.
Proof.
  intros HF H. unfold fill_step in H. destruct (w_fill w) as [| | |g k| |sc en|sc ad c|sc ad en|n first|c|p|] eqn:Hpc; try discriminate H.
  all: assert (∀ q s l evs, fill_plain q = true → fill_plain (w_fill w) = true → flags_of s = flags_of (w_session w) →
         flags (fill_to w q s l evs)) as Hto by (intros; by apply flags_fill_to).
  all: rewrite Hpc in Hto.
  - destruct (_ && _); [done|]. injection H as <-. apply Hto; [by case_match|done..].
  - injection H as <-. apply Hto; [by case_match|done..].
  - destruct (protect_step _ _ _ _ _ _ _) as [[g' s'] l'] eqn:Hg. apply protect_step_session in Hg as [q ->]. injection H as <-.
    apply Hto; [destruct g'; [done|]; destruct k; [done|apply fill_return_plain]|done..].
  - destruct (pruneDue _ _ _) as [prune next]. destruct (readBatch _ _ _ _ _ _) as [[[sc en]|e|] [s' l']] eqn:Hr; [| |done].
    all: apply readBatch_moves, rechained_inv in Hr as (c & d & ->); injection H as <-.
    all: by apply flags_prune, Hto.
  - injection H as <-. apply Hto; [by repeat case_match|done..].
  - destruct (ls_dead _); injection H as <-; (apply Hto; [|done|unfold appended_batch; by repeat case_match]);
      [apply (fill_return_plain (Count 0))|apply fill_leave_plain].
  - destruct (_ && _); [injection H as <-; apply Hto; unfold appended_batch; by repeat case_match|].
    unfold finish_batch in H. injection H as <-. apply Hto; [apply fill_leave_plain|done|unfold appended_batch; by repeat case_match].
  - destruct (_ && _); [done|]. unfold finish_batch in H. injection H as <-. apply Hto; [apply fill_leave_plain|done|by repeat case_match].
  - injection H as <-. pose proof (flags_parked w (Some c) true HF) as HP. apply (flags_fill_to _ (FFlush LWait) _ (w_log w) [] HP); [cbn; by rewrite Hpc|done..].
  - unfold fill_flush in H. destruct (flush_step sub p (w_session w)) as [[[p' s'] evs]|] eqn:Hfl; [|done]. injection H as <-.
    eapply flags_flush_fill; [done|done|by apply flush_step_inv].
Qed.

Lemma drain_take_inv s p s' :
  drain_take s = Some (p, s') →
  ls_dead s = true ∧ p = DFlush LWait ∧ s' = s
  ∨ ls_dead s = false ∧ ls_replayDone s = true ∧ ls_replayActive s = false
    ∧ ((∃ c, p = DEnding c ∧ (s' = s ∨ s' = set_pendingDrainClose None s ∧ ls_pendingDrainClose s = c ∧ is_some c = true))
       ∨ ∃ lc q, ls_queue s = lc :: q ∧ p = DMint lc
           ∧ s' = set_notifyActive true (set_deliveringSeq (lc_seq lc) (set_queue q s))).
Proof.
  unfold drain_take, drain_waits. destruct (ls_dead s) eqn:Hd; cbn; [intros [= <- <-]; by left|].
  destruct (ls_replayDone s) eqn:Hr; [|done]. destruct (ls_replayActive s) eqn:Ha; [done|]. cbn.
  intros H. right. split_and!; [done..|]. destruct (ls_queue s) as [|lc q].
  - left. destruct (_ && _); [done|]. destruct (ls_pendingDrainClose s) as [c|] eqn:Hp; injection H as <- <-; eexists; (split; [done|]).
    + by right.
    + by left.
  - right. injection H as <- <-. by exists lc, q.
Qed.

Lemma flags_flushing_drain w s l :
  flags w → drain_over (w_drain w) = false → w_drain w ≠ DOff → flags_of s = flags_of (set_notifyActive false (w_session w)) →
  ls_dead (w_session w) = true → flags (drain_to w (DFlush LWait) s l []).
Proof.
  intros HF Ho Hoff Hs Hd. assert (flags (drain_to w (DEnding None) s l [])) as [F1 F2 F3 F4 F5 F6 F7 F8 F9 F10 F11 F12 F13].
  { by apply flags_drain_to. }
  injection Hs as Hl Hpc Hdc Hde Hc Hf Hr Hn. cbn in *. split; cbn; try done.
  - intros H. destruct (F1 H) as (_ & H2 & _). done.
  - intros H. destruct (F2 H) as (? & _ & ?). done.
  - congruence.
Qed.

Lemma launched_fill w : flags w → w_fill w ≠ FOff → ls_pumpsLaunched (w_session w) = true.
Proof. intros HF Hw. destruct (ls_pumpsLaunched _) eqn:Hl; [done|]. by destruct (fl_off _ HF Hl) as (? & _). Qed.
Lemma launched_drain w : flags w → w_drain w ≠ DOff → ls_pumpsLaunched (w_session w) = true.
Proof. intros HF Hw. destruct (ls_pumpsLaunched _) eqn:Hl; [done|]. by destruct (fl_off _ HF Hl) as (_ & ? & _). Qed.
Lemma launched_poll w : flags w → w_poll w ≠ POff → ls_pumpsLaunched (w_session w) = true.
Proof. intros HF Hw. destruct (ls_pumpsLaunched _) eqn:Hl; [done|]. by destruct (fl_off _ HF Hl) as (_ & _ & ? & _). Qed.
Lemma launched_next w : flags w → w_next w ≠ NOff → ls_pumpsLaunched (w_session w) = true.
Proof. intros HF Hw. destruct (ls_pumpsLaunched _) eqn:Hl; [done|]. by destruct (fl_off _ HF Hl) as (_ & _ & _ & ? & _). Qed.

(** A goroutine that ends the session. *)
Lemma flags_parked_drain w c y :
  flags w → drain_plain (w_drain w) = true → flags (drain_to w (DFlush LWait) (snd (endPark c y (w_session w))) (w_log w) []).
Proof.
  intros HF Hpc. pose proof (flags_parked w c y HF) as HP.
  refine (flags_flushing_drain _ _ (w_log w) HP _ _ _ _); unfold with_session; cbn [w_drain w_session].
  - by destruct (w_drain w).
  - by destruct (w_drain w).
  - pose proof (fl_notifying _ HP) as Hn. unfold with_session in *. cbn [w_session w_drain] in *.
    unfold flags_of. cbn -[endPark]. rewrite Hn. by destruct (w_drain w).
  - apply endPark_dead.
Qed.
Lemma flags_parked_next w c y r p :
  flags w → next_active (w_next w) = true → flags (next_to w (NClear r p) (snd (endPark c y (w_session w))) (w_log w) []).
Proof.
  intros HF Hpc. pose proof (flags_parked w c y HF) as HP.
  refine (flags_next_to _ (NClear r p) _ (w_log w) [] HP _ _ _); [cbn; by destruct (w_next w)|done|].
  pose proof (fl_replaying _ HP) as Hn. unfold with_session in *. cbn [w_session w_next] in *.
  unfold flags_of. cbn -[endPark]. by rewrite Hn, Hpc.
Qed.

Lemma flags_drain o w w' : flags w → drain_step faults rand sub o w = Some w' → flags w'.
Proof.
  intros HF H. unfold drain_step in H. pose proof (fl_notifying _ HF) as Hn.
  destruct (w_drain w) as [| |lc|lc rec| |c|c|c|p|] eqn:Hpc; try discriminate H.
  all: assert (∀ q s l evs, drain_over (w_drain w) = false → w_drain w ≠ DOff → drain_over q = false → q ≠ DOff →
         flags_of s = flags_of (set_notifyActive (drain_active q) (w_session w)) →
         (ls_notifyActive (w_session w) = false → drain_active q = true → ls_dead (w_session w) = false) →
         (drain_active q = true → w_fill w ≠ FFlush LBarrier) →
         flags (drain_to w q s l evs)) as Hto by (intros; by apply flags_drain_to).
  all: rewrite Hpc in Hto; cbn in Hn.
  all: assert (ls_notifyActive (w_session w) = true → w_fill w ≠ FFlush LBarrier) as Hbar
         by (intros Ht Hb; destruct (fl_barrier _ HF Hb); congruence).
  - destruct (drain_take (w_session w)) as [[p s']|] eqn:Ht; [|done]. injection H as <-.
    apply drain_take_inv in Ht as [(Hd & -> & ->)|(Hd & _ & _ & [(c & -> & Hs)|(lc & q & _ & -> & ->)])].
    + apply flags_flushing_drain; rewrite ?Hpc; try done. unfold flags_of; cbn. by rewrite Hn.
    + apply Hto; try done. unfold flags_of. cbn. by destruct Hs as [-> |(-> & _)]; cbn; rewrite Hn.
    + apply Hto; try done. intros _ Hb. destruct (fl_barrier _ HF Hb). congruence.
  - destruct (mintOne _ _ _ _ _ _) as [[tok|e|] [s' l']] eqn:Hm; [| |done].
    all: apply mintOne_moves, rechained_inv in Hm as (c & d & ->); injection H as <-.
    all: apply Hto; try done; [unfold flags_of; cbn; by rewrite Hn|congruence|by intros _; apply Hbar].
  - injection H as <-. apply Hto; try done; [unfold flags_of; cbn; by rewrite Hn|congruence|by intros _; apply Hbar].
  - injection H as <-. by apply Hto; destruct (sn_panics o).
  - injection H as <-. by apply Hto.
  - injection H as <-. destruct (end_ c (w_session w)) as [f s'] eqn:He. rewrite end_launched in He by (by apply (launched_drain w); rewrite ?Hpc).
    injection He as _ <-. by apply flags_parked_drain; rewrite ?Hpc.
  - injection H as <-. by apply (flags_parked_drain w (Some c) true); rewrite ?Hpc.
  - unfold drain_flush in H. destruct (flush_step sub p (w_session w)) as [[[p' s'] evs]|] eqn:Hfl; [|done]. injection H as <-.
    eapply flags_flush_drain; [done|done|by apply flush_step_inv].
Qed.

Lemma flags_poll o w w' : flags w → poll_step faults rand sub o w = Some w' → flags w'.
Proof.
  intros HF H. unfold poll_step in H. destruct (w_poll w) as [| |c| |g|] eqn:Hpc; try discriminate H.
  all: assert (∀ q s l evs, w_poll w ≠ POff → q ≠ POff → flags_of s = flags_of (w_session w) → (q = PDone → ls_dead s = true) →
         flags (poll_to w q s l evs)) as Hto by (intros; by apply flags_poll_to).
  all: rewrite Hpc in Hto.
  - destruct (sn_stop o); [destruct (ls_dead _) eqn:Hd; [|done]|]; injection H as <-; apply Hto; by repeat case_match.
  - injection H as <-. rewrite end_launched by (by apply (launched_poll w); rewrite ?Hpc).
    pose proof (flags_parked w (Some c) false HF) as HP. refine (flags_poll_to _ PDone _ (w_log w) [] HP _ _ _ _); [cbn; by rewrite Hpc|done|done|].
    intros _. apply endPark_dead.
  - injection H as <-. by apply Hto.
  - destruct (protect_step _ _ _ _ _ _ _) as [[g' s'] l'] eqn:Hg. apply protect_step_session in Hg as [q ->]. injection H as <-.
    by apply Hto; destruct g'.
Qed.

Lemma flags_next o w w' : flags w → next_step faults rand sub o w = Some w' → flags w'.
Proof.
  intros HF H. unfold next_step in H. pose proof (fl_replaying _ HF) as Hra.
  destruct (w_next w) as [| |r|r|r sc|r sc ad|r e|r c|r pg|r pg|] eqn:Hpc; try discriminate H.
  all: assert (∀ q s l evs, w_next w ≠ NOff → q ≠ NOff → flags_of s = flags_of (set_replayActive (next_active q) (w_session w)) →
         flags (next_to w q s l evs)) as Hto by (intros; by apply flags_next_to).
  all: rewrite Hpc in Hto; cbn in Hra.
  - injection H as <-. by apply Hto.
  - injection H as <-. apply Hto; [done|by repeat case_match|]. unfold flags_of. cbn. rewrite Hra. by repeat case_match.
  - destruct (scan_replay _ _) as [[sc|e|] [s' l']] eqn:Hs; [| |done]; apply scan_replay_moves in Hs as ->; injection H as <-.
    all: apply Hto; try done; unfold flags_of; cbn; by rewrite Hra.
  - injection H as <-. apply Hto; [done|by repeat case_match|]. unfold flags_of. cbn. rewrite Hra. by repeat case_match.
  - destruct (mint_page _ _ _ _ _ _ _ _ _) as [[[rs nx]|e|] [s' l']] eqn:Hm; [| |done].
    all: apply mint_page_moves, rechained_inv in Hm as (c & d & ->); injection H as <-.
    all: apply Hto; try done; unfold flags_of; cbn; by rewrite Hra.
  - injection H as <-. unfold endOnPageFailure. destruct (_ || _).
    + apply Hto; try done. unfold flags_of. cbn. by rewrite Hra.
    + by apply (flags_parked_next w (Some (OfLog e)) true); rewrite ?Hpc.
  - injection H as <-. rewrite !end_launched by (by apply (launched_next w); rewrite ?Hpc).
    by apply (flags_parked_next w (Some c) false); rewrite ?Hpc.
  - injection H as <-. by apply Hto.
  - destruct (finish_next r pg (w_session w)) as [s' ev] eqn:Hf. injection H as <-. apply Hto; [done|done|].
    unfold finish_next in Hf. unfold flags_of. cbn. rewrite <-Hra.
    repeat case_match; simplify_eq; done.
  - injection H as <-. by apply Hto.
Qed.

Lemma flags_cancel w w' : flags w → cancel_step w = Some w' → flags w'.
Proof.
  intros HF H. unfold cancel_step in H.
  assert (∀ w0 p evs, flags w0 → w_cancel w0 ≠ COff → p ≠ COff → flags (cancel_to w0 p (w_session w0) evs)) as Hto.
  { intros w0 p evs [F1 F2 F3 F4 F5 F6 F7 F8 F9 F10 F11 F12 F13] Hw Hp. split; cbn; try done.
    - intros H1. by destruct (F1 H1) as (_ & _ & _ & _ & ? & _).
    - intros H1. destruct (F2 H1) as (? & ? & ? & ? & _ & ?). done. }
  destruct (w_cancel w) eqn:Hpc; try discriminate H.
  - assert (ls_pumpsLaunched (w_session w) = true) as Hl.
    { destruct (ls_pumpsLaunched _) eqn:Hl; [done|]. destruct (fl_off _ HF Hl) as (_ & _ & _ & _ & ? & _). congruence. }
    rewrite end_launched in H by done. injection H as <-. pose proof (flags_parked w None false HF) as HP. apply (Hto _ CRead [] HP); [cbn; congruence|done].
  - destruct (ls_firing _); injection H as <-; apply Hto; congruence.
  - destruct (pumps_done w); [|done]. injection H as <-. apply Hto; congruence.
  - injection H as <-. apply Hto; congruence.
Qed.

Lemma flags_unpin w w' : flags w → unpin_step w = Some w' → flags w'.
Proof.
  intros HF H. unfold unpin_step in H.
  assert (∀ p evs, w_unpin w ≠ UOff → p ≠ UOff → flags (unpin_to w p evs)) as Hto.
  { intros p evs Hw Hp. destruct HF as [F1 F2 F3 F4 F5 F6 F7 F8 F9 F10 F11 F12 F13]. split; cbn; try done.
    - intros H1. by destruct (F1 H1) as (_ & _ & _ & _ & _ & ? & _).
    - intros H1. destruct (F2 H1) as (? & ? & ? & ? & ? & _). done. }
  destruct (w_unpin w) eqn:Hpc; try discriminate H; repeat case_match; simplify_eq; apply Hto; congruence.
Qed.

Lemma moves_on_session R f : (∀ s, R s (f s)) → moves R (on_session f).
Proof. intros Hf s l. apply Hf. Qed.
Lemma open_session_flags now from a s l o s' l' :
  open_session faults rand sub now from a (s, l) = (o, (s', l')) → flags_of s = flags_of s'.
Proof.
  intros H. set (R := λ s s', flags_of s = flags_of s'). assert (PreOrder R) as HR by (split; unfold R; repeat intro; congruence).
  refine (stx_moved _ R _ _ _ _ _ _ H _). apply moves_at_moves. unfold open_start, open_stale.
  repeat first [ apply (moves_bind _); [|intros ?] | apply (moves_on_log _) | apply (moves_ret _) | apply (moves_fail _)
               | apply (moves_of_session _) | by apply moves_on_session | case_match ].
Qed.

Lemma flags_listen o from w w' : flags w → listen_step faults rand sub o from w = Some w' → flags w'.
Proof.
  intros HF H. unfold listen_step in H. destruct (ls_pumpsLaunched (w_session w)) eqn:Hl; [done|].
  destruct (answer_panics _); [done|].
  destruct (open_session _ _ _ _ _ _ _) as [[[]|e|] [s' l']] eqn:Ho; injection H as <-; [|by apply flags_log..].
  apply open_session_flags in Ho. destruct HF as [F1 F2 F3 F4 F5 F6 F7 F8 F9 F10 F11 F12 F13].
  destruct (F1 Hl) as (E1 & E2 & E3 & E4 & _). rewrite E1, E2, E3, E4 in *. injection Ho as Hpl Hpc Hd Hde Hc Hf Hr Hn.
  split; cbn in *; rewrite <-?Hpc, <-?Hd, <-?Hde, <-?Hc, <-?Hf, <-?Hr, <-?Hn; done.
Qed.

Lemma flags_step w w' : flags w → step faults clock rand sub policy w w' → flags w'.
Proof.
  intros HF Hs. destruct Hs as [o from w w' _ H|o w w' _ H|o w w' H|o w w' H|o w w' _ H|w w' H|w w' H|w|c w|t w|l w _].
  - by eapply flags_listen.
  - by eapply flags_fill.
  - by eapply flags_drain.
  - by eapply flags_poll.
  - by eapply flags_next.
  - by eapply flags_cancel.
  - by eapply flags_unpin.
  - by apply flags_session.
  - by apply flags_parked.
  - by apply flags_prune.
  - by apply flags_log.
Qed.

Lemma flags_new l : flags (new_world l).
Proof. by split. Qed.
Lemma flags_reachable l w : rtc (step faults clock rand sub policy) (new_world l) w → flags w.
Proof.
  intros H. assert (∀ w0 w1, rtc (step faults clock rand sub policy) w0 w1 → flags w0 → flags w1) as Hr.
  { induction 1; [done|]. eauto using flags_step. }
  eapply Hr; [done|apply flags_new].
Qed.
End Flags.
