(* ===== verification/ListenTrace.v ===== *)
(** * What a subscription shows, in order

    Which step shows which event, and what follows the end: after the close
    was called, the cancel function returned or the namespace was let go, the
    subscriber is given nothing any more. *)
From Stdlib Require Import ZArith Lia Ascii String.
From stdpp Require Import base gmap strings list sorting relations.
From S2P Require Import Prelude GoStrings AuthIdentity SchemaIdent Schema SchemaConstraints Authz GoNumbers Changelog.
From S2P Require Import ChangelogFacts ChangelogTheorems Listen ListenTx ListenFlags.
Local Open Scope Z_scope.

(** ** Events *)

(** Nothing reaches the subscriber: no change is notified, no page holds one,
    no close is called. *)
Definition silent (e : event) : Prop :=
  match e with
  | EPaged changes records _ _ _ => changes = [] ∧ records = []
  | ENotified _ _ | EClosed _ | EOpened _ _ => False
  | ECancelled _ | EUnpinned => True
  end.
(** The close was called; the cancel function returned after its wait; the
    namespace was let go. *)
Definition final (e : event) : Prop :=
  match e with EClosed _ | ECancelled true | EUnpinned => True | _ => False end.
Definition stops (tr : list event) : Prop := ∀ pre e post, tr = pre ++ e :: post → final e → Forall silent post.

Lemma stops_nil : stops [].
Proof. intros pre e post H. by destruct pre. Qed.
Lemma stops_snoc tr e : stops tr → (∀ x, x ∈ tr → final x → silent e) → stops (tr ++ [e]).
Proof.
  intros Hs He pre x post Htr Hx. destruct post as [|y post _] using rev_ind; [constructor|].
  rewrite app_comm_cons, app_assoc in Htr. apply app_inj_tail in Htr as [Htr <-].
  apply Forall_app. split; [by eapply Hs|]. apply Forall_singleton. eapply He; [|exact Hx]. rewrite Htr. set_solver.
Qed.

(** Where a call of [next] does not use the log. *)
Definition off_log (p : next_pc) : bool :=
  match p with NIdle | NPage _ | NClear _ _ | NFinish _ _ => true | _ => false end.

(** Which step shows an event, and what holds around it. *)
Inductive emits (w w' : world) : event → Prop :=
| emits_opened p b : ls_pumpsLaunched (w_session w) = false → emits w w' (EOpened p b)
| emits_paged r pg : w_next w = NFinish r pg → ls_dead (w_session w) = false →
    emits w w' (EPaged (pa_changes pg) (pa_records pg) (pa_next pg) (pa_done pg) (pa_err pg))
| emits_page_end r pg c : w_next w = NFinish r pg → emits w w' (EPaged [] [] r true (Some c))
| emits_notified lc rec : w_drain w = DNotify lc rec → emits w w' (ENotified lc rec)
| emits_closed c : w_fill w = FFlush (LFire c) ∨ w_drain w = DFlush (LFire c) → ls_closedOnce (w_session w) = Unfired →
    ls_closedOnce (w_session w') = Running → emits w w' (EClosed c)
| emits_left : emits w w' (ECancelled false)
| emits_cancelled : w_cancel w = CWait → pumps_done w = true → emits w w' (ECancelled true)
| emits_unpinned : w_unpin w = UReplay → w_unpin w' = UDone → ls_replayActive (w_session w) = false → emits w w' EUnpinned.

(** What a step never undoes. *)
Record advances (sub : subscription) (w w' : world) : Prop := {
  ad_pumps : pumps_done w = true → pumps_done w' = true;
  ad_dead : ls_dead (w_session w) = true → ls_dead (w_session w') = true;
  ad_once : ls_closedOnce (w_session w) ≠ Unfired → ls_closedOnce (w_session w') ≠ Unfired;
  ad_shown : sb_has_closed sub = true → ls_closedOnce (w_session w') ≠ Unfired →
    ls_closedOnce (w_session w) ≠ Unfired ∨ ∃ c, EClosed c ∈ w_trace w';
  ad_unpin : w_unpin w = UDone → w_unpin w' = UDone;
  ad_trace : w_trace w' = w_trace w ∨ ∃ e, w_trace w' = w_trace w ++ [e] ∧ emits w w' e }.

Section Trace.
Context (faults : nat → bool) (clock : nat → Z) (rand : nat → option (list Z)) (sub : subscription) (policy : answer → Prop).

(** Sessions that a step may lead to without firing. *)
Definition keeps_ends (s s' : listenSession) : Prop :=
  (ls_dead s = true → ls_dead s' = true) ∧ ls_closedOnce s' = ls_closedOnce s.
Lemma keeps_flags s s' : flags_of s' = flags_of s → keeps_ends s s'.
Proof. intros [= _ _ _ Hd Hc _ _ _]. unfold keeps_ends. by rewrite Hd, Hc. Qed.
Lemma keeps_parked s c y : keeps_ends s (snd (endPark c y s)).
Proof. split; [intros _; apply endPark_dead|]. by destruct (endPark_form c y s) as (pc & pcy & dc & dcy & -> & _). Qed.

(** A step that shows nothing. *)
Lemma advances_quiet w w' :
  (pumps_done w = true → pumps_done w' = true) → keeps_ends (w_session w) (w_session w') → w_unpin w' = w_unpin w →
  w_trace w' = w_trace w ++ [] → advances sub w w'.
Proof. intros Hp [Hd Hc] Hu Ht. split; [done|done|by rewrite Hc|rewrite Hc; by left|by rewrite Hu|]. left. by rewrite Ht, app_nil_r. Qed.

Lemma not_done_fill w : w_fill w ≠ FDone → pumps_done w = false.
Proof. unfold pumps_done. by destruct (w_fill w). Qed.
Lemma not_done_drain w : w_drain w ≠ DDone → pumps_done w = false.
Proof. unfold pumps_done. by destruct (w_fill w), (w_drain w). Qed.
Lemma not_done_poll w : w_poll w ≠ PDone → pumps_done w = false.
Proof. unfold pumps_done. by destruct (w_fill w), (w_drain w), (w_poll w). Qed.

Lemma flushes_ends p s p' s' evs :
  (p = LFiring → ls_closedOnce s ≠ Unfired) → flushes sub p s p' s' evs →
  (ls_dead s' = ls_dead s) ∧ (ls_closedOnce s ≠ Unfired → ls_closedOnce s' ≠ Unfired)
  ∧ (evs = [] ∧ (sb_has_closed sub = true → ls_closedOnce s' ≠ Unfired → ls_closedOnce s ≠ Unfired) ∨ ∃ c, evs = [EClosed c] ∧ p = LFire c ∧ ls_closedOnce s = Unfired ∧ ls_closedOnce s' = Running).
Proof.
  intros HL [c H1 H2 H3 H4|c H1 H2|H1 H2|c H1 H2|c H1 H2 H3|c H1 H2 H3|H1]; cbn; split_and!; try done;
    first [right; by eauto|left; split; [done|intros; first [by auto|congruence]]].
Qed.

Lemma firing_once w : flags w → w_fill w = FFlush LFiring ∨ w_drain w = DFlush LFiring → ls_closedOnce (w_session w) ≠ Unfired.
Proof.
  intros HF Hor Hc. pose proof (fl_running _ HF) as F5. rewrite Hc in F5. cbn in F5.
  destruct Hor as [H|H]; rewrite H in F5; cbn in F5; lia.
Qed.

Lemma fill_advances o w w' : flags w → fill_step faults rand sub o w = Some w' → advances sub w w'.
Proof.
  intros HF H. unfold fill_step in H. assert (w_fill w ≠ FDone) as Hne by (intros He; by rewrite He in H).
  pose proof (not_done_fill w Hne) as Hnd.
  assert (∀ q s l, keeps_ends (w_session w) s → advances sub w (fill_to w q s l [])) as Hto.
  { intros q s l Hs. apply advances_quiet; [congruence|done..]. }
  destruct (w_fill w) as [| | |g k| |sc en|sc ad c|sc ad en|n first|c|p|] eqn:Hpc; try discriminate H.
  - destruct (_ && _); [done|]. injection H as <-. by apply Hto.
  - injection H as <-. by apply Hto.
  - destruct (protect_step _ _ _ _ _ _ _) as [[g' s'] l'] eqn:Hg. apply protect_step_session in Hg as [q ->]. injection H as <-. by apply Hto.
  - destruct (pruneDue _ _ _) as [prune next]. destruct (readBatch _ _ _ _ _ _) as [[[sc en]|e|] [s' l']] eqn:Hr; [| |done].
    all: apply readBatch_moves, rechained_inv in Hr as (c & d & ->); injection H as <-.
    all: apply advances_quiet; cbn; [congruence|done..].
  - injection H as <-. by apply Hto.
  - destruct (ls_dead _) eqn:Hd; injection H as <-; apply Hto, keeps_flags; unfold appended_batch; by repeat case_match.
  - destruct (_ && _); [injection H as <-|unfold finish_batch in H; injection H as <-];
      apply Hto, keeps_flags; unfold appended_batch; by repeat case_match.
  - destruct (_ && _); [done|]. unfold finish_batch in H. injection H as <-. apply Hto, keeps_flags. by repeat case_match.
  - injection H as <-. apply Hto. apply (keeps_parked _ (Some c) true).
  - unfold fill_flush in H. destruct (flush_step sub p (w_session w)) as [[[p' s'] evs]|] eqn:Hfl; [|done]. injection H as <-.
    apply flush_step_inv, flushes_ends in Hfl; [|intros ->; apply (firing_once w HF); by rewrite Hpc; auto].
    destruct Hfl as (Hd & Hc & [[-> Hsh]|(c & -> & -> & H1 & H2)]).
    + split; cbn; [congruence|by rewrite Hd|done|by intros Hh Hf; left; apply Hsh|done|left; by rewrite app_nil_r].
    + split; cbn; [congruence|by rewrite Hd|done|intros _ _; right; exists c; set_solver|done|right]. eexists. split; [done|]. apply emits_closed; auto.
Qed.

Lemma drain_advances o w w' : flags w → drain_step faults rand sub o w = Some w' → advances sub w w'.
Proof.
  intros HF H. unfold drain_step in H. assert (w_drain w ≠ DDone) as Hne by (intros He; by rewrite He in H).
  pose proof (not_done_drain w Hne) as Hnd.
  assert (∀ q s l, keeps_ends (w_session w) s → advances sub w (drain_to w q s l [])) as Hto.
  { intros q s l Hs. apply advances_quiet; [congruence|done..]. }
  destruct (w_drain w) as [| |lc|lc rec| |c|c|c|p|] eqn:Hpc; try discriminate H.
  - destruct (drain_take (w_session w)) as [[p s']|] eqn:Ht; [|done]. injection H as <-. apply Hto.
    apply drain_take_inv in Ht as [(_ & _ & ->)|(_ & _ & _ & [(c & _ & [-> |(-> & _)])|(lc & q & _ & _ & ->)])]; done.
  - destruct (mintOne _ _ _ _ _ _) as [[tok|e|] [s' l']] eqn:Hm; [| |done].
    all: apply mintOne_moves, rechained_inv in Hm as (c & d & ->); injection H as <-; by apply Hto.
  - injection H as <-. split; cbn; [congruence|done|done|by left|done|right]. eexists. split; [done|]. by eapply emits_notified.
  - injection H as <-. by apply Hto.
  - injection H as <-. by apply Hto.
  - rewrite end_launched in H by (by apply (launched_drain w); rewrite ?Hpc). injection H as <-. apply Hto, keeps_parked.
  - injection H as <-. apply Hto. apply (keeps_parked _ (Some c) true).
  - unfold drain_flush in H. destruct (flush_step sub p (w_session w)) as [[[p' s'] evs]|] eqn:Hfl; [|done]. injection H as <-.
    apply flush_step_inv, flushes_ends in Hfl; [|intros ->; apply (firing_once w HF); by rewrite Hpc; auto].
    destruct Hfl as (Hd & Hc & [[-> Hsh]|(c & -> & -> & H1 & H2)]).
    + split; cbn; [congruence|by rewrite Hd|done|by intros Hh Hf; left; apply Hsh|done|left; by rewrite app_nil_r].
    + split; cbn; [congruence|by rewrite Hd|done|intros _ _; right; exists c; set_solver|done|right]. eexists. split; [done|]. apply emits_closed; auto.
Qed.

Lemma poll_advances o w w' : flags w → poll_step faults rand sub o w = Some w' → advances sub w w'.
Proof.
  intros HF H. unfold poll_step in H. assert (w_poll w ≠ PDone) as Hne by (intros He; by rewrite He in H).
  pose proof (not_done_poll w Hne) as Hnd.
  assert (∀ q s l, keeps_ends (w_session w) s → advances sub w (poll_to w q s l [])) as Hto.
  { intros q s l Hs. apply advances_quiet; [congruence|done..]. }
  destruct (w_poll w) as [| |c| |g|] eqn:Hpc; try discriminate H.
  - repeat case_match; simplify_eq; by apply Hto.
  - rewrite end_launched in H by (by apply (launched_poll w); rewrite ?Hpc). injection H as <-.
    apply Hto, (keeps_parked _ (Some c) false).
  - injection H as <-. by apply Hto.
  - destruct (protect_step _ _ _ _ _ _ _) as [[g' s'] l'] eqn:Hg. apply protect_step_session in Hg as [q ->]. injection H as <-. by apply Hto.
Qed.

Lemma finish_next_ends r pg s s' ev :
  finish_next r pg s = (s', ev) →
  keeps_ends s s'
  ∧ (ls_dead s = false ∧ ev = EPaged (pa_changes pg) (pa_records pg) (pa_next pg) (pa_done pg) (pa_err pg)
     ∨ ls_dead s = true ∧ ∃ c, ev = EPaged [] [] r true (Some c)).
Proof.
  unfold finish_next. intros H.
  assert (∀ s1, s1 = (if pa_done pg && negb (is_some (pa_err pg)) then set_replayDone true s else s) → ls_dead s1 = ls_dead s ∧ ls_closedOnce s1 = ls_closedOnce s) as Hs1.
  { intros s1 ->. by destruct (_ && _). }
  destruct (Hs1 _ eq_refl) as [Hd Hc]. rewrite Hd in H. destruct (ls_dead s) eqn:Hds.
  - injection H as <- <-. split; [split; [done|exact Hc]|right; split; [done|by eexists]].
  - destruct (_ || _); [|destruct (0 <? _)]; injection H as <- <-; (split; [split; [congruence|exact Hc]|by left]).
Qed.

Lemma next_advances o w w' : flags w → next_step faults rand sub o w = Some w' → advances sub w w'.
Proof.
  intros HF H. unfold next_step in H.
  assert (∀ q s l, keeps_ends (w_session w) s → advances sub w (next_to w q s l [])) as Hto.
  { intros q s l Hs. by apply advances_quiet. }
  destruct (w_next w) as [| |r|r|r sc|r sc ad|r e|r c|r pg|r pg|] eqn:Hpc; try discriminate H.
  - injection H as <-. by apply Hto.
  - injection H as <-. by apply Hto.
  - destruct (scan_replay _ _) as [[sc|e|] [s' l']] eqn:Hs; [| |done]; apply scan_replay_moves in Hs as ->; injection H as <-; by apply Hto.
  - injection H as <-. by apply Hto.
  - destruct (mint_page _ _ _ _ _ _ _ _ _) as [[[rs nx]|e|] [s' l']] eqn:Hm; [| |done].
    all: apply mint_page_moves, rechained_inv in Hm as (c & d & ->); injection H as <-; by apply Hto.
  - injection H as <-. apply Hto. unfold endOnPageFailure. destruct (_ || _); [done|apply (keeps_parked _ (Some (OfLog e)) true)].
  - rewrite !end_launched in H by (by apply (launched_next w); rewrite ?Hpc). injection H as <-.
    apply Hto, (keeps_parked _ (Some c) false).
  - injection H as <-. by apply Hto.
  - destruct (finish_next r pg (w_session w)) as [s' ev] eqn:Hf. injection H as <-.
    apply finish_next_ends in Hf as [[Hk1 Hk2] Hev]. split; cbn; [done|done|by rewrite Hk2|rewrite Hk2; by left|done|right].
    eexists. split; [done|]. destruct Hev as [[Hd ->]|[_ [c ->]]]; [by eapply emits_paged|by eapply emits_page_end].
  - injection H as <-. by apply Hto.
Qed.

Lemma open_session_ends now from a s l o s' l' :
  open_session faults rand sub now from a (s, l) = (o, (s', l')) → keeps_ends s s'.
Proof. intros H%open_session_flags. by apply keeps_flags. Qed.

Lemma step_advances w w' : flags w → step faults clock rand sub policy w w' → advances sub w w'.
Proof.
  intros HF Hs. destruct Hs as [o from w w' _ H|o w w' _ H|o w w' H|o w w' H|o w w' _ H|w w' H|w w' H|w|c w|t w|l w _].
  - unfold listen_step in H. destruct (ls_pumpsLaunched _) eqn:Hl; [done|]. destruct (answer_panics _); [done|].
    destruct (fl_off _ HF Hl) as (E1 & _ & _ & _ & _ & E6 & _).
    assert (pumps_done w = false) as Hnd by (apply not_done_fill; congruence).
    destruct (open_session _ _ _ _ _ _ _) as [[[]|e|] [s' l']] eqn:Ho; injection H as <-.
    + apply open_session_ends in Ho as [Hd Hc].
      split; cbn; [congruence|done|by rewrite Hc|rewrite Hc; by left|congruence|right]. eexists. split; [done|]. by apply emits_opened.
    + apply advances_quiet; cbn; [done..|by rewrite app_nil_r].
    + apply advances_quiet; cbn; [done..|by rewrite app_nil_r].
  - by eapply fill_advances.
  - by eapply drain_advances.
  - by eapply poll_advances.
  - by eapply next_advances.
  - unfold cancel_step in H. destruct (w_cancel w) eqn:Hc; try discriminate H.
    + assert (ls_pumpsLaunched (w_session w) = true) as Hl.
      { destruct (ls_pumpsLaunched _) eqn:Hl; [done|]. destruct (fl_off _ HF Hl) as (_ & _ & _ & _ & ? & _). congruence. }
      rewrite end_launched in H by done. injection H as <-. apply advances_quiet; [done| |done..]. apply (keeps_parked _ None false).
    + destruct (ls_firing _); injection H as <-; [|by apply advances_quiet].
      split; cbn; [done|done|done|by left|done|right]. eexists. split; [done|constructor].
    + destruct (pumps_done w) eqn:Hp; [|done]. injection H as <-. split; cbn; [done|done|done|by left|done|right]. eexists. split; [done|by constructor].
    + injection H as <-. by apply advances_quiet.
  - unfold unpin_step in H. destruct (w_unpin w) eqn:Hu; try discriminate H; repeat case_match; simplify_eq.
    1,2: split; cbn; try done; [by left|congruence|left; by rewrite app_nil_r].
    split; cbn; [done|done|done|by left|done|right]. eexists. split; [done|by constructor].
  - apply advances_quiet; cbn; [done..|by rewrite app_nil_r].
  - apply advances_quiet; cbn; [done| |done|by rewrite app_nil_r]. apply (keeps_parked _ c false).
  - apply advances_quiet; cbn; [done..|by rewrite app_nil_r].
  - apply advances_quiet; cbn; [done..|by rewrite app_nil_r].
Qed.

(** ** After the end *)

(** What an end that was shown says of the session. *)
Record ends_well (w : world) : Prop := {
  ew_closed c : EClosed c ∈ w_trace w → ls_closedOnce (w_session w) ≠ Unfired;
  ew_cancelled : ECancelled true ∈ w_trace w → pumps_done w = true;
  ew_unpinned : EUnpinned ∈ w_trace w → w_unpin w = UDone;
  ew_unpin_dead : w_unpin w ∈ [UPumps; UReplay; UDone] → ls_dead (w_session w) = true;
  ew_unpin_pumps : w_unpin w ∈ [UReplay; UDone] → pumps_done w = true;
  ew_unpin_log : w_unpin w = UDone → off_log (w_next w) = true;
  ew_stops : stops (w_trace w) }.

Lemma pumps_dead w : flags w → pumps_done w = true → ls_dead (w_session w) = true.
Proof.
  intros HF Hp. apply (fl_polled _ HF). unfold pumps_done in Hp. by destruct (w_fill w), (w_drain w), (w_poll w).
Qed.
Lemma pumps_fill w : pumps_done w = true → w_fill w = FDone.
Proof. unfold pumps_done. by destruct (w_fill w). Qed.
Lemma pumps_drain w : pumps_done w = true → w_drain w = DDone.
Proof. unfold pumps_done. by destruct (w_fill w), (w_drain w). Qed.

(** Once the close is being fired, the session is dead and no callback runs. *)
Lemma fired_quiet w : flags w → ls_closedOnce (w_session w) ≠ Unfired →
  ls_dead (w_session w) = true ∧ ls_notifyActive (w_session w) = false.
Proof.
  intros HF Hc. assert (is_some (ls_deathCause (w_session w)) = true ∧ ls_pendingClose (w_session w) = None) as [H1 H2].
  - pose proof (fl_running _ HF) as F5. pose proof (fl_token _ HF) as F4.
    destruct (ls_closedOnce (w_session w)); [done| |].
    + destruct (w_fill w) as [| | | | | | | | | |[]|] eqn:Hf; try by apply (firing_quiet w LFiring HF); auto.
      all: destruct (w_drain w) as [| | | | | | | |[]|] eqn:Hd; try by apply (firing_quiet w LFiring HF); auto.
      all: cbn in F5; lia.
    + cbn in F4. destruct (ls_pendingClose (w_session w)), (is_some (ls_deathCause (w_session w))); cbn in F4; try done; lia.
  - split; [by apply (fl_dead _ HF)|by apply (fl_quiet _ HF)].
Qed.

Lemma final_over w e : flags w → ends_well w → e ∈ w_trace w → final e →
  ls_dead (w_session w) = true ∧ ls_notifyActive (w_session w) = false
  ∧ (ls_closedOnce (w_session w) = Unfired → pumps_done w = true).
Proof.
  intros HF [E1 E2 E3 E4 E5 E6 _] Hin Hfin.
  assert (pumps_done w = true → ls_dead (w_session w) = true ∧ ls_notifyActive (w_session w) = false) as Hp.
  { intros Hp. split; [by apply pumps_dead|]. rewrite (fl_notifying _ HF), (pumps_drain _ Hp). done. }
  destruct e as [| | |c|[]|]; try done.
  - apply E1 in Hin. destruct (fired_quiet w HF Hin). split_and!; [done..|]. intros. congruence.
  - apply E2 in Hin. destruct (Hp Hin). done.
  - apply E3 in Hin. assert (pumps_done w = true) as Hd by (apply E5; rewrite Hin; set_solver). destruct (Hp Hd). done.
Qed.

(** A goroutine moves itself only. *)
Lemma fill_places o w w' : fill_step faults rand sub o w = Some w' →
  w_drain w' = w_drain w ∧ w_poll w' = w_poll w ∧ w_next w' = w_next w ∧ w_cancel w' = w_cancel w ∧ w_unpin w' = w_unpin w.
Proof. unfold fill_step, fill_flush, finish_batch. intros H. by repeat case_match; simplify_eq. Qed.
Lemma drain_places o w w' : drain_step faults rand sub o w = Some w' →
  w_fill w' = w_fill w ∧ w_poll w' = w_poll w ∧ w_next w' = w_next w ∧ w_cancel w' = w_cancel w ∧ w_unpin w' = w_unpin w.
Proof. unfold drain_step, drain_flush. intros H. by repeat case_match; simplify_eq. Qed.
Lemma poll_places o w w' : poll_step faults rand sub o w = Some w' →
  w_fill w' = w_fill w ∧ w_drain w' = w_drain w ∧ w_next w' = w_next w ∧ w_cancel w' = w_cancel w ∧ w_unpin w' = w_unpin w.
Proof. unfold poll_step. intros H. by repeat case_match; simplify_eq. Qed.
Lemma next_places o w w' : next_step faults rand sub o w = Some w' →
  w_fill w' = w_fill w ∧ w_drain w' = w_drain w ∧ w_poll w' = w_poll w ∧ w_cancel w' = w_cancel w ∧ w_unpin w' = w_unpin w.
Proof. unfold next_step. intros H. by repeat case_match; simplify_eq. Qed.
Lemma cancel_places w w' : cancel_step w = Some w' →
  w_fill w' = w_fill w ∧ w_drain w' = w_drain w ∧ w_poll w' = w_poll w ∧ w_next w' = w_next w ∧ w_unpin w' = w_unpin w
  ∧ w_log w' = w_log w.
Proof. unfold cancel_step. intros H. by repeat case_match; simplify_eq. Qed.

Lemma next_off_log o w w' :
  ls_dead (w_session w) = true → off_log (w_next w) = true → next_step faults rand sub o w = Some w' →
  off_log (w_next w') = true ∧ w_log w' = w_log w.
Proof.
  intros Hd Ho H. unfold next_step in H. rewrite Hd in H.
  destruct (w_next w); try discriminate Ho; [by injection H as <-..|]. destruct (finish_next _ _ _). by injection H as <-.
Qed.

(** Where the last goroutine is, after a step. *)
Lemma unpin_places w w' : flags w → step faults clock rand sub policy w w' →
  w_unpin w' = w_unpin w ∧ (w_next w' = w_next w ∨ ∃ o, next_step faults rand sub o w = Some w')
  ∨ w_unpin w' = UStop ∨ unpin_step w = Some w'.
Proof.
  intros HF Hs. destruct Hs as [o from w w' _ H|o w w' _ H|o w w' H|o w w' H|o w w' _ H|w w' H|w w' H|w|c w|t w|l w _].
  - unfold listen_step in H. repeat case_match; simplify_eq; auto.
  - apply fill_places in H as (_ & _ & ? & _ & ?). auto.
  - apply drain_places in H as (_ & _ & ? & _ & ?). auto.
  - apply poll_places in H as (_ & _ & ? & _ & ?). auto.
  - left. apply next_places in H as Hp. destruct Hp as (_ & _ & _ & _ & ?). split; [done|eauto].
  - apply cancel_places in H as (_ & _ & _ & ? & ? & _). auto.
  - auto.
  - left; auto.
  - left; auto.
  - left; auto.
  - left; auto.
Qed.

Lemma emits_silent w w' e x : flags w → ends_well w → emits w w' e → x ∈ w_trace w → final x → silent e.
Proof.
  intros HF HE He Hx Hfin. destruct (final_over w x HF HE Hx Hfin) as (Hd & Hn & Hu).
  destruct He as [p b Hl|r pg Hn' Hnd|r pg c _|lc rec Hp|c Hp Hc _| |_ _|_ _ _]; cbn; try done.
  - destruct (fl_off _ HF Hl) as (_ & _ & _ & _ & _ & _ & Htr). rewrite Htr in Hx. set_solver.
  - congruence.
  - rewrite (fl_notifying _ HF), Hp in Hn. done.
  - apply Hu in Hc. destruct Hp as [Hp|Hp]; [apply pumps_fill in Hc|apply pumps_drain in Hc]; congruence.
Qed.

Lemma ends_well_step w w' : flags w → ends_well w → step faults clock rand sub policy w w' → ends_well w'.
Proof.
  intros HF HE Hs. pose proof (step_advances _ _ HF Hs) as [A1 A2 A3 _ A4 A5].
  pose proof (unpin_places _ _ HF Hs) as Hu. pose proof HE as [E1 E2 E3 E4 E5 E6 E7].
  assert (∀ x, x ∈ w_trace w' → x ∈ w_trace w ∨ emits w w' x) as Hev.
  { intros x Hx. destruct A5 as [Ht|(e & Ht & He)]; rewrite Ht in Hx; [by left|].
    apply elem_of_app in Hx as [Hx|Hx%list_elem_of_singleton]; [by left|subst; by right]. }
  split.
  - intros c [H|H]%Hev; [apply A3; by eapply E1|]. inversion H; congruence.
  - intros [H|H]%Hev; [apply A1; by apply E2|]. inversion H; auto.
  - intros [H|H]%Hev; [apply A4; by apply E3|]. by inversion H.
  - intros Hin. destruct Hu as [[Hu _]|[Hu|Hu]]; [rewrite Hu in Hin; auto|rewrite Hu in Hin; set_solver|].
    unfold unpin_step in Hu. destruct (w_unpin w) eqn:Hw; try discriminate Hu; [|apply A2, E4; set_solver..].
    destruct (ls_dead _) eqn:Hd; [|done]. by injection Hu as <-.
  - intros Hin. destruct Hu as [[Hu _]|[Hu|Hu]]; [rewrite Hu in Hin; auto|rewrite Hu in Hin; set_solver|].
    unfold unpin_step in Hu. destruct (w_unpin w) eqn:Hw; try discriminate Hu; [|apply A1|apply A1, E5; set_solver].
    + destruct (ls_dead _); [|done]. injection Hu as <-. cbn in Hin. set_solver.
    + destruct (pumps_done w) eqn:Hd; done.
  - intros Hin. destruct Hu as [[Hu Hn]|[Hu|Hu]]; [|congruence|].
    + rewrite Hu in Hin. destruct Hn as [-> |[o Ho]]; [by apply E6|].
      eapply next_off_log; [|by apply E6|exact Ho]. apply E4. rewrite Hin. set_solver.
    + unfold unpin_step in Hu. destruct (w_unpin w) eqn:Hw; try discriminate Hu; repeat case_match; simplify_eq.
      cbn. assert (w_next w ≠ NOff) as Hne.
      { intros Hoff. assert (ls_pumpsLaunched (w_session w) = false) as Hl.
        - destruct (ls_pumpsLaunched _) eqn:Hl; [|done]. destruct (fl_on _ HF Hl) as (_ & _ & _ & ? & _). done.
        - destruct (fl_off _ HF Hl) as (_ & _ & _ & _ & _ & ? & _). congruence. }
      pose proof (fl_replaying _ HF) as Hr. rewrite H in Hr. by destruct (w_next w).
  - destruct A5 as [->|(e & -> & He)]; [done|]. apply stops_snoc; [done|]. intros x Hx Hfin. by eapply emits_silent.
Qed.

Lemma ends_well_new l : ends_well (new_world l).
Proof. split; cbn; try done; try set_solver. apply stops_nil. Qed.
Lemma ends_well_reachable l w : rtc (step faults clock rand sub policy) (new_world l) w → ends_well w.
Proof.
  intros H. assert (∀ w0 w1, rtc (step faults clock rand sub policy) w0 w1 → flags w0 → ends_well w0 → ends_well w1) as Hr.
  { induction 1 as [|a b c Hab _ IH]; [done|]. intros HF HE. apply IH; [by eapply flags_step|by eapply ends_well_step]. }
  eapply Hr; [done|by apply flags_new|apply ends_well_new].
Qed.

(** When the namespace was let go, the session does not use the log. *)
Lemma unpinned_log w w' : flags w → ends_well w → EUnpinned ∈ w_trace w → session_step faults rand sub policy w w' →
  w_log w' = w_log w.
Proof.
  intros HF HE Hin Hs. apply (ew_unpinned _ HE) in Hin.
  assert (pumps_done w = true) as Hp by (apply (ew_unpin_pumps _ HE); rewrite Hin; set_solver).
  pose proof (pumps_dead _ HF Hp) as Hd. pose proof (ew_unpin_log _ HE Hin) as Hl.
  assert (w_poll w = PDone) as Hpo by (unfold pumps_done in Hp; by destruct (w_fill w), (w_drain w), (w_poll w)).
  destruct Hs as [o from w w' _ H|o w w' _ H|o w w' H|o w w' H|o w w' _ H|w w' H|w w' H|w|c w|t w]; try done.
  - unfold listen_step in H. destruct (ls_pumpsLaunched _) eqn:Hln; [done|].
    destruct (fl_off _ HF Hln) as (_ & _ & _ & _ & _ & Hu & _). congruence.
  - unfold fill_step in H. by rewrite (pumps_fill _ Hp) in H.
  - unfold drain_step in H. by rewrite (pumps_drain _ Hp) in H.
  - unfold poll_step in H. by rewrite Hpo in H.
  - by eapply next_off_log.
  - by apply cancel_places in H as (_ & _ & _ & _ & _ & ?).
  - unfold unpin_step in H. by repeat case_match; simplify_eq.
Qed.

(** The close was shown, if it was fired and there is someone to show it to. *)
Lemma close_shown l w : rtc (step faults clock rand sub policy) (new_world l) w →
  sb_has_closed sub = true → ls_closedOnce (w_session w) ≠ Unfired → ∃ c, EClosed c ∈ w_trace w.
Proof.
  intros H Hh. revert H. apply (rtc_ind_r (λ w, ls_closedOnce (w_session w) ≠ Unfired → ∃ c, EClosed c ∈ w_trace w)); [done|].
  intros w0 w1 Hr Hs IH Hc. pose proof (step_advances _ _ (flags_reachable _ _ _ _ _ _ _ Hr) Hs) as Ha.
  destruct (ad_shown _ _ _ Ha Hh Hc) as [H0|H0]; [|done]. destruct (IH H0) as [c Hin]. exists c.
  destruct (ad_trace _ _ _ Ha) as [-> |(e & -> & _)]; [done|set_solver].
Qed.
(** An open session stays open. *)
Lemma launched_step w w' : flags w → ls_pumpsLaunched (w_session w) = true → step faults clock rand sub policy w w' →
  ls_pumpsLaunched (w_session w') = true.
Proof.
  intros HF Hl Hs. pose proof (flags_step _ _ _ _ _ _ _ HF Hs) as HF'. destruct (fl_on _ HF Hl) as (N1 & N2 & _).
  destruct (ls_pumpsLaunched (w_session w')) eqn:Hl'; [done|]. destruct (fl_off _ HF' Hl') as (E1 & E2 & _). exfalso.
  destruct Hs as [o from w w' _ H|o w w' _ H|o w w' H|o w w' H|o w w' _ H|w w' H|w w' H|w|c w|t w|l w _]; try done.
  - unfold listen_step in H. by rewrite Hl in H.
  - apply fill_places in H as (Hd & _). congruence.
  - apply drain_places in H as (Hf & _). congruence.
  - apply poll_places in H as (Hf & _). congruence.
  - apply next_places in H as (Hf & _). congruence.
  - apply cancel_places in H as (Hf & _). congruence.
  - unfold unpin_step in H. by repeat case_match; simplify_eq.
Qed.
Lemma launched_run w w' : flags w → ls_pumpsLaunched (w_session w) = true → rtc (step faults clock rand sub policy) w w' →
  ls_pumpsLaunched (w_session w') = true.
Proof.
  intros HF Hl H. induction H as [|a b c Hab _ IH]; [done|]. apply IH; [by eapply flags_step|by eapply launched_step].
Qed.
End Trace.
