(* ===== verification/ListenFinish.v ===== *)
(** * A subscription that has ended finishes

    No goroutine of a dead session can be stuck: from any place they are at,
    they run to their end, and the close is called on the way.  Transactions
    and callbacks are taken to return. *)
From Stdlib Require Import ZArith Lia Ascii String.
From stdpp Require Import base gmap strings list sorting relations.
From S2P Require Import Prelude GoStrings AuthIdentity SchemaIdent Schema SchemaConstraints Authz GoNumbers Changelog.
From S2P Require Import ChangelogFacts ChangelogTheorems Listen ListenTx ListenFlags ListenTrace.
Local Open Scope Z_scope.

(** ** Transactions return *)

Section Returns.
Context (faults : nat → bool) (rand : nat → option (list Z)) (sub : subscription).

Lemma returns_stmt {A} (f : changelog → outcome change_error A * changelog) : halts f → halts (stmt faults f).
Proof. intros Hf s. unfold stmt. destruct (faults _); [done|apply Hf]. Qed.
Lemma returns_select {A} (f : changelog → A) : halts (select faults f).
Proof. by apply returns_stmt. Qed.
Lemma returns_draw : halts (draw rand).
Proof. done. Qed.
Lemma returns_on_log {A} (m : logs A) : halts m → halts (on_log m).
Proof. intros Hm [s l]. rewrite on_log_eq. apply Hm. Qed.
Lemma returns_of_session {A} (f : listenSession → A) : halts (of_session f).
Proof. by intros [s l]. Qed.
Lemma returns_on_session f : halts (on_session f).
Proof. by intros [s l]. Qed.
Lemma returns_scan rows : halts (of_outcome (scanChangePage rows)).
Proof.
  intros s. unfold of_outcome. cbn. induction rows as [|x rows IH]; cbn; [done|]. destruct (negb _); [done|].
  by destruct (scanChangePage rows).
Qed.
Lemma returns_stx {A} (body : sessions A) : halts body → halts (stx faults body).
Proof.
  intros Hb [s l]. unfold stx, stmt. destruct (faults _); [done|].
  specialize (Hb (s, with_counts l (S (cl_calls l)) (cl_draws l))).
  destruct (body _) as [[a|e|] [s2 l2]]; cbn; [by destruct (faults _)|done|done].
Qed.

Ltac returning :=
  repeat first
    [ apply abind_halts; [|intros ?] | apply aret_halts | apply afail_halts | apply returns_select | apply returns_draw
    | apply returns_on_log | apply returns_of_session | apply returns_on_session | apply returns_scan
    | apply returns_stmt; intros ?; cbn | case_match | done ].

Lemma returns_chain now p : halts (newCursorChain rand now p).
Proof. unfold newCursorChain. returning. Qed.
Lemma returns_mint now p feed chain : halts (mintCursorToken faults rand now p feed chain).
Proof. unfold mintCursorToken. returning. all: apply returns_chain. Qed.
Lemma returns_prune now ret : halts (pruneChanges faults now ret).
Proof. unfold pruneChanges. returning. Qed.
Lemma returns_feed table : halts (changeFeedOf faults table).
Proof. unfold changeFeedOf, loadSchema, readNSGen, tableGen. returning. Qed.
Lemma returns_ended feed : halts (lifetime_ended faults feed).
Proof.
  unfold lifetime_ended. destruct feed as [f|]; [|done]. intros l. pose proof (returns_feed (cf_table f) l) as Hf.
  destruct (changeFeedOf _ _ _) as [[c|e|] l']; cbn in *; [done| |done]. by case_match.
Qed.
Lemma returns_chainFor now p : halts (chainFor rand sub now p).
Proof. unfold chainFor. returning. all: apply returns_chain. Qed.
Lemma returns_verify from to_ n : halts (verifyRetained faults from to_ n).
Proof. unfold verifyRetained, changeCount. returning. Qed.
Lemma returns_page from to_ feed : halts (scanPage faults from to_ feed).
Proof. unfold scanPage, changePage. returning. Qed.
Lemma returns_mints now admitted resume chain : halts (mintChangeCursors faults rand now admitted resume "" (sb_table sub) chain).
Proof.
  unfold mintChangeCursors. apply abind_halts.
  - induction admitted as [|lc admitted IH]; cbn [mint_each]; [done|].
    apply abind_halts; [apply returns_mint|intros tok]. apply abind_halts; [apply IH|done].
  - intros records. case_match; [done|]. apply abind_halts; [apply returns_mint|done].
Qed.

Ltac returning_tx :=
  apply returns_stx;
  repeat first
    [ apply returns_mint | apply returns_prune | apply returns_feed | apply returns_ended | apply returns_chainFor
    | apply returns_verify | apply returns_page | apply returns_mints | apply returns_chain
    | apply abind_halts; [|intros ?] | apply aret_halts | apply afail_halts | apply returns_select
    | apply returns_on_log | apply returns_of_session | apply returns_on_session | case_match ].

Lemma readBatch_returns prune now : halts (readBatch faults rand sub prune now).
Proof. unfold readBatch. returning_tx. Qed.
Lemma mintOne_returns now seq : halts (mintOne faults rand sub now seq).
Proof. unfold mintOne. returning_tx. Qed.
Lemma scan_replay_returns : halts (scan_replay faults).
Proof. unfold scan_replay. returning_tx. Qed.
Lemma mint_page_returns now admitted resume last_ count : halts (mint_page faults rand sub now admitted resume last_ count).
Proof. unfold mint_page. returning_tx. Qed.
End Returns.

(** ** How far a goroutine is from its end *)

Definition flush_rank (p : flush_pc) : nat := match p with LWait => 4 | LBarrier => 3 | LFire _ => 2 | LFiring => 1 end.
Definition protect_rank (g : protect_pc) : nat := match g with GStart => 3 | GTx _ => 2 | GSet _ => 1 end.
Definition fill_rank (p : fill_pc) : nat :=
  match p with
  | FOff | FDone => 0
  | FFlush p => flush_rank p
  | FWait | FCheck | FEnd _ => 5
  | FProtect g (ToReturn _) => 6 + protect_rank g
  | FRevoked _ _ _ | FFull _ _ => 10
  | FAppend _ _ _ => 11
  | FAdmit _ _ => 12
  | FRead => 13
  | FProtect g ToRead => 14 + protect_rank g
  end.
Definition drain_rank (p : drain_pc) : nat :=
  match p with
  | DOff | DDone => 0
  | DFlush p => flush_rank p
  | DWait | DEnding _ | DEndYield _ => 5
  | DClear _ | DNotifying => 6
  | DNotify _ _ => 7
  | DMint _ => 8
  end.
Definition poll_rank (p : poll_pc) : nat :=
  match p with POff | PDone => 0 | PWait | PEnd _ => 1 | PProtect g => 1 + protect_rank g | PWake => 5 end.
Definition next_rank (p : next_pc) : nat :=
  match p with
  | NOff | NIdle => 0
  | NFinish _ _ | NPanicked => 1
  | NClear _ _ => 2
  | NFail _ _ | NRefused _ _ => 3
  | NMint _ _ _ => 4
  | NAdmit _ _ => 5
  | NRead _ => 6
  | NPage _ => 7
  end.
Definition rank (w : world) : nat :=
  fill_rank (w_fill w) + drain_rank (w_drain w) + poll_rank (w_poll w) + next_rank (w_next w).

Lemma fill_return_rank b : (fill_rank (fill_return b) ≤ 5)%nat.
Proof. destruct b; unfold fill_return; [case_match|]; cbn; lia. Qed.

Section Finish.
Context (faults : nat → bool) (clock : nat → Z) (rand : nat → option (list Z)) (sub : subscription) (policy : answer → Prop).

(** A step of the goroutines and of a call of [next] that is under way. *)
Inductive works : world → world → Prop :=
| works_fill o w w' : permits policy o → fill_step faults rand sub o w = Some w' → works w w'
| works_drain o w w' : drain_step faults rand sub o w = Some w' → works w w'
| works_poll o w w' : poll_step faults rand sub o w = Some w' → works w w'
| works_next o w w' : permits policy o → w_next w ≠ NIdle → next_step faults rand sub o w = Some w' → works w w'.

Lemma works_step w w' : works w w' → step faults clock rand sub policy w w'.
Proof.
  intros [o x y H1 H2|o x y H|o x y H|o x y H1 _ H2];
    [by eapply step_fill|by eapply step_drain|by eapply step_poll|by eapply step_next].
Qed.

(** What the code is told: [liveAuthz] answers [a]. *)
Definition told (a : answer) : seen := MkSeen (λ _, 0) (λ _ _, a) None false false false false true.

Lemma protect_step_rank o g s l g' s' l' :
  protect_step faults rand sub o g s l = (g', s', l') → (match g' with Some g' => protect_rank g' | None => 0 end < protect_rank g)%nat.
Proof.
  unfold protect_step. destruct g; [case_match|destruct (protect_tx _ _ _ _ _ _) as [[|?|] [? ?]]|]; intros [= <- _ _]; cbn; lia.
Qed.

Lemma next_works w a : flags w → policy a → (0 < next_rank (w_next w))%nat →
  ∃ w', works w w' ∧ w_fill w' = w_fill w ∧ w_drain w' = w_drain w ∧ w_poll w' = w_poll w
    ∧ (next_rank (w_next w') < next_rank (w_next w))%nat.
Proof.
  intros HF Ha Hr. assert (∃ w', next_step faults rand sub (told a) w = Some w' ∧ (next_rank (w_next w') < next_rank (w_next w))%nat) as (w' & Hs & Hlt).
  { unfold next_step. destruct (w_next w) as [| |r|r|r sc|r sc ad|r e|r c|r pg|r pg|] eqn:Hpc; cbn in Hr; try lia.
    - eexists. split; [done|]. cbn. repeat case_match; cbn; lia.
    - pose proof (scan_replay_returns faults (w_session w, w_log w)) as Hret.
      destruct (scan_replay _ _) as [[sc|e|] [s' l']]; [| |done]; (eexists; split; [done|]); cbn; lia.
    - eexists. split; [done|]. cbn. repeat case_match; cbn; lia.
    - pose proof (mint_page_returns faults rand sub (sn_now (told a) 0%nat) ad (ls_position (w_session w)) (scanned_last sc) (length sc) (w_session w, w_log w)) as Hret.
      destruct (mint_page _ _ _ _ _ _ _ _ _) as [[[rs nx]|e|] [s' l']]; [| |done]; (eexists; split; [done|]); cbn; lia.
    - eexists. split; [done|]. cbn. lia.
    - eexists. split; [done|]. cbn. lia.
    - eexists. split; [done|]. cbn. lia.
    - destruct (finish_next _ _ _). eexists. split; [done|]. cbn. lia.
    - eexists. split; [done|]. cbn. lia. }
  exists w'. destruct (next_places _ _ _ _ _ _ Hs) as (? & ? & ? & _). split_and!; try done.
  apply (works_next (told a)); [by intros i t| |done]. intros He. rewrite He in Hr. cbn in Hr. lia.
Qed.

Lemma poll_works w : ls_dead (w_session w) = true → (0 < poll_rank (w_poll w))%nat →
  ∃ w', works w w' ∧ w_fill w' = w_fill w ∧ w_drain w' = w_drain w ∧ w_next w' = w_next w
    ∧ (poll_rank (w_poll w') < poll_rank (w_poll w))%nat.
Proof.
  intros Hd Hr. assert (∃ w', poll_step faults rand sub (told Refused) w = Some w' ∧ (poll_rank (w_poll w') < poll_rank (w_poll w))%nat) as (w' & Hs & Hlt).
  { unfold poll_step. destruct (w_poll w) as [| |c| |g|] eqn:Hpc; cbn in Hr; try lia.
    - cbn. rewrite Hd. eexists. split; [done|]. cbn. lia.
    - eexists. split; [done|]. cbn. lia.
    - eexists. split; [done|]. cbn. lia.
    - destruct (protect_step _ _ _ _ _ _ _) as [[g' s'] l'] eqn:Hg. apply protect_step_rank in Hg.
      eexists. split; [done|]. cbn. destruct g'; cbn; lia. }
  exists w'. destruct (poll_places _ _ _ _ _ _ Hs) as (? & ? & ? & _). split_and!; try done. by apply (works_poll (told Refused)).
Qed.

(** A flush is blocked by callbacks only, and by another that fires. *)
Lemma flush_runs p s :
  (p = LWait → ls_replayActive s = false ∧ ls_notifyActive s = false) →
  (∀ c, p = LFire c → ls_closedOnce s ≠ Running) →
  ∃ p' s' evs, flush_step sub p s = Some (p', s', evs) ∧ (match p' with Some p' => flush_rank p' | None => 0 end < flush_rank p)%nat.
Proof.
  intros Hw Hf. unfold flush_step, flush_take. destruct p.
  - destruct (Hw eq_refl) as [-> ->]. rewrite andb_false_r.
    destruct (ls_pendingClose s); [destruct (ls_pendingCloseYield s)|]; (eexists _, _, _; split; [done|]); cbn; lia.
  - eexists _, _, _. split; [done|]. destruct (ls_pendingClose s); cbn; lia.
  - specialize (Hf _ eq_refl). destruct (ls_closedOnce s); [|done|]; [case_match|]; (eexists _, _, _; split; [done|]); cbn; lia.
  - eexists _, _, _. split; [done|]. cbn. lia.
Qed.

Lemma fire_free w c : flags w → w_fill w = FFlush (LFire c) ∨ w_drain w = DFlush (LFire c) → ls_closedOnce (w_session w) ≠ Running.
Proof.
  intros HF Hor Hc. pose proof (fl_token _ HF) as F4. pose proof (fl_running _ HF) as F5. rewrite Hc in F4, F5.
  pose proof (b2n_le (is_some (ls_deathCause (w_session w)))).
  assert (∀ p, b2n (fill_calls p) ≤ b2n (fill_fires p))%nat as Hfc by (intros []; cbn; [lia..|destruct p; cbn; lia|lia]).
  assert (∀ p, b2n (drain_calls p) ≤ b2n (drain_fires p))%nat as Hdc by (intros []; cbn; [lia..|destruct p; cbn; lia|lia]).
  specialize (Hfc (w_fill w)). specialize (Hdc (w_drain w)).
  destruct Hor as [Ho|Ho]; [rewrite Ho in F4, F5, Hfc|rewrite Ho in F4, F5, Hdc]; cbn in *; lia.
Qed.

Lemma drain_works w : flags w → ls_dead (w_session w) = true → next_rank (w_next w) = 0%nat → (0 < drain_rank (w_drain w))%nat →
  ∃ w', works w w' ∧ w_fill w' = w_fill w ∧ w_poll w' = w_poll w ∧ w_next w' = w_next w
    ∧ (drain_rank (w_drain w') < drain_rank (w_drain w))%nat.
Proof.
  intros HF Hd Hn Hr. assert (∃ w', drain_step faults rand sub (told Refused) w = Some w' ∧ (drain_rank (w_drain w') < drain_rank (w_drain w))%nat) as (w' & Hs & Hlt).
  { unfold drain_step. destruct (w_drain w) as [| |lc|lc rec| |c|c|c|p|] eqn:Hpc; cbn in Hr; try lia.
    - unfold drain_take, drain_waits. rewrite Hd. eexists. split; [done|]. cbn. lia.
    - pose proof (mintOne_returns faults rand sub (sn_now (told Refused) 0%nat) (lc_seq lc) (w_session w, w_log w)) as Hret.
      destruct (mintOne _ _ _ _ _ _) as [[tok|e|] [s' l']]; [| |done]; (eexists; split; [done|]); cbn; lia.
    - eexists. split; [done|]. cbn. lia.
    - eexists. split; [done|]. cbn. lia.
    - eexists. split; [done|]. cbn. lia.
    - eexists. split; [done|]. cbn. lia.
    - eexists. split; [done|]. cbn. lia.
    - destruct (flush_runs p (w_session w)) as (p' & s' & evs & -> & Hlt).
      + intros ->. rewrite (fl_replaying _ HF), (fl_notifying _ HF), Hpc. by destruct (w_next w).
      + intros c ->. apply (fire_free w c HF). by right.
      + eexists. split; [done|]. cbn. by destruct p'. }
  exists w'. destruct (drain_places _ _ _ _ _ _ Hs) as (? & ? & ? & _). split_and!; try done. by apply (works_drain (told Refused)).
Qed.

Lemma fill_works w a : flags w → policy a → ls_dead (w_session w) = true → next_rank (w_next w) = 0%nat →
  drain_rank (w_drain w) = 0%nat → (0 < fill_rank (w_fill w))%nat →
  ∃ w', works w w' ∧ w_drain w' = w_drain w ∧ w_poll w' = w_poll w ∧ w_next w' = w_next w
    ∧ (fill_rank (w_fill w') < fill_rank (w_fill w))%nat.
Proof.
  intros HF Ha Hd Hn Hdr Hr.
  assert (∃ w', fill_step faults rand sub (told a) w = Some w' ∧ (fill_rank (w_fill w') < fill_rank (w_fill w))%nat) as (w' & Hs & Hlt).
  { unfold fill_step. assert (isClosing (w_session w) = true) as Hc by (unfold isClosing; by rewrite Hd).
    destruct (w_fill w) as [| | |g k| |sc en|sc ad c|sc ad en|n first|c|p|] eqn:Hpc; cbn in Hr; try lia.
    - rewrite Hd, Hc. eexists. split; [done|]. cbn. lia.
    - rewrite Hc. eexists. split; [done|]. cbn. lia.
    - destruct (protect_step _ _ _ _ _ _ _) as [[g' s'] l'] eqn:Hg. apply protect_step_rank in Hg.
      eexists. split; [done|]. cbn. destruct g', k; cbn; try lia. pose proof (fill_return_rank b). lia.
    - destruct (pruneDue _ _ _) as [prune next].
      pose proof (readBatch_returns faults rand sub prune (sn_now (told a)) (w_session w, w_log w)) as Hret.
      destruct (readBatch _ _ _ _ _ _) as [[[sc en]|e|] [s' l']]; [| |done]; (eexists; split; [done|]); cbn; lia.
    - eexists. split; [done|]. cbn. repeat case_match; cbn; lia.
    - rewrite Hd. eexists. split; [done|]. pose proof (fill_return_rank (Count 0)). cbn -[fill_return]. lia.
    - unfold finish_batch.
      assert (ls_dead (appended_batch sc ad (w_session w)) = true) as Hd' by (unfold appended_batch; by case_match).
      rewrite Hd'. cbn [negb]. rewrite !andb_false_r. eexists. split; [done|].
      pose proof (fill_return_rank (Count 0)). cbn -[fill_return]. lia.
    - unfold finish_batch. rewrite Hd. cbn [negb]. rewrite !andb_false_r. eexists. split; [done|].
      pose proof (fill_return_rank (Count 0)). cbn -[fill_return]. lia.
    - eexists. split; [done|]. cbn. lia.
    - destruct (flush_runs p (w_session w)) as (p' & s' & evs & -> & Hlt).
      + intros ->. rewrite (fl_replaying _ HF), (fl_notifying _ HF). split; [by destruct (w_next w)|by destruct (w_drain w)].
      + intros c ->. apply (fire_free w c HF). by left.
      + eexists. split; [done|]. cbn. by destruct p'. }
  exists w'. destruct (fill_places _ _ _ _ _ _ Hs) as (? & ? & ? & _). split_and!; try done. apply (works_fill (told a)); [by intros i t|done].
Qed.

(** From any place a dead session can be at, its goroutines get to their
    ends. *)
Lemma dead_runs n w a : flags w → policy a → ls_dead (w_session w) = true → (rank w ≤ n)%nat →
  ∃ w', rtc works w w' ∧ rank w' = 0%nat.
Proof.
  revert w. induction n as [|n IH]; intros w HF Ha Hd Hn; [exists w; split; [done|lia]|].
  destruct (Nat.eq_dec (rank w) 0%nat) as [H0|H0]; [by exists w|].
  assert (∃ w', works w w' ∧ (rank w' < rank w)%nat) as (w' & Hw & Hlt).
  { unfold rank in *. destruct (decide (next_rank (w_next w) = 0%nat)) as [Hx|Hx].
    - destruct (decide (poll_rank (w_poll w) = 0%nat)) as [Hp|Hp].
      + destruct (decide (drain_rank (w_drain w) = 0%nat)) as [Hdr|Hdr].
        * destruct (fill_works w a) as (w' & Hw & E1 & E2 & E3 & Hl); try done; [lia|]. exists w'. split; [done|]. rewrite E1, E2, E3. lia.
        * destruct (drain_works w) as (w' & Hw & E1 & E2 & E3 & Hl); try done; [lia|]. exists w'. split; [done|]. rewrite E1, E2, E3. lia.
      + destruct (poll_works w) as (w' & Hw & E1 & E2 & E3 & Hl); try done; [lia|]. exists w'. split; [done|]. rewrite E1, E2, E3. lia.
    - destruct (next_works w a) as (w' & Hw & E1 & E2 & E3 & Hl); try done; [lia|]. exists w'. split; [done|]. rewrite E1, E2, E3. lia. }
  pose proof (works_step _ _ Hw) as Hs.
  destruct (IH w') as (w2 & Hr & Hz); [by eapply flags_step|done|by eapply (ad_dead _ _ _ (step_advances _ _ _ _ _ _ _ HF Hs))|lia|].
  exists w2. split; [by eapply rtc_l|done].
Qed.

Lemma works_reaches w w' : rtc works w w' → rtc (step faults clock rand sub policy) w w'.
Proof. apply (rtc_subrel works). intros x y. apply works_step. Qed.

Lemma rank_done w : flags w → ls_pumpsLaunched (w_session w) = true → rank w = 0%nat → pumps_done w = true ∧ w_next w = NIdle.
Proof.
  intros HF Hl Hr. destruct (fl_on _ HF Hl) as (H1 & H2 & H3 & H4 & _). unfold rank in Hr.
  assert (fill_rank (w_fill w) = 0 ∧ drain_rank (w_drain w) = 0 ∧ poll_rank (w_poll w) = 0 ∧ next_rank (w_next w) = 0)%nat as (R1 & R2 & R3 & R4) by lia.
  split; [unfold pumps_done|by destruct (w_next w)].
  destruct (w_fill w) as [| | |? []| | | | | | |[]|]; try discriminate R1; [done|].
  destruct (w_drain w) as [| | | | | | | |[]|]; try discriminate R2; [done|]. by destruct (w_poll w).
Qed.

(** When all is over, the close was fired, if the session had a cause. *)
Lemma done_fired w : flags w → pumps_done w = true → is_some (ls_deathCause (w_session w)) = true →
  ls_closedOnce (w_session w) = Fired.
Proof.
  intros HF Hp Hc. pose proof (fl_token _ HF) as F4. rewrite (fl_took _ HF), Hc in F4 by by rewrite (pumps_drain _ Hp).
  rewrite (pumps_fill _ Hp), (pumps_drain _ Hp) in F4. cbn in F4. by destruct (ls_closedOnce (w_session w)).
Qed.
End Finish.
