(* ===== verification/ListenMachine.v ===== *)
(** * The delivery machine: what a subscription does with changes

    The abstract specification of a subscription.  A [view] is what matters of
    a session for the changes it delivers: where it stands in the log, what it
    has scanned, queued and handed out.  [vstep] are the moves it may make;
    the goroutines of the code are shown to make no others.  [delivery] is the
    invariant of the machine: changes go out once each, in the order of their
    numbers, and nothing that stays in the log is passed over. *)
From Stdlib Require Import ZArith Lia Ascii String.
From stdpp Require Import base gmap strings list sorting relations.
From S2P Require Import Prelude GoStrings AuthIdentity SchemaIdent Schema SchemaConstraints Authz GoNumbers Changelog.
From S2P Require Import ChangelogFacts ChangelogTheorems Listen ListenTx.
Local Open Scope Z_scope.

(** ** Lists of changes *)

Definition earlier (x y : loggedChange) : Prop := lc_seq x < lc_seq y.
Definition last_seq (l : list loggedChange) (d : Z) : Z := match last l with Some lc => lc_seq lc | None => d end.

Lemma earlier_rows rows : StronglySorted before rows → StronglySorted earlier (map logged rows).
Proof.
  induction 1 as [|x l Hs IH Hx]; cbn; constructor; [done|]. rewrite Forall_forall in Hx. apply Forall_forall.
  intros lc (y & -> & Hy)%list_elem_of_fmap. apply (Hx y Hy).
Qed.
Lemma earlier_app l k : StronglySorted earlier l → StronglySorted earlier k →
  (∀ x y, x ∈ l → y ∈ k → earlier x y) → StronglySorted earlier (l ++ k).
Proof. intros H1 H2 H3. by apply StronglySorted_app. Qed.
Lemma earlier_last l d x : StronglySorted earlier l → x ∈ l → lc_seq x ≤ last_seq l d.
Proof.
  induction 1 as [|y l Hs IH Hy] in x |- *; [by intros ?%elem_of_nil|]. rewrite Forall_forall in Hy.
  destruct l as [|z l]; [intros ->%list_elem_of_singleton; unfold last_seq; cbn; lia|].
  assert (last_seq (y :: z :: l) d = last_seq (z :: l) d) as -> by done.
  intros [->|Hx]%elem_of_cons; [|by apply IH].
  specialize (IH z ltac:(by left)). specialize (Hy z ltac:(by left)). unfold earlier in Hy. lia.
Qed.
Lemma last_seq_elem l d : l ≠ [] → ∃ x, x ∈ l ∧ lc_seq x = last_seq l d.
Proof.
  intros Hne. unfold last_seq. destruct (last l) as [x|] eqn:Hl; [|by apply last_None in Hl].
  exists x. split; [by apply last_Some_elem_of|done].
Qed.
Lemma last_seq_default l d d' : l ≠ [] → last_seq l d = last_seq l d'.
Proof. intros Hne. unfold last_seq. destruct (last l) eqn:Hl; [done|]. by apply last_None in Hl. Qed.
Lemma earlier_sublist l k : sublist l k → StronglySorted earlier k → StronglySorted earlier l.
Proof.
  induction 1 as [|x l k Hs IH|x l k Hs IH]; [done| |]; intros [Hk Hx]%StronglySorted_inv.
  - constructor; [auto|]. rewrite Forall_forall in Hx. apply Forall_forall. intros y Hy. apply Hx. by eapply elem_of_sublist.
  - auto.
Qed.

(** Two selections in order of one another's elements. *)
Lemma before_eq (l k : list (Z * log_row)) : StronglySorted before l → StronglySorted before k →
  (∀ x, x ∈ l → x ∈ k) → length l = length k → l = k.
Proof.
  intros Hl Hk Hsub Hlen. revert k Hk Hsub Hlen. induction Hl as [|x l Hl IH Hx]; intros [|y k] Hk Hsub Hlen; try done.
  apply StronglySorted_inv in Hk as [Hk Hy]. rewrite Forall_forall in *. unfold before in *.
  assert (∀ z, z ∈ l → z ∈ k) as Hlk.
  { intros z Hz. destruct (elem_of_cons k z y) as [H _]. destruct (H (Hsub z ltac:(by right))) as [->|?]; [|done].
    destruct (elem_of_cons k x y) as [Hxy _]. destruct (Hxy (Hsub x ltac:(by left))) as [->|Hin].
    - specialize (Hx y Hz). lia.
    - specialize (Hx y Hz). specialize (Hy x Hin). lia. }
  assert (l = k) as -> by (apply IH; [done|done|by injection Hlen]).
  f_equal. destruct (elem_of_cons k x y) as [Hxy _]. destruct (Hxy (Hsub x ltac:(by left))) as [->|Hin]; [done|].
  exfalso. specialize (Hx x Hin). lia.
Qed.

(** ** The state *)

Record view := MkView {
  v_log : changelog; v_feed : option changeFeed; v_start : Z; v_boundary : Z;
  v_position : Z; v_exhausted : bool; v_outstanding : Z; v_paging : option (list loggedChange);
  v_chain : cursorChain; v_liveRead : Z; v_reading : list loggedChange; v_queue : list loggedChange;
  v_held : list loggedChange; v_delivering : Z; v_broken : bool;
  v_paged : list loggedChange; v_notified : list loggedChange }.

(** [v] with one part changed. *)
Ltac build_view s p v c l :=
  lazymatch l with
  | (?l', ?q) => let rec_ := build_view s p v c l' in
                 lazymatch q with p => constr:(rec_ v) | _ => constr:(rec_ (q s)) end
  | ?q => lazymatch q with p => constr:(c v) | _ => constr:(c (q s)) end
  end.
Ltac view_setter s p v :=
  let t := build_view s p v constr:(MkView)
    constr:((v_log, v_feed, v_start, v_boundary, v_position, v_exhausted, v_outstanding, v_paging, v_chain, v_liveRead,
      v_reading, v_queue, v_held, v_delivering, v_broken, v_paged, v_notified)) in exact t.
Definition at_log : changelog → view → view := λ v s, ltac:(view_setter s v_log v).
Definition at_position : Z → view → view := λ v s, ltac:(view_setter s v_position v).
Definition at_exhausted : bool → view → view := λ v s, ltac:(view_setter s v_exhausted v).
Definition at_outstanding : Z → view → view := λ v s, ltac:(view_setter s v_outstanding v).
Definition at_paging : option (list loggedChange) → view → view := λ v s, ltac:(view_setter s v_paging v).
Definition at_chain : cursorChain → view → view := λ v s, ltac:(view_setter s v_chain v).
Definition at_liveRead : Z → view → view := λ v s, ltac:(view_setter s v_liveRead v).
Definition at_reading : list loggedChange → view → view := λ v s, ltac:(view_setter s v_reading v).
Definition at_queue : list loggedChange → view → view := λ v s, ltac:(view_setter s v_queue v).
Definition at_held : list loggedChange → view → view := λ v s, ltac:(view_setter s v_held v).
Definition at_delivering : Z → view → view := λ v s, ltac:(view_setter s v_delivering v).
Definition at_broken : bool → view → view := λ v s, ltac:(view_setter s v_broken v).
Definition at_paged : list loggedChange → view → view := λ v s, ltac:(view_setter s v_paged v).
Definition at_notified : list loggedChange → view → view := λ v s, ltac:(view_setter s v_notified v).

Definition v_owed (v : view) : list loggedChange := v_held v ++ v_queue v.
Definition v_stream (v : view) : list loggedChange := v_paged v ++ v_notified v.

Section Machine.
(** [may lc b]: a permitted authorization admits the change, or hides it. *)
Context (may : loggedChange → bool → Prop).

(** [selects l k]: [k] is what may be admitted of [l], in order. *)
Inductive selects : list loggedChange → list loggedChange → Prop :=
| selects_nil : selects [] []
| selects_keep lc l k : may lc true → selects l k → selects (lc :: l) (lc :: k)
| selects_skip lc l k : may lc false → selects l k → selects (lc :: l) k.

Lemma selects_sublist l k : selects l k → sublist k l.
Proof. induction 1; constructor; done. Qed.
Lemma selects_app l1 k1 l2 k2 : selects l1 k1 → selects l2 k2 → selects (l1 ++ l2) (k1 ++ k2).
Proof. induction 1; [done|..]; intros ?; cbn; constructor; auto. Qed.
Lemma selects_admitted l k lc : selects l k → lc ∈ k → lc ∈ l ∧ may lc true.
Proof.
  induction 1 as [|x l k Hm _ IH|x l k Hm _ IH]; [by intros ?%elem_of_nil| |].
  - intros [->|Hin]%elem_of_cons; [split; [by left|done]|]. destruct (IH Hin). split; [by right|done].
  - intros Hin. destruct (IH Hin). split; [by right|done].
Qed.
Lemma selects_all l k lc : selects l k → lc ∈ l → ¬ may lc false → lc ∈ k.
Proof.
  induction 1 as [|x l k Hm _ IH|x l k Hm _ IH]; [done| |].
  - intros [->|Hin]%elem_of_cons ?; [by left|right; auto].
  - intros [->|Hin]%elem_of_cons ?; [done|auto].
Qed.

(** ** The moves *)

(** Where a cursor of the session may be minted. *)
Definition resumes (v : view) (resume : Z) : Prop :=
  resume = v_liveRead v ∨ (∃ lc, lc ∈ v_held v ∧ resume = lc_seq lc) ∨ v_exhausted v = false ∧ resume = v_position v.

Inductive vstep (v : view) : view → Prop :=
(** Anything the log allows. *)
| vs_log l : fair (v_log v) l → vstep v (at_log l v)
(** A new chain of cursors. *)
| vs_chain c resume : resumes v resume → ch_Origin c ≤ resume →
    (v_exhausted v = false → ch_Origin c ≤ v_position v) → (∀ lc, lc ∈ v_owed v → ch_Origin c < lc_seq lc) →
    vstep v (at_chain c v)
(** The live side reads a batch, and appends what it admits of it; or drops
    the batch, or what follows a refusal, and ends. *)
| vs_read : vstep v (at_reading (map logged (take page_limit (rows_after (v_liveRead v) None (v_feed v) None (v_log v)))) v)
| vs_append admitted : selects (v_reading v) admitted →
    vstep v (at_reading [] (at_queue (v_queue v ++ admitted) (at_liveRead (last_seq (v_reading v) (v_liveRead v)) v)))
| vs_refused read admitted rest : v_reading v = read ++ rest → selects read admitted →
    vstep v (at_broken true (at_reading [] (at_queue (v_queue v ++ admitted) (at_liveRead (last_seq (v_reading v) (v_liveRead v)) v))))
| vs_drop : vstep v (at_broken true (at_reading [] v))
(** The first of the queue is taken, and notified or lost. *)
| vs_take lc queue : v_queue v = lc :: queue → v_held v = [] → v_exhausted v = true →
    vstep v (at_held [lc] (at_queue queue (at_delivering (lc_seq lc) v)))
| vs_notify lc : v_held v = [lc] → vstep v (at_held [] (at_notified (v_notified v ++ [lc]) v))
| vs_lose : vstep v (at_broken true (at_held [] v))
| vs_clear : v_held v = [] → vstep v (at_delivering 0 v)
| vs_break : vstep v (at_broken true v)
(** A page of the replay is scanned, and handed out, or dropped. *)
| vs_scan : v_exhausted v = false →
    (v_position v < v_boundary v → v_outstanding v ≠ 0 →
       Z.of_nat (length (rows_after (v_position v) (Some (v_boundary v)) (v_feed v) None (v_log v))) = v_outstanding v) →
    vstep v (at_paging (Some (map logged (take page_limit (rows_after (v_position v) (Some (v_boundary v)) (v_feed v) None (v_log v))))) v)
| vs_unscan : vstep v (at_paging None v)
| vs_page scanned admitted : v_paging v = Some scanned → selects scanned admitted →
    vstep v (at_paged (v_paged v ++ admitted)
              (at_exhausted (length scanned <? page_limit)%nat
                 (at_outstanding (v_outstanding v - Z.of_nat (length scanned))
                    (at_paging None (at_position (last_seq scanned (v_position v)) v))))).
End Machine.
