(* ===== verification/ListenDelivery.v ===== *)
(** * The invariant of the delivery machine *)
From Stdlib Require Import ZArith Lia Ascii String.
From stdpp Require Import base gmap strings list sorting relations.
From S2P Require Import Prelude GoStrings AuthIdentity SchemaIdent Schema SchemaConstraints Authz GoNumbers Changelog ChangelogFacts.
From S2P Require Import ChangelogTheorems Listen ListenTx ListenMachine.

Local Open Scope Z_scope.

(** A change of the feed, as the log held it when it was scanned. *)
Definition from_feed (v : view) (lc : loggedChange) : Prop :=
  0 < lc_seq lc ∧ ∃ row, lc = logged (lc_seq lc, row) ∧ in_feed (v_feed v) row = true.

(** Everything ahead of the live side is after [p]. *)
Definition behind (v : view) (p : Z) : Prop :=
  p ≤ cl_seq (v_log v)
  ∧ (∀ seq row, cl_changes (v_log v) !! seq = Some row → v_liveRead v < seq → p < seq)
  ∧ ∀ lc, lc ∈ v_reading v → p < lc_seq lc.

(** A scan has every change of the feed in its range. *)
Definition scans (v : view) (from to_ : Z) (scanned : list loggedChange) : Prop :=
  ∀ seq row, cl_changes (v_log v) !! seq = Some row → in_feed (v_feed v) row = true → from < seq ≤ to_ →
    logged (seq, row) ∈ scanned.
Definition short (scanned : list loggedChange) : bool := (length scanned <? page_limit)%nat.
#[local] Arguments short : simpl never.

Lemma short_nil : short [] = true.
Proof. vm_compute. reflexivity. Qed.

Section Delivery.
Context (may : loggedChange → bool → Prop).


Record delivery (v : view) : Prop := {
  d_wf : log_wf (v_log v);
  d_live : v_boundary v ≤ v_liveRead v ≤ cl_seq (v_log v);
  d_boundary : 0 ≤ v_boundary v;
  d_start : v_start v ≤ v_position v;
  d_position : behind v (v_position v);
  d_reading_sorted : StronglySorted earlier (v_reading v);
  d_reading lc : lc ∈ v_reading v → v_liveRead v < lc_seq lc ≤ cl_seq (v_log v) ∧ from_feed v lc;
  d_reading_all : v_reading v ≠ [] → scans v (v_liveRead v) (last_seq (v_reading v) 0) (v_reading v);
  d_owed_sorted : StronglySorted earlier (v_owed v);
  d_owed lc : lc ∈ v_owed v → v_boundary v < lc_seq lc ≤ v_liveRead v ∧ v_position v < lc_seq lc ∧ from_feed v lc ∧ may lc true;
  d_held : v_held v = [] ∨ ∃ lc, v_held v = [lc] ∧ v_delivering v = lc_seq lc;
  d_held_after : v_held v ≠ [] → v_exhausted v = true;
  d_delivering : 0 ≤ v_delivering v ≤ cl_seq (v_log v);
  d_origin : behind v (ch_Origin (v_chain v));
  d_origin_owed lc : lc ∈ v_owed v → ch_Origin (v_chain v) < lc_seq lc;
  d_origin_position : v_exhausted v = false → sound_at (v_log v) (v_chain v) (v_position v);
  d_paging scanned : v_paging v = Some scanned → v_exhausted v = false ∧ StronglySorted earlier scanned
    ∧ (∀ lc, lc ∈ scanned → v_position v < lc_seq lc ≤ v_boundary v ∧ from_feed v lc)
    ∧ scans v (v_position v) (if short scanned then v_boundary v else last_seq scanned 0) scanned;
  d_stream_sorted : StronglySorted earlier (v_stream v);
  d_paged lc : lc ∈ v_paged v → v_start v < lc_seq lc ≤ v_position v ∧ lc_seq lc ≤ v_boundary v ∧ from_feed v lc ∧ may lc true;
  d_notified lc : lc ∈ v_notified v →
    v_boundary v < lc_seq lc ≤ v_liveRead v ∧ v_position v < lc_seq lc ∧ from_feed v lc ∧ may lc true;
  d_notified_before x y : x ∈ v_notified v → y ∈ v_owed v → earlier x y;
  d_notified_after : v_notified v ≠ [] → v_exhausted v = true;
  d_cover seq row : v_broken v = false → cl_changes (v_log v) !! seq = Some row → in_feed (v_feed v) row = true →
    v_boundary v < seq ≤ v_liveRead v → ¬ may (logged (seq, row)) false → logged (seq, row) ∈ v_notified v ++ v_owed v;
  d_replayed seq row : cl_changes (v_log v) !! seq = Some row → in_feed (v_feed v) row = true →
    v_start v < seq ≤ v_boundary v → (v_exhausted v = true ∨ seq ≤ v_position v) →
    ¬ may (logged (seq, row)) false → logged (seq, row) ∈ v_paged v }.

Lemma vdelivery_log v l : delivery v → fair (v_log v) l → delivery (at_log l v).
Proof.
  intros D Hf. assert (∀ seq row, cl_changes l !! seq = Some row → cl_changes (v_log v) !! seq = Some row ∨ cl_seq (v_log v) < seq) as Hnew
    by apply Hf.
  pose proof (fa_seq _ _ Hf) as Hq.
  assert (∀ p, behind v p → behind (at_log l v) p) as Hb.
  { intros p (H1 & H2 & H3). split_and!; cbn; [lia| |done]. intros seq row [Hr|Hr]%Hnew Hlt; [by eapply H2|lia]. }
  assert (∀ a b sc, b ≤ cl_seq (v_log v) → scans v a b sc → scans (at_log l v) a b sc) as Hsc.
  { intros a b sc Hle Hs seq row [Hr|Hr]%Hnew Hfd Hin; [by apply Hs|lia]. }
  destruct D. split; cbn; try done; eauto.
  - apply Hf.
  - lia.
  - intros lc Hlc. destruct (d_reading0 lc Hlc). split; [lia|done].
  - intros Hne. apply Hsc; [|by auto]. destruct (last_seq_elem (v_reading v) 0 Hne) as (x & Hx & <-).
    destruct (d_reading0 x Hx). lia.
  - lia.
  - intros He. eapply sound_mono; [done| |by auto]. intros seq row [?|?]%Hnew; eauto.
  - intros sc Hsc'. destruct (d_paging0 sc Hsc') as (H1 & H2 & H3 & H4). split_and!; try done.
    apply Hsc; [|done]. destruct (short sc) eqn:Hsh; [lia|].
    destruct sc as [|x sc]; [unfold last_seq; cbn; apply d_wf0|].
    destruct (last_seq_elem (x :: sc) 0) as (y & Hy & <-); [done|]. destruct (H3 y Hy). lia.
  - intros seq row Hbr [Hr|Hr]%Hnew Hfd Hin Hm; [by auto|lia].
  - intros seq row [Hr|Hr]%Hnew Hfd Hin Hp Hm; [by auto|lia].
Qed.

Lemma behind_le v p q : p ≤ q → behind v q → behind v p.
Proof.
  intros Hle (H1 & H2 & H3). split_and!; [lia| |].
  - intros seq row Hr Hs. specialize (H2 seq row Hr Hs). lia.
  - intros lc Hlc. specialize (H3 lc Hlc). lia.
Qed.
Lemma behind_live v : delivery v → behind v (v_liveRead v).
Proof. intros D. split_and!; [apply D|done|]. intros lc Hlc. apply (d_reading _ D lc Hlc). Qed.

Lemma vdelivery_chain v c resume :
  delivery v → resumes v resume → ch_Origin c ≤ resume → (v_exhausted v = false → ch_Origin c ≤ v_position v) →
  (∀ lc, lc ∈ v_owed v → ch_Origin c < lc_seq lc) → delivery (at_chain c v).
Proof.
  intros D Hres Hle Hpos Howed.
  assert (behind v resume) as Hb.
  { destruct Hres as [-> |[(lc & Hin & ->)|[_ ->]]]; [by apply behind_live| |apply D].
    eapply behind_le; [|by apply behind_live]. destruct (d_owed _ D lc) as ((_ & Hl) & _); [|done].
    unfold v_owed. apply elem_of_app. by left. }
  pose proof (behind_le _ _ _ Hle Hb) as Ho. pose proof (d_position _ D) as (Hp & _). destruct D. split; cbn; try done.
  intros He. apply sound_le. specialize (Hpos He). lia.
Qed.

(** The rows of a scan. *)
Lemma scanned_rows v from to_ lc :
  log_wf (v_log v) → lc ∈ map logged (take page_limit (rows_after from to_ (v_feed v) None (v_log v))) →
  from < lc_seq lc ∧ (∀ t, to_ = Some t → lc_seq lc ≤ t) ∧ from_feed v lc
  ∧ ∃ row, cl_changes (v_log v) !! lc_seq lc = Some row.
Proof.
  intros Hwf (x & -> & (k & Hx%list_elem_of_lookup_2 & _)%elem_of_take)%list_elem_of_fmap.
  apply elem_of_rows_after in Hx as (Hr & Hw & Hf & _). unfold within in Hw. apply andb_true_iff in Hw as [Hlt Hto].
  cbn. split_and!; [lia| | |by eexists].
  - intros t ->. lia.
  - split; [by eapply wf_changes|]. exists x.2. cbn. split; [by destruct x|done].
Qed.
Lemma scanned_sorted v from to_ :
  StronglySorted earlier (map logged (take page_limit (rows_after from to_ (v_feed v) None (v_log v)))).
Proof.
  apply earlier_rows. pose proof (rows_after_sorted from to_ (v_feed v) None (v_log v)) as H.
  rewrite <-(take_drop page_limit (rows_after _ _ _ _ _)) in H. by apply StronglySorted_app in H as (_ & H & _).
Qed.
Lemma scanned_all v from to_ (t : Z) :
  let rows := rows_after from to_ (v_feed v) None (v_log v) in
  let scanned := map logged (take page_limit rows) in
  (∀ b, to_ = Some b → t ≤ b) → (short scanned = true ∨ t ≤ last_seq scanned 0) → scanned ≠ [] ∨ short scanned = true →
  scans v from t scanned.
Proof.
  intros rows scanned Hto Hlast Hne seq row Hr Hf Hin.
  assert ((seq, row) ∈ rows) as Hrow.
  { apply elem_of_rows_after. cbn. split_and!; [done| |done|done]. unfold within. apply andb_true_iff. split; [lia|].
    destruct to_ as [b|]; [|done]. specialize (Hto b eq_refl). lia. }
  rewrite <-(take_drop page_limit rows) in Hrow. apply elem_of_app in Hrow as [Hrow|Hrow]; [by apply list_elem_of_fmap_2|].
  exfalso. destruct (short scanned) eqn:Hs.
  - unfold short, scanned in Hs. rewrite length_map, length_take in Hs. apply Nat.ltb_lt in Hs.
    rewrite drop_ge in Hrow by lia. by apply elem_of_nil in Hrow.
  - destruct Hlast as [?|Hlast]; [done|]. destruct Hne as [Hne|?]; [|done].
    destruct (last_seq_elem scanned 0 Hne) as (x & (y & -> & Hy)%list_elem_of_fmap & He). rewrite <-He in Hlast.
    pose proof (rows_after_sorted from to_ (v_feed v) None (v_log v) : StronglySorted before rows) as Hsort.
    rewrite <-(take_drop page_limit rows) in Hsort.
    pose proof (StronglySorted_app_1_elem_of _ _ _ _ _ Hsort Hy Hrow) as Hb. unfold before in Hb. cbn in *. lia.
Qed.

Lemma vdelivery_read v : delivery v →
  delivery (at_reading (map logged (take page_limit (rows_after (v_liveRead v) None (v_feed v) None (v_log v)))) v).
Proof.
  intros D. set (sc := map logged _).
  assert (∀ lc, lc ∈ sc → v_liveRead v < lc_seq lc ≤ cl_seq (v_log v) ∧ from_feed v lc ∧ ∃ row, cl_changes (v_log v) !! lc_seq lc = Some row) as Hsc.
  { intros lc (H1 & _ & H2 & row & H3)%scanned_rows; [|apply D]. split; [|split; [done|by eexists]]. pose proof (wf_changes _ (d_wf _ D) _ _ H3). lia. }
  assert (∀ p, behind v p → behind (at_reading sc v) p) as Hb.
  { intros p (H1 & H2 & _). split_and!; [done|done|]. intros lc Hlc. destruct (Hsc lc Hlc) as ([Hlt _] & _ & row & Hr). by eapply H2. }
  destruct D. split; cbn; try done; eauto.
  - apply scanned_sorted.
  - intros lc Hlc. by destruct (Hsc lc Hlc) as (? & ? & _).
  - intros Hne. apply (scanned_all v (v_liveRead v) None); [done|by right|by left].
Qed.

(** The batch is appended: what is ahead of the live side stays ahead. *)
Lemma advanced v : delivery v → let live := last_seq (v_reading v) (v_liveRead v) in
  v_liveRead v ≤ live ≤ cl_seq (v_log v) ∧ (∀ lc, lc ∈ v_reading v → lc_seq lc ≤ live)
  ∧ (v_reading v = [] → live = v_liveRead v) ∧ (v_reading v ≠ [] → live = last_seq (v_reading v) 0).
Proof.
  intros D live. pose proof (d_live _ D) as Hl. subst live. split_and!.
  - destruct (v_reading v) as [|x l] eqn:Hv; [unfold last_seq; cbn; lia|].
    destruct (last_seq_elem (x :: l) (v_liveRead v)) as (y & Hy & <-); [done|]. rewrite <-Hv in Hy. destruct (d_reading _ D y Hy). lia.
  - destruct (v_reading v) as [|x l] eqn:Hv; [unfold last_seq; cbn; lia|].
    destruct (last_seq_elem (x :: l) (v_liveRead v)) as (y & Hy & <-); [done|]. rewrite <-Hv in Hy. destruct (d_reading _ D y Hy). lia.
  - intros lc Hlc. apply earlier_last; [apply D|done].
  - by intros ->.
  - intros Hne. unfold last_seq. destruct (last (v_reading v)) eqn:Hla; [done|]. by apply last_None in Hla.
Qed.

Lemma vdelivery_append v admitted broken :
  delivery v → (∃ read rest, v_reading v = read ++ rest ∧ selects may read admitted) →
  (broken = false → selects may (v_reading v) admitted ∧ v_broken v = false) →
  delivery (at_broken broken (at_reading [] (at_queue (v_queue v ++ admitted) (at_liveRead (last_seq (v_reading v) (v_liveRead v)) v)))).
Proof.
  intros D (read & rest & Hread & Hsel) Hall. destruct (advanced v D) as ([Hge Hle] & Hlast & Hnil & Hcons).
  set (live := last_seq (v_reading v) (v_liveRead v)) in *.
  assert (∀ lc, lc ∈ admitted → v_liveRead v < lc_seq lc ≤ live ∧ lc ∈ v_reading v ∧ may lc true) as Hadm.
  { intros lc [Hin Hm]%(selects_admitted _ _ _ _ Hsel). assert (lc ∈ v_reading v) as Hr by (rewrite Hread; apply elem_of_app; by left).
    destruct (d_reading _ D lc Hr). specialize (Hlast lc Hr). split_and!; [lia..|done|done]. }
  assert (∀ p, behind v p → p ≤ cl_seq (v_log v) ∧ ∀ seq row, cl_changes (v_log v) !! seq = Some row → live < seq → p < seq) as Hb.
  { intros p (H1 & H2 & _). split; [done|]. intros seq row Hr Hlt. eapply H2; [done|lia]. }
  assert (∀ lc, lc ∈ v_held v ++ v_queue v ++ admitted → lc ∈ v_owed v ∨ lc ∈ admitted) as Howed.
  { intros lc [?|[?|?]%elem_of_app]%elem_of_app; unfold v_owed; rewrite ?elem_of_app; auto. }
  assert (∀ x y, x ∈ v_owed v → y ∈ admitted → earlier x y) as Hoa.
  { intros x y Hx Hy. destruct (d_owed _ D x Hx) as ([_ ?] & _), (Hadm y Hy) as ([? _] & _). unfold earlier. lia. }
  pose proof (d_position _ D) as (_ & _ & Hpr). pose proof (d_origin _ D) as (_ & _ & Hor).
  pose proof (d_owed_sorted _ D) as Hos. unfold v_owed in Hos.
  destruct D. split; unfold v_owed, v_stream; cbn; try done; eauto.
  - lia.
  - destruct (Hb _ d_position0). split_and!; [done|done|]. by intros lc ?%elem_of_nil.
  - constructor.
  - by intros lc ?%elem_of_nil.
  - rewrite app_assoc. apply earlier_app; [done| |done].
    eapply earlier_sublist; [by eapply selects_sublist|]. rewrite Hread in d_reading_sorted0. by apply StronglySorted_app in d_reading_sorted0 as (_ & ? & _).
  - intros lc [Hin|Hin]%Howed.
    + destruct (d_owed0 lc Hin) as (? & ? & ? & ?). split_and!; try done; lia.
    + destruct (Hadm lc Hin) as (? & Hr & ?). destruct (d_reading0 lc Hr). split_and!; try done; try lia. by apply Hpr.
  - destruct (Hb _ d_origin0). split_and!; [done|done|]. by intros lc ?%elem_of_nil.
  - intros lc [Hin|Hin]%Howed; [by apply d_origin_owed0|]. destruct (Hadm lc Hin) as (_ & Hr & _). by apply Hor.
  - intros lc Hin. destruct (d_notified0 lc Hin) as (? & ? & ? & ?). split_and!; try done; lia.
  - intros x y Hx [Hin|Hin]%Howed; [by apply d_notified_before0|].
    destruct (d_notified0 x Hx) as ((? & ?) & _), (Hadm y Hin) as ([? _] & _). unfold earlier. lia.
  - intros seq row -> Hr Hf Hin Hm. destruct (Hall eq_refl) as [Hs Hbr].
    destruct (decide (seq ≤ v_liveRead v)) as [Hlv|Hlv].
    + assert (logged (seq, row) ∈ v_notified v ++ v_owed v) as Hc by (apply d_cover0; [done|done|done|lia|done]).
      unfold v_owed in Hc. clear -Hc. set_solver.
    + destruct (decide (v_reading v = [])) as [Hn|Hn]; [specialize (Hnil Hn); lia|].
      assert (logged (seq, row) ∈ v_reading v) as Hrd by (apply d_reading_all0; [done|done|done|rewrite <-(Hcons Hn); lia]).
      assert (logged (seq, row) ∈ admitted) as Ha by (by eapply selects_all). clear -Ha. set_solver.
Qed.

Lemma vdelivery_broken v : delivery v → delivery (at_broken true v).
Proof. intros D. destruct D. split; cbn; done. Qed.

Lemma vdelivery_drop v : delivery v → delivery (at_broken true (at_reading [] v)).
Proof.
  intros D. assert (∀ p, behind v p → behind (at_broken true (at_reading [] v)) p) as Hb.
  { intros p (H1 & H2 & _). split_and!; [done|done|]. by intros lc ?%elem_of_nil. }
  destruct D. split; cbn; try done; eauto; [constructor|]. by intros lc ?%elem_of_nil.
Qed.

Lemma vdelivery_take v lc queue :
  delivery v → v_queue v = lc :: queue → v_held v = [] → v_exhausted v = true →
  delivery (at_held [lc] (at_queue queue (at_delivering (lc_seq lc) v))).
Proof.
  intros D Hq Hh He. assert (v_owed v = [lc] ++ queue) as Ho by (unfold v_owed; by rewrite Hq, Hh).
  pose proof (d_owed _ D lc) as Hlc. pose proof (d_boundary _ D). pose proof (d_live _ D).
  destruct D. split; unfold v_owed, v_stream in *; cbn in *; try done; try (rewrite Ho in *; done).
  - right. eauto.
  - destruct Hlc as ([? ?] & _); [rewrite Ho; by left|]. lia.
Qed.

Lemma vdelivery_notify v lc :
  delivery v → v_held v = [lc] → delivery (at_held [] (at_notified (v_notified v ++ [lc]) v)).
Proof.
  intros D Hh. assert (v_owed v = lc :: v_queue v) as Ho by (unfold v_owed; by rewrite Hh).
  assert (lc ∈ v_owed v) as Hin by (rewrite Ho; by left).
  destruct (d_owed _ D lc Hin) as (Hb & Hp & Hf & Hm).
  assert (v_exhausted v = true) as He by (apply (d_held_after _ D); by rewrite Hh).
  pose proof (d_owed_sorted _ D) as Hos. rewrite Ho in Hos. apply StronglySorted_inv in Hos as [Hqs Hlq]. rewrite Forall_forall in Hlq.
  assert (∀ y, y ∈ v_queue v → y ∈ v_owed v) as Hq by (intros y Hy; rewrite Ho; by right).
  assert (∀ x, x ∈ v_notified v ++ [lc] → x ∈ v_notified v ∨ x = lc) as Hn.
  { intros x [?|?%list_elem_of_singleton]%elem_of_app; auto. }
  destruct D. split; unfold v_owed, v_stream in *; cbn in *; try done; eauto.
  - rewrite app_assoc. apply earlier_app; [done|by repeat constructor|].
    intros x y Hx ->%list_elem_of_singleton. apply elem_of_app in Hx as [Hx|Hx]; [|by apply d_notified_before0].
    destruct (d_paged0 x Hx) as (_ & ? & _). unfold earlier. lia.
  - by intros x [Hx| ->]%Hn; [apply d_notified0|].
  - intros x y [Hx| ->]%Hn Hy; [|by apply Hlq]. apply d_notified_before0; [done|by apply Hq].
  - intros seq row Hbr Hr Hfd Hrange Hnm. specialize (d_cover0 seq row Hbr Hr Hfd Hrange Hnm). rewrite Ho in d_cover0. set_solver.
Qed.

Lemma vdelivery_lose v : delivery v → delivery (at_broken true (at_held [] v)).
Proof.
  intros D. pose proof (d_owed_sorted _ D) as Hos. apply StronglySorted_app in Hos as (_ & _ & Hos).
  assert (∀ y, y ∈ v_queue v → y ∈ v_owed v) as Hq by (intros y Hy; apply elem_of_app; by right).
  destruct D. split; unfold v_owed, v_stream in *; cbn in *; try done; eauto.
Qed.

Lemma vdelivery_clear v : delivery v → v_held v = [] → delivery (at_delivering 0 v).
Proof.
  intros D Hh. pose proof (wf_seq _ (d_wf _ D)). destruct D. split; cbn; try done. by left.
Qed.

Lemma vdelivery_unscan v : delivery v → delivery (at_paging None v).
Proof. intros D. destruct D. split; cbn; try done. Qed.

Lemma vdelivery_scan v :
  delivery v → v_exhausted v = false →
  delivery (at_paging (Some (map logged (take page_limit (rows_after (v_position v) (Some (v_boundary v)) (v_feed v) None (v_log v))))) v).
Proof.
  intros D He. destruct D. split; cbn; try done. intros sc [= <-]. split_and!; [done|apply scanned_sorted| |].
  - intros lc (H1 & H2 & H3 & _)%scanned_rows; [|done]. split; [|done]. split; [done|by apply H2].
  - set (rows := map logged _). apply (scanned_all v (v_position v) (Some (v_boundary v))); fold rows.
    + intros b [= <-]. destruct (short rows) eqn:Hs; [done|].
      destruct (decide (rows = [])) as [Hn|Hn]; [rewrite Hn; unfold last_seq; cbn; done|].
      destruct (last_seq_elem rows 0 Hn) as (x & (_ & Hx & _)%scanned_rows & <-); [|done]. by apply Hx.
    + destruct (short rows); [by left|right; lia].
    + destruct (short rows) eqn:Hs; [by right|left]. intros Hn. by rewrite Hn, short_nil in Hs.
Qed.

Lemma vdelivery_page v scanned admitted :
  delivery v → v_paging v = Some scanned → selects may scanned admitted →
  delivery (at_paged (v_paged v ++ admitted)
    (at_exhausted (short scanned) (at_outstanding (v_outstanding v - Z.of_nat (length scanned))
      (at_paging None (at_position (last_seq scanned (v_position v)) v))))).
Proof.
  intros D Hpg Hsel. destruct (d_paging _ D _ Hpg) as (He & Hsort & Hrange & Hscan).
  assert (v_notified v = []) as Hn.
  { destruct (v_notified v) eqn:Hv; [done|]. assert (v_exhausted v = true) by (apply (d_notified_after _ D); by rewrite Hv). congruence. }
  assert (v_held v = []) as Hh.
  { destruct (v_held v) eqn:Hv; [done|]. assert (v_exhausted v = true) by (apply (d_held_after _ D); by rewrite Hv). congruence. }
  set (p := last_seq scanned (v_position v)).
  assert ((scanned = [] ∧ p = v_position v) ∨ (scanned ≠ [] ∧ p = last_seq scanned 0 ∧ v_position v < p ≤ v_boundary v)) as Hp.
  { destruct (decide (scanned = [])) as [->|Hne]; [by left|right]. destruct (last_seq_elem scanned (v_position v) Hne) as (x & Hx & Hl).
    fold p in Hl. destruct (Hrange x Hx). split_and!; [done|by apply last_seq_default|lia..]. }
  assert (behind v p) as Hbp.
  { destruct Hp as [[_ ->]|(_ & _ & Hp)]; [apply D|]. eapply behind_le; [|by apply behind_live]. pose proof (d_live _ D). lia. }
  assert (∀ lc, lc ∈ scanned → v_position v < lc_seq lc ≤ p) as Hin.
  { intros lc Hlc. split; [by apply Hrange|]. by apply earlier_last. }
  assert (v_position v ≤ p) as Hpp by (destruct Hp as [[_ ->]|(_ & _ & ?)]; lia).
  assert (∀ lc, lc ∈ v_paged v ++ admitted → lc ∈ v_paged v ∨ lc ∈ scanned ∧ may lc true) as Hadm.
  { intros lc [?|Ha]%elem_of_app; [by left|right]. by eapply selects_admitted. }
  assert (∀ lc, lc ∈ v_owed v → p < lc_seq lc) as Howed.
  { intros lc Hlc. destruct (d_owed _ D lc Hlc) as (? & ? & _). destruct Hp as [[_ ->]|(_ & _ & ?)]; lia. }
  pose proof (d_stream_sorted _ D) as Hss. unfold v_stream in Hss. rewrite Hn, app_nil_r in Hss.
  destruct D. split; unfold v_owed, v_stream in *; cbn in *; rewrite ?Hn, ?Hh in *; try done; eauto.
  - lia.
  - intros lc Hlc. destruct (d_owed0 lc Hlc) as (? & _ & ?). split; [done|]. split; [by apply Howed|done].
  - intros _. eapply sound_after; [by apply d_origin_position0|]. split; [done|]. apply Hbp.
  - rewrite app_nil_r. apply earlier_app; [done| |].
    + eapply earlier_sublist; [by eapply selects_sublist|done].
    + intros x y Hx Hy. apply (selects_admitted _ _ _ _ Hsel) in Hy as [Hy _]. destruct (d_paged0 x Hx) as ((_ & ?) & _), (Hin y Hy). unfold earlier. lia.
  - intros lc [Hlc|[Hlc Hm]]%Hadm.
    + destruct (d_paged0 lc Hlc) as (? & ? & ? & ?). split_and!; try done; lia.
    + destruct (Hrange lc Hlc), (Hin lc Hlc). split_and!; try done; lia.
  - by intros lc ?%elem_of_nil.
  - intros seq row Hr Hf Hseq Hdone Hnm. apply elem_of_app.
    destruct (decide (seq ≤ v_position v)); [left; apply d_replayed0; auto|right].
    eapply selects_all; [done| |done]. apply Hscan; [done|done|]. destruct (short scanned) eqn:Hs; [lia|].
    destruct Hdone as [?|Hdone]; [done|]. destruct Hp as [[Hnil _]|(_ & Hlast & _)]; [by rewrite Hnil, short_nil in Hs|].
    rewrite <-Hlast. lia.
Qed.

(** The machine keeps its invariant. *)
Lemma vdelivery_step v v' : delivery v → vstep may v v' → delivery v'.
Proof.
  intros D Hs. destruct Hs as [l H|c resume H1 H2 H3 H4| |admitted H|read admitted rest H1 H2| |lc queue H1 H2 H3|lc H| |H| |H1 H2| |scanned admitted H1 H2].
  - by apply vdelivery_log.
  - by eapply vdelivery_chain.
  - by apply vdelivery_read.
  - pose proof (vdelivery_append v admitted (v_broken v) D) as Ha. destruct v. apply Ha; [|by intros ->].
    eexists _, []. by rewrite app_nil_r.
  - apply vdelivery_append; [done| |done]. eauto.
  - by apply vdelivery_drop.
  - by apply vdelivery_take.
  - by apply vdelivery_notify.
  - by apply vdelivery_lose.
  - by apply vdelivery_clear.
  - by apply vdelivery_broken.
  - by apply vdelivery_scan.
  - by apply vdelivery_unscan.
  - by apply vdelivery_page.
Qed.
End Delivery.

(** * The replay of a subscription

    The pages of the replay are the changes of the feed that the log held when
    the subscription was opened: none is passed over because it was pruned
    meanwhile, since each page counts what is left of them. *)


(** The changes after a position, and those up to it. *)
Definition ahead (p : Z) (rows : list (Z * log_row)) : list (Z * log_row) := List.filter (λ x, p <? x.1) rows.
Definition upto (p : Z) (rows : list (Z * log_row)) : list (Z * log_row) := List.filter (λ x, x.1 <=? p) rows.

Lemma elem_of_ahead p rows x : x ∈ ahead p rows ↔ x ∈ rows ∧ p < x.1.
Proof. unfold ahead. by rewrite list_elem_of_In, filter_In, <-list_elem_of_In, Z.ltb_lt. Qed.
Lemma filter_all {A} (f : A → bool) l : (∀ x, x ∈ l → f x = true) → List.filter f l = l.
Proof.
  induction l as [|x l IH]; intros H; cbn; [done|]. rewrite (H x) by by left. f_equal. apply IH. intros y Hy. apply H. by right.
Qed.
Lemma filter_none {A} (f : A → bool) l : (∀ x, x ∈ l → f x = false) → List.filter f l = [].
Proof.
  induction l as [|x l IH]; intros H; cbn; [done|]. rewrite (H x) by by left. apply IH. intros y Hy. apply H. by right.
Qed.
Lemma sorted_split p rows : StronglySorted before rows → rows = upto p rows ++ ahead p rows.
Proof.
  induction 1 as [|x l Hs IH Hx]; cbn; [done|]. rewrite Forall_forall in Hx.
  destruct (Z.leb_spec x.1 p) as [Hle|Hgt].
  - destruct (Z.ltb_spec p x.1); [lia|]. cbn. f_equal. exact IH.
  - destruct (Z.ltb_spec p x.1); [|lia]. cbn. unfold upto. rewrite filter_none; cbn.
    + unfold ahead. rewrite filter_all; [done|]. intros y Hy. specialize (Hx y Hy). unfold before in Hx. lia.
    + intros y Hy. specialize (Hx y Hy). unfold before in Hx. lia.
Qed.

(** A prefix of what is ahead is passed. *)
Lemma ahead_pass p rows a b :
  StronglySorted before rows → ahead p rows = a ++ b → a ≠ [] →
  let q := last_seq (map logged a) p in ahead q rows = b ∧ upto q rows = upto p rows ++ a.
Proof.
  intros Hs Hab Hne q. pose proof (sorted_split p rows Hs) as Hsp. rewrite Hab in Hsp.
  assert (∀ x, x ∈ a → x.1 ≤ q) as Ha.
  { intros x Hx. pose proof Hs as Hs'. rewrite Hsp in Hs'. apply StronglySorted_app in Hs' as (_ & _ & Hs').
    apply StronglySorted_app in Hs' as (_ & Hs' & _). apply (earlier_last (map logged a) p (logged x)); [by apply earlier_rows|by apply list_elem_of_fmap_2]. }
  assert (∃ x, x ∈ a ∧ x.1 = q) as (z & Hz & Hzq).
  { destruct (last_seq_elem (map logged a) p) as (y & (x & -> & Hx)%list_elem_of_fmap & Hy); [by destruct a|]. by exists x. }
  assert (∀ x, x ∈ b → q < x.1) as Hb.
  { intros x Hx. pose proof Hs as Hs'. rewrite Hsp in Hs'. apply StronglySorted_app in Hs' as (_ & _ & Hs').
    rewrite <-Hzq. apply (StronglySorted_app_1_elem_of _ _ _ _ _ Hs' Hz Hx). }
  assert (∀ x, x ∈ upto p rows → x.1 ≤ q) as Hu.
  { intros x Hx. unfold upto in Hx. apply list_elem_of_In, filter_In in Hx as [_ Hx].
    assert (z ∈ ahead p rows) as Hza by (rewrite Hab; apply elem_of_app; by left). apply elem_of_ahead in Hza as [_ ?]. lia. }
  split.
  - unfold ahead. rewrite Hsp at 1. rewrite !List.filter_app, !(filter_none _ a), !(filter_none _ (upto p rows)), (filter_all _ b); [done|..].
    + intros x Hx. specialize (Hb x Hx). lia.
    + intros x Hx. specialize (Hu x Hx). lia.
    + intros x Hx. specialize (Ha x Hx). lia.
  - unfold upto at 1. rewrite Hsp at 1. rewrite !List.filter_app, (filter_all _ a), (filter_all _ (upto p rows)), (filter_none _ b); [by rewrite app_nil_r|..].
    + intros x Hx. specialize (Hb x Hx). lia.
    + intros x Hx. specialize (Hu x Hx). lia.
    + intros x Hx. specialize (Ha x Hx). lia.
Qed.

Section Replay.
(** [rows]: the changes of the feed when the subscription was opened, after
    its cursor and up to its boundary. *)
Context (may : loggedChange → bool → Prop) (rows : list (Z * log_row)).
Hypothesis rows_sorted : StronglySorted before rows.

Record replays (v : view) : Prop := {
  r_bound x : x ∈ rows → x.1 ≤ v_boundary v;
  r_rows seq row : cl_changes (v_log v) !! seq = Some row → in_feed (v_feed v) row = true →
    v_position v < seq ≤ v_boundary v → (seq, row) ∈ rows;
  r_outstanding : v_exhausted v = false → v_outstanding v = Z.of_nat (length (ahead (v_position v) rows));
  r_paging scanned : v_paging v = Some scanned → scanned = map logged (take page_limit (ahead (v_position v) rows));
  r_paged : selects may (map logged (upto (v_position v) rows)) (v_paged v);
  r_exhausted : v_exhausted v = true → ahead (v_position v) rows = [] }.

Lemma replays_log v l : delivery may v → replays v → fair (v_log v) l → replays (at_log l v).
Proof.
  intros D R Hf. pose proof (d_live _ _ D). destruct R. split; cbn; try done.
  intros seq row [Hr|Hr]%(fa_new _ _ Hf) Hfd Hin; [by eapply r_rows0|lia].
Qed.

Lemma replays_scan v : delivery may v → replays v → v_exhausted v = false →
  (v_position v < v_boundary v → v_outstanding v ≠ 0 →
     Z.of_nat (length (rows_after (v_position v) (Some (v_boundary v)) (v_feed v) None (v_log v))) = v_outstanding v) →
  rows_after (v_position v) (Some (v_boundary v)) (v_feed v) None (v_log v) = ahead (v_position v) rows.
Proof.
  intros D R He Hcount. set (found := rows_after _ _ _ _ _) in *.
  assert (∀ x, x ∈ found → x ∈ ahead (v_position v) rows) as Hsub.
  { intros x (Hr & Hw & Hfd & _)%elem_of_rows_after. unfold within in Hw. apply andb_true_iff in Hw as [H1 H2].
    apply elem_of_ahead. split; [|lia]. destruct x as [seq row]. apply (r_rows _ R); [done|done|cbn in *; lia]. }
  assert (ahead (v_position v) rows = [] → found = ahead (v_position v) rows) as Hempty.
  { intros Hn. rewrite Hn in *. destruct found as [|x f]; [done|]. by specialize (Hsub x ltac:(by left)) as ?%elem_of_nil. }
  destruct (decide (v_position v < v_boundary v)) as [Hlt|Hge].
  - destruct (decide (v_outstanding v = 0)) as [H0|H0].
    + apply Hempty. rewrite (r_outstanding _ R He) in H0. by destruct (ahead _ rows).
    + specialize (Hcount Hlt H0). rewrite (r_outstanding _ R He) in Hcount. apply before_eq; [apply rows_after_sorted| |done|lia].
      pose proof rows_sorted as Hs. rewrite (sorted_split (v_position v) rows Hs) in Hs. by apply StronglySorted_app in Hs as (_ & _ & ?).
  - apply Hempty. apply filter_none. intros x Hx. pose proof (r_bound _ R x Hx). lia.
Qed.

Lemma replays_page v scanned admitted :
  replays v → v_paging v = Some scanned → selects may scanned admitted → v_exhausted v = false →
  replays (at_paged (v_paged v ++ admitted)
    (at_exhausted (length scanned <? page_limit)%nat (at_outstanding (v_outstanding v - Z.of_nat (length scanned))
      (at_paging None (at_position (last_seq scanned (v_position v)) v))))).
Proof.
  intros R Hpg Hsel He. pose proof (r_paging _ R _ Hpg) as Hsc.
  set (a := take page_limit (ahead (v_position v) rows)) in *. set (b := drop page_limit (ahead (v_position v) rows)).
  assert (ahead (v_position v) rows = a ++ b) as Hab by (symmetry; apply take_drop).
  set (q := last_seq scanned (v_position v)).
  assert (ahead q rows = b ∧ upto q rows = upto (v_position v) rows ++ a ∧ v_position v ≤ q) as (Ha & Hu & Hq).
  { destruct (decide (a = [])) as [Hn|Hne].
    - assert (q = v_position v) as -> by (unfold q; by rewrite Hsc, Hn). rewrite Hn, app_nil_r, Hab, Hn. done.
    - destruct (ahead_pass _ _ _ _ rows_sorted Hab Hne) as [H1 H2]. unfold q. rewrite Hsc. split_and!; [done..|].
      destruct (last_seq_elem (map logged a) (v_position v)) as (y & (x & -> & Hx)%list_elem_of_fmap & <-); [by destruct a|].
      assert (x ∈ ahead (v_position v) rows) as Hx' by (rewrite Hab; apply elem_of_app; by left). apply elem_of_ahead in Hx' as [_ ?]. cbn. lia. }
  destruct R. split; cbn.
  - done.
  - intros seq row Hr Hf Hin. apply r_rows0; [done|done|lia].
  - intros _. rewrite Ha, r_outstanding0, Hab, length_app, Hsc, length_map by done. lia.
  - done.
  - rewrite Hu, map_app. apply selects_app; [done|by rewrite <-Hsc].
  - intros Hshort. rewrite Ha. apply drop_ge. apply Nat.ltb_lt in Hshort. rewrite Hsc, length_map in Hshort. unfold a in Hshort.
    rewrite length_take in Hshort. lia.
Qed.

Lemma replays_step v v' : delivery may v → replays v → vstep may v v' → replays v'.
Proof.
  intros D R Hs. destruct Hs as [l H|c resume H1 H2 H3 H4| |admitted H|read admitted rest H1 H2| |lc queue H1 H2 H3|lc H| |H| |H1 H2| |scanned admitted H1 H2].
  1: by apply replays_log.
  11: { pose proof (replays_scan v D R H1 H2) as Hrows. destruct R. split; cbn; try done. intros sc [= <-]. by rewrite Hrows. }
  12: { apply replays_page; [done..|]. by destruct (d_paging _ _ D _ H1). }
  all: destruct R; split; cbn; done.
Qed.
End Replay.
