(* ===== verification/ListenRefines.v ===== *)
(** * The goroutines of a subscription refine the delivery machine

    Each step of a session and of what surrounds it is a few moves of the
    machine on its view, given the facts of [placed] about the places the
    goroutines are at. *)
From Stdlib Require Import ZArith Lia Ascii String.
From stdpp Require Import base gmap strings list sorting relations.
From S2P Require Import Prelude GoStrings AuthIdentity SchemaIdent Schema SchemaConstraints Authz GoNumbers Changelog.
From S2P Require Import ChangelogFacts ChangelogTheorems Listen ListenTx ListenFlags ListenTrace.
From S2P Require Import ListenMachine ListenDelivery.
Local Open Scope Z_scope.

(** ** The view of a world *)

Definition opened_at (tr : list event) : Z := match tr with EOpened p _ :: _ => p | _ => 0 end.
Definition event_paged (e : event) : list loggedChange := match e with EPaged changes _ _ _ _ => changes | _ => [] end.
Definition event_notified (e : event) : list loggedChange := match e with ENotified lc _ => [lc] | _ => [] end.
Definition paged_of (tr : list event) : list loggedChange := concat (map event_paged tr).
Definition notified_of (tr : list event) : list loggedChange := concat (map event_notified tr).

Definition held_by (p : drain_pc) : list loggedChange := match p with DMint lc | DNotify lc _ => [lc] | _ => [] end.
Definition read_by (p : fill_pc) : list loggedChange :=
  match p with FAdmit sc _ | FRevoked sc _ _ | FAppend sc _ _ => sc | _ => [] end.
Definition paging_by (p : next_pc) : option (list loggedChange) :=
  match p with NAdmit _ sc | NMint _ sc _ => Some sc | NClear _ r | NFinish _ r => pa_scanned r | _ => None end.
Definition drain_failing (p : drain_pc) : bool :=
  match p with DClear _ | DEnding _ | DEndYield _ => true | _ => false end.
Definition fill_failing (p : fill_pc) : bool := match p with FEnd _ => true | _ => false end.
(** The session has lost a change, or is about to end. *)
Definition broken_by (s : listenSession) (fp : fill_pc) (dp : drain_pc) : bool :=
  ls_dead s || is_some (ls_pendingDrainClose s) || drain_failing dp || fill_failing fp.

Definition look (tr : list event) (s : listenSession) (l : changelog) (fp : fill_pc) (dp : drain_pc) (np : next_pc) : view :=
  MkView l (ls_feed s) (opened_at tr) (ls_boundary s) (ls_position s) (ls_replayExhausted s) (ls_outstanding s) (paging_by np)
    (ls_chain s) (ls_liveRead s) (read_by fp) (ls_queue s) (held_by dp) (ls_deliveringSeq s) (broken_by s fp dp)
    (paged_of tr) (notified_of tr).
Definition view_of (w : world) : view := look (w_trace w) (w_session w) (w_log w) (w_fill w) (w_drain w) (w_next w).

Lemma paged_app tr evs : paged_of (tr ++ evs) = paged_of tr ++ paged_of evs.
Proof. unfold paged_of. by rewrite map_app, concat_app. Qed.
Lemma notified_app tr evs : notified_of (tr ++ evs) = notified_of tr ++ notified_of evs.
Proof. unfold notified_of. by rewrite map_app, concat_app. Qed.
Lemma opened_app tr evs : tr ≠ [] → opened_at (tr ++ evs) = opened_at tr.
Proof. by destruct tr as [|[] tr]. Qed.

Section Refines.
Context (faults : nat → bool) (clock : nat → Z) (rand : nat → option (list Z)) (sub : subscription) (policy : answer → Prop).
Hypothesis rand_length : ∀ k raw, rand k = Some raw → length raw = cursorTokenBytes.

(** What a permitted answer may decide on a change. *)
Definition may_admit (lc : loggedChange) (b : bool) : Prop := ∃ a, policy a ∧ admit_to sub a (lc_rec lc) = Admits b.

Lemma admit_all_selects o i scanned admitted st :
  permits policy o → admit_all sub (sn_authz o) i scanned = (admitted, st) →
  ∃ read rest, scanned = read ++ rest ∧ selects may_admit read admitted ∧ (st = Ran → rest = []).
Proof.
  intros Hp. revert i admitted st. induction scanned as [|lc scanned IH]; intros i admitted st; cbn.
  - intros [= <- <-]. exists [], []. split_and!; [done|constructor|done].
  - destruct (admit_to sub _ _) as [vis|c|] eqn:Ha.
    + destruct (admit_all sub _ _ scanned) as [ad st'] eqn:Hrec. intros [= <- <-].
      apply IH in Hrec as (read & rest & -> & Hsel & Hr). exists (lc :: read), rest. split_and!; [done| |done].
      destruct vis; constructor; try done; by eexists.
    + intros [= <- <-]. exists [], (lc :: scanned). split_and!; [done|constructor|done].
    + intros [= <- <-]. exists [], (lc :: scanned). split_and!; [done|constructor|done].
Qed.

(** ** Where the goroutines are *)

Definition protects (g : protect_pc) (l : changelog) : Prop := match g with GTx floor => floor ≤ cl_seq l | _ => True end.
Definition fill_placed (p : fill_pc) (l : changelog) : Prop :=
  match p with
  | FProtect g _ => protects g l
  | FRevoked sc ad _ => ∃ read rest, sc = read ++ rest ∧ selects may_admit read ad
  | FAppend sc ad _ => selects may_admit sc ad
  | _ => True
  end.
Definition poll_placed (p : poll_pc) (l : changelog) : Prop := match p with PProtect g => protects g l | _ => True end.
Definition drain_placed (p : drain_pc) : Prop := match p with DNotify lc rec => record_of rand lc rec | _ => True end.

(** A page that is handed out: what it scanned and admitted, and how far it
    got. *)
Definition page_placed (s : listenSession) (r : paged) : Prop :=
  match pa_scanned r with
  | Some sc =>
      ls_replayExhausted s = false ∧ selects may_admit sc (pa_changes r) ∧ Forall2 (record_of rand) (pa_changes r) (pa_records r)
      ∧ pa_err r = None ∧ (pa_done r = true → short sc = true) ∧ pg_next (pa_progress r) ≠ ""
      ∧ pa_progress r = MkProgress (short sc) (scanned_last sc) (pg_next (pa_progress r)) (Z.of_nat (length sc))
  | None =>
      pa_changes r = [] ∧ pa_records r = [] ∧ pg_next (pa_progress r) = ""
      ∧ (pa_done r = true → pa_err r = None → ls_replayExhausted s = true)
  end.
Definition next_placed (s : listenSession) (p : next_pc) : Prop :=
  match p with
  | NRead _ | NAdmit _ _ => ls_replayExhausted s = false
  | NMint _ sc ad => ls_replayExhausted s = false ∧ selects may_admit sc ad
  | NClear _ r | NFinish _ r => page_placed s r
  | _ => True
  end.

(** What was shown so far: the records of changes, and an end of the replay
    that is one. *)
Definition reported (s : listenSession) (e : event) : Prop :=
  match e with
  | EPaged changes records _ done err =>
      Forall2 (record_of rand) changes records ∧ (done = true → err = None → ls_replayExhausted s = true)
  | ENotified lc rec => record_of rand lc rec
  | _ => True
  end.

(** A session before it is opened. *)
Definition unopened (s : listenSession) : Prop :=
  ls_feed s = None ∧ ls_queue s = [] ∧ ls_deliveringSeq s = 0 ∧ ls_replayExhausted s = false ∧ ls_replayDone s = false
  ∧ ls_outstanding s = 0 ∧ ls_pendingDrainClose s = None.

Record placed (w : world) : Prop := {
  pl_unopened : ls_pumpsLaunched (w_session w) = false → unopened (w_session w);
  pl_trace : ls_pumpsLaunched (w_session w) = true → w_trace w ≠ [];
  pl_done : ls_replayDone (w_session w) = true → ls_replayExhausted (w_session w) = true ∨ ls_dead (w_session w) = true;
  pl_fill : fill_placed (w_fill w) (w_log w);
  pl_poll : poll_placed (w_poll w) (w_log w);
  pl_drain : drain_placed (w_drain w);
  pl_next : next_placed (w_session w) (w_next w);
  pl_reported : Forall (reported (w_session w)) (w_trace w) }.

(** The whole invariant. *)
Record keeps (w : world) : Prop := {
  kp_flags : flags w;
  kp_placed : placed w;
  kp_log : log_wf (w_log w);
  kp_delivery : ls_pumpsLaunched (w_session w) = true → delivery may_admit (view_of w) }.

(** What a step does: it goes from the view before to the view after, and is
    fair to the other readers of the log. *)
Record refines (w w' : world) : Prop := {
  rf_placed : placed w';
  rf_fair : fair (w_log w) (w_log w');
  rf_view : rtc (vstep may_admit) (view_of w) (view_of w') }.

(** ** Steps of the machine *)

Lemma vsteps_broken v b : (v_broken v = true → b = true) → rtc (vstep may_admit) v (at_broken b v).
Proof.
  intros Hb. destruct b; [apply rtc_once, vs_break|]. assert (at_broken false v = v) as ->; [|done].
  destruct v as [? ? ? ? ? ? ? ? ? ? ? ? ? ? br ? ?]. cbn in *. by destruct br; [specialize (Hb eq_refl)|].
Qed.
Lemma vsteps_to v v1 v2 b : rtc (vstep may_admit) v v1 → v2 = at_broken b v1 → (v_broken v1 = true → b = true) →
  rtc (vstep may_admit) v v2.
Proof. intros H1 -> Hb. etrans; [done|by apply vsteps_broken]. Qed.

(** A transaction: the session's chain may be new, and the log takes a step. *)
Lemma vsteps_tx v c l resume :
  resumes v resume → (c = v_chain v ∨ ch_Origin c ≤ resume ∧ (v_exhausted v = false → ch_Origin c ≤ v_position v)
    ∧ ∀ lc, lc ∈ v_owed v → ch_Origin c < lc_seq lc) →
  fair (v_log v) l → rtc (vstep may_admit) v (at_log l (at_chain c v)).
Proof.
  intros Hr Hc Hl. assert (rtc (vstep may_admit) v (at_chain c v)) as H1.
  { destruct Hc as [->|(H1 & H2 & H3)]; [by destruct v|]. by eapply rtc_once, vs_chain. }
  etrans; [exact H1|]. by apply rtc_once, vs_log.
Qed.

(** Where a chain made now starts. *)
Lemma chain_origin_ok tr s l fp dp np resume :
  delivery may_admit (look tr s l fp dp np) →
  chain_origin resume s ≤ resume ∧ (ls_replayExhausted s = false → chain_origin resume s ≤ ls_position s)
  ∧ ∀ lc, lc ∈ held_by dp ++ ls_queue s → chain_origin resume s < lc_seq lc.
Proof.
  intros D. unfold chain_origin. set (o1 := if negb _ && _ then _ else _).
  assert (o1 ≤ resume ∧ (ls_replayExhausted s = false → o1 ≤ ls_position s)) as [H1 H2].
  { unfold o1. destruct (ls_replayExhausted s); cbn; [split; [lia|done]|]. destruct (Z.ltb_spec (ls_position s) resume); lia. }
  assert (∀ lc, lc ∈ held_by dp ++ ls_queue s → 0 < lowestOwedLocked s ≤ lc_seq lc) as Hfloor.
  { intros lc Hlc. pose proof (d_owed _ _ D) as Ho. unfold v_owed in Ho. cbn in Ho. pose proof (d_boundary _ _ D) as Hb. cbn in Hb.
    pose proof (d_delivering _ _ D) as Hd. cbn in Hd. pose proof (d_owed_sorted _ _ D) as Hs. unfold v_owed in Hs. cbn in Hs.
    pose proof (d_held _ _ D) as Hh. cbn in Hh. unfold lowestOwedLocked.
    apply StronglySorted_app in Hs as (_ & _ & Hqs).
    apply elem_of_app in Hlc as [Hlc|Hlc].
    - destruct Hh as [Hh|(x & Hh & Hdel)]; [rewrite Hh in Hlc; by apply elem_of_nil in Hlc|].
      assert (lc = x) as -> by (rewrite Hh in Hlc; by apply list_elem_of_singleton in Hlc).
      assert (x ∈ held_by dp ++ ls_queue s) as Hx by (rewrite Hh; by left). destruct (Ho x Hx) as ([? _] & _).
      destruct (ls_queue s) as [|y q] eqn:Hq; [lia|]. assert (y ∈ held_by dp ++ y :: q) as Hy by (apply elem_of_app; right; by left).
      destruct (Ho y Hy) as ([? _] & _). destruct (Z.eqb_spec (ls_deliveringSeq s) 0); cbn; [lia|].
      destruct (Z.ltb_spec (lc_seq y) (ls_deliveringSeq s)); lia.
    - destruct (ls_queue s) as [|y q] eqn:Hq; [by apply elem_of_nil in Hlc|].
      assert (y ∈ held_by dp ++ y :: q) as Hy by (apply elem_of_app; right; by left). destruct (Ho y Hy) as ([? _] & _).
      assert (lc_seq y ≤ lc_seq lc) as Hle.
      { apply StronglySorted_inv in Hqs as [_ Hqs]. rewrite Forall_forall in Hqs. apply elem_of_cons in Hlc as [->|Hlc]; [lia|].
        specialize (Hqs lc Hlc). unfold earlier in Hqs. lia. }
      destruct (Z.eqb_spec (ls_deliveringSeq s) 0); cbn; [lia|]. destruct (Z.ltb_spec (lc_seq y) (ls_deliveringSeq s)); lia. }
  destruct (Z.ltb_spec 0 (lowestOwedLocked s)) as [Hpos|Hneg]; cbn.
  - destruct (Z.ltb_spec (lowestOwedLocked s - 1) o1); (split_and!; [lia|intros He; specialize (H2 He); lia|]);
      intros lc Hlc; specialize (Hfloor lc Hlc); lia.
  - split_and!; [done..|]. intros lc Hlc. specialize (Hfloor lc Hlc). lia.
Qed.

(** What a session mints is sound, and its chain too. *)
Lemma may_mint_ok tr s l fp dp np resume :
  delivery may_admit (look tr s l fp dp np) → resumes (look tr s l fp dp np) resume → may_mint resume s l.
Proof.
  intros D Hres c Hc. destruct (chain_origin_ok _ _ _ _ _ _ resume D) as (H1 & H2 & H3).
  pose proof (d_live _ _ D) as Hl. pose proof (d_position _ _ D) as (Hp & _). pose proof (d_origin _ _ D) as (Ho & Hrows & _).
  pose proof (d_owed _ _ D) as Howed. pose proof (d_origin_owed _ _ D) as Hoo. unfold v_owed in *. cbn in *.
  destruct Hc as [->|Hc].
  - destruct Hres as [->|[(lc & Hlc & ->)|[He ->]]]; cbn in *.
    + split; [lia|done|done].
    + assert (lc ∈ held_by dp ++ ls_queue s) as Hin by (apply elem_of_app; by left).
      destruct (Howed lc Hin) as ([_ ?] & _). apply sound_le. specialize (Hoo lc Hin). lia.
    + by apply (d_origin_position _ _ D).
  - apply sound_le. rewrite Hc. split; [done|]. destruct Hres as [->|[(lc & Hlc & ->)|[He ->]]]; cbn in *; [lia| |lia].
    assert (lc ∈ held_by dp ++ ls_queue s) as Hin by (apply elem_of_app; by left). destruct (Howed lc Hin) as ([_ ?] & _). lia.
Qed.

(** ** Keeping the places *)

(** What [placed] sees of a session. *)
Record calm (s s' : listenSession) : Prop := {
  cm_launched : ls_pumpsLaunched s' = ls_pumpsLaunched s;
  cm_done : ls_replayDone s' = ls_replayDone s;
  cm_exhausted : ls_replayExhausted s' = ls_replayExhausted s;
  cm_dead : ls_dead s = true → ls_dead s' = true }.
Lemma calm_parked s c y : calm s (snd (endPark c y s)).
Proof. destruct (endPark_form c y s) as (pc & pcy & dc & dcy & -> & _). by split. Qed.

Lemma protects_mono g l l' : cl_seq l ≤ cl_seq l' → protects g l → protects g l'.
Proof. destruct g; cbn; lia. Qed.
Lemma fill_placed_mono p l l' : cl_seq l ≤ cl_seq l' → fill_placed p l → fill_placed p l'.
Proof. destruct p; cbn; try done. apply protects_mono. Qed.
Lemma poll_placed_mono p l l' : cl_seq l ≤ cl_seq l' → poll_placed p l → poll_placed p l'.
Proof. destruct p; cbn; try done. apply protects_mono. Qed.
Lemma next_placed_calm s s' p : calm s s' → next_placed s p → next_placed s' p.
Proof.
  intros [_ _ He _]. destruct p; cbn; unfold page_placed; rewrite ?He; done.
Qed.

Lemma reported_mono s s' e : (ls_replayExhausted s = true → ls_replayExhausted s' = true) → reported s e → reported s' e.
Proof. intros He. destruct e; cbn; try done. intros [? Hd]. split; [done|]. auto. Qed.

Lemma placed_to w s l fp dp pp np cp up evs :
  placed w → ls_pumpsLaunched (w_session w) = true → ls_pumpsLaunched s = true →
  (ls_replayExhausted (w_session w) = true → ls_replayExhausted s = true) →
  (ls_replayDone s = true → ls_replayExhausted s = true ∨ ls_dead s = true) →
  fill_placed fp l → poll_placed pp l → drain_placed dp → next_placed s np → Forall (reported s) evs →
  placed (MkWorld l s (w_pruneNext w) fp dp pp np cp up (w_trace w ++ evs)).
Proof.
  intros [P1 P2 P3 P4 P5 P6 P7 P8] Hl Hl' Hex Hd Hf Hp Hdr Hn He. split; cbn; try done.
  - congruence.
  - intros _ Hnil. apply app_eq_nil in Hnil as [Hnil _]. by apply P2 in Hl.
  - apply Forall_app. split; [|done]. eapply Forall_impl; [exact P8|]. intros e. by apply reported_mono.
Qed.

Lemma calm_done w s : placed w → calm (w_session w) s →
  ls_replayDone s = true → ls_replayExhausted s = true ∨ ls_dead s = true.
Proof. intros P [_ Hd He Hde]. rewrite Hd, He. intros H. destruct (pl_done _ P H); auto. Qed.

Lemma placed_fill_to w p s l evs :
  placed w → ls_pumpsLaunched (w_session w) = true → calm (w_session w) s → cl_seq (w_log w) ≤ cl_seq l →
  fill_placed p l → Forall (reported s) evs → placed (fill_to w p s l evs).
Proof.
  intros P Hl Hc Hq Hf He. apply placed_to; try done; [by rewrite (cm_launched _ _ Hc)|by rewrite (cm_exhausted _ _ Hc)|by eapply calm_done| | |].
  - eapply poll_placed_mono; [done|apply P].
  - apply P.
  - eapply next_placed_calm; [done|apply P].
Qed.
Lemma placed_drain_to w p s l evs :
  placed w → ls_pumpsLaunched (w_session w) = true → calm (w_session w) s → cl_seq (w_log w) ≤ cl_seq l →
  drain_placed p → Forall (reported s) evs → placed (drain_to w p s l evs).
Proof.
  intros P Hl Hc Hq Hf He. apply placed_to; try done; [by rewrite (cm_launched _ _ Hc)|by rewrite (cm_exhausted _ _ Hc)|by eapply calm_done| | |].
  - eapply fill_placed_mono; [done|apply P].
  - eapply poll_placed_mono; [done|apply P].
  - eapply next_placed_calm; [done|apply P].
Qed.
Lemma placed_poll_to w p s l evs :
  placed w → ls_pumpsLaunched (w_session w) = true → calm (w_session w) s → cl_seq (w_log w) ≤ cl_seq l →
  poll_placed p l → Forall (reported s) evs → placed (poll_to w p s l evs).
Proof.
  intros P Hl Hc Hq Hf He. apply placed_to; try done; [by rewrite (cm_launched _ _ Hc)|by rewrite (cm_exhausted _ _ Hc)|by eapply calm_done| | |].
  - eapply fill_placed_mono; [done|apply P].
  - apply P.
  - eapply next_placed_calm; [done|apply P].
Qed.
Lemma placed_next_to w p s l evs :
  placed w → ls_pumpsLaunched (w_session w) = true → ls_pumpsLaunched s = true → cl_seq (w_log w) ≤ cl_seq l →
  (ls_replayExhausted (w_session w) = true → ls_replayExhausted s = true) →
  (ls_replayDone s = true → ls_replayExhausted s = true ∨ ls_dead s = true) →
  next_placed s p → Forall (reported s) evs → placed (next_to w p s l evs).
Proof.
  intros P Hl Hc Hq Hex Hd Hf He. apply placed_to; try done.
  - eapply fill_placed_mono; [done|apply P].
  - eapply poll_placed_mono; [done|apply P].
  - apply P.
Qed.

Lemma fair_refl l : log_wf l → fair l l.
Proof. intros Hwf. by apply grows_fair, same_tables_grows. Qed.

(** The view after events that deliver nothing. *)
Lemma look_trace tr evs s l fp dp np :
  tr ≠ [] → paged_of evs = [] → notified_of evs = [] → look (tr ++ evs) s l fp dp np = look tr s l fp dp np.
Proof. intros Htr Hp Hn. unfold look. by rewrite opened_app, paged_app, notified_app, Hp, Hn, !app_nil_r by done. Qed.

Lemma refines_fill w p s l evs :
  keeps w → ls_pumpsLaunched (w_session w) = true → calm (w_session w) s → fill_placed p l → Forall (reported s) evs →
  paged_of evs = [] → notified_of evs = [] → fair (w_log w) l →
  rtc (vstep may_admit) (view_of w) (look (w_trace w) s l p (w_drain w) (w_next w)) → refines w (fill_to w p s l evs).
Proof.
  intros K Hl Hc Hf He Hp Hn Hfair Hv. split; [|done|].
  - apply placed_fill_to; [apply K|done|done|apply Hfair|done|done].
  - unfold view_of at 2. cbn. rewrite look_trace; [done| |done|done]. by apply (pl_trace _ (kp_placed _ K)).
Qed.
Lemma refines_drain w p s l evs :
  keeps w → ls_pumpsLaunched (w_session w) = true → calm (w_session w) s → drain_placed p → Forall (reported s) evs →
  paged_of evs = [] → notified_of evs = [] → fair (w_log w) l →
  rtc (vstep may_admit) (view_of w) (look (w_trace w) s l (w_fill w) p (w_next w)) → refines w (drain_to w p s l evs).
Proof.
  intros K Hl Hc Hf He Hp Hn Hfair Hv. split; [|done|].
  - apply placed_drain_to; [apply K|done|done|apply Hfair|done|done].
  - unfold view_of at 2. cbn. rewrite look_trace; [done| |done|done]. by apply (pl_trace _ (kp_placed _ K)).
Qed.
Lemma refines_poll w p s l :
  keeps w → ls_pumpsLaunched (w_session w) = true → calm (w_session w) s → poll_placed p l → fair (w_log w) l →
  rtc (vstep may_admit) (view_of w) (look (w_trace w) s l (w_fill w) (w_drain w) (w_next w)) → refines w (poll_to w p s l []).
Proof.
  intros K Hl Hc Hf Hfair Hv. split; [|done|].
  - apply placed_poll_to; [apply K|done|done|apply Hfair|done|done].
  - unfold view_of at 2. cbn. rewrite look_trace; [done| |done|done]. by apply (pl_trace _ (kp_placed _ K)).
Qed.
Lemma refines_next w p s l :
  keeps w → ls_pumpsLaunched (w_session w) = true → calm (w_session w) s → next_placed s p → fair (w_log w) l →
  rtc (vstep may_admit) (view_of w) (look (w_trace w) s l (w_fill w) (w_drain w) p) → refines w (next_to w p s l []).
Proof.
  intros K Hl Hc Hf Hfair Hv. split; [|done|].
  - apply placed_next_to; [apply K|done|by rewrite (cm_launched _ _ Hc)|apply Hfair|by rewrite (cm_exhausted _ _ Hc)| |done|done].
    eapply calm_done; [apply K|done].
  - unfold view_of at 2. cbn. rewrite look_trace; [done| |done|done]. by apply (pl_trace _ (kp_placed _ K)).
Qed.
End Refines.
