(* ===== verification/ListenSteps.v ===== *)
(** * Each goroutine keeps to the delivery machine *)
From Stdlib Require Import ZArith Lia Ascii String.
From stdpp Require Import base gmap strings list sorting relations.
From S2P Require Import Prelude GoStrings AuthIdentity SchemaIdent Schema SchemaConstraints Authz GoNumbers Changelog.
From S2P Require Import ChangelogFacts ChangelogTheorems Listen ListenTx ListenFlags ListenTrace.
From S2P Require Import ListenMachine ListenDelivery ListenRefines.
Local Open Scope Z_scope.

(** What the view takes from a session, but for whether it is broken. *)
Definition eyed (s : listenSession) :=
  (ls_feed s, ls_boundary s, ls_position s, ls_replayExhausted s, ls_outstanding s, ls_chain s, ls_liveRead s, ls_queue s, ls_deliveringSeq s).

Lemma look_same tr s s' l fp fp' dp dp' np np' :
  eyed s' = eyed s → read_by fp' = read_by fp → held_by dp' = held_by dp → paging_by np' = paging_by np →
  look tr s' l fp' dp' np' = at_broken (broken_by s' fp' dp') (look tr s l fp dp np).
Proof. intros [= E1 E2 E3 E4 E5 E6 E7 E8 E9] H1 H2 H3. unfold look. cbn. by rewrite E1, E2, E3, E4, E5, E6, E7, E8, E9, H1, H2, H3. Qed.
Lemma eyed_parked c y s : eyed (snd (endPark c y s)) = eyed s.
Proof. by destruct (endPark_form c y s) as (pc & pcy & dc & dcy & -> & _). Qed.

Lemma drain_close_parked c y s : ls_pendingDrainClose (snd (endPark c y s)) = ls_pendingDrainClose s.
Proof. by destruct (endPark_form c y s) as (pc & pcy & dc & dcy & -> & _). Qed.
Lemma broken_parked c y s fp dp : broken_by (snd (endPark c y s)) fp dp = true.
Proof. unfold broken_by. by rewrite endPark_dead. Qed.

Lemma broken_mono s s' fp fp' dp dp' :
  (ls_dead s = true → ls_dead s' = true) → (is_some (ls_pendingDrainClose s) = true → is_some (ls_pendingDrainClose s') = true) →
  (drain_failing dp = true → drain_failing dp' = true) → (fill_failing fp = true → fill_failing fp' = true) →
  broken_by s fp dp = true → broken_by s' fp' dp' = true.
Proof. unfold broken_by. rewrite !orb_true_iff. tauto. Qed.

Lemma read_return b : read_by (fill_return b) = [].
Proof. destruct b; cbn; by repeat case_match. Qed.
Lemma read_leave first b : read_by (fill_leave first b) = [].
Proof. destruct first; [done|apply read_return]. Qed.

Lemma appended_form scanned admitted s :
  appended_batch scanned admitted s = set_queue (ls_queue s ++ admitted) (set_liveRead (last_seq scanned (ls_liveRead s)) s).
Proof. unfold appended_batch, last_seq. destruct (last scanned); [done|]. by destruct s. Qed.

(** What a session keeps when it is parked. *)
Ltac parking c y :=
  first [apply (calm_parked _ c y) | apply (eyed_parked c y) | by rewrite (drain_close_parked c y)
        | left; by rewrite (drain_close_parked c y) | right; apply (endPark_dead c y) | intros _; apply (endPark_dead c y) | by left].

Lemma rtc_same {A} (R : relation A) x y : x = y → rtc R x y.
Proof. by intros ->. Qed.

Lemma look_events tr evs s l fp dp np : tr ≠ [] →
  look (tr ++ evs) s l fp dp np
  = at_paged (paged_of tr ++ paged_of evs) (at_notified (notified_of tr ++ notified_of evs) (look tr s l fp dp np)).
Proof. intros Htr. unfold look. cbn. by rewrite opened_app, paged_app, notified_app. Qed.

Section Steps.
Context (faults : nat → bool) (clock : nat → Z) (rand : nat → option (list Z)) (sub : subscription) (policy : answer → Prop).
Hypothesis rand_length : ∀ k raw, rand k = Some raw → length raw = cursorTokenBytes.
#[local] Abbreviation keeps := (keeps rand sub policy).
#[local] Abbreviation refines := (refines rand sub policy).
#[local] Abbreviation vsteps := (rtc (vstep (may_admit sub policy))).

Lemma fill_placed_return b l : fill_placed sub policy (fill_return b) l.
Proof. destruct b; cbn; by repeat case_match. Qed.
Lemma fill_placed_leave first b l : fill_placed sub policy (fill_leave first b) l.
Proof. destruct first; [done|apply fill_placed_return]. Qed.

Lemma keeps_fair w : keeps w → fair (w_log w) (w_log w).
Proof. intros K. by apply fair_refl, K. Qed.

Lemma keeps_next w s : keeps w → calm (w_session w) s → next_placed rand sub policy s (w_next w).
Proof. intros K Hc. eapply next_placed_calm; [done|apply K]. Qed.

(** A step that neither reads nor delivers, and does to the log what anyone may. *)
Lemma still w s l fp dp pp np t cp up evs :
  keeps w → ls_pumpsLaunched (w_session w) = true → calm (w_session w) s → eyed s = eyed (w_session w) → fair (w_log w) l →
  fill_placed sub policy fp l → drain_placed rand dp → poll_placed pp l → next_placed rand sub policy s np →
  read_by fp = read_by (w_fill w) → held_by dp = held_by (w_drain w) → paging_by np = paging_by (w_next w) →
  (broken_by (w_session w) (w_fill w) (w_drain w) = true → broken_by s fp dp = true) →
  (evs = [] ∨ ∃ e, evs = [e] ∧ reported rand s e ∧ event_paged e = [] ∧ event_notified e = []) →
  refines w (MkWorld l s t fp dp pp np cp up (w_trace w ++ evs)).
Proof.
  intros K Hl Hc He Hfair Hf Hd Hp Hn H1 H2 H3 Hb Hev.
  assert (Forall (reported rand s) evs ∧ paged_of evs = [] ∧ notified_of evs = []) as (E1 & E2 & E3).
  { destruct Hev as [->|(e & -> & Hr & Hpg & Hno)]; [done|]. unfold paged_of, notified_of. cbn. rewrite Hpg, Hno. split_and!; [|done..]. by constructor. }
  split; [|done|].
  - destruct (placed_to _ _ _ w s l fp dp pp np cp up evs (kp_placed _ _ _ _ K) Hl) as [P1 P2 P3 P4 P5 P6 P7 P8]; try done.
    + by rewrite (cm_launched _ _ Hc).
    + by rewrite (cm_exhausted _ _ Hc).
    + eapply calm_done; [apply K|done].
  - unfold view_of at 2. cbn. rewrite look_trace; [|by apply (pl_trace _ _ _ _ (kp_placed _ _ _ _ K))|done..].
    rewrite (look_same _ (w_session w) s _ (w_fill w) fp (w_drain w) dp (w_next w) np) by done.
    eapply rtc_l; [by apply (vs_log _ _ l)|]. by apply vsteps_broken.
Qed.

Lemma fill_still w p s l evs :
  keeps w → ls_pumpsLaunched (w_session w) = true → calm (w_session w) s → eyed s = eyed (w_session w) → fair (w_log w) l →
  fill_placed sub policy p l → read_by p = read_by (w_fill w) →
  (fill_failing (w_fill w) = true → fill_failing p = true ∨ ls_dead s = true) →
  (is_some (ls_pendingDrainClose (w_session w)) = true → is_some (ls_pendingDrainClose s) = true) →
  (evs = [] ∨ ∃ e, evs = [e] ∧ reported rand s e ∧ event_paged e = [] ∧ event_notified e = []) →
  refines w (fill_to w p s l evs).
Proof.
  intros K Hl Hc He Hfair Hp Hr Hf Hpd Hev. apply still; try done.
  - apply K.
  - eapply poll_placed_mono; [apply Hfair|apply K].
  - by apply keeps_next.
  - unfold broken_by. rewrite !orb_true_iff. pose proof (cm_dead _ _ Hc). tauto.
Qed.

Lemma lowest_owed_le w : keeps w → ls_pumpsLaunched (w_session w) = true → lowestOwedLocked (w_session w) ≤ cl_seq (w_log w).
Proof.
  intros K Hl. pose proof (kp_delivery _ _ _ _ K Hl) as D. pose proof (d_delivering _ _ D) as Hd. pose proof (d_live _ _ D) as Hlive.
  pose proof (d_owed _ _ D) as Ho. unfold v_owed in Ho. cbn in Hd, Hlive, Ho. unfold lowestOwedLocked.
  destruct (ls_queue (w_session w)) as [|y q]; [lia|].
  destruct (Ho y) as ([_ ?] & _); [apply elem_of_app; right; by left|]. destruct (_ || _); lia.
Qed.

(** Protecting the queue touches no more than the chain that keeps it. *)
Lemma protect_ok o g w g' s' l' :
  keeps w → ls_pumpsLaunched (w_session w) = true → protects g (w_log w) →
  protect_step faults rand sub o g (w_session w) (w_log w) = (g', s', l') →
  shrinks (w_log w) l' ∧ (∃ q, s' = set_queueChain q (w_session w)) ∧ ∀ g1, g' = Some g1 → protects g1 l'.
Proof.
  intros K Hl Hg H. pose proof (protect_step_session _ _ _ _ _ _ _ _ _ _ H) as Hs.
  assert (shrinks (w_log w) (w_log w)) as Hrefl by (by apply same_tables_shrinks; [apply K|]).
  unfold protect_step in H. destruct g as [|floor|chain].
  - injection H as <- <- <-. split_and!; [done|done|]. intros g1. destruct (protect_needed _ _ _) as [floor|] eqn:Hn; [|done].
    intros [= <-]. cbn. pose proof (lowest_owed_le w K Hl). unfold protect_needed in Hn. repeat case_match; by simplify_eq.
  - destruct (protect_tx _ _ _ _ _ _) as [o1 [s1 l1]] eqn:Ht. apply protect_tx_result in Ht as [Hsh ->]; [|apply K|done].
    assert (l' = l1) as -> by (by destruct o1; simplify_eq). split_and!; [done|done|].
    intros g1. destruct o1; [|intros; by simplify_eq..]. injection H as <- _. by intros [= <-].
  - injection H as <- <- <-. by split_and!.
Qed.

(** The session and the log after a transaction that mints at [resume]. *)
Lemma vsteps_chained w v c resume l' :
  keeps w → ls_pumpsLaunched (w_session w) = true → v = at_reading (v_reading v) (view_of w) →
  resumes v resume → shrinks (w_log w) l' → c = ls_chain (w_session w) ∨ ch_Origin c = chain_origin resume (w_session w) →
  vsteps v (at_log l' (at_chain c v)).
Proof.
  intros K Hl Hv Hr Hsh Hc. destruct (chain_origin_ok _ _ _ _ _ _ _ _ resume (kp_delivery _ _ _ _ K Hl)) as (H1 & H2 & H3).
  rewrite Hv. apply (vsteps_tx _ _ _ _ _ resume); [by rewrite <-Hv| |apply Hsh].
  destruct Hc as [->|Hc]; [by left|right]. by rewrite Hc.
Qed.

Lemma refines_prune w w' t : refines w w' → refines w (with_prune w' t).
Proof. by intros [[] ? ?]. Qed.

(** ** The filling goroutine *)

Lemma live_mints w : keeps w → ls_pumpsLaunched (w_session w) = true → may_mint (ls_liveRead (w_session w)) (w_session w) (w_log w).
Proof. intros K Hl. eapply may_mint_ok; [by apply (kp_delivery _ _ _ _ K)|by left]. Qed.

Lemma fill_reads o w s' l' scanned :
  keeps w → ls_pumpsLaunched (w_session w) = true → read_by (w_fill w) = [] → fill_failing (w_fill w) = false →
  shrinks (w_log w) l' → rechained (ls_liveRead (w_session w)) (w_session w) s' →
  scanned = map logged (take page_limit (rows_after (ls_liveRead (w_session w)) None (ls_feed (w_session w)) None (w_log w))) →
  refines w (fill_to w (FAdmit scanned o) s' l' []).
Proof.
  intros K Hl Hr Hff Hsh (c & d & -> & Hc) ->. apply refines_fill; try done; [apply Hsh|].
  eapply rtc_l; [apply vs_read|]. eapply vsteps_to; [eapply (vsteps_chained w _ c); try done; by left|..].
  - unfold look, at_broken. cbn. reflexivity.
  - refine (broken_mono _ _ _ _ _ _ _ _ _ _); try done. by rewrite Hff.
Qed.

Lemma fill_fails w s' l' c :
  keeps w → ls_pumpsLaunched (w_session w) = true → read_by (w_fill w) = [] →
  shrinks (w_log w) l' → rechained (ls_liveRead (w_session w)) (w_session w) s' →
  refines w (fill_to w (FEnd c) s' l' []).
Proof.
  intros K Hl Hr Hsh (ch & d & -> & Hc). apply refines_fill; try done; [apply Hsh|].
  eapply vsteps_to; [eapply (vsteps_chained w _ ch); try done; by left|..].
  - unfold look, at_broken. cbn. by rewrite Hr.
  - unfold broken_by. cbn. by rewrite !orb_true_r.
Qed.

Lemma fill_appends w s p scanned admitted :
  keeps w → ls_pumpsLaunched (w_session w) = true → calm (w_session w) s → read_by (w_fill w) = scanned →
  selects (may_admit sub policy) scanned admitted → fill_placed sub policy p (w_log w) → read_by p = [] →
  eyed s = eyed (appended_batch scanned admitted (w_session w)) →
  (broken_by (w_session w) (w_fill w) (w_drain w) = true → broken_by s p (w_drain w) = true) →
  refines w (fill_to w p s (w_log w) []).
Proof.
  intros K Hl Hc Hr Hsel Hp Hrp He Hb. apply refines_fill; try done; [exact (keeps_fair w K)|].
  rewrite appended_form in He. rewrite <-Hr in He, Hsel. eapply vsteps_to; [apply rtc_once, (vs_append _ (view_of w) admitted Hsel)|..].
  - unfold look, view_of, at_broken. injection He as -> -> -> -> -> -> -> -> ->. rewrite Hrp. reflexivity.
  - done.
Qed.

Lemma fill_refuses w s p read rest admitted :
  keeps w → ls_pumpsLaunched (w_session w) = true → calm (w_session w) s → read_by (w_fill w) = read ++ rest →
  selects (may_admit sub policy) read admitted → fill_placed sub policy p (w_log w) → read_by p = [] →
  eyed s = eyed (appended_batch (read ++ rest) admitted (w_session w)) → broken_by s p (w_drain w) = true →
  refines w (fill_to w p s (w_log w) []).
Proof.
  intros K Hl Hc Hr Hsel Hp Hrp He Hb. apply refines_fill; try done; [exact (keeps_fair w K)|].
  rewrite appended_form, <-Hr in He. apply (rtc_l _ _ _ _ (vs_refused _ (view_of w) read admitted rest Hr Hsel)), rtc_same.
  unfold look, view_of, at_broken. injection He as -> -> -> -> -> -> -> -> ->. rewrite Hrp, Hb. reflexivity.
Qed.

Lemma finish_batch_form n first ended s s' p :
  finish_batch sub n first ended s = (s', p) →
  (∃ b, p = fill_leave (first && negb (ls_dead s)) b) ∧ (s' = s ∨ s' = set_pendingDrainClose (Some ErrListenLifetimeEnded) s).
Proof. unfold finish_batch. intros [= <- <-]. split; [by eexists|]. destruct (_ && _); auto. Qed.

Lemma flush_quiet w p p' s' evs :
  flush_step sub p (w_session w) = Some (p', s', evs) →
  calm (w_session w) s' ∧ eyed s' = eyed (w_session w) ∧ ls_pendingDrainClose s' = ls_pendingDrainClose (w_session w)
  ∧ (evs = [] ∨ ∃ e, evs = [e] ∧ reported rand s' e ∧ event_paged e = [] ∧ event_notified e = []).
Proof.
  intros H%flush_step_inv. destruct H; (split; [done|split; [done|split; [done|]]]); first [by left|right; by eexists].
Qed.

(** A batch that a refusal stopped. *)
Lemma fill_revoked o w w' sc ad c :
  keeps w → ls_pumpsLaunched (w_session w) = true → w_fill w = FRevoked sc ad c →
  fill_step faults rand sub o w = Some w' → refines w w'.
Proof.
  intros K Hl Hpc H. pose proof (pl_fill _ _ _ _ (kp_placed _ _ _ _ K)) as P4. unfold fill_step in H. rewrite Hpc in H, P4.
  destruct (ls_dead _) eqn:Hd; injection H as <-.
  - apply (fill_refuses w _ _ [] sc []); rewrite ?Hpc; try done; try apply selects_nil.
    + by destruct (last sc).
    + rewrite appended_form. unfold last_seq. cbn. destruct (last sc); cbn; unfold eyed; cbn; by rewrite app_nil_r.
    + unfold broken_by. destruct (last sc); cbn; by rewrite Hd.
  - destruct P4 as (read & rest & -> & Hsel). apply (fill_refuses w _ _ read rest ad); rewrite ?Hpc; try done.
    + rewrite appended_form. by destruct (is_some _).
    + apply fill_placed_leave.
    + apply read_leave.
    + rewrite appended_form. by destruct (is_some _).
    + rewrite appended_form. unfold broken_by. destruct (last _); cbn; destruct (is_some _) eqn:Hp; cbn; by rewrite ?Hp, ?orb_true_r.
Qed.

Lemma fill_appended o w w' sc ad en :
  keeps w → ls_pumpsLaunched (w_session w) = true → w_fill w = FAppend sc ad en →
  fill_step faults rand sub o w = Some w' → refines w w'.
Proof.
  intros K Hl Hpc H. pose proof (pl_fill _ _ _ _ (kp_placed _ _ _ _ K)) as P4. unfold fill_step in H. rewrite Hpc in H, P4.
  set (s1 := appended_batch sc ad (w_session w)) in *. destruct (_ && _) eqn:Hw.
  - injection H as <-. apply (fill_appends w _ _ sc ad); rewrite ?Hpc; try done; unfold s1; by rewrite ?appended_form.
  - destruct (finish_batch _ _ _ _ _) as [s2 p] eqn:Hf. injection H as <-.
    apply finish_batch_form in Hf as ([b ->] & Hs). apply (fill_appends w _ _ sc ad); rewrite ?Hpc; try done.
    + destruct Hs as [->| ->]; unfold s1; by rewrite appended_form.
    + apply fill_placed_leave.
    + apply read_leave.
    + by destruct Hs as [->| ->].
    + apply broken_mono; [..|done|done]; destruct Hs as [->| ->]; unfold s1; by rewrite appended_form.
Qed.

Lemma fill_refines o w w' : keeps w → permits policy o → fill_step faults rand sub o w = Some w' → refines w w'.
Proof.
  intros K Hpo H. assert (ls_pumpsLaunched (w_session w) = true) as Hl.
  { apply (launched_fill w (kp_flags _ _ _ _ K)). intros Hoff. unfold fill_step in H. by rewrite Hoff in H. }
  pose proof (kp_placed _ _ _ _ K) as [P1 P2 P3 P4 P5 P6 P7 P8].
  assert (∀ p s evs, calm (w_session w) s → eyed s = eyed (w_session w) → fill_placed sub policy p (w_log w) →
    read_by p = read_by (w_fill w) → (fill_failing (w_fill w) = true → ls_dead s = true) →
    (is_some (ls_pendingDrainClose (w_session w)) = true → is_some (ls_pendingDrainClose s) = true) →
    (evs = [] ∨ ∃ e, evs = [e] ∧ reported rand s e ∧ event_paged e = [] ∧ event_notified e = []) →
    refines w (fill_to w p s (w_log w) evs)) as Hto.
  { intros. apply fill_still; auto. exact (keeps_fair w K). }
  pose proof H as Hstep. unfold fill_step in H.
  destruct (w_fill w) as [| | |g k| |sc en|sc ad c|sc ad en|n first|c|p|] eqn:Hpc; try discriminate H.
  - destruct (_ && _); [done|]. injection H as <-. apply Hto; try done; [..|by left]; by destruct (isClosing _).
  - injection H as <-. apply Hto; try done; [..|by left]; by destruct (isClosing _).
  - destruct (protect_step _ _ _ _ _ _ _) as [[g' s'] l'] eqn:Hg. injection H as <-.
    apply protect_ok in Hg as (Hsh & (q & ->) & Hg'); [|done..]. apply fill_still; try done; rewrite ?Hpc; [apply Hsh|..|done|by left].
    + destruct g' as [g'|]; [by apply Hg'|]. destruct k; [done|apply fill_placed_return].
    + destruct g' as [g'|]; [done|]. destruct k; [done|apply read_return].
  - destruct (pruneDue _ _ _) as [prune next]. destruct (readBatch _ _ _ _ _ _) as [[[sc en]|e|] [s' l']] eqn:Hr; [| |done].
    all: apply readBatch_result in Hr as (Hsh & Hre & Hsc); [|apply K|by apply live_mints]; injection H as <-; apply refines_prune.
    + apply fill_reads; rewrite ?Hpc; try done. by eapply Hsc.
    + by apply fill_fails; rewrite ?Hpc.
  - injection H as <-. destruct (admit_all _ _ _ _) as [admitted st] eqn:Ha.
    eapply admit_all_selects in Ha as (read & rest & -> & Hsel & Hran); [|done].
    destruct st as [|c|].
    + apply Hto; try done; [|by left]. cbn. rewrite Hran, app_nil_r in * by done. done.
    + apply Hto; try done; [|by left]. by exists read, rest.
    + apply refines_fill; try done; [exact (keeps_fair w K)|]. eapply rtc_l; [apply vs_drop|].
      apply rtc_same. unfold look, at_broken, view_of, broken_by. cbn. by rewrite !orb_true_r.
  - by eapply fill_revoked.
  - by eapply fill_appended.
  - destruct (_ && _); [done|]. destruct (finish_batch _ _ _ _ _) as [s2 p] eqn:Hf. injection H as <-.
    apply finish_batch_form in Hf as ([b ->] & Hs). apply Hto; [..|by left].
    1,2,6: by destruct Hs as [->| ->].
    + apply fill_placed_leave.
    + apply read_leave.
    + done.
  - injection H as <-. apply (Hto (FFlush LWait) (snd (endPark (Some c) true (w_session w)))); try done; parking (Some c) true.
  - unfold fill_flush in H. destruct (flush_step sub p (w_session w)) as [[[p' s'] evs]|] eqn:Hfl; [|done]. injection H as <-.
    apply flush_quiet in Hfl as (H1 & H2 & H3 & H4). apply Hto; try done; [by destruct p'..|by rewrite H3].
Qed.
(** ** The draining goroutine *)

Lemma drain_still w p s evs :
  keeps w → ls_pumpsLaunched (w_session w) = true → calm (w_session w) s → eyed s = eyed (w_session w) →
  drain_placed rand p → held_by p = held_by (w_drain w) →
  (drain_failing (w_drain w) = true → drain_failing p = true ∨ ls_dead s = true) →
  (is_some (ls_pendingDrainClose (w_session w)) = true → is_some (ls_pendingDrainClose s) = true ∨ drain_failing p = true) →
  (evs = [] ∨ ∃ e, evs = [e] ∧ reported rand s e ∧ event_paged e = [] ∧ event_notified e = []) →
  refines w (drain_to w p s (w_log w) evs).
Proof.
  intros K Hl Hc He Hp Hr Hf Hpd Hev. apply still; try done; [exact (keeps_fair w K)|apply K|apply K|by apply keeps_next|].
  unfold broken_by. rewrite !orb_true_iff. pose proof (cm_dead _ _ Hc). tauto.
Qed.

(** One that moves the view, by steps to [v]. *)
Lemma drain_moves w p s l evs v :
  keeps w → ls_pumpsLaunched (w_session w) = true → calm (w_session w) s → drain_placed rand p → fair (w_log w) l →
  Forall (reported rand s) evs → vsteps (view_of w) v →
  look (w_trace w ++ evs) s l (w_fill w) p (w_next w) = at_broken (broken_by s (w_fill w) p) v →
  (v_broken v = true → broken_by s (w_fill w) p = true) →
  refines w (drain_to w p s l evs).
Proof.
  intros K Hl Hc Hp Hfair Hev Hv Heq Hb. split; [|done|].
  - apply placed_drain_to; [apply K|done|done|apply Hfair|done|done].
  - by eapply vsteps_to.
Qed.

Lemma drain_refines o w w' : keeps w → drain_step faults rand sub o w = Some w' → refines w w'.
Proof.
  intros K H. assert (ls_pumpsLaunched (w_session w) = true) as Hl.
  { apply (launched_drain w (kp_flags _ _ _ _ K)). intros Hoff. unfold drain_step in H. by rewrite Hoff in H. }
  pose proof (kp_placed _ _ _ _ K) as [P1 P2 P3 P4 P5 P6 P7 P8]. pose proof (keeps_fair w K) as Hfair.
  unfold drain_step in H.
  destruct (w_drain w) as [| |lc|lc rec| |c|c|c|p|] eqn:Hpc; try discriminate H.
  - destruct (drain_take (w_session w)) as [[p s']|] eqn:Ht; [|done]. injection H as <-.
    apply drain_take_inv in Ht as [(Hd & -> & ->)|(Hd & Hdone & _ & [(c & -> & Hs)|(lc & q & Hq & -> & ->)])].
    + apply drain_still; rewrite ?Hpc; try done; [by left|by left].
    + apply drain_still; rewrite ?Hpc; try done; [by destruct Hs as [->|(-> & _)]..|by right|by left].
    + assert (ls_replayExhausted (w_session w) = true) as Hex by (destruct (P3 Hdone); [done|congruence]).
      eapply (drain_moves w) with (7 := rtc_once _ _ (vs_take _ (view_of w) lc q Hq ltac:(cbn; by rewrite Hpc) Hex)); try done.
      * by rewrite app_nil_r.
      * by apply broken_mono; rewrite ?Hpc.
  - assert (resumes (view_of w) (lc_seq lc)) as Hres.
    { right. left. exists lc. cbn. rewrite Hpc. split; [by left|done]. }
    destruct (mintOne _ _ _ _ _ _) as [[tok|e|] [s' l']] eqn:Hm; [| |done].
    all: apply mintOne_result in Hm as (Hsh & (c & d & -> & Hc) & Htok); [|apply K|by eapply may_mint_ok, Hres; apply (kp_delivery _ _ _ _ K)];
      injection H as <-.
    all: pose proof (vsteps_chained w (view_of w) c _ l' K Hl eq_refl Hres Hsh Hc) as Hv.
    + eapply (drain_moves w) with (7 := Hv); try done; [split; [done|exact (proj2 (Htok tok eq_refl))]|apply Hsh|..].
      * rewrite app_nil_r. unfold look, view_of, at_broken. cbn. by rewrite Hpc.
      * by apply broken_mono; rewrite ?Hpc.
    + eapply (drain_moves w) with (7 := rtc_r _ _ _ Hv (vs_lose _ _)); try done; [apply Hsh|..].
      * rewrite app_nil_r. unfold look, view_of, at_broken, broken_by. cbn. by rewrite !orb_true_r.
      * intros _. unfold broken_by. cbn. by rewrite !orb_true_r.
  - injection H as <-. eapply (drain_moves w) with (7 := rtc_once _ _ (vs_notify _ (view_of w) lc ltac:(cbn; by rewrite Hpc))); try done.
    + by constructor.
    + rewrite look_events by auto. unfold look, view_of, at_broken. cbn. by rewrite app_nil_r.
    + by apply broken_mono; rewrite ?Hpc.
  - injection H as <-. eapply (drain_moves w) with (7 := rtc_once _ _ (vs_clear _ (view_of w) ltac:(cbn; by rewrite Hpc))); try done.
    + by destruct (sn_panics o).
    + rewrite app_nil_r. unfold look, view_of, at_broken. cbn. by rewrite Hpc; destruct (sn_panics o).
    + apply broken_mono; rewrite ?Hpc; try done; by destruct (sn_panics o).
  - injection H as <-. eapply (drain_moves w) with (7 := rtc_once _ _ (vs_clear _ (view_of w) ltac:(cbn; by rewrite Hpc))); try done.
    + rewrite app_nil_r. unfold look, view_of, at_broken. cbn. by rewrite Hpc.
    + by apply broken_mono; rewrite ?Hpc.
  - rewrite end_launched in H by done. injection H as <-.
    apply (drain_still w (DFlush LWait) (snd (endPark c false (w_session w)))); rewrite ?Hpc; try done; parking c false.
  - injection H as <-. apply (drain_still w (DFlush LWait) (snd (endPark (Some c) true (w_session w)))); rewrite ?Hpc; try done; parking (Some c) true.
  - unfold drain_flush in H. destruct (flush_step sub p (w_session w)) as [[[p' s'] evs]|] eqn:Hfl; [|done]. injection H as <-.
    apply flush_quiet in Hfl as (H1 & H2 & H3 & H4). apply drain_still; rewrite ?Hpc, ?H3; try done; [by destruct p'..|by left].
Qed.
End Steps.
