(* ===== verification/ListenPages.v ===== *)
(** * The replay, and the rest of a subscription, keep to the delivery machine *)
From Stdlib Require Import ZArith Lia Ascii String.
From stdpp Require Import base gmap strings list sorting relations.
From S2P Require Import Prelude GoStrings AuthIdentity SchemaIdent Schema SchemaConstraints Authz GoNumbers Changelog ChangelogFacts.
From S2P Require Import ChangelogTheorems Listen ListenTx ListenFlags ListenTrace ListenMachine ListenDelivery ListenRefines ListenSteps.

Local Open Scope Z_scope.
#[local] Arguments short : simpl never.

(** What was scanned of the feed, as rows. *)
Lemma logged_rows v l : (∀ lc, lc ∈ l → from_feed v lc) → ∃ rows, l = map logged rows ∧ ∀ x, x ∈ rows → logged x ∈ l.
Proof.
  induction l as [|lc l IH]; intros H; [exists []; split; [done|]; by intros x ?%elem_of_nil|].
  destruct IH as (rows & -> & Hin); [intros x Hx; apply H; by right|].
  destruct (H lc ltac:(by left)) as (_ & row & Hlc & _). exists ((lc_seq lc, row) :: rows). split; [by rewrite Hlc at 1|].
  intros x [->|Hx]%elem_of_cons; [rewrite <-Hlc; by left|right; by apply Hin].
Qed.

Section Pages.
Context (faults : nat → bool) (clock : nat → Z) (rand : nat → option (list Z)) (sub : subscription) (policy : answer → Prop).
Hypothesis rand_length : ∀ k raw, rand k = Some raw → length raw = cursorTokenBytes.
#[local] Abbreviation keeps := (keeps rand sub policy).
#[local] Abbreviation refines := (refines rand sub policy).
#[local] Abbreviation vsteps := (rtc (vstep (may_admit sub policy))).

Lemma poll_still w p s l evs :
  keeps w → ls_pumpsLaunched (w_session w) = true → calm (w_session w) s → eyed s = eyed (w_session w) → fair (w_log w) l →
  poll_placed p l → (is_some (ls_pendingDrainClose (w_session w)) = true → is_some (ls_pendingDrainClose s) = true) →
  evs = [] → refines w (poll_to w p s l evs).
Proof.
  intros K Hl Hc He Hfair Hp Hpd ->. apply still; try done; [..|by left].
  - eapply fill_placed_mono; [apply Hfair|apply K].
  - apply K.
  - by apply keeps_next.
  - apply broken_mono; [apply Hc|done..].
Qed.

Lemma poll_refines o w w' : keeps w → poll_step faults rand sub o w = Some w' → refines w w'.
Proof.
  intros K H. assert (ls_pumpsLaunched (w_session w) = true) as Hl.
  { apply (launched_poll w (kp_flags _ _ _ _ K)). intros Hoff. unfold poll_step in H. by rewrite Hoff in H. }
  pose proof (pl_poll _ _ _ _ (kp_placed _ _ _ _ K)) as P5. pose proof (keeps_fair rand sub policy w K) as Hfair.
  unfold poll_step in H. destruct (w_poll w) as [| |c| |g|] eqn:Hpc; try discriminate H.
  - destruct (sn_stop o); [destruct (ls_dead _); [|done]|]; injection H as <-; apply poll_still; try done. by destruct (sn_explicit o).
  - rewrite end_launched in H by done. injection H as <-.
    apply (poll_still w PDone (snd (endPark (Some c) false (w_session w)))); try done; parking (Some c) false.
  - injection H as <-. by apply poll_still.
  - destruct (protect_step _ _ _ _ _ _ _) as [[g' s'] l'] eqn:Hg. injection H as <-.
    eapply protect_ok in Hg as (Hsh & (q & ->) & Hg'); [|done..]. apply poll_still; try done; [apply Hsh|].
    destruct g' as [g'|]; [by apply Hg'|done].
Qed.

(** ** Pages *)

Lemma next_moves w p s l evs v :
  keeps w → ls_pumpsLaunched (w_session w) = true → ls_pumpsLaunched s = true →
  (ls_replayExhausted (w_session w) = true → ls_replayExhausted s = true) → (ls_replayDone s = true → ls_replayExhausted s = true ∨ ls_dead s = true) → next_placed rand sub policy s p → fair (w_log w) l →
  Forall (reported rand s) evs → vsteps (view_of w) v →
  look (w_trace w ++ evs) s l (w_fill w) (w_drain w) p = at_broken (broken_by s (w_fill w) (w_drain w)) v →
  (v_broken v = true → broken_by s (w_fill w) (w_drain w) = true) →
  refines w (next_to w p s l evs).
Proof.
  intros K Hl Hl' Hex Hd Hp Hfair Hev Hv Heq Hb. split; [|done|].
  - by apply placed_next_to; [apply K|..|apply Hfair| | | | ].
  - by eapply vsteps_to.
Qed.
Lemma next_still w p s evs :
  keeps w → ls_pumpsLaunched (w_session w) = true → calm (w_session w) s → eyed s = eyed (w_session w) →
  next_placed rand sub policy s p → paging_by p = paging_by (w_next w) →
  (is_some (ls_pendingDrainClose (w_session w)) = true → is_some (ls_pendingDrainClose s) = true) →
  evs = [] → refines w (next_to w p s (w_log w) evs).
Proof.
  intros K Hl Hc He Hp Hpg Hpd ->. apply still; try done; [exact (keeps_fair rand sub policy w K)|apply K|apply K|apply K| |by left].
  apply broken_mono; [apply Hc|done..].
Qed.
(** The page is given up. *)
Lemma next_drops w p s :
  keeps w → ls_pumpsLaunched (w_session w) = true → calm (w_session w) s → eyed s = eyed (w_session w) →
  next_placed rand sub policy s p → paging_by p = None →
  (is_some (ls_pendingDrainClose (w_session w)) = true → is_some (ls_pendingDrainClose s) = true) →
  refines w (next_to w p s (w_log w) []).
Proof.
  intros K Hl Hc He Hp Hpg Hpd. eapply (next_moves w) with (9 := rtc_once _ _ (vs_unscan _ (view_of w))); try done.
  - by rewrite (cm_launched _ _ Hc).
  - by rewrite (cm_exhausted _ _ Hc).
  - eapply calm_done; [apply K|done].
  - exact (keeps_fair rand sub policy w K).
  - rewrite app_nil_r. unfold look, view_of, at_broken. cbn. injection He as -> -> -> -> -> -> -> -> ->. by rewrite Hpg.
  - apply broken_mono; [apply Hc|done..].
Qed.

Lemma minted_page now w r scanned admitted o s' l' :
  keeps w → ls_pumpsLaunched (w_session w) = true → w_next w = NMint r scanned admitted →
  mint_page faults rand sub now admitted (ls_position (w_session w)) (scanned_last scanned) (length scanned) (w_session w, w_log w)
    = (o, (s', l')) →
  ∃ c d, s' = set_delivered d (set_chain c (w_session w)) ∧ shrinks (w_log w) l' ∧ vsteps (view_of w) (at_log l' (at_chain c (view_of w))).
Proof.
  intros K Hl Hpc H. pose proof (kp_delivery _ _ _ _ K Hl) as D. pose proof (pl_next _ _ _ _ (kp_placed _ _ _ _ K)) as P7.
  rewrite Hpc in P7. destruct P7 as [He Hsel].
  assert (resumes (view_of w) (ls_position (w_session w))) as Hres by (right; right; by split).
  destruct (d_paging _ _ D scanned) as (_ & _ & Hrange & _); [cbn; by rewrite Hpc|].
  destruct (logged_rows (view_of w) admitted) as (rows & -> & Hrows).
  { intros lc Hlc. by apply Hrange, (selects_admitted _ _ _ _ Hsel). }
  pose proof (mint_page_moves _ _ _ _ _ _ _ _ _ _ _ _ _ H) as (c & d & -> & Hc).
  apply mint_page_result in H as Hsh; [|apply K|by eapply may_mint_ok|].
  - exists c, d. split_and!; [done|done|]. by eapply vsteps_chained.
  - intros x Hx. apply Hrows in Hx. apply (selects_admitted _ _ _ _ Hsel) in Hx as [Hx _]. destruct (Hrange _ Hx) as [Hb _].
    pose proof (d_live _ _ D) as Hlive. cbn in Hb, Hlive. lia.
Qed.
Lemma page_of_placed s scanned admitted records next :
  ls_replayExhausted s = false → selects (may_admit sub policy) scanned admitted → Forall2 (record_of rand) admitted records →
  next ≠ "" → page_placed rand sub policy s (page_of scanned admitted records next) ∧ pa_scanned (page_of scanned admitted records next) = Some scanned.
Proof.
  intros He Hsel Hrec Hne. unfold page_of, page_placed. cbn zeta. change (length scanned <? page_limit)%nat with (short scanned). destruct (bool_decide_reflect (records = [])) as [Hnil|_].
  - rewrite andb_true_r. destruct (short scanned) eqn:Hs; cbn.
    + subst records. apply Forall2_nil_inv_r in Hrec as ->. by rewrite Hs.
    + by rewrite Hs.
  - rewrite andb_false_r. cbn. by split_and!.
Qed.

(** A page goes to the caller. *)
Lemma finish_refines w r pg s' ev :
  keeps w → ls_pumpsLaunched (w_session w) = true → w_next w = NFinish r pg → finish_next r pg (w_session w) = (s', ev) →
  refines w (next_to w NIdle s' (w_log w) [ev]).
Proof.
  intros K Hl Hpc H. pose proof (kp_placed _ _ _ _ K) as P. pose proof (pl_next _ _ _ _ P) as P7. rewrite Hpc in P7. cbn in P7.
  pose proof (pl_trace _ _ _ _ P Hl) as Htr. pose proof (keeps_fair rand sub policy w K) as Hfair.
  unfold finish_next in H. set (s1 := if _ && _ then _ else _) in *.
  assert (ls_dead s1 = ls_dead (w_session w) ∧ ls_pumpsLaunched s1 = true ∧ eyed s1 = eyed (w_session w)
    ∧ ls_pendingDrainClose s1 = ls_pendingDrainClose (w_session w)
    ∧ (ls_replayDone s1 = true → ls_replayDone (w_session w) = true ∨ pa_done pg = true ∧ pa_err pg = None)) as (S1 & S2 & S3 & S4 & S5).
  { unfold s1. destruct (pa_done pg), (pa_err pg); cbn; split_and!; auto. }
  assert (∀ s, s = s1 ∨ s = set_replayDone true s1 → eyed s = eyed (w_session w)) as Heyed by (intros s [->| ->]; [|cbn]; done).
  destruct (ls_dead s1) eqn:Hd.
  { injection H as <- <-. eapply (next_moves w) with (9 := rtc_once _ _ (vs_unscan _ (view_of w))); try done; [by injection S3 as _ _ _ <- _ _ _ _ _|auto|by constructor; [split; [constructor|done]|]|..].
    - rewrite look_events by done. unfold look, view_of, at_broken. cbn. rewrite !app_nil_r.
      by injection S3 as -> -> -> -> -> -> -> -> ->.
    - apply broken_mono; try done. cbn. by rewrite S4. }
  unfold page_placed in P7. destruct (pa_scanned pg) as [scanned|] eqn:Hsc.
  - destruct P7 as (He & Hsel & Hrec & Herr & Hdone & Hne & Hpr). rewrite Herr in H. cbn in H.
    destruct (String.eqb_spec (pg_next (pa_progress pg)) "") as [|_]; [done|]. injection H as <- <-. rewrite Hpr. cbn.
    assert (paging_by (w_next w) = Some scanned) as Hpaging by (by rewrite Hpc).
    destruct (d_paging _ _ (kp_delivery _ _ _ _ K Hl) scanned Hpaging) as (_ & _ & Hrange & _).
    set (s2 := set_outstanding _ _).
    assert (eyed s2 = (ls_feed (w_session w), ls_boundary (w_session w), last_seq scanned (ls_position (w_session w)), short scanned,
        ls_outstanding (w_session w) - Z.of_nat (length scanned), ls_chain (w_session w), ls_liveRead (w_session w),
        ls_queue (w_session w), ls_deliveringSeq (w_session w))
      ∧ ls_pumpsLaunched s2 = true ∧ ls_replayDone s2 = ls_replayDone s1 ∧ ls_dead s2 = ls_dead (w_session w)
      ∧ ls_pendingDrainClose s2 = ls_pendingDrainClose (w_session w)) as (Heq & E1 & E2 & E3 & E4).
    { assert (scanned_last scanned = 0 ∧ scanned = [] ∨ 0 < scanned_last scanned ∧ scanned ≠ []) as Hlast.
      - unfold scanned_last. destruct (last scanned) as [lc|] eqn:Hla; [right|left; by apply last_None in Hla].
        split; [|by intros ->]. apply last_Some_elem_of in Hla. by destruct (Hrange lc Hla) as (_ & ? & _).
      - unfold s2. injection S3 as Ef Eb Ep Ee Eo Ec Er Eq Ed. destruct Hlast as [[-> ->]|[Hlt Hne0]].
        + unfold eyed. cbn. by rewrite ?Ef, ?Eb, ?Ep, ?Eo, ?Ec, ?Er, ?Eq, ?Ed, ?Hd, <-?S1, ?S2, ?S4.
        + apply Z.ltb_lt in Hlt as ->. rewrite (last_seq_default scanned _ 0 Hne0). unfold eyed. cbn.
          by rewrite ?Ef, ?Eb, ?Ep, ?Eo, ?Ec, ?Er, ?Eq, ?Ed, ?Hd, <-?S1, ?S2, ?S4. }
    clearbody s2. injection Heq as Ef Eb Ep Ee Eo Ec Er Eq Ed.
    eapply (next_moves w) with (9 := rtc_once _ _ (vs_page _ (view_of w) scanned (pa_changes pg) Hpaging Hsel)); try done.
    + by rewrite He.
    + rewrite E2, Ee. intros Hs1. left. destruct (S5 Hs1) as [Hw|[Hpd _]]; [|by apply Hdone]. destruct (pl_done _ _ _ _ P Hw); congruence.
    + constructor; [|done]. split; [done|]. rewrite Ee. auto.
    + rewrite look_events by done. unfold look, view_of, at_broken. cbn. by rewrite Ef, Eb, Ep, Ee, Eo, Ec, Er, Eq, Ed, !app_nil_r.
    + apply broken_mono; try done; [by rewrite E3|by rewrite E4].
  - destruct P7 as (Hc & Hr & Hnx & Hex). rewrite Hnx in H. rewrite orb_true_r in H. injection H as <- <-.
    eapply (next_moves w) with (9 := rtc_once _ _ (vs_unscan _ (view_of w))); try done.
    + by injection S3 as _ _ _ -> _ _ _ _ _.
    + injection S3 as _ _ _ -> _ _ _ _ _. intros [Hrd|[Hpd Hpe]]%S5; [|by left; apply Hex].
      destruct (pl_done _ _ _ _ P Hrd); [by left|congruence].
    + constructor; [|done]. cbn. rewrite Hc, Hr. split; [done|]. injection S3 as _ _ _ -> _ _ _ _ _. exact Hex.
    + rewrite look_events by done. unfold look, view_of, at_broken. cbn. rewrite Hc. cbn. rewrite !app_nil_r.
      injection S3 as -> -> -> -> -> -> -> -> ->. done.
    + apply broken_mono; try done; [congruence|by rewrite S4].
Qed.
Lemma next_refines o w w' : keeps w → permits policy o → next_step faults rand sub o w = Some w' → refines w w'.
Proof.
  intros K Hpo H. assert (ls_pumpsLaunched (w_session w) = true) as Hl.
  { apply (launched_next w (kp_flags _ _ _ _ K)). intros Hoff. unfold next_step in H. by rewrite Hoff in H. }
  pose proof (pl_next _ _ _ _ (kp_placed _ _ _ _ K)) as P7. pose proof (pl_done _ _ _ _ (kp_placed _ _ _ _ K)) as P3.
  pose proof (keeps_fair rand sub policy w K) as Hfair.
  assert (∀ p s, calm (w_session w) s → eyed s = eyed (w_session w) → next_placed rand sub policy s p → paging_by p = None →
    (is_some (ls_pendingDrainClose (w_session w)) = true → is_some (ls_pendingDrainClose s) = true) →
    refines w (next_to w p s (w_log w) [])) as Hdrop by (intros; by apply next_drops).
  assert (∀ c y r, refines w (next_to w (NClear r (page_ended (snd (endPark c y (w_session w))) (Some (endCauseLocked (snd (endPark c y (w_session w)))))))
      (snd (endPark c y (w_session w))) (w_log w) [])) as Hend.
  { intros c y r. apply Hdrop; try done; [apply calm_parked|apply eyed_parked|by rewrite drain_close_parked]. }
  unfold next_step in H. destruct (w_next w) as [| |r|r|r sc|r sc ad|r e|r c|r pg|r pg|] eqn:Hpc; try discriminate H.
  - injection H as <-. by apply Hdrop.
  - injection H as <-. apply Hdrop; try done; destruct (ls_dead _); try done; destruct (ls_replayExhausted _) eqn:He; try done.
  - destruct (scan_replay _ _) as [[sc|e|] [s' l']] eqn:Hs; [| |done].
    all: apply scan_replay_result in Hs as (-> & Hl' & Hsc); injection H as <-.
    all: assert (fair (w_log w) l') as Hf by (apply grows_fair; [apply K|by apply same_tables_grows]).
    + destruct (Hsc sc eq_refl) as [-> Hcount].
      eapply (next_moves w) with (9 := rtc_l _ _ _ _ (vs_scan _ (view_of w) P7 Hcount) (rtc_once _ _ (vs_log _ (at_paging (Some _) (view_of w)) l' Hf))); try done.
      by rewrite app_nil_r.
    + eapply (next_moves w) with (9 := rtc_l _ _ _ _ (vs_unscan _ (view_of w)) (rtc_once _ _ (vs_log _ (at_paging None (view_of w)) l' Hf))); try done.
      by rewrite app_nil_r.
  - injection H as <-. destruct (admit_all _ _ _ _) as [admitted st] eqn:Ha.
    eapply admit_all_selects in Ha as (read & rest & -> & Hsel & Hran); [|done].
    destruct st as [|c|].
    + apply next_still; rewrite ?Hpc; try done. cbn. rewrite Hran, app_nil_r in * by done. done.
    + by apply Hdrop.
    + by apply Hdrop.
  - destruct (mint_page _ _ _ _ _ _ _ _ _) as [[[rs nx]|e|] [s' l']] eqn:Hm; [| |done].
    all: pose proof Hm as Hm0; eapply minted_page in Hm as (c & d & -> & Hsh & Hv); [|done..]; injection H as <-; destruct P7 as [He Hsel].
    + apply mint_page_records in Hm0 as [[Hne _]%minted_name Hrec]; [|done].
      destruct (page_of_placed (set_delivered d (set_chain c (w_session w))) sc ad rs nx) as [Hpp Hps]; try done.
      eapply (next_moves w) with (9 := Hv); try done; [apply Hsh|].
      rewrite app_nil_r. unfold look, view_of, at_broken. cbn -[page_of]. by rewrite Hps, Hpc.
    + eapply (next_moves w) with (9 := rtc_r _ _ _ Hv (vs_unscan _ _)); try done; [apply Hsh|].
      by rewrite app_nil_r.
  - injection H as <-. unfold endOnPageFailure. destruct (_ || _); [by apply Hdrop|].
    apply (Hdrop (NClear r (page_failed e)) (snd (endPark (Some (OfLog e)) true (w_session w)))); try done; parking (Some (OfLog e)) true.
  - rewrite !end_launched in H by done. injection H as <-. apply (Hend (Some c) false r).
  - injection H as <-. by apply next_still; rewrite ?Hpc.
  - destruct (finish_next r pg (w_session w)) as [s' ev] eqn:Hf. injection H as <-. by eapply finish_refines.
  - injection H as <-. by apply Hdrop.
Qed.
End Pages.

(** * Every execution of a subscription keeps to the delivery machine *)


Section Run.
Context (faults : nat → bool) (clock : nat → Z) (rand : nat → option (list Z)) (sub : subscription) (policy : answer → Prop).
Hypothesis rand_length : ∀ k raw, rand k = Some raw → length raw = cursorTokenBytes.
#[local] Abbreviation keeps := (keeps rand sub policy).
#[local] Abbreviation refines := (refines rand sub policy).
#[local] Abbreviation may := (may_admit sub policy).
#[local] Abbreviation step := (step faults clock rand sub policy).

(** ** Steps of an open session *)

Lemma rest_refines w s l t cp up evs :
  keeps w → ls_pumpsLaunched (w_session w) = true → calm (w_session w) s → eyed s = eyed (w_session w) → fair (w_log w) l →
  ls_pendingDrainClose s = ls_pendingDrainClose (w_session w) →
  (evs = [] ∨ ∃ e, evs = [e] ∧ reported rand s e ∧ event_paged e = [] ∧ event_notified e = []) →
  refines w (MkWorld l s t (w_fill w) (w_drain w) (w_poll w) (w_next w) cp up (w_trace w ++ evs)).
Proof.
  intros K Hl Hc He Hf Hpd Hev. apply still; try done.
  - eapply fill_placed_mono; [apply Hf|apply K].
  - apply K.
  - eapply poll_placed_mono; [apply Hf|apply K].
  - by apply keeps_next.
  - apply broken_mono; [apply Hc|by rewrite Hpd|done..].
Qed.
Lemma quietly_refines w s l t :
  keeps w → ls_pumpsLaunched (w_session w) = true → calm (w_session w) s → eyed s = eyed (w_session w) → fair (w_log w) l →
  ls_pendingDrainClose s = ls_pendingDrainClose (w_session w) →
  refines w (MkWorld l s t (w_fill w) (w_drain w) (w_poll w) (w_next w) (w_cancel w) (w_unpin w) (w_trace w)).
Proof. intros. rewrite <-(app_nil_r (w_trace w)). apply rest_refines; auto. Qed.

Lemma open_refines w w' : keeps w → ls_pumpsLaunched (w_session w) = true → step w w' → refines w w'.
Proof.
  intros K Hl Hs. assert (fair (w_log w) (w_log w)) as Hfair by exact (keeps_fair rand sub policy w K).
  destruct Hs as [o from w w' _ H|o w w' Hp H|o w w' H|o w w' H|o w w' Hp H|w w' H|w w' H|w|c w|t w|l w Hlog].
  - unfold listen_step in H. by rewrite Hl in H.
  - by eapply fill_refines.
  - by eapply drain_refines.
  - by eapply poll_refines.
  - by eapply next_refines.
  - unfold cancel_step in H. destruct (w_cancel w) eqn:Hpc; try discriminate H.
    + rewrite end_launched in H by done. injection H as <-.
      apply (rest_refines w (snd (endPark None false (w_session w)))); try done.
      all: parking (None (A:=cause)) false.
    + destruct (ls_firing _); injection H as <-; apply rest_refines; try done; first [by left|right; by eexists].
    + destruct (pumps_done w); [|done]. injection H as <-. apply rest_refines; try done; right; by eexists.
    + injection H as <-. apply rest_refines; try done; by left.
  - unfold unpin_step in H. destruct (w_unpin w) eqn:Hpc; try discriminate H; repeat case_match; simplify_eq; apply rest_refines; try done; first [by left|right; by eexists].
  - by apply quietly_refines.
  - apply quietly_refines; try done; [apply (calm_parked _ c false)|apply (eyed_parked c false)|apply (drain_close_parked c false)].
  - by apply quietly_refines.
  - apply quietly_refines; try done. eapply log_step_fair; [apply K|done].
Qed.

Lemma delivery_steps v v' : delivery may v → rtc (vstep may) v v' → delivery may v'.
Proof. intros D H. induction H as [|a b c Hab _ IH]; [done|]. apply IH. by eapply vdelivery_step. Qed.

Lemma keeps_open w w' : keeps w → ls_pumpsLaunched (w_session w) = true → step w w' → keeps w' ∧ ls_pumpsLaunched (w_session w') = true.
Proof.
  intros K Hl Hs. pose proof (open_refines w w' K Hl Hs) as [R1 R2 R3]. split.
  - split; [by eapply flags_step; [apply K|]|done|by apply R2|]. intros _. by eapply delivery_steps; [apply (kp_delivery _ _ _ _ K Hl)|].
  - eapply launched_step; [apply K|done..].
Qed.

(** ** Opening *)

(** The changes that the replay of a session will go through. *)
Definition replay_rows (s : listenSession) (l : changelog) : list (Z * log_row) :=
  rows_after (ls_position s) (Some (ls_boundary s)) (ls_feed s) None l.

Lemma head_bounds l : log_wf l → 0 ≤ head_of l ≤ cl_seq l ∧ ∀ seq row, cl_changes l !! seq = Some row → seq ≤ head_of l.
Proof.
  intros Hwf. pose proof (wf_seq _ Hwf). unfold head_of. destruct (max_of (seqs_where (λ _, true) l)) as [m|] eqn:Hm; cbn.
  - pose proof (max_of_elem _ _ Hm) as (row & Hr & _)%seqs_where_spec. pose proof (wf_changes _ Hwf _ _ Hr).
    split; [lia|]. intros seq row' Hr'. eapply max_of_ge; [done|]. apply seqs_where_spec. eauto.
  - split; [lia|]. intros seq row Hr. exfalso. assert (seq ∈ seqs_where (λ _, true) l) as Hin by (apply seqs_where_spec; eauto).
    destruct (seqs_where (λ _, true) l); [by apply elem_of_nil in Hin|done].
Qed.

(** The view of a session that was just opened. *)
Lemma opened_view w s' l' :
  flags w → ls_pumpsLaunched (w_session w) = false → ls_queue s' = [] → ls_deliveringSeq s' = 0 → ls_replayExhausted s' = false →
  view_of (launch w s' l')
  = MkView l' (ls_feed s') (ls_position s') (ls_boundary s') (ls_position s') false (ls_outstanding s') None (ls_chain s')
      (ls_liveRead s') [] [] [] 0 (v_broken (view_of (launch w s' l'))) [] [].
Proof.
  intros HF Hl Hq Hd He. destruct (fl_off _ HF Hl) as (_ & _ & _ & _ & _ & _ & Ht).
  unfold view_of, look, launch. cbn. rewrite Ht, Hq, Hd, He. reflexivity.
Qed.

Lemma delivery_opened l f p c b out broken l0 :
  log_wf l0 → shrinks l0 l → b = head_of l0 → sound_at l0 c p →
  delivery may (MkView l f p b p false out None c b [] [] [] 0 broken [] []).
Proof.
  intros Hwf0 Hsh -> Hsd. pose proof (fa_wf _ _ (sh_fair _ _ Hsh)) as Hwf. destruct (head_bounds l0 Hwf0) as [Hh Hmax].
  pose proof (sh_seq _ _ Hsh) as Hq.
  assert (∀ q, q ≤ cl_seq l → behind (MkView l f p (head_of l0) p false out None c (head_of l0) [] [] [] 0 broken [] []) q) as Hb.
  { intros q Hle. split_and!; cbn; [done| |by intros ? ?%elem_of_nil]. intros seq row Hr%(sh_changes _ _ Hsh) Hlt.
    specialize (Hmax _ _ Hr). lia. }
  split; unfold v_owed, v_stream; cbn; try done; try (by intros ? ?%elem_of_nil); try (by constructor).
  all: try (by left); try lia; try (apply Hb; rewrite Hq; apply Hsd); try (by intros ? ? ?%elem_of_nil).
  - intros _. apply (sound_mono l0); [lia| |exact Hsd]. intros seq row Hr%(sh_changes _ _ Hsh). eauto.
Qed.

Lemma replays_opened l f p c b broken l0 :
  shrinks l0 l → replays may (rows_after p (Some b) f None l0)
    (MkView l f p b p false (Z.of_nat (length (rows_after p (Some b) f None l0))) None c b [] [] [] 0 broken [] []).
Proof.
  intros Hsh. set (rows := rows_after _ _ _ _ _).
  assert (∀ x, x ∈ rows → p < x.1 ≤ b) as Hin.
  { intros x (_ & Hw & _)%elem_of_rows_after. unfold within in Hw. lia. }
  split; cbn; try done.
  - intros x Hx. by apply Hin.
  - intros seq row Hr Hf Hseq. apply elem_of_rows_after. cbn. split_and!; [by apply (sh_changes _ _ Hsh)| |done|done].
    unfold within. lia.
  - intros _. unfold ahead. rewrite filter_all; [done|]. intros x Hx. specialize (Hin x Hx). lia.
  - unfold upto. rewrite filter_none; [constructor|]. intros x Hx. specialize (Hin x Hx). lia.
Qed.

(** A session that [Store.Listen] opened. *)
Record opening (o : seen) (from : string) (w w' : world) : Prop := {
  og_refused : ls_pumpsLaunched (w_session w) = false;
  og_step : listen_step faults rand sub o from w = Some w';
  og_opened : ls_pumpsLaunched (w_session w') = true }.

Lemma opening_keeps o from w w' :
  keeps w → opening o from w w' →
  keeps w' ∧ replays may (replay_rows (w_session w') (w_log w)) (view_of w') ∧ fair (w_log w) (w_log w')
  ∧ ls_feed (w_session w') = feed_of (sb_table sub) (w_log w) ∧ ls_boundary (w_session w') = head_of (w_log w)
  ∧ starts (sn_now o 0%nat) (sb_retention sub) (sb_table sub) from (w_log w) (ls_position (w_session w')) (ls_chain (w_session w')).
Proof.
  intros K [Hl H Ho]. pose proof (kp_flags _ _ _ _ K) as HF. pose proof (flags_listen _ _ _ _ _ _ _ HF H) as HF'.
  destruct (pl_unopened _ _ _ _ (kp_placed _ _ _ _ K) Hl) as (U1 & U2 & U3 & U4 & U5 & U6 & U7).
  unfold listen_step in H. rewrite Hl in H. destruct (answer_panics _); [done|].
  destruct (open_session _ _ _ _ _ _ _) as [[[]|e|] [s' l']] eqn:Hop; injection H as <-; [|cbn in Ho; congruence..].
  apply open_session_Done in Hop as (Hsh & f & p & c & b & out & nc & Hs & [Of Ost Ob Oo]); [|apply K|done..].
  pose proof (starts_ok _ _ _ _ _ _ _ (kp_log _ _ _ _ K) Ost) as Hsd.
  assert (ls_feed s' = f ∧ ls_position s' = p ∧ ls_boundary s' = b ∧ ls_outstanding s' = out ∧ ls_chain s' = c ∧ ls_liveRead s' = b
    ∧ ls_queue s' = [] ∧ ls_deliveringSeq s' = 0 ∧ ls_replayExhausted s' = false ∧ ls_replayDone s' = false)
    as (E1 & E2 & E3 & E4 & E5 & E6 & E7 & E8 & E9 & E10) by (rewrite Hs; by split_and!).
  clear Hs. pose proof (opened_view w s' l' HF Hl E7 E8 E9) as Hv. rewrite E1, E2, E3, E4, E5, E6 in Hv.
  assert (delivery may (view_of (launch w s' l'))) as HD.
  { rewrite Hv. by apply (delivery_opened _ _ _ _ _ _ _ (w_log w)); [apply K|..]. }
  split_and!.
  - split; [exact HF'| |apply Hsh|by intros _].
    destruct (fl_off _ HF Hl) as (_ & _ & _ & _ & _ & _ & Ht).
    split; cbn; rewrite ?Ht, ?E10; try done. by constructor.
  - rewrite Hv, Oo. unfold replay_rows. cbn. rewrite E1, E2, E3. by apply replays_opened.
  - apply Hsh.
  - cbn. by rewrite E1.
  - cbn. by rewrite E3.
  - cbn. by rewrite E2, E5.
Qed.
(** ** Every execution *)

(** A session that is not open does nothing, but for opening it. *)
Lemma unopened_step w w' :
  keeps w → ls_pumpsLaunched (w_session w) = false → step w w' →
  (∃ o from, opening o from w w')
  ∨ fair (w_log w) (w_log w') ∧ unopened (w_session w') ∧ ls_pumpsLaunched (w_session w') = false.
Proof.
  intros K Hl Hs. destruct (fl_off _ (kp_flags _ _ _ _ K) Hl) as (E1 & E2 & E3 & E4 & E5 & E6 & _).
  pose proof (pl_unopened _ _ _ _ (kp_placed _ _ _ _ K) Hl) as HU. pose proof (fair_refl _ (kp_log _ _ _ _ K)) as Hfair.
  destruct Hs as [o from w w' _ H|o w w' _ H|o w w' H|o w w' H|o w w' _ H|w w' H|w w' H|w|c w|t w|l w Hlog].
  - destruct (ls_pumpsLaunched (w_session w')) eqn:Hl'; [left; exists o, from; by split|right].
    unfold listen_step in H. rewrite Hl in H. destruct (answer_panics _); [done|].
    destruct (open_session _ _ _ _ _ _ _) as [[[]|e|] [s' l']] eqn:Hop; injection H as <-; [by cbn in Hl'|..].
    all: split_and!; [|done..]; apply grows_fair, same_tables_grows; [apply K|]; eapply stx_not_Done; [exact Hop|done].
  - unfold fill_step in H. by rewrite E1 in H.
  - unfold drain_step in H. by rewrite E2 in H.
  - unfold poll_step in H. by rewrite E3 in H.
  - unfold next_step in H. by rewrite E4 in H.
  - unfold cancel_step in H. by rewrite E5 in H.
  - unfold unpin_step in H. by rewrite E6 in H.
  - by right.
  - right. cbn -[endParked]. change (endParked c (w_session w)) with (endPark c false (w_session w)).
    destruct (endPark_form c false (w_session w)) as (pc & pcy & dc & dcy & -> & _). by split_and!.
  - by right.
  - right. split_and!; [|done..]. eapply log_step_fair; [apply K|done].
Qed.

Lemma keeps_step w w' : keeps w → step w w' → keeps w'.
Proof.
  intros K Hs. destruct (ls_pumpsLaunched (w_session w)) eqn:Hl; [by apply (keeps_open w)|].
  pose proof (flags_step _ _ _ _ _ _ _ (kp_flags _ _ _ _ K) Hs) as HF'.
  destruct (unopened_step w w' K Hl Hs) as [(o & from & Ho)|(Hf & HU & Hl')]; [by apply (opening_keeps o from w)|].
  destruct (fl_off _ HF' Hl') as (E1 & E2 & E3 & E4 & _ & _ & Ht). pose proof HU as (_ & _ & _ & _ & Hd & _).
  split; [done| |apply Hf|congruence]. split; rewrite ?E1, ?E2, ?E3, ?E4, ?Ht, ?Hd, ?Hl'; done.
Qed.

Lemma keeps_new l : log_wf l → keeps (new_world l).
Proof. intros Hwf. split; [apply flags_new|by split|done|done]. Qed.
Lemma keeps_run w w' : keeps w → rtc step w w' → keeps w'.
Proof. intros K H. induction H as [|a b c Hab _ IH]; [done|]. apply IH. by eapply keeps_step. Qed.

(** An open session stays so, and its view goes by steps of the machine. *)
Lemma open_run w w' : keeps w → ls_pumpsLaunched (w_session w) = true → rtc step w w' →
  ls_pumpsLaunched (w_session w') = true ∧ rtc (vstep may) (view_of w) (view_of w').
Proof.
  intros K Hl H. induction H as [w|a b c Hab _ IH]; [done|].
  destruct (keeps_open a b K Hl Hab) as [K' Hl']. destruct (IH K' Hl') as [? ?]. split; [done|].
  etrans; [|done]. by apply (open_refines a b).
Qed.
Lemma step_fair w w' : keeps w → step w w' → fair (w_log w) (w_log w').
Proof.
  intros K Hs. destruct (ls_pumpsLaunched (w_session w)) eqn:Hl; [by apply (open_refines w w')|].
  destruct (unopened_step w w' K Hl Hs) as [(o & from & Ho)|(Hf & _)]; [by apply (opening_keeps o from w)|done].
Qed.

Lemma replays_run rows v v' :
  StronglySorted before rows → delivery may v → replays may rows v → rtc (vstep may) v v' → replays may rows v'.
Proof.
  intros Hrows D R H. induction H as [|a b c Hab _ IH]; [done|]. apply IH; [by eapply vdelivery_step|by eapply replays_step].
Qed.

(** What the machine never changes. *)
Lemma vstep_still v v' : vstep may v v' →
  v_feed v' = v_feed v ∧ v_start v' = v_start v ∧ v_boundary v' = v_boundary v ∧ (v_exhausted v = true → delivery may v → v_exhausted v' = true).
Proof.
  intros H. destruct H as [l H|c resume H1 H2 H3 H4| |admitted H|read admitted rest H1 H2| |lc queue H1 H2 H3|lc H| |H| |H1 H2| |scanned admitted H1 H2].
  all: split_and!; try done. intros He D. destruct (d_paging _ _ D _ H1) as [? _]. congruence.
Qed.
End Run.
