(* ===== verification/ListenBounds.v ===== *)
(** * The queue of a subscription is bounded

    It never holds more than the bound and one page, whatever commits and
    however slow the subscriber is: past the bound the session ends, or, when
    its feed has ended, waits. *)
From Stdlib Require Import ZArith Lia Ascii String.
From stdpp Require Import base gmap strings list sorting relations.
From S2P Require Import Prelude GoStrings AuthIdentity SchemaIdent Schema SchemaConstraints Authz GoNumbers Changelog.
From S2P Require Import ChangelogFacts ChangelogTheorems Listen ListenTx ListenFlags ListenTrace.
Local Open Scope Z_scope.

Definition queued (s : listenSession) : Z := Z.of_nat (length (ls_queue s)).
Definition closing (s : listenSession) : Prop := ls_dead s = true ∨ is_some (ls_pendingDrainClose s) = true.

Section Bounds.
Context (faults : nat → bool) (clock : nat → Z) (rand : nat → option (list Z)) (sub : subscription) (policy : answer → Prop).
#[local] Abbreviation step := (step faults clock rand sub policy).

(** How much the queue may hold where the filling goroutine is. *)
Definition room (p : fill_pc) (s : listenSession) : Prop :=
  match p with
  | FProtect _ ToRead | FRead | FOff => queued s ≤ bound sub
  | FAdmit l _ | FRevoked _ l _ | FAppend _ l _ => queued s ≤ bound sub ∧ (length l ≤ page_limit)%nat
  | FWait | FCheck | FProtect _ (ToReturn (Count _)) => queued s ≤ bound sub ∨ closing s
  | _ => True
  end.
Definition bounded (w : world) : Prop :=
  queued (w_session w) ≤ bound sub + Z.of_nat page_limit ∧ room (w_fill w) (w_session w).

(** A session whose queue is not longer, and that is still closing. *)
Definition eases (s s' : listenSession) : Prop :=
  queued s' ≤ queued s ∧ (closing s → closing s' ∨ queued s' ≤ bound sub).
#[local] Instance eases_refl : Reflexive eases.
Proof. intros s. split; [done|by left]. Qed.

Lemma bound_pos : 0 < bound sub.
Proof. unfold bound. destruct (Z.ltb_spec 0 (sb_queueBound sub)); [done|]. vm_compute. done. Qed.

Lemma room_eases p s s' : eases s s' → room p s → room p s'.
Proof.
  intros [Hq Hc]. assert (queued s ≤ bound sub ∨ closing s → queued s' ≤ bound sub ∨ closing s') as Hor.
  { intros [H|H]; [left; lia|]. destruct (Hc H); auto. }
  destruct p as [| | |g [|[n|c]]| | | | | | | |]; cbn; try done; try lia; auto.
Qed.
Lemma bounded_eases w w' : w_fill w' = w_fill w → eases (w_session w) (w_session w') → bounded w → bounded w'.
Proof. intros Hf He [H1 H2]. split; [destruct He; lia|]. rewrite Hf. by eapply room_eases. Qed.

Lemma eases_same s s' :
  ls_queue s' = ls_queue s → ls_dead s' = ls_dead s → ls_pendingDrainClose s' = ls_pendingDrainClose s → eases s s'.
Proof. intros Hq Hd Hp. unfold eases, queued, closing. rewrite Hq, Hd, Hp. split; [done|by left]. Qed.
Lemma eases_parked c y s : eases s (snd (endPark c y s)).
Proof.
  destruct (endPark_form c y s) as (pc & pcy & dc & dcy & -> & _). split; [done|]. intros _. left. by left.
Qed.
Lemma eases_flush p p' s s' evs : flush_step sub p s = Some (p', s', evs) → eases s s'.
Proof. intros H%flush_step_inv. destruct H; by apply eases_same. Qed.

Lemma admit_all_length authz i scanned : (length (fst (admit_all sub authz i scanned)) ≤ length scanned)%nat.
Proof.
  revert i. induction scanned as [|lc scanned IH]; intros i; cbn; [done|]. destruct (admit_to _ _ _) as [vis|c|]; cbn; [|lia..].
  specialize (IH (S i)). destruct (admit_all _ _ _ _); cbn in *. destruct vis; cbn; lia.
Qed.

Lemma not_closing s : isClosing s = false → ¬ closing s.
Proof. unfold isClosing, closing. intros H [Hd|Hp]; rewrite ?Hd, ?Hp, ?orb_true_r in H; done. Qed.

Lemma room_return b s : (∀ n, b = Count n → queued s ≤ bound sub ∨ closing s) → room (fill_return b) s.
Proof. intros H. destruct b as [n|c]; [|done]. specialize (H n eq_refl). unfold fill_return. by case_match. Qed.
Lemma room_leave first b s : (∀ n, b = Count n → queued s ≤ bound sub ∨ closing s) → room (fill_leave first b) s.
Proof. intros H. destruct first; [|by apply room_return]. cbn. destruct b as [n|c]; [by apply (H n)|done]. Qed.

Lemma room_finish n first ended s s' p :
  finish_batch sub n first ended s = (s', p) → over_bound sub s && ended && negb (ls_dead s) = false →
  room p s' ∧ queued s' = queued s.
Proof.
  unfold finish_batch, over_bound. intros [= <- <-] Hw. split; [|by destruct (ended && _)].
  apply room_leave. intros k Hk. unfold queued, closing.
  destruct (ls_dead s) eqn:Hd; [right; left; by destruct (ended && _)|].
  destruct (ended && _); [right; by right|]. rewrite andb_true_r in Hw.
  destruct (Z.ltb_spec (bound sub) (Z.of_nat (length (ls_queue s)))); [|left; lia]. destruct ended; [done|]. by cbn in Hk.
Qed.

Lemma queued_appended scanned admitted s : queued (appended_batch scanned admitted s) = queued s + Z.of_nat (length admitted).
Proof. unfold queued, appended_batch. cbn. rewrite length_app. destruct (last scanned); cbn; lia. Qed.

Lemma fill_bounded o w w' : bounded w → fill_step faults rand sub o w = Some w' → bounded w'.
Proof.
  intros [Hq Hr] H. unfold fill_step in H. pose proof bound_pos as Hb.
  destruct (w_fill w) as [| | |g k| |sc en|sc ad c|sc ad en|n first|c|p|] eqn:Hpc; try discriminate H; cbn -[page_limit] in Hr.
  - destruct (_ && _); [done|]. injection H as <-. split; [done|]. cbn. destruct (isClosing _); [done|exact Hr].
  - injection H as <-. split; [done|]. cbn. destruct (isClosing _) eqn:Hc; [done|]. destruct Hr as [?|?%not_closing]; done.
  - destruct (protect_step _ _ _ _ _ _ _) as [[g' s'] l'] eqn:Hg. apply protect_step_session in Hg as [q ->]. injection H as <-.
    split; [done|]. cbn -[fill_return]. destruct g'; [exact Hr|]. destruct k as [|b]; [exact Hr|]. apply room_return. by intros n ->.
  - destruct (pruneDue _ _ _) as [prune next]. destruct (readBatch _ _ _ _ _ _) as [[[sc en]|e|] [s' l']] eqn:Hrd; [| |done].
    all: pose proof Hrd as Hm; apply readBatch_moves, rechained_inv in Hm as (c & d & ->); injection H as <-; split; try done.
    apply readBatch_scanned in Hrd as ->. cbn -[page_limit]. split; [exact Hr|]. rewrite length_map, length_take. lia.
  - injection H as <-. split; [done|]. pose proof (admit_all_length (sn_authz o) 0 sc) as Hlen.
    cbn -[page_limit]. destruct (admit_all _ _ _ _) as [admitted [|c|]]; cbn -[page_limit] in *; [split; [tauto|lia]|split; [tauto|lia]|done].
  - destruct (ls_dead _) eqn:Hd; injection H as <-.
    + split; [cbn -[page_limit]; by destruct (last sc)|]. right. left. by destruct (last sc).
    + pose proof (queued_appended sc ad (w_session w)) as Hqa. split.
      * cbn -[page_limit appended_batch]. case_match; [|unfold queued in *; cbn -[page_limit appended_batch]]; lia.
      * cbn -[fill_leave]. apply room_leave. intros _ _. right. right. case_match; [|done].
        unfold appended_batch. by destruct (last sc).
  - set (s1 := appended_batch sc ad (w_session w)) in *. assert (queued s1 ≤ bound sub + Z.of_nat page_limit) as Hq1.
    { unfold s1. rewrite queued_appended. lia. }
    destruct (_ && _) eqn:Hw; [by injection H as <-|]. destruct (finish_batch _ _ _ _ _) as [s2 p] eqn:Hf. injection H as <-.
    apply room_finish in Hf as [Hro Hqe]; [|done]. split; [cbn -[page_limit]; lia|done].
  - destruct (_ && _) eqn:Hw; [done|]. destruct (finish_batch _ _ _ _ _) as [s2 p] eqn:Hf. injection H as <-.
    apply room_finish in Hf as [Hro Hqe]; [split; [cbn -[page_limit]; lia|done]|]. by rewrite andb_true_r.
  - injection H as <-. split; [|done]. destruct (eases_parked (Some c) true (w_session w)) as [Hle _].
    exact (Z.le_trans _ _ _ Hle Hq).
  - unfold fill_flush in H. destruct (flush_step sub p (w_session w)) as [[[p' s'] evs]|] eqn:Hfl; [|done]. injection H as <-.
    apply eases_flush in Hfl as [Hle _]. split; [exact (Z.le_trans _ _ _ Hle Hq)|]. by destruct p'.
Qed.
(** The others make the queue no longer. *)
Lemma drain_eases o w w' : ls_pumpsLaunched (w_session w) = true → drain_step faults rand sub o w = Some w' → eases (w_session w) (w_session w').
Proof.
  intros Hl H. unfold drain_step in H. destruct (w_drain w) as [| |lc|lc rec| |c|c|c|p|]; try discriminate H.
  - destruct (drain_take (w_session w)) as [[p s']|] eqn:Ht; [|done]. injection H as <-. unfold drain_take in Ht.
    destruct (drain_waits _); [done|]. destruct (ls_dead _); [by injection Ht as <- <-|].
    destruct (ls_queue (w_session w)) as [|lc q] eqn:Hq.
    + destruct (ls_pendingDrainClose _); injection Ht as <- <-; [|done]. split; [done|]. intros _. right. unfold queued. cbn. rewrite Hq.
      pose proof bound_pos. cbn. lia.
    + injection Ht as <- <-. unfold eases, queued, closing. cbn. rewrite Hq. cbn. split; [lia|by left].
  - destruct (mintOne _ _ _ _ _ _) as [[tok|e|] [s' l']] eqn:Hm; [| |done].
    all: apply mintOne_moves, rechained_inv in Hm as (c & d & ->); injection H as <-; by apply eases_same.
  - injection H as <-. by apply eases_same.
  - injection H as <-. by apply eases_same.
  - injection H as <-. by apply eases_same.
  - rewrite end_launched in H by done. injection H as <-. apply (eases_parked c false).
  - injection H as <-. apply (eases_parked (Some c) true).
  - unfold drain_flush in H. destruct (flush_step sub p (w_session w)) as [[[p' s'] evs]|] eqn:Hfl; [|done]. injection H as <-.
    by apply eases_flush in Hfl.
Qed.
Lemma poll_eases o w w' : ls_pumpsLaunched (w_session w) = true → poll_step faults rand sub o w = Some w' → eases (w_session w) (w_session w').
Proof.
  intros Hl H. unfold poll_step in H. destruct (w_poll w) as [| |c| |g|]; try discriminate H.
  - destruct (sn_stop o); [destruct (ls_dead _); [|done]|]; by injection H as <-.
  - rewrite end_launched in H by done. injection H as <-. apply (eases_parked (Some c) false).
  - injection H as <-. by apply eases_same.
  - destruct (protect_step _ _ _ _ _ _ _) as [[g' s'] l'] eqn:Hg. apply protect_step_session in Hg as [q ->]. injection H as <-.
    by apply eases_same.
Qed.
Lemma next_eases o w w' : ls_pumpsLaunched (w_session w) = true → next_step faults rand sub o w = Some w' → eases (w_session w) (w_session w').
Proof.
  intros Hl H. unfold next_step in H. destruct (w_next w) as [| |r|r|r sc|r sc ad|r e|r c|r pg|r pg|]; try discriminate H.
  - injection H as <-. by apply eases_same.
  - by injection H as <-.
  - destruct (scan_replay _ _) as [[sc|e|] [s' l']] eqn:Hs; [| |done]; apply scan_replay_moves in Hs as ->; by injection H as <-.
  - by injection H as <-.
  - destruct (mint_page _ _ _ _ _ _ _ _ _) as [[[rs nx]|e|] [s' l']] eqn:Hm; [| |done].
    all: apply mint_page_moves, rechained_inv in Hm as (c & d & ->); injection H as <-; by apply eases_same.
  - injection H as <-. unfold endOnPageFailure. destruct (_ || _); [done|apply (eases_parked (Some (OfLog e)) true)].
  - rewrite !end_launched in H by done. injection H as <-. apply (eases_parked (Some c) false).
  - injection H as <-. by apply eases_same.
  - destruct (finish_next r pg (w_session w)) as [s' ev] eqn:Hf. injection H as <-. unfold finish_next in Hf.
    repeat case_match; simplify_eq; by apply eases_same.
  - injection H as <-. by apply eases_same.
Qed.

Lemma bounded_step w w' : flags w → bounded w → step w w' → bounded w'.
Proof.
  intros HF HB Hs. destruct Hs as [o from w w' _ H|o w w' _ H|o w w' H|o w w' H|o w w' _ H|w w' H|w w' H|w|c w|t w|l w _].
  - unfold listen_step in H. destruct (ls_pumpsLaunched (w_session w)) eqn:Hl; [done|]. destruct (answer_panics _); [done|].
    destruct (fl_off _ HF Hl) as (E & _).
    destruct (open_session _ _ _ _ _ _ _) as [[[]|e|] [s' l']] eqn:Ho; injection H as <-.
    2,3: apply (bounded_eases w); try done; by apply eases_same.
    set (R := λ s1 s2, ls_queue s2 = ls_queue s1).
    assert (R (w_session w) s') as Hq; [|destruct HB as [H1 H2]; rewrite E in H2; split; [|left]; unfold queued in *; cbn -[page_limit]; by rewrite Hq].
    assert (PreOrder R) as HR by (split; unfold R; repeat intro; congruence).
    refine (stx_moved _ R _ _ _ _ _ _ Ho _). apply moves_at_moves. unfold open_start, open_stale.
    repeat first [ apply (moves_bind _); [|intros ?] | apply (moves_on_log _) | apply (moves_ret _) | apply (moves_fail _)
                 | apply (moves_of_session _) | by apply moves_on_session | case_match ].
  - by eapply fill_bounded.
  - apply drain_places in H as Hp. apply (bounded_eases w); [tauto| |done]. eapply drain_eases; [|done].
    apply launched_drain; [done|]. intros Hd. unfold drain_step in H. by rewrite Hd in H.
  - apply poll_places in H as Hp. apply (bounded_eases w); [tauto| |done]. eapply poll_eases; [|done].
    apply launched_poll; [done|]. intros Hd. unfold poll_step in H. by rewrite Hd in H.
  - apply next_places in H as Hp. apply (bounded_eases w); [tauto| |done]. eapply next_eases; [|done].
    apply launched_next; [done|]. intros Hd. unfold next_step in H. by rewrite Hd in H.
  - apply cancel_places in H as Hp. apply (bounded_eases w); [tauto| |done]. unfold cancel_step in H.
    destruct (w_cancel w) eqn:Hc; try discriminate H.
    + assert (ls_pumpsLaunched (w_session w) = true) as Hl.
      { destruct (ls_pumpsLaunched _) eqn:Hl; [done|]. destruct (fl_off _ HF Hl) as (_ & _ & _ & _ & ? & _). congruence. }
      rewrite end_launched in H by done. injection H as <-. apply (eases_parked None false).
    + destruct (ls_firing _); by injection H as <-.
    + destruct (pumps_done w); [|done]. by injection H as <-.
    + by injection H as <-.
  - unfold unpin_step in H. destruct (w_unpin w) eqn:Hu; try discriminate H; repeat case_match; simplify_eq; by apply (bounded_eases w).
  - apply (bounded_eases w); [done|by apply eases_same|done].
  - apply (bounded_eases w); [done| |done]. apply (eases_parked c false).
  - done.
  - done.
Qed.

Lemma bounded_reachable l w : rtc step (new_world l) w → bounded w.
Proof.
  intros H. assert (∀ w0 w1, rtc step w0 w1 → flags w0 → bounded w0 → bounded w1) as Hr.
  { induction 1 as [|a b c Hab _ IH]; [done|]. intros HF HB. apply IH; [by eapply flags_step|by eapply bounded_step]. }
  eapply Hr; [done|by apply flags_new|]. pose proof bound_pos. split; [change (0 ≤ bound sub + Z.of_nat page_limit)|change (0 ≤ bound sub)]; lia.
Qed.
End Bounds.
