(* ===== verification/ListenTheorems.v ===== *)
(** * What a subscriber can rely on

    Theorems over every interleaving of the goroutines of a subscription, of
    its callers, and of everything else that uses the log. *)
From Stdlib Require Import ZArith Lia Ascii String.
From stdpp Require Import base gmap strings list sorting relations.
From S2P Require Import Prelude GoStrings AuthIdentity SchemaIdent Schema SchemaConstraints Authz GoNumbers Changelog ChangelogFacts.
From S2P Require Import ChangelogTheorems Listen ListenTx ListenFlags ListenTrace ListenFinish ListenMachine ListenDelivery ListenRefines ListenSteps.
From S2P Require Import ListenPages ListenBounds.

(** * A subscription that runs

    A schedule is a list of which goroutine goes next; [run] runs one.  The
    executions here are those the theorems on subscriptions are applied to. *)

Local Open Scope Z_scope.

(** Who goes next; and a commit of another writer. *)
Inductive turn :=
| Listens (from : string) | Fills | Drains | Polls | Stops | Nexts | Cancels | Unpins | Wakes | EndsWith (c : option cause)
| Writes (ids : list Z) (owners : option (list string)).

Section Schedule.
Context (faults : nat → bool) (clock : nat → Z) (rand : nat → option (list Z)) (sub : subscription) (authz : answer) (now : Z).

Definition seen_at (stop : bool) : seen := MkSeen (λ _, now) (λ _ _, authz) None false false false false stop.
Definition write (ids : list Z) (owners : option (list string)) (l : changelog) :=
  in_tx faults (mintChanges faults clock 0 (sb_table sub) ChangeInsert ids owners) l.
Definition turn_step (t : turn) (w : world) : option world :=
  match t with
  | Listens from => listen_step faults rand sub (seen_at false) from w
  | Fills => fill_step faults rand sub (seen_at false) w
  | Drains => drain_step faults rand sub (seen_at false) w
  | Polls => poll_step faults rand sub (seen_at false) w
  | Stops => poll_step faults rand sub (seen_at true) w
  | Nexts => next_step faults rand sub (seen_at false) w
  | Cancels => cancel_step w
  | Unpins => unpin_step w
  | Wakes => Some (with_session w (set_woken true (w_session w)))
  | EndsWith c => Some (with_session w (snd (endParked c (w_session w))))
  | Writes ids owners => Some (with_log w (write ids owners (w_log w)).2)
  end.
Fixpoint run (ts : list turn) (w : world) : option world :=
  match ts with [] => Some w | t :: ts => match turn_step t w with Some w' => run ts w' | None => None end end.

Lemma run_steps policy ts w w' : policy authz → run ts w = Some w' → rtc (step faults clock rand sub policy) w w'.
Proof.
  intros Ha. assert (∀ b, permits policy (seen_at b)) as Hp by (by intros b i t).
  revert w. induction ts as [|t ts IH]; intros w; cbn; [by intros [= <-]|].
  destruct (turn_step t w) as [w1|] eqn:Ht; [|done]. intros H. eapply rtc_l; [|by apply IH].
  destruct t; cbn in Ht.
  - by eapply step_listen.
  - by eapply step_fill.
  - by eapply step_drain.
  - by eapply step_poll.
  - by eapply step_poll.
  - by eapply step_next.
  - by eapply step_cancel.
  - by eapply step_unpin.
  - injection Ht as <-. apply step_wake.
  - injection Ht as <-. apply step_ended.
  - injection Ht as <-. apply step_log. eapply step_write. apply surjective_pairing.
Qed.
Lemma run_app ts us w : run (ts ++ us) w = match run ts w with Some w' => run us w' | None => None end.
Proof. revert w. induction ts as [|t ts IH]; intros w; cbn; [done|]. by destruct (turn_step t w). Qed.
End Schedule.

(** ** The sample *)

Lemma counter_length : ∀ k raw, counter k = Some raw → length raw = cursorTokenBytes.
Proof. by intros k raw [= <-]. Qed.

(** A subscriber to [notes] that sees the rows of ann only. *)
Definition anns : subscription := MkSub "notes" minute 0 true true.
Definition ann : answer := Allowed (Some (MkRowScope "ann" false)) zero_incarnation.
Definition turns (ts : list turn) : world → option world := run no_faults sqlite_clock counter anns ann noon ts.
Definition noted (w : option world) : world := default (new_world empty_log) w.

(** Three rows are written; the subscriber reads ann's in a page, is seen_at that
    the replay is over, and is notified of the next one; then the server ends
    it, and everything about it finishes. *)
Definition times (n : nat) (t : turn) : list turn := repeat t n.
Definition wrote : world := noted (turns [Writes [10; 20; 30] (Some ["ann"; "bob"; "ann"])] (new_world empty_log)).
Definition listening : world := noted (turns [Listens CursorBegin] wrote).
Definition replayed : world := noted (turns (times 11 Nexts) listening).
Definition queued_one : world := noted (turns ([Writes [40] (Some ["ann"]); Wakes] ++ times 9 Fills) replayed).
Definition notified : world := noted (turns (times 4 Drains) queued_one).
Definition ending : world := noted (turns [EndsWith (Some (Explicit "drain"))] notified).
Definition finished : world :=
  noted (turns (times 4 Fills ++ times 2 Drains ++ [Stops] ++ times 3 Cancels ++ times 3 Unpins) ending).

(** The authorization stays what it is. *)
Definition stays (a : answer) : Prop := a = ann.
#[local] Abbreviation steps := (rtc (step no_faults sqlite_clock counter anns stays)).
Lemma turned ts w w0 : steps w0 w → is_some (turns ts w) = true → steps w0 (noted (turns ts w)).
Proof.
  intros H0 H. destruct (turns ts w) as [w'|] eqn:Ht; [|done]. etrans; [exact H0|]. eapply run_steps; [done|exact Ht].
Qed.

Lemma wrote_runs : steps (new_world empty_log) wrote.
Proof. apply turned; [done|vm_compute; reflexivity]. Qed.
Lemma listening_runs : steps (new_world empty_log) listening.
Proof. apply turned; [apply wrote_runs|vm_compute; reflexivity]. Qed.
Lemma replayed_runs : steps (new_world empty_log) replayed.
Proof. apply turned; [apply listening_runs|vm_compute; reflexivity]. Qed.
Lemma queued_one_runs : steps (new_world empty_log) queued_one.
Proof. apply turned; [apply replayed_runs|vm_compute; reflexivity]. Qed.
Lemma notified_runs : steps (new_world empty_log) notified.
Proof. apply turned; [apply queued_one_runs|vm_compute; reflexivity]. Qed.
Lemma ending_runs : steps (new_world empty_log) ending.
Proof. apply turned; [apply notified_runs|vm_compute; reflexivity]. Qed.
Lemma finished_runs : steps (new_world empty_log) finished.
Proof. apply turned; [apply ending_runs|vm_compute; reflexivity]. Qed.

(** What was seen: the changes by their numbers, and what else is shown. *)
Definition shown (e : event) : list Z * string :=
  match e with
  | EOpened p b => ([p; b], "opened")
  | EPaged changes _ _ done _ => (map lc_seq changes, if done then "done" else "page")
  | ENotified lc _ => ([lc_seq lc], "notified")
  | EClosed _ => ([], "closed")
  | ECancelled _ => ([], "cancelled")
  | EUnpinned => ([], "unpinned")
  end.
Example listen_sample :
  map shown (w_trace finished)
  = [([0; 3], "opened"); ([1; 3], "page"); ([], "done"); ([4], "notified"); ([], "closed"); ([], "cancelled"); ([], "unpinned")].
Proof. vm_compute. reflexivity. Qed.


(** The changes handed to the subscriber, in the order of the trace. *)
Definition event_delivered (e : event) : list loggedChange := event_paged e ++ event_notified e.
Definition delivered_of (tr : list event) : list loggedChange := concat (map event_delivered tr).

Lemma delivered_app tr evs : delivered_of (tr ++ evs) = delivered_of tr ++ delivered_of evs.
Proof. unfold delivered_of. by rewrite map_app, concat_app. Qed.

Section Theorems.
Context (faults : nat → bool) (clock : nat → Z) (rand : nat → option (list Z)) (sub : subscription) (policy : answer → Prop).
Hypothesis rand_length : ∀ k raw, rand k = Some raw → length raw = cursorTokenBytes.
#[local] Abbreviation keeps := (keeps rand sub policy).
#[local] Abbreviation may := (may_admit sub policy).
#[local] Abbreviation step := (step faults clock rand sub policy).

Lemma keeps_reachable l w : log_wf l → rtc step (new_world l) w → keeps w.
Proof. intros Hwf. apply keeps_run; [done|]. by apply keeps_new. Qed.

(** The pages come before the notifications. *)
Lemma delivered_split l w : log_wf l → rtc step (new_world l) w → delivered_of (w_trace w) = paged_of (w_trace w) ++ notified_of (w_trace w).
Proof.
  intros Hwf. apply (rtc_ind_r (λ w, delivered_of (w_trace w) = paged_of (w_trace w) ++ notified_of (w_trace w))); [done|].
  intros w0 w1 Hr Hs IH. pose proof (keeps_reachable _ _ Hwf Hr) as K.
  destruct (ad_trace _ _ _ (step_advances _ _ _ _ _ _ _ (kp_flags _ _ _ _ K) Hs)) as [->|(e & -> & He)]; [done|].
  assert (delivered_of [e] = event_paged e ++ event_notified e ∧ paged_of [e] = event_paged e ∧ notified_of [e] = event_notified e) as (E1 & E2 & E3).
  { unfold delivered_of, paged_of, notified_of. cbn. by rewrite !app_nil_r. }
  rewrite delivered_app, paged_app, notified_app, IH, E1, E2, E3. clear E1 E2 E3.
  destruct (event_paged e) as [|lc pg] eqn:Hp; [by rewrite app_nil_r, <-app_assoc|].
  assert (notified_of (w_trace w0) = []) as ->; [|by rewrite app_nil_r, <-app_assoc].
  destruct He as [| r p Hn Hd| | | | | |]; try done. cbn in Hp.
  assert (ls_pumpsLaunched (w_session w0) = true) as Hl by (apply (launched_next w0 (kp_flags _ _ _ _ K)); congruence).
  pose proof (kp_delivery _ _ _ _ K Hl) as D. pose proof (pl_next _ _ _ _ (kp_placed _ _ _ _ K)) as Hpl. rewrite Hn in Hpl. cbn in Hpl.
  unfold page_placed in Hpl. destruct (pa_scanned p); [|destruct Hpl; congruence]. destruct Hpl as [He _].
  pose proof (d_notified_after _ _ D) as Hna. cbn in Hna. destruct (notified_of (w_trace w0)); [done|]. by specialize (Hna ltac:(done)); congruence.
Qed.

(** C3. Whatever the interleaving, the changes a subscriber is given, over
    the pages of the replay and the notifications after it, have increasing
    numbers (each is given once, none after a later one), come after the
    position the subscription was opened at, are changes of its feed that an
    authorization it was running under admits, and each record is that of its
    change under a cursor made from the random source. *)
Theorem subscriber_sees_in_order l w :
  log_wf l → rtc step (new_world l) w →
  StronglySorted earlier (delivered_of (w_trace w))
  ∧ (∀ lc, lc ∈ delivered_of (w_trace w) →
       opened_at (w_trace w) < lc_seq lc ∧ may lc true
       ∧ ∃ row, lc = logged (lc_seq lc, row) ∧ in_feed (ls_feed (w_session w)) row = true)
  ∧ Forall (reported rand (w_session w)) (w_trace w).
Proof.
  intros Hwf Hr. pose proof (keeps_reachable _ _ Hwf Hr) as K. rewrite (delivered_split _ _ Hwf Hr).
  assert (Forall (reported rand (w_session w)) (w_trace w)) as Hrep by apply K.
  destruct (ls_pumpsLaunched (w_session w)) eqn:Hl.
  - pose proof (kp_delivery _ _ _ _ K Hl) as D. split_and!; [apply (d_stream_sorted _ _ D)| |done].
    pose proof (d_start _ _ D) as Hst. cbn in Hst.
    intros lc [Hlc|Hlc]%elem_of_app.
    + destruct (d_paged _ _ D lc Hlc) as (? & _ & (_ & Hf) & Hm). cbn in *. split_and!; [lia|done|exact Hf].
    + destruct (d_notified _ _ D lc Hlc) as (? & ? & (_ & Hf) & Hm). cbn in *. split_and!; [lia|done|exact Hf].
  - destruct (fl_off _ (kp_flags _ _ _ _ K) Hl) as (_ & _ & _ & _ & _ & _ & Ht). rewrite Ht. split_and!; [constructor| |by rewrite <-Ht].
    by intros lc ?%elem_of_nil.
Qed.

(** C13. While a subscription has not lost a change or begun to end, it passes
    nothing over: a change of its feed that is in the log, after the position
    it was opened at and not after what it has read of the log, and that no
    authorization it runs under hides, has been given to the subscriber,
    waits in the queue or in the hands of the draining goroutine, or is still
    ahead of the replay. *)
Theorem nothing_passed_over l w seq row :
  log_wf l → rtc step (new_world l) w → ls_pumpsLaunched (w_session w) = true →
  broken_by (w_session w) (w_fill w) (w_drain w) = false →
  cl_changes (w_log w) !! seq = Some row → in_feed (ls_feed (w_session w)) row = true →
  opened_at (w_trace w) < seq ≤ ls_liveRead (w_session w) → ¬ may (logged (seq, row)) false →
  logged (seq, row) ∈ delivered_of (w_trace w)
  ∨ logged (seq, row) ∈ held_by (w_drain w) ++ ls_queue (w_session w)
  ∨ ls_replayExhausted (w_session w) = false ∧ ls_position (w_session w) < seq ≤ ls_boundary (w_session w).
Proof.
  intros Hwf Hr Hl Hbr Hrow Hf Hseq Hm. pose proof (keeps_reachable _ _ Hwf Hr) as K. rewrite (delivered_split _ _ Hwf Hr).
  pose proof (kp_delivery _ _ _ _ K Hl) as D. destruct (decide (seq ≤ ls_boundary (w_session w))) as [Hle|Hgt].
  - destruct (decide (seq ≤ ls_position (w_session w))) as [Hp|Hp].
    + left. apply elem_of_app. left. apply (d_replayed _ _ D seq row); cbn; auto. lia.
    + destruct (ls_replayExhausted (w_session w)) eqn:He; [|right; right; split; [done|lia]].
      left. apply elem_of_app. left. apply (d_replayed _ _ D seq row); cbn; auto. lia.
  - pose proof (d_cover _ _ D seq row Hbr Hrow Hf) as Hc. cbn in Hc. specialize (Hc ltac:(lia) Hm).
    apply elem_of_app in Hc as [Hc|Hc]; [left; apply elem_of_app; by right|right; by left].
Qed.

(** C4. The replay is exact: the pages are what the authorizations admit_to of
    the changes of the feed that the log held when the subscription was
    opened, after its cursor and up to the head of the log, taken in order
    from the first, none lost to a pruning that came meanwhile; and a page
    that says the replay is done comes when all of them were gone through. *)
Theorem replay_exact l w0 o from w1 w :
  log_wf l → rtc step (new_world l) w0 → opening faults rand sub o from w0 w1 → rtc step w1 w →
  let rows := rows_after (ls_position (w_session w1)) (Some (head_of (w_log w0))) (feed_of (sb_table sub) (w_log w0)) None (w_log w0) in
  starts (sn_now o 0%nat) (sb_retention sub) (sb_table sub) from (w_log w0) (ls_position (w_session w1)) (ls_chain (w_session w1))
  ∧ ∃ past rest, rows = past ++ rest ∧ selects may (map logged past) (paged_of (w_trace w))
    ∧ ∀ changes records next, EPaged changes records next true None ∈ w_trace w → rest = [].
Proof.
  intros Hwf Hr0 Ho Hr rows. pose proof (keeps_reachable _ _ Hwf Hr0) as K0.
  destruct (opening_keeps faults rand sub policy o from w0 w1 K0 Ho) as (K1 & R1 & _ & Hf & Hb & Hst). split; [exact Hst|].
  pose proof (og_opened _ _ _ _ _ _ _ Ho : ls_pumpsLaunched (w_session w1) = true) as Hl1. destruct (open_run _ _ _ _ _ rand_length _ _ K1 Hl1 Hr) as [Hl Hv].
  pose proof (keeps_run _ _ _ _ _ rand_length _ _ K1 Hr) as K.
  unfold replay_rows in R1. rewrite Hf, Hb in R1. fold rows in R1.
  assert (StronglySorted before rows) as Hsort by apply rows_after_sorted.
  pose proof (replays_run _ _ _ _ _ Hsort (kp_delivery _ _ _ _ K1 Hl1) R1 Hv) as R.
  exists (upto (ls_position (w_session w)) rows), (ahead (ls_position (w_session w)) rows). split_and!.
  - by apply sorted_split.
  - apply (r_paged _ _ _ R).
  - intros changes records next Hin. apply (r_exhausted _ _ _ R). cbn.
    pose proof (pl_reported _ _ _ _ (kp_placed _ _ _ _ K)) as Hrep. rewrite Forall_forall in Hrep.
    destruct (Hrep _ Hin) as [_ Hd]. by apply Hd.
Qed.
(** C2. The goroutines of a subscription refine the delivery machine: from
    any state of an open one, every execution of the code, in any
    interleaving, is one of the machine on its view, whose steps are to read
    a batch in full, append what is admitted of it, hand on the head of the
    queue, and turn a scanned page into a delivered one. *)
Theorem subscription_refines l w w' :
  log_wf l → rtc step (new_world l) w → ls_pumpsLaunched (w_session w) = true → rtc step w w' →
  rtc (vstep may) (view_of w) (view_of w') ∧ delivery may (view_of w').
Proof.
  intros Hwf Hr Hl Hr'. pose proof (keeps_reachable _ _ Hwf Hr) as K.
  destruct (open_run _ _ _ _ _ rand_length _ _ K Hl Hr') as [Hl' Hv]. split; [done|].
  pose proof (keeps_run _ _ _ _ _ rand_length _ _ K Hr') as K'. by apply (kp_delivery _ _ _ _ K').
Qed.

(** C24. A subscription is fair to the other readers of the log: no step of
    its goroutines, its opening included, takes from a cursor that is kept a
    change after the cursor's position, moves the cursor, or makes up a
    change. *)
Theorem subscription_keeps_cursors l w w' : log_wf l → rtc step (new_world l) w → step w w' → fair (w_log w) (w_log w').
Proof. intros Hwf Hr Hs. eapply step_fair; [done|by eapply keeps_reachable|done]. Qed.
End Theorems.

Section Ends.
Context (faults : nat → bool) (clock : nat → Z) (rand : nat → option (list Z)) (sub : subscription) (policy : answer → Prop).
#[local] Abbreviation step := (step faults clock rand sub policy).

(** C14. A subscriber under a row scope sees its own rows only: when every
    authorization that lets it in is scoped to [owner], every change it is
    given, in a page or a notification, is labelled with [owner]. *)
Theorem scoped_subscriber_sees_own owner l w lc :
  (∀ k raw, rand k = Some raw → length raw = cursorTokenBytes) → log_wf l →
  sb_has_authz sub = true → (∀ scope inc, policy (Allowed scope inc) → ∃ sc, scope = Some sc ∧ rs_Owner sc = owner) →
  rtc step (new_world l) w → lc ∈ delivered_of (w_trace w) → cr_Owner (lc_rec lc) = owner ∧ owner ≠ "".
Proof.
  intros Hrand Hwf Ha Hp Hr Hlc. destruct (subscriber_sees_in_order _ _ _ _ _ Hrand _ _ Hwf Hr) as (_ & Hd & _).
  destruct (Hd lc Hlc) as (_ & (a & Hpa & Hadm) & _). unfold admit_to in Hadm. rewrite Ha in Hadm. cbn [negb] in Hadm.
  destruct a as [|scope inc|]; [done| |done]. destruct (Hp _ _ Hpa) as (sc & -> & Ho).
  destruct (rs_Empty sc); [done|]. destruct (String.eqb_spec (cr_Owner (lc_rec lc)) ""); [done|].
  destruct (String.eqb_spec (rs_Owner sc) (cr_Owner (lc_rec lc))) as [He|]; [|done]. split; congruence.
Qed.

(** C22. An end is an end: once the close callback was called, the cancel
    function returned after its wait, or the namespace was let go, no page
    holds a change, nothing is notified and no close is called (again); and
    once the namespace was let go, no step of the session, of its goroutines
    or of its callers, changes the log: a step that does is another user's,
    and changes nothing else. *)
Theorem nothing_after_end l w w' :
  rtc step (new_world l) w → step w w' →
  stops (w_trace w')
  ∧ (EUnpinned ∈ w_trace w →
       (session_step faults rand sub policy w w' → w_log w' = w_log w)
       ∧ (w_log w' = w_log w ∨ ∃ l', log_step faults clock rand (w_log w) l' ∧ w' = with_log w l')).
Proof.
  intros Hr Hs. pose proof (flags_reachable _ _ _ _ _ _ _ Hr) as HF. pose proof (ends_well_reachable _ _ _ _ _ _ _ Hr) as HE. split.
  - by apply (ends_well_step _ _ _ _ _ _ _ HF HE Hs).
  - intros Hu. split; [intros Ho; by eapply unpinned_log|].
    apply step_whose in Hs as [Ho|Hl]; [left; by eapply unpinned_log|by right].
Qed.

(** C21. An ended subscription finishes: from wherever its goroutines and a
    call of [Next] are when it ends, they can run to their ends, whatever
    the faults, and then the close callback was called, if there is one and
    the subscription ended with a cause. *)
Theorem ended_subscription_finishes l w a :
  rtc step (new_world l) w → policy a → ls_pumpsLaunched (w_session w) = true → ls_dead (w_session w) = true →
  ∃ w', rtc step w w' ∧ pumps_done w' = true ∧ w_next w' = NIdle
    ∧ (sb_has_closed sub = true → is_some (ls_deathCause (w_session w')) = true → ∃ c, EClosed c ∈ w_trace w').
Proof.
  intros Hr Ha Hl Hd. pose proof (flags_reachable _ _ _ _ _ _ _ Hr) as HF.
  destruct (dead_runs faults clock rand sub policy (rank w) w a HF Ha Hd (le_n _)) as (w' & Hw & Hz). apply (works_reaches _ clock) in Hw.
  assert (rtc step (new_world l) w') as Hr' by (by etrans). pose proof (flags_reachable _ _ _ _ _ _ _ Hr') as HF'.
  pose proof (launched_run _ _ _ _ _ _ _ HF Hl Hw) as Hl'.
  destruct (rank_done w' HF' Hl' Hz) as [Hp Hn]. exists w'. split_and!; try done. intros Hc Hdc.
  eapply close_shown; [exact Hr'|done|]. by rewrite (done_fired w' HF' Hp Hdc).
Qed.

(** C23. The queue of a subscription never holds more than its bound and one
    page. *)
Theorem queue_bounded l w :
  rtc step (new_world l) w → Z.of_nat (length (ls_queue (w_session w))) ≤ bound sub + Z.of_nat page_limit.
Proof. intros Hr. apply (bounded_reachable _ _ _ _ _ _ _ Hr). Qed.
End Ends.

(** ** A subscription that runs *)

#[local] Abbreviation sample_step := (step no_faults sqlite_clock counter anns stays).
#[local] Abbreviation sample_may := (may_admit anns stays).

Lemma empty_log_wf : log_wf empty_log.
Proof. apply new_log_wf. Qed.

Lemma subscriber_sees_in_order_witness :
  map lc_seq (delivered_of (w_trace finished)) = [1; 3; 4]
  ∧ StronglySorted earlier (delivered_of (w_trace finished))
  ∧ (∀ lc, lc ∈ delivered_of (w_trace finished) →
       opened_at (w_trace finished) < lc_seq lc ∧ sample_may lc true
       ∧ ∃ row, lc = logged (lc_seq lc, row) ∧ in_feed (ls_feed (w_session finished)) row = true)
  ∧ Forall (reported counter (w_session finished)) (w_trace finished).
Proof.
  split; [vm_compute; reflexivity|].
  exact (subscriber_sees_in_order no_faults sqlite_clock counter anns stays counter_length empty_log finished empty_log_wf finished_runs).
Defined.

(** The row of the change that ann is about to be notified of. *)
Definition fourth_row : log_row := default (MkLogRow "" 0 "" None None [] 0 0) (cl_changes (w_log queued_one) !! 4).
Lemma ann_is_let_in : ¬ sample_may (logged (4, fourth_row)) false.
Proof. intros (a & -> & Ha). revert Ha. vm_compute. discriminate. Qed.

Lemma nothing_passed_over_witness :
  map lc_seq (delivered_of (w_trace queued_one)) = [1; 3]
  ∧ (logged (4, fourth_row) ∈ delivered_of (w_trace queued_one)
     ∨ logged (4, fourth_row) ∈ held_by (w_drain queued_one) ++ ls_queue (w_session queued_one)
     ∨ ls_replayExhausted (w_session queued_one) = false
       ∧ ls_position (w_session queued_one) < 4 ≤ ls_boundary (w_session queued_one)).
Proof.
  split; [vm_compute; reflexivity|].
  refine (nothing_passed_over no_faults sqlite_clock counter anns stays counter_length empty_log queued_one 4 fourth_row
    empty_log_wf queued_one_runs _ _ _ _ _ ann_is_let_in).
  - vm_compute. reflexivity.
  - vm_compute. reflexivity.
  - vm_compute. reflexivity.
  - vm_compute. reflexivity.
  - split; vm_compute; [reflexivity|discriminate].
Defined.

Lemma opened_listening : opening no_faults counter anns (seen_at ann noon false) CursorBegin wrote listening.
Proof. split; vm_compute; reflexivity. Qed.
Lemma listening_goes_on : rtc sample_step listening replayed.
Proof. apply turned; [done|vm_compute; reflexivity]. Qed.

Lemma replay_exact_witness :
  let rows := rows_after (ls_position (w_session listening)) (Some (head_of (w_log wrote))) (feed_of "notes" (w_log wrote)) None (w_log wrote) in
  map fst rows = [1; 2; 3]
  ∧ starts noon minute "notes" CursorBegin (w_log wrote) (ls_position (w_session listening)) (ls_chain (w_session listening))
  ∧ ∃ past rest, rows = past ++ rest ∧ selects sample_may (map logged past) (paged_of (w_trace replayed))
    ∧ ∀ changes records next, EPaged changes records next true None ∈ w_trace replayed → rest = [].
Proof.
  split; [vm_compute; reflexivity|].
  exact (replay_exact no_faults sqlite_clock counter anns stays counter_length empty_log wrote (seen_at ann noon false) CursorBegin
    listening replayed empty_log_wf wrote_runs opened_listening listening_goes_on).
Defined.

Lemma drained : rtc sample_step queued_one notified.
Proof. apply turned; [done|vm_compute; reflexivity]. Qed.

Lemma subscription_refines_witness :
  rtc (vstep sample_may) (view_of queued_one) (view_of notified) ∧ delivery sample_may (view_of notified)
  ∧ map lc_seq (v_notified (view_of notified)) = [4].
Proof.
  assert (ls_pumpsLaunched (w_session queued_one) = true) as Hl by (vm_compute; reflexivity).
  destruct (subscription_refines no_faults sqlite_clock counter anns stays counter_length empty_log queued_one notified
    empty_log_wf queued_one_runs Hl drained) as [H1 H2]. split; [exact H1|split; [exact H2|]]. vm_compute. reflexivity.
Defined.

Lemma opens_fairly : sample_step wrote listening.
Proof. eapply (step_listen _ _ _ _ _ (seen_at ann noon false) CursorBegin); [done|]. vm_compute. reflexivity. Qed.
Lemma subscription_keeps_cursors_witness : fair (w_log wrote) (w_log listening).
Proof.
  exact (subscription_keeps_cursors no_faults sqlite_clock counter anns stays counter_length empty_log wrote listening
    empty_log_wf wrote_runs opens_fairly).
Defined.

Lemma ann_only scope inc : stays (Allowed scope inc) → ∃ sc, scope = Some sc ∧ rs_Owner sc = "ann".
Proof. intros [= -> ->]. by eexists. Qed.
Lemma scoped_subscriber_sees_own_witness :
  map lc_seq (delivered_of (w_trace finished)) = [1; 3; 4]
  ∧ ∀ lc, lc ∈ delivered_of (w_trace finished) → cr_Owner (lc_rec lc) = "ann" ∧ "ann" ≠ "".
Proof.
  split; [vm_compute; reflexivity|]. intros lc Hlc.
  exact (scoped_subscriber_sees_own no_faults sqlite_clock counter anns stays "ann" empty_log finished lc counter_length empty_log_wf
    eq_refl ann_only finished_runs Hlc).
Defined.

(** Everything about the subscription finished, and then the handle on the
    replay is asked for a page; [answered] is after the answer. *)
Definition asked : world := noted (turns (times 3 Nexts) finished).
Definition answered : world := noted (turns [Nexts] asked).
Lemma asked_runs : steps (new_world empty_log) asked.
Proof. apply turned; [apply finished_runs|vm_compute; reflexivity]. Qed.
Lemma asked_answers : session_step no_faults counter anns stays asked answered.
Proof. eapply (own_next _ _ _ _ (seen_at ann noon false)); [done|]. vm_compute. reflexivity. Qed.
Lemma nothing_after_end_witness :
  map shown (w_trace answered)
  = [([0; 3], "opened"); ([1; 3], "page"); ([], "done"); ([4], "notified"); ([], "closed"); ([], "cancelled"); ([], "unpinned"); ([], "done")]
  ∧ EClosed (Explicit "drain") ∈ w_trace asked ∧ ECancelled true ∈ w_trace asked ∧ EUnpinned ∈ w_trace asked
  ∧ stops (w_trace answered) ∧ w_log answered = w_log asked.
Proof.
  assert (EUnpinned ∈ w_trace asked) as Hu by (apply (list_elem_of_lookup_2 _ 6); vm_compute; reflexivity).
  pose proof (nothing_after_end no_faults sqlite_clock counter anns stays empty_log asked answered asked_runs
    (proj2 (step_whose _ _ _ _ _ _ _) (or_introl asked_answers))) as [Hs Hl].
  split; [vm_compute; reflexivity|].
  split; [apply (list_elem_of_lookup_2 _ 4); vm_compute; reflexivity|].
  split; [apply (list_elem_of_lookup_2 _ 5); vm_compute; reflexivity|].
  split; [exact Hu|split; [exact Hs|]].
  exact (proj1 (Hl Hu) asked_answers).
Defined.

Lemma ended_subscription_finishes_witness :
  ∃ w', rtc sample_step ending w' ∧ pumps_done w' = true ∧ w_next w' = NIdle
    ∧ (sb_has_closed anns = true → is_some (ls_deathCause (w_session w')) = true → ∃ c, EClosed c ∈ w_trace w').
Proof.
  refine (ended_subscription_finishes no_faults sqlite_clock counter anns stays empty_log ending ann ending_runs eq_refl _ _).
  - vm_compute. reflexivity.
  - vm_compute. reflexivity.
Defined.

Lemma queue_bounded_witness :
  length (ls_queue (w_session queued_one)) = 1%nat
  ∧ Z.of_nat (length (ls_queue (w_session queued_one))) ≤ bound anns + Z.of_nat page_limit.
Proof.
  split; [vm_compute; reflexivity|].
  exact (queue_bounded no_faults sqlite_clock counter anns stays empty_log queued_one queued_one_runs).
Defined.
