(* ===== verification/GoFloats.v ===== *)
(** * float64 arithmetic and texts

    What the source uses of [float64], [math] and [strconv]: parsing with the
    two kinds of error, the shortest and the fixed formats of
    [strconv.FormatFloat], conversions and the arithmetic of IEEE 754, as
    exact rationals rounded to the nearest double, ties to even. *)
From Stdlib Require Import ZArith Lia Ascii String.
From stdpp Require Import base gmap strings list numbers pretty.
From S2P Require Import Prelude GoStrings GoNumbers.
Local Open Scope Z_scope.

(** A finite double is [m * 2^e]; zero has a sign. *)
Inductive double :=
| DFin (neg : bool) (m : N) (e : Z)
| DInf (neg : bool)
| DNaN.

#[global] Instance double_eq_dec : EqDecision double.
Proof. solve_decision. Defined.

(** ** Rounding and comparing *)

(** The double nearest to [num / den], for [0 <= num] and [0 < den]. *)
Definition to_double (neg : bool) (num den : Z) : double :=
  if num =? 0 then DFin neg 0 0
  else match round_float num den with
       | Finite m e => DFin neg (Z.to_N m) e
       | _ => DInf neg
       end.
Definition of_int (n : Z) : double := to_double (n <? 0) (Z.abs n) 1.

(** A finite double is [numerator / denominator], with its sign. *)
Definition numerator (neg : bool) (m : N) (e : Z) : Z :=
  (if neg then -1 else 1) * (if e <? 0 then Z.of_N m else Z.of_N m * 2 ^ e).
Definition denominator (e : Z) : Z := if e <? 0 then 2 ^ (- e) else 1.
Definition of_fraction (zero_neg : bool) (num den : Z) : double :=
  if num =? 0 then DFin zero_neg 0 0 else to_double (num <? 0) (Z.abs num) den.

Definition dcompare (a b : double) : option comparison :=
  match a, b with
  | DFin s m e, DFin s' m' e' =>
      Some (Z.compare (numerator s m e * denominator e') (numerator s' m' e' * denominator e))
  | DInf true, DInf true | DInf false, DInf false => Some Eq
  | DInf true, DFin _ _ _ | DFin _ _ _, DInf false | DInf true, DInf false => Some Lt
  | DInf false, DFin _ _ _ | DFin _ _ _, DInf true | DInf false, DInf true => Some Gt
  | DNaN, _ | _, DNaN => None
  end.
Definition deq (a b : double) : bool := match dcompare a b with Some Eq => true | _ => false end.
Definition dlt (a b : double) : bool := match dcompare a b with Some Lt => true | _ => false end.
Definition dle (a b : double) : bool := match dcompare a b with Some (Lt | Eq) => true | _ => false end.
Definition is_nan (a : double) : bool := match a with DNaN => true | _ => false end.

(** ** Arithmetic *)

Definition dneg (a : double) : double :=
  match a with DFin s m e => DFin (negb s) m e | DInf s => DInf (negb s) | DNaN => DNaN end.
Definition dabs (a : double) : double :=
  match a with DFin _ m e => DFin false m e | DInf _ => DInf false | DNaN => DNaN end.
Definition dadd (a b : double) : double :=
  match a, b with
  | DFin s m e, DFin s' m' e' =>
      of_fraction (s && s') (numerator s m e * denominator e' + numerator s' m' e' * denominator e)
                  (denominator e * denominator e')
  | DInf s, DInf s' => if Bool.eqb s s' then a else DNaN
  | DInf _, DFin _ _ _ => a
  | DFin _ _ _, DInf _ => b
  | DNaN, _ | _, DNaN => DNaN
  end.
Definition dmul (a b : double) : double :=
  match a, b with
  | DFin s m e, DFin s' m' e' =>
      of_fraction (xorb s s') (numerator s m e * numerator s' m' e') (denominator e * denominator e')
  | DFin s m _, DInf s' | DInf s', DFin s m _ => if (m =? 0)%N then DNaN else DInf (xorb s s')
  | DInf s, DInf s' => DInf (xorb s s')
  | DNaN, _ | _, DNaN => DNaN
  end.

(** Division by a finite number that is not zero. *)
Definition ddiv_int (a : double) (d : Z) : double :=
  match a with
  | DFin s m e => of_fraction s (numerator s m e) (denominator e * d)
  | _ => a
  end.

(** [int64(f)] of a value in the range of [int64]: towards zero. *)
Definition truncate (a : double) : Z :=
  match a with DFin s m e => Z.quot (numerator s m e) (denominator e) | _ => 0 end.

(** [math.Round]: halves away from zero. *)
Definition round_half_away (a : double) : double :=
  match a with
  | DFin s m e =>
      let n := (2 * Z.abs (numerator s m e) + denominator e) / (2 * denominator e) in
      to_double s n 1
  | _ => a
  end.

(** ** Parsing *)

(** What [strconv.ParseFloat(s, 64)] answers on a decimal numeral or on the
    word for an infinity or for not-a-number: a value, the infinity that comes
    with [ErrRange], or [ErrSyntax].  Hexadecimal floats are not read. *)
Inductive parsed_float := PFValue (f : double) | PFRange (f : double) | PFSyntax.

(** The sign, the digits as an integer and the power of ten of a numeral. *)
Definition read_numeral (s : string) : option (bool * Z * Z) :=
  let '(neg, s) := read_sign s in
  let '(v1, n1, rest) := read_digits 0 0 s in
  let '(v2, n2, rest) :=
    match rest with
    | String c rest' => if Ascii.eqb c "." then read_digits v1 0 rest' else (v1, O, rest)
    | EmptyString => (v1, O, rest)
    end in
  if (n1 + n2 =? 0)%nat then None
  else match rest with
       | EmptyString => Some (neg, v2, - Z.of_nat n2)
       | String c rest' =>
           if Ascii.eqb c "e" || Ascii.eqb c "E" then
             let '(eneg, rest') := read_sign rest' in
             let '(e, n, rest'') := read_digits 0 0 rest' in
             if (n =? 0)%nat || negb (String.eqb rest'' "") then None
             else Some (neg, v2, (if eneg then - e else e) - Z.of_nat n2)
           else None
       end.

Definition decimal (neg : bool) (v e : Z) : double :=
  if v =? 0 then DFin neg 0 0
  else if e <? 0 then to_double neg v (10 ^ (- e)) else to_double neg (v * 10 ^ e) 1.

(** [special]: the words, in any case. *)
Definition special_float (s : string) : option double :=
  let '(neg, word) := read_sign (map_bytes ascii_lower_byte s) in
  if mem word ["inf"; "infinity"] then Some (DInf neg)
  else if String.eqb (map_bytes ascii_lower_byte s) "nan" then Some DNaN
  else None.

Definition ParseFloat64 (s : string) : parsed_float :=
  match read_numeral s with
  | None => match special_float s with Some f => PFValue f | None => PFSyntax end
  | Some (neg, v, e) =>
      match decimal neg v e with
      | DInf s => PFRange (DInf s)
      | f => PFValue f
      end
  end.

(** [strconv.ParseUint(s, 16, 64)]. *)
Inductive parsed_uint := PUValue (n : Z) | PURange | PUSyntax.
Definition hex_value (c : ascii) : option Z :=
  let b := byte_val c in
  if in_range 48 57 b then Some (b - 48)
  else if in_range 97 102 b then Some (b - 87)
  else if in_range 65 70 b then Some (b - 55)
  else None.
Fixpoint read_hex (acc : Z) (s : string) : option Z :=
  match s with
  | EmptyString => Some acc
  | String c s => match hex_value c with Some d => read_hex (16 * acc + d) s | None => None end
  end.
Definition ParseUint16 (s : string) : parsed_uint :=
  if String.eqb s "" then PUSyntax
  else match read_hex 0 s with
       | None => PUSyntax
       | Some n => if 2 ^ 64 <=? n then PURange else PUValue n
       end.
(** [int64(value)] of a [uint64]. *)
Definition wrap_int64 (n : Z) : Z := if n <? 2 ^ 63 then n else n - 2 ^ 64.

(** ** Formatting *)

(** The digits of a positive double: an integer [d], and [dp] with the value
    [0.d * 10^dp]. *)
Fixpoint decimal_point_from (fuel : nat) (num den k : Z) : Z :=
  match fuel with
  | O => k
  | S fuel =>
      let below := if k <? 0 then num * 10 ^ (- k) <? den else num <? den * 10 ^ k in
      if below then k else decimal_point_from fuel num den (k + 1)
  end.
(** The least [k] with the value under [10^k]; the first try is too small by
    at most three. *)
Definition decimal_point (num den : Z) : Z :=
  decimal_point_from 5 num den ((Z.log2 num - Z.log2 den) * 30103 / 100000 - 1).

(** The value in units of [10^(k - n)]. *)
Definition in_units (num den k n : Z) : Z * Z :=
  if n - k <? 0 then (num, den * 10 ^ (k - n)) else (num * 10 ^ (n - k), den).

Fixpoint trim_zeros (fuel : nat) (d : Z) : Z :=
  match fuel with
  | O => d
  | S fuel => if (0 <? d) && (d mod 10 =? 0) then trim_zeros fuel (d / 10) else d
  end.
Definition carried (d k n : Z) : Z * Z := if d =? 10 ^ n then (1, k + 1) else (trim_zeros 20 d, k).

(** [n] digits, rounded to the nearest, ties to even. *)
Definition fixed_digits (num den n : Z) : Z * Z :=
  let k := decimal_point num den in
  let '(a, b) := in_units num den k n in
  carried (round_even a b) k n.

(** The shortest digits that read back as [f]: of the two neighbours with [n]
    digits, the nearer one when both do. *)
Fixpoint shortest_from (fuel : nat) (f : double) (num den k n : Z) : Z * Z :=
  let '(a, b) := in_units num den k n in
  let down := a / b in
  let reads d := deq (decimal false d (k - n)) f in
  match fuel with
  | O => carried (round_even a b) k n
  | S fuel =>
      match reads down, reads (down + 1) with
      | true, true => carried (round_even a b) k n
      | true, false => carried down k n
      | false, true => carried (down + 1) k n
      | false, false => shortest_from fuel f num den k (n + 1)
      end
  end.
Definition shortest_digits (f : double) (num den : Z) : Z * Z :=
  shortest_from 17 f num den (decimal_point num den) 1.

Fixpoint zeros (n : nat) : string := match n with O => "" | S n => String "0" (zeros n) end.
Definition minus (neg : bool) : string := if neg then "-" else "".

(** [fmtE] and [fmtF] on the digits [ds]. *)
Definition fmtE (neg : bool) (ds : string) (dp : Z) : string :=
  let x := dp - 1 in
  minus neg +:+ str_take 1 ds +:+ (if (1 <? String.length ds)%nat then "." +:+ str_drop 1 ds else "")
  +:+ "e" +:+ (if x <? 0 then "-" else "+") +:+ (if Z.abs x <? 10 then "0" else "") +:+ pretty (Z.abs_N x).
Definition fmtF (neg : bool) (ds : string) (dp : Z) : string :=
  let nd := String.length ds in
  let whole := if 0 <? dp then str_take (Z.to_nat dp) ds +:+ zeros (Z.to_nat dp - nd) else "0" in
  let prec := Z.to_nat (Z.max (Z.of_nat nd - dp) 0) in
  minus neg +:+ whole +:+
  (if (prec =? 0)%nat then "" else "." +:+ zeros (Z.to_nat (- dp)) +:+ str_drop (Z.to_nat dp) ds).

Inductive float_format := ShortestG | Fixed15G | ShortestF.

Definition format_digits (fmt : float_format) (neg : bool) (ds : string) (dp : Z) : string :=
  let nd := Z.of_nat (String.length ds) in
  match fmt with
  | ShortestF => fmtF neg ds dp
  | _ =>
      let eprec := match fmt with
                   | Fixed15G => if (nd <? 15) && (dp <=? nd) then nd else 15
                   | _ => 6
                   end in
      let x := dp - 1 in
      if (x <? -4) || (eprec <=? x) then fmtE neg ds dp else fmtF neg ds dp
  end.

(** [strconv.FormatFloat(f, 'g', -1, 64)], ['g'] with 15 digits, ['f'] with -1. *)
Definition FormatFloat (fmt : float_format) (f : double) : string :=
  match f with
  | DNaN => "NaN"
  | DInf neg => if neg then "-Inf" else "+Inf"
  | DFin neg m e =>
      if (m =? 0)%N then minus neg +:+ "0"
      else
        let num := numerator false m e in
        let den := denominator e in
        let '(d, dp) := match fmt with
                        | Fixed15G => fixed_digits num den 15
                        | _ => shortest_digits (DFin false m e) num den
                        end in
        format_digits fmt neg (pretty (Z.to_N d)) dp
  end.

(** ** Examples *)

Definition text_of_float (fmt : float_format) (s : string) : option string :=
  match ParseFloat64 s with PFValue f => Some (FormatFloat fmt f) | _ => None end.

Example format_shortest :
  map (text_of_float ShortestG)
    ["0.1"; "100000"; "1000000"; "123456789"; "1e21"; "-2.50"; "5e-324"; "1.7976931348623157e308"; "0.00001"; "-0"; "9007199254740993"; "2.2250738585072014e-308"]
  = map Some ["0.1"; "100000"; "1e+06"; "1.23456789e+08"; "1e+21"; "-2.5"; "5e-324"; "1.7976931348623157e+308"; "1e-05"; "-0"; "9.007199254740992e+15"; "2.2250738585072014e-308"].
Proof. vm_compute. reflexivity. Qed.
Example format_fixed :
  map (text_of_float Fixed15G) ["0.1"; "100"; "1e15"; "123456.75"; "0.1234567890123456789"; "1e-7"; "5"; "999999999999999.9"]
  = map Some ["0.1"; "100"; "1e+15"; "123456.75"; "0.123456789012346"; "1e-07"; "5"; "1e+15"].
Proof. vm_compute. reflexivity. Qed.
Example format_plain :
  map (text_of_float ShortestF) ["86400"; "-0.001"; "1e3"; "90061.5"; "1234567890123"]
  = map Some ["86400"; "-0.001"; "1000"; "90061.5"; "1234567890123"].
Proof. vm_compute. reflexivity. Qed.
Example parse_kinds :
  (ParseFloat64 "-Inf", ParseFloat64 "1e400", ParseFloat64 "1e-400", ParseFloat64 ".", ParseFloat64 "1e", ParseFloat64 "-.5")
  = (PFValue (DInf true), PFRange (DInf false), PFValue (DFin false 0 (-1074)), PFSyntax, PFSyntax, PFValue (DFin true (2 ^ 52) (-53))).
Proof. vm_compute. reflexivity. Qed.
Example arithmetic :
  (deq (dmul (DFin false 1 (-1)) (of_int 6)) (of_int 3), deq (dadd (of_int 1) (of_int (-1))) (of_int 0),
   truncate (round_half_away (DFin true 5 (-1))), truncate (DFin true 5 (-1)))
  = (true, true, -3, -2).
Proof. vm_compute. reflexivity. Qed.
