(* ===== verification/RenderSql.v ===== *)
(** * The SQL a filter is rendered to
    ([internal/postgres/filter_render.go], its text templates)

    A rendered filter is a sequence of pieces: text of the program, numerals,
    dollar-quoted texts, quoted column names and placeholders.  Concatenation
    of Go strings is concatenation of pieces, and [sql_text] is the string.
    The name quoting of the driver is the parameter [ident].

    PostgreSQL's rules for quotes are the function [run]: a sequence that
    [closes] is read piece by piece, each dollar-quoted text, name and
    placeholder as a token of its own. *)
From Stdlib Require Import ZArith Lia Ascii String.
From stdpp Require Import base gmap strings list numbers pretty.
From S2P Require Import Prelude GoStrings GoNumbers GoFloats.
Local Open Scope Z_scope.

Inductive piece :=
| Raw (s : string)
| Num (s : string)
| Quoted (text : string)
| Name (parts : list string)
| Bind (n : nat).
#[global] Instance piece_eq_dec : EqDecision piece.
Proof. solve_decision. Defined.

Definition sql : Type := list piece.
Definition raw (s : string) : sql := [Raw s].
Definition num (s : string) : sql := [Num s].
Definition cat (a b : sql) : sql := app a b.
Coercion raw : string >-> sql.
Declare Scope sql_scope.
Delimit Scope sql_scope with sql.
Infix "⊕" := cat (at level 60, right associativity) : sql_scope.
Open Scope sql_scope.

(** [strings.Join]. *)
Fixpoint sql_join (sep : sql) (l : list sql) : sql :=
  match l with
  | [] => []
  | [x] => x
  | x :: l => x ⊕ sep ⊕ sql_join sep l
  end.

(** ** Dollar quoting *)

Definition tag_of (i : nat) : string := "$dolmen" +:+ pretty i +:+ "$".
Fixpoint dollar_tag_from (fuel i : nat) (tag text : string) : string :=
  match fuel with
  | O => tag
  | S fuel => if contains text tag then dollar_tag_from fuel (S i) (tag_of i) text else tag
  end.
(** A text holds fewer tags than it has bytes, so the turns are enough. *)
Definition dollar_tag (text : string) : string := dollar_tag_from (String.length text + 2) 0 "$dolmen$" text.
Definition dollarQuote (text : string) : string := dollar_tag text +:+ text +:+ dollar_tag text.
Definition quoted (text : string) : sql := [Quoted text].

Section Text.
Context (ident : list string → string).
Definition piece_text (p : piece) : string :=
  match p with
  | Raw s | Num s => s
  | Quoted text => dollarQuote text
  | Name parts => ident parts
  | Bind n => "$" +:+ pretty n
  end.
Definition sql_text (q : sql) : string := foldr (λ p s, piece_text p +:+ s) "" q.

(** [==] of two rendered texts. *)
Definition sql_eqb (a b : sql) : bool := String.eqb (sql_text a) (sql_text b).
End Text.

(** ** Constants *)

Definition dq : string := String "034" "".
Definition collateC : sql := raw (" COLLATE " +:+ dq +:+ "C" +:+ dq).

Definition asciiUpperSet : string := "ABCDEFGHIJKLMNOPQRSTUVWXYZ".
Definition asciiLowerSet : string := "abcdefghijklmnopqrstuvwxyz".
Definition sqliteNumHead : string := "^[\t\n\v\f\r ]*([+-]?(?:[0-9]+\.?[0-9]*|\.[0-9]+)(?:[eE][+-]?[0-9]+)?)".
Definition sqliteDoubleMax : string := "1.7976931348623157e308".
Definition sqliteIntHead : string := "^[\t\n\v\f\r ]*([+-]?[0-9]+)".
Definition sqliteIntMax : string := "9223372036854775807".
Definition sqliteIntMin : string := "-9223372036854775808".
Definition sqliteNumFull : string :=
  "^[\t\n\v\f\r ]*[+-]?(?:[0-9]+\.?[0-9]*|\.[0-9]+)(?:[eE][+-]?[0-9]+)?[\t\n\v\f\r ]*$".

(** ** Templates *)

Definition guardedNumeric (text : sql) : sql :=
  "((CASE WHEN pg_input_is_valid(" ⊕ text ⊕ ", 'numeric') THEN " ⊕ text ⊕ " ELSE '0' END)::numeric)".

Definition numeralOrder (text : sql) : sql :=
  let trimmed := "btrim(" ⊕ text ⊕ ")" in
  let mantissa := "(substring(" ⊕ trimmed ⊕ " FROM '^[^eE]*'))" in
  let exponent := "(substring(" ⊕ trimmed ⊕ " FROM '[eE]([+-]?[0-9]+)'))" in
  let significant := "length(regexp_replace((substring(" ⊕ mantissa ⊕ " FROM '^[+-]?([0-9]*)')), '^0+', ''))" in
  let leading := "COALESCE(length((substring(COALESCE((substring(" ⊕ mantissa
                 ⊕ " FROM '[.]([0-9]*)')), '') FROM '^0+'))), 0)" in
  let scale := "(CASE WHEN " ⊕ exponent ⊕ " IS NULL THEN 0" ⊕ " WHEN pg_input_is_valid(" ⊕ exponent
               ⊕ ", 'numeric') THEN " ⊕ guardedNumeric exponent ⊕ " WHEN left(" ⊕ exponent
               ⊕ ", 1) = '-' THEN -1e6 ELSE 1e6 END)" in
  "(" ⊕ scale ⊕ " + (CASE WHEN " ⊕ significant ⊕ " > 0 THEN " ⊕ significant ⊕ " ELSE -" ⊕ leading ⊕ " END))".

Definition saturatingNumeric (text : sql) : sql :=
  "(CASE WHEN " ⊕ text ⊕ " IS NULL THEN NULL" ⊕ " WHEN NOT pg_input_is_valid(" ⊕ text ⊕ ", 'numeric')"
  ⊕ " THEN (CASE WHEN " ⊕ numeralOrder text ⊕ " < 0 THEN '0'" ⊕ " WHEN left(btrim(" ⊕ text
  ⊕ "), 1) = '-' THEN '-Infinity' ELSE 'Infinity' END)::numeric" ⊕ " WHEN " ⊕ guardedNumeric text
  ⊕ raw (" > " +:+ sqliteDoubleMax +:+ " THEN 'Infinity'::numeric") ⊕ " WHEN " ⊕ guardedNumeric text
  ⊕ raw (" < -" +:+ sqliteDoubleMax +:+ " THEN '-Infinity'::numeric") ⊕ " ELSE " ⊕ guardedNumeric text ⊕ " END)".

Definition exactDouble (double : sql) : sql :=
  "(SELECT CASE WHEN abs(real_value.v) >= 9007199254740992"
  ⊕ " AND real_value.v >= '-9223372036854775808'::float8 AND real_value.v < '9223372036854775808'::float8"
  ⊕ " THEN real_value.v::int8::numeric ELSE real_value.v::text::numeric END"
  ⊕ " FROM (SELECT " ⊕ double ⊕ " AS v) AS real_value)".
Definition sqliteDouble (expr : sql) : sql := exactDouble ("(" ⊕ expr ⊕ ")::float8").
Definition withoutNaN (text : sql) : sql := "NULLIF(" ⊕ text ⊕ ", 'NaN'::numeric)".
Definition doubleArithmetic (left : sql) (op : string) (right : sql) : sql :=
  withoutNaN (exactDouble ("((" ⊕ left ⊕ ")::float8 " ⊕ op ⊕ " (" ⊕ right ⊕ ")::float8)")).
Definition doubleQuotient (left right : sql) : sql :=
  withoutNaN (exactDouble ("((" ⊕ left ⊕ ")::float8 / NULLIF((" ⊕ right ⊕ ")::float8, 0))")).

Definition asSQLiteStorage (head value : sql) : sql :=
  "(CASE WHEN COALESCE(" ⊕ head ⊕ ", '') !~ '[.eE]' AND " ⊕ value
  ⊕ raw (" BETWEEN " +:+ sqliteIntMin +:+ " AND " +:+ sqliteIntMax) ⊕ " THEN " ⊕ value ⊕ " ELSE "
  ⊕ exactDouble ("(" ⊕ value ⊕ ")::float8") ⊕ " END)".
Definition sqliteNumberOfText (text : sql) : sql :=
  let head := "(substring(" ⊕ text ⊕ raw (" FROM '" +:+ sqliteNumHead +:+ "'))") in
  let value := "COALESCE(" ⊕ saturatingNumeric head ⊕ ", 0)" in
  "(CASE WHEN " ⊕ text ⊕ " IS NULL THEN NULL ELSE " ⊕ asSQLiteStorage head value ⊕ " END)".
Definition sqliteInteger (text : sql) : sql :=
  "(CASE WHEN " ⊕ text ⊕ " IS NULL THEN NULL ELSE" ⊕ " trunc(least(greatest(" ⊕ text
  ⊕ raw (", " +:+ sqliteIntMin +:+ "), " +:+ sqliteIntMax +:+ ")) END)").
Definition asciiFold (expr : sql) : sql :=
  "translate(" ⊕ expr ⊕ raw (", '" +:+ asciiUpperSet +:+ "', '" +:+ asciiLowerSet +:+ "')").

(** ** Numbers *)

(** [f > math.MaxFloat64] holds of no finite [f], so both tests of the code
    for an overflow are one. *)
Definition infinite_sql (f : double) : option sql :=
  match f with
  | DInf false => Some (raw "'Infinity'::numeric")
  | DInf true => Some (raw "'-Infinity'::numeric")
  | _ => None
  end.

Definition two53 : double := of_int 9007199254740992.
Definition canonicalDoubleText (f : double) : string :=
  match f with
  | DInf false => "Infinity"
  | DInf true => "-Infinity"
  | _ =>
      if dle two53 (dabs f) && dle (of_int (- 2 ^ 63)) f && dlt f (of_int (2 ^ 63))
      then pretty (truncate f)
      else FormatFloat ShortestG f
  end.
Definition canonicalDouble (f : double) : sql :=
  match f with
  | DInf _ => raw ("'" +:+ canonicalDoubleText f +:+ "'::numeric")
  | _ => num (canonicalDoubleText f)
  end.
