(* ===== verification/FilterTime.v ===== *)
(** * Times in rendered filters ([internal/postgres/filter_time.go])

    The time texts SQLite reads, the modifiers that shift a time by a fixed
    amount, the patterns of [strftime], and the SQL templates around them.  A
    [time.Time] is the milliseconds since 1970 in UTC: every time of this file
    is a whole number of them. *)
From Stdlib Require Import ZArith Lia Ascii String.
From stdpp Require Import base gmap strings list numbers pretty.
From S2P Require Import Prelude GoStrings SchemaIdent GoNumbers Timestamps GoFloats RenderSql.
Local Open Scope Z_scope.
Local Open Scope sql_scope.

(** ** Errors *)

(** What [filterNotRenderable] names. *)
Inductive refusal :=
| RFeature (name : string)
| RTime (text : string)
| RModifier (text : string)
| RField (code : ascii)
| RArgument (index : nat)
| RNotTimestamp (column : string).

Inductive render_error :=
| RCanceled (e : ctx_error)
| NotSupplied (index : nat)
| NotRenderable (what : refusal)
| HexOverflow (text : string)
| HexInvalid (text : string)
| ReadsClock (text : string)
| Panic.

Definition refuse {A} (name : string) : outcome render_error A := Fail (NotRenderable (RFeature name)).

(** ** Days and dates of the proleptic Gregorian calendar *)

Definition days_before_year (y : Z) : Z := let p := y - 1 in 365 * p + p / 4 - p / 100 + p / 400.
Fixpoint days_before_month (n : nat) (y : Z) : Z :=
  match n with O => 0 | S n => days_before_month n y + daysIn (Z.of_nat n + 1) y end.
(** The days from 1970-01-01 to the given date; the day may overflow its month. *)
Definition day_number (y m d : Z) : Z :=
  days_before_year y + days_before_month (Z.to_nat (m - 1)) y + (d - 1) - 719162.

(** The year of a day, found from an estimate that is at most two years off. *)
Fixpoint year_from (fuel : nat) (y day : Z) : Z :=
  match fuel with
  | O => y
  | S fuel => if day_number (y + 1) 1 1 <=? day then year_from fuel (y + 1) day else y
  end.
Definition year_of_day (day : Z) : Z := year_from 5 ((day + 719162) * 400 / 146097 - 1) day.
Fixpoint month_from (fuel : nat) (y m rest : Z) : Z * Z :=
  match fuel with
  | O => (m, rest)
  | S fuel => if daysIn m y <=? rest then month_from fuel y (m + 1) (rest - daysIn m y) else (m, rest)
  end.
Definition date_of_day (day : Z) : Z * Z * Z :=
  let y := year_of_day day in
  let '(m, rest) := month_from 11 y 1 (day - day_number y 1 1) in (y, m, rest + 1).

Definition ms_per_day : Z := 86400000.
Definition year_of (t : Z) : Z := year_of_day (t / ms_per_day).

Definition firstRenderableMoment : Z := day_number 1 1 1 * ms_per_day.
Definition lastRenderableMoment : Z := day_number 10000 1 1 * ms_per_day - 1.

Definition padded (width : nat) (n : Z) : string :=
  let ds : string := pretty n in zeros (width - String.length ds) +:+ ds.
(** [Format("2006-01-02 15:04:05.999999")] of a whole number of milliseconds. *)
Definition format_moment (t : Z) : string :=
  let '(y, m, d) := date_of_day (t / ms_per_day) in
  let ms := t mod ms_per_day in
  let fraction := ms mod 1000 in
  padded 4 y +:+ "-" +:+ padded 2 m +:+ "-" +:+ padded 2 d +:+ " " +:+ padded 2 (ms / 3600000) +:+ ":"
  +:+ padded 2 (ms / 60000 mod 60) +:+ ":" +:+ padded 2 (ms / 1000 mod 60)
  +:+ (if fraction =? 0 then ""
       else if fraction mod 100 =? 0 then "." +:+ pretty (fraction / 100)
       else if fraction mod 10 =? 0 then "." +:+ padded 2 (fraction / 10)
       else "." +:+ padded 3 fraction).

(** ** Readers for the regular expressions *)

Definition blank (c : ascii) : bool := (byte_val c =? 32) || in_range 9 13 (byte_val c).
Fixpoint skip_blanks (s : string) : string :=
  match s with String c s' => if blank c then skip_blanks s' else s | EmptyString => s end.
Definition trim_right_blanks (s : string) : string :=
  String.rev (skip_blanks (String.rev s)).
Definition all_blank (s : string) : bool := all_bytes blank s.

(** [\d+], as text. *)
Fixpoint take_digits (s : string) : string * string :=
  match s with
  | String c s' => if digit_byte c then let '(ds, rest) := take_digits s' in (String c ds, rest) else ("", s)
  | EmptyString => ("", s)
  end.
(** [\d{n}]. *)
Fixpoint digits_n (n : nat) (s : string) : option (string * string) :=
  match n, s with
  | O, _ => Some ("", s)
  | S n, String c s => if digit_byte c then read! (ds, rest) := digits_n n s in Some (String c ds, rest) else None
  | S _, EmptyString => None
  end.

Definition take_sign (s : string) : string * string :=
  match s with
  | String c s' => if Ascii.eqb c "-" || Ascii.eqb c "+" then (String c "", s') else ("", s)
  | EmptyString => ("", s)
  end.
(** [[+-]?(?:\d+\.?\d*|\.\d+)(?:[eE][+-]?\d+)?] at the head of a text. *)
Definition take_numeral (s : string) : option (string * string) :=
  let '(sign, s) := take_sign s in
  let '(whole, s1) := take_digits s in
  let '(fraction, s2) :=
    match s1 with
    | String "." s2 =>
        let '(ds, rest) := take_digits s2 in
        if String.eqb whole "" && String.eqb ds "" then ("", s1) else ("." +:+ ds, rest)
    | _ => ("", s1)
    end in
  if String.eqb whole "" && String.eqb fraction "" then None
  else
    let head := sign +:+ whole +:+ fraction in
    match s2 with
    | String c s3 =>
        if Ascii.eqb c "e" || Ascii.eqb c "E" then
          let '(esign, s4) := take_sign s3 in
          let '(ds, rest) := take_digits s4 in
          if String.eqb ds "" then Some (head, s2) else Some (head +:+ String c (esign +:+ ds), rest)
        else Some (head, s2)
    | EmptyString => Some (head, s2)
    end.

(** [sqliteNumeralHead.FindString], without the blanks it may begin with:
    every use trims them. *)
Definition sqliteNumeralHead (text : string) : string :=
  match take_numeral (skip_blanks text) with Some (head, _) => head | None => "" end.
Definition sqliteNumericText (text : string) : bool :=
  match take_numeral (skip_blanks text) with Some (_, rest) => all_blank rest | None => false end.
Definition sqliteRealNumber (text : string) : bool :=
  match take_numeral text with Some (_, rest) => String.eqb rest "" | None => false end.

Definition atoi (s : string) : Z := (read_digits 0 0 s).1.1.

(** [sqliteZone], when the text has one: the zone and what follows. *)
Definition take_zone (s : string) : option (string * string) :=
  match s with
  | String "Z" rest => Some ("Z", rest)
  | String "z" rest => Some ("z", rest)
  | String sign rest =>
      if Ascii.eqb sign "+" || Ascii.eqb sign "-" then
        read! (h, rest) := digits_n 2 rest in
        read! rest := expect ":" rest in
        read! (m, rest) := digits_n 2 rest in
        if (atoi h <=? 14) && (atoi m <=? 59) then Some (String sign (h +:+ ":" +:+ m), rest) else None
      else None
  | EmptyString => None
  end.

(** The clock groups [(\d{2}):(\d{2})(?::(\d{2})(?:\.(\d+))?)?]. *)
Record clock_text := ClockText { ct_hour : string; ct_minute : string; ct_second : string; ct_fraction : string }.
Definition take_clock (s : string) : option (clock_text * string) :=
  read! (h, s) := digits_n 2 s in
  read! s := expect ":" s in
  read! (m, s) := digits_n 2 s in
  match expect ":" s with
  | None => Some (ClockText h m "" "", s)
  | Some s1 =>
      match digits_n 2 s1 with
      | None => Some (ClockText h m "" "", s)
      | Some (sec, s2) =>
          match expect "." s2 with
          | None => Some (ClockText h m sec "", s2)
          | Some s3 =>
              let '(ds, rest) := take_digits s3 in
              if String.eqb ds "" then Some (ClockText h m sec "", s2) else Some (ClockText h m sec ds, rest)
          end
      end
  end.
(** A clock, a zone that may be missing, and the end of the text. *)
Definition clock_and_zone (s : string) : option (clock_text * string) :=
  read! (clock, s) := take_clock s in
  match take_zone s with
  | Some (zone, rest) => if String.eqb rest "" then Some (clock, zone) else None
  | None => if String.eqb s "" then Some (clock, "") else None
  end.

Record dated_text := DatedText {
  dt_negative : bool; dt_year : string; dt_month : string; dt_day : string; dt_clock : option (clock_text * string) }.
Definition separator (c : ascii) : bool := blank c || Ascii.eqb c "T".
Fixpoint skip_separators (s : string) : string :=
  match s with String c s' => if separator c then skip_separators s' else s | EmptyString => s end.
Definition sqliteDatedTime (s : string) : option dated_text :=
  let '(negative, s) := match s with String "-" s' => (true, s') | _ => (false, s) end in
  read! (y, s) := digits_n 4 s in
  read! s := expect "-" s in
  read! (m, s) := digits_n 2 s in
  read! s := expect "-" s in
  read! (d, s) := digits_n 2 s in
  if String.eqb s "" then Some (DatedText negative y m d None)
  else read! clock := clock_and_zone (skip_separators s) in Some (DatedText negative y m d (Some clock)).
Definition sqliteBareTime (s : string) : option (clock_text * string) := clock_and_zone s.

(** ** Reading a time text *)

Inductive timeTextKind := timeReadable | timeClockDependent | timeUnrendered | timeMalformed.

Definition sqliteClockWords : list string := ["now"; "localtime"; "utc"].

Definition quantizeToMillis (seconds : double) : Z :=
  let millis := truncate (round_half_away (dmul seconds (of_int 1000))) in if 999 <? millis then 999 else millis.

Definition julianUnixEpochMillis : Z := 210866760000000.
Definition half : double := DFin false 1 (-1).
Definition julianToTime (jd : double) : Z :=
  truncate (dadd (dmul jd (of_int 86400000)) half) - julianUnixEpochMillis.
Definition julian_end : double := DFin false 10746969 (-1).  (* 5373484.5 *)
Definition julian_in_range (jd : double) : bool :=
  negb (is_nan jd) && negb (dlt jd (of_int 0)) && negb (dle julian_end jd).

Definition parseSQLiteJulian {UT : UnicodeTables} (text : string) : option Z :=
  let trimmed := trim_space text in
  if negb (sqliteRealNumber trimmed) then None
  else match ParseFloat64 trimmed with
       | PFValue jd => if julian_in_range jd then Some (julianToTime jd) else None
       | _ => None
       end.

(** The time of day in milliseconds, less the offset of its zone. *)
Definition zone_offset (zone : string) : Z :=
  match zone with
  | String sign rest =>
      if Ascii.eqb sign "Z" || Ascii.eqb sign "z" then 0
      else
        let minutes := atoi (str_take 2 rest) * 60 + atoi (str_take 2 (str_drop 3 rest)) in
        (if Ascii.eqb sign "-" then -1 else 1) * minutes * 60000
  | EmptyString => 0
  end.
Definition parseSQLiteClock (clock : clock_text) (zone : string) : timeTextKind * Z :=
  let h := atoi (ct_hour clock) in
  let m := atoi (ct_minute clock) in
  let s := atoi (ct_second clock) in
  if (24 <? h) || (59 <? m) || (59 <? s) then (timeMalformed, 0)
  else if h =? 24 then (timeUnrendered, 0)
  else
    let base := (h * 3600 + m * 60 + s) * 1000 in
    if String.eqb (ct_fraction clock) "" then (timeReadable, base - zone_offset zone)
    else match ParseFloat64 ("0." +:+ ct_fraction clock) with
         | PFValue f => (timeReadable, base + quantizeToMillis f - zone_offset zone)
         | _ => (timeMalformed, 0)
         end.

Section Text.
Context {UT : UnicodeTables}.

Definition dated_moment (t : dated_text) : timeTextKind * Z :=
  let month := atoi (dt_month t) in
  let day := atoi (dt_day t) in
  if (month <? 1) || (12 <? month) || (day <? 1) || (31 <? day) then (timeMalformed, 0)
  else
    let '(kind, clock) := match dt_clock t with
                          | Some (clock, zone) => parseSQLiteClock clock zone
                          | None => (timeReadable, 0)
                          end in
    match kind with
    | timeReadable =>
        if dt_negative t then (timeUnrendered, 0)
        else
          let moment := day_number (atoi (dt_year t)) month day * ms_per_day + clock in
          if year_of moment <? 1 then (timeUnrendered, 0) else (timeReadable, moment)
    | _ => (kind, 0)
    end.

Definition parseSQLiteTimeText (text : string) : timeTextKind * Z :=
  match parseSQLiteJulian text with
  | Some moment => if year_of moment <? 1 then (timeUnrendered, 0) else (timeReadable, moment)
  | None =>
      let trimmed := trim_right_blanks text in
      if mem (to_lower (trim_space trimmed)) sqliteClockWords then (timeClockDependent, 0)
      else match sqliteDatedTime trimmed with
           | Some t => dated_moment t
           | None =>
               match sqliteBareTime trimmed with
               | Some (clock, zone) =>
                   let '(kind, ms) := parseSQLiteClock clock zone in
                   match kind with
                   | timeReadable => (timeReadable, day_number 2000 1 1 * ms_per_day + ms)
                   | _ => (kind, 0)
                   end
               | None => (timeMalformed, 0)
               end
           end
  end.

(** ** Modifiers *)

Inductive filterSupport := supportedHere | sqliteOnly | malformedInSQLite.

Definition sqliteModifierUnits : list (string * Z) :=
  [("day", 86400); ("days", 86400); ("hour", 3600); ("hours", 3600); ("minute", 60); ("minutes", 60);
   ("second", 1); ("seconds", 1)].
Definition sqliteWideningUnits : list string := ["month"; "months"; "year"; "years"].
Definition sqliteNamedModifiers : list string :=
  ["start of day"; "start of month"; "start of year"; "auto"; "julianday"; "unixepoch"; "subsec"; "subsecond";
   "localtime"; "utc"; "ceiling"; "floor"].
Definition sqliteWeekdayModifier (s : string) : bool :=
  has_prefix s "weekday " &&
  (let ds := str_drop 8 s in negb (String.eqb ds "") && all_bytes digit_byte ds).

(** [sqliteOffsetModifier]: the sign and the clock. *)
Definition sqliteOffsetModifier (s : string) : option (bool * clock_text) :=
  match s with
  | String sign s =>
      if Ascii.eqb sign "+" || Ascii.eqb sign "-" then
        read! (clock, rest) := take_clock s in
        if String.eqb rest "" then Some (Ascii.eqb sign "-", clock) else None
      else None
  | EmptyString => None
  end.
Definition letter_byte (c : ascii) : bool := in_range 65 90 (byte_val c) || in_range 97 122 (byte_val c).
Definition sqliteAmountModifier (s : string) : option (string * string) :=
  read! (amount, rest) := take_numeral s in
  match rest with
  | String c rest' =>
      let unit := skip_blanks rest' in
      if blank c && negb (String.eqb unit "") && all_bytes letter_byte unit then Some (amount, unit) else None
  | EmptyString => None
  end.

Definition zero_seconds : double := of_int 0.
Definition offset_seconds (negative : bool) (clock : clock_text) : filterSupport * double :=
  let hours := atoi (ct_hour clock) in
  let minutes := atoi (ct_minute clock) in
  let seconds := atoi (ct_second clock) in
  if (24 <? hours) || (59 <? minutes) || (59 <? seconds) then (malformedInSQLite, zero_seconds)
  else if hours =? 24 then (sqliteOnly, zero_seconds)
  else
    let total := of_int (hours * 3600 + minutes * 60 + seconds) in
    let signed d := if negative then dneg d else d in
    if String.eqb (ct_fraction clock) "" then (supportedHere, signed total)
    else match ParseFloat64 ("0." +:+ ct_fraction clock) with
         | PFValue frac => (supportedHere, signed (dadd total frac))
         | _ => (malformedInSQLite, zero_seconds)
         end.

Definition parseSQLiteModifier (text : string) : filterSupport * double :=
  let lowered := to_lower text in
  if mem lowered sqliteNamedModifiers || sqliteWeekdayModifier lowered then (sqliteOnly, zero_seconds)
  else match sqliteOffsetModifier text with
       | Some (negative, clock) => offset_seconds negative clock
       | None =>
           match sqliteAmountModifier text with
           | Some (amount, unit) =>
               match ParseFloat64 amount with
               | PFValue f =>
                   match assoc (to_lower unit) sqliteModifierUnits with
                   | Some scale => (supportedHere, dmul f (of_int scale))
                   | None => if mem (to_lower unit) sqliteWideningUnits then (sqliteOnly, zero_seconds)
                             else (malformedInSQLite, zero_seconds)
                   end
               | _ => (malformedInSQLite, zero_seconds)
               end
           | None => (malformedInSQLite, zero_seconds)
           end
       end.
End Text.

(** ** The patterns of strftime *)

Definition strftimePatterns : list (string * string) :=
  [("Y", "YYYY"); ("m", "MM"); ("d", "DD"); ("H", "HH24"); ("M", "MI"); ("S", "SS"); ("j", "DDD")].
Definition strftimeKnownCodes : string := "deffFGgHIjJkKlmMpPRsSTuUVwWYy%".

Definition backslash : ascii := "\".
Definition escape_literal_byte (c : ascii) : string :=
  if Ascii.eqb c backslash then String backslash (String backslash "")
  else if Ascii.eqb c "034" then String backslash (String c "") else String c "".
Fixpoint escape_literal (s : string) : string :=
  match s with EmptyString => "" | String c s => escape_literal_byte c +:+ escape_literal s end.
Definition flush_literal (literal : string) : string :=
  if String.eqb literal "" then "" else dq +:+ escape_literal literal +:+ dq.

Inductive pattern_result := PatternText (pattern : string) | PatternUnsupported (code : ascii) | PatternMalformed.

(** The loop, with the builders [out] and [literal]. *)
Fixpoint strftime_loop (out literal format : string) : pattern_result :=
  match format with
  | EmptyString => PatternText (out +:+ flush_literal literal)
  | String c format =>
      if negb (Ascii.eqb c "%") then strftime_loop out (literal +:+ String c "") format
      else match format with
           | EmptyString => PatternMalformed
           | String code format =>
               if Ascii.eqb code "%" then strftime_loop out (literal +:+ "%") format
               else match assoc (String code "") strftimePatterns with
                    | Some mapped => strftime_loop (out +:+ flush_literal literal +:+ mapped) "" format
                    | None => if contains strftimeKnownCodes (String code "") then PatternUnsupported code
                              else PatternMalformed
                    end
           end
  end.
Definition strftimeToCharPattern (format : string) : pattern_result := strftime_loop "" "" format.

Definition timeOutputPatterns : list (string * string) :=
  [("date", "YYYY-MM-DD"); ("time", "HH24:MI:SS"); ("datetime", "YYYY-MM-DD HH24:MI:SS")].

(** ** SQL templates *)

Definition timestampTextShape : string :=
  "^[0-9]{4}-[0-9]{2}-[0-9]{2}([T ][0-9]{2}:[0-9]{2}(:[0-9]{2}(\.[0-9]+)?)?([Zz]|[+-](0[0-9]|1[0-4]):[0-5][0-9])?)?$".
Definition timestampTextZone : string := "([Zz]|[+-][0-9]{2}:[0-9]{2})$".

Definition timestampLiteral (moment : Z) : sql := "TIMESTAMP " ⊕ quoted (format_moment moment).
Definition quantizedToSQLitesMillisecond (expr : sql) : sql :=
  "LEAST(pg_catalog.date_trunc('milliseconds', " ⊕ expr ⊕ " + INTERVAL '0.0005 second'),"
  ⊕ " pg_catalog.date_trunc('second', " ⊕ expr ⊕ ") + INTERVAL '0.999 second')".
Definition withinRepresentableYears (expr : sql) : sql :=
  "(CASE WHEN " ⊕ expr ⊕ " BETWEEN TIMESTAMP '0001-01-01 00:00:00' AND TIMESTAMP '9999-12-31 23:59:59.999'"
  ⊕ " THEN " ⊕ expr ⊕ " END)".
Definition timestampColumn (column : sql) : sql :=
  let expr := "pg_catalog.regexp_replace(" ⊕ column ⊕ ", " ⊕ quoted "(\.[0-9]{4})[0-9]+" ⊕ ", " ⊕ quoted "\1" ⊕ ")" in
  "(CASE WHEN " ⊕ expr ⊕ " !~ " ⊕ quoted timestampTextShape ⊕ " THEN NULL" ⊕ " WHEN " ⊕ expr ⊕ " ~ "
  ⊕ quoted timestampTextZone ⊕ " THEN (CASE WHEN pg_catalog.pg_input_is_valid(" ⊕ expr ⊕ ", 'timestamptz')"
  ⊕ " THEN " ⊕ expr ⊕ "::timestamptz AT TIME ZONE 'UTC' END)"
  ⊕ " ELSE (CASE WHEN pg_catalog.pg_input_is_valid(" ⊕ expr ⊕ ", 'timestamp')"
  ⊕ " THEN " ⊕ expr ⊕ "::timestamp END) END)".

Definition null_moment : sql := raw "NULL::timestamp".

Definition timeTextMoment {UT : UnicodeTables} (text : string) : outcome render_error sql :=
  let '(kind, moment) := parseSQLiteTimeText text in
  match kind with
  | timeReadable => Done (timestampLiteral moment)
  | timeMalformed => Done null_moment
  | timeClockDependent => Fail (ReadsClock text)
  | timeUnrendered => Fail (NotRenderable (RTime text))
  end.

Definition julianMoment (value : double) : outcome render_error sql :=
  if negb (julian_in_range value) then Done null_moment
  else
    let moment := julianToTime value in
    if year_of moment <? 1 then
      refuse "a moment before 0001-01-01, which PostgreSQL writes with a BC suffix rather than as a negative year"
    else Done (timestampLiteral moment).

(** ** Examples *)

Local Existing Instance ascii_tables.
Definition read_text (s : string) : option string :=
  match parseSQLiteTimeText s with (timeReadable, t) => Some (format_moment t) | _ => None end.
Example time_texts :
  map read_text ["2024-02-29"; "2024-02-30 10:20"; "2024-01-01T00:30:00.1236+01:00"; "12:34"; "2460000.5"; " 2460000.25 ";
                 "9999-12-31T23:59-14:00"; "0001-01-01"; "1999-12-31 23:59:59.9999"]
  = map Some ["2024-02-29 00:00:00"; "2024-03-01 10:20:00"; "2023-12-31 23:30:00.124"; "2000-01-01 12:34:00"; "2023-02-25 00:00:00"; "2023-02-24 18:00:00";
              "10000-01-01 13:59:00"; "0001-01-01 00:00:00"; "1999-12-31 23:59:59.999"].
Proof. vm_compute. reflexivity. Qed.
Example time_kinds :
  map (λ s, (parseSQLiteTimeText s).1) ["Now "; "-2024-01-01"; "2024-01-01 24:00"; "2024-13-01"; "0000-01-01"; "1e"; "2024-01-01T"; "10:20:30."; "0"]
  = [timeClockDependent; timeUnrendered; timeUnrendered; timeMalformed; timeUnrendered; timeMalformed; timeMalformed; timeMalformed; timeUnrendered].
Proof. vm_compute. reflexivity. Qed.
Example modifiers :
  map (λ s, let '(k, d) := parseSQLiteModifier s in (k, FormatFloat ShortestF d))
    ["+1 day"; "-1.5 hours"; "+01:30"; "-00:00:00.5"; "weekday 3"; "Start of Day"; "2 months"; "3 fortnights"; "24:00"; "+24:00"; "1e1	DAYS"]
  = [(supportedHere, "86400"); (supportedHere, "-5400"); (supportedHere, "5400"); (supportedHere, "-0.5"); (sqliteOnly, "0"); (sqliteOnly, "0");
     (sqliteOnly, "0"); (malformedInSQLite, "0"); (malformedInSQLite, "0"); (sqliteOnly, "0"); (supportedHere, "864000")].
Proof. vm_compute. reflexivity. Qed.
Example strftime_patterns :
  map strftimeToCharPattern ["%Y-%m"; "100%% %d"; "%"; "%W"; "%q"; "a\b"]
  = [PatternText ("YYYY" +:+ dq +:+ "-" +:+ dq +:+ "MM"); PatternText (dq +:+ "100% " +:+ dq +:+ "DD"); PatternMalformed;
     PatternUnsupported "W"; PatternMalformed; PatternText (dq +:+ "a\\b" +:+ dq)].
Proof. vm_compute. reflexivity. Qed.
