(* ===== verification/FilterTree.v ===== *)
(** * Filter trees with identities, and what is read off them
    ([internal/postgres/filter_render.go], its analyses)

    The renderer keys two of its maps by the address of a node, and replaces a
    node by another where the addresses are equal.  A [tree] is a filter whose
    nodes carry their addresses.  The analyses here are pure: which affinity
    and which storage class SQLite gives a node, which nodes are truth values,
    which conditional mixes values of different kinds. *)
From Stdlib Require Import ZArith Lia Ascii String.
From stdpp Require Import base gmap strings list numbers pretty.
From S2P Require Import Prelude GoStrings SchemaIdent FilterLexer FilterParser Schema GoNumbers GoFloats RenderSql FilterTime.
Local Open Scope Z_scope.

(** ** Trees *)

Abbreviation loc := nat.

Inductive tree :=
| NLiteral (p : loc) (Kind : LiteralKind) (Text : string)
| NParam (p : loc) (Index : nat)
| NColumn (p : loc) (Name : string)
| NCall (p : loc) (Name : string) (Args : list tree)
| NBinary (p : loc) (Op : string) (Left Right : tree)
| NUnary (p : loc) (Op : string) (Operand : tree)
| NParen (p : loc) (Inner : tree)
| NIs (p : loc) (Negated : bool) (Left Right : tree)
| NIn (p : loc) (Negated : bool) (Left : tree) (List : list tree)
| NLike (p : loc) (Negated : bool) (Left Pattern : tree) (Escape : option tree)
| NBetween (p : loc) (Negated : bool) (Value Low High : tree)
| NCase (p : loc) (Operand : option tree) (Branches : list (tree * tree)) (Else : option tree).

Definition address (n : tree) : loc :=
  match n with
  | NLiteral p _ _ | NParam p _ | NColumn p _ | NCall p _ _ | NBinary p _ _ _ | NUnary p _ _ | NParen p _
  | NIs p _ _ _ | NIn p _ _ _ | NLike p _ _ _ _ | NBetween p _ _ _ _ | NCase p _ _ _ => p
  end.

(** The filter a tree holds. *)
Fixpoint erase (n : tree) : Node :=
  match n with
  | NLiteral _ k t => Literal k t
  | NParam _ i => Param i
  | NColumn _ c => Column c
  | NCall _ f args => Call f (map erase args)
  | NBinary _ op l r => Binary op (erase l) (erase r)
  | NUnary _ op o => Unary op (erase o)
  | NParen _ i => Paren (erase i)
  | NIs _ neg l r => Is neg (erase l) (erase r)
  | NIn _ neg l items => In neg (erase l) (map erase items)
  | NLike _ neg l pat esc => Like neg (erase l) (erase pat) (option_map erase esc)
  | NBetween _ neg v lo hi => Between neg (erase v) (erase lo) (erase hi)
  | NCase _ o bs e =>
      Case (option_map erase o) (map (λ b, (erase (fst b), erase (snd b))) bs) (option_map erase e)
  end.

(** The same filter with addresses from [p] on, and the next free one. *)
Section Fresh.
Context {A B : Type} (f : A → loc → B * loc).
Fixpoint map_fresh (l : list A) (p : loc) : list B * loc :=
  match l with
  | [] => ([], p)
  | x :: l => let '(y, p) := f x p in let '(ys, p) := map_fresh l p in (y :: ys, p)
  end.
Definition option_fresh (o : option A) (p : loc) : option B * loc :=
  match o with None => (None, p) | Some x => let '(y, p) := f x p in (Some y, p) end.
End Fresh.

Fixpoint load (n : Node) (p : loc) : tree * loc :=
  match n with
  | Literal k t => (NLiteral p k t, S p)
  | Param i => (NParam p i, S p)
  | Column c => (NColumn p c, S p)
  | Call f args => let '(args, q) := map_fresh load args (S p) in (NCall p f args, q)
  | Binary op l r => let '(l, q) := load l (S p) in let '(r, q) := load r q in (NBinary p op l r, q)
  | Unary op o => let '(o, q) := load o (S p) in (NUnary p op o, q)
  | Paren i => let '(i, q) := load i (S p) in (NParen p i, q)
  | Is neg l r => let '(l, q) := load l (S p) in let '(r, q) := load r q in (NIs p neg l r, q)
  | In neg l items => let '(l, q) := load l (S p) in let '(items, q) := map_fresh load items q in (NIn p neg l items, q)
  | Like neg l pat esc =>
      let '(l, q) := load l (S p) in
      let '(pat, q) := load pat q in
      let '(esc, q) := option_fresh load esc q in (NLike p neg l pat esc, q)
  | Between neg v lo hi =>
      let '(v, q) := load v (S p) in
      let '(lo, q) := load lo q in
      let '(hi, q) := load hi q in (NBetween p neg v lo hi, q)
  | Case o bs e =>
      let '(o, q) := option_fresh load o (S p) in
      let '(bs, q) := map_fresh (λ b q, let '(w, q) := load (fst b) q in let '(t, q) := load (snd b) q in ((w, t), q)) bs q in
      let '(e, q) := option_fresh load e q in (NCase p o bs e, q)
  end.

(** ** Arguments *)

Inductive int_kind := Kint | Kint8 | Kint16 | Kint32 | Kint64.

(** A value behind [any], as far as the renderer tells kinds apart: [VOther]
    is of none of the types it names. *)
Inductive value :=
| VNil
| VBool (b : bool)
| VInt (k : int_kind) (n : Z)
| VFloat32 (f : double)
| VFloat64 (f : double)
| VNumber (text : string)
| VString (s : string)
| VBytes (s : string)
| VOther.

(** What the parser of filters sees of an argument. *)
Definition parser_arg (v : value) : arg := match v with VString s => ArgString s | _ => ArgOther end.

(** The fields of [filterRenderer] that never change; [next], the number of
    the first placeholder, is handed down unchanged by every method. *)
Record renderer := Renderer {
  r_ctx : ctx; r_columns : gmap string string; r_types : gmap string FieldType; r_args : list value; r_next : nat }.

(** ** Children *)

Definition option_list {A} (o : option A) : list A := match o with Some x => [x] | None => [] end.

Definition caseResults (branches : list (tree * tree)) (otherwise : option tree) : list tree :=
  map snd branches ++ option_list otherwise.

Definition filterChildren (n : tree) : list tree :=
  match n with
  | NCall _ _ args => args
  | NBinary _ _ l r | NIs _ _ l r => [l; r]
  | NUnary _ _ o => [o]
  | NParen _ i => [i]
  | NIn _ _ l items => l :: items
  | NLike _ _ l pat esc => [l; pat] ++ option_list esc
  | NBetween _ _ v lo hi => [v; lo; hi]
  | NCase _ o bs e => option_list o ++ mjoin (map (λ b, [fst b; snd b]) bs) ++ option_list e
  | _ => []
  end.

Fixpoint unparen (n : tree) : tree := match n with NParen _ i => unparen i | _ => n end.

Fixpoint isNullLiteral (n : tree) : bool :=
  match n with
  | NParen _ i => isNullLiteral i
  | NLiteral _ k _ => bool_decide (k = LiteralNull)
  | _ => false
  end.

(** ** Affinities *)

Inductive affinity := affUnknown | affNumber | affText | affBlob.
#[global] Instance affinity_eq_dec : EqDecision affinity.
Proof. solve_decision. Defined.

Definition arithmetic_ops : string := "+-*/%".
Definition sign_op (op : string) : bool := String.eqb op "-" || String.eqb op "+".

(** What a conditional of the language chooses among, if [n] is one. *)
Definition conditional_args (name : string) (args : list tree) : option (list tree) :=
  if String.eqb name "iif" then if (length args =? 3)%nat then Some (drop 1 args) else None
  else if String.eqb name "coalesce" || String.eqb name "ifnull" then if (0 <? length args)%nat then Some args else None
  else None.

Section Summaries.
Context {A : Type} (f : tree → A).
Definition case_map (branches : list (tree * tree)) (otherwise : option tree) : list A :=
  map (λ b, f (snd b)) branches ++ match otherwise with Some e => [f e] | None => [] end.
End Summaries.

(** [agreedAffinity], on each result's being a NULL and its affinity. *)
Fixpoint agreed_from (agreed : affinity) (results : list (bool * affinity)) : affinity :=
  match results with
  | [] => agreed
  | (null, a) :: results =>
      if null then agreed_from agreed results
      else if decide (a = affUnknown) then affUnknown
      else if decide (agreed = affUnknown) then agreed_from a results
      else if decide (agreed = a) then agreed_from agreed results
      else affUnknown
  end.

Section Analyses.
Context {UT : UnicodeTables} (r : renderer).

Definition type_affinity (t : option FieldType) : affinity :=
  match t with
  | Some t =>
      if mem t [Number; Boolean] then affNumber
      else if mem t [TString; Text; Timestamp; JSON] then affText
      else affUnknown
  | None => affUnknown
  end.
Definition value_affinity (v : option value) : affinity :=
  match v with
  | Some (VString _) => affText
  | Some (VBytes _) => affBlob
  | Some (VBool _ | VInt _ _ | VFloat32 _ | VFloat64 _ | VNumber _) => affNumber
  | _ => affUnknown
  end.

Fixpoint isBooleanNode (n : tree) : bool :=
  match n with
  | NParen _ i => isBooleanNode i
  | NColumn _ c => bool_decide (r_types r !! c = Some Boolean)
  | NParam _ i => match r_args r !! i with Some (VBool _) => true | _ => false end
  | _ => false
  end.

Definition comparison_ops : list string :=
  ["="; "=="; "!="; "<>"; "<"; "<="; ">"; ">="; "and"; "or"; "AND"; "OR"].
Fixpoint rendersAsTruthValue (n : tree) : bool :=
  match n with
  | NParen _ i => rendersAsTruthValue i
  | NIs _ _ _ _ | NIn _ _ _ _ | NLike _ _ _ _ _ | NBetween _ _ _ _ _ => true
  | NUnary _ op _ => equal_fold op "not"
  | NLiteral _ k _ => bool_decide (k = LiteralTrue) || bool_decide (k = LiteralFalse)
  | NBinary _ op _ _ => mem op comparison_ops
  | _ => false
  end.

(** The loop of [choosesAmongTruthValues], on each result's being a NULL and
    a truth value. *)
Fixpoint truths_from (found : bool) (results : list (bool * bool)) : bool :=
  match results with
  | [] => found
  | (null, truth) :: results =>
      if null then truths_from found results else if truth then truths_from true results else false
  end.
(** The conditional and nullif calls. *)
Definition chosen_of {A} (name : string) (summaries : list A) : list A :=
  if String.eqb name "iif" && (length summaries =? 3)%nat then drop 1 summaries
  else if String.eqb name "coalesce" || String.eqb name "ifnull" then summaries
  else if String.eqb name "nullif" then firstn 1 summaries
  else [].
Fixpoint choosesAmongTruthValues (n : tree) : bool :=
  let summary n := (isNullLiteral n, rendersAsTruthValue n || choosesAmongTruthValues n) in
  match n with
  | NParen _ i => choosesAmongTruthValues i
  | NCall _ name args => truths_from false (chosen_of name (map summary args))
  | NCase _ _ bs e => truths_from false (case_map summary bs e)
  | _ => false
  end.

Definition booleanShaped (n : tree) : bool := isBooleanNode n || rendersAsTruthValue n || choosesAmongTruthValues n.

Definition numeric_functions : list string := ["abs"; "round"; "length"; "instr"; "julianday"].
Definition text_functions : list string :=
  ["lower"; "upper"; "substr"; "trim"; "ltrim"; "rtrim"; "replace"; "date"; "time"; "datetime"; "strftime"].
Definition call_affinity (name : string) (args : list (bool * affinity)) : affinity :=
  if String.eqb name "substr" && match args with (_, affBlob) :: _ => true | _ => false end then affBlob
  else if mem name numeric_functions then affNumber
  else if mem name text_functions then affText
  else if String.eqb name "iif" then
    if (length args =? 3)%nat then agreed_from affUnknown (drop 1 args) else affUnknown
  else if String.eqb name "coalesce" || String.eqb name "ifnull" then agreed_from affUnknown args
  else if String.eqb name "nullif" then match args with (_, a) :: _ => a | [] => affUnknown end
  else affUnknown.
Fixpoint affinityOf (n : tree) : affinity :=
  let summary n := (isNullLiteral n, affinityOf n) in
  match n with
  | NParen _ i => affinityOf i
  | NColumn _ c => type_affinity (r_types r !! c)
  | NParam _ i => value_affinity (r_args r !! i)
  | NLiteral _ LiteralNumber _ => affNumber
  | NLiteral _ LiteralString _ => affText
  | NLiteral _ LiteralBlob _ => affBlob
  | NCall _ name args => call_affinity name (map summary args)
  | NBinary _ op _ _ => if String.eqb op "||" then affText else affUnknown
  | NUnary _ op o => if sign_op op then affinityOf o else affUnknown
  | NCase _ _ bs e => agreed_from affUnknown (case_map summary bs e)
  | _ => affUnknown
  end.

Fixpoint declaredAffinityOf (stripped : gset loc) (n : tree) : affinity :=
  if decide (address n ∈ stripped) then affUnknown
  else match n with
       | NParen _ i => declaredAffinityOf stripped i
       | NColumn _ c => type_affinity (r_types r !! c)
       | _ => affUnknown
       end.

(** The loop of [comparedClassOf] over the results of a conditional. *)
Fixpoint classes_from (agreed : affinity) (results : list (bool * affinity)) : affinity :=
  match results with
  | [] => agreed
  | (null, a) :: results =>
      if null then classes_from agreed results
      else if decide (a = affUnknown) then affUnknown
      else if negb (bool_decide (agreed = affUnknown)) && negb (bool_decide (a = agreed)) then affUnknown
      else classes_from a results
  end.
Fixpoint comparedClassOf (n : tree) : affinity :=
  let summary n := (isNullLiteral n, comparedClassOf n) in
  match affinityOf n with
  | affUnknown =>
      match n with
      | NParen _ i => comparedClassOf i
      | NBinary _ op _ _ => if contains arithmetic_ops op then affNumber else affUnknown
      | NUnary _ op o => if sign_op op then comparedClassOf o else affUnknown
      | NCall _ name args => classes_from affUnknown (chosen_of name (map summary args))
      | NCase _ _ bs e => classes_from affUnknown (case_map summary bs e)
      | _ => affUnknown
      end
  | class => class
  end.

Definition comparisonIsAcrossClasses (left right : affinity) : bool :=
  negb (bool_decide (left = affUnknown) || bool_decide (right = affUnknown) || bool_decide (left = right)).
Definition classRank (a : affinity) : Z :=
  match a with affNumber => 1 | affText => 2 | affBlob => 3 | affUnknown => 0 end.
Definition boolLiteral (b : bool) : string := if b then "TRUE" else "FALSE".
Definition crossClassAnswer (op : string) (left right : affinity) : option string :=
  let lr := classRank left in
  let rr := classRank right in
  if mem op ["="; "=="] then Some "FALSE"
  else if mem op ["!="; "<>"] then Some "TRUE"
  else if mem op ["<"; "<="] then Some (boolLiteral (lr <? rr))
  else if mem op [">"; ">="] then Some (boolLiteral (rr <? lr))
  else None.

(** ** Texts and numbers known while rendering *)

Fixpoint staticTextOf (n : tree) : option string :=
  match n with
  | NParen _ i => staticTextOf i
  | NLiteral _ LiteralString t => Some t
  | NParam _ i => match r_args r !! i with Some (VString s) => Some s | _ => None end
  | _ => None
  end.

Definition any_of (chars s : string) : bool := any_byte (λ c, contains chars (String c "")) s.
Definition hex_prefixed (text : string) : bool := has_prefix (to_lower text) "0x".
Definition numeralIsReal (text : string) : bool :=
  any_of ".eE" text || bool_decide (ParseInt (trim_space text) = None).
Definition numeralHeadIsReal (text : string) : bool :=
  let head := sqliteNumeralHead text in if String.eqb head "" then false else numeralIsReal head.

Definition sqliteRealText (f : double) : option string :=
  match f with
  | DNaN => None
  | DInf false => Some "Inf"
  | DInf true => Some "-Inf"
  | _ =>
      (* [f = 0] drops the sign of a zero *)
      let f := match f with DFin _ 0%N _ => DFin false 0 0 | _ => f end in
      let text := FormatFloat Fixed15G f in
      match ParseFloat64 text with
      | PFValue back =>
          if deq back f then
            let '(mantissa, x) := match cut text "e" with Some (m, x) => (m, Some x) | None => (text, None) end in
            let mantissa := if contains mantissa "." then mantissa else mantissa +:+ ".0" in
            Some (match x with Some x => mantissa +:+ "e" +:+ x | None => mantissa end)
          else None
      | _ => None
      end
  end.

Definition sqliteTextOfNumberLiteral (text : string) : option string :=
  if hex_prefixed text then
    match ParseUint16 (str_drop 2 (to_lower text)) with PUValue n => Some (pretty (wrap_int64 n)) | _ => None end
  else if negb (numeralIsReal text) then Some text
  else match ParseFloat64 text with PFValue f => sqliteRealText f | _ => None end.

Definition negated_text (inner : string) : option string :=
  match ParseFloat64 inner with
  | PFValue f =>
      if any_of ".eE" inner then sqliteRealText (dneg f)
      else match ParseInt ("-" +:+ inner) with
           | Some whole => Some (pretty whole)
           | None => match ParseFloat64 ("-" +:+ inner) with PFValue f => sqliteRealText f | _ => None end
           end
  | _ => None
  end.
Fixpoint staticNumberAsText (n : tree) : option string :=
  match n with
  | NParen _ i => staticNumberAsText i
  | NUnary _ op o =>
      if sign_op op then
        match staticNumberAsText o with
        | Some inner => if String.eqb op "+" then Some inner else negated_text inner
        | None => None
        end
      else None
  | NLiteral _ LiteralNumber t => sqliteTextOfNumberLiteral t
  | NParam _ i =>
      match r_args r !! i with
      | Some (VInt _ n) => Some (pretty n)
      | Some (VFloat32 f | VFloat64 f) => sqliteRealText f
      | Some (VNumber t) => sqliteTextOfNumberLiteral t
      | _ => None
      end
  | _ => None
  end.

(** [ParseInt] of a signed literal that is an integer. *)
Definition signed_literal (op text : string) : option Z :=
  if negb (any_of ".eE" text) && negb (hex_prefixed text) then ParseInt (op +:+ trim_space text) else None.

Fixpoint staticallyReal (n : tree) : bool :=
  match n with
  | NParen _ i => staticallyReal i
  | NUnary _ op o =>
      if sign_op op then
        match o with
        | NLiteral _ LiteralNumber t =>
            if negb (any_of ".eE" t) && negb (hex_prefixed t)
            then bool_decide (signed_literal op t = None) else staticallyReal o
        | _ => staticallyReal o
        end
      else false
  | NLiteral _ LiteralNumber t => if hex_prefixed t then false else numeralIsReal t
  | NLiteral _ LiteralString t => numeralHeadIsReal t
  | NParam _ i =>
      match r_args r !! i with
      | Some (VFloat32 _ | VFloat64 _) => true
      | Some (VNumber t) => numeralIsReal t
      | Some (VString s) => numeralHeadIsReal s
      | _ => false
      end
  | NCall _ name args =>
      if mem name ["round"; "julianday"] then true
      else if String.eqb name "abs" then
        match args with [a] => bool_decide (affinityOf a = affText) || staticallyReal a | _ => false end
      else false
  | _ => false
  end.

(** The classes recorded so far are texts of SQL, by address. *)
Fixpoint structuralClass (classes : gmap loc sql) (n : tree) : sql :=
  let recorded := default (raw "TRUE") (classes !! address n) in
  if staticallyReal n then raw "FALSE"
  else match n with
       | NParen _ i => structuralClass classes i
       | NUnary _ op o =>
           match o with
           | NLiteral _ _ _ => recorded
           | _ => if sign_op op then structuralClass classes o else recorded
           end
       | NCall _ name args =>
           if mem name ["abs"; "nullif"] then
             match args with a :: _ => structuralClass classes a | [] => recorded end
           else recorded
       | _ => recorded
       end.

Definition staticNumericLiteral (text : string) : sql :=
  let trimmed := trim_space text in
  match ParseInt trimmed with
  | Some whole => ("(" ⊕ num (pretty whole) ⊕ ")")%sql
  | None =>
      match ParseFloat64 trimmed with
      | PFSyntax => ("(" ⊕ num trimmed ⊕ ")")%sql
      | PFValue f | PFRange f =>
          match infinite_sql f with
          | Some s => s
          | None => ("(" ⊕ canonicalDouble f ⊕ ")")%sql
          end
      end
  end.
Definition staticNumberOfText (text : string) : sql :=
  let head := trim_space (sqliteNumeralHead text) in
  if String.eqb head "" then raw "(0)" else staticNumericLiteral head.

(** ** Conditionals that mix kinds of values *)

Inductive value_kind := KBoolean | KText | KNumber | KBlob | KUnknown.
#[global] Instance value_kind_eq_dec : EqDecision value_kind.
Proof. solve_decision. Defined.

(** [""] is [None]. *)
Definition valueKind (n : tree) : option value_kind :=
  if isNullLiteral n then None
  else if booleanShaped n && negb (isBooleanNode n) then Some KBoolean
  else match affinityOf n with
       | affText => Some KText
       | affNumber => Some KNumber
       | affBlob => Some KBlob
       | affUnknown =>
           match unparen n with
           | NBinary _ op _ _ => if contains arithmetic_ops op then Some KNumber else Some KUnknown
           | _ => Some KUnknown
           end
       end.

Definition results_of (n : tree) : list tree :=
  match n with
  | NCall _ name args => default [] (conditional_args name args)
  | NCase _ _ bs e => caseResults bs e
  | _ => []
  end.
Definition mixes_kinds (n : tree) : bool :=
  (1 <? length (remove_dups (omap valueKind (results_of n))))%nat.

Fixpoint first_some {A} (l : list (option A)) : option A :=
  match l with [] => None | Some x :: _ => Some x | None :: l => first_some l end.
Definition opt_map {A B} (f : A → option B) (o : option A) : list (option B) :=
  match o with Some x => [f x] | None => [] end.

(** The children are searched in the order of [filterChildren]. *)
Fixpoint mixedConditional (n : tree) : option tree :=
  if mixes_kinds n then Some n
  else first_some
    match n with
    | NCall _ _ args => map mixedConditional args
    | NBinary _ _ l r | NIs _ _ l r => [mixedConditional l; mixedConditional r]
    | NUnary _ _ o => [mixedConditional o]
    | NParen _ i => [mixedConditional i]
    | NIn _ _ l items => mixedConditional l :: map mixedConditional items
    | NLike _ _ l pat esc => [mixedConditional l; mixedConditional pat] ++ opt_map mixedConditional esc
    | NBetween _ _ v lo hi => [mixedConditional v; mixedConditional lo; mixedConditional hi]
    | NCase _ o bs e =>
        opt_map mixedConditional o
        ++ mjoin (map (λ b, [mixedConditional (fst b); mixedConditional (snd b)]) bs)
        ++ opt_map mixedConditional e
    | _ => []
    end.

End Analyses.

(** ** Replacing a node *)

Fixpoint tree_contains (n : tree) (target : loc) : bool :=
  (address n =? target)%nat ||
  match n with
  | NCall _ _ args => existsb (λ c, tree_contains c target) args
  | NBinary _ _ l r | NIs _ _ l r => tree_contains l target || tree_contains r target
  | NUnary _ _ o => tree_contains o target
  | NParen _ i => tree_contains i target
  | NIn _ _ l items => tree_contains l target || existsb (λ c, tree_contains c target) items
  | NLike _ _ l pat esc =>
      tree_contains l target || tree_contains pat target
      || match esc with Some e => tree_contains e target | None => false end
  | NBetween _ _ v lo hi => tree_contains v target || tree_contains lo target || tree_contains hi target
  | NCase _ o bs e =>
      match o with Some o => tree_contains o target | None => false end
      || existsb (λ b, tree_contains (fst b) target || tree_contains (snd b) target) bs
      || match e with Some e => tree_contains e target | None => false end
  | _ => false
  end.

(** The nodes on the way to the target are new ones, at addresses from [p]. *)
Fixpoint substituted (target : loc) (replacement : tree) (n : tree) (p : loc) : tree * loc :=
  let sub := substituted target replacement in
  if (address n =? target)%nat then (replacement, p)
  else if negb (tree_contains n target) then (n, p)
  else match n with
       | NCall _ f args => let '(args, q) := map_fresh sub args (S p) in (NCall p f args, q)
       | NBinary _ op l r => let '(l, q) := sub l (S p) in let '(r, q) := sub r q in (NBinary p op l r, q)
       | NUnary _ op o => let '(o, q) := sub o (S p) in (NUnary p op o, q)
       | NParen _ i => let '(i, q) := sub i (S p) in (NParen p i, q)
       | NIs _ neg l r => let '(l, q) := sub l (S p) in let '(r, q) := sub r q in (NIs p neg l r, q)
       | NIn _ neg l items =>
           let '(l, q) := sub l (S p) in let '(items, q) := map_fresh sub items q in (NIn p neg l items, q)
       | NLike _ neg l pat esc =>
           let '(l, q) := sub l (S p) in
           let '(pat, q) := sub pat q in
           let '(esc, q) := option_fresh sub esc q in (NLike p neg l pat esc, q)
       | NBetween _ neg v lo hi =>
           let '(v, q) := sub v (S p) in
           let '(lo, q) := sub lo q in
           let '(hi, q) := sub hi q in (NBetween p neg v lo hi, q)
       | NCase _ o bs e =>
           let '(o, q) := option_fresh sub o (S p) in
           let '(bs, q) := map_fresh (λ b q, let '(w, q) := sub (fst b) q in let '(t, q) := sub (snd b) q in ((w, t), q)) bs q in
           let '(e, q) := option_fresh sub e q in (NCase p o bs e, q)
       | _ => (n, p)
       end.

(** A choice: its condition, if it has one, and its result. *)
Definition choice : Type := option tree * tree.
Definition null_literal (p : loc) : tree := NLiteral p LiteralNull "".

Fixpoint coalesce_choices (args : list tree) (p : loc) : list choice * loc :=
  match args with
  | [] => ([], p)
  | [last] => ([(None, last)], p)
  | arg :: args =>
      let when := NIs p true arg (null_literal (S p)) in
      let '(choices, q) := coalesce_choices args (S (S p)) in ((Some when, arg) :: choices, q)
  end.
Fixpoint case_choices (operand : option tree) (branches : list (tree * tree)) (p : loc) : list choice * loc :=
  match branches with
  | [] => ([], p)
  | (w, t) :: branches =>
      let '(when, p) := match operand with Some o => (NBinary p "=" o w, S p) | None => (w, p) end in
      let '(choices, q) := case_choices operand branches p in ((Some when, t) :: choices, q)
  end.
Definition chosenBranches (n : tree) (p : loc) : list choice * loc :=
  match n with
  | NCall _ name args =>
      if String.eqb name "iif" then
        match args with
        | [c; t; e] => ([(Some c, t); (None, e)], p)
        | _ => ([], p)
        end
      else coalesce_choices args p
  | NCase _ o bs e =>
      let '(choices, q) := case_choices o bs p in
      match e with
      | Some e => (choices ++ [(None, e)], q)
      | None => (choices ++ [(None, null_literal q)], S q)
      end
  | _ => ([], p)
  end.
