(* ===== verification/FilterRender.v ===== *)
(** * Rendering a filter for PostgreSQL
    ([internal/postgres/filter_render.go] and [filter_time.go])

    The methods of [filterRenderer].  A method that writes to the builder
    [sb] answers what it writes; [capture], which swaps the builder around a
    call of [render], is then [render].  Methods take [rec], the renderer of
    the nodes below the one they are at; [render] ties the knot, with the
    depth of the tree as fuel.  The methods that stop early on an error leave
    a state nobody reads. *)
From Stdlib Require Import ZArith Lia Ascii String.
From stdpp Require Import base gmap strings list numbers pretty.
From S2P Require Import Prelude GoStrings SchemaIdent FilterLexer FilterParser Schema GoNumbers GoFloats RenderSql FilterTime FilterTree.
Local Open Scope Z_scope.
Local Open Scope sql_scope.

(** ** The state of a renderer *)

(** [s_seen] counts the observations of the context, [s_fresh] is the next
    free address. *)
Record rstate := RState {
  s_seen : nat; s_bound : list value; s_rawBoolean : bool; s_classes : gmap loc sql; s_stripped : gset loc;
  s_lifted : nat; s_fresh : loc }.

Definition see (s : rstate) : rstate :=
  RState (S (s_seen s)) (s_bound s) (s_rawBoolean s) (s_classes s) (s_stripped s) (s_lifted s) (s_fresh s).
Definition bind_value (v : value) (s : rstate) : rstate :=
  RState (s_seen s) (s_bound s ++ [v]) (s_rawBoolean s) (s_classes s) (s_stripped s) (s_lifted s) (s_fresh s).
Definition with_raw (b : bool) (s : rstate) : rstate :=
  RState (s_seen s) (s_bound s) b (s_classes s) (s_stripped s) (s_lifted s) (s_fresh s).
Definition with_class (p : loc) (class : sql) (s : rstate) : rstate :=
  RState (s_seen s) (s_bound s) (s_rawBoolean s) (<[p := class]> (s_classes s)) (s_stripped s) (s_lifted s) (s_fresh s).
Definition with_stripped (p : loc) (s : rstate) : rstate :=
  RState (s_seen s) (s_bound s) (s_rawBoolean s) (s_classes s) ({[p]} ∪ s_stripped s) (s_lifted s) (s_fresh s).
Definition with_lifted (n : nat) (s : rstate) : rstate :=
  RState (s_seen s) (s_bound s) (s_rawBoolean s) (s_classes s) (s_stripped s) n (s_fresh s).
Definition with_fresh (p : loc) (s : rstate) : rstate :=
  RState (s_seen s) (s_bound s) (s_rawBoolean s) (s_classes s) (s_stripped s) (s_lifted s) p.

Abbreviation rendering A := (act rstate render_error A).
Definition reading {A} (f : rstate → A) : rendering A := λ s, (Done (f s), s).
Definition change (f : rstate → rstate) : rendering unit := λ s, (Done (), f s).
Definition lift {A} (m : outcome render_error A) : rendering A := λ s, (m, s).
Definition not_renderable (name : string) : rendering sql := lift (refuse name).

(** ** Constants of the code *)

Definition renderedFunctions : list (string * string) :=
  [("abs", "abs"); ("round", "round"); ("length", "length"); ("lower", "lower"); ("upper", "upper");
   ("substr", "substr"); ("trim", "btrim"); ("ltrim", "ltrim"); ("rtrim", "rtrim"); ("replace", "replace");
   ("instr", "strpos")].
Definition time_names : list string := ["date"; "time"; "datetime"; "julianday"; "strftime"].
Definition maxLiftedBranches : nat := 64.
Definition maxShiftMillis : Z := 1000000000000000.

(** ** Nodes that need no renderer below them *)

(** The hexadecimal integers, the infinities and the reals of [number]. *)
Definition number {UT : UnicodeTables} (text : string) : outcome render_error sql :=
  if hex_prefixed text then
    match ParseUint16 (str_drop 2 (to_lower text)) with
    | PUValue n => Done (num (pretty (wrap_int64 n)))
    | PURange => Fail (HexOverflow text)
    | PUSyntax => Fail (HexInvalid text)
    end
  else match ParseFloat64 text with
       | PFValue f | PFRange f =>
           match infinite_sql f with
           | Some s => Done s
           | None => Done (if numeralIsReal text then canonicalDouble f else num text)
           end
       | PFSyntax => Done (num text)
       end.

Definition blob_text {UT : UnicodeTables} (text : string) : string := "\x" +:+ to_lower text.
Definition literal {UT : UnicodeTables} (k : LiteralKind) (text : string) : outcome render_error sql :=
  match k with
  | LiteralNull => Done (raw "NULL")
  | LiteralTrue => Done (raw "TRUE")
  | LiteralFalse => Done (raw "FALSE")
  | LiteralNumber => number text
  | LiteralBlob => Done (quoted (blob_text text) ⊕ "::bytea")
  | LiteralString => Done (quoted text)
  end.

(** What is bound for an argument: a float is bound as its text. *)
Definition canonicalArgument (v : value) : value :=
  match v with
  | VFloat32 f | VFloat64 f => VString (canonicalDoubleText f)
  | VNumber text =>
      match ParseInt text with
      | Some _ => v
      | None =>
          match ParseFloat64 text with
          | PFValue f | PFRange f => VString (canonicalDoubleText f)
          | PFSyntax => VString (canonicalDoubleText (of_int 0))
          end
      end
  | _ => v
  end.
(** The cast after a placeholder. *)
Definition argument_cast (rawBoolean : bool) (v : value) : string :=
  match v with
  | VBool _ => if rawBoolean then "" else "::bool::int"
  | VInt _ _ => "::numeric"
  | VFloat32 _ | VFloat64 _ | VNumber _ => "::text::numeric"
  | VString _ => "::text"
  | VBytes _ => "::bytea"
  | _ => ""
  end.

(** ** Times *)

Section Times.
Context {UT : UnicodeTables} (r : renderer).

Definition column_name (c : string) : sql := [Name [default c (r_columns r !! c)]].

Definition constantText (n : tree) : option string :=
  match n with
  | NLiteral _ LiteralString t => Some t
  | NParam _ i => match r_args r !! i with Some (VString s) => Some s | _ => None end
  | _ => None
  end.
Definition constantAtRenderTime (n : tree) : bool :=
  match n with
  | NLiteral _ _ _ | NParam _ _ | NUnary _ _ (NLiteral _ _ _) => true
  | _ => false
  end.

(** [None] is a text that is not a number. *)
Definition numericLiteralValue (text : string) : outcome render_error (option double) :=
  if hex_prefixed text then
    match ParseUint16 (str_drop 2 (to_lower text)) with
    | PUValue n => Done (Some (of_int (wrap_int64 n)))
    | _ => Fail (HexOverflow text)
    end
  else match ParseFloat64 text with PFValue f => Done (Some f) | _ => Done None end.

Definition literalMoment (k : LiteralKind) (text : string) : outcome render_error sql :=
  match k with
  | LiteralNull => Done null_moment
  | LiteralString => timeTextMoment text
  | LiteralNumber =>
      let! value := numericLiteralValue text in
      match value with Some f => julianMoment f | None => Done null_moment end
  | _ => refuse ("a date or time function over " +:+ text)
  end.
Definition paramMoment (i : nat) : outcome render_error sql :=
  match r_args r !! i with
  | None => Fail (NotSupplied (i + 1))
  | Some VNil => Done null_moment
  | Some (VString s) => timeTextMoment s
  | Some (VFloat64 f) => julianMoment f
  | Some (VInt Kint64 n | VInt Kint n) => julianMoment (of_int n)
  | Some (VNumber text) => match ParseFloat64 text with PFValue f => julianMoment f | _ => Done null_moment end
  | Some _ => Fail (NotRenderable (RArgument i))
  end.
Definition columnMoment (c : string) : outcome render_error sql :=
  if decide (r_types r !! c = Some Timestamp)
  then Done (quantizedToSQLitesMillisecond (timestampColumn (column_name c)))
  else Fail (NotRenderable (RNotTimestamp c)).

(** The sum of the modifiers in milliseconds; [None] is the NULL of a
    modifier SQLite does not read. *)
Fixpoint shift_of (shift : Z) (mods : list tree) : outcome render_error (option Z) :=
  match mods with
  | [] => Done (Some shift)
  | m :: mods =>
      match constantText m with
      | None =>
          if constantAtRenderTime m then Done None
          else refuse "a date or time modifier this engine cannot read while building the statement"
      | Some text =>
          let '(support, seconds) := parseSQLiteModifier text in
          match support with
          | sqliteOnly => Fail (NotRenderable (RModifier text))
          | malformedInSQLite => Done None
          | supportedHere =>
              let millis := round_half_away (dmul seconds (of_int 1000)) in
              if is_nan millis || dlt (of_int maxShiftMillis) (dabs millis) then Done None
              else
                let shift := shift + truncate millis in
                if (maxShiftMillis <? shift) || (shift <? - maxShiftMillis) then Done None
                else shift_of shift mods
          end
      end
  end.

(** A shifted moment is kept inside the years both engines can write. *)
Definition shifted (base : sql) (shift : Z) : sql :=
  if shift =? 0 then base
  else
    let low := Z.max (firstRenderableMoment - shift) firstRenderableMoment in
    let high := Z.min (lastRenderableMoment - shift) lastRenderableMoment in
    if high <? low then null_moment
    else
      let bounded := "(CASE WHEN " ⊕ base ⊕ " BETWEEN " ⊕ timestampLiteral low ⊕ " AND " ⊕ timestampLiteral high
                     ⊕ " THEN " ⊕ base ⊕ " END)" in
      "(" ⊕ bounded ⊕ " + pg_catalog.make_interval(secs => "
      ⊕ num (FormatFloat ShortestF (ddiv_int (of_int shift) 1000)) ⊕ "))".

Definition nested_moment (name : string) (inner : sql) : outcome render_error sql :=
  if String.eqb name "date" then Done ("pg_catalog.date_trunc('day', " ⊕ inner ⊕ ")")
  else if String.eqb name "time" then
    Done ("(TIMESTAMP '2000-01-01' + (pg_catalog.date_trunc('second', " ⊕ inner
          ⊕ ") - pg_catalog.date_trunc('day', " ⊕ inner ⊕ ")))")
  else if String.eqb name "datetime" then Done ("pg_catalog.date_trunc('second', " ⊕ inner ⊕ ")")
  else if String.eqb name "julianday" then Done inner
  else refuse (name +:+ " inside another date or time function").

Section Moment.
Context (base_of : tree → outcome render_error sql).
Definition moment_with (name : string) (args : list tree) : outcome render_error sql :=
  let at_times args :=
    match args with
    | [] => refuse (name +:+ " without a time")
    | first :: mods =>
        let! base := base_of first in
        let! shift := shift_of 0 mods in
        Done (match shift with Some shift => shifted base shift | None => null_moment end)
    end in
  if String.eqb name "strftime"
  then match args with [] => Fail Panic | _ :: args => at_times args end
  else at_times args.
End Moment.

Fixpoint baseMoment (n : tree) : outcome render_error sql :=
  match n with
  | NLiteral _ k t => literalMoment k t
  | NParam _ i => paramMoment i
  | NColumn _ c => columnMoment c
  | NCall _ name args => let! inner := moment_with baseMoment name args in nested_moment name inner
  | NUnary _ op (NLiteral _ LiteralNumber t) =>
      if sign_op op then
        let! value := numericLiteralValue t in
        match value with
        | Some f => julianMoment (if String.eqb op "-" then dneg f else f)
        | None => Done null_moment
        end
      else refuse "a date or time function over this expression"
  | _ => refuse "a date or time function over this expression"
  end.
Definition moment (name : string) (args : list tree) : outcome render_error sql := moment_with baseMoment name args.

(** [julianday] answers a number, the others a text in their pattern. *)
Definition timed (name : string) (args : list tree) (pattern : option string) : outcome render_error sql :=
  let! m := moment name args in
  let m := withinRepresentableYears m in
  match pattern with
  | None =>
      Done (sqliteDouble ("(pg_catalog.extract('epoch', " ⊕ m ⊕ ") * 1000 + " ⊕ num (pretty julianUnixEpochMillis)
                          ⊕ ")::float8 / 86400000::float8"))
  | Some pattern => Done ("pg_catalog.to_char(" ⊕ m ⊕ ", " ⊕ quoted pattern ⊕ ")")
  end.
Definition timeCall (name : string) (args : list tree) : outcome render_error sql :=
  if String.eqb name "strftime" then
    match args with
    | [] => Fail Panic
    | format :: _ =>
        match constantText format with
        | None => refuse "a strftime format that is not text"
        | Some format =>
            match strftimeToCharPattern format with
            | PatternUnsupported code => Fail (NotRenderable (RField code))
            | PatternMalformed => Done (raw "NULL::text")
            | PatternText pattern => timed name args (Some pattern)
            end
        end
    end
  else timed name args (assoc name timeOutputPatterns).
End Times.

(** ** The renderer *)

Section Render.
Context {UT : UnicodeTables} (ident : list string → string) (r : renderer).

(** [r.ctx.Err()]. *)
Definition observe : rendering unit := λ s,
  match r_ctx r (s_seen s) with
  | None => (Done (), see s)
  | Some e => (Fail (RCanceled e), see s)
  end.

Definition rowDependentOverflow : sql :=
  "((" ⊕ column_name r "id" ⊕ raw (" * 0 + " +:+ sqliteIntMax +:+ ")::int8 + 1)::numeric").

Definition param (i : nat) : rendering sql :=
  match r_args r !! i with
  | None => lift (Fail (NotSupplied (i + 1)))
  | Some v =>
      do! place := reading (λ s, r_next r + length (s_bound s))%nat in
      do! rawBoolean := reading s_rawBoolean in
      do! _ := change (bind_value (canonicalArgument v)) in
      aret ([Bind place] ⊕ argument_cast rawBoolean v)
  end.

Definition column (c : string) : rendering sql :=
  do! rawBoolean := reading s_rawBoolean in
  aret (if decide (r_types r !! c = Some Boolean) then
          if rawBoolean then column_name r c else "(" ⊕ column_name r c ⊕ ")::int"
        else column_name r c).

(** ** Classes of numbers *)

Definition record_class (p : loc) (class : sql) : rendering unit := change (with_class p class).
Definition structural (n : tree) : rendering sql := reading (λ s, structuralClass r (s_classes s) n).

Definition between_ints (numeric : sql) : sql :=
  numeric ⊕ raw (" BETWEEN " +:+ sqliteIntMin +:+ " AND " +:+ sqliteIntMax).
Definition is_text (class : sql) (t : string) : bool := sql_eqb ident class (raw t).

Definition integerClassed (n : tree) (rawText numeric : sql) : rendering sql :=
  do! class := structural n in
  aret
    (if is_text class "FALSE" then raw "FALSE"
     else if match unparen n with NBinary _ _ _ _ => negb (is_text class "TRUE") | _ => false end then class
     else
       let runtime :=
         if decide (affinityOf r n = affText)
         then "(COALESCE((substring(" ⊕ rawText ⊕ raw (" FROM '" +:+ sqliteNumHead +:+ "')), '') !~ '[.eE]' AND ")
              ⊕ between_ints numeric ⊕ ")"
         else "(" ⊕ numeric ⊕ " = trunc(" ⊕ numeric ⊕ ") AND " ⊕ between_ints numeric ⊕ ")" in
       if is_text class "TRUE" then runtime else "(" ⊕ class ⊕ " AND " ⊕ runtime ⊕ ")").

(** [recordChosenClass]: the class of a conditional is that of the result
    its conditions choose. *)
Fixpoint case_classes (conditions : list sql) (classes : list sql) : sql :=
  match conditions, classes with
  | c :: conditions, k :: classes => (" WHEN " ⊕ c ⊕ " THEN " ⊕ k) ⊕ case_classes conditions classes
  | [], k :: _ => " ELSE " ⊕ k
  | _, [] => []
  end.
Definition recordChosenClass (p : loc) (conditions : list sql) (results : list tree) : rendering unit :=
  do! classes := reading (λ s, map (structuralClass r (s_classes s)) results) in
  match classes with
  | [] => aret ()
  | first :: _ =>
      if forallb (λ k, sql_eqb ident first k) classes then record_class p first
      else record_class p ("(CASE" ⊕ case_classes conditions classes ⊕ " END)")
  end.

Section Nodes.
Context (rec : tree → rendering sql).

Definition capture (n : tree) : rendering sql := rec n.
Definition captureBoolean (n : tree) : rendering sql :=
  do! saved := reading s_rawBoolean in
  do! _ := change (with_raw true) in
  do! out := capture n in
  do! _ := change (with_raw saved) in
  aret out.

Definition captureNumeric (n : tree) : rendering sql :=
  if decide (affinityOf r n = affText) then
    match staticTextOf r n with
    | Some text => aret (staticNumberOfText text)
    | None => do! text := capture n in aret (sqliteNumberOfText text)
    end
  else do! text := capture n in aret ("(" ⊕ text ⊕ ")::numeric").

Definition truth (n : tree) : rendering sql :=
  if isBooleanNode r n then captureBoolean n
  else if rendersAsTruthValue n || choosesAmongTruthValues n then capture n
  else if decide (affinityOf r n = affText) then
    do! out := captureNumeric n in aret ("(" ⊕ out ⊕ " <> 0)")
  else
    do! out := capture n in
    aret (if decide (affinityOf r n = affBlob)
          then "(" ⊕ sqliteNumberOfText ("convert_from(" ⊕ out ⊕ ", 'LATIN1')") ⊕ " <> 0)"
          else "(" ⊕ out ⊕ " <> 0)").

Fixpoint isParamNode (n : tree) : bool :=
  match n with NParen _ i => isParamNode i | NParam _ _ => true | _ => false end.
Definition captureGuard (n : tree) : rendering sql :=
  do! out := capture n in
  aret (if isParamNode n then
          out ⊕ raw match affinityOf r n with
                    | affNumber => "::numeric" | affText => "::text" | affBlob => "::bytea" | affUnknown => "::text"
                    end
        else out).

(** The text and the number of an operand of arithmetic. *)
Definition numericOperand (n : tree) : rendering (sql * sql) :=
  match (if negb (booleanShaped r n) && bool_decide (affinityOf r n = affText) then staticTextOf r n else None) with
  | Some text => aret (quoted text, staticNumberOfText text)
  | None =>
      do! out := capture n in
      aret (if booleanShaped r n && negb (isBooleanNode r n) then (out, "(" ⊕ out ⊕ ")::int::numeric")
            else if decide (affinityOf r n = affText) then (out, sqliteNumberOfText out)
            else (out, "(" ⊕ out ⊕ ")::numeric"))
  end.
Definition moduloOperand (n : tree) (rawText numeric : sql) : sql :=
  if decide (affinityOf r n = affText) then
    let head := "(substring(" ⊕ rawText ⊕ raw (" FROM '" +:+ sqliteIntHead +:+ "'))") in
    "(CASE WHEN " ⊕ rawText ⊕ " IS NULL THEN NULL ELSE " ⊕ sqliteInteger ("COALESCE(" ⊕ head ⊕ "::numeric, 0)") ⊕ " END)"
  else sqliteInteger numeric.

(** ** Comparisons *)

Definition storageClassComparison (left right : tree) (op : string) : rendering sql :=
  let lc := comparedClassOf r left in
  let rc := comparedClassOf r right in
  match (if comparisonIsAcrossClasses lc rc then crossClassAnswer op lc rc else None) with
  | Some answer =>
      do! subject := captureGuard left in
      do! object := captureGuard right in
      aret ("(CASE WHEN " ⊕ subject ⊕ " IS NULL OR " ⊕ object ⊕ " IS NULL" ⊕ raw (" THEN NULL ELSE " +:+ answer +:+ " END)"))
  | None =>
      do! l := capture left in
      do! r' := capture right in
      aret ("(" ⊕ l ⊕ raw (" " +:+ op +:+ " ") ⊕ r'
            ⊕ (if bool_decide (lc = affText) && bool_decide (rc = affText) then collateC else []) ⊕ ")")
  end.

Definition substitutedComparison (left right : tree) (op : string) (otherIsRight : bool) (replacement suffix : sql) : rendering sql :=
  if otherIsRight then
    do! l := capture left in aret ("(" ⊕ l ⊕ raw (" " +:+ op +:+ " ") ⊕ replacement ⊕ suffix ⊕ ")")
  else
    do! r' := capture right in aret ("(" ⊕ replacement ⊕ raw (" " +:+ op +:+ " ") ⊕ r' ⊕ suffix ⊕ ")").

Definition textAffinity (left right : tree) (op : string) (otherIsRight : bool) : rendering sql :=
  let other := if otherIsRight then right else left in
  if negb (bool_decide (comparedClassOf r other = affNumber)) then storageClassComparison left right op
  else match staticNumberAsText r other with
       | Some text => substitutedComparison left right op otherIsRight (quoted text) collateC
       | None => not_renderable "a text column compared against a computed number"
       end.

Definition numeric_head (text : sql) : sql := "(substring(" ⊕ text ⊕ raw (" FROM '" +:+ sqliteNumHead +:+ "'))").
Definition runtimeNumericAffinity (left right : tree) (op : string) (otherIsRight : bool) : rendering sql :=
  do! l := capture left in
  do! r' := capture right in
  let text := if otherIsRight then r' else l in
  let stored x := asSQLiteStorage (numeric_head x) (saturatingNumeric (numeric_head x)) in
  let converted := if otherIsRight then l ⊕ raw (" " +:+ op +:+ " ") ⊕ stored r'
                   else stored l ⊕ raw (" " +:+ op +:+ " ") ⊕ r' in
  match crossClassAnswer op (affinityOf r left) (affinityOf r right) with
  | None => storageClassComparison left right op
  | Some answer =>
      aret ("(CASE WHEN " ⊕ text ⊕ raw (" ~ '" +:+ sqliteNumFull +:+ "' THEN (") ⊕ converted ⊕ ")"
            ⊕ " ELSE (CASE WHEN " ⊕ l ⊕ " IS NULL OR " ⊕ r' ⊕ raw (" IS NULL THEN NULL ELSE " +:+ answer +:+ " END) END)"))
  end.
Definition numericAffinity (left right : tree) (op : string) (otherIsRight : bool) : rendering sql :=
  let other := if otherIsRight then right else left in
  if negb (bool_decide (affinityOf r other = affText)) then storageClassComparison left right op
  else match staticTextOf r other with
       | Some text =>
           if sqliteNumericText text
           then substitutedComparison left right op otherIsRight (staticNumericLiteral text) []
           else storageClassComparison left right op
       | None => runtimeNumericAffinity left right op otherIsRight
       end.

(** The comparisons whose two sides have the affinities of columns. *)
Definition affinity_comparison (left right : tree) (op : string) : rendering sql :=
  do! stripped := reading s_stripped in
  let la := declaredAffinityOf r stripped left in
  let ra := declaredAffinityOf r stripped right in
  if bool_decide (la = affNumber) && negb (bool_decide (ra = affNumber)) then numericAffinity left right op true
  else if bool_decide (ra = affNumber) && negb (bool_decide (la = affNumber)) then numericAffinity left right op false
  else if bool_decide (la = affText) && bool_decide (ra = affUnknown) then textAffinity left right op true
  else if bool_decide (ra = affText) && bool_decide (la = affUnknown) then textAffinity left right op false
  else storageClassComparison left right op.

(** A truth value against a text. *)
Definition truth_against_text (left right boolean other : tree) (op : string) : rendering sql :=
  do! rendered := capture boolean in
  do! stripped := reading s_stripped in
  if decide (declaredAffinityOf r stripped other = affText) then
    substitutedComparison left right op (booleanShaped r right) ("((" ⊕ rendered ⊕ ")::int)::text") collateC
  else
    let '(lc, rc) := if booleanShaped r right then (affText, affNumber) else (affNumber, affText) in
    match crossClassAnswer op lc rc with
    | Some answer =>
        do! text := captureGuard other in
        aret ("(CASE WHEN " ⊕ rendered ⊕ " IS NULL OR " ⊕ text ⊕ " IS NULL" ⊕ raw (" THEN NULL ELSE " +:+ answer +:+ " END)"))
    | None => affinity_comparison left right op
    end.

Definition comparison (left right : tree) (op : string) : rendering sql :=
  let lb := booleanShaped r left in
  let rb := booleanShaped r right in
  if lb && rb then
    do! l := captureBoolean left in
    do! r' := captureBoolean right in
    aret ("(" ⊕ l ⊕ raw (" " +:+ op +:+ " ") ⊕ r' ⊕ ")")
  else if xorb lb rb then
    let '(boolean, other) := if rb then (right, left) else (left, right) in
    if negb (isBooleanNode r boolean) && bool_decide (affinityOf r other = affNumber) then
      do! rendered := capture boolean in
      substitutedComparison left right op rb ("(" ⊕ rendered ⊕ ")::int") []
    else if negb (isBooleanNode r boolean) && bool_decide (affinityOf r other = affText) then
      truth_against_text left right boolean other op
    else affinity_comparison left right op
  else affinity_comparison left right op.

(** The builder is swapped around [comparison]: [compareVia] is its output. *)
Definition compareVia (op : string) (left right : tree) : rendering sql := comparison left right op.

(** ** Arithmetic *)

Definition class_pair (leftClass rightClass : sql) : sql := "(" ⊕ leftClass ⊕ " AND " ⊕ rightClass.
Definition in_int_range (exact : sql) : sql :=
  exact ⊕ raw (" BETWEEN " +:+ sqliteIntMin +:+ " AND " +:+ sqliteIntMax +:+ ")").
Definition by_class (class whenInteger otherwise : sql) : sql :=
  "(CASE WHEN " ⊕ class ⊕ " THEN " ⊕ whenInteger ⊕ " ELSE " ⊕ otherwise ⊕ " END)".

Definition arithmetic (p : loc) (left right : tree) (op : string) : rendering sql :=
  do! (rawLeft, l) := numericOperand left in
  do! (rawRight, r') := numericOperand right in
  do! leftClass := integerClassed left rawLeft l in
  do! rightClass := integerClassed right rawRight r' in
  let bothInteger := negb (is_text leftClass "FALSE") && negb (is_text rightClass "FALSE") in
  do! _ := (if bothInteger then aret () else record_class p (raw "FALSE")) in
  if String.eqb op "/" then
    let exact := "NULLIF(" ⊕ l ⊕ " / NULLIF(" ⊕ r' ⊕ ", 0), 'NaN'::numeric)" in
    let real := doubleQuotient l r' in
    if negb bothInteger then aret ("(" ⊕ real ⊕ ")")
    else
      let class := class_pair leftClass rightClass ⊕ " AND trunc(" ⊕ exact ⊕ ")" ⊕ in_int_range [] in
      do! _ := record_class p class in
      aret (by_class class ("trunc(" ⊕ exact ⊕ ")") real)
  else if String.eqb op "%" then
    let remainder := "(" ⊕ moduloOperand left rawLeft l ⊕ " % NULLIF(" ⊕ moduloOperand right rawRight r' ⊕ ", 0))" in
    if negb bothInteger then aret (sqliteDouble remainder)
    else
      let class := class_pair leftClass rightClass ⊕ ")" in
      do! _ := record_class p class in
      aret (by_class class remainder (sqliteDouble remainder))
  else
    let exact := "(" ⊕ l ⊕ raw (" " +:+ op +:+ " ") ⊕ r' ⊕ ")" in
    let real := doubleArithmetic l op r' in
    if negb bothInteger then aret real
    else
      let class := class_pair leftClass rightClass ⊕ " AND " ⊕ in_int_range exact in
      do! _ := record_class p class in
      aret (by_class class exact real).

Definition concatOperand (n : tree) : rendering sql :=
  if booleanShaped r n && negb (isBooleanNode r n) then
    do! out := capture n in aret ("((" ⊕ out ⊕ ")::int)::text")
  else if decide (affinityOf r n = affNumber) then
    if isBooleanNode r n then do! out := capture n in aret ("(" ⊕ out ⊕ ")::text")
    else match staticNumberAsText r n with
         | Some text => aret (quoted text)
         | None => not_renderable "concatenation of a number this engine cannot render SQLite's text for"
         end
  else
    do! out := capture n in
    aret (if decide (affinityOf r n = affBlob) then "convert_from(" ⊕ out ⊕ ", 'LATIN1')" else out).

(** The operator [binary] renders. *)
Definition operator_of (op : string) : string :=
  if String.eqb op "==" then "=" else if String.eqb op "!=" then "<>"
  else if String.eqb op "and" then "AND" else if String.eqb op "or" then "OR" else op.
Definition binary (p : loc) (op : string) (left right : tree) : rendering sql :=
  let op := operator_of op in
  if mem op ["="; "<>"; "<"; "<="; ">"; ">="] then comparison left right op
  else if mem op ["+"; "-"; "*"; "/"; "%"] then arithmetic p left right op
  else if mem op ["AND"; "OR"] then
    do! l := truth left in
    do! r' := truth right in
    aret ("(" ⊕ l ⊕ raw (" " +:+ op +:+ " ") ⊕ r' ⊕ ")")
  else if String.eqb op "||" then
    do! l := concatOperand left in
    do! r' := concatOperand right in
    aret ("(" ⊕ l ⊕ " || " ⊕ r' ⊕ ")")
  else
    do! l := capture left in
    do! r' := capture right in
    aret ("(" ⊕ l ⊕ raw (" " +:+ op +:+ " ") ⊕ r' ⊕ ")").

(** ** The other operators *)

Definition negate (negated : bool) (joined : sql) : sql := if negated then "(NOT " ⊕ joined ⊕ ")" else joined.

Definition is_expr (negated : bool) (left right : tree) : rendering sql :=
  do! equal := compareVia "=" left right in
  do! l := captureGuard left in
  do! r' := captureGuard right in
  aret (negate negated ("(COALESCE(" ⊕ equal ⊕ ", FALSE) OR (" ⊕ l ⊕ " IS NULL AND " ⊕ r' ⊕ " IS NULL))")).

Fixpoint in_parts (left : tree) (items : list tree) : rendering (list sql) :=
  match items with
  | [] => aret []
  | item :: items =>
      do! part := compareVia "=" left item in
      do! parts := in_parts left items in
      aret (part :: parts)
  end.
Definition in_expr (negated : bool) (left : tree) (items : list tree) : rendering sql :=
  match items with
  | [] => aret (raw (if negated then "TRUE" else "FALSE"))
  | _ => do! parts := in_parts left items in aret (negate negated ("(" ⊕ sql_join " OR " parts ⊕ ")"))
  end.

Definition likeOperand (n : tree) : rendering sql :=
  match affinityOf r n with
  | affNumber =>
      if isBooleanNode r n then do! out := capture n in aret ("(" ⊕ out ⊕ ")::text")
      else match staticNumberAsText r n with
           | Some text => aret (quoted text)
           | None => not_renderable "LIKE over a number this engine cannot render SQLite's text for"
           end
  | affBlob => not_renderable "LIKE over a blob"
  | _ => capture n
  end.
Definition like_expr (negated : bool) (left pattern : tree) (escape : option tree) : rendering sql :=
  do! subject := likeOperand left in
  do! pat := likeOperand pattern in
  do! esc := (match escape with
              | Some e => do! out := capture e in aret (" ESCAPE " ⊕ out)
              | None => aret (raw " ESCAPE ''")
              end) in
  aret ("(" ⊕ asciiFold subject ⊕ raw (if negated then " NOT LIKE " else " LIKE ") ⊕ asciiFold pat ⊕ collateC ⊕ esc ⊕ ")").

Definition between (negated : bool) (v low high : tree) : rendering sql :=
  do! lo := compareVia ">=" v low in
  do! hi := compareVia "<=" v high in
  aret (negate negated ("(" ⊕ lo ⊕ " AND " ⊕ hi ⊕ ")")).

(** ** Calls *)

Fixpoint capture_all (args : list tree) : rendering (list sql) :=
  match args with
  | [] => aret []
  | a :: args => do! out := capture a in do! outs := capture_all args in aret (out :: outs)
  end.
Definition plainCall (name : string) (args : list tree) : rendering sql :=
  do! outs := capture_all args in aret (raw (name +:+ "(") ⊕ sql_join ", " outs ⊕ ")").

Definition coalesce (p : loc) (args : list tree) : rendering sql :=
  do! outs := capture_all args in
  do! _ := recordChosenClass p (map (λ a, "(" ⊕ a ⊕ ") IS NOT NULL") outs) args in
  aret ("coalesce(" ⊕ sql_join ", " outs ⊕ ")").

Definition iif (p : loc) (args : list tree) : rendering sql :=
  match args with
  | [c; t; e] =>
      do! condition := truth c in
      do! yes := capture t in
      do! no := capture e in
      do! _ := recordChosenClass p [condition] [t; e] in
      aret ("(CASE WHEN " ⊕ condition ⊕ " THEN " ⊕ yes ⊕ " ELSE " ⊕ no ⊕ " END)")
  | _ => not_renderable "iif"
  end.

Definition fold_case (name : string) (args : list tree) : rendering sql :=
  match args with
  | [a] =>
      do! arg := capture a in
      let '(from, to) := if String.eqb name "upper" then (asciiLowerSet, asciiUpperSet) else (asciiUpperSet, asciiLowerSet) in
      aret ("translate(" ⊕ arg ⊕ raw (", '" +:+ from +:+ "', '" +:+ to +:+ "')"))
  | _ => not_renderable name
  end.

Definition roundSubject (n : tree) : rendering sql :=
  if decide (affinityOf r n = affText) then captureNumeric n else capture n.
Definition roundDigits (n : tree) : rendering sql :=
  do! (_, numeric) := numericOperand n in
  aret ("(CASE WHEN " ⊕ numeric ⊕ " IS NULL THEN NULL ELSE" ⊕ " least(greatest(" ⊕ sqliteInteger numeric ⊕ ", 0), 30)::int END)").
Definition round (args : list tree) : rendering sql :=
  match args with
  | [a] => do! arg := roundSubject a in aret (sqliteDouble ("pg_catalog.round((" ⊕ arg ⊕ ")::numeric" ⊕ ")"))
  | [a; d] =>
      do! arg := roundSubject a in
      do! digits := roundDigits d in
      aret (sqliteDouble ("pg_catalog.round((" ⊕ arg ⊕ ")::numeric" ⊕ ", " ⊕ digits ⊕ ")"))
  | _ => not_renderable "round"
  end.

Definition substrInteger (n : tree) : rendering sql :=
  do! (rawText, numeric) := numericOperand n in aret (moduloOperand n rawText numeric).
Definition substr_sql (subject start length size : sql) : sql :=
  let anchor := "(CASE WHEN " ⊕ start ⊕ " > 0 THEN " ⊕ start ⊕ " - 1 WHEN " ⊕ start ⊕ " = 0 THEN -1 ELSE "
                ⊕ start ⊕ " + " ⊕ size ⊕ " END)" in
  let low := "(" ⊕ anchor ⊕ " + least(" ⊕ length ⊕ ", 0))" in
  let count := "greatest(least(" ⊕ low ⊕ " + abs(" ⊕ length ⊕ "), abs(" ⊕ length ⊕ ")), 0)" in
  "(CASE WHEN " ⊕ start ⊕ " IS NULL OR " ⊕ length ⊕ " IS NULL THEN NULL ELSE pg_catalog.substr("
  ⊕ subject ⊕ ", (least(greatest(" ⊕ low ⊕ ", 0), 2147483646) + 1)::int, least(" ⊕ count ⊕ ", 2147483647)::int) END)".
Definition substr (args : list tree) : rendering sql :=
  match args with
  | a :: s :: rest =>
      do! subject := capture a in
      do! start := substrInteger s in
      do! length := (match rest with l :: _ => substrInteger l | [] => aret (num "1000000000") end) in
      let size := if decide (affinityOf r a = affBlob) then "octet_length(" ⊕ subject ⊕ ")" else "char_length(" ⊕ subject ⊕ ")" in
      aret (substr_sql subject start length size)
  | _ => not_renderable "substr"
  end.

Definition other_call (name : string) (args : list tree) : rendering sql :=
  match assoc name renderedFunctions with
  | Some target => plainCall ("pg_catalog." +:+ target) args
  | None => not_renderable name
  end.
Definition abs (args : list tree) : rendering sql :=
  match args with
  | [a] =>
      if decide (affinityOf r a = affText) then
        do! arg := captureNumeric a in aret (sqliteDouble ("pg_catalog.abs(" ⊕ arg ⊕ ")"))
      else if negb (staticallyReal r a) && negb (booleanShaped r a) then
        do! (rawText, numeric) := numericOperand a in
        do! class := integerClassed a rawText numeric in
        aret ("(CASE WHEN " ⊕ numeric ⊕ raw (" = " +:+ sqliteIntMin +:+ " AND ") ⊕ class ⊕ " THEN "
              ⊕ rowDependentOverflow ⊕ " ELSE pg_catalog.abs(" ⊕ numeric ⊕ ") END)")
      else other_call "abs" args
  | _ => other_call "abs" args
  end.

Definition call (p : loc) (name : string) (args : list tree) : rendering sql :=
  if mem name ["ifnull"; "coalesce"] then coalesce p args
  else if String.eqb name "nullif" then plainCall "nullif" args
  else if String.eqb name "iif" then iif p args
  else if mem name time_names then lift (timeCall r name args)
  else if mem name ["lower"; "upper"] then fold_case name args
  else if String.eqb name "round" then round args
  else if String.eqb name "substr" then
    if (2 <=? length args)%nat && (length args <=? 3)%nat then substr args else not_renderable "substr"
  else if String.eqb name "abs" then abs args
  else other_call name args.

(** ** CASE *)

Definition caseCondition (operand : option tree) (when : tree) : rendering sql :=
  match operand with None => truth when | Some o => compareVia "=" o when end.
Fixpoint case_branches (operand : option tree) (branches : list (tree * tree)) : rendering (list (sql * sql)) :=
  match branches with
  | [] => aret []
  | (w, t) :: branches =>
      do! condition := caseCondition operand w in
      do! result := capture t in
      do! rest := case_branches operand branches in
      aret ((condition, result) :: rest)
  end.
Fixpoint when_then (branches : list (sql * sql)) : sql :=
  match branches with
  | [] => []
  | (c, t) :: branches => (" WHEN " ⊕ c ⊕ " THEN " ⊕ t) ⊕ when_then branches
  end.
Definition caseExpr (p : loc) (operand : option tree) (branches : list (tree * tree)) (otherwise : option tree) : rendering sql :=
  do! outs := case_branches operand branches in
  do! tail := (match otherwise with
               | Some e => do! out := capture e in aret (" ELSE " ⊕ out)
               | None => aret []
               end) in
  do! _ := recordChosenClass p (map fst outs) (caseResults branches otherwise) in
  aret ("(CASE" ⊕ when_then outs ⊕ tail ⊕ " END)").

(** ** One node *)

Definition unary (op : string) (operand : tree) : rendering sql :=
  let plain := do! out := capture operand in aret (raw ("(" +:+ op +:+ " ") ⊕ out ⊕ ")") in
  if equal_fold op "not" then do! inner := truth operand in aret ("NOT (" ⊕ inner ⊕ ")")
  else if sign_op op then
    match operand with
    | NLiteral _ LiteralNumber t =>
        match signed_literal op t with
        | Some whole => aret ("(" ⊕ num (pretty whole) ⊕ ")")
        | None =>
            if negb (hex_prefixed t) && numeralIsReal t
            then do! out := lift (number (op +:+ trim_space t)) in aret ("(" ⊕ out ⊕ ")")
            else plain
        end
    | _ => plain
    end
  else plain.

Definition render_node (n : tree) : rendering sql :=
  do! _ := observe in
  match n with
  | NColumn _ c => column c
  | NParam _ i => param i
  | NLiteral _ k t => lift (literal k t)
  | NParen _ i => do! out := capture i in aret ("(" ⊕ out ⊕ ")")
  | NUnary _ op o => unary op o
  | NBinary p op l r' => binary p op l r'
  | NIs _ neg l r' => is_expr neg l r'
  | NIn _ neg l items => in_expr neg l items
  | NLike _ neg l pat esc => like_expr neg l pat esc
  | NBetween _ neg v lo hi => between neg v lo hi
  | NCall p name args => call p name args
  | NCase p o bs e => caseExpr p o bs e
  end.
End Nodes.

Fixpoint render (fuel : nat) (n : tree) : rendering sql :=
  match fuel with
  | O => lift OutOfFuel
  | S fuel => render_node (render fuel) n
  end.

(** ** Lifting conditionals that mix kinds *)

Definition fresh_with {A} (f : loc → A * loc) : rendering A := λ s,
  let '(a, q) := f (s_fresh s) in (Done a, with_fresh q s).

Fixpoint depth (n : tree) : nat :=
  let most := foldr Nat.max O in
  S match n with
    | NCall _ _ args => most (map depth args)
    | NBinary _ _ l r' | NIs _ _ l r' => Nat.max (depth l) (depth r')
    | NUnary _ _ o => depth o
    | NParen _ i => depth i
    | NIn _ _ l items => Nat.max (depth l) (most (map depth items))
    | NLike _ _ l pat esc => Nat.max (depth l) (Nat.max (depth pat) match esc with Some e => depth e | None => O end)
    | NBetween _ _ v lo hi => Nat.max (depth v) (Nat.max (depth lo) (depth hi))
    | NCase _ o bs e =>
        Nat.max match o with Some o => depth o | None => O end
          (Nat.max (most (map (λ b, Nat.max (depth (fst b)) (depth (snd b))) bs))
                   match e with Some e => depth e | None => O end)
    | _ => O
    end.
(** [truth] of a tree that no other is above. *)
Definition truth_of (n : tree) : rendering sql := truth (render (depth n)) n.

(** The loop over the choices; a choice's body is rendered before its
    condition, and placeholders are numbered in that order. *)
Fixpoint lift_choices (body : tree → rendering sql) (root target : tree) (choices : list choice) : rendering sql :=
  match choices with
  | [] => aret []
  | (when, result) :: choices =>
      do! _ := change (with_stripped (address result)) in
      do! specialised := fresh_with (substituted (address target) result root) in
      do! out := body specialised in
      do! part := (match when with
                   | None => aret (" ELSE " ⊕ out)
                   | Some w => do! condition := truth_of w in aret (" WHEN " ⊕ condition ⊕ " THEN " ⊕ out)
                   end) in
      do! rest := lift_choices body root target choices in
      aret (part ⊕ rest)
  end.

Fixpoint liftedTruth (fuel : nat) (root : tree) : rendering sql :=
  match fuel with
  | O => lift OutOfFuel
  | S fuel =>
      do! _ := observe in
      match mixedConditional r root with
      | None => truth_of root
      | Some target =>
          do! choices := fresh_with (chosenBranches target) in
          do! lifted := reading s_lifted in
          let lifted := (lifted + length choices)%nat in
          do! _ := change (with_lifted lifted) in
          if (maxLiftedBranches <? lifted)%nat
          then not_renderable "a filter choosing among this many values of different types"
          else
            do! out := lift_choices (liftedTruth fuel) root target choices in
            aret ("(CASE" ⊕ out ⊕ " END)")
      end
  end.

(** Every level of lifting adds a branch to [s_lifted]. *)
Definition lift_fuel : nat := maxLiftedBranches + 2.

Definition renderScopedFilter (n : Node) : outcome render_error (sql * list value) :=
  let '(root, p) := load n 0 in
  let '(out, s) := (do! _ := observe in liftedTruth lift_fuel root) (RState 0 [] false ∅ ∅ 0 p) in
  let! rendered := out in Done (rendered, s_bound s).
End Render.
