(* ===== verification/RenderQuotes.v ===== *)
(** * Quotes and placeholders in rendered SQL

    PostgreSQL's rules for quotes, as far as the rendered texts need them; the
    lemmas say of each template that it keeps quotes closed, adds no name or
    placeholder and drops none.  And what dollar quoting gives back. *)
From Stdlib Require Import ZArith Lia Ascii String.
From stdpp Require Import base gmap strings list numbers pretty.
From S2P Require Import Prelude GoStrings GoNumbers GoFloats RenderSql.
Local Open Scope Z_scope.
Local Open Scope sql_scope.

(** ** The reader of quotes *)

(** Outside quotes, what the last byte could join with the next one into:
    a word, a comment, a placeholder. *)
Inductive edge := EPlain | EWord | EDash | ESlash | EBind.
Inductive qstate := QOut (e : edge) | QSingle | QDouble.

Definition word_byte (c : ascii) : bool :=
  let b := byte_val c in
  in_range 48 57 b || in_range 65 90 b || in_range 97 122 b || (b =? 95) || (128 <=? b).
Definition joins (e : edge) : bool := match e with EWord | EBind => true | _ => false end.

(** [None]: the byte would be read as part of a token of another kind: a
    prefixed string, a comment, a dollar quote. *)
Definition qstep (q : qstate) (c : ascii) : option qstate :=
  match q with
  | QSingle => Some (if Ascii.eqb c "'" then QOut EPlain else QSingle)
  | QDouble => Some (if Ascii.eqb c "034" then QOut EWord else QDouble)
  | QOut e =>
      if Ascii.eqb c "'" then if joins e then None else Some QSingle
      else if Ascii.eqb c "034" then if joins e then None else Some QDouble
      else if Ascii.eqb c "$" then None
      else if word_byte c then match e with EBind => None | _ => Some (QOut EWord) end
      else if Ascii.eqb c "-" then match e with EDash => None | _ => Some (QOut EDash) end
      else if Ascii.eqb c "/" then Some (QOut ESlash)
      else if Ascii.eqb c "*" then match e with ESlash => None | _ => Some (QOut EPlain) end
      else Some (QOut EPlain)
  end.
Fixpoint scan_raw (q : qstate) (s : string) : option qstate :=
  match s with
  | EmptyString => Some q
  | String c s => match qstep q c with Some q => scan_raw q s | None => None end
  end.
Definition run_piece (q : qstate) (p : piece) : option qstate :=
  match p with
  | Raw s | Num s => scan_raw q s
  | Quoted _ => match q with QOut e => if joins e then None else Some (QOut EPlain) | _ => None end
  | Name _ => match q with QOut e => if joins e then None else Some (QOut EWord) | _ => None end
  | Bind _ => match q with QOut e => if joins e then None else Some (QOut EBind) | _ => None end
  end.
Fixpoint run (q : qstate) (l : sql) : option qstate :=
  match l with
  | [] => Some q
  | p :: l => match run_piece q p with Some q => run q l | None => None end
  end.

Definition good_end (e : edge) : Prop := e = EPlain ∨ e = EWord ∨ e = EBind.
Definition ends (o : option qstate) : Prop := ∃ e, o = Some (QOut e) ∧ good_end e.
(** Read from a place where a token may begin, [q] leaves no quote open. *)
Definition closes (q : sql) : Prop := ends (run (QOut EPlain) q).
(** The same after the end of anything that closes. *)
Definition flows (q : sql) : Prop := ∀ e, good_end e → ends (run (QOut e) q).

Lemma run_cat st a b : run st (a ⊕ b) = match run st a with Some st' => run st' b | None => None end.
Proof. unfold cat. revert st. induction a as [|p a IH]; intros st; simpl; [done|]. by case_match. Qed.

Lemma ends_cat_raw st a st' q : scan_raw st a = Some st' → ends (run st' q) → ends (run st (raw a ⊕ q)).
Proof. intros Ha. simpl. by rewrite Ha. Qed.
Lemma ends_cat_num st a st' q : scan_raw st a = Some st' → ends (run st' q) → ends (run st (num a ⊕ q)).
Proof. intros Ha. simpl. by rewrite Ha. Qed.
Lemma ends_raw st a e : scan_raw st a = Some (QOut e) → good_end e → ends (run st (raw a)).
Proof. intros Ha He. simpl. rewrite Ha. by exists e. Qed.
Lemma flows_cat a b : closes a → flows b → closes (a ⊕ b).
Proof. intros (e & Ha & He) Hb. unfold closes. rewrite run_cat, Ha. by apply Hb. Qed.
Lemma flows_flows a b : flows a → flows b → flows (a ⊕ b).
Proof. intros Ha Hb e He. destruct (Ha e He) as (e' & H & He'). rewrite run_cat, H. by apply Hb. Qed.
Lemma cat_assoc a b c : (a ⊕ b) ⊕ c = a ⊕ b ⊕ c.
Proof. symmetry. apply app_assoc. Qed.
Lemma flows_nil : flows [].
Proof. intros e He. by exists e. Qed.

(** A byte that reads the same after anything that closes. *)
Definition follow_byte (c : ascii) : bool :=
  negb (Ascii.eqb c "'" || Ascii.eqb c "034" || Ascii.eqb c "$" || word_byte c).
Definition follows (s : string) : bool := match s with String c _ => follow_byte c | EmptyString => false end.

Lemma qstep_follow e c : good_end e → follow_byte c = true → qstep (QOut e) c = qstep (QOut EPlain) c.
Proof.
  unfold follow_byte. rewrite negb_true_iff, !orb_false_iff. intros He [[[H1 H2] H3] H4]. simpl.
  rewrite H1, H2, H3, H4. destruct He as [->|[->| ->]]; done.
Qed.
Lemma flows_raw s q : follows s = true → ends (run (QOut EPlain) (raw s ⊕ q)) → flows (raw s ⊕ q).
Proof.
  intros Hs H e He. destruct s as [|c s]; [done|].
  cbn [raw cat app run run_piece scan_raw] in *. by rewrite qstep_follow.
Qed.
Lemma flows_raw_only s : follows s = true → ends (run (QOut EPlain) (raw s)) → flows (raw s).
Proof. intros. pose proof (flows_raw s [] H) as F. unfold cat in F. rewrite app_nil_r in F. auto. Qed.

Lemma flows_at q e : flows q → good_end e → ends (run (QOut e) q).
Proof. auto. Qed.

Lemma closes_quoted t : closes (quoted t).
Proof. exists EPlain. split; [done|by left]. Qed.
Lemma closes_name n : closes [Name n].
Proof. exists EWord. split; [done|by right; left]. Qed.
Lemma closes_bind k : closes [Bind k].
Proof. exists EBind. split; [done|by right; right]. Qed.

(** ** Which pieces a text may hold *)

Record limits := Limits { l_low : nat; l_high : nat; l_names : list string → Prop }.
Definition piece_ok (L : limits) (p : piece) : Prop :=
  match p with
  | Bind k => (l_low L ≤ k < l_high L)%nat
  | Name parts => l_names L parts
  | _ => True
  end.
Definition within (L : limits) (q : sql) : Prop := Forall (piece_ok L) q.
Definition fits (L : limits) (q : sql) : Prop := closes q ∧ within L q.
Definition uses (k : nat) (q : sql) : Prop := Bind k ∈ q.

Lemma within_cat L a b : within L a → within L b → within L (a ⊕ b).
Proof. intros. by apply Forall_app. Qed.
Lemma within_raw L s : within L (raw s).
Proof. by repeat constructor. Qed.
Lemma within_num L s : within L (num s).
Proof. by repeat constructor. Qed.
Lemma within_quoted L s : within L (quoted s).
Proof. by repeat constructor. Qed.
Lemma within_nil L : within L [].
Proof. constructor. Qed.
Lemma uses_l k a b : uses k a → uses k (a ⊕ b).
Proof. intros. apply elem_of_app. by left. Qed.
Lemma uses_r k a b : uses k b → uses k (a ⊕ b).
Proof. intros. apply elem_of_app. by right. Qed.

Create HintDb sql discriminated.
#[export] Hint Resolve closes_quoted closes_name closes_bind flows_nil within_raw within_num within_quoted within_nil : sql.

(** [closing] proves that a template closes: literal text is read by
    computation, what is put into it by hypothesis or by its own lemma. *)
Ltac scan_done := first [eassumption | vm_compute; reflexivity].
Ltac good_done := first [left; reflexivity | right; left; reflexivity | right; right; reflexivity].
Ltac closing :=
  lazymatch goal with
  | |- closes (cat (raw _) _) => unfold closes; closing
  | |- closes (raw _) => unfold closes; closing
  | |- closes (cat _ _) => apply flows_cat; [closing|closing]
  | |- closes _ => first [assumption | solve [auto with sql]]
  | |- flows (cat (raw _) _) => apply flows_raw; [scan_done|closing]
  | |- flows (cat [] ?q) => change (flows q); closing
  | |- flows (cat _ _) => apply flows_flows; [closing|closing]
  | |- flows (raw _) => apply flows_raw_only; [scan_done|closing]
  | |- flows _ => first [assumption | solve [auto with sql]]
  | |- ends (run _ (cat (raw _) _)) => eapply ends_cat_raw; [scan_done|closing]
  | |- ends (run ?st (cat [] ?q)) => change (ends (run st q)); closing
  | |- ends (run _ (raw _)) => eapply ends_raw; [scan_done|good_done]
  | |- ends (run (QOut EWord) (cat _ _)) => apply flows_at; [closing|good_done]
  | |- ends (run (QOut EDash) (cat (cat _ _) _)) => rewrite cat_assoc; closing
  | |- ends (run (QOut EPlain) (cat _ _)) => apply flows_cat; [closing|closing]
  | |- ends (run (QOut EPlain) _) => change_closes; closing
  end
with change_closes :=
  match goal with |- ends (run (QOut EPlain) ?q) => change (closes q) end.

Ltac in_limits :=
  lazymatch goal with
  | |- within _ (cat _ _) => apply within_cat; [in_limits|in_limits]
  | |- within _ _ => first [assumption | solve [auto with sql]]
  end.

Ltac binding :=
  first [ assumption
        | lazymatch goal with
          | |- uses _ (cat _ _) => first [apply uses_l; solve [binding] | apply uses_r; solve [binding]]
          | |- uses _ (raw _) => fail
          | |- _ => solve [auto with sql]
          end ].

#[export] Hint Extern 5 (closes (cat _ _)) => closing : sql.
#[export] Hint Extern 5 (closes (raw _)) => closing : sql.
#[export] Hint Extern 5 (within _ (cat _ _)) => in_limits : sql.
#[export] Hint Extern 5 (uses _ (cat _ _)) => binding : sql.

Lemma flows_collateC : flows collateC.
Proof. unfold collateC. closing. Qed.
Lemma within_collateC L : within L collateC.
Proof. apply within_raw. Qed.
#[export] Hint Resolve flows_collateC within_collateC : sql.

(** ** The templates *)

Lemma guardedNumeric_closes x : closes x → closes (guardedNumeric x).
Proof. intros. unfold guardedNumeric. cbv zeta. closing. Qed.
Lemma guardedNumeric_within L x : within L x → within L (guardedNumeric x).
Proof. intros. unfold guardedNumeric. cbv zeta. in_limits. Qed.
Lemma guardedNumeric_uses k x : uses k x → uses k (guardedNumeric x).
Proof. intros. unfold guardedNumeric. cbv zeta. binding. Qed.
#[export] Hint Resolve guardedNumeric_closes guardedNumeric_within guardedNumeric_uses : sql.
Lemma numeralOrder_closes x : closes x → closes (numeralOrder x).
Proof. intros. unfold numeralOrder. cbv zeta. closing. Qed.
Lemma numeralOrder_within L x : within L x → within L (numeralOrder x).
Proof. intros. unfold numeralOrder. cbv zeta. in_limits. Qed.
Lemma numeralOrder_uses k x : uses k x → uses k (numeralOrder x).
Proof. intros. unfold numeralOrder. cbv zeta. binding. Qed.
#[export] Hint Resolve numeralOrder_closes numeralOrder_within numeralOrder_uses : sql.
Lemma saturatingNumeric_closes x : closes x → closes (saturatingNumeric x).
Proof. intros. unfold saturatingNumeric. cbv zeta. closing. Qed.
Lemma saturatingNumeric_within L x : within L x → within L (saturatingNumeric x).
Proof. intros. unfold saturatingNumeric. cbv zeta. in_limits. Qed.
Lemma saturatingNumeric_uses k x : uses k x → uses k (saturatingNumeric x).
Proof. intros. unfold saturatingNumeric. cbv zeta. binding. Qed.
#[export] Hint Resolve saturatingNumeric_closes saturatingNumeric_within saturatingNumeric_uses : sql.
Lemma exactDouble_closes x : closes x → closes (exactDouble x).
Proof. intros. unfold exactDouble. cbv zeta. closing. Qed.
Lemma exactDouble_within L x : within L x → within L (exactDouble x).
Proof. intros. unfold exactDouble. cbv zeta. in_limits. Qed.
Lemma exactDouble_uses k x : uses k x → uses k (exactDouble x).
Proof. intros. unfold exactDouble. cbv zeta. binding. Qed.
#[export] Hint Resolve exactDouble_closes exactDouble_within exactDouble_uses : sql.
Lemma sqliteDouble_closes x : closes x → closes (sqliteDouble x).
Proof. intros. unfold sqliteDouble. cbv zeta. closing. Qed.
Lemma sqliteDouble_within L x : within L x → within L (sqliteDouble x).
Proof. intros. unfold sqliteDouble. cbv zeta. in_limits. Qed.
Lemma sqliteDouble_uses k x : uses k x → uses k (sqliteDouble x).
Proof. intros. unfold sqliteDouble. cbv zeta. binding. Qed.
#[export] Hint Resolve sqliteDouble_closes sqliteDouble_within sqliteDouble_uses : sql.
Lemma withoutNaN_closes x : closes x → closes (withoutNaN x).
Proof. intros. unfold withoutNaN. cbv zeta. closing. Qed.
Lemma withoutNaN_within L x : within L x → within L (withoutNaN x).
Proof. intros. unfold withoutNaN. cbv zeta. in_limits. Qed.
Lemma withoutNaN_uses k x : uses k x → uses k (withoutNaN x).
Proof. intros. unfold withoutNaN. cbv zeta. binding. Qed.
#[export] Hint Resolve withoutNaN_closes withoutNaN_within withoutNaN_uses : sql.
Lemma sqliteInteger_closes x : closes x → closes (sqliteInteger x).
Proof. intros. unfold sqliteInteger. cbv zeta. closing. Qed.
Lemma sqliteInteger_within L x : within L x → within L (sqliteInteger x).
Proof. intros. unfold sqliteInteger. cbv zeta. in_limits. Qed.
Lemma sqliteInteger_uses k x : uses k x → uses k (sqliteInteger x).
Proof. intros. unfold sqliteInteger. cbv zeta. binding. Qed.
#[export] Hint Resolve sqliteInteger_closes sqliteInteger_within sqliteInteger_uses : sql.
Lemma asciiFold_closes x : closes x → closes (asciiFold x).
Proof. intros. unfold asciiFold. cbv zeta. closing. Qed.
Lemma asciiFold_within L x : within L x → within L (asciiFold x).
Proof. intros. unfold asciiFold. cbv zeta. in_limits. Qed.
Lemma asciiFold_uses k x : uses k x → uses k (asciiFold x).
Proof. intros. unfold asciiFold. cbv zeta. binding. Qed.
#[export] Hint Resolve asciiFold_closes asciiFold_within asciiFold_uses : sql.
Lemma asSQLiteStorage_closes head v : closes head → closes v → closes (asSQLiteStorage head v).
Proof. intros. unfold asSQLiteStorage. cbv zeta. closing. Qed.
Lemma asSQLiteStorage_within L head v : within L head → within L v → within L (asSQLiteStorage head v).
Proof. intros. unfold asSQLiteStorage. cbv zeta. in_limits. Qed.
Lemma asSQLiteStorage_uses_head k head v : uses k head → uses k (asSQLiteStorage head v).
Proof. intros. unfold asSQLiteStorage. cbv zeta. binding. Qed.
Lemma asSQLiteStorage_uses_v k head v : uses k v → uses k (asSQLiteStorage head v).
Proof. intros. unfold asSQLiteStorage. cbv zeta. binding. Qed.
#[export] Hint Resolve asSQLiteStorage_closes asSQLiteStorage_within asSQLiteStorage_uses_head asSQLiteStorage_uses_v : sql.
Lemma sqliteNumberOfText_closes x : closes x → closes (sqliteNumberOfText x).
Proof. intros. unfold sqliteNumberOfText. cbv zeta. closing. Qed.
Lemma sqliteNumberOfText_within L x : within L x → within L (sqliteNumberOfText x).
Proof. intros. unfold sqliteNumberOfText. cbv zeta. in_limits. Qed.
Lemma sqliteNumberOfText_uses k x : uses k x → uses k (sqliteNumberOfText x).
Proof. intros. unfold sqliteNumberOfText. cbv zeta. binding. Qed.
#[export] Hint Resolve sqliteNumberOfText_closes sqliteNumberOfText_within sqliteNumberOfText_uses : sql.
Lemma doubleQuotient_closes x y : closes x → closes y → closes (doubleQuotient x y).
Proof. intros. unfold doubleQuotient. cbv zeta. closing. Qed.
Lemma doubleQuotient_within L x y : within L x → within L y → within L (doubleQuotient x y).
Proof. intros. unfold doubleQuotient. cbv zeta. in_limits. Qed.
Lemma doubleQuotient_uses_x k x y : uses k x → uses k (doubleQuotient x y).
Proof. intros. unfold doubleQuotient. cbv zeta. binding. Qed.
Lemma doubleQuotient_uses_y k x y : uses k y → uses k (doubleQuotient x y).
Proof. intros. unfold doubleQuotient. cbv zeta. binding. Qed.
#[export] Hint Resolve doubleQuotient_closes doubleQuotient_within doubleQuotient_uses_x doubleQuotient_uses_y : sql.
