(* ===== verification/RenderNumbers.v ===== *)
(** * Numerals in rendered SQL

    Every numeral the renderer writes is read by PostgreSQL as a token or two
    of its own: it opens no comment and no quote. *)
From Stdlib Require Import ZArith Lia Ascii String.
From stdpp Require Import base gmap strings list numbers pretty.
From S2P Require Import Prelude GoStrings AuthIdentity SchemaIdent SchemaNames SchemaText GoNumbers Timestamps GoFloats RenderSql RenderQuotes FilterTime FilterTree.
Local Open Scope Z_scope.
Local Open Scope sql_scope.

Definition settled (q : option qstate) : Prop := q = Some (QOut EPlain) ∨ q = Some (QOut EWord).
(** Read from a settled place, the text ends in one. *)
Definition moves (s : string) : Prop := ∀ e, e = EPlain ∨ e = EWord → settled (scan_raw (QOut e) s).
(** It may even follow a minus sign. *)
Definition signable (s : string) : Prop := moves s ∧ settled (scan_raw (QOut EDash) s).

Lemma scan_raw_app q a b : scan_raw q (a +:+ b) = match scan_raw q a with Some q => scan_raw q b | None => None end.
Proof. revert q. induction a as [|c a IH]; intros q; simpl; [done|]. by destruct (qstep q c). Qed.

Lemma settled_app e a b : settled (scan_raw (QOut e) a) → moves b → settled (scan_raw (QOut e) (a +:+ b)).
Proof. intros [H|H] Hb; rewrite scan_raw_app, H; apply Hb; auto. Qed.
Lemma moves_nil : moves "".
Proof. intros e [-> | ->]; [by left|by right]. Qed.
Lemma moves_app a b : moves a → moves b → moves (a +:+ b).
Proof. intros Ha Hb e He. by apply settled_app; [apply Ha|]. Qed.
Lemma signable_app a b : signable a → moves b → signable (a +:+ b).
Proof. intros [Ha Ha'] Hb. split; [by apply moves_app|by apply settled_app]. Qed.
Lemma moves_minus (neg : bool) s : signable s → moves (minus neg +:+ s).
Proof.
  intros [Hs Hs']. destruct neg; [|done]. intros e He. unfold minus.
  rewrite scan_raw_app. destruct He as [-> | ->]; exact Hs'.
Qed.

Lemma digit_step e c : digit_byte c = true → e ≠ EBind → qstep (QOut e) c = Some (QOut EWord).
Proof.
  unfold digit_byte, byte_in. intros H He. simpl. unfold word_byte.
  replace (in_range 48 57 (byte_val c)) with true by done.
  destruct (Ascii.eqb_spec c "'") as [->|_]; [done|]. destruct (Ascii.eqb_spec c "034") as [->|_]; [done|].
  destruct (Ascii.eqb_spec c "$") as [->|_]; [done|]. by destruct e.
Qed.
Lemma digits_move s : all_bytes digit_byte s = true → moves s.
Proof.
  induction s as [|c s IH]; simpl; [intros _; apply moves_nil|]. intros [Hc Hs]%andb_true_iff e He. cbn [scan_raw].
  rewrite digit_step by (done || by destruct He as [-> | ->]). apply IH; auto.
Qed.
Lemma digits_signable s : all_bytes digit_byte s = true → s ≠ "" → signable s.
Proof.
  intros Hs Hne. split; [by apply digits_move|]. destruct s as [|c s]; [done|]. cbn [all_bytes scan_raw] in *.
  apply andb_true_iff in Hs as [Hc Hs]. rewrite digit_step by done. apply digits_move; auto.
Qed.

(** ** Digits *)

Lemma all_bytes_drop f n s : all_bytes f s = true → all_bytes f (str_drop n s) = true.
Proof. revert n. induction s as [|c s IH]; intros [|n]; simpl; try done. intros [_ H]%andb_true_iff. by apply IH. Qed.
Lemma zeros_digits n : all_bytes digit_byte (zeros n) = true.
Proof. by induction n. Qed.

Lemma pretty_N_char_digit n : digit_byte (pretty_N_char n) = true.
Proof. unfold pretty_N_char. repeat case_match; done. Qed.
Lemma pretty_N_go_digits x s : all_bytes digit_byte s = true → all_bytes digit_byte (pretty_N_go x s) = true.
Proof.
  revert s. induction (N.lt_wf_0 x) as [x _ IH]. intros s Hs.
  destruct (decide (0 < x)%N) as [Hx|Hx].
  - rewrite pretty_N_go_step by done. apply IH; [by apply N.div_lt|]. simpl. by rewrite pretty_N_char_digit.
  - assert (x = 0%N) as -> by lia. by rewrite pretty_N_go_0.
Qed.
Lemma pretty_N_digits (n : N) : all_bytes digit_byte (pretty n) = true.
Proof. unfold pretty, pretty_N. destruct (decide _); [done|]. by apply pretty_N_go_digits. Qed.
Lemma pretty_N_go_length x s : (String.length s ≤ String.length (pretty_N_go x s))%nat.
Proof.
  revert s. induction (N.lt_wf_0 x) as [x _ IH]. intros s. destruct (decide (0 < x)%N) as [Hx|Hx].
  - rewrite pretty_N_go_step by done. etrans; [|apply IH; by apply N.div_lt]. simpl. lia.
  - assert (x = 0%N) as -> by lia. by rewrite pretty_N_go_0.
Qed.
Lemma pretty_N_nonempty (n : N) : pretty n ≠ "".
Proof.
  unfold pretty, pretty_N. destruct (decide _) as [|Hn]; [done|]. intros H.
  rewrite pretty_N_go_step in H by lia.
  pose proof (pretty_N_go_length (n / 10) (String (pretty_N_char (n mod 10)) "")) as Hl. rewrite H in Hl. simpl in Hl. lia.
Qed.
Lemma pretty_N_signable (n : N) : signable (pretty n).
Proof. apply digits_signable; [apply pretty_N_digits|apply pretty_N_nonempty]. Qed.
Lemma pretty_Z_moves (z : Z) : moves (pretty z).
Proof.
  destruct z as [|p|p]; [apply digits_move; done|apply (pretty_N_signable (N.pos p))|].
  apply (moves_minus true), (pretty_N_signable (N.pos p)).
Qed.

(** ** Formatted floats *)

Lemma moves_const s : settled (scan_raw (QOut EPlain) s) → settled (scan_raw (QOut EWord) s) → moves s.
Proof. by intros H1 H2 e [-> | ->]. Qed.
Ltac const_moves := apply moves_const; vm_compute; auto.

Lemma fmtE_moves neg ds dp : all_bytes digit_byte ds = true → ds ≠ "" → moves (fmtE neg ds dp).
Proof.
  intros Hds Hne. unfold fmtE. apply moves_minus. apply signable_app.
  - destruct ds as [|c ds]; [done|]. simpl in *. apply andb_true_iff in Hds as [Hc _].
    apply digits_signable; [|done]. by destruct ds; simpl; rewrite Hc.
  - apply moves_app.
    { case_match; [|apply moves_nil]. apply moves_app; [const_moves|]. by apply digits_move, all_bytes_drop. }
    apply moves_app; [const_moves|].
    assert (moves ((if Z.abs (dp - 1) <? 10 then "0" else "") +:+ pretty (Z.abs_N (dp - 1)))
            ∧ signable ((if Z.abs (dp - 1) <? 10 then "0" else "") +:+ pretty (Z.abs_N (dp - 1)))) as [H1 H2].
    { case_match; (split; [|]).
      - apply moves_app; [const_moves|apply pretty_N_signable].
      - apply signable_app; [by apply digits_signable|apply pretty_N_signable].
      - apply pretty_N_signable.
      - apply pretty_N_signable. }
    destruct (dp - 1 <? 0); [apply (moves_minus true); exact H2|]. apply moves_app; [const_moves|exact H1].
Qed.

Lemma fmtF_moves neg ds dp : all_bytes digit_byte ds = true → ds ≠ "" → moves (fmtF neg ds dp).
Proof.
  intros Hds Hne. unfold fmtF. apply moves_minus.
  assert (signable (if 0 <? dp then str_take (Z.to_nat dp) ds +:+ zeros (Z.to_nat dp - String.length ds) else "0")) as Hw.
  { destruct (0 <? dp) eqn:Hdp; [|by apply digits_signable]. apply Z.ltb_lt in Hdp. apply signable_app.
    - apply digits_signable; [by apply all_bytes_take|]. destruct ds; [done|]. by destruct (Z.to_nat dp) eqn:E; [lia|].
    - apply digits_move, zeros_digits. }
  apply signable_app; [exact Hw|]. destruct (_ =? 0)%nat; [apply moves_nil|].
  apply moves_app; [const_moves|]. apply moves_app; apply digits_move; [apply zeros_digits|by apply all_bytes_drop].
Qed.

Lemma FormatFloat_moves fmt f : moves (FormatFloat fmt f).
Proof.
  destruct f as [neg m e|neg|]; simpl; [|destruct neg; const_moves|const_moves].
  destruct (m =? 0)%N; [destruct neg; const_moves|].
  destruct (match fmt with Fixed15G => _ | _ => _ end) as [d dp]. unfold format_digits.
  destruct fmt; try (destruct (_ || _)); (apply fmtF_moves || apply fmtE_moves); auto using pretty_N_digits, pretty_N_nonempty.
Qed.
Lemma canonicalDoubleText_moves f : moves (canonicalDoubleText f).
Proof.
  destruct f as [neg m e|[]|]; [|const_moves..]. unfold canonicalDoubleText.
  destruct (_ && _); [apply pretty_Z_moves|apply FormatFloat_moves].
Qed.

(** ** Pieces *)

Lemma closes_num s : moves s → closes (num s).
Proof.
  intros H. unfold closes. simpl.
  destruct (H EPlain (or_introl eq_refl)) as [-> | ->]; eexists; (split; [done|]); [by left|by right; left].
Qed.
Lemma closes_pretty (z : Z) : closes (num (pretty z)).
Proof. apply closes_num, pretty_Z_moves. Qed.
Lemma closes_float fmt f : closes (num (FormatFloat fmt f)).
Proof. apply closes_num, FormatFloat_moves. Qed.
Lemma closes_double f : closes (canonicalDouble f).
Proof. destruct f as [neg m e|[]|]; [apply closes_num, canonicalDoubleText_moves| | |apply closes_num, canonicalDoubleText_moves];
    (eapply ends_raw; [scan_done|good_done]). Qed.
Lemma within_double L f : within L (canonicalDouble f).
Proof. by destruct f; repeat constructor. Qed.
Lemma closes_infinite f s : infinite_sql f = Some s → closes s.
Proof. destruct f as [|[]|]; simpl; intros [= <-]; closing. Qed.
Lemma within_infinite L f s : infinite_sql f = Some s → within L s.
Proof. destruct f as [|[]|]; simpl; intros [= <-]; apply within_raw. Qed.
#[export] Hint Resolve closes_pretty closes_float closes_double within_double closes_infinite within_infinite : sql.

(** ** Numerals cut out of texts *)

Definition numeral_byte (c : ascii) : bool :=
  digit_byte c || Ascii.eqb c "." || Ascii.eqb c "e" || Ascii.eqb c "E" || Ascii.eqb c "+" || Ascii.eqb c "-".
Definition numeral_text (h : string) : Prop := moves h ∧ h ≠ "" ∧ all_bytes numeral_byte h = true.

Lemma all_bytes_mono (f g : ascii → bool) s :
  (∀ c, f c = true → g c = true) → all_bytes f s = true → all_bytes g s = true.
Proof. intros H. induction s as [|c s IH]; simpl; [done|]. intros [Hc Hs]%andb_true_iff. by rewrite (H c Hc), IH. Qed.
Lemma digits_numeral s : all_bytes digit_byte s = true → all_bytes numeral_byte s = true.
Proof. apply all_bytes_mono. intros c Hc. unfold numeral_byte. by rewrite Hc. Qed.

Lemma take_digits_ok s ds rest : take_digits s = (ds, rest) → s = ds +:+ rest ∧ all_bytes digit_byte ds = true.
Proof.
  revert ds rest. induction s as [|c s IH]; simpl; intros ds rest; [by intros [= <- <-]|].
  destruct (digit_byte c) eqn:Hc; [|by intros [= <- <-]].
  destruct (take_digits s) as [ds' rest'] eqn:E. intros [= <- <-].
  destruct (IH _ _ eq_refl) as [-> H]. simpl. by rewrite Hc, H.
Qed.
Lemma take_sign_ok s sign rest : take_sign s = (sign, rest) → s = sign +:+ rest ∧ (sign = "" ∨ sign = "-" ∨ sign = "+").
Proof.
  unfold take_sign. destruct s as [|c s]; [intros [= <- <-]; auto|].
  destruct (Ascii.eqb_spec c "-") as [->|]; [intros [= <- <-]; auto|].
  destruct (Ascii.eqb_spec c "+") as [->|]; [intros [= <- <-]; auto|]. intros [= <- <-]. auto.
Qed.
Lemma signed_moves sign s : sign = "" ∨ sign = "-" ∨ sign = "+" → signable s → moves (sign +:+ s).
Proof.
  intros [->|[->| ->]] Hs; [apply Hs|by apply (moves_minus true)|].
  apply moves_app; [const_moves|apply Hs].
Qed.
Lemma point_signable ds : all_bytes digit_byte ds = true → signable ("." +:+ ds).
Proof. intros H. apply signable_app; [|by apply digits_move]. split; [const_moves|]. vm_compute. auto. Qed.

(** The parts of a numeral: they fit together, and nothing else was read. *)
Lemma take_fraction_ok whole s1 fraction s2 :
  match s1 with
  | String "." s2 =>
      let '(ds, rest) := take_digits s2 in
      if String.eqb whole "" && String.eqb ds "" then ("", s1) else ("." +:+ ds, rest)
  | _ => ("", s1)
  end = (fraction, s2) →
  s1 = fraction +:+ s2 ∧ (fraction = "" ∨ ∃ ds, fraction = "." +:+ ds ∧ all_bytes digit_byte ds = true).
Proof.
  intros H. destruct s1 as [|c s]; [injection H as <- <-; auto|].
  destruct (Ascii.eqb_spec c ".") as [->|Hc].
  - destruct (take_digits s) as [ds rest] eqn:E. apply take_digits_ok in E as [-> Hds].
    destruct (_ && _); injection H as <- <-; [auto|]. split; [done|]. right. eauto.
  - assert ((""%string, String c s) = (fraction, s2)) as [= <- <-]; [|auto]. rewrite <-H.
    destruct c as [[] [] [] [] [] [] [] []]; done.
Qed.

Lemma take_numeral_ok s h rest : take_numeral s = Some (h, rest) → s = h +:+ rest ∧ numeral_text h.
Proof.
  unfold take_numeral. destruct (take_sign s) as [sign s0] eqn:E0. apply take_sign_ok in E0 as [-> Hsign].
  destruct (take_digits s0) as [whole s1] eqn:E1. apply take_digits_ok in E1 as [-> Hw].
  destruct (match s1 with String _ _ => _ | _ => _ end) as [fraction s2] eqn:E2.
  apply take_fraction_ok in E2 as [-> Hf].
  destruct (String.eqb whole "" && String.eqb fraction "") eqn:Hne; [done|].
  assert (signable (whole +:+ fraction)) as Hm.
  { destruct (String.eqb_spec whole "") as [->|Hw'].
    - destruct Hf as [->|(ds & -> & Hds)]; [done|]. by apply point_signable.
    - apply signable_app; [by apply digits_signable|].
      destruct Hf as [->|(ds & -> & Hds)]; [apply moves_nil|apply point_signable; done]. }
  assert (whole +:+ fraction ≠ "") as Hne'. { by destruct whole, fraction. }
  assert (all_bytes numeral_byte (sign +:+ whole +:+ fraction) = true) as Hb.
  { rewrite !all_bytes_app, (digits_numeral whole) by done.
    destruct Hsign as [->|[->| ->]]; destruct Hf as [->|(ds & -> & Hds)]; simpl; try done; by apply digits_numeral. }
  assert (numeral_text (sign +:+ whole +:+ fraction)) as Hh.
  { split_and!; [by apply signed_moves| |done]. intros H. destruct sign; [done|discriminate H]. }
  destruct s2 as [|c s3]; [intros [= <- <-]; split; [by rewrite !app_assoc_str|done]|].
  destruct (Ascii.eqb c "e" || Ascii.eqb c "E") eqn:Hc; [|intros [= <- <-]; split; [by rewrite !app_assoc_str|done]].
  destruct (take_sign s3) as [esign s4] eqn:E4. apply take_sign_ok in E4 as [-> Hes].
  destruct (take_digits s4) as [ds rest'] eqn:E5. apply take_digits_ok in E5 as [-> Hds].
  destruct (String.eqb_spec ds "") as [->|Hne2]; intros [= <- <-]; (split; [by rewrite !app_assoc_str; simpl; rewrite ?app_assoc_str|]); [done|].
  destruct Hh as (Hh1 & Hh2 & Hh3). split_and!.
  - apply moves_app; [done|]. change (String c (esign +:+ ds)) with (String c "" +:+ (esign +:+ ds)).
    apply moves_app; [|by apply signed_moves, digits_signable].
    apply orb_true_iff in Hc as [->%Ascii.eqb_eq| ->%Ascii.eqb_eq]; const_moves.
  - intros H. destruct (sign +:+ whole +:+ fraction); [done|discriminate H].
  - rewrite all_bytes_app, Hh3. simpl. rewrite all_bytes_app, (digits_numeral ds) by done.
    apply orb_true_iff in Hc as [->%Ascii.eqb_eq| ->%Ascii.eqb_eq]; destruct Hes as [->|[->| ->]]; done.
Qed.

(** ** Trimming *)

Section Trim.
Context {UT : UnicodeTables}.

Lemma blank_ascii c : blank c = true → byte_val c < 0x80 ∧ is_space (byte_val c) = true.
Proof.
  unfold blank, is_space, in_range. intros H. assert (byte_val c < 0x80) as Hlt.
  { apply orb_true_iff in H as [H%Z.eqb_eq|[_ H%Z.leb_le]%andb_true_iff]; lia. }
  split; [done|]. apply Z.ltb_lt in Hlt. rewrite Hlt. by rewrite orb_comm.
Qed.
Lemma numeral_byte_solid c : numeral_byte c = true → byte_val c < 0x80 ∧ is_space (byte_val c) = false.
Proof.
  unfold numeral_byte. rewrite !orb_true_iff. intros H.
  assert (in_range 48 57 (byte_val c) = true ∨ c ∈ ["."; "e"; "E"; "+"; "-"]%char) as [Hr|Hr].
  { destruct H as [[[[[H|H]|H]|H]|H]|H]; try (right; apply Ascii.eqb_eq in H; subst; set_solver). by left. }
  - unfold in_range in Hr. apply andb_true_iff in Hr as [H1%Z.leb_le H2%Z.leb_le].
    unfold is_space, in_range. split; [lia|]. replace (byte_val c <? 128) with true by (symmetry; apply Z.ltb_lt; lia).
    apply orb_false_iff. split; [|apply Z.eqb_neq; lia]. apply andb_false_iff. right. apply Z.leb_gt. lia.
  - rewrite !elem_of_cons in Hr. by destruct Hr as [->|[->|[->|[->|[->|[]%elem_of_nil]]]]].
Qed.

Lemma trim_left_blanks b s f :
  all_blank b = true → (String.length b ≤ f)%nat →
  trim_left_fuel f (b +:+ s) = trim_left_fuel (f - String.length b) s.
Proof.
  revert f. induction b as [|c b IH]; intros f Hb Hf; [by rewrite Nat.sub_0_r|].
  simpl in *. apply andb_true_iff in Hb as [Hc Hb]. apply blank_ascii in Hc as [Hc Hs].
  destruct f as [|f]; [lia|]. simpl. apply Z.ltb_lt in Hc. rewrite Hc. simpl. rewrite Hs. apply IH; [done|lia].
Qed.
Lemma trim_left_solid c s f : numeral_byte c = true → trim_left_fuel f (String c s) = String c s.
Proof.
  intros [Hc Hs]%numeral_byte_solid. destruct f as [|f]; [done|]. simpl. apply Z.ltb_lt in Hc. rewrite Hc. simpl. by rewrite Hs.
Qed.
Lemma trim_right_blanks b f : all_blank b = true → trim_right_fuel f b = "".
Proof.
  revert f. induction b as [|c b IH]; intros [|f] Hb; try done. simpl in *.
  apply andb_true_iff in Hb as [Hc Hb]. apply blank_ascii in Hc as [Hc Hs].
  apply Z.ltb_lt in Hc. rewrite Hc. simpl. by rewrite Hs, IH.
Qed.
Lemma trim_right_solid h b f :
  all_bytes numeral_byte h = true → all_blank b = true → (String.length h ≤ f)%nat →
  trim_right_fuel f (h +:+ b) = h.
Proof.
  revert f. induction h as [|c h IH]; intros f Hh Hb Hf; [by apply trim_right_blanks|].
  simpl in *. apply andb_true_iff in Hh as [Hc Hh]. apply numeral_byte_solid in Hc as [Hc Hs].
  destruct f as [|f]; [lia|]. simpl. apply Z.ltb_lt in Hc. rewrite Hc. simpl. rewrite Hs. simpl.
  f_equal. apply IH; [done..|lia].
Qed.
Lemma trim_numeral b1 h b2 :
  all_blank b1 = true → all_blank b2 = true → all_bytes numeral_byte h = true → h ≠ "" →
  trim_space (b1 +:+ h +:+ b2) = h.
Proof.
  intros H1 H2 Hh Hne. unfold trim_space. rewrite trim_left_blanks by (done || (rewrite string_length_app; lia)).
  destruct h as [|c h]; [done|]. simpl in Hh. apply andb_true_iff in Hh as [Hc Hh].
  cbn [String.append]. rewrite trim_left_solid by done.
  apply (trim_right_solid (String c h) b2); [simpl; by rewrite Hc|done|].
  simpl. rewrite string_length_app. lia.
Qed.

Lemma skip_blanks_ok s : ∃ b, s = b +:+ skip_blanks s ∧ all_blank b = true.
Proof.
  induction s as [|c s (b & E & Hb)]; [by exists ""|]. cbn [skip_blanks].
  destruct (blank c) eqn:Hc; [|by exists ""]. exists (String c b). unfold all_blank in *. cbn [all_bytes String.append].
  rewrite Hc. split; [by f_equal|done].
Qed.

(** ** Numbers known while rendering *)

Lemma staticNumericLiteral_closes b1 h b2 :
  all_blank b1 = true → all_blank b2 = true → numeral_text h →
  closes (staticNumericLiteral (b1 +:+ h +:+ b2)).
Proof.
  intros H1 H2 (Hm & Hne & Hb). unfold staticNumericLiteral. rewrite trim_numeral by done.
  destruct (ParseInt h); [closing|].
  assert (closes (num h)) by by apply closes_num.
  destruct (ParseFloat64 h); [| |closing]; (destruct (infinite_sql f) eqn:E; [eauto with sql|closing]).
Qed.
Lemma staticNumericLiteral_within L text : within L (staticNumericLiteral text).
Proof.
  unfold staticNumericLiteral. destruct (ParseInt _); [in_limits|].
  destruct (ParseFloat64 _); [| |in_limits]; (destruct (infinite_sql f) eqn:E; [eauto with sql|in_limits]).
Qed.
Lemma numeric_text_closes text : sqliteNumericText text = true → closes (staticNumericLiteral text).
Proof.
  unfold sqliteNumericText. destruct (skip_blanks_ok text) as (b & E & Hb).
  destruct (take_numeral (skip_blanks text)) as [[h rest]|] eqn:En; [|done].
  apply take_numeral_ok in En as [En Hh]. rewrite E, En. intros Hr. by apply staticNumericLiteral_closes.
Qed.
Lemma staticNumberOfText_closes text : closes (staticNumberOfText text).
Proof.
  unfold staticNumberOfText, sqliteNumeralHead. destruct (take_numeral (skip_blanks text)) as [[h rest]|] eqn:En.
  - apply take_numeral_ok in En as [_ Hh]. pose proof Hh as (Hm & Hne & Hb).
    assert (trim_space h = h) as -> by (pose proof (trim_numeral "" h "" eq_refl eq_refl Hb Hne) as Ht; by rewrite app_nil_r_str in Ht).
    destruct (String.eqb_spec h ""); [done|].
    pose proof (staticNumericLiteral_closes "" h "" eq_refl eq_refl Hh) as Hc. by rewrite app_nil_r_str in Hc.
  - change (trim_space "") with "". simpl. closing.
Qed.
Lemma staticNumberOfText_within L text : within L (staticNumberOfText text).
Proof. unfold staticNumberOfText. destruct (String.eqb _ _); [in_limits|apply staticNumericLiteral_within]. Qed.
End Trim.
#[export] Hint Resolve staticNumericLiteral_within staticNumberOfText_closes staticNumberOfText_within : sql.
