(* ===== verification/FilterShape.v ===== *)
(** * The shape of the filters that were accepted

    What the grammar leaves of each node: operators and functions of the
    language, arguments within their range, numerals that are numerals.  By
    rule induction over the judgements of FilterGrammar. *)
From Stdlib Require Import ZArith Lia Ascii String.
From stdpp Require Import base gmap strings list.
From S2P Require Import Prelude GoStrings FilterLexer FilterParser FilterGrammar FilterSound FilterTotal FilterProps FilterTheorems.
Local Open Scope Z_scope.

Definition symbol_ops : list string :=
  ["="; "=="; "!="; "<>"; "<"; "<="; ">"; ">="; "+"; "-"; "*"; "/"; "%"; "||"].
Definition binary_ops : list string := symbol_ops ++ ["and"; "or"].
Definition arity_in (name : string) (count : Z) : bool :=
  match assoc name allowedFunctions with
  | Some r => (r_min r <=? count) && ((r_max r <? 0) || (count <=? r_max r))
  | None => false
  end.

(** [C] is the set of the columns the filter may name. *)
Section Regular.
Context (C : gset string).
Fixpoint regular (n : Node) : bool :=
  match n with
  | Literal k t => match k with LiteralNumber => number_shape t | _ => true end
  | Param _ => true
  | Column c => bool_decide (c ∈ C)
  | Call name args => arity_in name (Z.of_nat (length args)) && forallb regular args
  | Binary op l r => mem op binary_ops && regular l && regular r
  | Unary op o => mem op ["-"; "+"; "not"] && regular o
  | Paren i => regular i
  | Is _ l r => regular l && regular r
  | In _ l items => regular l && forallb regular items
  | Like _ l pat esc => regular l && regular pat && match esc with Some e => regular e | None => true end
  | Between _ v lo hi => regular v && regular lo && regular hi
  | Case o bs e =>
      match o with Some o => regular o | None => true end
      && forallb (λ b, regular (fst b) && regular (snd b)) bs
      && match e with Some e => regular e | None => true end
  end.
End Regular.

Section Shape.
Context {UT : UnicodeTables} (cfg : config).
Abbreviation regular := (regular (c_columns cfg)).

(** Tokens as the lexer makes them: number tokens hold numbers. *)
Definition lexical (t : token) : Prop := t_kind t = tokenNumber → number_shape (t_text t) = true.

Lemma regular_Lit td k t n k' : lexical t → Lit cfg td k t n k' → regular n = true.
Proof.
  intros Ht []; [done|]. simpl. unfold literalKindOf. destruct (t_kind t) eqn:E; try done; [|by apply Ht].
  repeat case_match; done.
Qed.
Lemma regular_sign s n : is_sign s → regular n = true → regular (Unary (t_text s) n) = true.
Proof.
  intros [H|H] Hn; unfold tok_is in H; apply andb_true_iff in H as [_ ->%String.eqb_eq]; simpl; by rewrite Hn.
Qed.
Lemma regular_Signed td k ts n k' : Forall lexical ts → Signed cfg td k ts n k' → regular n = true.
Proof.
  intros Hts H. destruct H as [t n k' _ HL|s t n k' Hs _ HL].
  - apply Forall_inv in Hts. by eapply regular_Lit.
  - apply regular_sign; [done|]. eapply regular_Lit; [|done]. by apply Forall_cons in Hts as [_ ?%Forall_inv].
Qed.
Lemma regular_Values td k ts ns k' : Forall lexical ts → Values cfg td k ts ns k' → forallb regular ns = true.
Proof.
  intros Hts H. induction H as [k ts n k' HS|k ts n k1 c ts' ns k2 HS Hc HV IH].
  - simpl. by rewrite (regular_Signed _ _ _ _ _ Hts HS).
  - apply Forall_app in Hts as [H1 [_ H2]%Forall_cons]. simpl. by rewrite (regular_Signed _ _ _ _ _ H1 HS), IH.
Qed.
Lemma regular_InList td k ts ns k' : Forall lexical ts → InList cfg td k ts ns k' → forallb regular ns = true.
Proof.
  intros Hts H. revert Hts. destruct H as [|o ts c ns k' _ HV _]; [done|].
  intros [_ [Hts _]%Forall_app]%Forall_cons. by eapply regular_Values.
Qed.
Lemma peek_binary t p : peek_tok t = Done (p, c_binary) → mem (to_lower (t_text t)) binary_ops = true.
Proof.
  unfold peek_tok. destruct (is_kind tokenOp t).
  - repeat (case_match; [done|]). unfold symbol_operator.
    destruct (mem (t_text t) ["="; "=="; "!="; "<>"]) eqn:E1;
      [|destruct (mem (t_text t) ["<"; "<="; ">"; ">="]) eqn:E2;
        [|destruct (mem (t_text t) ["+"; "-"]) eqn:E3;
          [|destruct (mem (t_text t) ["*"; "/"; "%"]) eqn:E4; [|destruct (String.eqb_spec (t_text t) "||") as [->|]; [done|done]]]]];
      intros Hp; try done; clear Hp;
      match goal with H : mem _ _ = true |- _ => apply mem_spec in H; rewrite ?list_elem_of_singleton, ?elem_of_cons, ?elem_of_nil in H; revert H end;
      intros Ht; destruct_or?; try done; rewrite Ht; vm_compute; done.
  - destruct (negb _); [done|]. case_match; [done|]. intros [= Hw]. revert Hw. unfold word_operator.
    repeat case_match; intros [= <-]; try done;
      match goal with H : String.eqb _ _ = true |- _ => apply String.eqb_eq in H; rewrite H end; done.
Qed.
Lemma regular_call name ns :
  arity_ok name (Z.of_nat (length ns)) → forallb regular ns = true → regular (Call name ns) = true.
Proof.
  intros (r & Hr & H1 & H2) Hns. simpl. rewrite Hns, andb_true_r. unfold arity_in. rewrite Hr.
  apply andb_true_iff. split; [by apply Z.leb_le|]. apply orb_true_iff.
  destruct (Z.ltb_spec (r_max r) 0); [by left|right]. apply Z.leb_le. auto.
Qed.

Definition binary_token (t : token) : Prop := mem (to_lower (t_text t)) binary_ops = true.
Definition R_tree (ts : list token) (n : Node) : Prop := Forall lexical ts → regular n = true.
Definition R_trees (ts : list token) (ns : list Node) : Prop := Forall lexical ts → forallb regular ns = true.

Lemma regular_pairs (br : list (Node * Node)) :
  forallb (λ b, regular (fst b) && regular (snd b)) br = forallb regular (pair_list br).
Proof.
  unfold pair_list. induction br as [|[a b] br IH]; [done|]. simpl. by rewrite IH, andb_assoc.
Qed.
Lemma regular_option (o : option Node) :
  match o with Some o => regular o | None => true end = forallb regular (option_list o).
Proof. destruct o; simpl; by rewrite ?andb_true_r. Qed.

Lemma grammar_regular :
  (∀ d td m k ts u n k', Expr cfg d td m k ts u n k' → R_tree ts n)
  ∧ (∀ d td k ts u n k', Pref cfg d td k ts u n k' → R_tree ts n)
  ∧ (∀ d td name k ts u n k', CallE cfg d td name k ts u n k' → R_tree ts n)
  ∧ (∀ d td name k first ts u ns k', Args cfg d td name k first ts u ns k' → R_trees ts ns)
  ∧ (∀ d td k ts u n k', TimeArg cfg d td k ts u n k' → R_tree ts n)
  ∧ (∀ d td k ts u n k', CaseE cfg d td k ts u n k' → R_tree ts n)
  ∧ (∀ d td k ts u o k', Operand cfg d td k ts u o k' → R_trees ts (option_list o))
  ∧ (∀ d td k ts u br k', Branches cfg d td k ts u br k' → R_trees ts (pair_list br))
  ∧ (∀ d td k ts u o k', ElseE cfg d td k ts u o k' → R_trees ts (option_list o))
  ∧ (∀ d td m k left ts u n k', Infx cfg d td m k left ts u n k' → regular left = true → R_tree ts n)
  ∧ (∀ d td p k c t left ts u n k', Step cfg d td p k c t left ts u n k' →
       (c = c_binary → binary_token t) → regular left = true → R_tree ts n).
Proof.
  apply grammar_ind; unfold R_tree, R_trees; intros; decompose_Forall_hyps;
    repeat match goal with
    | H : Forall _ ?l → _, H' : Forall _ ?l |- _ => specialize (H H')
    end;
    try done.
  all: try (eapply regular_Lit; eassumption).
  all: try (simpl; by apply bool_decide_eq_true_2; match goal with H : column_ok _ _ _ |- _ => apply H end).
  all: try (apply regular_sign; [done|]; (done || by eapply regular_Lit)).
  all: try by apply regular_call.
  all: cbn [regular]; rewrite ?regular_pairs, ?regular_option.
  all: repeat match goal with H : regular _ = true |- _ => rewrite H | H : forallb _ _ = true |- _ => rewrite H end; try done.
  - auto.
  - unfold literalKindOf. match goal with H : t_kind t = _ |- _ => rewrite H end. repeat case_match; done.
  - assert (c = c_binary → binary_token t) by (intros ->; by eapply peek_binary). auto.
  - assert (binary_token t) as Hb by auto. revert Hb. unfold binary_token. simpl. by intros ->.
  - by erewrite regular_InList by done.
  - by erewrite regular_Lit by done.
Qed.

End Shape.

Section Accepted.
Context {UT : UnicodeTables}.

(** An accepted filter is regular. *)
Lemma Parse_regular expr opts n :
  Parse expr opts = Done n → regular (list_to_set (map to_lower (o_Columns opts))) n = true.
Proof.
  intros (ts & eof & Hl & _ & HE)%Parse_Done.
  eapply (proj1 (grammar_regular (config_of opts)) _ _ _ _ _ _ _ _ HE).
  clear HE. induction Hl as [|pos blanks raw rest t ts eof _ Hs _ _ _ _ IH]; constructor; [|done].
  intros Hk. unfold spells in Hs. rewrite Hk in Hs. by destruct Hs.
Qed.
End Accepted.
