(* ===== verification/RenderSpec.v ===== *)
(** * What every method of the renderer keeps

    A specification in the style of a Hoare logic.  [wp] says that a method
    neither runs out of fuel nor panics, and what holds where it returns;
    [rendered] is what every method that writes SQL establishes: placeholders
    are bound in order to arguments of the filter, and all of them are used,
    names are columns, quotes are closed. *)
From Stdlib Require Import ZArith Lia Ascii String.
From stdpp Require Import base gmap strings list numbers pretty.
From S2P Require Import Prelude GoStrings SchemaIdent FilterLexer FilterParser FilterShape Schema GoNumbers GoFloats RenderSql FilterTime FilterTree FilterRender RenderQuotes RenderNumbers.
Local Open Scope Z_scope.
Local Open Scope sql_scope.

(** ** Trees by their children *)

Lemma most_elem (l : list nat) x : x ∈ l → (x ≤ foldr Nat.max O l)%nat.
Proof. induction 1; simpl; lia. Qed.
Lemma most_map {A} (f : A → nat) l a : a ∈ l → (f a ≤ foldr Nat.max O (map f l))%nat.
Proof. intros H. apply most_elem. by apply list_elem_of_fmap_2. Qed.

Lemma child_depth n m : m ∈ filterChildren n → (depth m < depth n)%nat.
Proof.
  destruct n as [| | |p f args|p op l r|p op o|p i|p neg l r|p neg l items|p neg l pat esc|p neg v lo hi|p o bs e];
    simpl; intros H; rewrite ?elem_of_cons, ?elem_of_nil in H; try done; try (destruct_or?; subst; lia).
  - pose proof (most_map depth args m H). lia.
  - destruct H as [->|H]; [lia|]. pose proof (most_map depth items m H). lia.
  - destruct H as [->|[->|H]]; [lia..|]. destruct esc; simpl in H; [|by apply elem_of_nil in H].
    apply list_elem_of_singleton in H as ->. lia.
  - rewrite !elem_of_app in H. destruct H as [H|[H|H]].
    + destruct o; simpl in H; [|by apply elem_of_nil in H]. apply list_elem_of_singleton in H as ->. lia.
    + apply list_elem_of_join in H as (l & Hl & (b & -> & Hb)%list_elem_of_fmap).
      pose proof (most_map (λ b, Nat.max (depth (fst b)) (depth (snd b))) bs b Hb) as Hd. simpl in Hd.
      rewrite !elem_of_cons, elem_of_nil in Hl. destruct Hl as [->|[->|[]]]; lia.
    + destruct e; simpl in H; [|by apply elem_of_nil in H]. apply list_elem_of_singleton in H as ->. lia.
Qed.
Lemma tree_ind' (P : tree → Prop) : (∀ n, (∀ m, m ∈ filterChildren n → P m) → P n) → ∀ n, P n.
Proof.
  intros H n. remember (depth n) as d eqn:E. revert n E.
  induction (lt_wf d) as [d _ IH]. intros n ->. apply H. intros m Hm. eapply IH; [by apply child_depth|done].
Qed.

(** ** The logic *)

Definition wp {A} (m : rendering A) (s : rstate) (Q : A → rstate → Prop) : Prop :=
  match m s with
  | (Done a, s') => Q a s'
  | (Fail e, _) => e ≠ Panic
  | (OutOfFuel, _) => False
  end.

Lemma wp_seq {A B} (m : rendering A) (k : A → rendering B) s Q :
  wp m s (λ a s', wp (k a) s' Q) → wp (abind m k) s Q.
Proof. unfold wp, abind. destruct (m s) as [[a|e|] s']; done. Qed.
Lemma wp_weaken {A} (m : rendering A) s (P Q : A → rstate → Prop) :
  wp m s P → (∀ a s', P a s' → Q a s') → wp m s Q.
Proof. unfold wp. destruct (m s) as [[a|e|] s']; eauto. Qed.
Lemma wp_answer {A} (a : A) s (Q : A → rstate → Prop) : Q a s → wp (aret a) s Q.
Proof. done. Qed.
Lemma wp_reading {A} (f : rstate → A) s (Q : A → rstate → Prop) : Q (f s) s → wp (reading f) s Q.
Proof. done. Qed.
Lemma wp_change f s (Q : unit → rstate → Prop) : Q () (f s) → wp (change f) s Q.
Proof. done. Qed.
Lemma wp_refused name s (Q : sql → rstate → Prop) : wp (not_renderable name) s Q.
Proof. done. Qed.

(** An outcome that is no panic, and what holds of its value. *)
Definition returns {A} (o : outcome render_error A) (P : A → Prop) : Prop :=
  match o with Done a => P a | Fail e => e ≠ Panic | OutOfFuel => False end.
Lemma wp_lift {A} (o : outcome render_error A) s (Q : A → rstate → Prop) : returns o (λ a, Q a s) → wp (lift o) s Q.
Proof. by destruct o. Qed.
Lemma returns_seq {A B} (o : outcome render_error A) (k : A → outcome render_error B) P :
  returns o (λ a, returns (k a) P) → returns (obind o k) P.
Proof. by destruct o. Qed.
Lemma returns_mono {A} (o : outcome render_error A) (P Q : A → Prop) :
  returns o P → (∀ a, P a → Q a) → returns o Q.
Proof. destruct o; simpl; eauto. Qed.

(** ** What holds of a state, and of what is rendered *)

Section Spec.
Context {UT : UnicodeTables} (ident : list string → string) (r : renderer) (C : gset string).

(** The names a filter over the columns [C] may write. *)
Definition column_names (parts : list string) : Prop :=
  ∃ c, (c ∈ C ∨ c = "id") ∧ parts = [default c (r_columns r !! c)].
Definition from_args (v : value) : Prop := ∃ a, a ∈ r_args r ∧ v = canonicalArgument a.

Definition bounds (s : rstate) : limits :=
  Limits (r_next r) (r_next r + length (s_bound s)) column_names.
Record inv (s : rstate) : Prop := Inv {
  inv_bound : Forall from_args (s_bound s);
  inv_classes : ∀ p c, s_classes s !! p = Some c → fits (bounds s) c }.
Definition grows (s s' : rstate) : Prop :=
  (∃ new, s_bound s' = s_bound s ++ new) ∧ (s_lifted s ≤ s_lifted s')%nat.
(** Every placeholder bound since [s] is in [out]. *)
Definition covers (s s' : rstate) (out : sql) : Prop :=
  ∀ k, (length (s_bound s) ≤ k < length (s_bound s'))%nat → uses (r_next r + k) out.
Definition rendered (s : rstate) (out : sql) (s' : rstate) : Prop :=
  inv s' ∧ grows s s' ∧ fits (bounds s') out ∧ covers s s' out.

Lemma grows_refl s : grows s s.
Proof. split; [exists []; by rewrite app_nil_r|done]. Qed.
Lemma grows_trans_state s1 s2 s3 : grows s1 s2 → grows s2 s3 → grows s1 s3.
Proof.
  intros [(n1 & H1) L1] [(n2 & H2) L2]. split; [|lia]. exists (n1 ++ n2). by rewrite H2, H1, app_assoc.
Qed.
Lemma grows_same s s' s'' : grows s s' → s_bound s'' = s_bound s' → s_lifted s'' = s_lifted s' → grows s s''.
Proof. intros [(n & H) L] Hb Hl. split; [exists n; congruence|lia]. Qed.
Lemma within_grows s s' q : within (bounds s) q → grows s s' → within (bounds s') q.
Proof.
  intros Hq [(n & Hn) _]. eapply Forall_impl; [exact Hq|]. intros [] Hp; simpl in *; try done.
  rewrite Hn, length_app. lia.
Qed.
Lemma fits_grows s s' q : fits (bounds s) q → grows s s' → fits (bounds s') q.
Proof. intros [Hc Hw] H. split; [done|by eapply within_grows]. Qed.

Lemma inv_same s s' : inv s → s_bound s' = s_bound s → s_classes s' = s_classes s → inv s'.
Proof.
  intros [Hb Hc] Eb Ec. split; [by rewrite Eb|]. rewrite Ec. unfold bounds. rewrite Eb. exact Hc.
Qed.
Lemma inv_with_class s p c : inv s → fits (bounds s) c → inv (with_class p c s).
Proof.
  intros [Hb Hc] Hf. split; [done|]. intros p' c'. simpl. rewrite lookup_insert_Some.
  intros [[_ <-]|[_ H]]; [done|by eapply Hc].
Qed.
Lemma inv_bind s v : inv s → from_args v → inv (bind_value v s).
Proof.
  intros [Hb Hc] Hv. split; [by apply Forall_app; split; [|constructor]|].
  intros p c H. eapply (fits_grows s); [by eapply Hc|]. split; [by exists [v]|done].
Qed.
Lemma covers_refl s out : covers s s out.
Proof. intros k ?. lia. Qed.

(** The class of a node is a text that fits. *)
Lemma fits_raw L s : closes (raw s) → fits L (raw s).
Proof. intros. split; [done|apply within_raw]. Qed.
Lemma fits_true L : fits L (raw "TRUE").
Proof. apply fits_raw. closing. Qed.
Lemma fits_false L : fits L (raw "FALSE").
Proof. apply fits_raw. closing. Qed.
Lemma structuralClass_fits s n : inv s → fits (bounds s) (structuralClass r (s_classes s) n).
Proof.
  intros [_ Hc].
  assert (∀ m, fits (bounds s) (default (raw "TRUE") (s_classes s !! address m))) as Hd.
  { intros m. destruct (s_classes s !! address m) eqn:E; [by eapply Hc|apply fits_true]. }
  induction n as [n IH] using tree_ind'.
  destruct n as [| | |p f args|p op l r'|p op o|p i| | | | |]; cbn [structuralClass];
    try (destruct (staticallyReal _ _); [apply fits_false|apply (Hd _)]).
  - destruct (staticallyReal _ _); [apply fits_false|]. destruct (mem f _); [|apply (Hd (NCall p f args))].
    destruct args as [|a args]; [apply (Hd (NCall p f []))|]. apply IH. by left.
  - destruct (staticallyReal _ _); [apply fits_false|].
    destruct o; try apply (Hd (NUnary p op _)); (destruct (sign_op op); [apply IH; by left|apply (Hd (NUnary p op _))]).
  - destruct (staticallyReal _ _); [apply fits_false|]. apply IH. by left.
Qed.

(** ** The rules *)

(** A method that renders. *)
Definition renders (m : rendering sql) : Prop := ∀ s, inv s → wp m s (rendered s).

Lemma wp_renders m s Q :
  renders m → inv s → (∀ out s', inv s' → grows s s' → closes out → within (bounds s') out → covers s s' out → Q out s') →
  wp m s Q.
Proof.
  intros Hm Hs HQ. eapply wp_weaken; [by apply Hm|]. intros out s' (? & ? & [? ?] & ?). by apply HQ.
Qed.

Lemma pure_renders s out : inv s → closes out → (∀ L, within L out) → rendered s out s.
Proof. intros. split_and!; [done|apply grows_refl|by split|apply covers_refl]. Qed.
End Spec.
