(* ===== verification/RenderMethods.v ===== *)
(** * The methods of the renderer keep the specification

    One lemma per method, under the hypothesis that the nodes below render;
    the database [renders] collects them, and [step] runs a method up to its
    next call. *)
From Stdlib Require Import ZArith Lia Ascii String.
From stdpp Require Import base gmap strings list numbers pretty.
From S2P Require Import Prelude GoStrings SchemaIdent FilterLexer FilterParser FilterShape Schema GoNumbers GoFloats RenderSql.
From S2P Require Import FilterTime FilterTree FilterRender RenderQuotes RenderNumbers RenderSpec.

Local Open Scope Z_scope.
Local Open Scope sql_scope.

Create HintDb renders discriminated.

Ltac grow :=
  first [ assumption | apply grows_refl
        | match goal with H : grows ?a ?b |- grows ?a _ => apply (grows_trans_state a b); [exact H|solve [grow]] end ].
(** Outside the templates, a text may have been rendered in an earlier state. *)
Ltac inside :=
  lazymatch goal with
  | |- within _ (cat _ _) => apply within_cat; [inside|inside]
  | |- within _ _ => first [ assumption | solve [auto with sql] | eapply within_grows; [eassumption|solve [grow]] ]
  end.
#[export] Hint Extern 6 (within _ _) => (eapply within_grows; [eassumption|solve [grow]]) : sql.
Ltac covering :=
  let k := fresh "k" in let Hk := fresh "Hk" in
  intros k Hk; cbn [s_bound with_raw with_class see with_stripped with_lifted with_fresh] in *;
  repeat match goal with
  | H : covers _ ?a ?b ?o |- _ =>
      let Hin := fresh in
      destruct (decide (length (s_bound a) ≤ k < length (s_bound b)))%nat as [Hin|Hin];
      [repeat match goal with
       | H' : covers _ a b ?o' |- _ => let U := fresh in pose proof (H' k Hin) as U; clear H'
       end; solve [binding]
      |clear H]
  end; exfalso; lia.
Ltac finish := split_and!; [assumption|grow|split; [closing|inside]|covering].
Ltac step := apply wp_seq; eapply wp_renders; [solve [auto with renders]|assumption|intros ?out ?s ?Hi ?Hg ?Hc ?Hw ?Hv].
Ltac answer := apply wp_answer; finish.
Ltac tail := eapply wp_renders; [solve [auto with renders]|assumption|intros ?out ?s ?Hi ?Hg ?Hc ?Hw ?Hv; finish].

Section Methods.
Context {UT : UnicodeTables} (ident : list string → string) (r : renderer) (C : gset string).
Abbreviation renders := (renders r C).
Abbreviation inv := (inv r C).
Abbreviation rendered := (rendered r C).
Abbreviation bounds := (bounds r C).

Context (rec : tree → rendering sql) (good : tree → Prop).
Hypothesis Hrec : ∀ n, good n → renders (rec n).

Lemma capture_renders n : good n → renders (capture rec n).
Proof. apply Hrec. Qed.
#[local] Hint Resolve capture_renders : renders.

Lemma captureBoolean_renders n : good n → renders (captureBoolean rec n).
Proof.
  intros Hn s Hs. unfold captureBoolean. apply wp_seq, wp_reading, wp_seq, wp_change, wp_seq.
  eapply wp_renders; [by apply capture_renders|by eapply inv_same|]. intros out s' Hi Hg Hc Hw Hv.
  apply wp_seq, wp_change, wp_answer. split_and!; [by eapply inv_same|exact Hg|by split|exact Hv].
Qed.
#[local] Hint Resolve captureBoolean_renders : renders.

Lemma pure_text s out : inv s → closes out → (∀ L, within L out) → rendered s out s.
Proof. apply pure_renders. Qed.

Lemma captureNumeric_renders n : good n → renders (captureNumeric r rec n).
Proof.
  intros Hn s Hs. unfold captureNumeric. destruct (decide _).
  - destruct (staticTextOf r n); [apply wp_answer, pure_text; auto with sql|]. step. answer.
  - step. answer.
Qed.
#[local] Hint Resolve captureNumeric_renders : renders.

Lemma truth_renders n : good n → renders (truth r rec n).
Proof.
  intros Hn s Hs. unfold truth. destruct (isBooleanNode r n); [tail|]. destruct (_ || _); [tail|].
  destruct (decide _); [step; answer|]. step. destruct (decide _); answer.
Qed.
#[local] Hint Resolve truth_renders : renders.

Lemma captureGuard_renders n : good n → renders (captureGuard r rec n).
Proof.
  intros Hn s Hs. unfold captureGuard. step. destruct (isParamNode n); [|answer].
  destruct (affinityOf r n); answer.
Qed.
#[local] Hint Resolve captureGuard_renders : renders.

Lemma wp_numericOperand n s (Q : sql * sql → rstate → Prop) :
  good n → inv s →
  (∀ a b s', inv s' → grows s s' → closes a → closes b → within (bounds s') a → within (bounds s') b →
     covers r s s' a → covers r s s' b → Q (a, b) s') →
  wp (numericOperand r rec n) s Q.
Proof.
  intros Hn Hs HQ. unfold numericOperand. destruct (if _ : bool then _ else @None string) as [text|].
  - apply wp_answer, HQ; try assumption; auto with sql; [apply grows_refl|apply covers_refl|apply covers_refl].
  - step. apply wp_answer.
    assert (∀ t, closes t → within (bounds s0) t → (∀ k, uses k out → uses k t) → Q (out, t) s0) as Hout.
    { intros t Ht Hwt Hu. apply HQ; try assumption. intros k Hk. by apply Hu, Hv. }
    destruct (_ && _); [|destruct (decide _)]; apply Hout; try closing; try inside; intros; binding.
Qed.

Lemma moduloOperand_closes n a b : closes a → closes b → closes (moduloOperand r n a b).
Proof. intros. unfold moduloOperand. destruct (decide _); closing. Qed.
Lemma moduloOperand_within L n a b : within L a → within L b → within L (moduloOperand r n a b).
Proof. intros. unfold moduloOperand. destruct (decide _); inside. Qed.
Lemma moduloOperand_uses k n a b : uses k a → uses k b → uses k (moduloOperand r n a b).
Proof. intros. unfold moduloOperand. destruct (decide _); binding. Qed.
#[local] Hint Resolve moduloOperand_closes moduloOperand_within moduloOperand_uses : sql.

Lemma wp_integerClassed n a b s (Q : sql → rstate → Prop) :
  inv s → closes a → closes b → within (bounds s) a → within (bounds s) b →
  (∀ class, closes class → within (bounds s) class → Q class s) →
  wp (integerClassed ident r n a b) s Q.
Proof.
  intros Hs Ha Hb Hwa Hwb HQ. unfold integerClassed, structural. apply wp_seq, wp_reading, wp_answer.
  destruct (structuralClass_fits r C s n Hs) as [Hc Hw].
  revert Hc Hw. cbv beta. generalize (structuralClass r (s_classes s) n). intros class Hc Hw. unfold between_ints.
  destruct (is_text ident class "FALSE"); [apply HQ; [closing|inside]|].
  match goal with |- context [if ?b then class else _] => destruct b end; [by apply HQ|].
  destruct (decide _); destruct (is_text ident class "TRUE"); apply HQ; (closing || inside).
Qed.

(** ** Comparisons *)

Definition plain_op (op : string) : Prop := scan_raw (QOut EPlain) (" " +:+ op +:+ " ") = Some (QOut EPlain).

Lemma crossClassAnswer_cases op a b t : crossClassAnswer op a b = Some t → t = "TRUE" ∨ t = "FALSE".
Proof.
  unfold crossClassAnswer, boolLiteral. repeat case_match; intros [= <-]; auto.
Qed.
Ltac answers := match goal with H : crossClassAnswer _ _ _ = Some ?t |- _ => apply crossClassAnswer_cases in H as [-> | ->] end.

Lemma storageClassComparison_renders left right op :
  good left → good right → plain_op op → renders (storageClassComparison r rec left right op).
Proof.
  intros Hl Hr Hop s Hs. unfold storageClassComparison.
  destruct (if comparisonIsAcrossClasses _ _ then _ else @None string) as [t|] eqn:E.
  - destruct (comparisonIsAcrossClasses _ _); [|done]. step. step. answers; answer.
  - step. step. destruct (_ && _); unfold collateC; answer.
Qed.
#[local] Hint Resolve storageClassComparison_renders : renders.

(** What replaces the other side of a comparison was rendered before. *)
Lemma substitutedComparison_wp left right op otherIsRight replacement suffix s0 s :
  good left → good right → plain_op op → inv s → grows s0 s → closes replacement → within (bounds s) replacement →
  covers r s0 s replacement → flows suffix → (∀ L, within L suffix) →
  wp (substitutedComparison rec left right op otherIsRight replacement suffix) s (rendered s0).
Proof.
  intros Hl Hr Hop Hs Hg Hc Hw Hv Hsf Hsw. unfold substitutedComparison.
  destruct otherIsRight; step; answer.
Qed.

Definition comparison_op (op : string) : Prop := mem op ["="; "<>"; "<"; "<="; ">"; ">="] = true.
Lemma comparison_plain op : comparison_op op → plain_op op.
Proof.
  intros H%mem_spec. rewrite !elem_of_cons, elem_of_nil in H. destruct_or?; subst; (done || vm_compute; done).
Qed.
Lemma comparison_answers op a b : comparison_op op → is_Some (crossClassAnswer op a b).
Proof.
  intros H%mem_spec. rewrite !elem_of_cons, elem_of_nil in H. destruct_or?; subst; try done; vm_compute; eauto.
Qed.
#[local] Hint Resolve comparison_plain : renders.

Lemma textAffinity_renders left right op b :
  good left → good right → comparison_op op → renders (textAffinity r rec left right op b).
Proof.
  intros Hl Hr Hop s Hs. pose proof (comparison_plain op Hop). unfold textAffinity. destruct (negb _); [tail|].
  destruct (staticNumberAsText _ _); [|apply wp_refused].
  apply substitutedComparison_wp; try assumption; auto with sql; [apply grows_refl|apply covers_refl].
Qed.
#[local] Hint Resolve textAffinity_renders : renders.

Lemma runtimeNumericAffinity_renders left right op b :
  good left → good right → comparison_op op → renders (runtimeNumericAffinity r rec left right op b).
Proof.
  intros Hl Hr Hop s Hs. pose proof (comparison_plain op Hop). unfold runtimeNumericAffinity, numeric_head. step. step.
  destruct (comparison_answers op (affinityOf r left) (affinityOf r right) Hop) as [t Ht]. rewrite Ht.
  answers; destruct b; answer.
Qed.
#[local] Hint Resolve runtimeNumericAffinity_renders : renders.

Lemma numericAffinity_renders left right op b :
  good left → good right → comparison_op op → renders (numericAffinity r rec left right op b).
Proof.
  intros Hl Hr Hop s Hs. pose proof (comparison_plain op Hop). unfold numericAffinity. destruct (negb _); [tail|].
  destruct (staticTextOf _ _) as [text|]; [|tail]. destruct (sqliteNumericText text) eqn:E; [|tail].
  apply substitutedComparison_wp; try assumption; auto with sql;
    [apply grows_refl|by apply numeric_text_closes|apply covers_refl].
Qed.
#[local] Hint Resolve numericAffinity_renders : renders.

Lemma affinity_comparison_renders left right op :
  good left → good right → comparison_op op → renders (affinity_comparison r rec left right op).
Proof.
  intros Hl Hr Hop s Hs. pose proof (comparison_plain op Hop). unfold affinity_comparison.
  apply wp_seq, wp_reading. repeat (destruct (_ && _); [tail|]). tail.
Qed.
#[local] Hint Resolve affinity_comparison_renders : renders.

Lemma truth_against_text_renders left right boolean other op :
  good left → good right → good boolean → good other → comparison_op op →
  renders (truth_against_text r rec left right boolean other op).
Proof.
  intros Hl Hr Hb Ho Hop s Hs. pose proof (comparison_plain op Hop). unfold truth_against_text. step.
  apply wp_seq, wp_reading. destruct (decide _).
  - apply substitutedComparison_wp; try assumption; try closing; try inside; auto with sql; covering.
  - destruct (booleanShaped r right).
    + destruct (comparison_answers op affText affNumber Hop) as [t Ht]. rewrite Ht. step. answers; answer.
    + destruct (comparison_answers op affNumber affText Hop) as [t Ht]. rewrite Ht. step. answers; answer.
Qed.
#[local] Hint Resolve truth_against_text_renders : renders.

Lemma comparison_renders left right op :
  good left → good right → comparison_op op → renders (comparison r rec left right op).
Proof.
  intros Hl Hr Hop s Hs. pose proof (comparison_plain op Hop). unfold comparison.
  destruct (_ && _); [step; step; answer|]. destruct (xorb _ _); [|tail].
  destruct (booleanShaped r right).
  - destruct (negb _ && _); [step|destruct (negb _ && _); tail].
    apply substitutedComparison_wp; try assumption; try closing; try inside; auto with sql; covering.
  - destruct (negb _ && _); [step|destruct (negb _ && _); tail].
    apply substitutedComparison_wp; try assumption; try closing; try inside; auto with sql; covering.
Qed.
Lemma compareVia_renders op left right :
  good left → good right → comparison_op op → renders (compareVia r rec op left right).
Proof. apply comparison_renders. Qed.
#[local] Hint Resolve comparison_renders compareVia_renders : renders.
#[local] Hint Extern 1 (comparison_op _) => reflexivity : renders.

(** ** Arithmetic *)

Definition arithmetic_op (op : string) : Prop := mem op ["+"; "-"; "*"; "/"; "%"] = true.
Definition sum_op (op : string) : Prop := mem op ["+"; "-"; "*"] = true.
Ltac ops_of H := apply mem_spec in H; rewrite !elem_of_cons, elem_of_nil in H; destruct_or?; subst; try done.

Lemma doubleArithmetic_closes x y op : sum_op op → closes x → closes y → closes (doubleArithmetic x op y).
Proof. intros H Hx Hy. unfold doubleArithmetic. ops_of H; closing. Qed.
Lemma doubleArithmetic_within L x y op : within L x → within L y → within L (doubleArithmetic x op y).
Proof. intros. unfold doubleArithmetic. apply withoutNaN_within, exactDouble_within. inside. Qed.
Lemma doubleArithmetic_uses_x k x y op : uses k x → uses k (doubleArithmetic x op y).
Proof. intros. unfold doubleArithmetic. apply withoutNaN_uses, exactDouble_uses. binding. Qed.
Lemma doubleArithmetic_uses_y k x y op : uses k y → uses k (doubleArithmetic x op y).
Proof. intros. unfold doubleArithmetic. apply withoutNaN_uses, exactDouble_uses. binding. Qed.
#[local] Hint Resolve doubleArithmetic_closes doubleArithmetic_within doubleArithmetic_uses_x doubleArithmetic_uses_y : sql.

Ltac keep_class :=
  lazymatch goal with
  | |- wp (record_class _ _) _ _ => apply wp_change
  | |- wp (abind (record_class ?p ?c) _) ?s _ =>
      apply wp_seq, wp_change;
      assert (inv (with_class p c s)) by (apply inv_with_class; [assumption|split; [closing|inside]])
  end.

Lemma sum_plain op : sum_op op → plain_op op.
Proof. intros H. ops_of H; vm_compute; done. Qed.

Lemma arithmetic_renders p left right op :
  good left → good right → arithmetic_op op → renders (arithmetic ident r rec p left right op).
Proof.
  intros Hl Hr Hop s Hs. unfold arithmetic.
  apply wp_seq, wp_numericOperand; [assumption..|]. intros rawLeft l s1 H1 G1 CL Cl WL Wl VL Vl.
  apply wp_seq, wp_numericOperand; [assumption..|]. intros rawRight r' s2 H2 G2 CR Cr WR Wr VR Vr.
  assert (within (bounds s2) rawLeft) by inside. assert (within (bounds s2) l) by inside.
  apply wp_seq, wp_integerClassed; [assumption..|]. intros leftClass Hlc Hwlc.
  apply wp_seq, wp_integerClassed; [assumption..|]. intros rightClass Hrc Hwrc.
  cbv zeta. unfold class_pair, in_int_range, by_class.
  destruct (_ && _); cbn [negb].
  - apply wp_seq, wp_answer.
    destruct (String.eqb_spec op "/") as [->|N1]; [keep_class; answer|].
    destruct (String.eqb_spec op "%") as [->|N2]; [keep_class; answer|].
    assert (sum_op op) as Hsum by (ops_of Hop). pose proof (sum_plain op Hsum).
    keep_class. answer.
  - keep_class. destruct (String.eqb_spec op "/") as [->|N1]; [answer|].
    destruct (String.eqb_spec op "%") as [->|N2]; [answer|].
    assert (sum_op op) as Hsum by (ops_of Hop). answer.
Qed.

Lemma concatOperand_renders n : good n → renders (concatOperand r rec n).
Proof.
  intros Hn s Hs. unfold concatOperand. destruct (_ && _); [step; answer|].
  destruct (decide (affinityOf r n = affNumber)).
  - destruct (isBooleanNode r n); [step; answer|]. destruct (staticNumberAsText r n); [|apply wp_refused].
    apply wp_answer, pure_text; auto with sql.
  - step. destruct (decide _); answer.
Qed.
#[local] Hint Resolve concatOperand_renders arithmetic_renders : renders.

Definition binary_op (op : string) : Prop := mem op binary_ops = true.
Lemma binary_renders p op left right :
  binary_op op → good left → good right → renders (binary ident r rec p op left right).
Proof.
  intros Hop Hl Hr s Hs. unfold binary. cbv zeta.
  destruct (mem (operator_of op) _) eqn:E1; [by eapply comparison_renders|].
  destruct (mem (operator_of op) _) eqn:E2 in |- *; [by eapply arithmetic_renders|].
  assert (plain_op (operator_of op)) as Hplain.
  { clear E1 E2. cbv [binary_op binary_ops symbol_ops app] in Hop. ops_of Hop; vm_compute; done. }
  destruct (mem (operator_of op) _) eqn:E3 in |- *; [step; step; answer|].
  destruct (String.eqb (operator_of op) "||"); step; step; answer.
Qed.
#[local] Hint Resolve binary_renders : renders.

(** ** Lists of texts *)

Definition rendered_list (s : rstate) (outs : list sql) (s' : rstate) : Prop :=
  inv s' ∧ grows s s' ∧ Forall closes outs ∧ Forall (within (bounds s')) outs
  ∧ ∀ k, (length (s_bound s) ≤ k < length (s_bound s'))%nat → Exists (uses (r_next r + k)) outs.

Definition separator_text (sep : string) : Prop :=
  follows sep = true ∧ scan_raw (QOut EPlain) sep = Some (QOut EPlain).
Lemma join_closes sep outs : separator_text sep → Forall closes outs → closes (sql_join sep outs).
Proof.
  intros [Hf Hsep] H. induction H as [|x outs Hx H IH]; [by exists EPlain; split; [|left]|].
  destruct outs as [|y outs]; [done|]. cbn [sql_join] in *.
  apply flows_cat; [done|]. apply flows_raw; [done|]. eapply ends_cat_raw; [exact Hsep|exact IH].
Qed.
Lemma join_within L sep outs : Forall (within L) outs → within L (sql_join (raw sep) outs).
Proof.
  induction 1 as [|x outs Hx H IH]; [constructor|]. destruct outs as [|y outs]; [done|].
  cbn [sql_join] in *. inside.
Qed.
Lemma join_uses k sep outs : Exists (uses k) outs → uses k (sql_join sep outs).
Proof.
  induction 1 as [x outs H|x outs H IH]; destruct outs as [|y outs]; try done.
  - cbn [sql_join]. by apply uses_l.
  - by apply Exists_nil in H.
  - cbn [sql_join]. apply uses_r, uses_r. exact IH.
Qed.
Lemma comma_separator : separator_text ", ".
Proof. by split. Qed.
Lemma or_separator : separator_text " OR ".
Proof. by split. Qed.
#[local] Hint Resolve join_closes join_within join_uses comma_separator or_separator : sql.

Lemma rendered_nil s : inv s → rendered_list s [] s.
Proof. intros. split_and!; [done|apply grows_refl|constructor|constructor|]. intros k ?. lia. Qed.
Lemma rendered_cons s out s1 outs s2 :
  rendered s out s1 → rendered_list s1 outs s2 → rendered_list s (out :: outs) s2.
Proof.
  intros (I1 & G1 & [C1 W1] & V1) (I2 & G2 & C2 & W2 & V2). split_and!.
  - done.
  - grow.
  - by constructor.
  - constructor; [by eapply within_grows|done].
  - intros k Hk. destruct (decide (k < length (s_bound s1))%nat).
    + apply Exists_cons_hd, V1. lia.
    + apply Exists_cons_tl, V2. lia.
Qed.

(** A loop that renders each element renders the list. *)
Lemma wp_list {A} (f : A → rendering sql) (loop : list A → rendering (list sql)) l s (Q : list sql → rstate → Prop) :
  (∀ s, loop [] s = aret [] s) →
  (∀ a l s, loop (a :: l) s = (do! x := f a in do! xs := loop l in aret (x :: xs)) s) →
  Forall (λ a, renders (f a)) l → inv s → (∀ outs s', rendered_list s outs s' → Q outs s') → wp (loop l) s Q.
Proof.
  intros H0 H1 Hl. revert s Q. induction Hl as [|a l Ha Hl IH]; intros s Q Hs HQ.
  - unfold wp. rewrite H0. apply HQ. by apply rendered_nil.
  - unfold wp. rewrite H1. apply wp_seq. eapply wp_weaken; [by apply Ha|]. intros out s1 R1.
    apply wp_seq, IH; [apply R1|]. intros outs s2 R2. apply wp_answer, HQ. by eapply rendered_cons.
Qed.
Lemma wp_capture_all args s (Q : list sql → rstate → Prop) :
  Forall good args → inv s → (∀ outs s', rendered_list s outs s' → Q outs s') → wp (capture_all rec args) s Q.
Proof.
  intros Ha. apply (wp_list (capture rec) (capture_all rec)); [done|done|].
  eapply Forall_impl; [exact Ha|]. apply capture_renders.
Qed.
Lemma wp_in_parts left items s (Q : list sql → rstate → Prop) :
  good left → Forall good items → inv s → (∀ outs s', rendered_list s outs s' → Q outs s') →
  wp (in_parts r rec left items) s Q.
Proof.
  intros Hl Ha. apply (wp_list (compareVia r rec "=" left) (in_parts r rec left)); [done|done|].
  eapply Forall_impl; [exact Ha|]. intros. by apply compareVia_renders.
Qed.
Ltac listed :=
  let R := fresh in
  intros ?outs ?s R; destruct R as (?Hi & ?Hg & ?Hc & ?Hw & ?Hv).
(** [covering] for a text that holds a list of texts and what came before. *)
Ltac covered_by_list :=
  let k := fresh "k" in let Hk := fresh "Hk" in intros k Hk;
  cbn [s_bound with_raw with_class] in *;
  match goal with
  | H : ∀ k, _ → Exists _ _ |- _ => let E := fresh in assert (E := H k ltac:(lia)); solve [binding]
  end.

(** ** The class of a conditional *)

Lemma case_classes_flows conditions classes :
  Forall closes conditions → Forall closes classes → flows (case_classes conditions classes).
Proof.
  intros H. revert classes. induction H as [|c conditions Hc H IH]; intros [|k classes] Hk; cbn [case_classes]; try solve [closing].
  - apply Forall_cons in Hk as [Hk _]. closing.
  - apply Forall_cons in Hk as [Hk Hks]. apply flows_flows; [closing|by apply IH].
Qed.
Lemma case_classes_within L conditions classes :
  Forall (within L) conditions → Forall (within L) classes → within L (case_classes conditions classes).
Proof.
  intros H. revert classes. induction H as [|c conditions Hc H IH]; intros [|k classes] Hk; cbn [case_classes]; try solve [inside].
  - apply Forall_cons in Hk as [Hk _]. inside.
  - apply Forall_cons in Hk as [Hk Hks]. apply within_cat; [inside|by apply IH].
Qed.

Lemma wp_recordChosenClass p conditions results s (Q : unit → rstate → Prop) :
  inv s → Forall closes conditions → Forall (within (bounds s)) conditions →
  (∀ s', s' = s ∨ (∃ c, s' = with_class p c s) → inv s' → Q () s') →
  wp (recordChosenClass ident r p conditions results) s Q.
Proof.
  intros Hs Hc Hw HQ. unfold recordChosenClass. apply wp_seq, wp_reading. cbv beta.
  assert (Forall (fits (bounds s)) (map (structuralClass r (s_classes s)) results)) as Hcl.
  { apply Forall_map, Forall_forall. intros n _. by apply structuralClass_fits. }
  destruct (map (structuralClass r (s_classes s)) results) as [|first classes] eqn:E; [apply wp_answer, HQ; auto|].
  destruct (forallb _ _); apply wp_change, HQ; eauto; apply inv_with_class; try done.
  - by apply Forall_cons in Hcl as [? _].
  - assert (Forall closes (first :: classes)) by (eapply Forall_impl; [exact Hcl|by intros ? [? _]]).
    assert (Forall (within (bounds s)) (first :: classes)) by (eapply Forall_impl; [exact Hcl|by intros ? [_ ?]]).
    assert (flows (case_classes conditions (first :: classes))) by by apply case_classes_flows.
    assert (within (bounds s) (case_classes conditions (first :: classes))) by by apply case_classes_within.
    split; [closing|inside].
Qed.

(** ** The other operators *)

Lemma is_expr_renders negated left right : good left → good right → renders (is_expr r rec negated left right).
Proof. intros Hl Hr s Hs. unfold is_expr. step. step. step. destruct negated; cbn [negate]; answer. Qed.

Lemma in_expr_renders negated left items : good left → Forall good items → renders (in_expr r rec negated left items).
Proof.
  intros Hl Hi s Hs. unfold in_expr. destruct items as [|i items].
  - apply wp_answer, pure_text; [done|destruct negated; closing|intros; apply within_raw].
  - apply wp_seq, wp_in_parts; [assumption..|]. listed. apply wp_answer.
    destruct negated; cbn [negate]; (split_and!; [assumption|grow|split; [closing|inside]|covered_by_list]).
Qed.

Lemma likeOperand_renders n : good n → renders (likeOperand r rec n).
Proof.
  intros Hn s Hs. unfold likeOperand. destruct (affinityOf r n); try tail; [|apply wp_refused].
  destruct (isBooleanNode r n); [step; answer|]. destruct (staticNumberAsText r n); [|apply wp_refused].
  apply wp_answer, pure_text; auto with sql.
Qed.
#[local] Hint Resolve likeOperand_renders : renders.
Lemma like_expr_renders negated left pat esc :
  good left → good pat → (∀ e, esc = Some e → good e) → renders (like_expr r rec negated left pat esc).
Proof.
  intros Hl Hp He s Hs. unfold like_expr. step. step. apply wp_seq. destruct esc as [e|].
  - assert (good e) by auto. step. apply wp_answer, wp_answer. destruct negated; finish.
  - apply wp_answer, wp_answer. destruct negated; finish.
Qed.

Lemma between_renders negated v low high :
  good v → good low → good high → renders (between r rec negated v low high).
Proof. intros Hv Hl Hh s Hs. unfold between. step. step. destruct negated; cbn [negate]; answer. Qed.

(** ** Calls *)

Definition call_name (name : string) : Prop := scan_raw (QOut EPlain) (name +:+ "(") = Some (QOut EPlain).
Lemma plainCall_renders name args : call_name name → Forall good args → renders (plainCall rec name args).
Proof.
  intros Hn Ha s Hs. unfold plainCall. apply wp_seq, wp_capture_all; [assumption..|]. listed. apply wp_answer.
  unfold call_name in Hn. split_and!; [assumption|grow|split; [closing|inside]|covered_by_list].
Qed.

Lemma coalesce_renders p args : Forall good args → renders (coalesce ident r rec p args).
Proof.
  intros Ha s Hs. unfold coalesce. apply wp_seq, wp_capture_all; [assumption..|]. listed.
  apply wp_seq, wp_recordChosenClass; [assumption| | |].
  - apply Forall_map. apply (Forall_impl closes); [assumption|]. intros. closing.
  - apply Forall_map. eapply (Forall_impl (within _)); [eassumption|]. intros. inside.
  - intros s' Hs' Hi'. apply wp_answer. destruct Hs' as [->|[c ->]];
      (split_and!; [assumption|grow|split; [closing|inside]|covered_by_list]).
Qed.

Lemma iif_renders p args : Forall good args → renders (iif ident r rec p args).
Proof.
  intros Ha s Hs. unfold iif. destruct args as [|c [|t [|e [|]]]]; try apply wp_refused.
  apply Forall_cons in Ha as [Hc [Ht [He _]%Forall_cons]%Forall_cons]. step. step. step.
  apply wp_seq, wp_recordChosenClass; [assumption|by constructor|by constructor; [inside|constructor]|].
  intros s' Hs' Hi'. apply wp_answer. destruct Hs' as [->|[cl ->]]; finish.
Qed.

Lemma fold_case_renders name args : Forall good args → renders (fold_case rec name args).
Proof.
  intros Ha s Hs. unfold fold_case. destruct args as [|a [|]]; try apply wp_refused.
  apply Forall_cons in Ha as [Ha _]. step. destruct (String.eqb name "upper"); answer.
Qed.

Lemma roundSubject_renders n : good n → renders (roundSubject r rec n).
Proof. intros Hn s Hs. unfold roundSubject. destruct (decide _); tail. Qed.
Lemma roundDigits_renders n : good n → renders (roundDigits r rec n).
Proof.
  intros Hn s Hs. unfold roundDigits. apply wp_seq, wp_numericOperand; [assumption..|]. intros. answer.
Qed.
#[local] Hint Resolve roundSubject_renders roundDigits_renders : renders.
Lemma round_renders args : Forall good args → renders (round r rec args).
Proof.
  intros Ha s Hs. unfold round. destruct args as [|a [|d [|]]]; try apply wp_refused.
  - apply Forall_cons in Ha as [Ha _]. step. answer.
  - apply Forall_cons in Ha as [Ha [Hd _]%Forall_cons]. step. step. answer.
Qed.

Lemma substrInteger_renders n : good n → renders (substrInteger r rec n).
Proof.
  intros Hn s Hs. unfold substrInteger. apply wp_seq, wp_numericOperand; [assumption..|]. intros. answer.
Qed.
#[local] Hint Resolve substrInteger_renders : renders.

Lemma substr_sql_closes a b c d : closes a → closes b → closes c → closes d → closes (substr_sql a b c d).
Proof. intros. unfold substr_sql. cbv zeta. closing. Qed.
Lemma substr_sql_within L a b c d : within L a → within L b → within L c → within L d → within L (substr_sql a b c d).
Proof. intros. unfold substr_sql. cbv zeta. inside. Qed.
Lemma substr_sql_uses_a k a b c d : uses k a → uses k (substr_sql a b c d).
Proof. intros. unfold substr_sql. cbv zeta. binding. Qed.
Lemma substr_sql_uses_b k a b c d : uses k b → uses k (substr_sql a b c d).
Proof. intros. unfold substr_sql. cbv zeta. binding. Qed.
Lemma substr_sql_uses_c k a b c d : uses k c → uses k (substr_sql a b c d).
Proof. intros. unfold substr_sql. cbv zeta. binding. Qed.
#[local] Hint Resolve substr_sql_closes substr_sql_within substr_sql_uses_a substr_sql_uses_b substr_sql_uses_c : sql.

Lemma substr_renders args : Forall good args → renders (substr r rec args).
Proof.
  intros Ha s Hs. unfold substr. destruct args as [|a [|b rest]]; try apply wp_refused.
  apply Forall_cons in Ha as [Ha [Hb Hrest]%Forall_cons]. step. step. apply wp_seq.
  assert (wp (match rest with l :: _ => substrInteger r rec l | [] => aret (num "1000000000") end) s1 (rendered s1)) as Hlen.
  { destruct rest as [|l rest]; [apply wp_answer, pure_text; [assumption|by apply closes_num, digits_move|auto with sql]|].
    apply Forall_cons in Hrest as [Hl _]. by apply substrInteger_renders. }
  eapply wp_weaken; [exact Hlen|]. intros len s2 (Hi2 & Hg2 & [Hc2 Hw2] & Hv2).
  destruct (decide _); apply wp_answer; (split_and!; [assumption|grow|split|covering]);
    first [apply substr_sql_closes; closing | apply substr_sql_within; inside].
Qed.

Lemma renderedFunctions_names name target : assoc name renderedFunctions = Some target → call_name ("pg_catalog." +:+ target).
Proof.
  intros H%assoc_Some_elem. unfold renderedFunctions in H. rewrite !elem_of_cons, elem_of_nil in H.
  destruct_or?; simplify_eq; vm_compute; done.
Qed.
Lemma other_call_renders name args : Forall good args → renders (other_call rec name args).
Proof.
  intros Ha s Hs. unfold other_call. destruct (assoc name _) as [target|] eqn:E; [|apply wp_refused].
  apply plainCall_renders; [by eapply renderedFunctions_names|done..].
Qed.

(** A name the renderer may write: a column of the filter, or [id]. *)
Lemma column_name_fits c s : c ∈ C ∨ c = "id" → fits (bounds s) (column_name r c).
Proof.
  intros Hc. split; [apply closes_name|]. apply Forall_singleton. simpl. by exists c.
Qed.

Lemma abs_renders args : Forall good args → renders (abs ident r rec args).
Proof.
  intros Ha s Hs. unfold abs. destruct args as [|a [|]]; try by apply other_call_renders.
  pose proof Ha as [Ha1 _]%Forall_cons.
  destruct (decide _); [step; answer|]. destruct (_ && _); [|by apply other_call_renders].
  apply wp_seq, wp_numericOperand; [assumption..|]. intros rawText numeric s1 H1 G1 C1 C2 W1 W2 V1 V2.
  apply wp_seq, wp_integerClassed; [assumption..|]. intros class Hcl Hwcl. apply wp_answer.
  destruct (column_name_fits "id" s1) as [Hci Hwi]; [by right|]. unfold rowDependentOverflow.
  finish.
Qed.

Lemma call_renders p name args :
  Forall good args → (mem name time_names = true → renders (lift (timeCall r name args))) →
  renders (call ident r rec p name args).
Proof.
  intros Ha Ht. unfold call.
  destruct (mem name ["ifnull"; "coalesce"]); [by apply coalesce_renders|].
  destruct (String.eqb name "nullif"); [by apply plainCall_renders|].
  destruct (String.eqb name "iif"); [by apply iif_renders|].
  destruct (mem name time_names); [by apply Ht|].
  destruct (mem name ["lower"; "upper"]); [by apply fold_case_renders|].
  destruct (String.eqb name "round"); [by apply round_renders|].
  destruct (String.eqb name "substr"); [|destruct (String.eqb name "abs"); [by apply abs_renders|by apply other_call_renders]].
  destruct (_ && _); [by apply substr_renders|]. intros s _. apply wp_refused.
Qed.

(** ** CASE *)

Lemma caseCondition_renders operand w :
  good w → (∀ o, operand = Some o → good o) → renders (caseCondition r rec operand w).
Proof. intros Hw Ho. unfold caseCondition. destruct operand; [apply compareVia_renders; auto; done|by apply truth_renders]. Qed.

Definition rendered_pairs (s : rstate) (outs : list (sql * sql)) (s' : rstate) : Prop :=
  inv s' ∧ grows s s' ∧ Forall (λ b, closes b.1 ∧ closes b.2) outs
  ∧ Forall (λ b, within (bounds s') b.1 ∧ within (bounds s') b.2) outs
  ∧ ∀ k, (length (s_bound s) ≤ k < length (s_bound s'))%nat → Exists (λ b, uses (r_next r + k) b.1 ∨ uses (r_next r + k) b.2) outs.

Lemma wp_case_branches operand bs s (Q : list (sql * sql) → rstate → Prop) :
  (∀ o, operand = Some o → good o) → Forall (λ b, good b.1 ∧ good b.2) bs → inv s →
  (∀ outs s', rendered_pairs s outs s' → Q outs s') → wp (case_branches r rec operand bs) s Q.
Proof.
  intros Ho Hbs. revert s Q. induction Hbs as [|[w t] bs [Hw Ht] Hbs IH]; intros s Q Hs HQ; cbn [case_branches].
  - apply wp_answer, HQ. split_and!; [done|apply grows_refl|constructor|constructor|]. intros k ?. lia.
  - simpl in Hw, Ht. apply wp_seq. eapply wp_renders; [by apply caseCondition_renders|assumption|]. intros c s1 I1 G1 C1 W1 V1.
    step. apply wp_seq, IH; [assumption|]. intros outs s2 (I2 & G2 & C2 & W2 & V2). apply wp_answer, HQ. split_and!.
    + done.
    + grow.
    + by constructor.
    + constructor; [split; inside|done].
    + intros k Hk. destruct (decide (k < length (s_bound s1))%nat); [apply Exists_cons_hd; left; apply V1; lia|].
      destruct (decide (k < length (s_bound s0))%nat); [apply Exists_cons_hd; right; apply Hv; lia|].
      apply Exists_cons_tl, V2. lia.
Qed.

Lemma when_then_flows outs : Forall (λ b, closes b.1 ∧ closes b.2) outs → flows (when_then outs).
Proof.
  induction 1 as [|[c t] outs [Hc Ht] H IH]; cbn [when_then]; [apply flows_nil|]. cbn in Hc, Ht.
  apply flows_flows; [closing|done].
Qed.
Lemma when_then_within L outs : Forall (λ b, within L b.1 ∧ within L b.2) outs → within L (when_then outs).
Proof.
  induction 1 as [|[c t] outs [Hc Ht] H IH]; cbn [when_then]; [constructor|]. cbn in Hc, Ht.
  apply within_cat; [inside|done].
Qed.
Lemma when_then_uses k outs : Exists (λ b, uses k b.1 ∨ uses k b.2) outs → uses k (when_then outs).
Proof.
  induction 1 as [[c t] outs [H|H]|[c t] outs H IH]; cbn [when_then]; try (cbn in H).
  - apply uses_l. binding.
  - apply uses_l. binding.
  - by apply uses_r.
Qed.

Lemma caseExpr_renders p operand bs otherwise :
  (∀ o, operand = Some o → good o) → Forall (λ b, good b.1 ∧ good b.2) bs → (∀ e, otherwise = Some e → good e) →
  renders (caseExpr ident r rec p operand bs otherwise).
Proof.
  intros Ho Hbs He s Hs. unfold caseExpr. apply wp_seq, wp_case_branches; [assumption..|].
  intros outs s1 (I1 & G1 & C1 & W1 & V1).
  assert (flows (when_then outs)) by by apply when_then_flows.
  assert (within (bounds s1) (when_then outs)) by by apply when_then_within.
  assert (covers r s s1 (when_then outs)) by (intros k Hk; by apply when_then_uses, V1).
  assert (∀ s', grows s1 s' → Forall closes (map fst outs) ∧ Forall (within (bounds s')) (map fst outs)) as Hcond.
  { intros s' Hg. split; apply Forall_map; [eapply Forall_impl; [exact C1|by intros [c t] [? _]]|].
    eapply Forall_impl; [exact W1|]. intros [c t] [? _]. by eapply within_grows. }
  clear C1 W1 V1. apply wp_seq. destruct otherwise as [e|].
  - assert (good e) by auto. step. apply wp_answer. destruct (Hcond s0 Hg) as [? ?].
    apply wp_seq, wp_recordChosenClass; [assumption..|]. intros s' Hs' Hi'. apply wp_answer. destruct Hs' as [->|[cl ->]]; finish.
  - apply wp_answer. destruct (Hcond s1 (grows_refl s1)) as [? ?].
    apply wp_seq, wp_recordChosenClass; [assumption..|]. intros s' Hs' Hi'. apply wp_answer. destruct Hs' as [->|[cl ->]]; finish.
Qed.
End Methods.

(** * Literals and times keep the specification

    Numbers of accepted filters are numerals, so that what [number] copies
    into the SQL is read as one token; the moments of the time functions are
    built of templates around literals and timestamp columns. *)


(** ** Numerals of the language *)

(** Where the reader of quotes may be in a numeral. *)
Definition beside (st : nstate) (e : edge) : Prop :=
  match st with
  | n_start => e = EPlain ∨ e = EWord ∨ e = EDash
  | n_sign => e = EPlain ∨ e = EDash
  | _ => e = EPlain ∨ e = EWord
  end.
Lemma numeral_step st c st' e :
  nstep st c = Some st' → beside st e →
  numeral_byte c = true ∧ ∃ e', qstep (QOut e) c = Some (QOut e') ∧ beside st' e'.
Proof.
  intros H He. assert (e ≠ EBind) by (intros ->; destruct st; simpl in He; naive_solver).
  destruct (isDigit c) eqn:Hd.
  { split; [unfold numeral_byte; change (digit_byte c) with (isDigit c); by rewrite Hd|]. exists EWord.
    split; [by apply digit_step|]. destruct st; simpl in H; rewrite Hd in H; injection H as <-; simpl; auto. }
  assert (c ∈ ["."; "e"; "E"; "+"; "-"]%char) as Hc.
  { rewrite !elem_of_cons. destruct st; simpl in H; rewrite Hd in H; repeat case_match; try done;
      repeat match goal with H : _ || _ = true |- _ => apply orb_true_iff in H as [H|H] end;
      repeat match goal with H : Ascii.eqb _ _ = true |- _ => apply Ascii.eqb_eq in H end; subst; auto 10. }
  rewrite !elem_of_cons, elem_of_nil in Hc.
  destruct_or?; subst; try done; (split; [reflexivity|]);
    destruct st; try done; injection H as <-; simpl in He; destruct_or?; subst; try done;
    eexists; (split; [reflexivity|simpl; auto]).
Qed.
Lemma numeral_run s st st' e :
  nrun st s = Some st' → beside st e →
  all_bytes numeral_byte s = true ∧ ∃ e', scan_raw (QOut e) s = Some (QOut e') ∧ beside st' e'.
Proof.
  revert st e. induction s as [|c s IH]; intros st e H He; [injection H as <-; eauto|].
  cbn [nrun scan_raw all_bytes] in *. destruct (nstep st c) as [st1|] eqn:E; [|done].
  destruct (numeral_step _ _ _ _ E He) as [-> (e1 & -> & He1)]. by apply (IH st1 e1).
Qed.
Lemma decimal_numeral s : decimal_shape s = true → signable s ∧ s ≠ "" ∧ all_bytes numeral_byte s = true.
Proof.
  unfold decimal_shape. destruct (nrun n_start s) as [st|] eqn:E; [|done]. intros Hst.
  assert (∀ e, beside n_start e → settled (scan_raw (QOut e) s)) as Hrun.
  { intros e He. destruct (numeral_run _ _ _ _ E He) as [_ (e' & -> & He')].
    destruct st; try done; destruct He' as [->| ->]; [by left|by right|by left|by right|by left|by right]. }
  split_and!.
  - split; [|apply Hrun; right; right; done]. intros e [->| ->]; apply Hrun; simpl; auto.
  - intros ->. by injection E as <-.
  - by destruct (numeral_run _ _ _ EPlain E (or_introl eq_refl)).
Qed.

Section Leaves.
Context {UT : UnicodeTables}.

Lemma hexadecimal_prefixed s : hexadecimal_shape s = true → hex_prefixed s = true.
Proof.
  destruct s as [|c0 [|cx s]]; try done. simpl. intros H. apply andb_true_iff in H as [[[H0 Hx]%andb_true_iff _]%andb_true_iff Hs].
  apply Ascii.eqb_eq in H0 as ->. unfold hex_prefixed, to_lower.
  assert (is_ascii (String "0" (String cx s)) = true) as ->.
  { unfold is_ascii. cbn [all_bytes]. replace (byte_val cx <? 128) with true
      by (apply orb_true_iff in Hx as [->%Ascii.eqb_eq| ->%Ascii.eqb_eq]; reflexivity).
    apply (all_bytes_mono isHex); [|done]. intros c Hc. apply Z.ltb_lt. unfold isHex, isDigit, in_range in Hc. lia. }
  by apply orb_true_iff in Hx as [->%Ascii.eqb_eq| ->%Ascii.eqb_eq].
Qed.
Lemma number_shape_cases s : number_shape s = true → hex_prefixed s = true ∨ decimal_shape s = true.
Proof. intros [H|H]%orb_true_iff; [by right|left]. by apply hexadecimal_prefixed. Qed.

Lemma number_fits text L : hex_prefixed text = true ∨ moves text → returns (number text) (fits L).
Proof.
  intros H. unfold number. destruct (hex_prefixed text) eqn:E.
  - destruct (ParseUint16 _); try done. split; auto with sql.
  - destruct H as [|H]; [done|]. assert (fits L (num text)) by (split; [by apply closes_num|auto with sql]).
    destruct (ParseFloat64 text) as [f|f|]; [| |done];
      (destruct (infinite_sql f) eqn:Ef; [split; eauto with sql|]; destruct (numeralIsReal text); [split; auto with sql|done]).
Qed.
Lemma literal_fits k text L : regular ∅ (Literal k text) = true → returns (literal k text) (fits L).
Proof.
  intros H. destruct k; cbn [literal returns]; try (split; [closing|in_limits]). apply number_fits.
  apply number_shape_cases in H as [H|H]; [by left|right]. by apply decimal_numeral in H as [[? _] _].
Qed.
Lemma signed_number_fits op text L :
  sign_op op = true → number_shape text = true → hex_prefixed text = false →
  returns (number (op +:+ trim_space text)) (fits L).
Proof.
  intros Hop Ht Hx. apply number_fits. right. apply number_shape_cases in Ht as [Ht|Ht]; [congruence|].
  apply decimal_numeral in Ht as (Hs & Hne & Hb).
  pose proof (trim_numeral "" text "" eq_refl eq_refl Hb Hne) as E. rewrite app_nil_r_str in E. simpl in E. rewrite E.
  apply signed_moves; [|done]. apply orb_true_iff in Hop as [->%String.eqb_eq| ->%String.eqb_eq]; auto.
Qed.
End Leaves.

(** ** Moments *)

Section Moments.
Context {UT : UnicodeTables} (r : renderer) (C : gset string).

(** A text over the columns [C] without placeholders. *)
Definition columnar (q : sql) : Prop := closes q ∧ ∀ lo hi, within (Limits lo hi (column_names r C)) q.

Lemma columnar_raw s : closes (raw s) → columnar (raw s).
Proof. intros H. split; [done|]. intros. auto with sql. Qed.
Lemma timestampLiteral_columnar t : columnar (timestampLiteral t).
Proof. split; intros; unfold timestampLiteral; [closing|in_limits]. Qed.
Lemma null_columnar : columnar null_moment.
Proof. apply columnar_raw. closing. Qed.
Lemma column_columnar c : c ∈ C → columnar (column_name r c).
Proof.
  intros Hc. split; [apply closes_name|]. intros lo hi. apply Forall_singleton. exists c. auto.
Qed.
Lemma quantized_columnar q : columnar q → columnar (quantizedToSQLitesMillisecond q).
Proof. intros [Hc Hw]. split; intros; unfold quantizedToSQLitesMillisecond; [closing|specialize (Hw lo hi); in_limits]. Qed.
Lemma years_columnar q : columnar q → columnar (withinRepresentableYears q).
Proof. intros [Hc Hw]. split; intros; unfold withinRepresentableYears; [closing|specialize (Hw lo hi); in_limits]. Qed.
Lemma timestampColumn_columnar q : columnar q → columnar (timestampColumn q).
Proof. intros [Hc Hw]. split; intros; unfold timestampColumn; cbv zeta; [closing|specialize (Hw lo hi); in_limits]. Qed.
Lemma shifted_columnar base shift : columnar base → columnar (shifted base shift).
Proof.
  intros H. unfold shifted. destruct (shift =? 0); [done|]. cbv zeta. destruct (_ <? _); [apply null_columnar|].
  destruct H as [Hc Hw]. unfold timestampLiteral. split; intros; [closing|specialize (Hw lo hi); in_limits].
Qed.
Lemma nested_columnar name q : columnar q → returns (nested_moment name q) columnar.
Proof.
  intros H. unfold nested_moment. destruct H as [Hc Hw].
  destruct (String.eqb name "date"); [split; intros; [closing|specialize (Hw lo hi); in_limits]|].
  destruct (String.eqb name "time"); [split; intros; [closing|specialize (Hw lo hi); in_limits]|].
  destruct (String.eqb name "datetime"); [split; intros; [closing|specialize (Hw lo hi); in_limits]|].
  destruct (String.eqb name "julianday"); [by split|done].
Qed.

Lemma julian_columnar f : returns (julianMoment f) columnar.
Proof.
  unfold julianMoment. destruct (negb _); [apply null_columnar|]. cbv zeta.
  destruct (_ <? _); [done|apply timestampLiteral_columnar].
Qed.
Lemma timeText_columnar text : returns (timeTextMoment text) columnar.
Proof.
  unfold timeTextMoment. destruct (parseSQLiteTimeText text) as [[] m]; try done; [apply timestampLiteral_columnar|apply null_columnar].
Qed.
Lemma numericLiteral_returns text : returns (numericLiteralValue text) (λ _, True).
Proof. unfold numericLiteralValue. destruct (hex_prefixed text); [by destruct (ParseUint16 _)|by destruct (ParseFloat64 _)]. Qed.
Lemma numeral_columnar text (g : double → double) :
  returns (let! value := numericLiteralValue text in
           match value with Some f => julianMoment (g f) | None => Done null_moment end) columnar.
Proof.
  apply returns_seq. eapply returns_mono; [apply numericLiteral_returns|]. intros [f|] _; [apply julian_columnar|apply null_columnar].
Qed.
Lemma literalMoment_columnar k text : returns (literalMoment k text) columnar.
Proof.
  destruct k; try done; cbn [literalMoment]; first [apply timeText_columnar|apply (numeral_columnar text id)|apply null_columnar].
Qed.
Lemma paramMoment_columnar i : returns (paramMoment r i) columnar.
Proof.
  unfold paramMoment. destruct (r_args r !! i) as [v|]; [|done].
  destruct v as [|b|k n|f|f|text|text|text|]; try done.
  - apply null_columnar.
  - destruct k; try done; apply julian_columnar.
  - apply julian_columnar.
  - destruct (ParseFloat64 text); [apply julian_columnar|apply null_columnar..].
  - apply timeText_columnar.
Qed.
Lemma columnMoment_columnar c : c ∈ C → returns (columnMoment r c) columnar.
Proof.
  intros Hc. unfold columnMoment. destruct (decide _); [|done]. by apply quantized_columnar, timestampColumn_columnar, column_columnar.
Qed.
Lemma shift_returns shift mods : returns (shift_of r shift mods) (λ _, True).
Proof.
  revert shift. induction mods as [|m mods IH]; intros shift; [done|]. cbn [shift_of].
  destruct (constantText r m) as [text|]; [|by destruct (constantAtRenderTime m)].
  destruct (parseSQLiteModifier text) as [[] seconds]; try done. cbv zeta.
  destruct (_ || _); [done|]. destruct (_ || _); [done|]. apply IH.
Qed.

Definition well_formed (n : tree) : Prop := regular C (erase n) = true.
Lemma well_formed_args p name args :
  well_formed (NCall p name args) → arity_in name (Z.of_nat (length args)) = true ∧ Forall well_formed args.
Proof.
  unfold well_formed. cbn [erase regular]. rewrite length_map. intros [Ha H]%andb_true_iff. split; [done|].
  apply Forall_forall. intros m Hm. rewrite forallb_forall in H. apply H, in_map. by apply list_elem_of_In.
Qed.

Lemma moment_with_columnar base_of name args :
  (name = "strftime" → args ≠ []) → (∀ a, a ∈ args → returns (base_of a) columnar) →
  returns (moment_with r base_of name args) columnar.
Proof.
  intros Hname H. unfold moment_with. cbv zeta.
  assert (∀ l, l ⊆ args → returns match l with
    | [] => refuse (name +:+ " without a time")
    | first :: mods =>
        let! base := base_of first in
        let! shift := shift_of r 0 mods in
        Done (match shift with Some shift => shifted base shift | None => null_moment end) end columnar) as Hat.
  { intros [|first mods] Hl; [done|]. apply returns_seq. eapply returns_mono; [apply H, Hl; by left|]. intros base Hb.
    apply returns_seq. eapply returns_mono; [apply shift_returns|]. intros [shift|] _; [by apply shifted_columnar|apply null_columnar]. }
  destruct (String.eqb_spec name "strftime") as [E|_]; [|by apply Hat].
  destruct args as [|a args]; [by destruct (Hname E)|]. apply Hat. intros x Hx. by right.
Qed.
Lemma strftime_args name (args : list tree) : arity_in name (Z.of_nat (length args)) = true → name = "strftime" → args ≠ [].
Proof. intros H -> ->. by vm_compute in H. Qed.

Lemma baseMoment_columnar n : well_formed n → returns (baseMoment r n) columnar.
Proof.
  induction n as [n IH] using tree_ind'. intros Hn.
  destruct n as [p k t|p i|p c|p name args|p op l r'|p op o|p i| | | | |]; cbn [baseMoment]; try done.
  - apply literalMoment_columnar.
  - apply paramMoment_columnar.
  - apply columnMoment_columnar. by apply bool_decide_eq_true in Hn.
  - apply well_formed_args in Hn as [Ha Hargs]. apply returns_seq. eapply returns_mono.
    + apply moment_with_columnar; [by apply strftime_args|]. intros a Hin. apply IH; [done|].
      rewrite Forall_forall in Hargs. by apply Hargs.
    + intros q Hq. by apply nested_columnar.
  - destruct o as [p' k t| | | | | | | | | | |]; try done. destruct k; try done. destruct (sign_op op); [|done].
    apply (numeral_columnar t (λ f, if String.eqb op "-" then dneg f else f)).
Qed.

Lemma timed_columnar name args pattern :
  (name = "strftime" → args ≠ []) → Forall well_formed args → returns (timed r name args pattern) columnar.
Proof.
  intros Hn Ha. unfold timed. apply returns_seq. eapply returns_mono.
  { apply moment_with_columnar; [exact Hn|]. intros a Hin. apply baseMoment_columnar. rewrite Forall_forall in Ha. by apply Ha. }
  intros q Hq. apply years_columnar in Hq as [Hc Hw]. cbv zeta. generalize dependent (withinRepresentableYears q). intros m Hc Hw.
  destruct pattern; cbn [returns]; (split; [|intros lo hi; specialize (Hw lo hi)]); unfold sqliteDouble.
  - closing.
  - in_limits.
  - apply exactDouble_closes. closing.
  - apply exactDouble_within. in_limits.
Qed.
Lemma timeCall_columnar p name args : well_formed (NCall p name args) → returns (timeCall r name args) columnar.
Proof.
  intros [Ha Hargs]%well_formed_args. pose proof (strftime_args _ _ Ha) as Hn. unfold timeCall.
  destruct (String.eqb_spec name "strftime") as [E|_]; [|by apply timed_columnar].
  destruct args as [|format args]; [by destruct (Hn E)|]. destruct (constantText r format); [|done].
  destruct (strftimeToCharPattern _); [by apply timed_columnar|done|]. apply columnar_raw. closing.
Qed.

Lemma lift_columnar o : returns o columnar → renders r C (lift o).
Proof.
  intros H s Hs. apply wp_lift. eapply returns_mono; [exact H|]. intros q [Hc Hw].
  split_and!; [done|apply grows_refl|split; [done|apply Hw]|apply covers_refl].
Qed.
End Moments.
