(* ===== verification/RenderTotal.v ===== *)
(** * Rendering keeps the specification

    The methods put together: one node, a tree, and the lifting of
    conditionals that mix kinds of values, with the argument that it ends. *)
From Stdlib Require Import ZArith Lia Ascii String.
From stdpp Require Import base gmap strings list numbers pretty.
From S2P Require Import Prelude GoStrings SchemaIdent FilterLexer FilterParser FilterShape Schema GoNumbers GoFloats RenderSql FilterTime FilterTree FilterRender RenderQuotes RenderNumbers RenderSpec RenderMethods.
Local Open Scope Z_scope.
Local Open Scope sql_scope.

Section Total.
Context {UT : UnicodeTables} (ident : list string → string) (r : renderer) (C : gset string).
Abbreviation renders := (renders r C).
Abbreviation inv := (inv r C).
Abbreviation rendered := (rendered r C).
Abbreviation bounds := (bounds r C).
Abbreviation well_formed := (well_formed C).

(** ** Leaves that depend on the state *)

Lemma cast_flows raw_boolean v : flows (raw (argument_cast raw_boolean v)).
Proof.
  destruct v; cbn [argument_cast]; try destruct raw_boolean; first [closing | intros e He; exists e; done].
Qed.
Lemma param_renders i : renders (param r i).
Proof.
  intros s Hs. unfold param. destruct (r_args r !! i) as [v|] eqn:E; [|done].
  apply wp_seq, wp_reading, wp_seq, wp_reading, wp_seq, wp_change, wp_answer.
  assert (from_args r (canonicalArgument v)) as Hv by (exists v; split; [by eapply list_elem_of_lookup_2|done]).
  pose proof (cast_flows (s_rawBoolean s) v). split_and!.
  - by apply inv_bind.
  - split; [by exists [canonicalArgument v]|done].
  - split; [apply flows_cat; [apply closes_bind|done]|]. apply within_cat; [|auto with sql].
    apply Forall_singleton. simpl. rewrite length_app. simpl. lia.
  - intros k Hk. simpl in Hk. rewrite length_app in Hk. simpl in Hk. replace k with (length (s_bound s)) by lia. by left.
Qed.
Lemma column_renders c : c ∈ C → renders (column r c).
Proof.
  intros Hc s Hs. unfold column. apply wp_seq, wp_reading, wp_answer.
  destruct (column_name_fits r C c s) as [Hq Hw]; [by left|].
  destruct (decide _); [destruct (s_rawBoolean s)|]; (split_and!; [done|apply grows_refl|split|apply covers_refl]); try done; first [closing|inside].
Qed.

(** ** Children *)

Lemma well_formed_child n m : well_formed n → m ∈ filterChildren n → well_formed m.
Proof.
  unfold RenderMethods.well_formed.
  destruct n as [| | |p f args|p op l r'|p op o|p i|p neg l r'|p neg l items|p neg l pat esc|p neg v lo hi|p o bs e];
    cbn [erase regular filterChildren]; rewrite ?elem_of_cons, ?elem_of_nil, ?andb_true_iff; intros H Hm; try done;
    try (destruct_and?; destruct_or?; subst; done).
  - destruct H as [_ H]. rewrite forallb_forall in H. apply H, in_map. by apply list_elem_of_In.
  - destruct H as [Hl H]. destruct Hm as [->|Hm]; [done|]. rewrite forallb_forall in H. apply H, in_map. by apply list_elem_of_In.
  - destruct H as [[Hl Hp] He]. simpl in Hm. rewrite !elem_of_cons in Hm. destruct Hm as [->|[->|Hm]]; [done..|].
    destruct esc; simpl in *; [|by apply elem_of_nil in Hm]. by apply list_elem_of_singleton in Hm as ->.
  - destruct H as [[Ho Hbs] He]. rewrite !elem_of_app in Hm. destruct Hm as [Hm|[Hm|Hm]].
    + destruct o; simpl in *; [|by apply elem_of_nil in Hm]. by apply list_elem_of_singleton in Hm as ->.
    + apply list_elem_of_join in Hm as (l & Hl & (b & -> & Hb)%list_elem_of_fmap).
      rewrite forallb_forall in Hbs. specialize (Hbs (erase b.1, erase b.2)). simpl in Hbs.
      apply andb_true_iff in Hbs as [H1 H2].
      * rewrite !elem_of_cons, elem_of_nil in Hl. by destruct Hl as [->|[->|[]]].
      * apply in_map_iff. exists b. split; [done|by apply list_elem_of_In].
    + destruct e; simpl in *; [|by apply elem_of_nil in Hm]. by apply list_elem_of_singleton in Hm as ->.
Qed.

(** ** One node *)

Section Node.
Context (rec : tree → rendering sql) (f : nat).
Definition shallow (n : tree) : Prop := well_formed n ∧ (depth n ≤ f)%nat.
Hypothesis Hrec : ∀ n, shallow n → renders (rec n).

Lemma child_shallow n m : well_formed n → (depth n ≤ S f)%nat → m ∈ filterChildren n → shallow m.
Proof. intros Hn Hd Hm. split; [by eapply well_formed_child|]. apply child_depth in Hm. lia. Qed.

Lemma not_folds op : op ∈ ["-"; "+"] → equal_fold op "not" = false.
Proof. rewrite !elem_of_cons, elem_of_nil. intros [->|[->|[]]]; reflexivity. Qed.

Lemma unary_renders p op o :
  well_formed (NUnary p op o) → shallow o → renders (unary r rec op o).
Proof.
  intros Hn Ho s Hs. unfold unary. cbv zeta.
  assert (op ∈ ["-"; "+"; "not"]) as Hop by (apply andb_true_iff in Hn as [Hn _]; by apply mem_spec in Hn).
  assert (∀ s', inv s' → wp (do! out := capture rec o in aret (raw ("(" +:+ op +:+ " ") ⊕ out ⊕ ")")) s' (rendered s')) as Hplain.
  { intros s' Hs'. apply wp_seq. eapply wp_renders; [by eapply capture_renders|done|]. intros out s1 Hi Hg Hc Hw Hv.
    apply wp_answer. rewrite !elem_of_cons, elem_of_nil in Hop. destruct Hop as [->|[->|[->|[]]]]; finish. }
  destruct (equal_fold op "not").
  { apply wp_seq. eapply wp_renders; [by eapply truth_renders|done|]. intros out s1 Hi Hg Hc Hw Hv. answer. }
  destruct (sign_op op) eqn:Esign; [|by apply Hplain].
  destruct o as [p' k t| | | | | | | | | | |]; try by apply Hplain. destruct k; try by apply Hplain.
  destruct (signed_literal op t) as [whole|]; [apply wp_answer, pure_renders; [done|closing|intros; in_limits]|].
  destruct (hex_prefixed t) eqn:Ehex; [by apply Hplain|]. destruct (numeralIsReal t); [|by apply Hplain]. cbn [negb andb].
  apply wp_seq, wp_lift. eapply returns_mono; [apply signed_number_fits; [done| |done]|].
  - destruct Ho as [Ho _]. exact Ho.
  - intros out [Hc Hw]. apply wp_answer. split_and!; [done|apply grows_refl|split; [closing|inside]|apply covers_refl].
Qed.

Lemma render_node_renders n : well_formed n → (depth n ≤ S f)%nat → renders (render_node ident r rec n).
Proof.
  intros Hn Hd s Hs. unfold render_node. apply wp_seq. unfold observe, wp.
  destruct (r_ctx r (s_seen s)); [done|]. assert (inv (see s)) as Hs' by by eapply inv_same.
  assert (∀ m, renders m → wp m (see s) (rendered s)) as Hcut.
  { intros m Hm. eapply wp_weaken; [by apply Hm|]. intros out s' (? & ? & ? & ?). by split_and!. }
  change (wp match n with
    | NColumn _ c => column r c | NParam _ i => param r i | NLiteral _ k t => lift (literal k t)
    | NParen _ i => do! out := capture rec i in aret ("(" ⊕ out ⊕ ")")
    | NUnary _ op o => unary r rec op o | NBinary p op l r' => binary ident r rec p op l r'
    | NIs _ neg l r' => is_expr r rec neg l r' | NIn _ neg l items => in_expr r rec neg l items
    | NLike _ neg l pat esc => like_expr r rec neg l pat esc | NBetween _ neg v lo hi => between r rec neg v lo hi
    | NCall p name args => call ident r rec p name args | NCase p o bs e => caseExpr ident r rec p o bs e
    end (see s) (rendered s)).
  apply Hcut. clear Hcut. assert (∀ m, m ∈ filterChildren n → shallow m) as Hch by (intros; by eapply child_shallow).
  destruct n as [p k t|p i|p c|p name args|p op l r'|p op o|p i|p neg l r'|p neg l items|p neg l pat esc|p neg v lo hi|p o bs e];
    cbn [filterChildren] in Hch.
  - intros s1 H1. apply wp_lift. eapply returns_mono; [apply literal_fits; exact Hn|]. intros out Hf.
    split_and!; [done|apply grows_refl|done|apply covers_refl].
  - apply param_renders.
  - apply column_renders. by apply bool_decide_eq_true in Hn.
  - eapply call_renders; [exact Hrec|by apply Forall_forall|]. intros _. eapply lift_columnar, timeCall_columnar, Hn.
  - eapply binary_renders; [exact Hrec| |apply Hch; by left|apply Hch; right; by left].
    unfold RenderMethods.well_formed in Hn. cbn [erase regular] in Hn. apply andb_true_iff in Hn as [[Hop _]%andb_true_iff _]. exact Hop.
  - eapply unary_renders; [exact Hn|apply Hch; by left].
  - intros s1 H1. apply wp_seq. eapply wp_renders; [eapply Hrec, Hch; by left|done|]. intros out s2 Hi Hg Hc Hw Hv. answer.
  - eapply is_expr_renders; [exact Hrec|apply Hch; by left|apply Hch; right; by left].
  - eapply in_expr_renders; [exact Hrec|apply Hch; by left|]. apply Forall_forall. intros m Hm. apply Hch. by right.
  - eapply like_expr_renders; [exact Hrec|apply Hch; by left|apply Hch; right; by left|].
    intros e ->. apply Hch. right. right. by left.
  - eapply between_renders; [exact Hrec|apply Hch; by left|apply Hch; right; by left|apply Hch; right; right; by left].
  - eapply caseExpr_renders; [exact Hrec| | |].
    + intros o' ->. apply Hch. by left.
    + apply Forall_forall. intros b Hb. split; apply Hch; rewrite !elem_of_app; right; left; apply list_elem_of_join;
        exists [b.1; b.2]; (split; [|by apply (list_elem_of_fmap_2 (λ b, [b.1; b.2]))]); [by left|right; by left].
    + intros e' ->. apply Hch. rewrite !elem_of_app. right. right. by left.
Qed.
End Node.

Lemma render_renders f n : well_formed n → (depth n ≤ f)%nat → renders (render ident r f n).
Proof.
  revert n. induction f as [|f IH]; intros n Hn Hd; [destruct n; simpl in Hd; lia|].
  cbn [render]. apply (render_node_renders _ f); [|done..]. intros m [Hm Hdm]. by apply IH.
Qed.
Lemma truth_of_renders n : well_formed n → renders (truth_of ident r n).
Proof.
  intros Hn. unfold truth_of. apply (truth_renders r C _ (shallow (depth n))); [|by split].
  intros m [Hm Hd]. by apply render_renders.
Qed.

(** ** Replacing a node keeps a filter regular *)

Lemma forallb_map_fresh (f : tree → loc → tree * loc) (l : list tree) p :
  (∀ m q, m ∈ l → well_formed m → well_formed (f m q).1) → forallb (regular C) (map erase l) = true →
  forallb (regular C) (map erase (map_fresh f l p).1) = true.
Proof.
  intros Hf. revert p. induction l as [|m l IH]; intros p H; [done|]. cbn [map_fresh].
  cbn [map forallb] in H. apply andb_true_iff in H as [Hm Hl].
  pose proof (Hf m p ltac:(by left) Hm) as H1. destruct (f m p) as [m' q]. specialize (IH ltac:(intros; apply Hf; [by right|done]) q Hl).
  destruct (map_fresh f l q) as [l' q']. cbn [fst map forallb] in *. unfold RenderMethods.well_formed in H1. by rewrite H1, IH.
Qed.
Lemma length_map_fresh {A B} (f : A → loc → B * loc) l p : length (map_fresh f l p).1 = length l.
Proof.
  revert p. induction l as [|x l IH]; intros p; [done|]. cbn [map_fresh]. destruct (f x p) as [y q].
  specialize (IH q). destruct (map_fresh f l q). simpl in *. by f_equal.
Qed.

Definition option_regular (o : option tree) : Prop := ∀ m, o = Some m → well_formed m.
Lemma option_fresh_regular (f : tree → loc → tree * loc) o p :
  (∀ m q, m ∈ FilterTree.option_list o → well_formed m → well_formed (f m q).1) →
  match option_map erase o with Some m => regular C m | None => true end = true →
  match option_map erase (option_fresh f o p).1 with Some m => regular C m | None => true end = true.
Proof.
  intros Hf H. destruct o as [m|]; [|done]. simpl in *. specialize (Hf m p ltac:(by left) H). by destruct (f m p).
Qed.
Lemma branches_fresh_regular (f : tree → loc → tree * loc) (bs : list (tree * tree)) p :
  (∀ m q, m ∈ mjoin (map (λ b, [b.1; b.2]) bs) → well_formed m → well_formed (f m q).1) →
  forallb (λ b, regular C b.1 && regular C b.2) (map (λ b, (erase b.1, erase b.2)) bs) = true →
  forallb (λ b, regular C b.1 && regular C b.2) (map (λ b, (erase b.1, erase b.2))
    (map_fresh (λ b q, let '(w, q) := f b.1 q in let '(t, q) := f b.2 q in ((w, t), q)) bs p).1) = true.
Proof.
  revert p. induction bs as [|[w t] bs IH]; intros p Hf H; [done|]. cbn [map_fresh fst snd].
  cbn [map forallb fst snd] in H. apply andb_true_iff in H as [[Hw Ht]%andb_true_iff Hbs].
  pose proof (Hf w p ltac:(by left) Hw) as H1. destruct (f w p) as [w' q1].
  pose proof (Hf t q1 ltac:(right; by left) Ht) as H2. destruct (f t q1) as [t' q2].
  specialize (IH q2 ltac:(intros; apply Hf; [by right; right|done]) Hbs).
  destruct (map_fresh _ bs q2) as [bs' q3]. cbn [fst snd map forallb] in *. unfold RenderMethods.well_formed in *. by rewrite H1, H2, IH.
Qed.

Ltac sub_step Hsub :=
  match goal with
  | |- context [substituted ?t ?r ?m ?q] =>
      let H := fresh "Hs" in
      assert (H := Hsub m q ltac:(rewrite ?elem_of_cons; auto) ltac:(assumption)); destruct (substituted t r m q) as [? ?]; cbn [fst] in H
  end.
Lemma substituted_well_formed target replacement n p :
  well_formed replacement → well_formed n → well_formed (substituted target replacement n p).1.
Proof.
  intros Hr. revert p. induction n as [n IH] using tree_ind'. intros p Hn.
  assert (∀ m q, m ∈ filterChildren n → well_formed m → well_formed (substituted target replacement m q).1) as Hsub.
  { intros m q Hm Hw. by apply IH. }
  clear IH. unfold RenderMethods.well_formed in Hsub, Hn |- *. destruct n as [| | |p0 f args|p0 op l r'|p0 op o|p0 i|p0 neg l r'|p0 neg l items|p0 neg l pat esc|p0 neg v lo hi|p0 o bs e];
    cbn [substituted]; (destruct (_ =? _)%nat; [done|]); (destruct (negb _); [done|]); try done;
    cbn [filterChildren] in Hsub; cbn [erase regular] in Hn; rewrite ?andb_true_iff in Hn; destruct_and?.
  - pose proof (forallb_map_fresh (substituted target replacement) args (S p) Hsub ltac:(done)) as Hf.
    pose proof (length_map_fresh (substituted target replacement) args (S p)) as Hl.
    destruct (map_fresh _ args (S p)) as [args' q]. cbn [fst erase regular] in *. rewrite Hf, andb_true_r.
    rewrite length_map in *. by rewrite Hl.
  - do 2 sub_step Hsub. cbn [fst erase regular]. rewrite ?andb_true_iff. done.
  - do 1 sub_step Hsub. cbn [fst erase regular]. rewrite ?andb_true_iff. done.
  - do 1 sub_step Hsub. cbn [fst erase regular]. done.
  - do 2 sub_step Hsub. cbn [fst erase regular]. rewrite ?andb_true_iff. done.
  - sub_step Hsub.
    match goal with |- context [map_fresh ?g items ?q] => pose proof (forallb_map_fresh g items q ltac:(intros; apply Hsub; [by right|done]) ltac:(done)) as Hf;
      destruct (map_fresh g items q) as [items' q'] end.
    cbn [fst erase regular] in *. rewrite ?andb_true_iff. done.
  - simpl in Hsub. do 2 sub_step Hsub.
    match goal with |- context [option_fresh ?g esc ?q] => pose proof (option_fresh_regular g esc q ltac:(intros; apply Hsub; [by right; right|done]) ltac:(done)) as Hf;
      destruct (option_fresh g esc q) as [esc' q'] end.
    cbn [fst erase regular] in *. rewrite ?andb_true_iff. done.
  - do 3 sub_step Hsub. cbn [fst erase regular]. rewrite ?andb_true_iff. done.
  - pose proof (option_fresh_regular (substituted target replacement) o (S p) ltac:(intros; apply Hsub; [rewrite !elem_of_app; by left|done]) ltac:(done)) as Ho.
    destruct (option_fresh _ o (S p)) as [o' q1].
    pose proof (branches_fresh_regular (substituted target replacement) bs q1 ltac:(intros; apply Hsub; [rewrite !elem_of_app; by right; left|done]) ltac:(done)) as Hb.
    destruct (map_fresh _ bs q1) as [bs' q2].
    pose proof (option_fresh_regular (substituted target replacement) e q2 ltac:(intros; apply Hsub; [rewrite !elem_of_app; by right; right|done]) ltac:(done)) as He.
    destruct (option_fresh _ e q2) as [e' q3].
    cbn [fst erase regular] in *. rewrite ?andb_true_iff. done.
Qed.

(** ** What is lifted *)

Lemma opt_map_list {A B} (f : A → option B) o : opt_map f o = map f (FilterTree.option_list o).
Proof. by destruct o. Qed.
Lemma first_some_elem {A} (l : list (option A)) x : first_some l = Some x → Some x ∈ l.
Proof. induction l as [|[y|] l IH]; simpl; [done|intros [= ->]; by left|]. intros H. right. auto. Qed.
(** [mixedConditional] searches the children in their order. *)
Lemma mixedConditional_children n :
  mixedConditional r n = if mixes_kinds r n then Some n else first_some (map (mixedConditional r) (filterChildren n)).
Proof.
  destruct n as [| | |p0 f args|p0 op l r'|p0 op o|p0 i|p0 neg l r'|p0 neg l items|p0 neg l pat esc|p0 neg v lo hi|p0 o bs e]; try done.
  - cbn [mixedConditional]. destruct (mixes_kinds r _); [done|]. rewrite opt_map_list. by cbn [filterChildren app map].
  - cbn [mixedConditional]. destruct (mixes_kinds r _); [done|]. rewrite !opt_map_list. cbn [filterChildren]. rewrite !map_app. f_equal.
    f_equal. f_equal. induction bs as [|b bs IH]; [done|]. simpl in *. by rewrite IH.
Qed.
Lemma mixedConditional_ok n target :
  mixedConditional r n = Some target → well_formed n → well_formed target ∧ mixes_kinds r target = true.
Proof.
  induction n as [n IH] using tree_ind'. rewrite mixedConditional_children. destruct (mixes_kinds r n) eqn:E; [by intros [= <-]|].
  intros H Hn. apply first_some_elem in H as (m & Hm & Hin)%list_elem_of_fmap. eapply IH; [exact Hin|done|]. by eapply well_formed_child.
Qed.

Definition choice_ok (c : choice) : Prop := option_regular c.1 ∧ well_formed c.2.
Lemma coalesce_choices_ok args p : Forall well_formed args → Forall choice_ok (coalesce_choices args p).1.
Proof.
  intros H. revert p. induction H as [|a args Ha Hargs IH]; intros p; [constructor|]. cbn [coalesce_choices].
  destruct args as [|a' args]; [by repeat constructor|]. specialize (IH (S (S p))).
  destruct (coalesce_choices (a' :: args) (S (S p))) as [choices q]. constructor; [|exact IH]. split; [|done].
  intros m [= <-]. unfold RenderMethods.well_formed in *. cbn. by rewrite Ha.
Qed.
Lemma case_choices_ok o bs p :
  option_regular o → Forall (λ b, well_formed b.1 ∧ well_formed b.2) bs → Forall choice_ok (case_choices o bs p).1.
Proof.
  intros Ho H. revert p. induction H as [|[w t] bs [Hw Ht] Hbs IH]; intros p; [constructor|]. cbn [case_choices].
  destruct o as [o|].
  - specialize (IH (S p)). destruct (case_choices (Some o) bs (S p)) as [choices q]. constructor; [|exact IH]. split; [|done].
    intros m [= <-]. specialize (Ho o eq_refl). unfold RenderMethods.well_formed in *. cbn in *. by rewrite Ho, Hw.
  - specialize (IH p). destruct (case_choices None bs p) as [choices q]. constructor; [|exact IH]. split; [|done]. by intros m [= <-].
Qed.
Lemma chosenBranches_ok target p :
  well_formed target → mixes_kinds r target = true →
  Forall choice_ok (chosenBranches target p).1 ∧ (0 < length (chosenBranches target p).1)%nat.
Proof.
  intros Ht Hm. destruct target as [| | |p0 name args|p0 op l r'|p0 op o|p0 i|p0 neg l r'|p0 neg l items|p0 neg l pat esc|p0 neg v lo hi|p0 o bs e]; try done.
  - pose proof Ht as [_ Hargs]%well_formed_args. unfold mixes_kinds in Hm. cbn [results_of] in Hm. unfold conditional_args in Hm. cbn [chosenBranches].
    destruct (String.eqb name "iif").
    + destruct (Nat.eqb_spec (length args) 3) as [E|]; [|done]. destruct args as [|c [|t [|e [|]]]]; try done.
      decompose_Forall_hyps. split; [|simpl; lia]. repeat constructor; try done. by intros m [= <-].
    + destruct (String.eqb name "coalesce" || String.eqb name "ifnull"); [|done].
      destruct (Nat.ltb_spec 0 (length args)) as [E|]; [|done]. split; [by apply coalesce_choices_ok|].
      destruct args as [|a [|a' args]]; [simpl in E; lia|simpl; lia|]. cbn [coalesce_choices].
      destruct (match args with [] => _ | _ :: _ => _ end). simpl. lia.
  - cbn [chosenBranches].
    assert (∀ m, m ∈ filterChildren (NCase p0 o bs e) → well_formed m) as Hch by (intros; by eapply well_formed_child).
    cbn [filterChildren] in Hch.
    assert (Forall choice_ok (case_choices o bs p).1) as Hc.
    { apply case_choices_ok; [intros m ->; apply Hch; by left|]. apply Forall_forall. intros b Hb.
      split; apply Hch; rewrite !elem_of_app; right; left; apply list_elem_of_join;
        exists [b.1; b.2]; (split; [|by apply (list_elem_of_fmap_2 (λ b, [b.1; b.2]))]); [by left|right; by left]. }
    destruct (case_choices o bs p) as [choices q]. cbn [fst] in Hc.
    destruct e as [e|]; cbn [fst]; (split; [apply Forall_app; split; [done|]|rewrite length_app; simpl; lia]);
      repeat constructor; try done. simpl. apply Hch. rewrite !elem_of_app. right. right. by left.
Qed.

(** ** Lifting *)

Definition renders_from (L : nat) (m : rendering sql) : Prop :=
  ∀ s, inv s → (L ≤ s_lifted s)%nat → wp m s (rendered s).

Lemma wp_lift_choices L body root target choices s (Q : sql → rstate → Prop) :
  (∀ n, well_formed n → renders_from L (body n)) → well_formed root → Forall choice_ok choices →
  inv s → (L ≤ s_lifted s)%nat →
  (∀ out s', inv s' → grows s s' → flows out → within (bounds s') out → covers r s s' out → Q out s') →
  wp (lift_choices ident r body root target choices) s Q.
Proof.
  intros Hbody Hroot Hch. revert s Q. induction Hch as [|[when result] choices [Hwhen Hresult] Hch IH]; intros s Q Hs HL HQ; cbn [lift_choices].
  { apply wp_answer, HQ; [done|apply grows_refl|apply flows_nil|constructor|apply covers_refl]. }
  cbn [fst snd] in Hwhen, Hresult. apply wp_seq, wp_change, wp_seq. unfold fresh_with, wp at 1. cbn [s_fresh with_stripped].
  pose proof (substituted_well_formed (address target) result root (s_fresh s) Hresult Hroot) as Hsp.
  destruct (substituted (address target) result root (s_fresh s)) as [specialised q]. cbn [fst] in Hsp.
  apply wp_seq. eapply wp_weaken.
  { apply (Hbody specialised Hsp); [by apply (inv_same r C s)|exact HL]. }
  intros out s1 (I1 & G1 & [C1 W1] & V1). change (grows s s1) in G1. change (covers r s s1 out) in V1.
  apply wp_seq. destruct when as [w|].
  - apply wp_seq. eapply wp_renders; [by apply truth_of_renders, Hwhen|done|]. intros condition s2 I2 G2 C2 W2 V2.
    apply wp_answer. apply wp_seq, IH; [done|destruct G1, G2; lia|]. intros rest s3 I3 G3 F3 W3 V3. apply wp_answer, HQ.
    + done.
    + grow.
    + closing.
    + inside.
    + covering.
  - apply wp_answer. apply wp_seq, IH; [done|destruct G1; lia|]. intros rest s3 I3 G3 F3 W3 V3. apply wp_answer, HQ.
    + done.
    + grow.
    + closing.
    + inside.
    + covering.
Qed.

Lemma liftedTruth_renders fuel root :
  well_formed root → ∀ L, (lift_fuel ≤ fuel + L)%nat → (0 < fuel)%nat → renders_from L (liftedTruth ident r fuel root).
Proof.
  revert root. induction fuel as [|fuel IH]; intros root Hroot L HL Hf s Hs Hls; [lia|]. cbn [liftedTruth].
  apply wp_seq. unfold observe, wp at 1. destruct (r_ctx r (s_seen s)); [done|].
  assert (inv (see s)) as Hs' by by eapply inv_same.
  destruct (mixedConditional r root) as [target|] eqn:E.
  2: { eapply wp_weaken; [by apply truth_of_renders|]. intros out s' (? & ? & ? & ?). by split_and!. }
  apply mixedConditional_ok in E as [Ht Hm]; [|done].
  apply wp_seq. unfold fresh_with, wp at 1.
  destruct (chosenBranches_ok target (s_fresh (see s)) Ht Hm) as [Hch Hlen].
  destruct (chosenBranches target (s_fresh (see s))) as [choices q]. cbn [fst] in Hch, Hlen.
  apply wp_seq, wp_reading, wp_seq, wp_change. cbn [s_lifted with_fresh see].
  destruct (Nat.ltb_spec maxLiftedBranches (s_lifted s + length choices)) as [|Hle]; [apply wp_refused|].
  apply wp_seq. eapply (wp_lift_choices (s_lifted s + length choices)); [|done|done|by apply (inv_same r C s)|done|].
  - intros n Hn. apply IH; [done|unfold lift_fuel in *; lia|unfold lift_fuel, maxLiftedBranches in *; lia].
  - intros out s1 I1 G1 F1 W1 V1. apply wp_answer.
    assert (grows s s1) as G by (destruct G1 as [G1 G1']; split; [exact G1|simpl in G1'; lia]).
    split_and!; [done|done|split; [closing|inside]|exact (λ k Hk, uses_r _ _ _ (uses_l _ _ _ (V1 k Hk)))].
Qed.
End Total.
