(* ===== verification/RenderReader.v ===== *)
(** * Reading the rendered text back

    A reader of SQL text in the manner of PostgreSQL's lexer: it finds the
    dollar-quoted texts and the placeholders of a statement.  Of a text that
    [closes] it finds exactly the pieces that were put into it.  And what
    [dollarQuote] promises: the tag it finds never occurs in the text, and the
    text is read back unless it ends in the tag less its last dollar sign. *)
From Stdlib Require Import ZArith Lia Ascii String.
From stdpp Require Import base gmap strings list numbers pretty.
From S2P Require Import Prelude GoStrings AuthIdentity SchemaIdent SchemaNames GoNumbers GoFloats RenderSql FilterTime FilterTree RenderQuotes RenderNumbers.
Local Open Scope Z_scope.

(** ** The reader *)

Inductive sql_token := TText (text : string) | TParam (digits : string).

(** After the quote that ends a name, another quote continues it. *)
Inductive tstate := TOut (e : edge) | TSingle | TDouble | TName.

Fixpoint take_word (s : string) : string * string :=
  match s with
  | String c s' => if word_byte c then let '(w, rest) := take_word s' in (String c w, rest) else ("", s)
  | EmptyString => ("", "")
  end.
Fixpoint find_tag (tag s : string) : option (string * string) :=
  if has_prefix s tag then Some ("", str_drop (String.length tag) s)
  else match s with
       | String c s' => match find_tag tag s' with Some (text, rest) => Some (String c text, rest) | None => None end
       | EmptyString => None
       end.

Inductive dollar := DParam (digits rest : string) | DText (text rest : string) | DNone.
(** What follows a dollar sign outside quotes: digits, or a tag, the text up
    to its next occurrence, and the rest. *)
Definition after_dollar (s : string) : dollar :=
  match take_digits s with
  | (String _ _ as ds, rest) => DParam ds rest
  | _ =>
      match take_word s with
      | (word, String c rest) =>
          if Ascii.eqb c "$" then
            match find_tag ("$" +:+ word +:+ "$") rest with Some (text, rest) => DText text rest | None => DNone end
          else DNone
      | _ => DNone
      end
  end.

Definition edge_of (t : tstate) : edge := match t with TOut e => e | _ => EWord end.
Definition of_qstate (q : qstate) : tstate := match q with QOut e => TOut e | QSingle => TSingle | QDouble => TDouble end.

Fixpoint read_sql (fuel : nat) (t : tstate) (s : string) : option (list sql_token) :=
  match fuel, s with
  | _, EmptyString => match t with TOut (EPlain | EWord | EBind) | TName => Some [] | _ => None end
  | O, _ => None
  | S fuel, String c s =>
      match t with
      | TSingle => read_sql fuel (if Ascii.eqb c "'" then TOut EPlain else TSingle) s
      | TDouble => read_sql fuel (if Ascii.eqb c "034" then TName else TDouble) s
      | _ =>
          match t, Ascii.eqb c "034" with
          | TName, true => read_sql fuel TDouble s
          | _, _ =>
              if Ascii.eqb c "$" && negb (joins (edge_of t)) then
                match after_dollar s with
                | DParam ds rest => cons (TParam ds) <$> read_sql fuel (TOut EBind) rest
                | DText text rest => cons (TText text) <$> read_sql fuel (TOut EPlain) rest
                | DNone => None
                end
              else match qstep (QOut (edge_of t)) c with Some q => read_sql fuel (of_qstate q) s | None => None end
          end
      end
  end.
Definition sql_tokens (s : string) : option (list sql_token) := read_sql (String.length s) (TOut EPlain) s.

(** What a piece is to the reader. *)
Definition piece_token (p : piece) : option sql_token :=
  match p with Quoted text => Some (TText text) | Bind n => Some (TParam (pretty n)) | _ => None end.
Definition piece_tokens (q : sql) : list sql_token := omap piece_token q.

(** ** Dollar quoting *)

Definition is_tag (tag : string) : Prop := ∃ ds, all_bytes digit_byte ds = true ∧ tag = "$dolmen" +:+ ds +:+ "$".
Lemma dollar_tag_from_is_tag fuel i tag text : is_tag tag → is_tag (dollar_tag_from fuel i tag text).
Proof.
  revert i tag. induction fuel as [|fuel IH]; intros i tag Ht; [done|]. cbn [dollar_tag_from].
  destruct (contains text tag); [|done]. apply IH. exists (pretty i). split; [|done]. apply pretty_N_digits.
Qed.
Lemma dollar_tag_is_tag text : is_tag (dollar_tag text).
Proof. apply dollar_tag_from_is_tag. by exists "". Qed.

Lemma contains_spec s sub : contains s sub = true ↔ ∃ a b, s = a +:+ sub +:+ b.
Proof.
  split.
  - induction s as [|c s IH]; simpl; intros H; apply orb_true_iff in H as [H|H]; try done.
    + apply has_prefix_spec in H as (b & ->). by exists "", b.
    + apply has_prefix_spec in H as (b & ->). by exists "", b.
    + destruct (IH H) as (a & b & ->). by exists (String c a), b.
  - intros (a & b & ->). induction a as [|c a IH]; simpl.
    + assert (has_prefix (sub +:+ b) sub = true) as Hp by (apply has_prefix_spec; eauto).
      destruct (sub +:+ b); simpl; by rewrite Hp.
    + by rewrite IH, orb_true_r.
Qed.

Lemma app_split (a b c d : string) :
  a +:+ b = c +:+ d → (∃ u, a = c +:+ u ∧ d = u +:+ b) ∨ (∃ u, c = a +:+ u ∧ b = u +:+ d).
Proof.
  revert c. induction a as [|x a IH]; intros [|y c]; simpl; intros H.
  - left. by exists "".
  - right. by exists (String y c).
  - left. by exists (String x a).
  - injection H as -> H. destruct (IH c H) as [(u & -> & ->)|(u & -> & ->)]; [left|right]; by exists u.
Qed.
Lemma app_inv_str (a b c : string) : a +:+ b = a +:+ c → b = c.
Proof. induction a as [|x a IH]; simpl; [done|]. intros [= H]. by apply IH. Qed.

Lemma find_tag_ok tag s text rest : find_tag tag s = Some (text, rest) → s = text +:+ tag +:+ rest.
Proof.
  revert text rest. induction s as [|c s IH]; intros text rest; cbn [find_tag].
  - destruct (has_prefix "" tag) eqn:E; [|done]. apply has_prefix_spec in E as (r & E). intros [= <- <-].
    destruct tag; [|done]. done.
  - destruct (has_prefix (String c s) tag) eqn:E.
    + apply has_prefix_spec in E as (r & E). intros [= <- <-]. rewrite E. by rewrite str_drop_app.
    + destruct (find_tag tag s) as [[text' rest']|]; [|done]. intros [= <- <-]. by rewrite (IH _ _ eq_refl).
Qed.
Lemma find_tag_first tag a b : ∃ text rest, find_tag tag (a +:+ tag +:+ b) = Some (text, rest) ∧ (String.length text ≤ String.length a)%nat.
Proof.
  induction a as [|c a (text & rest & IH & Hl)].
  - assert (has_prefix (tag +:+ b) tag = true) as Hp by (apply has_prefix_spec; eauto). simpl.
    exists "", (str_drop (String.length tag) (tag +:+ b)). split; [|simpl; lia]. destruct (tag +:+ b); cbn [find_tag]; by rewrite Hp.
  - cbn [String.append find_tag]. destruct (has_prefix _ _); [eexists _, _; split; [done|simpl; lia]|].
    rewrite IH. eexists _, _. split; [done|]. simpl. lia.
Qed.

(** A tag is the digits between its dollar signs. *)
Lemma digits_dollar ds1 ds2 r1 r2 :
  all_bytes digit_byte ds1 = true → all_bytes digit_byte ds2 = true →
  ds1 +:+ String "$" r1 = ds2 +:+ String "$" r2 → ds1 = ds2.
Proof.
  revert ds2. induction ds1 as [|c ds1 IH]; intros [|c' ds2]; simpl; intros H1 H2 E; try done.
  - injection E as <- _. discriminate H2.
  - injection E as -> _. discriminate H1.
  - injection E as -> E. apply andb_true_iff in H1 as [_ H1], H2 as [_ H2]. f_equal. by apply IH.
Qed.
Lemma tag_prefix tag1 tag2 r1 r2 : is_tag tag1 → is_tag tag2 → tag1 +:+ r1 = tag2 +:+ r2 → tag1 = tag2.
Proof.
  intros (ds1 & H1 & ->) (ds2 & H2 & ->). rewrite !app_assoc_str. intros E.
  apply app_inv_str in E. by rewrite (digits_dollar ds1 ds2 _ _ H1 H2 E).
Qed.

(** The candidates of the loop. *)
Definition candidate (k : nat) : string := match k with O => "$dolmen$" | S i => tag_of i end.
Lemma candidate_is_tag k : is_tag (candidate k).
Proof. destruct k as [|i]; [by exists ""|]. exists (pretty i). split; [apply pretty_N_digits|done]. Qed.
Lemma pretty_nat_ne (i : nat) : pretty i ≠ "".
Proof. apply (pretty_N_nonempty (N.of_nat i)). Qed.
Lemma tag_candidate_inj j k : candidate j = candidate k → j = k.
Proof.
  assert (∀ a b : string, "$dolmen" +:+ a +:+ "$" = "$dolmen" +:+ b +:+ "$" → all_bytes digit_byte a = true → all_bytes digit_byte b = true → a = b) as Hinj.
  { intros a b E Ha Hb. apply app_inv_str in E. by apply (digits_dollar a b "" ""). }
  destruct j as [|j], k as [|k]; simpl; intros E; [done| | |].
  - apply (Hinj "" (pretty k)) in E; [|done|apply pretty_N_digits]. by destruct (pretty_nat_ne k).
  - apply (Hinj (pretty j) "") in E; [|apply pretty_N_digits|done]. by destruct (pretty_nat_ne j).
  - apply (Hinj (pretty j) (pretty k)) in E; [|apply pretty_N_digits..]. f_equal. by apply (inj pretty).
Qed.

Lemma dollar_tag_exhausted fuel i text :
  contains text (dollar_tag_from fuel i (candidate i) text) = true →
  ∀ k, (i ≤ k ≤ i + fuel)%nat → contains text (candidate k) = true.
Proof.
  revert i. induction fuel as [|fuel IH]; intros i; cbn [dollar_tag_from].
  - intros H k Hk. by replace k with i by lia.
  - destruct (contains text (candidate i)) eqn:E; [|congruence]. intros H k Hk.
    destruct (decide (k = i)) as [->|]; [done|]. apply (IH (S i)); [exact H|lia].
Qed.
Definition position (text tag : string) : nat := match find_tag tag text with Some (a, _) => String.length a | None => O end.
Lemma position_ok text tag : contains text tag = true → is_tag tag →
  ∃ a b, text = a +:+ tag +:+ b ∧ position text tag = String.length a ∧ (position text tag < String.length text)%nat.
Proof.
  intros (a & b & E)%contains_spec (ds & _ & Ht). destruct (find_tag_first tag a b) as (x & rest & Hf & _). rewrite <-E in Hf.
  exists x, rest. unfold position. rewrite Hf. apply find_tag_ok in Hf. split_and!; [done..|].
  rewrite Hf, string_length_app, Ht. simpl. lia.
Qed.
(** The tag the loop ends with is not in the text. *)
Lemma dollar_tag_fresh text : contains text (dollar_tag text) = false.
Proof.
  destruct (contains text (dollar_tag text)) eqn:E; [exfalso|done].
  pose proof (dollar_tag_exhausted _ 0 text E) as Hall. clear E.
  set (n := String.length text) in *.
  assert (NoDup (map (λ k, position text (candidate k)) (seq 0 (S n)))) as Hnd.
  { apply (NoDup_fmap_2_strong _ (seq 0 (S n))); [|apply NoDup_seq]. intros j k Hj Hk Hp. rewrite elem_of_seq in Hj, Hk.
    destruct (position_ok text (candidate j)) as (a & b & Ea & Pa & _); [apply Hall; lia|apply candidate_is_tag|].
    destruct (position_ok text (candidate k)) as (a' & b' & Ea' & Pa' & _); [apply Hall; lia|apply candidate_is_tag|].
    apply tag_candidate_inj. rewrite Ea in Ea' at 1. assert (a = a' ∧ candidate j +:+ b = candidate k +:+ b') as [_ Eb].
    { assert (String.length a = String.length a') as Hl by lia. clear -Ea' Hl. revert a' Ea' Hl.
      induction a as [|c a IH]; intros [|c' a']; try done; simpl; intros E H. injection E as -> E.
      destruct (IH a' E) as [-> ?]; [lia|done]. }
    eapply tag_prefix; [apply candidate_is_tag..|exact Eb]. }
  assert (map (λ k, position text (candidate k)) (seq 0 (S n)) ⊆+ seq 0 n) as Hsub.
  { apply NoDup_submseteq; [done|]. intros p (k & -> & Hk%elem_of_seq)%list_elem_of_fmap. apply elem_of_seq.
    destruct (position_ok text (candidate k)) as (a & b & _ & _ & Hlt); [apply Hall; lia|apply candidate_is_tag|]. lia. }
  apply submseteq_length in Hsub. rewrite length_map, !length_seq in Hsub. lia.
Qed.

(** The tag less its last dollar sign. *)
Definition bare (tag : string) : string := str_take (String.length tag - 1) tag.
Definition reads_back (text : string) : bool := negb (has_suffix text (bare (dollar_tag text))).

Lemma bare_tag ds : bare ("$dolmen" +:+ ds +:+ "$") = "$dolmen" +:+ ds.
Proof.
  unfold bare. rewrite !string_length_app. replace (_ - 1)%nat with (String.length ("$dolmen" +:+ ds)) by (rewrite string_length_app; simpl; lia).
  rewrite <-app_assoc_str. apply str_take_app.
Qed.
Lemma has_suffix_spec s p : has_suffix s p = true ↔ ∃ a, s = a +:+ p.
Proof.
  unfold has_suffix. rewrite andb_true_iff, Nat.leb_le, String.eqb_eq. split.
  - intros [_ E]. exists (str_take (String.length s - String.length p) s). rewrite <-E at 2. by rewrite str_take_drop.
  - intros (a & ->). rewrite string_length_app. split; [lia|].
    replace (_ + _ - _)%nat with (String.length a) by lia. apply str_drop_app.
Qed.
Lemma no_dollar ds t u :
  all_bytes digit_byte ds = true → "dolmen" +:+ ds +:+ "$" = t +:+ String "$" u → t = "dolmen" +:+ ds ∧ u = "".
Proof.
  intros Hds. assert (∀ w, all_bytes (λ c, negb (Ascii.eqb c "$")) w = true → ∀ t, w +:+ "$" = t +:+ String "$" u → t = w ∧ u = "") as H.
  { induction w as [|c w IH]; intros Hw [|c' t']; simpl; intros E.
    - by injection E as <-.
    - injection E as _ E. by destruct t'.
    - injection E as -> _. discriminate Hw.
    - injection E as <- E. simpl in Hw. apply andb_true_iff in Hw as [_ Hw]. by destruct (IH Hw t' E) as [-> ->]. }
  intros E. apply (H ("dolmen" +:+ ds)); [|by rewrite app_assoc_str]. rewrite all_bytes_app. apply andb_true_iff. split; [done|].
  revert Hds. apply all_bytes_mono. intros c Hc. destruct (Ascii.eqb_spec c "$") as [->|]; [discriminate Hc|done].
Qed.
(** An occurrence of the tag that begins in the text and is not in it. *)
Lemma overlap tag t rest :
  is_tag tag → t ≠ "" → has_prefix (t +:+ tag +:+ rest) tag = true → contains t tag = true ∨ t = bare tag.
Proof.
  intros (ds & Hds & ->) Hne (r & E)%has_prefix_spec. rewrite bare_tag. apply app_split in E as [(u & -> & _)|(u & E & Er)].
  - left. apply contains_spec. by exists "", u.
  - destruct t as [|c t]; [done|]. injection E as <- E. destruct u as [|c u].
    + left. rewrite app_nil_r_str in E. apply contains_spec. exists "", "". rewrite app_nil_r_str. simpl. by f_equal.
    + right. injection Er as <- _. apply no_dollar in E as [-> _]; [|done]. done.
Qed.
Lemma find_tag_text tag text rest :
  is_tag tag → contains text tag = false → has_suffix text (bare tag) = false →
  find_tag tag (text +:+ tag +:+ rest) = Some (text, rest).
Proof.
  intros Htag. induction text as [|c text IH]; intros Hc Hs.
  - destruct (find_tag_first tag "" rest) as (x & y & Hf & Hl). rewrite Hf. destruct x; [|simpl in Hl; lia].
    apply find_tag_ok in Hf. simpl in Hf. apply app_inv_str in Hf as ->. done.
  - assert (contains text tag = false) as Hc'. { cbn [contains] in Hc. by apply orb_false_iff in Hc as [_ ?]. }
    assert (has_suffix text (bare tag) = false) as Hs'.
    { destruct (has_suffix text (bare tag)) eqn:E; [|done]. apply has_suffix_spec in E as (a & ->).
      assert (has_suffix (String c (a +:+ bare tag)) (bare tag) = true) as E; [|congruence].
      apply has_suffix_spec. by exists (String c a). }
    cbn [String.append find_tag]. change (String c (text +:+ tag +:+ rest)) with (String c text +:+ tag +:+ rest).
    destruct (has_prefix _ tag) eqn:Hp; [|by rewrite IH].
    apply overlap in Hp as [Hp|Hp]; [congruence| |done|done]. exfalso.
    assert (has_suffix (String c text) (bare tag) = true) as E; [|congruence]. apply has_suffix_spec. exists "". exact Hp.
Qed.
(** Dollar quoting gives the text back, unless it ends in the tag less its
    last dollar sign: then the quote is closed one byte early. *)
Lemma dollarQuote_reads text rest :
  find_tag (dollar_tag text) (text +:+ dollar_tag text +:+ rest) = Some (text, rest) ↔ reads_back text = true.
Proof.
  unfold reads_back. rewrite negb_true_iff. pose proof (dollar_tag_is_tag text) as Htag. split.
  - intros H. destruct (has_suffix _ _) eqn:E; [exfalso|done]. apply has_suffix_spec in E as (a & E).
    destruct Htag as (ds & Hds & Htag). rewrite Htag, bare_tag in E.
    destruct (find_tag_first (dollar_tag text) a (str_drop 1 (dollar_tag text) +:+ rest)) as (x & y & Hf & Hl).
    assert (text +:+ dollar_tag text +:+ rest = a +:+ dollar_tag text +:+ str_drop 1 (dollar_tag text) +:+ rest) as Eq.
    { rewrite E at 1. rewrite Htag. simpl. rewrite ?app_assoc_str. simpl. by rewrite ?app_assoc_str. }
    rewrite Eq, Hf in H. injection H as -> _. rewrite E in Hl at 1. rewrite string_length_app in Hl. simpl in Hl. lia.
  - intros H. by apply find_tag_text; [|apply dollar_tag_fresh|].
Qed.

(** ** The reader finds the pieces *)

(** Where the two readers are: a closed name may only be followed by what may
    follow a word. *)
Definition same_place (q : qstate) (t : tstate) : Prop :=
  match q, t with
  | QOut EWord, TName => True
  | QOut e, TOut e' => e = e'
  | QSingle, TSingle | QDouble, TDouble => True
  | _, _ => False
  end.
Lemma same_of_qstate q : same_place q (of_qstate q).
Proof. by destruct q as [[]| |]. Qed.

Lemma read_raw fuel s rest q q' t :
  scan_raw q s = Some q' → same_place q t →
  ∃ t', same_place q' t' ∧ read_sql (String.length s + fuel) t (s +:+ rest) = read_sql fuel t' rest.
Proof.
  revert q t. induction s as [|c s IH]; intros q t; cbn [scan_raw]; [intros [= ->]; eauto|].
  destruct (qstep q c) as [q1|] eqn:E; [|done]. intros Hrun Ht. cbn [String.length String.append Nat.add read_sql].
  destruct q as [e| |].
  - assert (Ascii.eqb c "$" = false) as Hd by (destruct (Ascii.eqb_spec c "$") as [->|]; [discriminate E|done]).
    assert (edge_of t = e) as He by (destruct e, t; simpl in *; congruence || done).
    assert (t = TName → Ascii.eqb c "034" = false) as Hn.
    { intros ->. destruct e; try done. destruct (Ascii.eqb_spec c "034") as [->|]; [done|done]. }
    destruct (IH q1 (of_qstate q1) Hrun (same_of_qstate q1)) as (t' & Ht' & Hr). exists t'. split; [done|]. rewrite <-Hr. clear Hr.
    destruct t as [e'| | |]; try done.
    + simpl in He. subst e'. cbn [edge_of]. rewrite Hd. cbn [andb]. by rewrite E.
    + by destruct e.
    + by destruct e.
    + rewrite (Hn eq_refl), Hd. cbn [andb]. rewrite He. by rewrite E.
  - destruct t as [[]| | |]; try done. cbn [qstep] in E. injection E as <-. apply (IH _ _ Hrun). by destruct (Ascii.eqb c "'").
  - destruct t as [[]| | |]; try done. cbn [qstep] in E. injection E as <-. apply (IH _ _ Hrun). by destruct (Ascii.eqb c "034").
Qed.

(** [pgx.Identifier.Sanitize] puts every part between quotes, doubles the
    quotes of the part and joins the parts with dots. *)
Fixpoint doubled (s : string) : bool :=
  match s with
  | String c s =>
      if Ascii.eqb c "034" then match s with String c' s => Ascii.eqb c' "034" && doubled s | EmptyString => false end
      else doubled s
  | EmptyString => true
  end.
Fixpoint join_names (bodies : list string) : string :=
  match bodies with
  | [] => ""
  | [b] => dq +:+ b +:+ dq
  | b :: bodies => dq +:+ b +:+ dq +:+ "." +:+ join_names bodies
  end.
Definition sanitized (s : string) : Prop := ∃ bodies, bodies ≠ [] ∧ Forall (λ b, doubled b = true) bodies ∧ s = join_names bodies.

Fixpoint double_quotes (s : string) : string :=
  match s with
  | EmptyString => ""
  | String c s =>
      if Ascii.eqb c "000" then double_quotes s
      else if Ascii.eqb c "034" then String c (String c (double_quotes s)) else String c (double_quotes s)
  end.
(** The quoting the driver documents, NUL bytes left out. *)
Definition sanitize (parts : list string) : string := join_names (map double_quotes parts).
Lemma double_quotes_doubled s : doubled (double_quotes s) = true.
Proof.
  induction s as [|c s IH]; [done|]. cbn [double_quotes]. destruct (Ascii.eqb c "000"); [done|].
  destruct (Ascii.eqb c "034") eqn:E; cbn [doubled]; by rewrite E.
Qed.
Lemma sanitize_sanitized parts : parts ≠ [] → sanitized (sanitize parts).
Proof.
  intros H. exists (map double_quotes parts). split_and!; [by destruct parts|apply Forall_map, Forall_true; apply double_quotes_doubled|done].
Qed.

Lemma read_doubled fuel b rest :
  doubled b = true → read_sql (String.length b + S fuel) TDouble (b +:+ dq +:+ rest) = read_sql fuel TName rest.
Proof.
  remember (String.length b) as n eqn:En. revert b En. induction (lt_wf n) as [n _ IH]. intros b En Hb. subst n.
  destruct b as [|c b]; [done|]. cbn [doubled] in Hb. cbn [String.length Nat.add String.append read_sql].
  destruct (Ascii.eqb c "034").
  - destruct b as [|c' b]; [done|]. apply andb_true_iff in Hb as [Hc Hb]. cbn [String.length Nat.add String.append read_sql].
    rewrite Hc. by apply (IH (String.length b)); [simpl; lia|..].
  - by apply (IH (String.length b)); [simpl; lia|..].
Qed.
Lemma read_name fuel t s rest :
  sanitized s → joins (edge_of t) = false → (∃ e, t = TOut e) →
  read_sql (String.length s + fuel) t (s +:+ rest) = read_sql fuel TName rest.
Proof.
  intros (bodies & Hne & Hall & ->) Ht (e & ->). revert e Ht. induction Hall as [|b bodies Hb Hall IH]; intros e He; [done|].
  simpl in He. destruct bodies as [|b' bodies].
  - cbn [join_names]. unfold dq. cbn [String.append String.length Nat.add read_sql edge_of qstep]. simpl. rewrite He. cbn [of_qstate].
    rewrite string_length_app, app_assoc_str. simpl. rewrite <-Nat.add_assoc. simpl. by apply read_doubled.
  - change (join_names (b :: b' :: bodies)) with (dq +:+ b +:+ dq +:+ "." +:+ join_names (b' :: bodies)).
    specialize (IH ltac:(done)). revert IH. generalize (join_names (b' :: bodies)). intros J IH.
    unfold dq. cbn [String.append String.length Nat.add read_sql edge_of qstep]. simpl. rewrite He. cbn [of_qstate].
    rewrite !string_length_app, !app_assoc_str. cbn [String.length].
    replace (String.length b + S (S (String.length J)) + fuel)%nat
      with (String.length b + S (S (String.length J + fuel)))%nat by lia.
    etransitivity; [apply (read_doubled _ b ("." +:+ J +:+ rest) Hb)|]. by apply (IH EPlain).
Qed.

(** *** Dollar signs *)

Lemma take_digits_all ds rest :
  all_bytes digit_byte ds = true → (∀ c s, rest = String c s → digit_byte c = false) → take_digits (ds +:+ rest) = (ds, rest).
Proof.
  intros Hds Hr. induction ds as [|c ds IH]; simpl.
  - destruct rest as [|c s]; [done|]. simpl. by rewrite (Hr c s eq_refl).
  - simpl in Hds. apply andb_true_iff in Hds as [-> Hds]. by rewrite IH.
Qed.
Lemma take_word_all w rest :
  all_bytes word_byte w = true → take_word (w +:+ String "$" rest) = (w, String "$" rest).
Proof.
  induction w as [|c w IH]; simpl; [done|]. intros [-> Hw]%andb_true_iff. by rewrite IH.
Qed.
Lemma digit_word c : digit_byte c = true → word_byte c = true.
Proof. unfold digit_byte, byte_in, word_byte. by intros ->. Qed.

Lemma read_quoted fuel e text rest :
  joins e = false → reads_back text = true →
  read_sql (S (String.length rest + fuel)) (TOut e) (dollarQuote text +:+ rest)
  = cons (TText text) <$> read_sql (String.length rest + fuel) (TOut EPlain) rest.
Proof.
  intros He Hr. pose proof (proj2 (dollarQuote_reads text rest) Hr) as Hf. unfold dollarQuote. rewrite !app_assoc_str.
  destruct (dollar_tag_is_tag text) as (ds & Hds & Htag). rewrite Htag in *. clear Htag.
  change (("$dolmen" +:+ ds +:+ "$") +:+ text +:+ ("$dolmen" +:+ ds +:+ "$") +:+ rest)
    with (String "$" (("dolmen" +:+ ds +:+ "$") +:+ text +:+ ("$dolmen" +:+ ds +:+ "$") +:+ rest)).
  cbn [read_sql edge_of]. rewrite He. simpl negb. cbn [andb].
  assert (after_dollar (("dolmen" +:+ ds +:+ "$") +:+ text +:+ ("$dolmen" +:+ ds +:+ "$") +:+ rest) = DText text rest) as ->; [|done].
  unfold after_dollar. replace (take_digits _) with ("", ("dolmen" +:+ ds +:+ "$") +:+ text +:+ ("$dolmen" +:+ ds +:+ "$") +:+ rest) by done.
  replace (("dolmen" +:+ ds +:+ "$") +:+ text +:+ ("$dolmen" +:+ ds +:+ "$") +:+ rest)
    with (("dolmen" +:+ ds) +:+ String "$" (text +:+ ("$dolmen" +:+ ds +:+ "$") +:+ rest)) by (by rewrite !app_assoc_str).
  rewrite take_word_all.
  2: { rewrite all_bytes_app. apply andb_true_iff. split; [done|]. revert Hds. apply all_bytes_mono, digit_word. }
  simpl Ascii.eqb. cbv iota. replace ("$" +:+ ("dolmen" +:+ ds) +:+ "$") with ("$dolmen" +:+ ds +:+ "$") by (by rewrite !app_assoc_str).
  by rewrite Hf.
Qed.

Section Pieces.
Context (ident : list string → string).

(** No digit follows a placeholder. *)
Lemma bind_follow q st c s : run (QOut EBind) q = Some st → sql_text ident q = String c s → digit_byte c = false.
Proof.
  induction q as [|p q IH]; [done|]. cbn [run]. destruct p as [t|t|t|parts|n]; cbn [run_piece joins]; try done.
  - destruct t as [|c' t]; cbn [scan_raw sql_text foldr piece_text]; [by apply IH|].
    destruct (qstep (QOut EBind) c') eqn:E; [|done]. intros _ [= <- _]. destruct (digit_byte c') eqn:Hd; [|done].
    cbn [qstep joins] in E. rewrite (digit_word _ Hd) in E. repeat case_match; done.
  - destruct t as [|c' t]; cbn [scan_raw sql_text foldr piece_text]; [by apply IH|].
    destruct (qstep (QOut EBind) c') eqn:E; [|done]. intros _ [= <- _]. destruct (digit_byte c') eqn:Hd; [|done].
    cbn [qstep joins] in E. rewrite (digit_word _ Hd) in E. repeat case_match; done.
Qed.
Lemma read_bind fuel e (n : nat) rest :
  joins e = false → (∀ c s, rest = String c s → digit_byte c = false) →
  read_sql (S fuel) (TOut e) (("$" +:+ pretty n) +:+ rest) = cons (TParam (pretty n)) <$> read_sql fuel (TOut EBind) rest.
Proof.
  intros He Hr. cbn [String.append read_sql edge_of]. rewrite He. cbn [negb andb]. simpl Ascii.eqb. cbv iota.
  unfold after_dollar. rewrite take_digits_all; [|apply pretty_N_digits|done].
  pose proof (pretty_nat_ne n) as Hne. by destruct (pretty n).
Qed.

Lemma read_pieces q fuel qs t e :
  run qs q = Some (QOut e) → good_end e → same_place qs t →
  (∀ text, Quoted text ∈ q → reads_back text = true) → (∀ parts, Name parts ∈ q → sanitized (ident parts)) →
  (String.length (sql_text ident q) ≤ fuel)%nat →
  read_sql fuel t (sql_text ident q) = Some (piece_tokens q).
Proof.
  intros Hrun He. revert qs t fuel Hrun. induction q as [|p q IH]; intros qs t fuel Hrun Ht Hq Hn Hf.
  - injection Hrun as ->. simpl. destruct e, t; try done; (destruct fuel; simpl in *; congruence || (destruct He as [?|[?|?]]; done) || idtac).
    all: try (simpl in Ht; subst; done).
  - cbn [run] in Hrun. destruct (run_piece qs p) as [q1|] eqn:E; [|done].
    assert (∀ text, Quoted text ∈ q → reads_back text = true) as Hq' by (intros; apply Hq; by right).
    assert (∀ parts, Name parts ∈ q → sanitized (ident parts)) as Hn' by (intros; apply Hn; by right).
    change (sql_text ident (p :: q)) with (piece_text ident p +:+ sql_text ident q) in *. rewrite string_length_app in Hf.
    assert (∀ x, piece_tokens (x :: q) = match piece_token x with Some y => y :: piece_tokens q | None => piece_tokens q end) as Htok by done.
    assert (∀ e', qs = QOut e' → joins e' = false → t = TOut e') as Hout.
    { intros e' -> He'. destruct e', t; simpl in Ht; try done; by subst. }
    destruct p as [s|s|text|parts|n]; rewrite Htok; cbn [piece_token run_piece piece_text] in *.
    + destruct (read_raw (fuel - String.length s) s (sql_text ident q) qs q1 t E Ht) as (t' & Ht' & Hr).
      replace (String.length s + (fuel - String.length s))%nat with fuel in Hr by lia. rewrite Hr. apply (IH q1); [done..|lia].
    + destruct (read_raw (fuel - String.length s) s (sql_text ident q) qs q1 t E Ht) as (t' & Ht' & Hr).
      replace (String.length s + (fuel - String.length s))%nat with fuel in Hr by lia. rewrite Hr. apply (IH q1); [done..|lia].
    + destruct qs as [e'| |]; try done. destruct (joins e') eqn:Hj; [done|]. injection E as <-. rewrite (Hout e' eq_refl Hj).
      assert (0 < String.length (dollarQuote text))%nat as Hpos.
      { destruct (dollar_tag_is_tag text) as (ds & _ & Hd). unfold dollarQuote. rewrite Hd. simpl. lia. }
      replace fuel with (S (String.length (sql_text ident q) + (fuel - S (String.length (sql_text ident q))))) by lia.
      rewrite read_quoted; [|done|apply Hq; by left]. rewrite (IH (QOut EPlain)); [done|done|done|done|done|lia].
    + destruct qs as [e'| |]; try done. destruct (joins e') eqn:Hj; [done|]. injection E as <-. rewrite (Hout e' eq_refl Hj).
      replace fuel with (String.length (ident parts) + (fuel - String.length (ident parts)))%nat by lia.
      rewrite read_name; [|apply Hn; by left|done|eauto]. apply (IH (QOut EWord)); [done..|lia].
    + destruct qs as [e'| |]; try done. destruct (joins e') eqn:Hj; [done|]. injection E as <-. rewrite (Hout e' eq_refl Hj).
      rewrite string_length_app in Hf. simpl in Hf. destruct fuel as [|fuel]; [lia|].
      rewrite read_bind; [|done|intros c s Hs; by eapply bind_follow].
      rewrite (IH (QOut EBind)); [done|done|done|done|done|lia].
Qed.
(** Of a text that closes, the reader finds the dollar-quoted texts and the
    placeholders, in order. *)
Lemma closes_tokens q :
  closes q → (∀ text, Quoted text ∈ q → reads_back text = true) → (∀ parts, Name parts ∈ q → sanitized (ident parts)) →
  sql_tokens (sql_text ident q) = Some (piece_tokens q).
Proof. intros (e & Hrun & He) Hq Hn. by eapply (read_pieces q _ (QOut EPlain)). Qed.
End Pieces.
