(* ===== verification/SharedFilter.v ===== *)
(** * Filters of updates and deletes on PostgreSQL
    ([internal/postgres/filter_render.go], [scope.go], [mutate.go])

    The statement that selects the rows a filter matches: the filter is parsed
    and rendered for the columns of its table, and put over the rows the
    caller's row scope leaves visible.  Names of tables and columns, and the
    namespace's schema, are as the catalog has them. *)
From Stdlib Require Import ZArith Lia Ascii String.
From stdpp Require Import base gmap strings list numbers pretty.
From S2P Require Import Prelude GoStrings SchemaIdent FilterLexer FilterParser Schema SchemaConstraints Authz GoNumbers GoFloats RenderSql FilterTime FilterTree FilterRender.
Local Open Scope Z_scope.
Local Open Scope sql_scope.

Record tableState := MkTableState {
  ts_schema : TableSchema; ts_physical : string; ts_columns : gmap string string }.

(** ** Row scopes *)

Definition scopePredicate (scope : option RowScope) (alias : string) (next : nat) : sql * list value :=
  match scope with
  | None => ([], [])
  | Some sc =>
      if rs_Empty sc then (raw "false", [])
      else
        let col := [Name [OwnerColumn]] in
        let col := if String.eqb alias "" then col else [Name [alias]] ⊕ "." ⊕ col in
        (col ⊕ " = " ⊕ [Bind next], [VString (rs_Owner sc)])
  end.
Definition visibleRelation : string := "_dolmen_visible".
(** What comes before the statement, what it selects from, and the arguments. *)
Definition scopedSourceAt (table : sql) (scope : option RowScope) (next : nat) : sql * sql * list value :=
  let '(cond, args) := scopePredicate scope "" next in
  if decide (cond = []) then ([], table, [])
  else ("WITH " ⊕ [Name [visibleRelation]] ⊕ " AS MATERIALIZED (SELECT * FROM ONLY " ⊕ table ⊕ " WHERE " ⊕ cond ⊕ ") ",
        [Name [visibleRelation]], args).

(** ** The columns of a table *)

Definition filterTypeMap (state : tableState) : gmap string FieldType :=
  let types := foldl (λ m f, <[f_Name f := f_Type f]> m)
    (<["id" := Number]> (<["created_at" := Timestamp]> ∅)) (t_Fields (ts_schema state)) in
  if t_HasOwner (ts_schema state) then <[OwnerColumn := Text]> types else types.
Definition filterColumnMap (state : tableState) : gmap string string :=
  let columns := ts_columns state ∪ <["id" := "id"]> (<["created_at" := "created_at"]> ∅) in
  if t_HasOwner (ts_schema state) then <[OwnerColumn := OwnerColumn]> columns else columns.

(** ** The statement *)

Inductive shared_error :=
| SharedCanceled (e : ctx_error)
| SharedInvalid (e : error)
| SharedRender (e : render_error)
| SharedEmpty
| SharedStatements.

Section Shared.
Context {UT : UnicodeTables} (ident : list string → string).
(** [parsed] counts the observations of the context until the parser is done. *)
Context (context : ctx) (parsed : nat).

Definition after_parse : ctx := λ k, context (parsed + k)%nat.

Definition renderSharedFilter (physical expr : string) (args : list value) (state : tableState) (scope : option RowScope)
  : outcome shared_error (sql * list value) :=
  let columns := filterColumnMap state in
  match Parse expr (MkOptions (Some context) (map fst (map_to_list columns)) (map parser_arg args)) with
  | OutOfFuel => OutOfFuel
  | Fail e => Fail (match after_parse O with Some c => SharedCanceled c | None => SharedInvalid e end)
  | Done node =>
      let '(prefix, source, lead) := scopedSourceAt [Name [physical; ts_physical state]] scope 1 in
      let rd := Renderer after_parse columns (filterTypeMap state) args (S (length lead)) in
      match renderScopedFilter ident rd node with
      | Done (rendered, bound) =>
          Done (prefix ⊕ "SELECT id FROM " ⊕ source ⊕ " WHERE " ⊕ rendered ⊕ " ORDER BY id", lead ++ bound)
      | Fail e => Fail (SharedRender e)
      | OutOfFuel => OutOfFuel
      end
  end.

(** [compileMutationFilter] of a store that shares the filter language. *)
Definition compileMutationFilter (physical filter : string) (args : list value) (state : tableState) (scope : option RowScope)
  : outcome shared_error (sql * list value) :=
  let filter := trim_space filter in
  if String.eqb filter "" then Fail SharedEmpty
  else if contains filter ";" then Fail SharedStatements
  else renderSharedFilter physical filter args state scope.
End Shared.
