(* ===== verification/RenderTheorems.v ===== *)
(** * Rendered filters: the theorems

    A filter the language accepts is rendered or refused by name, never
    otherwise; what is rendered binds its placeholders to the arguments in
    order, names only the filter's columns, and is read by PostgreSQL with
    every text of the filter inside its own quotes.  The statement of an
    update or delete sees only the rows of the caller's scope. *)
From Stdlib Require Import ZArith Lia Ascii String.
From stdpp Require Import base gmap strings list numbers pretty.
From S2P Require Import Prelude GoStrings SchemaIdent FilterLexer FilterParser FilterShape Schema SchemaConstraints Authz GoNumbers GoFloats RenderSql FilterTime FilterTree FilterRender RenderQuotes RenderNumbers RenderSpec RenderMethods RenderTotal RenderReader SharedFilter.
Local Open Scope Z_scope.
Local Open Scope sql_scope.

(** ** Loading a filter *)

Lemma map_fresh_erase {A B} (f : A → loc → B * loc) (g : B → A) l p :
  (∀ x q, x ∈ l → g (f x q).1 = x) → map g (map_fresh f l p).1 = l.
Proof.
  revert p. induction l as [|x l IH]; intros p H; [done|]. cbn [map_fresh].
  pose proof (H x p ltac:(by left)) as Hx. destruct (f x p) as [y q]. specialize (IH q ltac:(intros; apply H; by right)).
  destruct (map_fresh f l q) as [ys q']. simpl in *. by rewrite Hx, IH.
Qed.
Definition node_children (n : Node) : list Node :=
  match n with
  | Call _ args => args
  | Binary _ l r | Is _ l r => [l; r]
  | Unary _ o | Paren o => [o]
  | In _ l items => l :: items
  | Like _ l pat esc => [l; pat] ++ FilterTree.option_list esc
  | Between _ v lo hi => [v; lo; hi]
  | Case o bs e => FilterTree.option_list o ++ mjoin (map (λ b, [fst b; snd b]) bs) ++ FilterTree.option_list e
  | _ => []
  end.
Lemma node_ind' (P : Node → Prop) : (∀ n, (∀ m, m ∈ node_children n → P m) → P n) → ∀ n, P n.
Proof.
  intros H. fix IH 1. intros n. apply H. clear H.
  destruct n as [| | |name args| op l r|op o|i|neg l r|neg l items|neg l pat esc|neg v lo hi|o bs e];
    cbn [node_children]; apply Forall_forall; repeat (apply Forall_cons; split; [apply IH|]); try constructor.
  - induction args as [|a args IHa]; constructor; [apply IH|exact IHa].
  - induction items as [|a items IHa]; constructor; [apply IH|exact IHa].
  - destruct esc; repeat constructor; apply IH.
  - apply Forall_app. split; [destruct o; repeat constructor; apply IH|].
    apply Forall_app. split; [|destruct e; repeat constructor; apply IH].
    induction bs as [|[w t] bs IHb]; [constructor|]. constructor; [apply IH|]. constructor; [apply IH|exact IHb].
Qed.

Ltac loaded H :=
  match goal with
  | |- context [load ?m ?q] =>
      let E := fresh "E" in pose proof (H m ltac:(rewrite ?elem_of_cons; auto) q) as E; destruct (load m q) as [? ?]; cbn [fst] in E
  end.
Lemma option_fresh_erase o p :
  (∀ m, m ∈ FilterTree.option_list o → ∀ q, erase (load m q).1 = m) → option_map erase (option_fresh load o p).1 = o.
Proof.
  intros H. destruct o as [m|]; [|done]. simpl in *. specialize (H m ltac:(by left) p). destruct (load m p). simpl in *. by rewrite H.
Qed.
Lemma erase_load n p : erase (load n p).1 = n.
Proof.
  revert p. induction n as [n IH] using node_ind'. intros p.
  destruct n as [| | |name args| op l r|op o|i|neg l r|neg l items|neg l pat esc|neg v lo hi|o bs e]; try done;
    cbn [node_children app] in IH; cbn [load].
  - pose proof (map_fresh_erase load erase args (S p) ltac:(auto)) as E. destruct (map_fresh load args (S p)). simpl in *. by rewrite E.
  - do 2 loaded IH. simpl. congruence.
  - loaded IH. simpl. congruence.
  - loaded IH. simpl. congruence.
  - do 2 loaded IH. simpl. congruence.
  - loaded IH. match goal with |- context [map_fresh load items ?q] =>
      pose proof (map_fresh_erase load erase items q ltac:(intros; apply IH; by right)) as E'; destruct (map_fresh load items q) end.
    simpl in *. congruence.
  - do 2 loaded IH. match goal with |- context [option_fresh load esc ?q] =>
      pose proof (option_fresh_erase esc q ltac:(intros; apply IH; by right; right)) as E'; destruct (option_fresh load esc q) end.
    simpl in *. congruence.
  - do 3 loaded IH. simpl. congruence.
  - pose proof (option_fresh_erase o (S p) ltac:(intros; apply IH; rewrite !elem_of_app; by left)) as Eo.
    destruct (option_fresh load o (S p)) as [o' q]. cbn [fst] in Eo.
    pose proof (map_fresh_erase (λ b q, let '(w, q) := load (fst b) q in let '(t, q) := load (snd b) q in ((w, t), q))
      (λ b, (erase b.1, erase b.2)) bs q) as Eb.
    assert (∀ b, b ∈ bs → ∀ q, erase (load b.1 q).1 = b.1 ∧ erase (load b.2 q).1 = b.2) as Hb.
    { intros b Hb q'. split; apply IH; rewrite !elem_of_app; right; left; apply list_elem_of_join;
        exists [b.1; b.2]; (split; [|by apply (list_elem_of_fmap_2 (λ b, [b.1; b.2]))]); [by left|right; by left]. }
    specialize (Eb ltac:(intros b q' Hin; destruct (Hb b Hin q') as [E1 _]; destruct (load b.1 q') as [w q1];
      destruct (Hb b Hin q1) as [_ E2]; destruct (load b.2 q1) as [t q2]; simpl in *; rewrite E1, E2; by destruct b)).
    destruct (map_fresh _ bs q) as [bs' q1]. cbn [fst] in Eb.
    pose proof (option_fresh_erase e q1 ltac:(intros; apply IH; rewrite !elem_of_app; by right; right)) as Ee.
    destruct (option_fresh load e q1) as [e' q2]. simpl in *. congruence.
Qed.

Section Rendered.
Context {UT : UnicodeTables} (ident : list string → string).

(** What is known of a rendered filter. *)
Record sound (rd : renderer) (C : gset string) (q : sql) (values : list value) : Prop := Sound {
  sound_closes : closes q;
  sound_within : within (Limits (r_next rd) (r_next rd + length values) (column_names rd C)) q;
  sound_uses : ∀ k, (k < length values)%nat → uses (r_next rd + k) q;
  sound_values : Forall (from_args rd) values }.

Lemma renderScopedFilter_sound expr opts n rd :
  Parse expr opts = Done n →
  returns (renderScopedFilter ident rd n) (λ '(q, values), sound rd (list_to_set (map to_lower (o_Columns opts))) q values).
Proof.
  intros Hn%Parse_regular. unfold renderScopedFilter. pose proof (erase_load n 0) as E.
  destruct (load n 0) as [root p]. cbn [fst] in E. set (C := list_to_set (map to_lower (o_Columns opts))) in *.
  assert (well_formed C root) as Hroot by (unfold well_formed; by rewrite E).
  assert (wp (do! _ := observe rd in liftedTruth ident rd lift_fuel root) (RState 0 [] false ∅ ∅ 0 p)
    (λ q s', rendered rd C (RState 0 [] false ∅ ∅ 0 p) q s')) as H.
  { apply wp_seq. unfold observe, wp at 1. cbn [s_seen]. destruct (r_ctx rd 0%nat); [done|].
    eapply wp_weaken; [apply (liftedTruth_renders ident rd C lift_fuel root Hroot 0)|].
    - unfold lift_fuel. lia.
    - unfold lift_fuel, maxLiftedBranches. lia.
    - by split.
    - simpl. lia.
    - intros q s' (? & [? ?] & ? & ?). by split_and!. }
  unfold wp in H. destruct ((do! _ := observe rd in liftedTruth ident rd lift_fuel root) _) as [[q|e|] s']; [|done..].
  destruct H as ([Hb _] & _ & [Hc Hw] & Hv). cbn [obind returns]. split; [done|exact Hw| |done].
  intros k Hk. apply Hv. simpl. lia.
Qed.
Lemma renderScopedFilter_done expr opts n rd q values :
  Parse expr opts = Done n → renderScopedFilter ident rd n = Done (q, values) →
  sound rd (list_to_set (map to_lower (o_Columns opts))) q values.
Proof. intros Hn Hr. pose proof (renderScopedFilter_sound expr opts n rd Hn) as H. by rewrite Hr in H. Qed.

Lemma sound_placeholders rd C q values k :
  sound rd C q values → Bind k ∈ q ↔ (r_next rd ≤ k < r_next rd + length values)%nat.
Proof.
  intros [_ Hw Hu _]. split.
  - intros Hk. unfold within in Hw. rewrite Forall_forall in Hw. exact (Hw _ Hk).
  - intros Hk. pose proof (Hu (k - r_next rd)%nat ltac:(lia)) as H. unfold uses in H.
    by replace (r_next rd + (k - r_next rd))%nat with k in H by lia.
Qed.
Lemma sound_names rd C q values parts :
  sound rd C q values → Name parts ∈ q → ∃ c, (c ∈ C ∨ c = "id") ∧ parts = [default c (r_columns rd !! c)].
Proof. intros [_ Hw _ _] Hn. unfold within in Hw. rewrite Forall_forall in Hw. exact (Hw _ Hn). Qed.

(** C35. Rendering an accepted filter ends, and never in a panic: whatever the
    columns, the types, the arguments and the context, a filter the parser
    accepted is rendered or refused with an error of the renderer.  The lifting of
    conditionals, which renders a copy of the filter for each branch, ends
    because each level counts its branches against the limit. *)
Theorem renderScopedFilter_total expr opts n rd :
  Parse expr opts = Done n →
  renderScopedFilter ident rd n ≠ OutOfFuel ∧ renderScopedFilter ident rd n ≠ Fail Panic.
Proof.
  intros Hn. pose proof (renderScopedFilter_sound expr opts n rd Hn) as H.
  destruct (renderScopedFilter ident rd n) as [v|e|]; simpl in H; [done| |done]. split; [done|]. by intros [= ->].
Qed.

(** The placeholders of a rendered filter are exactly the numbers from the
    first free one on, one for each bound value: none is missing, none points
    past the values or at an argument of the scope, and every bound value is
    an argument of the filter in the form the store binds it. *)
Theorem rendered_placeholders expr opts n rd q values :
  Parse expr opts = Done n → renderScopedFilter ident rd n = Done (q, values) →
  (∀ k, Bind k ∈ q ↔ (r_next rd ≤ k < r_next rd + length values)%nat)
  ∧ (∀ v, v ∈ values → ∃ a, a ∈ r_args rd ∧ v = canonicalArgument a).
Proof.
  intros Hn Hr. pose proof (renderScopedFilter_done _ _ _ _ _ _ Hn Hr) as H. split.
  - intros k. by eapply sound_placeholders.
  - intros v Hv. destruct H as [_ _ _ Hf]. rewrite Forall_forall in Hf. by apply Hf.
Qed.

(** C20. A rendered filter is read by PostgreSQL as it was meant: the lexer
    finds, in order, the texts the renderer quoted and the placeholders it
    wrote, and no quote is left open -- no text of a filter reaches the
    statement around it.  The driver's quoting of names is as documented;
    the texts must be such that dollar quoting gives them back. *)
Theorem rendered_reads expr opts n rd q values :
  (∀ c, sanitized (ident [c])) →
  Parse expr opts = Done n → renderScopedFilter ident rd n = Done (q, values) →
  (∀ text, Quoted text ∈ q → reads_back text = true) →
  sql_tokens (sql_text ident q) = Some (piece_tokens q).
Proof.
  intros Hi Hn Hr Hq. pose proof (renderScopedFilter_done _ _ _ _ _ _ Hn Hr) as H. apply closes_tokens; [apply H|done|].
  intros parts Hp. destruct (sound_names _ _ _ _ _ H Hp) as (c & _ & ->). apply Hi.
Qed.

(** Dollar quoting gives a text back: the tag chosen does not occur in
    the text, whatever the text, so the loop that looks for one ends; and the
    quoted text is read back, with any continuation of the statement, exactly
    when it does not end in the tag less its last dollar sign.  A text that
    does is closed one byte early. *)
Theorem dollarQuote_roundtrip text :
  contains text (dollar_tag text) = false
  ∧ ∀ rest, find_tag (dollar_tag text) (text +:+ dollar_tag text +:+ rest) = Some (text, rest) ↔ reads_back text = true.
Proof. split; [apply dollar_tag_fresh|]. intros rest. apply dollarQuote_reads. Qed.

(** ** Statements of updates and deletes *)

(** The statement over the rows a scope with an owner leaves visible. *)
Definition scoped_statement (physical : string) (state : tableState) (rendered : sql) : sql :=
  "WITH " ⊕ [Name [visibleRelation]] ⊕ " AS MATERIALIZED (SELECT * FROM ONLY " ⊕ [Name [physical; ts_physical state]]
  ⊕ " WHERE " ⊕ [Name [OwnerColumn]] ⊕ " = " ⊕ [Bind 1] ⊕ ") " ⊕ "SELECT id FROM " ⊕ [Name [visibleRelation]] ⊕ " WHERE "
  ⊕ rendered ⊕ " ORDER BY id".

Lemma renderSharedFilter_done context parsed physical expr args state scope q values :
  renderSharedFilter ident context parsed physical expr args state scope = Done (q, values) →
  ∃ prefix source lead rendered bound,
    scopedSourceAt [Name [physical; ts_physical state]] scope 1 = (prefix, source, lead)
    ∧ sound (Renderer (after_parse context parsed) (filterColumnMap state) (filterTypeMap state) args (S (length lead)))
        (list_to_set (map to_lower (map fst (map_to_list (filterColumnMap state))))) rendered bound
    ∧ q = prefix ⊕ "SELECT id FROM " ⊕ source ⊕ " WHERE " ⊕ rendered ⊕ " ORDER BY id" ∧ values = lead ++ bound.
Proof.
  unfold renderSharedFilter. destruct (Parse _ _) as [n|e|] eqn:Hn; [|done|done].
  destruct (scopedSourceAt _ _ _) as [[prefix source] lead].
  destruct (renderScopedFilter _ _ _) as [[rendered bound]|e|] eqn:Hr; [|done|done]. intros [= <- <-].
  exists prefix, source, lead, rendered, bound. split_and!; [done| |done|done].
  exact (renderScopedFilter_done _ _ _ _ _ _ Hn Hr).
Qed.

(** C25. An update or delete under a row scope with an owner selects its rows
    from the owner's rows only: the statement is the fixed one over the rows
    whose owner is the first argument, with the rendered filter in its place;
    the filter's placeholders start past that argument, and it names nothing
    but columns of the table.  Read by PostgreSQL, the statement is one
    sequence of tokens, with the filter's own between the fixed ones. *)
Theorem compileMutationFilter_scoped context parsed physical filter args state owner q values :
  (∀ parts, parts ≠ [] → sanitized (ident parts)) →
  compileMutationFilter ident context parsed physical filter args state (Some (MkRowScope owner false)) = Done (q, values) →
  ∃ rendered bound,
    q = scoped_statement physical state rendered ∧ values = VString owner :: bound
    ∧ (∀ k, Bind k ∈ rendered ↔ (2 ≤ k < 2 + length bound)%nat)
    ∧ (∀ parts, Name parts ∈ rendered → ∃ c,
         ((∃ name, name ∈ dom (filterColumnMap state) ∧ c = to_lower name) ∨ c = "id")
         ∧ parts = [default c (filterColumnMap state !! c)])
    ∧ (∀ v, v ∈ bound → ∃ a, a ∈ args ∧ v = canonicalArgument a)
    ∧ ((∀ text, Quoted text ∈ rendered → reads_back text = true) →
       sql_tokens (sql_text ident q) = Some (TParam "1" :: piece_tokens rendered)).
Proof.
  intros Hi H. unfold compileMutationFilter in H. destruct (String.eqb _ ""); [done|]. destruct (contains _ ";"); [done|].
  apply renderSharedFilter_done in H as (prefix & source & lead & rendered & bound & Hs & Hsound & -> & ->).
  injection Hs as <- <- <-. exists rendered, bound. split_and!; [done|done| | | |].
  - intros k. by apply (sound_placeholders _ _ _ _ k Hsound).
  - intros parts Hp. destruct (sound_names _ _ _ _ _ Hsound Hp) as (c & Hc & ->). exists c. split; [|done].
    destruct Hc as [Hc| ->]; [left|by right].
    apply elem_of_list_to_set, list_elem_of_fmap in Hc as (name & -> & ([name' v] & -> & Hin)%list_elem_of_fmap).
    exists name'. split; [|done]. apply elem_of_dom. apply elem_of_map_to_list in Hin. by exists v.
  - intros v Hv. destruct Hsound as [_ _ _ Hf]. rewrite Forall_forall in Hf. by apply Hf.
  - intros Hq. rewrite closes_tokens; [unfold piece_tokens, cat; simpl; rewrite omap_app; simpl; by rewrite app_nil_r|..].
    + destruct Hsound as [Hc _ _ _]. change (closes (scoped_statement physical state rendered)). unfold scoped_statement. closing.
    + intros text Ht. apply Hq. change (Quoted text ∈ scoped_statement physical state rendered) in Ht.
      unfold scoped_statement, cat, raw in Ht. rewrite !elem_of_app, !list_elem_of_singleton in Ht. by destruct_or?.
    + intros parts Hp. apply Hi. change (Name parts ∈ scoped_statement physical state rendered) in Hp.
      unfold scoped_statement, cat, raw in Hp. rewrite !elem_of_app, !list_elem_of_singleton in Hp.
      destruct_or?; simplify_eq; try done. by destruct (sound_names _ _ _ _ _ Hsound Hp) as (c & _ & ->).
Qed.
End Rendered.

(** ** At concrete filters *)

Section Examples.
#[local] Existing Instance ascii_tables.
Definition example_types : gmap string FieldType :=
  list_to_map [("id", Number); ("name", TString); ("age", Number); ("done", Boolean); ("due", Timestamp); ("body", Text)].
Definition example_columns : gmap string string :=
  list_to_map [("id", "id"); ("name", "c1"); ("age", "c2"); ("done", "c3"); ("due", "c4"); ("body", "c5")].
Definition example_names : list string := ["id"; "name"; "age"; "done"; "due"; "body"].
Definition render_example (expr : string) (args : list value) : outcome render_error (string * list value) :=
  match Parse expr (MkOptions None example_names (map parser_arg args)) with
  | Done n =>
      match renderScopedFilter sanitize (Renderer background example_columns example_types args 1) n with
      | Done (q, values) => Done (sql_text sanitize q, values)
      | Fail e => Fail e
      | OutOfFuel => OutOfFuel
      end
  | _ => Fail (NotSupplied 0)
  end.

Definition quote_name (s : string) : string := dq +:+ s +:+ dq.
Example rendered_filters :
  map (λ '(e, args), render_example e args)
    [("name = 'x''y' and done", []); ("age between -1 and 0x10", []); ("age = ?", [VInt Kint 5]); ("coalesce(name, age) = 3", [])]
  = [Done ("((" +:+ quote_name "c1" +:+ " = $dolmen$x'y$dolmen$ COLLATE " +:+ quote_name "C" +:+ ") AND " +:+ quote_name "c3" +:+ ")", []);
     Done ("((" +:+ quote_name "c2" +:+ " >= (-1)) AND (" +:+ quote_name "c2" +:+ " <= 16))", []);
     Done ("(" +:+ quote_name "c2" +:+ " = $1::numeric)", [VInt Kint 5]);
     Done ("(CASE WHEN (NOT (COALESCE((" +:+ quote_name "c1" +:+ " = NULL), FALSE) OR (" +:+ quote_name "c1"
           +:+ " IS NULL AND NULL IS NULL))) THEN (CASE WHEN " +:+ quote_name "c1"
           +:+ " IS NULL OR 3 IS NULL THEN NULL ELSE FALSE END) ELSE (" +:+ quote_name "c2" +:+ " = 3) END)", [])].
Proof. vm_compute. reflexivity. Qed.
Example refused_filters :
  map (λ e, match render_example e [] with Fail e => Some e | _ => None end) ["date('-2024-01-01') = 'x'"; "age || 1 = 'x'"]
  = [Some (NotRenderable (RTime "-2024-01-01")); Some (NotRenderable (RFeature "concatenation of a number this engine cannot render SQLite's text for"))].
Proof. vm_compute. reflexivity. Qed.

(** A text that ends in the tag less its last dollar sign is closed early:
    what PostgreSQL reads is not the text, and a quote stays open. *)
Example early_close :
  dollarQuote "x$dolmen" = "$dolmen$x$dolmen$dolmen$" ∧ reads_back "x$dolmen" = false
  ∧ find_tag (dollar_tag "x$dolmen") ("x$dolmen" +:+ "$dolmen$") = Some ("x", "dolmen$")
  ∧ sql_tokens (dollarQuote "x$dolmen") = None.
Proof. vm_compute. done. Qed.

(** A filter with every kind of piece, and its table. *)
Definition example_filter : string := "age > ? and name = 'it''s'".
Definition example_node : Node := Binary "and" (Binary ">" (Column "age") (Param 0)) (Binary "=" (Column "name") (Literal LiteralString "it's")).
Definition example_options : Options := MkOptions None example_names [ArgOther].
Definition example_renderer : renderer := Renderer background example_columns example_types [VInt Kint64 7] 2.
Definition example_sql : sql := match renderScopedFilter sanitize example_renderer example_node with Done (q, _) => q | _ => [] end.

Lemma renderScopedFilter_total_witness :
  Parse example_filter example_options = Done example_node
  ∧ renderScopedFilter sanitize example_renderer example_node ≠ OutOfFuel
  ∧ renderScopedFilter sanitize example_renderer example_node ≠ Fail Panic.
Proof.
  assert (Parse example_filter example_options = Done example_node) as H by (vm_compute; reflexivity).
  split; [exact H|]. exact (renderScopedFilter_total sanitize example_filter example_options example_node example_renderer H).
Defined.

Lemma rendered_placeholders_witness :
  (Bind 2 ∈ example_sql) ∧ (Bind 1 ∉ example_sql) ∧ (Bind 3 ∉ example_sql).
Proof.
  destruct (rendered_placeholders sanitize example_filter example_options example_node example_renderer example_sql [VInt Kint64 7]
    ltac:(vm_compute; reflexivity) ltac:(vm_compute; reflexivity)) as [H _].
  split_and!; rewrite H; simpl; lia.
Defined.

Lemma rendered_reads_witness :
  sql_tokens (sql_text sanitize example_sql) = Some [TParam "2"; TText "it's"].
Proof.
  refine (eq_trans (rendered_reads sanitize example_filter example_options example_node example_renderer example_sql [VInt Kint64 7] _ _ _ _) _).
  - intros c. by apply sanitize_sanitized.
  - vm_compute. reflexivity.
  - vm_compute. reflexivity.
  - assert (forallb (λ p, match p with Quoted t => reads_back t | _ => true end) example_sql = true) as H by (vm_compute; reflexivity).
    rewrite forallb_forall in H. intros text Ht%list_elem_of_In. exact (H (Quoted text) Ht).
  - vm_compute. reflexivity.
Defined.

Definition example_state : tableState :=
  MkTableState (MkTable "app" "notes" 1 [MkField "name" TString false false 0 false None "" JNull 0 None;
                                         MkField "age" Number false false 0 false None "" JNull 0 None] "" 0 "own" true [] false None)
    "t1" (list_to_map [("name", "c1"); ("age", "c2")]).
Definition example_statement : sql * list value :=
  match compileMutationFilter sanitize background 0 "n1" example_filter [VInt Kint64 7] example_state (Some (MkRowScope "ana" false)) with
  | Done v => v | _ => ([], []) end.
Lemma compileMutationFilter_scoped_witness :
  snd example_statement = [VString "ana"; VInt Kint64 7]
  ∧ ∃ rendered, fst example_statement = scoped_statement "n1" example_state rendered ∧ (Bind 2 ∈ rendered) ∧ (Bind 1 ∉ rendered).
Proof.
  destruct (compileMutationFilter_scoped sanitize background 0 "n1" example_filter [VInt Kint64 7] example_state "ana"
    (fst example_statement) (snd example_statement)) as (rendered & bound & Hq & Hv & Hb & _).
  - intros parts Hp. by apply sanitize_sanitized.
  - vm_compute. reflexivity.
  - assert (snd example_statement = [VString "ana"; VInt Kint64 7]) as E by (vm_compute; reflexivity).
    rewrite E in Hv. injection Hv as <-. split; [exact E|]. exists rendered. split; [exact Hq|]. clear Hq E.
    rewrite !Hb. simpl. lia.
Defined.
End Examples.
